(* ===== verification/_CoqProject ===== *)
-Q . S2P
Prelude.v
CString.v
Strtonum.v
Sexpr.v
SexprFacts.v
StrList.v
Args.v
Kv.v
Gate.v
World.v
Registry.v
Fs.v
Exec.v
BatchFacts.v
Expand.v
Frame.v
Growth.v
Parse.v
Resolve.v
ResolveFacts.v
ParseFacts.v
Schedule.v
ScheduleFacts.v
SummaryFacts.v
Ninja.v
Query.v
Main.v
Load.v
Budget.v
Table.v
TableFacts.v
Utf.v
UtfFacts.v
Tcutil.v
TcutilFacts.v
Digest.v
DigestFacts.v
Stdio.v
Crypt.v
Base64.v
Base64Facts.v
Cksum.v
Tsort.v
TsortFacts.v
Dc.v
DcFacts.v
DcDiv.v
DcDivmod.v
DcIo.v
DcIoFacts.v
DcVm.v
DcVmFacts.v
DcRun.v
Inflate.v
Deflate.v
InflateFacts.v
Gzip.v
GzipFacts.v
Diff.v
DiffFacts.v
Diff3.v
Diff3Facts.v
Expr.v
ExprFacts.v
Test.v
Cal.v
Mode.v
Uu.v
UuFacts.v
Text.v
Comm.v
Cut.v
Uniq.v
RuneType.v
Tr.v
TrFacts.v
Sort.v
SortFacts.v
Tabs.v
Join.v
