(* ===== verification/Prelude.v ===== *)
(** * Verification of the ninqu build tool, shared libraries and utilities of aruu

    aruu is a userland: POSIX utilities, a shell, a small toolchain and the
    libraries they share, all in C.  ninqu (src/cmd/dev/ninqu) is the tool that
    builds it.  This development models the whole of ninqu; the parts of
    libutil, libtcutil and libutf (src/shared) that carry data structures,
    encodings, differences and message digests; and the utilities that compute:
    the eight digest commands, cksum, base64, uuencode and uudecode, tsort, gzip,
    expr, test, cal, comm, cut, sort, tr, uniq, diff3 and the calculator dc.

    ** The program and the files that model it

    ninqu reads a manifest of s-expressions, which declares variables, groups,
    templates, metas and rules; resolves the targets of the command line to
    rules; expands each rule to instances, one per matched file; and hands the
    instances to a backend, which runs them level by level or writes
    build.ninja.  Expansion may itself run the producer of a missing input.

      - Prelude.v: C strings, the outcome monad [M], field assignment, the
        relational reasoning ([preserves], [mono]) and its tactics, bit
        operations as arithmetic
      - CString.v, Strtonum.v: <string.h>, libutil's strlcpy.c and strtonum.c
      - Sexpr.v, SexprFacts.v: sexpr.c, the reader of manifests
      - StrList.v: strlist.c; Kv.v: kv.c, variables and $(...) expansion;
        Gate.v: gate.c, conditions
      - World.v: the operating system as a class [World], and an
        in-memory instance; it stands for the system calls, which are not code
        of the repository
      - Registry.v: ninqu.h and registry.c; [state] has one field per global
        variable of the program, pointers into its arrays are indices
      - Fs.v: fs.c, with mkdirp.c and recurse_dir.c of libutil
      - Exec.v, BatchFacts.v: exec.c, staleness, producers, parallel batches
      - Expand.v: expand.c; Frame.v, Growth.v: what expansion can change
      - Parse.v, ParseFacts.v: parse.c, the forms of a manifest
      - Resolve.v, ResolveFacts.v: resolve.c, from targets to rules
      - Schedule.v, ScheduleFacts.v, SummaryFacts.v: schedule.c
      - Ninja.v: ninja.c; Query.v: query.c
      - Args.v: the option macro ARGBEGIN of src/shared/arg.h, for any utility
      - Main.v: backend.c and main.c, and runs of the whole program on small
        manifests
      - Load.v: invariants of a whole run; Budget.v: independence of budgets
      - Table.v, TableFacts.v: libtcutil/table.c, hash tables and interned names
      - Utf.v, UtfFacts.v: libutf, UTF-8
      - Tcutil.v, TcutilFacts.v: the containers of libtcutil/tcutil.c

    The utilities are programs of their own; what they share is in libutil.

      - Digest.v, DigestFacts.v: md5.c, sha1.c, sha256.c, sha512.c and their
        variants in libutil; Stdio.v: buffered input as the utilities read it;
        Crypt.v: crypt.c, the body of md5sum, sha1sum and so on with its -c mode
      - Base64.v, Base64Facts.v: src/cmd/pseudo/base64.c
      - Cksum.v: src/cmd/posix/cksum.c; Tsort.v, TsortFacts.v: src/cmd/posix/tsort.c
      - Dc.v, DcDiv.v, DcIo.v: the numbers of src/cmd/extra/dc.c, with their
        arithmetic, division, reading and printing; DcFacts.v, DcDivmod.v
        and DcIoFacts.v hold the proofs; DcVm.v: its stack, registers,
        macros and command loop; DcVmFacts.v: the invariant of its state;
        DcRun.v: from the text of an expression to the printed value
      - Inflate.v: the deflate decoder of src/cmd/pseudo/gzip.c; Deflate.v: the
        format of RFC 1951 on bits, which it is compared
        with in InflateFacts.v; Gzip.v: the rest of the program; GzipFacts.v
      - Diff.v, DiffFacts.v: libutil/diffutil.c, differences of files by lines
        and their formats; Diff3.v, Diff3Facts.v: src/cmd/pseudo/diff3.c
      - Expr.v, ExprFacts.v: src/cmd/posix/expr.c; Test.v: src/cmd/posix/test.c;
        Cal.v: src/cmd/posix/cal.c
      - Mode.v: parsemode of libutil/mode.c; Uu.v, UuFacts.v: uuencode.c and
        uudecode.c of src/cmd/posix
      - Text.v: unescape.c, linecmp.c, memmem.c and getlines.c of libutil, and the
        streams and operands of the utilities on lines; Comm.v, Uniq.v and
        Cut.v: comm.c, uniq.c and cut.c of src/cmd/posix
      - RuneType.v: the classes and cases of runes of libutf; Tr.v, TrFacts.v:
        src/cmd/posix/tr.c; Sort.v, SortFacts.v: src/cmd/posix/sort.c
      - Tabs.v: expand.c and unexpand.c of src/cmd/posix; Join.v: join.c

    A C function that changes globals is a computation in [M state], one
    definition per function, in the order of the source; [st_world] is the last
    field of the state, so that effects on the system are in the sequence too.
    A fixed-size field keeps the truncation of its [strlcpy]; an access outside
    an array is [Ub]; [eprintf] and failed assertions are [Die].

    ** Interfaces

    [World] (World.v) lists the system calls.  [Processes] (BatchFacts.v) adds
    the laws of fork and wait that run_batch relies on; the in-memory world satisfies
    them.  [Stable] (Frame.v) lists the elementary updates expand_rule makes:
    a relation that holds across each holds across expand_rule.  [Loadable]
    (Load.v) extends it to the loader, the resolver, the scheduler and the
    generators.  The invariants ([grows], [keeps_index], [keeps_locked]) are
    instances, so each is proved on updates of single fields and lifted to the
    whole program once.  [crypt_ops] (Digest.v) is the table of functions by
    which crypt.c reaches a digest: the round trip of Crypt.v is proved for any
    digest, and DigestFacts.v shows what each of the eight computes.

    ** What the theorems show

      - The schedule is Kahn's algorithm, and it reports a cycle exactly when the
        dependencies have one; summary mode marks exactly what is stale; a parallel batch terminates, respects
        the job limit, and starts and reaps everything (ScheduleFacts,
        SummaryFacts, BatchFacts).
      - For every manifest the prepared instances satisfy the hypotheses of
        the schedule, and a variable of the command line keeps its value (Load).
      - Expanding a rule changes only instances and flags, keeps rules and
        instances consistent, happens once, and is switched off by a false gate
        (Growth); groups are followed completely and with an end also when they
        are cyclic (ResolveFacts).
      - The reader is total, stays inside its buffer and inverts a printer
        (SexprFacts); paths and commands of build.ninja are read back by ninja and the
        shell (Ninja); token lists, set-file lines and names (ParseFacts).
      - Variables are a finite map, their expansion ends, gates evaluate
        to their Boolean meaning (Kv, Gate); the search of a file for a marker
        is exact (Fs); strlcpy and strtonum meet their documentation.
      - A hash table refines a finite map and interning is injective
        (TableFacts); the UTF-8 decoder accepts exactly the shortest encodings, and
        runes are found where they stand (UtfFacts); vectors refine lists, LEB128 numbers are read back, and nested
        chunks are length-prefixed (TcutilFacts).
      - The digests are those of RFC 1321 and FIPS 180-4 for any splitting of
        the message (DigestFacts), and the list a sum utility prints passes its
        own check (Crypt); cksum is the polynomial remainder of POSIX (Cksum).
      - base64 writes RFC 4648 and decodes what it wrote (Base64Facts); tsort
        prints a topological order exactly when there is one (TsortFacts).
      - dc's arithmetic is exact up to the documented truncation; its division
        by guessed digits is exact for operands of one scale; decimal numbers
        are read exactly and printed integers are read back (DcFacts, DcDivmod,
        DcIoFacts).  Its state stays well-typed whatever is read
        (DcVmFacts), and a postfix expression is printed as its value, with its
        sign and over as many lines as it needs (DcRun).
      - The decoder of gzip implements RFC 1951 for every input; gunzip is safe
        on arbitrary bytes; gzip -d restores what gzip has written, except for
        an empty file; the checksum is CRC-32 (InflateFacts, GzipFacts).
      - The differences of two files are as small as possible and turn one into
        the other in both directions (DiffFacts); diff3 -m merges changes that do
        not meet, if there are any (Diff3Facts).
      - The stacks of expr evaluate the tree that is written, integers to their
        value (ExprFacts); test compares integers of any length (Test); the
        days of a month stand under the weekdays found by counting days, and a calendar is drawn to
        an end exactly when it has a column (Cal); symbolic modes (Mode).
      - uudecode recreates the file that uuencode read (UuFacts).
      - comm prints each line of two sorted files in its column (Comm), cut the
        selected bytes or characters of a line (Cut), uniq the first line
        of each run of equal ones (Uniq); unescape reads back escaped bytes
        and stays inside its string (Text).
      - The classes of runes are what their tables list, and upper and lower case
        fit together (RuneType); tr translates, deletes and squeezes what its
        sets list, for operands without escapes (TrFacts).
      - The comparison of sort is the composition of its keys and a total preorder
        on lines without a NaN under a numeric key; the output is in that order
        (SortFacts).
      - What unexpand writes is expanded to the same text as its input (Tabs); join
        is the relational join of two sorted tables whose fields stay above the
        separator (Join).

    ** Budgets

    Recursion that C does not bound carries a budget, and running out of it is
    the outcome [Fuel]: expansion of rules through their dependencies, of
    variables through maps, of templates and imports, of groups.  [main_budget]
    shows that a larger budget keeps every other outcome, so a result never
    depends on the number chosen; a batch is proved to end within any budget
    above its length.  Loops over data have a budget computed from the data and are
    proved not to exhaust it: the reader (the length of the text), the schedule
    (the number of instances), the probes of a table (its capacity), the UTF-8
    loops (the number of bytes), the traversal of tsort (the number of vertices),
    the digits of dc (their number, and seven rounds for a digit pair where a
    loop halves), the deflate decoder (the number of bits that are left), the
    steps of a difference (the lines of both files), the lines of uudecode (the
    number of bytes).  The
    loops of dc that may not end, in reading a fraction and in running macros,
    take their budgets as arguments.

    ** What is not modelled

    The code run in a forked child (child_execvp, the pipes of spawn_pipe) is
    a [Job] given to the world; memory release; failing allocations, except in
    Table.v and Tcutil.v.  Opening and reading files is a parameter of the
    utilities, like the regular expressions of expr, the file system of test and
    the clock of cal, strtod and qsort of sort; diff3, cal and sort are taken with
    their optional features.  Of
    libtcutil the string buffer, paths, line reading, escapes, option parser,
    archive and ELF files are left out so far.  The other
    utilities, the shell, awk, make, the compiler, assembler and linker are not
    modelled; most of their code is I/O, system calls and generated tables.

    ** Plan

    Next: that the numbers on dc's stack stay canonical; fold, paste and the
    other utilities on lines; the remaining containers and paths of tcutil.c; the symbol tables of cc and the relocations of ld; and that expansion has no undefined behaviour on
    well-formed registries. *)

From Stdlib Require Export Ascii String ZArith Lia.
From stdpp Require Export base list strings gmap pretty.

Global Open Scope string_scope.
Global Open Scope list_scope.
Global Open Scope nat_scope.
Set Default Proof Using "Type".

(** ** C strings

    A NUL-terminated [char *] is the list of the characters before its NUL.
    String literals coerce to it. *)

Abbreviation cstr := (list ascii).

Coercion lit (s : string) : cstr := list_ascii_of_string s.

Definition lits (l : list string) : list cstr := map lit l.

Definition NUL : ascii := "000"%char.
Definition NL : ascii := "010"%char.
Definition TAB : ascii := "009"%char.
Definition CR : ascii := "013"%char.
Definition DQ : ascii := "034"%char.
Definition SQ : ascii := "039"%char.
Definition BSL : ascii := "092"%char.

(** The largest [int] of 32 bits. *)
Definition INT_MAX : Z := 2 ^ 31 - 1.

(** A value that can be stored as a C string holds no NUL. *)
Definition no_nul (s : cstr) : Prop := NUL ∉ s.

(** ** Outcomes

    [Ok]: the function returned.  [Die]: it called [eprintf], which prints its
    message and exits; the state is the one the process leaves behind.  [Ub]:
    the C code has undefined behaviour.  [Fuel]: the recursion budget of the
    model ran out, which stands for a C recursion at least that deep. *)

Inductive out (S A : Type) : Type :=
| Ok (a : A) (s : S)
| Die (msg : cstr) (s : S)
| Ub
| Fuel.
Arguments Ok {S A}.
Arguments Die {S A}.
Arguments Ub {S A}.
Arguments Fuel {S A}.

Definition M (S A : Type) : Type := S → out S A.

Definition mret {S A} (a : A) : M S A := λ s, Ok a s.
Definition mbind {S A B} (m : M S A) (k : A → M S B) : M S B := λ s,
  match m s with
  | Ok a s' => k a s'
  | Die msg s' => Die msg s'
  | Ub => Ub
  | Fuel => Fuel
  end.
Definition eprintf {S A} (msg : cstr) : M S A := λ s, Die msg s.
Definition mub {S A} : M S A := λ _, Ub.
Definition mfuel {S A} : M S A := λ _, Fuel.
Definition gets {S A} (f : S → A) : M S A := λ s, Ok (f s) s.
Definition modify {S} (f : S → S) : M S unit := λ s, Ok tt (f s).
(** A pure computation with a recursion budget, [None] when it is spent. *)
Definition budget {S A} (o : option A) : M S A :=
  match o with Some a => mret a | None => mfuel end.
(** An array or pointer access, [None] when it is out of range. *)
Definition deref {S A} (o : option A) : M S A :=
  match o with Some a => mret a | None => mub end.

Declare Scope c_scope.
Delimit Scope c_scope with C.
Notation "x <- m ;; k" := (mbind m (λ x, k))
  (at level 100, m at next level, right associativity) : c_scope.
Notation "m ;; k" := (mbind m (λ _, k))
  (at level 100, k at level 200, right associativity) : c_scope.
Global Open Scope c_scope.

(** [for (i = 0; i < n; i++) f(v[i])] *)
Definition mforeach {S A} (f : A → M S unit) : list A → M S unit :=
  fix go (l : list A) : M S unit :=
    match l with
    | [] => mret tt
    | x :: l' => f x ;; go l'
    end.

(** The same loop carrying a value, as [strlist] builders do. *)
Definition mfold {S A B} (f : B → A → M S B) : B → list A → M S B :=
  fix go (b : B) (l : list A) : M S B :=
    match l with
    | [] => mret b
    | x :: l' => b' <- f b x ;; go b' l'
    end.

Definition mwhen {S} (b : bool) (m : M S unit) : M S unit :=
  if b then m else mret tt.

(** ** Reasoning about the monad *)

Section monad.
Context {S : Type}.

(** [m] leaves the state related by [R] to the initial one, whether it
    returns or exits. *)
Definition preserves {A} (R : S → S → Prop) (m : M S A) : Prop := ∀ s,
  match m s with
  | Ok _ s' | Die _ s' => R s s'
  | Ub | Fuel => True
  end.

(** [m2] does what [m1] does, except that it may have a larger budget. *)
Definition mono {A} (m1 m2 : M S A) : Prop := ∀ s,
  m1 s = Fuel ∨ m1 s = m2 s.

Section preserves.
Context (R : S → S → Prop) `{!PreOrder R}.

Lemma preserves_ret {A} (a : A) : preserves R (mret a).
Proof using Type*. intros s; simpl; reflexivity. Qed.
Lemma preserves_eprintf {A} msg : preserves R (@eprintf S A msg).
Proof using Type*. intros s; simpl; reflexivity. Qed.
Lemma preserves_ub {A} : preserves R (@mub S A).
Proof. done. Qed.
Lemma preserves_fuel {A} : preserves R (@mfuel S A).
Proof. done. Qed.
Lemma preserves_gets {A} (f : S → A) : preserves R (gets f).
Proof using Type*. intros s; simpl; reflexivity. Qed.
Lemma preserves_budget {A} (o : option A) : preserves R (budget o).
Proof using Type*. destruct o; [apply preserves_ret | apply preserves_fuel]. Qed.
Lemma preserves_deref {A} (o : option A) : preserves R (deref o).
Proof using Type*. destruct o; [apply preserves_ret | apply preserves_ub]. Qed.
Lemma preserves_modify f : (∀ s, R s (f s)) → preserves R (modify f).
Proof. intros H s; simpl; apply H. Qed.

Lemma preserves_bind {A B} (m : M S A) (k : A → M S B) :
  preserves R m → (∀ a, preserves R (k a)) → preserves R (mbind m k).
Proof using Type*.
  intros Hm Hk s. unfold mbind. specialize (Hm s).
  destruct (m s) as [a s'| | |]; try done.
  specialize (Hk a s'). destruct (k a s'); try done; by etransitivity.
Qed.

Lemma preserves_foreach {A} (f : A → M S unit) l :
  (∀ x, preserves R (f x)) → preserves R (mforeach f l).
Proof using Type*.
  intros Hf; induction l; simpl; [apply preserves_ret |].
  apply preserves_bind; auto.
Qed.
Lemma preserves_fold {A B} (f : B → A → M S B) b l :
  (∀ b x, preserves R (f b x)) → preserves R (mfold f b l).
Proof using Type*.
  intros Hf; revert b; induction l; intros b; simpl; [apply preserves_ret |].
  apply preserves_bind; auto.
Qed.
Lemma preserves_when b m : preserves R m → preserves R (mwhen b m).
Proof using Type*. destruct b; simpl; auto using preserves_ret. Qed.
End preserves.

Lemma mono_refl {A} (m : M S A) : mono m m.
Proof. intros s; by right. Qed.
Lemma mono_fuel {A} (m : M S A) : mono mfuel m.
Proof. intros s; by left. Qed.
Lemma mono_budget {A} (o1 o2 : option A) :
  (∀ a, o1 = Some a → o2 = Some a) → mono (budget o1) (budget o2).
Proof.
  intros H. destruct o1 as [a|]; [|apply mono_fuel].
  rewrite (H a eq_refl). apply mono_refl.
Qed.
Lemma mono_bind {A B} (m1 m2 : M S A) (k1 k2 : A → M S B) :
  mono m1 m2 → (∀ a, mono (k1 a) (k2 a)) → mono (mbind m1 k1) (mbind m2 k2).
Proof.
  intros Hm Hk s. unfold mbind. destruct (Hm s) as [-> | <-]; [by left|].
  destruct (m1 s) as [a s'| | |]; auto. apply Hk.
Qed.
Lemma mono_foreach {A} (f1 f2 : A → M S unit) l :
  (∀ x, mono (f1 x) (f2 x)) → mono (mforeach f1 l) (mforeach f2 l).
Proof.
  intros Hf; induction l; simpl; [apply mono_refl|]. apply mono_bind; auto.
Qed.
Lemma mono_fold {A B} (f1 f2 : B → A → M S B) b l :
  (∀ b x, mono (f1 b x) (f2 b x)) → mono (mfold f1 b l) (mfold f2 b l).
Proof.
  intros Hf; revert b; induction l; intros b; simpl; [apply mono_refl|].
  apply mono_bind; auto.
Qed.
Lemma mono_when b (m1 m2 : M S unit) : mono m1 m2 → mono (mwhen b m1) (mwhen b m2).
Proof. destruct b; simpl; auto using mono_refl. Qed.

(** A larger budget keeps every outcome but [Fuel]. *)
Lemma mono_outcome {A} (m1 m2 : M S A) s :
  mono m1 m2 → m1 s ≠ Fuel → m2 s = m1 s.
Proof. intros H Hf. by destruct (H s). Qed.

Lemma bind_run {A B} (m : M S A) (k : A → M S B) s a s' :
  m s = Ok a s' → mbind m k s = k a s'.
Proof. unfold mbind. by intros ->. Qed.

Lemma bind_Ok {A B} (m : M S A) (k : A → M S B) s b s' :
  mbind m k s = Ok b s' ↔ ∃ a s1, m s = Ok a s1 ∧ k a s1 = Ok b s'.
Proof.
  unfold mbind. split.
  - destruct (m s) as [a s1| | |] eqn:E; try done. eauto.
  - by intros (a & s1 & -> & ?).
Qed.
End monad.

Create HintDb pres.
#[export] Hint Resolve preserves_ret preserves_eprintf preserves_ub preserves_fuel
  preserves_gets preserves_budget preserves_deref : pres.
Create HintDb mono.
#[export] Hint Resolve mono_refl mono_fuel : mono.

(** Walk through a monadic program, closing the leaves with the databases. *)
Ltac pres_step :=
  match goal with
  | |- forall _, _ => intro
  | |- preserves _ (mbind _ _) => apply preserves_bind; [try tc_solve | |]
  | |- preserves _ (mforeach _ _) => apply preserves_foreach; [try tc_solve |]
  | |- preserves _ (mfold _ _ _) => apply preserves_fold; [try tc_solve |]
  | |- preserves _ (mwhen _ _) => apply preserves_when; [try tc_solve |]
  | |- preserves _ (if ?b then _ else _) => destruct b
  | |- preserves _ (match ?x with _ => _ end) => destruct x
  | |- preserves _ _ => solve [eauto with pres typeclass_instances]
  end.
Ltac solve_pres := repeat pres_step.

Ltac mono_step :=
  match goal with
  | |- forall _, _ => intro
  | |- mono (mbind _ _) (mbind _ _) => apply mono_bind
  | |- mono (mforeach _ _) (mforeach _ _) => apply mono_foreach
  | |- mono (mfold _ _ _) (mfold _ _ _) => apply mono_fold
  | |- mono (mwhen _ _) (mwhen _ _) => apply mono_when
  | |- mono (if ?b then _ else _) _ => destruct b
  | |- mono (match ?x with _ => _ end) _ => destruct x
  | |- mono _ _ => solve [eauto with mono]
  end.
Ltac solve_mono := repeat mono_step.

(** Split an equation [m s = Ok a s'] along the binds of [m]. *)
Ltac inv_ok H :=
  repeat (apply bind_Ok in H;
          let a := fresh "r" in let s := fresh "s" in let E := fresh "E" in
          destruct H as (a & s & E & H)).

(** Close a decidable goal on concrete data by evaluation. *)
Ltac by_decide :=
  lazymatch goal with |- ?P => apply (bool_decide_unpack P); vm_compute; exact I end.

(** Linear arithmetic with quotients and remainders by constants. *)
Ltac dlia := Z.to_euclidean_division_equations; lia.

(** ** Field assignment

    [set p f r] is the record [r] with its field [p] replaced by [f (p r)], the
    model of [r->p = ...].  [Eta R] gives the constructor applied to the
    projections; the update of one field is read off it. *)

Class Eta (R : Type) := eta : R → R.
Class Setter {R T : Type} (p : R → T) := set_field : (T → T) → R → R.
Definition set {R T : Type} (p : R → T) `{!Setter p} (f : T → T) (r : R) : R := set_field f r.

Ltac derive_setter p :=
  lazymatch type of p with
  | ?R → ?T =>
      let e := constr:(_ : Eta R) in
      let e := eval hnf in e in
      let e := eval pattern p in e in
      lazymatch e with
      | ?g _ =>
          let s := constr:(λ (f : T → T) (r : R), g (λ r, f (p r)) r) in
          let s := eval cbv beta in s in
          exact s
      end
  end.
#[export] Hint Extern 1 (Setter ?p) => derive_setter p : typeclass_instances.
Notation "r <| p := v |>" := (set p (λ _, v) r)
  (at level 12, left associativity, p at level 200, v at level 200,
   format "r  <|  p  :=  v  |>") : c_scope.

(** ** Bits as arithmetic *)

Section bits.
Local Open Scope Z_scope.

Lemma land_low n x : 0 ≤ n → Z.land x (Z.ones n) = x mod 2 ^ n.
Proof. apply Z.land_ones. Qed.

Lemma land_high k a b : 0 ≤ k → 0 ≤ b < 2 ^ k → Z.land (Z.shiftl a k) b = 0.
Proof.
  intros Hk Hb. rewrite <- (Z.mod_small b (2 ^ k)), <- Z.land_ones by done.
  rewrite (Z.land_comm b), Z.land_assoc, Z.land_ones, Z.shiftl_mul_pow2, Z.mod_mul by lia.
  apply Z.land_0_l.
Qed.

Lemma lor_high k a b : 0 ≤ k → 0 ≤ b < 2 ^ k → Z.lor (Z.shiftl a k) b = a * 2 ^ k + b.
Proof.
  intros Hk Hb. rewrite <- Z.shiftl_mul_pow2 by done. pose proof (Z.add_lor_land (Z.shiftl a k) b).
  pose proof (land_high k a b Hk Hb). lia.
Qed.

Lemma lxor_range n x y : 0 ≤ n → 0 ≤ x < 2 ^ n → 0 ≤ y < 2 ^ n → 0 ≤ Z.lxor x y < 2 ^ n.
Proof.
  intros Hn Hx Hy. replace (Z.lxor x y) with (Z.lxor x y mod 2 ^ n); [apply Z.mod_pos_bound; lia|].
  apply Z.bits_inj'. intros i Hi. destruct (Z.lt_ge_cases i n).
  - by rewrite Z.mod_pow2_bits_low by lia.
  - rewrite Z.mod_pow2_bits_high, Z.lxor_spec by lia.
    rewrite <- (Z.mod_small x (2 ^ n)), <- (Z.mod_small y (2 ^ n)), !Z.mod_pow2_bits_high by lia. done.
Qed.

(** A field of [n] bits at position [k], extracted with a mask. *)
Lemma field_bits r k n mask : 0 ≤ k → 0 ≤ n → mask = Z.shiftl (Z.ones n) k →
  Z.shiftr (Z.land r mask) k = (r / 2 ^ k) mod 2 ^ n.
Proof.
  intros Hk Hn ->. rewrite Z.shiftr_land, Z.shiftr_shiftl_l, Z.sub_diag, Z.shiftl_0_r by done.
  by rewrite Z.land_ones, Z.shiftr_div_pow2.
Qed.
End bits.
