(* ===== verification/CString.v ===== *)
(** * C strings: the libc routines ninqu uses and libutil's bounded copies

    Models the search routines of <string.h> on NUL-free strings, and
    [strlcpy] and [estrlcpy] of src/shared/libutil at the level of
    the bytes they read and write.  A pointer into a string is the split of
    the string at that pointer.  The theorems show that the copies never write
    past [siz] bytes, always terminate the destination and store the longest
    prefix that fits, which is how the rest of the development uses them
    ([trunc]). *)

From S2P Require Import Prelude.

(** ** <ctype.h> and <string.h> *)

(** [isspace] in the C locale: blank, and tab to carriage return. *)
Definition isspace (c : ascii) : bool :=
  let n := nat_of_ascii c in bool_decide (n = 32) || (bool_decide (9 ≤ n) && bool_decide (n ≤ 13)).

(** [strchr]: the text before the first [c] and the text after it. *)
Fixpoint strchr (s : cstr) (c : ascii) : option (cstr * cstr) :=
  match s with
  | [] => None
  | d :: s' =>
      if decide (d = c) then Some ([], s')
      else match strchr s' c with
           | Some (a, b) => Some (d :: a, b)
           | None => None
           end
  end.

(** [strrchr]: the text before the last [c] and the text after it. *)
Fixpoint strrchr (s : cstr) (c : ascii) : option (cstr * cstr) :=
  match s with
  | [] => None
  | d :: s' =>
      match strrchr s' c with
      | Some (a, b) => Some (d :: a, b)
      | None => if decide (d = c) then Some ([], s') else None
      end
  end.

(** [strncmp(s, p, strlen(p)) == 0] *)
Definition starts_with (p s : cstr) : bool := bool_decide (p `prefix_of` s).

(** [strstr]: the text before the first occurrence, and the text from it on. *)
Fixpoint strstr (s needle : cstr) : option (cstr * cstr) :=
  if starts_with needle s then Some ([], s)
  else match s with
       | [] => None
       | d :: s' =>
           match strstr s' needle with
           | Some (a, b) => Some (d :: a, b)
           | None => None
           end
       end.

(** [strpbrk(s, set) != NULL] *)
Definition strpbrk (s set : cstr) : bool := existsb (λ c, bool_decide (c ∈ set)) s.

(** What a destination of [sz] bytes holds after a bounded copy of [s]. *)
Definition trunc (sz : nat) (s : cstr) : cstr := take (sz - 1) s.

(** ** libutil: strlcpy, estrlcpy on memory

    [dst] is the destination array; a store outside it is [None].  [src] is
    given with its terminator. *)

Definition store (dst : list ascii) (i : nat) (c : ascii) : option (list ascii) :=
  if decide (i < length dst) then Some (<[i := c]> dst) else None.

(** The copying loop: while [--n] is not 0, copy one character and stop after
    the terminator.  The result is [(n, d, s, dst)] at loop exit. *)
Fixpoint strlcpy_loop (n d : nat) (s dst : list ascii)
    : option (nat * nat * list ascii * list ascii) :=
  match n with
  | 0 => None
  | S n' =>
      match n' with
      | 0 => Some (0, d, s, dst)
      | _ =>
          match s with
          | [] => None
          | c :: s' =>
              match store dst d c with
              | None => None
              | Some dst' =>
                  if decide (c = NUL) then Some (n', S d, s', dst')
                  else strlcpy_loop n' (S d) s' dst'
              end
          end
      end
  end.

(** The loop that traverses the rest of the source: the text after the
    terminator. *)
Fixpoint skip_nul (s : list ascii) : option (list ascii) :=
  match s with
  | [] => None
  | c :: s' => if decide (c = NUL) then Some s' else skip_nul s'
  end.

Definition strlcpy (dst src : list ascii) (siz : nat) : option (list ascii * nat) :=
  let copied :=
    if decide (siz = 0) then Some (0, 0, src, dst) else strlcpy_loop siz 0 src dst in
  match copied with
  | None => None
  | Some (n, d, s, dst1) =>
      if decide (n = 0) then
        match (if decide (siz = 0) then Some dst1 else store dst1 d NUL), skip_nul s with
        | Some dst2, Some s2 => Some (dst2, length src - length s2 - 1)
        | _, _ => None
        end
      else Some (dst1, length src - length s - 1)
  end.

(** [estrlcpy] exits when the source does not fit. *)
Definition estrlcpy {S} (siz : nat) (src : cstr) : M S cstr :=
  if decide (siz ≤ length src) then eprintf "strlcpy: input string too long"
  else mret (trunc siz src).

(** The string an array holds. *)
Fixpoint cstr_at (b : list ascii) : cstr :=
  match b with
  | [] => []
  | c :: b' => if decide (c = NUL) then [] else c :: cstr_at b'
  end.

(** ** Lemmas *)

Lemma strchr_Some s c a b : strchr s c = Some (a, b) ↔ s = a ++ c :: b ∧ c ∉ a.
Proof.
  revert a b. induction s as [|d s IH]; intros a b; simpl.
  - split; [done|]. intros [H _]. by destruct a.
  - case_decide as Hd; [subst|].
    + split; [intros [= <- <-]; split; [done | apply not_elem_of_nil]|].
      intros [H Hn]. destruct a as [|x a]; simplify_list_eq; try done. set_solver.
    + destruct (strchr s c) as [[a' b']|] eqn:E.
      * destruct (proj1 (IH a' b') eq_refl) as [-> Hn]. split.
        -- intros [= <- <-]. split; [done|]. set_solver.
        -- intros [H Hn']. destruct a as [|x a]; simplify_list_eq; try done.
           assert (Some (a', b') = Some (a, b)) as [= <- <-]; [|done].
           apply IH. split; [done|]. set_solver.
      * split; [done|]. intros [H Hn]. destruct a as [|x a]; simplify_list_eq; try done.
        assert (None = Some (a, b)); [|done]. apply IH. split; [done|]. set_solver.
Qed.

Lemma strchr_None s c : strchr s c = None ↔ c ∉ s.
Proof.
  induction s as [|d s IH]; simpl; [set_solver|]. case_decide.
  - set_solver.
  - destruct (strchr s c) as [[a b]|]; set_solver.
Qed.

Lemma strrchr_None s c : strrchr s c = None ↔ c ∉ s.
Proof.
  induction s as [|d s IH]; simpl; [set_solver|].
  destruct (strrchr s c) as [[a b]|]; [|case_decide]; set_solver.
Qed.

Lemma strrchr_Some s c a b : strrchr s c = Some (a, b) ↔ s = a ++ c :: b ∧ c ∉ b.
Proof.
  revert a b. induction s as [|d s IH]; intros a b; simpl.
  - split; [done|]. intros [H _]. by destruct a.
  - destruct (strrchr s c) as [[a' b']|] eqn:E.
    + destruct (proj1 (IH a' b') eq_refl) as [-> Hn]. split.
      * by intros [= <- <-].
      * intros [H Hn']. destruct a as [|x a]; simplify_list_eq; [set_solver..|].
        assert (Some (a', b') = Some (a, b)) as [= <- <-]; [|done]. by apply IH.
    + apply strrchr_None in E. case_decide; [subst|].
      * split; [by intros [= <- <-]|]. intros [H Hn].
        destruct a as [|x a]; simplify_list_eq; try done. set_solver.
      * split; [done|]. intros [H' Hn]. destruct a as [|x a]; simplify_list_eq; try done. set_solver.
Qed.

Lemma trunc_id sz s : length s < sz → trunc sz s = s.
Proof. intros. unfold trunc. apply take_ge. lia. Qed.
Lemma trunc_length sz s : 0 < sz → length (trunc sz s) < sz.
Proof. intros. unfold trunc. rewrite length_take. lia. Qed.
Lemma trunc_prefix sz s : trunc sz s `prefix_of` s.
Proof. exists (drop (sz - 1) s). unfold trunc. by rewrite take_drop. Qed.

Lemma cstr_at_app s b : no_nul s → cstr_at (s ++ NUL :: b) = s.
Proof.
  unfold no_nul. induction s as [|c s IH]; simpl; intros H.
  - done.
  - rewrite decide_False by set_solver. rewrite IH by set_solver. done.
Qed.

Lemma skip_nul_app s b : no_nul s → skip_nul (s ++ NUL :: b) = Some b.
Proof.
  unfold no_nul. induction s as [|c s IH]; simpl; intros H.
  - done.
  - rewrite decide_False by set_solver. apply IH. set_solver.
Qed.

Lemma store_app a x b c : store (a ++ x :: b) (length a) c = Some (a ++ c :: b).
Proof.
  unfold store. rewrite decide_True; [|rewrite length_app; simpl; lia].
  f_equal. replace (length a) with (length a + 0) by lia. by rewrite insert_app_r.
Qed.

Lemma strlcpy_loop_cons n d c s dst :
  strlcpy_loop (S (S n)) d (c :: s) dst =
    match store dst d c with
    | None => None
    | Some dst' =>
        if decide (c = NUL) then Some (S n, S d, s, dst')
        else strlcpy_loop (S n) (S d) s dst'
    end.
Proof. reflexivity. Qed.

(** The loop copies at most [n - 1] characters after the [pre] ones. *)
Lemma strlcpy_loop_spec n pre s old rest :
  no_nul s → length old = n → 0 < n →
  strlcpy_loop n (length pre) (s ++ [NUL]) (pre ++ old ++ rest) =
    if decide (length s < n - 1)
    then Some (n - 1 - length s, length pre + length s + 1, [],
               pre ++ s ++ NUL :: drop (length s + 1) old ++ rest)
    else Some (0, length pre + (n - 1), drop (n - 1) s ++ [NUL],
               pre ++ take (n - 1) s ++ drop (n - 1) old ++ rest).
Proof.
  revert pre s old. induction n as [|n IH]; intros pre s old Hs Hold Hn; [lia|].
  destruct old as [|o old]; simpl in Hold; [lia|]. destruct n as [|n].
  { rewrite decide_False by lia. simpl. by rewrite Nat.add_0_r. }
  destruct s as [|c s]; cbn [app]; rewrite strlcpy_loop_cons, store_app.
  - rewrite decide_True, decide_True by (simpl; done || lia).
    simpl. rewrite drop_0. repeat f_equal; lia.
  - unfold no_nul in *. rewrite decide_False by set_solver.
    replace (pre ++ c :: old ++ rest) with ((pre ++ [c]) ++ old ++ rest)
      by (by rewrite <- app_assoc).
    replace (S (length pre)) with (length (pre ++ [c])) by (rewrite length_app; simpl; lia).
    rewrite IH by (set_solver || lia). rewrite length_app, <- !app_assoc. simpl.
    case_decide; case_decide; try lia; rewrite ?Nat.sub_0_r; do 4 f_equal; lia.
Qed.

(** strlcpy of a string into a destination of at least [siz] > 0 bytes
    never stores outside it, leaves the bytes from [siz] on unchanged, leaves a
    terminated string that is the longest prefix of the source fitting in
    [siz] bytes, and returns the length of the source. *)
Theorem strlcpy_correct (dst src : list ascii) (siz : nat) :
  no_nul src → 0 < siz → siz ≤ length dst →
  ∃ dst', strlcpy dst (src ++ [NUL]) siz = Some (dst', length src) ∧
          cstr_at dst' = trunc siz src ∧
          length dst' = length dst ∧
          drop siz dst' = drop siz dst.
Proof.
  intros Hs Hz Hd.
  assert (length (take siz dst) = siz) as Hold by (apply length_take_le; lia).
  pose proof (strlcpy_loop_spec siz [] src _ (drop siz dst) Hs Hold Hz) as Hloop.
  rewrite app_nil_l, take_drop in Hloop. simpl in Hloop.
  unfold strlcpy. rewrite decide_False, Hloop by lia. clear Hloop. unfold trunc.
  case_decide as Hlt; simpl.
  - rewrite decide_False by lia. rewrite length_app, (take_ge src) by lia. eexists. split; [|split_and!].
    + simpl. repeat f_equal; lia.
    + by apply cstr_at_app.
    + rewrite !length_app. simpl. rewrite length_app, !length_drop. lia.
    + rewrite drop_app_ge by lia. replace (siz - length src) with (S (siz - length src - 1)) by lia.
      simpl. rewrite drop_app_ge; rewrite length_drop; [|lia].
      rewrite Hold. rewrite drop_drop. f_equal. lia.
  - assert (∃ x, drop (siz - 1) (take siz dst) = [x]) as [x Hx].
    { destruct (drop (siz - 1) (take siz dst)) as [|x [|y l]] eqn:E; [| by eauto |];
        apply (f_equal length) in E; rewrite length_drop in E; simpl in E; lia. }
    rewrite Hx, decide_False by lia. simpl.
    assert (length (take (siz - 1) src) = siz - 1) as Hl by (rewrite length_take; lia).
    assert (no_nul (take (siz - 1) src) ∧ no_nul (drop (siz - 1) src)) as [Ht Hdr].
    { rewrite <- (take_drop (siz - 1) src) in Hs. unfold no_nul in *. set_solver. }
    pose proof (store_app (take (siz - 1) src) x (drop siz dst) NUL) as Hst.
    rewrite Hl in Hst. rewrite Hst, skip_nul_app by done. rewrite length_app. eexists. split; [|split_and!].
    + simpl. repeat f_equal; lia.
    + by apply cstr_at_app.
    + rewrite !length_app. simpl. rewrite length_drop. lia.
    + rewrite drop_app_ge by lia. replace (siz - length (take (siz - 1) src)) with 1 by lia.
      done.
Qed.

Lemma strlcpy_correct_witness :
  ∃ dst', strlcpy (replicate 8 NUL) (lit "manifest" ++ [NUL]) 5 = Some (dst', 8) ∧
          cstr_at dst' = "mani".
Proof.
  destruct (strlcpy_correct (replicate 8 NUL) "manifest" 5) as (d & H1 & H2 & _).
  - unfold no_nul. by_decide.
  - lia.
  - simpl. lia.
  - exists d. split; [exact H1 | exact H2].
Defined.
