(* ===== verification/Strtonum.v ===== *)
(** * Decimal numbers: strtonum, enstrtonum and estrtonum of
    src/shared/libutil/strtonum.c

    [strtoll] in base 10 with its saturation and ERANGE, and the range check on
    top of it.  A printed number is read back, and a number is accepted exactly
    when its value is in the requested range. *)

From S2P Require Import Prelude CString.
Local Open Scope Z_scope.

Definition LLONG_MIN : Z := - 2 ^ 63.
Definition LLONG_MAX : Z := 2 ^ 63 - 1.

Definition isdigit (c : ascii) : bool :=
  bool_decide (48 ≤ Z.of_nat (nat_of_ascii c) ≤ 57).
Definition digit (c : ascii) : Z := Z.of_nat (nat_of_ascii c) - 48.

(** The value of the digits at the front, with their number and what follows. *)
Fixpoint digits (acc : Z) (s : cstr) : Z * nat * cstr :=
  match s with
  | c :: r =>
      if isdigit c then let '(v, k, e) := digits (acc * 10 + digit c) r in (v, S k, e)
      else (acc, O, s)
  | [] => (acc, O, [])
  end.

Fixpoint skip_blanks (s : cstr) : cstr :=
  match s with c :: r => if isspace c then skip_blanks r else s | [] => [] end.

(** [strtoll(numstr, &ep, 10)]: the value, whether ERANGE was set, and [ep];
    [None] when no digit was read, where [ep] is [numstr]. *)
Definition strtoll (numstr : cstr) : option (Z * bool * cstr) :=
  let s := skip_blanks numstr in
  let '(neg, s) :=
    match s with
    | c :: r =>
        if decide (c = "-"%char) then (true, r)
        else if decide (c = "+"%char) then (false, r) else (false, s)
    | [] => (false, s)
    end in
  let '(v, k, ep) := digits 0 s in
  match k with
  | O => None
  | S _ =>
      let v := if neg : bool then - v else v in
      if decide (v < LLONG_MIN) then Some (LLONG_MIN, true, ep)
      else if decide (LLONG_MAX < v) then Some (LLONG_MAX, true, ep)
      else Some (v, false, ep)
  end.

Inductive numerr := INVALID | TOOSMALL | TOOLARGE.

Definition errstr (e : numerr) : cstr :=
  match e with INVALID => "invalid" | TOOSMALL => "too small" | TOOLARGE => "too large" end.

Definition strtonum (numstr : cstr) (minval maxval : Z) : Z + numerr :=
  if decide (maxval < minval) then inr INVALID
  else
    match strtoll numstr with
    | None => inr INVALID
    | Some (ll, erange, ep) =>
        if decide (ep ≠ []) then inr INVALID
        else if decide ((ll = LLONG_MIN ∧ erange = true) ∨ ll < minval) then inr TOOSMALL
        else if decide ((ll = LLONG_MAX ∧ erange = true) ∨ maxval < ll) then inr TOOLARGE
        else inl ll
    end.

(** [enstrtonum] and [estrtonum]: the exit status is 1. *)
Definition estrtonum {S} (numstr : cstr) (minval maxval : Z) : M S Z :=
  match strtonum numstr minval maxval with
  | inl ll => mret ll
  | inr e => eprintf ("strtonum " ++ numstr ++ ": " ++ errstr e)
  end.

(** ** The value of a numeral *)

(** The sign and the digits of a numeral, and its mathematical value. *)
Definition num_value (ds : cstr) : Z := foldl (λ acc c, acc * 10 + digit c) 0 ds.

Definition numeral (s : cstr) (v : Z) : Prop :=
  ∃ sp sgn ds, s = sp ++ sgn ++ ds ∧ Forall (λ c, isspace c = true) sp ∧
    ds ≠ [] ∧ Forall (λ c, isdigit c = true) ds ∧
    ((sgn = [] ∨ sgn = "+") ∧ v = num_value ds ∨ sgn = "-" ∧ v = - num_value ds).

Lemma digits_all acc ds :
  Forall (λ c, isdigit c = true) ds →
  digits acc ds = (foldl (λ acc c, acc * 10 + digit c) acc ds, length ds, []).
Proof.
  intros H. revert acc. induction H as [|c ds Hc Hds IH]; intros acc; simpl; [done|].
  by rewrite Hc, IH.
Qed.

Lemma digits_nil acc s v k :
  digits acc s = (v, k, []) →
  Forall (λ c, isdigit c = true) s ∧ v = foldl (λ acc c, acc * 10 + digit c) acc s ∧ k = length s.
Proof.
  revert acc v k. induction s as [|c s IH]; intros acc v k; simpl; [by intros [= <- <-]|].
  destruct (isdigit c) eqn:E; [|done].
  destruct (digits _ s) as [[v' k'] e'] eqn:Ed. intros [= -> <- ->].
  apply IH in Ed as (? & ? & ->). auto.
Qed.

Lemma skip_blanks_app sp s :
  Forall (λ c, isspace c = true) sp → skip_blanks (sp ++ s) = skip_blanks s.
Proof. induction 1 as [|c sp Hc _ IH]; simpl; [done|]. by rewrite Hc. Qed.

Lemma skip_blanks_split s :
  ∃ sp, s = sp ++ skip_blanks s ∧ Forall (λ c, isspace c = true) sp.
Proof.
  induction s as [|c s (sp & E & H)]; simpl; [by exists []|].
  destruct (isspace c) eqn:Ec; [|by exists []]. exists (c :: sp). simpl. rewrite <- E. auto.
Qed.

Lemma isdigit_plain c : isdigit c = true → isspace c = false ∧ c ≠ "-"%char ∧ c ≠ "+"%char.
Proof.
  unfold isdigit, isspace. intros Hc%bool_decide_eq_true. split_and!.
  - rewrite (bool_decide_false (nat_of_ascii c = 32%nat)) by lia.
    rewrite (bool_decide_false (nat_of_ascii c ≤ 13)%nat) by lia. apply andb_false_r.
  - intros ->. vm_compute in Hc. destruct Hc. done.
  - intros ->. vm_compute in Hc. destruct Hc. done.
Qed.

Definition clamp (v : Z) : Z * bool :=
  if decide (v < LLONG_MIN) then (LLONG_MIN, true)
  else if decide (LLONG_MAX < v) then (LLONG_MAX, true) else (v, false).

Lemma strtoll_numeral s v : numeral s v → strtoll s = Some (clamp v, []).
Proof.
  intros (sp & sgn & ds & -> & Hsp & Hne & Hds & Hv). unfold strtoll.
  rewrite skip_blanks_app by done.
  assert (∃ c ds', ds = c :: ds' ∧ isdigit c = true) as (c & ds' & E & Hc).
  { destruct Hds; [done|]. eauto. }
  destruct (isdigit_plain c Hc) as (Hb & Hm & Hp).
  assert (digits 0 ds = (num_value ds, S (length ds'), [])) as Hd.
  { rewrite digits_all by done. by rewrite E. }
  destruct Hv as [[[-> | ->] ->] | [-> ->]]; simpl.
  - rewrite E. simpl. rewrite Hb, !decide_False by done. rewrite <- E, Hd. unfold clamp.
    repeat case_decide; done.
  - rewrite Hd. unfold clamp. repeat case_decide; done.
  - rewrite Hd. unfold clamp. repeat case_decide; done.
Qed.

Lemma strtoll_inv s p : strtoll s = Some (p, []) → ∃ v, numeral s v ∧ p = clamp v.
Proof.
  unfold strtoll. destruct (skip_blanks_split s) as (sp & E & Hsp).
  remember (skip_blanks s) as t eqn:Ht. clear Ht.
  assert (∀ neg u sgn, t = sgn ++ u →
            (if neg : bool then sgn = "-" else sgn = [] ∨ sgn = "+") →
            (let '(v, k, ep) := digits 0 u in
             match k with
             | O => None
             | S _ =>
                 let v := if neg : bool then - v else v in
                 if decide (v < LLONG_MIN) then Some (LLONG_MIN, true, ep)
                 else if decide (LLONG_MAX < v) then Some (LLONG_MAX, true, ep)
                 else Some (v, false, ep)
             end) = Some (p, []) → ∃ v, numeral s v ∧ p = clamp v) as Hgo.
  { intros neg u sgn Eu Hsgn H. destruct (digits 0 u) as [[v k] ep] eqn:Ed.
    destruct k as [|k]; [done|].
    assert (ep = [] ∧ p = clamp (if neg then - v else v)) as [-> ->].
    { unfold clamp. cbv zeta in H. repeat case_decide; by simplify_eq. }
    apply digits_nil in Ed as (Hds & -> & Hk). eexists. split; [|reflexivity].
    exists sp, sgn, u. rewrite E, Eu. split_and!; [done..| by destruct u | done |].
    destruct neg; [right | left]; done. }
  destruct t as [|c r]; [apply (Hgo false [] []); auto|]. case_decide as Hm.
  - apply (Hgo true r "-"); [by subst | done].
  - case_decide as Hp; [apply (Hgo false r "+"); [by subst | auto] | apply (Hgo false (c :: r) []); auto].
Qed.

(** [strtonum] accepts exactly the decimal numerals (blanks, a sign,
    digits) whose value lies between the bounds and returns that value; every
    other numeral is reported as too small or too large, also when it does not
    fit in 64 bits, and any other text as invalid. *)
Theorem strtonum_correct s minval maxval :
  LLONG_MIN ≤ minval → minval ≤ maxval → maxval ≤ LLONG_MAX →
  (∀ v, strtonum s minval maxval = inl v ↔ numeral s v ∧ minval ≤ v ≤ maxval) ∧
  (strtonum s minval maxval = inr TOOSMALL ↔ ∃ v, numeral s v ∧ v < minval) ∧
  (strtonum s minval maxval = inr TOOLARGE ↔ ∃ v, numeral s v ∧ maxval < v) ∧
  (strtonum s minval maxval = inr INVALID ↔ ¬ ∃ v, numeral s v).
Proof.
  intros Hlo Hle Hhi.
  assert (∀ v, numeral s v → strtonum s minval maxval =
            if decide (v < minval) then inr TOOSMALL
            else if decide (maxval < v) then inr TOOLARGE else inl v) as Hnum.
  { intros v Hv. unfold strtonum. rewrite decide_False by lia. rewrite (strtoll_numeral s v Hv).
    unfold clamp. repeat (case_decide; destruct_or?; destruct_and?; simplify_eq; try done; try lia).
    all: exfalso; intuition lia. }
  assert ((∃ v, numeral s v) ∨ strtonum s minval maxval = inr INVALID ∧ ¬ ∃ v, numeral s v)
    as [[v Hv] | [-> Hno]].
  { destruct (strtoll s) as [[p ep]|] eqn:E.
    - destruct ep; [left; apply strtoll_inv in E as (v & ? & _); eauto|].
      right. split; [|intros [v Hv%strtoll_numeral]; congruence].
      unfold strtonum. rewrite decide_False by lia. rewrite E. by destruct p.
    - right. split; [|intros [v Hv%strtoll_numeral]; congruence].
      unfold strtonum. rewrite decide_False by lia. by rewrite E. }
  - assert (∀ v', numeral s v' → minval ≤ v' ≤ maxval ∨ minval ≤ v ≤ maxval → v' = v) as Hdet.
    { intros v' Hv' Hr. pose proof (Hnum v' Hv') as E. rewrite (Hnum v Hv) in E.
      repeat case_decide; simplify_eq; lia. }
    rewrite (Hnum v Hv). split_and!; [intros v'|..]; (split; [|intros H]).
    + repeat case_decide; intros; simplify_eq. split; [done | lia].
    + destruct H as [Hv' Hr]. rewrite (Hdet v') by auto. assert (v' = v) as <- by auto.
      rewrite !decide_False by lia. done.
    + case_decide; [eauto | by case_decide].
    + destruct H as (v' & Hv' & Hlt). rewrite <- (Hnum v Hv), (Hnum v' Hv'). by rewrite decide_True.
    + case_decide; [done | case_decide; [eauto | done]].
    + destruct H as (v' & Hv' & Hlt). rewrite <- (Hnum v Hv), (Hnum v' Hv').
      rewrite decide_False by lia. by rewrite decide_True.
    + repeat case_decide; done.
    + exfalso. apply H. eauto.
  - split_and!; [intros v'|..]; split; try naive_solver.
Qed.

Lemma strtonum_correct_witness :
  strtonum "  +42" 1 100 = inl 42 ∧ strtonum "99999999999999999999" 1 100 = inr TOOLARGE.
Proof.
  split.
  - apply (strtonum_correct "  +42" 1 100); [by vm_compute; (intros; discriminate) | lia | by vm_compute; (intros; discriminate) |].
    split; [|lia]. exists "  ", "+", "42". split_and!; [done | | done | | left; auto].
    all: repeat constructor.
  - apply (strtonum_correct "99999999999999999999" 1 100);
      [by vm_compute; (intros; discriminate) | lia | by vm_compute; (intros; discriminate) |].
    exists 99999999999999999999. split; [|lia].
    exists [], [], "99999999999999999999". split_and!; [done | constructor | done | | left; auto].
    repeat constructor.
Defined.
