(* ===== verification/Sexpr.v ===== *)
(** * S-expressions: src/cmd/dev/ninqu/sexpr.c

    The manifest reader.  The data ([SNode], [SLex]), the template substitution
    and the lexer and parser are translated function by function; the fixed
    buffers of the C code are the [bsz] arguments and the conditions on the
    length of [buf].  SexprFacts.v has the theorems about the parser.  Proved
    here: a template substitution that hits no parameter is the identity, and the array
    growth of [snode_push] never lets an index leave its allocation. *)

From S2P Require Import Prelude CString.

(** ** Data *)

(** struct SNode: an atom or a list, with its line. *)
Inductive SNode : Type :=
| S_ATOM (atom : cstr) (line : Z)
| S_LIST (kids : list SNode) (line : Z).

(** struct SLex: [src + pos] is the text still to read. *)
Record SLex := Lex { rest : cstr; line : Z }.

Definition snode_atom (s : cstr) (line : Z) : SNode := S_ATOM s line.
Definition snode_list (line : Z) : SNode := S_LIST [] line.

Definition snode_push (list kid : SNode) : SNode :=
  match list with
  | S_LIST kids l => S_LIST (kids ++ [kid]) l
  | S_ATOM a l => S_ATOM a l
  end.

(** The allocation behind [snode_push]: the smallest 8 * 2^k not below [nkids]
    ([while (cap < list->nkids) cap *= 2;]), and the size of [kids] after the
    reallocation, when a kid is stored at index [nkids]. *)
Fixpoint push_cap (fuel cap nkids : nat) : nat :=
  match fuel with
  | 0 => cap
  | S f => if decide (cap < nkids) then push_cap f (cap * 2) nkids else cap
  end.

Definition snode_push_alloc (alloc nkids : nat) : nat :=
  if decide (nkids = 0) then 8
  else let cap := push_cap nkids 8 nkids in
       if decide (nkids = cap) then cap * 2 else alloc.

(** The size of [kids] when the kid of index [n] is stored, over [n] earlier
    pushes on a fresh list. *)
Fixpoint alloc_after (n : nat) : nat :=
  match n with
  | 0 => snode_push_alloc 0 0
  | S m => snode_push_alloc (alloc_after m) n
  end.

Definition s_is_list (n : SNode) : bool :=
  match n with S_LIST _ _ => true | S_ATOM _ _ => false end.

(** The first child when the node is a list starting with an atom. *)
Definition s_head (n : SNode) : option cstr :=
  match n with
  | S_LIST (S_ATOM a _ :: _) _ => Some a
  | _ => None
  end.

(** Deep copy, node by node. *)
Fixpoint snode_clone (n : SNode) : SNode :=
  match n with
  | S_ATOM a l => snode_atom a l
  | S_LIST kids l => fold_left snode_push (map snode_clone kids) (snode_list l)
  end.

(** ** Dollar references *)

(** The text up to the close paren that matches, and the text after it;
    [depth] counts the open [$(]. *)
Fixpoint dollar_close_at (depth : nat) (scan : cstr) : option (cstr * cstr) :=
  match scan with
  | [] => None
  | c :: r =>
      if decide (c = "$"%char) then
        match r with
        | d :: r' =>
            if decide (d = "("%char) then
              match dollar_close_at (S depth) r' with
              | Some (a, b) => Some (c :: d :: a, b)
              | None => None
              end
            else
              match dollar_close_at depth r with
              | Some (a, b) => Some (c :: a, b)
              | None => None
              end
        | [] => None
        end
      else if decide (c = ")"%char) then
        match depth with
        | 0 | 1 => Some ([], r)
        | S d =>
            match dollar_close_at d r with
            | Some (a, b) => Some (c :: a, b)
            | None => None
            end
        end
      else
        match dollar_close_at depth r with
        | Some (a, b) => Some (c :: a, b)
        | None => None
        end
  end.

Definition find_dollar_close (inner : cstr) : option (cstr * cstr) :=
  dollar_close_at 1 inner.

(** [p[0] == '$' && p[1] == '('] with a matching close: the text between the
    parentheses and the text after them. *)
Definition dollar_ref (p : cstr) : option (cstr * cstr) :=
  match p with
  | c :: d :: inner =>
      if decide (c = "$"%char ∧ d = "("%char) then find_dollar_close inner else None
  | _ => None
  end.

(** The shared shape of kv_expand and subst_tmpl: copy the text, replacing every
    dollar reference by [f] of its inner text.  The pointer assignment
    [p = close + 1] is the number of characters still to [skip]. *)
Fixpoint expand_refs (f : cstr → option cstr) (skip : nat) (p : cstr) : option cstr :=
  match p with
  | [] => Some []
  | c :: r =>
      match skip with
      | S k => expand_refs f k r
      | 0 =>
          match dollar_ref p with
          | Some (inner, _) =>
              match f inner, expand_refs f (length inner + 2) r with
              | Some v, Some w => Some (v ++ w)
              | _, _ => None
              end
          | None =>
              match expand_refs f 0 r with
              | Some w => Some (c :: w)
              | None => None
              end
          end
      end
  end.

(** ** Templates *)

(** The index of the first parameter called [name]. *)
Fixpoint param_index (params : list cstr) (name : cstr) : option nat :=
  match params with
  | [] => None
  | x :: params' =>
      if decide (x = name) then Some 0 else S <$> param_index params' name
  end.

(** What one reference of a template body becomes: the argument of the
    parameter it names (the name cut to a 256-byte buffer), or itself. *)
Definition subst_ref (params vals : list cstr) (inner : cstr) : cstr :=
  match param_index params (trunc 256 inner) with
  | Some pi => default [] (vals !! pi)
  | None => "$(" ++ inner ++ ")"
  end.

Definition subst_tmpl (s : cstr) (params vals : list cstr) : cstr :=
  default [] (expand_refs (λ inner, Some (subst_ref params vals inner)) 0 s).

Fixpoint snode_subst (n : SNode) (params vals : list cstr) : SNode :=
  match n with
  | S_ATOM a l => S_ATOM (subst_tmpl a params vals) l
  | S_LIST kids l => S_LIST (map (λ k, snode_subst k params vals) kids) l
  end.

(** ** The lexer *)

(** [if (blen < bsz - 1) buf[blen++] = c;] *)
Definition buf_push (bsz : nat) (buf : cstr) (c : ascii) : cstr :=
  if decide (length buf < bsz - 1) then buf ++ [c] else buf.

(** [if (blen + 2 < bsz)] store two characters *)
Definition buf_push2 (bsz : nat) (buf : cstr) (c d : ascii) : cstr :=
  if decide (length buf + 2 < bsz) then buf ++ [c; d] else buf.

Definition bump (e : ascii) (line : Z) : Z :=
  if decide (e = NL) then (line + 1)%Z else line.

Definition on_line (msg : cstr) (line : Z) : cstr := msg ++ " on line " ++ pretty line.

Fixpoint swallow_loop (bsz depth : nat) (buf rest : cstr) (line : Z) : out SLex cstr :=
  match depth with
  | 0 => Ok buf (Lex rest line)
  | S d =>
      match rest with
      | [] => Die (on_line "manifest: unterminated $(...)" line) (Lex rest line)
      | e :: r =>
          let line := bump e line in
          let plain :=
            swallow_loop bsz (if decide (e = ")"%char) then d else depth)
                         (buf_push bsz buf e) r line in
          if decide (e = "$"%char) then
            match r with
            | e2 :: r2 =>
                if decide (e2 = "("%char)
                then swallow_loop bsz (S depth) (buf_push2 bsz buf e e2) r2 line
                else plain
            | [] => plain
            end
          else plain
      end
  end.

(** Called with the text at [$(]. *)
Definition lex_swallow_dollar (bsz : nat) (buf : cstr) : M SLex cstr := λ lx,
  swallow_loop bsz 1 (buf_push2 bsz buf "$" "(") (drop 2 (rest lx)) (line lx).

(** The character an escape stands for, and whether the backslash is kept. *)
Definition escape (esc : ascii) : bool * ascii :=
  if decide (esc = "n"%char) then (false, NL)
  else if decide (esc = "t"%char) then (false, TAB)
  else if decide (esc = "r"%char) then (false, CR)
  else if decide (esc = DQ ∨ esc = BSL ∨ esc = "$"%char) then (false, esc)
  else (true, esc).

Fixpoint string_loop (bsz : nat) (start : Z) (buf rest : cstr) (line : Z) : out SLex cstr :=
  match rest with
  | [] => Die (on_line "manifest: unterminated string" start) (Lex rest line)
  | e :: r =>
      if decide (e = DQ) then Ok buf (Lex r line)
      else
        let plain := string_loop bsz start (buf_push bsz buf e) r (bump e line) in
        if decide (e = BSL) then
          match r with
          | esc :: r' =>
              let '(keep, e') := escape esc in
              let buf := if keep : bool then buf_push bsz buf BSL else buf in
              string_loop bsz start (buf_push bsz buf e') r' (bump e' line)
          | [] => plain
          end
        else plain
  end.

(** Called with the text at the opening quote. *)
Definition lex_string (bsz : nat) : M SLex cstr := λ lx,
  string_loop bsz (line lx) [] (drop 1 (rest lx)) (line lx).

Definition is_delim (d : ascii) : bool :=
  bool_decide (d = "("%char) || bool_decide (d = ")"%char) || bool_decide (d = DQ)
  || bool_decide (d = ";"%char) || isspace d.

(** The bare-atom loop of snode_parse. *)
Fixpoint atom_loop (n bsz : nat) (buf : cstr) : M SLex cstr := λ lx,
  match n with
  | 0 => Fuel
  | S n =>
      match rest lx with
      | [] => Ok buf lx
      | d :: r =>
          if is_delim d then Ok buf lx
          else if starts_with "$(" (d :: r)
          then (buf <- lex_swallow_dollar bsz buf ;; atom_loop n bsz buf) lx
          else atom_loop n bsz (buf_push bsz buf d) (Lex r (line lx))
      end
  end.

(** A comment runs to the end of its line. *)
Fixpoint skip_comment (s : cstr) : cstr :=
  match s with
  | [] => []
  | c :: r => if decide (c = NL) then s else skip_comment r
  end.

(** ** The parser

    The C parser links a list into its parent when it opens it and fills it
    through [stack]; here the open lists are the stack, top first, and a list is
    linked when it closes.  The tree is only read after [sp] is back to 1. *)

Definition frame : Type := list SNode * Z.

Definition stack_push (stack : list frame) (kid : SNode) : list frame :=
  match stack with
  | (kids, l) :: st => (kids ++ [kid], l) :: st
  | [] => []
  end.

(** [char buf[8192]] *)
Definition bufsize : nat := Z.to_nat 8192.

Fixpoint parse_loop (n : nat) (stack : list frame) : M SLex SNode := λ lx,
  match n with
  | 0 => Fuel
  | S n =>
      match rest lx with
      | [] =>
          match stack with
          | [(kids, l)] => Ok (S_LIST kids l) lx
          | _ => Die ("manifest: " ++ pretty (length stack - 1)
                      ++ " unclosed '(' at end of file") lx
          end
      | c :: r =>
          if decide (c = NL) then parse_loop n stack (Lex r (line lx + 1))
          else if isspace c then parse_loop n stack (Lex r (line lx))
          else if decide (c = ";"%char)
          then parse_loop n stack (Lex (skip_comment (c :: r)) (line lx))
          else if decide (c = "("%char)
          then parse_loop n (([], line lx) :: stack) (Lex r (line lx))
          else if decide (c = ")"%char) then
            match stack with
            | (kids, l) :: (st1 :: st) =>
                parse_loop n (stack_push (st1 :: st) (S_LIST kids l)) (Lex r (line lx))
            | _ => Die (on_line "manifest: stray ')'" (line lx)) lx
            end
          else if decide (c = DQ) then
            (buf <- lex_string bufsize ;;
             parse_loop n (stack_push stack (snode_atom buf (line lx)))) lx
          else
            (buf <- atom_loop (S (length (c :: r))) bufsize [] ;;
             parse_loop n (stack_push stack (snode_atom buf (line lx)))) lx
      end
  end.

Definition snode_parse : M SLex SNode := λ lx,
  parse_loop (S (length (rest lx))) [([], line lx)] lx.

(** ** Trees *)

Section SNode_ind.
Context (P : SNode → Prop).
Context (Hatom : ∀ a l, P (S_ATOM a l)).
Context (Hlist : ∀ kids l, Forall P kids → P (S_LIST kids l)).

Fixpoint SNode_nested_ind (n : SNode) : P n :=
  match n with
  | S_ATOM a l => Hatom a l
  | S_LIST kids l =>
      Hlist kids l
        ((fix go (ks : list SNode) : Forall P ks :=
            match ks with
            | [] => Forall_nil_2 P
            | k :: ks' => Forall_cons_2 P k ks' (SNode_nested_ind k) (go ks')
            end) kids)
  end.
End SNode_ind.

(** Every atom of the tree satisfies [P]. *)
Fixpoint all_atoms (P : cstr → Prop) (n : SNode) : Prop :=
  match n with
  | S_ATOM a _ => P a
  | S_LIST kids _ => foldr (λ k Q, all_atoms P k ∧ Q) True kids
  end.

Lemma all_atoms_list P kids l : all_atoms P (S_LIST kids l) ↔ Forall (all_atoms P) kids.
Proof.
  simpl. induction kids as [|k ks IH]; simpl; [by split|]. rewrite Forall_cons, IH. done.
Qed.

(** The tree without its line numbers. *)
Fixpoint strip (n : SNode) : SNode :=
  match n with
  | S_ATOM a _ => S_ATOM a 0
  | S_LIST kids _ => S_LIST (map strip kids) 0
  end.

Lemma fold_push kids acc l :
  fold_left snode_push kids (S_LIST acc l) = S_LIST (acc ++ kids) l.
Proof.
  revert acc. induction kids as [|k ks IH]; intros acc; simpl; [by rewrite app_nil_r|].
  by rewrite IH, <- app_assoc.
Qed.

(** A clone is equal to the original (the C code shares no node with it). *)
Lemma snode_clone_eq n : snode_clone n = n.
Proof.
  induction n as [|kids l IH] using SNode_nested_ind; [done|]. simpl.
  unfold snode_list. rewrite fold_push. f_equal. simpl.
  induction IH as [|k ks Hk _ IHks]; simpl; [done|]. by rewrite Hk, IHks.
Qed.

(** ** Allocation *)

Lemma push_cap_spec fuel cap n :
  0 < cap → n ≤ cap + fuel →
  n ≤ push_cap fuel cap n ∧ cap ≤ push_cap fuel cap n.
Proof.
  revert cap. induction fuel as [|f IH]; intros cap Hc Hn; simpl; [lia|].
  case_decide; [|lia]. destruct (IH (cap * 2)); lia.
Qed.

Lemma push_cap_next fuel cap n :
  0 < cap → n ≤ cap + fuel →
  push_cap (S fuel) cap (S n) =
    if decide (n = push_cap fuel cap n) then push_cap fuel cap n * 2 else push_cap fuel cap n.
Proof.
  revert cap. induction fuel as [|f IH]; intros cap Hc Hn.
  - simpl. repeat case_decide; lia.
  - change (push_cap (S (S f)) cap (S n)) with
      (if decide (cap < S n) then push_cap (S f) (cap * 2) (S n) else cap).
    change (push_cap (S f) cap n) with
      (if decide (cap < n) then push_cap f (cap * 2) n else cap).
    destruct (decide (cap < n)).
    + rewrite decide_True, IH by lia. done.
    + repeat case_decide; try lia.
      change (push_cap (S f) (cap * 2) (S n)) with
        (if decide (cap * 2 < S n) then push_cap f (cap * 2 * 2) (S n) else cap * 2).
      rewrite decide_False by lia. done.
Qed.

(** however many kids are pushed on a list node, the kid of index n is
    stored inside the allocation of kids that snode_push keeps. *)
Theorem snode_push_in_bounds n : n < alloc_after n.
Proof.
  cut (alloc_after n = push_cap (S n) 8 (S n)).
  { intros ->. destruct (push_cap_spec (S n) 8 (S n)); lia. }
  induction n as [|n IH]; [done|]. change (alloc_after (S n)) with
    (snode_push_alloc (alloc_after n) (S n)). unfold snode_push_alloc.
  rewrite decide_False, IH by lia. cbv zeta. rewrite (push_cap_next (S n)) by lia. done.
Qed.

(** ** Dollar references *)

Lemma dollar_close_at_eq d s a b :
  dollar_close_at d s = Some (a, b) → s = a ++ ")"%char :: b.
Proof.
  remember (length s) as n eqn:Hn. assert (length s ≤ n) as Hle by lia. clear Hn.
  revert d s a b Hle. induction n as [|n IH]; intros d s a b Hle H; destruct s as [|c r];
    simpl in *; try done; [lia|].
  repeat case_match; simplify_eq; try done;
    match goal with E : dollar_close_at _ ?r = Some _ |- _ =>
      apply IH in E; [by rewrite E | simpl in *; lia] end.
Qed.

Lemma dollar_ref_eq p inner after :
  dollar_ref p = Some (inner, after) ↔
  p = "$" ++ "(" ++ inner ++ ")" ++ after ∧ find_dollar_close (inner ++ ")" ++ after) = Some (inner, after).
Proof.
  unfold dollar_ref. split.
  - destruct p as [|c [|d p]]; try done. case_decide as Hcd; [|done]. destruct Hcd as [-> ->].
    intros H. pose proof (dollar_close_at_eq _ _ _ _ H) as ->. done.
  - intros [-> H]. simpl. done.
Qed.

Lemma expand_refs_skip f a b : expand_refs f (length a) (a ++ b) = expand_refs f 0 b.
Proof. induction a; simpl; [by destruct b | done]. Qed.

Lemma expand_refs_unfold f c r :
  expand_refs f 0 (c :: r) =
    match dollar_ref (c :: r) with
    | Some (inner, _) =>
        match f inner, expand_refs f (length inner + 2) r with
        | Some v, Some w => Some (v ++ w)
        | _, _ => None
        end
    | None => match expand_refs f 0 r with Some w => Some (c :: w) | None => None end
    end.
Proof. reflexivity. Qed.

(** The text after the dollar of a reference, up to its close paren. *)
Definition parens (inner : cstr) : cstr := "("%char :: inner ++ [")"%char].

Lemma parens_length inner : length inner + 2 = length (parens inner).
Proof. unfold parens. simpl. rewrite length_app. simpl. lia. Qed.

Lemma dollar_ref_parens c r inner after :
  dollar_ref (c :: r) = Some (inner, after) → c = "$"%char ∧ r = parens inner ++ after.
Proof.
  intros [H _]%dollar_ref_eq. unfold parens. simpl in H. injection H as -> ->.
  by simplify_list_eq.
Qed.

Lemma expand_refs_ref f p inner after :
  dollar_ref p = Some (inner, after) →
  expand_refs f 0 p =
    match f inner, expand_refs f 0 after with
    | Some v, Some w => Some (v ++ w)
    | _, _ => None
    end.
Proof.
  destruct p as [|c r]; [done|]. intros H. rewrite expand_refs_unfold, H.
  apply dollar_ref_parens in H as [_ ->]. by rewrite parens_length, expand_refs_skip.
Qed.

Lemma expand_refs_char f c r :
  dollar_ref (c :: r) = None →
  expand_refs f 0 (c :: r) = match expand_refs f 0 r with Some w => Some (c :: w) | None => None end.
Proof. intros H. by rewrite expand_refs_unfold, H. Qed.

(** [strstr(s, "$(") == NULL] *)
Definition no_ref (s : cstr) : Prop := strstr s "$(" = None.
#[export] Instance no_ref_dec s : Decision (no_ref s).
Proof. unfold no_ref. apply _. Defined.

Lemma no_ref_cons c r : no_ref (c :: r) → dollar_ref (c :: r) = None ∧ no_ref r.
Proof.
  unfold no_ref. cbn [strstr]. unfold starts_with. case_bool_decide as Hp; [done|].
  destruct (strstr r "$(") as [[]|]; [done|]. intros _. split; [|done].
  destruct r as [|d r]; [done|]. simpl. rewrite decide_False; [done|].
  intros [-> ->]. apply Hp. by exists r.
Qed.

Lemma expand_refs_no_ref f s : no_ref s → expand_refs f 0 s = Some s.
Proof.
  induction s as [|c r IH]; [done|]. intros [Hd Hr]%no_ref_cons.
  by rewrite expand_refs_char, IH by done.
Qed.

(** The inner texts of the references the copying loop stops at. *)
Fixpoint refs_of (skip : nat) (p : cstr) : list cstr :=
  match p with
  | [] => []
  | c :: r =>
      match skip with
      | S k => refs_of k r
      | 0 => match dollar_ref p with
             | Some (inner, _) => inner :: refs_of (length inner + 2) r
             | None => refs_of 0 r
             end
      end
  end.

(** A loop that maps every reference to itself copies the text. *)
Lemma expand_refs_verbatim f skip p :
  skip ≤ length p →
  (∀ inner, inner ∈ refs_of skip p → f inner = Some ("$(" ++ inner ++ ")")) →
  expand_refs f skip p = Some (drop skip p).
Proof.
  revert skip. induction p as [|c r IH]; intros skip Hs Hf; [by destruct skip|].
  destruct skip as [|k]; [|apply IH; [simpl in *; lia | exact Hf]].
  rewrite expand_refs_unfold. cbn [refs_of] in Hf.
  destruct (dollar_ref (c :: r)) as [[inner after]|] eqn:E.
  - apply dollar_ref_parens in E as [-> ->]. rewrite parens_length in *.
    rewrite Hf, IH by (rewrite ?length_app; try lia; set_solver).
    rewrite drop_app_length. unfold parens. by simplify_list_eq.
  - by rewrite IH by (lia || done).
Qed.

Lemma param_index_None params name : param_index params name = None ↔ name ∉ params.
Proof.
  induction params as [|x l IH]; simpl; [set_solver|].
  case_decide; [set_solver|]. rewrite fmap_None, IH. set_solver.
Qed.

(** instantiating a template leaves an atom unchanged when no reference in
    it names a parameter: every other $(...) survives verbatim for the later
    kv_expand pass. *)
Theorem subst_tmpl_verbatim s params vals :
  (∀ inner, inner ∈ refs_of 0 s → trunc 256 inner ∉ params) →
  subst_tmpl s params vals = s.
Proof.
  intros H. unfold subst_tmpl. rewrite expand_refs_verbatim; [done|lia|].
  intros inner Hin. unfold subst_ref. by rewrite (proj2 (param_index_None _ _) (H _ Hin)).
Qed.

Lemma subst_tmpl_verbatim_witness :
  subst_tmpl "obj/$(BASESTEM).o $(LIBS:$(IDENT))" (lits ["NAME"; "SRC"]) (lits ["a"; "b"])
  = "obj/$(BASESTEM).o $(LIBS:$(IDENT))".
Proof.
  apply subst_tmpl_verbatim. intros inner Hin.
  change (inner ∈ [lit "BASESTEM"; lit "LIBS:$(IDENT)"]) in Hin.
  apply elem_of_cons in Hin as [->|Hin]; [by_decide|].
  apply elem_of_cons in Hin as [->|Hin]; [by_decide|].
  by apply elem_of_nil in Hin.
Defined.
