(* ===== verification/SexprFacts.v ===== *)
(** * The manifest reader is total, bounded and inverts a printer

    Theorems about [snode_parse] of Sexpr.v: it always returns a tree or one of
    its three diagnostics, every atom it returns fits the C buffer, and it
    reads back what a canonical printer writes. *)

From S2P Require Import Prelude CString Sexpr.

(** ** Totality and bounds *)

(** The outcome is a return that leaves at most [k] characters to read and a
    value satisfying [P], or a diagnostic. *)
Definition lex_ok {A} (k : nat) (P : A → Prop) (o : out SLex A) : Prop :=
  match o with
  | Ok a lx => length (rest lx) ≤ k ∧ P a
  | Die _ _ => True
  | Ub | Fuel => False
  end.

Lemma lex_ok_weaken {A} k1 k2 (P : A → Prop) o : k1 ≤ k2 → lex_ok k1 P o → lex_ok k2 P o.
Proof. destruct o; simpl; intuition lia. Qed.

Lemma lex_ok_bind {A B} k1 k2 (P : A → Prop) (Q : B → Prop) (m : M SLex A) (f : A → M SLex B) lx :
  lex_ok k1 P (m lx) →
  (∀ a lx', length (rest lx') ≤ k1 → P a → lex_ok k2 Q (f a lx')) →
  lex_ok k2 Q (mbind m f lx).
Proof. unfold mbind. destruct (m lx); simpl; try done. intros [? ?] Hf. by apply Hf. Qed.

Definition fits (bsz : nat) (buf : cstr) : Prop := length buf < bsz.

Lemma buf_push_fits bsz buf c : fits bsz buf → fits bsz (buf_push bsz buf c).
Proof.
  unfold fits, buf_push. case_decide; [rewrite length_app; simpl; lia | done].
Qed.
Lemma buf_push2_fits bsz buf c d : fits bsz buf → fits bsz (buf_push2 bsz buf c d).
Proof.
  unfold fits, buf_push2. case_decide; [rewrite length_app; simpl; lia | done].
Qed.
Create HintDb lex.
#[export] Hint Resolve buf_push_fits buf_push2_fits : lex.

Lemma swallow_ok bsz depth buf r l :
  fits bsz buf → lex_ok (length r) (fits bsz) (swallow_loop bsz depth buf r l).
Proof.
  remember (length r) as n eqn:Hn. assert (length r ≤ n) as Hle by lia. clear Hn.
  revert depth buf r l Hle. induction n as [|n IH]; intros depth buf r l Hle Hb;
    destruct depth as [|d]; destruct r as [|e r]; simpl in *; try (split; [lia|done]); try done; [lia|].
  assert (∀ d b l, fits bsz b → lex_ok (S n) (fits bsz) (swallow_loop bsz d b r l)) as IHr.
  { intros. apply (lex_ok_weaken n); [lia|]. apply IH; [lia|done]. }
  repeat case_match; subst; auto with lex.
  apply (lex_ok_weaken n); [lia|]. apply IH; [simpl in *; lia|auto with lex].
Qed.

Lemma string_ok bsz start buf r l :
  fits bsz buf → lex_ok (pred (length r)) (fits bsz) (string_loop bsz start buf r l).
Proof.
  remember (length r) as n eqn:Hn. assert (length r ≤ n) as Hle by lia. clear Hn.
  revert buf r l Hle. induction n as [|n IH]; intros buf r l Hle Hb;
    destruct r as [|e r]; simpl in *; try done; [lia|].
  assert (∀ b l, fits bsz b → lex_ok n (fits bsz) (string_loop bsz start b r l)) as IHr.
  { intros. apply (lex_ok_weaken (pred n)); [lia|]. apply IH; [lia|done]. }
  case_decide; [split; [simpl; lia | done]|]. case_decide; [|by auto with lex].
  destruct r as [|esc r']; [by auto with lex|].
  destruct (escape esc) as [keep e']. apply (lex_ok_weaken (pred n)); [lia|].
  apply IH; [simpl in *; lia|]. destruct keep; auto with lex.
Qed.

Lemma atom_ok n bsz buf lx :
  length (rest lx) < n → fits bsz buf →
  lex_ok (length (rest lx)) (fits bsz) (atom_loop n bsz buf lx).
Proof.
  revert buf lx. induction n as [|n IH]; intros buf lx Hn Hb; [lia|]. cbn [atom_loop].
  destruct lx as [[|d r] l]; simpl in *; [split; [simpl; lia|done]|].
  case_match; [split; [simpl; lia|done]|]. case_match.
  - eapply lex_ok_bind; [apply swallow_ok; auto with lex|]. simpl. intros b lx' Hl Hb'.
    apply (lex_ok_weaken (length (rest lx'))).
    + rewrite length_drop in Hl. lia.
    + apply IH; [|done]. rewrite length_drop in Hl. lia.
  - apply (lex_ok_weaken (length r)); [lia|]. apply (IH _ (Lex r l)); [simpl; lia|auto with lex].
Qed.

(** A bare atom consumes its first character. *)
Lemma atom_ok_progress n bsz buf d r l :
  is_delim d = false → length r < n → fits bsz buf →
  lex_ok (length r) (fits bsz) (atom_loop (S n) bsz buf (Lex (d :: r) l)).
Proof.
  intros Hd Hn Hb. cbn [atom_loop rest]. rewrite Hd. case_match.
  - eapply lex_ok_bind; [apply swallow_ok; auto with lex|]. simpl. intros b lx' Hl Hb'.
    rewrite length_drop in Hl. apply (lex_ok_weaken (length (rest lx'))); [lia|].
    apply atom_ok; [lia|done].
  - apply (atom_ok n _ _ (Lex r l)); [simpl; lia|auto with lex].
Qed.

Lemma skip_comment_length s : length (skip_comment s) ≤ length s.
Proof. induction s; simpl; [lia|]. case_decide; simpl; lia. Qed.

Lemma fits_nil : fits bufsize [].
Proof. unfold fits, bufsize. cbn [length]. lia. Qed.

Abbreviation node_fits := (all_atoms (fits bufsize)).
Definition frame_ok (f : frame) : Prop := Forall node_fits (f.1).

Lemma stack_push_ok st k : Forall frame_ok st → node_fits k → Forall frame_ok (stack_push st k).
Proof.
  destruct st as [|[kids l] st]; simpl; [done|]. unfold frame_ok. rewrite !Forall_cons. simpl.
  intros [? ?] ?. split; [|done]. by apply Forall_app_2; [|apply Forall_singleton].
Qed.

Lemma parse_ok n st lx :
  length (rest lx) < n → Forall frame_ok st → lex_ok 0 node_fits (parse_loop n st lx).
Proof.
  revert st lx. induction n as [|n IH]; intros st lx Hn Hst; [lia|]. cbn [parse_loop].
  destruct lx as [[|c r] l]; cbn [rest line] in *.
  - destruct st as [|[kids k] [|]]; try done. split; [done|].
    apply all_atoms_list. by apply Forall_cons in Hst as [? _].
  - simpl in Hn.
    assert (∀ st l, Forall frame_ok st → lex_ok 0 node_fits (parse_loop n st (Lex r l))) as IHr.
    { intros. apply IH; [simpl; lia|done]. }
    case_decide; [by auto|]. destruct (isspace c) eqn:Hsp; [by auto|]. case_decide.
    { subst. apply IH; [|done]. simpl. pose proof (skip_comment_length r). lia. }
    case_decide; [apply IHr; constructor; [apply Forall_nil_2|done]|].
    case_decide.
    { destruct st as [|[kids k] [|f st]]; try done. apply IHr, stack_push_ok.
      - by apply Forall_cons in Hst as [_ ?].
      - apply all_atoms_list. by apply Forall_cons in Hst as [? _]. }
    case_decide.
    { eapply lex_ok_bind; [apply string_ok, fits_nil|]. cbn [rest drop].
      intros b lx' Hl Hb. apply IH; [rewrite drop_0 in Hl; lia|]. by apply stack_push_ok. }
    eapply lex_ok_bind.
    { apply atom_ok_progress; [|simpl; lia | apply fits_nil].
      unfold is_delim. by rewrite !bool_decide_false by done. }
    intros b lx' Hl Hb. apply IH; [lia|]. by apply stack_push_ok.
Qed.

(** C15: on every input the reader returns, with the whole text consumed and a
    tree whose atoms all fit the 8192-byte buffer, or stops with a diagnostic;
    it neither runs forever nor leaves its buffers. *)
Theorem snode_parse_total lx :
  (∃ t lx', snode_parse lx = Ok t lx' ∧ rest lx' = [] ∧ all_atoms (fits bufsize) t) ∨
  (∃ msg lx', snode_parse lx = Die msg lx').
Proof.
  unfold snode_parse. pose proof (parse_ok (S (length (rest lx))) [([], line lx)] lx) as H.
  destruct (parse_loop _ _ _) as [t lx'|msg lx'| |]; simpl in H; [left | right; by eauto | |].
  - destruct H as [Hl Ht]; [lia | by repeat constructor |].
    exists t, lx'. split_and!; [done | | done]. apply nil_length_inv. lia.
  - destruct H; [lia | by repeat constructor].
  - destruct H; [lia | by repeat constructor].
Qed.

(** ** Reading back a printed tree *)

(** A canonical printer: every atom quoted, quotes and backslashes escaped. *)
Definition print_char (c : ascii) : cstr :=
  if decide (c = DQ ∨ c = BSL) then [BSL; c] else [c].
Definition print_atom (a : cstr) : cstr := DQ :: (a ≫= print_char) ++ [DQ].
Fixpoint print_node (n : SNode) : cstr :=
  match n with
  | S_ATOM a _ => print_atom a
  | S_LIST kids _ =>
      "(" ++ foldr (λ k acc, print_node k ++ " " ++ acc) [] kids ++ ")"
  end.
Definition print_nodes (kids : list SNode) : cstr :=
  foldr (λ k acc, print_node k ++ " " ++ acc) [] kids.

(** The result does not depend on the fuel once it exceeds the text. *)
Lemma parse_loop_enough n m st lx :
  length (rest lx) < n → length (rest lx) < m → parse_loop n st lx = parse_loop m st lx.
Proof.
  revert m st lx. induction n as [|n IH]; intros [|m] st lx Hn Hm; try lia. cbn [parse_loop].
  destruct lx as [[|c r] l]; cbn [rest line length] in *; [done|].
  assert (∀ st l, parse_loop n st (Lex r l) = parse_loop m st (Lex r l)) as IHr.
  { intros. apply IH; simpl; lia. }
  rewrite !IHr. case_decide; [done|]. case_match; [done|]. case_decide.
  { subst. pose proof (skip_comment_length r). apply IH; simpl; lia. }
  do 2 (case_decide; [by repeat case_match|]). case_decide.
  - unfold mbind. pose proof (string_ok bufsize l [] r l fits_nil) as H'.
    unfold lex_string. cbn [rest line drop]. rewrite drop_0.
    destruct (string_loop _ _ _ _ _); try done. simpl in H'. apply IH; lia.
  - unfold mbind. pose proof (atom_ok_progress (S (length r)) bufsize [] c r l) as H'.
    destruct (atom_loop _ _ _ _); try done. simpl in H'. apply IH.
    all: enough (is_delim c = false) by (destruct H'; [done|lia|apply fits_nil|lia]).
    all: unfold is_delim; by rewrite !bool_decide_false by done.
Qed.

Definition parse (st : list frame) (lx : SLex) : out SLex SNode :=
  parse_loop (S (length (rest lx))) st lx.

Lemma parse_step n st lx : length (rest lx) < n → parse_loop n st lx = parse st lx.
Proof. intros. apply parse_loop_enough; lia. Qed.

Lemma parse_loop_cons n st c r l :
  parse_loop (S n) st (Lex (c :: r) l) =
    if decide (c = NL) then parse_loop n st (Lex r (l + 1))
    else if isspace c then parse_loop n st (Lex r l)
    else if decide (c = ";"%char) then parse_loop n st (Lex (skip_comment (c :: r)) l)
    else if decide (c = "("%char) then parse_loop n (([], l) :: st) (Lex r l)
    else if decide (c = ")"%char) then
      match st with
      | (kids, k) :: (st1 :: st) =>
          parse_loop n (stack_push (st1 :: st) (S_LIST kids k)) (Lex r l)
      | _ => Die (on_line "manifest: stray ')'" l) (Lex (c :: r) l)
      end
    else if decide (c = DQ) then
      (buf <- lex_string bufsize ;;
       parse_loop n (stack_push st (snode_atom buf l))) (Lex (c :: r) l)
    else
      (buf <- atom_loop (S (length (c :: r))) bufsize [] ;;
       parse_loop n (stack_push st (snode_atom buf l))) (Lex (c :: r) l).
Proof. reflexivity. Qed.

Lemma parse_space st r l : parse st (Lex (" "%char :: r) l) = parse st (Lex r l).
Proof.
  unfold parse at 1. rewrite parse_loop_cons, decide_False by done.
  change (isspace " ") with true. apply parse_step. simpl. lia.
Qed.
Lemma parse_open st r l : parse st (Lex ("("%char :: r) l) = parse (([], l) :: st) (Lex r l).
Proof.
  unfold parse at 1. rewrite parse_loop_cons. change (isspace "(") with false.
  rewrite !decide_False, decide_True by done. apply parse_step. simpl. lia.
Qed.
Lemma parse_close kids k f st r l :
  parse ((kids, k) :: f :: st) (Lex (")"%char :: r) l)
  = parse (stack_push (f :: st) (S_LIST kids k)) (Lex r l).
Proof.
  unfold parse at 1. rewrite parse_loop_cons. change (isspace ")") with false.
  rewrite !decide_False, decide_True by done. apply parse_step. simpl. lia.
Qed.
Lemma parse_quote st r l b lx' :
  string_loop bufsize l [] r l = Ok b lx' →
  parse st (Lex (DQ :: r) l) = parse (stack_push st (S_ATOM b l)) lx'.
Proof.
  intros H. unfold parse at 1. rewrite parse_loop_cons. change (isspace DQ) with false.
  rewrite !decide_False, decide_True by done.
  unfold mbind, lex_string. cbn [rest drop line]. rewrite drop_0, H. apply parse_step.
  pose proof (string_ok bufsize l [] r l fits_nil) as H'. rewrite H in H'. simpl in *. lia.
Qed.

Lemma buf_push_fit bsz buf c : fits bsz (buf ++ [c]) → buf_push bsz buf c = buf ++ [c].
Proof. unfold fits, buf_push. rewrite length_app. simpl. intros. by rewrite decide_True by lia. Qed.

Lemma string_loop_print bsz start a buf r l :
  fits bsz (buf ++ a) →
  ∃ l', string_loop bsz start buf ((a ≫= print_char) ++ DQ :: r) l = Ok (buf ++ a) (Lex r l').
Proof.
  revert buf l. induction a as [|c a IH]; intros buf l Hf.
  - exists l. simpl. by rewrite app_nil_r.
  - assert (fits bsz (buf ++ [c])) as Hc by (unfold fits in *; rewrite !length_app in *; simpl in *; lia).
    replace (buf ++ c :: a) with ((buf ++ [c]) ++ a) in * by (by rewrite <- app_assoc).
    rewrite bind_cons, <- app_assoc. unfold print_char at 1. case_decide as Hq.
    + destruct (IH (buf ++ [c]) (bump c l) Hf) as [l' E]. exists l'.
      rewrite <- E, <- (buf_push_fit bsz buf c) by done. by destruct Hq as [-> | ->].
    + destruct (IH (buf ++ [c]) (bump c l) Hf) as [l' E]. exists l'. rewrite <- E.
      cbn [string_loop app]. by rewrite !decide_False, buf_push_fit by naive_solver.
Qed.

Lemma parse_print_nodes kids :
  Forall (λ k, ∀ f st r l, node_fits k →
    ∃ k' l', strip k' = strip k ∧
      parse (f :: st) (Lex (print_node k ++ r) l) = parse (stack_push (f :: st) k') (Lex r l')) kids →
  ∀ acc lk st r l, Forall node_fits kids →
    ∃ kids' l', map strip kids' = map strip kids ∧
      parse ((acc, lk) :: st) (Lex (print_nodes kids ++ r) l)
      = parse ((acc ++ kids', lk) :: st) (Lex r l').
Proof.
  induction 1 as [|k ks Hk _ IH]; intros acc lk st r l Hf; simpl.
  - exists [], l. by rewrite app_nil_r.
  - apply Forall_cons in Hf as [Hfk Hfs]. fold (print_nodes ks).
    destruct (Hk (acc, lk) st (" "%char :: print_nodes ks ++ r) l Hfk) as (k' & l1 & Hs & E).
    destruct (IH (acc ++ [k']) lk st r l1 Hfs) as (ks' & l2 & Hss & E2).
    exists (k' :: ks'), l2. split; [simpl; congruence|].
    rewrite <- app_assoc. simpl. etransitivity; [exact E|]. simpl. rewrite parse_space.
    etransitivity; [exact E2|]. by rewrite <- app_assoc.
Qed.

Lemma parse_print_node k f st r l :
  node_fits k →
  ∃ k' l', strip k' = strip k ∧
    parse (f :: st) (Lex (print_node k ++ r) l) = parse (stack_push (f :: st) k') (Lex r l').
Proof.
  revert f st r l. induction k as [a la|kids lk IH] using SNode_nested_ind; intros f st r l Hf.
  - destruct (string_loop_print bufsize l a [] r l Hf) as [l' E].
    exists (S_ATOM a l), l'. split; [done|]. cbn [print_node]. unfold print_atom.
    cbn [app]. rewrite <- app_assoc. by apply parse_quote.
  - apply all_atoms_list in Hf.
    destruct (parse_print_nodes kids IH [] l (f :: st) (")"%char :: r) l Hf) as (ks & l' & Hs & E).
    exists (S_LIST ks l), l'. split; [simpl; by rewrite Hs|].
    cbn [print_node]. fold (print_nodes kids). rewrite <- !app_assoc. cbn [app lit list_ascii_of_string].
    rewrite parse_open. etransitivity; [exact E|]. cbn [app]. apply parse_close.
Qed.

(** C14: reading the printed form of a list of trees returns these trees (up to
    the line numbers the reader assigns) with the whole text consumed, as long
    as the atoms fit the reader's buffer. *)
Theorem parse_print_roundtrip kids l :
  Forall (all_atoms (fits bufsize)) kids →
  ∃ kids' l', snode_parse (Lex (print_nodes kids) l) = Ok (S_LIST kids' l) (Lex [] l') ∧
              map strip kids' = map strip kids.
Proof.
  intros Hf.
  destruct (parse_print_nodes kids (Forall_true _ _ parse_print_node) [] l [] [] l Hf)
    as (ks & l' & Hs & E).
  exists ks, l'. split; [|done]. rewrite app_nil_r in E. exact E.
Qed.

Lemma parse_print_roundtrip_witness :
  let kids := [S_LIST [S_ATOM "set" 3; S_ATOM [DQ; BSL; NL] 4] 3] in
  ∃ kids' l', snode_parse (Lex (print_nodes kids) 1) = Ok (S_LIST kids' 1) (Lex [] l') ∧
              map strip kids' = map strip kids.
Proof.
  intros kids. apply parse_print_roundtrip.
  apply Forall_singleton, all_atoms_list, Forall_cons. split; [|apply Forall_singleton];
    cbn [all_atoms]; unfold fits, bufsize; cbn [length lit list_ascii_of_string]; lia.
Defined.
