(* ===== verification/StrList.v ===== *)
(** * String lists: src/cmd/dev/ninqu/strlist.c

    A [struct StrList] is the list of its strings.  Joining with blanks and
    splitting on white space are inverse on lists of words, which is what lets
    ninqu keep a list of flags in a variable. *)

From S2P Require Import Prelude CString.

Abbreviation StrList := (list cstr).

Definition sl_push (sl : StrList) (s : cstr) : StrList := sl ++ [s].

Fixpoint sl_has (sl : StrList) (s : cstr) : bool :=
  match sl with
  | [] => false
  | x :: sl' => if decide (x = s) then true else sl_has sl' s
  end.

(** The word from [start] to [p], cut to the 4096-byte buffer. *)
Definition flush (word : cstr) : StrList :=
  match word with [] => [] | _ => [trunc 4096 word] end.

(** [word] is the text from [start] to the read position. *)
Fixpoint split_from (word s : cstr) : StrList :=
  match s with
  | [] => flush word
  | c :: r => if isspace c then flush word ++ split_from [] r else split_from (word ++ [c]) r
  end.

(** The previous contents are dropped ([sl->n = 0]). *)
Definition sl_split (s : cstr) : StrList := split_from [] s.

Fixpoint sl_join (sl : StrList) : cstr :=
  match sl with
  | [] => []
  | [s] => s
  | s :: sl' => s ++ " " ++ sl_join sl'
  end.

Definition base_of (path : cstr) : cstr :=
  match strrchr path "/" with Some (_, b) => b | None => path end.

(** The argument vector, closed by a null pointer. *)
Definition sl_argv (sl : StrList) : list (option cstr) := map Some sl ++ [None].

(** ** Lemmas *)

Lemma sl_has_elem sl s : sl_has sl s = true ↔ s ∈ sl.
Proof.
  induction sl as [|x sl IH]; simpl; [set_solver|].
  case_decide; [set_solver|]. rewrite IH. set_solver.
Qed.
Lemma sl_has_false sl s : sl_has sl s = false ↔ s ∉ sl.
Proof. rewrite <- sl_has_elem. by destruct (sl_has sl s). Qed.

(** A word: what [sl_split] can return. *)
Definition word (w : cstr) : Prop :=
  w ≠ [] ∧ length w < 4096 ∧ Forall (λ c, isspace c = false) w.

Lemma split_from_word w acc r :
  Forall (λ c, isspace c = false) w → split_from acc (w ++ r) = split_from (acc ++ w) r.
Proof.
  intros Hw. revert acc. induction Hw as [|c w Hc _ IH]; intros acc; simpl.
  - by rewrite app_nil_r.
  - by rewrite Hc, IH, <- app_assoc.
Qed.

Lemma flush_word w : word w → flush w = [w].
Proof. intros (? & Hl & _). destruct w; [done|]. unfold flush. by rewrite trunc_id. Qed.

(** Splitting the joined form of a list of words gives the list back, so a
    (list ...) variable that stands alone in a command becomes exactly its
    tokens again. *)
Lemma sl_split_join sl : Forall word sl → sl_split (sl_join sl) = sl.
Proof.
  unfold sl_split. induction 1 as [|w sl Hw Hsl IH]; [done|].
  destruct sl as [|w' sl]; pose proof Hw as (_ & _ & Hns).
  - simpl. rewrite <- (app_nil_r w), split_from_word by done. simpl.
    rewrite app_nil_r. by apply flush_word.
  - change (sl_join (w :: w' :: sl)) with (w ++ " " ++ sl_join (w' :: sl)).
    rewrite split_from_word by done. cbn [app lit list_ascii_of_string split_from].
    change (isspace " ") with true. cbv iota. by rewrite IH, flush_word.
Qed.
