(* ===== verification/Args.v ===== *)
(** * Command lines: the ARGBEGIN macros of src/shared/arg.h

    Every program of the repository parses its options with the same macros: a
    loop over the arguments that start with a dash, and inside it a loop over
    the letters of one argument with the program's [switch] as its body.  The
    switch is a parameter: which letters take an argument, what a letter does
    with it, and what the others do. *)

From S2P Require Import Prelude CString StrList.

Section args.
Context {S O : Type}.
Context (takes_arg : ascii → bool) (arg_case : ascii → cstr → O → M S O).
Context (flag_case : ascii → O → M S O) (usage : M S (StrList * O)).

(** The letters of one argument.  EARGF takes the rest of it, or the next
    argument; after an empty next argument the loop reads past its end. *)
Fixpoint arg_letters (letters : cstr) (rest : StrList) (o : O) : M S (StrList * O) :=
  match letters with
  | [] => mret (rest, o)
  | c :: more =>
      if takes_arg c then
        match more, rest with
        | _ :: _, _ => o <- arg_case c more o ;; mret (rest, o)
        | [], [] => usage
        | [], a :: rest' =>
            o <- arg_case c a o ;;
            if decide (a = []) then mub else mret (rest', o)
        end
      else o <- flag_case c o ;; arg_letters more rest o
  end.

(** ARGBEGIN ... ARGEND: the operands that remain, and the options. *)
Fixpoint arg_loop (fuel : nat) (args : StrList) (o : O) : M S (StrList * O) :=
  match fuel with
  | 0 => mfuel
  | Datatypes.S fuel =>
      match args with
      | ("-"%char :: c :: r) :: rest =>
          if decide (c = "-"%char ∧ r = []) then mret (rest, o)
          else p <- arg_letters (c :: r) rest o ;; arg_loop fuel (fst p) (snd p)
      | _ => mret (args, o)
      end
  end.

Definition argbegin (args : StrList) (o : O) : M S (StrList * O) :=
  arg_loop (Datatypes.S (length args)) args o.

(** Each round consumes an argument, so the budget of the loop is enough,
    whatever the switch does short of running out of a budget of its own. *)
Hypothesis usage_exits : ∀ s, usage s ≠ Fuel ∧ ∀ r s', usage s ≠ Ok r s'.
Hypothesis cases_end : ∀ c a o s, arg_case c a o s ≠ Fuel ∧ flag_case c o s ≠ Fuel.

Lemma arg_letters_shorter letters rest o s :
  arg_letters letters rest o s ≠ Fuel ∧
  ∀ r s', arg_letters letters rest o s = Ok r s' → length (fst r) ≤ length rest.
Proof using usage_exits cases_end.
  revert o s. induction letters as [|c more IH]; intros o s; simpl; [split; [done|]; by intros ?? [= <- <-]|].
  destruct (takes_arg c); [destruct more as [|m more]; [destruct rest as [|a rest]|]|].
  - split; [apply usage_exits|]. by intros r s' H%usage_exits.
  - unfold mbind. destruct (cases_end c a o s) as [Hc _]. destruct (arg_case c a o s); try done.
    case_decide; split; try done. intros r s' [= <- <-]. simpl. lia.
  - unfold mbind. destruct (cases_end c (m :: more) o s) as [Hc _].
    destruct (arg_case c (m :: more) o s); try done. split; [done|]. by intros r s' [= <- <-].
  - unfold mbind. destruct (cases_end c [] o s) as [_ Hc]. by destruct (flag_case c o s).
Qed.

Lemma argbegin_terminates args o s : argbegin args o s ≠ Fuel.
Proof using usage_exits cases_end.
  unfold argbegin. generalize (Nat.lt_succ_diag_r (length args)).
  generalize (Datatypes.S (length args)) as fuel. intros fuel. revert args o s.
  induction fuel as [|fuel IH]; intros args o s Hlt; cbn [arg_loop]; [lia|].
  destruct args as [|[|a [|c r]] rest]; try done; [by destruct a as [[] [] [] [] [] [] [] []]|].
  destruct (decide (a = "-"%char)) as [->|Ha]; [|by destruct a as [[] [] [] [] [] [] [] []]].
  simpl in Hlt. case_decide; [done|]. unfold mbind.
  destruct (arg_letters_shorter (c :: r) rest o s) as [Hl Hs].
  destruct (arg_letters (c :: r) rest o s) as [[rest' o'] s'| | |] eqn:E; try done.
  apply IH. specialize (Hs _ _ eq_refl). simpl in Hs. simpl. lia.
Qed.

(** An operand ends the options, and an argument of options is taken off. *)
Lemma operands_left k path args o s : head path ≠ Some "-"%char → arg_loop (Datatypes.S k) (path :: args) o s = Ok (path :: args, o) s.
Proof using Type.
  intros Hp. destruct path as [|c [|c' path]]; try done; destruct c as [[] [] [] [] [] [] [] []]; done.
Qed.
Lemma options_next k c r rest o s : ¬ (c = "-"%char ∧ r = []) →
  arg_loop (Datatypes.S k) (("-"%char :: c :: r) :: rest) o s = (p <- arg_letters (c :: r) rest o ;; arg_loop k (fst p) (snd p)) s.
Proof using Type. intros Hc. cbn [arg_loop]. by rewrite decide_False. Qed.
End args.
