(* ===== verification/Kv.v ===== *)
(** * Variables: src/cmd/dev/ninqu/kv.c

    The variable store, the per-match overlay, the (map ...) tables and the
    expansion of $(NAME) and $(NAME:KEY).  [KvState] holds the globals of kv.c;
    an overlay is a [struct KvStore] on the stack of expand_rule that the
    pointer [local_overlay] may or may not reach, so the overlays live in a
    store of their own and the pointer is an index into it.  Proved here: the
    store implements a finite map, -D locks a name against later (set)s,
    expansion is independent of its budget, terminates when map values name no
    map, and is the identity on text without references. *)

From S2P Require Import Prelude CString Sexpr StrList.

(** ** Data *)

(** struct KvStore: the pairs in the order they were first set. *)
Abbreviation KvStore := (list (cstr * cstr)).

Record Map := MkMap { map_name : cstr; entries : KvStore }.

Record KvState := MkKv {
  kv : KvStore;
  overlays : list KvStore;
  local_overlay : option nat;
  kv_locked : StrList;
  maps : list Map;
  environ : KvStore
}.

Definition with_kv (f : KvStore → KvStore) (g : KvState) : KvState :=
  MkKv (f (kv g)) (overlays g) (local_overlay g) (kv_locked g) (maps g) (environ g).
Definition with_overlays (f : list KvStore → list KvStore) (g : KvState) : KvState :=
  MkKv (kv g) (f (overlays g)) (local_overlay g) (kv_locked g) (maps g) (environ g).
Definition with_local_overlay (o : option nat) (g : KvState) : KvState :=
  MkKv (kv g) (overlays g) o (kv_locked g) (maps g) (environ g).
Definition with_locked (f : StrList → StrList) (g : KvState) : KvState :=
  MkKv (kv g) (overlays g) (local_overlay g) (f (kv_locked g)) (maps g) (environ g).
Definition with_maps (f : list Map → list Map) (g : KvState) : KvState :=
  MkKv (kv g) (overlays g) (local_overlay g) (kv_locked g) (f (maps g)) (environ g).

(** ** Stores *)

Fixpoint kv_get_raw (s : KvStore) (key : cstr) : option cstr :=
  match s with
  | [] => None
  | (k, v) :: s' => if decide (k = key) then Some v else kv_get_raw s' key
  end.

Fixpoint kv_set_raw (s : KvStore) (key val : cstr) : KvStore :=
  match s with
  | [] => [(key, val)]
  | (k, v) :: s' =>
      if decide (k = key) then (k, val) :: s' else (k, v) :: kv_set_raw s' key val
  end.

(** The store [local_overlay] points to. *)
Definition overlay_of (g : KvState) : option KvStore :=
  match local_overlay g with Some i => overlays g !! i | None => None end.

(** Overlay, then global store, then environment. *)
Definition kv_get (g : KvState) (key : cstr) : option cstr :=
  let global :=
    match kv_get_raw (kv g) key with
    | Some v => Some v
    | None => kv_get_raw (environ g) key
    end in
  match overlay_of g with
  | Some ov => match kv_get_raw ov key with Some v => Some v | None => global end
  | None => global
  end.

Definition kv_get_or (g : KvState) (key def : cstr) : cstr := default def (kv_get g key).

Definition kv_set (key val : cstr) (g : KvState) : KvState :=
  with_kv (λ s, kv_set_raw s key val) g.

Definition kv_set_manifest (key val : cstr) (g : KvState) : KvState :=
  if sl_has (kv_locked g) key then g else kv_set key val g.

Definition kv_set_cli (key val : cstr) (g : KvState) : KvState :=
  with_locked (λ l, sl_push l key) (kv_set key val g).

(** ** Maps *)

Fixpoint map_find_in (ms : list Map) (name : cstr) : option nat :=
  match ms with
  | [] => None
  | m :: ms' => if decide (map_name m = name) then Some 0 else S <$> map_find_in ms' name
  end.

(** The index of the table, which is what the returned pointer identifies. *)
Definition map_find (g : KvState) (name : cstr) : option nat := map_find_in (maps g) name.

Definition map_new (name : cstr) (g : KvState) : KvState * nat :=
  (with_maps (λ ms, ms ++ [MkMap (trunc 128 name) []]) g, length (maps g)).

(** [kv_set_raw(&m->entries, key, val)] *)
Definition map_set (i : nat) (key val : cstr) (g : KvState) : KvState :=
  with_maps (alter (λ m, MkMap (map_name m) (kv_set_raw (entries m) key val)) i) g.

(** ** Expansion *)

(** One reference: the inner text is cut to 4096 bytes; with a colon it is a
    map lookup whose key is expanded first and whose value is expanded again. *)
Definition kv_ref (rec : cstr → option cstr) (g : KvState) (inner : cstr) : option cstr :=
  let name := trunc 4096 inner in
  match strchr name ":" with
  | Some (mapname, key) =>
      match rec key with
      | None => None
      | Some keypart =>
          match map_find g (trunc 128 mapname) ≫= (λ i, maps g !! i) with
          | Some m =>
              match kv_get_raw (entries m) keypart with
              | Some raw => rec raw
              | None => Some []
              end
          | None => Some []
          end
      end
  | None => Some (default [] (kv_get g name))
  end.

Fixpoint kv_expand (n : nat) (g : KvState) (s : cstr) : option cstr :=
  match n with
  | 0 => None
  | S n => expand_refs (kv_ref (kv_expand n g) g) 0 s
  end.

(** ** The store is a finite map *)

Definition keys (s : KvStore) : list cstr := map fst s.

Lemma kv_get_raw_map s k : kv_get_raw s k = (list_to_map s : gmap cstr cstr) !! k.
Proof.
  induction s as [|[k' v] s IH]; simpl; [done|]. case_decide.
  - subst. by rewrite lookup_insert_eq.
  - by rewrite lookup_insert_ne.
Qed.

Lemma kv_get_raw_elem s k v : kv_get_raw s k = Some v → (k, v) ∈ s.
Proof.
  induction s as [|[k' v'] s IH]; simpl; [done|].
  case_decide; intros; simplify_eq; [left | right; auto].
Qed.

Lemma kv_get_set_raw s k v : kv_get_raw (kv_set_raw s k v) k = Some v.
Proof.
  induction s as [|[k' v'] s IH]; simpl; [by rewrite decide_True|].
  case_decide; simpl; [by rewrite decide_True | by rewrite decide_False].
Qed.

Lemma kv_get_set_raw_ne s k k' v : k ≠ k' → kv_get_raw (kv_set_raw s k v) k' = kv_get_raw s k'.
Proof.
  intros. induction s as [|[k1 v1] s IH]; simpl; [by rewrite decide_False|].
  case_decide; simpl; [by rewrite !decide_False by congruence | by rewrite IH].
Qed.

Lemma kv_set_raw_keys s k v :
  keys (kv_set_raw s k v) = if decide (k ∈ keys s) then keys s else keys s ++ [k].
Proof.
  induction s as [|[k' v'] s IH]; simpl; [done|].
  destruct (decide (k' = k)) as [->|Hk]; simpl.
  - rewrite decide_True; [done | left].
  - rewrite IH. repeat case_decide; set_solver.
Qed.

(** the store implements a finite map: lookups agree with the map of its
    pairs, setting a key is insertion, and keys stay distinct. *)
Theorem kv_store_refines_map (s : KvStore) (k v : cstr) :
  (∀ k', kv_get_raw s k' = (list_to_map s : gmap cstr cstr) !! k') ∧
  (list_to_map (kv_set_raw s k v) : gmap cstr cstr) = <[k := v]> (list_to_map s) ∧
  (NoDup (keys s) → NoDup (keys (kv_set_raw s k v))).
Proof.
  split_and!; [intros; apply kv_get_raw_map| |].
  - apply map_eq. intros k'. rewrite <- kv_get_raw_map. destruct (decide (k = k')) as [->|].
    + by rewrite kv_get_set_raw, lookup_insert_eq.
    + by rewrite kv_get_set_raw_ne, lookup_insert_ne, kv_get_raw_map.
  - intros. rewrite kv_set_raw_keys. case_decide; [done|].
    apply NoDup_app. split_and!; [done | set_solver | apply NoDup_singleton].
Qed.

(** ** Expansion *)

Section expand.
Context (g : KvState).

Lemma expand_refs_mono (f1 f2 : cstr → option cstr) k p w :
  (∀ x v, f1 x = Some v → f2 x = Some v) →
  expand_refs f1 k p = Some w → expand_refs f2 k p = Some w.
Proof.
  intros Hf. revert k w. induction p as [|c r IH]; intros k w; [by destruct k|].
  destruct k as [|k]; [|apply IH]. rewrite !expand_refs_unfold.
  destruct (dollar_ref (c :: r)) as [[inner after]|].
  - destruct (f1 inner) eqn:E1; [|done].
    destruct (expand_refs f1 (length inner + 2) r) eqn:E2; [|done].
    intros [= <-]. by rewrite (Hf _ _ E1), (IH _ _ E2).
  - destruct (expand_refs f1 0 r) eqn:E2; [|done]. intros [= <-]. by rewrite (IH _ _ E2).
Qed.

Lemma kv_expand_unfold n s : kv_expand (S n) g s = expand_refs (kv_ref (kv_expand n g) g) 0 s.
Proof. reflexivity. Qed.

Lemma kv_expand_S n s w : kv_expand n g s = Some w → kv_expand (S n) g s = Some w.
Proof.
  revert s w. induction n as [|n IH]; intros s w; [done|].
  rewrite (kv_expand_unfold n), (kv_expand_unfold (S n)). apply expand_refs_mono. intros x v. unfold kv_ref.
  destruct (strchr _ _) as [[m k]|]; [|done].
  destruct (kv_expand n g k) eqn:E; [|done]. rewrite (IH _ _ E).
  repeat case_match; auto.
Qed.

(** The budget does not change the result. *)
Lemma kv_expand_mono n n' s w : n ≤ n' → kv_expand n g s = Some w → kv_expand n' g s = Some w.
Proof using Type. induction 1; auto using kv_expand_S. Qed.

Lemma kv_expand_no_ref n s : no_ref s → kv_expand (S n) g s = Some s.
Proof. apply expand_refs_no_ref. Qed.

Lemma kv_expand_var n name :
  dollar_ref ("$(" ++ name ++ ")") = Some (name, []) → ":"%char ∉ name → length name < 4096 →
  kv_expand (S n) g ("$(" ++ name ++ ")") = Some (default [] (kv_get g name)).
Proof.
  intros H Hc Hl. rewrite kv_expand_unfold, (expand_refs_ref _ _ _ _ H). unfold kv_ref.
  rewrite trunc_id by done. rewrite (proj2 (strchr_None name ":") Hc). simpl.
  by rewrite app_nil_r.
Qed.
End expand.

(** A loop whose references all expand produces a result. *)
Lemma expand_refs_total f k p :
  (∀ inner, inner ∈ refs_of k p → is_Some (f inner)) → is_Some (expand_refs f k p).
Proof.
  revert k. induction p as [|c r IH]; intros k H; [by destruct k|].
  destruct k as [|k]; [|by apply IH]. rewrite expand_refs_unfold. cbn [refs_of] in H.
  destruct (dollar_ref (c :: r)) as [[inner after]|].
  - destruct (H inner) as [v ->]; [left|]. destruct (IH (length inner + 2)) as [w ->]; [|done].
    intros i Hi. apply H. by right.
  - destruct (IH 0 H) as [w ->]. done.
Qed.

(** The references of a text are contained in it. *)
Lemma refs_of_sub k p inner :
  inner ∈ refs_of k p → length inner < length p ∧ (∀ c, c ∈ inner → c ∈ p).
Proof.
  revert k. induction p as [|c r IH]; intros k; [by intros ?%elem_of_nil|]. cbn [refs_of].
  destruct k as [|k].
  - destruct (dollar_ref (c :: r)) as [[i after]|] eqn:E.
    + intros [->|Hi]%elem_of_cons.
      * apply dollar_ref_parens in E as [-> ->]. split.
        -- rewrite length_cons, length_app, <- parens_length. lia.
        -- unfold parens. set_solver.
      * apply IH in Hi as [Hl Hc]. simpl. split; [lia | set_solver].
    + intros [Hl Hc]%IH. simpl. split; [lia | set_solver].
  - intros [Hl Hc]%IH. simpl. split; [lia | set_solver].
Qed.

(** A text without a colon needs no recursion. *)
Lemma kv_expand_flat g n s : ":"%char ∉ s → is_Some (kv_expand (S n) g s).
Proof.
  intros Hs. apply expand_refs_total. intros inner [_ Hin]%refs_of_sub. unfold kv_ref.
  rewrite (proj2 (strchr_None (trunc 4096 inner) ":")); [done|].
  intros Hc. apply Hs, Hin. destruct (trunc_prefix 4096 inner) as [r ->]. set_solver.
Qed.

(** expansion terminates when no value of a (map ...) contains a colon (so
    none names another map), which holds of the maps of ninqu.rules; a recursion
    depth of the length of the text plus 2 is enough. *)
Theorem kv_expand_terminates g s :
  (∀ m k v, m ∈ maps g → (k, v) ∈ entries m → ":"%char ∉ v) →
  is_Some (kv_expand (length s + 2) g s).
Proof.
  intros Hmaps. remember (length s) as n eqn:Hn. assert (length s ≤ n) as Hle by lia. clear Hn.
  revert s Hle. induction n as [|n IH]; intros s Hle.
  { destruct s; [|simpl in Hle; lia]. by apply (kv_expand_flat _ 1), not_elem_of_nil. }
  change (S n + 2) with (S (n + 2)). rewrite kv_expand_unfold.
  apply expand_refs_total. intros inner Hin%refs_of_sub. unfold kv_ref.
  destruct (strchr (trunc 4096 inner) ":") as [[mn key]|] eqn:E; [|done].
  apply strchr_Some in E as [E _].
  assert (length key < length inner).
  { destruct (trunc_prefix 4096 inner) as [r ->]. rewrite length_app, E, length_app. simpl. lia. }
  destruct (IH key) as [w Hw]; [lia|]. rewrite Hw.
  destruct (map_find g _ ≫= _) as [m|] eqn:Em; [|done].
  destruct (kv_get_raw (entries m) w) as [raw|] eqn:Er; [|done].
  rewrite Nat.add_comm. apply kv_expand_flat. apply bind_Some in Em as (i & _ & Hi).
  eapply Hmaps; [by eapply list_elem_of_lookup_2 | by apply kv_get_raw_elem].
Qed.

Definition demo_kv : KvState :=
  MkKv [(lit "LDLIBS_TLS", lit "-ltls")] [] None []
       [MkMap "EXTRA_LIBS" [(lit "wget", lit "$(LDLIBS_TLS)")]] [(lit "TOOL", lit "wget")].

Lemma kv_expand_terminates_witness :
  is_Some (kv_expand (length (lit "cc $(EXTRA_LIBS:$(TOOL))") + 2) demo_kv "cc $(EXTRA_LIBS:$(TOOL))").
Proof.
  apply kv_expand_terminates. intros m k v Hm Hkv.
  apply list_elem_of_singleton in Hm as ->. apply list_elem_of_singleton in Hkv.
  injection Hkv as -> ->. by_decide.
Defined.

Example demo_kv_expand : kv_expand 5 demo_kv "cc $(EXTRA_LIBS:$(TOOL))" = Some (lit "cc -ltls").
Proof. vm_compute. reflexivity. Qed.
