(* ===== verification/Gate.v ===== *)
(** * Gates: src/cmd/dev/ninqu/gate.c

    The condition language of (gate ...) and (if ...): parsing from an
    s-expression, detection of per-instance conditions, materialisation and
    evaluation.  The evaluator agrees with the Boolean reading of the syntax,
    and deferring a gate to the instances changes nothing when it holds no
    dollar reference. *)

From S2P Require Import Prelude CString Sexpr StrList Kv.

(** enum GKind and struct Gate. *)
Inductive Gate : Type :=
| G_TRUE
| G_VAR (var : cstr)
| G_NOT (kid : Gate)
| G_AND (kids : list Gate)
| G_OR (kids : list Gate).

(** Apply a fallible function to every kid, in order. *)
Definition mmap {S A B} (f : A → M S B) : list A → M S (list B) :=
  fix go l :=
    match l with
    | [] => mret []
    | x :: l' => y <- f x ;; ys <- go l' ;; mret (y :: ys)
    end.

Fixpoint gate_parse {S} (expr : SNode) : M S Gate :=
  match expr with
  | S_ATOM a _ => mret (G_VAR a)
  | S_LIST kids _ =>
      match s_head expr with
      | None => eprintf "manifest: empty () in gate"
      | Some h =>
          if decide (h = "not") then
            match kids with
            | [_; k] => g <- gate_parse k ;; mret (G_NOT g)
            | _ => eprintf "manifest: (not X) takes one operand"
            end
          else if decide (h = "and" ∨ h = "or") then
            match kids with
            | _ :: ((_ :: _) as operands) =>
                gs <- mmap gate_parse operands ;;
                mret (if decide (h = "and") then G_AND gs else G_OR gs)
            | _ => eprintf ("manifest: (" ++ h ++ " ...) needs one operand")
            end
          else eprintf ("manifest: unknown gate operator '" ++ h ++ "'")
      end
  end.

(** Some variable contains a dollar reference. *)
Fixpoint gate_has_dyn (g : Gate) : bool :=
  match g with
  | G_TRUE => false
  | G_VAR v => bool_decide (is_Some (strstr v "$("))
  | G_NOT k => gate_has_dyn k
  | G_AND ks | G_OR ks => existsb gate_has_dyn ks
  end.

(** A variable counts as true when it is set, not empty and not 0. *)
Definition var_true (v : option cstr) : bool :=
  match v with
  | Some v => negb (bool_decide (v = [])) && negb (bool_decide (v = "0"))
  | None => false
  end.

Fixpoint gate_eval (s : KvState) (g : Gate) : bool :=
  match g with
  | G_TRUE => true
  | G_VAR v => var_true (kv_get s v)
  | G_NOT k => negb (gate_eval s k)
  | G_AND ks => fold_left (λ v k, v && gate_eval s k) ks true
  | G_OR ks => fold_left (λ v k, v || gate_eval s k) ks false
  end.

(** All results, or [None] when one is. *)
Definition omap_all {A B} (f : A → option B) : list A → option (list B) :=
  fix go l :=
    match l with
    | [] => Some []
    | x :: l' =>
        match f x, go l' with
        | Some y, Some ys => Some (y :: ys)
        | _, _ => None
        end
    end.

Fixpoint gate_materialize (n : nat) (s : KvState) (g : Gate) : option Gate :=
  match g with
  | G_TRUE => Some G_TRUE
  | G_VAR v => G_VAR <$> kv_expand n s v
  | G_NOT k => G_NOT <$> gate_materialize n s k
  | G_AND ks => G_AND <$> omap_all (gate_materialize n s) ks
  | G_OR ks => G_OR <$> omap_all (gate_materialize n s) ks
  end.

(** ** Lemmas *)

Section Gate_ind.
Context (P : Gate → Prop).
Context (Htrue : P G_TRUE) (Hvar : ∀ v, P (G_VAR v)) (Hnot : ∀ k, P k → P (G_NOT k)).
Context (Hand : ∀ ks, Forall P ks → P (G_AND ks)) (Hor : ∀ ks, Forall P ks → P (G_OR ks)).

Fixpoint Gate_nested_ind (g : Gate) : P g :=
  let go := fix go (ks : list Gate) : Forall P ks :=
    match ks with
    | [] => Forall_nil_2 P
    | k :: ks' => Forall_cons_2 P k ks' (Gate_nested_ind k) (go ks')
    end in
  match g with
  | G_TRUE => Htrue
  | G_VAR v => Hvar v
  | G_NOT k => Hnot k (Gate_nested_ind k)
  | G_AND ks => Hand ks (go ks)
  | G_OR ks => Hor ks (go ks)
  end.
End Gate_ind.

(** The Boolean reading of a gate. *)
Fixpoint gate_holds (s : KvState) (g : Gate) : Prop :=
  match g with
  | G_TRUE => True
  | G_VAR v => ∃ x, kv_get s v = Some x ∧ x ≠ [] ∧ x ≠ "0"
  | G_NOT k => ¬ gate_holds s k
  | G_AND ks => foldr (λ k Q, gate_holds s k ∧ Q) True ks
  | G_OR ks => foldr (λ k Q, gate_holds s k ∨ Q) False ks
  end.

Lemma fold_and {A} (f : A → bool) l b :
  fold_left (λ v k, v && f k) l b = b && forallb f l.
Proof.
  revert b. induction l as [|x l IH]; intros b; simpl; [by rewrite andb_true_r|].
  by rewrite IH, andb_assoc.
Qed.
Lemma fold_or {A} (f : A → bool) l b :
  fold_left (λ v k, v || f k) l b = b || existsb f l.
Proof.
  revert b. induction l as [|x l IH]; intros b; simpl; [by rewrite orb_false_r|].
  by rewrite IH, orb_assoc.
Qed.

Lemma var_true_spec o : var_true o = true ↔ ∃ x, o = Some x ∧ x ≠ [] ∧ x ≠ "0".
Proof.
  destruct o as [x|]; simpl; [|naive_solver].
  rewrite andb_true_iff, !negb_true_iff, !bool_decide_eq_false. naive_solver.
Qed.

(** the evaluator decides the Boolean reading: a variable is true when it is
    set to something other than the empty string and 0, (not), (and) and (or)
    are negation, conjunction and disjunction of the operands. *)
Theorem gate_eval_correct s g : gate_eval s g = true ↔ gate_holds s g.
Proof.
  induction g as [|v|k IH|ks IH|ks IH] using Gate_nested_ind; cbn [gate_eval gate_holds].
  - done.
  - apply var_true_spec.
  - rewrite negb_true_iff, <- IH. by destruct (gate_eval s k).
  - rewrite fold_and. simpl. induction IH as [|k ks Hk _ IHks]; simpl; [done|].
    by rewrite andb_true_iff, Hk, IHks.
  - rewrite fold_or. simpl. induction IH as [|k ks Hk _ IHks]; simpl; [done|].
    by rewrite orb_true_iff, Hk, IHks.
Qed.

(** a gate without dollar references materialises to itself, so evaluating
    it once per rule, as expand_rule does, and evaluating its per-instance
    materialisation give the same answer. *)
Theorem gate_static_materialize n s g :
  gate_has_dyn g = false → gate_materialize (S n) s g = Some g.
Proof.
  induction g as [|v|k IH|ks IH|ks IH] using Gate_nested_ind;
    cbn [gate_has_dyn gate_materialize].
  - done.
  - intros H%bool_decide_eq_false. rewrite kv_expand_no_ref; [done|].
    unfold no_ref. by apply eq_None_not_Some.
  - intros H. by rewrite IH.
  - intros H. assert (omap_all (gate_materialize (S n) s) ks = Some ks) as ->; [|done].
    induction IH as [|k ks Hk _ IHks]; simpl in *; [done|].
    apply orb_false_iff in H as [? ?]. by rewrite Hk, IHks.
  - intros H. assert (omap_all (gate_materialize (S n) s) ks = Some ks) as ->; [|done].
    induction IH as [|k ks Hk _ IHks]; simpl in *; [done|].
    apply orb_false_iff in H as [? ?]. by rewrite Hk, IHks.
Qed.

Lemma gate_static_materialize_witness :
  gate_materialize 1 demo_kv (G_AND [G_VAR "TLS"; G_NOT (G_VAR "SMALL")])
  = Some (G_AND [G_VAR "TLS"; G_NOT (G_VAR "SMALL")]).
Proof. apply (gate_static_materialize 0). vm_compute. reflexivity. Defined.

Lemma preserves_mmap {S A B} (R : S → S → Prop) `{!PreOrder R} (f : A → M S B) l :
  (∀ x, preserves R (f x)) → preserves R (mmap f l).
Proof. intros Hf. induction l as [|x l IH]; simpl; solve_pres. Qed.

(** Parsing a gate reads and writes no state. *)
Lemma gate_parse_pure {S} (R : S → S → Prop) `{!PreOrder R} expr :
  preserves R (@gate_parse S expr).
Proof.
  induction expr as [a l|kids l IH] using SNode_nested_ind; cbn [gate_parse]; [solve_pres|].
  destruct (s_head _) as [h|]; [|solve_pres]. case_decide.
  - destruct kids as [|? [|k [|]]]; solve_pres.
    apply Forall_cons in IH as [_ IH]. apply Forall_cons in IH as [IH _]. done.
  - case_decide; [|solve_pres]. destruct kids as [|k0 [|k ks]]; [solve_pres..|].
    apply preserves_bind; [done| |solve_pres]. apply Forall_cons in IH as [_ IH].
    revert IH. generalize (k :: ks) as l'. induction 1 as [|x l' Hx _ IHl]; simpl; solve_pres.
Qed.
#[export] Hint Resolve gate_parse_pure : pres.
