(* ===== verification/World.v ===== *)
(** * The operating system as ninqu sees it

    ninqu reads files, expands globs and runs commands.  None of that code is
    part of the repository, so it is an interface: [World W] lists the calls with
    the results the C code tests for, over a type [W] of states of the outside
    world that only these calls read and change.  The files that model ninqu are
    written against the class; a concrete instance follows. *)

From S2P Require Import Prelude CString StrList.

(** What a child process is asked to do, after the fork: change to the working
    directory (empty for none), send its standard output to a file, and execute
    an argument vector; or supervise a pipeline, waiting for the stages and then
    exiting with status 0 whatever they returned. *)
Record Job := MkJob {
  job_workdir : cstr;
  job_stdout : option cstr;
  job_supervisor : bool;
  job_stages : list StrList
}.

Class World (W : Type) := {
  (** [stat]: the modification time, -1 when the call fails *)
  w_mtime : W → cstr → Z;
  (** [stat] and [S_ISDIR], [None] when the call fails *)
  w_stat_dir : W → cstr → option bool;
  (** [lstat] and [S_ISDIR], [S_ISREG] *)
  w_isdir : W → cstr → bool;
  w_isreg : W → cstr → bool;
  (** [opendir] and [readdir], [None] when the directory cannot be opened *)
  w_readdir : W → cstr → option (list cstr);
  (** the contents of a readable file *)
  w_read : W → cstr → option cstr;
  (** a file written by [fopen(path, "w")], [fwrite] and [fclose] *)
  w_write : W → cstr → cstr → option W;
  w_realpath : W → cstr → option cstr;
  (** [glob(3)] with no flags and [fnmatch(3)] with no flags *)
  w_glob : W → cstr → list cstr;
  w_fnmatch : cstr → cstr → bool;
  (** [mkdir]: [false] for an error other than [EEXIST] *)
  w_mkdir : W → cstr → W * bool;
  w_chdir : W → cstr → option W;
  (** [fork]: the child runs the job; [None] when it fails *)
  w_spawn : W → Job → option (W * Z);
  (** [wait] and [waitpid]: the child and whether it exited with status 0 *)
  w_wait : W → option (W * Z * bool);
  w_waitpid : W → Z → option (W * bool);
  (** a command run with its output read to the end, as capture_argv does *)
  w_capture : W → StrList → option (W * cstr * bool);
  (** a binary looked up on PATH *)
  w_which : W → cstr → option cstr
}.

(** * A concrete world

    A small in-memory operating system that instantiates [World]: files with a
    modification time, a clock, children that have finished but are not yet
    waited for, and the log of the jobs that were run.  Three commands do
    something: [touch F...] creates files, [echo W...] prints its arguments and
    [false] fails; every other command succeeds.  It shows that the
    hypotheses of the theorems can hold and lets the model run on examples. *)

Record sworld := SW {
  sw_files : list (cstr * (Z * cstr));
  sw_clock : Z;
  sw_next_pid : Z;
  sw_children : list (Z * bool);
  sw_log : list Job
}.
#[export] Instance eta_sworld : Eta sworld := λ w,
  SW (sw_files w) (sw_clock w) (sw_next_pid w) (sw_children w) (sw_log w).

Fixpoint sw_lookup (fs : list (cstr * (Z * cstr))) (path : cstr) : option (Z * cstr) :=
  match fs with
  | [] => None
  | (p, x) :: fs' => if decide (p = path) then Some x else sw_lookup fs' path
  end.

Definition sw_put (path text : cstr) (w : sworld) : sworld :=
  w <| sw_files := (path, (sw_clock w, text)) :: sw_files w |>
    <| sw_clock := (sw_clock w + 1)%Z |>.

(** Shell patterns with [*] and [?]; the pattern is consumed structurally. *)
Fixpoint sw_match (pat : cstr) : cstr → bool :=
  match pat with
  | [] => λ s, bool_decide (s = [])
  | p :: pat' =>
      if decide (p = "*"%char) then
        fix star (s : cstr) : bool :=
          sw_match pat' s || match s with [] => false | _ :: s' => star s' end
      else λ s,
        match s with
        | [] => false
        | c :: s' => (bool_decide (p = "?"%char) || bool_decide (p = c)) && sw_match pat' s'
        end
  end.

Definition sw_command (argv : StrList) (w : sworld) : sworld :=
  match argv with
  | prog :: args => if decide (prog = "touch") then foldr (λ f, sw_put f []) w args else w
  | [] => w
  end.

Definition sw_status (argv : StrList) : bool :=
  match argv with prog :: _ => negb (bool_decide (prog = "false")) | [] => false end.

Definition sw_spawn (w : sworld) (j : Job) : option (sworld * Z) :=
  let w1 := match job_stdout j with Some f => sw_put f [] w | None => w end in
  let w2 := foldl (λ w a, sw_command a w) w1 (job_stages j) in
  let pid := sw_next_pid w in
  Some (w2 <| sw_next_pid := (pid + 1)%Z |>
           <| sw_children :=
                sw_children w ++ [(pid, job_supervisor j || forallb sw_status (job_stages j))] |>
           <| sw_log := sw_log w ++ [j] |>, pid).

Definition sw_wait (w : sworld) : option (sworld * Z * bool) :=
  match sw_children w with
  | [] => None
  | (pid, ok) :: rest => Some (w <| sw_children := rest |>, pid, ok)
  end.

Definition sw_waitpid (w : sworld) (pid : Z) : option (sworld * bool) :=
  match list_find (λ '(p, _), p = pid) (sw_children w) with
  | Some (i, (_, ok)) => Some (w <| sw_children := delete i (sw_children w) |>, ok)
  | None => None
  end.

#[export] Instance simple_world : World sworld := {|
  w_mtime w p := match sw_lookup (sw_files w) p with Some (t, _) => t | None => (-1)%Z end;
  w_stat_dir w p := match sw_lookup (sw_files w) p with Some _ => Some false | None => Some true end;
  w_isdir w p := false;
  w_isreg w p := bool_decide (is_Some (sw_lookup (sw_files w) p));
  w_readdir w p := None;
  w_read w p := snd <$> sw_lookup (sw_files w) p;
  w_write w p t := Some (sw_put p t w);
  w_realpath w p := match sw_lookup (sw_files w) p with Some _ => Some p | None => None end;
  w_glob w pat := List.filter (sw_match pat) (map fst (sw_files w));
  w_fnmatch := sw_match;
  w_mkdir w p := (w, true);
  w_chdir w p := Some w;
  w_spawn := sw_spawn;
  w_wait := sw_wait;
  w_waitpid := sw_waitpid;
  w_capture w argv :=
    match argv with
    | prog :: args =>
        Some (w, if decide (prog = "echo") then sl_join args ++ [NL] else [], sw_status argv)
    | [] => None
    end;
  w_which w p := None
|}.

(** The files [fs], last modified at time 1, and a clock at 10. *)
Definition sworld_of (fs : list (cstr * cstr)) : sworld :=
  SW (map (λ '(p, t), (p, (1%Z, t))) fs) 10 100 [] [].
