(* ===== verification/Registry.v ===== *)
(** * Rules, groups, metas, templates and instances: src/cmd/dev/ninqu/registry.c

    The data model of ninqu.h and the registry of named objects.  [state] is the
    program's global state, one field per global of the C files; a pointer into
    one of the arrays is an index.  The fixed-size name and path fields keep the
    truncation of [strlcpy] ([trunc]). *)

From S2P Require Import Prelude CString Sexpr StrList Kv Gate World.

(** ** Data (ninqu.h) *)

Record Cmd := MkCmd { argv : StrList; is_pipe : bool; stages : list StrList }.
Definition cmd0 : Cmd := MkCmd [] false [].

Record Rule := MkRule {
  r_name : cstr;
  r_globs : StrList;
  r_skip : StrList;
  r_require_marker : cstr;
  r_require_file : cstr;
  r_in : StrList;
  r_extra_deps : StrList;
  r_out : cstr;
  r_cmd : Cmd;
  r_gate : option Gate;
  r_workdir : cstr;
  r_phony : bool;
  r_redirect : bool;
  r_produces : cstr;
  r_description : cstr;
  r_group_name : cstr;
  r_member_of : cstr;
  r_member_alias : cstr;
  r_features : StrList;
  r_inst_idx : list nat;
  r_expanded : bool
}.
#[export] Instance eta_Rule : Eta Rule := λ r,
  MkRule (r_name r) (r_globs r) (r_skip r) (r_require_marker r) (r_require_file r)
    (r_in r) (r_extra_deps r) (r_out r) (r_cmd r) (r_gate r) (r_workdir r) (r_phony r)
    (r_redirect r) (r_produces r) (r_description r) (r_group_name r) (r_member_of r)
    (r_member_alias r) (r_features r) (r_inst_idx r) (r_expanded r).
(** [memset(r, 0, sizeof *r)] and the name. *)
Definition rule0 (name : cstr) : Rule :=
  MkRule (trunc 128 name) [] [] [] [] [] [] [] cmd0 None [] false false [] [] [] [] [] [] [] false.

Record Group := MkGroup { g_name : cstr; g_refs : StrList }.
#[export] Instance eta_Group : Eta Group := λ g, MkGroup (g_name g) (g_refs g).

Record Meta := MkMeta { m_name : cstr; m_keys : StrList; m_vals : StrList }.
#[export] Instance eta_Meta : Eta Meta := λ m, MkMeta (m_name m) (m_keys m) (m_vals m).

Record Template := MkTemplate { t_name : cstr; t_params : StrList; t_body : SNode }.
#[export] Instance eta_Template : Eta Template := λ t,
  MkTemplate (t_name t) (t_params t) (t_body t).

Record Inst := MkInst {
  i_rule_idx : nat;
  i_in : StrList;
  i_stale_extra : StrList;
  i_out : cstr;
  i_cmd : Cmd;
  i_workdir : cstr;
  i_phony : bool;
  i_redirect : bool;
  i_dep_rule_names : StrList;
  i_dep_inst : list nat;
  i_will_build : bool
}.
#[export] Instance eta_Inst : Eta Inst := λ i,
  MkInst (i_rule_idx i) (i_in i) (i_stale_extra i) (i_out i) (i_cmd i) (i_workdir i)
    (i_phony i) (i_redirect i) (i_dep_rule_names i) (i_dep_inst i) (i_will_build i).
Definition inst0 (rule_idx : nat) : Inst :=
  MkInst rule_idx [] [] [] cmd0 [] false false [] [] false.

(** ** The global state *)

Record state (W : Type) := MkState {
  st_kv : KvState;
  st_rules : list Rule;
  st_groups : list Group;
  st_metas : list Meta;
  st_templates : list Template;
  st_insts : list Inst;
  st_files_read : StrList;
  st_visited_groups : StrList;
  st_jobs_n : Z;
  st_summary_mode : bool;
  st_failed_any : bool;
  st_stdout : list cstr;
  st_stderr : list cstr;
  st_world : W
}.
Arguments MkState {W}.
Arguments st_kv {W}.
Arguments st_rules {W}.
Arguments st_groups {W}.
Arguments st_metas {W}.
Arguments st_templates {W}.
Arguments st_insts {W}.
Arguments st_files_read {W}.
Arguments st_visited_groups {W}.
Arguments st_jobs_n {W}.
Arguments st_summary_mode {W}.
Arguments st_failed_any {W}.
Arguments st_stdout {W}.
Arguments st_stderr {W}.
Arguments st_world {W}.
#[export] Instance eta_state W : Eta (state W) := λ s,
  MkState (st_kv s) (st_rules s) (st_groups s) (st_metas s) (st_templates s) (st_insts s)
    (st_files_read s) (st_visited_groups s) (st_jobs_n s) (st_summary_mode s)
    (st_failed_any s) (st_stdout s) (st_stderr s) (st_world s).

(** ** Lookups *)

(** The index of the first object called [name]. *)
Definition find_named {A} (nm : A → cstr) (name : cstr) : list A → option nat :=
  fix go l :=
    match l with
    | [] => None
    | x :: l' => if decide (nm x = name) then Some 0 else S <$> go l'
    end.

Section registry.
Context {W : Type}.
Implicit Types s : state W.

Definition rule_find s (name : cstr) : option nat := find_named r_name name (st_rules s).
Definition group_find s (name : cstr) : option nat := find_named g_name name (st_groups s).
Definition meta_find s (name : cstr) : option nat := find_named m_name name (st_metas s).
Definition template_find s (name : cstr) : option nat :=
  find_named t_name name (st_templates s).

(** The first rule whose (out) is [path], expanded when it holds a dollar. *)
Definition rule_find_output_in (n : nat) (k : KvState) (path : cstr)
    : list Rule → option (option nat) :=
  fix go rs :=
    match rs with
    | [] => Some None
    | r :: rs' =>
        let next := match go rs' with Some o => Some (S <$> o) | None => None end in
        if decide (r_out r = []) then next
        else if bool_decide (is_Some (strchr (r_out r) "$")) then
          match kv_expand n k (r_out r) with
          | None => None
          | Some e => if decide (e = path) then Some (Some 0) else next
          end
        else if decide (r_out r = path) then Some (Some 0)
        else next
    end.
Definition rule_find_output (n : nat) s (path : cstr) : option (option nat) :=
  rule_find_output_in n (st_kv s) path (st_rules s).

Definition rule_find_produces s (name : cstr) : option nat :=
  fst <$> list_find (λ r, r_produces r ≠ [] ∧ r_produces r = name) (st_rules s).

(** ** Allocation of new objects *)

Definition rule_new (name : cstr) : M (state W) nat :=
  dup <- gets (λ s, rule_find s name) ;;
  match dup with
  | Some _ => eprintf ("manifest: duplicate rule '" ++ name ++ "'")
  | None =>
      g <- gets (λ s, group_find s name) ;;
      match g with
      | Some _ => eprintf ("manifest: name '" ++ name ++ "' already a group")
      | None =>
          r <- gets (λ s, length (st_rules s)) ;;
          modify (set st_rules (λ rs, rs ++ [rule0 name])) ;;
          mret r
      end
  end.

Definition group_new (name : cstr) : M (state W) nat :=
  dup <- gets (λ s, group_find s name) ;;
  match dup with
  | Some _ => eprintf ("manifest: duplicate group '" ++ name ++ "'")
  | None =>
      r <- gets (λ s, rule_find s name) ;;
      match r with
      | Some _ => eprintf ("manifest: name '" ++ name ++ "' already a rule")
      | None =>
          g <- gets (λ s, length (st_groups s)) ;;
          modify (set st_groups (λ gs, gs ++ [MkGroup (trunc 128 name) []])) ;;
          mret g
      end
  end.

Definition meta_new (name : cstr) : M (state W) nat :=
  dup <- gets (λ s, meta_find s name) ;;
  match dup with
  | Some _ => eprintf ("manifest: duplicate meta '" ++ name ++ "'")
  | None =>
      r <- gets (λ s, rule_find s name) ;;
      match r with
      | Some _ => eprintf ("manifest: name '" ++ name ++ "' already a rule")
      | None =>
          g <- gets (λ s, group_find s name) ;;
          match g with
          | Some _ => eprintf ("manifest: name '" ++ name ++ "' already a group")
          | None =>
              m <- gets (λ s, length (st_metas s)) ;;
              modify (set st_metas (λ ms, ms ++ [MkMeta (trunc 128 name) [] []])) ;;
              mret m
          end
      end
  end.

Definition template_new (name : cstr) : M (state W) nat :=
  dup <- gets (λ s, template_find s name) ;;
  match dup with
  | Some _ => eprintf ("manifest: duplicate template '" ++ name ++ "'")
  | None =>
      t <- gets (λ s, length (st_templates s)) ;;
      modify (set st_templates (λ ts, ts ++ [MkTemplate (trunc 128 name) [] (snode_list 0)])) ;;
      mret t
  end.

(** Reading and assignment through a rule or instance pointer. *)
Definition get_rule (r : nat) : M (state W) Rule :=
  o <- gets (λ s, st_rules s !! r) ;; deref o.
Definition get_inst (i : nat) : M (state W) Inst :=
  o <- gets (λ s, st_insts s !! i) ;; deref o.
Definition upd_rule (r : nat) (f : Rule → Rule) : M (state W) unit :=
  rl <- get_rule r ;; modify (set st_rules (λ l, <[r := f rl]> l)).
Definition upd_inst (i : nat) (f : Inst → Inst) : M (state W) unit :=
  inst <- get_inst i ;; modify (set st_insts (λ l, <[i := f inst]> l)).

(** A fresh instance, recorded in its rule. *)
Definition inst_new (rule_idx : nat) : M (state W) nat :=
  idx <- gets (λ s, length (st_insts s)) ;;
  modify (set st_insts (λ l, l ++ [inst0 rule_idx])) ;;
  upd_rule rule_idx (set r_inst_idx (λ l, l ++ [idx])) ;;
  mret idx.

Definition upd_kv (f : KvState → KvState) : M (state W) unit := modify (set st_kv f).
Definition expand (n : nat) (str : cstr) : M (state W) cstr :=
  k <- gets st_kv ;; budget (kv_expand n k str).
Definition printf (out : cstr) : M (state W) unit :=
  modify (set st_stdout (λ l, l ++ [out])).
Definition weprintf (msg : cstr) : M (state W) unit :=
  modify (set st_stderr (λ l, l ++ [msg])).
End registry.
