(* ===== verification/Fs.v ===== *)
(** * Files and paths: src/cmd/dev/ninqu/fs.c, libutil's mkdirp and recurse_dir

    Staleness inputs (mtimes), marker search in a file, glob expansion, the
    literal/wildcard distinction between rules and the path splitting behind
    $(STEM), $(BASESTEM), $(EXT) and $(IDENT).  Proved here: the chunked marker
    search finds exactly the substrings of the file, and splitting a base name
    loses no character. *)

From S2P Require Import Prelude CString Sexpr StrList Kv Gate World Registry.

(** ** Pure path functions *)

Definition is_wildcard_pattern (pattern : cstr) : bool := strpbrk pattern "*?[".

Definition rule_is_literal (r : Rule) : bool :=
  match r_globs r with
  | [] => false
  | gs => negb (existsb is_wildcard_pattern gs)
  end.

(** Stem and extension of [base], each cut to its buffer. *)
Definition splitext (base : cstr) (stemsz extsz : nat) : cstr * cstr :=
  match strrchr base "." with
  | Some (c :: before, after) => (trunc stemsz (c :: before), trunc extsz ("."%char :: after))
  | _ => (trunc stemsz base, [])
  end.

Definition to_ident (s : cstr) (outsz : nat) : cstr :=
  take (outsz - 1)
    (map (λ c, if decide (c = "-"%char ∨ c = "."%char) then "_"%char else c) s).

(** The chunked search of file_contains: [fread] returns up to 8191 bytes, the
    text of the chunk up to a NUL is searched with the tail of the one before. *)
Definition chunk_size : nat := Z.to_nat 8191.

Fixpoint contains_chunks (fuel : nat) (needle tail content : cstr) : bool :=
  match fuel with
  | 0 => false
  | S f =>
      match take chunk_size content with
      | [] => false
      | chunk =>
          let buf := cstr_at chunk in
          let joined := trunc (Z.to_nat (8192 + 256)) (tail ++ buf) in
          if bool_decide (is_Some (strstr joined needle)) then true
          else
            let taillen :=
              if decide (length needle < length buf) then length needle - 1 else length buf in
            contains_chunks f needle (trunc 256 (drop (length buf - taillen) buf))
                            (drop chunk_size content)
      end
  end.

(** POSIX [dirname]. *)
Definition strip_slashes (s : cstr) : cstr :=
  (fix go l := match l with "/"%char :: l' => go l' | _ => l end) (rev s).
Definition dirname (path : cstr) : cstr :=
  match strip_slashes path with
  | [] => if decide (path = []) then "." else "/"
  | rb =>
      match strrchr (rev rb) "/" with
      | None => "."
      | Some (a, _) => match strip_slashes a with [] => "/" | ra => rev ra end
      end
  end.

Section fs.
Context {W : Type} `{!World W}.

Definition mtime_of (w : W) (path : cstr) : Z := w_mtime w path.
Definition file_exists (w : W) (path : cstr) : bool := bool_decide (0 ≤ mtime_of w path)%Z.

Definition file_contains (w : W) (path needle : cstr) : bool :=
  if decide (needle = []) then true
  else match w_read w path with
       | None => false
       | Some content => contains_chunks (S (length content)) needle [] content
       end.

(** ** Globs *)

(** libutil's recurse_dir: the path of an entry, or the exit on a long path. *)
Definition entry_path {S} (path name : cstr) : M S cstr :=
  if decide (4096 ≤ length path) then eprintf "path too long"
  else
    let sep := match rev path with "/"%char :: _ => path | _ => path ++ "/" end in
    if decide (4096 ≤ length sep) then eprintf "path too long"
    else if decide (4096 ≤ length (sep ++ name)) then eprintf "path too long"
    else mret (sep ++ name).

Definition recurse_dir (fn : StrList → cstr → M (state W) StrList) (out : StrList) (path : cstr)
    : M (state W) StrList :=
  w <- gets st_world ;;
  if w_isdir w path then
    match w_readdir w path with
    | None => eprintf ("opendir " ++ path ++ ":")
    | Some names =>
        mfold (λ out (name : cstr),
          if decide (name = "." ∨ name = "..") then mret out
          else buf <- entry_path path name ;; fn out buf) out names
    end
  else mret out.

Fixpoint rg_visit (n : nat) (suffix : cstr) (out : StrList) (path : cstr) : M (state W) StrList :=
  match n with
  | 0 => mfuel
  | S n =>
      w <- gets st_world ;;
      if w_isdir w path then recurse_dir (rg_visit n suffix) out path
      else if w_isreg w path && w_fnmatch suffix (base_of path) then mret (sl_push out path)
      else mret out
  end.

Definition recurse_glob (n : nat) (dir suffix : cstr) (out : StrList) : M (state W) StrList :=
  recurse_dir (rg_visit n suffix) out dir.

Definition glob_expand (n : nat) (pattern : cstr) (out : StrList) : M (state W) StrList :=
  match strstr pattern "**/" with
  | Some (pre, rec) =>
      let prefix := trunc 1024 pre in
      let prefix := match rev prefix with "/"%char :: r => rev r | _ => prefix end in
      recurse_glob n (if decide (prefix = []) then lit "." else prefix)
                   (trunc 1024 (drop 3 rec)) out
  | None => w <- gets st_world ;; mret (out ++ w_glob w pattern)
  end.

Definition glob_all (n : nat) (r : Rule) : M (state W) StrList :=
  mfold (λ out g, pat <- expand n g ;; glob_expand n pat out) [] (r_globs r).

(** Whether a literal rule other than [self] names [path]. *)
Definition path_claimed_elsewhere (n : nat) (path : cstr) (self : nat) : M (state W) bool :=
  rs <- gets st_rules ;;
  mfold (λ hit '(i, other),
    if hit : bool then mret true
    else if bool_decide (i = self) || negb (rule_is_literal other) then mret false
    else mfold (λ hit g,
           if hit : bool then mret true
           else e <- expand n g ;; mret (bool_decide (e = path))) false (r_globs other))
    false (imap pair rs).

(** ** Directories *)

(** [mkdir] of every proper prefix that ends before a slash, then of the path;
    with the directory that could not be made. *)
Fixpoint mkdirp_from (w : W) (before path : cstr) : W * option cstr :=
  match path with
  | [] => let '(w', ok) := w_mkdir w before in (w', if ok : bool then None else Some before)
  | c :: r =>
      if decide (c = "/"%char) then
        match w_mkdir w before with
        | (w', true) => mkdirp_from w' (before ++ [c]) r
        | (w', false) => (w', Some before)
        end
      else mkdirp_from w (before ++ [c]) r
  end.

Definition mkdirp (path : cstr) : M (state W) bool :=
  w <- gets st_world ;;
  match w_stat_dir w path with
  | Some true => mret true
  | Some false => weprintf (path ++ ":") ;; mret false
  | None =>
      tmp <- estrlcpy 4096 path ;;
      let p :=
        match tmp with
        | "/"%char :: r => mkdirp_from w "/" r
        | _ => mkdirp_from w [] tmp
        end in
      modify (set st_world (λ _, fst p)) ;;
      match snd p with
      | None => mret true
      | Some dir => weprintf ("mkdir " ++ dir ++ ":") ;; mret false
      end
  end.

(** mk_out_dir of exec.c: the directory an instance writes into. *)
Definition mk_out_dir (out : cstr) : M (state W) unit :=
  if decide (out = []) then mret tt
  else
    tmp <- estrlcpy 4096 out ;;
    let dir := dirname tmp in
    if decide (dir = "." ∨ dir = "/") then mret tt
    else mkdirp dir ;; mret tt.
End fs.

(** ** Splitting a base name *)

(** stem and extension of a base name that fits its buffers are the two
    parts of the name: no character is lost, the extension is empty or starts
    with the last dot, and the stem is empty only for an empty name. *)
Theorem splitext_join base stemsz extsz :
  length base < stemsz → length base < extsz →
  let '(stem, ext) := splitext base stemsz extsz in
  stem ++ ext = base ∧ (base ≠ [] → stem ≠ []) ∧
  (ext = [] ∨ ∃ e, ext = "."%char :: e ∧ "."%char ∉ e).
Proof.
  intros Hs He. unfold splitext.
  destruct (strrchr base ".") as [[[|c before] after]|] eqn:E.
  - rewrite trunc_id by done. rewrite app_nil_r. by auto.
  - apply strrchr_Some in E as [-> Hn]. rewrite !length_app in *. simpl in *.
    rewrite !trunc_id by (simpl; lia). split_and!; [done | done |]. right. by eauto.
  - rewrite trunc_id by done. rewrite app_nil_r. by auto.
Qed.

Lemma splitext_join_witness :
  (lit "wexec.tar" ++ lit ".c" = lit "wexec.tar.c") ∧ splitext "wexec.tar.c" 512 64 = (lit "wexec.tar", lit ".c").
Proof.
  pose proof (splitext_join "wexec.tar.c" 512 64) as H.
  change (splitext "wexec.tar.c" 512 64) with (lit "wexec.tar", lit ".c") in *.
  split; [|done]. apply H; simpl; lia.
Defined.

(** ** The marker search *)

Definition occurs (needle s : cstr) : Prop := ∃ a b, s = a ++ needle ++ b.

Lemma strstr_occurs s needle : is_Some (strstr s needle) ↔ occurs needle s.
Proof.
  unfold occurs. induction s as [|c s IH]; cbn [strstr]; unfold starts_with; case_bool_decide as Hp.
  - split; [|done]. destruct Hp as [b Hb]. intros _. by exists [], b.
  - split; [by intros []|]. intros (a & b & H). destruct a; [|done].
    exfalso. apply Hp. by exists b.
  - split; [|done]. destruct Hp as [b Hb]. intros _. by exists [], b.
  - destruct (strstr s needle) as [[x y]|].
    + split; [|done]. intros _. destruct (proj1 IH) as (a & b & ->); [done|].
      by exists (c :: a), b.
    + split; [by intros []|]. intros (a & b & H). destruct a as [|d a].
      * exfalso. apply Hp. by exists b.
      * injection H as -> ->. apply IH. by eauto.
Qed.

Lemma cstr_at_id s : no_nul s → cstr_at s = s.
Proof.
  unfold no_nul. induction s as [|c s IH]; simpl; [done|]. intros H.
  rewrite decide_False by set_solver. rewrite IH by set_solver. done.
Qed.

(** An occurrence that reaches past [u ++ v] starts inside [v] when [v] is one
    character shorter than the needle. *)
Lemma occurs_tail needle u v r :
  length v = length needle - 1 → 0 < length needle → ¬ occurs needle (u ++ v) →
  occurs needle (u ++ v ++ r) ↔ occurs needle (v ++ r).
Proof.
  intros Hv Hn Hno. split; intros (a & b & H).
  - destruct (decide (length u ≤ length a)).
    + assert (a = u ++ drop (length u) a) as Ha.
      { rewrite <- (take_drop (length u) a) at 1. f_equal.
        apply (f_equal (take (length u))) in H. rewrite take_app_length in H.
        by rewrite take_app_le in H by done. }
      exists (drop (length u) a), b. rewrite Ha, <- app_assoc in H. by simplify_list_eq.
    + exfalso. apply Hno. apply (f_equal (take (length (u ++ v)))) in H.
      rewrite app_assoc, take_app_length, app_assoc in H.
      rewrite take_app_ge in H by (rewrite !length_app; lia).
      eexists a, _. rewrite H, <- app_assoc. done.
  - exists (u ++ a), b. rewrite H, <- app_assoc. done.
Qed.

Lemma occurs_short needle s : length s < length needle → ¬ occurs needle s.
Proof. intros Hl (a & b & ->). rewrite !length_app in Hl. lia. Qed.

Lemma contains_chunks_spec fuel needle tail content :
  length content < fuel → no_nul content →
  length tail < length needle → length needle ≤ 256 →
  contains_chunks fuel needle tail content = true ↔ occurs needle (tail ++ content).
Proof.
  revert tail content. induction fuel as [|f IH]; intros tail content Hf Hnul Ht Hn; [lia|].
  cbn [contains_chunks]. remember chunk_size as cs eqn:Hcs. unfold chunk_size in Hcs.
  destruct (take cs content) as [|c ch] eqn:Echunk.
  { assert (content = []) as ->.
    { destruct content; [done|]. rewrite Hcs in Echunk.
      replace (Z.to_nat 8191) with (S (Z.to_nat 8190)) in Echunk by lia. done. }
    rewrite app_nil_r. split; [done|]. by intros ?%occurs_short. }
  assert (no_nul (c :: ch)) as Hnc.
  { rewrite <- Echunk. unfold no_nul in *. rewrite <- (take_drop cs content) in Hnul.
    set_solver. }
  rewrite cstr_at_id by done.
  assert (length (c :: ch) ≤ cs) as Hlc by (rewrite <- Echunk, length_take; lia).
  rewrite trunc_id by (rewrite length_app; lia).
  replace (tail ++ content) with (tail ++ (c :: ch) ++ drop cs content)
    by (by rewrite <- Echunk, take_drop).
  set (chunk := c :: ch) in *. set (r := drop cs content).
  case_bool_decide as Hocc.
  { split; [intros _|done]. apply strstr_occurs in Hocc as (a & b & E).
    exists a, (b ++ r). by rewrite app_assoc, E, <- !app_assoc. }
  rewrite strstr_occurs in Hocc.
  assert (length r < f ∧ no_nul r) as [Hr Hnr].
  { unfold r, no_nul in *. split; [|rewrite <- (take_drop cs content) in Hnul; set_solver].
    assert (length content = length chunk + length (drop cs content)) as HE.
    { rewrite <- Echunk, <- length_app, take_drop. done. }
    simpl in HE. lia. }
  case_decide as Hlen.
  - set (v := drop (length chunk - (length needle - 1)) chunk).
    assert (length v = length needle - 1) as Hv by (unfold v; rewrite length_drop; lia).
    rewrite trunc_id by lia. rewrite IH by (done || lia).
    rewrite <- (take_drop (length chunk - (length needle - 1)) chunk). fold v.
    set (u := take _ chunk) in *.
    assert (chunk = u ++ v) as Ec by (unfold u, v; by rewrite take_drop).
    rewrite <- (app_assoc u), app_assoc. symmetry. apply occurs_tail; [done | lia |].
    by rewrite <- app_assoc, <- Ec.
  - assert (r = []) as ->.
    { unfold r. apply drop_ge.
      assert (length (take cs content) = length chunk) as HE by (by rewrite Echunk).
      rewrite length_take in HE. lia. }
    destruct f as [|f]; [simpl in Hr; lia|]. rewrite app_nil_r. split; [|done].
    cbn [contains_chunks]. by rewrite take_nil.
Qed.

(** for a marker of 1 to 256 bytes, the search in 8191-byte chunks with a
    carried tail answers exactly whether the marker is a substring of the file,
    wherever the chunk boundaries fall. *)
Theorem file_contains_correct {W : Type} `{!World W} (w : W) path needle content :
  w_read w path = Some content → no_nul content →
  0 < length needle → length needle ≤ 256 →
  file_contains w path needle = true ↔ occurs needle content.
Proof.
  intros Hr Hnul H0 Hn. unfold file_contains. rewrite decide_False by (intros ->; simpl in H0; lia).
  rewrite Hr. apply contains_chunks_spec; [lia | done | simpl; lia | done].
Qed.

Lemma file_contains_correct_witness :
  let w := sworld_of [(lit "cmd/ls.c", lit "int main(void) {}")] in
  file_contains w "cmd/ls.c" "main" = true ↔ occurs "main" "int main(void) {}".
Proof.
  intros w. apply file_contains_correct; [reflexivity | unfold no_nul; by_decide | simpl; lia..].
Defined.
