(* ===== verification/Exec.v ===== *)
(** * Running instances: src/cmd/dev/ninqu/exec.c, with the staleness test and
    the dependency list of expand.c

    Staleness, the command line of an instance, the synchronous run of a
    producer with its dependencies and the parallel run of one level of the
    schedule.  Children are jobs handed to the [World]. *)

From S2P Require Import Prelude CString Sexpr StrList Kv Gate World Registry Fs.

(** ** Dependency lists and commands (expand.c) *)

Definition dep_push (idx : nat) (inst : Inst) : Inst :=
  if decide (idx ∈ i_dep_inst inst) then inst
  else set i_dep_inst (λ l, l ++ [idx]) inst.

(** The close paren that matches the opening one is the last character. *)
Fixpoint pure_ref_at (depth : nat) (p : cstr) : bool :=
  match p with
  | [] => false
  | c :: r =>
      if decide (c = "$"%char) then
        match r with
        | d :: r' => if decide (d = "("%char) then pure_ref_at (S depth) r' else pure_ref_at depth r
        | [] => false
        end
      else if decide (c = ")"%char) then
        match depth with
        | 0 | 1 => bool_decide (r = [])
        | S d => pure_ref_at d r
        end
      else pure_ref_at depth r
  end.

Definition is_pure_ref (tok : cstr) : bool :=
  match tok with
  | c :: d :: r =>
      if decide (c = "$"%char ∧ d = "("%char) then
        if decide (last tok = Some ")"%char) then pure_ref_at 1 r else false
      else false
  | _ => false
  end.

(** The text of a printf column. *)
Definition pad (n : nat) (s : cstr) : cstr := s ++ replicate (n - length s) " "%char.

Section exec.
Context {W : Type} `{!World W}.

Definition expand_cmd_token (n : nat) (out : StrList) (raw : cstr) : M (state W) StrList :=
  exp <- expand n raw ;;
  mret (if is_pure_ref raw then out ++ sl_split exp else sl_push out exp).

(** The shown form of a pipeline: the joined stages separated by bars. *)
Definition pipe_argv (sts : list StrList) : StrList :=
  match sts with
  | [] => []
  | st :: sts' => sl_join st :: concat (map (λ s, [lit "|"; sl_join s]) sts')
  end.

Definition build_cmd (n : nat) (idx : nat) (r : Rule) : M (state W) unit :=
  if is_pipe (r_cmd r) then
    sts <- mfold (λ acc st,
             slot <- mfold (expand_cmd_token n) [] st ;; mret (acc ++ [slot]))
           [] (stages (r_cmd r)) ;;
    upd_inst idx (set i_cmd (λ c, MkCmd (argv c ++ pipe_argv sts) true sts))
  else
    av <- mfold (expand_cmd_token n) [] (argv (r_cmd r)) ;;
    upd_inst idx (set i_cmd (λ c, MkCmd (argv c ++ av) (is_pipe c) (stages c))).

(** The instances of the rules an instance names, added to its list. *)
Definition push_dep_rule (idx : nat) (name : cstr) : M (state W) unit :=
  d <- gets (λ s, rule_find s name) ;;
  match d with
  | None => mret tt
  | Some d =>
      dep <- get_rule d ;;
      mforeach (λ k, upd_inst idx (dep_push k)) (r_inst_idx dep)
  end.

Definition push_dep_rules (idx : nat) : M (state W) unit :=
  inst <- get_inst idx ;; mforeach (push_dep_rule idx) (i_dep_rule_names inst).

Definition resolve_deps : M (state W) unit :=
  n <- gets (λ s, length (st_insts s)) ;; mforeach push_dep_rules (seq 0 n).

Definition inst_stale (w : W) (inst : Inst) : bool :=
  if i_phony inst then true
  else if negb (file_exists w (i_out inst)) then true
  else
    existsb (λ f, bool_decide (mtime_of w f > mtime_of w (i_out inst))%Z) (i_in inst)
    || existsb (λ f, file_exists w f && bool_decide (mtime_of w f > mtime_of w (i_out inst))%Z)
         (i_stale_extra inst).

(** ** Children (exec.c) *)

(** spawn_inst: the redirection is set up in the child. *)
Definition exec_job (inst : Inst) (av : StrList) : Job :=
  MkJob (i_workdir inst) (if i_redirect inst then Some (i_out inst) else None) false [av].

(** spawn_pipe: a supervisor, which does not look at [redirect]. *)
Definition pipe_job (inst : Inst) : Job :=
  MkJob (i_workdir inst) None true (stages (i_cmd inst)).

Definition inst_job (inst : Inst) : Job :=
  if is_pipe (i_cmd inst) then pipe_job inst else exec_job inst (argv (i_cmd inst)).

Definition spawn (j : Job) : M (state W) Z :=
  w <- gets st_world ;;
  match w_spawn w j with
  | None => eprintf "fork:"
  | Some (w', pid) => modify (set st_world (λ _, w')) ;; mret pid
  end.

Definition show_out (out : cstr) : cstr := if decide (out = []) then lit "(phony)" else out.

Definition announce_inst (inst : Inst) : M (state W) unit :=
  mk_out_dir (i_out inst) ;;
  r <- get_rule (i_rule_idx inst) ;;
  printf ("  " ++ pad 10 (r_name r) ++ " " ++ show_out (i_out inst) ++ [NL]).

Definition run_inst_sync (idx : nat) : M (state W) unit :=
  inst <- get_inst idx ;;
  w <- gets st_world ;;
  if negb (inst_stale w inst) then mret tt
  else
    announce_inst inst ;;
    pid <- spawn (inst_job inst) ;;
    w <- gets st_world ;;
    match w_waitpid w pid with
    | None => eprintf "waitpid:"
    | Some (w', ok) =>
        modify (set st_world (λ _, w')) ;;
        if ok : bool then mret tt
        else r <- get_rule (i_rule_idx inst) ;;
             eprintf ("manifest: producer failed (rule " ++ r_name r ++ ")")
    end.

(** Start stale instances until [jobs_n] run or none is left; the result is
    what is left and the running children with their instances. *)
Fixpoint fill_slots (todo : list nat) (running : list (Z * nat))
    : M (state W) (list nat * list (Z * nat)) :=
  match todo with
  | [] => mret ([], running)
  | i :: todo' =>
      jobs <- gets st_jobs_n ;;
      if bool_decide (Z.of_nat (length running) < jobs)%Z then
        inst <- get_inst i ;;
        w <- gets st_world ;;
        if negb (inst_stale w inst) then fill_slots todo' running
        else
          announce_inst inst ;;
          pid <- spawn (inst_job inst) ;;
          fill_slots todo' (running ++ [(pid, i)])
      else mret (todo, running)
  end.

(** The entry of index [i] replaced by the last one. *)
Definition swap_remove {A} (i : nat) (l : list A) : list A :=
  match last l with
  | None => l
  | Some x => take (length l - 1) (<[i := x]> l)
  end.

(** One [wait]: the finished child leaves its slot. *)
Definition reap (running : list (Z * nat)) : M (state W) (list (Z * nat)) :=
  w <- gets st_world ;;
  match w_wait w with
  | None => eprintf "wait:"
  | Some (w', pid, ok) =>
      modify (set st_world (λ _, w')) ;;
      match list_find (λ '(p, _), p = pid) running with
      | None => mret running
      | Some (i, (_, slot)) =>
          (if ok : bool then mret tt
           else
             inst <- get_inst slot ;;
             r <- get_rule (i_rule_idx inst) ;;
             weprintf ("rule " ++ r_name r ++ " failed: " ++ sl_join (argv (i_cmd inst))) ;;
             modify (set st_failed_any (λ _, true))) ;;
          mret (swap_remove i running)
      end
  end.

Fixpoint batch_loop (n : nat) (todo : list nat) (running : list (Z * nat)) : M (state W) unit :=
  match n with
  | 0 => mfuel
  | S n =>
      match todo, running with
      | [], [] => mret tt
      | _, _ =>
          p <- fill_slots todo running ;;
          let '(todo, running) := p in
          match running with
          | [] => batch_loop n todo []
          | _ => running <- reap running ;; batch_loop n todo running
          end
      end
  end.

Definition run_batch (n : nat) (idxs : list nat) : M (state W) unit := batch_loop n idxs [].

Fixpoint run_inst_with_deps (n : nat) (idx : nat) : M (state W) unit :=
  match n with
  | 0 => mfuel
  | S n =>
      push_dep_rules idx ;;
      inst <- get_inst idx ;;
      mforeach (run_inst_with_deps n) (i_dep_inst inst) ;;
      run_inst_sync idx
  end.

(** ** capture_argv *)

Definition strip_newlines (s : cstr) : cstr :=
  rev ((fix go l := match l with
                    | c :: l' => if decide (c = NL ∨ c = CR) then go l' else l
                    | [] => []
                    end) (rev s)).

Definition capture_argv (av : StrList) : M (state W) cstr :=
  if decide (av = []) then eprintf "capture: empty argv"
  else
    w <- gets st_world ;;
    match w_capture w av with
    | None => eprintf "capture: fork:"
    | Some (w', out, ok) =>
        modify (set st_world (λ _, w')) ;;
        if ok : bool then mret (strip_newlines out) else eprintf "capture: command failed"
    end.
End exec.
