(* ===== verification/BatchFacts.v ===== *)
(** * Running a level in parallel

    run_batch of exec.c, for any world whose processes behave as POSIX says:
    [fork] gives a fresh child, [wait] blocks until a child has finished and
    removes it.  These laws are the class [Processes]; the concrete world satisfies
    them.  Proved here: a batch terminates, never runs more than [jobs_n]
    children, starts each instance at most once and in order, always starts the
    phony ones, and leaves no child behind. *)

From S2P Require Import Prelude CString Sexpr StrList Kv Gate World Registry Fs Exec.

(** ** The process laws *)

Class Processes (W : Type) `{!World W} := {
  (** the worlds a process can be in *)
  w_ok : W → Prop;
  (** the children not yet waited for, and the jobs started so far *)
  w_live : W → gset Z;
  w_jobs : W → list Job;
  spawn_law w j w' pid :
    w_ok w → w_spawn w j = Some (w', pid) →
    w_ok w' ∧ pid ∉ w_live w ∧ w_live w' = {[pid]} ∪ w_live w ∧ w_jobs w' = w_jobs w ++ [j];
  wait_law w w' pid ok :
    w_ok w → w_wait w = Some (w', pid, ok) →
    w_ok w' ∧ pid ∈ w_live w ∧ w_live w' = w_live w ∖ {[pid]} ∧ w_jobs w' = w_jobs w;
  wait_blocks w : w_ok w → w_live w ≠ ∅ → is_Some (w_wait w);
  mkdir_law w p :
    w_ok w → w_ok (w_mkdir w p).1 ∧ w_live (w_mkdir w p).1 = w_live w ∧
    w_jobs (w_mkdir w p).1 = w_jobs w
}.

(** ** The concrete world satisfies them *)

Definition sw_ok (w : sworld) : Prop :=
  NoDup (map fst (sw_children w)) ∧ Forall (λ p, (p < sw_next_pid w)%Z) (map fst (sw_children w)).

Lemma sw_command_children a w :
  sw_children (sw_command a w) = sw_children w ∧ sw_next_pid (sw_command a w) = sw_next_pid w ∧
  sw_log (sw_command a w) = sw_log w.
Proof.
  unfold sw_command. destruct a as [|prog args]; [done|]. case_decide; [|done].
  induction args as [|f args IH]; [done | apply IH].
Qed.

Lemma sw_commands_children l w :
  let w' := foldl (λ w a, sw_command a w) w l in
  sw_children w' = sw_children w ∧ sw_next_pid w' = sw_next_pid w ∧ sw_log w' = sw_log w.
Proof.
  revert w. induction l as [|a l IH]; intros w; simpl; [done|].
  destruct (IH (sw_command a w)) as (-> & -> & ->). apply sw_command_children.
Qed.

#[export] Program Instance sw_processes : Processes sworld := {|
  w_ok := sw_ok;
  w_live w := list_to_set (map fst (sw_children w));
  w_jobs := sw_log
|}.
Next Obligation.
  intros w j w' pid [Hnd Hlt] [= <- <-]. cbn.
  set (w1 := match job_stdout j with Some f => sw_put f [] w | None => w end).
  assert (sw_log (foldl (λ w a, sw_command a w) w1 (job_stages j)) = sw_log w) as Hlog.
  { destruct (sw_commands_children (job_stages j) w1) as (_ & _ & ->). unfold w1. by destruct (job_stdout j). }
  rewrite Forall_forall in Hlt.
  assert (sw_next_pid w ∉ map fst (sw_children w)) as Hfresh by (intros ?%Hlt; lia).
  split; [split; cbn | split; [|split; [|done]]].
  - rewrite map_app. apply NoDup_app. split_and!; [done| |apply NoDup_singleton]. set_solver.
  - rewrite map_app. apply Forall_app. split; [|repeat constructor; simpl; lia].
    apply Forall_forall. intros p Hp%Hlt. lia.
  - rewrite elem_of_list_to_set. done.
  - rewrite map_app, list_to_set_app_L. simpl. set_solver.
Qed.
Next Obligation.
  intros w w' pid ok [Hnd Hlt]. unfold w_wait, simple_world, sw_wait.
  destruct (sw_children w) as [|[p b] rest] eqn:E; [done|]. intros [= <- <- <-]. cbn in *.
  apply NoDup_cons in Hnd as [Hp Hnd]. apply Forall_cons in Hlt as [_ Hlt].
  split; [by split|]. split; [set_solver|]. split; [|done].
  apply set_eq. intros x. set_unfold. split; [|naive_solver]. intros Hx. split; [tauto|].
  intros ->. by apply Hp.
Qed.
Next Obligation.
  intros w _ Hne. cbv beta in Hne. unfold w_wait, simple_world, sw_wait.
  destruct (sw_children w) as [|[p b] rest]; [done|]. eauto.
Qed.
Next Obligation. by intros w p Hw. Qed.

(** ** Announcing an instance only creates directories *)

Lemma strip_slashes_length s : length (strip_slashes s) ≤ length s.
Proof.
  unfold strip_slashes. rewrite <- (length_rev s). generalize (rev s). intros l.
  induction l as [|c l IH]; [done|]. destruct (decide (c = "/"%char)) as [->|]; [simpl; lia|].
  destruct c as [[] [] [] [] [] [] [] []]; simpl; lia || done.
Qed.

Lemma dirname_length p : length (dirname p) ≤ S (length p).
Proof.
  unfold dirname. destruct (strip_slashes p) as [|c rb] eqn:E.
  { case_decide; simpl; lia. }
  pose proof (strip_slashes_length p) as Hl. rewrite E in Hl.
  destruct (strrchr (rev (c :: rb)) "/") as [[a b]|] eqn:Er; [|simpl; lia].
  apply strrchr_Some in Er as [Er _].
  pose proof (f_equal length Er) as Hlen. rewrite length_rev, length_app in Hlen.
  pose proof (strip_slashes_length a) as Ha.
  destruct (strip_slashes a); [simpl in *; lia|]. rewrite length_rev. simpl in *. lia.
Qed.

Lemma swap_remove_perm {A} (l : list A) i x : l !! i = Some x → x :: swap_remove i l ≡ₚ l.
Proof.
  intros Hi. destruct (exists_last (l := l)) as (l' & y & ->); [by intros ->|].
  unfold swap_remove. rewrite last_snoc, length_app. simpl. rewrite Nat.add_sub.
  apply lookup_snoc_Some in Hi as [[Hlt Hi] | [-> ->]].
  - rewrite insert_app_l, take_app_le, take_ge by (rewrite ?length_insert; lia).
    apply list_elem_of_split_length in Hi as (a & b & -> & ->).
    rewrite insert_app_r_alt, Nat.sub_diag by lia. simpl. solve_Permutation.
  - rewrite insert_app_r_alt, Nat.sub_diag by lia. simpl. rewrite take_app_length. solve_Permutation.
Qed.

Section batch.
Context {W : Type} `{!World W} `{!Processes W}.
Implicit Types (s : state W) (running : list (Z * nat)).

(** Nothing but directories and output changed. *)
Record quiet s s' : Prop := {
  q_insts : st_insts s' = st_insts s;
  q_rules : st_rules s' = st_rules s;
  q_n : st_jobs_n s' = st_jobs_n s;
  q_ok : w_ok (st_world s) → w_ok (st_world s');
  q_live : w_ok (st_world s) → w_live (st_world s') = w_live (st_world s);
  q_jobs : w_ok (st_world s) → w_jobs (st_world s') = w_jobs (st_world s)
}.

#[local] Instance quiet_preorder : PreOrder quiet.
Proof.
  split; [by split|]. intros s1 s2 s3 [] []. split; try congruence; auto.
  - intros H. rewrite q_live1 by auto. auto.
  - intros H. rewrite q_jobs1 by auto. auto.
Qed.

Lemma mkdirp_from_quiet (w : W) before path :
  w_ok w → let w' := (mkdirp_from w before path).1 in
  w_ok w' ∧ w_live w' = w_live w ∧ w_jobs w' = w_jobs w.
Proof.
  revert w before. induction path as [|c r IH]; intros w before Hw; simpl.
  { pose proof (mkdir_law w before Hw) as H. by destruct (w_mkdir w before) as [w' []]. }
  case_decide; [|by apply IH]. destruct (mkdir_law w before Hw) as (H1 & H2 & H3).
  destruct (w_mkdir w before) as [w' []]; simpl in *; [|done].
  destruct (IH w' (before ++ [c]) H1) as (? & -> & ->). done.
Qed.

Lemma mkdirp_quiet path s :
  length path < 4096 → ∃ b s', mkdirp path s = Ok b s' ∧ quiet s s'.
Proof.
  intros Hl. unfold mkdirp. rewrite (bind_run _ _ s (st_world s) s) by done.
  destruct (w_stat_dir _ _) as [[]|].
  { by exists true, s. }
  { eexists false, _. split; [reflexivity|]. by split. }
  unfold estrlcpy. rewrite decide_False by lia. rewrite (bind_run _ _ s (trunc 4096 path) s) by done.
  set (p := match trunc 4096 path with "/"%char :: r => _ | _ => _ end).
  assert (w_ok (st_world s) → w_ok p.1 ∧ w_live p.1 = w_live (st_world s) ∧
          w_jobs p.1 = w_jobs (st_world s)) as Hp.
  { intros Hw. unfold p. repeat case_match; by apply mkdirp_from_quiet. }
  destruct p as [w' [dir|]]; eexists _, _; (split; [reflexivity|]); split; try done; intros Hw; by apply Hp.
Qed.

Lemma mk_out_dir_quiet out s :
  length out < 1024 → ∃ s', mk_out_dir out s = Ok tt s' ∧ quiet s s'.
Proof.
  intros Hl. unfold mk_out_dir. case_decide; [by exists s|].
  unfold estrlcpy. rewrite decide_False by lia. rewrite (bind_run _ _ s (trunc 4096 out) s) by done.
  rewrite trunc_id by lia. case_decide; [by exists s|].
  destruct (mkdirp_quiet (dirname out) s) as (b & s' & E & Hq).
  { pose proof (dirname_length out). lia. }
  exists s'. by rewrite (bind_run _ _ _ _ _ E).
Qed.

(** The instances a batch may be given. *)
Definition runnable s (i : nat) : Prop :=
  ∃ inst, st_insts s !! i = Some inst ∧ length (i_out inst) < 1024 ∧
    i_rule_idx inst < length (st_rules s).

Lemma announce_quiet inst s :
  length (i_out inst) < 1024 → i_rule_idx inst < length (st_rules s) →
  ∃ s', announce_inst inst s = Ok tt s' ∧ quiet s s'.
Proof.
  intros Ho Hr. unfold announce_inst. destruct (mk_out_dir_quiet (i_out inst) s Ho) as (s1 & E & Hq).
  rewrite (bind_run _ _ _ _ _ E). rewrite <- (q_rules _ _ Hq) in Hr.
  destruct (lookup_lt_is_Some_2 _ _ Hr) as [r Hrl].
  rewrite (bind_run _ _ s1 r s1) by (unfold get_rule, mbind, gets; by rewrite Hrl).
  eexists. split; [reflexivity|]. transitivity s1; [done|]. by split.
Qed.

(** The running children are the live ones, each started for an instance. *)
Record batch_inv s running : Prop := {
  bi_ok : w_ok (st_world s);
  bi_nodup : NoDup (map fst running);
  bi_live : w_live (st_world s) = list_to_set (map fst running);
  bi_slots : Forall (runnable s) (map snd running)
}.

Definition jobs_of s (l : list nat) : list Job :=
  omap (λ i, inst_job <$> st_insts s !! i) l.

(** What a phase of the batch keeps. *)
Record same_graph s s' : Prop := {
  sg_insts : st_insts s' = st_insts s;
  sg_rules : st_rules s' = st_rules s;
  sg_n : st_jobs_n s' = st_jobs_n s
}.

Lemma runnable_same s s' i : same_graph s s' → runnable s i → runnable s' i.
Proof. intros [Hi Hr _] (inst & H1 & H2 & H3). exists inst. by rewrite Hi, Hr. Qed.
Lemma quiet_same s s' : quiet s s' → same_graph s s'.
Proof. by intros []. Qed.
Lemma same_trans s1 s2 s3 : same_graph s1 s2 → same_graph s2 s3 → same_graph s1 s3.
Proof. intros [] []. split; congruence. Qed.
Lemma jobs_of_same s s' l : same_graph s s' → jobs_of s' l = jobs_of s l.
Proof. intros [Hi _ _]. unfold jobs_of. by rewrite Hi. Qed.

(** Starting a child: [fork] may fail, otherwise the child joins the others. *)
Lemma spawn_step s running i inst :
  batch_inv s running → st_insts s !! i = Some inst → runnable s i →
  spawn (inst_job inst) s = Die "fork:" s ∨
  ∃ pid s', spawn (inst_job inst) s = Ok pid s' ∧ same_graph s s' ∧
    batch_inv s' (running ++ [(pid, i)]) ∧
    w_jobs (st_world s') = w_jobs (st_world s) ++ [inst_job inst].
Proof.
  intros [Hok Hnd Hlive Hslots] Hi Hrun. unfold spawn. rewrite (bind_run _ _ s (st_world s) s) by done.
  destruct (w_spawn _ _) as [[w' pid]|] eqn:E; [|by left]. right.
  destruct (spawn_law _ _ _ _ Hok E) as (Hok' & Hfresh & Hlive' & Hjobs).
  eexists pid, _. split; [reflexivity|]. split; [by split|]. split; [|done].
  rewrite Hlive, elem_of_list_to_set in Hfresh. split; [done| | |].
  - rewrite map_app. apply NoDup_app. split_and!; [done | set_solver | apply NoDup_singleton].
  - rewrite map_app, list_to_set_app_L. simpl. rewrite Hlive', Hlive. set_solver.
  - rewrite map_app. apply Forall_app. split; [done|]. by apply Forall_singleton.
Qed.

(** A filling phase: what was looked at, what of it was started. *)
Record filled s todo running s' todo' running' (seen sub : list nat) : Prop := {
  fl_same : same_graph s s';
  fl_inv : batch_inv s' running';
  fl_todo : todo = seen ++ todo';
  fl_sub : sub `sublist_of` seen;
  fl_phony : ∀ i inst, i ∈ seen → st_insts s !! i = Some inst → i_phony inst = true → i ∈ sub;
  fl_jobs : w_jobs (st_world s') = w_jobs (st_world s) ++ jobs_of s sub;
  fl_len : length running' = length running + length sub;
  fl_bound : (Z.of_nat (length running) ≤ st_jobs_n s)%Z → (Z.of_nat (length running') ≤ st_jobs_n s)%Z;
  fl_full : todo' = [] ∨ (st_jobs_n s ≤ Z.of_nat (length running'))%Z
}.

Lemma batch_inv_quiet s s' running : quiet s s' → batch_inv s running → batch_inv s' running.
Proof.
  intros Hq [Hok Hnd Hl Hs]. split; [by apply (q_ok _ _ Hq) | done | by rewrite (q_live _ _ Hq) |].
  eapply Forall_impl; [done|]. intros i. by apply runnable_same, quiet_same.
Qed.

Lemma fill_slots_ok todo s running :
  batch_inv s running → Forall (runnable s) todo →
  (∃ s', fill_slots todo running s = Die "fork:" s') ∨
  ∃ todo' running' s' seen sub,
    fill_slots todo running s = Ok (todo', running') s' ∧
    filled s todo running s' todo' running' seen sub.
Proof.
  revert s running. induction todo as [|i todo IH]; intros s running Hb Hrun.
  { right. exists [], running, s, [], []. split; [done|].
    split; [by split | done | done | done | set_solver | by rewrite app_nil_r | simpl; lia | done | by left]. }
  apply Forall_cons in Hrun as [Hi Hrun]. cbn [fill_slots].
  rewrite (bind_run _ _ s (st_jobs_n s) s) by done. case_bool_decide as Hroom.
  2: { right. exists (i :: todo), running, s, [], []. split; [done|].
       split; [by split | done | done | done | set_solver | by rewrite app_nil_r | simpl; lia | done | right; lia]. }
  pose proof Hi as (inst & Hinst & Ho & Hr).
  rewrite (bind_run _ _ s inst s) by (unfold get_inst, mbind, gets; by rewrite Hinst).
  rewrite (bind_run _ _ s (st_world s) s) by done. destruct (inst_stale (st_world s) inst) eqn:Est; simpl.
  - destruct (announce_quiet inst s Ho Hr) as (s1 & E1 & Hq). rewrite (bind_run _ _ _ _ _ E1).
    pose proof (quiet_same _ _ Hq) as Hsg. pose proof (batch_inv_quiet _ _ _ Hq Hb) as Hb1.
    destruct (spawn_step s1 running i inst) as [E2 | (pid & s2 & E2 & Hsg2 & Hb2 & Hj2)];
      [done | by rewrite (q_insts _ _ Hq) | by apply (runnable_same s) | |].
    { left. exists s1. unfold mbind at 1. by rewrite E2. }
    rewrite (bind_run _ _ _ _ _ E2). pose proof (same_trans _ _ _ Hsg Hsg2) as Hsg'.
    destruct (IH s2 (running ++ [(pid, i)]) Hb2) as [[s' E]|(t' & r' & s' & seen & sub & E & [F1 F2 F3 F4 F5 F6 F7 F8 F9])].
    { eapply Forall_impl; [done|]. intros j. by apply runnable_same. }
    { left. by exists s'. }
    right. exists t', r', s', (i :: seen), (i :: sub). split; [done|].
    rewrite length_app in F7. rewrite length_app in F8. rewrite (sg_n _ _ Hsg') in F8, F9. simpl in F7, F8.
    split; [by eapply same_trans | done | by rewrite F3 | by constructor | | | simpl; lia | lia | done].
    + intros j instj [->|Hj]%elem_of_cons; [left|]. intros H1 H2. right.
      apply (F5 j instj); [done | by rewrite (sg_insts _ _ Hsg') | done].
    + rewrite F6, Hj2, (q_jobs _ _ Hq) by apply Hb. rewrite (jobs_of_same _ _ _ Hsg').
      unfold jobs_of at 2. simpl. rewrite Hinst. simpl. by rewrite <- app_assoc.
  - destruct (IH s running Hb Hrun) as [[s' E]|(t' & r' & s' & seen & sub & E & [F1 F2 F3 F4 F5 F6 F7 F8 F9])].
    { left. by exists s'. }
    right. exists t', r', s', (i :: seen), sub. split; [done|].
    split; [done | done | by rewrite F3 | by constructor | | done..].
    intros j instj [->|Hj]%elem_of_cons; [|by apply F5]. intros H1 H2. simplify_eq.
    unfold inst_stale in Est. by rewrite H2 in Est.
Qed.

(** One [wait]: some running child leaves. *)
Lemma reap_ok s running :
  batch_inv s running → running ≠ [] →
  ∃ running' s', reap running s = Ok running' s' ∧ same_graph s s' ∧ batch_inv s' running' ∧
    S (length running') = length running ∧ w_jobs (st_world s') = w_jobs (st_world s).
Proof.
  intros [Hok Hnd Hlive Hslots] Hne. unfold reap. rewrite (bind_run _ _ s (st_world s) s) by done.
  destruct (wait_blocks (st_world s) Hok) as [[[w' pid] ok] E].
  { rewrite Hlive. destruct running as [|[p j] r]; [done|]. simpl. set_solver. }
  rewrite E. destruct (wait_law _ _ _ _ Hok E) as (Hok' & Hin & Hlive' & Hjobs).
  rewrite Hlive, elem_of_list_to_set in Hin. apply list_elem_of_fmap in Hin as ([p slot] & Hp & Hin).
  simpl in Hp. subst p.
  set (s1 := set st_world (λ _, w') s). rewrite (bind_run _ _ s tt s1) by done.
  destruct (list_find_elem_of (λ '(p, _), p = pid) running (pid, slot) Hin) as [[k [p sl]] Hf]; [done|].
  rewrite Hf. apply list_find_Some in Hf as (Hk & -> & _).
  pose proof (swap_remove_perm _ _ _ Hk) as Hperm.
  assert (batch_inv s1 (swap_remove k running)) as Hb1.
  { assert (map fst running ≡ₚ pid :: map fst (swap_remove k running)) as Hpf.
    { by rewrite <- Hperm at 1. }
    assert (NoDup (pid :: map fst (swap_remove k running))) as Hnd' by (by rewrite <- Hpf).
    apply NoDup_cons in Hnd' as [Hnot Hnd'].
    split; [done | done | |].
    - change (w_live w' = list_to_set (map fst (swap_remove k running))).
      rewrite Hlive', Hlive, Hpf. simpl. apply set_eq. intros x.
      rewrite elem_of_difference, elem_of_union, elem_of_singleton, !elem_of_list_to_set.
      split; [tauto|]. intros Hx. split; [tauto|]. intros ->. done.
    - rewrite <- Hperm in Hslots. simpl in Hslots. by apply Forall_cons in Hslots as [_ ?]. }
  assert (runnable s sl) as (inst & Hinst & _ & Hr).
  { rewrite Forall_forall in Hslots. apply Hslots. apply list_elem_of_fmap. exists (pid, sl).
    split; [done|]. by eapply list_elem_of_lookup_2. }
  pose proof (Permutation_length Hperm) as Hlen. simpl in Hlen.
  destruct ok.
  - exists (swap_remove k running), s1. split; [done|]. by split_and!.
  - destruct (lookup_lt_is_Some_2 (st_rules s1) (i_rule_idx inst)) as [r Hrl]; [done|].
    assert (st_insts s1 !! sl = Some inst) as Hinst1 by done.
    eexists (swap_remove k running), _. split.
    { unfold mbind at 1, mbind at 1, get_inst at 1, mbind at 1, gets at 1. rewrite Hinst1. cbn [deref mret].
      unfold get_rule, mbind, gets. unfold mret at 1. rewrite Hrl. reflexivity. }
    split; [by split|]. split; [|by split]. by destruct Hb1.
Qed.

(** A finished batch: the started instances and the jobs they ran. *)
Record finished s todo s' (sub : list nat) : Prop := {
  fi_same : same_graph s s';
  fi_ok : w_ok (st_world s');
  fi_live : w_live (st_world s') = ∅;
  fi_sub : sub `sublist_of` todo;
  fi_phony : ∀ i inst, i ∈ todo → st_insts s !! i = Some inst → i_phony inst = true → i ∈ sub;
  fi_jobs : w_jobs (st_world s') = w_jobs (st_world s) ++ jobs_of s sub
}.

(** A filling phase, more waiting and the rest of the batch. *)
Lemma finished_after s todo running s1 todo1 running1 seen sub s2 s' sub' :
  filled s todo running s1 todo1 running1 seen sub →
  same_graph s1 s2 → w_jobs (st_world s2) = w_jobs (st_world s1) →
  finished s2 todo1 s' sub' → finished s todo s' (sub ++ sub').
Proof.
  intros [F1 F2 F3 F4 F5 F6 F7 F8 F9] Hs12 Hj [G1 G2 G3 G4 G5 G6].
  pose proof (same_trans _ _ _ F1 Hs12) as Hs2.
  split; [by eapply same_trans | done | done | | |].
  - rewrite F3. by apply sublist_app.
  - intros i inst Hi H1 H2. rewrite F3, elem_of_app in Hi. apply elem_of_app.
    destruct Hi as [Hi|Hi]; [left; eauto | right; apply (G5 i inst); [done | | done]].
    by rewrite (sg_insts _ _ Hs2).
  - rewrite G6, Hj, F6, (jobs_of_same _ _ _ Hs2). unfold jobs_of. by rewrite omap_app, app_assoc.
Qed.

Lemma batch_loop_ok fuel todo running s :
  batch_inv s running → Forall (runnable s) todo → (1 ≤ st_jobs_n s)%Z →
  length todo + length running < fuel →
  (∃ s', batch_loop fuel todo running s = Die "fork:" s') ∨
  ∃ s' sub, batch_loop fuel todo running s = Ok tt s' ∧ finished s todo s' sub.
Proof.
  revert todo running s. induction fuel as [|fuel IH]; intros todo running s Hb Hrun Hn Hf; [lia|].
  destruct (decide (todo = [] ∧ running = [])) as [[-> ->]|Hne].
  { right. exists s, []. split; [done|]. split; [by split | apply Hb | | done | set_solver |].
    - by rewrite (bi_live _ _ Hb).
    - by rewrite app_nil_r. }
  assert (batch_loop (S fuel) todo running s =
    (p <- fill_slots todo running ;;
     let '(todo, running) := p in
     match running with
     | [] => batch_loop fuel todo []
     | _ => running <- reap running ;; batch_loop fuel todo running
     end) s) as ->.
  { destruct todo, running; try done. by destruct Hne. }
  destruct (fill_slots_ok todo s running Hb Hrun) as [[s' E] | (t1 & r1 & s1 & seen & sub & E & Hfl)].
  { left. exists s'. unfold mbind at 1. by rewrite E. }
  rewrite (bind_run _ _ _ _ _ E). pose proof Hfl as [F1 F2 F3 F4 F5 F6 F7 F8 F9].
  assert (length sub ≤ length seen) as Hsl by (by apply sublist_length).
  assert (length todo = length seen + length t1) as Hlt by (by rewrite F3, length_app).
  assert (Forall (runnable s1) t1) as Hrun1.
  { rewrite F3 in Hrun. apply Forall_app in Hrun as [_ Hr]. eapply Forall_impl; [done|].
    intros i. by apply runnable_same. }
  destruct r1 as [|c r1].
  - assert (t1 = []) as -> by (destruct F9 as [?|F9]; [done | simpl in F9; lia]).
    destruct (IH [] [] s1) as [[s' E'] | (s' & sub' & E' & Hfi)];
      [done | constructor | by rewrite (sg_n _ _ F1) | |left; by exists s' | ].
    { simpl. destruct todo, running; simpl in *; try lia. by destruct Hne. }
    right. exists s', (sub ++ sub'). split; [done|].
    by apply (finished_after s todo running s1 [] [] seen sub s1).
  - destruct (reap_ok s1 (c :: r1) F2) as (r2 & s2 & E2 & Hs2 & Hb2 & Hl2 & Hj2); [done|].
    rewrite (bind_run _ _ _ _ _ E2).
    destruct (IH t1 r2 s2) as [[s' E'] | (s' & sub' & E' & Hfi)];
      [done | | by rewrite (sg_n _ _ Hs2), (sg_n _ _ F1) | lia | left; by exists s' |].
    { eapply Forall_impl; [done|]. intros i. by apply runnable_same. }
    right. exists s', (sub ++ sub'). split; [done|].
    by apply (finished_after s todo running s1 t1 (c :: r1) seen sub s2).
Qed.
End batch.

(** C9: a batch of valid instances, started with no child running, terminates
    within one round per instance: unless [fork] fails it returns with no child
    left; the jobs it started are those of a subsequence of the given instances,
    in order and each at most once, and every phony instance is among them. *)
Theorem run_batch_complete {W} `{!World W} `{!Processes W} (n : nat) (idxs : list nat) (s : state W) :
  w_ok (st_world s) → w_live (st_world s) = ∅ → (1 ≤ st_jobs_n s)%Z →
  Forall (runnable s) idxs → length idxs < n →
  (∃ s', run_batch n idxs s = Die "fork:" s') ∨
  ∃ s' sub, run_batch n idxs s = Ok tt s' ∧ w_live (st_world s') = ∅ ∧
    st_insts s' = st_insts s ∧ sub `sublist_of` idxs ∧
    (∀ i inst, i ∈ idxs → st_insts s !! i = Some inst → i_phony inst = true → i ∈ sub) ∧
    w_jobs (st_world s') = w_jobs (st_world s) ++ jobs_of s sub.
Proof.
  intros Hok Hlive Hn Hrun Hf.
  destruct (batch_loop_ok n idxs [] s) as [H | (s' & sub & E & [G1 G2 G3 G4 G5 G6])];
    [| done | done | simpl; lia | by left |].
  - by split; [| constructor | | constructor].
  - right. exists s', sub. split_and!; try done. apply G1.
Qed.

(** filling the slots never exceeds -j: at most [jobs_n] children run, and
    it stops early only when that many do. *)
Theorem fill_slots_bounded {W} `{!World W} `{!Processes W} todo running todo' running' (s s' : state W) :
  batch_inv s running → Forall (runnable s) todo →
  (Z.of_nat (length running) ≤ st_jobs_n s)%Z →
  fill_slots todo running s = Ok (todo', running') s' →
  (Z.of_nat (length running') ≤ st_jobs_n s)%Z ∧
  (todo' = [] ∨ Z.of_nat (length running') = st_jobs_n s) ∧
  w_live (st_world s') = list_to_set (map fst running').
Proof.
  intros Hb Hrun Hle E. destruct (fill_slots_ok todo s running Hb Hrun) as [[s1 E'] | H]; [by rewrite E in E'|].
  destruct H as (t1 & r1 & s1 & seen & sub & E' & [F1 F2 F3 F4 F5 F6 F7 F8 F9]).
  rewrite E in E'. injection E' as <- <- <-. split_and!; [auto | | apply F2].
  destruct F9 as [|F9]; [by left | right]. specialize (F8 Hle). lia.
Qed.

(** Three instances, one of them phony, with two job slots. *)
Definition demo_batch : state sworld :=
  MkState (MkKv [] [] None [] [] []) [rule0 "obj"] [] [] []
    [inst0 0 <| i_out := lit "a.o" |> <| i_cmd := MkCmd (lits ["touch"; "a.o"]) false [] |>;
     inst0 0 <| i_out := lit "b.o" |> <| i_cmd := MkCmd (lits ["touch"; "b.o"]) false [] |>;
     inst0 0 <| i_phony := true |> <| i_cmd := MkCmd (lits ["false"]) false [] |>]
    [] [] 2 false false [] [] (sworld_of [(lit "b.o", [])]).

Lemma demo_runnable : Forall (runnable demo_batch) [0; 1; 2].
Proof. repeat constructor; eexists; (split; [reflexivity|]; split; [apply Nat.ltb_lt; reflexivity | apply Nat.ltb_lt; reflexivity]). Qed.

Lemma run_batch_complete_witness :
  (∃ s', run_batch 4 [0; 1; 2] demo_batch = Die "fork:" s') ∨
  ∃ s' sub, run_batch 4 [0; 1; 2] demo_batch = Ok tt s' ∧ w_live (st_world s') = ∅ ∧
    st_insts s' = st_insts demo_batch ∧ sub `sublist_of` [0; 1; 2] ∧
    (∀ i inst, i ∈ [0; 1; 2] → st_insts demo_batch !! i = Some inst → i_phony inst = true → i ∈ sub) ∧
    w_jobs (st_world s') = w_jobs (st_world demo_batch) ++ jobs_of demo_batch sub.
Proof.
  apply run_batch_complete; [by split; constructor | reflexivity | apply Z.leb_le; reflexivity | apply demo_runnable |].
  simpl. lia.
Defined.

Lemma fill_slots_bounded_witness :
  match fill_slots [0; 1; 2] [] demo_batch with
  | Ok (todo', running') s' => (Z.of_nat (length running') ≤ 2)%Z
  | _ => False
  end.
Proof.
  destruct (fill_slots [0; 1; 2] [] demo_batch) as [[t r] s'| | |] eqn:E; [| vm_compute in E; discriminate E ..].
  apply (fill_slots_bounded [0; 1; 2] [] t r demo_batch s'); [| apply demo_runnable | apply Z.leb_le; reflexivity | exact E].
  split; [by split; constructor | constructor | reflexivity | constructor].
Defined.
