(* ===== verification/Expand.v ===== *)
(** * From rules to instances: src/cmd/dev/ninqu/expand.c (and
    materialize_if_missing of exec.c)

    [expand_rule] turns a rule into instances: one per file its globs match, or
    one.  It calls itself through the rules it depends on and runs producers of
    missing inputs, so it carries a recursion budget [n]; the functions it is
    built from take the recursive call as an argument. *)

From S2P Require Import Prelude CString Sexpr StrList Kv Gate World Registry Fs Exec.

Section expand.
Context {W : Type} `{!World W}.

Definition set_local_overlay (o : option nat) : M (state W) unit :=
  upd_kv (with_local_overlay o).

(** A fresh [struct KvStore ov] on the stack. *)
Definition new_overlay (ov : KvStore) : M (state W) nat :=
  i <- gets (λ s, length (overlays (st_kv s))) ;;
  upd_kv (with_overlays (λ l, l ++ [ov])) ;;
  mret i.

Definition overlay_set (ov : nat) (key val : cstr) : M (state W) unit :=
  upd_kv (with_overlays (alter (λ s, kv_set_raw s key val) ov)).

Section calls.
Context (n : nat) (rec : cstr → M (state W) unit).

(** Run the producer of [path] when the file does not exist. *)
Definition materialize_if_missing (path : cstr) : M (state W) unit :=
  w <- gets st_world ;;
  if file_exists w path then mret tt
  else
    s <- gets id ;;
    o <- budget (rule_find_output n s path) ;;
    let o := match o with Some r => Some r | None => rule_find_produces s (base_of path) end in
    match o with
    | None => mret tt
    | Some r =>
        rl <- get_rule r ;;
        rec (r_name rl) ;;
        rl <- get_rule r ;;
        mforeach (run_inst_with_deps n) (r_inst_idx rl)
    end.

Definition add_path (inst_idx : nat) (only_dep : bool) (path : cstr) : M (state W) unit :=
  upd_inst inst_idx
    (if only_dep then set i_stale_extra (λ l, sl_push l path)
     else set i_in (λ l, sl_push l path)).

Definition resolve_input_token (inst_idx : nat) (raw : cstr) (only_dep : bool)
    : M (state W) unit :=
  exp <- expand n raw ;;
  match exp with
  | "@"%char :: rulename =>
      saved <- gets (λ s, local_overlay (st_kv s)) ;;
      set_local_overlay None ;;
      rec rulename ;;
      set_local_overlay saved ;;
      d <- gets (λ s, rule_find s rulename) ;;
      match d with
      | None =>
          inst <- get_inst inst_idx ;;
          r <- get_rule (i_rule_idx inst) ;;
          eprintf ("manifest: '" ++ r_name r ++ "' references unknown rule '@" ++ rulename ++ "'")
      | Some d =>
          dep <- get_rule d ;;
          upd_inst inst_idx (set i_dep_rule_names (λ l,
            if sl_has l rulename then l else sl_push l rulename)) ;;
          if only_dep then mret tt
          else mforeach (λ k, i <- get_inst k ;; add_path inst_idx false (i_out i))
                 (r_inst_idx dep)
      end
  | _ =>
      if starts_with "glob:" exp then
        ms <- glob_expand n (drop 5 exp) [] ;;
        mforeach (add_path inst_idx only_dep) ms
      else
        mforeach (λ path,
          w <- gets st_world ;;
          mwhen (negb (file_exists w path)) (materialize_if_missing path) ;;
          add_path inst_idx only_dep path) (sl_split exp)
  end.

Definition setup_inst (idx : nat) (r : Rule) : M (state W) unit :=
  upd_inst idx (λ i, i <| i_phony := r_phony r |> <| i_redirect := r_redirect r |>) ;;
  if decide (r_workdir r = []) then mret tt
  else wd <- expand n (r_workdir r) ;; upd_inst idx (λ i, i <| i_workdir := trunc 1024 wd |>).

Definition finalize_inst (idx : nat) (r : Rule) (ov : nat) : M (state W) unit :=
  mforeach (λ tok, resolve_input_token idx tok false) (r_in r) ;;
  mforeach (λ tok, resolve_input_token idx tok true) (r_extra_deps r) ;;
  o <- expand n (r_out r) ;;
  upd_inst idx (λ i, i <| i_out := trunc 1024 o |>) ;;
  inst <- get_inst idx ;;
  overlay_set ov "IN" (sl_join (i_in inst)) ;;
  overlay_set ov "OUT" (i_out inst) ;;
  build_cmd n idx r.

(** The expanded (out) of [dep] matches an expanded glob of [self]. *)
Definition dep_feeds_glob (self dep : Rule) : M (state W) bool :=
  if decide (r_out dep = []) then mret false
  else mfold (λ hit g,
         if hit : bool then mret true
         else pat <- expand n g ;; o <- expand n (r_out dep) ;; mret (w_fnmatch pat o))
       false (r_globs self).

(** Before globbing: expand the rules in (after ...) and run those whose
    output the glob is meant to find. *)
Definition run_codegen_deps (r : Rule) : M (state W) unit :=
  mforeach (λ raw,
    tok <- expand n raw ;;
    match tok with
    | "@"%char :: dname =>
        d <- gets (λ s, rule_find s dname) ;;
        match d with
        | None => mret tt
        | Some d =>
            dep <- get_rule d ;;
            rec (r_name dep) ;;
            dep <- get_rule d ;;
            feeds <- dep_feeds_glob r dep ;;
            mwhen feeds (mforeach (run_inst_with_deps n) (r_inst_idx dep))
        end
    | _ => mret tt
    end) (r_extra_deps r).

(** The variables of one match. *)
Definition match_overlay (m : cstr) : KvStore :=
  let base := base_of m in
  let dir := match strrchr m "/" with Some (d, _) => trunc 1024 d | None => lit "." end in
  let '(basestem, ext) := splitext base 512 64 in
  let '(stem, _) := splitext m 512 64 in
  [(lit "MATCH", m); (lit "DIR", dir); (lit "BASE", base); (lit "EXT", ext);
   (lit "STEM", stem); (lit "BASESTEM", basestem); (lit "IDENT", to_ident basestem 512)].

(** The gate and the required file of one match, under its overlay. *)
Definition match_enabled (r : Rule) : M (state W) bool :=
  k <- gets st_kv ;;
  w <- gets st_world ;;
  ok <- match r_gate r with
        | Some g =>
            if gate_has_dyn g then mg <- budget (gate_materialize n k g) ;; mret (gate_eval k mg)
            else mret true
        | None => mret true
        end ;;
  if ok : bool then
    if decide (r_require_file r = []) then mret true
    else rf <- expand n (r_require_file r) ;; mret (file_exists w rf)
  else mret false.

Definition expand_match (ridx : nat) (r : Rule) (m : cstr) : M (state W) unit :=
  w <- gets st_world ;;
  claimed <- (if rule_is_literal r then mret false else
                if sl_has (r_skip r) (base_of m) then mret false
                else path_claimed_elsewhere n m ridx) ;;
  if sl_has (r_skip r) (base_of m) || claimed
     || (negb (bool_decide (r_require_marker r = []))
         && negb (file_contains w m (r_require_marker r)))
  then mret tt
  else
    ov <- new_overlay (match_overlay m) ;;
    set_local_overlay (Some ov) ;;
    ok <- match_enabled r ;;
    if ok : bool then
      idx <- inst_new ridx ;;
      setup_inst idx r ;;
      finalize_inst idx r ov ;;
      set_local_overlay None
    else set_local_overlay None.

Definition expand_single (ridx : nat) (r : Rule) : M (state W) unit :=
  idx <- inst_new ridx ;;
  setup_inst idx r ;;
  ov <- new_overlay [] ;;
  set_local_overlay (Some ov) ;;
  finalize_inst idx r ov ;;
  set_local_overlay None.
End calls.

Fixpoint expand_rule (n : nat) (name : cstr) : M (state W) unit :=
  match n with
  | 0 => mfuel
  | S n =>
      o <- gets (λ s, rule_find s name) ;;
      match o with
      | None => eprintf ("manifest: unknown rule '" ++ name ++ "'")
      | Some ridx =>
          r <- get_rule ridx ;;
          if r_expanded r then mret tt
          else
            upd_rule ridx (λ r, r <| r_expanded := true |>) ;;
            k <- gets st_kv ;;
            if match r_gate r with
               | Some g => negb (gate_has_dyn g) && negb (gate_eval k g)
               | None => false
               end
            then mret tt
            else
              w <- gets st_world ;;
              missing <-
                (if decide (r_require_file r = [] ∨ r_globs r ≠ []) then mret false
                 else rf <- expand n (r_require_file r) ;; mret (negb (file_exists w rf))) ;;
              if missing : bool then mret tt
              else if decide (r_globs r = []) then expand_single n (expand_rule n) ridx r
              else
                summary <- gets st_summary_mode ;;
                mwhen (negb summary) (run_codegen_deps n (expand_rule n) r) ;;
                ms <- glob_all n r ;;
                mforeach (expand_match n (expand_rule n) ridx r) ms
      end
  end.
End expand.
