(* ===== verification/Frame.v ===== *)
(** * What expanding a rule can change

    [Stable R] is the interface between the proofs about expand_rule and the
    invariants of the program: a relation that holds across each elementary
    update expand_rule performs holds across expand_rule, for every budget and
    every world.  Growth.v and Load.v give the relations. *)

From S2P Require Import Prelude CString Sexpr StrList Kv Gate World Registry Fs Exec.
From S2P Require Import Expand.

(** An update of an instance that keeps what ties it to the other instances. *)
Definition inst_static (f : Inst → Inst) : Prop := ∀ i,
  i_rule_idx (f i) = i_rule_idx i ∧ i_dep_inst (f i) = i_dep_inst i ∧
  (length (i_out i) < 1024 → length (i_out (f i)) < 1024).

Class Stable {W} (R : state W → state W → Prop) : Prop := {
  stable_pre :: PreOrder R;
  stable_world s w : R s (set st_world (λ _, w) s);
  stable_print s f : R s (set st_stdout f s);
  stable_stderr s f : R s (set st_stderr f s);
  stable_overlays s f : R s (set st_kv (with_overlays f) s);
  stable_local s o : R s (set st_kv (with_local_overlay o) s);
  stable_inst i f : inst_static f → preserves R (upd_inst i f);
  stable_expanded r : preserves R (upd_rule r (λ r, r <| r_expanded := true |>));
  stable_inst_new r : preserves R (inst_new r);
  stable_dep idx name : preserves R (push_dep_rule idx name)
}.

(** Reads change nothing. *)
Section reads.
Context {W : Type} (R : state W → state W → Prop) `{!PreOrder R}.

Lemma preserves_get_rule r : preserves R (get_rule r).
Proof using Type*. unfold get_rule. solve_pres. Qed.
Lemma preserves_get_inst r : preserves R (get_inst r).
Proof using Type*. unfold get_inst. solve_pres. Qed.
Lemma preserves_expand n x : preserves R (expand n x).
Proof using Type*. unfold expand. solve_pres. Qed.
Lemma preserves_estrlcpy k x : preserves R (estrlcpy k x).
Proof using Type*. unfold estrlcpy. solve_pres. Qed.
End reads.
#[export] Hint Resolve preserves_get_rule preserves_get_inst preserves_expand preserves_estrlcpy : pres.

Section stable.
Context {W : Type} `{!World W} (R : state W → state W → Prop) `{!Stable R}.

Lemma preserves_world w : preserves R (modify (set st_world (λ _, w))).
Proof using Type*. apply preserves_modify. intros s. apply stable_world. Qed.
Lemma preserves_printf o : preserves R (printf o).
Proof using Type*. apply preserves_modify. intros s. apply stable_print. Qed.
Lemma preserves_weprintf o : preserves R (weprintf o).
Proof using Type*. apply preserves_modify. intros s. apply stable_stderr. Qed.
Lemma preserves_set_local o : preserves R (set_local_overlay o).
Proof using Type*. apply preserves_modify. intros s. apply stable_local. Qed.
Lemma preserves_overlay_set i k v : preserves R (overlay_set i k v).
Proof using Type*. apply preserves_modify. intros s. apply stable_overlays. Qed.
Hint Resolve preserves_world preserves_printf preserves_weprintf preserves_set_local preserves_overlay_set
  stable_inst stable_expanded stable_inst_new stable_dep : pres.

Lemma preserves_upd_overlays f : preserves R (upd_kv (with_overlays f)).
Proof using Type*. apply preserves_modify. intros s. apply stable_overlays. Qed.
Hint Resolve preserves_upd_overlays : pres.
Lemma preserves_new_overlay ov : preserves R (new_overlay ov).
Proof using Type*. unfold new_overlay. solve_pres. Qed.
Hint Resolve preserves_new_overlay : pres.

Lemma preserves_mkdirp p : preserves R (mkdirp p).
Proof using Type*.
  unfold mkdirp. pres_step; [pres_step|]. intros w. destruct (w_stat_dir _ _) as [[]|]; [solve_pres..|].
  pres_step; [pres_step|]. intros tmp. set (p0 := match tmp with [] => _ | _ => _ end).
  destruct p0 as [w' []]; solve_pres.
Qed.
Hint Resolve preserves_mkdirp : pres.
Lemma preserves_mk_out_dir p : preserves R (mk_out_dir p).
Proof using Type*. unfold mk_out_dir. solve_pres. Qed.
Hint Resolve preserves_mk_out_dir : pres.

(** ** Running producers *)

Lemma preserves_spawn j : preserves R (spawn j).
Proof using Type*. unfold spawn. solve_pres. Qed.
Hint Resolve preserves_spawn : pres.
Lemma preserves_announce i : preserves R (announce_inst i).
Proof using Type*. unfold announce_inst. solve_pres. Qed.
Hint Resolve preserves_announce : pres.
Lemma preserves_run_inst_sync i : preserves R (run_inst_sync i).
Proof using Type*. unfold run_inst_sync. solve_pres. Qed.
Hint Resolve preserves_run_inst_sync : pres.
Lemma preserves_push_dep_rules i : preserves R (push_dep_rules i).
Proof using Type*. unfold push_dep_rules. solve_pres. Qed.
Hint Resolve preserves_push_dep_rules : pres.
Lemma preserves_run_inst_with_deps n i : preserves R (run_inst_with_deps n i).
Proof using Type*. revert i. induction n as [|n IH]; intros i; simpl; solve_pres. Qed.
Hint Resolve preserves_run_inst_with_deps : pres.

(** ** Expansion *)

Lemma preserves_recurse_dir fn out p :
  (∀ o x, preserves R (fn o x)) → preserves R (recurse_dir fn out p).
Proof using Type*. intros. unfold recurse_dir, entry_path. solve_pres. Qed.
Lemma preserves_rg_visit n suf out p : preserves R (rg_visit n suf out p).
Proof using Type*.
  revert out p. induction n as [|n IH]; intros out p; simpl; [solve_pres|].
  pres_step; [pres_step|]. intros w. destruct (w_isdir w p); [by apply preserves_recurse_dir|]. solve_pres.
Qed.
Lemma preserves_glob_expand n p out : preserves R (glob_expand n p out).
Proof using Type*.
  unfold glob_expand, recurse_glob. destruct (strstr _ _) as [[a b]|]; [|solve_pres].
  apply preserves_recurse_dir. intros. apply preserves_rg_visit.
Qed.
Hint Resolve preserves_glob_expand : pres.
Lemma preserves_glob_all n r : preserves R (glob_all n r).
Proof using Type*. unfold glob_all. solve_pres. Qed.
Lemma preserves_claimed n p i : preserves R (path_claimed_elsewhere n p i).
Proof using Type*. unfold path_claimed_elsewhere. solve_pres. Qed.
Lemma preserves_cmd_token n o x : preserves R (expand_cmd_token n o x).
Proof using Type*. unfold expand_cmd_token. solve_pres. Qed.
Hint Resolve preserves_glob_all preserves_claimed preserves_cmd_token : pres.

Lemma preserves_build_cmd n i r : preserves R (build_cmd n i r).
Proof using Type*. unfold build_cmd. solve_pres; apply stable_inst; by intros []. Qed.
Hint Resolve preserves_build_cmd : pres.

Section calls.
Context (n : nat) (rec : cstr → M (state W) unit) (Hrec : ∀ x, preserves R (rec x)).
Hint Resolve Hrec : pres.

Lemma preserves_materialize p : preserves R (materialize_if_missing n rec p).
Proof using Type*. unfold materialize_if_missing. solve_pres. Qed.
Hint Resolve preserves_materialize : pres.
Lemma preserves_add_path i b p : preserves R (add_path i b p).
Proof using Type*. apply stable_inst. destruct b; by intros []. Qed.
Hint Resolve preserves_add_path : pres.
Lemma preserves_resolve_input i raw b : preserves R (resolve_input_token n rec i raw b).
Proof using Type*.
  unfold resolve_input_token. solve_pres. all: apply stable_inst; by intros [].
Qed.
Hint Resolve preserves_resolve_input : pres.
Lemma preserves_setup i r : preserves R (setup_inst n i r).
Proof using Type*.
  unfold setup_inst. solve_pres; apply stable_inst; by intros [].
Qed.
Hint Resolve preserves_setup : pres.
Lemma preserves_finalize i r ov : preserves R (finalize_inst n rec i r ov).
Proof using Type*.
  unfold finalize_inst. solve_pres. apply stable_inst. intros []. split_and!; [done..|].
  intros _. simpl. unfold trunc. rewrite length_take. lia.
Qed.
Hint Resolve preserves_finalize : pres.
Lemma preserves_feeds a b : preserves R (dep_feeds_glob n a b).
Proof using Type*. unfold dep_feeds_glob. solve_pres. Qed.
Hint Resolve preserves_feeds : pres.
Lemma preserves_codegen r : preserves R (run_codegen_deps n rec r).
Proof using Type*. unfold run_codegen_deps. solve_pres. Qed.
Lemma preserves_match_enabled r : preserves R (match_enabled n r).
Proof using Type*. unfold match_enabled. solve_pres. Qed.
Hint Resolve preserves_codegen preserves_match_enabled : pres.
Lemma preserves_expand_match i r m : preserves R (expand_match n rec i r m).
Proof using Type*. unfold expand_match. solve_pres. Qed.
Lemma preserves_expand_single i r : preserves R (expand_single n rec i r).
Proof using Type*. unfold expand_single. solve_pres. Qed.
End calls.
Hint Resolve preserves_codegen preserves_expand_match preserves_expand_single : pres.

Lemma preserves_expand_rule n name : preserves R (expand_rule n name).
Proof using Type*. revert name. induction n as [|n IH]; intros name; simpl; solve_pres. Qed.
End stable.

(** The leaves that the components above share. *)
#[export] Hint Resolve preserves_world preserves_printf preserves_weprintf preserves_set_local preserves_overlay_set
  preserves_glob_all preserves_codegen preserves_expand_match preserves_expand_single
  preserves_materialize preserves_expand_rule preserves_push_dep_rules preserves_announce
  preserves_spawn stable_inst stable_expanded stable_inst_new stable_dep : pres.
