(* ===== verification/Growth.v ===== *)
(** * The frame of expand_rule and the consistency of the instance indices

    Two relations that are [Stable]: [grows] says that variables, locks, groups
    and the text of the rules are untouched while flags and instances only grow;
    [keeps_index] says that rules and instances keep pointing at each other.  The
    properties of expand_rule follow. *)

From S2P Require Import Prelude CString Sexpr StrList Kv Gate World Registry Fs Exec.
From S2P Require Import Expand Frame.

(** ** The frame *)

(** A rule without its flags of progress. *)
Definition rule_text (r : Rule) : Rule := r <| r_inst_idx := [] |> <| r_expanded := false |>.

Record rule_grows (r r' : Rule) : Prop := {
  rg_text : rule_text r' = rule_text r;
  rg_expanded : r_expanded r = true → r_expanded r' = true;
  rg_insts : r_inst_idx r `prefix_of` r_inst_idx r'
}.

#[export] Instance rule_grows_preorder : PreOrder rule_grows.
Proof.
  split; [by split|]. intros r1 r2 r3 [] []. split; [congruence | auto | by etransitivity].
Qed.

(** Variables, locks, maps and environment agree; overlays are scratch. *)
Record same_vars (k k' : KvState) : Prop := {
  sv_kv : kv k' = kv k;
  sv_locked : kv_locked k' = kv_locked k;
  sv_maps : maps k' = maps k;
  sv_env : environ k' = environ k
}.

#[export] Instance same_vars_preorder : PreOrder same_vars.
Proof. split; [by split|]. intros k1 k2 k3 [] []. split; congruence. Qed.

(** The instance still belongs to the same rule. *)
Definition same_rule (i i' : Inst) : Prop := i_rule_idx i' = i_rule_idx i.
#[export] Instance same_rule_refl : Reflexive same_rule.
Proof. done. Qed.

Record grows {W} (s s' : state W) : Prop := {
  gr_vars : same_vars (st_kv s) (st_kv s');
  gr_rules : Forall2 rule_grows (st_rules s) (st_rules s');
  gr_groups : st_groups s' = st_groups s;
  gr_metas : st_metas s' = st_metas s;
  gr_templates : st_templates s' = st_templates s;
  gr_files : st_files_read s' = st_files_read s;
  gr_visited : st_visited_groups s' = st_visited_groups s;
  gr_n : st_jobs_n s' = st_jobs_n s;
  gr_summary : st_summary_mode s' = st_summary_mode s;
  gr_failed : st_failed_any s' = st_failed_any s;
  gr_insts : Forall2 same_rule (st_insts s)
               (take (length (st_insts s)) (st_insts s'))
}.

Lemma Forall2_insert_r {A} (P : relation A) `{!Reflexive P} (l : list A) i x y :
  l !! i = Some x → P x y → Forall2 P l (<[i := y]> l).
Proof.
  intros Hi HP. apply Forall2_same_length_lookup. split; [by rewrite length_insert|].
  intros j a b Ha Hb. destruct (decide (i = j)) as [<-|].
  - rewrite list_lookup_insert_eq in Hb by (by eapply lookup_lt_Some). by simplify_eq.
  - rewrite list_lookup_insert_ne in Hb by done. by simplify_eq.
Qed.

Section grows.
Context {W : Type}.
Implicit Types s : state W.

Lemma insts_grow_refl (l : list Inst) :
  Forall2 same_rule l (take (length l) l).
Proof. rewrite firstn_all. apply Forall2_same_length_lookup. split; intros; by simplify_eq. Qed.

Lemma insts_grow_trans (l1 l2 l3 : list Inst) :
  Forall2 same_rule l1 (take (length l1) l2) →
  Forall2 same_rule l2 (take (length l2) l3) →
  Forall2 same_rule l1 (take (length l1) l3).
Proof.
  intros H12 H23. pose proof (Forall2_length _ _ _ H12) as Hl. rewrite length_take in Hl.
  pose proof (Forall2_take _ _ _ (length l1) H23) as H13. rewrite take_take, Nat.min_l in H13 by lia.
  eapply Forall2_trans; [|exact H12|exact H13]. unfold same_rule. intros a b c. congruence.
Qed.

#[export] Instance grows_preorder : PreOrder (@grows W).
Proof.
  split.
  - intros s. split; try done. apply insts_grow_refl.
  - intros s1 s2 s3 [] []. split; try congruence; try by etransitivity.
    by eapply insts_grow_trans.
Qed.

Lemma upd_inst_run i f s :
  upd_inst i f s = match st_insts s !! i with
                   | Some x => Ok tt (set st_insts (λ l, <[i := f x]> l) s)
                   | None => Ub
                   end.
Proof. unfold upd_inst, get_inst, mbind, gets. by destruct (st_insts s !! i). Qed.
Lemma upd_rule_run i f s :
  upd_rule i f s = match st_rules s !! i with
                   | Some x => Ok tt (set st_rules (λ l, <[i := f x]> l) s)
                   | None => Ub
                   end.
Proof. unfold upd_rule, get_rule, mbind, gets. by destruct (st_rules s !! i). Qed.

Lemma grows_rule i f : (∀ r, rule_grows r (f r)) → preserves (@grows W) (upd_rule i f).
Proof.
  intros Hf s. rewrite upd_rule_run. destruct (st_rules s !! i) as [r|] eqn:E; [|done].
  split; try done; [by eapply Forall2_insert_r | apply insts_grow_refl].
Qed.

Lemma grows_inst i f :
  (∀ x, i_rule_idx (f x) = i_rule_idx x) → preserves (@grows W) (upd_inst i f).
Proof.
  intros Hf s. rewrite upd_inst_run. destruct (st_insts s !! i) as [x|] eqn:E; [|done].
  split; try done. change (st_insts (set st_insts ?g s)) with (g (st_insts s)). cbv beta.
  rewrite <- (length_insert (st_insts s) i (f x)) at 1. rewrite firstn_all.
  apply (Forall2_insert_r same_rule _ _ x); [done | apply Hf].
Qed.

#[export] Instance grows_stable : Stable (@grows W).
Proof.
  split; [tc_solve|..]; intros.
  1-5: by split; try done; apply insts_grow_refl.
  - apply grows_inst. intros x. by destruct (H x).
  - by apply grows_rule.
  - unfold inst_new. solve_pres.
    + apply preserves_modify. intros s. split; try done.
      change (st_insts (set st_insts ?g s)) with (g (st_insts s)). cbv beta.
      rewrite take_app_length. rewrite <- (firstn_all (st_insts s)) at 2. apply insts_grow_refl.
    + apply grows_rule. intros r0. split; [done | done |]. by apply prefix_app_r.
  - unfold push_dep_rule. solve_pres. apply grows_inst. intros y. unfold dep_push. by case_decide.
Qed.
End grows.

(** C16: expanding a rule, for any world and budget and whether it returns or
    exits, changes no variable, lock, map, group, meta, template or option and no
    text of a rule; the expanded flags are only set, and instances are only
    added, never moved to another rule. *)
Theorem expand_rule_frame {W} `{!World W} (n : nat) (name : cstr) :
  preserves (@grows W) (expand_rule n name).
Proof. apply preserves_expand_rule. tc_solve. Qed.

(** ** Rules and instances point at each other *)

Record index_ok {W} (s : state W) : Prop := {
  ix_rule : ∀ r rule k, st_rules s !! r = Some rule → k ∈ r_inst_idx rule →
    ∃ inst, st_insts s !! k = Some inst ∧ i_rule_idx inst = r;
  ix_nodup : ∀ r rule, st_rules s !! r = Some rule → NoDup (r_inst_idx rule);
  ix_inst : ∀ k inst, st_insts s !! k = Some inst →
    ∃ rule, st_rules s !! i_rule_idx inst = Some rule ∧ k ∈ r_inst_idx rule;
  ix_deps : ∀ k inst, st_insts s !! k = Some inst →
    NoDup (i_dep_inst inst) ∧ Forall (λ d, d < length (st_insts s)) (i_dep_inst inst);
  ix_out : ∀ k inst, st_insts s !! k = Some inst → length (i_out inst) < 1024
}.

Definition keeps_index {W} (s s' : state W) : Prop :=
  length (st_insts s) ≤ length (st_insts s') ∧ (index_ok s → index_ok s').

Section index.
Context {W : Type}.
Implicit Types s : state W.

#[export] Instance keeps_index_preorder : PreOrder (@keeps_index W).
Proof. split; [by intros s; split|]. intros s1 s2 s3 [] []. split; [lia | auto]. Qed.

(** States with the same rules and instances. *)
Lemma keeps_index_eq s s' :
  st_rules s' = st_rules s → st_insts s' = st_insts s → keeps_index s s'.
Proof.
  intros Hr Hi. split; [by rewrite Hi|]. intros [H1 H2 H3 H4 H5].
  split; rewrite ?Hr, ?Hi; assumption.
Qed.

Lemma index_inst s i x y :
  st_insts s !! i = Some x → i_rule_idx y = i_rule_idx x →
  (index_ok s → NoDup (i_dep_inst y) ∧ Forall (λ d, d < length (st_insts s)) (i_dep_inst y)) →
  (length (i_out x) < 1024 → length (i_out y) < 1024) →
  keeps_index s (set st_insts (λ l, <[i := y]> l) s).
Proof.
  intros Hi Hr Hd Ho. split; [change (length (st_insts s) ≤ length (<[i := y]> (st_insts s))); by rewrite length_insert|].
  intros Hok. specialize (Hd Hok). destruct Hok as [H1 H2 H3 H4 H5].
  assert (∀ k inst, <[i := y]> (st_insts s) !! k = Some inst →
            k = i ∧ inst = y ∨ k ≠ i ∧ st_insts s !! k = Some inst) as Hl.
  { intros k inst. destruct (decide (i = k)) as [<-|].
    - rewrite list_lookup_insert_eq by (by eapply lookup_lt_Some). intros [= <-]. auto.
    - rewrite list_lookup_insert_ne by done. auto. }
  split; cbn.
  - intros r rule k Hrl Hk. destruct (H1 _ _ _ Hrl Hk) as (inst & Hinst & Hidx).
    destruct (decide (i = k)) as [<-|].
    + exists y. rewrite list_lookup_insert_eq by (by eapply lookup_lt_Some). simplify_eq. done.
    + exists inst. by rewrite list_lookup_insert_ne.
  - done.
  - intros k inst [[-> ->]|[_ Hk]]%Hl; [|by apply H3]. rewrite Hr. by apply H3.
  - intros k inst [[-> ->]|[_ Hk]]%Hl; rewrite length_insert; [done | by apply (H4 k)].
  - intros k inst [[-> ->]|[_ Hk]]%Hl; [apply Ho; by apply (H5 i) | by apply (H5 k)].
Qed.

Lemma index_rule s r rl rl' :
  st_rules s !! r = Some rl → r_inst_idx rl' = r_inst_idx rl →
  keeps_index s (set st_rules (λ l, <[r := rl']> l) s).
Proof.
  intros Hr Hi. split; [done|]. intros [H1 H2 H3 H4 H5].
  assert (∀ k rule, <[r := rl']> (st_rules s) !! k = Some rule →
            ∃ rule0, st_rules s !! k = Some rule0 ∧ r_inst_idx rule = r_inst_idx rule0) as Hl.
  { intros k rule. destruct (decide (r = k)) as [<-|].
    - rewrite list_lookup_insert_eq by (by eapply lookup_lt_Some). intros [= <-]. eauto.
    - rewrite list_lookup_insert_ne by done. eauto. }
  split; cbn; try done.
  - intros k rule i (rule0 & Hk & ->)%Hl. by apply H1.
  - intros k rule (rule0 & Hk & ->)%Hl. by eapply H2.
  - intros k inst Hk. destruct (H3 _ _ Hk) as (rule & Hrule & Hin).
    destruct (decide (r = i_rule_idx inst)) as [->|].
    + exists rl'. rewrite list_lookup_insert_eq by (by eapply lookup_lt_Some). simplify_eq.
      by rewrite Hi.
    + exists rule. by rewrite list_lookup_insert_ne.
Qed.

Lemma index_inst_new r : preserves (@keeps_index W) (inst_new r).
Proof.
  intros s. unfold inst_new. rewrite (bind_run _ _ s (length (st_insts s)) s) by done.
  set (k0 := length (st_insts s)). set (s1 := set st_insts (λ l, l ++ [inst0 r]) s).
  rewrite (bind_run _ _ s tt s1) by done. unfold mbind. rewrite upd_rule_run.
  change (st_rules s1) with (st_rules s). destruct (st_rules s !! r) as [rl|] eqn:Hr; [|done].
  cbn. split; [cbn; rewrite length_app; lia|]. intros [H1 H2 H3 H4 H5].
  set (rl' := set r_inst_idx (λ l, l ++ [k0]) rl).
  assert (∀ k inst, (st_insts s ++ [inst0 r]) !! k = Some inst →
            k = k0 ∧ inst = inst0 r ∨ k < k0 ∧ st_insts s !! k = Some inst) as Hl.
  { intros k inst [[? ?]|[-> ->]]%lookup_snoc_Some; auto. }
  assert (k0 ∉ r_inst_idx rl) as Hfresh.
  { intros Hk. destruct (H1 _ _ _ Hr Hk) as (inst & Hinst%lookup_lt_Some & _). unfold k0 in Hinst. lia. }
  assert (∀ j rule, <[r := rl']> (st_rules s) !! j = Some rule →
            j = r ∧ rule = rl' ∨ j ≠ r ∧ st_rules s !! j = Some rule) as Hrl.
  { intros j rule. destruct (decide (r = j)) as [<-|].
    - rewrite list_lookup_insert_eq by (by eapply lookup_lt_Some). intros [= <-]. auto.
    - rewrite list_lookup_insert_ne by done. auto. }
  split; cbn.
  - intros j rule k Hj Hk. destruct (Hrl _ _ Hj) as [[-> ->]|[_ Hj']].
    + apply elem_of_app in Hk as [Hk| ->%list_elem_of_singleton].
      * destruct (H1 _ _ _ Hr Hk) as (inst & Hinst & ?). exists inst.
        by rewrite lookup_app_l by (by eapply lookup_lt_Some).
      * exists (inst0 r). by rewrite list_lookup_middle.
    + destruct (H1 _ _ _ Hj' Hk) as (inst & Hinst & ?). exists inst.
      by rewrite lookup_app_l by (by eapply lookup_lt_Some).
  - intros j rule [[-> ->]|[_ Hj]]%Hrl; [|by eapply H2]. cbn.
    apply NoDup_app. split_and!; [by eapply H2 | set_solver | apply NoDup_singleton].
  - intros k inst [[-> ->]|[_ Hk]]%Hl.
    + exists rl'. cbn. rewrite list_lookup_insert_eq by (by eapply lookup_lt_Some). set_solver.
    + destruct (H3 _ _ Hk) as (rule & Hrule & Hin). destruct (decide (r = i_rule_idx inst)) as [->|].
      * exists rl'. rewrite list_lookup_insert_eq by (by eapply lookup_lt_Some). simplify_eq. set_solver.
      * exists rule. by rewrite list_lookup_insert_ne.
  - intros k inst [[-> ->]|[_ Hk]]%Hl; [split; constructor|].
    destruct (H4 _ _ Hk) as [? Hf]. split; [done|]. eapply Forall_impl; [exact Hf|].
    intros d Hd. rewrite length_app. simpl in *. lia.
  - intros k inst [[-> ->]|[_ Hk]]%Hl; [simpl; lia | by eapply H5].
Qed.

Lemma index_dep_push s i x k :
  st_insts s !! i = Some x → (index_ok s → k < length (st_insts s)) →
  keeps_index s (set st_insts (λ l, <[i := dep_push k x]> l) s).
Proof.
  intros Hi Hk. apply (index_inst s i x); [done | unfold dep_push; by case_decide | | unfold dep_push; by case_decide].
  intros Hok. destruct (ix_deps s Hok _ _ Hi) as [Hnd Hf]. unfold dep_push. case_decide as Hin; [done|].
  cbn. split.
  - apply NoDup_app. split_and!; [done | set_solver | apply NoDup_singleton].
  - apply Forall_app. split; [done|]. apply Forall_singleton. by apply Hk.
Qed.

Lemma index_dep_pushes (P : Prop) idx ks s :
  (P → index_ok s ∧ Forall (λ k, k < length (st_insts s)) ks) →
  match mforeach (λ k, upd_inst idx (dep_push k)) ks s with
  | Ok _ s' | Die _ s' => length (st_insts s) ≤ length (st_insts s') ∧ (P → index_ok s')
  | Ub | Fuel => True
  end.
Proof.
  revert s. induction ks as [|k ks IH]; intros s HP; [split; [done | apply HP]|].
  cbn [mforeach]. unfold mbind at 1. rewrite upd_inst_run.
  destruct (st_insts s !! idx) as [x|] eqn:E; [|done].
  set (s1 := set st_insts _ s).
  assert (P → index_ok s1) as HP1.
  { intros p. destruct (HP p) as [Hok [Hk _]%Forall_cons]. apply (index_dep_push s idx x k); auto. }
  assert (length (st_insts s1) = length (st_insts s)) as Hl by apply length_insert.
  specialize (IH s1). destruct (mforeach _ ks s1); try done.
  all: destruct IH as [Hle Hok']; [|split; [by rewrite <- Hl | done]].
  all: intros p; destruct (HP p) as [_ [_ Hks]%Forall_cons]; split; [by apply HP1 | by rewrite Hl].
Qed.

Lemma index_push_dep_rule idx name : preserves (@keeps_index W) (push_dep_rule idx name).
Proof.
  intros s. unfold push_dep_rule. rewrite (bind_run _ _ s (rule_find s name) s) by done.
  destruct (rule_find s name) as [d|]; [|by split]. unfold mbind at 1, get_rule, mbind, gets.
  destruct (st_rules s !! d) as [dep|] eqn:E; [|done].
  apply (index_dep_pushes (index_ok s)). intros Hok. split; [done|]. apply Forall_forall. intros k Hk.
  destruct (ix_rule s Hok _ _ _ E Hk) as (inst & Hinst & _). by eapply lookup_lt_Some.
Qed.

#[export] Instance keeps_index_stable : Stable (@keeps_index W).
Proof.
  split; [tc_solve|..]; intros.
  1-5: by apply keeps_index_eq.
  - intros s. rewrite upd_inst_run. destruct (st_insts s !! i) as [x|] eqn:E; [|done].
    destruct (H x) as (H1 & H2 & H3). apply (index_inst s i x); [done | done | | done].
    intros Hok. rewrite H2. by apply (ix_deps s Hok i).
  - intros s. rewrite upd_rule_run. destruct (st_rules s !! r) as [x|] eqn:E; [|done].
    by apply (index_rule s r x).
  - apply index_inst_new.
  - apply index_push_dep_rule.
Qed.
End index.

(** C17: rules and instances stay consistent: if every instance belongs to a
    rule that lists it, every listed index is an instance of that rule, no list
    has duplicates and all dependency indices are in range, then this still holds
    after a rule is expanded and its producers have run. *)
Theorem expand_rule_index_ok {W} `{!World W} (n : nat) (name : cstr) (s : state W) :
  index_ok s →
  match expand_rule n name s with
  | Ok _ s' | Die _ s' => index_ok s'
  | Ub | Fuel => True
  end.
Proof.
  intros Hok. pose proof (preserves_expand_rule keeps_index n name s) as H.
  destruct (expand_rule n name s); try done; by apply H.
Qed.

(** ** Guards and idempotence *)

Lemma rule_grows_name r r' : rule_grows r r' → r_name r' = r_name r.
Proof. intros [Ht _ _]. by apply (f_equal r_name) in Ht. Qed.

Lemma find_named_grows {W} (s s' : state W) name :
  grows s s' → rule_find s' name = rule_find s name.
Proof.
  intros Hg. unfold rule_find. pose proof (gr_rules _ _ Hg) as H.
  induction H as [|r r' l l' Hr _ IH]; simpl; [done|].
  rewrite (rule_grows_name _ _ Hr). case_decide; [done|]. by rewrite IH.
Qed.

Lemma find_named_Some {A} (nm : A → cstr) name l i :
  find_named nm name l = Some i → ∃ x, l !! i = Some x ∧ nm x = name.
Proof.
  revert i. induction l as [|x l IH]; intros i; simpl; [done|].
  case_decide; [intros [= <-]; by exists x|]. intros (j & Hj & ->)%fmap_Some. by apply IH.
Qed.

Lemma find_named_None {A} (nm : A → cstr) name l : find_named nm name l = None ↔ name ∉ map nm l.
Proof.
  induction l as [|x l IH]; simpl; [set_solver|]. case_decide as H.
  - split; [done | set_solver].
  - rewrite fmap_None, IH. set_solver.
Qed.

(** The expanded flag is set by the call and never cleared. *)
Lemma expand_rule_sets {W} `{!World W} n name (s s' : state W) :
  expand_rule n name s = Ok tt s' →
  ∃ ridx r, rule_find s' name = Some ridx ∧ st_rules s' !! ridx = Some r ∧ r_expanded r = true.
Proof.
  destruct n as [|n]; [done|]. intros E.
  pose proof (preserves_expand_rule grows (S n) name s) as Hg. rewrite E in Hg.
  rewrite (find_named_grows _ _ _ Hg). cbn [expand_rule] in E.
  rewrite (bind_run _ _ s (rule_find s name) s) in E by done.
  destruct (rule_find s name) as [ridx|] eqn:Hf; [|done].
  destruct (find_named_Some _ _ _ _ Hf) as (r & Hr & _).
  assert (∀ s1, st_rules s1 !! ridx = Some (r <| r_expanded := true |>) → grows s1 s' →
            ∃ ridx' r', Some ridx = Some ridx' ∧ st_rules s' !! ridx' = Some r' ∧ r_expanded r' = true) as Hfin.
  { intros s1 Hs1 Hgr. destruct (Forall2_lookup_l _ _ _ _ _ (gr_rules _ _ Hgr) Hs1) as (r' & Hr' & Hg').
    exists ridx, r'. split_and!; [done..|]. by apply (rg_expanded _ _ Hg'). }
  rewrite (bind_run _ _ s r s) in E by (unfold get_rule, mbind, gets; by rewrite Hr).
  destruct (r_expanded r) eqn:Hex.
  { injection E as <-. exists ridx, r. done. }
  apply bind_Ok in E as ([] & s1 & E1 & E2). rewrite upd_rule_run, Hr in E1. injection E1 as <-.
  apply (Hfin (set st_rules (λ l, <[ridx := r <| r_expanded := true |>]> l) s)).
  { cbn. by rewrite list_lookup_insert_eq by (by eapply lookup_lt_Some). }
  match type of E2 with ?m ?st = _ => assert (preserves grows m) as Hp by (solve_pres; eauto with pres typeclass_instances) end.
  specialize (Hp (set st_rules (λ l, <[ridx := r <| r_expanded := true |>]> l) s)). by rewrite E2 in Hp.
Qed.

(** expansion happens once: after a call that returned, every further call
    on the same rule, with any budget, returns at once and changes nothing. *)
Theorem expand_rule_idempotent {W} `{!World W} (n m : nat) (name : cstr) (s s' : state W) :
  expand_rule n name s = Ok tt s' → expand_rule (S m) name s' = Ok tt s'.
Proof.
  intros (ridx & r & Hf & Hr & Hex)%expand_rule_sets. cbn [expand_rule].
  rewrite (bind_run _ _ s' (Some ridx) s') by (by rewrite <- Hf).
  rewrite (bind_run _ _ s' r s') by (unfold get_rule, mbind, gets; by rewrite Hr). by rewrite Hex.
Qed.

(** a rule whose gate holds no dollar reference and is false is switched
    off: the call only sets its expanded flag, so no instance, producer or
    dependency of it comes into being; and an unknown name is an error. *)
Theorem expand_rule_gated {W} `{!World W} (n : nat) (name : cstr) (s : state W) :
  match rule_find s name with
  | None => expand_rule (S n) name s = Die ("manifest: unknown rule '" ++ name ++ "'") s
  | Some ridx =>
      ∀ r g, st_rules s !! ridx = Some r → r_expanded r = false → r_gate r = Some g →
        gate_has_dyn g = false → gate_eval (st_kv s) g = false →
        expand_rule (S n) name s
        = Ok tt (set st_rules (λ l, <[ridx := r <| r_expanded := true |>]> l) s)
  end.
Proof.
  destruct (rule_find s name) as [ridx|] eqn:Hf.
  - intros r g Hr Hex Hg Hdyn Hev. cbn [expand_rule].
    rewrite (bind_run _ _ s (Some ridx) s) by (by rewrite <- Hf).
    rewrite (bind_run _ _ s r s) by (unfold get_rule, mbind, gets; by rewrite Hr). rewrite Hex.
    rewrite (bind_run _ _ s tt (set st_rules (λ l, <[ridx := r <| r_expanded := true |>]> l) s))
      by (rewrite upd_rule_run; by rewrite Hr).
    erewrite bind_run by reflexivity. rewrite Hg, Hdyn.
    change (st_kv (set st_rules ?f s)) with (st_kv s). by rewrite Hev.
  - cbn [expand_rule]. rewrite (bind_run _ _ s None s) by (by rewrite <- Hf). done.
Qed.

(** A rule that compiles every C file, one that is switched off, and two files. *)
Definition demo_rules : state sworld :=
  MkState (MkKv [(lit "CC", lit "touch"); (lit "WITH_X", lit "0")] [] None [] [] [])
    [rule0 "obj" <| r_globs := lits ["*.c"] |> <| r_out := lit "$(STEM).o" |>
                 <| r_in := lits ["$(MATCH)"] |> <| r_cmd := MkCmd (lits ["$(CC)"; "$(OUT)"]) false [] |>;
     rule0 "x" <| r_gate := Some (G_VAR "WITH_X") |> <| r_out := lit "x" |>]
    [] [] [] [] [] [] 1 false false [] []
    (sworld_of [(lit "a.c", lit "int a;"); (lit "b.c", lit "int b;")]).

Lemma demo_rules_index : index_ok demo_rules.
Proof.
  split.
  - intros [|[|r]] rule k; cbn; intros; simplify_eq; cbn in *; set_solver.
  - intros [|[|r]] rule; cbn; intros; simplify_eq; constructor.
  - intros k inst; cbn. by rewrite lookup_nil.
  - intros k inst; cbn. by rewrite lookup_nil.
  - intros k inst; cbn. by rewrite lookup_nil.
Qed.

Example demo_expand :
  match expand_rule 9 "obj" demo_rules with
  | Ok _ s' => map i_out (st_insts s') = lits ["a.o"; "b.o"] ∧
               map (λ i, argv (i_cmd i)) (st_insts s') = [lits ["touch"; "a.o"]; lits ["touch"; "b.o"]]
  | _ => False
  end.
Proof. vm_compute. done. Qed.

Lemma expand_rule_index_ok_witness :
  match expand_rule 9 "obj" demo_rules with Ok _ s' => index_ok s' | _ => False end.
Proof.
  pose proof (expand_rule_index_ok 9 "obj" demo_rules demo_rules_index) as H.
  destruct (expand_rule 9 "obj" demo_rules) as [u s'| | |] eqn:E; [exact H | vm_compute in E; discriminate E ..].
Defined.

Lemma expand_rule_idempotent_witness :
  match expand_rule 9 "obj" demo_rules with
  | Ok _ s' => expand_rule 1 "obj" s' = Ok tt s'
  | _ => False
  end.
Proof.
  destruct (expand_rule 9 "obj" demo_rules) as [[] s'| | |] eqn:E; [| vm_compute in E; discriminate E ..].
  exact (expand_rule_idempotent 9 0 "obj" demo_rules s' E).
Defined.

Lemma expand_rule_gated_witness :
  expand_rule 1 "x" demo_rules
  = Ok tt (set st_rules (λ l, <[1 := rule0 "x" <| r_gate := Some (G_VAR "WITH_X") |>
                                    <| r_out := lit "x" |> <| r_expanded := true |>]> l) demo_rules).
Proof.
  pose proof (expand_rule_gated 0 "x" demo_rules) as H.
  change (rule_find demo_rules "x") with (Some 1) in H.
  exact (H _ (G_VAR "WITH_X") eq_refl eq_refl eq_refl eq_refl eq_refl).
Defined.
