(* ===== verification/Parse.v ===== *)
(** * The manifest language: src/cmd/dev/ninqu/parse.c

    One definition per form of the manifest, in the order of the C file.  A form
    is an [SNode]; a rule under construction is its index in the registry.  The
    recursion of (use ...) through a template body and of (import ...) through a
    file is bounded by the budget of [dispatch_top_form]; the forms take that
    function as an argument. *)

From S2P Require Import Prelude CString Sexpr StrList Kv Gate World Registry Fs Exec.
From S2P Require Import Expand.

(** ** Operands *)

(** The children of a node: an atom has none. *)
Definition kids_of (node : SNode) : list SNode :=
  match node with S_LIST kids _ => kids | S_ATOM _ _ => [] end.
Definition line_of (node : SNode) : Z :=
  match node with S_LIST _ l | S_ATOM _ l => l end.

Definition first_atom {S} (node : SNode) (msg : cstr) : M S cstr :=
  match kids_of node with
  | _ :: S_ATOM a _ :: _ => mret a
  | _ => eprintf ("manifest: " ++ msg)
  end.

Definition sole_atom {S} (node : SNode) (msg : cstr) : M S cstr :=
  match kids_of node with
  | [_; S_ATOM a _] => mret a
  | _ => eprintf ("manifest: " ++ msg)
  end.

(** The operand when it must be an atom. *)
Definition atom_or {S} (node : SNode) (msg : cstr) : M S cstr :=
  match node with S_ATOM a _ => mret a | S_LIST _ _ => eprintf ("manifest: " ++ msg) end.

(** All operands after the head, which must be atoms. *)
Definition atoms {S} (node : SNode) (msg : cstr) : M S StrList :=
  mmap (λ k, atom_or k msg) (tl (kids_of node)).

(** The two lists a dependency operand can be pushed on. *)
Inductive dep_list := DEP_IN | DEP_EXTRA.

Definition deps_at (d : dep_list) (r : Rule) : StrList :=
  match d with DEP_IN => r_in r | DEP_EXTRA => r_extra_deps r end.

(** ** Command clauses *)

Definition parse_exec_clause {S} (clause : SNode) : M S Cmd :=
  av <- atoms clause "(exec ...) operands must be atoms" ;;
  if decide (av = []) then eprintf "manifest: (exec ...) needs one operand"
  else mret (MkCmd av false []).

Definition parse_shell_clause {S} (clause : SNode) : M S Cmd :=
  a <- sole_atom clause "(shell ...) takes one string" ;;
  mret (MkCmd [lit "sh"; lit "-c"; a] false []).

Definition parse_pipe_stage {S} (stage : SNode) : M S StrList :=
  match s_head stage with
  | None => eprintf "manifest: (pipe ...) stage must be a form"
  | Some h =>
      av <- (if decide (h = "exec") then atoms stage "(exec ...) operands must be atoms"
             else if decide (h = "shell") then
               a <- sole_atom stage "(shell ...) takes one string" ;;
               mret [lit "sh"; lit "-c"; a]
             else eprintf ("manifest: (pipe) stage must be exec or shell, got '" ++ h ++ "'")) ;;
      if decide (av = []) then eprintf "manifest: (pipe) stage cannot be empty" else mret av
  end.

(** The allocation of [stages] when stage [nstages] is stored: 8 slots for the
    first, twice the count from the eighth on. *)
Definition stages_alloc (alloc nstages : nat) : nat :=
  if decide (nstages = 0) then 8
  else if decide (8 ≤ nstages) then nstages * 2
  else alloc.

Definition parse_pipe_clause {S} (clause : SNode) : M S Cmd :=
  sts <- mmap parse_pipe_stage (tl (kids_of clause)) ;;
  if decide (length sts < 2) then eprintf "manifest: (pipe ...) needs two stages"
  else mret (MkCmd (pipe_argv sts) true sts).

Section parse.
Context {W : Type} `{!World W}.

(** ** Rules *)

Definition push_dep (ridx : nat) (d : dep_list) (x : cstr) : M (state W) unit :=
  upd_rule ridx
    (match d with
     | DEP_IN => set r_in (λ l, sl_push l x)
     | DEP_EXTRA => set r_extra_deps (λ l, sl_push l x)
     end).

(** An atom, a (rule NAME) kept as @NAME in a 256-byte buffer, or an
    (after x...) whose operands are order-only. *)
Fixpoint parse_dep_item (ridx : nat) (hard ord : dep_list) (allow_after : bool) (item : SNode)
    : M (state W) unit :=
  match item with
  | S_ATOM a _ => push_dep ridx hard a
  | S_LIST kids _ =>
      match s_head item with
      | None => eprintf "manifest: empty () in dep"
      | Some h =>
          if decide (h = "rule") then
            a <- sole_atom item "(rule NAME) takes one name" ;;
            push_dep ridx hard (trunc 256 ("@"%char :: a))
          else if decide (h = "after") then
            if negb allow_after then eprintf "manifest: (after ...) not allowed here"
            else match kids with
                 | _ :: operands => mforeach (parse_dep_item ridx ord ord false) operands
                 | [] => mret tt
                 end
          else eprintf ("manifest: unknown dep operand '" ++ h ++ "'")
      end
  end.

Definition parse_dep_clause (ridx : nat) (hard ord : dep_list) (clause : SNode)
    : M (state W) unit :=
  mforeach (parse_dep_item ridx hard ord true) (tl (kids_of clause)).

(** A clause that stores its sole operand in a field of [sz] bytes. *)
Definition store_atom (ridx : nat) (sz : nat) (clause : SNode) (msg : cstr)
    (f : cstr → Rule → Rule) : M (state W) unit :=
  a <- sole_atom clause msg ;; upd_rule ridx (f (trunc sz a)).

Definition apply_member_clause (ridx : nat) (name : cstr) (clause : SNode) : M (state W) unit :=
  match kids_of clause with
  | [_; S_ATOM g _] => upd_rule ridx (λ r, r <| r_member_of := trunc 128 g |>)
  | [_; S_ATOM g _; al] =>
      upd_rule ridx (λ r, r <| r_member_of := trunc 128 g |>) ;;
      a <- atom_or al ("rule " ++ name ++ ": (member GROUP ALIAS) alias must be an atom") ;;
      upd_rule ridx (λ r, r <| r_member_alias := trunc 128 a |>)
  | _ => eprintf ("manifest: rule " ++ name ++ ": (member GROUP [ALIAS]) needs a group name")
  end.

(** The condition of an (if ...), which may not be per-instance. *)
Definition if_condition (name : cstr) (clause : SNode) : M (state W) bool :=
  match kids_of clause with
  | _ :: c :: _ =>
      cond <- gate_parse c ;;
      if gate_has_dyn cond then
        eprintf ("manifest: rule " ++ name ++ ": (if ...) condition cannot reference $(...), "
                 ++ "only (gate ...) on the whole rule supports a per-instance condition")
      else k <- gets st_kv ;; mret (gate_eval k cond)
  | _ => eprintf ("manifest: rule " ++ name ++ ": (if EXPR clause...) needs a condition")
  end.

(** Every clause but (if ...). *)
Definition apply_simple_clause (ridx : nat) (name h : cstr) (clause : SNode)
    : M (state W) unit :=
  if decide (h = "glob") then
    l <- atoms clause "(glob ...) operands must be atoms" ;; upd_rule ridx (set r_globs (λ x, x ++ l))
  else if decide (h = "skip") then
    l <- atoms clause "(skip ...) operands must be atoms" ;; upd_rule ridx (set r_skip (λ x, x ++ l))
  else if decide (h = "mark") then
    store_atom ridx 1024 clause "(mark STR) takes one string" (λ a r, r <| r_require_marker := a |>)
  else if decide (h = "req") then
    store_atom ridx 1024 clause "(req PATH) takes one path" (λ a r, r <| r_require_file := a |>)
  else if decide (h = "gate") then
    match kids_of clause with
    | [_; e] => g <- gate_parse e ;; upd_rule ridx (λ r, r <| r_gate := Some g |>)
    | _ => eprintf "manifest: (gate EXPR) takes one expression"
    end
  else if decide (h = "dep") then parse_dep_clause ridx DEP_IN DEP_EXTRA clause
  else if decide (h = "after") then parse_dep_clause ridx DEP_EXTRA DEP_EXTRA clause
  else if decide (h = "out") then
    store_atom ridx 1024 clause "(out TEMPLATE) takes one template" (λ a r, r <| r_out := a |>)
  else if decide (h = "exec") then
    c <- parse_exec_clause clause ;; upd_rule ridx (λ r, r <| r_cmd := c |>)
  else if decide (h = "shell") then
    c <- parse_shell_clause clause ;; upd_rule ridx (λ r, r <| r_cmd := c |>)
  else if decide (h = "pipe") then
    c <- parse_pipe_clause clause ;; upd_rule ridx (λ r, r <| r_cmd := c |>)
  else if decide (h = "dir") then
    store_atom ridx 1024 clause "(dir PATH) takes one path" (λ a r, r <| r_workdir := a |>)
  else if decide (h = "phony") then upd_rule ridx (λ r, r <| r_phony := true |>)
  else if decide (h = "redirect") then upd_rule ridx (λ r, r <| r_redirect := true |>)
  else if decide (h = "produces") then
    store_atom ridx 128 clause "(produces NAME) takes one name" (λ a r, r <| r_produces := a |>)
  else if decide (h = "description") then
    store_atom ridx 256 clause "(description STR) takes one string"
      (λ a r, r <| r_description := a |>)
  else if decide (h = "group") then
    store_atom ridx 128 clause "(group NAME) takes one name" (λ a r, r <| r_group_name := a |>)
  else if decide (h = "member") then apply_member_clause ridx name clause
  else if decide (h = "feature") then
    a <- sole_atom clause "(feature NAME) takes one name" ;;
    upd_rule ridx (set r_features (λ l, sl_push l a))
  else eprintf ("manifest: rule " ++ name ++ ": unknown clause '" ++ h ++ "'").

(** apply_rule_clause with apply_if_clause, which calls it on the clauses of
    the (if ...) through process_rule_body. *)
Fixpoint apply_rule_clause (ridx : nat) (name : cstr) (clause : SNode) : M (state W) unit :=
  match s_head clause with
  | None => eprintf ("manifest: rule " ++ name ++ ": empty () clause")
  | Some h =>
      if decide (h = "if") then
        cond <- if_condition name clause ;;
        match clause with
        | S_LIST (_ :: _ :: body) _ => mwhen cond (mforeach (apply_rule_clause ridx name) body)
        | _ => mret tt
        end
      else apply_simple_clause ridx name h clause
  end.

(** The clauses of [form] from index [start] on. *)
Definition process_rule_body (ridx : nat) (name : cstr) (form : SNode) (start : nat)
    : M (state W) unit :=
  mforeach (apply_rule_clause ridx name) (drop start (kids_of form)).

Definition parse_rule (form : SNode) : M (state W) unit :=
  name <- first_atom form "(rule NAME ...) needs a name" ;;
  r <- rule_new name ;;
  process_rule_body r name form 2.

(** ** Groups and metas *)

Definition group_ref (name : cstr) (ref : SNode) : M (state W) cstr :=
  match ref with
  | S_ATOM a _ => mret a
  | S_LIST kids _ =>
      match s_head ref with
      | None => eprintf ("manifest: group " ++ name ++ ": empty () ref")
      | Some h =>
          let unknown := eprintf ("manifest: group " ++ name ++ ": unknown ref '" ++ h ++ "'") in
          if decide (h = "rule" ∨ h = "group") then
            match kids with [_; S_ATOM a _] => mret a | _ => unknown end
          else unknown
      end
  end.

Definition parse_group (form : SNode) : M (state W) unit :=
  name <- first_atom form "(group NAME ...) needs a name" ;;
  g <- group_new name ;;
  mforeach (λ ref, a <- group_ref name ref ;;
              modify (set st_groups (alter (set g_refs (λ l, sl_push l a)) g)))
    (drop 2 (kids_of form)).

Definition meta_clause (name : cstr) (clause : SNode) : M (state W) (cstr * cstr) :=
  if decide (s_head clause = Some (lit "set")) then
    match kids_of clause with
    | [_; S_ATOM k _; S_ATOM v _] => mret (k, v)
    | _ => eprintf ("manifest: meta " ++ name ++ ": (set NAME VAL) needs a name and an atom value")
    end
  else eprintf ("manifest: meta " ++ name ++ ": only (set NAME VAL) clauses are allowed").

Definition parse_meta (form : SNode) : M (state W) unit :=
  name <- first_atom form "(meta NAME ...) needs a name" ;;
  m <- meta_new name ;;
  mforeach (λ clause, p <- meta_clause name clause ;;
              modify (set st_metas (alter (λ x,
                MkMeta (m_name x) (sl_push (m_keys x) (fst p)) (sl_push (m_vals x) (snd p))) m)))
    (drop 2 (kids_of form)).

Definition meta_apply (n : nat) (m : Meta) : M (state W) unit :=
  mforeach (λ '(key, val), exp <- expand n val ;; upd_kv (kv_set_manifest key exp))
    (zip (m_keys m) (m_vals m)).

(** ** Variables *)

Definition capture_cmd (cap : SNode) : M (state W) Cmd :=
  match kids_of cap with
  | [_; c] =>
      match s_head c with
      | None => eprintf "manifest: capture operand must be a form"
      | Some h =>
          if decide (h = "exec") then parse_exec_clause c
          else if decide (h = "shell") then parse_shell_clause c
          else eprintf "manifest: capture operand must be exec or shell"
      end
  | _ => eprintf "manifest: (capture (exec ...)) takes one form"
  end.

Definition parse_set (form : SNode) : M (state W) unit :=
  name <- first_atom form "(set NAME VAL) needs a name" ;;
  match kids_of form with
  | [_; _; S_ATOM v _] => upd_kv (kv_set_manifest name v)
  | [_; _; cap] =>
      if decide (s_head cap = Some (lit "capture")) then
        cmd <- capture_cmd cap ;;
        out <- capture_argv (argv cmd) ;;
        upd_kv (kv_set_manifest name (trunc bufsize out))
      else eprintf "manifest: (set NAME VAL): value must be atom or (capture ...)"
  | _ => eprintf "manifest: (set NAME VAL) takes one value"
  end.

(** One token of (list) or (append) on the 8192-byte buffer: the separator,
    then [len += strlcpy(buf + len, exp, sizeof buf - len)].  [len] counts the
    untruncated lengths, so it can pass the end of the buffer. *)
Definition list_token (b : cstr * nat) (exp : cstr) : M (state W) (cstr * nat) :=
  let '(buf, len) :=
    if decide (0 < snd b ∧ snd b + 1 < bufsize) then (fst b ++ " ", snd b + 1) else b in
  if decide (bufsize < len) then mub
  else if decide (len = bufsize) then mret (buf, len + length exp)
  else mret (buf ++ trunc (bufsize - len) exp, len + length exp).

Definition parse_list_or_append (n : nat) (form : SNode) (append : bool) : M (state W) unit :=
  let head := default [] (s_head form) in
  name <- first_atom form (trunc 64 ("(" ++ head ++ " NAME tok...) needs a name")) ;;
  k <- gets st_kv ;;
  let b0 := if append then
              match kv_get k name with
              | Some prev => (trunc bufsize prev, length prev)
              | None => ([], 0)
              end
            else ([], 0) in
  b <- mfold (λ b tok,
         a <- atom_or tok ("(" ++ head ++ " NAME tok...): tokens must be atoms") ;;
         exp <- expand n a ;;
         list_token b exp) b0 (drop 2 (kids_of form)) ;;
  upd_kv (kv_set_manifest name (fst b)).

Definition map_entry (name : cstr) (pair : SNode) : M (state W) (cstr * cstr) :=
  match kids_of pair with
  | [S_ATOM k _; S_ATOM v _] => mret (k, v)
  | _ => eprintf ("manifest: (map " ++ name ++ " ...) entries must be (key value)")
  end.

Definition parse_map (form : SNode) : M (state W) unit :=
  name <- first_atom form "(map NAME (k v)...) needs a name" ;;
  found <- gets (λ s, map_find (st_kv s) name) ;;
  m <- match found with
       | Some m => mret m
       | None =>
           m <- gets (λ s, snd (map_new name (st_kv s))) ;;
           upd_kv (λ k, fst (map_new name k)) ;;
           mret m
       end ;;
  mforeach (λ pair, p <- map_entry name pair ;; upd_kv (map_set m (fst p) (snd p)))
    (drop 2 (kids_of form)).

(** ** Files of variables *)

(** [fgets(line, 8192, fp)]: up to 8191 bytes, through a newline. *)
Fixpoint fgets_line (room : nat) (s : cstr) : cstr * cstr :=
  match room, s with
  | S room, c :: s' =>
      if decide (c = NL) then ([c], s')
      else let '(a, b) := fgets_line room s' in (c :: a, b)
  | _, _ => ([], s)
  end.

Fixpoint fgets_lines (fuel : nat) (s : cstr) : list cstr :=
  match fuel, s with
  | S f, _ :: _ => let '(a, b) := fgets_line (bufsize - 1) s in cstr_at a :: fgets_lines f b
  | _, _ => []
  end.

Fixpoint skip_space (s : cstr) : cstr :=
  match s with c :: s' => if isspace c then skip_space s' else s | [] => [] end.
Definition trim_end (s : cstr) : cstr := rev (skip_space (rev s)).

(** NAME = VALUE with blanks trimmed; other lines and comments are skipped.
    The loop that trims the name stops at its first character. *)
Definition set_file_line (line : cstr) : option (cstr * cstr) :=
  match skip_space line with
  | [] => None
  | c :: r =>
      if decide (c = "#"%char) then None
      else match strchr (c :: r) "=" with
           | None => None
           | Some (key, val) =>
               let key := match key with [] => [] | k :: ks => k :: trim_end ks end in
               Some (key, trim_end (skip_space val))
           end
  end.

Definition note_read (path : cstr) : M (state W) unit :=
  w <- gets st_world ;;
  match w_realpath w path with
  | Some rp => modify (set st_files_read (λ l, sl_push l rp))
  | None => mret tt
  end.

Definition parse_set_file (n : nat) (form : SNode) : M (state W) unit :=
  path <- sole_atom form "(set-file PATH) takes one path" ;;
  materialize_if_missing n (expand_rule n) path ;;
  w <- gets st_world ;;
  if negb (file_exists w path) then
    eprintf ("manifest: (set-file " ++ path ++ "): missing and no rule produces it")
  else
    match w_read w path with
    | None => eprintf ("manifest: (set-file " ++ path ++ "):")
    | Some content =>
        note_read path ;;
        mforeach (λ line, match set_file_line line with
                          | Some (k, v) => upd_kv (kv_set_manifest k v)
                          | None => mret tt
                          end) (fgets_lines (S (length content)) content)
    end.

(** ** Templates *)

Definition parse_template (form : SNode) : M (state W) unit :=
  name <- first_atom form "(template NAME (PARAM...) FORM...) needs a name" ;;
  match kids_of form with
  | _ :: _ :: S_LIST params _ :: body =>
      t <- template_new name ;;
      mforeach (λ p, a <- atom_or p ("template " ++ name ++ ": param names must be atoms") ;;
                  modify (set st_templates (alter (set t_params (λ l, sl_push l a)) t))) params ;;
      modify (set st_templates (alter (λ x, x <| t_body :=
        fold_left snode_push (map snode_clone body) (snode_list (line_of form)) |>) t))
  | _ => eprintf ("manifest: template " ++ name ++ ": needs a (PARAM...) list")
  end.

(** The forms a (use ...) stands for. *)
Definition use_forms (form : SNode) : M (state W) (list SNode) :=
  name <- first_atom form "(use NAME arg...) needs a name" ;;
  o <- gets (λ s, template_find s name ≫= λ i, st_templates s !! i) ;;
  match o with
  | None => eprintf ("manifest: (use " ++ name ++ " ...): no such template")
  | Some t =>
      let args := drop 2 (kids_of form) in
      if decide (length args = length (t_params t)) then
        vals <- mmap (λ a, atom_or a ("(use " ++ name ++ " ...): arguments must be atoms")) args ;;
        mret (kids_of (snode_subst (snode_clone (t_body t)) (t_params t) vals))
      else eprintf ("manifest: (use " ++ name ++ " ...): takes "
                    ++ pretty (length (t_params t)) ++ " argument(s), got "
                    ++ pretty (length args))
  end.

Definition parse_use (rec : SNode → M (state W) unit) (form : SNode) : M (state W) unit :=
  forms <- use_forms form ;; mforeach rec forms.

(** ** Files *)

(** A computation on the lexer, run from the state [lx]. *)
Definition with_lexer {A} (m : M SLex A) (lx : SLex) : M (state W) A := λ s,
  match m lx with
  | Ok a _ => Ok a s
  | Die msg _ => Die msg s
  | Ub => Ub
  | Fuel => Fuel
  end.

Definition load_manifest (rec : SNode → M (state W) unit) (root : SNode) : M (state W) unit :=
  mforeach rec (kids_of root).

Definition already_read (path : cstr) : M (state W) bool :=
  s <- gets id ;;
  mret (match w_realpath (st_world s) path with
        | Some rp => sl_has (st_files_read s) rp
        | None => false
        end).

(** The file is read whole; the lexer stops at its first NUL. *)
Definition load_file_with (rec : SNode → M (state W) unit) (path : cstr) : M (state W) unit :=
  seen <- already_read path ;;
  if seen : bool then mret tt
  else
    note_read path ;;
    w <- gets st_world ;;
    match w_read w path with
    | None => eprintf ("cannot open manifest " ++ path ++ ":")
    | Some content =>
        root <- with_lexer snode_parse (Lex (cstr_at content) 1) ;;
        load_manifest rec root
    end.

Definition parse_import (n : nat) (rec : SNode → M (state W) unit) (form : SNode)
    : M (state W) unit :=
  path <- sole_atom form "(import PATH) takes one path" ;;
  seen <- already_read path ;;
  if seen : bool then mret tt
  else
    materialize_if_missing n (expand_rule n) path ;;
    w <- gets st_world ;;
    if negb (file_exists w path) then
      eprintf ("manifest: (import " ++ path ++ "): missing and no rule produces it")
    else load_file_with rec path.

Fixpoint dispatch_top_form (n : nat) (form : SNode) : M (state W) unit :=
  match n with
  | 0 => mfuel
  | S n =>
      match s_head form with
      | None => eprintf "manifest: top-level form has no head"
      | Some h =>
          if decide (h = "set") then parse_set form
          else if decide (h = "list") then parse_list_or_append n form false
          else if decide (h = "append") then parse_list_or_append n form true
          else if decide (h = "map") then parse_map form
          else if decide (h = "rule") then parse_rule form
          else if decide (h = "group") then parse_group form
          else if decide (h = "meta") then parse_meta form
          else if decide (h = "import") then parse_import n (dispatch_top_form n) form
          else if decide (h = "set-file") then parse_set_file n form
          else if decide (h = "template") then parse_template form
          else if decide (h = "use") then parse_use (dispatch_top_form n) form
          else eprintf ("manifest: unknown top-level form '" ++ h ++ "'")
      end
  end.

Definition load_file (n : nat) (path : cstr) : M (state W) unit :=
  load_file_with (dispatch_top_form n) path.
End parse.
