(* ===== verification/Resolve.v ===== *)
(** * Targets: src/cmd/dev/ninqu/resolve.c

    From the words of the command line to expanded rules: groups are followed
    recursively, metas apply their variable overrides first, a member rule is
    addressed as GROUP/ALIAS, and bare words in (dep) and (after) that name a
    rule become references to it. *)

From S2P Require Import Prelude CString Sexpr StrList Kv Gate World Registry Fs Exec.
From S2P Require Import Expand Parse.

(** ** Bare words *)

Definition looks_like_path (s : cstr) : bool := strpbrk s "$*?/.".

Definition bareword_dep (known : cstr → bool) (tok : cstr) : cstr :=
  if bool_decide (head tok = Some "@"%char) || looks_like_path tok || negb (known tok) then tok
  else trunc 256 ("@"%char :: tok).

Section resolve.
Context {W : Type} `{!World W}.

(** [n] bounds the nesting of groups, [m] is the budget of expand_rule. *)
Fixpoint include_ref (n m : nat) (name : cstr) : M (state W) unit :=
  match n with
  | 0 => mfuel
  | S n =>
      g <- gets (λ s, group_find s name ≫= λ i, st_groups s !! i) ;;
      match g with
      | Some g =>
          seen <- gets (λ s, sl_has (st_visited_groups s) name) ;;
          if seen : bool then mret tt
          else
            modify (set st_visited_groups (λ l, sl_push l name)) ;;
            mforeach (include_ref n m) (g_refs g)
      | None =>
          r <- gets (λ s, rule_find s name) ;;
          match r with
          | Some _ => expand_rule m name
          | None =>
              eprintf ("manifest: '" ++ name ++ "' is neither a known group nor a known rule")
          end
      end
  end.

Definition build_default_group (n m : nat) : M (state W) unit :=
  def <- gets (λ s, group_find s "default" ≫= λ i, st_groups s !! i) ;;
  match def with
  | None => eprintf "no group given, and manifest defines no (group default)"
  | Some def => mforeach (include_ref n m) (g_refs def)
  end.

(** ** Members *)

Definition is_member (group alias : cstr) (r : Rule) : Prop :=
  r_member_of r ≠ [] ∧ r_member_of r = group ∧
  (if decide (r_member_alias r = []) then r_name r = alias else r_member_alias r = alias).
#[global] Instance is_member_dec group alias r : Decision (is_member group alias r).
Proof. unfold is_member. destruct (decide (r_member_alias r = [])); apply _. Defined.

Definition rule_find_member (s : state W) (group alias : cstr) : option Rule :=
  snd <$> list_find (is_member group alias) (st_rules s).

(** [None] when [w] has no slash; the group is the segment before the alias. *)
Definition resolve_member_path (w : cstr) : M (state W) (option Rule) :=
  match strrchr w "/" with
  | None => mret None
  | Some (before, alias) =>
      if decide (alias = []) then
        eprintf ("manifest: '" ++ w ++ "' ends in '/', expected GROUP/ALIAS")
      else
        let group := match strrchr before "/" with Some (_, g) => g | None => before end in
        if decide (group = [] ∨ 128 ≤ length group) then
          eprintf ("manifest: '" ++ w ++ "': bad GROUP/ALIAS path")
        else
          s <- gets id ;;
          match group_find s group with
          | None => eprintf ("manifest: '" ++ w ++ "': no such group '" ++ group ++ "'")
          | Some _ =>
              match rule_find_member s group alias with
              | None =>
                  eprintf ("manifest: '" ++ alias ++ "' names no member of group '" ++ group ++ "'")
              | Some r => mret (Some r)
              end
          end
  end.

(** ** Targets *)

Definition meta_named (s : state W) (name : cstr) : option Meta :=
  meta_find s name ≫= λ i, st_metas s !! i.

Definition resolve_wanted (n m : nat) (w : cstr) : M (state W) unit :=
  match strchr w "/" with
  | Some _ =>
      member <- resolve_member_path w ;;
      r <- deref member ;;
      expand_rule m (r_name r)
  | None =>
      match strchr w "." with
      | Some (meta_name, target) =>
          if decide (128 ≤ length meta_name) then
            eprintf ("manifest: meta name too long in '" ++ w ++ "'")
          else
            mt <- gets (λ s, meta_named s meta_name) ;;
            match mt with
            | None => eprintf ("manifest: '" ++ meta_name ++ "' names no known meta-target")
            | Some mt => meta_apply m mt ;; include_ref n m target
            end
      | None =>
          mt <- gets (λ s, meta_named s w) ;;
          match mt with
          | Some mt => meta_apply m mt ;; build_default_group n m
          | None =>
              br <- gets (λ s, rule_find s w ≫= λ i, st_rules s !! i) ;;
              match br with
              | Some r =>
                  if decide (r_member_of r = []) then include_ref n m w
                  else eprintf ("manifest: '" ++ w ++ "' is a member of group '" ++ r_member_of r
                                ++ "', not a top-level target; use '" ++ r_member_of r ++ "/"
                                ++ (if decide (r_member_alias r = []) then r_name r
                                    else r_member_alias r) ++ "'")
              | None => include_ref n m w
              end
          end
      end
  end.

Definition resolve_bareword_deps (s : state W) (sl : StrList) : StrList :=
  map (bareword_dep (λ tok, bool_decide (is_Some (rule_find s tok)))) sl.

Definition resolve_all_bareword_deps : M (state W) unit :=
  s <- gets id ;;
  modify (set st_rules (map (λ r,
    r <| r_in := resolve_bareword_deps s (r_in r) |>
      <| r_extra_deps := resolve_bareword_deps s (r_extra_deps r) |>))).
End resolve.
