(* ===== verification/ResolveFacts.v ===== *)
(** * Groups and targets

    include_ref follows a group graph that may be cyclic, with a list of visited
    groups shared by all targets.  It terminates, and when it returns every rule
    reachable through groups has been expanded.  Bare words and member paths
    resolve to the rules they name. *)

From S2P Require Import Prelude CString Sexpr StrList Kv Gate World Registry Fs Exec.
From S2P Require Import Expand Frame Growth Parse Resolve.

Section groups.
Context {W : Type} `{!World W}.
Implicit Types s : state W.

Definition group_named s (name : cstr) : option Group :=
  group_find s name ≫= λ i, st_groups s !! i.

(** What following groups can change: only visited groups and expanded rules
    are added. *)
Record follows s s' : Prop := {
  fo_vars : same_vars (st_kv s) (st_kv s');
  fo_groups : st_groups s' = st_groups s;
  fo_visited : st_visited_groups s ⊆ st_visited_groups s';
  fo_rules : Forall2 rule_grows (st_rules s) (st_rules s')
}.

#[export] Instance follows_preorder : PreOrder follows.
Proof.
  split; [by split|]. intros s1 s2 s3 [] []. split; [by etransitivity | congruence | set_solver | by etransitivity].
Qed.

Lemma grows_follows s s' : grows s s' → follows s s'.
Proof. intros Hg. split; [apply Hg | apply Hg | by rewrite (gr_visited _ _ Hg) | apply Hg]. Qed.

Lemma expand_rule_follows m name : preserves follows (expand_rule m name).
Proof using Type*.
  intros s. pose proof (preserves_expand_rule grows m name s) as H.
  destruct (expand_rule m name s); try done; by apply grows_follows.
Qed.
Hint Resolve expand_rule_follows : pres.

Lemma visit_follows name : preserves follows (modify (set st_visited_groups (λ l, sl_push l name))).
Proof. apply preserves_modify. intros s. split; [done | done | cbn; unfold sl_push; set_solver | done]. Qed.
Hint Resolve visit_follows : pres.

Lemma include_ref_follows n m name : preserves follows (include_ref n m name).
Proof using Type*. revert name. induction n as [|n IH]; intros name; simpl; solve_pres. Qed.

(** One step of the group graph. *)
Definition ref_step s (a b : cstr) : Prop := ∃ g, group_named s a = Some g ∧ b ∈ g_refs g.

Lemma group_named_follows s s' name : follows s s' → group_named s' name = group_named s name.
Proof. intros [_ Hg _ _]. unfold group_named, group_find. by rewrite Hg. Qed.

(** ** Termination *)

Definition unvisited s : nat :=
  length (filter (λ x, x ∉ st_visited_groups s) (map g_name (st_groups s))).

Lemma filter_shrinks (l v v' : list cstr) :
  v ⊆ v' → length (filter (λ x, x ∉ v') l) ≤ length (filter (λ x, x ∉ v) l).
Proof.
  intros Hv. induction l as [|x l IH]; [done|]. rewrite !filter_cons.
  repeat case_decide; simpl; try lia. exfalso. set_solver.
Qed.

Lemma filter_drops (l v : list cstr) x :
  x ∈ l → x ∉ v → length (filter (λ y, y ∉ v ++ [x]) l) < length (filter (λ y, y ∉ v) l).
Proof.
  intros Hx Hv. induction l as [|y l IH]; [by apply elem_of_nil in Hx|]. rewrite !filter_cons.
  assert (length (filter (λ y, y ∉ v ++ [x]) l) ≤ length (filter (λ y, y ∉ v) l)) as Hs
    by (apply filter_shrinks; set_solver).
  destruct (decide (y = x)) as [->|Hne].
  - rewrite decide_False by set_solver. rewrite decide_True by done. simpl. lia.
  - assert (x ∈ l) as Hxl by set_solver. specialize (IH Hxl).
    repeat case_decide; simpl; try lia; set_solver.
Qed.

Lemma unvisited_follows s s' : follows s s' → unvisited s' ≤ unvisited s.
Proof. intros [_ Hg Hv _]. unfold unvisited. rewrite Hg. by apply filter_shrinks. Qed.

Lemma group_named_elem s name g : group_named s name = Some g → name ∈ map g_name (st_groups s).
Proof.
  unfold group_named, group_find. intros (i & Hi & Hg)%bind_Some.
  destruct (find_named_Some _ _ _ _ Hi) as (g' & Hg' & <-).
  apply list_elem_of_fmap. exists g'. split; [done|]. by eapply list_elem_of_lookup_2.
Qed.

(** The expansion of a rule reachable from [name], with the variables, groups
    and rules of [s], needs a larger budget than [m]. *)
Definition expansion_fuel (m : nat) s (name : cstr) : Prop :=
  ∃ r s', rtc (ref_step s) name r ∧ follows s s' ∧ expand_rule m r s' = Fuel.

Lemma expansion_fuel_step m s s1 g name ref :
  follows s s1 → group_named s name = Some g → ref ∈ g_refs g →
  expansion_fuel m s1 ref → expansion_fuel m s name.
Proof.
  intros Hf Hg Href (r & s' & Hr & Hf' & E). exists r, s'. split_and!; [|by etransitivity|done].
  eapply rtc_l; [by exists g|]. eapply rtc_subrel; [|done]. intros a b (g' & Hg' & Hb).
  exists g'. by rewrite <- (group_named_follows _ _ _ Hf).
Qed.

Lemma include_all_fuel n m refs s s1 g name :
  (∀ name s, unvisited s < n → include_ref n m name s = Fuel → expansion_fuel m s name) →
  follows s s1 → group_named s name = Some g → refs ⊆ g_refs g →
  unvisited s1 < n → mforeach (include_ref n m) refs s1 = Fuel → expansion_fuel m s name.
Proof using Type*.
  intros Hrec. revert s1. induction refs as [|r refs IH]; intros s1 Hf Hg Hin Hu; simpl; [done|].
  unfold mbind at 1. pose proof (include_ref_follows n m r s1) as Hf1.
  destruct (include_ref n m r s1) as [[] s2| | |] eqn:E; try done.
  - apply IH; [by etransitivity | done | set_solver |]. apply unvisited_follows in Hf1. lia.
  - intros _. apply (expansion_fuel_step m s s1 g name r); [done | done | set_solver | by apply Hrec].
Qed.

Lemma include_ref_fuel n m name s :
  unvisited s < n → include_ref n m name s = Fuel → expansion_fuel m s name.
Proof using Type*.
  revert name s. induction n as [|n IH]; intros name s Hu; [lia|]. cbn [include_ref].
  rewrite (bind_run _ _ s (group_named s name) s) by done.
  destruct (group_named s name) as [g|] eqn:Hg.
  - rewrite (bind_run _ _ s (sl_has (st_visited_groups s) name) s) by done.
    destruct (sl_has _ _) eqn:Hseen; [done|].
    set (s1 := set st_visited_groups (λ l, sl_push l name) s). rewrite (bind_run _ _ s tt s1) by done.
    apply (include_all_fuel n m _ s s1 g); [done | apply (visit_follows name s) | done | done |].
    assert (unvisited s1 < unvisited s); [|lia]. unfold unvisited, s1. cbn. unfold sl_push.
    apply filter_drops; [by eapply group_named_elem | by apply sl_has_false].
  - rewrite (bind_run _ _ s (rule_find s name) s) by done.
    destruct (rule_find s name); [|done]. intros E. by exists name, s.
Qed.

(** ** Completeness *)

Definition expanded s (name : cstr) : Prop :=
  ∃ i r, rule_find s name = Some i ∧ st_rules s !! i = Some r ∧ r_expanded r = true.

(** A name that needs no more work. *)
Definition handled s (name : cstr) : Prop :=
  if group_named s name then name ∈ st_visited_groups s else expanded s name.

(** The visited groups outside [V] have all their references handled. *)
Definition closed_since (V : list cstr) s : Prop :=
  ∀ a b, a ∈ st_visited_groups s → a ∉ V → ref_step s a b → handled s b.

Lemma rule_find_follows s s' name : follows s s' → rule_find s' name = rule_find s name.
Proof.
  intros [_ _ _ Hr]. unfold rule_find. induction Hr as [|r r' l l' Hrr _ IH]; simpl; [done|].
  rewrite (rule_grows_name _ _ Hrr). case_decide; [done | by rewrite IH].
Qed.

Lemma handled_follows s s' name : follows s s' → handled s name → handled s' name.
Proof.
  intros Hf. unfold handled. rewrite (group_named_follows _ _ _ Hf).
  destruct (group_named s name); [apply Hf|]. intros (i & r & Hi & Hr & Hex).
  destruct (Forall2_lookup_l _ _ _ _ _ (fo_rules _ _ Hf) Hr) as (r' & Hr' & Hg).
  exists i, r'. rewrite (rule_find_follows _ _ _ Hf). split_and!; [done..|]. by apply (rg_expanded _ _ Hg).
Qed.

Lemma closed_trans V s s' :
  follows s s' → closed_since V s → closed_since (st_visited_groups s) s' → closed_since V s'.
Proof.
  intros Hf H1 H2 a b Ha HV Hab. destruct (decide (a ∈ st_visited_groups s)) as [Hs|Hs].
  - apply (handled_follows s); [done|]. apply (H1 a); [done | done |].
    unfold ref_step in *. by rewrite <- (group_named_follows _ _ _ Hf).
  - by apply (H2 a).
Qed.

Lemma include_all_ok n m refs s s' :
  (∀ name s s', include_ref n m name s = Ok tt s' →
     handled s' name ∧ closed_since (st_visited_groups s) s') →
  mforeach (include_ref n m) refs s = Ok tt s' →
  follows s s' ∧ (∀ r, r ∈ refs → handled s' r) ∧ closed_since (st_visited_groups s) s'.
Proof using Type*.
  intros Hrec. revert s. induction refs as [|r refs IH]; intros s; simpl.
  - intros [= <-]. split_and!; [done | set_solver |]. intros a b Ha Hn. done.
  - intros ([] & s1 & E1 & E2)%bind_Ok. destruct (Hrec _ _ _ E1) as [Hh Hc].
    pose proof (include_ref_follows n m r s) as Hf1. rewrite E1 in Hf1.
    destruct (IH _ E2) as (Hf2 & Hall & Hc2). split_and!; [by etransitivity | |].
    + intros r' [->|Hr']%elem_of_cons; [by apply (handled_follows s1) | auto].
    + by apply (closed_trans _ s1).
Qed.

Lemma include_ref_ok n m name s s' :
  include_ref n m name s = Ok tt s' → handled s' name ∧ closed_since (st_visited_groups s) s'.
Proof using Type*.
  revert name s s'. induction n as [|n IH]; intros name s s'; [done|]. cbn [include_ref].
  rewrite (bind_run _ _ s (group_named s name) s) by done.
  destruct (group_named s name) as [g|] eqn:Hg.
  - rewrite (bind_run _ _ s (sl_has (st_visited_groups s) name) s) by done.
    destruct (sl_has _ _) eqn:Hseen.
    + intros [= <-]. split; [unfold handled; rewrite Hg; by apply sl_has_elem | by intros a b ? []].
    + set (s1 := set st_visited_groups (λ l, sl_push l name) s). rewrite (bind_run _ _ s tt s1) by done.
      intros E. destruct (include_all_ok n m (g_refs g) s1 s' IH E) as (Hf & Hall & Hc).
      assert (group_named s' name = Some g) as Hg' by (by rewrite (group_named_follows s1 _ _ Hf)).
      assert (name ∈ st_visited_groups s') as Hin.
      { apply (fo_visited _ _ Hf). cbn. unfold sl_push. set_solver. }
      split; [unfold handled; by rewrite Hg'|].
      intros a b Ha Hn Hab. destruct (decide (a = name)) as [->|Hne].
      * destruct Hab as (g' & Hg2 & Hb). simplify_eq. auto.
      * apply (Hc a b); [done | | done]. cbn. unfold sl_push. set_solver.
  - rewrite (bind_run _ _ s (rule_find s name) s) by done.
    destruct (rule_find s name) as [i|] eqn:Hr; [|done]. intros E.
    pose proof (expand_rule_follows m name s) as Hf. rewrite E in Hf.
    pose proof (preserves_expand_rule grows m name s) as Hgr. rewrite E in Hgr.
    split.
    + unfold handled. rewrite (group_named_follows s) by done. rewrite Hg.
      by apply expand_rule_sets in E.
    + intros a b Ha Hn. by rewrite (gr_visited _ _ Hgr) in Ha.
Qed.
End groups.

(** C24: following groups terminates, also through cycles of groups: with more
    nesting allowed than there are groups, include_ref runs out of budget only if
    the expansion of a single rule reachable from [name] does. *)
Theorem include_ref_terminates {W} `{!World W} (n m : nat) (name : cstr) (s : state W) :
  length (st_groups s) < n → (¬ expansion_fuel m s name) → include_ref n m name s ≠ Fuel.
Proof.
  intros Hn Hex E. apply Hex. apply (include_ref_fuel n); [|done].
  unfold unvisited. eapply Nat.le_lt_trans; [apply length_filter|]. by rewrite length_map.
Qed.

(** when include_ref returns, every rule that can be reached from the name
    through groups has been expanded, provided that this held of the groups
    visited by earlier targets (as it does when there are none). *)
Theorem include_ref_complete {W} `{!World W} (n m : nat) (name r : cstr) (s s' : state W) :
  closed_since [] s → include_ref n m name s = Ok tt s' →
  rtc (ref_step s') name r → handled s' r ∧ closed_since [] s'.
Proof.
  intros Hc E Hr. pose proof (include_ref_follows n m name s) as Hf. rewrite E in Hf.
  destruct (include_ref_ok _ _ _ _ _ E) as [Hh Hc'].
  assert (closed_since [] s') as Hc2 by (by apply (closed_trans _ s)).
  split; [|done]. clear E. induction Hr as [x|x y z Hxy _ IH]; [done|]. apply IH.
  apply (Hc2 x); [|apply not_elem_of_nil | done]. destruct Hxy as (g & Hg & _).
  unfold handled in Hh. by rewrite Hg in Hh.
Qed.

(** Two groups that name each other, and the rules of [demo_rules] in a group. *)
Definition demo_cycle : state sworld :=
  demo_rules <| st_rules := [] |>
             <| st_groups := [MkGroup "a" (lits ["b"]); MkGroup "b" (lits ["a"])] |>.
Definition demo_groups : state sworld :=
  demo_rules <| st_groups := [MkGroup "all" (lits ["objs"; "x"]); MkGroup "objs" (lits ["obj"; "all"])] |>.

Lemma include_ref_terminates_witness : include_ref 3 1 "a" demo_cycle ≠ Fuel.
Proof.
  apply include_ref_terminates; [apply Nat.ltb_lt; reflexivity|].
  intros (r & s' & _ & Hf & E). pose proof (fo_rules _ _ Hf) as Hr. apply Forall2_nil_inv_l in Hr.
  cbn [expand_rule] in E. rewrite (bind_run _ _ s' (rule_find s' r) s') in E by done.
  unfold rule_find in E. rewrite Hr in E. discriminate E.
Defined.

Lemma include_ref_complete_witness :
  match include_ref 3 9 "all" demo_groups with
  | Ok _ s' => handled s' "obj" ∧ closed_since [] s'
  | _ => False
  end.
Proof.
  destruct (include_ref 3 9 "all" demo_groups) as [[] s'| | |] eqn:E; [| vm_compute in E; discriminate E ..].
  apply (include_ref_complete 3 9 "all" "obj" demo_groups s'); [| exact E |].
  - clear E. intros a b Ha. change (a ∈ []) in Ha. destruct (proj1 (elem_of_nil a) Ha).
  - pose proof (include_ref_follows 3 9 "all" demo_groups) as Hf. rewrite E in Hf. clear E.
    apply rtc_l with (lit "objs"); [|apply rtc_once].
    + exists (MkGroup "all" (lits ["objs"; "x"])). rewrite (group_named_follows _ _ _ Hf). split; [reflexivity | left].
    + exists (MkGroup "objs" (lits ["obj"; "all"])). rewrite (group_named_follows _ _ _ Hf). split; [reflexivity | left].
Defined.
