(* ===== verification/ParseFacts.v ===== *)
(** * Facts about manifest forms

    The token buffer of (list) and (append), the lines of (set-file) and the
    registry of names. *)

From S2P Require Import Prelude CString Sexpr StrList Kv Gate World Registry Fs Exec.
From S2P Require Import Expand Frame Growth Parse Resolve.

(** ** (list) and (append) *)

Section list_form.
Context {W : Type}.

Lemma list_token_fits (buf exp : cstr) (s : state W) :
  buf ≠ [] → length buf + 1 + length exp < bufsize →
  list_token (buf, length buf) exp s
  = Ok (buf ++ " " ++ exp, length (buf ++ " " ++ exp)) s.
Proof.
  intros Hb Hlen. unfold list_token. cbn [fst snd]. remember bufsize as B eqn:HB.
  rewrite decide_True by (destruct buf; [done | simpl in *; lia]).
  rewrite decide_False by lia. rewrite decide_False by lia.
  rewrite trunc_id by lia. unfold mret. rewrite <- app_assoc.
  rewrite !length_app. simpl. do 2 f_equal. lia.
Qed.

Lemma sl_join_cons (w : cstr) l :
  l ≠ [] → sl_join (w :: l) = w ++ " " ++ sl_join l.
Proof. by destruct l. Qed.

Lemma sl_join_app (buf : cstr) l : sl_join ((buf ++ " " ++ hd [] l) :: tl l) = sl_join (buf :: hd [] l :: tl l).
Proof.
  destruct l as [|w [|w' l]]; simpl; [done | done |]. by rewrite <- !app_assoc.
Qed.

Lemma list_tokens_fit exps (buf : cstr) (s : state W) :
  buf ≠ [] → length (sl_join (buf :: exps)) < bufsize →
  mfold list_token (buf, length buf) exps s
  = Ok (sl_join (buf :: exps), length (sl_join (buf :: exps))) s.
Proof.
  revert buf. induction exps as [|e exps IH]; intros buf Hb Hlen; [done|].
  cbn [mfold].
  pose proof (sl_join_app buf (e :: exps)) as Hj. cbn [hd tl] in Hj. rewrite <- Hj in Hlen |- *.
  rewrite (bind_run _ _ s (buf ++ " " ++ e, length (buf ++ " " ++ e)) s).
  - apply IH; [by destruct buf | done].
  - apply list_token_fits; [done|]. destruct exps; simpl in Hlen; rewrite !length_app in Hlen; simpl in Hlen; lia.
Qed.
End list_form.

(** the tokens of a (list) that are not empty and fit the 8192-byte buffer
    together are stored joined by single blanks, and a command that uses the list
    as a whole word gets exactly those tokens back as arguments. *)
Theorem list_form_roundtrip {W} (exps : StrList) (s : state W) :
  Forall word exps → length (sl_join exps) < bufsize →
  mfold list_token ([], 0) exps s = Ok (sl_join exps, length (sl_join exps)) s ∧
  sl_split (sl_join exps) = exps.
Proof.
  intros Hw Hlen. split; [|by apply sl_split_join].
  destruct exps as [|e exps]; [done|]. apply Forall_cons in Hw as [[He _] _].
  cbn [mfold]. rewrite (bind_run _ _ s (e, length e) s); [by apply list_tokens_fit|].
  assert (length e < bufsize) as Hl.
  { destruct exps; simpl in Hlen; [done|]. rewrite !length_app in Hlen. lia. }
  unfold list_token. cbn [fst snd]. remember bufsize as B eqn:HB.
  rewrite decide_False by lia. rewrite decide_False by lia. rewrite decide_False by lia.
  rewrite trunc_id by lia. done.
Qed.

Lemma list_form_roundtrip_witness :
  mfold list_token ([], 0) (lits ["-O2"; "-Wall"]) demo_rules = Ok (lit "-O2 -Wall", 9) demo_rules ∧
  sl_split "-O2 -Wall" = lits ["-O2"; "-Wall"].
Proof.
  apply (list_form_roundtrip (lits ["-O2"; "-Wall"]) demo_rules).
  - repeat (apply Forall_cons_2; [unfold word; split_and!; by_decide|]). apply Forall_nil_2.
  - apply Nat.ltb_lt. vm_compute. reflexivity.
Defined.

(** The untruncated length is accumulated: after a token of 8192 bytes and
    another one, the next store starts past the end of the buffer. *)
Example list_form_overflow :
  mfold list_token ([], 0) [replicate bufsize "a"%char; lit "b"; lit "c"] demo_rules = Ub.
Proof. vm_compute. reflexivity. Qed.

(** ** (set-file) *)

Definition blank (s : cstr) : Prop := Forall (λ c, isspace c = true) s.
(** Text that starts and ends with a visible character. *)
Definition trimmed (s : cstr) : Prop :=
  s = [] ∨ ∃ c, head s = Some c ∧ isspace c = false ∧ ∃ d, last s = Some d ∧ isspace d = false.

Lemma skip_space_blank a s : blank a → skip_space (a ++ s) = skip_space s.
Proof. induction 1 as [|c a Hc _ IH]; simpl; [done|]. by rewrite Hc. Qed.

Lemma skip_space_visible c s : isspace c = false → skip_space (c :: s) = c :: s.
Proof. intros Hc. simpl. by rewrite Hc. Qed.

Lemma skip_space_trimmed s : trimmed s → skip_space s = s.
Proof.
  intros [-> | (c & Hh & Hc & _)]; [done|]. destruct s; [done|]. injection Hh as ->.
  by apply skip_space_visible.
Qed.

Lemma trim_end_blank s b : blank b → trim_end (s ++ b) = trim_end s.
Proof.
  intros Hb. unfold trim_end. rewrite rev_app_distr, skip_space_blank; [done|].
  apply Forall_forall. intros c Hc. unfold blank in Hb. rewrite Forall_forall in Hb. apply Hb.
  by rewrite list_elem_of_In, <- in_rev, <- list_elem_of_In in Hc.
Qed.

Lemma trim_end_trimmed s : trimmed s → trim_end s = s.
Proof.
  intros [-> | (c & _ & _ & d & Hl & Hd)]; [done|]. unfold trim_end.
  apply last_Some in Hl as [l ->]. rewrite rev_app_distr. simpl. rewrite Hd. simpl.
  by rewrite rev_involutive.
Qed.

Lemma trimmed_tail c s : trimmed (c :: s) → s = [] ∨ ∃ d, last s = Some d ∧ isspace d = false.
Proof.
  intros [|(x & _ & _ & d & Hl & Hd)]; [done|]. destruct s as [|y s]; [by left|]. right. by exists d.
Qed.

(** a line NAME=VALUE of a (set-file), with any blanks around the name and
    the value, sets NAME to VALUE: the surrounding blanks go, everything between
    stays. *)
Theorem set_file_line_spec (b1 key b2 b3 val b4 : cstr) :
  blank b1 → blank b2 → blank b3 → blank b4 →
  key ≠ [] → trimmed key → "="%char ∉ key → head key ≠ Some "#"%char → trimmed val →
  set_file_line (b1 ++ key ++ b2 ++ "=" ++ b3 ++ val ++ b4) = Some (key, val).
Proof.
  intros H1 H2 H3 H4 Hne Hk Heq Hhash Hv. unfold set_file_line. rewrite skip_space_blank by done.
  destruct key as [|c key]; [done|]. cbn [app].
  assert (isspace c = false) as Hc.
  { destruct Hk as [|(x & [= ->] & Hx & _)]; [done|]. done. }
  rewrite skip_space_visible by done. rewrite decide_False by (intros ->; by apply Hhash).
  assert (strchr (c :: key ++ b2 ++ "=" ++ b3 ++ val ++ b4) "=" = Some (c :: key ++ b2, b3 ++ val ++ b4)) as ->.
  { apply strchr_Some. split; [simpl; by rewrite <- app_assoc|].
    assert ("="%char ∉ b2) as Hb2.
    { intros Hin. unfold blank in H2. rewrite Forall_forall in H2. by specialize (H2 _ Hin). }
    set_solver. }
  do 2 f_equal.
  - f_equal. rewrite trim_end_blank by done.
    destruct (trimmed_tail _ _ Hk) as [-> | (d & Hl & Hd)]; [done|].
    unfold trim_end. apply last_Some in Hl as [l ->]. rewrite rev_app_distr. simpl. rewrite Hd. simpl.
    by rewrite rev_involutive.
  - rewrite skip_space_blank by done. destruct Hv as [->|Hv].
    + simpl. rewrite <- (app_nil_r b4), skip_space_blank by done. done.
    + assert (trimmed val) as Hv' by (by right). destruct Hv as (x & Hh & Hx & _).
      destruct val as [|y val]; [done|]. injection Hh as ->. cbn [app].
      rewrite skip_space_visible by done. change (x :: val ++ b4) with ((x :: val) ++ b4).
      rewrite trim_end_blank by done. by apply trim_end_trimmed.
Qed.

Lemma set_file_line_spec_witness :
  set_file_line (" " ++ "LDLIBS" ++ " " ++ "=" ++ [TAB] ++ "-lm -ltls" ++ [NL]) = Some (lit "LDLIBS", lit "-lm -ltls").
Proof.
  apply (set_file_line_spec " " "LDLIBS" " " [TAB] "-lm -ltls" [NL]).
  1-4: repeat constructor.
  all: try discriminate.
  - right. exists "L"%char. split_and!; [done..|]. by exists "S"%char.
  - by_decide.
  - right. exists "-"%char. split_and!; [done..|]. by exists "s"%char.
Defined.

(** ** Names *)

(** No name is used twice among the rules and the groups. *)
Definition names_ok {W} (s : state W) : Prop :=
  NoDup (map r_name (st_rules s) ++ map g_name (st_groups s)).

Lemma find_named_last {A} (nm : A → cstr) (l : list A) x :
  nm x ∉ map nm l → find_named nm (nm x) (l ++ [x]) = Some (length l).
Proof.
  induction l as [|y l IH]; simpl; intros H; [by rewrite decide_True|].
  rewrite decide_False by set_solver. by rewrite IH by set_solver.
Qed.

(** a rule name of fewer than 128 bytes that is new becomes a rule that its
    name finds again, and names stay unique across rules and groups; a name
    already in use is an error and changes nothing. *)
Theorem rule_new_spec {W} (name : cstr) (s : state W) :
  length name < 128 →
  match rule_new name s with
  | Ok i s' =>
      name ∉ map r_name (st_rules s) ∧ name ∉ map g_name (st_groups s) ∧
      st_rules s' = st_rules s ++ [rule0 name] ∧ rule_find s' name = Some i ∧
      (names_ok s → names_ok s')
  | Die _ s' => s' = s ∧ (name ∈ map r_name (st_rules s) ∨ name ∈ map g_name (st_groups s))
  | Ub | Fuel => False
  end.
Proof.
  intros Hlen. unfold rule_new. rewrite (bind_run _ _ s (rule_find s name) s) by done.
  assert (r_name (rule0 name) = name) as Hname by (by apply trunc_id).
  destruct (rule_find s name) as [i|] eqn:Er.
  { split; [done|]. left. destruct (find_named_Some _ _ _ _ Er) as (r & Hr & <-).
    apply list_elem_of_fmap. exists r. split; [done|]. by eapply list_elem_of_lookup_2. }
  apply find_named_None in Er.
  rewrite (bind_run _ _ s (group_find s name) s) by done.
  destruct (group_find s name) as [i|] eqn:Eg.
  { split; [done|]. right. destruct (find_named_Some _ _ _ _ Eg) as (g & Hg & <-).
    apply list_elem_of_fmap. exists g. split; [done|]. by eapply list_elem_of_lookup_2. }
  apply find_named_None in Eg.
  rewrite (bind_run _ _ s (length (st_rules s)) s) by done.
  rewrite (bind_run _ _ s tt (set st_rules (λ rs, rs ++ [rule0 name]) s)) by done. cbn.
  split_and!; [done..| |].
  - unfold rule_find. cbn. rewrite <- Hname at 1. apply find_named_last. by rewrite Hname.
  - unfold names_ok. cbn. rewrite map_app. cbn [map]. rewrite Hname. intros Hok.
    rewrite <- app_assoc. simpl. apply NoDup_app in Hok as (H1 & H2 & H3).
    apply NoDup_app. split_and!; [done | set_solver | apply NoDup_cons; split; done].
Qed.

Lemma rule_new_spec_witness :
  match rule_new "ls" demo_rules with Ok i s' => rule_find s' "ls" = Some i | _ => False end.
Proof.
  pose proof (rule_new_spec "ls" demo_rules) as H.
  destruct (rule_new "ls" demo_rules) as [i s'| | |] eqn:E; [| vm_compute in E; discriminate E ..].
  apply H. apply Nat.ltb_lt. reflexivity.
Defined.

(** A name of 128 bytes is cut when it is stored, so a second rule with the same
    long name is not noticed. *)
Example rule_new_long_duplicate :
  let name := replicate 128 "x"%char in
  match (rule_new name ;; rule_new name) demo_rules with
  | Ok i s' => ¬ NoDup (map r_name (st_rules s'))
  | _ => False
  end.
Proof. cbv zeta. set (name := replicate 128 _).
  assert ((rule_new name ;; rule_new name) demo_rules
          = Ok 3 (set st_rules (λ l, l ++ [rule0 name; rule0 name]) demo_rules)) as -> by (vm_compute; reflexivity).
  intros Hnd. cbn in Hnd. rewrite !NoDup_cons in Hnd. destruct Hnd as (_ & _ & Hnd & _). apply Hnd. left.
Qed.
