(* ===== verification/Schedule.v ===== *)
(** * The schedule: src/cmd/dev/ninqu/schedule.c

    Kahn's algorithm, one level of ready instances at a time.  The work arrays
    are lists of the length of [insts]; a store outside them is undefined
    behaviour ([None]). *)

From S2P Require Import Prelude CString Sexpr StrList Kv Gate World Registry Fs Exec.

(** ** The work arrays *)

(** [dependents[d][ndep[d]++] = i] *)
Definition add_dependent (i : nat) (ds : list (list nat)) (d : nat) : option (list (list nat)) :=
  l ← ds !! d; Some (<[d := l ++ [i]]> ds).

Fixpoint fold_opt {A B} (f : B → A → option B) (b : B) (l : list A) : option B :=
  match l with
  | [] => Some b
  | x :: l' => b' ← f b x; fold_opt f b' l'
  end.

(** The dependents of every instance, from the dependencies [deps]. *)
Definition dependents_of (deps : list (list nat)) : option (list (list nat)) :=
  fold_opt (λ ds '(i, l), fold_opt (add_dependent i) ds l) (replicate (length deps) [])
    (imap pair deps).

(** [if (--indeg[v] == 0) next_level[nextn++] = v;] *)
Definition release (st : list Z * list nat) (v : nat) : option (list Z * list nat) :=
  let '(indeg, next) := st in
  d ← indeg !! v;
  Some (<[v := (d - 1)%Z]> indeg, if decide (d = 1)%Z then next ++ [v] else next).

Definition release_all (ds : list (list nat)) (st : list Z * list nat) (u : nat)
    : option (list Z * list nat) :=
  l ← ds !! u; fold_opt release st l.

(** [for (i = 0; i < ninsts; i++) if (indeg[i] == 0) level[levn++] = i;] *)
Definition ready (indeg : list Z) : list nat :=
  filter (λ i, indeg !! i = Some 0%Z) (seq 0 (length indeg)).

Section schedule.
Context {W : Type} `{!World W}.

(** One line of the summary of -S: nothing is run. *)
Definition summarize (i : nat) : M (state W) unit :=
  inst <- get_inst i ;;
  w <- gets st_world ;;
  will <- mfold (λ (will : bool) d,
            if will then mret true else dep <- get_inst d ;; mret (i_will_build dep))
          (inst_stale w inst) (i_dep_inst inst) ;;
  upd_inst i (λ x, x <| i_will_build := will |>) ;;
  r <- get_rule (i_rule_idx inst) ;;
  printf (pad 4 (if will : bool then "BUILD" else "OK") ++ " " ++ pad 12 (r_name r) ++ " "
          ++ show_out (i_out inst) ++ [NL]) ;;
  mwhen (negb (bool_decide (r_description r = [])))
    (printf ("       # " ++ r_description r ++ [NL])) ;;
  mwhen will (printf ("       cmd: " ++ sl_join (argv (i_cmd inst)) ++ [NL])).

Definition run_level (n : nat) (level : list nat) : M (state W) unit :=
  summary <- gets st_summary_mode ;;
  if summary : bool then mforeach summarize level else run_batch n level.

(** The levels, with the number of instances handled: [f] runs a level. *)
Fixpoint level_loop (f : list nat → M (state W) unit) (fuel : nat) (ds : list (list nat))
    (indeg : list Z) (level : list nat) (done_count : nat) : M (state W) nat :=
  match fuel with
  | 0 => mfuel
  | S fuel =>
      match level with
      | [] => mret done_count
      | _ =>
          f level ;;
          p <- deref (fold_opt (release_all ds) (indeg, []) level) ;;
          level_loop f fuel ds (fst p) (snd p) (done_count + length level)
      end
  end.

(** [n] is the budget of run_batch; a level has at least one instance, so
    [ninsts + 1] rounds are enough. *)
Definition schedule_and_run (n : nat) : M (state W) unit :=
  insts <- gets st_insts ;;
  let deps := map i_dep_inst insts in
  let indeg := map (λ l, Z.of_nat (length l)) deps in
  ds <- deref (dependents_of deps) ;;
  done_count <- level_loop (run_level n) (S (length insts)) ds indeg (ready indeg) 0 ;;
  if decide (done_count < length insts) then
    eprintf ("manifest: dependency cycle among " ++ pretty (length insts - done_count)
             ++ " instances")
  else mret tt.
End schedule.
