(* ===== verification/ScheduleFacts.v ===== *)
(** * Correctness of the schedule

    The level loop of Schedule.v is Kahn's algorithm: it runs every instance
    that does not depend on a cycle exactly once, each after all its
    dependencies, never reads or writes outside its work arrays, and reports an
    error exactly when the dependencies have a cycle. *)

From S2P Require Import Prelude CString Sexpr StrList Kv Gate World Registry Fs Exec.
From S2P Require Import Schedule.

(** ** Folds that can fail *)

Lemma fold_opt_app {A B} (f : B → A → option B) b l1 l2 :
  fold_opt f b (l1 ++ l2) = b' ← fold_opt f b l1; fold_opt f b' l2.
Proof.
  revert b. induction l1 as [|x l1 IH]; intros b; simpl; [done|].
  destruct (f b x); simpl; auto.
Qed.

Lemma fold_opt_cons {A B} (f : B → A → option B) b b' x l :
  f b x = Some b' → fold_opt f b (x :: l) = fold_opt f b' l.
Proof. intros H. simpl. by rewrite H. Qed.

(** ** The dependency graph *)

(** The dependencies of every instance are distinct instances. *)
Definition deps_ok (deps : list (list nat)) : Prop :=
  Forall (λ l, NoDup l ∧ Forall (λ d, d < length deps) l) deps.

(** [d] must be built before [i]. *)
Definition before (deps : list (list nat)) (d i : nat) : Prop := d ∈ deps !!! i.

Section graph.
Context (deps : list (list nat)) (Hok : deps_ok deps).
Let n := length deps.

Lemma deps_at_ok i : NoDup (deps !!! i) ∧ Forall (λ d, d < n) (deps !!! i).
Proof using Hok.
  destruct (deps !! i) as [l|] eqn:E.
  - rewrite (list_lookup_total_correct _ _ _ E).
    unfold deps_ok in Hok. rewrite Forall_lookup in Hok. by apply (Hok i).
  - rewrite list_lookup_total_alt, E. simpl. split; constructor.
Qed.

Lemma add_dependents i ds l :
  NoDup l → Forall (λ d, d < length ds) l →
  ∃ ds', fold_opt (add_dependent i) ds l = Some ds' ∧ length ds' = length ds ∧
    ∀ d, ds' !!! d = ds !!! d ++ (if decide (d ∈ l) then [i] else []).
Proof.
  revert ds. induction l as [|x l IH]; intros ds Hnd Hin.
  - exists ds. split_and!; [done..|]. intros d. rewrite decide_False by set_solver.
    by rewrite app_nil_r.
  - apply NoDup_cons in Hnd as [Hx Hnd]. apply Forall_cons in Hin as [Hlt Hin].
    destruct (lookup_lt_is_Some_2 ds x Hlt) as [y Hy].
    rewrite (fold_opt_cons _ _ (<[x:=y ++ [i]]> ds)) by (unfold add_dependent; by rewrite Hy).
    destruct (IH (<[x:=y ++ [i]]> ds)) as (ds' & -> & Hlen & Hds); [done | by rewrite length_insert |].
    exists ds'. rewrite length_insert in Hlen. split_and!; [done..|]. intros d. rewrite Hds.
    destruct (decide (d = x)) as [->|Hne].
    + rewrite list_lookup_total_insert_eq by done. rewrite (list_lookup_total_correct _ _ _ Hy).
      rewrite decide_False, decide_True by set_solver. by rewrite app_nil_r.
    + rewrite list_lookup_total_insert_ne by done. repeat case_decide; set_solver.
Qed.

(** The dependents found among the instances [k], [k + 1], ... *)
Definition dependents_in (k : nat) (l : list (list nat)) (d : nat) : list nat :=
  fst <$> filter (λ p : nat * list nat, d ∈ p.2) (imap (λ j l, (k + j, l)) l).

Lemma dependents_in_cons k x l d :
  dependents_in k (x :: l) d = (if decide (d ∈ x) then [k] else []) ++ dependents_in (S k) l d.
Proof.
  unfold dependents_in. rewrite imap_cons, filter_cons. simpl.
  replace (imap ((λ j l0, (k + j, l0)) ∘ S) l) with (imap (λ j l0, (S k + j, l0)) l)
    by (apply imap_ext; intros; simpl; f_equal; lia).
  rewrite Nat.add_0_r. by case_decide.
Qed.

Lemma dependents_fold k l ds :
  Forall (λ l, NoDup l ∧ Forall (λ d, d < length ds) l) l →
  ∃ ds', fold_opt (λ ds '(i, l), fold_opt (add_dependent i) ds l) ds
           (imap (λ j l, (k + j, l)) l) = Some ds' ∧ length ds' = length ds ∧
    ∀ d, ds' !!! d = ds !!! d ++ dependents_in k l d.
Proof.
  revert k ds. induction l as [|x l IH]; intros k ds Hl.
  { exists ds. split_and!; [done..|]. intros d. by rewrite app_nil_r. }
  apply Forall_cons in Hl as [[Hnd Hin] Hl]. rewrite imap_cons.
  destruct (add_dependents (k + 0) ds x) as (ds1 & E1 & Hlen & H1); [done..|].
  rewrite (fold_opt_cons _ _ ds1) by done.
  replace (imap ((λ j l0, (k + j, l0)) ∘ S) l) with (imap (λ j l0, (S k + j, l0)) l)
    by (apply imap_ext; intros; simpl; f_equal; lia).
  destruct (IH (S k) ds1) as (ds' & -> & Hlen' & H'); [by rewrite Hlen|].
  exists ds'. split_and!; [done | lia |]. intros d.
  by rewrite H', H1, dependents_in_cons, Nat.add_0_r, app_assoc.
Qed.

Lemma dependents_in_NoDup k l d : NoDup (dependents_in k l d) ∧ Forall (λ i, k ≤ i) (dependents_in k l d).
Proof.
  revert k. induction l as [|x l IH]; intros k; [split; constructor|].
  rewrite dependents_in_cons. destruct (IH (S k)) as [Hnd Hge].
  rewrite Forall_forall in Hge. case_decide; simpl.
  - split; [|apply Forall_cons; split; [lia|]; apply Forall_forall; intros i Hi; specialize (Hge i Hi); lia].
    apply NoDup_cons. split; [|done]. intros Hi. specialize (Hge k Hi). lia.
  - split; [done|]. apply Forall_forall; intros i Hi; specialize (Hge i Hi); lia.
Qed.

Lemma elem_of_dependents_in k l d i :
  i ∈ dependents_in k l d ↔ k ≤ i < k + length l ∧ d ∈ l !!! (i - k).
Proof.
  revert k. induction l as [|x l IH]; intros k.
  { split; [by intros ?%elem_of_nil | simpl; lia]. }
  rewrite dependents_in_cons, elem_of_app, IH. simpl. destruct (decide (i = k)) as [->|Hne].
  - rewrite Nat.sub_diag. simpl. case_decide as Hd.
    + split; [intros _; split; [lia | done] | intros _; left; set_solver].
    + split; [intros [Hk%elem_of_nil | Hk]; [done | lia] | by intros [_ ?]].
  - assert (i ∉ (if decide (d ∈ x) then [k] else [])) as Hk by (case_decide; set_solver).
    split; intros H.
    + destruct H as [H|[H1 H2]]; [done|]. split; [lia|]. by replace (i - k) with (S (i - S k)) by lia.
    + right. destruct H as [H1 H2]. split; [lia|].
      by replace (i - k) with (S (i - S k)) in H2 by lia.
Qed.

Lemma dependents_of_ok :
  ∃ ds, dependents_of deps = Some ds ∧ length ds = n ∧
    ∀ d, NoDup (ds !!! d) ∧ ∀ i, i ∈ ds !!! d ↔ i < n ∧ d ∈ deps !!! i.
Proof using Hok.
  destruct (dependents_fold 0 deps (replicate n [])) as (ds & E & Hlen & Hds).
  { rewrite length_replicate. apply Hok. }
  exists ds. split_and!; [done | by rewrite Hlen, length_replicate |]. intros d. rewrite Hds.
  replace (replicate n [] !!! d) with ([] : list nat).
  2: { rewrite list_lookup_total_alt. destruct (replicate n [] !! d) eqn:Er; [|done].
       by apply lookup_replicate in Er as [-> _]. }
  split; [apply dependents_in_NoDup|]. intros i. simpl. rewrite elem_of_dependents_in.
  rewrite Nat.sub_0_r. unfold n. intuition lia.
Qed.
End graph.

(** ** Releasing the dependents of a level *)

Definition count (v : nat) (l : list nat) : nat := length (filter (λ x, x = v) l).

Lemma count_app v l1 l2 : count v (l1 ++ l2) = count v l1 + count v l2.
Proof. unfold count. by rewrite filter_app, length_app. Qed.

Lemma count_NoDup v l : NoDup l → count v l = if decide (v ∈ l) then 1 else 0.
Proof.
  unfold count. induction 1 as [|x l Hx Hnd IH]; [done|]. rewrite filter_cons.
  destruct (decide (x = v)) as [->|Hne]; simpl.
  - rewrite IH, decide_False, decide_True by set_solver. done.
  - rewrite IH. repeat case_decide; set_solver.
Qed.

Lemma count_elem v l : 0 < count v l → v ∈ l.
Proof.
  unfold count. induction l as [|x l IH]; simpl; [lia|]. rewrite filter_cons.
  case_decide; [subst; set_solver|]. intros Hlt. right. auto.
Qed.

Lemma release_fold indeg vs next :
  Forall (λ v, v < length indeg) vs →
  ∃ indeg' new, fold_opt release (indeg, next) vs = Some (indeg', next ++ new) ∧
    length indeg' = length indeg ∧ NoDup new ∧
    (∀ v, (indeg' !!! v = indeg !!! v - Z.of_nat (count v vs))%Z) ∧
    ∀ v, v ∈ new ↔ (0 < indeg !!! v ≤ Z.of_nat (count v vs))%Z.
Proof.
  revert indeg next. induction vs as [|x vs IH]; intros indeg next Hin.
  { exists indeg, []. rewrite app_nil_r. split_and!; [done | done | constructor | |].
    - intros v. unfold count. simpl. lia.
    - intros v. unfold count. simpl. split; [by intros ?%elem_of_nil | lia]. }
  apply Forall_cons in Hin as [Hlt Hin].
  destruct (lookup_lt_is_Some_2 indeg x Hlt) as [d Hd].
  pose proof (list_lookup_total_correct _ _ _ Hd) as Hdt.
  set (indeg1 := <[x := (d - 1)%Z]> indeg).
  set (next1 := if decide (d = 1)%Z then next ++ [x] else next).
  assert (release (indeg, next) x = Some (indeg1, next1)) as Hr.
  { unfold release. by rewrite Hd. }
  assert (Forall (λ v, v < length indeg1) vs) as Hin1 by (unfold indeg1; by rewrite length_insert).
  destruct (IH indeg1 next1 Hin1) as (indeg' & new & E & Hlen & Hnd & Hdeg & Hnew).
  assert (∀ v, count v (x :: vs) = (if decide (x = v) then 1 else 0) + count v vs) as Hc.
  { intros v. change (x :: vs) with ([x] ++ vs). rewrite count_app. f_equal. unfold count.
    rewrite filter_cons. by case_decide. }
  assert (∀ v, indeg1 !!! v = if decide (x = v) then (d - 1)%Z else indeg !!! v) as H1.
  { intros v. unfold indeg1. case_decide; [subst; by rewrite list_lookup_total_insert_eq|].
    by rewrite list_lookup_total_insert_ne. }
  exists indeg', ((if decide (d = 1)%Z then [x] else []) ++ new).
  rewrite (fold_opt_cons _ _ _ _ _ Hr), E. unfold indeg1 in Hlen. rewrite length_insert in Hlen.
  split_and!.
  - unfold next1. case_decide; [by rewrite <- app_assoc | done].
  - done.
  - case_decide; [|done]. apply NoDup_cons. split; [|done]. rewrite Hnew, H1, decide_True by done. lia.
  - intros v. rewrite Hdeg, H1, Hc. case_decide; [subst; lia | lia].
  - intros v. rewrite elem_of_app, Hnew, H1, Hc. destruct (decide (x = v)) as [<-|Hne].
    + rewrite Hdt. case_decide; [subst; set_solver by lia|].
      split; [intros [?%elem_of_nil|?]; [done | lia] | right; lia].
    + split; [|right; done]. intros [Hx|?]; [|done]. case_decide; set_solver.
Qed.

Lemma release_level ds indeg next level :
  Forall (λ u, u < length ds) level →
  fold_opt (release_all ds) (indeg, next) level = fold_opt release (indeg, next) (level ≫= (ds !!!.)).
Proof.
  generalize (indeg, next). induction level as [|u level IH]; intros st Hin; [done|].
  apply Forall_cons in Hin as [Hu Hin]. rewrite bind_cons, fold_opt_app.
  destruct (lookup_lt_is_Some_2 ds u Hu) as [l Hl].
  rewrite (list_lookup_total_correct _ _ _ Hl). cbn [fold_opt].
  assert (release_all ds st u = fold_opt release st l) as -> by (unfold release_all; by rewrite Hl).
  destruct (fold_opt release st l); simpl; [by apply IH | done].
Qed.

(** Splitting a count by membership. *)
Lemma filter_cons_count (u : nat) (level l : list nat) :
  NoDup l → u ∉ level →
  length (filter (λ d, d ∈ u :: level) l)
  = (if decide (u ∈ l) then 1 else 0) + length (filter (λ d, d ∈ level) l).
Proof.
  intros Hnd Hu. induction Hnd as [|x l Hx Hnd IH]; [done|]. rewrite !filter_cons.
  destruct (decide (x = u)) as [->|Hne].
  - rewrite decide_True, (decide_False (P := u ∈ level)), (decide_True (P := u ∈ u :: l)) by set_solver.
    simpl. rewrite IH, decide_False by set_solver. done.
  - destruct (decide (x ∈ level)).
    + rewrite decide_True by set_solver. simpl. rewrite IH. repeat case_decide; set_solver by lia.
    + rewrite decide_False by set_solver. rewrite IH. repeat case_decide; set_solver by lia.
Qed.

(** ** Kahn's algorithm *)

(** The levels as a pure function of the work arrays. *)
Fixpoint kahn (fuel : nat) (ds : list (list nat)) (indeg : list Z) (level : list nat)
    : option (list (list nat)) :=
  match fuel with
  | 0 => None
  | S fuel =>
      match level with
      | [] => Some []
      | _ =>
          p ← fold_opt (release_all ds) (indeg, []) level;
          cons level <$> kahn fuel ds (fst p) (snd p)
      end
  end.

Section kahn.
Context (deps : list (list nat)) (Hok : deps_ok deps).
Let n := length deps.
Context (ds : list (list nat)) (Hlen : length ds = n).
Context (Hds : ∀ d, NoDup (ds !!! d) ∧ ∀ i, i ∈ ds !!! d ↔ i < n ∧ d ∈ deps !!! i).

Lemma count_level v level :
  v < n → NoDup level →
  count v (level ≫= (ds !!!.)) = length (filter (λ d, d ∈ level) (deps !!! v)).
Proof using Hok Hlen Hds.
  intros Hv Hnd. induction Hnd as [|u level Hu Hnd IH].
  { assert (∀ l, filter (λ d : nat, d ∈ []) l = []) as ->; [|done].
    intros l. induction l; [done|]. by rewrite filter_cons_False by set_solver. }
  rewrite bind_cons, count_app, IH. destruct (Hds u) as [Hndu Hin].
  rewrite count_NoDup by done. rewrite filter_cons_count; [|apply deps_at_ok; done | done].
  f_equal. specialize (Hin v). repeat case_decide; tauto.
Qed.

(** The state of the loop with the instances [done] handled. *)
Record kahn_inv (done level : list nat) (indeg : list Z) : Prop := {
  inv_NoDup : NoDup (done ++ level);
  inv_range : Forall (λ v, v < n) (done ++ level);
  inv_len : length indeg = n;
  inv_indeg : ∀ v, v < n → indeg !!! v = Z.of_nat (length (filter (λ d, d ∉ done) (deps !!! v)));
  inv_ready : ∀ v, v < n → v ∈ done ++ level ↔ deps !!! v ⊆ done;
  inv_acc : ∀ v, v ∈ done ++ level → Acc (before deps) v
}.

Lemma filter_split (P : nat → Prop) (Q : nat → Prop) `{∀ x, Decision (P x), ∀ x, Decision (Q x)} l :
  length (filter P l) = length (filter (λ x, P x ∧ Q x) l) + length (filter (λ x, P x ∧ ¬ Q x) l).
Proof.
  induction l as [|x l IH]; [done|]. rewrite !filter_cons.
  destruct (decide (P x)), (decide (Q x)); repeat case_decide; simpl; try tauto; lia.
Qed.

Lemma filter_out_nil (l out : list nat) : filter (λ d, d ∉ out) l = [] ↔ l ⊆ out.
Proof.
  induction l as [|x l IH]; [set_solver|]. destruct (decide (x ∈ out)).
  - rewrite filter_cons_False by (intros H; by apply H). rewrite IH. set_solver.
  - rewrite filter_cons_True by done. split; [done | set_solver].
Qed.
Lemma Z_zero_len {A} (l : list A) : Z.of_nat (length l) = 0%Z ↔ l = [].
Proof. destruct l; simpl; split; intros; (done || lia). Qed.

Lemma kahn_step done level indeg :
  kahn_inv done level indeg →
  ∃ indeg' next, fold_opt (release_all ds) (indeg, []) level = Some (indeg', next) ∧
    kahn_inv (done ++ level) next indeg'.
Proof using Hok Hlen Hds.
  intros [Hnd Hr Hl Hdeg Hready Hacc].
  apply NoDup_app in Hnd as (Hnd1 & Hdisj & Hnd2).
  pose proof Hr as [Hr1 Hr2]%Forall_app.
  rewrite release_level by (by rewrite Hlen).
  destruct (release_fold indeg (level ≫= (ds !!!.)) []) as (indeg' & next & E & Hl' & Hndn & Hdeg' & Hnew).
  { rewrite Hl. apply Forall_forall. intros v (u & Hv & Hu)%list_elem_of_bind. by apply Hds in Hv as [? _]. }
  exists indeg', next. split; [done|].
  assert (∀ v, v < n → (indeg' !!! v = Z.of_nat (length (filter (λ d, d ∉ done ++ level) (deps !!! v))))%Z)
    as Hdeg2.
  { intros v Hv. rewrite Hdeg', Hdeg, count_level by done.
    rewrite (filter_split (λ d, d ∉ done) (λ d, d ∈ level)).
    rewrite (list_filter_iff (λ d, d ∉ done ∧ d ∈ level) (λ d, d ∈ level)) by set_solver.
    rewrite (list_filter_iff (λ d, d ∉ done ∧ d ∉ level) (λ d, d ∉ done ++ level)) by set_solver. lia. }
  assert (∀ v, v < n → v ∈ (done ++ level) ++ next ↔ deps !!! v ⊆ done ++ level) as Hready'.
  { intros v Hv. rewrite <- filter_out_nil, <- Z_zero_len, <- Hdeg2 by done.
    rewrite elem_of_app, Hready, <- filter_out_nil, <- Z_zero_len, <- Hdeg, Hnew by done.
    specialize (Hdeg' v). specialize (Hdeg2 v Hv). specialize (Hdeg v Hv). lia. }
  assert (∀ v, v ∈ next → v < n ∧ v ∉ done ++ level) as Hfresh.
  { intros v Hv. apply Hnew in Hv as Hv'. assert (v < n) as Hlt.
    { assert (v ∈ level ≫= (ds !!!.)) as Hb by (apply count_elem; lia).
      apply list_elem_of_bind in Hb as (u & Hu & _). by apply Hds in Hu as [? _]. }
    split; [done|]. rewrite Hready, <- filter_out_nil, <- Z_zero_len, <- Hdeg by done. lia. }
  split; [| |lia|done|done|].
  - apply NoDup_app. split_and!; [by apply NoDup_app| |done]. intros v Hv Hn. by apply Hfresh in Hn as [].
  - apply Forall_app. split; [done|]. apply Forall_forall. intros v Hv. by apply Hfresh.
  - intros v [Hv|Hv]%elem_of_app; [by apply Hacc|]. constructor. intros d Hd. apply Hacc.
    destruct (Hfresh v Hv) as [Hlt _]. apply (proj1 (Hready' v Hlt)); [set_solver | done].
Qed.

Lemma kahn_inv_done_le done level indeg : kahn_inv done level indeg → length (done ++ level) ≤ n.
Proof.
  intros [Hnd Hr _ _ _ _]. rewrite <- (length_seq n 0). apply submseteq_length, NoDup_submseteq; [done|].
  intros v Hv. rewrite Forall_forall in Hr. apply elem_of_seq. specialize (Hr v Hv). lia.
Qed.

Lemma kahn_run fuel done level indeg :
  kahn_inv done level indeg → n - length done < fuel →
  ∃ ls, kahn fuel ds indeg level = Some ls ∧ NoDup (done ++ concat ls) ∧
    (∀ v, v ∈ done ++ concat ls ↔ v < n ∧ Acc (before deps) v) ∧
    ∀ pre lev post v, ls = pre ++ lev :: post → v ∈ lev → deps !!! v ⊆ done ++ concat pre.
Proof using Hok Hlen Hds.
  revert done level indeg. induction fuel as [|fuel IH]; intros done level indeg Hinv Hf; [lia|].
  destruct level as [|u level].
  - exists []. destruct Hinv as [Hnd Hr _ _ Hready Hacc]. rewrite app_nil_r in *. simpl.
    split_and!; [done | done | | by intros [|] ].
    intros v. split.
    + intros Hv. rewrite Forall_forall in Hr. auto.
    + intros [Hv Ha]. induction Ha as [v _ IHa]. apply Hready; [done|]. intros d Hd.
      apply IHa; [done|]. pose proof (deps_at_ok deps Hok v) as [_ Hin]. rewrite Forall_forall in Hin. auto.
  - set (lev := u :: level) in *. pose proof (kahn_inv_done_le _ _ _ Hinv) as Hle.
    destruct (kahn_step _ _ _ Hinv) as (indeg' & next & E & Hinv').
    destruct (IH _ _ _ Hinv') as (ls & Ek & Hnd & Hall & Hord).
    { rewrite length_app in *. simpl in *. lia. }
    exists (lev :: ls). change (concat (lev :: ls)) with (lev ++ concat ls).
    rewrite (app_assoc done). split_and!; [| done | done |].
    + cbn [kahn]. unfold lev at 1. rewrite E. simpl. by rewrite Ek.
    + intros pre lv post v Els Hv. destruct pre as [|p pre].
      * injection Els as <- _. simpl. rewrite app_nil_r. apply (inv_ready _ _ _ Hinv); [|set_solver].
        pose proof (inv_range _ _ _ Hinv) as Hr. rewrite Forall_forall in Hr. set_solver.
      * injection Els as <- Els. change (concat (lev :: pre)) with (lev ++ concat pre).
        rewrite app_assoc. by eapply Hord.
Qed.

Lemma kahn_init :
  let indeg := map (λ l, Z.of_nat (length l)) deps in kahn_inv [] (ready indeg) indeg.
Proof using Hok Hlen Hds.
  intros indeg.
  assert (length indeg = n) as Hlin by (unfold indeg; by rewrite length_map).
  assert (∀ v, v < n → indeg !!! v = Z.of_nat (length (deps !!! v))) as Hin.
  { intros v Hv. destruct (lookup_lt_is_Some_2 deps v Hv) as [l Hl].
    rewrite (list_lookup_total_correct _ _ _ Hl). apply list_lookup_total_correct.
    unfold indeg. by rewrite list_lookup_fmap, Hl. }
  assert (∀ v, v ∈ ready indeg ↔ v < n ∧ indeg !!! v = 0%Z) as Hr.
  { intros v. unfold ready. rewrite list_elem_of_filter, elem_of_seq, Hlin. split.
    - intros [Hz Hv]. split; [lia | by apply list_lookup_total_correct].
    - intros [Hv Hz]. rewrite <- Hz. split; [apply list_lookup_lookup_total_lt |]; lia. }
  assert (∀ v, v ∈ ready indeg ↔ v < n ∧ deps !!! v = []) as Hr2.
  { intros v. rewrite Hr. split; intros [Hv Hz]; (split; [done|]).
    - rewrite Hin in Hz by done. by apply Z_zero_len.
    - rewrite Hin, Hz by done. done. }
  split; simpl.
  - unfold ready. apply NoDup_filter, NoDup_seq.
  - apply Forall_forall. intros v Hv. by apply Hr.
  - done.
  - intros v Hv. rewrite Hin by done. do 2 f_equal. generalize (deps !!! v). intros l.
    induction l as [|x l IH]; [done|]. rewrite filter_cons_True by apply not_elem_of_nil. by f_equal.
  - intros v Hv. rewrite Hr2. split; [intros [_ ->]; set_solver | intros Hs; split; [done|]].
    destruct (deps !!! v); [done | set_solver].
  - intros v [_ Hv]%Hr2. constructor. intros d Hd. unfold before in Hd. rewrite Hv in Hd. by apply elem_of_nil in Hd.
Qed.
End kahn.

(** The levels of a dependency graph as the program computes them. *)
Definition levels_of (deps : list (list nat)) : option (list (list nat)) :=
  let indeg := map (λ l, Z.of_nat (length l)) deps in
  ds ← dependents_of deps; kahn (S (length deps)) ds indeg (ready indeg).

Lemma levels_ok deps :
  deps_ok deps →
  ∃ levels, levels_of deps = Some levels ∧ NoDup (concat levels) ∧
    (∀ i, i ∈ concat levels ↔ i < length deps ∧ Acc (before deps) i) ∧
    ∀ pre lev post i d, levels = pre ++ lev :: post → i ∈ lev → before deps d i → d ∈ concat pre.
Proof.
  intros Hok. destruct (dependents_of_ok deps Hok) as (ds & Eds & Hlen & Hds).
  pose proof (kahn_init deps Hok ds Hlen Hds) as Hinit.
  destruct (kahn_run deps Hok ds Hlen Hds (S (length deps)) _ _ _ Hinit) as (ls & Ek & Hnd & Hall & Hord).
  { simpl. lia. }
  exists ls. unfold levels_of. rewrite Eds. split_and!; [apply Ek | done..|].
  intros pre lev post i d E Hi Hd. by apply (Hord pre lev post i).
Qed.

(** The program runs these levels in order and counts the instances in them. *)
Lemma level_loop_kahn {W} (f : list nat → M (state W) unit) fuel ds indeg level dc levels s :
  kahn fuel ds indeg level = Some levels →
  level_loop f fuel ds indeg level dc s
  = (mforeach f levels ;; mret (dc + length (concat levels))) s.
Proof.
  revert indeg level dc levels s. induction fuel as [|fuel IH]; intros indeg level dc levels s; [done|].
  destruct level as [|u level].
  { intros [= <-]. simpl. unfold mbind, mret. by rewrite Nat.add_0_r. }
  cbn [kahn]. destruct (fold_opt _ _ _) as [p|] eqn:E; simpl; [|done].
  intros (ls & Els & ->)%fmap_Some. cbn [mforeach level_loop]. unfold mbind at 1 3 4.
  destruct (f (u :: level) s) as [[] s'| | |]; try done. unfold mbind at 1. simpl in E. rewrite E. simpl.
  change (mret p s') with (@Ok (state W) _ p s'). cbv beta iota.
  rewrite (IH _ _ _ _ _ Els). unfold mbind. destruct (mforeach f ls s'); try done.
  unfold mret. f_equal. simpl. rewrite length_app. simpl. lia.
Qed.

Lemma schedule_runs {W} `{!World W} (s : state W) (n : nat) :
  deps_ok (map i_dep_inst (st_insts s)) →
  ∃ levels,
    (∀ i, i ∈ concat levels ↔
       i < length (st_insts s) ∧ Acc (before (map i_dep_inst (st_insts s))) i) ∧
    (∀ pre lev post i d, levels = pre ++ lev :: post → i ∈ lev →
       before (map i_dep_inst (st_insts s)) d i → d ∈ concat pre) ∧
    schedule_and_run n s =
      (mforeach (run_level n) levels ;;
       if decide (length (concat levels) < length (st_insts s)) then
         eprintf ("manifest: dependency cycle among "
                  ++ pretty (length (st_insts s) - length (concat levels)) ++ " instances")
       else mret tt) s ∧
    NoDup (concat levels).
Proof.
  intros Hok. destruct (levels_ok _ Hok) as (levels & El & Hnd & Hall & Hord).
  exists levels. split_and!; [by rewrite length_map in Hall | done | | done].
  unfold schedule_and_run, levels_of in *. rewrite length_map in El.
  destruct (dependents_of _) as [ds|] eqn:E; [|done].
  rewrite (bind_run _ _ s (st_insts s) s) by done. cbv zeta.
  rewrite (bind_run _ _ s ds s) by (by rewrite E).
  unfold mbind at 1. rewrite (level_loop_kahn _ _ _ _ _ _ levels) by done.
  unfold mbind. by destruct (mforeach _ levels s).
Qed.

(** C1: when the dependencies of each instance are distinct instances, the
    schedule never leaves its work arrays and terminates; it runs every instance
    that depends on no cycle exactly once, level by level, each one in a later
    level than all its dependencies, and then fails exactly when instances are
    left. *)
Theorem schedule_runs_levels {W} `{!World W} (n : nat) (s : state W) :
  deps_ok (map i_dep_inst (st_insts s)) →
  ∃ levels,
    NoDup (concat levels) ∧
    (∀ i, i ∈ concat levels ↔
       i < length (st_insts s) ∧ Acc (before (map i_dep_inst (st_insts s))) i) ∧
    (∀ pre lev post i d, levels = pre ++ lev :: post → i ∈ lev →
       before (map i_dep_inst (st_insts s)) d i → d ∈ concat pre) ∧
    schedule_and_run n s =
      (mforeach (run_level n) levels ;;
       if decide (length (concat levels) < length (st_insts s)) then
         eprintf ("manifest: dependency cycle among "
                  ++ pretty (length (st_insts s) - length (concat levels)) ++ " instances")
       else mret tt) s.
Proof.
  intros Hok. destruct (schedule_runs s n Hok) as (levels & Hall & Hord & E & Hnd). by exists levels.
Qed.

(** ** Cycles *)

Lemma tc_last {A} (R : relation A) x z : tc R x z → ∃ y, rtc R x y ∧ R y z.
Proof.
  induction 1 as [x y H|x y z H _ (w & Hw & Hz)]; [by exists x|].
  exists w. split; [by eapply rtc_l | done].
Qed.

Lemma tc_flip {A} (R : relation A) x y : tc (flip R) x y → tc R y x.
Proof. induction 1 as [x y H|x y z H _ IH]; [by apply tc_once | by eapply tc_r]. Qed.

Lemma acyclic_acc deps :
  deps_ok deps → (∀ i, ¬ tc (before deps) i i) → ∀ i, Acc (before deps) i.
Proof.
  intros Hok Hirr i. change (before deps) with (flip (flip (before deps))).
  apply (tc_finite_sn (R := flip (before deps))).
  - intros j Hj. apply (Hirr j). by apply tc_flip.
  - exists (seq 0 (length deps)). intros d Hd. apply elem_of_seq.
    assert (∃ j, d ∈ deps !!! j) as [j Hj].
    { induction Hd as [x y H|x y z H _ IH]; [by exists x | done]. }
    pose proof (deps_at_ok deps Hok j) as [_ Hin]. rewrite Forall_forall in Hin.
    specialize (Hin d Hj). lia.
Qed.

Lemma before_bound deps d i : before deps d i → i < length deps.
Proof.
  unfold before. intros Hd. destruct (decide (i < length deps)) as [|Hi]; [done|].
  rewrite list_lookup_total_alt, lookup_ge_None_2 in Hd by lia. by apply elem_of_nil in Hd.
Qed.

(** The instance is on a cycle or depends on one. *)
Definition behind_cycle (deps : list (list nat)) (i : nat) : Prop :=
  ∃ c, tc (before deps) c c ∧ rtc (before deps) c i.

Lemma behind_cycle_bound deps i : behind_cycle deps i → i < length deps.
Proof.
  intros (c & Hc & Hci). apply rtc_inv_r in Hci as [<-|(d & _ & Hd)]; [|by eapply before_bound].
  apply tc_last in Hc as (d & _ & Hd). by eapply before_bound.
Qed.

Lemma behind_cycle_not_acc deps i : behind_cycle deps i → ¬ Acc (before deps) i.
Proof.
  intros Hi Hacc. induction Hacc as [i _ IH]. destruct Hi as (c & Hc & Hci).
  apply rtc_inv_r in Hci as [<-|(d & Hcd & Hd)]; [|apply (IH d Hd); by exists c].
  apply tc_last in Hc as (y & Hcy & Hy). apply (IH y Hy). exists y. split; [|done].
  eapply tc_rtc_r; [by apply tc_once|done].
Qed.

(** A walk from [x] through the dependencies that are not well founded meets one
    of its instances again, as there are finitely many. *)
Lemma walk_cycle deps (P : nat → Prop) `{∀ i, Decision (P i)} x path :
  (∀ i, (∀ d, before deps d i → P d) → P i) → ¬ P x → NoDup path → (∀ y, y ∈ path → y < length deps ∧ tc (before deps) x y) →
  behind_cycle deps x.
Proof.
  intros Hstep. remember (length deps - length path) as k eqn:Ek. revert x path Ek.
  induction k as [k IH] using lt_wf_ind. intros x path -> Hx Hnd Hpath.
  destruct (decide (Exists (λ d, ¬ P d) (deps !!! x))) as [(d & Hd & HPd)%Exists_exists|Hall].
  2: { destruct Hx. apply Hstep. intros d Hd. destruct (decide (P d)); [done|]. destruct Hall. apply Exists_exists. by exists d. }
  pose proof (before_bound _ _ _ Hd) as Hlt.
  destruct (decide (x ∈ path)) as [Hin|Hin]; [exists x; split; [by apply Hpath|done]|].
  assert (length (x :: path) ≤ length deps) as Hle.
  { rewrite <- (length_seq (length deps) 0). apply submseteq_length, NoDup_submseteq; [by constructor|].
    intros y [->|Hy]%elem_of_cons; apply elem_of_seq; [lia|]. destruct (Hpath y Hy). lia. }
  destruct (IH (length deps - length (x :: path)) ltac:(cbn [length] in *; lia) d (x :: path)) as (c & Hc & Hcd); try done.
  - by constructor.
  - intros y [->|Hy]%elem_of_cons; [split; [done|by apply tc_once]|]. destruct (Hpath y Hy) as [? Hxy].
    split; [done|]. by eapply tc_l.
  - exists c. split; [done|]. by eapply rtc_r.
Qed.

(** C22: the cycle error is exact.  When the dependencies of each instance are
    distinct instances, the schedule runs levels made of the instances that are
    not on or behind a dependency cycle, each one once, and then dies with the
    number of the others, if there are any: on a graph with a cycle it never
    succeeds, and on one without a cycle it does just what its levels do. *)
Theorem schedule_reports_cycles {W} `{!World W} (n : nat) (s : state W) :
  let deps := map i_dep_inst (st_insts s) in deps_ok deps →
  ∃ levels stuck,
    concat levels ++ stuck ≡ₚ seq 0 (length deps) ∧
    (∀ i, i ∈ stuck ↔ behind_cycle deps i) ∧
    schedule_and_run n s =
      (mforeach (run_level n) levels ;;
       if decide (stuck = []) then mret tt
       else eprintf ("manifest: dependency cycle among " ++ pretty (length stuck) ++ " instances")) s ∧
    ((∃ c, tc (before deps) c c) → ∀ s', schedule_and_run n s ≠ Ok tt s') ∧
    ((∀ c, ¬ tc (before deps) c c) → schedule_and_run n s = mforeach (run_level n) levels s).
Proof.
  intros deps Hok. destruct (schedule_runs s n Hok) as (levels & Hall & Hord & E & Hnd). fold deps in Hall.
  set (stuck := filter (λ i, i ∉ concat levels) (seq 0 (length deps))). exists levels, stuck.
  assert (concat levels ++ stuck ≡ₚ seq 0 (length deps)) as Hperm.
  { apply NoDup_Permutation; [|apply NoDup_seq|].
    - apply NoDup_app. split_and!; [done| |apply NoDup_filter, NoDup_seq]. intros i Hi Hs. by apply list_elem_of_filter in Hs as [? _].
    - intros i. unfold stuck. rewrite elem_of_app, list_elem_of_filter, elem_of_seq, Hall. unfold deps. rewrite length_map.
      destruct (decide (i ∈ concat levels)) as [Hi|Hi]; [apply Hall in Hi; naive_solver lia|]. naive_solver lia. }
  assert (∀ i, i ∈ stuck ↔ behind_cycle deps i) as Hstuck.
  { intros i. unfold stuck. rewrite list_elem_of_filter, elem_of_seq. split.
    - intros [Hi Hlt]. apply (walk_cycle deps (λ i, i ∈ concat levels ∨ length deps ≤ i) i []); [|naive_solver lia|constructor|intros y []%elem_of_nil].
      intros j Hj. destruct (decide (length deps ≤ j)); [by right|left]. apply Hall. unfold deps in *. rewrite length_map in *. split; [lia|].
      constructor. intros d Hd. destruct (Hj d Hd) as [[_ ?]%Hall|Hge]; [done|].
      pose proof (deps_at_ok _ Hok j) as [_ Hin]. rewrite Forall_forall in Hin. specialize (Hin d Hd). rewrite length_map in Hin. lia.
    - intros Hi. split; [|apply behind_cycle_bound in Hi; lia]. intros [_ Hacc]%Hall. by apply (behind_cycle_not_acc deps i). }
  assert (length (concat levels) + length stuck = length (st_insts s)) as Hlen.
  { apply Permutation_length in Hperm. rewrite length_app, length_seq in Hperm. unfold deps in Hperm. by rewrite length_map in Hperm. }
  assert (schedule_and_run n s = (mforeach (run_level n) levels ;; if decide (stuck = []) then mret tt
    else eprintf ("manifest: dependency cycle among " ++ pretty (length stuck) ++ " instances")) s) as Erun.
  { rewrite E. unfold mbind. destruct (mforeach _ _ s) as [[] s'| | |]; try done.
    replace (length (st_insts s) - length (concat levels)) with (length stuck) by lia.
    destruct stuck; cbn [length] in *; [rewrite decide_False by lia; by rewrite decide_True|rewrite decide_True by lia; by rewrite decide_False]. }
  split_and!; [done..| |].
  - intros [c Hc] s'. rewrite Erun. unfold mbind. destruct (mforeach _ _ s) as [[] s1| | |]; try done.
    rewrite decide_False; [done|]. intros Hnil. assert (c ∈ stuck) as Hin by (apply Hstuck; by exists c). rewrite Hnil in Hin. by apply elem_of_nil in Hin.
  - intros Hno. rewrite Erun. rewrite decide_True; [unfold mbind; by destruct (mforeach _ _ s) as [[] s1| | |]|].
    apply elem_of_nil_inv. intros i (c & Hc & _)%Hstuck. by apply (Hno c).
Qed.

(** Two objects and a program that needs them, and a second program. *)
Definition demo_deps : list (list nat) := [[]; []; [0; 1]; [1]].

Lemma demo_deps_ok : deps_ok demo_deps.
Proof. repeat constructor; by_decide. Qed.

Definition demo_state : state sworld :=
  MkState (MkKv [] [] None [] [] []) [rule0 "obj"] [] [] []
    (map (λ d, inst0 0 <| i_dep_inst := d |>) demo_deps) [] [] 2 false false [] [] (sworld_of []).

Lemma schedule_runs_levels_witness :
  ∃ levels, NoDup (concat levels) ∧ (∀ i, i ∈ concat levels ↔ i < 4 ∧ Acc (before demo_deps) i).
Proof.
  destruct (schedule_runs_levels 10 demo_state) as (ls & H1 & H2 & _); [apply demo_deps_ok|].
  exists ls. split; [apply H1 | apply H2].
Defined.

(** The same with a dependency of the first object on a program that needs it. *)
Definition cyclic_state : state sworld :=
  demo_state <| st_insts := map (λ d, inst0 0 <| i_dep_inst := d |>) [[2]; []; [0; 1]; [1]] |>.

Lemma schedule_reports_cycles_witness : ∃ stuck : list nat,
  (∀ i, i ∈ stuck ↔ behind_cycle [[2]; []; [0; 1]; [1]] i) ∧ 0 ∈ stuck ∧ ∀ s', schedule_and_run 10 cyclic_state ≠ Ok tt s'.
Proof.
  destruct (schedule_reports_cycles 10 cyclic_state) as (ls & stuck & _ & Hs & _ & Hcyc & _).
  - repeat constructor; by_decide.
  - assert (tc (before [[2]; []; [0; 1]; [1]]) 0 0) as Hc.
    { apply (tc_l _ _ 2); [|apply tc_once]; unfold before; by_decide. }
    exists stuck. split; [exact Hs|]. split; [apply Hs; by exists 0|]. apply Hcyc. by exists 0.
Defined.
