(* ===== verification/SummaryFacts.v ===== *)
(** * The summary of -S

    In summary mode the schedule runs nothing: it leaves the world as it is and
    marks an instance for building exactly when the instance, or something it
    depends on through any number of steps, is stale. *)

From S2P Require Import Prelude CString Sexpr StrList Kv Gate World Registry Fs Exec.
From S2P Require Import Schedule ScheduleFacts.

Section summary.
Context {W : Type} `{!World W} (s0 : state W).
Let deps := map i_dep_inst (st_insts s0).

(** The instance or one of its transitive dependencies is stale. *)
Definition needs_build (i : nat) : Prop :=
  ∃ j inst, rtc (before deps) j i ∧ st_insts s0 !! j = Some inst ∧
    inst_stale (st_world s0) inst = true.

Lemma needs_build_step i inst :
  st_insts s0 !! i = Some inst →
  needs_build i ↔ inst_stale (st_world s0) inst = true ∨ ∃ d, before deps d i ∧ needs_build d.
Proof.
  intros Hi. split.
  - intros (j & instj & Hji & Hj & Hst). apply rtc_inv_r in Hji as [<- | (d & Hd & Hdi)].
    + left. by simplify_eq.
    + right. exists d. split; [done|]. by exists j, instj.
  - intros [Hst | (d & Hdi & j & instj & Hjd & Hj & Hst)].
    + by exists i, inst.
    + exists j, instj. split; [by eapply rtc_r | done].
Qed.

Definition erase (inst : Inst) : Inst := inst <| i_will_build := false |>.

(** The state with the instances of [P] summarised. *)
Record summarised (P : list nat) (s : state W) : Prop := {
  sum_insts : map erase (st_insts s) = map erase (st_insts s0);
  sum_rules : st_rules s = st_rules s0;
  sum_world : st_world s = st_world s0;
  sum_mode : st_summary_mode s = st_summary_mode s0;
  sum_will : ∀ i inst, i ∈ P → st_insts s !! i = Some inst →
    i_will_build inst = true ↔ needs_build i
}.

Lemma summarised_lookup P s i inst0 :
  summarised P s → st_insts s0 !! i = Some inst0 →
  ∃ inst, st_insts s !! i = Some inst ∧ erase inst = erase inst0.
Proof.
  intros [Hi _ _ _ _] H0. apply (f_equal (lookup i)) in Hi. rewrite !list_lookup_fmap, H0 in Hi.
  apply fmap_Some in Hi as (inst & -> & E). eauto.
Qed.

Lemma erase_stale w inst inst' :
  erase inst = erase inst' → inst_stale w inst = inst_stale w inst' ∧
  i_dep_inst inst = i_dep_inst inst' ∧ i_rule_idx inst = i_rule_idx inst'.
Proof. destruct inst, inst'. cbn. intros [= -> -> -> -> -> -> -> -> -> ->]. done. Qed.

(** The loop over the dependencies stops at the first one to be built. *)
Lemma will_fold P s ds b :
  summarised P s → (∀ d, d ∈ ds → d ∈ P ∧ is_Some (st_insts s0 !! d)) →
  ∃ will, mfold (λ (will : bool) d,
            if will then mret true else dep <- get_inst d ;; mret (i_will_build dep)) b ds s
          = Ok will s ∧ (will = true ↔ b = true ∨ ∃ d, d ∈ ds ∧ needs_build d).
Proof.
  intros Hs. revert b. induction ds as [|d ds IH]; intros b Hds.
  { exists b. split; [done|]. set_solver. }
  destruct (Hds d) as [HP [i0 Hi0]]; [left|].
  destruct (summarised_lookup _ _ _ _ Hs Hi0) as (inst & Hinst & _).
  destruct (IH (b || i_will_build inst)) as (will & E & Hw); [set_solver|].
  exists will. split.
  - cbn [mfold]. destruct b; [rewrite (bind_run _ _ s true s); done|].
    rewrite (bind_run _ _ s (i_will_build inst) s); [done|]. unfold get_inst, mbind, gets. by rewrite Hinst.
  - rewrite Hw, orb_true_iff, (sum_will _ _ Hs d inst) by done. set_solver.
Qed.

Lemma summarize_ok P s i inst0 :
  summarised P s → st_insts s0 !! i = Some inst0 → i_rule_idx inst0 < length (st_rules s0) →
  (∀ d, d ∈ i_dep_inst inst0 → d ∈ P ∧ is_Some (st_insts s0 !! d)) →
  ∃ s', summarize i s = Ok tt s' ∧ summarised (i :: P) s'.
Proof.
  intros Hs H0 Hr Hd. destruct (summarised_lookup _ _ _ _ Hs H0) as (inst & Hi & He).
  destruct (erase_stale (st_world s) _ _ He) as (Hst & Hdep & Hidx).
  destruct (will_fold P s (i_dep_inst inst) (inst_stale (st_world s) inst) Hs) as (will & Ew & Hw).
  { by rewrite Hdep. }
  assert (will = true ↔ needs_build i) as Hwill.
  { rewrite Hw, (needs_build_step _ _ H0), Hst, (sum_world _ _ Hs), Hdep. unfold before, deps.
    rewrite list_lookup_total_alt, list_lookup_fmap, H0. done. }
  destruct (lookup_lt_is_Some_2 (st_rules s) (i_rule_idx inst)) as [r Hrule].
  { by rewrite (sum_rules _ _ Hs), Hidx. }
  set (s1 := set st_insts (λ l, <[i := inst <| i_will_build := will |>]> l) s).
  assert (summarised (i :: P) s1) as Hs1.
  { destruct Hs as [H1 H2 H3 H4 H5]. split; [|done..|].
    - change (st_insts s1) with (<[i := inst <| i_will_build := will |>]> (st_insts s)).
      rewrite <- H1. apply list_eq. intros j. rewrite !list_lookup_fmap.
      destruct (decide (i = j)) as [<-|]; [|by rewrite list_lookup_insert_ne].
      rewrite list_lookup_insert_eq by (by eapply lookup_lt_Some). by rewrite Hi.
    - intros j instj Hj. change (st_insts s1) with (<[i := inst <| i_will_build := will |>]> (st_insts s)).
      destruct (decide (i = j)) as [<-|Hne].
      + rewrite list_lookup_insert_eq by (by eapply lookup_lt_Some). intros [= <-]. done.
      + rewrite list_lookup_insert_ne by done. intros ?. apply H5; set_solver. }
  unfold summarize. rewrite (bind_run _ _ s inst s) by (unfold get_inst, mbind, gets; by rewrite Hi).
  rewrite (bind_run _ _ s (st_world s) s), (bind_run _ _ s will s) by done.
  rewrite (bind_run _ _ s tt s1) by (unfold upd_inst, get_inst, mbind, gets; by rewrite Hi).
  assert (st_rules s1 !! i_rule_idx inst = Some r) as Hrule1 by done.
  rewrite (bind_run _ _ s1 r s1) by (unfold get_rule, mbind, gets; by rewrite Hrule1).
  destruct Hs1 as [G1 G2 G3 G4 G5].
  unfold printf, modify, mbind, mwhen, mret.
  destruct (negb _), will; eexists; (split; [reflexivity|]); by split.
Qed.

Context (Hok : deps_ok deps) (Hrules : Forall (λ i, i_rule_idx i < length (st_rules s0)) (st_insts s0)).

Lemma dep_known i inst d :
  st_insts s0 !! i = Some inst → d ∈ i_dep_inst inst → is_Some (st_insts s0 !! d).
Proof using Hok.
  intros Hi Hd. apply lookup_lt_is_Some_2. pose proof (deps_at_ok deps Hok i) as [_ Hin].
  rewrite Forall_forall in Hin. unfold deps in Hin. rewrite length_map in Hin. apply Hin.
  by rewrite list_lookup_total_alt, list_lookup_fmap, Hi.
Qed.

Lemma summarize_level P lev s :
  summarised P s →
  (∀ i, i ∈ lev → i < length (st_insts s0) ∧ ∀ d, before deps d i → d ∈ P) →
  ∃ s', mforeach summarize lev s = Ok tt s' ∧ summarised (reverse lev ++ P) s'.
Proof using Hok Hrules.
  revert P s. induction lev as [|i lev IH]; intros P s Hs Hlev; [by exists s|].
  destruct (Hlev i) as [Hi Hd]; [left|]. destruct (lookup_lt_is_Some_2 _ _ Hi) as [inst Hinst].
  assert (∀ d, d ∈ i_dep_inst inst → before deps d i) as Hbef.
  { intros d. unfold before, deps. by rewrite list_lookup_total_alt, list_lookup_fmap, Hinst. }
  destruct (summarize_ok P s i inst) as (s1 & E1 & Hs1); [done..| |intros d ?; split; eauto using dep_known|].
  { rewrite Forall_lookup in Hrules. eauto. }
  destruct (IH (i :: P) s1 Hs1) as (s' & E & Hs').
  { intros j Hj. destruct (Hlev j) as [? Hdj]; [by right|]. split; [done|]. intros d ?. right. auto. }
  exists s'. split; [cbn [mforeach]; by rewrite (bind_run _ _ _ _ _ E1)|].
  by rewrite reverse_cons, <- app_assoc.
Qed.

Lemma summarize_levels n P ls s :
  st_summary_mode s0 = true → summarised P s →
  (∀ pre lev post i, ls = pre ++ lev :: post → i ∈ lev →
     i < length (st_insts s0) ∧ ∀ d, before deps d i → d ∈ P ++ concat pre) →
  ∃ s', mforeach (run_level n) ls s = Ok tt s' ∧
    ∃ Q, summarised Q s' ∧ ∀ i, i ∈ P ++ concat ls → i ∈ Q.
Proof using Hok Hrules.
  intros Hmode. revert P s. induction ls as [|lev ls IH]; intros P s Hs Hls.
  { exists s. split; [done|]. exists P. split; [done|]. set_solver. }
  destruct (summarize_level P lev s Hs) as (s1 & E1 & Hs1).
  { intros i Hi. destruct (Hls [] lev ls i) as [? Hd]; [done..|]. split; [done|]. simpl in Hd.
    by rewrite app_nil_r in Hd. }
  destruct (IH _ _ Hs1) as (s' & E & Q & HQ & Hin).
  { intros pre lev' post i -> Hi. destruct (Hls (lev :: pre) lev' post i) as [? Hd]; [done..|].
    split; [done|]. intros d Hbd. specialize (Hd d Hbd). simpl in Hd.
    rewrite !elem_of_app, ?elem_of_reverse in *. tauto. }
  exists s'. split.
  - cbn [mforeach]. rewrite (bind_run _ _ s tt s1); [done|]. unfold run_level.
    rewrite (bind_run _ _ s true s); [done|]. unfold gets. by rewrite (sum_mode _ _ Hs), Hmode.
  - exists Q. split; [done|]. intros i Hi. apply Hin. simpl in Hi.
    rewrite !elem_of_app, ?elem_of_reverse in *. tauto.
Qed.
End summary.

(** C23: in summary mode, on an acyclic graph, the schedule terminates without
    touching the world and marks exactly the instances that are stale or depend,
    directly or not, on a stale one. *)
Theorem summary_exact {W} `{!World W} (n : nat) (s : state W) :
  deps_ok (map i_dep_inst (st_insts s)) →
  Forall (λ i, i_rule_idx i < length (st_rules s)) (st_insts s) →
  (∀ i, ¬ tc (before (map i_dep_inst (st_insts s))) i i) →
  st_summary_mode s = true →
  ∃ s', schedule_and_run n s = Ok tt s' ∧ st_world s' = st_world s ∧
    map erase (st_insts s') = map erase (st_insts s) ∧
    ∀ i inst, st_insts s' !! i = Some inst → i_will_build inst = true ↔ needs_build s i.
Proof.
  intros Hok Hr Hac Hm. destruct (schedule_runs s n Hok) as (levels & Hall & Hord & E & _).
  assert (∀ i, i < length (st_insts s) → i ∈ concat levels) as Hcov.
  { intros i Hi. apply Hall. split; [done|]. by apply acyclic_acc. }
  destruct (summarize_levels s Hok Hr n [] levels s Hm) as (s' & E' & Q & HQ & Hin).
  { split; done || (by intros ?? ?%elem_of_nil). }
  { intros pre lev post i Els Hi. split; [|intros d Hd; simpl; by eapply Hord].
    apply Hall. rewrite Els, concat_app. simpl. set_solver. }
  exists s'. rewrite E, (bind_run _ _ _ _ _ E'). split_and!; [| apply HQ | apply HQ |].
  - rewrite decide_False; [done|]. intros Hlt.
    assert (seq 0 (length (st_insts s)) ⊆+ concat levels) as Hge%submseteq_length.
    { apply NoDup_submseteq; [apply NoDup_seq|]. intros i Hi%elem_of_seq. apply Hcov. lia. }
    rewrite length_seq in Hge. lia.
  - intros i inst Hi. apply (sum_will _ _ _ HQ); [|done]. apply Hin, Hcov.
    apply lookup_lt_Some in Hi. pose proof (f_equal length (sum_insts _ _ _ HQ)) as Hl.
    rewrite !length_map in Hl. lia.
Qed.

Lemma demo_deps_acyclic i : ¬ tc (before demo_deps) i i.
Proof.
  assert (∀ d j, before demo_deps d j → d < j) as Hlt.
  { intros d j Hd. unfold before in Hd. do 4 (destruct j as [|j]; [cbn in Hd; set_solver by lia|]).
    cbn in Hd. by apply elem_of_nil in Hd. }
  intros H. enough (i < i) by lia. revert H. generalize i at 2 4. intros j H.
  induction H as [x y H|x y z H _ IH]; [by apply Hlt|]. apply Hlt in H. lia.
Qed.

Lemma summary_exact_witness :
  let s := demo_state <| st_summary_mode := true |> in
  ∃ s', schedule_and_run 10 s = Ok tt s' ∧ st_world s' = st_world s.
Proof.
  intros s. destruct (summary_exact 10 s) as (s' & E & Hw & _); [apply demo_deps_ok | | apply demo_deps_acyclic | reflexivity |].
  - repeat constructor.
  - exists s'. split; [exact E | exact Hw].
Defined.
