(* ===== verification/Ninja.v ===== *)
(** * The ninja generator: src/cmd/dev/ninqu/ninja.c

    The text of build.ninja, built from the instances.  The readers of that text
    (ninja and the shell ninja runs) are not part of the repository; what their
    documentation says about escapes and quoting is written out below as
    reference readers, and the theorems say that they read back what was meant:
    a path escapes to itself, and a command line comes back as its argument
    vector. *)

From S2P Require Import Prelude CString Sexpr StrList Kv Gate World Registry Fs Exec.

(** ** Escapes and quotes *)

Definition ninja_special (c : ascii) : bool := bool_decide (c ∈ ["$"; ":"; " "]%char).

Fixpoint ninja_path_escape (s : cstr) : cstr :=
  match s with
  | [] => []
  | c :: r => (if ninja_special c then ["$"%char; c] else [c]) ++ ninja_path_escape r
  end.

(** What one character becomes inside the single quotes. *)
Definition quote_char (c : ascii) : cstr :=
  if decide (c = SQ) then [SQ; BSL; SQ; SQ]
  else if decide (c = "$"%char) then "$$"
  else [c].

Definition fprint_shell_word_plain (s : cstr) : cstr := SQ :: (s ≫= quote_char) ++ [SQ].

Definition quote_char_b (c : ascii) : cstr :=
  if decide (c = SQ) then [SQ; BSL; SQ; SQ]
  else if decide (c = "$"%char) then "$$"
  else if decide (c = BSL) then [BSL; BSL]
  else if decide (c = NL) then [BSL; "n"%char]
  else [c].

Definition printf_open : cstr := DQ :: "$$(printf '%b' '".
Definition printf_close : cstr := "')" ++ [DQ].

Definition fprint_shell_word (s : cstr) : cstr :=
  if decide (NL ∈ s) then printf_open ++ (s ≫= quote_char_b) ++ printf_close
  else fprint_shell_word_plain s.

(** ** Commands *)

Definition compilers : list cstr := lits ["cc"; "gcc"; "clang"; "g++"; "c++"].

Definition is_cc_compile (inst : Inst) : bool :=
  match argv (i_cmd inst) with
  | prog :: ((_ :: _) as args) =>
      if i_phony inst || bool_decide (i_out inst = []) || is_pipe (i_cmd inst) then false
      else
        bool_decide (".o" `suffix_of` i_out inst)
        && bool_decide (base_of prog ∈ compilers)
        && bool_decide (lit "-c" ∈ args)
  | _ => false
  end.

(** Words separated by one blank. *)
Fixpoint shell_words (l : StrList) : cstr :=
  match l with
  | [] => []
  | [w] => fprint_shell_word w
  | w :: l' => fprint_shell_word w ++ " " ++ shell_words l'
  end.

Fixpoint shell_stages (l : list StrList) : cstr :=
  match l with
  | [] => []
  | [st] => shell_words st
  | st :: l' => shell_words st ++ " | " ++ shell_stages l'
  end.

(** The argument vector, with the depfile flags after the compiler's name. *)
Definition exec_text (is_cc : bool) (out : cstr) (av : StrList) : cstr :=
  match av with
  | [] => []
  | w :: l =>
      fprint_shell_word w
      ++ (if is_cc then " -MMD -MF " ++ fprint_shell_word out ++ ".d" else [])
      ++ match l with [] => [] | _ => " " ++ shell_words l end
  end.

Definition emit_command (inst : Inst) : cstr :=
  (if decide (i_workdir inst = []) then []
   else "cd " ++ fprint_shell_word (i_workdir inst) ++ " && ")
  ++ (if is_pipe (i_cmd inst) then shell_stages (stages (i_cmd inst))
      else exec_text (is_cc_compile inst) (i_out inst) (argv (i_cmd inst)))
  ++ (if i_redirect inst then " > " ++ fprint_shell_word (i_out inst) else []).

(** ** The file *)

Section emit.
Context {W : Type} `{!World W}.

Definition inst_target (inst : Inst) (idx : nat) : M (state W) cstr :=
  if decide (i_out inst = []) then
    r <- get_rule (i_rule_idx inst) ;;
    mret (trunc 1024 ("__ninqu_phony__" ++ r_name r ++ "_" ++ pretty idx))
  else mret (i_out inst).

Definition target_of (idx : nat) : M (state W) cstr :=
  inst <- get_inst idx ;; inst_target inst idx.

(** The texts of a loop, one after the other. *)
Definition mconcat {A} (f : A → M (state W) cstr) (l : list A) : M (state W) cstr :=
  mfold (λ acc x, t <- f x ;; mret (acc ++ t)) [] l.

Definition emit_rule (idx : nat) : M (state W) cstr :=
  inst <- get_inst idx ;;
  r <- get_rule (i_rule_idx inst) ;;
  mret ("rule r" ++ pretty idx ++ [NL]
        ++ "  description = " ++ r_name r ++ " " ++ show_out (i_out inst) ++ [NL]
        ++ (if is_cc_compile inst then
              "  depfile = " ++ ninja_path_escape (i_out inst) ++ ".d" ++ [NL]
              ++ "  deps = gcc" ++ [NL]
            else [])
        ++ "  command = " ++ emit_command inst ++ [NL; NL]).

Definition path_item (p : cstr) : cstr := " " ++ ninja_path_escape p.

(** Order-only dependencies that are not inputs already; the bar is printed
    before the first one. *)
Definition emit_order_only (inst : Inst) : M (state W) cstr :=
  outs <- mfold (λ acc d,
            o <- target_of d ;;
            mret (if sl_has (i_in inst) o || sl_has (i_stale_extra inst) o then acc
                  else acc ++ [o])) [] (i_dep_inst inst) ;;
  mret (match outs with [] => [] | _ => " ||" ++ (outs ≫= path_item) end).

Definition emit_build (idx : nat) : M (state W) cstr :=
  inst <- get_inst idx ;;
  out <- inst_target inst idx ;;
  oo <- emit_order_only inst ;;
  mret ("build " ++ ninja_path_escape out ++ ": r" ++ pretty idx
        ++ (i_in inst ≫= path_item) ++ (i_stale_extra inst ≫= path_item) ++ oo ++ [NL]).

(** A phony alias for a word of the command line that is not an output. *)
Definition emit_alias (targets : StrList) (name : cstr) : cstr :=
  if sl_has targets name then []
  else "build " ++ ninja_path_escape name ++ ": phony" ++ (targets ≫= path_item) ++ [NL].

Definition ninja_text (wanted : StrList) : M (state W) cstr :=
  n <- gets (λ s, length (st_insts s)) ;;
  rs <- mconcat emit_rule (seq 0 n) ;;
  bs <- mconcat emit_build (seq 0 n) ;;
  targets <- mmap target_of (seq 0 n) ;;
  mret ("# autogenerated by `ninqu -G ninja`, do not edit" ++ [NL]
        ++ "ninja_required_version = 1.3" ++ [NL; NL]
        ++ rs ++ bs
        ++ [NL] ++ "default" ++ (targets ≫= path_item) ++ [NL]
        ++ (wanted ≫= emit_alias targets)).

(** The file is opened first, written and closed; both calls can fail. *)
Definition emit_ninja (path : cstr) (wanted : StrList) : M (state W) unit :=
  text <- ninja_text wanted ;;
  w <- gets st_world ;;
  match w_write w path text with
  | None => eprintf ("emit_ninja: open " ++ path ++ ":")
  | Some w' =>
      modify (set st_world (λ _, w')) ;;
      printf ("  GEN        " ++ path ++ [NL])
  end.
End emit.

(** ** Reference readers *)

(** ninja's manual: in a path, [$] followed by [$], a blank or a colon stands
    for that character; a blank, a colon or the end of the line ends the path. *)
Fixpoint ninja_read_path (s : cstr) : option (cstr * cstr) :=
  match s with
  | [] => Some ([], [])
  | c :: r =>
      if decide (c = "$"%char) then
        match r with
        | d :: r' =>
            if ninja_special d then
              match ninja_read_path r' with Some (p, e) => Some (d :: p, e) | None => None end
            else None
        | [] => None
        end
      else if decide (c = " "%char ∨ c = ":"%char ∨ c = NL) then Some ([], s)
      else match ninja_read_path r with Some (p, e) => Some (c :: p, e) | None => None end
  end.

(** The value of [command = ...]: a doubled dollar is a dollar, any other use of
    one is a reference; the value ends with the line. *)
Fixpoint ninja_value (s : cstr) : option cstr :=
  match s with
  | [] => Some []
  | c :: r =>
      if decide (c = "$"%char) then
        match r with
        | d :: r' => if decide (d = "$"%char) then cons c <$> ninja_value r' else None
        | [] => None
        end
      else if decide (c = NL) then None
      else cons c <$> ninja_value r
  end.

(** The shell's tokens on the characters that need no further evaluation:
    blanks, single quotes, a backslash outside quotes, the operators && | > and
    plain characters.  [None] stands for an unclosed quote and for every
    character that would start an expansion or another construct.  [w] is the
    word being read, [q] says whether a quote is open. *)
Inductive token := Word (w : cstr) | AndIf | Pipe | Great.

Definition sh_plain (c : ascii) : bool :=
  negb (bool_decide (c ∈ ["$"; "`"; DQ; "&"; ";"; "<"; "("; ")"; "*"; "?"; "["; "#"; "~";
                          "="; "%"; NL; TAB; "{"; "}"; "!"]%char)).

Definition flush_word (w : option cstr) (l : list token) : list token :=
  match w with Some x => Word x :: l | None => l end.

Fixpoint sh_tokens (q : bool) (w : option cstr) (s : cstr) : option (list token) :=
  match s with
  | [] => if q then None else Some (flush_word w [])
  | c :: r =>
      if q then
        if decide (c = SQ) then sh_tokens false w r
        else sh_tokens true (Some (default [] w ++ [c])) r
      else if decide (c = SQ) then sh_tokens true (Some (default [] w)) r
      else if decide (c = BSL) then
        match r with
        | d :: r' => sh_tokens false (Some (default [] w ++ [d])) r'
        | [] => None
        end
      else if decide (c = " "%char) then flush_word w <$> sh_tokens false None r
      else if decide (c = "|"%char) then flush_word w ∘ cons Pipe <$> sh_tokens false None r
      else if decide (c = ">"%char) then flush_word w ∘ cons Great <$> sh_tokens false None r
      else if decide (c = "&"%char) then
        match r with
        | d :: r' =>
            if decide (d = "&"%char) then flush_word w ∘ cons AndIf <$> sh_tokens false None r'
            else None
        | [] => None
        end
      else if sh_plain c then sh_tokens false (Some (default [] w ++ [c])) r
      else None
  end.

(** The tokens of a [command = ...] line. *)
Definition read_command (s : cstr) : option (list token) :=
  v ← ninja_value s; sh_tokens false None v.

(** The text of the escapes of [printf '%b'] that the generator uses. *)
Fixpoint percent_b (s : cstr) : option cstr :=
  match s with
  | [] => Some []
  | c :: r =>
      if decide (c = BSL) then
        match r with
        | d :: r' =>
            if decide (d = BSL) then cons BSL <$> percent_b r'
            else if decide (d = "n"%char) then cons NL <$> percent_b r'
            else None
        | [] => None
        end
      else cons c <$> percent_b r
  end.

(** ** Paths *)

(** What may follow a path in a build statement. *)
Definition path_end (rest : cstr) : Prop :=
  match rest with [] => True | c :: _ => c = " "%char ∨ c = ":"%char ∨ c = NL end.

(** an escaped path without a newline is read back by ninja as that path,
    whatever characters it holds, and reading stops where the path ends. *)
Theorem ninja_path_roundtrip s rest :
  NL ∉ s → path_end rest →
  ninja_read_path (ninja_path_escape s ++ rest) = Some (s, rest).
Proof.
  intros Hs Hr. induction s as [|c s IH]; simpl.
  - destruct rest as [|c r]; [done|]. simpl in *.
    rewrite decide_False by (intros ->; destruct Hr as [|[|]]; done). by rewrite decide_True.
  - unfold ninja_special at 1. case_bool_decide as Hc; simpl.
    + unfold ninja_special. rewrite bool_decide_true by done. by rewrite IH by set_solver.
    + rewrite !decide_False by set_solver. by rewrite IH by set_solver.
Qed.

Lemma ninja_path_roundtrip_witness :
  ninja_read_path (ninja_path_escape "a b$c:d.o" ++ ": r0") = Some (lit "a b$c:d.o", lit ": r0").
Proof. apply ninja_path_roundtrip; [by_decide | by right; left]. Defined.

(** ** Commands *)

Lemma ninja_value_app a b x :
  ninja_value a = Some x → ninja_value (a ++ b) = app x <$> ninja_value b.
Proof.
  remember (length a) as n eqn:Hn. assert (length a ≤ n) as Hle by lia. clear Hn.
  revert a x Hle. induction n as [|n IH]; intros [|c a] x Hle; simpl in Hle; try lia.
  1, 2: intros [= <-]; simpl; destruct (ninja_value b); done.
  simpl. case_decide as Hc.
  - destruct a as [|d a]; [done|]. simpl. case_decide; [|done].
    intros (y & Hy & ->)%fmap_Some. rewrite (IH a y) by (simpl in Hle; done || lia).
    by destruct (ninja_value b).
  - case_decide; [done|]. intros (y & Hy & ->)%fmap_Some.
    rewrite (IH a y) by (done || lia). by destruct (ninja_value b).
Qed.

Lemma ninja_value_concat (f g : ascii → cstr) s b :
  (∀ c, c ∈ s → ninja_value (f c) = Some (g c)) →
  ninja_value ((s ≫= f) ++ b) = app (s ≫= g) <$> ninja_value b.
Proof.
  induction s as [|c s IH]; intros H; [by simpl; destruct (ninja_value b)|].
  rewrite !bind_cons, <- app_assoc, (ninja_value_app _ _ (g c)) by (apply H; left).
  rewrite IH by set_solver. destruct (ninja_value b); simpl; [|done]. by rewrite app_assoc.
Qed.

(** A character as the shell sees it inside the quotes. *)
Definition sq_char (c : ascii) : cstr := if decide (c = SQ) then [SQ; BSL; SQ; SQ] else [c].

Lemma ninja_value_plain s b :
  NL ∉ s →
  ninja_value (fprint_shell_word s ++ b) = app (SQ :: (s ≫= sq_char) ++ [SQ]) <$> ninja_value b.
Proof.
  intros Hs. unfold fprint_shell_word, fprint_shell_word_plain. rewrite decide_False by done.
  cbn [app ninja_value]. rewrite decide_False by done. rewrite decide_False by done.
  rewrite <- app_assoc, (ninja_value_concat _ sq_char).
  - cbn [app ninja_value]. rewrite !decide_False by done.
    destruct (ninja_value b); simpl; [|done]. by rewrite <- app_assoc.
  - intros c Hc. unfold quote_char, sq_char. case_decide; [done|].
    case_decide as Hd; [by subst|]. simpl. rewrite decide_False by done.
    rewrite decide_False by (by intros ->). done.
Qed.

Lemma sh_tokens_quoted s w r :
  sh_tokens true (Some w) ((s ≫= sq_char) ++ SQ :: r) = sh_tokens false (Some (w ++ s)) r.
Proof.
  revert w. induction s as [|c s IH]; intros w.
  - simpl. by rewrite app_nil_r.
  - rewrite bind_cons, <- app_assoc. unfold sq_char at 1. case_decide as Hc.
    + subst. transitivity (sh_tokens true (Some (w ++ [SQ])) ((s ≫= sq_char) ++ SQ :: r)); [done|].
      by rewrite IH, <- app_assoc.
    + cbn [app sh_tokens]. rewrite decide_False by done. cbn. by rewrite IH, <- app_assoc.
Qed.

(** Text in front of which the shell stands between two tokens. *)
Lemma read_word s r :
  NL ∉ s →
  read_command (fprint_shell_word s ++ r) = v ← ninja_value r; sh_tokens false (Some s) v.
Proof.
  intros Hs. unfold read_command. rewrite ninja_value_plain by done. simpl.
  destruct (ninja_value r) as [v|]; simpl; [|done].
  rewrite <- app_assoc. apply (sh_tokens_quoted s []).
Qed.

(** [a] reads as the tokens [ts] in front of a blank and at the end. *)
Definition reads (a : cstr) (ts : list token) : Prop :=
  ∀ r, r = [] ∨ (∃ r', r = " "%char :: r') → read_command (a ++ r) = app ts <$> read_command r.

Lemma read_blank r : read_command (" "%char :: r) = read_command r.
Proof. unfold read_command. simpl. destruct (ninja_value r) as [v|]; simpl; [|done].
  by destruct (sh_tokens false None v). Qed.

Lemma reads_nil : reads [] [].
Proof. intros r _. simpl. by destruct (read_command r). Qed.

Lemma reads_blank a b ts us : reads a ts → reads b us → reads (a ++ " " ++ b) (ts ++ us).
Proof.
  intros Ha Hb r Hr. rewrite <- app_assoc. rewrite Ha by (right; eexists; done).
  change ((" " ++ b) ++ r) with (" "%char :: (b ++ r)). rewrite read_blank, Hb by done.
  destruct (read_command r); simpl; [by rewrite app_assoc | done].
Qed.

Lemma reads_word s : NL ∉ s → reads (fprint_shell_word s) [Word s].
Proof.
  intros Hs r [-> | [r' ->]]; rewrite read_word by done; [done|]. unfold read_command. simpl.
  destruct (ninja_value r') as [v|]; simpl; [|done]. by destruct (sh_tokens false None v).
Qed.

(** Literal text of the generator. *)
Lemma reads_literal (a : cstr) t :
  ninja_value a = Some a → sh_tokens false None a = Some [t] →
  (∀ v, sh_tokens false None (a ++ " "%char :: v) = cons t <$> sh_tokens false None v) →
  reads a [t].
Proof.
  intros Hv H0 Ha r Hr. unfold read_command. rewrite (ninja_value_app _ _ _ Hv).
  destruct Hr as [-> | [r' ->]]; simpl.
  - rewrite app_nil_r. done.
  - destruct (ninja_value r') as [v|]; simpl; [|done]. rewrite Ha.
    by destruct (sh_tokens false None v).
Qed.

Ltac reads_lit :=
  apply reads_literal; [reflexivity | reflexivity |];
  let v := fresh in intros v; simpl; destruct (sh_tokens false None v); reflexivity.

Lemma reads_and : reads "&&" [AndIf].
Proof. reads_lit. Qed.
Lemma reads_pipe : reads "|" [Pipe].
Proof. reads_lit. Qed.
Lemma reads_great : reads ">" [Great].
Proof. reads_lit. Qed.
Lemma reads_cd : reads "cd" [Word "cd"].
Proof. reads_lit. Qed.
Lemma reads_MMD : reads "-MMD" [Word "-MMD"].
Proof. reads_lit. Qed.
Lemma reads_MF : reads "-MF" [Word "-MF"].
Proof. reads_lit. Qed.

Lemma reads_depfile s : NL ∉ s → reads (fprint_shell_word s ++ ".d") [Word (s ++ ".d")].
Proof.
  intros Hs r Hr. rewrite <- app_assoc, read_word by done.
  destruct Hr as [-> | [r' ->]]; unfold read_command; simpl; [by rewrite <- app_assoc|].
  destruct (ninja_value r') as [v|]; simpl; [|done].
  destruct (sh_tokens false None v); simpl; by rewrite <- ?app_assoc.
Qed.
Create HintDb reads.
#[export] Hint Resolve reads_nil reads_word reads_and reads_pipe reads_great reads_cd reads_MMD
  reads_MF reads_depfile : reads.

Lemma reads_words l : Forall (λ s, NL ∉ s) l → reads (shell_words l) (map Word l).
Proof.
  induction 1 as [|s [|s' l] Hs Hl IH]; [apply reads_nil | by apply reads_word |].
  by apply (reads_blank _ _ [_]); [apply reads_word|].
Qed.

(** The stages of a pipeline as tokens. *)
Fixpoint stage_tokens (l : list StrList) : list token :=
  match l with
  | [] => []
  | [st] => map Word st
  | st :: l' => map Word st ++ Pipe :: stage_tokens l'
  end.

Lemma reads_stages l : Forall (Forall (λ s, NL ∉ s)) l → reads (shell_stages l) (stage_tokens l).
Proof.
  induction 1 as [|st [|st' l] Hs Hl IH]; [apply reads_nil | by apply reads_words |].
  apply (reads_blank _ ("| " ++ shell_stages (st' :: l))); [by apply reads_words|].
  by apply (reads_blank "|" _ [_]); [apply reads_pipe|].
Qed.

(** ** The whole command line *)

(** What ninqu itself would run for an instance: a change of directory, the
    argument vector (with the flags that make a compiler write a depfile) or the
    pipeline, and the redirection. *)
Definition command_tokens (inst : Inst) : list token :=
  (if decide (i_workdir inst = []) then [] else [Word "cd"; Word (i_workdir inst); AndIf])
  ++ (if is_pipe (i_cmd inst) then stage_tokens (stages (i_cmd inst))
      else match argv (i_cmd inst) with
           | [] => []
           | w :: l =>
               Word w :: (if is_cc_compile inst
                          then [Word "-MMD"; Word "-MF"; Word (i_out inst ++ ".d")] else [])
               ++ map Word l
           end)
  ++ (if i_redirect inst then [Great; Word (i_out inst)] else []).

Definition newline_free (inst : Inst) : Prop :=
  NL ∉ i_workdir inst ∧ NL ∉ i_out inst ∧ Forall (λ s, NL ∉ s) (argv (i_cmd inst)) ∧
  Forall (Forall (λ s, NL ∉ s)) (stages (i_cmd inst)).

Lemma reads_exec is_cc out w l :
  NL ∉ out → Forall (λ s, NL ∉ s) (w :: l) →
  reads (exec_text is_cc out (w :: l))
    (Word w :: (if is_cc then [Word "-MMD"; Word "-MF"; Word (out ++ ".d")] else []) ++ map Word l).
Proof.
  intros Ho [Hw Hl]%Forall_cons. unfold exec_text.
  assert (∀ a ts, reads a ts → reads (a ++ match l with [] => [] | _ => " " ++ shell_words l end)
                                    (ts ++ map Word l)) as Hrest.
  { intros a ts Ha. destruct l as [|x l]; [by rewrite !app_nil_r|].
    apply reads_blank; [done | by apply reads_words]. }
  rewrite app_assoc. destruct is_cc; [|apply (Hrest _ [_]); rewrite app_nil_r; by apply reads_word].
  apply (Hrest _ [_; _; _; _]).
  apply (reads_blank _ ("-MMD -MF " ++ fprint_shell_word out ++ ".d") [_] [_; _; _]);
    [by apply reads_word|].
  apply (reads_blank "-MMD" ("-MF " ++ fprint_shell_word out ++ ".d") [_] [_; _]); [auto with reads|].
  apply (reads_blank "-MF" _ [_] [_]); auto with reads.
Qed.

Lemma reads_body inst :
  newline_free inst →
  reads (if is_pipe (i_cmd inst) then shell_stages (stages (i_cmd inst))
         else exec_text (is_cc_compile inst) (i_out inst) (argv (i_cmd inst)))
    (if is_pipe (i_cmd inst) then stage_tokens (stages (i_cmd inst))
     else match argv (i_cmd inst) with
          | [] => []
          | w :: l =>
              Word w :: (if is_cc_compile inst
                         then [Word "-MMD"; Word "-MF"; Word (i_out inst ++ ".d")] else [])
              ++ map Word l
          end).
Proof.
  intros (_ & Ho & Ha & Hst). destruct (is_pipe _); [by apply reads_stages|].
  destruct (argv _); [apply reads_nil | by apply reads_exec].
Qed.

Lemma reads_cd_prefix wd a ts :
  NL ∉ wd → reads a ts →
  reads (("cd " ++ fprint_shell_word wd ++ " && ") ++ a) ([Word "cd"; Word wd; AndIf] ++ ts).
Proof.
  intros Hw Ha. rewrite <- !app_assoc.
  change (lit "cd " ++ ?x) with (lit "cd" ++ " " ++ x). change (lit " && " ++ a) with (lit " " ++ lit "&&" ++ " " ++ a).
  apply (reads_blank _ _ [_] (_ :: _)); [auto with reads|].
  apply (reads_blank _ _ [_] (_ :: _)); [auto with reads|].
  by apply (reads_blank _ _ [_]); [auto with reads|].
Qed.

(** C12: for an instance whose words hold no newline, ninja and the shell read
    the generated command as exactly the directory change, the argument vector
    or pipeline, and the redirection of the instance: no character of a word is
    ever taken for shell or ninja syntax.  Into the arguments of a compile the
    generator puts -MMD, -MF and the name of the dependency file. *)
Theorem emit_command_tokens inst :
  newline_free inst → read_command (emit_command inst) = Some (command_tokens inst).
Proof.
  intros Hi. pose proof (reads_body inst Hi) as Hb. destruct Hi as (Hw & Ho & _ & _).
  unfold emit_command, command_tokens. set (body := if is_pipe _ then _ else _) in *.
  set (bt := if is_pipe _ then stage_tokens _ else _) in *.
  assert (reads (body ++ (if i_redirect inst then " > " ++ fprint_shell_word (i_out inst) else []))
            (bt ++ (if i_redirect inst then [Great; Word (i_out inst)] else []))) as Hs.
  { destruct (i_redirect inst); [|by rewrite !app_nil_r].
    apply (reads_blank _ ("> " ++ fprint_shell_word (i_out inst))); [done|].
    apply (reads_blank ">" _ [_] [_]); auto with reads. }
  enough (∀ a ts, reads a ts → read_command a = Some ts) as Hfin.
  { apply Hfin. destruct (decide _); [done | by apply reads_cd_prefix]. }
  intros a ts Ha. rewrite <- (app_nil_r a), Ha by (by left). simpl. by rewrite app_nil_r.
Qed.

Definition demo_inst : Inst :=
  inst0 0 <| i_out := lit "obj/a b.o" |> <| i_workdir := lit "sub$dir" |>
          <| i_cmd := MkCmd [lit "cc"; lit "-c"; lit "-DX='1 $(y)'"] false [] |>
          <| i_redirect := true |>.

Lemma emit_command_tokens_witness :
  read_command (emit_command demo_inst)
  = Some [Word "cd"; Word "sub$dir"; AndIf; Word "cc"; Word "-MMD"; Word "-MF"; Word "obj/a b.o.d";
          Word "-c"; Word "-DX='1 $(y)'"; Great; Word "obj/a b.o"].
Proof.
  apply (emit_command_tokens demo_inst). unfold newline_free.
  split_and!; [by_decide..|]. apply Forall_nil_2.
Defined.

(** ** Words with newlines *)

Lemma bind_bind {A B C} (f : A → list B) (g : B → list C) l :
  (l ≫= f) ≫= g = l ≫= (λ x, f x ≫= g).
Proof. induction l as [|x l IH]; [done|]. by rewrite !bind_cons, bind_app, IH. Qed.

Lemma percent_b_quote s :
  percent_b (s ≫= λ c, if decide (c = BSL) then [BSL; BSL]
                       else if decide (c = NL) then [BSL; "n"%char] else [c]) = Some s.
Proof.
  induction s as [|c s IH]; [done|]. rewrite bind_cons.
  case_decide as H1; [subst; simpl; by rewrite IH|].
  case_decide as H2; [subst; simpl; by rewrite IH|].
  cbn [app percent_b]. rewrite decide_False by done. by rewrite IH.
Qed.

(** a word with a newline becomes a command substitution of [printf '%b'];
    its argument is one shell word, which printf turns back into the original
    text.  (The substitution itself then drops trailing newlines.) *)
Theorem shell_word_newline s :
  NL ∈ s →
  ∃ body arg,
    ninja_value (fprint_shell_word s) = Some (DQ :: "$(printf '%b' " ++ body ++ ")" ++ [DQ]) ∧
    sh_tokens false None body = Some [Word arg] ∧ percent_b arg = Some s.
Proof.
  intros Hs. set (esc := λ c, if decide (c = BSL) then [BSL; BSL]
                       else if decide (c = NL) then [BSL; "n"%char] else [c]).
  exists (SQ :: ((s ≫= esc) ≫= sq_char) ++ [SQ]), (s ≫= esc).
  split_and!; [| | apply percent_b_quote].
  2: { change (sh_tokens true (Some []) (((s ≫= esc) ≫= sq_char) ++ SQ :: []) = Some [Word (s ≫= esc)]).
       by rewrite sh_tokens_quoted. }
  unfold fprint_shell_word. rewrite decide_True by done.
  rewrite (ninja_value_app printf_open _ (DQ :: "$(printf '%b' '")) by done.
  rewrite (ninja_value_concat _ (λ c, esc c ≫= sq_char)).
  - change (ninja_value printf_close) with (Some printf_close). simpl.
    rewrite <- app_assoc, bind_bind. done.
  - intros c _. unfold quote_char_b, esc.
    destruct (decide (c = SQ)) as [->|]; [done|]. destruct (decide (c = "$"%char)) as [->|]; [done|].
    destruct (decide (c = BSL)) as [->|]; [done|]. destruct (decide (c = NL)) as [->|]; [done|].
    simpl. unfold sq_char. rewrite !decide_False by done. done.
Qed.

Lemma shell_word_newline_witness :
  ∃ body arg,
    ninja_value (fprint_shell_word (lit "a" ++ [NL] ++ lit "it's"))
    = Some (DQ :: "$(printf '%b' " ++ body ++ ")" ++ [DQ]) ∧
    sh_tokens false None body = Some [Word arg] ∧
    percent_b arg = Some (lit "a" ++ [NL] ++ lit "it's").
Proof. apply shell_word_newline. by_decide. Defined.
