(* ===== verification/Query.v ===== *)
(** * Queries: src/cmd/dev/ninqu/query.c

    ninqu -F and ninqu query: the variables that gate a rule are collected by an
    explicit-stack walk over each gate tree, on a stack of 64 entries that is not
    checked ([None] is the overflow); the rest prints the registry. *)

From S2P Require Import Prelude CString Sexpr StrList Kv Gate World Registry.

(** ** Gate variables *)

Definition stack_size : nat := 64.

(** The three lists that grow: all variables, and the pairs (variable, rule). *)
Record gate_vars := MkGV { gv_out : StrList; gv_affects : StrList; gv_rules : StrList }.

(** The kids a walk pushes. *)
Definition gate_kids (g : Gate) : list Gate :=
  match g with
  | G_TRUE | G_VAR _ => []
  | G_NOT k => [k]
  | G_AND ks | G_OR ks => ks
  end.

Definition note_var (rname var : cstr) (seen : StrList) (gv : gate_vars) : StrList * gate_vars :=
  if bool_decide (is_Some (strstr var "$(")) || sl_has seen var then (seen, gv)
  else (sl_push seen var,
        MkGV (if sl_has (gv_out gv) var then gv_out gv else sl_push (gv_out gv) var)
             (sl_push (gv_affects gv) var) (sl_push (gv_rules gv) rname)).

(** The stack is a list with its top first; the kids are pushed in order. *)
Fixpoint gate_walk (fuel : nat) (rname : cstr) (stack : list Gate) (seen : StrList)
    (gv : gate_vars) : option gate_vars :=
  match stack with
  | [] => Some gv
  | cur :: stack' =>
      match fuel with
      | 0 => None
      | S fuel =>
          match cur with
          | G_VAR v =>
              let '(seen, gv) := note_var rname v seen gv in gate_walk fuel rname stack' seen gv
          | _ =>
              let stack'' := rev (gate_kids cur) ++ stack' in
              if decide (stack_size < length stack'') then None
              else gate_walk fuel rname stack'' seen gv
          end
      end
  end.

(** The number of nodes: each is popped once. *)
Fixpoint gate_size (g : Gate) : nat :=
  match g with
  | G_TRUE | G_VAR _ => 1
  | G_NOT k => S (gate_size k)
  | G_AND ks | G_OR ks => S (sum_list (map gate_size ks))
  end.

Definition collect_rule (gv : gate_vars) (r : Rule) : option gate_vars :=
  match r_gate r with
  | None => Some gv
  | Some g => gate_walk (gate_size g) (r_name r) [g] [] gv
  end.

Fixpoint collect_gate_vars (gv : gate_vars) (rs : list Rule) : option gate_vars :=
  match rs with
  | [] => Some gv
  | r :: rs' => gv' ← collect_rule gv r; collect_gate_vars gv' rs'
  end.

Definition collect_named_features (rs : list Rule) : StrList * list (cstr * cstr) :=
  fold_left (λ '(out, owns) r,
      fold_left (λ '(out, owns) feat,
          (if sl_has out feat then out else sl_push out feat, owns ++ [(feat, r_name r)]))
        (r_features r) (out, owns))
    rs ([], []).

(** ** Printing *)

Definition line (l : cstr) : cstr := l ++ [NL].
Definition opt_field (label : cstr) (v : cstr) : cstr :=
  if decide (v = []) then [] else label ++ v.
Definition member_path (r : Rule) : cstr :=
  r_member_of r ++ "/" ++ (if decide (r_member_alias r = []) then r_name r else r_member_alias r).

(** A reference @NAME of a dependency list, as an edge of the graph. *)
Definition edge (style : cstr) (rname tok : cstr) : cstr :=
  match tok with
  | "@"%char :: dep => line ("  " ++ [DQ] ++ dep ++ [DQ] ++ " -> " ++ [DQ] ++ rname ++ [DQ] ++ style ++ ";")
  | _ => []
  end.
Definition rule_edges (r : Rule) : cstr :=
  (r_in r ≫= edge [] (r_name r)) ++ (r_extra_deps r ≫= edge " [style=dashed]" (r_name r)).

Definition rule_line (r : Rule) : cstr :=
  line (r_name r
        ++ (if decide (r_globs r = []) then [] else "  glob:" ++ (r_globs r ≫= λ g, " " ++ g))
        ++ opt_field "  produces=" (r_produces r)
        ++ opt_field "  group=" (r_group_name r)
        ++ (if decide (r_member_of r = []) then [] else "  member=" ++ member_path r)
        ++ (r_features r ≫= λ f, "  feature=" ++ f)
        ++ opt_field "  # " (r_description r)).

Section query.
Context {W : Type} `{!World W}.

Definition feature_vars (k : KvState) : cstr :=
  line "variables (override with -Dname=value):"
  ++ (kv k ≫= λ '(key, val),
        line ("  " ++ key ++ "=" ++ val
              ++ if sl_has (kv_locked k) key then lit "  [locked by -D]" else [])).

Definition feature_gates (k : KvState) (gv : gate_vars) : cstr :=
  [NL] ++ line "feature gates (override with -Dname=0 or -Dname=1):"
  ++ (gv_out gv ≫= λ v,
        line ("  " ++ v ++ "=" ++ kv_get_or k v [])
        ++ (zip (gv_affects gv) (gv_rules gv) ≫= λ '(a, r),
              if decide (a = v) then line ("      gates rule: " ++ r) else [])).

Definition feature_names (rs : list Rule) : cstr :=
  let '(names, owns) := collect_named_features rs in
  if decide (names = []) then []
  else [NL] ++ line "named features (declared with (feature NAME)):"
       ++ (names ≫= λ f, line ("  " ++ f)
             ++ (owns ≫= λ '(o, r), if decide (o = f) then line ("      rule: " ++ r) else [])).

Definition feature_rules (rs : list Rule) : cstr :=
  [NL] ++ line "rules:"
  ++ (rs ≫= λ r,
        line ("  " ++ r_name r ++ if decide (r_globs r = []) then [] else lit "  (pattern rule)")
        ++ (if decide (r_description r = []) then [] else line ("      # " ++ r_description r))
        ++ (if decide (r_group_name r = []) then [] else line ("      group: " ++ r_group_name r))
        ++ (if decide (r_member_of r = []) then [] else line ("      member: " ++ member_path r))
        ++ (r_features r ≫= λ f, line ("      feature: " ++ f))).

Definition do_features : M (state W) unit :=
  s <- gets id ;;
  printf (feature_vars (st_kv s)) ;;
  gv <- deref (collect_gate_vars (MkGV [] [] []) (st_rules s)) ;;
  printf (feature_gates (st_kv s) gv ++ feature_names (st_rules s)
          ++ [NL] ++ line "groups:" ++ (st_groups s ≫= λ g, line ("  " ++ g_name g))
          ++ feature_rules (st_rules s)).

Definition query_graph (arg : option cstr) : M (state W) unit :=
  s <- gets id ;;
  printf (line "digraph ninqu {") ;;
  match arg with
  | Some a =>
      match group_find s a ≫= λ i, st_groups s !! i with
      | None => eprintf ("query graph: no such group '" ++ a ++ "'")
      | Some g =>
          printf (g_refs g ≫= λ ref,
                    match rule_find s ref ≫= λ i, st_rules s !! i with
                    | Some r => rule_edges r
                    | None => []
                    end)
      end
  | None => printf (st_rules s ≫= rule_edges)
  end ;;
  printf (line "}").

Definition do_query (sub : cstr) (arg : option cstr) : M (state W) unit :=
  s <- gets id ;;
  if decide (sub = "features") then do_features
  else if decide (sub = "groups") then
    printf (st_groups s ≫= λ g, line (g_name g) ++ (g_refs g ≫= λ r, line ("  " ++ r)))
  else if decide (sub = "metas") then
    printf (st_metas s ≫= λ m, line (m_name m)
              ++ (zip (m_keys m) (m_vals m) ≫= λ '(k, v), line ("  " ++ k ++ "=" ++ v)))
  else if decide (sub = "rules") then printf (st_rules s ≫= rule_line)
  else if decide (sub = "graph") then query_graph arg
  else eprintf ("query: unknown subcommand '" ++ sub
                ++ "' (try features, groups, metas, rules, graph)").
End query.

(** ** The gate walk *)

(** The variables of a gate that are not per-instance, in no particular order. *)
Fixpoint static_vars (g : Gate) : list cstr :=
  match g with
  | G_TRUE => []
  | G_VAR v => if bool_decide (is_Some (strstr v "$(")) then [] else [v]
  | G_NOT k => static_vars k
  | G_AND ks | G_OR ks => concat (map static_vars ks)
  end.

Definition stack_vars (stack : list Gate) : list cstr := concat (map static_vars stack).
Definition stack_total (stack : list Gate) : nat := sum_list (map gate_size stack).

Lemma gate_size_pos g : 0 < gate_size g.
Proof. destruct g; simpl; lia. Qed.

Lemma stack_total_length stack : length stack ≤ stack_total stack.
Proof.
  induction stack as [|g st IH]; [done|]. unfold stack_total in *. simpl.
  pose proof (gate_size_pos g). lia.
Qed.

Lemma stack_total_app a b : stack_total (a ++ b) = stack_total a + stack_total b.
Proof. unfold stack_total. by rewrite map_app, sum_list_with_app. Qed.

Lemma stack_total_rev l : stack_total (rev l) = stack_total l.
Proof.
  induction l as [|g l IH]; [done|]. simpl. rewrite stack_total_app, IH. unfold stack_total. simpl. lia.
Qed.

Lemma elem_of_stack_vars v stack : v ∈ stack_vars stack ↔ ∃ g, g ∈ stack ∧ v ∈ static_vars g.
Proof.
  unfold stack_vars. rewrite list_elem_of_In, in_concat. split.
  - intros (l & (g & <- & Hg)%in_map_iff & Hv). exists g. by rewrite !list_elem_of_In.
  - intros (g & Hg & Hv). exists (static_vars g). rewrite <- !list_elem_of_In. split; [|done].
    apply list_elem_of_fmap. eauto.
Qed.

(** Replacing a node by its kids keeps the variables and removes one node. *)
Lemma gate_kids_ok cur stack :
  (∀ v, cur ≠ G_VAR v) →
  S (stack_total (rev (gate_kids cur) ++ stack)) = stack_total (cur :: stack) ∧
  ∀ v, v ∈ stack_vars (rev (gate_kids cur) ++ stack) ↔ v ∈ stack_vars (cur :: stack).
Proof.
  intros Hv. rewrite stack_total_app, stack_total_rev. split.
  - unfold stack_total. destruct cur as [|x|k|ks|ks]; simpl; try lia; by destruct (Hv x).
  - intros v. rewrite !elem_of_stack_vars.
    assert (∀ g, g ∈ rev (gate_kids cur) ++ stack ↔ g ∈ gate_kids cur ∨ g ∈ stack) as Hin.
    { intros g. rewrite elem_of_app. by rewrite !list_elem_of_In, <- in_rev. }
    assert (v ∈ static_vars cur ↔ ∃ g, g ∈ gate_kids cur ∧ v ∈ static_vars g) as Hcur.
    { destruct cur as [|x|k|ks|ks]; simpl; [set_solver | by destruct (Hv x) | set_solver | |];
        apply (elem_of_stack_vars v ks). }
    setoid_rewrite Hin. setoid_rewrite elem_of_cons. naive_solver.
Qed.

Lemma stack_vars_var v stack :
  stack_vars (G_VAR v :: stack)
  = (if bool_decide (is_Some (strstr v "$(")) then [] else [v]) ++ stack_vars stack.
Proof. done. Qed.

(** What a walk adds. *)
Record walked (rname : cstr) (seen : StrList) (vars : list cstr) (gv gv' : gate_vars) (vs : StrList) : Prop := {
  wk_affects : gv_affects gv' = gv_affects gv ++ vs;
  wk_rules : gv_rules gv' = gv_rules gv ++ replicate (length vs) rname;
  wk_nodup : NoDup vs;
  wk_vars : ∀ v, v ∈ vs ↔ v ∈ vars ∧ v ∉ seen;
  wk_out : ∀ v, v ∈ gv_out gv' ↔ v ∈ gv_out gv ∨ v ∈ vs;
  wk_out_nodup : NoDup (gv_out gv) → NoDup (gv_out gv')
}.

Lemma gate_walk_ok fuel rname stack seen gv :
  stack_total stack ≤ fuel → stack_total stack ≤ stack_size →
  ∃ gv' vs, gate_walk fuel rname stack seen gv = Some gv' ∧
    walked rname seen (stack_vars stack) gv gv' vs.
Proof.
  revert stack seen gv. induction fuel as [|fuel IH]; intros [|cur stack] seen gv Hf Hs.
  - exists gv, []. split; [done|]. split; simpl; rewrite ?app_nil_r; try done; try constructor; set_solver.
  - exfalso. unfold stack_total in Hf. simpl in Hf. pose proof (gate_size_pos cur). lia.
  - exists gv, []. split; [done|]. split; simpl; rewrite ?app_nil_r; try done; try constructor; set_solver.
  - assert ((∃ v, cur = G_VAR v) ∨ ∀ v, cur ≠ G_VAR v) as [[v ->] | Hnv].
    { destruct cur; [right; by intros | left; eauto | right; by intros ..]. }
    + assert (stack_total (G_VAR v :: stack) = S (stack_total stack)) as Ht by done.
      cbn [gate_walk]. unfold note_var. destruct (bool_decide _) eqn:Hd; simpl.
      { destruct (IH stack seen gv) as (gv' & vs & E & Hw); [lia..|]. exists gv', vs. split; [done|].
        destruct Hw as [W1 W2 W3 W4 W5 W6]. split; try done. intros x. by rewrite W4, stack_vars_var, Hd. }
      destruct (sl_has seen v) eqn:Hseen; simpl.
      { apply sl_has_elem in Hseen.
        destruct (IH stack seen gv) as (gv' & vs & E & Hw); [lia..|]. exists gv', vs. split; [done|].
        destruct Hw as [W1 W2 W3 W4 W5 W6]. split; try done. intros x. rewrite W4, stack_vars_var, Hd.
        set_solver. }
      apply sl_has_false in Hseen.
      set (out1 := if sl_has (gv_out gv) v then gv_out gv else sl_push (gv_out gv) v).
      destruct (IH stack (sl_push seen v) (MkGV out1 (sl_push (gv_affects gv) v) (sl_push (gv_rules gv) rname)))
        as (gv' & vs & E & [W1 W2 W3 W4 W5 W6]); [lia..|].
      exists gv', (v :: vs). split; [done|]. unfold sl_push in *. cbn [gv_affects gv_rules gv_out] in *.
      assert (∀ x, x ∈ out1 ↔ x ∈ gv_out gv ∨ x = v) as Hout.
      { intros x. unfold out1. destruct (sl_has (gv_out gv) v) eqn:Ho; [apply sl_has_elem in Ho|]; set_solver. }
      split.
      * by rewrite W1, <- app_assoc.
      * simpl. by rewrite W2, <- app_assoc.
      * apply NoDup_cons. split; [|done]. rewrite W4, elem_of_app, list_elem_of_singleton. tauto.
      * intros x. rewrite elem_of_cons, W4, stack_vars_var, Hd.
        rewrite !elem_of_app, !list_elem_of_singleton. destruct (decide (x = v)) as [->|]; tauto.
      * intros x. rewrite W5, Hout, elem_of_cons. tauto.
      * intros Hnd. apply W6. unfold out1. destruct (sl_has (gv_out gv) v) eqn:Ho; [done|].
        apply sl_has_false in Ho. apply NoDup_app. split_and!; [done | set_solver | apply NoDup_singleton].
    + destruct (gate_kids_ok cur stack Hnv) as [Ht Hvars].
      destruct (IH (rev (gate_kids cur) ++ stack) seen gv) as (gv' & vs & E & [W1 W2 W3 W4 W5 W6]); [lia..|].
      exists gv', vs. split.
      * rewrite <- E.
        assert (¬ stack_size < length (rev (gate_kids cur) ++ stack)) as Hfit.
        { pose proof (stack_total_length (rev (gate_kids cur) ++ stack)) as Hl. lia. }
        destruct cur as [|x|k|ks|ks]; [|by destruct (Hnv x)|..]; cbn [gate_walk];
          by rewrite (decide_False (P := stack_size < _)) by exact Hfit.
      * split; try done. intros x. by rewrite W4, Hvars.
Qed.

(** for a rule whose gate has at most 64 nodes, the walk stays inside its
    64-entry stack and terminates; it reports the rule once for each variable of
    the gate that is not a per-instance reference, and for no other, and lists
    no variable twice. *)
Theorem collect_rule_vars (gv : gate_vars) (r : Rule) (g : Gate) :
  r_gate r = Some g → gate_size g ≤ stack_size →
  ∃ gv' vs, collect_rule gv r = Some gv' ∧ walked (r_name r) [] (static_vars g) gv gv' vs.
Proof.
  intros Hg Hs. unfold collect_rule. rewrite Hg.
  destruct (gate_walk_ok (gate_size g) (r_name r) [g] [] gv) as (gv' & vs & E & [W1 W2 W3 W4 W5 W6]).
  1, 2: unfold stack_total; simpl; lia.
  exists gv', vs. split; [done|]. split; try done. intros v. rewrite W4. unfold stack_vars. simpl.
  by rewrite app_nil_r.
Qed.

Lemma collect_rule_vars_witness :
  let r := rule0 "wget" <| r_gate := Some (G_AND [G_VAR "TLS"; G_NOT (G_VAR "STATIC"); G_VAR "$(X)"]) |> in
  ∃ gv' vs, collect_rule (MkGV [] [] []) r = Some gv' ∧
    walked "wget" [] (lits ["TLS"; "STATIC"]) (MkGV [] [] []) gv' vs.
Proof.
  intros r. apply (collect_rule_vars (MkGV [] [] []) r _ eq_refl). apply Nat.leb_le. reflexivity.
Defined.

(** The stack has no check: a gate with 65 operands overruns it. *)
Example collect_rule_overflow :
  collect_rule (MkGV [] [] [])
    (rule0 "big" <| r_gate := Some (G_AND (replicate 65 (G_VAR "X"))) |>) = None.
Proof. reflexivity. Qed.
