(* ===== verification/Main.v ===== *)
(** * The program: src/cmd/dev/ninqu/backend.c and main.c

    Option parsing as the ARGBEGIN macro of src/shared/arg.h does it, the choice
    of a backend and the whole run: load, resolve, expand, schedule. *)

From S2P Require Import Prelude CString Strtonum Sexpr StrList Args Kv Gate World Registry.
From S2P Require Import Fs Exec Expand Parse Resolve Schedule Ninja Query.

(** ** Backends *)

Record Backend := MkBackend { b_name : cstr; b_try_key : cstr; b_file : cstr }.

(** The one row of the table; its emitter is [emit_ninja]. *)
Definition backends : list Backend := [MkBackend "ninja" "NINJA_TRY" "build.ninja"].

Definition backend_by_name (name : cstr) : option Backend :=
  snd <$> list_find (λ b, b_name b = name) backends.

(** The names of a comma list, blanks around each trimmed. *)
Fixpoint skip_commas (p : cstr) : cstr :=
  match p with
  | c :: r => if bool_decide (c = ","%char) || isspace c then skip_commas r else p
  | [] => []
  end.
Fixpoint until_comma (p : cstr) : cstr * cstr :=
  match p with
  | c :: r => if decide (c = ","%char) then ([], p) else let '(a, b) := until_comma r in (c :: a, b)
  | [] => ([], [])
  end.
Fixpoint try_names (fuel : nat) (p : cstr) : list cstr :=
  match fuel, p with
  | S fuel, _ :: _ =>
      let '(name, p') := until_comma (skip_commas p) in
      let name := trim_end name in
      (if decide (name = [] ∨ 4096 ≤ length name) then [] else [name]) ++ try_names fuel p'
  | _, _ => []
  end.

(** What main's options leave in its local variables. *)
Record options := MkOptions {
  o_manifest : cstr;
  o_features : bool;
  o_query : option (cstr * option cstr);
  o_generator : option cstr;
  o_wanted : StrList
}.
#[export] Instance eta_options : Eta options := λ o,
  MkOptions (o_manifest o) (o_features o) (o_query o) (o_generator o) (o_wanted o).
Definition options0 : options := MkOptions "ninqu.rules" false None None [].

Section main.
Context {W : Type} `{!World W}.

(** The first binary found, for the first backend that has one. *)
Definition backend_resolve (s : state W) : option (Backend * cstr) :=
  let found b :=
    let p := kv_get_or (st_kv s) (b_try_key b) [] in
    head (omap (w_which (st_world s)) (try_names (length p) p)) in
  head (omap (λ b, pair b <$> found b) backends).

(** The argument vector the backend is executed with. *)
Definition backend_argv (be : Backend) (bin : cstr) (wanted : StrList) : StrList :=
  [base_of bin; lit "-f"; b_file be] ++ wanted.

Definition usage {A} (argv0 : cstr) : M (state W) A :=
  eprintf ("usage: " ++ argv0 ++ " [-jN] [-f manifest] [-C dir] [-Dvar=val]... [-S] [-F] [-G ninja] "
           ++ "[target|meta.target ...]" ++ [NL] ++ "       " ++ argv0
           ++ " query (features|groups|metas|rules|graph) [arg]").

(** ** Options *)

Definition define_var (argv0 spec : cstr) : M (state W) unit :=
  match strchr spec "=" with
  | None => usage argv0
  | Some (key, val) => upd_kv (kv_set_cli key val)
  end.

Definition change_dir (dir : cstr) : M (state W) unit :=
  w <- gets st_world ;;
  match w_chdir w dir with
  | None => eprintf "chdir:"
  | Some w' => modify (set st_world (λ _, w'))
  end.

Definition takes_arg (c : ascii) : bool := bool_decide (c ∈ ["j"; "f"; "C"; "D"; "G"]%char).

(** The cases of the switch with an argument. *)
Definition arg_case (argv0 : cstr) (c : ascii) (a : cstr) (o : options) : M (state W) options :=
  if decide (c = "j"%char) then
    j <- estrtonum a 1 INT_MAX ;;
    modify (set st_jobs_n (λ _, j)) ;; mret o
  else if decide (c = "f"%char) then mret (o <| o_manifest := a |>)
  else if decide (c = "C"%char) then change_dir a ;; mret o
  else if decide (c = "D"%char) then define_var argv0 a ;; mret o
  else mret (o <| o_generator := Some a |>).

Definition flag_case (argv0 : cstr) (c : ascii) (o : options) : M (state W) options :=
  if decide (c = "S"%char) then modify (set st_summary_mode (λ _, true)) ;; mret o
  else if decide (c = "F"%char) then mret (o <| o_features := true |>)
  else usage argv0.

(** ARGBEGIN ... ARGEND: the operands that remain are the targets. *)
Definition parse_options (argv0 : cstr) (args : StrList) : M (state W) options :=
  p <- argbegin takes_arg (arg_case argv0) (flag_case argv0) (usage argv0) args options0 ;;
  mret ((snd p) <| o_wanted := fst p |>).

(** The option argument of the query loop: attached, or the next word, which
    is a null pointer at the end. *)
Definition query_optarg (more : cstr) (rest : StrList) : M (state W) (cstr * StrList) :=
  match more, rest with
  | _ :: _, _ => mret (more, rest)
  | [], a :: rest' => mret (a, rest')
  | [], [] => mub
  end.

Fixpoint query_loop (fuel : nat) (argv0 : cstr) (args : StrList) (o : options)
    : M (state W) options :=
  match fuel with
  | 0 => mfuel
  | S fuel =>
      match args with
      | [] => mret o
      | ("-"%char :: c :: more) :: rest =>
          if decide (c = "f"%char) then
            p <- query_optarg more rest ;;
            query_loop fuel argv0 (snd p) (o <| o_manifest := fst p |>)
          else if decide (c = "C"%char) then
            p <- query_optarg more rest ;; change_dir (fst p) ;; query_loop fuel argv0 (snd p) o
          else if decide (c = "D"%char) then
            p <- query_optarg more rest ;;
            define_var argv0 (fst p) ;; query_loop fuel argv0 (snd p) o
          else query_loop fuel argv0 rest o
      | _ :: rest => query_loop fuel argv0 rest o
      end
  end.

Definition parse_args (argv : StrList) : M (state W) options :=
  match argv with
  | argv0 :: args =>
      if decide (head args = Some (lit "query")) then
        match tl args with
        | [] => usage argv0
        | sub :: qargs =>
            query_loop (S (length qargs)) argv0 qargs
              (options0 <| o_query := Some (sub, head qargs) |>)
        end
      else parse_options argv0 args
  | [] => mub
  end.

(** ** main *)

Definition exit_status : M (state W) Z := f <- gets st_failed_any ;; mret (if f : bool then 1 else 0)%Z.

Definition build_targets (n : nat) (wanted : StrList) : M (state W) unit :=
  match wanted with
  | [] => build_default_group n n
  | _ => mforeach (resolve_wanted n n) wanted
  end.

(** The outcome of a run: an exit status, or the program that replaced it. *)
Inductive run := Exit (status : Z) | Execed (bin : cstr) (argv : StrList).

Definition run_backend (n : nat) (wanted : StrList) : M (state W) run :=
  s <- gets id ;;
  let auto := negb (bool_decide (kv_get_or (st_kv s) "BACKEND" "auto" = "internal")) in
  match (if auto then backend_resolve s else None) with
  | Some (be, bin) =>
      emit_ninja (b_file be) wanted ;;
      failed <- gets st_failed_any ;;
      if failed : bool then mret (Exit 1) else mret (Execed bin (backend_argv be bin wanted))
  | None => schedule_and_run n ;; st <- exit_status ;; mret (Exit st)
  end.

(** main after its options. *)
Definition run_options (n : nat) (o : options) : M (state W) run :=
  load_file n (o_manifest o) ;;
  resolve_all_bareword_deps ;;
  match o_query o with
  | Some (sub, arg) => do_query sub arg ;; mret (Exit 0)
  | None =>
      if o_features o then do_features ;; mret (Exit 0)
      else
        build_targets n (o_wanted o) ;;
        resolve_deps ;;
        match o_generator o with
        | Some g =>
            match backend_by_name g with
            | None => eprintf ("ninqu: unknown generator '" ++ g ++ "'")
            | Some be => emit_ninja (b_file be) (o_wanted o) ;; st <- exit_status ;; mret (Exit st)
            end
        | None => run_backend n (o_wanted o)
        end
  end.

Definition main (n : nat) (argv : StrList) : M (state W) run :=
  o <- parse_args argv ;; run_options n o.
End main.

(** The state of a fresh process with the environment [env] in the world [w]. *)
Definition initial {W} (env : KvStore) (w : W) : state W :=
  MkState (MkKv [] [] None [] [] env) [] [] [] [] [] [] [] 1 false false [] [] w.

(** * Concrete behaviours

    Runs of the whole program on small manifests that show where it does
    something other than its comments say. *)

(** The jobs a run starts, in order. *)
Definition jobs_run (o : out (state sworld) run) : option (list (list StrList)) :=
  match o with Ok _ s => Some (map job_stages (sw_log (st_world s))) | _ => None end.

(** A pattern rule that names a generated header. *)
Definition header_world : sworld :=
  sworld_of [(lit "ninqu.rules",
              lit "(rule gen (out gen.h) (exec touch gen.h)) " ++
              lit "(rule obj (glob *.c) (dep $(MATCH) gen.h) (out $(BASESTEM).o) (exec touch $(OUT))) " ++
              lit "(group default obj)");
             (lit "a.c", lit "int a;")].

(** While the inputs of the instance for a.c are resolved, the missing header is
    produced by expanding its rule, which leaves no overlay behind: the output
    of the instance is then computed without $(BASESTEM), and its command
    without $(OUT). *)
Example producer_clobbers_overlay :
  jobs_run (main 20 (lits ["ninqu"]) (initial [] header_world))
  = Some [[lits ["touch"; "gen.h"]]; [lits ["touch"]]].
Proof. vm_compute. reflexivity. Qed.

(** With the header already there the same manifest builds a.o. *)
Example producer_not_needed :
  jobs_run (main 20 (lits ["ninqu"])
    (initial [] (set sw_files (λ l, l ++ [(lit "gen.h", (1%Z, []))]) header_world)))
  = Some [[lits ["touch"; "a.o"]]].
Proof. vm_compute. reflexivity. Qed.

(** The summary of -S runs the producer of a missing input. *)
Example summary_runs_producer :
  jobs_run (main 20 (lits ["ninqu"; "-S"]) (initial [] header_world))
  = Some [[lits ["touch"; "gen.h"]]].
Proof. vm_compute. reflexivity. Qed.

(** A map entry that names itself makes the expansion recurse without bound:
    no budget is enough. *)
Definition loop_kv : KvState := MkKv [] [] None [] [MkMap "M" [(lit "k", lit "$(M:k)")]] [].
Lemma loop_kv_step m :
  kv_expand (S m) loop_kv "$(M:k)" = None → kv_expand (S (S m)) loop_kv "$(M:k)" = None.
Proof.
  intros E. rewrite kv_expand_unfold, (expand_refs_ref _ _ (lit "M:k") []) by reflexivity.
  assert (kv_ref (kv_expand (S m) loop_kv) loop_kv "M:k" = None) as ->; [|done].
  unfold kv_ref. change (strchr (trunc 4096 (lit "M:k")) ":") with (Some (lit "M", lit "k")).
  cbv beta iota. rewrite kv_expand_no_ref by done. exact E.
Qed.

Example map_self_reference n : kv_expand n loop_kv "$(M:k)" = None.
Proof. induction n as [|[|n] IH]; [done | done | by apply loop_kv_step]. Qed.

(** The query options are looked at after the argument: an option in its place
    is taken for the group of the graph. *)
Example query_option_as_group :
  match main 20 (lits ["ninqu"; "query"; "graph"; "-fninqu.rules"]) (initial [] header_world) with
  | Die msg _ => msg = "query graph: no such group '-fninqu.rules'"
  | _ => False
  end.
Proof. vm_compute. reflexivity. Qed.
