(* ===== verification/Load.v ===== *)
(** * What loading a manifest and resolving targets can change

    [Loadable R] extends [Stable]: a relation that holds across every elementary
    update of parse.c and resolve.c holds across the loading of a manifest with
    all its imports, and across the resolution of targets.  Two relations follow:
    a variable fixed with -D keeps its value ([keeps_locked]) and the instance
    indices stay consistent ([keeps_index]), so that the schedule's hypotheses
    hold for every manifest. *)

From S2P Require Import Prelude CString Strtonum Sexpr StrList Kv Gate World Registry.
From S2P Require Import Fs Exec Expand Frame Growth Parse Resolve Schedule ScheduleFacts Ninja.
From S2P Require Import Query Main.

(** An update of the text of a rule. *)
Definition rule_def (f : Rule → Rule) : Prop := ∀ r,
  r_name (f r) = r_name r ∧ r_inst_idx (f r) = r_inst_idx r ∧ r_expanded (f r) = r_expanded r.

Class Loadable {W} (R : state W → state W → Prop) : Prop := {
  load_stable :: Stable R;
  load_set s k v : R s (set st_kv (kv_set_manifest k v) s);
  load_maps s f : R s (set st_kv (with_maps f) s);
  load_rule r f : rule_def f → preserves R (upd_rule r f);
  load_rules s f : rule_def f → R s (set st_rules (map f) s);
  load_rule_new s name : R s (set st_rules (λ l, l ++ [rule0 name]) s);
  load_groups s f : R s (set st_groups f s);
  load_metas s f : R s (set st_metas f s);
  load_templates s f : R s (set st_templates f s);
  load_files s f : R s (set st_files_read f s);
  load_visited s f : R s (set st_visited_groups f s);
  load_failed s f : R s (set st_failed_any f s)
}.

Section load.
Context {W : Type} `{!World W} (R : state W → state W → Prop) `{!Loadable R}.

Lemma preserves_first_atom x m : preserves R (first_atom x m).
Proof using Type*. unfold first_atom. solve_pres. Qed.
Lemma preserves_sole_atom x m : preserves R (sole_atom x m).
Proof using Type*. unfold sole_atom. solve_pres. Qed.
Lemma preserves_atom_or x m : preserves R (atom_or x m).
Proof using Type*. unfold atom_or. solve_pres. Qed.
Hint Resolve preserves_first_atom preserves_sole_atom preserves_atom_or : pres.
Lemma preserves_mmap_R {A B} (f : A → M (state W) B) l :
  (∀ x, preserves R (f x)) → preserves R (mmap f l).
Proof using Type*. intros Hf. induction l; simpl; solve_pres. Qed.
Lemma preserves_atoms x m : preserves R (atoms x m).
Proof using Type*. apply preserves_mmap_R. auto with pres. Qed.
Hint Resolve preserves_atoms : pres.
Lemma preserves_exec_clause c : preserves R (parse_exec_clause c).
Proof using Type*. unfold parse_exec_clause. solve_pres. Qed.
Lemma preserves_shell_clause c : preserves R (parse_shell_clause c).
Proof using Type*. unfold parse_shell_clause. solve_pres. Qed.
Lemma preserves_pipe_stage c : preserves R (parse_pipe_stage c).
Proof using Type*. unfold parse_pipe_stage. solve_pres. Qed.
Lemma preserves_pipe_clause c : preserves R (parse_pipe_clause c).
Proof using Type*.
  unfold parse_pipe_clause. pres_step; [apply preserves_mmap_R, preserves_pipe_stage|]. solve_pres.
Qed.
Hint Resolve preserves_exec_clause preserves_shell_clause preserves_pipe_clause : pres.

Lemma preserves_kv_set k v : preserves R (upd_kv (kv_set_manifest k v)).
Proof using Type*. apply preserves_modify. intros s. apply load_set. Qed.
Lemma preserves_groups f : preserves R (modify (set st_groups f)).
Proof using Type*. apply preserves_modify. intros s. apply load_groups. Qed.
Lemma preserves_metas f : preserves R (modify (set st_metas f)).
Proof using Type*. apply preserves_modify. intros s. apply load_metas. Qed.
Lemma preserves_templates f : preserves R (modify (set st_templates f)).
Proof using Type*. apply preserves_modify. intros s. apply load_templates. Qed.
Lemma preserves_files f : preserves R (modify (set st_files_read f)).
Proof using Type*. apply preserves_modify. intros s. apply load_files. Qed.
Lemma preserves_visited f : preserves R (modify (set st_visited_groups f)).
Proof using Type*. apply preserves_modify. intros s. apply load_visited. Qed.
Lemma preserves_new_rule name : preserves R (modify (set st_rules (λ l, l ++ [rule0 name]))).
Proof using Type*. apply preserves_modify. intros s. apply load_rule_new. Qed.
Hint Resolve preserves_kv_set preserves_groups preserves_metas preserves_templates preserves_files
  preserves_visited preserves_new_rule load_rule : pres.
Hint Extern 1 (rule_def _) => intros []; done : pres.

(** ** Rules, groups, metas *)

Lemma preserves_rule_new name : preserves R (rule_new name).
Proof using Type*. unfold rule_new. solve_pres. Qed.
Lemma preserves_group_new name : preserves R (group_new name).
Proof using Type*. unfold group_new. solve_pres. Qed.
Lemma preserves_meta_new name : preserves R (meta_new name).
Proof using Type*. unfold meta_new. solve_pres. Qed.
Lemma preserves_template_new name : preserves R (template_new name).
Proof using Type*. unfold template_new. solve_pres. Qed.
Lemma preserves_push_dep r d x : preserves R (push_dep r d x).
Proof using Type*. unfold push_dep. destruct d; auto with pres. Qed.
Hint Resolve preserves_rule_new preserves_group_new preserves_meta_new preserves_template_new
  preserves_push_dep : pres.

Lemma preserves_dep_item r h o b item : preserves R (parse_dep_item r h o b item).
Proof using Type*.
  revert h o b. induction item as [a l|kids l IH] using SNode_nested_ind; intros h o b; simpl;
    [auto with pres|].
  destruct kids as [|k kids]; [solve_pres|]. destruct k as [h0 l0|]; [|solve_pres].
  repeat case_decide; [solve_pres| |solve_pres]. destruct b; simpl; [|solve_pres].
  apply Forall_cons in IH as [_ IH]. induction IH as [|x kids Hx _ IHk]; simpl; [solve_pres|].
  apply preserves_bind; [tc_solve | apply Hx | intros _; apply IHk].
Qed.
Lemma preserves_store_atom r sz c m f :
  (∀ a, rule_def (f a)) → preserves R (store_atom r sz c m f).
Proof using Type*. intros Hf. unfold store_atom. solve_pres. Qed.
Lemma preserves_member r n c : preserves R (apply_member_clause r n c).
Proof using Type*. unfold apply_member_clause. solve_pres. Qed.
Hint Resolve preserves_dep_item preserves_member : pres.

Lemma preserves_if_condition n c : preserves R (if_condition n c).
Proof using Type*. unfold if_condition. solve_pres. Qed.
Lemma preserves_dep_clause r h o c : preserves R (parse_dep_clause r h o c).
Proof using Type*. unfold parse_dep_clause. solve_pres. Qed.
Hint Resolve preserves_if_condition preserves_dep_clause : pres.
Hint Extern 1 (preserves _ (store_atom _ _ _ _ _)) =>
  apply preserves_store_atom; intros ? []; done : pres.

Lemma preserves_simple_clause r n h c : preserves R (apply_simple_clause r n h c).
Proof using Type*. unfold apply_simple_clause. solve_pres. Qed.
Hint Resolve preserves_simple_clause : pres.

Lemma preserves_rule_clause r n c : preserves R (apply_rule_clause r n c).
Proof using Type*.
  induction c as [a l|kids l IH] using SNode_nested_ind; [simpl; solve_pres|].
  cbn [apply_rule_clause]. destruct (s_head _) as [h|]; [|solve_pres]. case_decide; [|solve_pres].
  apply preserves_bind; [tc_solve | auto with pres |]. intros cond.
  destruct kids as [|k1 [|k2 kids]]; [solve_pres..|].
  apply Forall_cons in IH as [_ IH]. apply Forall_cons in IH as [_ IH].
  apply preserves_when; [tc_solve|]. induction IH as [|x kids Hx _ IHk]; simpl; [solve_pres|].
  apply preserves_bind; [tc_solve | apply Hx | intros _; apply IHk].
Qed.
Hint Resolve preserves_rule_clause : pres.
Lemma preserves_parse_rule f : preserves R (parse_rule f).
Proof using Type*. unfold parse_rule, process_rule_body. solve_pres. Qed.
Lemma preserves_group_ref n x : preserves R (group_ref n x).
Proof using Type*. unfold group_ref. solve_pres. Qed.
Lemma preserves_meta_clause n x : preserves R (meta_clause n x).
Proof using Type*. unfold meta_clause. solve_pres. Qed.
Hint Resolve preserves_group_ref preserves_meta_clause : pres.
Lemma preserves_parse_group f : preserves R (parse_group f).
Proof using Type*. unfold parse_group. solve_pres. Qed.
Lemma preserves_parse_meta f : preserves R (parse_meta f).
Proof using Type*. unfold parse_meta. solve_pres. Qed.
Lemma preserves_meta_apply n m : preserves R (meta_apply n m).
Proof using Type*. unfold meta_apply. solve_pres. Qed.
Hint Resolve preserves_parse_rule preserves_parse_group preserves_parse_meta preserves_meta_apply : pres.

(** ** Variables, files, templates *)

Lemma preserves_capture av : preserves R (capture_argv av).
Proof using Type*. unfold capture_argv. solve_pres. Qed.
Lemma preserves_capture_cmd c : preserves R (capture_cmd c).
Proof using Type*. unfold capture_cmd. solve_pres. Qed.
Hint Resolve preserves_capture preserves_capture_cmd : pres.
Lemma preserves_parse_set f : preserves R (parse_set f).
Proof using Type*. unfold parse_set. solve_pres. Qed.
Lemma preserves_list_token b x : preserves R (list_token b x).
Proof using Type*. unfold list_token. destruct (if decide _ then _ else _). solve_pres. Qed.
Hint Resolve preserves_list_token : pres.
Lemma preserves_list n f b : preserves R (parse_list_or_append n f b).
Proof using Type*. unfold parse_list_or_append. solve_pres. Qed.
Lemma preserves_map_new name : preserves R (upd_kv (λ k, fst (map_new name k))).
Proof using Type*. apply preserves_modify. intros s. apply load_maps. Qed.
Lemma preserves_map_set m k v : preserves R (upd_kv (map_set m k v)).
Proof using Type*. apply preserves_modify. intros s. apply load_maps. Qed.
Lemma preserves_map_entry n x : preserves R (map_entry n x).
Proof using Type*. unfold map_entry. solve_pres. Qed.
Hint Resolve preserves_map_new preserves_map_set preserves_map_entry : pres.
Lemma preserves_parse_map f : preserves R (parse_map f).
Proof using Type*. unfold parse_map. solve_pres. Qed.
Lemma preserves_note_read p : preserves R (note_read p).
Proof using Type*. unfold note_read. solve_pres. Qed.
Lemma preserves_already p : preserves R (already_read p).
Proof using Type*. unfold already_read. solve_pres. Qed.
Hint Resolve preserves_note_read preserves_already : pres.
Lemma preserves_set_file n f : preserves R (parse_set_file n f).
Proof using Type*. unfold parse_set_file. solve_pres. Qed.
Lemma preserves_parse_template f : preserves R (parse_template f).
Proof using Type*. unfold parse_template. solve_pres. Qed.
Lemma preserves_use_forms f : preserves R (use_forms f).
Proof using Type*.
  unfold use_forms. solve_pres. apply preserves_mmap; [tc_solve|]. auto with pres.
Qed.
Lemma preserves_with_lexer {A} (m : M SLex A) lx : preserves R (with_lexer m lx).
Proof using Type*. intros s. unfold with_lexer. destruct (m lx); done. Qed.
Hint Resolve preserves_parse_set preserves_list preserves_parse_map preserves_set_file
  preserves_parse_template preserves_use_forms preserves_with_lexer : pres.

Lemma preserves_load_with rec p :
  (∀ f, preserves R (rec f)) → preserves R (load_file_with rec p).
Proof using Type*. intros. unfold load_file_with, load_manifest. solve_pres. Qed.
Hint Resolve preserves_load_with : pres.

Lemma preserves_dispatch n f : preserves R (dispatch_top_form n f).
Proof using Type*.
  revert f. induction n as [|n IH]; intros f; simpl; [solve_pres|].
  unfold parse_use, parse_import. solve_pres.
Qed.
Hint Resolve preserves_dispatch : pres.
Lemma preserves_load_file n p : preserves R (load_file n p).
Proof using Type*. unfold load_file. auto with pres. Qed.

(** ** Targets *)

Lemma preserves_include n m x : preserves R (include_ref n m x).
Proof using Type*. revert x. induction n as [|n IH]; intros x; simpl; solve_pres. Qed.
Hint Resolve preserves_include : pres.
Lemma preserves_default n m : preserves R (build_default_group n m).
Proof using Type*. unfold build_default_group. solve_pres. Qed.
Lemma preserves_member_path w : preserves R (resolve_member_path w).
Proof using Type*. unfold resolve_member_path. solve_pres. Qed.
Hint Resolve preserves_default preserves_member_path : pres.
Lemma preserves_wanted n m w : preserves R (resolve_wanted n m w).
Proof using Type*. unfold resolve_wanted. solve_pres. Qed.
Hint Resolve preserves_wanted : pres.
Lemma preserves_barewords : preserves R resolve_all_bareword_deps.
Proof using Type*.
  unfold resolve_all_bareword_deps. apply preserves_bind; [tc_solve | apply preserves_gets; tc_solve |].
  intros s. apply preserves_modify. intros s'. apply load_rules. by intros [].
Qed.
Lemma preserves_resolve_deps : preserves R resolve_deps.
Proof using Type*. unfold resolve_deps. solve_pres. Qed.
Lemma preserves_targets n w : preserves R (build_targets n w).
Proof using Type*. unfold build_targets. solve_pres. Qed.
Hint Resolve preserves_load_file preserves_barewords preserves_resolve_deps preserves_targets : pres.

(** ** Scheduling, generating and querying *)

Lemma preserves_failed f : preserves R (modify (set st_failed_any f)).
Proof using Type*. apply preserves_modify. intros s. apply load_failed. Qed.
Hint Resolve preserves_failed : pres.
Lemma preserves_reap r : preserves R (reap r).
Proof using Type*. unfold reap. solve_pres. Qed.
Lemma preserves_fill t r : preserves R (fill_slots t r).
Proof using Type*. revert r. induction t as [|i t IH]; intros r; simpl; solve_pres. Qed.
Hint Resolve preserves_reap preserves_fill : pres.
Lemma preserves_batch n t r : preserves R (batch_loop n t r).
Proof using Type*. revert t r. induction n as [|n IH]; intros t r; simpl; solve_pres. Qed.
Hint Resolve preserves_batch : pres.
Lemma preserves_summarize i : preserves R (summarize i).
Proof using Type*. unfold summarize. solve_pres. apply stable_inst. by intros []. Qed.
Hint Resolve preserves_summarize : pres.
Lemma preserves_level n l : preserves R (run_level n l).
Proof using Type*. unfold run_level, run_batch. solve_pres. Qed.
Hint Resolve preserves_level : pres.
Lemma preserves_level_loop n fuel ds i l d : preserves R (level_loop (run_level n) fuel ds i l d).
Proof using Type*. revert i l d. induction fuel as [|fuel IH]; intros i l d; simpl; solve_pres. Qed.
Hint Resolve preserves_level_loop : pres.
Lemma preserves_schedule n : preserves R (schedule_and_run n).
Proof using Type*. unfold schedule_and_run. solve_pres. Qed.

Lemma preserves_inst_target i k : preserves R (inst_target i k).
Proof using Type*. unfold inst_target. solve_pres. Qed.
Hint Resolve preserves_inst_target : pres.
Lemma preserves_target_of k : preserves R (target_of k).
Proof using Type*. unfold target_of. solve_pres. Qed.
Hint Resolve preserves_target_of : pres.
Lemma preserves_emit_rule k : preserves R (emit_rule k).
Proof using Type*. unfold emit_rule. solve_pres. Qed.
Lemma preserves_emit_build k : preserves R (emit_build k).
Proof using Type*. unfold emit_build, emit_order_only. solve_pres. Qed.
Hint Resolve preserves_emit_rule preserves_emit_build : pres.
Lemma preserves_ninja_text w : preserves R (ninja_text w).
Proof using Type*.
  unfold ninja_text, mconcat. solve_pres. apply preserves_mmap; [tc_solve|]. auto with pres.
Qed.
Hint Resolve preserves_ninja_text : pres.
Lemma preserves_emit p w : preserves R (emit_ninja p w).
Proof using Type*. unfold emit_ninja. solve_pres. Qed.
Lemma preserves_features : preserves R do_features.
Proof using Type*. unfold do_features. solve_pres. Qed.
Hint Resolve preserves_schedule preserves_emit preserves_features : pres.
Lemma preserves_query sub arg : preserves R (do_query sub arg).
Proof using Type*. unfold do_query, query_graph. solve_pres. Qed.
Hint Resolve preserves_query : pres.

Lemma preserves_run_options n o : preserves R (run_options n o).
Proof using Type*. unfold run_options, run_backend, exit_status. solve_pres. Qed.
End load.

(** ** -D *)

(** Every locked variable is still locked and has its value. *)
Record keeps_locked {W} (s s' : state W) : Prop := {
  kl_locked : kv_locked (st_kv s') = kv_locked (st_kv s);
  kl_vals : ∀ key, key ∈ kv_locked (st_kv s) →
    kv_get_raw (kv (st_kv s')) key = kv_get_raw (kv (st_kv s)) key
}.

Section locked.
Context {W : Type}.
Implicit Types s : state W.

#[export] Instance keeps_locked_preorder : PreOrder (@keeps_locked W).
Proof.
  split; [by split|]. intros s1 s2 s3 [H1 H2] [H3 H4]. split; [congruence|].
  intros key Hk. rewrite H4, H2; [done | done | by rewrite H1].
Qed.

Lemma keeps_locked_vars s s' :
  kv_locked (st_kv s') = kv_locked (st_kv s) → kv (st_kv s') = kv (st_kv s) → keeps_locked s s'.
Proof. intros Hl Hk. split; [done|]. intros. by rewrite Hk. Qed.

Lemma locked_rule r f : preserves (@keeps_locked W) (upd_rule r f).
Proof. intros s. rewrite upd_rule_run. destruct (st_rules s !! r); [by apply keeps_locked_vars | done]. Qed.
Lemma locked_inst r f : preserves (@keeps_locked W) (upd_inst r f).
Proof. intros s. rewrite upd_inst_run. destruct (st_insts s !! r); [by apply keeps_locked_vars | done]. Qed.

#[export] Instance keeps_locked_stable : Stable (@keeps_locked W).
Proof.
  split; [tc_solve|..]; intros.
  1-5: by apply keeps_locked_vars.
  - apply locked_inst.
  - apply locked_rule.
  - unfold inst_new. solve_pres; [|apply locked_rule].
    apply preserves_modify. intros s. by apply keeps_locked_vars.
  - unfold push_dep_rule. solve_pres. apply locked_inst.
Qed.

#[export] Instance keeps_locked_loadable : Loadable (@keeps_locked W).
Proof.
  split; [tc_solve|..]; intros; try by apply keeps_locked_vars.
  - destruct (sl_has (kv_locked (st_kv s)) k) eqn:E.
    { apply keeps_locked_vars; cbn; unfold kv_set_manifest; by rewrite E. }
    split; cbn; unfold kv_set_manifest; rewrite E; [done|].
    intros key Hkey. apply kv_get_set_raw_ne. intros ->.
    by apply sl_has_false in E.
  - apply locked_rule.
Qed.
End locked.

(** C11: a variable given with -D keeps its value through everything that
    follows (every (set), (list), (append), (set-file), meta override and
    captured output of the manifest and its imports, expansion, building and
    generating), whether the run returns or exits with an error. *)
Theorem cli_variable_survives {W} `{!World W} (n : nat) (o : options) (key val : cstr) (s : state W) :
  match run_options n o (set st_kv (kv_set_cli key val) s) with
  | Ok _ s' | Die _ s' => kv_get_raw (kv (st_kv s')) key = Some val
  | Ub | Fuel => True
  end.
Proof.
  set (s1 := set st_kv (kv_set_cli key val) s).
  assert (key ∈ kv_locked (st_kv s1) ∧ kv_get_raw (kv (st_kv s1)) key = Some val) as [Hk Hv].
  { split; cbn; [unfold sl_push; set_solver | apply kv_get_set_raw]. }
  pose proof (preserves_run_options keeps_locked n o s1) as H.
  destruct (run_options n o s1); try done; by rewrite (kl_vals _ _ H).
Qed.

(** ** The schedule's hypotheses *)

Section index.
Context {W : Type}.
Implicit Types s : state W.

Lemma index_rules s (f : Rule → Rule) :
  (∀ r, r_inst_idx (f r) = r_inst_idx r) → keeps_index s (set st_rules (map f) s).
Proof.
  intros Hf. split; [done|]. intros [H1 H2 H3 H4 H5]. split; cbn; try done.
  - intros r rule k Hr. rewrite list_lookup_fmap in Hr. apply fmap_Some in Hr as (rule0 & Hr & ->).
    rewrite Hf. by apply H1.
  - intros r rule Hr. rewrite list_lookup_fmap in Hr. apply fmap_Some in Hr as (rule0 & Hr & ->).
    rewrite Hf. by eapply H2.
  - intros k inst Hk. destruct (H3 _ _ Hk) as (rule & Hr & Hin). exists (f rule).
    rewrite list_lookup_fmap, Hr, Hf. done.
Qed.

Lemma index_rule_new s name : keeps_index s (set st_rules (λ l, l ++ [rule0 name]) s).
Proof.
  split; [done|]. intros [H1 H2 H3 H4 H5]. split; cbn; try done.
  - intros r rule k [[_ Hr]|[_ <-]]%lookup_snoc_Some; [by apply H1 | cbn; by intros ?%elem_of_nil].
  - intros r rule [[_ Hr]|[_ <-]]%lookup_snoc_Some; [by eapply H2 | constructor].
  - intros k inst Hk. destruct (H3 _ _ Hk) as (rule & Hr & Hin). exists rule.
    by rewrite lookup_app_l by (by eapply lookup_lt_Some).
Qed.

#[export] Instance keeps_index_loadable : Loadable (@keeps_index W).
Proof.
  split; [tc_solve|..]; intros; try by apply keeps_index_eq.
  - intros s. rewrite upd_rule_run. destruct (st_rules s !! r) as [x|] eqn:E; [|done].
    destruct (H x) as (_ & Hi & _). by apply (index_rule s r x).
  - apply index_rules. intros r. by destruct (H r) as (_ & ? & _).
  - apply index_rule_new.
Qed.
End index.

(** Loading, resolving and linking, as [run_options] does before it schedules. *)
Definition prepare {W} `{!World W} (n : nat) (manifest : cstr) (wanted : StrList) : M (state W) unit :=
  load_file n manifest ;; resolve_all_bareword_deps ;; build_targets n wanted ;; resolve_deps.

Lemma initial_index {W} env (w : W) : index_ok (initial env w).
Proof. split; cbn; intros *; by rewrite ?lookup_nil. Qed.

Lemma index_deps_ok {W} (s : state W) : index_ok s → deps_ok (map i_dep_inst (st_insts s)).
Proof.
  intros Hok. apply Forall_forall. intros l (inst & -> & [k Hk]%list_elem_of_lookup)%list_elem_of_fmap.
  rewrite length_map. by apply (ix_deps s Hok k).
Qed.

(** C4: whatever the manifest, the files and the targets are, the instances a
    fresh process has prepared when it starts to schedule have distinct, in-range
    dependencies, belong to existing rules and have outputs that fit their
    buffer: the hypotheses of the theorems on the schedule always hold. *)
Theorem prepared_for_schedule {W} `{!World W} n manifest wanted env (w : W) s :
  prepare n manifest wanted (initial env w) = Ok tt s →
  deps_ok (map i_dep_inst (st_insts s)) ∧
  Forall (λ i, i_rule_idx i < length (st_rules s) ∧ length (i_out i) < 1024) (st_insts s).
Proof.
  intros E. assert (preserves keeps_index (prepare (W := W) n manifest wanted)) as Hp.
  { unfold prepare. solve_pres; eauto using preserves_load_file, preserves_barewords, preserves_targets,
      preserves_resolve_deps with typeclass_instances. }
  specialize (Hp (initial env w)). rewrite E in Hp. destruct Hp as [_ Hok].
  specialize (Hok (initial_index env w)). split; [by apply index_deps_ok|].
  apply Forall_forall. intros inst [k Hk]%list_elem_of_lookup.
  destruct (ix_inst s Hok _ _ Hk) as (rule & Hr & _). split; [by eapply lookup_lt_Some|].
  by apply (ix_out s Hok k).
Qed.

(** A manifest in the concrete world. *)
Definition demo_manifest : cstr :=
  "(set CC touch) (rule obj (glob *.c) (out $(STEM).o) (dep $(MATCH)) (exec $(CC) $(OUT))) " ++
  "(rule prog (dep (rule obj)) (out prog) (exec touch $(OUT) $(IN))) (group default prog)".
Definition demo_world : sworld :=
  sworld_of [(lit "ninqu.rules", demo_manifest); (lit "a.c", lit "int a;"); (lit "b.c", lit "int b;")].

Lemma prepared_for_schedule_witness :
  match prepare 20 "ninqu.rules" [] (initial [] demo_world) with
  | Ok _ s => deps_ok (map i_dep_inst (st_insts s))
  | _ => False
  end.
Proof.
  destruct (prepare 20 "ninqu.rules" [] (initial [] demo_world)) as [[] s| | |] eqn:E;
    [| vm_compute in E; discriminate E ..].
  apply (prepared_for_schedule 20 "ninqu.rules" [] [] demo_world s E).
Defined.

(** The whole program on that manifest: two objects, then the program. *)
Example demo_main :
  match main 20 (lits ["ninqu"; "-j"; "2"]) (initial [] demo_world) with
  | Ok (Exit status) s =>
      status = 0%Z ∧
      map job_stages (sw_log (st_world s))
      = [[lits ["touch"; "a.o"]]; [lits ["touch"; "b.o"]]; [lits ["touch"; "prog"; "a.o"; "b.o"]]]
  | _ => False
  end.
Proof. vm_compute. done. Qed.

(** With -D the manifest's own setting has no effect. *)
Example demo_main_define :
  match main 20 (lits ["ninqu"; "-DCC=false"]) (initial [] demo_world) with
  | Ok (Exit status) s =>
      status = 1%Z ∧
      map job_stages (sw_log (st_world s))
      = [[lits ["false"; "a.o"]]; [lits ["false"; "b.o"]]; [lits ["touch"; "prog"; "a.o"; "b.o"]]]
  | _ => False
  end.
Proof. vm_compute. done. Qed.
