(* ===== verification/Budget.v ===== *)
(** * Budgets do not matter

    Every recursion of the model that the C code does not bound carries a
    budget.  A larger budget never changes an outcome other than running out of
    it, for every function up to [main]: so whatever is proved of a run that
    returns, exits or has undefined behaviour holds for all larger budgets. *)

From S2P Require Import Prelude CString Strtonum Sexpr StrList Kv Gate World Registry.
From S2P Require Import Fs Exec Expand Parse Resolve Schedule Ninja Query Main.

Section budget.
Context {W : Type} `{!World W} (n n' : nat) (Hle : n ≤ n').

Lemma mono_expand x : mono (expand (W := W) n x) (expand n' x).
Proof using Hle. unfold expand. solve_mono. apply mono_budget. intros w. by apply kv_expand_mono. Qed.
Hint Resolve mono_expand : mono.

Lemma rule_find_output_mono k path rs o :
  rule_find_output_in n k path rs = Some o → rule_find_output_in n' k path rs = Some o.
Proof using Hle.
  revert o. induction rs as [|r rs IH]; intros o; simpl; [done|].
  assert (∀ o, match rule_find_output_in n k path rs with Some o => Some (S <$> o) | None => None end = Some o →
               match rule_find_output_in n' k path rs with Some o => Some (S <$> o) | None => None end = Some o) as Hn.
  { intros o'. destruct (rule_find_output_in n k path rs) eqn:E; [|done]. by rewrite (IH _ eq_refl). }
  case_decide; [apply Hn|]. case_bool_decide; [|case_decide; [done | apply Hn]].
  destruct (kv_expand n k (r_out r)) as [e|] eqn:E; [|done].
  rewrite (kv_expand_mono _ _ _ _ _ Hle E). case_decide; [done | apply Hn].
Qed.

Lemma gate_materialize_mono k g g' :
  gate_materialize n k g = Some g' → gate_materialize n' k g = Some g'.
Proof using Hle.
  revert g'. induction g as [|v|g IH|gs IH|gs IH] using Gate_nested_ind; intros g'; cbn [gate_materialize].
  - done.
  - intros (w & Hw & ->)%fmap_Some. by rewrite (kv_expand_mono _ _ _ _ _ Hle Hw).
  - intros (w & Hw & ->)%fmap_Some. by rewrite (IH _ Hw).
  - intros (w & Hw & ->)%fmap_Some. apply fmap_Some. exists w. split; [|done].
    revert w Hw. induction IH as [|x gs Hx _ IHg]; intros w; simpl; [done|].
    destruct (gate_materialize n k x) eqn:E; [|done]. destruct (omap_all _ gs) eqn:E2; [|done].
    by rewrite (Hx _ eq_refl), (IHg _ eq_refl).
  - intros (w & Hw & ->)%fmap_Some. apply fmap_Some. exists w. split; [|done].
    revert w Hw. induction IH as [|x gs Hx _ IHg]; intros w; simpl; [done|].
    destruct (gate_materialize n k x) eqn:E; [|done]. destruct (omap_all _ gs) eqn:E2; [|done].
    by rewrite (Hx _ eq_refl), (IHg _ eq_refl).
Qed.

Lemma mono_cmd_token o x : mono (expand_cmd_token (W := W) n o x) (expand_cmd_token n' o x).
Proof using Hle. unfold expand_cmd_token. solve_mono. Qed.
Hint Resolve mono_cmd_token : mono.
Lemma mono_build_cmd i r : mono (build_cmd (W := W) n i r) (build_cmd n' i r).
Proof using Hle. unfold build_cmd. solve_mono. Qed.
Hint Resolve mono_build_cmd : mono.

Lemma mono_recurse_dir f f' o p :
  (∀ o x, mono (f o x) (f' o x)) → mono (recurse_dir (W := W) f o p) (recurse_dir f' o p).
Proof. intros Hf. unfold recurse_dir. solve_mono. Qed.
End budget.

Section recursion.
Context {W : Type} `{!World W}.

Lemma mono_rg_visit n n' suf o p : n ≤ n' → mono (rg_visit (W := W) n suf o p) (rg_visit n' suf o p).
Proof.
  revert n' o p. induction n as [|n IH]; intros [|n'] o p Hle; try lia; simpl; [apply mono_fuel..|].
  apply mono_bind; [apply mono_refl|]. intros w. destruct (w_isdir w p); [|solve_mono].
  apply mono_recurse_dir. intros. apply IH. lia.
Qed.
Lemma mono_run_inst n n' i : n ≤ n' → mono (run_inst_with_deps (W := W) n i) (run_inst_with_deps n' i).
Proof.
  revert n' i. induction n as [|n IH]; intros [|n'] i Hle; try lia; simpl; [apply mono_fuel..|].
  solve_mono. apply IH. lia.
Qed.
End recursion.

Section expansion.
Context {W : Type} `{!World W} (n n' : nat) (Hle : n ≤ n').
Hint Resolve mono_expand mono_cmd_token mono_build_cmd mono_rg_visit mono_run_inst : mono.

Lemma mono_glob_expand p o : mono (glob_expand (W := W) n p o) (glob_expand n' p o).
Proof using Hle.
  unfold glob_expand, recurse_glob. destruct (strstr p _) as [[a b]|]; [|apply mono_refl].
  apply mono_recurse_dir. intros. by apply mono_rg_visit.
Qed.
Hint Resolve mono_glob_expand : mono.
Lemma mono_glob_all r : mono (glob_all (W := W) n r) (glob_all n' r).
Proof using Hle. unfold glob_all. solve_mono. Qed.
Lemma mono_claimed p i : mono (path_claimed_elsewhere (W := W) n p i) (path_claimed_elsewhere n' p i).
Proof using Hle. unfold path_claimed_elsewhere. solve_mono. Qed.
Hint Resolve mono_glob_all mono_claimed : mono.
Lemma mono_setup i r : mono (setup_inst (W := W) n i r) (setup_inst n' i r).
Proof using Hle. unfold setup_inst. solve_mono. Qed.
Lemma mono_feeds a b : mono (dep_feeds_glob (W := W) n a b) (dep_feeds_glob n' a b).
Proof using Hle. unfold dep_feeds_glob. solve_mono. Qed.
Lemma mono_match_enabled r : mono (match_enabled (W := W) n r) (match_enabled n' r).
Proof using Hle.
  unfold match_enabled. solve_mono. apply mono_budget. intros g'. by apply gate_materialize_mono.
Qed.
Hint Resolve mono_setup mono_feeds mono_match_enabled : mono.

Context (rec rec' : cstr → M (state W) unit) (Hrec : ∀ x, mono (rec x) (rec' x)).
Hint Resolve Hrec : mono.

Lemma mono_materialize p : mono (materialize_if_missing n rec p) (materialize_if_missing n' rec' p).
Proof using Hle Hrec.
  unfold materialize_if_missing. solve_mono.
  apply mono_budget. intros o. unfold rule_find_output. by apply rule_find_output_mono.
Qed.
Hint Resolve mono_materialize : mono.
Lemma mono_resolve_input i raw b :
  mono (resolve_input_token n rec i raw b) (resolve_input_token n' rec' i raw b).
Proof using Hle Hrec. unfold resolve_input_token. solve_mono. Qed.
Hint Resolve mono_resolve_input : mono.
Lemma mono_finalize i r ov : mono (finalize_inst n rec i r ov) (finalize_inst n' rec' i r ov).
Proof using Hle Hrec. unfold finalize_inst. solve_mono. Qed.
Hint Resolve mono_finalize : mono.
Lemma mono_codegen r : mono (run_codegen_deps n rec r) (run_codegen_deps n' rec' r).
Proof using Hle Hrec. unfold run_codegen_deps. solve_mono. Qed.
Lemma mono_expand_match i r m : mono (expand_match n rec i r m) (expand_match n' rec' i r m).
Proof using Hle Hrec. unfold expand_match. solve_mono. Qed.
Lemma mono_expand_single i r : mono (expand_single n rec i r) (expand_single n' rec' i r).
Proof using Hle Hrec. unfold expand_single. solve_mono. Qed.
End expansion.

Section program.
Context {W : Type} `{!World W}.

Lemma mono_expand_rule n n' name : n ≤ n' → mono (expand_rule (W := W) n name) (expand_rule n' name).
Proof.
  revert n' name. induction n as [|n IH]; intros [|n'] name Hle; try lia; [apply mono_fuel..|].
  assert (n ≤ n') as Hle' by lia. cbn [expand_rule].
  pose proof (λ x, IH n' x Hle') as Hrec.
  solve_mono; eauto using mono_expand, mono_expand_single, mono_codegen, mono_glob_all, mono_expand_match.
Qed.

Context (n n' : nat) (Hle : n ≤ n').

Lemma mono_list f b : mono (parse_list_or_append (W := W) n f b) (parse_list_or_append n' f b).
Proof using Hle. unfold parse_list_or_append. solve_mono. by apply mono_expand. Qed.
Lemma mono_meta_apply m : mono (meta_apply (W := W) n m) (meta_apply n' m).
Proof using Hle. unfold meta_apply. solve_mono. by apply mono_expand. Qed.
Lemma mono_materialize_rule p :
  mono (materialize_if_missing (W := W) n (expand_rule n) p) (materialize_if_missing n' (expand_rule n') p).
Proof using Hle. apply mono_materialize; [done|]. intros x. by apply mono_expand_rule. Qed.
Lemma mono_set_file f : mono (parse_set_file (W := W) n f) (parse_set_file n' f).
Proof using Hle. unfold parse_set_file. solve_mono. by apply mono_materialize_rule. Qed.
Lemma mono_load_with rec rec' p :
  (∀ f, mono (rec f) (rec' f)) → mono (load_file_with (W := W) rec p) (load_file_with rec' p).
Proof. intros Hrec. unfold load_file_with, load_manifest. solve_mono. Qed.
End program.

Section dispatch.
Context {W : Type} `{!World W}.

Lemma mono_dispatch n n' f : n ≤ n' → mono (dispatch_top_form (W := W) n f) (dispatch_top_form n' f).
Proof.
  revert n' f. induction n as [|n IH]; intros [|n'] f Hle; try lia; [apply mono_fuel..|].
  assert (n ≤ n') as Hle' by lia. pose proof (λ x, IH n' x Hle') as Hrec.
  cbn [dispatch_top_form]. unfold parse_import, parse_use.
  destruct (s_head f) as [h|]; [|apply mono_refl].
  repeat (case_decide; [solve_mono; eauto using mono_list, mono_set_file, mono_materialize_rule, mono_load_with|]).
  apply mono_refl.
Qed.

Context (n n' : nat) (Hle : n ≤ n').

Lemma mono_include m m' k k' x :
  m ≤ m' → k ≤ k' → mono (include_ref (W := W) m k x) (include_ref m' k' x).
Proof.
  revert m' x. induction m as [|m IH]; intros [|m'] x Hm Hk; try lia; [apply mono_fuel..|].
  cbn [include_ref]. solve_mono; [apply IH; lia | by apply mono_expand_rule].
Qed.

Lemma mono_wanted x : mono (resolve_wanted (W := W) n n x) (resolve_wanted n' n' x).
Proof using Hle.
  unfold resolve_wanted, build_default_group.
  solve_mono; eauto using mono_expand_rule, mono_meta_apply, mono_include.
Qed.

Lemma mono_batch m m' t r : m ≤ m' → mono (batch_loop (W := W) m t r) (batch_loop m' t r).
Proof.
  revert m' t r. induction m as [|m IH]; intros [|m'] t r Hm; try lia; [apply mono_fuel..|].
  cbn [batch_loop]. assert (m ≤ m') as Hm' by lia.
  destruct t, r; [apply mono_refl|..]; (apply mono_bind; [apply mono_refl|]); intros [t' r'];
    (destruct r'; [by apply IH|]); (apply mono_bind; [apply mono_refl|]); intros ?; by apply IH.
Qed.

Lemma mono_level_loop f f' fuel ds i l d :
  (∀ x, mono (f x) (f' x)) → mono (level_loop (W := W) f fuel ds i l d) (level_loop f' fuel ds i l d).
Proof.
  intros Hf. revert i l d. induction fuel as [|fuel IH]; intros i l d; simpl; [apply mono_fuel|].
  destruct l; [apply mono_refl|]. solve_mono.
Qed.

Lemma mono_schedule : mono (schedule_and_run (W := W) n) (schedule_and_run n').
Proof using Hle.
  unfold schedule_and_run. solve_mono. apply mono_level_loop. intros l. unfold run_level, run_batch.
  solve_mono. by apply mono_batch.
Qed.

Lemma mono_run_options o : mono (run_options (W := W) n o) (run_options n' o).
Proof using Hle.
  unfold run_options, load_file, build_targets, run_backend, build_default_group.
  solve_mono; eauto using mono_load_with, mono_dispatch, mono_include, mono_wanted, mono_schedule.
Qed.
End dispatch.

(** enough budget is enough: if a run of the program with budget [n] ends in
    any way other than running out of budget, every larger budget gives the very
    same outcome and state. *)
Theorem main_budget {W} `{!World W} (n n' : nat) (argv : StrList) (s : state W) :
  n ≤ n' → main n argv s ≠ Fuel → main n' argv s = main n argv s.
Proof.
  intros Hle Hf. apply mono_outcome; [|done]. unfold main.
  apply mono_bind; [apply mono_refl|]. intros o. by apply mono_run_options.
Qed.

Lemma main_budget_witness :
  let s := initial [] (sworld_of [(lit "ninqu.rules", lit "(rule a (out x) (exec touch x)) (group default a)")]) in
  main 1000 (lits ["ninqu"]) s = main 8 (lits ["ninqu"]) s.
Proof.
  intros s. apply main_budget; [apply Nat.leb_le; reflexivity | vm_compute; discriminate].
Defined.
