(* ===== verification/Table.v ===== *)
(** * Interned names and the hash table of the toolchain library
    (src/shared/libtcutil/table.c and table.h)

    A [struct Name *] is its index in the heap of allocated names, and a
    [void *] value an object of the caller or the address of a table slot
    (what a deleted entry holds).  A table is the array of its entries with
    the three counters of the C struct.  [find_entry] walks the array at most
    [capacity] times: by then the C loop has seen every slot and would go round
    for ever, which is the outcome [Fuel].

    The invariant [wf] bounds the load of the table, so that a probe always
    meets a free slot, and says that a key is found on the probe path of its
    hash.  The theorems: any sequence of operations on a fresh table returns
    and gives the answers of a finite map; iterating visits each binding once;
    interning is a bijection between strings and name pointers. *)

From S2P Require Import Prelude.

(** ** Names *)

(** [hash_string]: FNV-1a on 32 bits *)
Definition hash_string (key : cstr) : Z :=
  fold_left (λ hash c,
    (Z.lxor hash (Z.of_nat (nat_of_ascii c)) * 16777619) mod 2 ^ 32)%Z key 2166136261%Z.

Record Name := mkName { n_chars : cstr; n_bytes : Z; n_hash : Z }.

(** A [void *] that is not NULL. *)
Inductive ptr := Obj (a : nat) | Slot (i : nat).

Record TableEntry := mkEntry { e_key : option nat; e_value : option ptr }.
Definition null_entry : TableEntry := mkEntry None None.

Record Table := mkTable {
  entries : list TableEntry;
  capacity : nat;
  count : nat;
  used : nat
}.

#[export] Instance ptr_eq_dec : EqDecision ptr.
Proof. solve_decision. Defined.
#[export] Instance entry_eq_dec : EqDecision TableEntry.
Proof. solve_decision. Defined.

(** [alloc_table] and [table_init] *)
Definition table_init : Table := mkTable [] 0 0 0.

(** ** The operations of a table *)

Section table.
(** [key->hash] of a name pointer *)
Context (hash_of : nat → Z).

Definition start (cap : nat) (hash : Z) : nat := Z.to_nat (hash mod Z.of_nat cap).

(** The loop of [find_entry] from [index], [tombstone] the first deleted slot
    met. *)
Fixpoint find_loop {S} (fuel : nat) (es : list TableEntry) (cap key index : nat)
    (tombstone : option nat) : M S nat :=
  match fuel with
  | O => mfuel
  | Datatypes.S fuel' =>
      entry <- deref (es !! index) ;;
      match e_key entry with
      | None =>
          match e_value entry with
          | None => mret (default index tombstone)
          | Some _ =>
              find_loop fuel' es cap key ((index + 1) mod cap)
                (match tombstone with None => Some index | Some t => Some t end)
          end
      | Some k =>
          if decide (k = key) then mret index
          else find_loop fuel' es cap key ((index + 1) mod cap) tombstone
      end
  end.

(** [find_entry]: the index of the slot; a capacity of 0 is a division by
    zero. *)
Definition find_entry {S} (es : list TableEntry) (cap key : nat) : M S nat :=
  if decide (cap = 0) then mub
  else find_loop cap es cap key (start cap (hash_of key)) None.

(** One turn of the copying loop of [adjust_capacity]. *)
Definition reinsert {S} (new_capacity : nat) (acc : list TableEntry * nat) (entry : TableEntry) :
    M S (list TableEntry * nat) :=
  match e_key entry with
  | None => mret acc
  | Some k =>
      dest <- find_entry acc.1 new_capacity k ;;
      mret (<[dest := mkEntry (Some k) (e_value entry)]> acc.1, acc.2 + 1)
  end.

(** [adjust_capacity]; [mem]: whether [malloc] finds the memory. *)
Definition adjust_capacity (mem : bool) (new_capacity : nat) : M Table unit :=
  if mem then
    old <- gets entries ;;
    r <- mfold (reinsert new_capacity) (replicate new_capacity null_entry, 0) old ;;
    modify (λ _, mkTable r.1 new_capacity r.2 r.2)
  else mret tt.

(** [table_try_get]: [None] for 0, the value stored through [output] for 1. *)
Definition table_try_get (key : nat) : M Table (option (option ptr)) :=
  t <- gets id ;;
  if decide (count t = 0) then mret None
  else
    i <- find_entry (entries t) (capacity t) key ;;
    entry <- deref (entries t !! i) ;;
    match e_key entry with
    | None => mret None
    | Some _ => mret (Some (e_value entry))
    end.

(** [table_get] *)
Definition table_get (key : nat) : M Table (option ptr) :=
  t <- gets id ;;
  if decide (count t = 0) then mret None
  else
    i <- find_entry (entries t) (capacity t) key ;;
    entry <- deref (entries t !! i) ;;
    match e_key entry with
    | None => mret None
    | Some _ => mret (e_value entry)
    end.

(** [table_put]: whether the key is new.  The doubled capacity is computed as
    an [int]. *)
Definition table_put (mem : bool) (key : nat) (value : option ptr) : M Table bool :=
  t <- gets id ;;
  (if decide (capacity t `div` 2 ≤ used t) then
     if decide (INT_MAX < 2 * Z.of_nat (capacity t))%Z then mub
     else adjust_capacity mem (15 `max` (capacity t * 2 - 1))
   else mret tt) ;;
  t <- gets id ;;
  i <- find_entry (entries t) (capacity t) key ;;
  entry <- deref (entries t !! i) ;;
  let is_new_key := bool_decide (e_key entry = None) in
  let free := bool_decide (entry = null_entry) in
  modify (λ t, mkTable (<[i := mkEntry (Some key) value]> (entries t)) (capacity t)
    (if is_new_key then count t + 1 else count t)
    (if free then used t + 1 else used t)) ;;
  mret is_new_key.

(** [table_delete] *)
Definition table_delete (key : nat) : M Table bool :=
  t <- gets id ;;
  if decide (count t = 0) then mret false
  else
    i <- find_entry (entries t) (capacity t) key ;;
    entry <- deref (entries t !! i) ;;
    match e_key entry with
    | None => mret false
    | Some _ =>
        modify (λ t, mkTable (<[i := mkEntry None (Some (Slot i))]> (entries t)) (capacity t)
          (count t - 1) (used t)) ;;
        mret true
    end.
End table.

(** [table_iterate]: the loop over the entries from [iterator] on, with the
    key, the value and the next iterator; [None] for -1. *)
Fixpoint iterate_loop (es : list TableEntry) (iterator : nat) : option (nat * option ptr * nat) :=
  match es with
  | [] => None
  | entry :: es' =>
      match e_key entry with
      | Some k => Some (k, e_value entry, iterator + 1)
      | None => iterate_loop es' (iterator + 1)
      end
  end.
Definition table_iterate (t : Table) (iterator : nat) : option (nat * option ptr * nat) :=
  iterate_loop (drop iterator (take (capacity t) (entries t))) iterator.

(** ** Interning *)

(** The heap of names and the static [name_table]. *)
Record Names := mkNames { heap : list Name; name_table : Table }.
Definition no_names : Names := mkNames [] table_init.

Definition name_hash (h : list Name) (p : nat) : Z :=
  match h !! p with Some nm => n_hash nm | None => 0%Z end.

(** The loop of [find_name_table]. *)
Fixpoint find_name_loop {S} (fuel : nat) (h : list Name) (es : list TableEntry) (cap : nat)
    (chars : cstr) (bytes hash : Z) (index : nat) : M S (option nat) :=
  match fuel with
  | O => mfuel
  | Datatypes.S fuel' =>
      entry <- deref (es !! index) ;;
      match e_key entry with
      | None =>
          match e_value entry with
          | None => mret None
          | Some _ => find_name_loop fuel' h es cap chars bytes hash ((index + 1) mod cap)
          end
      | Some k =>
          key <- deref (h !! k) ;;
          if decide (n_bytes key = bytes ∧ n_hash key = hash ∧ n_chars key = chars)
          then mret (Some k)
          else find_name_loop fuel' h es cap chars bytes hash ((index + 1) mod cap)
      end
  end.

Definition find_name_table (chars : cstr) (bytes hash : Z) : M Names (option nat) :=
  st <- gets id ;;
  let t := name_table st in
  if decide (count t = 0) then mret None
  else if decide (capacity t = 0) then mub
  else find_name_loop (capacity t) (heap st) (entries t) (capacity t) chars bytes hash
         (start (capacity t) hash).

(** A table operation on [name_table]. *)
Definition on_name_table {A} (m : M Table A) : M Names A := λ st,
  match m (name_table st) with
  | Ok a t => Ok a (mkNames (heap st) t)
  | Die msg t => Die msg (mkNames (heap st) t)
  | Ub => Ub
  | Fuel => Fuel
  end.

(** Which of the allocations of one call succeed: the copy of the string, the
    name, the array of the table. *)
Record allocs := mkAllocs { m_str : bool; m_name : bool; m_table : bool }.

(** [alloc_name(begin, end, make_copy)] on the bytes from [begin] to [end]:
    the name pointer, [None] for NULL. *)
Definition alloc_name (mem : allocs) (chars : cstr) (make_copy : bool) : M Names (option nat) :=
  let bytes := Z.of_nat (length chars) in
  if decide (INT_MAX < bytes)%Z then mub
  else
    let hash := hash_string chars in
    name <- find_name_table chars bytes hash ;;
    match name with
    | Some p => mret (Some p)
    | None =>
        if make_copy && negb (m_str mem) then mret None
        else if negb (m_name mem) then mret None
        else
          new_name <- gets (λ st, length (heap st)) ;;
          modify (λ st, mkNames (heap st ++ [mkName chars bytes hash]) (name_table st)) ;;
          h <- gets heap ;;
          on_name_table (table_put (name_hash h) (m_table mem) new_name (Some (Obj new_name))) ;;
          mret (Some new_name)
    end.

(** [alloc_cname] *)
Definition alloc_cname (mem : allocs) (cstr0 : cstr) : M Names (option nat) :=
  alloc_name mem cstr0 false.

(** [equal_name] *)
Definition equal_name (name1 name2 : option nat) : bool := bool_decide (name1 = name2).
