(* ===== verification/TableFacts.v ===== *)
(** * The hash table and the interning of names are correct

    Facts about Table.v: the load invariant and the probe paths, the refinement
    of a finite map, iteration, and the interning of names. *)

From S2P Require Import Prelude Table.

(** ** Probe paths *)

Lemma mod_cases c x : x < 2 * c → x mod c = if decide (x < c) then x else x - c.
Proof.
  intros H. case_decide; [by apply Nat.mod_small|].
  replace x with ((x - c) + 1 * c) at 1 by lia.
  rewrite Nat.Div0.mod_add. apply Nat.mod_small. lia.
Qed.

Lemma probe_inj c h i j : h < c → i < c → j < c → (h + i) mod c = (h + j) mod c → i = j.
Proof. intros ???. rewrite !mod_cases by lia. repeat case_decide; lia. Qed.

Lemma probe_onto c h e : h < c → e < c → ∃ n, n < c ∧ (h + n) mod c = e.
Proof.
  intros Hh He. exists (if decide (h ≤ e) then e - h else e + c - h).
  case_decide; (split; [lia|]); rewrite mod_cases by lia; case_decide; lia.
Qed.

Lemma probe_step c h j : ((h + j) mod c + 1) mod c = (h + S j) mod c.
Proof. rewrite Nat.Div0.add_mod_idemp_l. f_equal. lia. Qed.

Lemma start_lt c z : c ≠ 0 → start c z < c.
Proof. intros H. unfold start. pose proof (Z.mod_pos_bound z (Z.of_nat c)). lia. Qed.

(** The least number with a decidable property. *)
Lemma least (P : nat → Prop) `{∀ n, Decision (P n)} n :
  P n → ∃ m, m ≤ n ∧ P m ∧ ∀ j, j < m → ¬ P j.
Proof.
  assert (Hor : ∀ n, (∃ m, m < n ∧ P m ∧ ∀ j, j < m → ¬ P j) ∨ ∀ j, j < n → ¬ P j).
  { clear n. intros n. induction n as [|n [(m & ? & ?)|IH]]; [right; lia|left; exists m; auto|].
    destruct (decide (P n)); [left; exists n; auto|right; intros j Hj].
    destruct (decide (j = n)) as [->|]; [done|apply IH; lia]. }
  intros Hn. destruct (Hor (S n)) as [(m & ? & ? & ?)|No]; [exists m|destruct (No n)]; auto with lia.
Qed.

(** ** Occupied slots *)

Definition keyed (e : TableEntry) : Prop := e_key e ≠ None.
Definition busy (e : TableEntry) : Prop := e ≠ null_entry.
#[export] Instance keyed_dec e : Decision (keyed e).
Proof. unfold keyed. apply _. Defined.
#[export] Instance busy_dec e : Decision (busy e).
Proof. unfold busy. apply _. Defined.

Definition number (P : TableEntry → Prop) `{∀ e, Decision (P e)} (es : list TableEntry) : nat :=
  length (filter P es).
Definition one (P : Prop) `{Decision P} : nat := if decide P then 1 else 0.

Section number.
Context (P : TableEntry → Prop) `{∀ e, Decision (P e)}.

Lemma number_insert es i e e' :
  es !! i = Some e → number P (<[i := e']> es) + one (P e) = number P es + one (P e').
Proof.
  revert i. unfold number, one. induction es as [|x es IH]; intros [|i] Hi; simplify_eq/=.
  - rewrite !filter_cons. repeat case_decide; simpl; lia.
  - specialize (IH i Hi). rewrite !filter_cons. repeat case_decide; simpl in *; lia.
Qed.

Lemma number_zero es i e : number P es = 0 → es !! i = Some e → ¬ P e.
Proof.
  unfold number. intros Hz Hi HP. apply length_zero_iff_nil in Hz.
  assert (e ∈ filter P es) as Hin
    by (apply list_elem_of_filter; eauto using list_elem_of_lookup_2).
  rewrite Hz in Hin. by apply not_elem_of_nil in Hin.
Qed.

Lemma number_free es : number P es < length es → ∃ i e, es !! i = Some e ∧ ¬ P e.
Proof.
  unfold number. induction es as [|x es IH]; simpl; [lia|]. rewrite filter_cons.
  case_decide; simpl; intros Hlt; [|by exists 0, x].
  destruct IH as (i & e & ? & ?); [lia|]. by exists (S i), e.
Qed.

Lemma number_replicate n e : ¬ P e → number P (replicate n e) = 0.
Proof.
  intros He. unfold number. induction n; simpl; [done|]. rewrite filter_cons_False; auto.
Qed.
End number.

Lemma number_keyed_busy es : number keyed es ≤ number busy es.
Proof.
  unfold number. induction es as [|x es IH]; [done|]. rewrite !filter_cons.
  repeat case_decide; simpl; try lia. exfalso. unfold keyed, busy in *.
  destruct x as [[k|] v]; naive_solver.
Qed.

Lemma one_true (P : Prop) `{Decision P} : P → one P = 1.
Proof. intros. unfold one. by rewrite decide_True. Qed.
Lemma one_false (P : Prop) `{Decision P} : ¬ P → one P = 0.
Proof. intros. unfold one. by rewrite decide_False. Qed.

(** The counts after a key is stored in a slot without one, over itself, and
    after a key is deleted. *)
Lemma number_put es i e k v : es !! i = Some e → e_key e = None →
  number keyed (<[i := mkEntry (Some k) v]> es) = number keyed es + 1 ∧
  number busy (<[i := mkEntry (Some k) v]> es) =
    number busy es + (if decide (e = null_entry) then 1 else 0).
Proof.
  intros Hi He. pose proof (number_insert keyed es i e (mkEntry (Some k) v) Hi) as N1.
  pose proof (number_insert busy es i e (mkEntry (Some k) v) Hi) as N2.
  rewrite (one_true (keyed (mkEntry (Some k) v))), (one_false (keyed e)) in N1 by (by unfold keyed; auto).
  rewrite (one_true (busy (mkEntry (Some k) v))) in N2 by done.
  destruct (decide (e = null_entry)) as [->|N];
    [rewrite one_false in N2 by (intros []; done)|rewrite one_true in N2 by done]; lia.
Qed.

Lemma number_over es i k v v' : es !! i = Some (mkEntry (Some k) v) →
  number keyed (<[i := mkEntry (Some k) v']> es) = number keyed es ∧
  number busy (<[i := mkEntry (Some k) v']> es) = number busy es.
Proof.
  intros Hi. pose proof (number_insert keyed es i _ (mkEntry (Some k) v') Hi) as N1.
  pose proof (number_insert busy es i _ (mkEntry (Some k) v') Hi) as N2.
  rewrite !one_true in N1, N2 by done. lia.
Qed.

Lemma number_del es i k v p : es !! i = Some (mkEntry (Some k) v) →
  number keyed es = number keyed (<[i := mkEntry None (Some p)]> es) + 1 ∧
  number busy (<[i := mkEntry None (Some p)]> es) = number busy es.
Proof.
  intros Hi. pose proof (number_insert keyed es i _ (mkEntry None (Some p)) Hi) as N1.
  pose proof (number_insert busy es i _ (mkEntry None (Some p)) Hi) as N2.
  rewrite one_true, one_false in N1 by (try done; intros []; done).
  rewrite !one_true in N2 by done. lia.
Qed.

(** Without deleted slots, a slot without a key is free. *)
Lemma number_no_tombstone es i e : number keyed es = number busy es →
  es !! i = Some e → e_key e = None → e = null_entry.
Proof.
  intros Heq Hi He. apply dec_stable. intros Hb.
  pose proof (number_put es i e 0 None Hi He) as [N1 N2].
  pose proof (number_keyed_busy (<[i:=mkEntry (Some 0) None]> es)).
  rewrite decide_False in N2 by done. lia.
Qed.

(** Reduce the fields of a table. *)
Ltac tsimpl := cbn [entries capacity count used].

(** ** Probing *)

Section probing.
Context (hash_of : nat → Z).

(** Slot [i] is met on the path from [h] before any free slot. *)
Definition reach (es : list TableEntry) (c h i : nat) : Prop := ∃ n,
  n < c ∧ (h + n) mod c = i ∧ ∀ j, j < n → ∃ e, es !! ((h + j) mod c) = Some e ∧ busy e.

Record probe_ok (es : list TableEntry) (cap : nat) : Prop := {
  ix_len : length es = cap;
  ix_uniq i j k v w : es !! i = Some (mkEntry (Some k) v) →
    es !! j = Some (mkEntry (Some k) w) → i = j;
  ix_reach i k v : es !! i = Some (mkEntry (Some k) v) →
    reach es cap (start cap (hash_of k)) i
}.

(** The map an array of entries holds. *)
Definition repr (es : list TableEntry) (m : gmap nat (option ptr)) : Prop := ∀ k v,
  m !! k = Some v ↔ ∃ i, es !! i = Some (mkEntry (Some k) v).

(** A table that is not full has a first free slot on every path. *)
Lemma free_path es cap h : length es = cap → number busy es < cap → h < cap → ∃ n,
  n < cap ∧ es !! ((h + n) mod cap) = Some null_entry ∧
  ∀ j, j < n → ∃ e, es !! ((h + j) mod cap) = Some e ∧ busy e.
Proof.
  intros Hlen Hroom Hh. destruct (number_free busy es) as (f & ef & Hf & Hnb); [lia|].
  destruct (probe_onto cap h f) as (n0 & Hn0 & Hp0); [done|apply lookup_lt_Some in Hf; lia|].
  destruct (least (λ n, es !! ((h + n) mod cap) = Some null_entry) n0) as (n & Hn & Hnull & Hl).
  { rewrite Hp0, Hf. f_equal. apply dec_stable. exact Hnb. }
  exists n. split_and!; [lia|done|]. intros j Hj.
  destruct (lookup_lt_is_Some_2 es ((h + j) mod cap)) as (e & He).
  { rewrite Hlen. apply Nat.mod_upper_bound. lia. }
  exists e. split; [done|]. intros ->. by apply (Hl j).
Qed.

(** [find_loop] walks over slots that are neither free nor hold the key. *)
Lemma find_loop_walk {S} es c key h n fuel (s : S) :
  (∀ j, j < n → ∃ e, es !! ((h + j) mod c) = Some e ∧ busy e ∧ e_key e ≠ Some key) →
  n ≤ fuel → ∃ tomb,
  find_loop fuel es c key ((h + 0) mod c) None s =
    find_loop (fuel - n) es c key ((h + n) mod c) tomb s ∧
  (tomb = None ∨ ∃ m e, m < n ∧ tomb = Some ((h + m) mod c) ∧
     es !! ((h + m) mod c) = Some e ∧ e_key e = None).
Proof.
  induction n as [|n IH]; intros Hwalk Hn.
  { exists None. rewrite Nat.sub_0_r. auto. }
  destruct IH as (tomb & Heq & Htomb); [intros; apply Hwalk; lia|lia|].
  destruct (Hwalk n) as (e & He & Hb & Hk); [lia|].
  rewrite Heq. replace (fuel - n) with (Datatypes.S (fuel - Datatypes.S n)) by lia. simpl.
  unfold mbind at 1. rewrite He. simpl. rewrite probe_step.
  destruct e as [[k|] [v|]]; simpl; try (by destruct Hb).
  1,2: rewrite decide_False by naive_solver; exists tomb; split; [done|];
       destruct Htomb as [|(m & e & ? & ? & ?)]; [by left|right; exists m, e; auto with lia].
  destruct tomb as [t|]; (eexists; split; [done|]); right.
  - destruct Htomb as [|(m & e & ? & ? & ?)]; [done|exists m, e; auto with lia].
  - exists n, (mkEntry None (Some v)). auto with lia.
Qed.

Lemma find_entry_unfold {S} es cap k (s : S) : cap ≠ 0 →
  find_entry hash_of es cap k s =
    find_loop cap es cap k ((start cap (hash_of k) + 0) mod cap) None s.
Proof.
  intros H. unfold find_entry. rewrite decide_False by done. f_equal.
  rewrite Nat.add_0_r, Nat.mod_small; auto using start_lt.
Qed.

(** What [find_entry] returns in a table with a free slot. *)
Lemma find_entry_spec {S} es cap m k (s : S) :
  probe_ok es cap → repr es m → number busy es < cap →
  ∃ i e, find_entry hash_of es cap k s = Ok i s ∧ es !! i = Some e ∧
    reach es cap (start cap (hash_of k)) i ∧
    match m !! k with Some v => e = mkEntry (Some k) v | None => e_key e = None end.
Proof.
  intros [Hlen Huniq Hreach] Hm Hfree. assert (cap ≠ 0) as Hc by lia.
  pose proof (start_lt cap (hash_of k) Hc) as Hh. rewrite find_entry_unfold by done.
  set (h := start cap (hash_of k)) in *.
  destruct (m !! k) as [v|] eqn:Hk.
  - destruct (proj1 (Hm k v) Hk) as (i & Hi).
    destruct (Hreach _ _ _ Hi) as (n & Hn & <- & Hpath). fold h in Hi, Hpath.
    destruct (find_loop_walk (S:=S) es cap k h n cap s) as (tomb & -> & _); [|lia|].
    { intros j Hj. destruct (Hpath j Hj) as ([k' w] & He & Hb). exists (mkEntry k' w).
      split_and!; auto. simpl; intros ->. eapply Huniq in Hi; [|exact He].
      apply probe_inj in Hi; lia. }
    eexists _, _. split_and!; [|exact Hi|by exists n|done].
    replace (cap - n) with (Datatypes.S (cap - Datatypes.S n)) by lia. simpl.
    unfold mbind. rewrite Hi. simpl. by rewrite decide_True.
  - destruct (free_path es cap h Hlen Hfree Hh) as (n & Hn & Hnull & Hbusy).
    assert (Hpath : ∀ j, j < n → ∃ e, es !! ((h + j) mod cap) = Some e ∧ busy e ∧ e_key e ≠ Some k).
    { intros j Hj. destruct (Hbusy j Hj) as ([k' w] & He & Hb). exists (mkEntry k' w).
      split_and!; auto. simpl. intros ->.
      assert (m !! k = Some w) by (apply Hm; eauto). congruence. }
    destruct (find_loop_walk (S:=S) es cap k h n cap s Hpath) as (tomb & -> & Htomb); [lia|].
    replace (cap - n) with (Datatypes.S (cap - Datatypes.S n)) by lia. simpl.
    unfold mbind. rewrite Hnull. simpl.
    destruct Htomb as [->|(j & e & ? & -> & ? & ?)]; simpl; eexists _, _;
      (split_and!; [done|eassumption| |done]).
    + exists n. split_and!; [lia|done|naive_solver].
    + exists j. split_and!; [lia|done|]. intros j' ?.
      destruct (Hpath j') as (e' & ? & ? & ?); [lia|eauto].
Qed.

(** ** Updates of one slot *)

Lemma reach_insert es c h i i0 e0 e :
  es !! i0 = Some e0 → busy e → reach es c h i → reach (<[i0 := e]> es) c h i.
Proof.
  intros H0 Hb (n & Hn & Hi & Hpath). exists n. split_and!; auto. intros j Hj.
  destruct (Hpath j Hj) as (e' & He' & ?). destruct (decide (i0 = (h + j) mod c)) as [->|].
  - exists e. split; auto. apply list_lookup_insert_eq. by eapply lookup_lt_Some.
  - exists e'. by rewrite list_lookup_insert_ne.
Qed.

Lemma put_slot es cap m i e k v :
  probe_ok es cap → repr es m → es !! i = Some e →
  reach es cap (start cap (hash_of k)) i →
  match m !! k with Some v0 => e = mkEntry (Some k) v0 | None => e_key e = None end →
  probe_ok (<[i := mkEntry (Some k) v]> es) cap ∧ repr (<[i := mkEntry (Some k) v]> es) (<[k := v]> m).
Proof.
  intros [Hlen Huniq Hreach] Hm Hi Hri He.
  pose proof (lookup_lt_Some _ _ _ Hi) as Hlt.
  assert (Honly : ∀ j w, es !! j = Some (mkEntry (Some k) w) → j = i).
  { intros j w Hj. assert (m !! k = Some w) as E by (apply Hm; eauto). rewrite E in He; subst.
    eauto. }
  assert (Hold : ∀ k' w, e = mkEntry (Some k') w → k' = k).
  { intros k' w ->. destruct (m !! k); simpl in *; congruence. }
  split; [split|].
  - by rewrite length_insert.
  - intros j1 j2 k' v1 v2.
    destruct (decide (i = j1)) as [<-|N1], (decide (i = j2)) as [<-|N2]; auto;
      rewrite ?list_lookup_insert_eq, ?list_lookup_insert_ne by done; intros; simplify_eq; eauto.
    symmetry; eauto.
  - intros j k' v'. destruct (decide (i = j)) as [<-|N].
    + rewrite list_lookup_insert_eq by done. intros; simplify_eq. eapply reach_insert; eauto. done.
    + rewrite list_lookup_insert_ne by done. intros Hj. eapply reach_insert; eauto. done.
  - intros k' v'. destruct (decide (k = k')) as [<-|Nk].
    + rewrite lookup_insert_eq. split.
      * intros [= <-]. exists i. by rewrite list_lookup_insert_eq.
      * intros (j & Hj). destruct (decide (i = j)) as [<-|N].
        { rewrite list_lookup_insert_eq in Hj by done. naive_solver. }
        rewrite list_lookup_insert_ne in Hj by done. by apply Honly in Hj.
    + rewrite lookup_insert_ne by done. rewrite (Hm k' v'). split; intros (j & Hj); exists j.
      * rewrite list_lookup_insert_ne; [done|]. intros ->. rewrite Hi in Hj. injection Hj as Hj.
        by apply Nk, eq_sym, (Hold _ v').
      * destruct (decide (i = j)) as [<-|N]; [|by rewrite list_lookup_insert_ne in Hj].
        rewrite list_lookup_insert_eq in Hj by done. naive_solver.
Qed.

Lemma del_slot es cap m i k v0 p :
  probe_ok es cap → repr es m → es !! i = Some (mkEntry (Some k) v0) →
  probe_ok (<[i := mkEntry None (Some p)]> es) cap ∧
  repr (<[i := mkEntry None (Some p)]> es) (delete k m).
Proof.
  intros [Hlen Huniq Hreach] Hm Hi. pose proof (lookup_lt_Some _ _ _ Hi) as Hlt.
  assert (Hother : ∀ j k' v', <[i := mkEntry None (Some p)]> es !! j = Some (mkEntry (Some k') v') ↔
                              k ≠ k' ∧ es !! j = Some (mkEntry (Some k') v')).
  { intros j k' v'. destruct (decide (i = j)) as [<-|N].
    - rewrite list_lookup_insert_eq, Hi by done. naive_solver.
    - rewrite list_lookup_insert_ne by done. split; [|tauto]. intros Hj. split; [|done].
      intros <-. eauto. }
  split; [split|].
  - by rewrite length_insert.
  - intros j1 j2 k' v1 v2 [_ H1]%Hother [_ H2]%Hother. eauto.
  - intros j k' v' [_ Hj]%Hother. eapply reach_insert; eauto. done.
  - intros k' v'. rewrite lookup_delete_Some, (Hm k' v').
    split; [intros [? (j & Hj)]|intros (j & Hj)].
    + exists j. by apply Hother.
    + apply Hother in Hj as [??]. eauto.
Qed.

Lemma probe_ok_replicate cap : probe_ok (replicate cap null_entry) cap.
Proof.
  split.
  - apply length_replicate.
  - intros i j k v w [Hi _]%lookup_replicate. discriminate.
  - intros i k v [Hi _]%lookup_replicate. discriminate.
Qed.
Lemma repr_replicate cap : repr (replicate cap null_entry) ∅.
Proof.
  intros k v. rewrite lookup_empty. split; [done|].
  intros (i & [Hi _]%lookup_replicate). discriminate.
Qed.

(** ** Growing *)

(** The bindings of a list of entries, in order. *)
Definition bindings (es : list TableEntry) : list (nat * option ptr) :=
  omap (λ e, match e_key e with Some k => Some (k, e_value e) | None => None end) es.

Lemma length_bindings es : length (bindings es) = number keyed es.
Proof.
  unfold number, bindings. induction es as [|[[k|] v] es IH]; [done| |];
    rewrite filter_cons; case_decide as Hk; try (by destruct Hk); simpl; auto.
Qed.

Lemma elem_of_bindings es k v : (k, v) ∈ bindings es ↔ ∃ i, es !! i = Some (mkEntry (Some k) v).
Proof.
  unfold bindings. rewrite list_elem_of_omap. setoid_rewrite <- list_elem_of_lookup. split.
  - intros ([[k'|] v'] & He & ?); simplify_eq/=. done.
  - intros He. eexists; split; [exact He|done].
Qed.

Lemma NoDup_bindings es cap : probe_ok es cap → NoDup (bindings es).*1.
Proof.
  intros [_ Huniq _]. clear cap. induction es as [|[[k|] v] es IH]; simpl; [constructor| |].
  - constructor.
    + intros ([k' w] & ? & Hin)%list_elem_of_fmap; simplify_eq/=.
      apply elem_of_bindings in Hin as (i & Hi). by specialize (Huniq 0 (S i) _ _ _ eq_refl Hi).
    + apply IH. intros i j k' v' w Hi Hj. by specialize (Huniq (S i) (S j) _ _ _ Hi Hj) as [= ?].
  - apply IH. intros i j k' v' w Hi Hj. by specialize (Huniq (S i) (S j) _ _ _ Hi Hj) as [= ?].
Qed.

Lemma repr_bindings es cap m : probe_ok es cap → repr es m → m = list_to_map (bindings es).
Proof.
  intros Hix Hm. apply map_eq. intros k. apply option_eq. intros v.
  rewrite (Hm k v), <- elem_of_list_to_map by eauto using NoDup_bindings.
  by rewrite elem_of_bindings.
Qed.

(** The copying loop of [adjust_capacity] holds the same bindings and no deleted
    slot. *)
Lemma reinsert_ok {S} cap old new m n (s : S) :
  probe_ok new cap → repr new m → number keyed new = n → number busy new = n →
  NoDup (bindings old).*1 → (∀ k, k ∈ (bindings old).*1 → m !! k = None) →
  n + length (bindings old) < cap →
  ∃ r, mfold (reinsert hash_of cap) (new, n) old s = Ok r s ∧
    probe_ok r.1 cap ∧ repr r.1 (list_to_map (bindings old) ∪ m) ∧
    number keyed r.1 = r.2 ∧ number busy r.1 = r.2 ∧ r.2 = n + length (bindings old).
Proof.
  revert new m n. induction old as [|[[k|] v] old IH]; intros new m n Hix Hm Hk Hb Hnd Hfresh Hlt.
  - exists (new, n). simpl in *. rewrite (left_id_L ∅ (∪)). auto with lia.
  - simpl in *. apply NoDup_cons in Hnd as [Hkb Hnd].
    assert (m !! k = None) as Hmk by (apply Hfresh; left).
    destruct (find_entry_spec new cap m k s Hix Hm) as (i & e & Hf & Hi & Hr & He); [lia|].
    destruct (put_slot new cap m i e k v Hix Hm Hi Hr He) as [Hix' Hm'].
    rewrite Hmk in He.
    assert (e = null_entry) as -> by (eapply number_no_tombstone; eauto; congruence).
    destruct (number_put new i _ k v Hi eq_refl) as [N1 N2]. rewrite decide_True in N2 by done.
    destruct (IH (<[i := mkEntry (Some k) v]> new) (<[k := v]> m) (n + 1))
      as (r & Hr1 & Hr2 & Hr3 & ? & ? & ?); try done; try lia.
    { intros k' Hk'. rewrite lookup_insert_ne by (intros ->; done). apply Hfresh. by right. }
    exists r. split_and!; auto; [|by rewrite <- insert_union_l, insert_union_r by
      (by apply not_elem_of_list_to_map_1)|lia].
    unfold mbind, reinsert at 1. simpl. unfold mbind. rewrite Hf. exact Hr1.
  - destruct (IH new m n) as (r & ?); auto. exists r. done.
Qed.

(** ** The invariant of a table that stands for the map [m] *)

Record wf (t : Table) (m : gmap nat (option ptr)) : Prop := {
  wf_index : probe_ok (entries t) (capacity t);
  wf_repr : repr (entries t) m;
  wf_count : count t = number keyed (entries t);
  wf_used : used t = number busy (entries t);
  wf_load : used t ≤ capacity t `div` 2;
  wf_capacity : capacity t = 0 ∨ 15 ≤ capacity t
}.

Lemma wf_init : wf table_init ∅.
Proof.
  split; [apply (probe_ok_replicate 0)|apply (repr_replicate 0)|done|done|simpl; lia|by left].
Qed.

Lemma wf_count_zero t m k : wf t m → count t = 0 → m !! k = None.
Proof.
  intros [_ Hm Hc _ _ _] H0. rewrite H0 in Hc. apply eq_None_not_Some. intros [v Hv].
  apply Hm in Hv as (i & Hi). by apply (number_zero keyed _ _ _ (eq_sym Hc) Hi).
Qed.

Lemma wf_room t m : wf t m → count t ≠ 0 → number busy (entries t) < capacity t.
Proof.
  intros [_ _ Hc Hu Hl _] H0. pose proof (number_keyed_busy (entries t)).
  destruct (decide (capacity t = 0)) as [E|].
  - rewrite E in Hl. simpl in Hl. lia.
  - rewrite <- Hu. enough (capacity t `div` 2 < capacity t) by lia. apply Nat.div_lt; lia.
Qed.

Lemma adjust_ok t m cap :
  wf t m → capacity t `div` 2 < cap `div` 2 → 15 ≤ cap →
  ∃ t', adjust_capacity hash_of true cap t = Ok tt t' ∧ wf t' m ∧
    capacity t' = cap ∧ used t' ≤ used t.
Proof.
  intros [Hix Hm Hc Hu Hl _] Hcap H15.
  pose proof (number_keyed_busy (entries t)) as Hkb.
  assert (cap `div` 2 ≤ cap) by (apply Nat.Div0.div_le_upper_bound; lia).
  assert (number keyed (replicate cap null_entry) = 0) by (apply number_replicate; intros []; done).
  assert (number busy (replicate cap null_entry) = 0) by (apply number_replicate; intros []; done).
  destruct (reinsert_ok cap (entries t) (replicate cap null_entry) ∅ 0 t)
    as (r & Hr & Hr1 & Hr2 & Hr3 & Hr4 & Hr5);
    eauto using probe_ok_replicate, repr_replicate, NoDup_bindings.
  { rewrite length_bindings. lia. }
  rewrite length_bindings in Hr5.
  exists (mkTable r.1 cap r.2 r.2). split_and!; [|split; tsimpl; auto; try lia|done|simpl; lia].
  - unfold adjust_capacity, mbind, gets, modify. by rewrite Hr.
  - rewrite (repr_bindings _ _ m Hix Hm). by rewrite (right_id_L ∅ (∪)) in Hr2.
Qed.

(** ** The operations on the map *)

Lemma table_get_ok t m k : wf t m →
  table_get hash_of k t = Ok (default None (m !! k)) t ∧
  table_try_get hash_of k t = Ok (m !! k) t.
Proof.
  intros Hwf. unfold table_get, table_try_get, mbind, gets. simpl.
  case_decide as H0; [by rewrite (wf_count_zero t m k)|].
  pose proof (wf_room _ _ Hwf H0) as Hroom. destruct Hwf as [Hix Hm _ _ _ _].
  destruct (find_entry_spec _ _ m k t Hix Hm Hroom) as (i & e & -> & Hi & _ & He).
  rewrite Hi. simpl. destruct (m !! k); subst; simpl; [done|]. by rewrite He.
Qed.

Lemma table_delete_ok t m k : wf t m → ∃ t',
  table_delete hash_of k t = Ok (bool_decide (is_Some (m !! k))) t' ∧ wf t' (delete k m) ∧
  capacity t' = capacity t ∧ used t' = used t.
Proof.
  intros Hwf. unfold table_delete, mbind, gets. simpl. case_decide as H0.
  - rewrite (wf_count_zero t m k), delete_id by eauto using wf_count_zero. by exists t.
  - pose proof (wf_room _ _ Hwf H0) as Hroom. destruct Hwf as [Hix Hm Hc Hu Hl Hcap].
    destruct (find_entry_spec _ _ m k t Hix Hm Hroom) as (i & e & -> & Hi & _ & He).
    rewrite Hi. simpl. destruct (m !! k) as [v|] eqn:Hk; subst; simpl.
    + destruct (del_slot _ _ m i k v (Slot i) Hix Hm Hi) as [Hix' Hm'].
      destruct (number_del _ i k v (Slot i) Hi) as [N1 N2].
      eexists. split_and!; [reflexivity|split; tsimpl; auto; lia|done|done].
    + rewrite He, delete_id by done. by exists t.
Qed.

Lemma put_in_room t m k v :
  wf t m → used t < capacity t `div` 2 →
  ∃ i e t', find_entry hash_of (entries t) (capacity t) k t = Ok i t ∧
    entries t !! i = Some e ∧ bool_decide (e_key e = None) = bool_decide (m !! k = None) ∧
    t' = mkTable (<[i := mkEntry (Some k) v]> (entries t)) (capacity t)
      (if bool_decide (e_key e = None) then count t + 1 else count t)
      (if bool_decide (e = null_entry) then used t + 1 else used t) ∧
    wf t' (<[k := v]> m).
Proof.
  intros [Hix Hm Hc Hu Hl Hcap] Hroom.
  assert (capacity t `div` 2 ≤ capacity t) by (apply Nat.Div0.div_le_upper_bound; lia).
  destruct (find_entry_spec (entries t) (capacity t) m k t) as (i & e & Hf & Hi & Hr & He);
    auto; [lia|].
  destruct (put_slot _ _ m i e k v Hix Hm Hi Hr He) as [Hix' Hm'].
  exists i, e. eexists. split_and!; [done|done| |reflexivity|].
  { destruct (m !! k); subst; simpl; by rewrite ?He. }
  destruct (m !! k) as [v0|] eqn:Hk.
  - subst e. destruct (number_over _ i k v0 v Hi) as [N1 N2].
    rewrite !bool_decide_eq_false_2 by done. split; tsimpl; auto; lia.
  - destruct (number_put _ i e k v Hi He) as [N1 N2]. rewrite (bool_decide_eq_true_2 _ He).
    split; tsimpl; auto; [lia| |]; case_bool_decide; [rewrite decide_True in N2 by done|
      rewrite decide_False in N2 by done| |]; lia.
Qed.

Lemma table_put_ok t m k v :
  wf t m → (2 * Z.of_nat (capacity t) ≤ INT_MAX)%Z → ∃ t',
  table_put hash_of true k v t = Ok (bool_decide (m !! k = None)) t' ∧ wf t' (<[k := v]> m) ∧
  used t' ≤ used t + 1 ∧ capacity t' ≤ capacity t `max` (15 `max` (4 * used t + 1)).
Proof.
  intros Hwf Hint. assert (Hgrow : ∃ t1,
    (if decide (capacity t `div` 2 ≤ used t) then
       if decide (INT_MAX < 2 * Z.of_nat (capacity t))%Z then mub
       else adjust_capacity hash_of true (15 `max` (capacity t * 2 - 1))
     else mret tt) t = Ok tt t1 ∧ wf t1 m ∧ used t1 < capacity t1 `div` 2 ∧ used t1 ≤ used t ∧
    capacity t1 ≤ capacity t `max` (15 `max` (4 * used t + 1))).
  { case_decide as Hfull; [|exists t; split_and!; auto; lia]. rewrite decide_False by lia.
    pose proof (Nat.div_mod_eq (capacity t) 2). pose proof (Nat.mod_upper_bound (capacity t) 2).
    pose proof (wf_load _ _ Hwf). pose proof (wf_capacity _ _ Hwf).
    assert (capacity t `div` 2 < (15 `max` (capacity t * 2 - 1)) `div` 2).
    { apply Nat.div_le_lower_bound; lia. }
    destruct (adjust_ok t m (15 `max` (capacity t * 2 - 1)) Hwf) as (t1 & -> & ? & E & ?);
      [done|lia|]. exists t1. rewrite E. split_and!; auto; lia. }
  destruct Hgrow as (t1 & Hrun & Hwf1 & Hroom & Hu & Hcap).
  destruct (put_in_room t1 m k v Hwf1 Hroom) as (i & e & t' & Hf & Hi & Hnew & -> & Hwf').
  eexists. split_and!; [|exact Hwf'|tsimpl; destruct (bool_decide (e = null_entry)); lia|exact Hcap].
  unfold table_put. rewrite (bind_run _ _ t t t) by done. cbv beta.
  rewrite (bind_run _ _ t tt t1) by exact Hrun. cbv beta.
  unfold mbind, gets, modify. simpl. rewrite Hf, Hi. simpl. by rewrite Hnew.
Qed.
End probing.

(** ** Sequences of operations *)

Inductive op := Put (k : nat) (v : option ptr) | Delete (k : nat) | Get (k : nat) | TryGet (k : nat).
Inductive answer := ABool (b : bool) | APtr (p : option ptr) | ATry (o : option (option ptr)).

(** A client that runs the operations in turn, memory being available. *)
Definition run_op (hash_of : nat → Z) (o : op) : M Table answer :=
  match o with
  | Put k v => b <- table_put hash_of true k v ;; mret (ABool b)
  | Delete k => b <- table_delete hash_of k ;; mret (ABool b)
  | Get k => p <- table_get hash_of k ;; mret (APtr p)
  | TryGet k => r <- table_try_get hash_of k ;; mret (ATry r)
  end.
Fixpoint run_ops (hash_of : nat → Z) (ops : list op) : M Table (list answer) :=
  match ops with
  | [] => mret []
  | o :: ops' => a <- run_op hash_of o ;; l <- run_ops hash_of ops' ;; mret (a :: l)
  end.

(** The same operations on a finite map. *)
Definition map_op (o : op) (m : gmap nat (option ptr)) : answer * gmap nat (option ptr) :=
  match o with
  | Put k v => (ABool (bool_decide (m !! k = None)), <[k := v]> m)
  | Delete k => (ABool (bool_decide (is_Some (m !! k))), delete k m)
  | Get k => (APtr (default None (m !! k)), m)
  | TryGet k => (ATry (m !! k), m)
  end.
Fixpoint map_ops (ops : list op) (m : gmap nat (option ptr)) :
    list answer * gmap nat (option ptr) :=
  match ops with
  | [] => ([], m)
  | o :: ops' =>
      let '(a, m1) := map_op o m in let '(l, m2) := map_ops ops' m1 in (a :: l, m2)
  end.

(** The caller's loop
    [for (it = 0; (it = table_iterate(t, it, &k, &v)) != -1;)]: the bindings it
    meets. *)
Fixpoint walk (fuel : nat) (t : Table) (it : nat) : option (list (nat * option ptr)) :=
  match fuel with
  | O => None
  | S fuel' =>
      match table_iterate t it with
      | None => Some []
      | Some (k, v, it') => cons (k, v) <$> walk fuel' t it'
      end
  end.

Section sequences.
Context (hash_of : nat → Z).

Lemma run_op_ok o t m n :
  wf hash_of t m → used t ≤ n → capacity t ≤ 15 `max` (4 * n + 1) →
  (8 * Z.of_nat n + 30 ≤ INT_MAX)%Z → ∃ t',
  run_op hash_of o t = Ok (map_op o m).1 t' ∧ wf hash_of t' (map_op o m).2 ∧ used t' ≤ n + 1 ∧
  capacity t' ≤ 15 `max` (4 * (n + 1) + 1).
Proof.
  intros Hwf Hu Hc Hn. destruct o as [k v|k|k|k]; simpl; unfold mbind.
  - destruct (table_put_ok hash_of t m k v Hwf) as (t' & -> & ? & ? & ?); [lia|].
    exists t'. split_and!; auto; lia.
  - destruct (table_delete_ok hash_of t m k Hwf) as (t' & -> & ? & ? & ?).
    exists t'. split_and!; auto; lia.
  - rewrite (proj1 (table_get_ok hash_of t m k Hwf)). exists t. split_and!; auto; lia.
  - rewrite (proj2 (table_get_ok hash_of t m k Hwf)). exists t. split_and!; auto; lia.
Qed.

Lemma run_ops_ok ops t m n :
  wf hash_of t m → used t ≤ n → capacity t ≤ 15 `max` (4 * n + 1) →
  (8 * Z.of_nat (n + length ops) + 30 ≤ INT_MAX)%Z → ∃ t',
  run_ops hash_of ops t = Ok (map_ops ops m).1 t' ∧ wf hash_of t' (map_ops ops m).2.
Proof.
  revert t m n. induction ops as [|o ops IH]; intros t m n Hwf Hu Hc Hn; cbn in *; [eauto|].
  destruct (run_op_ok o t m n) as (t1 & Ho & Hwf1 & ? & ?); auto; [lia|].
  destruct (map_op o m) as [a m1]. simpl in *.
  destruct (IH t1 m1 (n + 1)) as (t' & Hrun & Hwf'); auto; [lia|].
  destruct (map_ops ops m1) as [l m2]. exists t'. split; [|done].
  rewrite (bind_run _ _ t a t1) by done. by rewrite (bind_run _ _ t1 l t').
Qed.

Lemma iterate_loop_drop es it :
  match iterate_loop es it with
  | None => bindings es = []
  | Some (k, v, it') => ∃ n, it' = it + n ∧ 0 < n ∧ n ≤ length es ∧
      bindings es = (k, v) :: bindings (drop n es)
  end.
Proof.
  revert it. induction es as [|[[k|] v] es IH]; intros it; simpl; [done| |].
  - exists 1. split_and!; auto; lia.
  - specialize (IH (it + 1)). destruct (iterate_loop es (it + 1)) as [[[k w] it']|]; [|done].
    destruct IH as (n & -> & ? & ? & ?). exists (S n). split_and!; auto; lia.
Qed.

Lemma walk_bindings t fuel it :
  length (entries t) = capacity t → capacity t - it < fuel →
  walk fuel t it = Some (bindings (drop it (entries t))).
Proof.
  intros Hlen. revert it. induction fuel as [|fuel IH]; intros it Hf; [lia|]. simpl.
  unfold table_iterate. rewrite take_ge by lia.
  pose proof (iterate_loop_drop (drop it (entries t)) it) as H.
  destruct (iterate_loop (drop it (entries t)) it) as [[[k v] it']|]; [|by rewrite H].
  destruct H as (n & -> & Hn & Hle & ->). rewrite length_drop in Hle.
  rewrite IH by lia. simpl. by rewrite drop_drop.
Qed.
End sequences.

(** C25: any sequence of [table_put], [table_delete], [table_get] and
    [table_try_get] on a fresh table returns: no probe runs for ever, leaves
    the array or divides by zero, whatever the hashes.  It gives the answers of a finite map, and
    iterating over the table afterwards visits each binding of that map once.  The number of
    operations is bounded by what the [int] capacity can count. *)
Theorem table_refines_map (hash_of : nat → Z) (ops : list op) :
  (8 * Z.of_nat (length ops) + 30 ≤ INT_MAX)%Z →
  ∃ t l, run_ops hash_of ops table_init = Ok (map_ops ops ∅).1 t ∧
    walk (capacity t + 1) t 0 = Some l ∧ NoDup l.*1 ∧
    list_to_map l = (map_ops ops ∅).2.
Proof.
  intros Hn. destruct (run_ops_ok hash_of ops table_init ∅ 0) as (t & Hrun & Hwf);
    auto using wf_init with lia.
  { simpl. lia. }
  exists t, (bindings (entries t)). split_and!; [done| | |].
  - by rewrite walk_bindings by (destruct Hwf as [[]]; tsimpl; auto; lia).
  - eapply NoDup_bindings, Hwf.
  - symmetry. eapply repr_bindings; apply Hwf.
Qed.

Lemma table_refines_map_witness :
  ∃ t l, run_ops (λ _, 3%Z) [Put 1 (Some (Obj 7)); Put 2 None; Delete 1; Get 2; TryGet 1; Put 16 None]
      table_init =
    Ok [ABool true; ABool true; ABool true; APtr None; ATry None; ABool true] t ∧
    walk (capacity t + 1) t 0 = Some l ∧ NoDup l.*1 ∧
    list_to_map l = (<[16 := None]> {[2 := None]} : gmap nat (option ptr)).
Proof. apply (table_refines_map (λ _, 3%Z)). vm_compute. discriminate. Defined.

(** ** Interning *)

(** Reads of the hash of keys that are not in the table do not matter. *)
Lemma wf_ext (h1 h2 : nat → Z) t m :
  (∀ k, is_Some (m !! k) → h1 k = h2 k) → wf h1 t m → wf h2 t m.
Proof.
  intros Hext [[Hlen Huniq Hreach] Hm ? ? ? ?]. split; auto. split; auto.
  intros i k v Hi. rewrite <- Hext; [eauto|]. exists v. apply Hm. eauto.
Qed.

Lemma find_name_walk {S} h es c chars bytes hash hh n fuel (s : S) :
  (∀ j, j < n → ∃ e, es !! ((hh + j) mod c) = Some e ∧ busy e ∧
     ∀ k, e_key e = Some k → ∃ nm, h !! k = Some nm ∧ n_chars nm ≠ chars) →
  n ≤ fuel →
  find_name_loop fuel h es c chars bytes hash ((hh + 0) mod c) s =
    find_name_loop (fuel - n) h es c chars bytes hash ((hh + n) mod c) s.
Proof.
  induction n as [|n IH]; intros Hwalk Hn; [by rewrite Nat.sub_0_r|].
  rewrite IH by (intros; try apply Hwalk; lia).
  destruct (Hwalk n) as (e & He & Hb & Hk); [lia|].
  replace (fuel - n) with (Datatypes.S (fuel - Datatypes.S n)) by lia. simpl.
  unfold mbind at 1. rewrite He. simpl. rewrite probe_step.
  destruct e as [[k|] [v|]]; simpl in *; try (by destruct Hb); [| |done].
  all: destruct (Hk k eq_refl) as (nm & Hnm & Hne); unfold mbind at 1; rewrite Hnm; simpl;
    by rewrite decide_False by naive_solver.
Qed.

(** Every name of the heap is in [name_table], under itself, once per string. *)
Record interned_ok (st : Names) : Prop := {
  nm_fields p nm : heap st !! p = Some nm →
    n_bytes nm = Z.of_nat (length (n_chars nm)) ∧ n_hash nm = hash_string (n_chars nm);
  nm_uniq p q nm nm' : heap st !! p = Some nm → heap st !! q = Some nm' →
    n_chars nm = n_chars nm' → p = q;
  nm_table : ∃ m, wf (name_hash (heap st)) (name_table st) m ∧
    ∀ p v, m !! p = Some v ↔ p < length (heap st) ∧ v = Some (Obj p)
}.

Section interning.
Context (st : Names) (Hst : interned_ok st).

Lemma count_names : count (name_table st) = length (heap st).
Proof using Type*.
  destruct Hst as [_ _ (m & Hwf & Hm)].
  rewrite (wf_count _ _ _ Hwf), <- length_bindings, <- (length_fmap fst).
  rewrite <- (length_seq (length (heap st)) 0). apply Permutation_length, NoDup_Permutation.
  - eapply NoDup_bindings, Hwf.
  - apply NoDup_seq.
  - intros p. rewrite list_elem_of_fmap, elem_of_seq. split.
    + intros ([k v] & -> & Hin). apply elem_of_bindings, (wf_repr _ _ _ Hwf), Hm in Hin. simpl; lia.
    + intros Hp. exists (p, Some (Obj p)). split; [done|].
      apply elem_of_bindings, (wf_repr _ _ _ Hwf), Hm. split; [lia|done].
Qed.

(** [find_name_table] finds the name with these characters, or none. *)
Lemma find_name_found p nm s :
  heap st !! p = Some nm → n_chars nm = s →
  find_name_table s (Z.of_nat (length s)) (hash_string s) st = Ok (Some p) st.
Proof using Type*.
  intros Hp <-. pose proof (lookup_lt_Some _ _ _ Hp) as Hlt.
  unfold find_name_table, mbind, gets. simpl. rewrite count_names, decide_False by lia.
  pose proof Hst as [Hfields Huniq (m & Hwf & Hm)].
  assert (m !! p = Some (Some (Obj p))) as Hmp by by apply Hm.
  apply (wf_repr _ _ _ Hwf) in Hmp as (i & Hi).
  destruct (ix_reach _ _ _ (wf_index _ _ _ Hwf) _ _ _ Hi) as (n & Hn & <- & Hpath).
  unfold name_hash in Hi, Hpath. rewrite Hp in Hi, Hpath.
  destruct (Hfields p nm Hp) as [Hb Hh]. rewrite Hh in Hi, Hpath.
  rewrite decide_False by lia.
  set (h := start (capacity (name_table st)) (hash_string (n_chars nm))) in *.
  replace h with ((h + 0) mod capacity (name_table st)) at 1
    by (rewrite Nat.add_0_r; apply Nat.mod_small, start_lt; lia).
  rewrite find_name_walk with (n := n); [| |lia].
  - replace (capacity (name_table st) - n) with (S (capacity (name_table st) - S n)) by lia. simpl.
    unfold mbind. rewrite Hi. simpl. rewrite Hp. simpl. by rewrite decide_True.
  - intros j Hj. destruct (Hpath j Hj) as ([k v] & He & Hbusy). exists (mkEntry k v).
    split_and!; auto. simpl. intros k' ->.
    assert (m !! k' = Some v) as Hk' by (apply (wf_repr _ _ _ Hwf); eauto).
    apply Hm in Hk' as [Hk' ->]. destruct (lookup_lt_is_Some_2 _ _ Hk') as [nm' Hnm'].
    exists nm'. split; [done|]. intros Hc. assert (k' = p) as -> by eauto.
    pose proof (ix_uniq _ _ _ (wf_index _ _ _ Hwf) _ _ _ _ _ He Hi) as Heq.
    apply probe_inj in Heq; [lia| |lia|lia]. apply start_lt. lia.
Qed.

Lemma find_name_missing s :
  (∀ p nm, heap st !! p = Some nm → n_chars nm ≠ s) →
  find_name_table s (Z.of_nat (length s)) (hash_string s) st = Ok None st.
Proof using Type*.
  intros Hno. unfold find_name_table, mbind, gets. simpl. case_decide as H0; [done|].
  pose proof Hst as [Hfields Huniq (m & Hwf & Hm)].
  pose proof (wf_room _ _ _ Hwf H0) as Hroom. rewrite decide_False by lia.
  set (cap := capacity (name_table st)) in *. set (es := entries (name_table st)) in *.
  assert (Hlen : length es = cap) by apply Hwf.
  set (h := start cap (hash_string s)).
  assert (Hh : h < cap) by (apply start_lt; lia).
  destruct (free_path es cap h Hlen Hroom Hh) as (n & Hn & Hnull & Hbusy).
  replace h with ((h + 0) mod cap) at 1 by (rewrite Nat.add_0_r; by apply Nat.mod_small).
  rewrite find_name_walk with (n := n); [| |lia].
  - replace (cap - n) with (S (cap - S n)) by lia. simpl. unfold mbind. by rewrite Hnull.
  - intros j Hj. destruct (Hbusy j Hj) as ([k v] & He & Hb). exists (mkEntry k v). split_and!; auto.
    simpl. intros k' ->. assert (m !! k' = Some v) as Hk' by (apply (wf_repr _ _ _ Hwf); eauto).
    apply Hm in Hk' as [Hk' ->]. destruct (lookup_lt_is_Some_2 _ _ Hk') as [nm' Hnm']. eauto.
Qed.
End interning.

Lemma interned_ok_init : interned_ok no_names.
Proof.
  split; [done|done|]. exists ∅. split; [apply wf_init|].
  intros p v. rewrite lookup_empty. split; [done|]. simpl. lia.
Qed.

Definition have_memory : allocs := mkAllocs true true true.

Lemma alloc_name_ok st s copy :
  interned_ok st → (Z.of_nat (length s) ≤ INT_MAX)%Z →
  (2 * Z.of_nat (capacity (name_table st)) ≤ INT_MAX)%Z →
  ∃ p nm st', alloc_name have_memory s copy st = Ok (Some p) st' ∧ interned_ok st' ∧
    heap st `prefix_of` heap st' ∧ heap st' !! p = Some nm ∧ n_chars nm = s ∧
    used (name_table st') ≤ used (name_table st) + 1 ∧
    capacity (name_table st') ≤
      capacity (name_table st) `max` (15 `max` (4 * used (name_table st) + 1)).
Proof.
  intros Hst Hs Hcap. unfold alloc_name. rewrite decide_False by lia.
  destruct (decide (Exists (λ nm, n_chars nm = s) (heap st))) as [Hex|Hno].
  - apply Exists_exists in Hex as (nm & Hin & Hc). apply list_elem_of_lookup in Hin as (p & Hp).
    rewrite (bind_run _ _ st (Some p) st) by (by eapply find_name_found).
    exists p, nm, st. split_and!; auto; lia.
  - assert (Hnew : ∀ p nm, heap st !! p = Some nm → n_chars nm ≠ s).
    { intros p nm Hp Hc. apply Hno, Exists_exists. eauto using list_elem_of_lookup_2. }
    rewrite (bind_run _ _ st None st) by (by apply find_name_missing).
    simpl. rewrite andb_false_r. destruct Hst as [Hfields Huniq (m & Hwf & Hm)].
    set (nm := mkName s (Z.of_nat (length s)) (hash_string s)).
    set (h' := heap st ++ [nm]).
    assert (Hwf' : wf (name_hash h') (name_table st) m).
    { eapply wf_ext; [|exact Hwf]. intros k [v Hk]. apply Hm in Hk as [Hk _].
      unfold name_hash, h'. by rewrite lookup_app_l. }
    destruct (table_put_ok _ _ m (length (heap st)) (Some (Obj (length (heap st)))) Hwf' Hcap)
      as (t' & Hput & Hwf2 & Hu & Hc).
    exists (length (heap st)), nm, (mkNames h' t'). split_and!; [..|done|done|done].
    + unfold mbind, gets, modify, on_name_table. simpl. fold nm h'. by rewrite Hput.
    + split; simpl.
      * intros p nm' [Hp|[_ Hp]]%lookup_app_Some; [eauto|].
        apply list_lookup_singleton_Some in Hp as [_ <-]. done.
      * intros p q nm1 nm2 [Hp|[? Hp]]%lookup_app_Some [Hq|[? Hq]]%lookup_app_Some;
          try apply list_lookup_singleton_Some in Hp as [? <-];
          try apply list_lookup_singleton_Some in Hq as [? <-]; simpl; intros Heq; eauto;
          [by destruct (Hnew _ _ Hp)|by destruct (Hnew _ _ Hq)|lia].
      * exists (<[length (heap st) := Some (Obj (length (heap st)))]> m). split; [done|].
        intros p v. unfold h'. rewrite length_app. simpl.
        destruct (decide (p = length (heap st))) as [->|N].
        { rewrite lookup_insert_eq. split; [intros [= <-]; split; [lia|done]|by intros [_ ->]]. }
        rewrite lookup_insert_ne by done. rewrite Hm. split; intros [??]; split; auto; lia.
    + simpl. by exists [nm].
    + simpl. unfold h'. by rewrite list_lookup_middle.
Qed.

(** A client that interns strings in turn. *)
Fixpoint intern (calls : list (cstr * bool)) : M Names (list (option nat)) :=
  match calls with
  | [] => mret []
  | (s, copy) :: calls' =>
      p <- alloc_name have_memory s copy ;; ps <- intern calls' ;; mret (p :: ps)
  end.

(** [p] points to a name with the characters [s]. *)
Definition names (h : list Name) (p : option nat) (s : cstr) : Prop := ∃ q nm,
  p = Some q ∧ h !! q = Some nm ∧ n_chars nm = s.

Lemma intern_ok calls st n :
  interned_ok st → used (name_table st) ≤ n → capacity (name_table st) ≤ 15 `max` (4 * n + 1) →
  (8 * Z.of_nat (n + length calls) + 30 ≤ INT_MAX)%Z →
  Forall (λ c, Z.of_nat (length c.1) ≤ INT_MAX)%Z calls →
  ∃ ps st', intern calls st = Ok ps st' ∧ interned_ok st' ∧ heap st `prefix_of` heap st' ∧
    Forall2 (λ p c, names (heap st') p c.1) ps calls.
Proof.
  revert st n. induction calls as [|[s copy] calls IH]; intros st n Hst Hu Hc Hn Hlen.
  { exists [], st. simpl. auto. }
  apply Forall_cons in Hlen as [Hs Hlen]. cbn [length fst] in *.
  destruct (alloc_name_ok st s copy) as (p & nm & st1 & Hp & Hst1 & Hpre & Hnm & Hch & ? & ?);
    auto; [lia|].
  destruct (IH st1 (n + 1)) as (ps & st2 & Hps & Hst2 & Hpre2 & Hall); auto; [lia..|].
  exists (Some p :: ps), st2. split_and!; [|done|by etransitivity|constructor; [|done]].
  - simpl. rewrite (bind_run _ _ st (Some p) st1) by done. by rewrite (bind_run _ _ st1 ps st2).
  - exists p, nm. split_and!; auto. by eapply prefix_lookup_Some.
Qed.

(** interning strings one after the other returns a name for each, with the
    characters of the string, and two of the names are equal as pointers
    exactly when the strings are equal, which is what [equal_name] relies on. *)
Theorem alloc_name_interns (calls : list (cstr * bool)) :
  (8 * Z.of_nat (length calls) + 30 ≤ INT_MAX)%Z →
  Forall (λ c, Z.of_nat (length c.1) ≤ INT_MAX)%Z calls →
  ∃ ps st, intern calls no_names = Ok ps st ∧
    Forall2 (λ p c, names (heap st) p c.1) ps calls ∧
    ∀ i j p q c d, ps !! i = Some p → ps !! j = Some q →
      calls !! i = Some c → calls !! j = Some d → equal_name p q = bool_decide (c.1 = d.1).
Proof.
  intros Hn Hlen. destruct (intern_ok calls no_names 0) as (ps & st & Hrun & Hst & _ & Hall);
    auto using interned_ok_init with lia.
  { simpl. lia. }
  exists ps, st. split_and!; [done|done|]. intros i j p q c d Hp Hq Hc Hd.
  destruct (Forall2_lookup_lr _ _ _ _ _ _ Hall Hp Hc) as (p' & nm & -> & Hnm & Hc').
  destruct (Forall2_lookup_lr _ _ _ _ _ _ Hall Hq Hd) as (q' & nm' & -> & Hnm' & Hd').
  apply bool_decide_ext. rewrite <- Hc', <- Hd'. split; [naive_solver|].
  intros E. f_equal. by eapply (nm_uniq _ Hst).
Qed.

Lemma alloc_name_interns_witness :
  ∃ ps st, intern [(lit "foo", true); (lit "bar", false); (lit "foo", true)] no_names = Ok ps st ∧
    Forall2 (λ p c, names (heap st) p c.1) ps
      [(lit "foo", true); (lit "bar", false); (lit "foo", true)] ∧
    ∀ i j p q c d, ps !! i = Some p → ps !! j = Some q →
      [(lit "foo", true); (lit "bar", false); (lit "foo", true)] !! i = Some c →
      [(lit "foo", true); (lit "bar", false); (lit "foo", true)] !! j = Some d →
      equal_name p q = bool_decide (c.1 = d.1).
Proof.
  apply (alloc_name_interns [(lit "foo", true); (lit "bar", false); (lit "foo", true)]).
  - vm_compute. discriminate.
  - repeat constructor; vm_compute; discriminate.
Defined.

(** The first [table_put] when [malloc] fails for the array divides by zero. *)
Example table_put_no_memory : table_put (λ _, 3%Z) false 1 None table_init = Ub.
Proof. reflexivity. Qed.
