(* ===== verification/UtfFacts.v ===== *)
(** * The UTF-8 decoder and encoder are inverse, and searches find runes

    Facts about Utf.v.  The bit operations are first read as arithmetic; the
    rest is linear arithmetic on the values of the bytes. *)

From S2P Require Import Prelude Utf.
Local Open Scope Z_scope.

(** ** Bits as arithmetic *)

Definition is_byte (c : Z) : Prop := 0 ≤ c < 256.

(** A property of all bytes, by evaluation. *)
Lemma all_bytes (P : Z → bool) :
  forallb P (map Z.of_nat (List.seq 0 256)) = true → ∀ c, is_byte c → P c = true.
Proof.
  intros H c [H0 H1]. rewrite forallb_forall in H. apply H, in_map_iff.
  exists (Z.to_nat c). split; [lia|]. apply in_seq. lia.
Qed.

Definition seq_range (c : Z) : nat :=
  if c <? 128 then 1 else if c <? 192 then 0 else if c <? 224 then 2 else if c <? 240 then 3
  else if c <? 248 then 4 else if c <? 252 then 5 else if c <? 254 then 6 else 0.

Lemma UTFSEQ_range c : is_byte c → UTFSEQ c = seq_range c.
Proof.
  intros Hc. apply Nat.eqb_eq. revert c Hc.
  apply (all_bytes (λ c, (UTFSEQ c =? seq_range c)%nat)). vm_compute. reflexivity.
Qed.

Lemma follow_range c : is_byte c → (Z.land c 0xC0 =? 0x80) = (128 <=? c) && (c <? 192).
Proof.
  intros Hc. apply eqb_true_iff. revert c Hc.
  apply (all_bytes (λ c, Bool.eqb (Z.land c 0xC0 =? 0x80) ((128 <=? c) && (c <? 192)))).
  vm_compute. reflexivity.
Qed.

Lemma runetochar_arith r : runetochar r =
  match runelen r with
  | 1%nat => [r]
  | 2%nat => [192 + r / 64 mod 32; 128 + r mod 64]
  | 3%nat => [224 + r / 4096 mod 16; 128 + r / 64 mod 64; 128 + r mod 64]
  | 4%nat => [240 + r / 262144 mod 8; 128 + r / 4096 mod 64; 128 + r / 64 mod 64; 128 + r mod 64]
  | _ => []
  end.
Proof.
  unfold runetochar.
  rewrite (field_bits r 6 5), (field_bits r 12 4), (field_bits r 6 6), (field_bits r 18 3),
    (field_bits r 12 6) by (lia || reflexivity).
  change 0x3F with (Z.ones 6). rewrite land_low by lia.
  change 0xC0 with (Z.shiftl 6 5). change 0xE0 with (Z.shiftl 14 4).
  change 0xF0 with (Z.shiftl 30 3). change 0x80 with (Z.shiftl 2 6).
  rewrite !lor_high by (try apply Z.mod_pos_bound; lia). reflexivity.
Qed.

Lemma runelen_cases r : BADRUNE r = false →
  runelen r = 1%nat ∧ 0 ≤ r ≤ 0x7F ∨ runelen r = 2%nat ∧ 0x80 ≤ r ≤ 0x7FF ∨
  runelen r = 3%nat ∧ 0x800 ≤ r ≤ 0xFFFF ∨ runelen r = 4%nat ∧ 0x10000 ≤ r ≤ 0x10FFFF.
Proof.
  intros Hb. unfold runelen. rewrite Hb. unfold BADRUNE in Hb.
  repeat (apply orb_false_iff in Hb as [Hb ?]). unfold Runemax in *.
  repeat case_match; lia.
Qed.

Lemma runelen_bad r : BADRUNE r = true → runelen r = 0%nat.
Proof. intros H. unfold runelen. by rewrite H. Qed.

Lemma length_runetochar r : length (runetochar r) = runelen r.
Proof.
  rewrite runetochar_arith. destruct (BADRUNE r) eqn:Hb; [by rewrite runelen_bad|].
  destruct (runelen_cases r Hb) as [[-> ?]|[[-> ?]|[[-> ?]|[-> ?]]]]; reflexivity.
Qed.

Lemma runetochar_bytes r : Forall is_byte (runetochar r).
Proof.
  rewrite runetochar_arith. unfold is_byte. destruct (BADRUNE r) eqn:Hb;
    [by rewrite runelen_bad|].
  destruct (runelen_cases r Hb) as [[-> ?]|[[-> ?]|[[-> ?]|[-> ?]]]]; repeat constructor;
    Z.to_euclidean_division_equations; lia.
Qed.

(** ** The loop over continuation bytes *)

Definition follow (c : Z) : Prop := 128 ≤ c < 192.
Definition joined (r : Z) (cs : list Z) : Z := fold_left (λ r c, r * 64 + c mod 64) cs r.

Lemma continuation_run {S} s k i r (st : S) :
  Forall is_byte s → (i + k ≤ length s)%nat →
  (Forall follow (take k (drop i s)) ∧
   continuation s k i r st = Ok (inl (joined r (take k (drop i s)))) st) ∨
  ∃ j c, (j < k)%nat ∧ s !! (i + j)%nat = Some c ∧ ¬ follow c ∧
    continuation s k i r st = Ok (inr (i + j)%nat) st.
Proof.
  intros Hs. revert i r. induction k as [|k IH]; intros i r Hlen; [by left|].
  destruct (lookup_lt_is_Some_2 s i) as (c & Hc); [lia|].
  assert (is_byte c) as Hcb by (eapply (Forall_lookup_1 is_byte); eauto).
  rewrite (drop_S s c i Hc). simpl. unfold mbind. rewrite Hc. simpl.
  rewrite follow_range by done. destruct ((128 <=? c) && (c <? 192)) eqn:Hf.
  - change 0x3F with (Z.ones 6). rewrite land_low, lor_high by (try apply Z.mod_pos_bound; lia).
    rewrite Nat.add_1_r. destruct (IH (Datatypes.S i) (r * 2 ^ 6 + c mod 2 ^ 6)) 
      as [[Hall ->]|(j & d & Hj & Hd & Hnf & ->)]; [lia| |].
    + left. split; [|done]. constructor; [unfold follow; lia|done].
    + right. exists (Datatypes.S j), d. rewrite Nat.add_succ_r. split_and!; auto. lia.
  - right. exists 0%nat, c. rewrite Nat.add_0_r. split_and!; auto; [lia|unfold follow; lia].
Qed.

(** ** The decoder *)

(** The bits of the first byte of a sequence of [n] bytes. *)
Definition lead (n : nat) (c : Z) : Z := if decide (n = 1%nat) then c else c mod 2 ^ (7 - Z.of_nat n).

Lemma charntorune_unfold {S} c s len (st : S) : is_byte c → len ≠ 0%nat →
  charntorune (c :: s) len st =
  if decide (seq_range c = 0%nat) then Ok (Some Runeerror, 1%nat) st
  else (x <- continuation (c :: s) (seq_range c `min` len - 1) 1 (lead (seq_range c) c) ;;
    match x with
    | inr i => mret (Some Runeerror, i)
    | inl r =>
        if decide (len < seq_range c)%nat then mret (None, 0%nat)
        else if BADRUNE r || bool_decide (runelen r < seq_range c)%nat
        then mret (Some Runeerror, seq_range c)
        else mret (Some r, seq_range c)
    end) st.
Proof.
  intros Hc Hlen. unfold charntorune. rewrite decide_False by done.
  unfold mbind at 1. simpl deref. unfold mret at 1. rewrite UTFSEQ_range by done. cbv zeta.
  change 0x1F with (Z.ones 5). change 0x0F with (Z.ones 4). change 0x07 with (Z.ones 3).
  change 0x03 with (Z.ones 2). change 0x01 with (Z.ones 1). 
  rewrite (land_low 5), (land_low 4), (land_low 3), (land_low 2), (land_low 1) by lia.
  assert (seq_range c ≤ 6)%nat as H6 by (unfold seq_range; repeat case_match; lia).
  destruct (seq_range c) as [|[|[|[|[|[|[|n]]]]]]]; [done..|lia].
Qed.

(** The value of a complete sequence that is in range and not overlong is the
    rune whose encoding it is. *)
Lemma joined_encodes c cs :
  is_byte c → Forall follow cs → seq_range c = Datatypes.S (length cs) →
  let r := joined (lead (seq_range c) c) cs in
  BADRUNE r = false → (seq_range c ≤ runelen r)%nat → runetochar r = c :: cs.
Proof.
  intros Hc Hcs Hn. rewrite Hn. intros r Hbad Hle. rewrite runetochar_arith. unfold is_byte in Hc.
  assert (Hlead : seq_range c = 1%nat ∧ 0 ≤ c < 128 ∨ seq_range c = 2%nat ∧ 192 ≤ c < 224 ∨
    seq_range c = 3%nat ∧ 224 ≤ c < 240 ∨ seq_range c = 4%nat ∧ 240 ≤ c < 248 ∨ (4 < seq_range c)%nat).
  { unfold seq_range in Hn |- *. repeat case_match; lia. }
  rewrite Hn in Hlead. destruct (runelen_cases r Hbad) as [[Er Hr]|[[Er Hr]|[[Er Hr]|[Er Hr]]]];
    rewrite Er in Hle |- *; destruct cs as [|c1 [|c2 [|c3 [|]]]]; cbn [length] in *; try lia;
    rewrite ?Forall_cons in Hcs; unfold follow in Hcs; subst r; unfold lead, joined in *; simpl in *; Z.to_euclidean_division_equations;
    try lia; repeat apply (f_equal2 cons); solve [reflexivity | lia].
Qed.

Lemma encode_fields r : BADRUNE r = false → ∃ c cs,
  runetochar r = c :: cs ∧ is_byte c ∧ seq_range c = Datatypes.S (length cs) ∧
  Forall follow cs ∧ joined (lead (seq_range c) c) cs = r.
Proof.
  intros Hb. rewrite runetochar_arith. unfold is_byte, follow.
  destruct (runelen_cases r Hb) as [[-> Hr]|[[-> Hr]|[[-> Hr]|[-> Hr]]]]; eexists _, _;
    (split; [reflexivity|]); split; try (Z.to_euclidean_division_equations; lia).
  all: match goal with |- seq_range ?c = ?n ∧ _ =>
      assert (seq_range c = n) as -> by
        (unfold seq_range; repeat case_match; cbn [length];
         Z.to_euclidean_division_equations; lia) end.
  all: split; [reflexivity|]; split;
    [repeat constructor; Z.to_euclidean_division_equations; lia|].
  all: unfold lead, joined; simpl; Z.to_euclidean_division_equations; lia.
Qed.

(** What the decoder does on each kind of input. *)
Lemma charntorune_run {S} s len (st : S) :
  Forall is_byte s → (len ≤ length s)%nat → ∃ o n,
  charntorune s len st = Ok (o, n) st ∧ (n ≤ len `min` UTFmax)%nat ∧
  match o with
  | None => n = 0%nat ∧ (len = 0%nat ∨ ∃ c, s !! 0%nat = Some c ∧ (len < UTFSEQ c)%nat ∧
      Forall follow (take (len - 1) (drop 1 s)))
  | Some r => (0 < n)%nat ∧ BADRUNE r = false ∧ (r = Runeerror ∨ runetochar r = take n s)
  end.
Proof.
  intros Hs Hlen. destruct (decide (len = 0%nat)) as [->|H0].
  { exists None, 0%nat. split_and!; [done|lia|done|by left]. }
  destruct s as [|c s]; [simpl in Hlen; lia|]. apply Forall_cons in Hs as Hcs. destruct Hcs as [Hc _].
  assert (seq_range c ≤ 6)%nat as H6 by (unfold seq_range; repeat case_match; lia).
  rewrite charntorune_unfold by done. unfold UTFmax. case_decide as Hseq.
  { exists (Some Runeerror), 1%nat. split_and!; [done|lia|lia|done|by left]. }
  unfold mbind. destruct (continuation_run (c :: s) (seq_range c `min` len - 1) 1
    (lead (seq_range c) c) st Hs) as [[Hall ->]|(j & d & Hj & Hd & Hnf & ->)]; [lia| |].
  - case_decide as Hshort.
    + exists None, 0%nat. split_and!; [done|lia|done|]. right. exists c.
      rewrite Nat.min_r in Hall by lia. rewrite UTFSEQ_range by done. done.
    + rewrite Nat.min_l in Hall |- * by lia.
      destruct (BADRUNE _) eqn:Hbad; simpl; [|case_bool_decide].
      1,2: exists (Some Runeerror), (seq_range c); split_and!; [done|lia|lia|done|by left].
      eexists (Some _), (seq_range c). split_and!; [done|lia|lia|done|right].
      simpl drop in *. rewrite drop_0 in *. rewrite joined_encodes; try done;
        [|rewrite length_take; cbn [length] in Hlen; lia|lia].
      destruct (seq_range c); [done|]. simpl. by rewrite Nat.sub_0_r.
  - exists (Some Runeerror), (1 + j)%nat. split_and!; [done|lia|lia|done|by left].
Qed.

(** The encoding of a rune at the front of the input is decoded. *)
Lemma charntorune_encoded {S} r rest len (st : S) :
  BADRUNE r = false → Forall is_byte rest → (runelen r ≤ len)%nat →
  charntorune (runetochar r ++ rest) len st = Ok (Some r, runelen r) st.
Proof.
  intros Hb Hrest Hlen. pose proof (length_runetochar r) as Hl. pose proof (runetochar_bytes r) as Hby.
  destruct (encode_fields r Hb) as (c & cs & Hr & Hc & Hn & Hcs & Hj). rewrite Hr in *. simpl in Hl.
  simpl app. rewrite charntorune_unfold by (done || lia). rewrite decide_False by lia.
  unfold mbind. destruct (continuation_run (S:=S) (c :: cs ++ rest) (seq_range c `min` len - 1) 1
    (lead (seq_range c) c) st) as [[Hall ->]|(j & d & Hlt & Hd & Hnf & _)].
  - apply Forall_cons in Hby as [_ ?]. constructor; [done|]. by apply Forall_app.
  - simpl. rewrite length_app. lia.
  - change (drop 1 (c :: cs ++ rest)) with (cs ++ rest).
    rewrite take_app_length' by lia. rewrite Hj, decide_False, Hb by lia. simpl.
    rewrite bool_decide_eq_false_2 by lia. do 2 f_equal. lia.
  - simpl in Hd. rewrite lookup_app_l in Hd by lia. destruct Hnf. eapply (Forall_lookup_1 follow); eauto.
Qed.

(** C26: on any bytes the decoder reads only the bytes it is given and takes at
    most six; it gives a rune that is never a surrogate, a non-character or out of range, and unless that
    rune is [Runeerror], the bytes it took are the encoding of the rune (so
    overlong forms are refused); it gives no rune only when the input is a
    proper prefix of a sequence; and it decodes every encoding at the front of
    the input. *)
Theorem charntorune_exact (s : list Z) (len : nat) :
  Forall is_byte s → (len ≤ length s)%nat → ∃ o n,
  charntorune s len tt = Ok (o, n) tt ∧ (n ≤ len `min` UTFmax)%nat ∧
  match o with
  | None => n = 0%nat ∧ (len = 0%nat ∨ ∃ c, s !! 0%nat = Some c ∧ (len < UTFSEQ c)%nat ∧
      Forall follow (take (len - 1) (drop 1 s)))
  | Some r => (0 < n)%nat ∧ BADRUNE r = false ∧ (r = Runeerror ∨ runetochar r = take n s)
  end ∧
  ∀ r, BADRUNE r = false → runetochar r `prefix_of` take len s → o = Some r ∧ n = runelen r.
Proof.
  intros Hs Hlen. destruct (charntorune_run s len tt Hs Hlen) as (o & n & Hrun & Hn & Ho).
  exists o, n. split_and!; auto. intros r Hb [tl Htl].
  assert (Hsplit : s = runetochar r ++ (tl ++ drop len s))
    by (rewrite app_assoc, <- Htl; symmetry; apply take_drop).
  assert (Hl : length (take len s) = (runelen r + length tl)%nat)
    by (rewrite Htl, length_app, length_runetochar; done).
  rewrite length_take, Nat.min_l in Hl by lia.
  rewrite Hsplit, charntorune_encoded in Hrun; [by simplify_eq|done| |lia].
  rewrite Hsplit in Hs. by apply Forall_app in Hs as [_ ?].
Qed.

Lemma charntorune_exact_witness : ∃ o n,
  charntorune [0xE2; 0x82; 0xAC; 0x41] 4 tt = Ok (o, n) tt ∧ (n ≤ 4 `min` UTFmax)%nat ∧
  match o with
  | None => n = 0%nat ∧ (4%nat = 0%nat ∨ ∃ c, [0xE2; 0x82; 0xAC; 0x41] !! 0%nat = Some c ∧
      (4 < UTFSEQ c)%nat ∧ Forall follow (take (4 - 1) (drop 1 [0xE2; 0x82; 0xAC; 0x41])))
  | Some r => (0 < n)%nat ∧ BADRUNE r = false ∧
      (r = Runeerror ∨ runetochar r = take n [0xE2; 0x82; 0xAC; 0x41])
  end ∧
  ∀ r, BADRUNE r = false → runetochar r `prefix_of` take 4 [0xE2; 0x82; 0xAC; 0x41] →
    o = Some r ∧ n = runelen r.
Proof.
  apply (charntorune_exact [0xE2; 0x82; 0xAC; 0x41] 4).
  - unfold is_byte. by_decide.
  - simpl. lia.
Defined.

(** ** Strings of runes *)

Definition encode (rs : list Z) : list Z := flat_map runetochar rs.

Lemma encode_bytes rs : Forall is_byte (encode rs).
Proof. induction rs; simpl; [constructor|]. apply Forall_app. auto using runetochar_bytes. Qed.

Lemma length_encode rs : length (encode rs) = runenlen rs.
Proof.
  unfold runenlen. induction rs; [done|]. simpl. rewrite length_app, length_runetochar. lia.
Qed.

Lemma runelen_pos r : BADRUNE r = false → (0 < runelen r)%nat.
Proof. intros Hb. destruct (runelen_cases r Hb) as [[-> _]|[[-> _]|[[-> _]|[-> _]]]]; lia. Qed.

Lemma encode_longer rs : Forall (λ r, BADRUNE r = false) rs → (length rs ≤ length (encode rs))%nat.
Proof.
  induction 1 as [|r rs Hr H IH]; [done|]. cbn [encode flat_map length]. rewrite length_app, length_runetochar.
  fold (encode rs). pose proof (runelen_pos r Hr). lia.
Qed.

(** One turn of a loop that decodes an encoded string. *)
Lemma decode_step {S} r rs (st : S) : BADRUNE r = false →
  charntorune (encode (r :: rs)) (length (encode (r :: rs))) st = Ok (Some r, runelen r) st ∧
  drop (runelen r) (encode (r :: rs)) = encode rs ∧
  (length (encode (r :: rs)) - runelen r = length (encode rs))%nat ∧
  (length (encode rs) < length (encode (r :: rs)))%nat.
Proof.
  intros Hb. pose proof (runelen_pos r Hb). simpl.
  rewrite length_app, length_runetochar. split_and!; [| |lia|lia].
  - apply charntorune_encoded; [done|apply encode_bytes|lia].
  - rewrite <- (length_runetochar r). apply drop_app_length.
Qed.

Lemma utfntorunestr_loop_encode {S} rs acc fuel (st : S) :
  Forall (λ r, BADRUNE r = false) rs → (length (encode rs) < fuel)%nat →
  utfntorunestr_loop fuel (encode rs) (length (encode rs)) acc st = Ok (acc ++ rs) st.
Proof.
  revert acc fuel. induction rs as [|r rs IH]; intros acc [|fuel] Hv Hf; try lia.
  { simpl. by rewrite app_nil_r. }
  apply Forall_cons in Hv as [Hr Hv]. destruct (decode_step r rs st Hr) as (Hrun & Hd & Hl & Hlt).
  pose proof (runelen_pos r Hr). cbn [utfntorunestr_loop]. unfold mbind. rewrite Hrun. cbn [fst snd].
  rewrite decide_False by lia. simpl deref. unfold mret at 1. rewrite Hd, Hl, IH by (done || lia).
  by rewrite <- app_assoc.
Qed.

Lemma utfn_loop_encode {S} rs i fuel (st : S) :
  Forall (λ r, BADRUNE r = false) rs → (length (encode rs) < fuel)%nat →
  utfn_loop false fuel (encode rs) (length (encode rs)) i st = Ok (i + length rs)%nat st.
Proof.
  revert i fuel. induction rs as [|r rs IH]; intros i [|fuel] Hv Hf; try lia.
  { simpl. by rewrite Nat.add_0_r. }
  apply Forall_cons in Hv as [Hr Hv]. destruct (decode_step r rs st Hr) as (Hrun & Hd & Hl & Hlt).
  pose proof (runelen_pos r Hr). cbn [utfn_loop]. unfold mbind. rewrite Hrun. cbn [fst snd].
  rewrite decide_False by lia. cbn [andb]. rewrite Hd, Hl, IH by (done || lia).
  f_equal. simpl. lia.
Qed.

(** C27: the runes of a string are read back from its encoding, [utfmemlen]
    counts them and [runenlen] gives the size of the encoding. *)
Theorem utf_roundtrip (rs : list Z) :
  Forall (λ r, BADRUNE r = false) rs →
  utfntorunestr (encode rs) (runenlen rs) tt = Ok rs tt ∧
  utfmemlen (encode rs) (runenlen rs) tt = Ok (length rs) tt ∧
  length (encode rs) = runenlen rs.
Proof.
  intros Hv. rewrite <- length_encode. unfold utfntorunestr, utfmemlen. split_and!; [..|done].
  - apply (utfntorunestr_loop_encode rs []); auto. lia.
  - apply (utfn_loop_encode rs 0); auto. lia.
Qed.

Lemma utf_roundtrip_witness :
  utfntorunestr (encode [0x41; 0x20AC; 0x1F600]) (runenlen [0x41; 0x20AC; 0x1F600]) tt =
    Ok [0x41; 0x20AC; 0x1F600] tt ∧
  utfmemlen (encode [0x41; 0x20AC; 0x1F600]) (runenlen [0x41; 0x20AC; 0x1F600]) tt = Ok 3%nat tt ∧
  length (encode [0x41; 0x20AC; 0x1F600]) = runenlen [0x41; 0x20AC; 0x1F600].
Proof. apply (utf_roundtrip [0x41; 0x20AC; 0x1F600]). repeat constructor. Defined.

(** ** Terminated strings and streams *)

Lemma runelen_max r : (runelen r ≤ 4)%nat.
Proof. unfold runelen. repeat case_match; lia. Qed.

Lemma chartorune_next {S} r rest (st : S) : BADRUNE r = false → Forall is_byte rest →
  chartorune (runetochar r ++ rest) st = Ok (Some r, runelen r) st.
Proof.
  intros Hb Hr. apply charntorune_encoded; [done..|]. pose proof (runelen_max r). unfold UTFmax. lia.
Qed.

Lemma first_byte r : BADRUNE r = false → r ≠ 0 → ∃ c cs, runetochar r = c :: cs ∧ c ≠ 0.
Proof.
  intros Hb H0. destruct (encode_fields r Hb) as (c & cs & Hr & Hc & Hn & Hcs & Hj). exists c, cs. split; [done|].
  intros ->. assert (seq_range 0 = 1%nat) as E by done. rewrite E in *. destruct cs; [|done]. by unfold joined, lead in Hj; simpl in Hj.
Qed.

Definition is_char (r : Z) : Prop := BADRUNE r = false ∧ r ≠ 0.

Lemma utflen_encode {S} rs (st : S) : Forall is_char rs → utflen (encode rs ++ [0]) st = Ok (length rs) st.
Proof.
  intros Hv. unfold utflen. assert (∀ fuel i, (length rs < fuel)%nat → utflen_loop fuel (encode rs ++ [0]) i st = Ok (i + length rs)%nat st) as H.
  { induction Hv as [|r rs [Hr H0] Hv IH]; intros [|fuel] i Hf; cbn [length] in Hf; try lia; cbn [utflen_loop].
    - simpl. by rewrite Nat.add_0_r.
    - destruct (first_byte r Hr H0) as (c & cs & E & Hc). unfold mbind.
      assert ((encode (r :: rs) ++ [0]) !! 0%nat = Some c) as -> by (simpl; by rewrite E).
      cbn [deref]. unfold mret. rewrite (proj2 (Z.eqb_neq _ _)) by done. cbn [encode flat_map]. rewrite <- app_assoc.
      rewrite chartorune_next by (done || (apply Forall_app; split; [apply encode_bytes|by repeat constructor])).
      cbn [snd]. rewrite <- (length_runetochar r), drop_app_length. fold (encode rs). rewrite IH by lia. f_equal. simpl. lia. }
  apply H. rewrite length_app. pose proof (encode_longer rs ltac:(eapply Forall_impl; [exact Hv|]; by intros ? [])). simpl. lia.
Qed.

Lemma utftorunestr_encode {S} rs (st : S) : Forall is_char rs → utftorunestr (encode rs ++ [0]) st = Ok rs st.
Proof.
  intros Hv. unfold utftorunestr. assert (∀ fuel acc, (length rs < fuel)%nat → utftorunestr_loop fuel (encode rs ++ [0]) acc st = Ok (acc ++ rs) st) as H.
  { induction Hv as [|r rs [Hr H0] Hv IH]; intros [|fuel] acc Hf; cbn [length] in Hf; try lia; cbn [utftorunestr_loop].
    - vm_compute (encode [] ++ [0]). unfold mbind. change (chartorune [0] st) with (Ok (Some 0, 1%nat) st : out S (option Z * nat)). simpl. by rewrite app_nil_r.
    - unfold mbind. cbn [encode flat_map]. rewrite <- app_assoc.
      rewrite chartorune_next by (done || (apply Forall_app; split; [apply encode_bytes|by repeat constructor])).
      pose proof (runelen_pos r Hr). cbn [fst snd deref]. rewrite decide_False by lia. unfold mret. rewrite (proj2 (Z.eqb_neq _ _)) by done.
      rewrite <- (length_runetochar r), drop_app_length. fold (encode rs). rewrite IH by lia. by rewrite <- app_assoc. }
  apply (H _ []). rewrite length_app. pose proof (encode_longer rs ltac:(eapply Forall_impl; [exact Hv|]; by intros ? [])). simpl. lia.
Qed.

(** A terminated string of any bytes is read within its bounds. *)
Lemma continuation_terminated s k i r : Forall is_byte s → (i ≤ length s)%nat → ∃ x,
  (∀ (S : Type) (st : S), continuation (s ++ [0]) k i r st = Ok x st) ∧
  match x with inl _ => (i + k ≤ length s)%nat | inr j => (i ≤ j ≤ length s)%nat end.
Proof.
  intros Hs. revert i r. induction k as [|k IH]; intros i r Hi; [exists (inl r); split; [done|lia]|].
  destruct (decide (i = length s)) as [->|Hne].
  { exists (inr (length s)). split; [|lia]. intros S st. cbn [continuation]. unfold mbind. by rewrite list_lookup_middle by done. }
  destruct (lookup_lt_is_Some_2 s i) as (c & Hc); [lia|]. destruct (Z.land c 0xC0 =? 0x80) eqn:E.
  - destruct (IH (i + 1)%nat (Z.lor (Z.shiftl r 6) (Z.land c 0x3F)) ltac:(lia)) as (x & Hx & Hb). exists x. split; [|destruct x; lia].
    intros S st. cbn [continuation]. unfold mbind. rewrite lookup_app_l, Hc by lia. cbn [deref]. unfold mret. by rewrite E.
  - exists (inr i). split; [|lia]. intros S st. cbn [continuation]. unfold mbind. rewrite lookup_app_l, Hc by lia. cbn [deref]. unfold mret. by rewrite E.
Qed.
Lemma chartorune_terminated l : Forall is_byte l → ∃ r n, (∀ (S : Type) (st : S), chartorune (l ++ [0]) st = Ok (Some r, n) st) ∧
  0 ≤ r ∧ (0 < n ≤ 1 `max` length l)%nat ∧ (l = [] → r = 0).
Proof.
  intros Hl. destruct l as [|c l]; [exists 0, 1%nat; simpl; split_and!; try done; lia|].
  apply Forall_cons in Hl as Hcl. destruct Hcl as [Hc _]. unfold chartorune. unfold UTFmax.
  assert (seq_range c ≤ 6)%nat as H6 by (unfold seq_range; repeat case_match; lia).
  destruct (decide (seq_range c = 0%nat)) as [E0|E0].
  { exists Runeerror, 1%nat. split_and!; [|done|lia|simpl; lia|done]. intros S st. simpl app. rewrite charntorune_unfold by done. by rewrite decide_True. }
  destruct (continuation_terminated (c :: l) (seq_range c `min` 6 - 1) 1 (lead (seq_range c) c) Hl ltac:(simpl; lia)) as (x & Hx & Hb).
  destruct x as [r|j]; cbn [length] in Hb.
  - exists (if BADRUNE r || bool_decide (runelen r < seq_range c)%nat then Runeerror else r), (seq_range c). split_and!; [|..|done].
    + intros S st. simpl app. rewrite charntorune_unfold by done. rewrite decide_False by done. unfold mbind. change (c :: l ++ [0]) with ((c :: l) ++ [0]). rewrite Hx.
      rewrite decide_False by lia. by destruct (BADRUNE r || bool_decide (runelen r < seq_range c)%nat).
    + destruct (BADRUNE r) eqn:Eb; cbn [orb]; [done|]. case_bool_decide; [done|]. unfold BADRUNE in Eb. rewrite !orb_false_iff in Eb. lia.
    + lia.
    + simpl. lia.
  - exists Runeerror, j. split_and!; [|done|lia|simpl; lia|done]. intros S st. simpl app. rewrite charntorune_unfold by done. rewrite decide_False by done.
    unfold mbind. change (c :: l ++ [0]) with ((c :: l) ++ [0]). by rewrite Hx.
Qed.

(** A proper prefix of an encoding is not decoded yet. *)
Lemma charntorune_prefix {S} r k (st : S) : BADRUNE r = false → (0 < k < runelen r)%nat →
  charntorune (take k (runetochar r)) k st = Ok (None, 0%nat) st.
Proof.
  intros Hb Hk. pose proof (length_runetochar r) as Hl. pose proof (runetochar_bytes r) as Hby.
  destruct (encode_fields r Hb) as (c & cs & Hr & Hc & Hn & Hcs & Hj). rewrite Hr in *. simpl in Hl.
  destruct k as [|k]; [lia|]. simpl take. rewrite charntorune_unfold by (done || lia). rewrite decide_False by lia.
  unfold mbind. destruct (continuation_run (S:=S) (c :: take k cs) (seq_range c `min` Datatypes.S k - 1) 1
    (lead (seq_range c) c) st) as [[Hall ->]|(j & d & Hlt & Hd & Hnf & _)].
  - apply Forall_cons in Hby as [_ ?]. constructor; [done|]. by apply Forall_take.
  - simpl. rewrite length_take. lia.
  - by rewrite decide_True by lia.
  - simpl in Hd. apply lookup_take_Some in Hd as [Hd _]. destruct Hnf. eapply (Forall_lookup_1 follow); eauto.
Qed.

Lemma fgetc_next c rest e x o full : fgetc (mkFILE (c :: rest) e x o full) = Ok (Some c) (mkFILE rest e x o full).
Proof. reflexivity. Qed.
Lemma fgetrune_loop_next r rest e o full i : BADRUNE r = false → (i < runelen r)%nat →
  fgetrune_loop (UTFmax - i) (take i (runetochar r)) None (mkFILE (drop i (runetochar r) ++ rest) e false o full) =
  Ok (Some r, Z.of_nat (runelen r)) (mkFILE rest e false o full).
Proof.
  intros Hb Hi. remember (runelen r - i)%nat as k eqn:Ek. revert i Hi Ek.
  pose proof (length_runetochar r) as Hl. pose proof (runelen_max r).
  induction k as [|k IH]; intros i Hi Ek; [lia|]. unfold UTFmax in *.
  destruct (lookup_lt_is_Some_2 (runetochar r) i) as (c & Hc); [lia|].
  replace (6 - i)%nat with (S (6 - S i)) by lia. cbn [fgetrune_loop]. rewrite (drop_S _ c i Hc). unfold mbind.
  cbn [app]. rewrite fgetc_next. cbv zeta. rewrite <- (take_S_r _ i c Hc).
  assert (length (take (S i) (runetochar r)) = S i) as -> by (rewrite length_take; lia).
  destruct (decide (S i = runelen r)) as [E|E].
  - rewrite E, <- Hl, firstn_all, <- (app_nil_r (runetochar r)), charntorune_encoded by (done || rewrite app_nil_r; lia).
    cbn [fst snd]. rewrite decide_True by lia. rewrite app_nil_r, Hl. rewrite skipn_all2 by lia. done.
  - rewrite charntorune_prefix by (done || lia). cbn [fst snd]. rewrite decide_False by lia. apply IH; lia.
Qed.

(** The stream of an encoded text gives its runes, and then its end. *)
Lemma efgetrune_next r rest e o full : BADRUNE r = false →
  efgetrune (mkFILE (runetochar r ++ rest) e false o full) = Ok (Some r, Z.of_nat (runelen r)) (mkFILE rest e false o full).
Proof.
  intros Hb. pose proof (runelen_pos r Hb). unfold efgetrune, fgetrune, mbind.
  pose proof (fgetrune_loop_next r rest e o full 0 Hb ltac:(lia)) as Hn. rewrite drop_0 in Hn. change (take 0 (runetochar r)) with (@nil Z) in Hn.
  change (UTFmax - 0)%nat with UTFmax in Hn. rewrite Hn. unfold gets, mret. cbn [f_error snd]. rewrite (proj2 (Z.ltb_ge _ _)) by lia. done.
Qed.
Lemma efgetrune_end o full : efgetrune (mkFILE [] false false o full) = Ok (None, 0) (mkFILE [] false false o full).
Proof. reflexivity. Qed.
Lemma efputrune_next r i e o : BADRUNE r = false →
  efputrune r (mkFILE i e false o false) = Ok 1 (mkFILE i e false (o ++ runetochar r) false).
Proof.
  intros Hb. pose proof (runelen_pos r Hb). unfold efputrune, fputrune, fwrite, mbind, gets.
  rewrite decide_False; [done|]. intros E. pose proof (length_runetochar r) as Hl. rewrite E in Hl. simpl in Hl. lia.
Qed.

(** A rune that cannot be encoded writes nothing. *)
Lemma efputrune_any r i e o : ∃ n, efputrune r (mkFILE i e false o false) = Ok n (mkFILE i e false (o ++ runetochar r) false).
Proof.
  destruct (BADRUNE r) eqn:Hb; [|exists 1; by apply efputrune_next]. exists 0.
  unfold efputrune, fputrune, fwrite, mbind, gets.
  assert (runetochar r = []) as -> by (pose proof (length_runetochar r) as Hl; rewrite runelen_bad in Hl by done; by destruct (runetochar r)).
  rewrite decide_True by done. by rewrite app_nil_r.
Qed.
Lemma encode_ascii rs : Forall (λ r, 0 ≤ r < 128) rs → encode rs = rs.
Proof.
  assert (∀ b, 0 ≤ b < 128 → runetochar b = [b]) as H.
  { intros b Hb. pose proof (all_bytes (λ b, (128 <=? b) || match runetochar b with [x] => x =? b | _ => false end) ltac:(vm_compute; reflexivity) b ltac:(unfold is_byte; lia)) as Hx.
    cbv beta in Hx. apply orb_true_iff in Hx as [Hx%Z.leb_le|Hx]; [lia|].
    destruct (runetochar b) as [|x [|y l]]; try done. apply Z.eqb_eq in Hx. by subst. }
  induction 1 as [|r rs Hr Hrs IH]; [done|]. cbn [encode flat_map]. rewrite H by lia. by rewrite <- IH at 2.
Qed.

(** ** Searches *)

(** Where a rune is first and last in a text, as a number of bytes. *)
Fixpoint first_at (r : Z) (rs : list Z) : option nat :=
  match rs with
  | [] => None
  | x :: rs => if decide (x = r) then Some 0%nat else Nat.add (runelen x) <$> first_at r rs
  end.
Fixpoint last_at (r : Z) (rs : list Z) : option nat :=
  match rs with
  | [] => None
  | x :: rs => match last_at r rs with Some k => Some (runelen x + k)%nat | None => if decide (x = r) then Some 0%nat else None end
  end.

Lemma starts_with_app s buf : starts_with s buf = true → ∃ t, s = buf ++ t.
Proof.
  revert s. induction buf as [|y buf IH]; intros s; [eauto|]. destruct s as [|x s]; [done|]. cbn [starts_with].
  intros [->%bool_decide_eq_true Ht]%andb_prop. destruct (IH s Ht) as [t ->]. by exists t.
Qed.
Lemma starts_with_self buf t : starts_with (buf ++ t) buf = true.
Proof. induction buf as [|y buf IH]; [by destruct t|]. cbn [app starts_with]. by rewrite bool_decide_true. Qed.

(** The text starts with the bytes of no rune but its first, and these are not
    the bytes of a rune from their second on: encoded runes are found only
    where they start. *)
Lemma encoded_start r x t : BADRUNE r = false → BADRUNE x = false → Forall is_byte t → starts_with (runetochar x ++ t) (runetochar r) = true → x = r.
Proof.
  intros Hr Hx Ht (t' & E)%starts_with_app. pose proof (chartorune_next x t tt Hx Ht) as H1. rewrite E in H1.
  assert (Forall is_byte t') as Ht'.
  { assert (Forall is_byte (runetochar r ++ t')) as [_ ?]%Forall_app; [|done]. rewrite <- E. apply Forall_app. split; [apply runetochar_bytes|done]. }
  rewrite (chartorune_next r t' tt Hr Ht') in H1. by injection H1.
Qed.
Lemma strstr_follow {S} cs s buf c b (st : S) : Forall follow cs → buf = c :: b → ¬ follow c →
  strstr (cs ++ s) buf st = match strstr s buf st with Ok k st => Ok (Nat.add (length cs) <$> k) st | o => o end.
Proof.
  intros Hcs -> Hc. induction Hcs as [|x cs Hx Hcs IH]; [simpl; destruct (strstr s (c :: b) st) as [[k|]| | |]; done|].
  cbn [app strstr starts_with]. rewrite bool_decide_false by (by intros ->). cbn [andb]. unfold follow in Hx. rewrite decide_False by lia. unfold mbind. rewrite IH.
  destruct (strstr s (c :: b) st) as [[k|]| | |]; done.
Qed.
(** The bytes of a rune: the first is none that follows, and not NUL. *)
Lemma char_bytes r : is_char r → ∃ c cs, runetochar r = c :: cs ∧ ¬ follow c ∧ c ≠ 0 ∧ Forall follow cs ∧ runelen r = Datatypes.S (length cs) ∧ (c < 128 → cs = []).
Proof.
  intros [Hr Hr0]. destruct (encode_fields r Hr) as (c & cs & E & Hc & Hn & Hcs & _). destruct (first_byte r Hr Hr0) as (c' & cs' & E' & H0).
  rewrite E in E'. injection E' as <- <-. exists c, cs. split_and!; try done.
  - intros Hf. unfold follow in Hf. unfold seq_range in Hn. repeat case_match; lia.
  - rewrite <- length_runetochar. by rewrite E.
  - intros Hlt. unfold is_byte in Hc. unfold seq_range in Hn. repeat case_match; try lia. by destruct cs.
Qed.
Lemma text_bytes rs : Forall is_byte (encode rs ++ [0]).
Proof. apply Forall_app. split; [apply encode_bytes|]. constructor; [unfold is_byte; lia|constructor]. Qed.
Lemma encode_next x rs : encode (x :: rs) ++ [0] = runetochar x ++ (encode rs ++ [0]).
Proof. cbn [encode flat_map]. by rewrite <- app_assoc. Qed.

Lemma strstr_encode {S} r rs (st : S) : is_char r → Forall is_char rs → strstr (encode rs ++ [0]) (runetochar r) st = Ok (first_at r rs) st.
Proof.
  intros Hr. pose proof (char_bytes r Hr) as (c & cs & Er & Hc & Hc0 & _). induction 1 as [|x rs Hx Hrs IH].
  - rewrite Er. cbn [encode flat_map app strstr starts_with]. by rewrite bool_decide_false by congruence.
  - rewrite encode_next. pose proof (text_bytes rs) as Hb. cbn [first_at]. case_decide as Hxr.
    + subst x. pose proof (starts_with_self (runetochar r) (encode rs ++ [0])) as Hs. destruct (runetochar r ++ encode rs ++ [0]); cbn [strstr]; by rewrite Hs.
    + assert (starts_with (runetochar x ++ encode rs ++ [0]) (runetochar r) = false) as Hs.
      { apply not_true_is_false. intros Hs. apply Hxr. destruct Hr, Hx. by eapply encoded_start. }
      destruct (char_bytes x Hx) as (d & ds & Ex & _ & Hd0 & Hds & Hl & _). rewrite Ex in Hs |- *. cbn [app strstr] in *. rewrite Hs. rewrite decide_False by done.
      unfold mbind. rewrite (strstr_follow ds _ _ c cs) by done. rewrite IH, Hl. by destruct (first_at r rs).
Qed.
Lemma strchr_strstr {S} s c (st : S) : c ≠ 0 → strchr s c st = strstr s [c] st.
Proof.
  intros Hc. induction s as [|x s IH]; [done|]. cbn [strchr strstr starts_with]. case_decide as Hx.
  - rewrite bool_decide_true by done. by destruct s.
  - rewrite bool_decide_false by done. cbn [andb]. case_decide; [done|]. unfold mbind. by rewrite IH.
Qed.
Lemma ascii_bytes r : is_char r → r < 128 → runetochar r = [r].
Proof. intros [Hr _] Hlt. rewrite runetochar_arith. destruct (runelen_cases r Hr) as [[-> ?]|[[? ?]|[[? ?]|[? ?]]]]; [done|lia..]. Qed.

Lemma utfrune_loop_encode {S} r rs (st : S) : Forall is_char rs → ∀ fuel, (length rs < fuel)%nat → utfrune_loop fuel (encode rs ++ [0]) r st = Ok (first_at r rs) st.
Proof.
  induction 1 as [|x rs Hx Hrs IH]; intros [|fuel] Hf; cbn [length] in *; try lia; [done|]. rewrite encode_next. cbn [utfrune_loop]. unfold mbind.
  destruct (char_bytes x Hx) as (d & ds & Ex & _ & Hd0 & _). rewrite Ex at 1. cbn [app lookup list_lookup deref]. unfold mret at 1. rewrite (proj2 (Z.eqb_neq d 0)) by done.
  rewrite chartorune_next by (by apply Hx || apply text_bytes). cbn [fst snd deref]. unfold mret at 1. cbn [first_at].
  destruct (decide (r = x)) as [->|Hne]; [by rewrite decide_True|]. rewrite decide_False by congruence.
  rewrite <- length_runetochar, drop_app_length, IH by lia. done.
Qed.
Lemma utfrrune_loop_encode {S} r rs (st : S) : Forall is_char rs → ∀ fuel i p, (length rs < fuel)%nat →
  utfrrune_loop fuel (encode rs ++ [0]) r i p st = Ok (match last_at r rs with Some k => Some (i + k)%nat | None => p end) st.
Proof.
  induction 1 as [|x rs Hx Hrs IH]; intros [|fuel] i p Hf; cbn [length] in *; try lia; [done|]. rewrite encode_next. cbn [utfrrune_loop]. unfold mbind.
  destruct (char_bytes x Hx) as (d & ds & Ex & _ & Hd0 & _). rewrite Ex at 1. cbn [app lookup list_lookup deref]. unfold mret at 1. rewrite (proj2 (Z.eqb_neq d 0)) by done.
  rewrite chartorune_next by (by apply Hx || apply text_bytes). cbn [fst snd deref]. unfold mret at 1. cbn [last_at].
  rewrite <- length_runetochar, drop_app_length, IH by lia. destruct (last_at r rs); [by rewrite Nat.add_assoc|].
  destruct (decide (r = x)) as [->|Hne]; [by rewrite decide_True, Nat.add_0_r|]. by rewrite decide_False by congruence.
Qed.
Lemma strrchr_skip {S} cs s c (st : S) : Forall (λ x, x ≠ c ∧ x ≠ 0) cs →
  strrchr (cs ++ s) c st = match strrchr s c st with Ok k st => Ok (Nat.add (length cs) <$> k) st | o => o end.
Proof.
  induction 1 as [|x cs [Hx H0] Hcs IH]; [simpl; destruct (strrchr s c st) as [[k|]| | |]; done|]. cbn [app strrchr]. cbv zeta. rewrite !decide_False by done.
  unfold mbind. rewrite IH. by destruct (strrchr s c st) as [[k|]| | |].
Qed.
Lemma strrchr_encode {S} r rs (st : S) : is_char r → r < 128 → Forall is_char rs → strrchr (encode rs ++ [0]) r st = Ok (last_at r rs) st.
Proof.
  intros Hr Hlt. induction 1 as [|x rs Hx Hrs IH].
  - cbn [encode flat_map app strrchr]. cbv zeta. destruct Hr. rewrite decide_True by done. by rewrite decide_False by congruence.
  - rewrite encode_next. cbn [last_at]. destruct (decide (x = r)) as [->|Hne].
    + rewrite (ascii_bytes r Hr Hlt). cbn [app strrchr]. cbv zeta. rewrite (decide_True (P := r = r)) by done. rewrite decide_False by apply Hr. unfold mbind. rewrite IH.
      assert (runelen r = 1%nat) as -> by (by rewrite <- length_runetochar, ascii_bytes). by destruct (last_at r rs).
    + rewrite strrchr_skip, IH, length_runetochar; [by destruct (last_at r rs)|].
      destruct (char_bytes x Hx) as (d & ds & Ex & Hf & Hd0 & Hds & _ & Hsm). rewrite Ex. constructor.
      * split; [|done]. intros ->. specialize (Hsm Hlt). subst ds. apply Hne. destruct Hx as [Hx ?], Hr as [Hr ?].
        apply (encoded_start r x []); [done..|constructor|]. rewrite Ex, (ascii_bytes r) by (done || by split). cbn. by rewrite bool_decide_true.
      * eapply Forall_impl; [exact Hds|]. unfold follow. destruct Hr. intros z Hz. lia.
Qed.

(** A rune is found where it starts, and nowhere else: [utfrune] gives its first
    place in a text and [utfrrune] its last. *)
Theorem utf_search {S} r rs (st : S) : is_char r → Forall is_char rs →
  utfrune (encode rs ++ [0]) r st = Ok (first_at r rs) st ∧ utfrrune (encode rs ++ [0]) r st = Ok (last_at r rs) st.
Proof.
  intros Hr Hrs. assert (length rs < length (encode rs ++ [0%Z]) + 1)%nat as Hf.
  { rewrite length_app. cbn [length]. assert (Forall (λ r, BADRUNE r = false) rs) as Hv by (eapply Forall_impl; [exact Hrs|]; by intros ? []). pose proof (encode_longer rs Hv). lia. }
  unfold utfrune, utfrrune, Runeself. destruct (Z.ltb_spec r 0x80) as [Hlt|Hge].
  - assert (0 ≤ r) by (destruct Hr as [Hr _]; unfold BADRUNE in Hr; apply not_true_iff_false in Hr; destruct (Z.ltb_spec r 0); [by exfalso; apply Hr|lia]).
    rewrite Z.mod_small by lia. split; [|by apply strrchr_encode]. rewrite strchr_strstr by apply Hr. rewrite <- (ascii_bytes r) by (done || lia). by apply strstr_encode.
  - split.
    + destruct (r =? Runeerror); [by apply utfrune_loop_encode|]. rewrite decide_False; [by apply strstr_encode|].
      destruct (char_bytes r Hr) as (c & cs & -> & _). done.
    + rewrite utfrrune_loop_encode by done. by destruct (last_at r rs).
Qed.
Example utfutf_found : utfutf [0x61; 0xC3; 0xA9; 0x62; 0xC3; 0xA9; 0x63; 0] [0xC3; 0xA9; 0x63; 0] tt = Ok (Some 4%nat) tt.
Proof. vm_compute. reflexivity. Qed.
(** Two replacement characters and a letter are found inside the bytes of one. *)
Example utfutf_inside : utfutf (encode [Runeerror; 0x61] ++ [0]) (encode [Runeerror; Runeerror; 0x61] ++ [0]) tt = Ok (Some 1%nat) tt.
Proof. vm_compute. reflexivity. Qed.

(** ** Behaviours on concrete input *)

(** A string that fills the buffer is terminated one byte after it. *)
Example utfecpy_overflow : utfecpy 3 [0x61; 0x62; 0x63; 0x64; 0] tt = Ub.
Proof. vm_compute. reflexivity. Qed.
Example utfecpy_fits : utfecpy 5 [0x61; 0x62; 0x63; 0x64; 0] tt = Ok [0x61; 0x62; 0x63; 0x64; 0] tt.
Proof. vm_compute. reflexivity. Qed.

(** A byte that does not continue a sequence is taken from the stream with it:
    the letter A after a truncated sequence is lost. *)
Example fgetrune_swallows :
  fgetrune (mkFILE [0xC3; 0x41; 0x42] false false [] false) =
    Ok (Some Runeerror, 2) (mkFILE [0x42] false false [] false) ∧
  utfntorunestr [0xC3; 0x41; 0x42] 3 tt = Ok [Runeerror; 0x41; 0x42] tt.
Proof. vm_compute. done. Qed.

(** At the end of the stream a truncated sequence is reported as read, and no
    rune is stored. *)
Example fgetrune_unset :
  fgetrune (mkFILE [0xC3] false false [] false) = Ok (None, 1) (mkFILE [] false false [] false).
Proof. vm_compute. done. Qed.

(** [efputrune] does not notice that the write failed. *)
Example efputrune_unnoticed :
  efputrune 0x41 (mkFILE [] false false [] true) = Ok 0 (mkFILE [] false true [] true).
Proof. vm_compute. done. Qed.
