(* ===== verification/Tcutil.v ===== *)
(** * The containers of the toolchain library (src/shared/libtcutil/tcutil.c)

    The growable vector, the growable byte buffer with its LEB128 numbers,
    alignment and length-prefixed chunks, and the range checks on immediates.
    Arrays are modelled as allocated: the list is the whole allocation, [len] of
    whose cells are in use, and every access is checked against it.  The
    contents of fresh memory are unspecified ([junk]); [heap_max] is the
    largest allocation that succeeds, [realloc_or_die] exits beyond it.  Sizes
    do not wrap because no object is larger than [heap_max]; the [int]
    capacity of a vector is checked where it is doubled. *)

From S2P Require Import Prelude.

(** ** Memory *)

Section memory.
Context {A : Type} (junk : nat → A) (heap_max : nat).

(** [realloc_or_die(p, n)] on an array of [n] cells *)
Definition realloc_or_die {S} (p : list A) (n : nat) : M S (list A) :=
  if decide (n ≤ heap_max) then mret (take n p ++ map junk (seq (length p) (n - length p)))
  else eprintf "memory overflow".

(** [memmove] of [n] cells inside an allocation *)
Definition memmove {S} (buf : list A) (dst src n : nat) : M S (list A) :=
  if decide (dst + n ≤ length buf ∧ src + n ≤ length buf)
  then mret (take dst buf ++ take n (drop src buf) ++ drop (dst + n) buf)
  else mub.

(** [memcpy] of the cells [src] to [buf + dst] *)
Definition memcpy {S} (buf : list A) (dst : nat) (src : list A) : M S (list A) :=
  if decide (dst + length src ≤ length buf)
  then mret (take dst buf ++ src ++ drop (dst + length src) buf)
  else mub.

(** [buf[i] = x] *)
Definition store_cell {S} (buf : list A) (i : nat) (x : A) : M S (list A) :=
  if decide (i < length buf) then mret (<[i := x]> buf) else mub.
End memory.

(** ** struct Vector *)

Record Vector (A : Type) := mkVector { v_data : list A; v_capacity : nat; v_len : nat }.
Arguments mkVector {A}.
Arguments v_data {A}.
Arguments v_capacity {A}.
Arguments v_len {A}.

Section vector.
Context {A : Type} (junk : nat → A) (heap_max : nat).

(** [vec_init] and [new_vector] *)
Definition vec_init : Vector A := mkVector [] 0 0.

(** [vec_clear] *)
Definition vec_clear : M (Vector A) unit :=
  modify (λ v, mkVector (v_data v) (v_capacity v) 0).

(** [vec_push] *)
Definition vec_push (elem : A) : M (Vector A) unit :=
  vec <- gets id ;;
  (if decide (v_capacity vec ≤ v_len vec) then
     if decide (0 < v_capacity vec ∧ (INT_MAX < 2 * Z.of_nat (v_capacity vec))%Z) then mub
     else
       let cap := if decide (v_capacity vec = 0) then 16 else 2 * v_capacity vec in
       data <- realloc_or_die junk heap_max (v_data vec) cap ;;
       modify (λ v, mkVector data cap (v_len v))
   else mret tt) ;;
  vec <- gets id ;;
  data <- store_cell (v_data vec) (v_len vec) elem ;;
  modify (λ v, mkVector data (v_capacity v) (v_len v + 1)).

(** [vec_pop], [None] for NULL *)
Definition vec_pop : M (Vector A) (option A) :=
  vec <- gets id ;;
  if decide (0 < v_len vec) then
    x <- deref (v_data vec !! (v_len vec - 1)) ;;
    modify (λ v, mkVector (v_data v) (v_capacity v) (v_len v - 1)) ;;
    mret (Some x)
  else mret None.

(** [vec_insert]; [null] is the NULL it pushes first *)
Definition vec_insert (null : A) (pos : Z) (elem : A) : M (Vector A) unit :=
  vec <- gets id ;;
  let len := v_len vec in
  if decide (pos < 0 ∨ Z.of_nat len < pos)%Z then mret tt
  else
    let pos := Z.to_nat pos in
    if decide (pos < len) then
      vec_push null ;;
      vec <- gets id ;;
      data <- memmove (v_data vec) (pos + 1) pos (len - pos) ;;
      data <- store_cell data pos elem ;;
      modify (λ v, mkVector data (v_capacity v) (v_len v))
    else vec_push elem.

(** [vec_remove_at] *)
Definition vec_remove_at (index : Z) : M (Vector A) unit :=
  vec <- gets id ;;
  if decide (index < 0 ∨ Z.of_nat (v_len vec) ≤ index)%Z then mret tt
  else
    let index := Z.to_nat index in
    let d := v_len vec - index - 1 in
    data <- (if decide (0 < d) then memmove (v_data vec) index (index + 1) d
             else mret (v_data vec)) ;;
    modify (λ v, mkVector data (v_capacity v) (v_len v - 1)).

(** [vec_concat] *)
Definition vec_concat (src : Vector A) : M (Vector A) unit :=
  mforeach (λ i, x <- deref (v_data src !! i) ;; vec_push x) (seq 0 (v_len src)).
End vector.

(** [vec_contains] *)
Definition vec_contains {A} `{EqDecision A} (vec : Vector A) (elem : A) : bool :=
  existsb (λ x, bool_decide (x = elem)) (take (v_len vec) (v_data vec)).

(** ** struct DataStorage *)

Record DataStorage := mkData {
  d_stack : option (Vector nat);
  d_buf : list Z;
  d_capacity : nat;
  d_len : nat
}.
#[export] Instance eta_DataStorage : Eta DataStorage := λ d,
  mkData (d_stack d) (d_buf d) (d_capacity d) (d_len d).

(** [data_init] *)
Definition data_init : DataStorage := mkData None [] 0 0.

Section data.
Context (junk : nat → Z) (heap_max : nat).

(** [data_reserve] *)
Definition data_reserve (capacity : nat) : M DataStorage unit :=
  data <- gets id ;;
  if decide (d_capacity data < capacity) then
    let c := 2 * d_capacity data in
    let capacity := if decide (capacity < c) then c else capacity in
    let capacity := if decide (capacity < 16) then 16 else capacity in
    buf <- realloc_or_die junk heap_max (d_buf data) capacity ;;
    modify (λ d, mkData (d_stack d) buf capacity (d_len d))
  else mret tt.

(** [data_insert]; [pos_] is [None] for -1 *)
Definition data_insert (pos_ : option nat) (bytes : list Z) : M DataStorage unit :=
  data <- gets id ;;
  let pos := default (d_len data) pos_ in
  if decide (d_len data < pos) then eprintf "assertion failed: pos <= data->len"
  else
    let newlen := d_len data + length bytes in
    data_reserve newlen ;;
    data <- gets id ;;
    buf <- (if decide (pos < d_len data)
            then memmove (d_buf data) (pos + length bytes) pos (d_len data - pos)
            else mret (d_buf data)) ;;
    buf <- memcpy buf pos bytes ;;
    modify (λ d, mkData (d_stack d) buf (d_capacity d) newlen).

(** [data_append], [data_push] and [data_concat] *)
Definition data_append (bytes : list Z) : M DataStorage unit := data_insert None bytes.
Definition data_push (c : Z) : M DataStorage unit := data_insert None [c].
Definition data_concat (src : DataStorage) : M DataStorage unit :=
  data_insert None (take (d_len src) (d_buf src)).

(** [ALIGN(x, align)] *)
Definition ALIGN (x align : Z) : Z := Z.land (x + align - 1) (- align).

(** [data_align] *)
Definition data_align (align : Z) : M DataStorage unit :=
  data <- gets id ;;
  let len := Z.of_nat (d_len data) in
  let add := ((ALIGN len align - len) mod 2 ^ 64)%Z in
  if decide (add <= 0)%Z then mret tt
  else if decide (Z.of_nat heap_max < add)%Z then eprintf "memory overflow"
  else data_append (replicate (Z.to_nat add) 0%Z).

(** The loops of [data_uleb128] and [data_leb128] with [k] bytes left in the
    local buffer; [None] when it is overrun. *)
Fixpoint uleb_bytes (k : nat) (val : Z) : option (list Z) :=
  match k with
  | O => None
  | S k' =>
      if decide (val < 128)%Z then Some [Z.land val 0x7f]
      else cons (Z.lor (Z.land val 0x7f) 0x80) <$> uleb_bytes k' (Z.shiftr val 7)
  end.
Fixpoint leb_bytes (k : nat) (val : Z) : option (list Z) :=
  match k with
  | O => None
  | S k' =>
      if decide (val < 64 ∧ -64 <= val)%Z then Some [Z.land val 0x7f]
      else cons (Z.lor (Z.land val 0x7f) 0x80) <$> leb_bytes k' (Z.shiftr val 7)
  end.

(** [data_uleb128] and [data_leb128] *)
Definition data_uleb128 (pos : option nat) (val : Z) : M DataStorage unit :=
  bytes <- deref (uleb_bytes 12 val) ;; data_insert pos bytes.
Definition data_leb128 (pos : option nat) (val : Z) : M DataStorage unit :=
  bytes <- deref (leb_bytes 12 val) ;; data_insert pos bytes.

(** [data_string] *)
Definition data_string (str : list Z) : M DataStorage unit :=
  data_uleb128 None (Z.of_nat (length str)) ;; data_append str.

(** [data_varint32] and [data_varuint32]: four continued bytes and one more *)
Fixpoint varint_bytes (k : nat) (val : Z) : list Z :=
  match k with
  | O => [Z.land val 0x7f]
  | S k' => Z.lor (Z.land val 0x7f) 0x80 :: varint_bytes k' (Z.shiftr val 7)
  end.
Definition data_varint32 (pos : option nat) (val : Z) : M DataStorage unit :=
  data_insert pos (varint_bytes 4 val).
Definition data_varuint32 (pos : option nat) (val : Z) : M DataStorage unit :=
  data_insert pos (varint_bytes 4 val).

(** A vector operation on the chunk stack. *)
Definition on_stack {X} (vec : Vector nat) (m : M (Vector nat) X) : M DataStorage X := λ d,
  match m vec with
  | Ok x v => Ok x (set d_stack (λ _, Some v) d)
  | Die msg v => Die msg (set d_stack (λ _, Some v) d)
  | Ub => Ub
  | Fuel => Fuel
  end.

(** [data_open_chunk] *)
Definition data_open_chunk : M DataStorage unit :=
  data <- gets id ;;
  let stack := match d_stack data with Some s => s | None => vec_init end in
  on_stack stack (vec_push (λ _, 0) heap_max (d_len data)).

(** [data_close_chunk]; [num] is [None] for -1 *)
Definition data_close_chunk (num : option nat) : M DataStorage unit :=
  data <- gets id ;;
  match d_stack data with
  | None => eprintf "assertion failed: stack != NULL && stack->len > 0"
  | Some stack =>
      if decide (v_len stack = 0) then eprintf "assertion failed: stack != NULL && stack->len > 0"
      else
        p <- on_stack stack vec_pop ;;
        pos <- deref p ;;
        data <- gets id ;;
        let num := default (d_len data - pos) num in
        data_uleb128 (Some pos) (Z.of_nat num)
  end.
End data.

(** ** Immediates *)

Definition is_im8 (x : Z) : bool :=
  ((x <=? Z.shiftl 1 7 - 1) && (x >=? - Z.shiftl 1 7))%Z.
Definition is_im16 (x : Z) : bool :=
  ((x <=? Z.shiftl 1 15 - 1) && (x >=? - Z.shiftl 1 15))%Z.
Definition is_im32 (x : Z) : bool :=
  ((x <=? Z.shiftl 1 31 - 1) && (x >=? - Z.shiftl 1 31))%Z.

(** Conversions to the integer types of [w] bits. *)
Definition to_unsigned (w value : Z) : Z := (value mod 2 ^ w)%Z.
Definition to_signed (w value : Z) : Z :=
  let v := (value mod 2 ^ w)%Z in if decide (v < 2 ^ (w - 1))%Z then v else (v - 2 ^ w)%Z.

(** [wrap_value] *)
Definition wrap_value (value size : Z) (is_unsigned : bool) : Z :=
  let conv := if is_unsigned then to_unsigned else to_signed in
  if decide (size = 1)%Z then conv 8%Z value
  else if decide (size = 2)%Z then conv 16%Z value
  else if decide (size = 4)%Z then conv 32%Z value
  else value.
