(* ===== verification/TcutilFacts.v ===== *)
(** * The containers of the toolchain library are correct

    Facts about Tcutil.v: vectors stay inside their allocation and behave as
    lists, the byte buffer holds exactly what was inserted, LEB128 numbers
    are read back, and nested chunks are length-prefixed. *)

From S2P Require Import Prelude Tcutil.

(** ** Memory *)

Section memory_facts.
Context {A : Type} (junk : nat → A) (heap_max : nat).

Lemma realloc_ok {S} p n (s : S) : length p ≤ n ≤ heap_max → ∃ q,
  realloc_or_die junk heap_max p n s = Ok q s ∧ length q = n ∧ take (length p) q = p.
Proof.
  intros Hn. unfold realloc_or_die. rewrite decide_True by lia. eexists. split; [done|].
  rewrite take_ge by lia. split.
  - rewrite length_app, length_map, length_seq. lia.
  - apply take_app_length.
Qed.
End memory_facts.

Lemma take_insert_last {A} (l : list A) n x : n < length l →
  take (n + 1) (<[n := x]> l) = take n l ++ [x].
Proof.
  intros Hn. rewrite Nat.add_1_r, (take_S_r _ _ x) by (by apply list_lookup_insert_eq).
  by rewrite take_insert_ge.
Qed.

(** Shifting the tail of the first [n] elements and storing [x] in the gap. *)
Lemma insert_shift {A} (l : list A) p n x : p < n → n < length l →
  take (n + 1) (<[p := x]> (take (p + 1) l ++ take (n - p) (drop p l) ++ drop (p + 1 + (n - p)) l)) =
  take p (take n l) ++ x :: drop p (take n l).
Proof.
  intros Hp Hn. rewrite insert_app_l by (rewrite length_take; lia).
  rewrite <- take_insert_lt by lia. rewrite take_insert_last by lia.
  rewrite <- app_assoc, (app_assoc _ _ (drop _ l)), (app_assoc _ _ (drop _ l)).
  rewrite take_app_length'
    by (rewrite !length_app, !length_take, length_drop; simpl; lia).
  rewrite take_take, Nat.min_l, take_drop_commute by lia. simpl. do 3 f_equal. f_equal. lia.
Qed.

(** Shifting the tail over the element at [i]. *)
Lemma remove_shift {A} (l : list A) i n : i < n → n ≤ length l →
  take (n - 1) (take i l ++ take (n - i - 1) (drop (i + 1) l) ++ drop (i + (n - i - 1)) l) =
  take i (take n l) ++ drop (i + 1) (take n l).
Proof.
  intros Hi Hn. rewrite app_assoc, take_app_length'
    by (rewrite !length_app, !length_take, length_drop; simpl; lia).
  rewrite take_take, Nat.min_l, take_drop_commute by lia. do 3 f_equal. lia.
Qed.

(** ** Vectors *)

Definition vec_ok {A} (v : Vector A) : Prop :=
  length (v_data v) = v_capacity v ∧ v_len v ≤ v_capacity v.
Definition contents {A} (v : Vector A) : list A := take (v_len v) (v_data v).

Lemma length_contents {A} (v : Vector A) : vec_ok v → length (contents v) = v_len v.
Proof. intros [? ?]. unfold contents. rewrite length_take. lia. Qed.

Section vector_facts.
Context {A : Type} (junk : nat → A) (heap_max : nat).

(** Room for a vector of [n] elements. *)
Definition vec_room (n : nat) : Prop :=
  16 `max` (2 * n) ≤ heap_max ∧ (2 * Z.of_nat n ≤ INT_MAX)%Z.

Lemma vec_push_ok v x : vec_ok v → vec_room (v_len v) → ∃ v',
  vec_push junk heap_max x v = Ok tt v' ∧ vec_ok v' ∧ contents v' = contents v ++ [x].
Proof.
  intros [Hlen Hle] [Hheap Hint]. assert (Hgrow : ∃ v1,
    (if decide (v_capacity v ≤ v_len v) then
       if decide (0 < v_capacity v ∧ (INT_MAX < 2 * Z.of_nat (v_capacity v))%Z) then mub
       else
         let cap := if decide (v_capacity v = 0) then 16 else 2 * v_capacity v in
         data <- realloc_or_die junk heap_max (v_data v) cap ;;
         modify (λ v, mkVector data cap (v_len v))
     else mret tt) v = Ok tt v1 ∧ length (v_data v1) = v_capacity v1 ∧ v_len v1 = v_len v ∧
    v_len v1 < v_capacity v1 ∧ contents v1 = contents v).
  { case_decide as Hfull; [|exists v; split_and!; auto; lia]. rewrite decide_False by lia.
    destruct (realloc_ok junk heap_max (v_data v) (if decide (v_capacity v = 0) then 16 else 2 * v_capacity v) v)
      as (q & Hq & Hql & Hqt); [case_decide; lia|].
    eexists. split; [unfold mbind; rewrite Hq; reflexivity|]. simpl.
    split_and!; [done|done|case_decide; lia|]. unfold contents. simpl.
    rewrite <- Hqt, take_take. f_equal. lia. }
  destruct Hgrow as (v1 & Hrun & Hl1 & Hn1 & Hlt & Hc).
  exists (mkVector (<[v_len v1 := x]> (v_data v1)) (v_capacity v1) (v_len v1 + 1)). split_and!.
  - unfold vec_push. rewrite (bind_run _ _ v v v) by done. cbv beta.
    rewrite (bind_run _ _ v tt v1) by exact Hrun. unfold mbind, gets, modify, store_cell. simpl.
    by rewrite decide_True by lia.
  - split; simpl; [by rewrite length_insert|lia].
  - rewrite <- Hc. unfold contents. simpl. apply take_insert_last. lia.
Qed.

Lemma vec_pop_ok (v : Vector A) : vec_ok v → ∃ v',
  vec_pop v = Ok (last (contents v)) v' ∧ vec_ok v' ∧
  contents v' = take (length (contents v) - 1) (contents v).
Proof.
  intros Hv. pose proof (length_contents v Hv) as Hlc. destruct Hv as [Hlen Hle].
  unfold vec_pop, mbind, gets, modify. simpl. case_decide as H0.
  - destruct (lookup_lt_is_Some_2 (v_data v) (v_len v - 1)) as (x & Hx); [lia|].
    rewrite Hx. simpl. exists (mkVector (v_data v) (v_capacity v) (v_len v - 1)).
    split_and!; [|split; simpl; lia|].
    + f_equal. rewrite last_lookup, Hlc. unfold contents. rewrite lookup_take_lt by lia.
      rewrite <- Hx. f_equal. lia.
    + rewrite Hlc. unfold contents. simpl. rewrite take_take. f_equal. lia.
  - exists v. assert (v_len v = 0) as E by lia. unfold contents. rewrite E. done.
Qed.

Lemma vec_insert_ok v null pos x : vec_ok v → vec_room (v_len v) → ∃ v',
  vec_insert junk heap_max null pos x v = Ok tt v' ∧ vec_ok v' ∧
  contents v' = if decide (0 ≤ pos ≤ Z.of_nat (v_len v))%Z
                then take (Z.to_nat pos) (contents v) ++ x :: drop (Z.to_nat pos) (contents v)
                else contents v.
Proof.
  intros Hv Hroom. pose proof (length_contents v Hv) as Hlc. unfold vec_insert.
  rewrite (bind_run _ _ v v v) by done. cbv beta zeta. case_decide as Hout.
  { exists v. rewrite decide_False by lia. done. }
  rewrite (decide_True (P := (0 ≤ pos ≤ Z.of_nat (v_len v))%Z)) by lia. case_decide as Hin.
  - destruct (vec_push_ok v null Hv Hroom) as (v1 & Hp & [Hl1 Hle1] & Hc1).
    rewrite (bind_run _ _ v tt v1) by done. rewrite (bind_run _ _ v1 v1 v1) by done. cbv beta.
    assert (Hn : v_len v1 = v_len v + 1).
    { rewrite <- (length_contents v1), Hc1, length_app, Hlc by done. simpl. lia. }
    unfold mbind, memmove, store_cell, modify. rewrite decide_True by lia. simpl.
    set (p := Z.to_nat pos) in *.
    assert (Hl : length (take (p + 1) (v_data v1) ++ take (v_len v - p) (drop p (v_data v1)) ++
                 drop (p + 1 + (v_len v - p)) (v_data v1)) = v_capacity v1)
      by (rewrite !length_app, !length_take, !length_drop; lia).
    rewrite decide_True by lia. eexists. split; [reflexivity|]. split.
    { split; simpl; [rewrite length_insert|]; lia. }
    unfold contents at 1. simpl. rewrite Hn, insert_shift by lia.
    assert (take (v_len v) (v_data v1) = contents v) as ->; [|done].
    apply (f_equal (take (v_len v))) in Hc1. unfold contents in Hc1 at 1.
    rewrite take_take, take_app_length', Nat.min_l in Hc1 by lia. done.
  - destruct (vec_push_ok v x Hv Hroom) as (v1 & -> & Hv1 & Hc1). exists v1. split_and!; [done..|].
    rewrite take_ge, drop_ge by lia. done.
Qed.
Lemma vec_remove_ok (v : Vector A) index : vec_ok v → ∃ v',
  vec_remove_at index v = Ok tt v' ∧ vec_ok v' ∧
  contents v' = if decide (0 ≤ index < Z.of_nat (v_len v))%Z
                then take (Z.to_nat index) (contents v) ++ drop (Z.to_nat index + 1) (contents v)
                else contents v.
Proof.
  intros [Hlen Hle]. unfold vec_remove_at. rewrite (bind_run _ _ v v v) by done. cbv beta zeta.
  case_decide as Hout. { exists v. rewrite decide_False by lia. done. }
  rewrite (decide_True (P := (0 ≤ index < Z.of_nat (v_len v))%Z)) by lia.
  set (i := Z.to_nat index). set (d := v_len v - i - 1).
  exists (mkVector (take i (v_data v) ++ take d (drop (i + 1) (v_data v)) ++ drop (i + d) (v_data v))
    (v_capacity v) (v_len v - 1)). split_and!.
  - unfold mbind, memmove, modify. case_decide as Hd.
    + rewrite decide_True by lia. done.
    + assert (d = 0) as -> by lia. simpl. by rewrite Nat.add_0_r, take_drop.
  - split; simpl; [rewrite !length_app, !length_take, !length_drop|]; lia.
  - unfold contents. simpl. apply remove_shift; lia.
Qed.

(** ** Sequences of vector operations *)

Inductive vop := VPush (x : A) | VPop | VInsert (pos : Z) (x : A) | VRemove (index : Z).

Definition vec_op (null : A) (o : vop) : M (Vector A) (option A) :=
  match o with
  | VPush x => vec_push junk heap_max x ;; mret None
  | VPop => vec_pop
  | VInsert pos x => vec_insert junk heap_max null pos x ;; mret None
  | VRemove index => vec_remove_at index ;; mret None
  end.
Fixpoint vec_ops (null : A) (ops : list vop) : M (Vector A) (list (option A)) :=
  match ops with
  | [] => mret []
  | o :: ops' => r <- vec_op null o ;; rs <- vec_ops null ops' ;; mret (r :: rs)
  end.

(** The same on a list: an index out of range does nothing. *)
Definition list_op (o : vop) (l : list A) : option A * list A :=
  match o with
  | VPush x => (None, l ++ [x])
  | VPop => (last l, take (length l - 1) l)
  | VInsert pos x =>
      (None, if decide (0 ≤ pos ≤ Z.of_nat (length l))%Z
             then take (Z.to_nat pos) l ++ x :: drop (Z.to_nat pos) l else l)
  | VRemove index =>
      (None, if decide (0 ≤ index < Z.of_nat (length l))%Z
             then take (Z.to_nat index) l ++ drop (Z.to_nat index + 1) l else l)
  end.
Fixpoint list_ops (ops : list vop) (l : list A) : list (option A) * list A :=
  match ops with
  | [] => ([], l)
  | o :: ops' => let '(r, l1) := list_op o l in let '(rs, l2) := list_ops ops' l1 in (r :: rs, l2)
  end.

Lemma length_list_op o l : length (list_op o l).2 ≤ length l + 1.
Proof.
  destruct o; simpl; try case_decide; rewrite ?length_app; cbn [length];
    rewrite ?length_take, ?length_drop; lia.
Qed.

Lemma vec_op_ok null o v : vec_ok v → vec_room (v_len v) → ∃ v',
  vec_op null o v = Ok (list_op o (contents v)).1 v' ∧ vec_ok v' ∧
  contents v' = (list_op o (contents v)).2.
Proof.
  intros Hv Hroom. destruct o as [x| |pos x|index]; simpl; rewrite ?length_contents by done.
  - destruct (vec_push_ok v x Hv Hroom) as (v' & H & ? & ?). exists v'.
    by rewrite (bind_run _ _ v tt v').
  - rewrite <- (length_contents v) by done. by apply vec_pop_ok.
  - destruct (vec_insert_ok v null pos x Hv Hroom) as (v' & H & ? & ?). exists v'.
    by rewrite (bind_run _ _ v tt v').
  - destruct (vec_remove_ok v index Hv) as (v' & H & ? & ?). exists v'.
    by rewrite (bind_run _ _ v tt v').
Qed.

Lemma vec_ops_ok null ops v : vec_ok v → vec_room (v_len v + length ops) → ∃ v',
  vec_ops null ops v = Ok (list_ops ops (contents v)).1 v' ∧ vec_ok v' ∧
  contents v' = (list_ops ops (contents v)).2.
Proof.
  revert v. induction ops as [|o ops IH]; intros v Hv [Hh Hi]; cbn [length] in *; [by exists v|].
  destruct (vec_op_ok null o v Hv) as (v1 & Ho & Hv1 & Hc1); [split; lia|].
  pose proof (length_list_op o (contents v)) as Hl. rewrite <- Hc1, !length_contents in Hl by done.
  destruct (IH v1 Hv1) as (v2 & Hrun & Hv2 & Hc2); [split; lia|].
  exists v2. simpl. rewrite (bind_run _ _ v _ v1) by exact Ho.
  rewrite (bind_run _ _ v1 _ v2) by exact Hrun. rewrite Hc1 in *.
  destruct (list_op o (contents v)) as [r l1]. simpl in *. by destruct (list_ops ops l1).
Qed.
End vector_facts.
Arguments vop : clear implicits.

(** a sequence of [vec_push], [vec_pop], [vec_insert] and [vec_remove_at] on
    a fresh vector stays inside the allocation and gives the answers and the
    contents of the same operations on a list, whatever fresh memory holds, as long as the
    memory suffices and the [int] capacity can be doubled. *)
Theorem vec_refines_list {A : Type} (junk : nat → A) (heap_max : nat) (null : A) (ops : list (vop A)) :
  16 `max` (2 * length ops) ≤ heap_max → (2 * Z.of_nat (length ops) ≤ INT_MAX)%Z →
  ∃ v, vec_ops junk heap_max null ops vec_init = Ok (list_ops ops []).1 v ∧
    contents v = (list_ops ops []).2 ∧ v_len v ≤ v_capacity v.
Proof.
  intros Hh Hi. destruct (vec_ops_ok junk heap_max null ops vec_init) as (v & Hrun & [_ Hv] & Hc);
    [done|by split|]. by exists v.
Qed.

Lemma vec_refines_list_witness : ∃ v,
  vec_ops (λ i, 100 + i) 64 0 [VPush 5; VInsert 0 7; VInsert 9 8; VPush 6; VRemove 1; VPop] vec_init =
    Ok [None; None; None; None; None; Some 6] v ∧
  contents v = [7] ∧ v_len v ≤ v_capacity v.
Proof.
  apply (vec_refines_list (λ i, 100 + i) 64 0 [VPush 5; VInsert 0 7; VInsert 9 8; VPush 6; VRemove 1; VPop]).
  - simpl. lia.
  - vm_compute. discriminate.
Defined.

(** ** LEB128 *)

Section leb128.
Local Open Scope Z_scope.

(** The readers of the two formats: seven bits a byte, lowest first, the top
    bit set on all bytes but the last; signed numbers extend bit 6 of the last. *)
Fixpoint uleb_decode (l : list Z) : option (Z * list Z) :=
  match l with
  | [] => None
  | c :: l' =>
      if decide (c < 128) then Some (c, l')
      else match uleb_decode l' with
           | Some (v, r) => Some (c - 128 + 128 * v, r)
           | None => None
           end
  end.
Fixpoint leb_decode (l : list Z) : option (Z * list Z) :=
  match l with
  | [] => None
  | c :: l' =>
      if decide (c < 128) then Some (if decide (c < 64) then c else c - 128, l')
      else match leb_decode l' with
           | Some (v, r) => Some (c - 128 + 128 * v, r)
           | None => None
           end
  end.

Lemma low7 v : Z.land v 0x7f = v mod 128.
Proof. change 0x7f with (Z.ones 7). by rewrite land_low. Qed.
Lemma continued v : Z.lor (Z.land v 0x7f) 0x80 = v mod 128 + 128.
Proof.
  rewrite low7, Z.lor_comm.
  change (Z.lor 0x80 (v mod 128)) with (Z.lor (Z.shiftl 1 7) (v mod 128)).
  rewrite lor_high by (try apply Z.mod_pos_bound; lia). lia.
Qed.
Lemma shift7 v : Z.shiftr v 7 = v / 128.
Proof. by rewrite Z.shiftr_div_pow2. Qed.
Lemma pow7 n : 2 ^ (7 * Z.of_nat (S n)) = 128 * 2 ^ (7 * Z.of_nat n).
Proof. replace (7 * Z.of_nat (S n)) with (7 + 7 * Z.of_nat n) by lia. by rewrite Z.pow_add_r by lia. Qed.

(** A number below [2 ^ (7 n)] takes at most [n] bytes and is read back. *)
Lemma uleb_ok n k v : (0 < n ≤ k)%nat → 0 ≤ v < 2 ^ (7 * Z.of_nat n) → ∃ l,
  uleb_bytes k v = Some l ∧ (length l ≤ n)%nat ∧ ∀ rest, uleb_decode (l ++ rest) = Some (v, rest).
Proof.
  revert k v. induction n as [|n IH]; intros [|k] v Hn Hv; try lia. simpl.
  rewrite continued, low7, shift7. case_decide as Hs.
  - eexists. split_and!; [done|simpl; lia|]. intros rest. simpl.
    rewrite Z.mod_small by lia. by rewrite decide_True.
  - rewrite pow7 in Hv. destruct n as [|n]; [change (2 ^ (7 * Z.of_nat 0)) with 1 in Hv; lia|].
    destruct (IH k (v / 128)) as (l & -> & Hl & Hd);
      [lia|split; [apply Z.div_pos; lia|apply Z.div_lt_upper_bound; lia]|].
    eexists. split_and!; [done|simpl; lia|]. intros rest. simpl. rewrite Hd.
    pose proof (Z.mod_pos_bound v 128). rewrite decide_False by lia. do 2 f_equal.
    pose proof (Z.div_mod v 128). lia.
Qed.

Lemma leb_ok n k v : (0 < n ≤ k)%nat → - 2 ^ (7 * Z.of_nat n) ≤ 2 * v < 2 ^ (7 * Z.of_nat n) → ∃ l,
  leb_bytes k v = Some l ∧ (length l ≤ n)%nat ∧ ∀ rest, leb_decode (l ++ rest) = Some (v, rest).
Proof.
  revert k v. induction n as [|n IH]; intros [|k] v Hn Hv; try lia. simpl.
  rewrite continued, low7, shift7. pose proof (Z.mod_pos_bound v 128).
  pose proof (Z.div_mod v 128). case_decide as Hs.
  - eexists. split_and!; [done|simpl; lia|]. intros rest. simpl. rewrite decide_True by lia.
    do 2 f_equal. case_decide; lia.
  - rewrite pow7 in Hv. destruct n as [|n]; [change (2 ^ (7 * Z.of_nat 0)) with 1 in Hv; lia|].
    assert (0 < 2 ^ (7 * Z.of_nat n)) by (apply Z.pow_pos_nonneg; lia).
    destruct (IH k (v / 128)) as (l & -> & Hl & Hd); [lia|rewrite pow7 in *; lia|].
    eexists. split_and!; [done|simpl; lia|]. intros rest. simpl. rewrite Hd.
    rewrite decide_False by lia. do 2 f_equal. lia.
Qed.

Lemma varuint_ok k v rest : 0 ≤ v < 2 ^ (7 * Z.of_nat (S k)) →
  uleb_decode (varint_bytes k v ++ rest) = Some (v, rest).
Proof.
  revert v. induction k as [|k IH]; intros v Hv; cbn [varint_bytes app uleb_decode];
    rewrite ?continued, ?low7, ?shift7; pose proof (Z.mod_pos_bound v 128).
  - simpl in Hv. rewrite decide_True by lia. by rewrite Z.mod_small by lia.
  - rewrite decide_False by lia. rewrite pow7 in Hv. pose proof (Z.div_mod v 128).
    rewrite IH by (rewrite pow7 in *; split; [apply Z.div_pos; lia|apply Z.div_lt_upper_bound; lia]).
    do 2 f_equal. lia.
Qed.
Lemma varint_ok k v rest : - 2 ^ (7 * Z.of_nat (S k)) ≤ 2 * v < 2 ^ (7 * Z.of_nat (S k)) →
  leb_decode (varint_bytes k v ++ rest) = Some (v, rest).
Proof.
  revert v. induction k as [|k IH]; intros v Hv; cbn [varint_bytes app leb_decode];
    rewrite ?continued, ?low7, ?shift7; pose proof (Z.mod_pos_bound v 128);
    pose proof (Z.div_mod v 128).
  - simpl in Hv. rewrite decide_True by lia. do 2 f_equal. case_decide; lia.
  - rewrite decide_False by lia. rewrite pow7 in Hv.
    rewrite IH by (rewrite pow7 in *; lia). do 2 f_equal. lia.
Qed.

(** the numbers [data_uleb128] and [data_leb128] write for any 64-bit value
    fit the local buffer, take at most ten bytes and are read back whatever
    follows; the five bytes of [data_varint32] and [data_varuint32] are read
    back for every 35-bit value. *)
Theorem leb128_roundtrip (v : Z) (rest : list Z) :
  (0 ≤ v < 2 ^ 64 → ∃ l, uleb_bytes 12 v = Some l ∧ (length l ≤ 10)%nat ∧
     uleb_decode (l ++ rest) = Some (v, rest)) ∧
  (- 2 ^ 63 ≤ v < 2 ^ 63 → ∃ l, leb_bytes 12 v = Some l ∧ (length l ≤ 10)%nat ∧
     leb_decode (l ++ rest) = Some (v, rest)) ∧
  (0 ≤ v < 2 ^ 35 → uleb_decode (varint_bytes 4 v ++ rest) = Some (v, rest)) ∧
  (- 2 ^ 34 ≤ v < 2 ^ 34 → leb_decode (varint_bytes 4 v ++ rest) = Some (v, rest)).
Proof.
  split_and!; intros Hv.
  - destruct (uleb_ok 10 12 v) as (l & ? & ? & Hd); [lia|simpl in *; lia|]. by exists l.
  - destruct (leb_ok 10 12 v) as (l & ? & ? & Hd); [lia|simpl in *; lia|]. by exists l.
  - apply varuint_ok. exact Hv.
  - apply varint_ok. simpl in *. lia.
Qed.
End leb128.

Lemma leb128_roundtrip_witness :
  (∃ l, uleb_bytes 12 300 = Some l ∧ length l ≤ 10 ∧ uleb_decode (l ++ [7%Z]) = Some (300%Z, [7%Z])) ∧
  leb_decode (varint_bytes 4 (-5) ++ []) = Some ((-5)%Z, []).
Proof.
  split.
  - apply (proj1 (leb128_roundtrip 300 [7%Z])). lia.
  - apply (leb128_roundtrip (-5) []). lia.
Defined.

(** ** The byte buffer *)

Definition stack_of (d : DataStorage) : Vector nat := default vec_init (d_stack d).
Definition data_ok (d : DataStorage) : Prop :=
  length (d_buf d) = d_capacity d ∧ d_len d ≤ d_capacity d ∧ vec_ok (stack_of d).
Definition bytes_of (d : DataStorage) : list Z := take (d_len d) (d_buf d).

Lemma length_bytes_of d : data_ok d → length (bytes_of d) = d_len d.
Proof. intros (? & ? & _). unfold bytes_of. rewrite length_take. lia. Qed.

Section data_facts.
Context (junk : nat → Z) (heap_max : nat).

(** Room for a buffer of [n] bytes. *)
Definition data_room (n : nat) : Prop := 16 `max` (2 * n) ≤ heap_max.

Lemma data_reserve_ok d n : data_ok d → data_room n → ∃ d',
  data_reserve junk heap_max n d = Ok tt d' ∧ data_ok d' ∧ n ≤ d_capacity d' ∧
  d_len d' = d_len d ∧ bytes_of d' = bytes_of d ∧ d_stack d' = d_stack d.
Proof.
  intros (Hlen & Hle & Hst) Hroom. unfold data_room in Hroom. unfold data_reserve.
  rewrite (bind_run _ _ d d d) by done. cbv beta zeta. case_decide as Hgrow.
  - match goal with |- context [realloc_or_die _ _ _ ?c] => set (cap := c) end.
    assert (Hcap : n ≤ cap ∧ d_capacity d ≤ cap ≤ heap_max) by (unfold cap; repeat case_decide; lia).
    destruct (realloc_ok junk heap_max (d_buf d) cap d) as (q & Hq & Hql & Hqt); [lia|].
    exists (mkData (d_stack d) q cap (d_len d)). rewrite (bind_run _ _ d q d) by done.
    split_and!; [done|split_and!; simpl; [done|lia|done]|simpl; lia|done| |done].
    unfold bytes_of. simpl. rewrite <- Hqt, take_take. f_equal. lia.
  - exists d. split_and!; auto; [by split_and!|lia].
Qed.

(** Moving the tail and copying into the gap. *)
Lemma splice_bytes (l : list Z) pos n xs : pos ≤ n → n + length xs ≤ length l →
  take (n + length xs) (take pos (take (pos + length xs) l ++ take (n - pos) (drop pos l) ++
      drop (pos + length xs + (n - pos)) l) ++ xs ++
    drop (pos + length xs) (take (pos + length xs) l ++ take (n - pos) (drop pos l) ++
      drop (pos + length xs + (n - pos)) l)) =
  take pos (take n l) ++ xs ++ drop pos (take n l).
Proof.
  intros Hp Hn. rewrite (take_app_le (take (pos + length xs) l)) by (rewrite length_take; lia).
  rewrite (take_take l pos), Nat.min_l, drop_app_length' by (rewrite ?length_take; lia).
  rewrite (app_assoc xs), (app_assoc (take pos l)), take_app_length'
    by (rewrite !length_app, !length_take, length_drop; lia).
  rewrite take_take, Nat.min_l by lia. do 2 f_equal.
  rewrite take_drop_commute. do 2 f_equal. lia.
Qed.

Lemma data_insert_ok d pos_ xs : data_ok d →
  default (d_len d) pos_ ≤ d_len d → data_room (d_len d + length xs) → ∃ d',
  data_insert junk heap_max pos_ xs d = Ok tt d' ∧ data_ok d' ∧ d_stack d' = d_stack d ∧
  bytes_of d' = take (default (d_len d) pos_) (bytes_of d) ++ xs ++
                drop (default (d_len d) pos_) (bytes_of d).
Proof.
  intros Hd Hpos Hroom. unfold data_insert. rewrite (bind_run _ _ d d d) by done. cbv beta zeta.
  set (pos := default (d_len d) pos_) in *. rewrite decide_False by lia.
  destruct (data_reserve_ok d (d_len d + length xs) Hd Hroom)
    as (d1 & Hr & (Hl1 & Hle1 & Hst1) & Hcap & Hlen1 & Hby & Hstk).
  rewrite (bind_run _ _ d tt d1) by done. rewrite (bind_run _ _ d1 d1 d1) by done. cbv beta.
  rewrite <- Hby. unfold bytes_of at 2 3. rewrite Hlen1.
  set (l := d_buf d1) in *.
  set (buf := take (pos + length xs) l ++ take (d_len d - pos) (drop pos l) ++
                drop (pos + length xs + (d_len d - pos)) l).
  assert (Hbl : length buf = d_capacity d1)
    by (unfold buf; rewrite !length_app, !length_take, !length_drop; lia).
  set (buf' := take pos buf ++ xs ++ drop (pos + length xs) buf).
  assert (Hmid : ∃ b, (if decide (pos < d_len d)
      then memmove l (pos + length xs) pos (d_len d - pos) else mret l) d1 = Ok b d1 ∧
    memcpy b pos xs d1 = Ok buf' d1).
  { unfold memmove, memcpy. case_decide as Hin.
    - exists buf. rewrite !decide_True by lia. done.
    - exists l. rewrite decide_True by lia. split; [done|]. unfold mret. f_equal.
      unfold buf', buf. replace (d_len d - pos) with 0 by lia. simpl.
      rewrite Nat.add_0_r, take_drop. done. }
  destruct Hmid as (b & Hb1 & Hb2).
  exists (mkData (d_stack d1) buf' (d_capacity d1) (d_len d + length xs)). split_and!.
  - rewrite (bind_run _ _ d1 b d1) by exact Hb1. by rewrite (bind_run _ _ d1 buf' d1) by exact Hb2.
  - split_and!; simpl; [|lia|done].
    unfold buf'. rewrite !length_app, length_take, length_drop. lia.
  - done.
  - unfold bytes_of. simpl. unfold buf', buf. apply splice_bytes; lia.
Qed.

Lemma data_append_ok d xs : data_ok d → data_room (d_len d + length xs) → ∃ d',
  data_append junk heap_max xs d = Ok tt d' ∧ data_ok d' ∧ d_stack d' = d_stack d ∧
  bytes_of d' = bytes_of d ++ xs.
Proof.
  intros Hd Hroom. destruct (data_insert_ok d None xs Hd) as (d' & ? & ? & ? & Hb); auto.
  exists d'. split_and!; auto. simpl in Hb. rewrite Hb, take_ge, drop_ge, app_nil_r; auto;
    rewrite length_bytes_of; auto.
Qed.
End data_facts.

(** ** Nested chunks *)

(** What a writer of sections emits: bytes, and chunks of such. *)
Inductive tree := Raw (bytes : list Z) | Chunk (ts : list tree).

Lemma tree_rect' (P : tree → Prop) :
  (∀ b, P (Raw b)) → (∀ ts, Forall P ts → P (Chunk ts)) → ∀ t, P t.
Proof.
  intros HR HC. fix IH 1. intros [b|ts]; [apply HR|apply HC].
  induction ts as [|t ts IHts]; constructor; [apply IH|apply IHts].
Qed.

Definition uleb (n : nat) : list Z := default [] (uleb_bytes 12 (Z.of_nat n)).

(** The bytes: each chunk is preceded by its length. *)
Fixpoint flat (t : tree) : list Z :=
  match t with
  | Raw b => b
  | Chunk ts => uleb (length (flat_map flat ts)) ++ flat_map flat ts
  end.
Fixpoint depth (t : tree) : nat :=
  match t with Raw _ => 0 | Chunk ts => S (foldr max 0 (map depth ts)) end.

Section chunks.
Context (junk : nat → Z) (heap_max : nat).

(** The writer: [data_open_chunk], the contents, [data_close_chunk(data, -1)]. *)
Fixpoint emit (t : tree) : M DataStorage unit :=
  match t with
  | Raw b => data_append junk heap_max b
  | Chunk ts =>
      data_open_chunk heap_max ;; mforeach emit ts ;; data_close_chunk junk heap_max None
  end.

Lemma open_ok d : data_ok d → vec_room heap_max (v_len (stack_of d)) → ∃ d',
  data_open_chunk heap_max d = Ok tt d' ∧ data_ok d' ∧ d_len d' = d_len d ∧
  bytes_of d' = bytes_of d ∧ contents (stack_of d') = contents (stack_of d) ++ [d_len d].
Proof.
  intros (Hl & Hle & Hst) Hroom.
  destruct (vec_push_ok (λ _, 0) heap_max (stack_of d) (d_len d) Hst Hroom) as (v & Hv & Hok & Hc).
  exists (mkData (Some v) (d_buf d) (d_capacity d) (d_len d)). split_and!; [|by split_and!|done|done|done].
  unfold data_open_chunk. rewrite (bind_run _ _ d d d) by done. cbv beta zeta.
  replace (match d_stack d with Some s => s | None => vec_init end) with (stack_of d)
    by (unfold stack_of; by destruct (d_stack d)).
  unfold on_stack. by rewrite Hv.
Qed.

Lemma uleb_small n : (Z.of_nat n < 2 ^ 64)%Z → uleb_bytes 12 (Z.of_nat n) = Some (uleb n).
Proof.
  intros Hn. unfold uleb. destruct (uleb_ok 10 12 (Z.of_nat n)) as (l & -> & _); [lia|simpl; lia|done].
Qed.

Lemma close_ok d st pos : data_ok d → (Z.of_nat heap_max < 2 ^ 64)%Z →
  contents (stack_of d) = st ++ [pos] → pos ≤ d_len d →
  data_room heap_max (d_len d + length (uleb (d_len d - pos))) → ∃ d',
  data_close_chunk junk heap_max None d = Ok tt d' ∧ data_ok d' ∧
  bytes_of d' = take pos (bytes_of d) ++ uleb (d_len d - pos) ++ drop pos (bytes_of d) ∧
  contents (stack_of d') = st.
Proof.
  intros (Hl & Hle & Hst) Hmax Hc Hpos Hroom. unfold data_close_chunk.
  rewrite (bind_run _ _ d d d) by done. cbv beta.
  destruct (d_stack d) as [stk|] eqn:Es; unfold stack_of in Hc, Hst; rewrite Es in Hc, Hst; simpl in *;
    [|by destruct st].
  pose proof (length_contents stk Hst) as Hlc. rewrite Hc, length_app in Hlc. simpl in Hlc.
  rewrite decide_False by lia.
  destruct (vec_pop_ok stk Hst) as (v & Hv & Hvok & Hvc).
  rewrite Hc, last_snoc in Hv. rewrite Hc, length_app, Nat.add_sub, take_app_length in Hvc.
  set (d1 := mkData (Some v) (d_buf d) (d_capacity d) (d_len d)).
  rewrite (bind_run _ _ d (Some pos) d1) by (unfold on_stack; by rewrite Hv).
  rewrite (bind_run _ _ d1 pos d1) by done. rewrite (bind_run _ _ d1 d1 d1) by done. cbv beta zeta.
  simpl default. unfold data_uleb128. unfold data_room in Hroom.
  rewrite (bind_run _ _ d1 (uleb (d_len d - pos)) d1)
    by (rewrite uleb_small by (simpl; lia); done).
  destruct (data_insert_ok junk heap_max d1 (Some pos) (uleb (d_len d - pos)))
    as (d' & Hrun & Hok & Hstk & Hby); auto; [by split_and!|].
  exists d'. split_and!; auto. unfold stack_of. by rewrite Hstk.
Qed.

Definition emitted (t : tree) : Prop := ∀ d,
  data_ok d → data_room heap_max (d_len d + length (flat t)) →
  vec_room heap_max (v_len (stack_of d) + depth t) → ∃ d',
  emit t d = Ok tt d' ∧ data_ok d' ∧ bytes_of d' = bytes_of d ++ flat t ∧
  contents (stack_of d') = contents (stack_of d).

Lemma emit_all ts d : Forall emitted ts → data_ok d →
  data_room heap_max (d_len d + length (flat_map flat ts)) →
  vec_room heap_max (v_len (stack_of d) + foldr max 0 (map depth ts)) → ∃ d',
  mforeach emit ts d = Ok tt d' ∧ data_ok d' ∧ bytes_of d' = bytes_of d ++ flat_map flat ts ∧
  contents (stack_of d') = contents (stack_of d).
Proof.
  intros Hts. revert d. unfold data_room, vec_room. induction Hts as [|t ts Ht _ IH]; intros d Hd Hr Hv.
  { exists d. simpl. by rewrite app_nil_r. }
  simpl in Hr, Hv. rewrite length_app in Hr.
  destruct (Ht d Hd) as (d1 & H1 & Hd1 & Hb1 & Hc1); [unfold data_room; lia|unfold vec_room; lia|].
  assert (Hl1 : d_len d1 = d_len d + length (flat t))
    by (rewrite <- (length_bytes_of d1), Hb1, length_app, length_bytes_of; done).
  assert (Hs1 : v_len (stack_of d1) = v_len (stack_of d)).
  { rewrite <- (length_contents (stack_of d1)), Hc1 by apply Hd1. apply length_contents, Hd. }
  destruct (IH d1 Hd1) as (d2 & H2 & Hd2 & Hb2 & Hc2); [lia|lia|].
  exists d2. simpl. rewrite (bind_run _ _ d tt d1) by done.
  rewrite Hb2, Hb1, Hc2, Hc1, <- app_assoc. done.
Qed.

Lemma emit_ok t : (Z.of_nat heap_max < 2 ^ 64)%Z → emitted t.
Proof.
  intros Hmax. induction t as [b|ts IH] using tree_rect'; intros d Hd Hroom Hstk.
  { destruct (data_append_ok junk heap_max d b Hd Hroom) as (d' & ? & ? & Hs & ?).
    exists d'. split_and!; auto. unfold stack_of. by rewrite Hs. }
  unfold data_room, vec_room in *. cbn [flat depth] in *. rewrite length_app in Hroom.
  destruct (open_ok d Hd) as (d1 & H1 & Hd1 & Hl1 & Hb1 & Hc1); [unfold vec_room; lia|].
  assert (Hs1 : v_len (stack_of d1) = v_len (stack_of d) + 1).
  { rewrite <- (length_contents (stack_of d1)), Hc1, length_app by apply Hd1.
    by rewrite length_contents by apply Hd. }
  destruct (emit_all ts d1 IH Hd1) as (d2 & H2 & Hd2 & Hb2 & Hc2);
    [unfold data_room; lia|unfold vec_room; lia|].
  assert (Hl2 : d_len d2 = d_len d + length (flat_map flat ts))
    by (rewrite <- (length_bytes_of d2), Hb2, length_app, length_bytes_of, Hl1; done).
  assert (Hnum : d_len d2 - d_len d = length (flat_map flat ts)) by lia.
  destruct (close_ok d2 (contents (stack_of d)) (d_len d)) as (d3 & H3 & Hd3 & Hb3 & Hc3);
    auto; [congruence|lia|rewrite Hnum; unfold data_room; lia|].
  exists d3. split_and!; auto.
  - simpl. rewrite (bind_run _ _ d tt d1) by done. by rewrite (bind_run _ _ d1 tt d2).
  - rewrite Hb3, Hnum, Hb2, Hb1. rewrite take_app_length', drop_app_length'
      by (by rewrite length_bytes_of). done.
Qed.
End chunks.

(** writing nested chunks to a fresh buffer, each opened with
    [data_open_chunk] and closed with [data_close_chunk(data, -1)], gives the
    bytes in order with every chunk preceded by the LEB128 length of its
    contents, whatever the order in which the lengths are spliced in, and never
    leaves the allocation. *)
Theorem chunks_nest (junk : nat → Z) (heap_max : nat) (t : tree) :
  16 `max` (2 * length (flat t)) ≤ heap_max → 2 * depth t ≤ heap_max →
  (2 * Z.of_nat (depth t) ≤ INT_MAX)%Z → (Z.of_nat heap_max < 2 ^ 64)%Z →
  ∃ d, emit junk heap_max t data_init = Ok tt d ∧ bytes_of d = flat t ∧ d_len d ≤ d_capacity d.
Proof.
  intros Hh Hd Hi Hmax.
  destruct (emit_ok junk heap_max t Hmax data_init) as (d & Hrun & Hok & Hb & _).
  - by split_and!.
  - exact Hh.
  - split; simpl; lia.
  - exists d. split_and!; auto. apply Hok.
Qed.

Lemma chunks_nest_witness : ∃ d,
  emit (λ i, Z.of_nat i) 64 (Chunk [Raw [1]; Chunk [Raw [2; 3]]; Raw [4]]%Z) data_init = Ok tt d ∧
  bytes_of d = [5; 1; 2; 2; 3; 4]%Z ∧ d_len d ≤ d_capacity d.
Proof.
  apply (chunks_nest (λ i, Z.of_nat i) 64 (Chunk [Raw [1]; Chunk [Raw [2; 3]]; Raw [4]]%Z));
    vm_compute; (lia || done).
Defined.

(** ** Alignment and immediates *)

Lemma ALIGN_spec x k : (0 ≤ k)%Z → ALIGN x (2 ^ k) = ((x + 2 ^ k - 1) / 2 ^ k * 2 ^ k)%Z.
Proof.
  intros Hk. unfold ALIGN. replace (- 2 ^ k)%Z with (Z.lnot (Z.ones k))
    by (rewrite Z.ones_equiv; unfold Z.lnot; lia).
  rewrite <- Z.ldiff_land, Z.ldiff_ones_r by done.
  by rewrite Z.shiftl_mul_pow2, Z.shiftr_div_pow2.
Qed.

(** [data_align] pads with zeros up to the next multiple of the alignment. *)
Lemma data_align_ok junk heap_max d k : data_ok d → (0 ≤ k < 31)%Z →
  data_room heap_max (d_len d + Z.to_nat (2 ^ k)) → (Z.of_nat heap_max < 2 ^ 63)%Z → ∃ d' n,
  data_align junk heap_max (2 ^ k) d = Ok tt d' ∧ data_ok d' ∧
  bytes_of d' = bytes_of d ++ replicate n 0%Z ∧ (Z.of_nat n < 2 ^ k)%Z ∧
  (2 ^ k | Z.of_nat (d_len d + n))%Z.
Proof.
  intros Hd Hk Hroom Hmax. unfold data_room in Hroom. unfold data_align.
  rewrite (bind_run _ _ d d d) by done. cbv beta zeta. rewrite ALIGN_spec by lia.
  assert (0 < 2 ^ k)%Z as H2 by (apply Z.pow_pos_nonneg; lia).
  set (len := Z.of_nat (d_len d)) in *. set (q := ((len + 2 ^ k - 1) / 2 ^ k)%Z).
  assert (Hq : (len ≤ q * 2 ^ k < len + 2 ^ k)%Z).
  { pose proof (Z.div_mod (len + 2 ^ k - 1) (2 ^ k)).
    pose proof (Z.mod_pos_bound (len + 2 ^ k - 1) (2 ^ k)). unfold q. lia. }
  rewrite Z.mod_small by lia. case_decide as H0.
  - exists d, 0. simpl. rewrite app_nil_r, Nat.add_0_r. split_and!; auto. exists q. unfold len in *. lia.
  - rewrite decide_False by lia. set (n := Z.to_nat (q * 2 ^ k - len)).
    destruct (data_append_ok junk heap_max d (replicate n 0%Z) Hd) as (d' & ? & ? & ? & ?).
    { unfold data_room. rewrite length_replicate. unfold n, len in *. lia. }
    exists d', n. split_and!; auto; [unfold n; lia|]. exists q. unfold n, len in *. lia.
Qed.

(** A value is an immediate of a width exactly when wrapping it to the signed
    type of that width keeps it. *)
Lemma is_im_wrap x :
  is_im8 x = bool_decide (wrap_value x 1 false = x) ∧
  is_im16 x = bool_decide (wrap_value x 2 false = x) ∧
  is_im32 x = bool_decide (wrap_value x 4 false = x).
Proof.
  unfold is_im8, is_im16, is_im32, wrap_value, to_signed. split_and!; apply eq_true_iff_eq;
    rewrite bool_decide_eq_true, andb_true_iff, Z.leb_le, Z.geb_le, ?Z.shiftl_1_l;
    repeat (rewrite decide_False by lia); rewrite decide_True by done;
    case_decide; Z.to_euclidean_division_equations; lia.
Qed.
