(* ===== verification/Digest.v ===== *)
(** * Message digests: md5.c, sha1.c, sha256.c, sha512.c of src/shared/libutil
    and the variants sha224.c, sha384.c, sha512-224.c and sha512-256.c

    Words are integers reduced modulo [2 ^ 32] or [2 ^ 64], bytes integers below
    256.  The four files share the text of [update] and [pad] up to the size of a block, the
    order of the length bytes and the compression function; the section
    [stream] is that text with these as parameters, and each digest is an
    instance of it with its own [processblock], tables and initial state.
    DigestFacts.v compares them with the definitions of the standards. *)

From S2P Require Import Prelude Tcutil.

(** ** The context of a digest: struct md5, sha1, sha256, sha512 *)

Record digest_ctx := mkCtx { c_len : Z; c_h : list Z; c_buf : list Z }.
#[export] Instance eta_digest_ctx : Eta digest_ctx := λ s, mkCtx (c_len s) (c_h s) (c_buf s).

Section stream.
(** [B]: bytes of a block; [L]: room before the length field; [LP]: where the
    length is stored; [len_bytes]: the order of its bytes. *)
Context (B L LP : nat) (len_bytes : Z → list Z) (process : list Z → list Z → list Z).

(** [memcpy(s->buf + r, p, len)] *)
Definition copy_in (r : nat) (p : list Z) : M digest_ctx unit :=
  s <- gets id ;;
  buf <- memcpy (c_buf s) r p ;;
  modify (set c_buf (λ _, buf)).

(** [processblock(s, p)] *)
Definition compress (p : list Z) : M digest_ctx unit := modify (set c_h (λ h, process h p)).
Definition compress_buf : M digest_ctx unit := s <- gets id ;; compress (c_buf s).

(** [for (; len >= B; len -= B, p += B) processblock(s, p)] and the last copy *)
Fixpoint block_loop (fuel : nat) (p : list Z) : M digest_ctx unit :=
  match fuel with
  | O => mfuel
  | S fuel' =>
      if decide (B ≤ length p) then compress (take B p) ;; block_loop fuel' (drop B p)
      else copy_in 0 p
  end.

Definition update (m : list Z) : M digest_ctx unit :=
  s <- gets id ;;
  let r := Z.to_nat (c_len s mod Z.of_nat B) in
  modify (set c_len (λ l, (l + Z.of_nat (length m)) mod 2 ^ 64)%Z) ;;
  if decide (r = 0) then block_loop (S (length m)) m
  else if decide (length m < B - r) then copy_in r m
  else
    copy_in r (take (B - r) m) ;;
    compress_buf ;;
    block_loop (S (length m)) (drop (B - r) m).

Definition pad : M digest_ctx unit :=
  s <- gets id ;;
  let r := Z.to_nat (c_len s mod Z.of_nat B) in
  copy_in r [0x80%Z] ;;
  let r := r + 1 in
  r <- (if decide (L < r) then copy_in r (replicate (B - r) 0%Z) ;; compress_buf ;; mret 0
        else mret r) ;;
  copy_in r (replicate (LP - r) 0%Z) ;;
  modify (set c_len (λ l, (l * 8) mod 2 ^ 64)%Z) ;;
  s <- gets id ;;
  copy_in LP (len_bytes (c_len s)) ;;
  compress_buf.

(** [*_init]: the buffer keeps whatever it held *)
Definition init_with (h : list Z) : M digest_ctx unit :=
  modify (λ s, mkCtx 0 h (c_buf s)).
End stream.

(** ** Words *)

(** [(uint8_t)(x >> k)] *)
Definition byte_at (x k : Z) : Z := (Z.shiftr x k mod 256)%Z.

(** The bytes of a word, most or least significant first. *)
Definition be_bytes (n : nat) (x : Z) : list Z :=
  map (λ i, byte_at x (8 * Z.of_nat (n - 1 - i))) (seq 0 n).
Definition le_bytes (n : nat) (x : Z) : list Z :=
  map (λ i, byte_at x (8 * Z.of_nat i)) (seq 0 n).

(** [buf[k * i] ... buf[k * i + k - 1]] as one word *)
Definition be_word (bs : list Z) : Z := fold_left (λ w b, Z.lor (Z.shiftl w 8) b) bs 0%Z.
Definition le_word (bs : list Z) : Z := fold_right (λ b w, Z.lor b (Z.shiftl w 8)) 0%Z bs.
Definition word_at (word : list Z → Z) (k : nat) (buf : list Z) (i : nat) : Z :=
  word (take k (drop (k * i) buf)).

(** [rol] and [ror] on [w] bits *)
Definition rol (w n k : Z) : Z := Z.lor (Z.shiftl n k mod 2 ^ w) (Z.shiftr n (w - k)).
Definition ror (w n k : Z) : Z := Z.lor (Z.shiftr n k) (Z.shiftl n (w - k) mod 2 ^ w).

Definition u32 (x : Z) : Z := (x mod 2 ^ 32)%Z.
Definition nthw (W : list Z) (i : nat) : Z := nth i W 0%Z.

(** [s->h[i] += x[i]] *)
Definition add_words (w : Z) (h x : list Z) : list Z := zip_with (λ a b, ((a + b) mod 2 ^ w)%Z) h x.

Local Open Scope Z_scope.

(** ** md5.c *)

Definition md5_tab : list Z := [
  0xd76aa478; 0xe8c7b756; 0x242070db; 0xc1bdceee; 0xf57c0faf; 0x4787c62a; 0xa8304613; 0xfd469501;
  0x698098d8; 0x8b44f7af; 0xffff5bb1; 0x895cd7be; 0x6b901122; 0xfd987193; 0xa679438e; 0x49b40821;
  0xf61e2562; 0xc040b340; 0x265e5a51; 0xe9b6c7aa; 0xd62f105d; 0x02441453; 0xd8a1e681; 0xe7d3fbc8;
  0x21e1cde6; 0xc33707d6; 0xf4d50d87; 0x455a14ed; 0xa9e3e905; 0xfcefa3f8; 0x676f02d9; 0x8d2a4c8a;
  0xfffa3942; 0x8771f681; 0x6d9d6122; 0xfde5380c; 0xa4beea44; 0x4bdecfa9; 0xf6bb4b60; 0xbebfbc70;
  0x289b7ec6; 0xeaa127fa; 0xd4ef3085; 0x04881d05; 0xd9d4d039; 0xe6db99e5; 0x1fa27cf8; 0xc4ac5665;
  0xf4292244; 0x432aff97; 0xab9423a7; 0xfc93a039; 0x655b59c3; 0x8f0ccc92; 0xffeff47d; 0x85845dd1;
  0x6fa87e4f; 0xfe2ce6e0; 0xa3014314; 0x4e0811a1; 0xf7537e82; 0xbd3af235; 0x2ad7d2bb; 0xeb86d391].

Definition md5_F (x y z : Z) : Z := Z.lxor z (Z.land x (Z.lxor y z)).
Definition md5_G (x y z : Z) : Z := Z.lxor y (Z.land z (Z.lxor y x)).
Definition md5_H (x y z : Z) : Z := Z.lxor (Z.lxor x y) z.
Definition md5_I (x y z : Z) : Z := Z.lxor y (Z.lor x (u32 (Z.lnot z))).

(** The macros FF, GG, HH and II: the new value of [a]. *)
Definition md5_op (f : Z → Z → Z → Z) (a b c d w s t : Z) : Z :=
  let a := u32 (a + (f b c d + w + t)) in u32 (rol 32 a s + b).

(** Four steps of a round from [i] on; [sh] its shifts, [ix] the index of W. *)
Definition md5_four (f : Z → Z → Z → Z) (sh : Z * Z * Z * Z) (ix : nat → nat) (W : list Z)
    (st : Z * Z * Z * Z) (i : nat) : Z * Z * Z * Z :=
  let '(a, b, c, d) := st in
  let '(s0, s1, s2, s3) := sh in
  let a := md5_op f a b c d (nthw W (ix i)) s0 (nthw md5_tab i) in
  let i := S i in
  let d := md5_op f d a b c (nthw W (ix i)) s1 (nthw md5_tab i) in
  let i := S i in
  let c := md5_op f c d a b (nthw W (ix i)) s2 (nthw md5_tab i) in
  let i := S i in
  let b := md5_op f b c d a (nthw W (ix i)) s3 (nthw md5_tab i) in
  (a, b, c, d).

Definition md5_round f sh ix W st (from : nat) : Z * Z * Z * Z :=
  fold_left (md5_four f sh ix W) [from; from + 4; from + 8; from + 12]%nat st.

Definition md5_processblock (h buf : list Z) : list Z :=
  let W := map (word_at le_word 4 buf) (seq 0 16) in
  let st := (nthw h 0, nthw h 1, nthw h 2, nthw h 3) in
  let st := md5_round md5_F (7, 12, 17, 22) (λ i, i) W st 0 in
  let st := md5_round md5_G (5, 9, 14, 20) (λ i, (5 * i + 1) mod 16)%nat W st 16 in
  let st := md5_round md5_H (4, 11, 16, 23) (λ i, (3 * i + 5) mod 16)%nat W st 32 in
  let '(a, b, c, d) := md5_round md5_I (6, 10, 15, 21) (λ i, (7 * i) mod 16)%nat W st 48 in
  add_words 32 h [a; b; c; d].

Definition md5_init : M digest_ctx unit :=
  init_with [0x67452301; 0xefcdab89; 0x98badcfe; 0x10325476].
Definition md5_update : list Z → M digest_ctx unit := update 64 md5_processblock.
Definition md5_pad : M digest_ctx unit := pad 64 56 56 (le_bytes 8) md5_processblock.
Definition md5_sum : M digest_ctx (list Z) :=
  md5_pad ;; s <- gets id ;; mret (flat_map (le_bytes 4) (take 4 (c_h s))).

(** ** sha1.c *)

Definition F0 (b c d : Z) : Z := Z.lxor d (Z.land b (Z.lxor c d)).
Definition F1 (b c d : Z) : Z := Z.lxor (Z.lxor b c) d.
Definition F2 (b c d : Z) : Z := Z.lor (Z.land b c) (Z.land d (Z.lor b c)).

(** The macros G0 to G3: the new values of [e] and [b]. *)
Definition sha1_G (f : Z → Z → Z → Z) (k a b c d e w : Z) : Z * Z :=
  (u32 (e + (rol 32 a 5 + f b c d + w + k)), rol 32 b 30).

(** Five steps from [i] on. *)
Definition sha1_five (f : Z → Z → Z → Z) (k : Z) (W : list Z) (st : Z * Z * Z * Z * Z) (i : nat) :
    Z * Z * Z * Z * Z :=
  let '(a, b, c, d, e) := st in
  let '(e, b) := sha1_G f k a b c d e (nthw W i) in
  let '(d, a) := sha1_G f k e a b c d (nthw W (i + 1)) in
  let '(c, e) := sha1_G f k d e a b c (nthw W (i + 2)) in
  let '(b, d) := sha1_G f k c d e a b (nthw W (i + 3)) in
  let '(a, c) := sha1_G f k b c d e a (nthw W (i + 4)) in
  (a, b, c, d, e).

Definition sha1_W (buf : list Z) : list Z :=
  fold_left (λ W i, W ++ [rol 32 (Z.lxor (Z.lxor (Z.lxor (nthw W (i - 3)) (nthw W (i - 8)))
                                            (nthw W (i - 14))) (nthw W (i - 16))) 1])
    (seq 16 64) (map (word_at be_word 4 buf) (seq 0 16)).

Definition sha1_round f k W st (from : nat) : Z * Z * Z * Z * Z :=
  fold_left (sha1_five f k W) [from; from + 5; from + 10; from + 15]%nat st.

Definition sha1_processblock (h buf : list Z) : list Z :=
  let W := sha1_W buf in
  let st := (nthw h 0, nthw h 1, nthw h 2, nthw h 3, nthw h 4) in
  let st := sha1_round F0 0x5A827999 W st 0 in
  let st := sha1_round F1 0x6ED9EBA1 W st 20 in
  let st := sha1_round F2 0x8F1BBCDC W st 40 in
  let '(a, b, c, d, e) := sha1_round F1 0xCA62C1D6 W st 60 in
  add_words 32 h [a; b; c; d; e].

Definition sha1_init : M digest_ctx unit :=
  init_with [0x67452301; 0xEFCDAB89; 0x98BADCFE; 0x10325476; 0xC3D2E1F0].
Definition sha1_update : list Z → M digest_ctx unit := update 64 sha1_processblock.
Definition sha1_pad : M digest_ctx unit := pad 64 56 56 (be_bytes 8) sha1_processblock.
Definition sha1_sum : M digest_ctx (list Z) :=
  sha1_pad ;; s <- gets id ;; mret (flat_map (be_bytes 4) (take 5 (c_h s))).

(** ** The compression function of sha256.c and sha512.c *)

Definition Ch (x y z : Z) : Z := Z.lxor z (Z.land x (Z.lxor y z)).
Definition Maj (x y z : Z) : Z := Z.lor (Z.land x y) (Z.land z (Z.lor x y)).

Section sha2.
(** Word width, bytes of a word, number of rounds, constants, and the macros S0,
    S1, R0, R1. *)
Context (w : Z) (wb n : nat) (K : list Z) (S0 S1 R0 R1 : Z → Z).

Definition sha2_W (buf : list Z) : list Z :=
  fold_left (λ W i, W ++ [(R1 (nthw W (i - 2)) + nthw W (i - 7) + R0 (nthw W (i - 15))
                            + nthw W (i - 16)) mod 2 ^ w])
    (seq 16 (n - 16)) (map (word_at be_word wb buf) (seq 0 16)).

Definition sha2_step (W : list Z) (st : list Z) (i : nat) : list Z :=
  match st with
  | [a; b; c; d; e; f; g; h] =>
      let t1 := (h + S1 e + Ch e f g + nthw K i + nthw W i) mod 2 ^ w in
      let t2 := (S0 a + Maj a b c) mod 2 ^ w in
      [(t1 + t2) mod 2 ^ w; a; b; c; (d + t1) mod 2 ^ w; e; f; g]
  | _ => st
  end.

Definition sha2_processblock (h buf : list Z) : list Z :=
  add_words w h (fold_left (sha2_step (sha2_W buf)) (seq 0 n) h).
End sha2.

(** ** sha256.c and sha224.c *)

(** Eight words of the table in a row of the source. *)
Definition row (r : Z) : list Z := map (λ i, Z.shiftr r (32 * Z.of_nat i) mod 2 ^ 32) (rev (seq 0 8)).
Definition K256 : list Z := Eval vm_compute in concat (map row [
  0x428a2f98_71374491_b5c0fbcf_e9b5dba5_3956c25b_59f111f1_923f82a4_ab1c5ed5;
  0xd807aa98_12835b01_243185be_550c7dc3_72be5d74_80deb1fe_9bdc06a7_c19bf174;
  0xe49b69c1_efbe4786_0fc19dc6_240ca1cc_2de92c6f_4a7484aa_5cb0a9dc_76f988da;
  0x983e5152_a831c66d_b00327c8_bf597fc7_c6e00bf3_d5a79147_06ca6351_14292967;
  0x27b70a85_2e1b2138_4d2c6dfc_53380d13_650a7354_766a0abb_81c2c92e_92722c85;
  0xa2bfe8a1_a81a664b_c24b8b70_c76c51a3_d192e819_d6990624_f40e3585_106aa070;
  0x19a4c116_1e376c08_2748774c_34b0bcb5_391c0cb3_4ed8aa4a_5b9cca4f_682e6ff3;
  0x748f82ee_78a5636f_84c87814_8cc70208_90befffa_a4506ceb_bef9a3f7_c67178f2
]).

Definition S0_256 (x : Z) : Z := Z.lxor (Z.lxor (ror 32 x 2) (ror 32 x 13)) (ror 32 x 22).
Definition S1_256 (x : Z) : Z := Z.lxor (Z.lxor (ror 32 x 6) (ror 32 x 11)) (ror 32 x 25).
Definition R0_256 (x : Z) : Z := Z.lxor (Z.lxor (ror 32 x 7) (ror 32 x 18)) (Z.shiftr x 3).
Definition R1_256 (x : Z) : Z := Z.lxor (Z.lxor (ror 32 x 17) (ror 32 x 19)) (Z.shiftr x 10).

Definition sha256_processblock : list Z → list Z → list Z :=
  sha2_processblock 32 4 64 K256 S0_256 S1_256 R0_256 R1_256.
Definition sha256_init : M digest_ctx unit :=
  init_with [0x6a09e667; 0xbb67ae85; 0x3c6ef372; 0xa54ff53a; 0x510e527f; 0x9b05688c; 0x1f83d9ab;
             0x5be0cd19].
Definition sha256_update : list Z → M digest_ctx unit := update 64 sha256_processblock.
Definition sha256_pad : M digest_ctx unit := pad 64 56 56 (be_bytes 8) sha256_processblock.
Definition sha256_sum_n (n : nat) : M digest_ctx (list Z) :=
  sha256_pad ;; s <- gets id ;; mret (flat_map (be_bytes 4) (take n (c_h s))).
Definition sha256_sum : M digest_ctx (list Z) := sha256_sum_n 8.

Definition sha224_init : M digest_ctx unit :=
  init_with [0xc1059ed8; 0x367cd507; 0x3070dd17; 0xf70e5939; 0xffc00b31; 0x68581511; 0x64f98fa7;
             0xbefa4fa4].
Definition sha224_sum : M digest_ctx (list Z) := sha256_sum_n 7.

(** ** sha512.c, sha384.c, sha512-224.c and sha512-256.c *)

Definition K512 : list Z := [
  0x428a2f98d728ae22; 0x7137449123ef65cd; 0xb5c0fbcfec4d3b2f; 0xe9b5dba58189dbbc;
  0x3956c25bf348b538; 0x59f111f1b605d019; 0x923f82a4af194f9b; 0xab1c5ed5da6d8118;
  0xd807aa98a3030242; 0x12835b0145706fbe; 0x243185be4ee4b28c; 0x550c7dc3d5ffb4e2;
  0x72be5d74f27b896f; 0x80deb1fe3b1696b1; 0x9bdc06a725c71235; 0xc19bf174cf692694;
  0xe49b69c19ef14ad2; 0xefbe4786384f25e3; 0x0fc19dc68b8cd5b5; 0x240ca1cc77ac9c65;
  0x2de92c6f592b0275; 0x4a7484aa6ea6e483; 0x5cb0a9dcbd41fbd4; 0x76f988da831153b5;
  0x983e5152ee66dfab; 0xa831c66d2db43210; 0xb00327c898fb213f; 0xbf597fc7beef0ee4;
  0xc6e00bf33da88fc2; 0xd5a79147930aa725; 0x06ca6351e003826f; 0x142929670a0e6e70;
  0x27b70a8546d22ffc; 0x2e1b21385c26c926; 0x4d2c6dfc5ac42aed; 0x53380d139d95b3df;
  0x650a73548baf63de; 0x766a0abb3c77b2a8; 0x81c2c92e47edaee6; 0x92722c851482353b;
  0xa2bfe8a14cf10364; 0xa81a664bbc423001; 0xc24b8b70d0f89791; 0xc76c51a30654be30;
  0xd192e819d6ef5218; 0xd69906245565a910; 0xf40e35855771202a; 0x106aa07032bbd1b8;
  0x19a4c116b8d2d0c8; 0x1e376c085141ab53; 0x2748774cdf8eeb99; 0x34b0bcb5e19b48a8;
  0x391c0cb3c5c95a63; 0x4ed8aa4ae3418acb; 0x5b9cca4f7763e373; 0x682e6ff3d6b2b8a3;
  0x748f82ee5defb2fc; 0x78a5636f43172f60; 0x84c87814a1f0ab72; 0x8cc702081a6439ec;
  0x90befffa23631e28; 0xa4506cebde82bde9; 0xbef9a3f7b2c67915; 0xc67178f2e372532b;
  0xca273eceea26619c; 0xd186b8c721c0c207; 0xeada7dd6cde0eb1e; 0xf57d4f7fee6ed178;
  0x06f067aa72176fba; 0x0a637dc5a2c898a6; 0x113f9804bef90dae; 0x1b710b35131c471b;
  0x28db77f523047d84; 0x32caab7b40c72493; 0x3c9ebe0a15c9bebc; 0x431d67c49c100d4c;
  0x4cc5d4becb3e42b6; 0x597f299cfc657e2a; 0x5fcb6fab3ad6faec; 0x6c44198c4a475817].

Definition S0_512 (x : Z) : Z := Z.lxor (Z.lxor (ror 64 x 28) (ror 64 x 34)) (ror 64 x 39).
Definition S1_512 (x : Z) : Z := Z.lxor (Z.lxor (ror 64 x 14) (ror 64 x 18)) (ror 64 x 41).
Definition R0_512 (x : Z) : Z := Z.lxor (Z.lxor (ror 64 x 1) (ror 64 x 8)) (Z.shiftr x 7).
Definition R1_512 (x : Z) : Z := Z.lxor (Z.lxor (ror 64 x 19) (ror 64 x 61)) (Z.shiftr x 6).

Definition sha512_processblock : list Z → list Z → list Z :=
  sha2_processblock 64 8 80 K512 S0_512 S1_512 R0_512 R1_512.
Definition sha512_update : list Z → M digest_ctx unit := update 128 sha512_processblock.
Definition sha512_pad : M digest_ctx unit := pad 128 112 120 (be_bytes 8) sha512_processblock.
Definition sha512_sum_n (n : nat) : M digest_ctx (list Z) :=
  sha512_pad ;; s <- gets id ;; mret (flat_map (be_bytes 8) (take n (c_h s))).
Definition sha512_sum : M digest_ctx (list Z) := sha512_sum_n 8.
Definition sha384_sum : M digest_ctx (list Z) := sha512_sum_n 6.
Definition sha512_224_sum : M digest_ctx (list Z) :=
  buf <- sha512_sum_n 4 ;; mret (take 28 buf).
Definition sha512_256_sum : M digest_ctx (list Z) := sha512_sum_n 4.

Definition sha512_init : M digest_ctx unit :=
  init_with [0x6a09e667f3bcc908; 0xbb67ae8584caa73b; 0x3c6ef372fe94f82b; 0xa54ff53a5f1d36f1;
             0x510e527fade682d1; 0x9b05688c2b3e6c1f; 0x1f83d9abfb41bd6b; 0x5be0cd19137e2179].
Definition sha384_init : M digest_ctx unit :=
  init_with [0xcbbb9d5dc1059ed8; 0x629a292a367cd507; 0x9159015a3070dd17; 0x152fecd8f70e5939;
             0x67332667ffc00b31; 0x8eb44a8768581511; 0xdb0c2e0d64f98fa7; 0x47b5481dbefa4fa4].
Definition sha512_224_init : M digest_ctx unit :=
  init_with [0x8c3d37c819544da2; 0x73e1996689dcd4d6; 0x1dfab7ae32ff9c82; 0x679dd514582f9fcf;
             0x0f6d2b697bd44da8; 0x77e36f7304c48942; 0x3f9d85a86a1d36c8; 0x1112e6ad91d692a1].
Definition sha512_256_init : M digest_ctx unit :=
  init_with [0x22312194fc2bf72c; 0x9f555fa3c84c64c2; 0x2393b86b6f53b151; 0x963877195940eabd;
             0x96283ee2a88effe3; 0xbe5e1e2553863992; 0x2b0199fc2c85b8aa; 0x0eb72ddc81c52ca2].

(** ** struct crypt_ops (crypt.h) and the tables of md5sum.c, sha1sum.c, ... *)

Record crypt_ops := mkOps {
  o_init : M digest_ctx unit;
  o_update : list Z → M digest_ctx unit;
  o_sum : M digest_ctx (list Z)
}.

Definition md5_ops : crypt_ops := mkOps md5_init md5_update md5_sum.
Definition sha1_ops : crypt_ops := mkOps sha1_init sha1_update sha1_sum.
Definition sha224_ops : crypt_ops := mkOps sha224_init sha256_update sha224_sum.
Definition sha256_ops : crypt_ops := mkOps sha256_init sha256_update sha256_sum.
Definition sha384_ops : crypt_ops := mkOps sha384_init sha512_update sha384_sum.
Definition sha512_ops : crypt_ops := mkOps sha512_init sha512_update sha512_sum.
Definition sha512_224_ops : crypt_ops := mkOps sha512_224_init sha512_update sha512_224_sum.
Definition sha512_256_ops : crypt_ops := mkOps sha512_256_init sha512_update sha512_256_sum.
