(* ===== verification/DigestFacts.v ===== *)
(** * The digests are those of the standards

    The reference definitions below follow RFC 1321, RFC 3174 and FIPS 180-4:
    the padded message, the message schedule as a recurrence, and the round
    function with its registers shifted one place a step.  The streaming code
    of Digest.v computes them, however the message is cut into updates. *)

From S2P Require Import Prelude Tcutil TcutilFacts Digest.

(** ** Streaming *)

Section stream_facts.
Context (B : nat) (process : list Z → list Z → list Z) (HB : B ≠ 0).

(** What remains after the whole blocks at the front of [m] are processed. *)
Fixpoint absorb_loop (fuel : nat) (h m : list Z) : list Z * list Z :=
  match fuel with
  | O => (h, m)
  | S fuel' =>
      if decide (B ≤ length m) then absorb_loop fuel' (process h (take B m)) (drop B m) else (h, m)
  end.
Definition absorb (h m : list Z) : list Z * list Z := absorb_loop (length m) h m.

Lemma absorb_fuel f1 f2 h m : length m ≤ f1 → length m ≤ f2 →
  absorb_loop f1 h m = absorb_loop f2 h m.
Proof using HB.
  revert f2 h m. induction f1 as [|f1 IH]; intros [|f2] h m H1 H2; simpl; try done.
  1,2: rewrite decide_False by lia; done.
  case_decide; [|done]. apply IH; rewrite length_drop; lia.
Qed.

Lemma absorb_unfold h m : absorb h m =
  if decide (B ≤ length m) then absorb (process h (take B m)) (drop B m) else (h, m).
Proof using HB.
  unfold absorb. destruct (length m) as [|n] eqn:E; simpl; [by rewrite decide_False by lia|].
  rewrite E. case_decide; [|done]. apply absorb_fuel; rewrite ?length_drop; lia.
Qed.

Lemma absorb_short h m : length m < B → absorb h m = (h, m).
Proof using HB. intros. rewrite absorb_unfold. by rewrite decide_False by lia. Qed.
Lemma absorb_block h m m' : length m = B → absorb h (m ++ m') = absorb (process h m) m'.
Proof using HB.
  intros. rewrite absorb_unfold, decide_True by (rewrite length_app; lia).
  by rewrite take_app_length', drop_app_length'.
Qed.

(** Processing can be resumed from what remains. *)
Lemma absorb_app h m m' : absorb h (m ++ m') = absorb (absorb h m).1 ((absorb h m).2 ++ m').
Proof using HB.
  remember (length m) as n eqn:E. revert h m E. induction n as [n IH] using lt_wf_ind. intros h m ->.
  destruct (decide (length m < B)) as [Hs|Hl]; [by rewrite (absorb_short h m)|].
  rewrite (absorb_unfold h m), decide_True by lia.
  rewrite <- (IH (length (drop B m))) by (rewrite ?length_drop; done || lia).
  rewrite <- (take_drop B m) at 1. rewrite <- app_assoc. apply absorb_block. rewrite length_take. lia.
Qed.

Lemma absorb_rest h m : length (absorb h m).2 = length m mod B ∧ length (absorb h m).2 < B.
Proof using HB.
  remember (length m) as n eqn:E. revert h m E. induction n as [n IH] using lt_wf_ind. intros h m ->.
  rewrite absorb_unfold. case_decide as Hl; simpl.
  - destruct (IH (length (drop B m)) ltac:(rewrite length_drop; lia) (process h (take B m)) (drop B m))
      as [-> ?]; [done|]. split; [|done]. rewrite length_drop.
    replace (length m) with (length m - B + 1 * B) at 2 by lia. by rewrite Nat.Div0.mod_add.
  - rewrite Nat.mod_small; lia.
Qed.

(** The context after the message [m]. *)
Record absorbed (h0 m : list Z) (s : digest_ctx) : Prop := {
  ab_len : c_len s = Z.of_nat (length m);
  ab_buf : length (c_buf s) = B;
  ab_h : c_h s = (absorb h0 m).1;
  ab_rest : take (length m mod B) (c_buf s) = (absorb h0 m).2
}.

Lemma copy_in_ok s r p : r + length p ≤ length (c_buf s) →
  copy_in r p s = Ok tt (set c_buf (λ b, take r b ++ p ++ drop (r + length p) b) s).
Proof.
  intros H. unfold copy_in, mbind, gets, memcpy, modify. simpl. by rewrite decide_True.
Qed.

Lemma copy_bind {A} s r p (k : unit → M digest_ctx A) : r + length p ≤ length (c_buf s) →
  (x <- copy_in r p ;; k x) s = k tt (set c_buf (λ b, take r b ++ p ++ drop (r + length p) b) s).
Proof. intros H. by rewrite (bind_run _ _ _ _ _ (copy_in_ok s r p H)). Qed.

Lemma block_loop_ok fuel p s : length p < fuel → length (c_buf s) = B →
  ∃ s', block_loop B process fuel p s = Ok tt s' ∧ c_len s' = c_len s ∧ length (c_buf s') = B ∧
    c_h s' = (absorb (c_h s) p).1 ∧ take (length (absorb (c_h s) p).2) (c_buf s') = (absorb (c_h s) p).2.
Proof using HB.
  revert p s. induction fuel as [|fuel IH]; intros p s Hf Hb; [lia|]. simpl.
  rewrite absorb_unfold. case_decide as Hl.
  - unfold compress. rewrite (bind_run _ _ s tt (set c_h (λ h, process h (take B p)) s)) by done.
    destruct (IH (drop B p) (set c_h (λ h, process h (take B p)) s)) as (s' & ? & ? & ? & ? & ?);
      [rewrite length_drop; lia|done|]. by exists s'.
  - rewrite copy_in_ok by lia. eexists. split_and!; [done|done| |done|].
    + simpl. rewrite !length_app, length_drop. simpl. lia.
    + simpl. apply take_app_length.
Qed.

Lemma remainder_len n : Z.to_nat (Z.of_nat n mod Z.of_nat B) = n mod B.
Proof. rewrite <- Nat2Z.inj_mod. lia. Qed.

Lemma update_ok h0 m m' s : absorbed h0 m s → (Z.of_nat (length (m ++ m')) < 2 ^ 64)%Z →
  ∃ s', update B process m' s = Ok tt s' ∧ absorbed h0 (m ++ m') s'.
Proof using HB.
  intros [Hl Hb Hh Hr] Hmax. pose proof (absorb_rest h0 m) as [Hrl Hrb].
  unfold update. rewrite (bind_run _ _ s s s) by done. cbv beta zeta.
  rewrite Hl, remainder_len. set (r := length m mod B) in *.
  set (s1 := set c_len (λ l, ((l + Z.of_nat (length m')) mod 2 ^ 64)%Z) s).
  rewrite (bind_run _ _ s tt s1) by done.
  assert (Hl1 : c_len s1 = Z.of_nat (length (m ++ m'))).
  { simpl. rewrite Hl, length_app in *. rewrite Z.mod_small; lia. }
  pose proof (absorb_app h0 m m') as Happ. pose proof (absorb_rest h0 (m ++ m')) as [Hrl' Hrb'].
  case_decide as Hr0; [|case_decide as Hsh].
  - assert ((absorb h0 m).2 = []) as E by (apply length_zero_iff_nil; lia).
    rewrite E, <- Hh in Happ. simpl in Happ.
    destruct (block_loop_ok (S (length m')) m' s1) as (s' & Hrun & H1 & H2 & H3 & H4); [lia|done|].
    exists s'. split; [done|]. simpl in H3, H4. split; [congruence|done|congruence|].
    by rewrite <- Hrl', Happ.
  - rewrite copy_in_ok by (simpl; lia). eexists. split; [done|].
    assert (Hshort : length ((absorb h0 m).2 ++ m') < B) by (rewrite length_app; lia).
    rewrite (absorb_short _ ((absorb h0 m).2 ++ m')) in Happ by done. split; [done| | |].
    + simpl. rewrite !length_app, length_take, length_drop. lia.
    + simpl. by rewrite Happ, Hh.
    + rewrite <- Hrl', Happ. simpl. rewrite Hr, app_assoc. apply take_app_length.
  - rewrite copy_bind by (simpl; rewrite length_take; lia).
    set (s2 := set c_buf _ s1).
    assert (Hbuf2 : c_buf s2 = (absorb h0 m).2 ++ take (B - r) m').
    { simpl. rewrite Hr. rewrite (drop_ge (c_buf s)) by (rewrite length_take; lia).
      by rewrite app_nil_r. }
    assert (Hlb2 : length (c_buf s2) = B) by (rewrite Hbuf2, length_app, length_take; lia).
    rewrite (bind_run _ _ s2 tt (set c_h (λ h, process h (c_buf s2)) s2)) by done.
    set (s3 := set c_h _ s2).
    destruct (block_loop_ok (S (length m')) (drop (B - r) m') s3) as (s' & Hrun & H1 & H2 & H3 & H4);
      [rewrite length_drop; lia|done|].
    exists s'. split; [done|].
    assert (Hcat : (absorb h0 m).2 ++ m' = c_buf s2 ++ drop (B - r) m')
      by (by rewrite Hbuf2, <- app_assoc, take_drop).
    rewrite Hcat, (absorb_block _ (c_buf s2)) in Happ by done.
    assert (c_h s3 = process (absorb h0 m).1 (c_buf s2)) as E by (simpl; by rewrite Hh).
    rewrite E in H3, H4.
    split; [rewrite H1; exact Hl1|done|congruence|]. by rewrite <- Hrl', Happ.
Qed.

Lemma absorb_reshape n h p : length p = n * B →
  absorb h p = (fold_left process (reshape (replicate n B) p) h, []).
Proof using HB.
  revert h p. induction n as [|n IH]; intros h p Hp.
  { destruct p; [|simpl in Hp; lia]. by rewrite absorb_short by (simpl; lia). }
  rewrite absorb_unfold, decide_True by lia. simpl. rewrite IH; [done|]. rewrite length_drop. lia.
Qed.

(** A client that feeds a message in pieces. *)
Definition updates (ms : list (list Z)) : M digest_ctx unit := mforeach (update B process) ms.

Lemma updates_ok h0 m ms s : absorbed h0 m s → (Z.of_nat (length (m ++ concat ms)) < 2 ^ 64)%Z →
  ∃ s', updates ms s = Ok tt s' ∧ absorbed h0 (m ++ concat ms) s'.
Proof using HB.
  revert m s. induction ms as [|m' ms IH]; intros m s Hs Hn; simpl in *.
  { exists s. by rewrite app_nil_r. }
  rewrite !length_app in Hn.
  destruct (update_ok h0 m m' s) as (s1 & H1 & Hs1); [done|rewrite length_app; lia|].
  destruct (IH (m ++ m') s1) as (s2 & H2 & Hs2); [done|rewrite !length_app; lia|].
  exists s2. rewrite (bind_run _ _ s tt s1) by done. by rewrite app_assoc.
Qed.

(** ** Padding *)

Context (L LP : nat) (len_bytes : Z → list Z).

(** The padding of the standards: a one bit, zeros up to the length field, and
    the length in bits. *)
Definition padding (n : nat) : list Z :=
  [0x80%Z] ++ replicate (Z.to_nat ((Z.of_nat L - 1 - Z.of_nat n) mod Z.of_nat B)) 0%Z ++
  replicate (LP - L) 0%Z ++ len_bytes (8 * Z.of_nat n)%Z.

Context (HL : 0 < L) (HLP : L ≤ LP) (HLB : LP + 8 = B) (Hlen8 : ∀ x, length (len_bytes x) = 8).

Lemma zeros_fit n r : r = n mod B → r < L →
  Z.to_nat ((Z.of_nat L - 1 - Z.of_nat n) mod Z.of_nat B) = L - 1 - r.
Proof using HB HL HLP HLB.
  intros Hr Hlt. pose proof (Nat.div_mod_eq n B).
  replace (Z.of_nat L - 1 - Z.of_nat n)%Z
    with (Z.of_nat (L - 1 - r) + - Z.of_nat (n / B) * Z.of_nat B)%Z by lia.
  rewrite Z.mod_add, Z.mod_small by lia. lia.
Qed.
Lemma zeros_wrap n r : r = n mod B → L ≤ r →
  Z.to_nat ((Z.of_nat L - 1 - Z.of_nat n) mod Z.of_nat B) = B - 1 - r + L.
Proof using HB HL HLP HLB.
  intros Hr Hge. pose proof (Nat.div_mod_eq n B). pose proof (Nat.mod_upper_bound n B HB).
  replace (Z.of_nat L - 1 - Z.of_nat n)%Z
    with (Z.of_nat (B - 1 - r + L) + - Z.of_nat (n / B + 1) * Z.of_nat B)%Z by lia.
  rewrite Z.mod_add, Z.mod_small by lia. lia.
Qed.

(** The end of [pad]: zeros, the length and the last block, [front] already in
    the buffer. *)
Lemma pad_tail h front n (s : digest_ctx) :
  c_h s = h → length (c_buf s) = B → take (length front) (c_buf s) = front →
  length front ≤ L → c_len s = Z.of_nat n → (Z.of_nat n < 2 ^ 61)%Z →
  ∃ s', (copy_in (length front) (replicate (LP - length front) 0%Z) ;;
    modify (set c_len (λ l, (l * 8) mod 2 ^ 64)%Z) ;;
    s <- gets id ;; copy_in LP (len_bytes (c_len s)) ;; compress_buf process) s = Ok tt s' ∧
  c_h s' = process h (front ++ replicate (LP - length front) 0%Z ++ len_bytes (8 * Z.of_nat n)%Z) ∧
  length (c_buf s') = B.
Proof using HB HL HLP HLB Hlen8.
  intros Hh Hb Hf Hle Hl Hn.
  rewrite copy_bind by (rewrite length_replicate; lia).
  set (s1 := set c_buf _ s).
  rewrite (bind_run _ _ s1 tt (set c_len (λ l, (l * 8) mod 2 ^ 64)%Z s1)) by done.
  set (s2 := set c_len _ s1). rewrite (bind_run _ _ s2 s2 s2) by done. cbv beta.
  assert (Hb1 : c_buf s2 = (front ++ replicate (LP - length front) 0%Z) ++ drop LP (c_buf s)).
  { simpl. rewrite Hf, length_replicate, app_assoc. do 2 f_equal. lia. }
  assert (Hl2 : c_len s2 = (8 * Z.of_nat n)%Z) by (simpl; rewrite Hl, Z.mod_small; lia).
  assert (Hfl : length (front ++ replicate (LP - length front) 0%Z) = LP)
    by (rewrite length_app, length_replicate; lia).
  rewrite copy_bind by (rewrite Hb1, length_app, Hfl, length_drop, Hlen8; lia).
  set (s3 := set c_buf _ s2). exists (set c_h (λ h, process h (c_buf s3)) s3). split; [done|].
  assert (Hb3 : c_buf s3 = front ++ replicate (LP - length front) 0%Z ++ len_bytes (8 * Z.of_nat n)%Z).
  2: { split; [change (process (c_h s) (c_buf s3) = process h (front ++ replicate (LP - length front) 0%Z ++
         len_bytes (8 * Z.of_nat n)%Z)); by rewrite Hh, Hb3|].
       change (length (c_buf s3) = B). rewrite Hb3, app_assoc, length_app, Hfl, Hlen8. done. }
  change (c_buf s3) with (take LP (c_buf s2) ++ len_bytes (c_len s2) ++
    drop (LP + length (len_bytes (c_len s2))) (c_buf s2)).
  rewrite Hl2, Hb1, take_app_length', Hlen8, (drop_ge _ (LP + 8)) by
    (rewrite ?length_app, ?length_replicate, ?length_drop; simpl; lia).
  by rewrite app_nil_r, <- app_assoc.
Qed.

Lemma pad_ok h0 m s : absorbed h0 m s → (Z.of_nat (length m) < 2 ^ 61)%Z → ∃ s',
  pad B L LP len_bytes process s = Ok tt s' ∧ absorb h0 (m ++ padding (length m)) = (c_h s', []) ∧
  length (c_buf s') = B.
Proof using HB HL HLP HLB Hlen8.
  intros [Hl Hb Hh Hr] Hn. pose proof (absorb_rest h0 m) as [Hrl Hrb].
  unfold pad. rewrite (bind_run _ _ s s s) by done. cbv beta zeta. rewrite Hl, remainder_len.
  set (r := length m mod B) in *. set (rest := (absorb h0 m).2) in *.
  rewrite copy_bind by (simpl; lia). set (s1 := set c_buf _ s).
  assert (Hb1 : length (c_buf s1) = B)
    by (simpl; rewrite !length_app, length_take; simpl; rewrite length_drop; lia).
  assert (Hf1 : take (r + 1) (c_buf s1) = rest ++ [0x80%Z]).
  { assert (c_buf s1 = (rest ++ [0x80%Z]) ++ drop (r + 1) (c_buf s)) as ->
      by (simpl; by rewrite Hr, <- app_assoc).
    rewrite take_app_length'; [done|]. rewrite length_app. simpl. lia. }
  rewrite absorb_app. fold rest. rewrite <- Hh. unfold padding.
  case_decide as Hwrap.
  - rewrite (zeros_wrap _ r) by (done || lia).
    set (full := rest ++ [0x80%Z] ++ replicate (B - (r + 1)) 0%Z).
    assert (Hfull : take (r + 1) (c_buf s1) ++ replicate (B - (r + 1)) 0%Z ++
      drop (r + 1 + length (replicate (B - (r + 1)) 0%Z)) (c_buf s1) = full)
      by (rewrite Hf1, length_replicate, (drop_ge (c_buf s1)), app_nil_r, <- app_assoc by lia; done).
    set (s2 := mkCtx (c_len s1) (process (c_h s1) full) full).
    rewrite (bind_run _ _ s1 0 s2).
    2: { rewrite copy_bind by (rewrite length_replicate; lia).
         unfold compress_buf, compress, mbind, gets, modify, set, set_field, id. cbn [c_buf c_h c_len].
         by rewrite Hfull. }
    destruct (pad_tail (c_h s2) [] (length m) s2) as (s' & Hrun & Hc & Hcb); try done.
    { unfold s2, full. cbn [c_buf]. rewrite !length_app, length_replicate. simpl. lia. }
    { simpl. lia. }
    exists s'. split; [exact Hrun|]. split; [|done]. rewrite Hc.
    replace (B - 1 - r + L) with (B - (r + 1) + L) by lia. rewrite replicate_add, <- !app_assoc.
    rewrite (app_assoc [_]), (app_assoc rest), absorb_block
      by (rewrite !length_app, length_replicate; simpl; lia).
    rewrite (app_assoc (replicate L _)), <- replicate_add.
    replace (L + (LP - L)) with (LP - 0) by lia.
    rewrite <- (app_nil_r (replicate _ _ ++ _)), absorb_block, absorb_short
      by (rewrite ?length_app, ?length_replicate, ?Hlen8; simpl; lia). done.
  - rewrite (zeros_fit _ r) by (done || lia). rewrite (bind_run _ _ s1 (r + 1) s1) by done.
    assert (Hfl : length (rest ++ [0x80%Z]) = r + 1) by (rewrite length_app; simpl; lia).
    destruct (pad_tail (c_h s) (rest ++ [0x80%Z]) (length m) s1) as (s' & Hrun & Hc & Hcb); try done.
    { by rewrite Hfl. }
    { lia. }
    rewrite Hfl in Hrun, Hc. exists s'. split; [exact Hrun|]. split; [|done]. rewrite Hc.
    rewrite (app_assoc (replicate _ _) (replicate _ _)), <- replicate_add.
    replace (L - 1 - r + (LP - L)) with (LP - (r + 1)) by lia.
    rewrite (app_assoc rest). rewrite <- (app_nil_r (_ ++ replicate _ _ ++ _)).
    rewrite absorb_block, absorb_short
      by (rewrite ?(length_app (rest ++ _)), ?Hfl, ?length_app, ?length_replicate, ?Hlen8; simpl; lia).
    by rewrite app_nil_r.
Qed.

(** The digest of the standards: the padded message in blocks, folded. *)
Definition reference (h0 m : list Z) : list Z :=
  let p := m ++ padding (length m) in
  fold_left process (reshape (replicate (length p / B) B) p) h0.

(** Whatever the pieces, the state after the padding is the reference digest. *)
Lemma stream_correct h0 ms s : length (c_buf s) = B → (Z.of_nat (length (concat ms)) < 2 ^ 61)%Z →
  ∃ s', (init_with h0 ;; updates ms ;; pad B L LP len_bytes process) s = Ok tt s' ∧
    c_h s' = reference h0 (concat ms) ∧ length (c_buf s') = B.
Proof using HB HL HLP HLB Hlen8.
  intros Hb Hn. set (s1 := mkCtx 0 h0 (c_buf s)).
  destruct (updates_ok h0 [] ms s1) as (s2 & H2 & Hs2).
  - split; [done|done|by rewrite absorb_short by (simpl; lia)|].
    rewrite absorb_short by (simpl; lia). cbn [length]. by rewrite Nat.Div0.mod_0_l.
  - simpl. lia.
  - destruct (pad_ok h0 (concat ms) s2 Hs2 Hn) as (s3 & H3 & Habs & Hb3).
    exists s3. split; [|split; [|done]].
    { rewrite (bind_run _ _ s tt s1) by done. by rewrite (bind_run _ _ s1 tt s2). }
    unfold reference. set (p := concat ms ++ padding (length (concat ms))) in *.
    pose proof (absorb_rest h0 p) as [Hrest _]. rewrite Habs in Hrest. simpl in Hrest.
    rewrite (absorb_reshape (length p / B)) in Habs by (pose proof (Nat.div_mod_eq (length p) B); lia).
    by injection Habs.
Qed.
End stream_facts.

(** ** The Boolean functions of the standards *)

Local Open Scope Z_scope.

(** FIPS 180-4, 4.1: Ch, Parity and Maj; RFC 1321: F, G, H and I *)
Definition fips_Ch (x y z : Z) : Z := Z.lxor (Z.land x y) (Z.land (Z.lnot x) z).
Definition fips_Parity (x y z : Z) : Z := Z.lxor (Z.lxor x y) z.
Definition fips_Maj (x y z : Z) : Z := Z.lxor (Z.lxor (Z.land x y) (Z.land x z)) (Z.land y z).
Definition rfc_F (x y z : Z) : Z := Z.lor (Z.land x y) (Z.land (Z.lnot x) z).
Definition rfc_G (x y z : Z) : Z := Z.lor (Z.land x z) (Z.land y (Z.lnot z)).

(** Equality of bitwise expressions, bit by bit. *)
Ltac bitwise :=
  apply Z.bits_inj'; intros n Hn;
  rewrite ?Z.lxor_spec, ?Z.land_spec, ?Z.lor_spec, ?Z.land_spec, ?Z.lxor_spec, ?Z.lor_spec,
    ?Z.lnot_spec by done;
  repeat match goal with |- context [Z.testbit ?a n] => destruct (Z.testbit a n) end; reflexivity.

Lemma Ch_fips x y z : Ch x y z = fips_Ch x y z.
Proof. unfold Ch, fips_Ch. bitwise. Qed.
Lemma Maj_fips x y z : Maj x y z = fips_Maj x y z.
Proof. unfold Maj, fips_Maj. bitwise. Qed.
Lemma F0_fips x y z : F0 x y z = fips_Ch x y z.
Proof. unfold F0, fips_Ch. bitwise. Qed.
Lemma F2_fips x y z : F2 x y z = fips_Maj x y z.
Proof. unfold F2, fips_Maj. bitwise. Qed.
Lemma md5_F_rfc x y z : md5_F x y z = rfc_F x y z.
Proof. unfold md5_F, rfc_F. bitwise. Qed.
Lemma md5_G_rfc x y z : md5_G x y z = rfc_G x y z.
Proof. unfold md5_G, rfc_G. bitwise. Qed.

(** ** Message schedules *)

(** The first words are those of the block, every later one is computed from
    earlier ones.  The recurrence, with enough budget to reach the first
    words. *)
Section schedule.
Context (first : list Z) (next : (nat → Z) → nat → Z).

Fixpoint recurrence (fuel t : nat) : Z :=
  match fuel with
  | O => 0
  | S fuel' => if decide (t < 16)%nat then nthw first t else next (recurrence fuel') t
  end.

Definition extend (W : list Z) (i : nat) : list Z := W ++ [next (nthw W) i].

Context (Hfirst : length first = 16%nat)
  (Hnext : ∀ f g t, (∀ i, (i < t)%nat → f i = g i) → (16 ≤ t)%nat → next f t = next g t).

Lemma recurrence_fuel f1 f2 t : (t < f1)%nat → (t < f2)%nat → recurrence f1 t = recurrence f2 t.
Proof using Hfirst Hnext.
  revert f2 t. induction f1 as [|f1 IH]; intros [|f2] t H1 H2; try lia. simpl.
  case_decide; [done|]. apply Hnext; [|lia]. intros i Hi. apply IH; lia.
Qed.

Lemma extend_all k : length (fold_left extend (seq 16 k) first) = (16 + k)%nat ∧
  ∀ t, (t < 16 + k)%nat → nthw (fold_left extend (seq 16 k) first) t = recurrence (S t) t.
Proof using Hfirst Hnext.
  induction k as [|k [IHl IH]].
  { simpl. split; [lia|]. intros t Ht. simpl. by rewrite decide_True by lia. }
  rewrite seq_S, fold_left_app. cbn [fold_left]. set (W := fold_left extend (seq 16 k) first) in *.
  unfold extend at 1 2. split; [rewrite length_app; simpl; lia|]. intros t Ht. unfold nthw.
  destruct (decide (t < 16 + k)%nat) as [Hlt|Hge].
  - rewrite app_nth1 by lia. by apply IH.
  - assert (t = 16 + k)%nat as -> by lia. rewrite app_nth2, IHl, Nat.sub_diag by lia.
    cbn [nth recurrence]. rewrite decide_False by lia. apply Hnext; [|lia].
    intros i Hi. rewrite (recurrence_fuel _ (S i)) by lia. by apply IH.
Qed.
End schedule.

(** ** SHA-2 *)

Section sha2_reference.
Context (w : Z) (wb n : nat) (K : list Z) (S0 S1 R0 R1 : Z → Z).

Definition fips_next (f : nat → Z) (t : nat) : Z :=
  (R1 (f (t - 2)%nat) + f (t - 7)%nat + R0 (f (t - 15)%nat) + f (t - 16)%nat) mod 2 ^ w.
Definition fips_W (buf : list Z) (t : nat) : Z :=
  recurrence (map (word_at be_word wb buf) (seq 0 16)) fips_next (S t) t.

Definition fips_step (buf : list Z) (st : list Z) (t : nat) : list Z :=
  match st with
  | [a; b; c; d; e; f; g; h] =>
      let T1 := (h + S1 e + fips_Ch e f g + nthw K t + fips_W buf t) mod 2 ^ w in
      let T2 := (S0 a + fips_Maj a b c) mod 2 ^ w in
      [(T1 + T2) mod 2 ^ w; a; b; c; (d + T1) mod 2 ^ w; e; f; g]
  | _ => st
  end.
Definition fips_compress (h buf : list Z) : list Z :=
  add_words w h (fold_left (fips_step buf) (seq 0 n) h).

Lemma sha2_compress h buf : (16 ≤ n)%nat →
  sha2_processblock w wb n K S0 S1 R0 R1 h buf = fips_compress h buf.
Proof.
  intros Hn. unfold sha2_processblock, fips_compress. f_equal.
  destruct (extend_all (map (word_at be_word wb buf) (seq 0 16)) fips_next) with (k := (n - 16)%nat)
    as [_ HW]; [by rewrite length_map, length_seq| |].
  { intros f g t Hfg Ht. unfold fips_next. by rewrite !Hfg by lia. }
  assert (Hstep : ∀ st t, (t < n)%nat →
    sha2_step w K S0 S1 (sha2_W w wb n R0 R1 buf) st t = fips_step buf st t).
  { intros st t Ht. unfold sha2_step, fips_step, fips_W. rewrite <- HW by lia.
    destruct st as [|a [|b [|c [|d [|e [|f [|g [|h0 [|]]]]]]]]]; try done.
    by rewrite Ch_fips, Maj_fips. }
  assert (Hall : Forall (λ t, (t < n)%nat) (seq 0 n)) by (apply Forall_seq; lia).
  revert Hall. generalize (seq 0 n). intros l Hl. revert h.
  induction Hl as [|t l Ht _ IH]; intros h; [done|]. simpl. rewrite Hstep by done. apply IH.
Qed.
End sha2_reference.

(** ** SHA-1 *)

Definition sha1_next (f : nat → Z) (t : nat) : Z :=
  rol 32 (Z.lxor (Z.lxor (Z.lxor (f (t - 3)%nat) (f (t - 8)%nat)) (f (t - 14)%nat)) (f (t - 16)%nat)) 1.
Definition rfc3174_W (buf : list Z) (t : nat) : Z :=
  recurrence (map (word_at be_word 4 buf) (seq 0 16)) sha1_next (S t) t.

Definition sha1_f (t : nat) : Z → Z → Z → Z :=
  if decide (t < 20)%nat then fips_Ch else if decide (t < 40)%nat then fips_Parity
  else if decide (t < 60)%nat then fips_Maj else fips_Parity.
Definition sha1_K (t : nat) : Z :=
  if decide (t < 20)%nat then 0x5A827999 else if decide (t < 40)%nat then 0x6ED9EBA1
  else if decide (t < 60)%nat then 0x8F1BBCDC else 0xCA62C1D6.

(** One step, the registers shifted by one. *)
Definition sha1_step (f : Z → Z → Z → Z) (k wt : Z) (st : Z * Z * Z * Z * Z) : Z * Z * Z * Z * Z :=
  let '(a, b, c, d, e) := st in (u32 (rol 32 a 5 + f b c d + e + wt + k), a, rol 32 b 30, c, d).
Definition rfc3174_compress (h buf : list Z) : list Z :=
  let '(a, b, c, d, e) :=
    fold_left (λ st t, sha1_step (sha1_f t) (sha1_K t) (rfc3174_W buf t) st) (seq 0 80)
      (nthw h 0, nthw h 1, nthw h 2, nthw h 3, nthw h 4) in
  add_words 32 h [a; b; c; d; e].

(** The five unrolled steps rename the registers instead of moving them. *)
Lemma sha1_five_steps f k W st i : sha1_five f k W st i =
  fold_left (λ st t, sha1_step f k (nthw W t) st) [i; i + 1; i + 2; i + 3; i + 4]%nat st.
Proof.
  destruct st as [[[[a b] c] d] e].
  assert (HG : ∀ a b c d e x, sha1_G f k a b c d e x = (u32 (rol 32 a 5 + f b c d + e + x + k), rol 32 b 30)).
  { intros. unfold sha1_G. do 2 f_equal. lia. }
  unfold sha1_five. rewrite !HG. reflexivity.
Qed.

Lemma sha1_round_steps f g k W st from buf :
  (∀ x y z, f x y z = g x y z) → (∀ t, (from ≤ t < from + 20)%nat → nthw W t = rfc3174_W buf t ∧
    sha1_f t = g ∧ sha1_K t = k) →
  sha1_round f k W st from =
  fold_left (λ st t, sha1_step (sha1_f t) (sha1_K t) (rfc3174_W buf t) st) (seq from 20) st.
Proof.
  intros Hf Ht. unfold sha1_round. cbn [fold_left]. rewrite !sha1_five_steps, <- !fold_left_app.
  match goal with |- fold_left _ ?l st = _ => replace l with (seq from 20)
    by (cbn [seq app]; repeat apply (f_equal2 cons); lia || reflexivity) end.
  assert (Hall : Forall (λ t, (from ≤ t < from + 20)%nat) (seq from 20))
    by (apply Forall_seq; lia).
  revert Hall st. generalize (seq from 20). intros l Hall.
  induction Hall as [|t l Hin _ IH]; intros st; [done|]. cbn [fold_left].
  destruct (Ht t Hin) as (HW & HF & HK). rewrite <- IH, HW, HF, HK. f_equal.
  destruct st as [[[[a b] c] d] e]. unfold sha1_step. by rewrite Hf.
Qed.

Ltac sha1_phase :=
  intros; unfold sha1_f, sha1_K; split; repeat (rewrite decide_False by lia);
  try rewrite decide_True by lia; done.

Lemma sha1_compress h buf : sha1_processblock h buf = rfc3174_compress h buf.
Proof.
  assert (HW : ∀ t, (t < 80)%nat → nthw (sha1_W buf) t = rfc3174_W buf t).
  { apply (extend_all (map (word_at be_word 4 buf) (seq 0 16)) sha1_next) with (k := 64%nat).
    - by rewrite length_map, length_seq.
    - intros f g t Hfg Ht. unfold sha1_next. by rewrite !Hfg by lia. }
  assert (Hround : ∀ f g k st from, (∀ x y z, f x y z = g x y z) → (from + 20 ≤ 80)%nat →
    (∀ t, (from ≤ t < from + 20)%nat → sha1_f t = g ∧ sha1_K t = k) →
    sha1_round f k (sha1_W buf) st from =
    fold_left (λ st t, sha1_step (sha1_f t) (sha1_K t) (rfc3174_W buf t) st) (seq from 20) st).
  { intros f g k st from Hf Hle Ht. apply (sha1_round_steps f g); [done|].
    intros t Hin. split; [apply HW; lia|by apply Ht]. }
  unfold sha1_processblock, rfc3174_compress. cbv zeta.
  rewrite (Hround F0 fips_Ch); [|exact F0_fips|lia|sha1_phase].
  rewrite (Hround F1 fips_Parity); [|done|lia|sha1_phase].
  rewrite (Hround F2 fips_Maj); [|exact F2_fips|lia|sha1_phase].
  rewrite (Hround F1 fips_Parity); [|done|lia|sha1_phase].
  rewrite <- !fold_left_app. reflexivity.
Qed.

(** ** MD5 *)

(** The four rounds: function, index of the word, shifts. *)
Definition md5_rounds (t : nat) : (Z → Z → Z → Z) * nat * (Z * Z * Z * Z) :=
  if decide (t < 16)%nat then (rfc_F, t, (7, 12, 17, 22))
  else if decide (t < 32)%nat then (rfc_G, ((5 * t + 1) mod 16)%nat, (5, 9, 14, 20))
  else if decide (t < 48)%nat then (md5_H, ((3 * t + 5) mod 16)%nat, (4, 11, 16, 23))
  else (md5_I, ((7 * t) mod 16)%nat, (6, 10, 15, 21)).

Definition md5_shift (t : nat) (sh : Z * Z * Z * Z) : Z :=
  let '(s0, s1, s2, s3) := sh in nth (t mod 4) [s0; s1; s2; s3] 0.

(** One step, the registers shifted by one. *)
Definition md5_step (f : Z → Z → Z → Z) (s x t : Z) (st : Z * Z * Z * Z) : Z * Z * Z * Z :=
  let '(a, b, c, d) := st in (d, u32 (b + rol 32 (u32 (a + f b c d + x + t)) s), b, c).
Definition rfc1321_step (W : list Z) (st : Z * Z * Z * Z) (t : nat) : Z * Z * Z * Z :=
  let '(f, ix, sh) := md5_rounds t in md5_step f (md5_shift t sh) (nthw W ix) (nthw md5_tab t) st.
Definition rfc1321_compress (h buf : list Z) : list Z :=
  let '(a, b, c, d) :=
    fold_left (rfc1321_step (map (word_at le_word 4 buf) (seq 0 16))) (seq 0 64)
      (nthw h 0, nthw h 1, nthw h 2, nthw h 3) in
  add_words 32 h [a; b; c; d].

Lemma md5_four_steps f g s0 s1 s2 s3 ix W st i : (∀ x y z, f x y z = g x y z) →
  md5_four f (s0, s1, s2, s3) ix W st i =
  md5_step g s3 (nthw W (ix (S (S (S i))))) (nthw md5_tab (S (S (S i))))
    (md5_step g s2 (nthw W (ix (S (S i)))) (nthw md5_tab (S (S i)))
      (md5_step g s1 (nthw W (ix (S i))) (nthw md5_tab (S i))
        (md5_step g s0 (nthw W (ix i)) (nthw md5_tab i) st))).
Proof.
  intros Hf. destruct st as [[[a b] c] d].
  assert (Hop : ∀ a b c d x s t, md5_op f a b c d x s t = u32 (b + rol 32 (u32 (a + g b c d + x + t)) s)).
  { intros. unfold md5_op. rewrite Hf, Z.add_comm. do 3 f_equal. f_equal. lia. }
  unfold md5_four. cbv zeta. rewrite !Hop. reflexivity.
Qed.

Lemma md5_round_steps f g s0 s1 s2 s3 ix W st from :
  (∀ x y z, f x y z = g x y z) → (from mod 4 = 0)%nat →
  (∀ t, (from ≤ t < from + 16)%nat → md5_rounds t = (g, ix t, (s0, s1, s2, s3))) →
  md5_round f (s0, s1, s2, s3) ix W st from = fold_left (rfc1321_step W) (seq from 16) st.
Proof.
  intros Hf H4 Hr. unfold md5_round. cbn [fold_left seq].
  assert (Hfour : ∀ k st, (k < 4)%nat → md5_four f (s0, s1, s2, s3) ix W st (from + 4 * k) =
    fold_left (rfc1321_step W) (seq (from + 4 * k) 4) st).
  { intros k st' Hk. rewrite (md5_four_steps f g) by done. cbn [seq fold_left].
    unfold rfc1321_step. rewrite !Hr by lia.
    assert (Hm : ∀ j, (j < 4)%nat → ((from + 4 * k + j) mod 4 = j)%nat).
    { intros j Hj. rewrite (Nat.mul_comm 4 k), <- Nat.Div0.add_mod_idemp_l, Nat.Div0.mod_add, H4.
      rewrite Nat.mod_small; lia. }
    pose proof (Hm 0%nat) as M0. pose proof (Hm 1%nat) as M1. pose proof (Hm 2%nat) as M2.
    pose proof (Hm 3%nat) as M3. rewrite ?Nat.add_0_r, ?Nat.add_succ_r, ?Nat.add_0_r in *.
    unfold md5_shift. by rewrite M0, M1, M2, M3 by lia. }
  pose proof (Hfour 0%nat) as F0'. pose proof (Hfour 1%nat) as F1'. pose proof (Hfour 2%nat) as F2'.
  pose proof (Hfour 3%nat) as F3'. cbn [Nat.mul Nat.add] in *. rewrite Nat.add_0_r in F0'.
  rewrite F0', F1', F2', F3' by lia. rewrite <- !fold_left_app.
  replace (seq (from + 4) 4) with (seq (S (S (S (S from)))) 4) by (f_equal; lia).
  replace (seq (from + 8) 4) with (seq (S (S (S (S (S (S (S (S from)))))))) 4) by (f_equal; lia).
  replace (seq (from + 12) 4) with (seq (S (S (S (S (S (S (S (S (S (S (S (S from)))))))))))) 4) by (f_equal; lia).
  reflexivity.
Qed.

Lemma md5_compress h buf : md5_processblock h buf = rfc1321_compress h buf.
Proof.
  unfold md5_processblock, rfc1321_compress. cbv zeta.
  rewrite (md5_round_steps md5_F rfc_F) by (done || apply md5_F_rfc || (intros; unfold md5_rounds; by rewrite decide_True by lia)).
  rewrite (md5_round_steps md5_G rfc_G) by (done || apply md5_G_rfc ||
    (intros; unfold md5_rounds; rewrite decide_False by lia; by rewrite decide_True by lia)).
  rewrite (md5_round_steps md5_H md5_H) by (done ||
    (intros; unfold md5_rounds; rewrite !decide_False by lia; by rewrite decide_True by lia)).
  rewrite (md5_round_steps md5_I md5_I) by (done || (intros; unfold md5_rounds; by rewrite !decide_False by lia)).
  rewrite <- !fold_left_app. reflexivity.
Qed.

(** ** Digests as an interface *)

(** What a user of [struct crypt_ops] relies on: a context with a buffer of [block]
    bytes, used for one message after the other, gives the [sz] bytes [ref]
    of the message, in whatever pieces it comes. *)
Class Digest (ops : crypt_ops) (block sz : nat) (ref : list Z → list Z) : Prop := {
  digest_run ms s : length (c_buf s) = block → Z.of_nat (length (concat ms)) < 2 ^ 61 →
    ∃ s', (o_init ops ;; mforeach (o_update ops) ms ;; o_sum ops) s = Ok (ref (concat ms)) s' ∧
      length (c_buf s') = block;
  digest_length m : length (ref m) = sz;
  digest_bytes m : Forall (λ b, 0 ≤ b < 256) (ref m)
}.

Lemma length_be_bytes n x : length (be_bytes n x) = n.
Proof. unfold be_bytes. by rewrite length_map, length_seq. Qed.
Lemma length_le_bytes n x : length (le_bytes n x) = n.
Proof. unfold le_bytes. by rewrite length_map, length_seq. Qed.

Lemma flat_bytes (f : Z → list Z) k l :
  (∀ x, length (f x) = k ∧ Forall (λ b, 0 ≤ b < 256) (f x)) →
  length (flat_map f l) = (length l * k)%nat ∧ Forall (λ b, 0 ≤ b < 256) (flat_map f l).
Proof.
  intros Hf. induction l as [|x l [IHl IHf]]; simpl; [by split|]. destruct (Hf x) as [H1 H2].
  rewrite length_app, H1, IHl. split; [lia|]. by apply Forall_app.
Qed.

Lemma bytes_mapped (g : nat → Z) l x :
  Forall (λ b, 0 ≤ b < 256) (map (λ i, byte_at x (g i)) l).
Proof. apply Forall_map, Forall_true. intros i. apply Z.mod_pos_bound. lia. Qed.

Lemma be_bytes_ok n x : length (be_bytes n x) = n ∧ Forall (λ b, 0 ≤ b < 256) (be_bytes n x).
Proof. split; [apply length_be_bytes|apply bytes_mapped]. Qed.
Lemma le_bytes_ok n x : length (le_bytes n x) = n ∧ Forall (λ b, 0 ≤ b < 256) (le_bytes n x).
Proof. split; [apply length_le_bytes|apply bytes_mapped]. Qed.

Section instances.
Context (B L LP : nat) (len_bytes : Z → list Z) (process spec : list Z → list Z → list Z).
Context (word_bytes : Z → list Z) (k words n : nat) (h0 : list Z).
Context (HB : B ≠ 0%nat) (HL : (0 < L)%nat) (HLP : (L ≤ LP)%nat) (HLB : (LP + 8)%nat = B)
  (Hlen8 : ∀ x, length (len_bytes x) = 8%nat) (Hspec : ∀ h buf, process h buf = spec h buf)
  (Hwords : ∀ h buf, length h = words → length (spec h buf) = words) (Hh0 : length h0 = words)
  (Hword : ∀ x, length (word_bytes x) = k ∧ Forall (λ b, 0 ≤ b < 256) (word_bytes x)).

(** The digest of the standard: the first [n] words of the reference state. *)
Definition standard (m : list Z) : list Z :=
  flat_map word_bytes (take n (reference B spec L LP len_bytes h0 m)).

Lemma reference_ext m : reference B process L LP len_bytes h0 m = reference B spec L LP len_bytes h0 m.
Proof using Hspec.
  unfold reference. generalize (reshape (replicate (length (m ++ padding B L LP len_bytes (length m)) / B) B)
    (m ++ padding B L LP len_bytes (length m))). intros l. generalize h0.
  induction l as [|b l IH]; intros h; simpl; [done|]. by rewrite Hspec.
Qed.

Lemma standard_digest sz (cut : list Z → list Z) :
  (∀ l, length l = (words `min` n * k)%nat → length (cut l) = sz) →
  (∀ l, Forall (λ b, 0 ≤ b < 256) l → Forall (λ b, 0 ≤ b < 256) (cut l)) →
  Digest (mkOps (init_with h0) (update B process)
      (pad B L LP len_bytes process ;; s <- gets id ;; mret (cut (flat_map word_bytes (take n (c_h s))))))
    B sz (λ m, cut (standard m)).
Proof using Type*.
  intros Hcut Hcutb. split.
  - intros ms s Hb Hn.
    destruct (stream_correct B process HB L LP len_bytes HL HLP HLB Hlen8 h0 ms s Hb Hn)
      as (s' & Hrun & Hh & Hb'). exists s'. split; [|done]. cbn [o_init o_update o_sum].
    set (s1 := mkCtx 0 h0 (c_buf s)) in *. rewrite (bind_run _ _ s tt s1) in Hrun by done.
    rewrite (bind_run _ _ s tt s1) by done.
    unfold updates in Hrun. unfold mbind in Hrun |- *.
    destruct (mforeach (update B process) ms s1); try done. rewrite Hrun. simpl.
    unfold standard. by rewrite Hh, reference_ext.
  - intros m. apply Hcut. unfold standard. rewrite (proj1 (flat_bytes _ k _ Hword)), length_take.
    f_equal. rewrite Nat.min_comm. f_equal. unfold reference.
    generalize (reshape (replicate (length (m ++ padding B L LP len_bytes (length m)) / B) B)
      (m ++ padding B L LP len_bytes (length m))). intros l. generalize Hh0. generalize h0.
    induction l as [|b l IH]; intros h Hh; simpl; auto.
  - intros m. apply Hcutb, (proj2 (flat_bytes _ k _ Hword)).
Qed.
End instances.

(** The initial states and the eight digests of the standards. *)
Definition h_md5 : list Z := [0x67452301; 0xefcdab89; 0x98badcfe; 0x10325476].
Definition h_sha1 : list Z := [0x67452301; 0xEFCDAB89; 0x98BADCFE; 0x10325476; 0xC3D2E1F0].
Definition h_sha224 : list Z :=
  [0xc1059ed8; 0x367cd507; 0x3070dd17; 0xf70e5939;
   0xffc00b31; 0x68581511; 0x64f98fa7; 0xbefa4fa4].
Definition h_sha256 : list Z :=
  [0x6a09e667; 0xbb67ae85; 0x3c6ef372; 0xa54ff53a;
   0x510e527f; 0x9b05688c; 0x1f83d9ab; 0x5be0cd19].
Definition h_sha384 : list Z :=
  [0xcbbb9d5dc1059ed8; 0x629a292a367cd507; 0x9159015a3070dd17; 0x152fecd8f70e5939;
   0x67332667ffc00b31; 0x8eb44a8768581511; 0xdb0c2e0d64f98fa7; 0x47b5481dbefa4fa4].
Definition h_sha512 : list Z :=
  [0x6a09e667f3bcc908; 0xbb67ae8584caa73b; 0x3c6ef372fe94f82b; 0xa54ff53a5f1d36f1;
   0x510e527fade682d1; 0x9b05688c2b3e6c1f; 0x1f83d9abfb41bd6b; 0x5be0cd19137e2179].
Definition h_sha512_224 : list Z :=
  [0x8c3d37c819544da2; 0x73e1996689dcd4d6; 0x1dfab7ae32ff9c82; 0x679dd514582f9fcf;
   0x0f6d2b697bd44da8; 0x77e36f7304c48942; 0x3f9d85a86a1d36c8; 0x1112e6ad91d692a1].
Definition h_sha512_256 : list Z :=
  [0x22312194fc2bf72c; 0x9f555fa3c84c64c2; 0x2393b86b6f53b151; 0x963877195940eabd;
   0x96283ee2a88effe3; 0xbe5e1e2553863992; 0x2b0199fc2c85b8aa; 0x0eb72ddc81c52ca2].
Definition fips256 : list Z → list Z → list Z :=
  fips_compress 32 4 64 K256 S0_256 S1_256 R0_256 R1_256.
Definition fips512 : list Z → list Z → list Z :=
  fips_compress 64 8 80 K512 S0_512 S1_512 R0_512 R1_512.
Definition std_md5 : list Z → list Z :=
  standard 64 56 56 (le_bytes 8) rfc1321_compress (le_bytes 4) 4 h_md5.
Definition std_sha1 : list Z → list Z :=
  standard 64 56 56 (be_bytes 8) rfc3174_compress (be_bytes 4) 5 h_sha1.
Definition std_sha256 (n : nat) (h0 : list Z) : list Z → list Z :=
  standard 64 56 56 (be_bytes 8) fips256 (be_bytes 4) n h0.
(** The length field of SHA-512 has 16 bytes; the upper eight are zero here. *)
Definition std_sha512 (n : nat) (h0 : list Z) : list Z → list Z :=
  standard 128 112 120 (be_bytes 8) fips512 (be_bytes 8) n h0.

Lemma add_words_length w h x : length (add_words w h x) = (length h `min` length x)%nat.
Proof. apply length_zip_with. Qed.

Lemma md5_words h buf : length h = 4%nat → length (rfc1321_compress h buf) = 4%nat.
Proof.
  intros H. unfold rfc1321_compress.
  destruct (fold_left _ _ _) as [[[a b] c] d]. by rewrite add_words_length, H.
Qed.
Lemma sha1_words h buf : length h = 5%nat → length (rfc3174_compress h buf) = 5%nat.
Proof.
  intros H. unfold rfc3174_compress.
  destruct (fold_left _ _ _) as [[[[a b] c] d] e]. by rewrite add_words_length, H.
Qed.
Lemma sha2_words w wb n K S0 S1 R0 R1 h buf : length h = 8%nat →
  length (fips_compress w wb n K S0 S1 R0 R1 h buf) = 8%nat.
Proof.
  intros H. unfold fips_compress. rewrite add_words_length, H.
  enough (length (fold_left (fips_step w wb K S0 S1 R0 R1 buf) (seq 0 n) h) = 8%nat) as -> by done.
  generalize (seq 0 n). intros l. revert h H. induction l as [|t l IH]; intros h H; simpl; [done|].
  apply IH. unfold fips_step. by destruct h as [|? [|? [|? [|? [|? [|? [|? [|? [|]]]]]]]]].
Qed.

Lemma digest_ext ops sum block sz ref :
  (∀ s, o_sum ops s = sum s) → Digest ops block sz ref →
  Digest (mkOps (o_init ops) (o_update ops) sum) block sz ref.
Proof.
  intros Hs [Hrun Hl Hb]. split; [|done|done]. intros ms s H1 H2. cbn [o_init o_update o_sum].
  destruct (Hrun ms s H1 H2) as (s' & Hr & ?). exists s'. split; [|done]. rewrite <- Hr.
  unfold mbind. destruct (o_init ops s); [|done..].
  by destruct (mforeach (o_update ops) ms _).
Qed.

#[export] Instance md5_digest : Digest md5_ops 64 16 std_md5.
Proof.
  apply (standard_digest 64 56 56 (le_bytes 8) md5_processblock rfc1321_compress (le_bytes 4) 4 4 4 h_md5)
    with (cut := id); try (done || lia); auto using md5_compress, md5_words, length_le_bytes, le_bytes_ok.
Qed.
#[export] Instance sha1_digest : Digest sha1_ops 64 20 std_sha1.
Proof.
  apply (standard_digest 64 56 56 (be_bytes 8) sha1_processblock rfc3174_compress (be_bytes 4) 4 5 5 h_sha1)
    with (cut := id); try (done || lia); auto using sha1_compress, sha1_words, length_be_bytes, be_bytes_ok.
Qed.

Lemma sha256_digest_n n h0 : length h0 = 8%nat → (n ≤ 8)%nat →
  Digest (mkOps (init_with h0) sha256_update (sha256_sum_n n)) 64 (4 * n) (std_sha256 n h0).
Proof.
  intros Hh Hn.
  apply (standard_digest 64 56 56 (be_bytes 8) sha256_processblock fips256 (be_bytes 4) 4 8 n h0)
    with (cut := id); auto using length_be_bytes, be_bytes_ok, sha2_words; try lia.
  - intros. apply sha2_compress. lia.
  - intros. by apply sha2_words.
  - intros l Hl. unfold id. lia.
Qed.
Lemma sha512_digest_n n h0 (cut : list Z → list Z) sz : length h0 = 8%nat → (n ≤ 8)%nat →
  (∀ l, length l = (8 * n)%nat → length (cut l) = sz) →
  (∀ l, Forall (λ b, 0 ≤ b < 256) l → Forall (λ b, 0 ≤ b < 256) (cut l)) →
  Digest (mkOps (init_with h0) sha512_update (buf <- sha512_sum_n n ;; mret (cut buf))) 128 sz
    (λ m, cut (std_sha512 n h0 m)).
Proof.
  intros Hh Hn Hcut Hcutb.
  apply (digest_ext (mkOps (init_with h0) sha512_update (sha512_pad ;; s <- gets id ;;
    mret (cut (flat_map (be_bytes 8) (take n (c_h s))))))).
  { intros s. unfold sha512_sum_n, mbind. simpl. by destruct (sha512_pad s). }
  apply (standard_digest 128 112 120 (be_bytes 8) sha512_processblock fips512 (be_bytes 8) 8 8 n h0);
    auto using length_be_bytes, be_bytes_ok, sha2_words; try lia.
  - intros. apply sha2_compress. lia.
  - intros. by apply sha2_words.
  - intros l Hl. apply Hcut. lia.
Qed.

#[export] Instance sha224_digest : Digest sha224_ops 64 28 (std_sha256 7 h_sha224).
Proof. apply sha256_digest_n; [done|lia]. Qed.
#[export] Instance sha256_digest : Digest sha256_ops 64 32 (std_sha256 8 h_sha256).
Proof. apply sha256_digest_n; [done|lia]. Qed.

Lemma sha512_whole n h0 : length h0 = 8%nat → (n ≤ 8)%nat →
  Digest (mkOps (init_with h0) sha512_update (sha512_sum_n n)) 128 (8 * n) (std_sha512 n h0).
Proof.
  intros Hh Hn. apply (digest_ext (mkOps (init_with h0) sha512_update (buf <- sha512_sum_n n ;; mret buf))).
  { intros s. unfold mbind. simpl. by destruct (sha512_sum_n n s). }
  by apply (sha512_digest_n n h0 id).
Qed.
#[export] Instance sha384_digest : Digest sha384_ops 128 48 (std_sha512 6 h_sha384).
Proof. apply sha512_whole; [done|lia]. Qed.
#[export] Instance sha512_digest : Digest sha512_ops 128 64 (std_sha512 8 h_sha512).
Proof. apply sha512_whole; [done|lia]. Qed.
#[export] Instance sha512_256_digest : Digest sha512_256_ops 128 32 (std_sha512 4 h_sha512_256).
Proof. apply sha512_whole; [done|lia]. Qed.
#[export] Instance sha512_224_digest :
  Digest sha512_224_ops 128 28 (λ m, take 28 (std_sha512 4 h_sha512_224 m)).
Proof.
  apply (sha512_digest_n 4 h_sha512_224 (take 28) 28); [done|lia| |].
  - intros l Hl. rewrite length_take. lia.
  - intros l Hl. by apply Forall_take.
Qed.

(** All digests of the library with their block and digest sizes and the
    function of the standard. *)
Definition digests : list (crypt_ops * nat * nat * (list Z → list Z)) := [
  (md5_ops, 64%nat, 16%nat, std_md5); (sha1_ops, 64%nat, 20%nat, std_sha1);
  (sha224_ops, 64%nat, 28%nat, std_sha256 7 h_sha224);
  (sha256_ops, 64%nat, 32%nat, std_sha256 8 h_sha256);
  (sha384_ops, 128%nat, 48%nat, std_sha512 6 h_sha384);
  (sha512_ops, 128%nat, 64%nat, std_sha512 8 h_sha512);
  (sha512_224_ops, 128%nat, 28%nat, λ m, take 28 (std_sha512 4 h_sha512_224 m));
  (sha512_256_ops, 128%nat, 32%nat, std_sha512 4 h_sha512_256)].

Lemma digests_laws : Forall (λ '(ops, block, sz, ref), Digest ops block sz ref) digests.
Proof. unfold digests. do 8 (apply Forall_cons; split; [apply _|]). constructor. Qed.

(** C28: MD5, SHA-1, SHA-224, SHA-256, SHA-384, SHA-512, SHA-512/224 and
    SHA-512/256 compute the function of their standard (padded message,
    message schedule as a recurrence, one round at a time), in whatever pieces
    the message is given and whatever the context held before; the code never
    leaves its block buffer. *)
Theorem digests_standard ops block sz ref ms s :
  In (ops, block, sz, ref) digests → length (c_buf s) = block →
  Z.of_nat (length (concat ms)) < 2 ^ 61 →
  ∃ s', (o_init ops ;; mforeach (o_update ops) ms ;; o_sum ops) s = Ok (ref (concat ms)) s' ∧
    length (ref (concat ms)) = sz ∧ length (c_buf s') = block.
Proof.
  intros Hin Hb Hn. pose proof digests_laws as Hall. rewrite Forall_forall in Hall.
  specialize (Hall (ops, block, sz, ref) ltac:(by apply list_elem_of_In)). simpl in Hall.
  destruct (digest_run ms s Hb Hn) as (s' & ? & ?). exists s'.
  split_and!; auto. apply digest_length.
Qed.

Lemma digests_standard_witness : ∃ s',
  (o_init sha256_ops ;; mforeach (o_update sha256_ops) [[97]; [98; 99]] ;; o_sum sha256_ops)
    (mkCtx 0 [] (replicate 64 7)) = Ok (std_sha256 8 h_sha256 [97; 98; 99]) s' ∧
  length (std_sha256 8 h_sha256 [97; 98; 99]) = 32%nat ∧ length (c_buf s') = 64%nat.
Proof.
  apply (digests_standard sha256_ops 64 32 (std_sha256 8 h_sha256) [[97]; [98; 99]]).
  - do 3 right. left. reflexivity.
  - reflexivity.
  - vm_compute. reflexivity.
Defined.

(** The test vectors: the message abc, and for MD5 and SHA-256 a message of two blocks
    in two pieces. *)
Definition digest_of (ops : crypt_ops) (block : nat) (ms : list (list Z)) : list Z :=
  match (o_init ops ;; mforeach (o_update ops) ms ;; o_sum ops) (mkCtx 0 [] (replicate block 0)) with
  | Ok md _ => md
  | _ => []
  end.

Example md5_abc : digest_of md5_ops 64 [[97; 98; 99]] =
  [144; 1; 80; 152; 60; 210; 79; 176; 214; 150; 63; 125; 40; 225; 127; 114].
Proof. vm_compute. reflexivity. Qed.

Example sha1_abc : digest_of sha1_ops 64 [[97; 98; 99]] =
  [169; 153; 62; 54; 71; 6; 129; 106; 186; 62; 37; 113; 120; 80; 194; 108; 156; 208; 216; 157].
Proof. vm_compute. reflexivity. Qed.

Example sha224_abc : digest_of sha224_ops 64 [[97; 98; 99]] =
  [35; 9; 125; 34; 52; 5; 216; 34; 134; 66; 164; 119; 189; 162; 85; 179; 42; 173; 188; 228; 189;
   160; 179; 247; 227; 108; 157; 167].
Proof. vm_compute. reflexivity. Qed.

Example sha256_abc : digest_of sha256_ops 64 [[97; 98; 99]] =
  [186; 120; 22; 191; 143; 1; 207; 234; 65; 65; 64; 222; 93; 174; 34; 35; 176; 3; 97; 163; 150;
   23; 122; 156; 180; 16; 255; 97; 242; 0; 21; 173].
Proof. vm_compute. reflexivity. Qed.

Example sha384_abc : digest_of sha384_ops 128 [[97; 98; 99]] =
  [203; 0; 117; 63; 69; 163; 94; 139; 181; 160; 61; 105; 154; 198; 80; 7; 39; 44; 50; 171; 14;
   222; 209; 99; 26; 139; 96; 90; 67; 255; 91; 237; 128; 134; 7; 43; 161; 231; 204; 35; 88; 186;
   236; 161; 52; 200; 37; 167].
Proof. vm_compute. reflexivity. Qed.

Example sha512_abc : digest_of sha512_ops 128 [[97; 98; 99]] =
  [221; 175; 53; 161; 147; 97; 122; 186; 204; 65; 115; 73; 174; 32; 65; 49; 18; 230; 250; 78;
   137; 169; 126; 162; 10; 158; 238; 230; 75; 85; 211; 154; 33; 146; 153; 42; 39; 79; 193; 168;
   54; 186; 60; 35; 163; 254; 235; 189; 69; 77; 68; 35; 100; 60; 232; 14; 42; 154; 201; 79; 165;
   76; 164; 159].
Proof. vm_compute. reflexivity. Qed.

Example sha512_224_abc : digest_of sha512_224_ops 128 [[97; 98; 99]] =
  [70; 52; 39; 15; 112; 123; 106; 84; 218; 174; 117; 48; 70; 8; 66; 226; 14; 55; 237; 38; 92;
   238; 233; 164; 62; 137; 36; 170].
Proof. vm_compute. reflexivity. Qed.

Example sha512_256_abc : digest_of sha512_256_ops 128 [[97; 98; 99]] =
  [83; 4; 142; 38; 129; 148; 30; 249; 155; 46; 41; 183; 107; 76; 125; 171; 228; 194; 208; 198;
   52; 252; 109; 70; 224; 226; 241; 49; 7; 231; 175; 35].
Proof. vm_compute. reflexivity. Qed.

Example md5_pieces : digest_of md5_ops 64 [replicate 37 97; replicate 63 97] =
  [54; 169; 44; 201; 74; 158; 15; 162; 31; 98; 95; 139; 251; 0; 122; 223].
Proof. vm_compute. reflexivity. Qed.

Example sha256_pieces : digest_of sha256_ops 64 [replicate 37 97; replicate 63 97] =
  [40; 22; 89; 120; 136; 228; 160; 211; 163; 107; 130; 184; 51; 22; 171; 50; 104; 14; 184; 240;
   15; 140; 211; 185; 4; 214; 129; 36; 109; 40; 90; 14].
Proof. vm_compute. reflexivity. Qed.
