(* ===== verification/Stdio.v ===== *)
(** * Streams of bytes: what the utilities use of <stdio.h>

    A stream opened for reading is the bytes that remain, and whether reading
    them ends with an error, which only [ferror] tells.  Loops that read a
    stream by blocks of a fixed size see all blocks full but the last.  Characters
    are the bytes of their codes. *)

From S2P Require Import Prelude.

Definition byte_of (c : ascii) : Z := Z.of_nat (nat_of_ascii c).
Definition char_of (b : Z) : ascii := ascii_of_nat (Z.to_nat b).

(** The bytes of a string. *)
Definition bytes_of (s : cstr) : list Z := map byte_of s.

(** What can be a byte. *)
Definition is_byte (b : Z) : Prop := (0 ≤ b < 256)%Z.
#[export] Instance is_byte_dec b : Decision (is_byte b).
Proof. unfold is_byte. apply _. Defined.

Record FILE := mkFile { f_bytes : list Z; f_err : bool }.

(** The blocks returned by [while ((n = fread(buf, 1, k, fp)) > 0)]. *)
Fixpoint blocks_from (fuel k : nat) (bytes : list Z) : list (list Z) :=
  match fuel, bytes with
  | S fuel, _ :: _ => take k bytes :: blocks_from fuel k (drop k bytes)
  | _, _ => []
  end.
Definition fread_blocks (k : nat) (fp : FILE) : list (list Z) :=
  blocks_from (length (f_bytes fp)) k (f_bytes fp).

(** The lines [getline] returns, each with its newline. *)
Fixpoint split_lines_from (acc s : cstr) : list cstr :=
  match s with
  | [] => match acc with [] => [] | _ => [acc] end
  | c :: s' =>
      if decide (c = NL) then (acc ++ [c]) :: split_lines_from [] s'
      else split_lines_from (acc ++ [c]) s'
  end.

(** [strcmp], as the order of the bytes at the first difference. *)
Fixpoint strcmp (a b : cstr) : comparison :=
  match a, b with
  | [], [] => Eq
  | [], _ :: _ => Lt
  | _ :: _, [] => Gt
  | x :: a, y :: b =>
      match Z.compare (byte_of x) (byte_of y) with Eq => strcmp a b | r => r end
  end.

(** ** Facts *)

(** A decidable statement about the numbers below a bound is checked by evaluation. *)
Lemma range_forall (n : nat) (P : Z → Prop) :
  Forall P (map Z.of_nat (seq 0 n)) → ∀ d, (0 ≤ d < Z.of_nat n)%Z → P d.
Proof.
  intros H d Hd. rewrite Forall_forall in H. apply H, list_elem_of_fmap. exists (Z.to_nat d).
  split; [lia|]. apply elem_of_seq. lia.
Qed.

Lemma byte_of_range c : is_byte (byte_of c).
Proof. unfold is_byte, byte_of. pose proof (nat_ascii_bounded c). lia. Qed.

Lemma byte_of_char b : is_byte b → byte_of (char_of b) = b.
Proof. unfold is_byte, byte_of, char_of. intros H. rewrite nat_ascii_embedding; lia. Qed.

Lemma char_of_byte c : char_of (byte_of c) = c.
Proof. unfold byte_of, char_of. by rewrite Nat2Z.id, ascii_nat_embedding. Qed.

Lemma byte_of_inj c d : byte_of c = byte_of d → c = d.
Proof. intros H. by rewrite <- (char_of_byte c), H, char_of_byte. Qed.

Lemma blocks_from_nil fuel k : blocks_from fuel k [] = [].
Proof. by destruct fuel. Qed.

(** No byte is lost, and a short block can only be the last one. *)
Lemma blocks_from_ok fuel k bytes : 0 < k → length bytes ≤ fuel →
  concat (blocks_from fuel k bytes) = bytes ∧
  Forall (λ b, 0 < length b ≤ k) (blocks_from fuel k bytes) ∧
  ∀ bs b, blocks_from fuel k bytes = bs ++ [b] → Forall (λ b, length b = k) bs.
Proof.
  intros Hk. revert bytes. induction fuel as [|fuel IH]; intros bytes Hlen.
  { destruct bytes; simpl in *; [|lia]. split_and!; try done. intros [|??] ? [=]. }
  destruct bytes as [|x bytes]; simpl.
  { split_and!; try done. intros [|??] ? [=]. }
  destruct (IH (drop k (x :: bytes))) as (H1 & H2 & H3).
  { rewrite length_drop. simpl in *. lia. }
  split_and!.
  - rewrite H1. apply take_drop.
  - constructor; [|done]. rewrite length_take. simpl. lia.
  - intros bs b Hbs. destruct bs as [|b' bs]; [constructor|]. simpl in Hbs. injection Hbs as <- Hbs.
    constructor; [|by eapply H3]. rewrite length_take. destruct (decide (length (x :: bytes) ≤ k)) as [Hs|]; [|lia].
    rewrite drop_ge, blocks_from_nil in Hbs by done. by destruct bs.
Qed.

Lemma fread_blocks_ok k fp : 0 < k →
  concat (fread_blocks k fp) = f_bytes fp ∧
  Forall (λ b, 0 < length b ≤ k) (fread_blocks k fp) ∧
  ∀ bs b, fread_blocks k fp = bs ++ [b] → Forall (λ b, length b = k) bs.
Proof. intros Hk. by apply blocks_from_ok. Qed.

(** Lines that are written one after the other are read as such. *)
Lemma split_lines_ok lines : Forall (λ l, ∃ t, l = t ++ [NL] ∧ NL ∉ t) lines →
  split_lines_from [] (concat lines) = lines.
Proof.
  assert (Hone : ∀ t acc rest, NL ∉ t →
    split_lines_from acc (t ++ NL :: rest) = (acc ++ t ++ [NL]) :: split_lines_from [] rest).
  { induction t as [|c t IH]; intros acc rest Ht; simpl; [done|].
    apply not_elem_of_cons in Ht as [? ?]. rewrite decide_False by done.
    rewrite IH by done. by rewrite <- !app_assoc. }
  intros H. induction H as [|l lines (t & -> & Ht) _ IH]; [done|]. simpl.
  rewrite <- app_assoc. simpl. by rewrite Hone, IH.
Qed.

(** A loop over the blocks, by the blocks it has done. *)
Lemma mfold_app {S A B} (f : B → A → M S B) b l1 l2 s :
  mfold f b (l1 ++ l2) s = (b' <- mfold f b l1 ;; mfold f b' l2) s.
Proof.
  revert b s. induction l1 as [|x l1 IH]; intros b s; simpl; [done|].
  unfold mbind. by destruct (f b x s).
Qed.

(** [strcmp] is a total order. *)
Lemma strcmp_eq a b : strcmp a b = Eq ↔ a = b.
Proof.
  revert b. induction a as [|x a IH]; intros [|y b]; simpl; try done.
  destruct (Z.compare_spec (byte_of x) (byte_of y)) as [E| |]; [|naive_solver lia..].
  apply byte_of_inj in E as ->. rewrite IH. naive_solver.
Qed.
Lemma strcmp_refl a : strcmp a a = Eq.
Proof. by apply strcmp_eq. Qed.
Lemma strcmp_flip a b : strcmp b a = CompOpp (strcmp a b).
Proof.
  revert b. induction a as [|x a IH]; intros [|y b]; simpl; try done.
  rewrite (Z.compare_antisym (byte_of x) (byte_of y)). destruct (Z.compare (byte_of x) (byte_of y)); [apply IH|done..].
Qed.

Definition str_lt (a b : cstr) : Prop := strcmp a b = Lt.
#[export] Instance str_lt_dec a b : Decision (str_lt a b).
Proof. unfold str_lt. apply _. Defined.
#[export] Instance str_lt_trans : Transitive str_lt.
Proof.
  intros a. unfold str_lt. induction a as [|x a IH]; intros [|y b] [|z c]; simpl; try done.
  destruct (Z.compare_spec (byte_of x) (byte_of y)), (Z.compare_spec (byte_of y) (byte_of z)),
    (Z.compare_spec (byte_of x) (byte_of z)); try done; try lia. apply IH.
Qed.
Lemma str_lt_irrefl a : ¬ str_lt a a.
Proof. unfold str_lt. by rewrite strcmp_refl. Qed.
