(* ===== verification/Crypt.v ===== *)
(** * Printing and checking digests: src/shared/libutil/crypt.c

    The part the sum utilities (md5sum, sha1sum, sha224sum, ...) share: reading a file in
    pieces into a digest, printing the digest in hexadecimal, and checking a
    list of such lines.  A descriptor is the sequence of results of [read]: pieces, then end of
    file or an error.  The clients of a digest are proved against the class
    [Digest] only.  Proved here: the lines printed for some files are accepted
    by the check, file by file. *)

From S2P Require Import Prelude CString Stdio Digest DigestFacts.

(** The results of [read] on a descriptor: pieces, and how it ends. *)
Record reads := mkReads { rd_chunks : list (list Z); rd_error : bool }.

(** The state of a run: the static context, the digest buffer, what was printed
    on standard output, the messages of [weprintf], and standard input. *)
Record cstate := mkCstate {
  k_ctx : digest_ctx;
  k_md : list Z;
  k_out : cstr;
  k_err : list cstr;
  k_stdin : reads
}.
#[export] Instance eta_cstate : Eta cstate := λ s,
  mkCstate (k_ctx s) (k_md s) (k_out s) (k_err s) (k_stdin s).

(** ** Text *)

(** The lines [getline] returns on a stream. *)
Definition getlines (rd : reads) : list cstr :=
  split_lines_from [] (map char_of (concat (rd_chunks rd))).

(** The bytes before the first that satisfies [p]. *)
Fixpoint until (p : ascii → bool) (s : cstr) : cstr :=
  match s with [] => [] | c :: s' => if p c then [] else c :: until p s' end.

(** One digit of [%02x] *)
Definition hexdigit (n : Z) : ascii :=
  nth (Z.to_nat n) (lit "0123456789abcdef") NUL.

(** [hexdec], -1 for a character that is no digit *)
Definition hexdec (c : ascii) : Z :=
  let c := byte_of c in
  if decide (48 ≤ c ≤ 57)%Z then (c - 48)%Z
  else if decide (65 ≤ c ≤ 70)%Z then (c - 65 + 10)%Z
  else if decide (97 ≤ c ≤ 102)%Z then (c - 97 + 10)%Z
  else (-1)%Z.

(** [mdcheckline]: 0 match, 1 mismatch, -1 bad format; [md] has [sz] bytes. *)
Fixpoint mdcheckline (s : cstr) (md : list Z) : Z :=
  match md with
  | [] => 0%Z
  | b :: md' =>
      match s with
      | [] => (-1)%Z
      | c1 :: s1 =>
          if decide (hexdec c1 < 0)%Z then (-1)%Z
          else
            match s1 with
            | [] => (-1)%Z
            | c2 :: s2 =>
                if decide (hexdec c2 < 0)%Z then (-1)%Z
                else if decide (Z.lor (Z.shiftl (hexdec c1) 4) (hexdec c2) mod 256 = b)%Z
                then mdcheckline s2 md'
                else 1%Z
            end
      end
  end.

Section crypt.
Context (ops : crypt_ops) (sz : nat) (open_file : cstr → option reads).

Definition on_ctx {A} (m : M digest_ctx A) : M cstate A := λ s,
  match m (k_ctx s) with
  | Ok a c => Ok a (set k_ctx (λ _, c) s)
  | Die msg c => Die msg (set k_ctx (λ _, c) s)
  | Ub => Ub
  | Fuel => Fuel
  end.

Definition weprint (msg : cstr) : M cstate unit := modify (set k_err (λ l, l ++ [msg])).
Definition print (s : cstr) : M cstate unit := modify (set k_out (λ o, o ++ s)).

(** [cryptsum]: whether it failed *)
Definition cryptsum (rd : reads) (f : cstr) : M cstate bool :=
  on_ctx (o_init ops) ;;
  mforeach (λ buf, on_ctx (o_update ops buf)) (rd_chunks rd) ;;
  if rd_error rd then weprint (f ++ lit ": read error:") ;; mret true
  else
    md <- on_ctx (o_sum ops) ;;
    modify (set k_md (λ _, md)) ;;
    mret false.

Definition hex (md : list Z) : cstr :=
  flat_map (λ b, [hexdigit (Z.shiftr b 4); hexdigit (Z.land b 15)]) md.

(** [mdprint] *)
Definition mdprint (f : cstr) : M cstate unit :=
  md <- gets k_md ;; print (hex md ++ lit "  " ++ f ++ [NL]).

(** One line of [mdchecklist]; the counters are formatsucks, noread and nonmatch. *)
Definition mdcheckone (counts : nat * nat * nat) (line : cstr) : M cstate (nat * nat * nat) :=
  let '(formatsucks, noread, nonmatch) := counts in
  let bad : M cstate (nat * nat * nat) := mret (formatsucks + 1, noread, nonmatch) in
  let line := until (λ c, bool_decide (c = NUL)) line in
  match strchr line " "%char with
  | None => bad
  | Some (sum, rest) =>
      match rest with
      | [] => bad
      | c :: rest =>
          if decide (c ≠ " "%char ∧ c ≠ "*"%char) then bad
          else if decide (length sum ≠ sz * 2) then bad
          else
            let file := until (λ c, bool_decide (c = NL ∨ c = CR)) rest in
            match open_file file with
            | None =>
                weprint (lit "open " ++ file ++ lit ":") ;;
                mret (formatsucks, noread + 1, nonmatch)
            | Some rd =>
                failed <- cryptsum rd file ;;
                if failed : bool then mret (formatsucks, noread + 1, nonmatch)
                else
                  md <- gets k_md ;;
                  let r := mdcheckline sum md in
                  if decide (r = 0)%Z then
                    print (file ++ lit ": OK" ++ [NL]) ;; mret counts
                  else if decide (r = 1)%Z then
                    print (file ++ lit ": FAILED" ++ [NL]) ;;
                    mret (formatsucks, noread, nonmatch + 1)
                  else bad
            end
      end
  end.
Definition mdchecklist (counts : nat * nat * nat) (lines : list cstr) :
    M cstate (nat * nat * nat) := mfold mdcheckone counts lines.

(** Standard input as a descriptor or a stream, used up. *)
Definition take_stdin : M cstate reads :=
  rd <- gets k_stdin ;; modify (set k_stdin (λ _, mkReads [] false)) ;; mret rd.

Definition plural (n : nat) : cstr := if decide (1 < n) then lit "s" else [].
Definition report (n : nat) (msg : cstr) : M cstate bool :=
  if decide (n = 0) then mret false else weprint msg ;; mret true.

(** One argument of [cryptcheck]: the counters and whether a list could not be
    opened. *)
Definition checkarg (acc : (nat * nat * nat) * bool) (arg : cstr) :
    M cstate ((nat * nat * nat) * bool) :=
  if decide (arg = lit "-") then
    rd <- take_stdin ;;
    counts <- mdchecklist acc.1 (getlines rd) ;;
    mret (counts, acc.2)
  else
    match open_file arg with
    | None => weprint (lit "fopen " ++ arg ++ lit ":") ;; mret (acc.1, true)
    | Some rd => counts <- mdchecklist acc.1 (getlines rd) ;; mret (counts, acc.2)
    end.

(** [cryptcheck]: the exit status *)
Definition cryptcheck (argv : list cstr) : M cstate Z :=
  r <- (match argv with
        | [] => rd <- take_stdin ;; counts <- mdchecklist (0, 0, 0) (getlines rd) ;; mret (counts, false)
        | _ => mfold checkarg ((0, 0, 0), false) argv
        end) ;;
  let '((formatsucks, noread, nonmatch), failed) := r in
  e1 <- report formatsucks (lit (pretty formatsucks) ++ lit " improperly formatted line" ++ plural formatsucks) ;;
  e2 <- report noread (lit (pretty noread) ++ lit " listed file" ++ plural noread ++ lit " could not be read") ;;
  e3 <- report nonmatch
    (lit (pretty nonmatch) ++ lit " computed checksum" ++ plural nonmatch ++ lit " did NOT match") ;;
  mret (if failed || e1 || e2 || e3 then 1%Z else 0%Z).

(** One argument of [cryptmain] *)
Definition sumarg (ret : Z) (arg : cstr) : M cstate Z :=
  let sum rd name :=
    failed <- cryptsum rd name ;;
    if failed : bool then mret 1%Z else mdprint name ;; mret ret in
  if decide (arg = lit "-") then rd <- take_stdin ;; sum rd (lit "<stdin>")
  else
    match open_file arg with
    | None => weprint (lit "open " ++ arg ++ lit ":") ;; mret 1%Z
    | Some rd => sum rd arg
    end.

(** [cryptmain]: the exit status *)
Definition cryptmain (argv : list cstr) : M cstate Z :=
  match argv with
  | [] =>
      rd <- take_stdin ;;
      failed <- cryptsum rd (lit "<stdin>") ;;
      if failed : bool then mret 1%Z else mdprint (lit "<stdin>") ;; mret 0%Z
  | _ => mfold sumarg 0%Z argv
  end.
End crypt.

(** ** The text of a line *)

Lemma hexdigit_ok n : (0 ≤ n < 16)%Z →
  hexdec (hexdigit n) = n ∧ hexdigit n ≠ " "%char ∧ hexdigit n ≠ NUL ∧ hexdigit n ≠ NL.
Proof.
  intros Hn. assert (Hall : Forall (λ n, hexdec (hexdigit n) = n ∧ hexdigit n ≠ " "%char ∧
    hexdigit n ≠ NUL ∧ hexdigit n ≠ NL) (map Z.of_nat (seq 0 16))) by by_decide.
  rewrite Forall_forall in Hall. apply Hall, list_elem_of_fmap. exists (Z.to_nat n).
  split; [lia|]. apply elem_of_seq. lia.
Qed.

Lemma nibbles b : (0 ≤ b < 256)%Z →
  (0 ≤ Z.shiftr b 4 < 16 ∧ 0 ≤ Z.land b 15 < 16 ∧
   Z.lor (Z.shiftl (Z.shiftr b 4) 4) (Z.land b 15) mod 256 = b)%Z.
Proof.
  intros Hb. change 15%Z with (Z.ones 4). rewrite land_low, Z.shiftr_div_pow2 by lia.
  change (2 ^ 4)%Z with 16%Z.
  pose proof (Z.mod_pos_bound b 16). pose proof (Z.div_mod b 16).
  rewrite lor_high by lia. change (2 ^ 4)%Z with 16%Z. rewrite (Z.mod_small (_ + _)) by lia. lia.
Qed.

Lemma mdcheckline_hex md : Forall (λ b, 0 ≤ b < 256)%Z md → mdcheckline (hex md) md = 0%Z.
Proof.
  intros H. induction H as [|b md Hb _ IH]; [done|]. destruct (nibbles b Hb) as (H1 & H2 & H3).
  simpl. rewrite (proj1 (hexdigit_ok _ H1)), (proj1 (hexdigit_ok _ H2)).
  rewrite !decide_False by lia. by rewrite decide_True.
Qed.

Lemma hex_chars md : Forall (λ b, 0 ≤ b < 256)%Z md →
  Forall (λ c, c ≠ " "%char ∧ c ≠ NUL ∧ c ≠ NL) (hex md).
Proof.
  intros H. induction H as [|b md Hb _ IH]; [constructor|]. destruct (nibbles b Hb) as (H1 & H2 & _).
  constructor; [apply (hexdigit_ok _ H1)|]. constructor; [apply (hexdigit_ok _ H2)|done].
Qed.

Lemma length_hex md : length (hex md) = length md * 2.
Proof. induction md; simpl; lia. Qed.

Lemma strchr_front s t c : c ∉ s → strchr (s ++ c :: t) c = Some (s, t).
Proof. intros. by apply strchr_Some. Qed.

Lemma until_front p s t c : Forall (λ c, p c = false) s → p c = true → until p (s ++ c :: t) = s.
Proof. intros H Hc. induction H as [|d s Hd _ IH]; simpl; [by rewrite Hc|]. by rewrite Hd, IH. Qed.
Lemma until_all p s : Forall (λ c, p c = false) s → until p s = s.
Proof. intros H. induction H as [|d s Hd _ IH]; simpl; [done|]. by rewrite Hd, IH. Qed.

(** A name that can stand in a line. *)
Definition plain_name (name : cstr) : Prop := Forall (λ c, c ≠ NUL ∧ c ≠ NL ∧ c ≠ CR) name.

Definition sumline (md : list Z) (name : cstr) : cstr := hex md ++ lit "  " ++ name ++ [NL].

(** ** Summing and checking *)

Section roundtrip.
Context (ops : crypt_ops) (block sz : nat) (ref : list Z → list Z) `{!Digest ops block sz ref}.
Context (open_file : cstr → option reads).

(** A file that can be read, with its contents. *)
Definition readable (name : cstr) (data : list Z) : Prop := ∃ rd,
  open_file name = Some rd ∧ rd_error rd = false ∧ concat (rd_chunks rd) = data ∧
  (Z.of_nat (length data) < 2 ^ 61)%Z.

Lemma on_ctx_foreach {B} (f : B → M digest_ctx unit) l s c :
  mforeach f l (k_ctx s) = Ok tt c →
  mforeach (λ x, on_ctx (f x)) l s = Ok tt (set k_ctx (λ _, c) s).
Proof.
  revert s. induction l as [|x l IH]; intros s Hr.
  { simpl in *. injection Hr as <-. by destruct s. }
  simpl in *. apply bind_Ok in Hr as ([] & c1 & H1 & H2).
  rewrite (bind_run _ _ s tt (set k_ctx (λ _, c1) s)) by (unfold on_ctx; by rewrite H1).
  by rewrite (IH (set k_ctx (λ _, c1) s)).
Qed.

Lemma cryptsum_ok rd f data s : length (c_buf (k_ctx s)) = block →
  rd_error rd = false → concat (rd_chunks rd) = data → (Z.of_nat (length data) < 2 ^ 61)%Z →
  ∃ c, cryptsum ops rd f s = Ok false (set k_md (λ _, ref data) (set k_ctx (λ _, c) s)) ∧
    length (c_buf c) = block.
Proof using Type*.
  intros Hb He <- Hn. destruct (digest_run (rd_chunks rd) (k_ctx s) Hb Hn) as (c & Hr & Hc).
  apply bind_Ok in Hr as ([] & c1 & H1 & Hr). apply bind_Ok in Hr as ([] & c2 & H2 & H3).
  exists c. split; [|done]. unfold cryptsum.
  rewrite (bind_run _ _ s tt (set k_ctx (λ _, c1) s)) by (unfold on_ctx; by rewrite H1).
  rewrite (bind_run _ _ (set k_ctx (λ _, c1) s) tt (set k_ctx (λ _, c2) s))
    by (by rewrite (on_ctx_foreach _ _ (set k_ctx (λ _, c1) s) c2)).
  rewrite He. unfold mbind, on_ctx. simpl. by rewrite H3.
Qed.

(** The state [s'] differs from [s] in the text [t] printed, and in the digest. *)
Definition printed (s s' : cstate) (t : cstr) : Prop :=
  k_out s' = k_out s ++ t ∧ k_err s' = k_err s ∧ k_stdin s' = k_stdin s ∧
  length (c_buf (k_ctx s')) = block.

Lemma sum_files ret names datas s : Forall2 readable names datas → Forall (λ n, n ≠ lit "-") names →
  length (c_buf (k_ctx s)) = block →
  ∃ s', mfold (sumarg ops open_file) ret names s = Ok ret s' ∧
    printed s s' (concat (zip_with (λ n d, sumline (ref d) n) names datas)).
Proof using Type*.
  intros Hf. revert s. induction Hf as [|n d names datas (rd & Ho & He & Hd & Hl) _ IH]; intros s Hn Hb.
  { exists s. unfold printed. simpl. by rewrite app_nil_r. }
  apply Forall_cons in Hn as [Hn1 Hn]. simpl.
  destruct (cryptsum_ok rd n d s Hb He Hd Hl) as (c & Hs & Hc).
  set (s1 := set k_out (λ o, o ++ sumline (ref d) n) (set k_md (λ _, ref d) (set k_ctx (λ _, c) s))).
  rewrite (bind_run _ _ s ret s1).
  2: { unfold sumarg. cbv zeta. rewrite decide_False, Ho by done. unfold mbind at 1. by rewrite Hs. }
  destruct (IH s1 Hn Hc) as (s' & Hr & H1 & H2 & H3 & H4). exists s'. split; [done|].
  split_and!; [|done..]. rewrite H1. simpl. by rewrite <- app_assoc.
Qed.

Lemma check_lines counts names datas s : Forall2 readable names datas → Forall plain_name names →
  length (c_buf (k_ctx s)) = block →
  ∃ s', mdchecklist ops sz open_file counts (zip_with (λ n d, sumline (ref d) n) names datas) s =
      Ok counts s' ∧ printed s s' (concat (map (λ n, n ++ lit ": OK" ++ [NL]) names)).
Proof using Type*.
  intros Hf. revert s. induction Hf as [|n d names datas (rd & Ho & He & Hd & Hl) _ IH]; intros s Hn Hb.
  { exists s. unfold printed. simpl. by rewrite app_nil_r. }
  apply Forall_cons in Hn as [Hn1 Hn]. unfold mdchecklist in *. simpl.
  destruct (cryptsum_ok rd n d s Hb He Hd Hl) as (c & Hs & Hc).
  set (s1 := set k_out (λ o, o ++ n ++ lit ": OK" ++ [NL]) (set k_md (λ _, ref d) (set k_ctx (λ _, c) s))).
  pose proof (digest_bytes (Digest:=Digest0) d) as Hbytes.
  rewrite (bind_run _ _ s counts s1).
  2: { destruct counts as [[f r] m]. unfold mdcheckone. cbv zeta.
       assert (Hchars := hex_chars _ Hbytes).
       rewrite (until_all _ (sumline (ref d) n)).
       2: { unfold sumline. rewrite !Forall_app. split_and!.
            - eapply Forall_impl; [exact Hchars|]. intros x (? & ? & ?). by apply bool_decide_eq_false.
            - by_decide.
            - eapply Forall_impl; [exact Hn1|]. intros x (? & ? & ?). by apply bool_decide_eq_false.
            - by_decide. }
       unfold sumline. change (lit "  " ++ n ++ [NL]) with (" "%char :: " "%char :: n ++ [NL]).
       rewrite strchr_front.
       2: { intros Hin. rewrite Forall_forall in Hchars. by apply Hchars in Hin as [? _]. }
       rewrite decide_False by tauto.
       rewrite decide_False by (rewrite length_hex, digest_length; lia).
       rewrite until_front; [|eapply Forall_impl; [exact Hn1|]; intros x (? & ? & ?); apply bool_decide_eq_false; naive_solver|
         apply bool_decide_eq_true; by left].
       rewrite Ho. unfold mbind at 1. rewrite Hs. unfold mbind at 1, gets. simpl.
       rewrite mdcheckline_hex by done. simpl. done. }
  destruct (IH s1 Hn Hc) as (s' & Hr & H1 & H2 & H3 & H4). exists s'. split; [done|].
  split_and!; [|done..]. rewrite H1. simpl. by rewrite <- !app_assoc.
Qed.
End roundtrip.

(** for every digest, the lines that a sum utility prints for readable files
    are accepted when they are checked: [cryptmain] prints one line per file
    and exits with 0, and [cryptcheck] of a file that holds these lines prints
    OK for each file, no message, and exits with 0. *)
Theorem sums_check_roundtrip (ops : crypt_ops) (block sz : nat) (ref : list Z → list Z)
    (open_file : cstr → option reads) (names : list cstr) (datas : list (list Z)) (s : cstate) :
  Digest ops block sz ref → names ≠ [] → Forall2 (readable open_file) names datas →
  Forall (λ n, plain_name n ∧ n ≠ lit "-") names → length (c_buf (k_ctx s)) = block →
  ∃ s' out, cryptmain ops open_file names s = Ok 0%Z s' ∧ k_out s' = k_out s ++ out ∧
    ∀ sums rd s2, sums ≠ lit "-" → open_file sums = Some rd →
      map char_of (concat (rd_chunks rd)) = out → length (c_buf (k_ctx s2)) = block →
      ∃ s2', cryptcheck ops sz open_file [sums] s2 = Ok 0%Z s2' ∧
        k_out s2' = k_out s2 ++ concat (map (λ n, n ++ lit ": OK" ++ [NL]) names) ∧
        k_err s2' = k_err s2.
Proof.
  intros HD Hne Hr Hn Hb.
  assert (Hplain : Forall plain_name names) by (eapply Forall_impl; [exact Hn|]; by intros ? []).
  assert (Hdash : Forall (λ n, n ≠ lit "-") names) by (eapply Forall_impl; [exact Hn|]; by intros ? []).
  destruct (sum_files ops block sz ref open_file 0%Z names datas s Hr Hdash Hb) as (s' & Hs & Ho & _).
  exists s', (concat (zip_with (λ n d, sumline (ref d) n) names datas)).
  split_and!; [by destruct names|done|]. intros sums rd s2 Hd Hopen Htext Hb2.
  destruct (check_lines ops block sz ref open_file (0, 0, 0) names datas s2 Hr Hplain Hb2)
    as (s2' & Hc & H1 & H2 & _).
  exists s2'. split_and!; [|done|done]. unfold cryptcheck.
  rewrite (bind_run _ _ s2 ((0, 0, 0), false) s2'); [done|]. simpl.
  rewrite (bind_run _ _ s2 ((0, 0, 0), false) s2'); [done|]. unfold checkarg.
  rewrite decide_False, Hopen by done. simpl. unfold getlines. rewrite Htext, split_lines_ok.
  - by rewrite (bind_run _ _ s2 (0, 0, 0) s2').
  - clear -Hplain HD. revert datas. induction Hplain as [|n names Hn _ IH]; intros [|d datas]; simpl; constructor; auto.
    exists (hex (ref d) ++ lit "  " ++ n). split; [unfold sumline; by rewrite <- !app_assoc|].
    rewrite !not_elem_of_app. pose proof (hex_chars _ (digest_bytes d)) as Hh.
    unfold plain_name in Hn. rewrite !Forall_forall in *.
    split_and!; [intros Hin; by apply Hh in Hin as (_ & _ & ?)| |intros Hin; by apply Hn in Hin as (_ & ? & _)].
    by_decide.
Qed.

Lemma sums_check_roundtrip_witness : ∃ s' out,
  cryptmain sha1_ops (λ n, if decide (n = lit "a.txt") then Some (mkReads [[97]; [98; 99]]%Z false) else None)
    [lit "a.txt"] (mkCstate (mkCtx 0 [] (replicate 64 0%Z)) [] [] [] (mkReads [] false)) = Ok 0%Z s' ∧
  k_out s' = out.
Proof.
  destruct (sums_check_roundtrip sha1_ops 64 20 std_sha1
    (λ n, if decide (n = lit "a.txt") then Some (mkReads [[97]; [98; 99]]%Z false) else None)
    [lit "a.txt"] [[97; 98; 99]%Z] (mkCstate (mkCtx 0 [] (replicate 64 0%Z)) [] [] [] (mkReads [] false)))
    as (s' & out & H1 & H2 & _).
  - exact sha1_digest.
  - discriminate.
  - constructor; [|constructor]. exists (mkReads [[97]; [98; 99]]%Z false). split_and!; reflexivity.
  - by_decide.
  - reflexivity.
  - exists s', out. split; [exact H1|exact H2].
Defined.
