(* ===== verification/Base64Facts.v ===== *)
(** * base64: RFC 4648 and the round trip

    The bit-string reference, the encoder against it, the decoder on groups of
    four characters, and both streams. *)

From S2P Require Import Prelude CString Strtonum StrList Args Stdio Base64.

Local Open Scope Z_scope.

(** ** Bit strings *)

Lemma testbit_high x m y k : 0 ≤ m → 0 ≤ y < 2 ^ m → 0 ≤ k →
  Z.testbit (x * 2 ^ m + y) (k + m) = Z.testbit x k.
Proof.
  intros Hm Hy Hk. rewrite !Z.testbit_odd, !Z.shiftr_div_pow2 by lia.
  rewrite Z.add_comm with (n := k), Z.pow_add_r, <- Z.div_div by lia.
  by rewrite Z.div_add_l, (Z.div_small y), Z.add_0_r by lia.
Qed.

Lemma testbit_low x m y k : 0 ≤ k < m → Z.testbit (x * 2 ^ m + y) k = Z.testbit y k.
Proof.
  intros Hk. rewrite <- (Z.mod_pow2_bits_low (x * 2 ^ m + y) m k), <- (Z.mod_pow2_bits_low y m k) by lia.
  by rewrite Z.add_comm, Z.mod_add by lia.
Qed.

Lemma bits_ext n x y : (∀ k, 0 ≤ k < Z.of_nat n → Z.testbit x k = Z.testbit y k) → bits n x = bits n y.
Proof. induction n as [|n IH]; intros H; simpl; [done|]. rewrite H, IH; [done|intros; apply H; lia|lia]. Qed.

Lemma bits_app n m x y : 0 ≤ y < 2 ^ Z.of_nat m →
  bits (n + m) (x * 2 ^ Z.of_nat m + y) = bits n x ++ bits m y.
Proof.
  intros Hy. induction n as [|n IH]; simpl.
  - apply bits_ext. intros k Hk. apply testbit_low. lia.
  - rewrite IH, Nat2Z.inj_add, testbit_high by lia. done.
Qed.

Lemma length_bits n x : length (bits n x) = n.
Proof. induction n; simpl; congruence. Qed.

Lemma unbits_bits d : 0 ≤ d < 64 → unbits (bits 6 d) = d.
Proof. revert d. apply (range_forall 64). by_decide. Qed.

(** The fuel of [sextets] only has to reach the end of the bits. *)
Lemma sextets_fuel f l : (length l ≤ f)%nat → sextets f l = sextets (length l) l.
Proof.
  remember (length l) as n eqn:Hn. revert f l Hn. induction (lt_wf n) as [n _ IH]. intros f l -> Hf.
  destruct l as [|b l]; [by destruct f|]. destruct f as [|f]; [simpl in Hf; lia|]. simpl. f_equal.
  assert (length (drop 5 l) ≤ length l)%nat by (rewrite length_drop; lia).
  simpl in *. pose proof (λ f, IH (length (drop 5 l)) ltac:(lia) f (drop 5 l) eq_refl) as Hd.
  by rewrite (Hd f), (Hd (length l)) by lia.
Qed.

(** A whole sextet, and the last bits. *)
Lemma sextets_step f d l : 0 ≤ d < 64 → sextets (S f) (bits 6 d ++ l) = d :: sextets f l.
Proof. intros Hd. simpl. f_equal. by apply unbits_bits. Qed.

Lemma sextets_cons d l : 0 ≤ d < 64 →
  sextets (length (bits 6 d ++ l)) (bits 6 d ++ l) = d :: sextets (length l) l.
Proof.
  intros Hd. rewrite length_app, length_bits. change (6 + length l)%nat with (S (5 + length l)).
  rewrite sextets_step by done. f_equal. apply sextets_fuel. lia.
Qed.

Lemma sextets_last n k y : (0 < n)%nat → (n + k = 6)%nat → 0 ≤ y < 2 ^ Z.of_nat n →
  sextets (length (bits n y)) (bits n y) = [y * 2 ^ Z.of_nat k].
Proof.
  intros Hn Hk Hy. assert (bits n y ++ bits k 0 = bits 6 (y * 2 ^ Z.of_nat k)) as Hb.
  { rewrite <- (bits_app n k y 0) by lia. by rewrite Z.add_0_r, Hk. }
  assert (2 ^ Z.of_nat n * 2 ^ Z.of_nat k = 64) as Hp.
  { rewrite <- Z.pow_add_r, <- Nat2Z.inj_add, Hk by lia. done. }
  rewrite length_bits. destruct n as [|n]; [lia|]. cbn [sextets bits]. f_equal.
  - change (Z.testbit y (Z.of_nat n) :: bits n y) with (bits (S n) y).
    rewrite <- (unbits_bits (y * 2 ^ Z.of_nat k)), <- Hb by nia. f_equal.
    replace (replicate 5 false) with (bits k 0 ++ replicate n false).
    + rewrite app_assoc, take_app_length'; [done|]. rewrite length_app, !length_bits. lia.
    + assert (k = 5 - n)%nat as -> by lia. do 6 (destruct n as [|n]; [reflexivity|]). lia.
  - simpl. rewrite drop_ge by (rewrite length_bits; lia). by destruct n.
Qed.

(** ** The encoder *)

Lemma list_ind3 {A} (P : list A → Prop) :
  P [] → (∀ a, P [a]) → (∀ a b, P [a; b]) → (∀ a b c l, P l → P (a :: b :: c :: l)) → ∀ l, P l.
Proof.
  intros H0 H1 H2 H3. fix IH 1. intros [|a [|b [|c l]]]; [done|apply H1|apply H2|apply H3, IH].
Qed.

Lemma land_byte b : is_byte b → Z.land b 255 = b.
Proof.
  intros Hb. change 255 with (Z.ones 8). unfold is_byte in Hb. by rewrite Z.land_ones, Z.mod_small by lia.
Qed.

(** The value of three bytes, and its sextets. *)
Definition quantum (a b c : Z) : Z := a * 65536 + b * 256 + c.

Lemma quantum_range a b c : is_byte a → is_byte b → is_byte c → 0 ≤ quantum a b c < 16777216.
Proof. unfold is_byte, quantum. lia. Qed.

Lemma quantum_lor a b c : is_byte a → is_byte b → is_byte c →
  Z.lor (Z.lor (Z.shiftl a 16) c) (Z.shiftl b 8) = quantum a b c.
Proof.
  unfold is_byte, quantum. intros Ha Hb Hc.
  rewrite <- Z.lor_assoc, (Z.lor_comm c), (lor_high 8), (lor_high 16) by lia. lia.
Qed.

Lemma land_63 x : Z.land x 63 = x mod 64.
Proof. apply (Z.land_ones x 6). lia. Qed.

Lemma encode_group3 a b c : is_byte a → is_byte b → is_byte c →
  encode_group a (Some b) (Some c) =
  map b64_at [quantum a b c / 262144; quantum a b c / 4096 mod 64; quantum a b c / 64 mod 64; quantum a b c mod 64].
Proof.
  intros Ha Hb Hc. unfold encode_group. rewrite !land_byte, quantum_lor, !land_63, !Z.shiftr_div_pow2 by (done || lia).
  assert (Z.lor (Z.shiftl a 16) c mod 64 = quantum a b c mod 64) as ->; [|done].
  unfold is_byte, quantum in *. rewrite (lor_high 16) by lia. dlia.
Qed.
Lemma encode_group2 a b : is_byte a → is_byte b →
  encode_group a (Some b) None =
  map b64_at [quantum a b 0 / 262144; quantum a b 0 / 4096 mod 64; quantum a b 0 / 64 mod 64] ++ [EQ].
Proof.
  intros Ha Hb. unfold encode_group. rewrite !land_byte by done.
  pose proof (quantum_lor a b 0) as Hq. rewrite Z.lor_0_r in Hq.
  rewrite Hq, !land_63, !Z.shiftr_div_pow2 by (done || lia). done.
Qed.
Lemma encode_group1 a : is_byte a →
  encode_group a None None =
  map b64_at [quantum a 0 0 / 262144; quantum a 0 0 / 4096 mod 64] ++ [EQ; EQ].
Proof.
  intros Ha. unfold encode_group. rewrite !land_byte by done.
  pose proof (quantum_lor a 0 0) as Hq. rewrite Z.shiftl_0_l, !Z.lor_0_r in Hq.
  rewrite Hq, !land_63, !Z.shiftr_div_pow2 by (done || lia). done.
Qed.

(** A number in radix 64, most significant digit first. *)
Lemma bits_digits d0 d1 d2 d3 : 0 ≤ d1 < 64 → 0 ≤ d2 < 64 → 0 ≤ d3 < 64 →
  bits 24 (((d0 * 64 + d1) * 64 + d2) * 64 + d3) = bits 6 d0 ++ bits 6 d1 ++ bits 6 d2 ++ bits 6 d3.
Proof.
  intros. rewrite !app_assoc. change 64 with (2 ^ Z.of_nat 6).
  rewrite (bits_app 18 6), (bits_app 12 6), (bits_app 6 6) by done. done.
Qed.
Lemma bits_bytes a b c : is_byte b → is_byte c →
  bits 24 (quantum a b c) = bits 8 a ++ bits 8 b ++ bits 8 c.
Proof.
  intros. unfold quantum. replace (a * 65536 + b * 256 + c) with ((a * 2 ^ Z.of_nat 8 + b) * 2 ^ Z.of_nat 8 + c) by lia.
  rewrite app_assoc, (bits_app 16 8), (bits_app 8 8) by done. done.
Qed.

Lemma quantum_digits a b c : is_byte a → is_byte b → is_byte c →
  let N := quantum a b c in
  N = ((N / 262144 * 64 + N / 4096 mod 64) * 64 + N / 64 mod 64) * 64 + N mod 64 ∧
  0 ≤ N / 262144 < 64 ∧ 0 ≤ N / 4096 mod 64 < 64 ∧ 0 ≤ N / 64 mod 64 < 64 ∧ 0 ≤ N mod 64 < 64.
Proof. intros Ha Hb Hc N. pose proof (quantum_range a b c Ha Hb Hc). subst N. split_and!; dlia. Qed.

(** The sextets of three bytes, of two and of one. *)
Lemma sextets3 a b c l : is_byte a → is_byte b → is_byte c →
  let N := quantum a b c in
  let bs := bits 8 a ++ bits 8 b ++ bits 8 c ++ l in
  sextets (length bs) bs = [N / 262144; N / 4096 mod 64; N / 64 mod 64; N mod 64] ++ sextets (length l) l.
Proof.
  intros Ha Hb Hc N bs. destruct (quantum_digits a b c Ha Hb Hc) as (HN & ? & ? & ? & ?).
  assert (bs = (bits 8 a ++ bits 8 b ++ bits 8 c) ++ l) as -> by (subst bs; by rewrite <- !app_assoc).
  rewrite <- bits_bytes, HN, bits_digits, <- !app_assoc by done.
  by rewrite !sextets_cons by done.
Qed.
Lemma sextets2 a b : is_byte a → is_byte b →
  let N := quantum a b 0 in
  let bs := bits 8 a ++ bits 8 b in
  sextets (length bs) bs = [N / 262144; N / 4096 mod 64; N / 64 mod 64].
Proof.
  intros Ha Hb N bs. assert (is_byte 0) as H0 by done.
  destruct (quantum_digits a b 0 Ha Hb H0) as (HN & H1 & H2 & H3 & _). fold N in HN, H1, H2, H3.
  assert (bs = bits 6 (N / 262144) ++ bits 6 (N / 4096 mod 64) ++ bits 4 (N / 256 mod 16)) as ->.
  { subst bs. transitivity (bits 16 (a * 2 ^ Z.of_nat 8 + b)); [by rewrite <- (bits_app 8 8)|].
    rewrite <- (bits_app 6 4), <- (bits_app 6 10) by dlia. change (6 + (6 + 4))%nat with 16%nat. f_equal.
    subst N. unfold quantum, is_byte in *. change (2 ^ Z.of_nat 8) with 256. change (2 ^ Z.of_nat 10) with 1024.
    change (2 ^ Z.of_nat 4) with 16. dlia. }
  rewrite !sextets_cons, (sextets_last 4 2) by (lia || dlia). do 3 f_equal.
  subst N. unfold quantum, is_byte in *. change (2 ^ Z.of_nat 2) with 4. f_equal. dlia.
Qed.
Lemma sextets1 a : is_byte a →
  let N := quantum a 0 0 in sextets (length (bits 8 a)) (bits 8 a) = [N / 262144; N / 4096 mod 64].
Proof.
  intros Ha N. assert (is_byte 0) as H0 by done.
  destruct (quantum_digits a 0 0 Ha H0 H0) as (HN & H1 & H2 & _). fold N in HN, H1, H2.
  assert (bits 8 a = bits 6 (N / 262144) ++ bits 2 (N / 65536 mod 4)) as ->.
  { rewrite <- (bits_app 6 2) by dlia. change (6 + 2)%nat with 8%nat. f_equal.
    subst N. unfold quantum, is_byte in *. change (2 ^ Z.of_nat 2) with 4. dlia. }
  rewrite sextets_cons, (sextets_last 2 4) by (lia || dlia). do 2 f_equal.
  subst N. unfold quantum, is_byte in *. change (2 ^ Z.of_nat 4) with 16. f_equal. dlia.
Qed.

Lemma rfc4648_cons a b c l : is_byte a → is_byte b → is_byte c →
  rfc4648 (a :: b :: c :: l) = encode_group a (Some b) (Some c) ++ rfc4648 l.
Proof.
  intros Ha Hb Hc. unfold rfc4648. cbn [map concat]. rewrite sextets3, encode_group3, map_app, <- app_assoc by done.
  f_equal. f_equal. rewrite length_app. cbn [length map]. f_equal. f_equal. f_equal.
  rewrite Nat.add_comm. exact (Nat.Div0.mod_add _ 1 4).
Qed.

Lemma base64_encode_rfc data : Forall is_byte data → base64_encode data = rfc4648 data.
Proof.
  induction data as [|a|a b|a b c data IH] using list_ind3; intros Hd; rewrite ?Forall_cons in Hd; destruct_and?.
  - done.
  - simpl. rewrite encode_group1 by done. unfold rfc4648. cbn [map concat]. by rewrite app_nil_r, sextets1.
  - simpl. rewrite encode_group2 by done. unfold rfc4648. cbn [map concat]. by rewrite app_nil_r, sextets2.
  - rewrite rfc4648_cons by done. simpl. by rewrite IH.
Qed.

(** ** The decoder *)

(** The alphabet decodes to itself and has no padding sign in it. *)
Lemma b64_at_ok d : 0 ≤ d < 64 →
  b64_val (b64_at d) = d ∧ b64_at d ≠ EQ ∧ is_b64 (b64_at d) = true ∧ is_blank (b64_at d) = false ∧
  ¬ (b64_size ≤ b64_at d ∨ (b64_val (b64_at d) = 0 ∧ b64_at d ≠ byte_of "A")).
Proof.
  revert d. apply (range_forall 64). by_decide.
Qed.

(** Shifting in a sextet, modulo the width of the accumulator. *)
Lemma shift_in x d : 0 ≤ d < 64 → ∃ k, Z.lor (Z.shiftl x 6 mod 2 ^ 64) d = x * 64 + d - k * 2 ^ 64.
Proof.
  intros Hd. exists (x * 64 / 2 ^ 64).
  replace (Z.shiftl x 6 mod 2 ^ 64) with (Z.shiftl (x mod 2 ^ 58) 6).
  - rewrite lor_high by lia. Z.to_euclidean_division_equations; lia.
  - rewrite !Z.shiftl_mul_pow2 by lia. Z.to_euclidean_division_equations; lia.
Qed.

(** A character the decoder takes before [src], and the padding after it. *)
Definition takes (pad : nat) (c : Z) (src : list Z) (d : Z) (pad' : nat) : Prop :=
  b64_val c = d ∧ 0 ≤ d < 64 ∧
  (is_pad c src = true ∧ pad' = S pad ∨
   is_pad c src = false ∧ ¬ (b64_size ≤ c ∨ (b64_val c = 0 ∧ c ≠ byte_of "A")) ∧ pad' = pad).

Lemma takes_digit pad d src : 0 ≤ d < 64 → takes pad (b64_at d) src d pad.
Proof.
  intros Hd. destruct (b64_at_ok d Hd) as (Hv & Hne & _ & _ & Hok). split; [done|split; [done|]]. right.
  split_and!; [|done..]. unfold is_pad. by rewrite bool_decide_eq_false_2.
Qed.
Lemma takes_pad pad src : src = [] ∨ src = [EQ] → takes pad EQ src 0 (S pad).
Proof. intros [-> | ->]; (split; [done|split; [lia|by left]]). Qed.

Lemma decode_takes i x pad dst c src d pad' : takes pad c src d pad' →
  ∃ k, decode_loop i x pad dst (c :: src) =
  let x := x * 64 + d - k * 2 ^ 64 in
  if decide (i mod 4 = 3)%nat then
    decode_loop (S i) (Z.shiftr (Z.shiftr x 8) 8) pad'
      (dst ++ [Z.land (Z.shiftr (Z.shiftr x 8) 8) 255; Z.land (Z.shiftr x 8) 255; Z.land x 255]) src
  else decode_loop (S i) x pad' dst src.
Proof.
  intros (Hv & Hd & H). destruct (shift_in x d Hd) as [k Hk]. exists k. cbn [decode_loop]. rewrite Hv, Hk.
  destruct H as [[-> ->] | (-> & Hok & ->)]; [done|]. rewrite Hv in Hok. by rewrite decide_False by done.
Qed.

Lemma quantum_bytes y a b c : is_byte a → is_byte b → is_byte c →
  let x := y * 16777216 + quantum a b c in
  [Z.land (Z.shiftr (Z.shiftr x 8) 8) 255; Z.land (Z.shiftr x 8) 255; Z.land x 255] = [a; b; c].
Proof.
  intros Ha Hb Hc x. change 255 with (Z.ones 8). rewrite !Z.land_ones, !Z.shiftr_div_pow2 by lia.
  subst x. change (2 ^ 8) with 256.
  unfold quantum, is_byte in *. f_equal; [dlia|f_equal; [dlia|f_equal; dlia]].
Qed.

(** A group of four characters stores the three bytes of their value. *)
Lemma decode_quad m x pad dst c0 c1 c2 c3 src d0 d1 d2 d3 p1 p2 p3 p4 a b c :
  takes pad c0 (c1 :: c2 :: c3 :: src) d0 p1 → takes p1 c1 (c2 :: c3 :: src) d1 p2 →
  takes p2 c2 (c3 :: src) d2 p3 → takes p3 c3 src d3 p4 →
  is_byte a → is_byte b → is_byte c → quantum a b c = ((d0 * 64 + d1) * 64 + d2) * 64 + d3 →
  ∃ x', decode_loop (4 * m) x pad dst (c0 :: c1 :: c2 :: c3 :: src) =
        decode_loop (4 * (m + 1)) x' p4 (dst ++ [a; b; c]) src.
Proof.
  intros H0 H1 H2 H3 Ha Hb Hc HN.
  assert (∀ j, j < 4 → (j + 4 * m) mod 4 = j)%nat as Hmod.
  { intros j Hj. rewrite Nat.mul_comm, Nat.Div0.mod_add. by apply Nat.mod_small. }
  pose proof (Hmod 0%nat ltac:(lia)) as Hm0. pose proof (Hmod 1%nat ltac:(lia)) as Hm1.
  pose proof (Hmod 2%nat ltac:(lia)) as Hm2. pose proof (Hmod 3%nat ltac:(lia)) as Hm3. cbn [Nat.add] in *.
  destruct (decode_takes (4 * m) x pad dst _ _ _ _ H0) as [k0 ->]. cbv zeta.
  rewrite decide_False by (by rewrite Hm0).
  edestruct (decode_takes (S (4 * m))) as [k1 ->]; [exact H1|]. cbv zeta.
  rewrite decide_False by (by rewrite Hm1).
  edestruct (decode_takes (S (S (4 * m)))) as [k2 ->]; [exact H2|]. cbv zeta.
  rewrite decide_False by (by rewrite Hm2).
  edestruct (decode_takes (S (S (S (4 * m))))) as [k3 ->]; [exact H3|]. cbv zeta.
  rewrite decide_True by done.
  match goal with |- context [Z.land ?X 255] => match X with Z.shiftr _ _ => fail 1 | _ =>
    assert (∃ y, X = y * 16777216 + quantum a b c) as [y ->] end end.
  { rewrite HN. exists (x - (k0 * 2 ^ 58 + k1 * 2 ^ 52 + k2 * 2 ^ 46 + k3 * 2 ^ 40)). lia. }
  rewrite quantum_bytes by done. eexists. f_equal. lia.
Qed.

Lemma decode_encode_from m x dst data : Forall is_byte data →
  ∃ k tail, decode_loop (4 * m) x 0 dst (base64_encode data) = Some (4 * k, length tail, dst ++ data ++ tail)%nat ∧
  (4 * length (data ++ tail) = 3 * length (base64_encode data))%nat.
Proof.
  intros Hd. revert m x dst Hd. assert (is_byte 0) as Z0 by done.
  induction data as [|a|a b|a b c data IH] using list_ind3; intros m x dst Hd.
  - exists m, []. simpl. by rewrite app_nil_r.
  - apply Forall_cons in Hd as [Ha _].
    destruct (quantum_digits a 0 0 Ha Z0 Z0) as (HN & H0 & H1 & _). cbn [base64_encode]. rewrite encode_group1 by done.
    destruct (decode_quad m x 0 dst _ _ EQ EQ [] _ _ 0 0 _ _ _ _ a 0 0 (takes_digit _ _ _ H0) (takes_digit _ _ _ H1)
      (takes_pad _ [EQ] (or_intror eq_refl)) (takes_pad _ [] (or_introl eq_refl)) Ha Z0 Z0) as [x' E].
    { unfold quantum in *. dlia. }
    exists (m + 1)%nat, [0; 0]. split; [exact E|done].
  - apply Forall_cons in Hd as [Ha [Hb _]%Forall_cons].
    destruct (quantum_digits a b 0 Ha Hb Z0) as (HN & H0 & H1 & H2 & _). cbn [base64_encode]. rewrite encode_group2 by done.
    destruct (decode_quad m x 0 dst _ _ _ EQ [] _ _ _ 0 _ _ _ _ a b 0 (takes_digit _ _ _ H0) (takes_digit _ _ _ H1)
      (takes_digit _ _ _ H2) (takes_pad _ [] (or_introl eq_refl)) Ha Hb Z0) as [x' E].
    { unfold quantum in *. dlia. }
    exists (m + 1)%nat, [0]. split; [exact E|done].
  - apply Forall_cons in Hd as [Ha [Hb [Hc Hd]%Forall_cons]%Forall_cons].
    destruct (quantum_digits a b c Ha Hb Hc) as (HN & H0 & H1 & H2 & H3). cbn [base64_encode]. rewrite encode_group3 by done.
    destruct (decode_quad m x 0 dst _ _ _ _ (base64_encode data) _ _ _ _ _ _ _ _ a b c (takes_digit _ _ _ H0)
      (takes_digit _ _ _ H1) (takes_digit _ _ _ H2) (takes_digit _ _ _ H3) Ha Hb Hc HN) as [x' E].
    cbn [map app] in *. rewrite E.
    destruct (IH (m + 1)%nat x' (dst ++ [a; b; c]) Hd) as (k & tail & -> & Hlen).
    exists k, tail. rewrite <- app_assoc. split; [done|]. simpl. lia.
Qed.

(** Decoding an encoding stores the data, and at most two bytes more. *)
Lemma decode_encode data : Forall is_byte data →
  ∃ tail, base64_decode (base64_encode data) = (data ++ tail, length data) ∧
  (4 * length (data ++ tail) = 3 * length (base64_encode data))%nat.
Proof.
  intros Hd. destruct (decode_encode_from 0 0 [] data Hd) as (k & tail & H & Hlen). exists tail. split; [|done].
  unfold base64_decode. change 0%nat with (4 * 0)%nat at 1. rewrite H.
  rewrite decide_False by (rewrite Nat.mul_comm, Nat.Div0.mod_mul; lia). f_equal. simpl. rewrite length_app. lia.
Qed.

(** ** Streams *)

Lemma decode_chars_blank iflag l : ∀ inb s,
  decode_chars iflag inb l s = decode_chars iflag inb (filter (λ c, is_blank c = false) l) s.
Proof.
  induction l as [|c l IH]; intros inb s; [done|]. rewrite filter_cons.
  destruct (decide (is_blank c = false)) as [Eb|Eb%not_false_iff_true]; cbn [decode_chars]; rewrite Eb; [|apply IH].
  destruct (is_b64 c); [|destruct iflag; [apply IH|done]]. case_decide; [|apply IH].
  destruct (base64_decode (inb ++ [c])) as [out n]. case_decide; [done|]. case_decide; [|done].
  unfold mbind, put, modify. case_decide; [done|apply IH].
Qed.

(** The characters of an encoding are neither blank nor rejected. *)
Lemma encode_chars data : Forall is_byte data →
  Forall (λ c, is_b64 c = true ∧ is_blank c = false) (base64_encode data).
Proof.
  assert (∀ d, 0 ≤ d < 64 → is_b64 (b64_at d) = true ∧ is_blank (b64_at d) = false) as Hc.
  { intros d Hd. by destruct (b64_at_ok d Hd) as (_ & _ & ? & ? & _). }
  assert (is_byte 0) as Z0 by done.
  induction data as [|a|a b|a b c data IH] using list_ind3; intros Hd.
  - constructor.
  - apply Forall_cons in Hd as [Ha _]. destruct (quantum_digits a 0 0 Ha Z0 Z0) as (_ & H0 & H1 & _).
    cbn [base64_encode]. rewrite encode_group1 by done. repeat constructor; by apply Hc.
  - apply Forall_cons in Hd as [Ha [Hb _]%Forall_cons].
    destruct (quantum_digits a b 0 Ha Hb Z0) as (_ & H0 & H1 & H2 & _).
    cbn [base64_encode]. rewrite encode_group2 by done. repeat constructor; by apply Hc.
  - apply Forall_cons in Hd as [Ha [Hb [Hc' Hd]%Forall_cons]%Forall_cons].
    destruct (quantum_digits a b c Ha Hb Hc') as (_ & H0 & H1 & H2 & H3).
    cbn [base64_encode]. rewrite encode_group3 by done. apply Forall_app. split; [|by apply IH].
    repeat constructor; by apply Hc.
Qed.

(** A group of the stream: its bytes are written, and padding ends the loop. *)
Lemma decode_chars_group iflag grp rest s : Forall is_byte grp → length (base64_encode grp) = 4%nat →
  decode_chars iflag [] (base64_encode grp ++ rest) s =
  (if decide (EQ ∈ base64_encode grp) then mret (base64_encode grp) else decode_chars iflag [] rest) (s ++ grp).
Proof.
  intros Hg Hl. destruct (decode_encode grp Hg) as (tail & Hdec & Hlen). pose proof (encode_chars grp Hg) as Hch.
  rewrite Hl in Hlen. assert (0 < length grp)%nat by (destruct grp; simpl in *; lia).
  destruct (base64_encode grp) as [|c0 [|c1 [|c2 [|c3 [|??]]]]] eqn:E; try done.
  rewrite !Forall_cons in Hch. destruct Hch as ([B0 K0] & [B1 K1] & [B2 K2] & [B3 K3] & _).
  cbn [app decode_chars]. rewrite K0, B0. cbn [length app decide]. rewrite K1, B1, K2, B2, K3, B3. simpl.
  rewrite Hdec. rewrite decide_False by lia. rewrite decide_True by lia.
  unfold mbind, put, modify. rewrite take_app_length. done.
Qed.

Lemma decode_chars_all iflag data s : Forall is_byte data →
  ∃ inb, decode_chars iflag [] (base64_encode data) s = Ok inb (s ++ data) ∧
         (inb = [] ↔ (length data mod 3 = 0)%nat).
Proof.
  assert (is_byte 0) as Z0 by done. revert s.
  induction data as [|a|a b|a b c data IH] using list_ind3; intros s Hd.
  - exists []. simpl. by rewrite app_nil_r.
  - exists (base64_encode [a]). rewrite <- (app_nil_r (base64_encode [a])) at 1.
    rewrite decode_chars_group, decide_True by (done || by repeat constructor). done.
  - exists (base64_encode [a; b]). rewrite <- (app_nil_r (base64_encode [a; b])) at 1.
    rewrite decode_chars_group, decide_True by (done || by repeat constructor). done.
  - rewrite !Forall_cons in Hd. destruct Hd as (Ha & Hb & Hc & Hd).
    assert (EQ ∉ base64_encode [a; b; c]) as Hne.
    { destruct (quantum_digits a b c Ha Hb Hc) as (_ & H0 & H1 & H2 & H3). cbn [base64_encode].
      rewrite encode_group3, app_nil_r by done. cbn [map]. rewrite !elem_of_cons, elem_of_nil.
      destruct (b64_at_ok _ H0) as (_ & N0 & _), (b64_at_ok _ H1) as (_ & N1 & _),
        (b64_at_ok _ H2) as (_ & N2 & _), (b64_at_ok _ H3) as (_ & N3 & _). intuition congruence. }
    change (base64_encode (a :: b :: c :: data)) with (base64_encode [a; b; c] ++ base64_encode data).
    rewrite decode_chars_group, decide_False by (done || by repeat (apply Forall_cons_2; [done|])).
    destruct (IH (s ++ [a; b; c]) Hd) as (inb & E & Hi). exists inb. split; [by rewrite E, <- app_assoc|].
    rewrite Hi. cbn [length]. replace (S (S (S (length data)))) with (length data + 1 * 3)%nat by lia.
    by rewrite Nat.Div0.mod_add.
Qed.

Lemma base64_encode_app l1 l2 : (length l1 mod 3 = 0)%nat →
  base64_encode (l1 ++ l2) = base64_encode l1 ++ base64_encode l2.
Proof.
  induction l1 as [|a|a b|a b c l1 IH] using list_ind3; try done. intros Hm. cbn [base64_encode app].
  rewrite IH, <- app_assoc; [done|]. cbn [length] in Hm.
  replace (S (S (S (length l1)))) with (length l1 + 1 * 3)%nat in Hm by lia. by rewrite Nat.Div0.mod_add in Hm.
Qed.
Lemma base64_encode_blocks bs b : Forall (λ l, length l mod 3 = 0)%nat bs →
  base64_encode (concat (bs ++ [b])) = concat (map base64_encode (bs ++ [b])).
Proof.
  induction 1 as [|l bs Hl _ IH]; simpl; [by rewrite !app_nil_r|]. by rewrite base64_encode_app, IH.
Qed.
Lemma length_base64_encode l : length (base64_encode l) = (4 * ((length l + 2) / 3))%nat.
Proof.
  induction l as [|a|a b|a b c l IH] using list_ind3; try done. cbn [base64_encode]. rewrite length_app, IH.
  cbn [length]. replace (S (S (S (length l))) + 2)%nat with ((length l + 2) + 1 * 3)%nat by lia.
  rewrite Nat.div_add by lia. simpl. lia.
Qed.

(** Lines of [w] characters, the last one possibly shorter; no lines for 0. *)
Definition wrap_lines (w : nat) (text : list Z) : list Z :=
  if decide (w = 0)%nat then text else concat (map (λ l, l ++ [byte_of NL]) (blocks_from (length text) w text)).

Lemma put_wrapped_app w col l1 l2 s :
  put_wrapped w col (l1 ++ l2) s = (col' <- put_wrapped w col l1 ;; put_wrapped w col' l2) s.
Proof.
  revert col s. induction l1 as [|c l1 IH]; intros col s; [done|]. cbn [app put_wrapped].
  unfold mbind, put, modify in *. case_decide; [case_decide|]; by rewrite IH.
Qed.

Lemma blocks_from_fuel f k l : (0 < k)%nat → (length l ≤ f)%nat → blocks_from f k l = blocks_from (length l) k l.
Proof.
  intros Hk. remember (length l) as n eqn:Hn. revert f l Hn. induction (lt_wf n) as [n _ IH]. intros f l -> Hf.
  destruct l as [|b l]; [by destruct f|]. destruct f as [|f]; [simpl in Hf; lia|]. cbn [blocks_from length]. f_equal.
  set (r := drop k (b :: l)). assert (length r ≤ length l)%nat as Hr by (subst r; rewrite length_drop; simpl; lia).
  simpl in Hf. rewrite (IH (length r) ltac:(simpl; lia) f r eq_refl) by lia.
  by rewrite (IH (length r) ltac:(simpl; lia) (length l) r eq_refl).
Qed.

Lemma wrap_lines_full w q l : (0 < w)%nat → length q = w → wrap_lines w (q ++ l) = q ++ byte_of NL :: wrap_lines w l.
Proof.
  intros Hw Hq. unfold wrap_lines. rewrite !decide_False by lia.
  destruct q as [|x q]; [simpl in Hq; lia|]. cbn [app length blocks_from].
  change (x :: q ++ l) with ((x :: q) ++ l). rewrite take_app_length', drop_app_length' by done.
  rewrite blocks_from_fuel by (rewrite ?length_app; lia). cbn [map concat]. by rewrite <- app_assoc.
Qed.
Lemma wrap_lines_short w q : (0 < length q < w)%nat → wrap_lines w q = q ++ [byte_of NL].
Proof.
  intros Hq. unfold wrap_lines. rewrite decide_False by lia. destruct q as [|x q]; [simpl in Hq; lia|].
  cbn [length blocks_from]. rewrite take_ge, drop_ge, blocks_from_nil by lia. simpl. by rewrite app_nil_r.
Qed.

(** From column [length p] on, the loop completes the line [p]. *)
Lemma put_wrapped_lines w p l s : (0 < w)%nat → (length p < w)%nat →
  ∃ col e, put_wrapped (Z.of_nat w) (Z.of_nat (length p)) l s = Ok (Z.of_nat col) (s ++ e) ∧
           wrap_lines w (p ++ l) = p ++ e ++ (if decide (0 < col)%nat then [byte_of NL] else []).
Proof.
  intros Hw. revert p s. induction l as [|c l IH]; intros p s Hp; cbn [put_wrapped].
  - exists (length p), []. rewrite !app_nil_r. split; [done|]. simpl. case_decide.
    + by rewrite wrap_lines_short by lia.
    + destruct p; [|simpl in *; lia]. unfold wrap_lines. by case_decide.
  - unfold mbind at 1. unfold put at 1, modify at 1. rewrite decide_True by lia. case_decide as Hc.
    + unfold mbind, put, modify. destruct (IH [] (s ++ [c] ++ [byte_of NL])) as (col & e & E & Hl); [simpl; lia|].
      change (Z.of_nat (length [])) with 0 in E. rewrite <- app_assoc, E. exists col, (c :: byte_of NL :: e). split; [by rewrite <- app_assoc|].
      change (p ++ c :: l) with (p ++ ([c] ++ l)). rewrite app_assoc, wrap_lines_full by (rewrite ?length_app; simpl; lia).
      simpl in Hl. by rewrite Hl, <- app_assoc.
    + replace (Z.of_nat (length p) + 1) with (Z.of_nat (length (p ++ [c]))) in * by (rewrite length_app; simpl; lia).
      destruct (IH (p ++ [c]) (s ++ [c])) as (col & e & E & Hl); [rewrite length_app in *; simpl in *; lia|].
      rewrite E. exists col, (c :: e). split; [by rewrite <- app_assoc|].
      rewrite <- !app_assoc in Hl. exact Hl.
Qed.
Lemma put_wrapped_zero col l s : put_wrapped 0 col l s = Ok col (s ++ l).
Proof.
  revert s. induction l as [|c l IH]; intros s; cbn [put_wrapped]; [by rewrite app_nil_r|].
  unfold mbind, put, modify. simpl. by rewrite IH, <- app_assoc.
Qed.

(** The blocks of the stream are encoded as one text. *)
Lemma encode_blocks w col fp s :
  mfold (λ col buf,
      let out := base64_encode buf in
      if decide (4096 + 1 < length out + 1)%nat then mub else put_wrapped w col out)
    col (fread_blocks 3072 fp) s = put_wrapped w col (base64_encode (f_bytes fp)) s.
Proof.
  destruct (fread_blocks_ok 3072 fp) as (Hcat & Hlen & Hfull); [lia|].
  rewrite <- Hcat. transitivity (put_wrapped w col (concat (map base64_encode (fread_blocks 3072 fp))) s).
  - clear Hcat Hfull. revert col s. induction Hlen as [|b bs Hb _ IH]; intros col s; [done|].
    cbn [mfold map concat]. rewrite put_wrapped_app. rewrite decide_False.
    + unfold mbind. by destruct (put_wrapped w col (base64_encode b) s).
    + rewrite length_base64_encode. assert ((length b + 2) / 3 ≤ (3072 + 2) / 3)%nat by (apply Nat.Div0.div_le_mono; lia).
      change ((3072 + 2) / 3)%nat with 1024%nat in *. lia.
  - f_equal. destruct (fread_blocks 3072 fp) as [|b bs _] eqn:E using rev_ind; [done|].
    rewrite base64_encode_blocks; [done|]. eapply Forall_impl; [by eapply Hfull|]. by intros l ->.
Qed.

Lemma encode_stream_rfc fp w s : Forall is_byte (f_bytes fp) →
  encode_stream fp (Z.of_nat w) s = Ok tt (s ++ wrap_lines w (rfc4648 (f_bytes fp))).
Proof.
  intros Hb. unfold encode_stream, mbind. rewrite encode_blocks, base64_encode_rfc by done.
  destruct (decide (w = 0)%nat) as [->|Hw].
  - rewrite put_wrapped_zero. done.
  - destruct (put_wrapped_lines w [] (rfc4648 (f_bytes fp)) s) as (col & e & E & Hl); [lia|simpl; lia|].
    change (Z.of_nat (length [])) with 0 in E. rewrite E. simpl in Hl. rewrite Hl. repeat case_decide; try lia; [|by rewrite app_nil_r].
    unfold put, modify. by rewrite <- app_assoc.
Qed.

Lemma filter_app_nl (l : list Z) : filter (λ c, is_blank c = false) (l ++ [byte_of NL]) =
  filter (λ c, is_blank c = false) l.
Proof. rewrite filter_app. apply app_nil_r. Qed.

(** Line breaks aside, the lines are the text. *)
Lemma wrap_lines_unwrap w text : Forall (λ c, is_blank c = false) text →
  filter (λ c, is_blank c = false) (wrap_lines w text) = text.
Proof.
  intros Ht. assert (∀ l, Forall (λ c, is_blank c = false) l → filter (λ c, is_blank c = false) l = l) as Hid.
  { induction 1; [done|]. rewrite filter_cons, decide_True by done. by f_equal. }
  unfold wrap_lines. case_decide as Hw; [by apply Hid|].
  destruct (blocks_from_ok (length text) w text) as (Hcat & _ & _); [lia|done|].
  transitivity (filter (λ c, is_blank c = false) (concat (blocks_from (length text) w text))).
  - generalize (blocks_from (length text) w text) as bs.
    induction bs as [|b bs IH]; [done|]. cbn [map concat]. by rewrite !filter_app, IH, app_nil_r.
  - by rewrite Hcat, Hid.
Qed.

(** C31: For any file of bytes and any line width, base64 writes the RFC 4648
    encoding of the file broken into lines of that width, and base64 -d run on
    that text writes exactly the original bytes.  The decoder then returns
    normally only when the length is a multiple of three: on padded input it
    leaves its loop with the last group still counted and exits with the error
    "input is truncated". *)
Theorem base64_roundtrip (data : list Z) (w : nat) (err iflag : bool) :
  Forall is_byte data →
  ∃ text, encode_stream (mkFile data err) (Z.of_nat w) [] = Ok tt text ∧
  text = wrap_lines w (rfc4648 data) ∧
  decode_stream (mkFile text err) iflag [] =
    (if decide (length data mod 3 = 0)%nat then Ok tt data else Die "input is truncated" data).
Proof.
  intros Hb. exists (wrap_lines w (rfc4648 data)). split; [by rewrite (encode_stream_rfc (mkFile data err))|].
  split; [done|]. unfold decode_stream, mbind. cbn [f_bytes]. pose proof (encode_chars data Hb) as Hch.
  rewrite decode_chars_blank, <- base64_encode_rfc, wrap_lines_unwrap 
    by (done || (apply (Forall_impl _ _ _ Hch); tauto)).
  destruct (decode_chars_all iflag data [] Hb) as (inb & -> & Hi). cbn [app].
  destruct (decide (length data mod 3 = 0)%nat) as [Hm|Hm].
  - by rewrite (proj2 Hi Hm).
  - rewrite decide_True; [done|]. destruct inb; [by destruct Hm; apply Hi|simpl; lia].
Qed.

Lemma base64_roundtrip_witness :
  ∃ text, encode_stream (mkFile (bytes_of "foobar") false) 4 [] = Ok tt text ∧
  decode_stream (mkFile text false) false [] = Ok tt (bytes_of "foobar").
Proof.
  destruct (base64_roundtrip (bytes_of "foobar") 4 false false) as (text & H1 & _ & H2); [by_decide|].
  exists text. split; [exact H1|exact H2].
Defined.
