(* ===== verification/Cksum.v ===== *)
(** * cksum: src/cmd/posix/cksum.c

    The table-driven CRC, the loop over what [read] returns and [main].  The
    checksum is proved to be the one POSIX defines: the remainder of the
    polynomial of the bits of the file and of its length, times x^32, by the
    generator polynomial, complemented. *)

From S2P Require Import Prelude CString StrList Args Stdio Digest DigestFacts Crypt Base64 Base64Facts.

Local Open Scope Z_scope.

Definition crctab : list Z := [
  0x00000000; 0x04c11db7; 0x09823b6e; 0x0d4326d9; 0x130476dc; 0x17c56b6b; 0x1a864db2; 0x1e475005;
  0x2608edb8; 0x22c9f00f; 0x2f8ad6d6; 0x2b4bcb61; 0x350c9b64; 0x31cd86d3; 0x3c8ea00a; 0x384fbdbd;
  0x4c11db70; 0x48d0c6c7; 0x4593e01e; 0x4152fda9; 0x5f15adac; 0x5bd4b01b; 0x569796c2; 0x52568b75;
  0x6a1936c8; 0x6ed82b7f; 0x639b0da6; 0x675a1011; 0x791d4014; 0x7ddc5da3; 0x709f7b7a; 0x745e66cd;
  0x9823b6e0; 0x9ce2ab57; 0x91a18d8e; 0x95609039; 0x8b27c03c; 0x8fe6dd8b; 0x82a5fb52; 0x8664e6e5;
  0xbe2b5b58; 0xbaea46ef; 0xb7a96036; 0xb3687d81; 0xad2f2d84; 0xa9ee3033; 0xa4ad16ea; 0xa06c0b5d;
  0xd4326d90; 0xd0f37027; 0xddb056fe; 0xd9714b49; 0xc7361b4c; 0xc3f706fb; 0xceb42022; 0xca753d95;
  0xf23a8028; 0xf6fb9d9f; 0xfbb8bb46; 0xff79a6f1; 0xe13ef6f4; 0xe5ffeb43; 0xe8bccd9a; 0xec7dd02d;
  0x34867077; 0x30476dc0; 0x3d044b19; 0x39c556ae; 0x278206ab; 0x23431b1c; 0x2e003dc5; 0x2ac12072;
  0x128e9dcf; 0x164f8078; 0x1b0ca6a1; 0x1fcdbb16; 0x018aeb13; 0x054bf6a4; 0x0808d07d; 0x0cc9cdca;
  0x7897ab07; 0x7c56b6b0; 0x71159069; 0x75d48dde; 0x6b93dddb; 0x6f52c06c; 0x6211e6b5; 0x66d0fb02;
  0x5e9f46bf; 0x5a5e5b08; 0x571d7dd1; 0x53dc6066; 0x4d9b3063; 0x495a2dd4; 0x44190b0d; 0x40d816ba;
  0xaca5c697; 0xa864db20; 0xa527fdf9; 0xa1e6e04e; 0xbfa1b04b; 0xbb60adfc; 0xb6238b25; 0xb2e29692;
  0x8aad2b2f; 0x8e6c3698; 0x832f1041; 0x87ee0df6; 0x99a95df3; 0x9d684044; 0x902b669d; 0x94ea7b2a;
  0xe0b41de7; 0xe4750050; 0xe9362689; 0xedf73b3e; 0xf3b06b3b; 0xf771768c; 0xfa325055; 0xfef34de2;
  0xc6bcf05f; 0xc27dede8; 0xcf3ecb31; 0xcbffd686; 0xd5b88683; 0xd1799b34; 0xdc3abded; 0xd8fba05a;
  0x690ce0ee; 0x6dcdfd59; 0x608edb80; 0x644fc637; 0x7a089632; 0x7ec98b85; 0x738aad5c; 0x774bb0eb;
  0x4f040d56; 0x4bc510e1; 0x46863638; 0x42472b8f; 0x5c007b8a; 0x58c1663d; 0x558240e4; 0x51435d53;
  0x251d3b9e; 0x21dc2629; 0x2c9f00f0; 0x285e1d47; 0x36194d42; 0x32d850f5; 0x3f9b762c; 0x3b5a6b9b;
  0x0315d626; 0x07d4cb91; 0x0a97ed48; 0x0e56f0ff; 0x1011a0fa; 0x14d0bd4d; 0x19939b94; 0x1d528623;
  0xf12f560e; 0xf5ee4bb9; 0xf8ad6d60; 0xfc6c70d7; 0xe22b20d2; 0xe6ea3d65; 0xeba91bbc; 0xef68060b;
  0xd727bbb6; 0xd3e6a601; 0xdea580d8; 0xda649d6f; 0xc423cd6a; 0xc0e2d0dd; 0xcda1f604; 0xc960ebb3;
  0xbd3e8d7e; 0xb9ff90c9; 0xb4bcb610; 0xb07daba7; 0xae3afba2; 0xaafbe615; 0xa7b8c0cc; 0xa379dd7b;
  0x9b3660c6; 0x9ff77d71; 0x92b45ba8; 0x9675461f; 0x8832161a; 0x8cf30bad; 0x81b02d74; 0x857130c3;
  0x5d8a9099; 0x594b8d2e; 0x5408abf7; 0x50c9b640; 0x4e8ee645; 0x4a4ffbf2; 0x470cdd2b; 0x43cdc09c;
  0x7b827d21; 0x7f436096; 0x7200464f; 0x76c15bf8; 0x68860bfd; 0x6c47164a; 0x61043093; 0x65c52d24;
  0x119b4be9; 0x155a565e; 0x18197087; 0x1cd86d30; 0x029f3d35; 0x065e2082; 0x0b1d065b; 0x0fdc1bec;
  0x3793a651; 0x3352bbe6; 0x3e119d3f; 0x3ad08088; 0x2497d08d; 0x2056cd3a; 0x2d15ebe3; 0x29d4f654;
  0xc5a92679; 0xc1683bce; 0xcc2b1d17; 0xc8ea00a0; 0xd6ad50a5; 0xd26c4d12; 0xdf2f6bcb; 0xdbee767c;
  0xe3a1cbc1; 0xe760d676; 0xea23f0af; 0xeee2ed18; 0xf0a5bd1d; 0xf464a0aa; 0xf9278673; 0xfde69bc4;
  0x89b8fd09; 0x8d79e0be; 0x803ac667; 0x84fbdbd0; 0x9abc8bd5; 0x9e7d9662; 0x933eb0bb; 0x97ffad0c;
  0xafb010b1; 0xab710d06; 0xa6322bdf; 0xa2f33668; 0xbcb4666d; 0xb8757bda; 0xb5365d03; 0xb1f740b4].

(** [ck = (ck << 8) ^ crctab[(ck >> 24) ^ b]] on 32 bits, with the bounds of the table. *)
Definition crc_byte (ck b : Z) : option Z :=
  t ← crctab !! Z.to_nat (Z.lxor (Z.shiftr ck 24) b);
  Some (Z.lxor (Z.shiftl ck 8) t mod 2 ^ 32).

Definition crc_bytes (ck : Z) (bs : list Z) : option Z :=
  fold_left (λ o b, ck ← o; crc_byte ck b) bs (Some ck).

(** The bytes of [for (i = len; i; i >>= 8)], least significant first. *)
Fixpoint length_bytes (fuel : nat) (i : Z) : list Z :=
  match fuel with
  | O => []
  | S fuel => if decide (i = 0) then [] else Z.land i 255 :: length_bytes fuel (Z.shiftr i 8)
  end.

(** Standard output, the messages on standard error and the static [ret]. *)
Record ckstate := mkCk { ck_out : cstr; ck_err : list cstr; ck_ret : Z }.
#[export] Instance eta_ckstate : Eta ckstate := λ s, mkCk (ck_out s) (ck_err s) (ck_ret s).

Definition ck_fail (msg : cstr) : M ckstate unit :=
  modify (set ck_err (λ l, l ++ [msg])) ;; modify (set ck_ret (λ _, 1)).

(** The descriptor and its name, [None] for standard input without operands;
    [len] has 64 bits, so at most eight rounds of the last loop. *)
Definition cksum (fd : reads) (s : option cstr) : M ckstate unit :=
  p <- mfold (λ '(ck, len) buf,
         ck <- deref (crc_bytes ck buf) ;;
         mret (ck, (len + Z.of_nat (length buf)) mod 2 ^ 64)) (0, 0) (rd_chunks fd) ;;
  let '(ck, len) := p in
  if rd_error fd then ck_fail ("read " ++ default (lit "<stdin>") s ++ ":")%list
  else
    ck <- deref (crc_bytes ck (length_bytes 8 len)) ;;
    modify (set ck_out (λ o, o ++ lit (pretty (Z.lxor ck (2 ^ 32 - 1))) ++ lit " " ++ lit (pretty len)
                              ++ match s with Some s => lit " " ++ s | None => [] end ++ [NL])).

Section main.
Context (open_file : cstr → option reads) (stdin : reads) (out_error : bool).

Definition ck_usage {A} (argv0 : cstr) : M ckstate A :=
  eprintf ("usage: " ++ argv0 ++ " [file ...]")%list.

(** One operand; standard input can be named several times and is then at its end. *)
Definition ck_operand (used : bool) (arg : cstr) : M ckstate bool :=
  if decide (arg = lit "-") then
    cksum (if used then mkReads [] (rd_error stdin) else stdin) (Some (lit "<stdin>")) ;; mret true
  else
    match open_file arg with
    | None => ck_fail ("open " ++ arg ++ ":")%list ;; mret used
    | Some fd => cksum fd (Some arg) ;; mret used
    end.

Definition ck_main (argv0 : cstr) (args : StrList) : M ckstate Z :=
  p <- argbegin (λ _, false) (λ _ _ o, mret o) (λ _ _, ck_usage argv0) (ck_usage argv0) args tt ;;
  (match fst p with
   | [] => cksum stdin None
   | argv => mfold ck_operand false argv ;; mret tt
   end) ;;
  ret <- gets ck_ret ;;
  mret (if out_error then 1 else ret).
End main.

Example cksum_abc : cksum (mkReads [bytes_of "ab"; bytes_of "c"] false) None (mkCk [] [] 0)
  = Ok tt (mkCk ("1219131554 3" ++ [NL])%list [] 0).
Proof. vm_compute. reflexivity. Qed.

(** ** The definition of POSIX *)

(** x^32 + x^26 + ... + 1, without its leading term. *)
Definition POLY : Z := 0x04c11db7.

(** One bit of the message: the register times x plus the bit times x^32, reduced. *)
Definition crc_bit (r : Z) (b : bool) : Z :=
  Z.lxor (Z.land (Z.shiftl r 1) (Z.ones 32)) (if xorb (Z.testbit r 31) b then POLY else 0).
Definition crc_bits (r : Z) (bs : list bool) : Z := fold_left crc_bit bs r.

(** The product of the generator polynomial and of one with the given
    coefficients, highest first, over the field of two elements. *)
Definition times_generator (qs : list bool) : Z :=
  fold_left (λ acc q, Z.lxor (2 * acc) (if q : bool then 2 ^ 32 + POLY else 0)) qs 0.

(** [r] is the remainder of the message polynomial times x^32. *)
Definition crc_remainder (msg : list bool) (r : Z) : Prop :=
  0 ≤ r < 2 ^ 32 ∧ ∃ qs, Z.shiftl (unbits msg) 32 = Z.lxor (times_generator qs) r.

(** The octets of a number, least significant first, and no more than needed. *)
Definition octets (n : Z) (bs : list Z) : Prop :=
  Forall is_byte bs ∧ fold_right (λ b v, b + 256 * v) 0 bs = n ∧ last bs ≠ Some 0.

Lemma crc_bit_lxor x y b c : crc_bit (Z.lxor x y) (xorb b c) = Z.lxor (crc_bit x b) (crc_bit y c).
Proof.
  unfold crc_bit. rewrite Z.shiftl_lxor, Z.lxor_spec.
  rewrite !(Z.land_comm _ (Z.ones 32)). 
  replace (Z.land (Z.ones 32) (Z.lxor (Z.shiftl x 1) (Z.shiftl y 1)))
    with (Z.lxor (Z.land (Z.ones 32) (Z.shiftl x 1)) (Z.land (Z.ones 32) (Z.shiftl y 1))).
  2:{ apply Z.bits_inj. intros i. rewrite !Z.land_spec, !Z.lxor_spec, !Z.land_spec. by destruct (Z.testbit (Z.ones 32) i). }
  set (p := Z.land _ _). set (q := Z.land _ (Z.shiftl y 1)).
  apply Z.bits_inj. intros i. rewrite !Z.lxor_spec.
  destruct (Z.testbit x 31), (Z.testbit y 31), b, c; simpl; rewrite ?Z.bits_0;
    destruct (Z.testbit p i), (Z.testbit q i), (Z.testbit POLY i); done.
Qed.

Lemma crc_bits_lxor x y bs cs : length bs = length cs →
  crc_bits (Z.lxor x y) (zip_with xorb bs cs) = Z.lxor (crc_bits x bs) (crc_bits y cs).
Proof.
  revert x y cs. induction bs as [|b bs IH]; intros x y [|c cs] Hl; try done.
  unfold crc_bits in *. simpl in *. rewrite crc_bit_lxor. apply IH. lia.
Qed.

Lemma crc_bits_split x y n b : crc_bits (Z.lxor x y) (bits n b) = Z.lxor (crc_bits x (bits n b)) (crc_bits y (bits n 0)).
Proof.
  rewrite <- crc_bits_lxor by (by rewrite !length_bits). f_equal.
  induction n as [|n IH]; [done|]. cbn [bits zip_with]. rewrite Z.bits_0, xorb_false_r. by f_equal.
Qed.

Lemma POLY_range : 0 ≤ POLY < 2 ^ 32.
Proof. unfold POLY. lia. Qed.

Lemma lxor_mod n x y : 0 ≤ n → Z.lxor x y mod 2 ^ n = Z.lxor (x mod 2 ^ n) (y mod 2 ^ n).
Proof.
  intros Hn. apply Z.bits_inj'. intros i Hi. rewrite Z.lxor_spec. destruct (Z.lt_ge_cases i n).
  - by rewrite !Z.mod_pow2_bits_low, Z.lxor_spec by lia.
  - by rewrite !Z.mod_pow2_bits_high by lia.
Qed.

Lemma crc_bit_range r b : 0 ≤ crc_bit r b < 2 ^ 32.
Proof.
  unfold crc_bit. apply lxor_range; [lia| |].
  - rewrite Z.land_ones by lia. apply Z.mod_pos_bound. lia.
  - pose proof POLY_range. case_match; lia.
Qed.
Lemma crc_bits_range r bs : 0 ≤ r < 2 ^ 32 → 0 ≤ crc_bits r bs < 2 ^ 32.
Proof.
  revert r. induction bs as [|b bs IH]; intros r Hr; [done|]. apply IH, crc_bit_range.
Qed.

(** Without a bit at the top, a zero bit only shifts. *)
Lemma crc_bit_shift r : 0 ≤ r < 2 ^ 31 → crc_bit r false = 2 * r.
Proof.
  intros Hr. unfold crc_bit. rewrite Z.land_ones, Z.shiftl_mul_pow2 by lia.
  rewrite Z.mod_small by lia. rewrite Z.testbit_odd, Z.shiftr_div_pow2, Z.div_small by lia.
  simpl. rewrite Z.lxor_0_r. lia.
Qed.
Lemma crc_bits_shift r : 0 ≤ r < 2 ^ 24 → crc_bits r (bits 8 0) = Z.shiftl r 8.
Proof.
  intros Hr. unfold crc_bits. cbn [bits fold_left]. rewrite !Z.bits_0.
  do 8 match goal with |- context [crc_bit ?x false] =>
    lazymatch x with context [crc_bit] => fail | _ => rewrite (crc_bit_shift x) by lia end end.
  rewrite Z.shiftl_mul_pow2 by lia. lia.
Qed.

(** The table: entry [i] is what the bits of byte [i] do to the register. *)
Definition tab (i : Z) : Z := nth (Z.to_nat i) crctab 0.

Lemma tab_ok i : is_byte i →
  crc_bits (Z.shiftl i 24) (bits 8 0) = tab i ∧ crc_bits 0 (bits 8 i) = tab i ∧ 0 ≤ tab i < 2 ^ 32 ∧
  crctab !! Z.to_nat i = Some (tab i).
Proof. revert i. apply (range_forall 256). by_decide. Qed.

Lemma tab_lxor i j : is_byte i → is_byte j → tab (Z.lxor i j) = Z.lxor (tab i) (tab j).
Proof.
  intros Hi Hj. assert (is_byte (Z.lxor i j)) as Hx by (apply (lxor_range 8); lia || done).
  rewrite <- (proj1 (tab_ok _ Hx)), <- (proj1 (tab_ok _ Hi)), <- (proj1 (tab_ok _ Hj)).
  by rewrite Z.shiftl_lxor, crc_bits_split.
Qed.

(** The table-driven step does the eight bits of the byte. *)
Lemma crc_byte_ok ck b : 0 ≤ ck < 2 ^ 32 → is_byte b → crc_byte ck b = Some (crc_bits ck (bits 8 b)).
Proof.
  intros Hck Hb. set (hi := Z.shiftr ck 24). set (lo := ck mod 2 ^ 24).
  assert (is_byte hi) as Hhi.
  { subst hi. unfold is_byte. rewrite Z.shiftr_div_pow2 by lia. change (2 ^ 24) with 16777216. dlia. }
  assert (0 ≤ lo < 2 ^ 24) as Hlo by (apply Z.mod_pos_bound; lia).
  assert (ck = Z.lxor (Z.shiftl hi 24) lo) as Eck.
  { rewrite <- Z.add_nocarry_lxor.
    - subst hi lo. rewrite Z.shiftl_mul_pow2, Z.shiftr_div_pow2 by lia. change (2 ^ 24) with 16777216. dlia.
    - by apply land_high. }
  assert (is_byte (Z.lxor hi b)) as Hx by (apply (lxor_range 8); lia || done).
  destruct (tab_ok _ Hx) as (_ & _ & Hr & Et). unfold crc_byte. fold hi. rewrite Et.
  apply (f_equal Some).
  rewrite tab_lxor in * by done. destruct (tab_ok hi Hhi) as (Eh & _), (tab_ok b Hb) as (_ & Eb & _).
  rewrite lxor_mod, (Z.mod_small (Z.lxor _ _)) by lia.
  rewrite Eck at 2. rewrite crc_bits_split, crc_bits_shift by done.
  assert (crc_bits (Z.shiftl hi 24) (bits 8 b) = Z.lxor (tab hi) (tab b)) as ->.
  { rewrite <- Eh, <- Eb, <- (Z.lxor_0_l (Z.shiftl hi 24)) at 1. rewrite crc_bits_split. apply Z.lxor_comm. }
  rewrite Z.lxor_comm. f_equal. subst lo. rewrite !Z.shiftl_mul_pow2 by lia. change (2 ^ 32) with (2 ^ 24 * 2 ^ 8).
  by rewrite Z.mul_mod_distr_r by lia.
Qed.

Lemma crc_bits_app r bs cs : crc_bits r (bs ++ cs) = crc_bits (crc_bits r bs) cs.
Proof. apply fold_left_app. Qed.

(** The bits of a message, most significant bit of each byte first. *)
Definition message (data : list Z) : list bool := concat (map (bits 8) data).

Lemma crc_bytes_ok ck bs : 0 ≤ ck < 2 ^ 32 → Forall is_byte bs →
  crc_bytes ck bs = Some (crc_bits ck (message bs)).
Proof.
  intros Hck Hbs. revert ck Hck. induction Hbs as [|b bs Hb _ IH]; intros ck Hck; [done|].
  unfold crc_bytes in *. cbn [fold_left]. change (message (b :: bs)) with (bits 8 b ++ message bs).
  rewrite crc_bits_app, <- IH by (by apply crc_bits_range). f_equal. by rewrite <- crc_byte_ok.
Qed.

(** Long division: the register is the remainder of the bits seen so far. *)
Lemma unbits_snoc bs b : unbits (bs ++ [b]) = 2 * unbits bs + Z.b2z b.
Proof. unfold unbits. by rewrite fold_left_app. Qed.
Lemma times_generator_snoc qs q :
  times_generator (qs ++ [q]) = Z.lxor (2 * times_generator qs) (if q then 2 ^ 32 + POLY else 0).
Proof. unfold times_generator. by rewrite fold_left_app. Qed.

Lemma double_lxor x y : 2 * Z.lxor x y = Z.lxor (2 * x) (2 * y).
Proof.
  pose proof (Z.shiftl_lxor x y 1) as H. rewrite !Z.shiftl_mul_pow2 in H by lia. change (2 ^ 1) with 2 in H.
  by rewrite !(Z.mul_comm 2).
Qed.

(** The register times x, plus a bit times x^32, minus the generator if needed. *)
Lemma crc_bit_divides r b : 0 ≤ r < 2 ^ 32 →
  Z.lxor (2 * r) (Z.b2z b * 2 ^ 32) =
  Z.lxor (if xorb (Z.testbit r 31) b then 2 ^ 32 + POLY else 0) (crc_bit r b).
Proof.
  intros Hr. unfold crc_bit. rewrite Z.land_ones, Z.shiftl_mul_pow2 by lia.
  assert (2 * r = Z.lxor (Z.b2z (Z.testbit r 31) * 2 ^ 32) (r * 2 ^ 1 mod 2 ^ 32)) as ->.
  { rewrite Z.testbit_odd, Z.shiftr_div_pow2 by lia.
    assert (r / 2 ^ 31 = 0 ∨ r / 2 ^ 31 = 1) as Hd by (change (2 ^ 31) with 2147483648; dlia).
    destruct Hd as [E|E]; rewrite E; simpl Z.odd; cbn [Z.b2z].
    - rewrite Z.mul_0_l, Z.lxor_0_l, Z.mod_small; [lia|]. change (2 ^ 31) with 2147483648 in *. dlia.
    - rewrite Z.mul_1_l, <- Z.add_nocarry_lxor.
      + change (2 ^ 31) with 2147483648 in *. change (2 ^ 1) with 2. change (2 ^ 32) with 4294967296 in *. dlia.
      + rewrite <- Z.land_ones, Z.land_comm, <- Z.land_assoc by lia. change (Z.land (Z.ones 32) (2 ^ 32)) with 0.
        apply Z.land_0_r. }
  assert (2 ^ 32 + POLY = Z.lxor (2 ^ 32) POLY) as -> by reflexivity.
  apply Z.bits_inj. intros i. rewrite !Z.lxor_spec. set (t := r * 2 ^ 1 mod 2 ^ 32).
  destruct (Z.testbit r 31), b; cbn [Z.b2z xorb]; rewrite ?Z.mul_0_l, ?Z.mul_1_l, ?Z.lxor_spec, ?Z.bits_0;
    destruct (Z.testbit (2 ^ 32) i), (Z.testbit POLY i), (Z.testbit t i); done.
Qed.

Lemma crc_bits_remainder msg : crc_remainder msg (crc_bits 0 msg).
Proof.
  split; [by apply crc_bits_range|].
  induction msg as [|b msg IH] using rev_ind; [by exists []|]. destruct IH as [qs E].
  set (r := crc_bits 0 msg) in *. assert (0 ≤ r < 2 ^ 32) as Hr by (by apply crc_bits_range).
  exists (qs ++ [xorb (Z.testbit r 31) b]). rewrite crc_bits_app. fold r. change (crc_bits r [b]) with (crc_bit r b).
  rewrite times_generator_snoc, unbits_snoc, Z.lxor_assoc, <- crc_bit_divides by done.
  rewrite <- Z.lxor_assoc, <- double_lxor, <- E, !Z.shiftl_mul_pow2 by lia.
  rewrite <- Z.add_nocarry_lxor; [lia|].
  replace (2 * (unbits msg * 2 ^ 32)) with (Z.shiftl (unbits msg) 33) by (rewrite Z.shiftl_mul_pow2; lia).
  apply land_high; destruct b; simpl; lia.
Qed.

(** ** The length *)

Lemma length_bytes_ok fuel i : 0 ≤ i < 256 ^ Z.of_nat fuel → octets i (length_bytes fuel i).
Proof.
  revert i. induction fuel as [|fuel IH]; intros i Hi; cbn [length_bytes].
  { change (256 ^ Z.of_nat 0) with 1 in Hi. assert (i = 0) as -> by lia. split_and!; done. }
  case_decide as H0; [subst; split_and!; done|].
  change 255 with (Z.ones 8). rewrite Z.land_ones, Z.shiftr_div_pow2 by lia. change (2 ^ 8) with 256.
  rewrite Nat2Z.inj_succ, Z.pow_succ_r in Hi by lia.
  destruct (IH (i / 256)) as (Hb & Hv & Hl); [split; dlia|]. split_and!.
  - constructor; [unfold is_byte; dlia|done].
  - simpl. rewrite Hv. dlia.
  - rewrite last_cons. case_match eqn:El; [congruence|].
    destruct (length_bytes fuel (i / 256)); [|by rewrite last_cons in El; case_match]. simpl in Hv.
    intros [= E]. dlia.
Qed.

Lemma message_app l1 l2 : message (l1 ++ l2) = message l1 ++ message l2.
Proof. unfold message. by rewrite map_app, concat_app. Qed.

(** The loop over the pieces. *)
Lemma cksum_loop chunks ck len (st : ckstate) : 0 ≤ ck < 2 ^ 32 → 0 ≤ len →
  Forall is_byte (concat chunks) → len + Z.of_nat (length (concat chunks)) < 2 ^ 64 →
  mfold (λ '(ck, len) buf,
      ck <- deref (crc_bytes ck buf) ;;
      mret (ck, (len + Z.of_nat (length buf)) mod 2 ^ 64)) (ck, len) chunks st
  = Ok (crc_bits ck (message (concat chunks)), len + Z.of_nat (length (concat chunks))) st.
Proof.
  revert ck len. induction chunks as [|b chunks IH]; intros ck len Hck Hlen Hb Hl.
  { simpl. by rewrite Z.add_0_r. }
  cbn [concat mfold] in *. rewrite length_app in *. apply Forall_app in Hb as [Hb Hbs].
  rewrite (bind_run _ _ st (crc_bits ck (message b), len + Z.of_nat (length b)) st).
  - rewrite IH; [|by apply crc_bits_range|lia|done|lia].
    rewrite message_app, crc_bits_app. do 2 f_equal. lia.
  - unfold mbind, deref. rewrite crc_bytes_ok by done. unfold mret. by rewrite Z.mod_small by lia.
Qed.

Lemma complement r : 0 ≤ r < 2 ^ 32 → Z.lxor r (2 ^ 32 - 1) = 2 ^ 32 - 1 - r.
Proof.
  intros Hr. assert (r + Z.lxor r (2 ^ 32 - 1) = 2 ^ 32 - 1); [|lia].
  rewrite Z.add_nocarry_lxor; [by rewrite <- Z.lxor_assoc, Z.lxor_nilpotent, Z.lxor_0_l|].
  change (2 ^ 32 - 1) with (Z.ones 32). apply Z.bits_inj'. intros i Hi. rewrite Z.land_spec, Z.lxor_spec, Z.bits_0.
  destruct (Z.lt_ge_cases i 32).
  - rewrite Z.ones_spec_low by lia. by destruct (Z.testbit r i).
  - rewrite <- (Z.mod_small r (2 ^ 32)), Z.mod_pow2_bits_high by lia. done.
Qed.

(** C30: For every sequence of pieces in which a file of less than 2^64 bytes is
    read, cksum prints the complement of the remainder that POSIX defines, of
    the file followed by the octets of its length (no more of them than needed), then
    the length and the name. *)
Theorem cksum_posix (chunks : list (list Z)) (name : option cstr) (st : ckstate) :
  Forall is_byte (concat chunks) → Z.of_nat (length (concat chunks)) < 2 ^ 64 →
  ∃ lens r, octets (Z.of_nat (length (concat chunks))) lens ∧
  crc_remainder (message (concat chunks ++ lens)) r ∧
  cksum (mkReads chunks false) name st =
    Ok tt (set ck_out (λ o, o ++ lit (pretty (2 ^ 32 - 1 - r)) ++ lit " "
                              ++ lit (pretty (Z.of_nat (length (concat chunks))))
                              ++ match name with Some s => lit " " ++ s | None => [] end ++ [NL]) st).
Proof.
  intros Hb Hl. set (data := concat chunks) in *. set (n := Z.of_nat (length data)) in *.
  assert (octets n (length_bytes 8 n)) as Ho by (apply length_bytes_ok; subst n; lia).
  exists (length_bytes 8 n), (crc_bits 0 (message (data ++ length_bytes 8 n))).
  split; [done|]. split; [apply crc_bits_remainder|]. unfold cksum.
  rewrite (bind_run _ _ st (crc_bits 0 (message data), n) st) by (by apply cksum_loop). simpl rd_error.
  unfold deref. rewrite crc_bytes_ok, <- crc_bits_app, <- message_app by (by apply crc_bits_range || apply Ho).
  unfold mbind, modify, mret. by rewrite complement by (by apply crc_bits_range).
Qed.

Lemma cksum_posix_witness : ∃ r,
  crc_remainder (message (bytes_of "abc" ++ [3])) r ∧
  cksum (mkReads [bytes_of "ab"; bytes_of "c"] false) None (mkCk [] [] 0)
  = Ok tt (mkCk (lit (pretty (2 ^ 32 - 1 - r)) ++ lit " 3" ++ [NL])%list [] 0).
Proof.
  destruct (cksum_posix [bytes_of "ab"; bytes_of "c"] None (mkCk [] [] 0)) as (lens & r & (Hb & Hv & Hl) & Hr & E);
    [by_decide|vm_compute; reflexivity|].
  exists r. split.
  - destruct lens as [|x lens]; [discriminate|].
    assert (x = 3 ∧ lens = []) as [-> ->]; [|exact Hr].
    rewrite Forall_cons in Hb. destruct Hb as [Hx Hb]. simpl in Hv. unfold is_byte in Hx.
    destruct lens as [|y lens]; [simpl in Hv; split; [lia|done]|]. exfalso. clear -Hb Hv Hl Hx.
    assert (∀ l, Forall is_byte l → 0 ≤ fold_right (λ b v, b + 256 * v) 0 l ∧
      (last l ≠ Some 0 → l ≠ [] → 0 < fold_right (λ b v, b + 256 * v) 0 l)) as Hpos.
    { induction 1 as [|b l Hb' _ [IH1 IH2]]; simpl; [done|]. unfold is_byte in Hb'. split; [lia|].
      destruct l as [|b2 l]; [simpl; intros Hn _; assert (b ≠ 0) by congruence; lia|].
      intros Hn _. assert (0 < fold_right (λ b v, b + 256 * v) 0 (b2 :: l)); [by apply IH2|]. simpl in *. lia. }
    assert (0 < fold_right (λ b v, b + 256 * v) 0 (y :: lens)); [by apply Hpos|]. simpl in *. lia.
  - exact E.
Defined.
