(* ===== verification/Tsort.v ===== *)
(** * tsort: src/cmd/posix/tsort.c

    The graph of the input pairs, kept in linked lists sorted by name, and its
    depth-first traversal.  Vertices live in an array, in the order of their
    allocation, and a pointer to one is its index; [graph] and the edges of a
    vertex are the lists of indices that the [next] links make.  [size_t]
    counters have 64 bits.  The proofs are in TsortFacts.v. *)

From S2P Require Import Prelude CString StrList Args Stdio.

Inductive colour := WHITE | GREY | BLACK.
#[export] Instance colour_eq_dec : EqDecision colour.
Proof. solve_decision. Defined.

Record vertex := mkVertex {
  v_name : cstr;
  v_edges : list nat;
  in_edges : Z;
  v_colour : colour
}.
#[export] Instance eta_vertex : Eta vertex := λ v,
  mkVertex (v_name v) (v_edges v) (in_edges v) (v_colour v).

(** The allocated vertices, the list [graph], and the two output streams. *)
Record tstate := mkTstate {
  t_heap : list vertex;
  t_graph : list nat;
  t_out : list cstr;
  t_err : list (cstr * cstr)
}.
#[export] Instance eta_tstate : Eta tstate := λ s,
  mkTstate (t_heap s) (t_graph s) (t_out s) (t_err s).

Definition at_vertex (i : nat) : M tstate vertex := s <- gets id ;; deref (t_heap s !! i).
Definition upd_vertex (i : nat) (f : vertex → vertex) : M tstate unit :=
  v <- at_vertex i ;; modify (set t_heap <[i := f v]>).

(** The walk of [find_vertex] and [find_edge] along a sorted list: the nodes
    passed, and the node found or [None]. *)
Fixpoint find_sorted (names : nat → option cstr) (name : cstr) (l : list nat) : option (list nat * option nat) :=
  match l with
  | [] => Some ([], None)
  | i :: l' =>
      match names i with
      | None => None
      | Some n =>
          match strcmp name n with
          | Gt => match find_sorted names name l' with Some (p, it) => Some (i :: p, it) | None => None end
          | Lt => Some ([], None)
          | Eq => Some ([], Some i)
          end
      end
  end.

Definition name_of (heap : list vertex) (i : nat) : option cstr := v_name <$> heap !! i.

Definition find_vertex (name : cstr) : M tstate (list nat * option nat) :=
  s <- gets id ;; deref (find_sorted (name_of (t_heap s)) name (t_graph s)).
Definition find_edge (from : nat) (to : cstr) : M tstate (list nat * option nat) :=
  s <- gets id ;; u <- at_vertex from ;; deref (find_sorted (name_of (t_heap s)) to (v_edges u)).

(** A new node [i] is linked after the nodes [p] of the list. *)
Definition link (p : list nat) (i : nat) (l : list nat) : list nat := p ++ i :: drop (length p) l.

Definition add_vertex (name : cstr) : M tstate nat :=
  r <- find_vertex name ;;
  match r with
  | (_, Some i) => mret i
  | (prev, None) =>
      n <- gets (λ s, length (t_heap s)) ;;
      modify (set t_heap (λ h, h ++ [mkVertex name [] 0 WHITE])) ;;
      modify (set t_graph (link prev n)) ;;
      mret n
  end.

Definition add_edge (from to : nat) : M tstate unit :=
  t <- at_vertex to ;;
  r <- find_edge from (v_name t) ;;
  match r with
  | (_, Some _) => mret tt
  | (prev, None) =>
      upd_vertex from (set v_edges (link prev to)) ;;
      upd_vertex to (set in_edges (λ k, (k + 1) mod 2 ^ 64)%Z)
  end.

(** ** load_graph *)

(** The tokens of a line, which ends at its first NUL. *)
Definition flush_token (acc : cstr) : list cstr := match acc with [] => [] | _ => [acc] end.
Fixpoint line_tokens (acc line : cstr) : list cstr :=
  match line with
  | [] => flush_token acc
  | c :: r =>
      if decide (c = NUL) then flush_token acc
      else if isspace c then flush_token acc ++ line_tokens [] r
      else line_tokens (acc ++ [c]) r
  end.
Definition file_tokens (text : cstr) : list cstr :=
  flat_map (line_tokens []) (split_lines_from [] text).

(** One token; the state carried is the pointer [from]. *)
Definition load_token (from : option nat) (name : cstr) : M tstate (option nat) :=
  match from with
  | None => v <- add_vertex name ;; mret (Some v)
  | Some f =>
      u <- at_vertex f ;;
      if decide (strcmp (v_name u) name ≠ Eq) then
        v <- add_vertex name ;; add_edge f v ;; mret None
      else mret None
  end.

Definition load_graph (text : cstr) : M tstate unit :=
  from <- mfold load_token None (file_tokens text) ;;
  match from with
  | Some _ => eprintf "odd number of tokens in input"
  | None => mret tt
  end.

(** ** sort_graph *)

(** The loop body of [sort_graph_visit] for the edge to [v] of the vertex [x];
    the call it may make is a parameter. *)
Definition visit_edge (visit : nat → M tstate bool) (x : vertex) (r : bool) (v : nat) : M tstate bool :=
  y <- at_vertex v ;;
  match v_colour y with
  | WHITE =>
      upd_vertex v (set in_edges (λ k, (k - 1) mod 2 ^ 64)%Z) ;;
      y <- at_vertex v ;;
      if decide (in_edges y = 0%Z) then r' <- visit v ;; mret (r || r') else mret r
  | GREY => modify (set t_err (λ e, e ++ [(v_name x, v_name y)])) ;; mret true
  | BLACK => mret r
  end.

(** The budget bounds the depth of the recursion. *)
Fixpoint sort_graph_visit (fuel : nat) (u : nat) : M tstate bool :=
  match fuel with
  | O => mfuel
  | S fuel =>
      upd_vertex u (set v_colour (λ _, GREY)) ;;
      x <- at_vertex u ;;
      modify (set t_out (λ o, o ++ [v_name x])) ;;
      r <- mfold (visit_edge (sort_graph_visit fuel) x) false (v_edges x) ;;
      upd_vertex u (set v_colour (λ _, BLACK)) ;;
      mret r
  end.

(** One pass over the list: the nodes that stay linked are returned. *)
Fixpoint sort_pass (fuel : nat) (k : Z) (l : list nat) : M tstate (bool * list nat) :=
  match l with
  | [] => mret (false, [])
  | u :: l' =>
      x <- at_vertex u ;;
      if decide (v_colour x ≠ WHITE) then sort_pass fuel k l'
      else if decide (k < in_edges x)%Z then
        p <- sort_pass fuel k l' ;; mret (fst p, u :: snd p)
      else
        r <- sort_graph_visit fuel u ;;
        p <- sort_pass fuel k l' ;; mret (r || fst p, snd p)
  end.

(** The passes, for growing [k], until the list is empty. *)
Fixpoint sort_passes (fuel n : nat) (k : Z) : M tstate bool :=
  l <- gets t_graph ;;
  match l, n with
  | [], _ => mret false
  | _, O => mfuel
  | _, S n =>
      p <- sort_pass fuel k l ;;
      modify (set t_graph (λ _, snd p)) ;;
      r <- sort_passes fuel n ((k + 1) mod 2 ^ 64)%Z ;;
      mret (fst p || r)
  end.

Definition sort_graph : M tstate bool :=
  n <- gets (λ s, length (t_heap s)) ;; sort_passes n (S n) 0%Z.

(** ** main *)

Section main.
(** The text of a file, and whether reading or writing met an error. *)
Context (open_file : cstr → option cstr) (stdin : cstr) (in_error out_error : bool).

Definition ts_usage {A} (argv0 : cstr) : M tstate A :=
  eprintf ("usage: " ++ argv0 ++ " [file]").

Definition ts_main (argv0 : cstr) (args : StrList) : M tstate Z :=
  p <- argbegin (λ _, false) (λ _ _ o, mret o) (λ _ _, ts_usage argv0) (ts_usage argv0) args tt ;;
  text <- match fst p with
          | [] => mret stdin
          | [name] =>
              if decide (name = lit "-") then mret stdin
              else match open_file name with
                   | Some text => mret text
                   | None => eprintf ("fopen " ++ name ++ ":")
                   end
          | _ => ts_usage argv0
          end ;;
  load_graph text ;;
  mwhen in_error (eprintf "ferror") ;;
  r <- sort_graph ;;
  mret (if out_error then 2 else if r : bool then 1 else 0)%Z.
End main.

Definition tstate0 : tstate := mkTstate [] [] [] [].

Example tsort_dag : ∃ s, ts_main (λ _, None) "b c a b a c x x" false false "tsort" [] tstate0 = Ok 0%Z s ∧
  t_out s = lits ["a"; "b"; "c"; "x"].
Proof. eexists. split; vm_compute; reflexivity. Qed.
Example tsort_cycle : ∃ s, ts_main (λ _, None) "a b b a b c" false false "tsort" [] tstate0 = Ok 1%Z s ∧
  t_out s = lits ["a"; "b"; "c"] ∧ t_err s = [(lit "b", lit "a")].
Proof. eexists. split_and!; vm_compute; reflexivity. Qed.
