(* ===== verification/TsortFacts.v ===== *)
(** * tsort prints a topological order

    Of the traversal: every vertex is printed once, the exit status tells
    whether the graph has a cycle, every message names an edge of a cycle, and
    without cycles the order is topological.  Of the loader: the sorted lists
    hold exactly the vertices and edges of the input. *)

From S2P Require Import Prelude CString StrList Args Stdio Tsort.
From Stdlib Require Import Sorted.

(** ** Reading and updating vertices *)

Definition col (s : tstate) (v : nat) : option colour := v_colour <$> t_heap s !! v.
Definition inn (s : tstate) (v : nat) : option Z := in_edges <$> t_heap s !! v.
Definition white (s : tstate) (v : nat) : Prop := col s v = Some WHITE.
Definition grey (s : tstate) (v : nat) : Prop := col s v = Some GREY.

(** Names and edges, which the traversal does not change. *)
Definition shape (s : tstate) : list (cstr * list nat) := map (λ x, (v_name x, v_edges x)) (t_heap s).

Definition setv (i : nat) (x : vertex) (s : tstate) : tstate := set t_heap <[i := x]> s.

Lemma at_vertex_run i x s : t_heap s !! i = Some x → at_vertex i s = Ok x s.
Proof. intros H. unfold at_vertex, mbind, gets, deref. simpl. by rewrite H. Qed.
Lemma upd_vertex_run i f x s : t_heap s !! i = Some x → upd_vertex i f s = Ok tt (setv i (f x) s).
Proof. intros H. unfold upd_vertex. rewrite (bind_run _ _ s x s) by (by apply at_vertex_run). done. Qed.

Section setv.
Context (i : nat) (x : vertex) (s : tstate) (y : vertex) (Hy : t_heap s !! i = Some y).

Lemma heap_setv j : t_heap (setv i x s) !! j = if decide (i = j) then Some x else t_heap s !! j.
Proof using Hy.
  change (t_heap (setv i x s)) with (<[i := x]> (t_heap s)). case_decide as E.
  - subst. apply list_lookup_insert_eq. by eapply lookup_lt_Some.
  - by apply list_lookup_insert_ne.
Qed.
Lemma col_setv j : col (setv i x s) j = if decide (i = j) then Some (v_colour x) else col s j.
Proof using Hy. unfold col. rewrite heap_setv. by case_decide. Qed.
Lemma inn_setv j : inn (setv i x s) j = if decide (i = j) then Some (in_edges x) else inn s j.
Proof using Hy. unfold inn. rewrite heap_setv. by case_decide. Qed.
Lemma shape_setv : v_name x = v_name y → v_edges x = v_edges y → shape (setv i x s) = shape s.
Proof using Hy.
  intros Hn He. unfold shape. change (t_heap (setv i x s)) with (<[i := x]> (t_heap s)).
  apply list_eq. intros j. rewrite !list_lookup_fmap. destruct (decide (i = j)) as [<-|].
  - rewrite list_lookup_insert_eq by (by eapply lookup_lt_Some). rewrite Hy. simpl. by rewrite Hn, He.
  - by rewrite list_lookup_insert_ne.
Qed.
End setv.

(** ** Counting *)

Section filter.
Context (P Q : nat → Prop) `{!∀ x, Decision (P x), !∀ x, Decision (Q x)}.

Lemma filter_same l : (∀ x, x ∈ l → P x ↔ Q x) → length (filter P l) = length (filter Q l).
Proof.
  induction l as [|a l IH]; intros Hl; [done|]. rewrite !filter_cons. destruct (Hl a ltac:(left)).
  assert (length (filter P l) = length (filter Q l)) by (apply IH; set_solver).
  repeat case_decide; simpl; naive_solver lia.
Qed.

Lemma filter_none l : (∀ x, x ∈ l → ¬ P x) → length (filter P l) = 0.
Proof.
  induction l as [|a l IH]; intros Hl; [done|]. rewrite filter_cons, decide_False by (apply Hl; left).
  apply IH. set_solver.
Qed.

(** Two predicates that differ at one element of a list without duplicates. *)
Lemma filter_one u l : NoDup l → u ∈ l → P u → ¬ Q u → (∀ x, x ≠ u → P x ↔ Q x) →
  length (filter P l) = S (length (filter Q l)).
Proof.
  intros Hnd Hu HP HQ Hx. induction l as [|a l IH]; [by apply elem_of_nil in Hu|].
  apply NoDup_cons in Hnd as [Ha Hnd]. rewrite !filter_cons.
  destruct (decide (a = u)) as [->|Hne].
  - rewrite decide_True, decide_False by done. simpl. f_equal. apply filter_same.
    intros x Hxl. apply Hx. by intros ->.
  - destruct (Hx a Hne). apply elem_of_cons in Hu as [?|Hu]; [congruence|]. specialize (IH Hnd Hu).
    repeat case_decide; simpl; naive_solver lia.
Qed.
End filter.

(** How often [v] occurs in [l]. *)
Definition cnt (v : nat) (l : list nat) : nat := length (filter (v =.) l).
Lemma cnt_app v l1 l2 : cnt v (l1 ++ l2) = cnt v l1 + cnt v l2.
Proof. unfold cnt. by rewrite filter_app, length_app. Qed.
Lemma cnt_cons v x l : cnt v (x :: l) = (if decide (v = x) then 1 else 0) + cnt v l.
Proof. unfold cnt. rewrite filter_cons. by case_decide. Qed.
Lemma cnt_NoDup v l : NoDup l → cnt v l = if decide (v ∈ l) then 1 else 0.
Proof.
  induction 1 as [|x l Hx _ IH]; [done|]. rewrite cnt_cons, IH.
  repeat case_decide; set_solver.
Qed.

(** ** The traversal of a fixed graph *)

#[export] Instance white_dec s v : Decision (white s v).
Proof. unfold white. apply _. Defined.

Section traversal.
Context (G : list (cstr * list nat)).

Definition eg (u : nat) : list nat := match G !! u with Some (_, es) => es | None => [] end.
Definition nm (u : nat) : cstr := match G !! u with Some (n, _) => n | None => [] end.
Definition E (u v : nat) : Prop := v ∈ eg u.

Hypothesis Hgraph : ∀ u, NoDup (eg u) ∧ u ∉ eg u ∧ Forall (λ v, v < length G) (eg u).

(** The predecessors of [v] that are still white. *)
Definition wp (s : tstate) (v : nat) : nat :=
  length (filter (λ u, white s u ∧ v ∈ eg u) (seq 0 (length G))).
Definition whites (s : tstate) : nat := length (filter (white s) (seq 0 (length G))).

(** The counter of a white vertex counts its white predecessors, and the edges
    [P] that the active calls have not looked at yet. *)
Definition inv (s : tstate) (P : list nat) : Prop :=
  shape s = G ∧
  ∀ v x, t_heap s !! v = Some x → v_colour x = WHITE →
         in_edges x = Z.of_nat (wp s v + cnt v P) ∧ (in_edges x < 2 ^ 64)%Z.

(** A message names an edge on a cycle. *)
Definition loopmsg (m : cstr * cstr) : Prop :=
  ∃ u v, m = (nm u, nm v) ∧ E u v ∧ rtc E v u.

(** What a piece of the traversal did: printed the vertices [new], in this
    order, and the messages [ms]; no counter of a vertex that is still white fell to 0. *)
Definition ran (s s' : tstate) (new : list nat) (ms : list (cstr * cstr)) : Prop :=
  t_out s' = t_out s ++ map nm new ∧ t_err s' = t_err s ++ ms ∧
  Forall loopmsg ms ∧ NoDup new ∧ Forall (white s) new ∧
  (∀ v, col s' v = if decide (v ∈ new) then Some BLACK else col s v) ∧
  (∀ v, white s' v → inn s' v = Some 0%Z → inn s v = Some 0%Z).

(** Every vertex of [new] comes after all its predecessors. *)
Definition ordered (s : tstate) (new : list nat) : Prop :=
  ∀ l1 v l2 p, new = l1 ++ v :: l2 → E p v → ¬ white s p ∨ p ∈ l1.

Lemma shape_lookup s u x : shape s = G → t_heap s !! u = Some x →
  eg u = v_edges x ∧ nm u = v_name x ∧ u < length G.
Proof.
  intros HG Hx. unfold eg, nm. rewrite <- HG. unfold shape. rewrite list_lookup_fmap, Hx. simpl. split_and!; try done.
  rewrite length_map. by eapply lookup_lt_Some.
Qed.
Lemma shape_some s u : shape s = G → u < length G → ∃ x, t_heap s !! u = Some x.
Proof. intros <- Hu. unfold shape in Hu. rewrite length_map in Hu. by apply lookup_lt_is_Some. Qed.
Lemma white_lt s u : shape s = G → white s u → u < length G.
Proof.
  intros <- Hw. unfold white, col in Hw. unfold shape. rewrite length_map.
  apply fmap_Some in Hw as (x & Hx & _). by eapply lookup_lt_Some.
Qed.

Lemma ran_refl s : ran s s [] [].
Proof. split_and!; rewrite ?app_nil_r; try done; constructor. Qed.

Lemma ran_white s s' new ms v : ran s s' new ms → white s' v ↔ white s v ∧ v ∉ new.
Proof.
  intros (_ & _ & _ & _ & _ & Hc & _). unfold white. rewrite Hc. case_decide; naive_solver.
Qed.
Lemma ran_grey s s' new ms v : ran s s' new ms → grey s' v ↔ grey s v.
Proof.
  intros (_ & _ & _ & _ & Hw & Hc & _). unfold grey. rewrite Hc. case_decide as Hv; [|done].
  rewrite Forall_forall in Hw. apply Hw in Hv. unfold white in Hv. rewrite Hv. naive_solver.
Qed.

Lemma ran_trans s s1 s2 n1 n2 m1 m2 :
  ran s s1 n1 m1 → ran s1 s2 n2 m2 → ran s s2 (n1 ++ n2) (m1 ++ m2).
Proof.
  intros R1 R2. pose proof (λ v, ran_white _ _ _ _ v R1) as W1. pose proof (λ v, ran_white _ _ _ _ v R2) as W2.
  destruct R1 as (Ho1 & He1 & Hm1 & Hn1 & Hw1 & Hc1 & Hz1), R2 as (Ho2 & He2 & Hm2 & Hn2 & Hw2 & Hc2 & Hz2).
  rewrite Forall_forall in Hw2. split_and!.
  - by rewrite Ho2, Ho1, map_app, app_assoc.
  - by rewrite He2, He1, app_assoc.
  - by apply Forall_app.
  - apply NoDup_app. split_and!; [done| |done]. intros v Hv1 Hv2. apply Hw2, W1 in Hv2. tauto.
  - apply Forall_app. split; [done|]. apply Forall_forall. intros v Hv. apply Hw2, W1 in Hv. tauto.
  - intros v. rewrite Hc2, Hc1. repeat case_decide; set_solver.
  - intros v Hw Hi. apply Hz1; [apply W2 in Hw; tauto|by apply Hz2].
Qed.

Lemma ordered_app s s1 n1 n2 m1 : ran s s1 n1 m1 → ordered s n1 → ordered s1 n2 → ordered s (n1 ++ n2).
Proof.
  intros R O1 O2 l1 v l2 p Heq Hp. pose proof (ran_white _ _ _ _ p R) as W.
  apply app_eq_inv in Heq as [(k & -> & Hk)|(k & -> & Hk)].
  - destruct k as [|w k].
    + simpl in Hk. destruct (O2 [] v l2 p) as [Hp'|Hp']; [done..| |by apply elem_of_nil in Hp'].
      destruct (decide (p ∈ l1)); [by right|]. left. intros Hw. apply Hp', W. by rewrite app_nil_r.
    + simpl in Hk. injection Hk as -> Hk. by apply (O1 l1 w k p).
  - destruct (O2 k v l2 p) as [Hp'|Hp']; [done..| |right; set_solver].
    destruct (decide (p ∈ n1)); [right; set_solver|]. left. intros Hw. by apply Hp', W.
Qed.

(** *** The updates of a call *)

Lemma wp_ext s s' v : (∀ u, white s u ↔ white s' u) → wp s v = wp s' v.
Proof. intros H. apply filter_same. intros u _. by rewrite H. Qed.

Lemma wp_enter s s' u v : u < length G → white s u → ¬ white s' u → (∀ w, w ≠ u → white s w ↔ white s' w) →
  wp s v = wp s' v + if decide (v ∈ eg u) then 1 else 0.
Proof.
  intros Hu Hw Hn Hx. unfold wp. case_decide as Hv.
  - rewrite (filter_one _ (λ u, white s' u ∧ v ∈ eg u) u); [lia|apply NoDup_seq|apply elem_of_seq; lia|done| |].
    + by intros [? _].
    + intros w Hw'. by rewrite Hx.
  - rewrite Nat.add_0_r. apply filter_same. intros w _. destruct (decide (w = u)) as [->|Hw']; [tauto|].
    by rewrite (Hx w Hw').
Qed.

Lemma whites_enter s s' u : u < length G → white s u → ¬ white s' u → (∀ w, w ≠ u → white s w ↔ white s' w) →
  whites s = S (whites s').
Proof. intros Hu Hw Hn Hx. unfold whites. by apply (filter_one _ _ u); [apply NoDup_seq|apply elem_of_seq; lia|..]. Qed.

Definition enter (u : nat) (x : vertex) (s : tstate) : tstate :=
  set t_out (λ o, o ++ [v_name x]) (setv u (set v_colour (λ _, GREY) x) s).

Lemma col_enter u x s v : t_heap s !! u = Some x →
  col (enter u x s) v = if decide (u = v) then Some GREY else col s v.
Proof. intros Hx. exact (col_setv u _ s x Hx v). Qed.
Lemma inn_enter u x s v : t_heap s !! u = Some x → inn (enter u x s) v = inn s v.
Proof.
  intros Hx. transitivity (inn (setv u (set v_colour (λ _, GREY) x) s) v); [done|].
  rewrite (inn_setv u _ s x Hx). case_decide; [|done]. subst. unfold inn. by rewrite Hx.
Qed.

Lemma white_enter u x s v : t_heap s !! u = Some x → white (enter u x s) v ↔ white s v ∧ v ≠ u.
Proof. intros Hx. unfold white. rewrite (col_enter _ _ _ _ Hx). case_decide; naive_solver. Qed.

Lemma inv_enter s P u x : inv s P → t_heap s !! u = Some x → v_colour x = WHITE →
  inv (enter u x s) (eg u ++ P) ∧ whites s = S (whites (enter u x s)).
Proof using Hgraph.
  intros [HG Hin] Hx Hw. destruct (shape_lookup s u x HG Hx) as (Eg & En & Hlt).
  assert (white s u) as Hwu by (unfold white, col; rewrite Hx; simpl; congruence).
  pose proof (λ v, white_enter u x s v Hx) as We.
  assert (¬ white (enter u x s) u) as Hnw by (rewrite We; tauto).
  assert (∀ w, w ≠ u → white s w ↔ white (enter u x s) w) as Hother by (intros w ?; rewrite We; tauto).
  split; [|by apply (whites_enter _ _ u)]. split.
  - change (shape (enter u x s)) with (shape (setv u (set v_colour (λ _, GREY) x) s)).
    by rewrite (shape_setv _ _ _ x).
  - intros v y Hy Hyw. change (t_heap (setv u (set v_colour (λ _, GREY) x) s) !! v = Some y) in Hy.
    rewrite (heap_setv u _ s x Hx) in Hy. case_decide as Huv; [by injection Hy as <-|].
    destruct (Hin v y Hy Hyw) as [-> Hlt']. split; [|done]. f_equal.
    rewrite (wp_enter s (enter u x s) u v) by done. destruct (Hgraph u) as (Hnd & _).
    rewrite cnt_app, (cnt_NoDup v (eg u)) by done. case_decide; lia.
Qed.

Lemma inv_skip s P v : inv s (v :: P) → ¬ white s v → inv s P.
Proof.
  intros [HG Hin] Hnw. split; [done|]. intros w x Hx Hw. destruct (Hin w x Hx Hw) as [-> ?]. split; [|done].
  rewrite cnt_cons, decide_False; [done|]. intros ->. apply Hnw. unfold white, col. rewrite Hx. simpl. congruence.
Qed.

(** Decrementing the counter of the target of an edge. *)
Definition decr (v : nat) (y : vertex) (s : tstate) : tstate :=
  setv v (set in_edges (λ k, (k - 1) mod 2 ^ 64)%Z y) s.

Lemma col_decr v y s w : t_heap s !! v = Some y → col (decr v y s) w = col s w.
Proof.
  intros Hy. unfold decr. rewrite (col_setv v _ s y Hy). case_decide; [|done]. subst. unfold col. by rewrite Hy.
Qed.

Lemma inv_decr s P v y : inv s (v :: P) → t_heap s !! v = Some y → v_colour y = WHITE →
  inv (decr v y s) P ∧ ((in_edges y - 1) mod 2 ^ 64 = Z.of_nat (wp s v + cnt v P))%Z.
Proof.
  intros [HG Hin] Hy Hw. destruct (Hin v y Hy Hw) as [Ein Hlt]. rewrite cnt_cons, decide_True in Ein by done.
  assert ((in_edges y - 1) mod 2 ^ 64 = Z.of_nat (wp s v + cnt v P))%Z as Hdec by (rewrite Z.mod_small; lia).
  split; [|done]. split; [unfold decr; by rewrite (shape_setv _ _ _ y)|].
  intros w x Hx Hxw. unfold decr in Hx. rewrite (heap_setv v _ s y Hy) in Hx.
  rewrite (wp_ext (decr v y s) s) by (intros u; unfold white; by rewrite col_decr).
  case_decide as Hvw.
  - subst w. injection Hx as <-. change (in_edges (set in_edges ?f y)) with (f (in_edges y)).
    cbv beta. rewrite Hdec. split; [done|]. rewrite <- Hdec. apply Z.mod_pos_bound. lia.
  - destruct (Hin w x Hx Hxw) as [-> ?]. split; [|done]. by rewrite cnt_cons, decide_False by congruence.
Qed.

Definition leave (u : nat) (x : vertex) (s : tstate) : tstate := setv u (set v_colour (λ _, BLACK) x) s.

Lemma inv_leave s P u x : inv s P → t_heap s !! u = Some x → v_colour x ≠ WHITE → inv (leave u x s) P.
Proof.
  intros [HG Hin] Hx Hnw. split; [unfold leave; by rewrite (shape_setv _ _ _ x)|].
  intros v y Hy Hyw. unfold leave in Hy. rewrite (heap_setv u _ s x Hx) in Hy.
  case_decide as Huv; [by injection Hy as <-|].
  rewrite (wp_ext (leave u x s) s); [by apply Hin|].
  intros w. unfold white, leave. rewrite (col_setv u _ s x Hx). case_decide; [|done]. subst w.
  unfold col. rewrite Hx. simpl. naive_solver.
Qed.

(** *** A call *)

Definition vpost (u : nat) (s : tstate) (P : list nat) (r : bool) (s' : tstate) : Prop := ∃ new ms,
  ran s s' new ms ∧ u ∈ new ∧ inv s' P ∧ r = bool_decide (ms ≠ []) ∧
  (wp s u = 0 → ordered s new) ∧
  (∀ p g, p ∈ new → grey s g ∨ g = u → E p g → ms ≠ []).

Definition visit_ok (fuel : nat) : Prop := ∀ u s P,
  inv s P → white s u → whites s ≤ fuel → (∀ g, grey s g → rtc E g u) →
  ∃ r s', sort_graph_visit fuel u s = Ok r s' ∧ vpost u s P r s'.

Lemma ran_decr s s' v y new ms : t_heap s !! v = Some y → v ∈ new →
  ran (decr v y s) s' new ms → ran s s' new ms.
Proof.
  intros Hy Hv (Ho & He & Hm & Hn & Hw & Hc & Hz).
  assert (∀ w, white (decr v y s) w ↔ white s w) as Hwd by (intros w; unfold white; by rewrite col_decr).
  split_and!; try done.
  - eapply Forall_impl; [exact Hw|]. intros w. apply Hwd.
  - intros w. by rewrite Hc, col_decr.
  - intros w Hws Hi. assert (v ≠ w) as Hne.
    { intros ->. unfold white in Hws. rewrite Hc, decide_True in Hws by done. done. }
    specialize (Hz w Hws Hi). unfold decr in Hz. by rewrite (inn_setv v _ s y Hy), decide_False in Hz.
Qed.

Definition epost (u : nat) (es : list nat) (s : tstate) (P : list nat) (r r' : bool) (s' : tstate) : Prop := ∃ new ms,
  ran s s' new ms ∧ inv s' P ∧ r' = r || bool_decide (ms ≠ []) ∧ ordered s new ∧
  (∀ p g, p ∈ new → grey s g → E p g → ms ≠ []) ∧ (∀ g, g ∈ es → grey s g → ms ≠ []).

Lemma ordered_nil s : ordered s [].
Proof. intros [|??] ??? [=]. Qed.

Lemma edge_ok fuel u x v s P r :
  visit_ok fuel → v_name x = nm u → inv s (v :: P) → whites s ≤ fuel →
  (∀ g, grey s g → rtc E g u) → E u v → v < length G →
  ∃ r' s', visit_edge (sort_graph_visit fuel) x r v s = Ok r' s' ∧ epost u [v] s P r r' s'.
Proof.
  intros IH Hx Hinv Hf Hchain HE Hlt. pose proof Hinv as [HG _].
  destruct (shape_some s v HG Hlt) as [y Hy]. destruct (shape_lookup s v y HG Hy) as (_ & En & _).
  assert (col s v = Some (v_colour y)) as Hcol by (unfold col; by rewrite Hy).
  unfold visit_edge. rewrite (bind_run _ _ s y s) by (by apply at_vertex_run). destruct (v_colour y) eqn:Ec.
  - destruct (inv_decr s P v y Hinv Hy Ec) as [Hinv' Hdec].
    rewrite (bind_run _ _ s tt (decr v y s)) by (by apply upd_vertex_run).
    set (y' := set in_edges (λ k, (k - 1) mod 2 ^ 64)%Z y).
    assert (t_heap (decr v y s) !! v = Some y') as Hy'.
    { unfold decr. rewrite (heap_setv v _ s y Hy). by rewrite decide_True. }
    rewrite (bind_run _ _ (decr v y s) y' (decr v y s)) by (by apply at_vertex_run).
    assert (∀ w, white (decr v y s) w ↔ white s w) as Hwd by (intros w; unfold white; by rewrite col_decr).
    assert (∀ w, grey (decr v y s) w ↔ grey s w) as Hgd by (intros w; unfold grey; by rewrite col_decr).
    case_decide as H0.
    + destruct (IH v (decr v y s) P Hinv') as (r' & s' & Erun & new & ms & R & Hv & Hi & Hr & Hord & Hg).
      { by apply Hwd. }
      { unfold whites. by rewrite (filter_same _ (white s)) by (intros; apply Hwd). }
      { intros g Hg%Hgd. by eapply rtc_r; [apply Hchain|]. }
      rewrite (bind_run _ _ _ _ _ Erun), Hr. eexists _, s'. split; [done|].
      exists new, ms. split_and!; [by eapply ran_decr|done|done| | |].
      * intros l1 w l2 p Hn Hp. rewrite <- Hwd. eapply Hord; [|done..].
        rewrite (wp_ext _ s) by done.
        change (in_edges y') with ((in_edges y - 1) mod 2 ^ 64)%Z in H0. lia.
      * intros p g Hp Hgs. apply (Hg p g Hp). left. by apply Hgd.
      * intros g ->%list_elem_of_singleton Hgs. unfold grey in Hgs. congruence.
    + exists r, (decr v y s). split; [done|]. exists [], []. split_and!; try done.
      * split_and!; rewrite ?app_nil_r; try done; try constructor.
        -- intros w. by rewrite col_decr.
        -- intros w _ Hw0. unfold decr in Hw0. rewrite (inn_setv v _ s y Hy) in Hw0.
           case_decide; [|done]. injection Hw0 as Hw0. done.
      * by rewrite bool_decide_eq_false_2, orb_false_r by tauto.
      * apply ordered_nil.
      * intros p g Hp. by apply elem_of_nil in Hp.
      * intros g ->%list_elem_of_singleton Hgs. unfold grey in Hgs. congruence.
  - assert (grey s v) as Hg by done.
    exists true, (set t_err (λ e, e ++ [(v_name x, v_name y)]) s). split; [done|].
    exists [], [(v_name x, v_name y)]. split_and!.
    + split_and!; rewrite ?app_nil_r; try done; try constructor; [|constructor].
      exists u, v. rewrite Hx, En. split_and!; [done..|]. by apply Hchain.
    + apply inv_skip in Hinv; [exact Hinv|]. unfold white. congruence.
    + by rewrite bool_decide_eq_true_2, orb_true_r.
    + apply ordered_nil.
    + intros p g Hp. by apply elem_of_nil in Hp.
    + done.
  - exists r, s. split; [done|]. exists [], []. split_and!; [apply ran_refl|..].
    + apply inv_skip in Hinv; [exact Hinv|]. unfold white. congruence.
    + by rewrite bool_decide_eq_false_2, orb_false_r by tauto.
    + apply ordered_nil.
    + intros p g Hp. by apply elem_of_nil in Hp.
    + intros g ->%list_elem_of_singleton Hgs. unfold grey in Hgs. congruence.
Qed.

Lemma ran_whites s s' new ms : ran s s' new ms → whites s' ≤ whites s.
Proof.
  intros R. unfold whites. apply submseteq_length, NoDup_submseteq; [apply NoDup_filter, NoDup_seq|].
  intros v [Hw Hv]%list_elem_of_filter. apply list_elem_of_filter. split; [|done].
  by apply (ran_white _ _ _ _ v R) in Hw as [? _].
Qed.

Lemma edges_ok fuel u x es s P r :
  visit_ok fuel → v_name x = nm u → inv s (es ++ P) → whites s ≤ fuel →
  (∀ g, grey s g → rtc E g u) → Forall (λ v, E u v ∧ v < length G) es →
  ∃ r' s', mfold (visit_edge (sort_graph_visit fuel) x) r es s = Ok r' s' ∧ epost u es s P r r' s'.
Proof.
  intros IH Hx. revert s r. induction es as [|v es IHes]; intros s r Hinv Hf Hchain Hes.
  - exists r, s. split; [done|]. exists [], []. split_and!; [apply ran_refl|done| | | |].
    + by rewrite bool_decide_eq_false_2, orb_false_r by tauto.
    + apply ordered_nil.
    + intros p g Hp. by apply elem_of_nil in Hp.
    + intros g Hp. by apply elem_of_nil in Hp.
  - apply Forall_cons in Hes as [[HE Hlt] Hes].
    destruct (edge_ok fuel u x v s (es ++ P) r) as (r1 & s1 & E1 & n1 & m1 & R1 & I1 & -> & O1 & A1 & B1); try done.
    destruct (IHes s1 (r || bool_decide (m1 ≠ []))) as (r2 & s2 & E2 & n2 & m2 & R2 & I2 & -> & O2 & A2 & B2); try done.
    { pose proof (ran_whites _ _ _ _ R1). lia. }
    { intros g Hg. apply Hchain. by apply (ran_grey _ _ _ _ g R1). }
    eexists _, s2. split; [simpl; rewrite (bind_run _ _ _ _ _ E1); exact E2|].
    exists (n1 ++ n2), (m1 ++ m2).
    assert (∀ m : list (cstr * cstr), m1 ≠ [] ∨ m2 ≠ [] → m1 ++ m2 ≠ []) as Hne.
    { intros _ Hn [-> ->]%app_nil. by destruct Hn. }
    split_and!; [by eapply ran_trans|done| |by eapply ordered_app| |].
    + rewrite <- orb_assoc. f_equal. destruct m1, m2; done.
    + intros p g [Hp|Hp]%elem_of_app Hg HEg; apply (Hne []); [left; by eapply A1|right; eapply A2; try done].
      by apply (ran_grey _ _ _ _ g R1).
    + intros g [->|Hin]%elem_of_cons Hg; apply (Hne []); [left; by apply (B1 v); [left|]|right; apply (B2 g Hin)].
      by apply (ran_grey _ _ _ _ g R1).
Qed.

(** A call from its effect on the edges: entering, the loop, leaving. *)
Lemma ran_call s s1 u x x1 new ms : shape s = G → t_heap s !! u = Some x → v_colour x = WHITE →
  ran (enter u x s) s1 new ms → t_heap s1 !! u = Some x1 → ran s (leave u x1 s1) (u :: new) ms.
Proof.
  intros HG Hx Hcw R Hx1. destruct (shape_lookup s u x HG Hx) as (_ & En & _).
  pose proof (λ v, white_enter u x s v Hx) as We.
  destruct R as (Ho & He & Hm & Hn & Hw & Hc & Hz). rewrite Forall_forall in Hw. split_and!.
  - change (t_out (leave u x1 s1)) with (t_out s1). rewrite Ho. simpl. rewrite En, <- app_assoc. done.
  - exact He.
  - done.
  - constructor; [|done]. intros Hu%Hw%We. tauto.
  - constructor; [unfold white, col; by rewrite Hx, <- Hcw|]. apply Forall_forall. intros v Hv%Hw%We. tauto.
  - intros v. unfold leave. rewrite (col_setv u _ s1 x1 Hx1), Hc, (col_enter u x s v Hx).
    repeat case_decide; set_solver.
  - intros v Hws Hi. unfold white, leave in Hws. rewrite (col_setv u _ s1 x1 Hx1) in Hws.
    unfold leave in Hi. rewrite (inn_setv u _ s1 x1 Hx1) in Hi. case_decide; [done|].
    rewrite <- (inn_enter u x s v Hx). by apply Hz.
Qed.

Lemma wp_zero s v p : shape s = G → wp s v = 0 → E p v → ¬ white s p.
Proof.
  intros HG H0 Hp Hw. pose proof (white_lt s p HG Hw). unfold wp in H0. apply length_zero_iff_nil in H0.
  assert (p ∈ filter (λ u, white s u ∧ v ∈ eg u) (seq 0 (length G))) as Hin.
  { apply list_elem_of_filter. split; [done|]. apply elem_of_seq. lia. }
  rewrite H0 in Hin. by apply elem_of_nil in Hin.
Qed.

Lemma ordered_call s u x new : shape s = G → t_heap s !! u = Some x → wp s u = 0 →
  ordered (enter u x s) new → ordered s (u :: new).
Proof.
  intros HG Hx H0 O l1 v l2 p Heq Hp. destruct l1 as [|w l1]; simpl in Heq; injection Heq as -> Heq.
  - left. by eapply wp_zero.
  - destruct (O l1 v l2 p Heq Hp) as [Hnw|Hin]; [|right; by right].
    rewrite (white_enter w x s p Hx) in Hnw. destruct (decide (p = w)) as [->|]; [right; by left|left; tauto].
Qed.

(** A call returns, having printed its vertex and everything that became free. *)
Lemma sort_graph_visit_ok fuel : visit_ok fuel.
Proof using Hgraph.
  induction fuel as [|fuel IH]; intros u s P Hinv Hw Hf Hchain; pose proof Hinv as [HG Hin];
    pose proof (white_lt s u HG Hw) as Hlt; destruct (shape_some s u HG Hlt) as [x Hx];
    assert (v_colour x = WHITE) as Hcw by (unfold white, col in Hw; rewrite Hx in Hw; by injection Hw);
    destruct (inv_enter s P u x Hinv Hx Hcw) as [Hinv0 Hwh]; [lia|].
  destruct (shape_lookup s u x HG Hx) as (Eg & En & _). destruct (Hgraph u) as (_ & Hself & Hr).
  set (s0 := enter u x s) in *. set (x0 := set v_colour (λ _, GREY) x).
  pose proof (λ v, col_enter u x s v Hx) as Hc0. fold s0 in Hc0.
  assert (∀ g, grey s g ∨ g = u → grey s0 g) as Hgrey.
  { intros g Hg. unfold grey. rewrite Hc0. case_decide; [done|]. by destruct Hg. }
  destruct (edges_ok fuel u x0 (eg u) s0 P false) as (r & s1 & E1 & new & ms & R & I1 & -> & O & A & B);
    [done|done|done|lia| | |].
  { intros g Hg. unfold grey in Hg. rewrite Hc0 in Hg. case_decide; [by subst|by apply Hchain]. }
  { rewrite Forall_forall in *. intros v Hv. split; [done|by apply Hr]. }
  assert (∃ x1, t_heap s1 !! u = Some x1 ∧ v_colour x1 = GREY) as (x1 & Hx1 & Hx1g).
  { assert (grey s1 u) as Hg1 by (apply (ran_grey _ _ _ _ u R), Hgrey; auto).
    unfold grey, col in Hg1. apply fmap_Some in Hg1 as (x1 & ? & ?). by exists x1. }
  exists (bool_decide (ms ≠ [])), (leave u x1 s1). split.
  - cbn [sort_graph_visit]. rewrite (bind_run _ _ s tt (setv u x0 s)) by (by apply upd_vertex_run).
    rewrite (bind_run _ _ (setv u x0 s) x0 (setv u x0 s)).
    2:{ apply at_vertex_run. rewrite (heap_setv u x0 s x Hx). by rewrite decide_True. }
    rewrite (bind_run _ _ (setv u x0 s) tt s0) by done.
    change (v_edges x0) with (v_edges x). rewrite <- Eg, (bind_run _ _ _ _ _ E1).
    by rewrite (bind_run _ _ s1 tt (leave u x1 s1)) by (by apply upd_vertex_run).
  - exists (u :: new), ms. split_and!; [by eapply ran_call|left|apply inv_leave; [done..|congruence]|done| |].
    + intros H0. by eapply ordered_call.
    + intros p g [->|Hp]%elem_of_cons Hg HE; [apply (B g HE)|apply (A p g Hp); [|done]]; auto.
Qed.

(** *** The passes *)

Definition zerofree (s : tstate) : Prop := ∀ v, white s v → inn s v ≠ Some 0%Z.
Definition nogrey (s : tstate) : Prop := ∀ v, ¬ grey s v.

(** Between calls from [sort_graph]: if all counters were positive and nothing
    is left white, the last call ran into its own vertex. *)
Definition top (s s' : tstate) (new : list nat) (ms : list (cstr * cstr)) : Prop :=
  ran s s' new ms ∧ inv s' [] ∧ nogrey s' ∧
  (zerofree s → (∀ v, ¬ white s' v) → new ≠ [] → ms ≠ []).

Lemma ran_zerofree s s' new ms : ran s s' new ms → zerofree s → zerofree s'.
Proof.
  intros R Hz v Hv Hi. pose proof (ran_white _ _ _ _ v R) as W. destruct R as (_ & _ & _ & _ & _ & _ & Hzf).
  apply (Hz v); [tauto|by apply Hzf].
Qed.

Lemma top_refl s : inv s [] → nogrey s → top s s [] [].
Proof. intros. split_and!; [apply ran_refl|done..]. Qed.
Lemma top_trans s s1 s2 n1 n2 m1 m2 : top s s1 n1 m1 → top s1 s2 n2 m2 → top s s2 (n1 ++ n2) (m1 ++ m2).
Proof.
  intros (R1 & I1 & G1 & Z1) (R2 & I2 & G2 & Z2). split_and!; [by eapply ran_trans|done..|].
  intros Hz Hnw Hne [-> ->]%app_nil. destruct n2 as [|v n2].
  - rewrite app_nil_r in Hne. apply Z1; try done. intros v Hv. apply (Hnw v).
    apply (ran_white _ _ _ _ v R2). split; [done|]. apply not_elem_of_nil.
  - apply Z2; try done. by eapply ran_zerofree.
Qed.

Lemma inv_inn s v x : inv s [] → t_heap s !! v = Some x → v_colour x = WHITE → in_edges x = Z.of_nat (wp s v).
Proof. intros [_ H] Hx Hw. destruct (H v x Hx Hw) as [-> _]. by rewrite Nat.add_0_r. Qed.

Lemma wp_le s v : wp s v ≤ length G.
Proof. unfold wp. rewrite <- (length_seq (length G) 0) at 2. apply length_filter. Qed.

Lemma visit_top fuel u s x : inv s [] → nogrey s → t_heap s !! u = Some x → v_colour x = WHITE → whites s ≤ fuel →
  ∃ s' new ms, sort_graph_visit fuel u s = Ok (bool_decide (ms ≠ [])) s' ∧ top s s' new ms ∧ u ∈ new ∧
               (wp s u = 0 → ordered s new).
Proof using Hgraph.
  intros Hinv Hng Hx Hcw Hf. pose proof Hinv as [HG _].
  assert (white s u) as Hw by (unfold white, col; by rewrite Hx, <- Hcw).
  destruct (sort_graph_visit_ok fuel u s [] Hinv Hw Hf) as (r & s' & Er & new & ms & R & Hu & I & -> & O & A).
  { intros g Hg. by destruct (Hng g). }
  exists s', new, ms. split; [done|]. split; [|done]. split; [done|]. split; [done|]. split.
  - intros v Hv%(ran_grey _ _ _ _ v R). by apply (Hng v).
  - intros Hz Hnw _. assert (wp s u ≠ 0) as Hwp.
    { intros H0. apply (Hz u Hw). unfold inn. rewrite Hx. simpl. by rewrite (inv_inn s u x Hinv Hx Hcw), H0. }
    unfold wp in Hwp. destruct (filter (λ p, white s p ∧ u ∈ eg p) (seq 0 (length G))) as [|p l] eqn:El; [done|].
    assert (p ∈ filter (λ p, white s p ∧ u ∈ eg p) (seq 0 (length G))) as Hp by (rewrite El; left).
    apply list_elem_of_filter in Hp as [[Hpw Hpe] _]. apply (A p u); [|by right|done].
    destruct (decide (p ∈ new)); [done|]. destruct (Hnw p). by apply (ran_white _ _ _ _ p R).
Qed.

Lemma sort_pass_ok fuel k l s : (0 ≤ k)%Z → inv s [] → nogrey s → whites s ≤ fuel → Forall (λ v, v < length G) l →
  ∃ kept s' new ms, sort_pass fuel k l s = Ok (bool_decide (ms ≠ []), kept) s' ∧ top s s' new ms ∧
  Forall (λ v, v < length G) kept ∧ (∀ v, v ∈ l → white s' v → v ∈ kept) ∧
  (kept ≠ [] → (k < Z.of_nat (length G))%Z) ∧
  (k = 0%Z → ordered s new ∧ ∀ v, v ∈ kept → white s' v → inn s' v ≠ Some 0%Z).
Proof using Hgraph.
  intros Hk. revert s. induction l as [|u l IH]; intros s Hinv Hng Hf Hl.
  { exists [], s, [], []. split_and!; try done; [by apply top_refl|].
    intros _. split; [apply ordered_nil|]. intros v Hv. by apply elem_of_nil in Hv. }
  apply Forall_cons in Hl as [Hu Hl]. pose proof Hinv as [HG _].
  destruct (shape_some s u HG Hu) as [x Hx]. cbn [sort_pass].
  rewrite (bind_run _ _ s x s) by (by apply at_vertex_run).
  assert (white s u ↔ v_colour x = WHITE) as Hwx.
  { unfold white, col. rewrite Hx. simpl. split; congruence. }
  destruct (decide (v_colour x = WHITE)) as [Hc|Hc]; [rewrite decide_False by tauto|rewrite decide_True by done];
    [destruct (decide (k < in_edges x)%Z) as [Hin|Hin]|].
  - destruct (IH s Hinv Hng Hf Hl) as (kept & s' & new & ms & E1 & T & H1 & H2 & H3 & H4).
    pose proof (inv_inn s u x Hinv Hx Hc) as Hi. pose proof (wp_le s u).
    exists (u :: kept), s', new, ms. rewrite (bind_run _ _ _ _ _ E1). split_and!; try done.
    + by constructor.
    + intros v [->|Hv]%elem_of_cons Hw; [left|right; by apply H2].
    + intros _. lia.
    + intros H0. destruct (H4 H0) as [O Hz]. split; [done|].
      intros v [->|Hv]%elem_of_cons Hw Hv0; [|by apply (Hz v)].
      destruct T as ((_ & _ & _ & _ & _ & _ & Hzf) & _). specialize (Hzf u Hw Hv0). unfold inn in Hzf.
      rewrite Hx in Hzf. injection Hzf as Hzf. lia.
  - destruct (visit_top fuel u s x Hinv Hng Hx Hc Hf) as (s1 & n1 & m1 & E1 & T1 & Hu1 & O1).
    pose proof T1 as (R1 & I1 & G1 & _). pose proof (ran_whites _ _ _ _ R1).
    destruct (IH s1 I1 G1) as (kept & s' & new & ms & E2 & T & H1 & H2 & H3 & H4); [lia|done|].
    exists kept, s', (n1 ++ new), (m1 ++ ms). rewrite (bind_run _ _ _ _ _ E1), (bind_run _ _ _ _ _ E2). split_and!.
    + simpl. by destruct m1, ms.
    + by eapply top_trans.
    + done.
    + intros v [->|Hv]%elem_of_cons Hw; [|by apply H2]. destruct T as [R _].
      apply (ran_white _ _ _ _ u R) in Hw as [Hw _]. apply (ran_white _ _ _ _ u R1) in Hw. tauto.
    + done.
    + intros H0. destruct (H4 H0) as [O Hz]. split; [|done]. eapply ordered_app; [done| |done].
      apply O1. pose proof (inv_inn s u x Hinv Hx Hc). lia.
  - destruct (IH s Hinv Hng Hf Hl) as (kept & s' & new & ms & E1 & T & H1 & H2 & H3 & H4).
    exists kept, s', new, ms. split_and!; try done.
    intros v [->|Hv]%elem_of_cons Hw; [|by apply H2]. destruct T as [R _]. apply (ran_white _ _ _ _ u R) in Hw. tauto.
Qed.

Hypothesis Hsize : (Z.of_nat (length G) + 1 < 2 ^ 64)%Z.

Lemma sort_passes_ok fuel n k s : (0 ≤ k)%Z → inv s [] → nogrey s → whites s ≤ fuel →
  Forall (λ v, v < length G) (t_graph s) → (∀ v, white s v → v ∈ t_graph s) →
  (t_graph s ≠ [] → (k ≤ Z.of_nat (length G))%Z) → (Z.of_nat (length G) < k + Z.of_nat n)%Z →
  ∃ s' new ms, sort_passes fuel n k s = Ok (bool_decide (ms ≠ [])) s' ∧ top s s' new ms ∧ (∀ v, ¬ white s' v).
Proof using Hgraph Hsize.
  revert k s. induction n as [|n IH]; intros k s Hk Hinv Hng Hf Hr Hall Hk1 Hk2; cbn [sort_passes];
    rewrite (bind_run _ _ s (t_graph s) s) by done.
  - destruct (t_graph s) as [|u l] eqn:El; [|exfalso; specialize (Hk1 ltac:(done)); lia].
    exists s, [], []. split_and!; [done|by apply top_refl|]. intros v Hv%Hall. by apply elem_of_nil in Hv.
  - destruct (t_graph s) as [|u l] eqn:El.
    { exists s, [], []. split_and!; [done|by apply top_refl|]. intros v Hv%Hall. by apply elem_of_nil in Hv. }
    specialize (Hk1 ltac:(done)). rewrite <- El in *.
    destruct (sort_pass_ok fuel k (t_graph s) s Hk Hinv Hng Hf Hr) as (kept & s1 & n1 & m1 & E1 & T1 & H1 & H2 & H3 & _).
    rewrite (bind_run _ _ _ _ _ E1). cbn [snd fst]. set (s2 := set t_graph (λ _, kept) s1).
    rewrite (bind_run _ _ s1 tt s2) by done. pose proof T1 as (R1 & I1 & G1 & _). pose proof (ran_whites _ _ _ _ R1) as Hw1.
    rewrite Z.mod_small by lia.
    destruct (IH (k + 1)%Z s2) as (s3 & n2 & m2 & E2 & T2 & Hend); [lia|done|done|exact (Nat.le_trans _ _ _ Hw1 Hf)|done| | |lia|].
    { intros v Hv. apply H2; [|done]. apply Hall. by apply (ran_white _ _ _ _ v R1) in Hv as [? _]. }
    { intros Hne. specialize (H3 Hne). lia. }
    exists s3, (n1 ++ n2), (m1 ++ m2). split_and!; [|by eapply top_trans|done].
    rewrite (bind_run _ _ _ _ _ E2). by destruct m1, m2.
Qed.

(** *** The whole traversal *)

Lemma E_lt u v : E u v → u < length G ∧ v < length G.
Proof using Hgraph.
  intros H. destruct (Hgraph u) as (_ & _ & Hr). rewrite Forall_forall in Hr. split; [|by apply Hr].
  unfold E, eg in H. destruct (G !! u) eqn:EG; [by eapply lookup_lt_Some|]. by apply elem_of_nil in H.
Qed.

Lemma graph_acyclic_acc : (∀ v, ¬ tc E v v) → ∀ v, Acc E v.
Proof using Hgraph.
  intros Hac v. change E with (flip (flip E)).
  assert (∀ x y, tc (flip E) x y → tc E y x) as Hflip.
  { induction 1 as [x y H|x y z H _ IH]; [by apply tc_once|by eapply tc_r]. }
  apply (tc_finite_sn (R := flip E)).
  - intros x Hx%Hflip. by apply (Hac x).
  - exists (seq 0 (length G)). intros y Hy%Hflip. apply elem_of_seq.
    destruct Hy as [x y' H|x y' z H _]; apply E_lt in H; lia.
Qed.

(** With positive counters only, a white vertex leads back to a cycle. *)
Lemma zerofree_cycle s v : inv s [] → zerofree s → Acc E v → ¬ white s v.
Proof.
  intros Hinv Hz. induction 1 as [v _ IH]. intros Hw. pose proof Hinv as [HG _].
  destruct (shape_some s v HG (white_lt s v HG Hw)) as [x Hx].
  assert (v_colour x = WHITE) as Hc by (unfold white, col in Hw; rewrite Hx in Hw; by injection Hw).
  destruct (filter (λ p, white s p ∧ v ∈ eg p) (seq 0 (length G))) as [|p l] eqn:El.
  - apply (Hz v Hw). unfold inn. rewrite Hx. simpl. rewrite (inv_inn s v x Hinv Hx Hc). unfold wp. by rewrite El.
  - assert (p ∈ filter (λ p, white s p ∧ v ∈ eg p) (seq 0 (length G))) as Hp by (rewrite El; left).
    apply list_elem_of_filter in Hp as [[Hpw Hpe] _]. by apply (IH p Hpe).
Qed.

Lemma ordered_tc s new p v : (∀ u, u < length G → white s u) → ordered s new → tc E p v →
  ∀ l1 l2, new = l1 ++ v :: l2 → p ∈ l1.
Proof using Hgraph Hsize.
  intros Hall Hord. induction 1 as [p v H|p w v H _ IH]; intros l1 l2 Hn.
  - destruct (Hord l1 v l2 p Hn H) as [Hw|]; [|done]. destruct Hw. apply Hall. by apply E_lt in H as [? _].
  - pose proof (IH l1 l2 Hn) as Hw. apply list_elem_of_split in Hw as (a & b & ->).
    rewrite <- app_assoc in Hn. simpl in Hn. destruct (Hord a w (b ++ v :: l2) p Hn H) as [Hw|]; [|set_solver].
    destruct Hw. apply Hall. by apply E_lt in H as [? _].
Qed.

Lemma loopmsg_cycle ms : Forall loopmsg ms → (∀ v, ¬ tc E v v) → ms = [].
Proof.
  intros Hm Hac. destruct Hm as [|m ms (u & v & _ & HE & Hr) _]; [done|].
  destruct (Hac u). eapply tc_rtc_r; [by apply tc_once|done].
Qed.

(** The first pass calls only vertices without predecessors; after it all
    counters are positive. *)
Lemma sort_graph_phases s : inv s [] → (∀ v, v < length G → white s v) → t_graph s ≡ₚ seq 0 (length G) →
  ∃ s1 s2 n1 n2 m1 m2, sort_graph s = Ok (bool_decide (m1 ++ m2 ≠ [])) s2 ∧
  top s s1 n1 m1 ∧ ordered s n1 ∧ zerofree s1 ∧ top s1 s2 n2 m2 ∧ (∀ v, ¬ white s2 v).
Proof using Hgraph Hsize.
  intros Hinv Hall Hperm. pose proof Hinv as [HG _].
  assert (length (t_heap s) = length G) as Hlen by (rewrite <- HG; unfold shape; by rewrite length_map).
  assert (nogrey s) as Hng.
  { intros v Hv. assert (white s v) as Hw; [|unfold white, grey in *; congruence].
    apply Hall. unfold grey, col in Hv. apply fmap_Some in Hv as (x & Hx & _). rewrite <- Hlen. by eapply lookup_lt_Some. }
  destruct (decide (t_graph s = [])) as [El|El].
  { exists s, s, [], [], [], []. assert (∀ v, ¬ white s v) as Hnw.
    { intros v Hv%white_lt; [|done]. assert (v ∈ t_graph s) as Hin by (rewrite Hperm; apply elem_of_seq; lia).
      rewrite El in Hin. by apply elem_of_nil in Hin. }
    split_and!; [|by apply top_refl|apply ordered_nil|intros v Hv; by destruct (Hnw v)|by apply top_refl|done].
    unfold sort_graph, mbind, gets. cbn [sort_passes]. unfold mbind, gets. by rewrite El. }
  assert (whites s ≤ length G) as Hwh.
  { unfold whites. rewrite <- (length_seq (length G) 0) at 2. apply length_filter. }
  assert (Forall (λ v, v < length G) (t_graph s)) as Hr.
  { rewrite Hperm. apply Forall_forall. intros v Hv%elem_of_seq. lia. }
  destruct (sort_pass_ok (length G) 0 (t_graph s) s ltac:(lia) Hinv Hng Hwh Hr)
    as (kept & s1 & n1 & m1 & E1 & T1 & H1 & H2 & H3 & H4). destruct (H4 eq_refl) as [O1 Hz1].
  pose proof T1 as (R1 & I1 & G1 & _). pose proof (ran_whites _ _ _ _ R1).
  assert (∀ v, white s1 v → v ∈ kept) as Hkept.
  { intros v Hv. apply H2; [|done]. rewrite Hperm. apply elem_of_seq.
    apply (ran_white _ _ _ _ v R1) in Hv as [Hv _]. apply white_lt in Hv; [lia|done]. }
  set (s1' := set t_graph (λ _, kept) s1).
  destruct (sort_passes_ok (length G) (length G) 1 s1') as (s2 & n2 & m2 & E2 & T2 & Hend);
    [lia|done|done|exact (Nat.le_trans _ _ _ ltac:(eassumption) Hwh)|done|done| |lia|].
  { intros Hne. specialize (H3 Hne). lia. }
  exists s1, s2, n1, n2, m1, m2. split_and!; [|done|done| |exact T2|done].
  - unfold sort_graph. rewrite (bind_run _ _ s (length G) s) by (unfold gets; by rewrite Hlen).
    cbn [sort_passes]. rewrite (bind_run _ _ s (t_graph s) s) by done.
    destruct (t_graph s) as [|u l] eqn:El'; [done|].
    rewrite (bind_run _ _ _ _ _ E1). cbn [snd fst]. rewrite (bind_run _ _ s1 tt s1') by done.
    change ((0 + 1) mod 2 ^ 64)%Z with 1%Z. rewrite (bind_run _ _ _ _ _ E2). by destruct m1, m2.
  - intros v Hv. apply Hz1; [by apply Hkept|done].
Qed.

Lemma sort_graph_ok s : inv s [] → (∀ v, v < length G → white s v) → t_graph s ≡ₚ seq 0 (length G) →
  ∃ s' new ms, sort_graph s = Ok (bool_decide (ms ≠ [])) s' ∧
  t_out s' = t_out s ++ map nm new ∧ t_err s' = t_err s ++ ms ∧ new ≡ₚ seq 0 (length G) ∧ Forall loopmsg ms ∧
  (ms = [] ↔ ∀ v, ¬ tc E v v) ∧
  (ms = [] → ∀ l1 v l2 p, new = l1 ++ v :: l2 → E p v → p ∈ l1).
Proof using Hgraph Hsize.
  intros Hinv Hall Hperm. pose proof Hinv as [HG _].
  destruct (sort_graph_phases s Hinv Hall Hperm) as (s1 & s2 & n1 & n2 & m1 & m2 & Erun & T1 & O1 & Hz & T2 & Hend).
  pose proof (top_trans _ _ _ _ _ _ _ T1 T2) as (R & _). destruct T1 as (R1 & I1 & _), T2 as (R2 & I2 & _ & Z2).
  exists s2, (n1 ++ n2), (m1 ++ m2). pose proof (λ v, ran_white _ _ _ _ v R) as W.
  assert (n1 ++ n2 ≡ₚ seq 0 (length G)) as Hnew.
  { destruct R as (_ & _ & _ & Hnd & Hw & _). apply NoDup_Permutation; [done|apply NoDup_seq|]. intros v. rewrite elem_of_seq.
    split; [intros Hv; rewrite Forall_forall in Hw; apply Hw, white_lt in Hv; [lia|done]|].
    intros Hv. destruct (decide (v ∈ n1 ++ n2)) as [|Hn]; [done|]. destruct (Hend v). apply W. split; [|done]. apply Hall. lia. }
  assert (m1 ++ m2 = [] → n2 = []) as Hn2.
  { intros [_ Hm2]%app_nil. destruct n2; [done|]. by destruct (Z2 Hz Hend). }
  assert (m1 ++ m2 = [] → ordered s (n1 ++ n2)) as Hord by (intros H0; by rewrite (Hn2 H0), app_nil_r).
  destruct R as (Ho & He & Hm & Hnd & _). split_and!; try done.
  - split; [|by apply loopmsg_cycle]. intros H0 v Hv.
    assert (v < length G) as Hlt by (inversion Hv as [?? H|??? H]; subst; apply E_lt in H as [? _]; done).
    assert (v ∈ n1 ++ n2) as (l1 & l2 & Hn)%list_elem_of_split by (rewrite Hnew; apply elem_of_seq; lia).
    pose proof (ordered_tc s (n1 ++ n2) v v Hall (Hord H0) Hv l1 l2 Hn) as Hin.
    rewrite Hn in Hnd. apply NoDup_app in Hnd as (_ & Hd & _). apply (Hd v Hin). by left.
  - intros H0 l1 v l2 p Hn HE. by eapply ordered_tc; [|by apply Hord|by apply tc_once|].
Qed.
End traversal.

(** ** The loader *)

Definition nf (h : list vertex) (i : nat) : cstr := default [] (name_of h i).
Definition ef (h : list vertex) (i : nat) : list nat := default [] (v_edges <$> h !! i).
Definition by_name (h : list vertex) (i j : nat) : Prop := str_lt (nf h i) (nf h j).
Definition indeg (h : list vertex) (v : nat) : nat := length (filter (λ u, v ∈ ef h u) (seq 0 (length h))).

(** The graph of the names [ns] and of the pairs [ps]. *)
Record loaded (s : tstate) (ns : list cstr) (ps : list (cstr * cstr)) : Prop := {
  l_names : NoDup (map v_name (t_heap s));
  l_seen : ∀ n, n ∈ map v_name (t_heap s) ↔ n ∈ ns;
  l_list : t_graph s ≡ₚ seq 0 (length (t_heap s));
  l_sorted : StronglySorted (by_name (t_heap s)) (t_graph s);
  l_edges : ∀ u, u < length (t_heap s) →
    StronglySorted (by_name (t_heap s)) (ef (t_heap s) u) ∧
    Forall (λ v, v < length (t_heap s)) (ef (t_heap s) u) ∧
    (∀ v, v < length (t_heap s) → v ∈ ef (t_heap s) u ↔ (nf (t_heap s) u, nf (t_heap s) v) ∈ ps);
  l_count : ∀ u x, t_heap s !! u = Some x →
    v_colour x = WHITE ∧ in_edges x = (Z.of_nat (indeg (t_heap s) u) mod 2 ^ 64)%Z;
  l_out : t_out s = [];
  l_err : t_err s = []
}.

Lemma sorted_ext {A} (R R' : relation A) l : (∀ x y, x ∈ l → y ∈ l → R x y → R' x y) →
  StronglySorted R l → StronglySorted R' l.
Proof.
  intros HR. induction 1 as [|x l Hl IH Hx]; constructor.
  - apply IH. intros; apply HR; set_solver.
  - rewrite Forall_forall in *. intros y Hy. apply HR; [left|by right|by apply Hx].
Qed.

(** The walk along a sorted list finds the name or the place where it belongs. *)
Lemma find_sorted_ok h name l : Forall (λ i, i < length h) l → StronglySorted (by_name h) l →
  ∃ p it, find_sorted (name_of h) name l = Some (p, it) ∧
  match it with
  | Some i => i ∈ l ∧ nf h i = name
  | None => ∃ q, l = p ++ q ∧ Forall (λ i, str_lt (nf h i) name) p ∧ Forall (λ i, str_lt name (nf h i)) q
  end.
Proof.
  induction 2 as [|i l Hl IH Hi]; simpl.
  { exists [], None. split; [done|]. by exists []. }
  apply Forall_cons in H as [Hlt Hlts]. destruct (IH Hlts) as (p & it & Ef & Hit).
  assert (name_of h i = Some (nf h i)) as Hn.
  { unfold nf, name_of. by destruct (lookup_lt_is_Some_2 h i Hlt) as [x ->]. }
  rewrite Hn. destruct (strcmp name (nf h i)) eqn:Ec.
  - exists [], (Some i). split; [done|]. split; [left|]. by apply strcmp_eq in Ec.
  - exists [], None. split; [done|]. exists (i :: l). split_and!; [done|done|].
    constructor; [done|]. eapply Forall_impl; [exact Hi|]. intros j Hj. by transitivity (nf h i).
  - rewrite Ef. exists (i :: p), it. split; [done|]. destruct it as [j|].
    + destruct Hit. split; [by right|done].
    + destruct Hit as (q & -> & Hp & Hq). exists q. split_and!; [done| |done]. constructor; [|done].
      unfold str_lt. rewrite strcmp_flip, Ec. done.
Qed.

Lemma sorted_NoDup h l : StronglySorted (by_name h) l → NoDup l.
Proof.
  induction 1 as [|x l Hl IH Hx]; constructor; [|done].
  rewrite Forall_forall in Hx. intros Hin%Hx. by apply str_lt_irrefl in Hin.
Qed.

Lemma link_app p n q : link p n (p ++ q) = p ++ n :: q.
Proof. unfold link. by rewrite drop_app_length. Qed.

Lemma sorted_link {A} (R : relation A) (n : A) p q :
  StronglySorted R (p ++ q) → Forall (λ i, R i n) p → Forall (R n) q → StronglySorted R (p ++ n :: q).
Proof.
  induction p as [|i p IH]; simpl; intros Hs Hp Hq.
  - by constructor.
  - apply StronglySorted_inv in Hs as [Hs Hi]. apply Forall_cons in Hp as [Hin Hp]. constructor; [by apply IH|].
    apply Forall_app in Hi as [Hi1 Hi2]. apply Forall_app. split; [done|]. by constructor.
Qed.

Lemma nf_lookup h i x : h !! i = Some x → nf h i = v_name x ∧ ef h i = v_edges x.
Proof. intros H. unfold nf, ef, name_of. by rewrite H. Qed.
Lemma names_inj h i j : NoDup (map v_name h) → i < length h → j < length h → nf h i = nf h j → i = j.
Proof.
  intros Hnd Hi Hj Heq. destruct (lookup_lt_is_Some_2 h i Hi) as [x Hx], (lookup_lt_is_Some_2 h j Hj) as [y Hy].
  rewrite (proj1 (nf_lookup _ _ _ Hx)), (proj1 (nf_lookup _ _ _ Hy)) in Heq.
  eapply (NoDup_lookup (map v_name h)); [done| |].
  - rewrite list_lookup_fmap, Hx. done.
  - rewrite list_lookup_fmap, Hy. simpl. by rewrite Heq.
Qed.

Lemma loaded_range s ns ps : loaded s ns ps → Forall (λ i, i < length (t_heap s)) (t_graph s).
Proof. intros L. rewrite (l_list _ _ _ L). apply Forall_forall. intros i Hi%elem_of_seq. lia. Qed.

(** A new vertex changes nothing for the others. *)
Section snoc.
Context (h : list vertex) (x : vertex).

Lemma nf_snoc i : i < length h → nf (h ++ [x]) i = nf h i.
Proof. intros Hi. unfold nf, name_of. by rewrite lookup_app_l. Qed.
Lemma ef_snoc i : v_edges x = [] → ef (h ++ [x]) i = ef h i.
Proof.
  intros Hx. unfold ef. destruct (decide (i < length h)); [by rewrite lookup_app_l|].
  rewrite lookup_app_r, (lookup_ge_None_2 h) by lia. destruct (i - length h) as [|k]; simpl; [by rewrite Hx|done].
Qed.
Lemma nf_last : nf (h ++ [x]) (length h) = v_name x.
Proof. unfold nf, name_of. by rewrite list_lookup_middle. Qed.
Lemma indeg_snoc v : v_edges x = [] → indeg (h ++ [x]) v = indeg h v.
Proof.
  intros Hx. unfold indeg. rewrite length_app, seq_app, filter_app, length_app. simpl.
  rewrite (filter_same _ (λ u, v ∈ ef h u)) by (intros u _; by rewrite ef_snoc).
  rewrite filter_cons, decide_False; [simpl; lia|]. rewrite ef_snoc by done.
  unfold ef. rewrite lookup_ge_None_2 by lia. apply not_elem_of_nil.
Qed.
End snoc.

Lemma indeg_zero s ns ps : loaded s ns ps → indeg (t_heap s) (length (t_heap s)) = 0.
Proof.
  intros L. unfold indeg. apply filter_none. intros u [_ Hu']%elem_of_seq Hu.
  destruct (l_edges _ _ _ L u ltac:(lia)) as (_ & Hr & _). rewrite Forall_forall in Hr. specialize (Hr _ Hu). lia.
Qed.

Lemma loaded_snoc name s ns ps p q : loaded s ns ps → Forall (λ p, fst p ∈ ns ∧ snd p ∈ ns) ps →
  t_graph s = p ++ q → Forall (λ i, str_lt (nf (t_heap s) i) name) p → Forall (λ i, str_lt name (nf (t_heap s) i)) q →
  loaded (mkTstate (t_heap s ++ [mkVertex name [] 0 WHITE]) (p ++ length (t_heap s) :: q) (t_out s) (t_err s))
         (name :: ns) ps.
Proof.
  intros L Hps Hpq Hp Hq. set (h := t_heap s) in *. set (x := mkVertex name [] 0 WHITE).
  pose proof (loaded_range _ _ _ L) as Hr. pose proof (indeg_zero _ _ _ L) as Hz. fold h in Hr, Hz.
  assert (name ∉ map v_name h) as Hfresh.
  { intros (y & Hn & (i & Hi)%list_elem_of_lookup_1)%list_elem_of_fmap. destruct (nf_lookup _ _ _ Hi) as [Hnf _].
    assert (i ∈ t_graph s) as Hin.
    { rewrite (l_list _ _ _ L). apply elem_of_seq. apply lookup_lt_Some in Hi. fold h. lia. }
    rewrite Hpq in Hin. rewrite Forall_forall in Hp, Hq. rewrite <- Hn in *.
    apply elem_of_app in Hin as [Hin|Hin]; [apply Hp in Hin|apply Hq in Hin]; rewrite Hnf, Hn in Hin; by apply str_lt_irrefl in Hin. }
  destruct L as [L1 L2 L3 L4 L5 L6 L7 L8]. fold h in L1, L2, L3, L4, L5, L6.
  constructor; cbn [t_heap t_graph t_out t_err]; try done.
  - rewrite map_app. apply NoDup_app. split_and!; [done|set_solver|]. apply NoDup_singleton.
  - intros n. rewrite map_app, elem_of_app, L2. simpl. set_solver.
  - rewrite length_app, seq_app. simpl. by rewrite <- L3, Hpq, <- Permutation_middle, Permutation_cons_append.
  - rewrite Hpq in L4, Hr. apply Forall_app in Hr as [Hrp Hrq]. rewrite Forall_forall in *. apply sorted_link.
    + eapply sorted_ext, L4. intros i j Hi Hj. unfold by_name. rewrite !nf_snoc; [done|set_solver..].
    + apply Forall_forall. intros i Hi. unfold by_name. rewrite nf_last, nf_snoc; [by apply Hp|by apply Hrp].
    + apply Forall_forall. intros i Hi. unfold by_name. rewrite nf_last, nf_snoc; [by apply Hq|by apply Hrq].
  - assert (∀ n, (n, name) ∉ ps ∧ (name, n) ∉ ps) as Hnot.
    { intros n. rewrite Forall_forall in Hps. split; intros Hin; apply Hps in Hin as [? ?]; by apply Hfresh, L2. }
    intros u Hu. rewrite length_app in *. simpl in Hu. rewrite ef_snoc by done.
    destruct (decide (u = length h)) as [->|Hne].
    + unfold ef. rewrite lookup_ge_None_2 by lia. simpl. split_and!; [constructor..|].
      intros v _. rewrite nf_last. simpl. split; [intros Hv; by apply elem_of_nil in Hv|]. intros Hin. by destruct (Hnot (nf (h ++ [x]) v)).
    + destruct (L5 u ltac:(lia)) as (E1 & E2 & E3). rewrite Forall_forall in E2. split_and!.
      * eapply sorted_ext, E1. intros i j Hi Hj. unfold by_name. rewrite !nf_snoc; [done|by apply E2..].
      * apply Forall_forall. intros v Hv. apply E2 in Hv. simpl. lia.
      * intros v Hv. rewrite nf_snoc by lia. destruct (decide (v = length h)) as [->|Hnv].
        -- rewrite nf_last. split; [intros Hin; apply E2 in Hin; lia|]. intros Hin. by destruct (Hnot (nf h u)).
        -- rewrite nf_snoc by (simpl in Hv; lia). apply E3. simpl in Hv. lia.
  - intros u y Hy. rewrite indeg_snoc by done. apply lookup_app_Some in Hy as [Hy|[Hge Hy]]; [by apply L6|].
    apply list_lookup_singleton_Some in Hy as [Hu0 <-]. replace u with (length h) by lia. by rewrite Hz.
Qed.

Lemma add_vertex_ok name s ns ps : loaded s ns ps → Forall (λ p, fst p ∈ ns ∧ snd p ∈ ns) ps →
  ∃ i s', add_vertex name s = Ok i s' ∧ loaded s' (name :: ns) ps ∧
  i < length (t_heap s') ∧ nf (t_heap s') i = name ∧ length (t_heap s') ≤ S (length (t_heap s)) ∧
  (∀ j, j < length (t_heap s) → j < length (t_heap s') ∧ nf (t_heap s') j = nf (t_heap s) j).
Proof.
  intros L Hps. pose proof (loaded_range _ _ _ L) as Hr.
  destruct (find_sorted_ok (t_heap s) name (t_graph s) Hr (l_sorted _ _ _ L)) as (p & it & Ef & Hit).
  unfold add_vertex. rewrite (bind_run _ _ s (p, it) s).
  2:{ unfold find_vertex, mbind, gets, deref. simpl. by rewrite Ef. }
  destruct it as [i|].
  - destruct Hit as [Hi Hn]. rewrite Forall_forall in Hr. exists i, s. split; [done|]. split; [|auto].
    destruct L as [L1 L2 L3 L4 L5 L6 L7 L8]. constructor; try done. intros n. rewrite L2, elem_of_cons.
    split; [auto|]. intros [->|]; [|done]. apply L2, list_elem_of_fmap.
    destruct (lookup_lt_is_Some_2 (t_heap s) i (Hr i Hi)) as [x Hx]. exists x. split; [|by eapply list_elem_of_lookup_2].
    by rewrite <- Hn, (proj1 (nf_lookup _ _ _ Hx)).
  - destruct Hit as (q & Hpq & Hp & Hq). set (x := mkVertex name [] 0 WHITE).
    exists (length (t_heap s)), (mkTstate (t_heap s ++ [x]) (p ++ length (t_heap s) :: q) (t_out s) (t_err s)). split.
    { unfold mbind, gets, modify, mret. simpl. unfold set, set_field. simpl. rewrite Hpq, link_app. done. }
    split_and!; [by eapply loaded_snoc|simpl; rewrite ?length_app; simpl; lia|apply nf_last|simpl; rewrite length_app; simpl; lia|].
    intros j Hj. simpl. rewrite length_app. split; [lia|by apply nf_snoc].
Qed.

(** The heap after a new edge from [f] to [t], in terms of names, edges and counters. *)
Section new_edge.
Context (h : list vertex) (f t : nat) (x y : vertex) (es : list nat).
Context (Hx : h !! f = Some x) (Hy : h !! t = Some y) (Hne : f ≠ t).

Let h' : list vertex := <[t := set in_edges (λ k, (k + 1) mod 2 ^ 64)%Z y]> (<[f := set v_edges (λ _, es) x]> h).

Lemma new_edge_lookup i : h' !! i =
  if decide (i = t) then Some (set in_edges (λ k, (k + 1) mod 2 ^ 64)%Z y)
  else if decide (i = f) then Some (set v_edges (λ _, es) x) else h !! i.
Proof using Hx Hy Hne.
  unfold h'. case_decide; [subst; rewrite list_lookup_insert_eq; [done|]|rewrite list_lookup_insert_ne by done].
  - rewrite length_insert. by eapply lookup_lt_Some.
  - case_decide; [subst; rewrite list_lookup_insert_eq; [done|by eapply lookup_lt_Some]|by rewrite list_lookup_insert_ne].
Qed.
Lemma new_edge_length : length h' = length h.
Proof. unfold h'. by rewrite !length_insert. Qed.
Lemma new_edge_nf i : nf h' i = nf h i.
Proof using Hx Hy Hne.
  unfold nf, name_of. rewrite new_edge_lookup. repeat case_decide; subst; rewrite ?Hx, ?Hy; done.
Qed.
Lemma new_edge_names : map v_name h' = map v_name h.
Proof using Hx Hy Hne.
  apply list_eq. intros i. rewrite !list_lookup_fmap, new_edge_lookup. repeat case_decide; subst; rewrite ?Hx, ?Hy; done.
Qed.
Lemma new_edge_ef i : ef h' i = if decide (i = f) then es else ef h i.
Proof using Hx Hy Hne.
  unfold ef. rewrite new_edge_lookup. repeat case_decide; subst; rewrite ?Hx, ?Hy; done.
Qed.
Lemma new_edge_indeg v : t ∉ ef h f → (∀ w, w ∈ es ↔ w = t ∨ w ∈ ef h f) →
  indeg h' v = indeg h v + if decide (v = t) then 1 else 0.
Proof using Hx Hy Hne.
  intros Hnt Hes. unfold indeg. rewrite new_edge_length. case_decide as Hv.
  - subst v. rewrite Nat.add_1_r. apply (filter_one _ _ f).
    + apply NoDup_seq.
    + apply elem_of_seq. apply lookup_lt_Some in Hx. lia.
    + rewrite new_edge_ef, decide_True by done. apply Hes. by left.
    + done.
    + intros w Hw. by rewrite new_edge_ef, decide_False.
  - rewrite Nat.add_0_r. apply filter_same. intros w _. rewrite new_edge_ef. case_decide; [|done]. subst w.
    rewrite Hes. tauto.
Qed.
End new_edge.

Lemma loaded_edge s ns ps f t x y p q : loaded s ns ps →
  t_heap s !! f = Some x → t_heap s !! t = Some y → f ≠ t → ef (t_heap s) f = p ++ q →
  Forall (λ i, str_lt (nf (t_heap s) i) (v_name y)) p → Forall (λ i, str_lt (v_name y) (nf (t_heap s) i)) q →
  loaded (set t_heap (λ _, <[t := set in_edges (λ k, (k + 1) mod 2 ^ 64)%Z y]>
                             (<[f := set v_edges (λ _, p ++ t :: q) x]> (t_heap s))) s)
         ns ((nf (t_heap s) f, nf (t_heap s) t) :: ps).
Proof.
  intros L Hx Hy Hne Hpq Hp Hq. set (h := t_heap s) in *. set (es := p ++ t :: q).
  set (h' := <[t := set in_edges (λ k, (k + 1) mod 2 ^ 64)%Z y]> (<[f := set v_edges (λ _, es) x]> h)).
  assert (f < length h) as Hf by (by eapply lookup_lt_Some). assert (t < length h) as Ht by (by eapply lookup_lt_Some).
  destruct (nf_lookup _ _ _ Hy) as [Hny _].
  pose proof (new_edge_length h f t x y es) as Hlen. fold h' in Hlen.
  pose proof (new_edge_nf h f t x y es Hx Hy Hne) as Hnf. fold h' in Hnf.
  pose proof (new_edge_ef h f t x y es Hx Hy Hne) as Hef. fold h' in Hef.
  assert (t ∉ ef h f) as Hnt.
  { rewrite Hpq. rewrite Forall_forall in Hp, Hq. intros [Hin|Hin]%elem_of_app; [apply Hp in Hin|apply Hq in Hin];
      rewrite Hny in Hin; by apply str_lt_irrefl in Hin. }
  pose proof (λ v, new_edge_indeg h f t x y es Hx Hy Hne v Hnt ltac:(intros w; subst es; rewrite Hpq; set_solver)) as Hdeg.
  fold h' in Hdeg. assert (∀ i j, by_name h i j → by_name h' i j) as Hby by (intros i j; unfold by_name; by rewrite !Hnf).
  destruct L as [L1 L2 L3 L4 L5 L6 L7 L8]. fold h in L1, L2, L3, L4, L5, L6.
  constructor; cbn [t_heap t_graph t_out t_err]; try done; change (t_heap (set t_heap _ s)) with h'.
  - unfold h'. by rewrite new_edge_names.
  - intros n. unfold h'. by rewrite new_edge_names.
  - by rewrite Hlen.
  - eapply sorted_ext, L4. auto.
  - intros u Hu. rewrite Hlen, Hef in *. destruct (L5 u Hu) as (E1 & E2 & E3). case_decide as Huf.
    + subst u. split_and!.
      * apply sorted_link; [rewrite <- Hpq; eapply sorted_ext, E1; auto|..];
          (eapply Forall_impl; [eassumption|]; intros i Hi; apply Hby; unfold by_name; by rewrite Hny).
      * rewrite Hpq in E2. unfold es. apply Forall_app in E2 as [? ?]. apply Forall_app. by repeat constructor.
      * intros v Hv. rewrite !Hnf, elem_of_cons, <- E3 by done. unfold es. rewrite Hpq.
        rewrite !elem_of_app, elem_of_cons. split; [naive_solver|]. intros [[= Hn]|[?|?]]; [|tauto..].
        right. left. by apply (names_inj h).
    + split_and!; [by eapply sorted_ext, E1; auto|done|]. intros v Hv. rewrite !Hnf, elem_of_cons, E3 by done.
      split; [by right|]. intros [[= Hn _]|?]; [|done]. destruct Huf. by apply (names_inj h).
  - intros u z Hz. unfold h' in Hz. rewrite (new_edge_lookup h f t x y es Hx Hy Hne) in Hz. rewrite Hdeg.
    repeat case_decide; subst.
    + injection Hz as <-. destruct (L6 t y Hy) as [? Hc]. split; [done|].
      change (in_edges (set in_edges ?g y)) with (g (in_edges y)). cbv beta. rewrite Hc, Nat2Z.inj_add.
      by rewrite Z.add_mod_idemp_l by lia.
    + injection Hz as <-. destruct (L6 f x Hx) as [? Hc]. rewrite Nat.add_0_r. done.
    + rewrite Nat.add_0_r. by apply L6.
Qed.

Lemma add_edge_ok f t s ns ps : loaded s ns ps → f < length (t_heap s) → t < length (t_heap s) → f ≠ t →
  ∃ s', add_edge f t s = Ok tt s' ∧ length (t_heap s') = length (t_heap s) ∧
        loaded s' ns ((nf (t_heap s) f, nf (t_heap s) t) :: ps).
Proof.
  intros L Hf Ht Hne. destruct (lookup_lt_is_Some_2 _ f Hf) as [x Hx], (lookup_lt_is_Some_2 _ t Ht) as [y Hy].
  destruct (nf_lookup _ _ _ Hx) as [Hnx Hex], (nf_lookup _ _ _ Hy) as [Hny _].
  destruct (l_edges _ _ _ L f Hf) as (Hsort & Hr & Hiff).
  destruct (find_sorted_ok (t_heap s) (v_name y) (ef (t_heap s) f) Hr Hsort) as (p & it & Ef & Hit).
  unfold add_edge. rewrite (bind_run _ _ s y s) by (by apply at_vertex_run). rewrite (bind_run _ _ s (p, it) s).
  2:{ unfold find_edge. rewrite (bind_run _ _ s s s), (bind_run _ _ s x s) by (done || by apply at_vertex_run).
      rewrite <- Hex, Ef. done. }
  destruct it as [i|].
  - exists s. split_and!; [done..|]. destruct Hit as [Hi Hn].
    assert (i = t) as ->.
    { apply (names_inj (t_heap s)); [apply L| |done|congruence]. rewrite Forall_forall in Hr. by apply Hr. }
    assert ((nf (t_heap s) f, nf (t_heap s) t) ∈ ps) as Hin by (by apply Hiff).
    destruct L as [L1 L2 L3 L4 L5 L6 L7 L8]. constructor; try done. intros u Hu.
    destruct (L5 u Hu) as (? & ? & E3). split_and!; try done. intros v Hv. rewrite E3, elem_of_cons by done.
    split; [by right|]. by intros [->|?].
  - destruct Hit as (q & Hpq & Hp & Hq).
    set (h' := <[t := set in_edges (λ k, (k + 1) mod 2 ^ 64)%Z y]> (<[f := set v_edges (λ _, p ++ t :: q) x]> (t_heap s))).
    exists (set t_heap (λ _, h') s). split_and!.
    { rewrite (bind_run _ _ s tt (setv f (set v_edges (link p t) x) s)) by (by apply upd_vertex_run).
      rewrite (upd_vertex_run t _ y).
      - unfold setv. unfold h'. assert (set v_edges (link p t) x = set v_edges (λ _, p ++ t :: q) x) as ->; [|done].
        unfold set, set_field. by rewrite <- Hex, Hpq, link_app.
      - by rewrite (heap_setv f _ s x Hx), decide_False. }
    { apply new_edge_length. }
    by apply loaded_edge with (p := p) (q := q).
Qed.

(** ** The input *)

(** The pairs of a list of tokens, and the relation they denote. *)
Fixpoint pairs (toks : list cstr) : list (cstr * cstr) :=
  match toks with a :: b :: r => (a, b) :: pairs r | _ => [] end.
Definition before (toks : list cstr) (a b : cstr) : Prop := (a, b) ∈ pairs toks ∧ a ≠ b.

Lemma list_ind2 {A} (P : list A → Prop) :
  P [] → (∀ a, P [a]) → (∀ a b l, P l → P (a :: b :: l)) → ∀ l, P l.
Proof. intros H0 H1 H2. fix IH 1. intros [|a [|b l]]; [done|apply H1|apply H2, IH]. Qed.

Definition pairs_of (ns : list cstr) (ps : list (cstr * cstr)) : Prop :=
  Forall (λ p, fst p ∈ ns ∧ snd p ∈ ns ∧ fst p ≠ snd p) ps.
Lemma pairs_weaken ns ps : pairs_of ns ps → Forall (λ p, fst p ∈ ns ∧ snd p ∈ ns) ps.
Proof. intros H. eapply Forall_impl; [exact H|]. by intros p (? & ? & _). Qed.
Lemma pairs_cons n ns ps : pairs_of ns ps → pairs_of (n :: ns) ps.
Proof. intros H. eapply Forall_impl; [exact H|]. intros p (? & ? & ?). split_and!; [by right|by right|done]. Qed.

(** The second token of a pair. *)
Lemma load_second_ok s1 i a b ns ps : loaded s1 (a :: ns) ps → pairs_of (a :: ns) ps →
  i < length (t_heap s1) → nf (t_heap s1) i = a →
  ∃ s2 ns2 ps2, load_token (Some i) b s1 = Ok None s2 ∧ loaded s2 ns2 ps2 ∧ pairs_of ns2 ps2 ∧
  (∀ n, n ∈ ns2 ↔ n = b ∨ n = a ∨ n ∈ ns) ∧
  (∀ c d, (c, d) ∈ ps2 ↔ (c = a ∧ d = b ∧ a ≠ b) ∨ (c, d) ∈ ps) ∧
  length (t_heap s2) ≤ S (length (t_heap s1)).
Proof.
  intros L1 Hps1 Hi Hn. destruct (lookup_lt_is_Some_2 _ i Hi) as [x Hx]. destruct (nf_lookup _ _ _ Hx) as [Hnx _].
  unfold load_token. rewrite (bind_run _ _ s1 x s1) by (by apply at_vertex_run).
  rewrite <- Hnx, Hn. case_decide as Hc; rewrite strcmp_eq in Hc.
  - destruct (add_vertex_ok b s1 (a :: ns) ps L1) as (j & s2 & E2 & L2 & Hj & Hn2 & Hlen2 & Hold2).
    { by apply pairs_weaken. }
    destruct (Hold2 i Hi) as [Hi2 Hni].
    destruct (add_edge_ok i j s2 _ _ L2 Hi2 Hj) as (s3 & E3 & Hl3 & L3); [congruence|].
    rewrite Hn2, Hni, Hn in L3. eexists s3, _, _. rewrite (bind_run _ _ _ _ _ E2), (bind_run _ _ _ _ _ E3).
    split; [done|]. split; [exact L3|]. split_and!.
    + constructor; [simpl; split_and!; [right; left|left|done]|]. by apply pairs_cons.
    + set_solver.
    + intros c d. rewrite elem_of_cons. naive_solver.
    + lia.
  - subst b. eexists s1, _, _. split; [done|]. split; [exact L1|]. split_and!; [done|set_solver|naive_solver|lia].
Qed.

Lemma load_tokens_ok toks s ns ps : loaded s ns ps → pairs_of ns ps →
  ∃ from s' ns' ps', mfold load_token None toks s = Ok from s' ∧ loaded s' ns' ps' ∧
  pairs_of ns' ps' ∧
  (∀ n, n ∈ ns' ↔ n ∈ ns ∨ n ∈ toks) ∧
  (∀ a b, (a, b) ∈ ps' ↔ (a, b) ∈ ps ∨ before toks a b) ∧
  length (t_heap s') ≤ length (t_heap s) + length toks ∧
  (from = None ↔ Nat.even (length toks) = true).
Proof.
  revert s ns ps. induction toks as [|a|a b toks IH] using list_ind2; intros s ns ps L Hps.
  - exists None, s, ns, ps. unfold before. split_and!; try done; [set_solver..|lia].
  - destruct (add_vertex_ok a s ns ps L) as (i & s1 & E1 & L1 & Hi & Hn & Hlen & Hold).
    { by apply pairs_weaken. }
    exists (Some i), s1, (a :: ns), ps. simpl. unfold mbind at 1, load_token, mbind. rewrite E1. split_and!; try done.
    + by apply pairs_cons.
    + set_solver.
    + unfold before. set_solver.
    + lia.
  - destruct (add_vertex_ok a s ns ps L) as (i & s1 & E1 & L1 & Hi & Hn & Hlen & Hold).
    { by apply pairs_weaken. }
    assert (pairs_of (a :: ns) ps) as Hps1.
    { by apply pairs_cons. }
    destruct (load_second_ok s1 i a b ns ps L1 Hps1 Hi Hn) as (s2 & ns2 & ps2 & E2 & L2 & Hps2 & Hns2 & Hp2 & Hlen2).
    destruct (IH s2 ns2 ps2 L2 Hps2) as (from & s' & ns' & ps' & E3 & L3 & Hps3 & Hns3 & Hp3 & Hlen3 & Hev).
    exists from, s', ns', ps'. split_and!; try done.
    + simpl. rewrite (bind_run _ _ s (Some i) s1) by (unfold mbind; by rewrite E1). by rewrite (bind_run _ _ _ _ _ E2).
    + intros n. rewrite Hns3, Hns2. set_solver.
    + intros c d. rewrite Hp3, Hp2. unfold before. simpl. rewrite elem_of_cons. naive_solver.
    + simpl. lia.
Qed.

(** From names to vertices and back. *)
Section transfer.
Context (s : tstate) (ns : list cstr) (ps : list (cstr * cstr)) (L : loaded s ns ps) (Hps : pairs_of ns ps).

Lemma pairs_in a b : (a, b) ∈ ps → a ∈ ns ∧ b ∈ ns ∧ a ≠ b.
Proof using Hps. unfold pairs_of in Hps. rewrite Forall_forall in Hps. apply Hps. Qed.

Lemma eg_shape u : eg (shape s) u = ef (t_heap s) u.
Proof. unfold eg, ef, shape. rewrite list_lookup_fmap. by destruct (t_heap s !! u). Qed.
Lemma nm_shape u : nm (shape s) u = nf (t_heap s) u.
Proof. unfold nm, nf, name_of, shape. rewrite list_lookup_fmap. by destruct (t_heap s !! u). Qed.
Lemma length_shape : length (shape s) = length (t_heap s).
Proof. apply length_map. Qed.

Lemma shape_graph u :
  NoDup (eg (shape s) u) ∧ u ∉ eg (shape s) u ∧ Forall (λ v, v < length (shape s)) (eg (shape s) u).
Proof using L Hps.
  rewrite eg_shape, length_shape. destruct (decide (u < length (t_heap s))) as [Hu|Hu].
  - destruct (l_edges _ _ _ L u Hu) as (Hs & Hr & Hi). split_and!; [|intros Hin|done].
    + by eapply sorted_NoDup.
    + apply Hi in Hin; [|done]. apply pairs_in in Hin. tauto.
  - unfold ef. rewrite lookup_ge_None_2 by lia. split_and!; [constructor|apply not_elem_of_nil|constructor].
Qed.

Lemma shape_edge u v : E (shape s) u v ↔
  u < length (t_heap s) ∧ v < length (t_heap s) ∧ (nf (t_heap s) u, nf (t_heap s) v) ∈ ps.
Proof using L Hps.
  unfold E. rewrite eg_shape. split.
  - intros Hv. destruct (decide (u < length (t_heap s))) as [Hu|Hu].
    + destruct (l_edges _ _ _ L u Hu) as (_ & Hr & Hi). rewrite Forall_forall in Hr.
      split_and!; [done|by apply Hr|]. apply Hi; [by apply Hr|done].
    + unfold ef in Hv. rewrite lookup_ge_None_2 in Hv by lia. by apply elem_of_nil in Hv.
  - intros (Hu & Hv & Hin). destruct (l_edges _ _ _ L u Hu) as (_ & _ & Hi). by apply Hi.
Qed.

(** A name that was seen has a vertex. *)
Lemma name_vertex n : n ∈ ns → ∃ u, u < length (t_heap s) ∧ nf (t_heap s) u = n.
Proof using L.
  intros (x & -> & (u & Hu)%list_elem_of_lookup_1)%(l_seen _ _ _ L)%list_elem_of_fmap.
  exists u. split; [by eapply lookup_lt_Some|]. by apply nf_lookup in Hu as [? _].
Qed.

Lemma tc_names u v : tc (E (shape s)) u v → tc (λ a b, (a, b) ∈ ps) (nf (t_heap s) u) (nf (t_heap s) v).
Proof using L Hps.
  induction 1 as [u v H|u w v H _ IH]; apply shape_edge in H as (_ & _ & H); [by apply tc_once|by eapply tc_l].
Qed.
Lemma tc_vertices a b : tc (λ a b, (a, b) ∈ ps) a b → ∀ u, u < length (t_heap s) → nf (t_heap s) u = a →
  ∃ v, v < length (t_heap s) ∧ nf (t_heap s) v = b ∧ tc (E (shape s)) u v.
Proof using L Hps.
  assert (∀ a b u, (a, b) ∈ ps → u < length (t_heap s) → nf (t_heap s) u = a →
    ∃ v, v < length (t_heap s) ∧ nf (t_heap s) v = b ∧ E (shape s) u v) as Hstep.
  { intros a' b' u Hin Hu Hn. destruct (pairs_in _ _ Hin) as (_ & Hb & _). destruct (name_vertex _ Hb) as (v & Hv & Hnv). exists v.
    split_and!; [done..|]. apply shape_edge. split_and!; [done..|]. simpl in Hnv. congruence. }
  induction 1 as [a b H|a c b H _ IH]; intros u Hu Hn.
  - destruct (Hstep a b u H Hu Hn) as (v & ? & ? & ?). exists v. split_and!; [done..|by apply tc_once].
  - destruct (Hstep a c u H Hu Hn) as (w & Hw & Hnw & ?). destruct (IH w Hw Hnw) as (v & ? & ? & ?).
    exists v. split_and!; [done..|by eapply tc_l].
Qed.
Lemma acyclic_names : (∀ v, ¬ tc (E (shape s)) v v) ↔ ∀ a, ¬ tc (λ a b, (a, b) ∈ ps) a a.
Proof using L Hps.
  split; intros Hac.
  - intros a Ha. assert (a ∈ ns) as (u & Hu & Hn)%name_vertex.
    { inversion Ha as [?? H|??? H]; subst; apply pairs_in in H; tauto. }
    destruct (tc_vertices a a Ha u Hu Hn) as (v & Hv & Hnv & Ht). apply (Hac u).
    assert (v = u) as -> by (apply (names_inj (t_heap s)); [apply L|done|done|congruence]). done.
  - intros v Hv%tc_names. by apply (Hac _ Hv).
Qed.
End transfer.

Lemma loaded_nil : loaded tstate0 [] [].
Proof. constructor; try done; [apply NoDup_nil_2|constructor|]. intros u. simpl. lia. Qed.

Lemma names_seq h : map (nf h) (seq 0 (length h)) = map v_name h.
Proof.
  apply list_eq. intros i. rewrite !list_lookup_fmap. destruct (decide (i < length h)) as [Hi|Hi].
  - rewrite lookup_seq_lt by done. simpl. destruct (lookup_lt_is_Some_2 h i Hi) as [x Hx].
    by rewrite Hx, (proj1 (nf_lookup _ _ _ Hx)).
  - rewrite lookup_seq_ge, lookup_ge_None_2 by lia. done.
Qed.

(** What the loader leaves is what the traversal expects. *)
Lemma loaded_inv s ns ps : loaded s ns ps → (Z.of_nat (length (t_heap s)) < 2 ^ 64)%Z →
  inv (shape s) s [] ∧ (∀ v, v < length (shape s) → white s v) ∧ t_graph s ≡ₚ seq 0 (length (shape s)).
Proof.
  intros L Hlt. rewrite length_shape.
  assert (∀ v, v < length (t_heap s) → white s v) as Hw.
  { intros v [x Hx]%lookup_lt_is_Some_2. unfold white, col. rewrite Hx. simpl. f_equal. by apply (l_count _ _ _ L v x). }
  split_and!; [|done|apply L]. split; [done|]. intros v x Hx _. destruct (l_count _ _ _ L v x Hx) as [_ Hc].
  assert (wp (shape s) s v = indeg (t_heap s) v) as ->.
  { unfold wp, indeg. rewrite length_shape. apply filter_same. intros u [_ Hu]%elem_of_seq. rewrite eg_shape.
    split; [tauto|]. split; [|done]. by apply Hw. }
  assert (indeg (t_heap s) v ≤ length (t_heap s)) as Hle.
  { unfold indeg. rewrite <- (length_seq (length (t_heap s)) 0) at 2. apply length_filter. }
  rewrite Z.mod_small in Hc by lia. rewrite Nat.add_0_r. split; [done|]. rewrite Hc. lia.
Qed.

(** C29: tsort on a text of fewer than 2^64 - 1 tokens.  An even number of
    tokens always gives an answer: every token is printed exactly once; the exit
    status is 1, and messages are printed, exactly when the relation of the input has
    a cycle, and each message names a pair of the input that lies on one;
    otherwise the lines are a topological order of the pairs.  An odd number of tokens is the error. *)
Theorem tsort_correct (text : cstr) (argv0 : cstr) :
  let toks := file_tokens text in
  (Z.of_nat (length toks) + 1 < 2 ^ 64)%Z →
  if Nat.even (length toks) then
    ∃ s', ts_main (λ _, None) text false false argv0 [] tstate0
          = Ok (if bool_decide (t_err s' = []) then 0 else 1)%Z s' ∧
    NoDup (t_out s') ∧ (∀ n, n ∈ t_out s' ↔ n ∈ toks) ∧
    (t_err s' = [] ↔ ∀ n, ¬ tc (before toks) n n) ∧
    Forall (λ m, before toks (fst m) (snd m) ∧ rtc (before toks) (snd m) (fst m)) (t_err s') ∧
    (t_err s' = [] → ∀ a b, before toks a b → ∃ l1 l2 l3, t_out s' = l1 ++ a :: l2 ++ b :: l3)
  else ∃ s', ts_main (λ _, None) text false false argv0 [] tstate0 = Die "odd number of tokens in input" s'.
Proof.
  intros toks Hsize.
  destruct (load_tokens_ok toks tstate0 [] [] loaded_nil) as (from & s1 & ns & ps & E1 & L & Hps & Hns & Hp & Hlen & Hev);
    [constructor|]. simpl in Hlen.
  assert (∀ a b, (a, b) ∈ ps ↔ before toks a b) as Hrel by (intros a b; rewrite Hp; set_solver).
  assert (ts_main (λ _, None) text false false argv0 [] tstate0 =
    (match from with Some _ => eprintf "odd number of tokens in input" | None =>
       r <- sort_graph ;; mret (if r : bool then 1 else 0)%Z end) s1) as ->.
  { unfold ts_main. rewrite (bind_run _ _ tstate0 ([], tt) tstate0) by done.
    rewrite (bind_run _ _ tstate0 text tstate0) by done. unfold mbind at 1, load_graph, mbind. fold toks. rewrite E1.
    by destruct from. }
  destruct (Nat.even (length toks)).
  2:{ destruct from as [i|]; [by exists s1|]. discriminate (proj1 Hev eq_refl). }
  rewrite (proj2 Hev eq_refl). destruct (loaded_inv s1 ns ps L ltac:(lia)) as (Hinv & Hall & Hperm).
  destruct (sort_graph_ok (shape s1) (shape_graph s1 ns ps L Hps) ltac:(rewrite length_shape; lia) s1 Hinv Hall Hperm)
    as (s2 & new & ms & E2 & Ho & He & Hnew & Hm & Hac & Hord).
  rewrite (l_out _ _ _ L) in Ho. rewrite (l_err _ _ _ L) in He. simpl in Ho, He. rewrite length_shape in Hnew.
  assert (t_out s2 ≡ₚ map v_name (t_heap s1)) as Hout.
  { rewrite Ho, <- names_seq, <- Hnew. erewrite map_ext; [done|]. intros u. apply nm_shape. }
  exists s2. rewrite (bind_run _ _ _ _ _ E2), He. split_and!.
  - by destruct ms.
  - rewrite Hout. apply L.
  - intros n. rewrite Hout, (l_seen _ _ _ L), Hns. set_solver.
  - rewrite Hac, (acyclic_names s1 ns ps L Hps).
    split; intros H n Hn; apply (H n); (eapply (tc_congruence id); [|exact Hn]); intros a b; apply Hrel.
  - eapply Forall_impl; [exact Hm|]. intros m (u & v & -> & HE & Hr). simpl. rewrite !nm_shape.
    pose proof (shape_edge s1 ns ps L Hps) as Hse. split; [apply Hrel, Hse, HE|].
    eapply (rtc_congruence (nf (t_heap s1))); [|exact Hr]. intros x y Hxy. apply Hrel, Hse, Hxy.
  - intros H0 a b Hab. apply Hrel in Hab. destruct (pairs_in ns ps Hps a b Hab) as (Ha & Hb & _).
    destruct (name_vertex s1 ns ps L a Ha) as (u & Hu & <-), (name_vertex s1 ns ps L b Hb) as (v & Hv & <-).
    assert (v ∈ new) as (l1 & l2 & Hn)%list_elem_of_split by (rewrite Hnew; apply elem_of_seq; lia).
    assert (u ∈ l1) as (k1 & k2 & ->)%list_elem_of_split by (eapply Hord; [done..|]; by apply (shape_edge s1 ns ps L Hps)).
    exists (map (nm (shape s1)) k1), (map (nm (shape s1)) k2), (map (nm (shape s1)) l2).
    rewrite Ho, Hn, <- app_assoc, map_app. simpl. rewrite map_app. simpl. by rewrite !nm_shape.
Qed.

Lemma tsort_correct_witness : ∃ s',
  ts_main (λ _, None) "b c a b" false false "tsort" [] tstate0 = Ok 0%Z s' ∧
  (∀ n, n ∈ t_out s' ↔ n ∈ lits ["b"; "c"; "a"; "b"]).
Proof.
  destruct (tsort_correct "b c a b" "tsort") as (s' & H1 & H2 & H3 & H4 & H5 & H6); [vm_compute; reflexivity|].
  exists s'. split; [|exact H3]. rewrite H1.
  assert (t_err s' = []) as ->; [|reflexivity].
  apply (f_equal (λ o, match o with Ok _ s => t_err s | _ => [] end)) in H1. vm_compute in H1. symmetry. exact H1.
Defined.

