(* ===== verification/Dc.v ===== *)
(** * dc: the numbers of src/cmd/extra/dc.c

    A [struct num] holds decimal digits in pairs, least significant first, with
    a cursor [rp] and a scale; a negative number ends in the digit -1, as in
    the 100's complement.  [nbuf] is the contents between [buf] and [wp]; the
    room behind [wp] grows on demand and is not modelled.  A digit is a
    [signed char].  [None] is an access outside the digits.  Addition,
    subtraction, comparison and multiplication are here, what divides is in
    DcDiv.v, reading and printing in DcIo.v; the proofs are in DcFacts.v,
    DcDivmod.v and DcIoFacts.v. *)

From S2P Require Import Prelude.

Local Open Scope Z_scope.

Record num := mkNum { nbegin : bool; nscale : Z; nbuf : list Z; nrp : nat }.
#[export] Instance eta_num : Eta num := λ n, mkNum (nbegin n) (nscale n) (nbuf n) (nrp n).

(** Conversion to [signed char]. *)
Definition schar (d : Z) : Z := (d + 128) mod 256 - 128.

(** ** The cursor *)

Definition newnum : num := mkNum false 0 [] 0.
Definition zeronum (ndigits : nat) : num := mkNum false 0 (replicate ndigits 0) 0.
Definition zero : num := newnum.
Definition one : num := mkNum false 0 [1] 0.

Definition length_ (n : num) : nat := length (nbuf n).
Definition wrdigit (n : num) (d : Z) : num := n <| nbuf := nbuf n ++ [schar d] |>.
Definition peek (n : num) : option Z :=
  if decide (nrp n = length_ n) then Some (-1) else nbuf n !! nrp n.
Definition rddigit (n : num) : option (Z * num) :=
  if decide (nrp n = length_ n) then Some (-1, n)
  else d ← nbuf n !! nrp n; Some (d, n <| nrp := S (nrp n) |>).
Definition poke (n : num) (d : Z) : option num :=
  if decide (nrp n = length_ n) then Some (wrdigit n d)
  else if decide (nrp n < length_ n)%nat then Some (n <| nbuf := <[nrp n := schar d]> (nbuf n) |>)
  else None.
Definition first (n : num) : num := n <| nbegin := false |> <| nrp := 0%nat |>.
Definition last_ (n : num) : num :=
  if decide (nbuf n = []) then n <| nbegin := true |>
  else n <| nbegin := false |> <| nrp := pred (length_ n) |>.
Definition prev (n : num) : num :=
  if decide (0 < nrp n)%nat then n <| nrp := pred (nrp n) |> else n <| nbegin := true |>.
Definition next (n : num) : num :=
  if decide (nrp n = S (length_ n)) then n else n <| nrp := S (nrp n) |>.
Definition numtrunc (n : num) : option num :=
  if decide (nrp n ≤ length_ n)%nat then Some (n <| nbuf := take (nrp n) (nbuf n) |> <| nrp := pred (nrp n) |>)
  else None.
Definition more (n : num) : bool := negb (bool_decide (nrp n = length_ n)).

Definition rshift (n : num) (k : nat) : option num :=
  if decide (length_ n < k)%nat then numtrunc (first n)
  else numtrunc (n <| nbuf := drop k (nbuf n) ++ drop (length_ n - k) (nbuf n) |> <| nrp := (length_ n - k)%nat |>).
Definition lshift (n : num) (k : nat) : num := n <| nbuf := replicate k 0 ++ nbuf n |>.

(** ** Loops over the digits *)

(** [for (first(num); more(num); next(num))] with a body that replaces the
    digit under the cursor, carrying a value. *)
Fixpoint sweep (fuel : nat) (f : Z → Z → Z * Z) (carry : Z) (n : num) : option (num * Z) :=
  match fuel with
  | O => None
  | S fuel =>
      if more n then
        d ← peek n;
        let '(v, carry) := f d carry in
        n ← poke n v;
        sweep fuel f carry (next n)
      else Some (n, carry)
  end.
Definition sweep_digits (f : Z → Z → Z * Z) (carry : Z) (n : num) : option (num * Z) :=
  sweep (S (length_ n)) f carry (first n).

Definition chsign_digit (d carry : Z) : Z * Z :=
  let val := 100 - d - carry in
  if decide (100 ≤ val) then (val - 100, 0) else (val, 1).

Definition chsign (n : num) : option num :=
  '(n, carry) ← sweep_digits chsign_digit 0 n;
  let n := prev n in
  d ← peek n;
  if decide (carry ≠ 0) then
    if decide (d = 99) then poke n (-1) else Some (wrdigit n (-1))
  else if decide (d = 0) then numtrunc n
  else Some n.

Definition copy (n : num) : num := mkNum false (nscale n) (nbuf n) 0.

Definition negative (n : num) : option (bool * num) :=
  match nbuf n with
  | [] => Some (false, last_ n)
  | _ => d ← peek (last_ n); Some (bool_decide (d = -1), last_ n)
  end.

Fixpoint norm_zeros (fuel : nat) (n : num) : option num :=
  match fuel with
  | O => None
  | S fuel =>
      d ← peek n;
      if decide (d = 0) then n ← numtrunc n; norm_zeros fuel n else Some n
  end.
Fixpoint norm_nines (fuel : nat) (n : num) : option num :=
  match fuel with
  | O => None
  | S fuel =>
      d ← peek n;
      if decide (d = 99) then
        n ← poke n (-1);
        n ← numtrunc (next n);
        norm_nines fuel (prev n)
      else Some n
  end.
Definition norm (n : num) : option num :=
  n ← norm_zeros (S (length_ n)) (last_ n);
  '(neg, n) ← negative n;
  n ← (if neg : bool then norm_nines (S (length_ n)) (prev n) else Some n);
  Some (if decide (length_ n = 0%nat) then n <| nscale := 0 |> else n).

(** [div] of <stdlib.h> truncates. *)
Definition muln (n : num) (k : Z) : option num :=
  '(n, carry) ← sweep_digits (λ d carry, let d := d * k + carry in (Z.rem d 100, Z.quot d 100)) 0 n;
  Some (if decide (carry ≠ 0) then wrdigit n carry else n).

(** The loop of [divn], from the last digit to the first. *)
Fixpoint divn_loop (fuel : nat) (k carry : Z) (n : num) : option (num * Z) :=
  match fuel with
  | O => None
  | S fuel =>
      if nbegin n then Some (n, carry)
      else
        d ← peek n;
        let val := carry * 100 + d in
        n ← poke n (Z.quot val k);
        divn_loop fuel k (Z.rem val k) (prev n)
  end.
Definition divn (n : num) (k : Z) : option (num * Z) :=
  '(n, carry) ← divn_loop (S (length_ n)) k 0 (last_ n);
  n ← norm n;
  Some (n, carry).

Definition div10 (n : num) (k : Z) : option num :=
  n ← (if decide (Z.rem k 2 = 1) then fst <$> divn n 10 else Some n);
  rshift n (Z.to_nat (Z.quot k 2)).
Definition mul10 (n : num) (k : Z) : option num :=
  n ← (if decide (Z.rem k 2 = 1) then muln n 10 else Some n);
  Some (lshift n (Z.to_nat (Z.quot k 2))).

(** Both numbers, the one with the smaller scale extended. *)
Definition align (a b : num) : option (num * num) :=
  let d := nscale a - nscale b in
  if decide (d = 0) then Some (a, b)
  else if decide (0 < d) then
    b ← mul10 b d; Some (a, b <| nscale := nscale b + d |>)
  else
    a ← mul10 a (- d); Some (a <| nscale := nscale a - d |>, b).

(** ** Arithmetic *)

Fixpoint addn_loop (fuel : nat) (carry : Z) (n : num) : option num :=
  match fuel with
  | O => None
  | S fuel =>
      if decide (carry = 0) then Some n
      else
        d ← (if more n then peek n else Some 0);
        let d := d + carry in
        let '(d, carry) := if decide (100 ≤ d) then (d - 100, 1) else (d, 0) in
        n ← poke n d;
        addn_loop fuel carry (next n)
  end.
Definition addn (n : num) (val : Z) : option num := addn_loop (S (S (length_ n))) val (first n).

(** The loop of [addnum], for [len] digits. *)
Fixpoint addnum_loop (len : nat) (carry : Z) (a b c : num) : option (num * Z) :=
  match len with
  | O => Some (c, carry)
  | S len =>
      '(da, a) ← (if more a then rddigit a else Some (0, a));
      '(db, b) ← (if more b then rddigit b else Some (0, b));
      let sum := da + db + carry in
      let '(sum, carry) :=
        if decide (100 ≤ sum) then (sum - 100, 1)
        else if decide (sum < 0) then (sum + 100, -1)
        else (sum, 0) in
      addnum_loop len carry a b (wrdigit c sum)
  end.
Definition addnum (a b : num) : option num :=
  '(a, b) ← align a b;
  '(c, carry) ← addnum_loop (Nat.max (length_ a) (length_ b)) 0 (first a) (first b) newnum;
  let c := if decide (carry ≠ 0) then wrdigit c carry else c in
  norm (c <| nscale := nscale a |>).

Definition subnum (a b : num) : option num := tmp ← chsign (copy b); addnum a tmp.

Definition cmpnum (a b : num) : option Z :=
  diff ← subnum a b;
  if decide (length_ diff = 0%nat) then Some 0
  else '(neg, _) ← negative diff; Some (if neg : bool then -1 else 1).

(** The two inner loops of [mulnum]; the second stops when the carry is 0. *)
Fixpoint mul_row (fuel : nat) (db carry : Z) (a c : num) : option (num * Z) :=
  match fuel with
  | O => None
  | S fuel =>
      if more a then
        da ← peek a;
        dc ← peek c;
        let prod := da * db + dc + carry in
        c ← poke c (Z.rem prod 100);
        mul_row fuel db (Z.quot prod 100) (next a) (next c)
      else Some (c, carry)
  end.
Fixpoint mul_carry (fuel : nat) (carry : Z) (c : num) : option num :=
  match fuel with
  | O => None
  | S fuel =>
      if decide (0 < carry) then
        dc ← peek c;
        let d := dc + carry in
        c ← poke c (Z.rem d 100);
        mul_carry fuel (Z.quot d 100) (next c)
      else Some c
  end.
(** The outer loop, over the digits of [b]. *)
Fixpoint mul_rows (fuel : nat) (a b c : num) : option num :=
  match fuel with
  | O => None
  | S fuel =>
      if more b then
        db ← peek b;
        let pos := nrp c in
        '(c, carry) ← mul_row (S (length_ a)) db 0 (first a) c;
        c ← mul_carry (S (length_ c)) carry c;
        mul_rows fuel a (next b) (c <| nrp := S pos |>)
      else Some c
  end.

(** [scale] is the static variable. *)
Definition mulnum (scale : Z) (a b : num) : option num :=
  '(asign, a) ← negative a;
  '(bsign, b) ← negative b;
  let c := zeronum (length_ a + length_ b + 1) <| nscale := nscale a + nscale b |> in
  let sc := if decide (nscale b < nscale a) then nscale a else nscale b in
  ca ← (if asign : bool then chsign (copy a) else Some a);
  cb ← (if bsign : bool then chsign (copy b) else Some b);
  c ← mul_rows (S (length_ cb)) ca (first cb) c;
  c ← norm c;
  let sc := if decide (sc < scale) then scale else sc in
  let sc := nscale c - sc in
  c ← (if decide (0 < sc) then c ← div10 c sc; Some (c <| nscale := nscale c - sc |>) else Some c);
  if xorb asign bsign then chsign c else Some c.

Example mul_5_m7 : mulnum 0 (mkNum false 0 [5] 0) (mkNum false 0 [93; -1] 0) =
  Some (mkNum false 0 [65; -1] 0).
Proof. vm_compute. reflexivity. Qed.
