(* ===== verification/DcFacts.v ===== *)
(** * dc: arithmetic is exact

    Every routine on numbers is related to the integer its digits denote:
    changing the sign, normalising, multiplying and dividing by small numbers,
    shifting, and on top of these addition, subtraction, comparison and
    multiplication of numbers with a scale. *)

From S2P Require Import Prelude Dc.

Local Open Scope Z_scope.

(** ** The value of digits *)

Definition value (ds : list Z) : Z := foldr (λ d v, d + 100 * v) 0 ds.
Definition dig (d : Z) : Prop := 0 ≤ d < 100.

(** Canonical digits: no zero at the top, and a negative number ends in -1
    without a 99 before it. *)
Definition canon (ds : list Z) : Prop :=
  ds = [] ∨ ∃ init t, ds = init ++ [t] ∧ Forall dig init ∧
                      (0 < t < 100 ∨ (t = -1 ∧ last init ≠ Some 99)).

Lemma value_app a b : value (a ++ b) = value a + 100 ^ Z.of_nat (length a) * value b.
Proof.
  induction a as [|d a IH]; [simpl; lia|]. cbn [app length]. rewrite Nat2Z.inj_succ, Z.pow_succ_r by lia.
  change (value (d :: a ++ b)) with (d + 100 * value (a ++ b)). change (value (d :: a)) with (d + 100 * value a).
  rewrite IH. lia.
Qed.
Lemma value_snoc a t : value (a ++ [t]) = value a + 100 ^ Z.of_nat (length a) * t.
Proof. rewrite value_app. simpl. f_equal. f_equal. lia. Qed.
Lemma value_zeros k : value (replicate k 0) = 0.
Proof. induction k; [done|]. simpl. lia. Qed.
Lemma value_range a : Forall dig a → 0 ≤ value a < 100 ^ Z.of_nat (length a).
Proof.
  induction 1 as [|d a Hd _ IH]; [simpl; lia|]. cbn [length]. rewrite Nat2Z.inj_succ, Z.pow_succ_r by lia.
  change (value (d :: a)) with (d + 100 * value a). unfold dig in Hd. lia.
Qed.

Lemma schar_id d : -128 ≤ d < 128 → schar d = d.
Proof. intros H. unfold schar. rewrite Z.mod_small by lia. lia. Qed.

(** ** The cursor *)

Lemma bind_some {A B} (x : A) (f : A → option B) : (Some x ≫= f) = f x.
Proof. done. Qed.

Section cursor.
Context (b : bool) (s : Z).

Notation at_ ds i := (mkNum b s ds i).

Lemma cursor_lt done (d : Z) rest : (length done < length (done ++ d :: rest))%nat.
Proof. rewrite length_app. simpl. lia. Qed.

Lemma more_at done d rest : more (at_ (done ++ d :: rest) (length done)) = true.
Proof.
  unfold more, length_. simpl. rewrite bool_decide_eq_false_2; [done|].
  pose proof (cursor_lt done d rest). lia.
Qed.
Lemma more_end ds : more (at_ ds (length ds)) = false.
Proof. unfold more, length_. simpl. by rewrite bool_decide_eq_true_2. Qed.
Lemma peek_at done d rest : peek (at_ (done ++ d :: rest) (length done)) = Some d.
Proof.
  unfold peek, length_. cbn [nbuf nrp]. pose proof (cursor_lt done d rest). rewrite decide_False by lia.
  by rewrite list_lookup_middle.
Qed.
Lemma peek_end ds : peek (at_ ds (length ds)) = Some (-1).
Proof. unfold peek, length_. simpl. by rewrite decide_True. Qed.
Lemma poke_at done d rest v :
  poke (at_ (done ++ d :: rest) (length done)) v = Some (at_ (done ++ schar v :: rest) (length done)).
Proof.
  unfold poke, length_. cbn [nbuf nrp]. pose proof (cursor_lt done d rest). rewrite decide_False, decide_True by lia.
  unfold set, set_field. cbn [nbuf nrp nbegin nscale]. by rewrite insert_app_r_alt, Nat.sub_diag by lia.
Qed.
Lemma next_at done d rest :
  next (at_ (done ++ d :: rest) (length done)) = at_ ((done ++ [d]) ++ rest) (length (done ++ [d])).
Proof.
  unfold next, length_. cbn [nbuf nrp]. pose proof (cursor_lt done d rest). rewrite decide_False by lia.
  rewrite <- app_assoc, length_app. unfold set, set_field. simpl. f_equal. lia.
Qed.
Lemma prev_at done d rest : prev (at_ (done ++ d :: rest) (length (done ++ [d]))) = at_ (done ++ d :: rest) (length done).
Proof.
  unfold prev. cbn [nrp]. rewrite length_app. simpl. rewrite decide_True by lia.
  unfold set, set_field. simpl. f_equal. lia.
Qed.
Lemma numtrunc_at done rest :
  numtrunc (at_ (done ++ rest) (length done)) = Some (at_ done (pred (length done))).
Proof.
  unfold numtrunc, length_. cbn [nbuf nrp]. rewrite decide_True by (rewrite length_app; lia).
  unfold set, set_field. cbn [nbuf nrp nbegin nscale]. by rewrite take_app_length.
Qed.
Lemma prev_any ds i : ∃ b', prev (at_ ds i) = mkNum b' s ds (pred i).
Proof.
  unfold prev. cbn [nrp]. case_decide as Hi; [by exists b|]. exists true. unfold set, set_field. simpl. f_equal. lia.
Qed.
Lemma last_at ds t i : last_ (at_ (ds ++ [t]) i) = mkNum false s (ds ++ [t]) (length ds).
Proof.
  unfold last_, length_. cbn [nbuf]. rewrite decide_False by (by destruct ds). unfold set, set_field. simpl.
  by rewrite length_app, Nat.add_1_r.
Qed.
Lemma wrdigit_at ds i v : wrdigit (at_ ds i) v = at_ (ds ++ [schar v]) i.
Proof. done. Qed.
End cursor.

(** ** Sweeps *)

(** What a sweep does to a list of digits. *)
Fixpoint carry_map (f : Z → Z → Z * Z) (c : Z) (ds : list Z) : list Z * Z :=
  match ds with
  | [] => ([], c)
  | d :: ds => let '(v, c) := f d c in let '(vs, c) := carry_map f c ds in (schar v :: vs, c)
  end.

Lemma length_carry_map f c ds : length (fst (carry_map f c ds)) = length ds.
Proof.
  revert c. induction ds as [|d ds IH]; intros c; [done|]. simpl. destruct (f d c) as [v c1]. specialize (IH c1).
  destruct (carry_map f c1 ds). simpl in *. by rewrite IH.
Qed.

Lemma sweep_ok f b s done rest c fuel : (length rest < fuel)%nat →
  sweep fuel f c (mkNum b s (done ++ rest) (length done)) =
  let ds := done ++ fst (carry_map f c rest) in
  Some (mkNum b s ds (length ds), snd (carry_map f c rest)).
Proof.
  revert done c fuel. induction rest as [|d rest IH]; intros done c [|fuel] Hf; simpl in Hf; try lia; cbn [sweep].
  - rewrite app_nil_r, more_end. simpl. by rewrite app_nil_r.
  - rewrite more_at, peek_at. cbn [carry_map]. simpl. destruct (f d c) as [v c1].
    rewrite poke_at. simpl. rewrite next_at, IH by lia. destruct (carry_map f c1 rest). simpl. by rewrite <- app_assoc.
Qed.
Lemma sweep_digits_ok f c n :
  sweep_digits f c n =
  let ds := fst (carry_map f c (nbuf n)) in
  Some (mkNum false (nscale n) ds (length ds), snd (carry_map f c (nbuf n))).
Proof. apply (sweep_ok f false (nscale n) [] (nbuf n) c (S (length (nbuf n)))). lia. Qed.

(** If a step keeps [k * d + c], where [m] tells what a carry stands for, so
    does the sweep. *)
Lemma carry_map_value f k (m : Z → Z) (I : Z → Prop) c ds :
  (∀ d c, d ∈ ds → I c → let '(v, c') := f d c in schar v + 100 * m c' = k * d + m c ∧ I c') → I c →
  let '(vs, c') := carry_map f c ds in
  value vs + 100 ^ Z.of_nat (length ds) * m c' = k * value ds + m c ∧ I c'.
Proof.
  revert c. induction ds as [|d ds IH]; intros c Hf Hc; [simpl; split; [lia|done]|].
  cbn [carry_map length]. pose proof (Hf d c ltac:(left) Hc) as Hd. destruct (f d c) as [v c1]. destruct Hd as [Hv Hc1].
  specialize (IH c1 ltac:(intros; apply Hf; [by right|done]) Hc1). destruct (carry_map f c1 ds) as [vs c2].
  destruct IH as [IH Hc2]. split; [|done]. rewrite Nat2Z.inj_succ, Z.pow_succ_r by lia.
  change (value (schar v :: vs)) with (schar v + 100 * value vs). change (value (d :: ds)) with (d + 100 * value ds). lia.
Qed.
Lemma carry_map_app f c a b :
  carry_map f c (a ++ b) =
  let '(va, c1) := carry_map f c a in let '(vb, c2) := carry_map f c1 b in (va ++ vb, c2).
Proof.
  revert c. induction a as [|d a IH]; intros c; simpl; [by destruct (carry_map f c b)|].
  destruct (f d c) as [v c1]. rewrite IH. destruct (carry_map f c1 a) as [va c2].
  by destruct (carry_map f c2 b).
Qed.

(** ** chsign *)

(** The digits below the top: all zero as long as there is no carry. *)
Lemma chsign_low ds : Forall dig ds →
  let '(vs, c) := carry_map chsign_digit 0 ds in
  Forall dig vs ∧ (c = 0 ∧ Forall (λ v, v = 0) vs ∨ c = 1 ∧ (last ds ≠ Some 99 → last vs ≠ Some 0)).
Proof.
  induction ds as [|d ds IH] using rev_ind; intros Hd; [split; [constructor|left; by split]|].
  apply Forall_app in Hd as [Hds [Hd _]%Forall_cons]. specialize (IH Hds). rewrite carry_map_app.
  destruct (carry_map chsign_digit 0 ds) as [vs c]. destruct IH as [Hvs Hc]. cbn [carry_map].
  assert (c = 0 ∨ c = 1) as Hc01 by tauto. unfold dig in Hd. unfold chsign_digit. case_decide as H100.
  - assert (d = 0 ∧ c = 0) as [-> ->] by lia. simpl. split.
    + apply Forall_app. split; [done|]. by repeat constructor.
    + left. split; [done|]. apply Forall_app. split; [by destruct Hc as [[_ ?]|[? _]]|]. by repeat constructor.
  - rewrite schar_id by lia. split.
    + apply Forall_app. split; [done|]. constructor; [unfold dig; lia|constructor].
    + right. split; [done|]. rewrite !last_snoc. intros H99 [= H0]. apply H99. f_equal. lia.
Qed.

Lemma chsign_value ds : Forall (λ d, -1 ≤ d < 100) ds →
  let '(vs, c) := carry_map chsign_digit 0 ds in
  value vs - 100 ^ Z.of_nat (length ds) * c = - value ds ∧ (c = 0 ∨ c = 1).
Proof.
  intros Hd. rewrite Forall_forall in Hd.
  pose proof (carry_map_value chsign_digit (-1) Z.opp (λ c, c = 0 ∨ c = 1) 0 ds) as H.
  destruct (carry_map chsign_digit 0 ds) as [vs c]. destruct H as [H Hc]; [|by left|split; [lia|done]].
  intros d c0 Hin Hc0. specialize (Hd d Hin). unfold chsign_digit. case_decide; rewrite schar_id by lia; (split; [lia|auto]).
Qed.

Lemma canon_digits ds : canon ds → Forall (λ d, -1 ≤ d < 100) ds.
Proof.
  intros [->|(init & t & -> & Hi & Ht)]; [constructor|]. apply Forall_app. split.
  - eapply Forall_impl; [exact Hi|]. unfold dig. lia.
  - constructor; [lia|constructor].
Qed.

(** A list of digits is empty or has a top digit. *)
Lemma canon_pos ds : Forall dig ds → last ds ≠ Some 0 → canon ds.
Proof.
  intros Hd Hl. destruct ds as [|t ds _] using rev_ind; [by left|]. right. exists ds, t.
  apply Forall_app in Hd as [? [Ht _]%Forall_cons]. split_and!; [done..|]. left. rewrite last_snoc in Hl. unfold dig in Ht.
  assert (t ≠ 0) by congruence. lia.
Qed.

Lemma value_trunc ds : value (ds ++ [0]) = value ds.
Proof. rewrite value_snoc. lia. Qed.
Lemma value_borrow vs : value (vs ++ [-1]) = value (vs ++ [99]) - 100 ^ Z.of_nat (length (vs ++ [99])).
Proof. rewrite !value_snoc, length_app. simpl. rewrite Nat2Z.inj_add, Z.pow_add_r by lia. lia. Qed.

Definition negates (n n' : num) : Prop :=
  canon (nbuf n') ∧ value (nbuf n') = - value (nbuf n) ∧ nscale n' = nscale n.

(** The end of [chsign], once the sweep has left a carry and the cursor behind
    the top digit [v]. *)
Lemma chsign_run n vs v c : carry_map chsign_digit 0 (nbuf n) = (vs ++ [v], c) →
  chsign n = Some (if decide (c ≠ 0) then
                     if decide (v = 99) then mkNum false (nscale n) (vs ++ [-1]) (length vs)
                     else mkNum false (nscale n) ((vs ++ [v]) ++ [-1]) (length vs)
                   else if decide (v = 0) then mkNum false (nscale n) vs (pred (length vs))
                   else mkNum false (nscale n) (vs ++ [v]) (length vs)).
Proof.
  intros E. unfold chsign. rewrite sweep_digits_ok, E. simpl.
  rewrite prev_at, peek_at. simpl. repeat case_decide; try done.
  - by rewrite poke_at.
  - by rewrite numtrunc_at.
Qed.

Lemma chsign_ok n : canon (nbuf n) → ∃ n', chsign n = Some n' ∧ negates n n'.
Proof.
  intros Hcan. pose proof (chsign_value _ (canon_digits _ Hcan)) as Hval. unfold negates.
  destruct Hcan as [Hnil|(init & t & Hds & Hinit & Ht)].
  - destruct n as [b s ds i]. simpl in *. subst ds. eexists. split; [done|]. simpl. split_and!; [by left|done..].
  - pose proof (chsign_low init Hinit) as Hlow. rewrite Hds, carry_map_app in Hval.
    pose proof (carry_map_app chsign_digit 0 init [t]) as Ecm. rewrite <- Hds in Ecm.
    destruct (carry_map chsign_digit 0 init) as [vs c] eqn:Ei. destruct Hlow as [Hvs Hc].
    assert (length vs = length init) as Hlen by (by rewrite <- (length_carry_map chsign_digit 0 init), Ei).
    cbn [carry_map] in Ecm, Hval. destruct (chsign_digit t c) as [v0 c'] eqn:Et. set (v := schar v0) in *.
    destruct Hval as [Hval _]. rewrite length_app, Nat.add_1_r in Hval. rewrite (chsign_run n vs v c' Ecm).
    unfold chsign_digit in Et. destruct Ht as [Ht|[-> Hl]].
    + assert (c = 0 ∨ c = 1) as Hc01 by tauto. rewrite decide_False in Et by lia. injection Et as <- <-.
      assert (v = 100 - t - c) as Hv by (subst v; apply schar_id; lia). rewrite decide_True by done.
      case_decide as H99; (eexists; split; [done|]); cbn [nbuf nscale]; split_and!; try done.
      * right. exists vs, (-1). split_and!; [done..|]. right. split; [done|].
        destruct Hc as [[_ Hz]|[? _]]; [|lia]. destruct vs as [|w vs _] using rev_ind; [done|].
        apply Forall_app in Hz as [_ [-> _]%Forall_cons]. by rewrite last_snoc.
      * rewrite Hds, value_borrow, length_app, Nat.add_1_r, Hlen, <- Hval, H99. lia.
      * right. exists (vs ++ [v]), (-1). split_and!; [done| |right; split; [done|rewrite last_snoc; congruence]].
        apply Forall_app. split; [done|]. constructor; [unfold dig; lia|constructor].
      * rewrite Hds, value_snoc, length_app, Nat.add_1_r, Hlen. lia.
    + assert (c = 0 ∨ c = 1) as Hc01 by tauto. rewrite decide_True in Et by lia. injection Et as <- <-.
      assert (v = 1 - c) as Hv by (subst v; rewrite schar_id; lia). rewrite decide_False by tauto.
      case_decide as H0; (eexists; split; [done|]); cbn [nbuf nscale]; split_and!; try done.
      * apply canon_pos; [done|]. destruct Hc as [[? _]|[_ Hc]]; [lia|by apply Hc].
      * rewrite Hds, <- value_trunc, <- H0. lia.
      * right. exists vs, v. split_and!; [done..|]. left. lia.
      * rewrite Hds. lia.
Qed.

(** ** norm *)

(** Digits that norm can make canonical. *)
Definition loose (ds : list Z) : Prop :=
  ds = [] ∨ ∃ init t, ds = init ++ [t] ∧ Forall dig init ∧ -1 ≤ t < 100.

Lemma canon_loose ds : canon ds → loose ds.
Proof. intros [->|(init & t & -> & Hi & Ht)]; [by left|]. right. exists init, t. split_and!; [done..|lia|lia]. Qed.
Lemma dig_loose ds : Forall dig ds → loose ds.
Proof.
  intros H. destruct ds as [|t ds _] using rev_ind; [by left|]. apply Forall_app in H as [Hd [Ht _]%Forall_cons].
  right. exists ds, t. unfold dig in Ht. split_and!; [done..|lia|lia].
Qed.

Lemma norm_zeros_ok b s ds fuel : (length ds < fuel)%nat →
  ∃ k ds', ds = ds' ++ replicate k 0 ∧ last ds' ≠ Some 0 ∧
  norm_zeros fuel (mkNum b s ds (pred (length ds))) = Some (mkNum b s ds' (pred (length ds'))).
Proof.
  revert fuel. induction ds as [|d ds IH] using rev_ind; intros fuel Hf; (destruct fuel as [|fuel]; [simpl in Hf; lia|]); cbn [norm_zeros].
  - exists 0%nat, []. done.
  - rewrite length_app, Nat.add_1_r in *. simpl pred. rewrite peek_at. simpl. case_decide as H0.
    + subst d. rewrite numtrunc_at. simpl. destruct (IH fuel) as (k & ds' & -> & Hl & E); [lia|].
      exists (S k), ds'. split_and!; [|done|done]. by rewrite <- app_assoc, <- replicate_cons_app.
    + exists 0%nat, (ds ++ [d]). rewrite app_nil_r, last_snoc, length_app, Nat.add_1_r. split_and!; [done|congruence|done].
Qed.

Lemma norm_nines_ok b s ds fuel : Forall dig ds → (length ds < fuel)%nat →
  ∃ k ds' i b', ds = ds' ++ replicate k 99 ∧ last ds' ≠ Some 99 ∧
  norm_nines fuel (mkNum b s (ds ++ [-1]) (pred (length ds))) = Some (mkNum b' s (ds' ++ [-1]) i).
Proof.
  revert b fuel. induction ds as [|d ds IH] using rev_ind; intros b fuel Hd Hf;
    (destruct fuel as [|fuel]; [simpl in Hf; lia|]); cbn [norm_nines].
  - exists 0%nat, [], 0%nat, b. done.
  - apply Forall_app in Hd as [Hds _]. rewrite length_app, Nat.add_1_r in *. simpl pred. rewrite <- app_assoc. simpl app.
    rewrite peek_at. simpl. case_decide as H99.
    + subst d. rewrite poke_at. simpl. rewrite next_at, numtrunc_at. simpl. change (schar (-1)) with (-1).
      rewrite length_app, Nat.add_1_r. simpl pred.
      destruct (prev_any b s (ds ++ [-1]) (length ds)) as [b2 ->].
      destruct (IH b2 fuel) as (k & ds' & i & b' & -> & Hl & E); [done|lia|]. exists (S k), ds', i, b'.
      split_and!; [|done|done]. by rewrite <- app_assoc, <- replicate_cons_app.
    + exists 0%nat, (ds ++ [d]), (length ds), b. rewrite app_nil_r, last_snoc, <- app_assoc.
      split_and!; [done|congruence|done].
Qed.

Lemma value_nines ds k : value ((ds ++ replicate k 99) ++ [-1]) = value (ds ++ [-1]).
Proof.
  revert ds. induction k as [|k IH]; intros ds; [by rewrite app_nil_r|]. simpl replicate.
  rewrite <- (IH ds). clear IH. induction k as [|k IH] in ds |- *.
  - simpl. rewrite app_nil_r, (value_borrow (ds)), !value_snoc, length_app. simpl.
    rewrite Nat2Z.inj_add, Z.pow_add_r by lia. lia.
  - simpl replicate in *. specialize (IH (ds ++ [99])). by rewrite <- !app_assoc in *.
Qed.

#[local] Arguments norm_nines : simpl never.
#[local] Arguments norm_zeros : simpl never.

Definition same_value (n n' : num) : Prop :=
  canon (nbuf n') ∧ value (nbuf n') = value (nbuf n) ∧ nscale n' = (if decide (nbuf n' = []) then 0 else nscale n) ∧
  (nbuf n' = [] → nrp n' = 0%nat).

Lemma norm_ok n : loose (nbuf n) → (nbuf n = [] → nrp n = 0%nat) → ∃ n', norm n = Some n' ∧ same_value n n'.
Proof.
  intros Hl Hrp. unfold norm, same_value.
  assert (∃ b, last_ n = mkNum b (nscale n) (nbuf n) (pred (length (nbuf n)))) as [b Elast].
  { unfold last_, length_. destruct n as [b s ds i]. cbn [nbuf nrp] in *. case_decide as E.
    - exists true. unfold set, set_field. simpl. rewrite E. simpl. by rewrite (Hrp E).
    - by exists false. }
  rewrite Elast. destruct (norm_zeros_ok b (nscale n) (nbuf n) (S (length_ n))) as (k & ds & Hds & H0 & E); [unfold length_; lia|].
  rewrite E. simpl. assert (value (nbuf n) = value ds) as Hv.
  { rewrite Hds, value_app, value_zeros. lia. }
  rewrite Hds in Hl. clear E Elast Hrp. unfold negative. cbn [nbuf].
  destruct ds as [|t ds _] using rev_ind.
  { eexists. split; [done|]. simpl. split_and!; [by left|done..]. }
  assert (Forall dig ds ∧ (0 < t < 100 ∨ t = -1)) as [Hdig Ht].
  { destruct Hl as [[? _]%app_nil|(init & t' & Heq & Hi & Ht')]; [by destruct ds|]. rewrite last_snoc in H0.
    destruct k as [|k].
    - rewrite app_nil_r in Heq. apply app_inj_tail in Heq as [-> ->]. split; [done|]. assert (t' ≠ 0) by congruence. lia.
    - rewrite replicate_S_end, app_assoc in Heq. apply app_inj_tail in Heq as [<- _].
      apply Forall_app in Hi as [[Hi [Ht _]%Forall_cons]%Forall_app _]. unfold dig in Ht. split; [done|].
      assert (t ≠ 0) by congruence. lia. }
  rewrite last_at, peek_at. simpl.
  assert ((match ds ++ [t] with [] => Some (false, mkNum false (nscale n) (ds ++ [t]) (length ds))
           | _ :: _ => Some (bool_decide (t = -1), mkNum false (nscale n) (ds ++ [t]) (length ds)) end)
          = Some (bool_decide (t = -1), mkNum false (nscale n) (ds ++ [t]) (length ds))) as -> by (by destruct ds).
  simpl. destruct Ht as [Ht| ->].
  - rewrite bool_decide_eq_false_2 by lia. unfold length_. simpl. rewrite decide_False by (rewrite length_app; simpl; lia).
    eexists. split; [done|]. cbn [nbuf nscale]. rewrite decide_False by (by destruct ds).
    split_and!; [|done|done|by intros [_ ?]%app_nil]. right. exists ds, t. split_and!; [done..|by left].
  - destruct (prev_any false (nscale n) (ds ++ [-1]) (length ds)) as [b2 E2].
    rewrite bool_decide_eq_true_2, E2 by done. unfold length_. cbn [nbuf].
    destruct (norm_nines_ok b2 (nscale n) ds (S (length (ds ++ [-1])))) as (j & ds' & i & b' & Hds' & H99 & E3);
      [done|rewrite length_app; simpl; lia|].
    rewrite E3. simpl. rewrite decide_False by (rewrite length_app; simpl; lia).
    eexists. split; [done|]. cbn [nbuf nscale]. rewrite decide_False by (by destruct ds').
    split_and!; [| |done|by intros [_ ?]%app_nil].
    + right. exists ds', (-1). split_and!; [done| |by right]. rewrite Hds' in Hdig. by apply Forall_app in Hdig as [? _].
    + by rewrite Hv, Hds', value_nines.
Qed.

(** ** Multiplying and dividing by small numbers *)

Lemma carry_map_forall f (I Q : Z → Prop) c ds :
  (∀ d c, d ∈ ds → I c → let '(v, c') := f d c in Q (schar v) ∧ I c') → I c →
  let '(vs, c') := carry_map f c ds in Forall Q vs ∧ I c'.
Proof.
  revert c. induction ds as [|d ds IH]; intros c Hf Hc; [by split|]. cbn [carry_map].
  pose proof (Hf d c ltac:(left) Hc) as Hd. destruct (f d c) as [v c1]. destruct Hd as [Hv Hc1].
  specialize (IH c1 ltac:(intros; apply Hf; [by right|done]) Hc1). destruct (carry_map f c1 ds) as [vs c2].
  destruct IH. split; [by constructor|done].
Qed.

Definition muln_digit (k d carry : Z) : Z * Z := let d := d * k + carry in (Z.rem d 100, Z.quot d 100).

Lemma muln_step k d c : 0 ≤ k ≤ 100 → dig d → 0 ≤ c < Z.max 1 k →
  let '(v, c') := muln_digit k d c in
  schar v + 100 * c' = k * d + c ∧ dig (schar v) ∧ 0 ≤ c' < Z.max 1 k.
Proof.
  intros Hk Hd Hc. unfold muln_digit, dig in *. assert (0 ≤ d * k + c) by nia.
  rewrite Z.rem_mod_nonneg, Z.quot_div_nonneg by lia. rewrite schar_id by dlia.
  split_and!; [dlia|dlia|dlia|dlia|]. assert (d * k + c < 100 * Z.max 1 k) by nia. dlia.
Qed.

(** The digits below the top. *)
Lemma muln_low k ds : 0 ≤ k ≤ 100 → Forall dig ds →
  let '(vs, c) := carry_map (muln_digit k) 0 ds in
  value vs + 100 ^ Z.of_nat (length ds) * c = k * value ds ∧ Forall dig vs ∧ 0 ≤ c < Z.max 1 k.
Proof.
  intros Hk Hd. rewrite Forall_forall in Hd.
  pose proof (carry_map_value (muln_digit k) k id (λ c, 0 ≤ c < Z.max 1 k) 0 ds) as H1.
  pose proof (carry_map_forall (muln_digit k) (λ c, 0 ≤ c < Z.max 1 k) dig 0 ds) as H2.
  destruct (carry_map (muln_digit k) 0 ds) as [vs c]. destruct H1 as [H1 _]; [|lia|].
  - intros d c0 Hin Hc. pose proof (muln_step k d c0 Hk (Hd d Hin) Hc) as Hs. destruct (muln_digit k d c0). unfold id. tauto.
  - destruct H2 as [H2 H3]; [|lia|unfold id in H1; split_and!; [lia|done|lia|lia]].
    intros d c0 Hin Hc. pose proof (muln_step k d c0 Hk (Hd d Hin) Hc) as Hs. destruct (muln_digit k d c0). tauto.
Qed.

Lemma muln_run n k :
  muln n k = let '(vs, c) := carry_map (muln_digit k) 0 (nbuf n) in
             Some (mkNum false (nscale n) (if decide (c ≠ 0) then vs ++ [schar c] else vs) (length vs)).
Proof.
  unfold muln. fold (muln_digit k). rewrite (sweep_digits_ok (muln_digit k)).
  destruct (carry_map (muln_digit k) 0 (nbuf n)) as [vs c]. simpl. by case_decide.
Qed.

Lemma muln_ok n k : 0 ≤ k ≤ 100 → loose (nbuf n) →
  ∃ n', muln n k = Some n' ∧ value (nbuf n') = k * value (nbuf n) ∧ nscale n' = nscale n ∧
  Forall (λ d, - k ≤ d < 100) (nbuf n') ∧ (Forall dig (nbuf n) → Forall dig (nbuf n')).
Proof.
  intros Hk Hl. rewrite muln_run. destruct Hl as [->|(init & t & Hds & Hi & Ht)].
  { simpl. eexists. split; [done|]. simpl. split_and!; [lia|done|constructor|done]. }
  rewrite Hds, carry_map_app. pose proof (muln_low k init Hk Hi) as Hlow.
  assert (length (fst (carry_map (muln_digit k) 0 init)) = length init) as Hlen by apply length_carry_map.
  destruct (carry_map (muln_digit k) 0 init) as [vs c]. destruct Hlow as (Hv & Hd & Hc). cbn [carry_map fst] in *.
  assert (let '(v, c') := muln_digit k t c in
          schar v + 100 * c' = k * t + c ∧ - k ≤ schar v < 100 ∧ -1 ≤ c' < 100 ∧ (c' < 0 → 0 < k) ∧
          (dig t → dig (schar v) ∧ 0 ≤ c')) as Htop.
  { destruct (decide (t = -1)) as [->|Hne].
    - unfold muln_digit. pose proof (Z.quot_rem' (-1 * k + c) 100) as Hq.
      pose proof (Z.rem_bound_abs (-1 * k + c) 100 ltac:(lia)).
      assert (-1 ≤ Z.quot (-1 * k + c) 100 ≤ 0 ∧ - k ≤ Z.rem (-1 * k + c) 100 < 100) by dlia.
      rewrite schar_id by lia. split_and!; try lia. unfold dig. lia.
    - pose proof (muln_step k t c Hk ltac:(unfold dig; lia) Hc) as Hs. destruct (muln_digit k t c) as [v c'].
      destruct Hs as (? & Hdv & ?). unfold dig in *. split_and!; lia. }
  destruct (muln_digit k t c) as [v c']. destruct Htop as (Et & Hv1 & Hc1 & Hk0 & Hdig).
  eexists. split; [done|]. cbn [nbuf nscale]. rewrite (schar_id c') by lia.
  assert (value (vs ++ [schar v]) + 100 ^ Z.of_nat (S (length init)) * c' = k * value (init ++ [t])) as Hval.
  { rewrite !value_snoc, Hlen, Nat2Z.inj_succ, Z.pow_succ_r by lia. nia. }
  assert (Forall (λ d, - k ≤ d < 100) vs) as Hvs by (eapply Forall_impl; [exact Hd|]; unfold dig; lia).
  case_decide as Hc0; split_and!; try done.
  - rewrite value_snoc, length_app, Nat.add_1_r, Hlen. exact Hval.
  - rewrite <- app_assoc. apply Forall_app. split; [done|]. repeat constructor; lia.
  - intros [_ [Htd _]%Forall_cons]%Forall_app. destruct (Hdig Htd). rewrite <- app_assoc. apply Forall_app.
    split; [done|]. repeat constructor; unfold dig in *; lia.
  - assert (c' = 0) by lia. subst c'. lia.
  - apply Forall_app. split; [done|]. repeat constructor; lia.
  - intros [_ [Htd _]%Forall_cons]%Forall_app. destruct (Hdig Htd). apply Forall_app. split; [done|].
    by apply Forall_singleton.
Qed.

(** Shifts by whole digits. *)
Lemma lshift_ok n k : value (nbuf (lshift n k)) = 100 ^ Z.of_nat k * value (nbuf n).
Proof. simpl. rewrite value_app, value_zeros, length_replicate. lia. Qed.

Lemma pow10 q r : 0 ≤ q → 0 ≤ r → 10 ^ (2 * q + r) = 100 ^ q * 10 ^ r.
Proof. intros. rewrite Z.pow_add_r, Z.pow_mul_r by lia. done. Qed.

Lemma mul10_ok n k : 0 ≤ k → loose (nbuf n) →
  ∃ n', mul10 n k = Some n' ∧ value (nbuf n') = 10 ^ k * value (nbuf n) ∧ nscale n' = nscale n ∧
  Forall (λ d, -10 ≤ d < 100) (nbuf n').
Proof.
  intros Hk Hl. unfold mul10. assert (0 ≤ Z.quot k 2) by dlia.
  assert (∃ n1, (if decide (Z.rem k 2 = 1) then muln n 10 else Some n) = Some n1 ∧
    value (nbuf n1) = 10 ^ Z.rem k 2 * value (nbuf n) ∧ nscale n1 = nscale n ∧ Forall (λ d, -10 ≤ d < 100) (nbuf n1))
    as (n1 & E1 & Hv & Hs & Hd).
  { case_decide as Hr.
    - destruct (muln_ok n 10) as (n1 & E1 & Hv & Hs & Hd & _); [lia|done|]. exists n1. by rewrite Hr.
    - assert (Z.rem k 2 = 0) as -> by dlia. exists n. split_and!; [done|lia|done|].
      destruct Hl as [->|(init & t & -> & Hi & Ht)]; [constructor|]. apply Forall_app. split.
      + eapply Forall_impl; [exact Hi|]. unfold dig. lia.
      + apply Forall_singleton. lia. }
  rewrite E1. simpl. eexists. split; [done|]. split_and!.
  - rewrite lshift_ok, Hv, Z2Nat.id by lia. replace k with (2 * Z.quot k 2 + Z.rem k 2) at 3 by dlia.
    rewrite pow10 by dlia. lia.
  - done.
  - simpl. apply Forall_app. split; [|done]. apply Forall_replicate. lia.
Qed.

Lemma drop_value ds k : Forall dig ds → (k ≤ length ds)%nat → value (drop k ds) = value ds / 100 ^ Z.of_nat k.
Proof.
  intros Hd Hk. rewrite <- (take_drop k ds) at 2. rewrite value_app.
  assert (length (take k ds) = k) as Hlen by (rewrite length_take; lia). rewrite Hlen.
  assert (Forall dig (take k ds)) as Ht%value_range by (by apply Forall_take). rewrite Hlen in Ht.
  rewrite Z.mul_comm, Z.div_add, Z.div_small by lia. lia.
Qed.

Lemma rshift_ok n k : Forall dig (nbuf n) →
  ∃ n', rshift n k = Some n' ∧ nbuf n' = drop k (nbuf n) ∧ nscale n' = nscale n ∧
        value (nbuf n') = value (nbuf n) / 100 ^ Z.of_nat k.
Proof.
  intros Hd. unfold rshift, length_. case_decide as Hk.
  - exists (mkNum false (nscale n) [] 0). assert (numtrunc (first n) = Some (mkNum false (nscale n) [] 0)) as -> by done.
    cbn [nbuf nscale]. rewrite drop_ge by lia. split_and!; try done. apply value_range in Hd. symmetry. apply Z.div_small.
    split; [lia|]. eapply Z.lt_le_trans; [apply Hd|]. apply Z.pow_le_mono_r; lia.
  - destruct n as [b s ds i]. cbn [nbuf nrp nscale] in *. unfold set, set_field. cbn [nbuf nrp nscale nbegin].
    assert (length ds - k = length (drop k ds))%nat as Hl by (by rewrite length_drop). rewrite Hl, numtrunc_at.
    eexists. split; [done|]. cbn [nbuf nscale]. split_and!; [done..|]. apply drop_value; [done|lia].
Qed.


(** Long division by a small number, from the top digit down. *)
Definition div_step (k d : Z) (p : list Z * Z) : list Z * Z :=
  let val := snd p * 100 + d in (schar (Z.quot val k) :: fst p, Z.rem val k).

Lemma divn_loop_ok k s lo d qs c fuel : (S (length lo) < fuel)%nat →
  divn_loop fuel k c (mkNum false s (lo ++ d :: qs) (length lo)) =
  let '(qs', c') := foldr (div_step k) (qs, c) (lo ++ [d]) in Some (mkNum true s qs' 0, c').
Proof.
  revert d qs c fuel. induction lo as [|d' lo IH] using rev_ind; intros d qs c fuel Hf;
    (destruct fuel as [|fuel]; [lia|]); cbn [divn_loop nbegin].
  - pose proof (peek_at false s [] d qs) as Hp. pose proof (poke_at false s [] d qs) as Hk. cbn [app length] in *.
    rewrite Hp. cbn. rewrite Hk. cbn. destruct fuel as [|fuel]; [simpl in Hf; lia|]. done.
  - rewrite peek_at. simpl. rewrite poke_at. simpl. rewrite <- !app_assoc. simpl app. rewrite length_app in *. simpl in *.
    unfold prev. cbn [nrp]. rewrite decide_True by lia. unfold set, set_field. cbn [nbuf nrp nbegin nscale].
    replace (Init.Nat.pred (length lo + 1)) with (length lo) by lia.
    rewrite IH by lia. rewrite !foldr_app. done.
Qed.

Lemma div_digits_ok k ds : 0 < k → Forall dig ds →
  let '(qs, c) := foldr (div_step k) ([], 0) ds in
  value ds = k * value qs + c ∧ 0 ≤ c < k ∧ Forall dig qs.
Proof.
  intros Hk. induction 1 as [|d ds Hd _ IH]; [simpl; split_and!; [lia..|constructor]|]. cbn [foldr].
  destruct (foldr (div_step k) ([], 0) ds) as [qs c]. destruct IH as (Hv & Hc & Hq). unfold div_step. cbn [fst snd].
  unfold dig in Hd. rewrite Z.quot_div_nonneg, Z.rem_mod_nonneg by lia.
  pose proof (Z.div_mod (c * 100 + d) k ltac:(lia)) as Hdm. pose proof (Z.mod_pos_bound (c * 100 + d) k Hk).
  assert (0 ≤ (c * 100 + d) / k < 100) as Hq1.
  { split; [apply Z.div_pos; lia|]. apply Z.div_lt_upper_bound; nia. }
  rewrite schar_id by lia. change (value (d :: ds)) with (d + 100 * value ds).
  change (value (?x :: qs)) with (x + 100 * value qs). split_and!; [nia|lia|lia|]. by constructor.
Qed.

(** A canonical number without sign has only proper digits. *)
Lemma canon_dig ds : canon ds → 0 ≤ value ds → Forall dig ds ∧ last ds ≠ Some 0.
Proof.
  intros [->|(init & t & -> & Hi & Ht)] Hv; [done|]. rewrite value_snoc in Hv. pose proof (value_range init Hi).
  destruct Ht as [Ht|[-> _]]; [|nia]. split; [|rewrite last_snoc; intros [= ?]; lia].
  apply Forall_app. split; [done|]. apply Forall_singleton. unfold dig. lia.
Qed.

Lemma divn_ok n k : 0 < k → Forall dig (nbuf n) → (nbuf n = [] → nrp n = 0%nat) →
  ∃ n', divn n k = Some (n', value (nbuf n) mod k) ∧ value (nbuf n') = value (nbuf n) / k ∧
  canon (nbuf n') ∧ nscale n' = if decide (nbuf n' = []) then 0 else nscale n.
Proof.
  intros Hk Hd Hrp. unfold divn, length_. pose proof (div_digits_ok k (nbuf n) Hk Hd) as Hq.
  assert (∃ b, divn_loop (S (length (nbuf n))) k 0 (last_ n) =
    let '(qs, c) := foldr (div_step k) ([], 0) (nbuf n) in Some (mkNum b (nscale n) qs 0, c)) as [b ->].
  { exists true. destruct n as [b s ds i]. cbn [nbuf nrp nscale] in *. destruct ds as [|t ds _] using rev_ind.
    - unfold last_. simpl. unfold set, set_field. simpl. by rewrite (Hrp eq_refl).
    - rewrite last_at. by apply divn_loop_ok; rewrite length_app; simpl; lia. }
  destruct (foldr (div_step k) ([], 0) (nbuf n)) as [qs c]. destruct Hq as (Hv & Hc & Hqs). simpl.
  destruct (norm_ok (mkNum b (nscale n) qs 0)) as (n' & E & Hcan & Hval & Hsc & _); [by apply dig_loose|done|].
  rewrite E. simpl. exists n'. simpl in Hval, Hsc. rewrite Hval, Hsc.
  assert (value (nbuf n) / k = value qs) as -> by (rewrite Hv, Z.mul_comm, Z.div_add_l, Z.div_small by lia; lia).
  assert (value (nbuf n) mod k = c) as ->; [|done].
  rewrite Hv, Z.add_comm, Z.mul_comm, Z.mod_add by lia. apply Z.mod_small. lia.
Qed.

Lemma drop_last0 (ds : list Z) k : last ds ≠ Some 0 → last (drop k ds) ≠ Some 0.
Proof.
  intros H. destruct (decide (length ds ≤ k)%nat); [by rewrite drop_ge|].
  rewrite last_lookup, lookup_drop, length_drop. rewrite last_lookup in H.
  by replace (k + pred (length ds - k))%nat with (pred (length ds)) by lia.
Qed.

(** Dividing by a power of ten; the scale is lost when the first step already gives 0. *)
Lemma div10_ok n k : 0 ≤ k → canon (nbuf n) → 0 ≤ value (nbuf n) → (nbuf n = [] → nrp n = 0%nat) →
  ∃ n', div10 n k = Some n' ∧ value (nbuf n') = value (nbuf n) / 10 ^ k ∧ canon (nbuf n') ∧
  (nbuf n' ≠ [] → nscale n' = nscale n).
Proof.
  intros Hk Hcan Hpos Hrp. unfold div10. destruct (canon_dig _ Hcan Hpos) as [Hd Hl].
  assert (0 ≤ Z.quot k 2) as Hq by dlia.
  assert (∃ n1, (if decide (Z.rem k 2 = 1) then fst <$> divn n 10 else Some n) = Some n1 ∧
    value (nbuf n1) = value (nbuf n) / 10 ^ Z.rem k 2 ∧ canon (nbuf n1) ∧ (nbuf n1 ≠ [] → nscale n1 = nscale n))
    as (n1 & E1 & Hv & Hc1 & Hs).
  { case_decide as Hr.
    - destruct (divn_ok n 10) as (n1 & E1 & Hv & Hc & Hs); [lia|done|done|]. exists n1. rewrite E1, Hr.
      split_and!; [done..|]. intros Hne. by rewrite Hs, decide_False.
    - assert (Z.rem k 2 = 0) as -> by dlia. exists n. split_and!; try done. rewrite Z.pow_0_r, Z.div_1_r. done. }
  assert (0 ≤ value (nbuf n1)) as Hpos1 by (rewrite Hv; apply Z.div_pos; [done|apply Z.pow_pos_nonneg; dlia]).
  destruct (canon_dig _ Hc1 Hpos1) as [Hd1 Hl1].
  rewrite E1. simpl. destruct (rshift_ok n1 (Z.to_nat (Z.quot k 2)) Hd1) as (n2 & E2 & Hb & Hs2 & Hv2).
  exists n2. split_and!; [done| | |].
  - rewrite Hv2, Hv, Z2Nat.id, Z.div_div by (try apply Z.pow_pos_nonneg; try apply Z.pow_nonzero; dlia).
    replace k with (2 * Z.quot k 2 + Z.rem k 2) at 3 by dlia. rewrite pow10 by dlia. f_equal. lia.
  - apply canon_pos; rewrite Hb; [by apply Forall_drop|by apply drop_last0].
  - intros Hne. rewrite Hs2. apply Hs. intros H0. apply Hne. rewrite Hb, H0. apply drop_nil.
Qed.

(** ** Addition *)

(** One digit of an operand: the next one, or 0 behind the last. *)
Definition read_digit (n : num) : option (Z * num) := if more n then rddigit n else Some (0, n).

Lemma read_digit_ok b s done rest :
  ∃ done', done' ++ tail rest = done ++ rest ∧
  read_digit (mkNum b s (done ++ rest) (length done)) =
  Some (hd 0 rest, mkNum b s (done' ++ tail rest) (length done')).
Proof.
  unfold read_digit. destruct rest as [|d rest]; cbn [hd tail].
  - exists done. rewrite app_nil_r, more_end. done.
  - exists (done ++ [d]). rewrite <- app_assoc. split; [done|]. rewrite more_at. unfold rddigit, length_. cbn [nbuf nrp].
    pose proof (cursor_lt done d rest). rewrite decide_False, list_lookup_middle by (done || lia).
    simpl. unfold set, set_field. simpl. rewrite length_app. simpl. do 3 f_equal. lia.
Qed.

Lemma value_hd (l : list Z) : value l = hd 0 l + 100 * value (tail l).
Proof. by destruct l. Qed.
Lemma hd_range (l : list Z) : Forall (λ d, -10 ≤ d < 100) l → -10 ≤ hd 0 l < 100.
Proof. by intros []. Qed.

Lemma addnum_loop_ok len carry ba sa da ra bb sb db rb b s ds :
  (length ra ≤ len)%nat → (length rb ≤ len)%nat → -1 ≤ carry ≤ 1 →
  Forall (λ d, -10 ≤ d < 100) ra → Forall (λ d, -10 ≤ d < 100) rb →
  ∃ cs carry', addnum_loop len carry (mkNum ba sa (da ++ ra) (length da)) (mkNum bb sb (db ++ rb) (length db)) (mkNum b s ds 0)
               = Some (mkNum b s (ds ++ cs) 0, carry') ∧
  value cs + 100 ^ Z.of_nat len * carry' = value ra + value rb + carry ∧
  Forall dig cs ∧ length cs = len ∧ -1 ≤ carry' ≤ 1.
Proof.
  revert carry da ra db rb ds. induction len as [|len IH]; intros carry da ra db rb ds Ha Hb Hc Hra Hrb; cbn [addnum_loop].
  { exists [], carry. destruct ra, rb; simpl in *; try lia. rewrite app_nil_r. split_and!; try done; try lia. }
  destruct (read_digit_ok ba sa da ra) as (da' & Ea & Ra), (read_digit_ok bb sb db rb) as (db' & Eb & Rb).
  unfold read_digit in Ra, Rb. rewrite Ra. simpl. rewrite Rb. simpl. pose proof (hd_range _ Hra). pose proof (hd_range _ Hrb).
  set (sum := hd 0 ra + hd 0 rb + carry) in *.
  assert (∃ v c1, (if decide (100 ≤ sum) then (sum - 100, 1) else if decide (sum < 0) then (sum + 100, -1) else (sum, 0))
    = (v, c1) ∧ v + 100 * c1 = sum ∧ dig v ∧ -1 ≤ c1 ≤ 1) as (v & c1 & -> & Hv & Hdv & Hc1).
  { unfold dig. repeat case_decide; eexists _, _; (split; [done|]); lia. }
  rewrite wrdigit_at, schar_id by (unfold dig in Hdv; lia).
  destruct (IH c1 da' (tail ra) db' (tail rb) (ds ++ [v])) as (cs & c' & -> & Hval & Hd & Hl & Hc').
  { destruct ra; simpl in *; lia. }
  { destruct rb; simpl in *; lia. }
  { done. }
  { by destruct Hra. }
  { by destruct Hrb. }
  exists (v :: cs), c'. rewrite <- app_assoc. split_and!; [done| |by constructor|simpl; lia|lia|lia].
  rewrite (value_hd ra), (value_hd rb), Nat2Z.inj_succ, Z.pow_succ_r by lia.
  change (value (v :: cs)) with (v + 100 * value cs). lia.
Qed.

(** Both operands at the larger scale. *)
Lemma align_ok a b : loose (nbuf a) → loose (nbuf b) →
  ∃ a' b', align a b = Some (a', b') ∧
  let S := Z.max (nscale a) (nscale b) in
  nscale a' = S ∧ nscale b' = S ∧
  value (nbuf a') = 10 ^ (S - nscale a) * value (nbuf a) ∧ value (nbuf b') = 10 ^ (S - nscale b) * value (nbuf b) ∧
  Forall (λ d, -10 ≤ d < 100) (nbuf a') ∧ Forall (λ d, -10 ≤ d < 100) (nbuf b').
Proof.
  intros Ha Hb. assert (∀ n, loose (nbuf n) → Forall (λ d, -10 ≤ d < 100) (nbuf n)) as Hr.
  { intros n [->|(init & t & -> & Hi & Ht)]; [constructor|]. apply Forall_app. split; [|apply Forall_singleton; lia].
    eapply Forall_impl; [exact Hi|]. unfold dig. lia. }
  unfold align. cbv zeta. case_decide as H0; [|case_decide as H1].
  - exists a, b. split; [done|]. replace (Z.max (nscale a) (nscale b)) with (nscale a) by lia.
    replace (nscale a - nscale b) with 0 by lia. rewrite Z.sub_diag. split_and!; auto; lia.
  - destruct (mul10_ok b (nscale a - nscale b)) as (b' & -> & Hv & Hs & Hd); [lia|done|]. simpl.
    eexists _, _. split; [done|]. replace (Z.max (nscale a) (nscale b)) with (nscale a) by lia.
    rewrite Z.sub_diag. simpl. split_and!; auto; lia.
  - destruct (mul10_ok a (- (nscale a - nscale b))) as (a' & -> & Hv & Hs & Hd); [lia|done|]. simpl.
    eexists _, _. split; [done|]. replace (Z.max (nscale a) (nscale b)) with (nscale b) by lia.
    rewrite Z.sub_diag. simpl. replace (nscale b - nscale a) with (- (nscale a - nscale b)) by lia. split_and!; auto; lia.
Qed.

(** [addnum] once its operands are aligned. *)
Lemma addnum_aligned a b a' b' : align a b = Some (a', b') →
  Forall (λ d, -10 ≤ d < 100) (nbuf a') → Forall (λ d, -10 ≤ d < 100) (nbuf b') →
  ∃ c, addnum a b = Some c ∧ canon (nbuf c) ∧ value (nbuf c) = value (nbuf a') + value (nbuf b') ∧
  nscale c = (if decide (nbuf c = []) then 0 else nscale a') ∧ (nbuf c = [] → nrp c = 0%nat).
Proof.
  intros Hal Hda Hdb. unfold addnum. rewrite Hal. simpl.
  destruct (addnum_loop_ok (Nat.max (length_ a') (length_ b')) 0 false (nscale a') [] (nbuf a') false (nscale b') [] (nbuf b')
    false 0 []) as (cs & carry & E & Hval & Hd & Hl & Hc); [unfold length_; lia|unfold length_; lia|lia|done|done|].
  change (mkNum false (nscale a') ([] ++ nbuf a') (length [])) with (first a') in E.
  change (mkNum false (nscale b') ([] ++ nbuf b') (length [])) with (first b') in E.
  change (mkNum false 0 [] 0) with newnum in E. rewrite E. simpl.
  assert ((if decide (carry ≠ 0) then wrdigit (mkNum false 0 cs 0) carry else mkNum false 0 cs 0) =
          mkNum false 0 (if decide (carry ≠ 0) then cs ++ [carry] else cs) 0) as ->.
  { case_decide; [by rewrite wrdigit_at, schar_id by lia|done]. }
  set (c0 := mkNum false (nscale a') (if decide (carry ≠ 0) then cs ++ [carry] else cs) 0).
  destruct (norm_ok c0) as (c & Ec & Hcan & Hv & Hs & Hrp).
  - subst c0. cbn [nbuf]. case_decide; [|by apply dig_loose]. right. exists cs, carry. split_and!; [done..|lia|lia].
  - done.
  - exists c. split_and!; [exact Ec|done| |by rewrite Hs|done].
    rewrite Hv. rewrite Z.add_0_r in Hval. rewrite <- Hval, <- Hl. subst c0. cbn [nbuf].
    clear Hs. destruct (decide (carry ≠ 0)); [by rewrite value_snoc|]. assert (carry = 0) as -> by lia. lia.
Qed.

Lemma addnum_ok a b : loose (nbuf a) → loose (nbuf b) →
  ∃ c, addnum a b = Some c ∧ canon (nbuf c) ∧
  let S := Z.max (nscale a) (nscale b) in
  value (nbuf c) = 10 ^ (S - nscale a) * value (nbuf a) + 10 ^ (S - nscale b) * value (nbuf b) ∧
  nscale c = if decide (nbuf c = []) then 0 else S.
Proof.
  intros Ha Hb. destruct (align_ok a b Ha Hb) as (a' & b' & Hal & Hsa & Hsb & Hva & Hvb & Hda & Hdb).
  destruct (addnum_aligned a b a' b' Hal Hda Hdb) as (c & E & Hc & Hv & Hs & _). exists c.
  split; [done|split; [done|]]. cbv zeta. split; [by rewrite Hv, Hva, Hvb|by rewrite Hs, Hsa].
Qed.

Lemma subnum_ok a b : canon (nbuf a) → canon (nbuf b) →
  ∃ c, subnum a b = Some c ∧ canon (nbuf c) ∧
  let S := Z.max (nscale a) (nscale b) in
  value (nbuf c) = 10 ^ (S - nscale a) * value (nbuf a) - 10 ^ (S - nscale b) * value (nbuf b) ∧
  nscale c = if decide (nbuf c = []) then 0 else S.
Proof.
  intros Ha Hb. unfold subnum. destruct (chsign_ok (copy b) Hb) as (t & -> & Ht & Hv & Hs). simpl.
  destruct (addnum_ok a t (canon_loose _ Ha) (canon_loose _ Ht)) as (c & -> & Hc & Hval & Hsc). exists c. simpl in Hs, Hv. rewrite Hs in *. split_and!; try done.
  rewrite Hval, Hv. lia.
Qed.

(** ** Multiplication *)

Lemma mul_step da db dc carry : dig da → dig db → dig dc → dig carry →
  let prod := da * db + dc + carry in
  dig (Z.rem prod 100) ∧ dig (Z.quot prod 100) ∧ schar (Z.rem prod 100) + 100 * Z.quot prod 100 = prod.
Proof.
  intros Ha Hb Hc Hd prod. unfold dig in *. assert (0 ≤ prod < 10000) by (subst prod; nia).
  rewrite Z.rem_mod_nonneg, Z.quot_div_nonneg by lia. rewrite schar_id by dlia. split_and!; dlia.
Qed.

Lemma mul_row_ok db carry ba sa da ra bc sc dc rc post fuel :
  length rc = length ra → (length ra < fuel)%nat → dig db → dig carry → Forall dig ra → Forall dig rc →
  ∃ rc' carry', mul_row fuel db carry (mkNum ba sa (da ++ ra) (length da)) (mkNum bc sc (dc ++ rc ++ post) (length dc))
                = Some (mkNum bc sc ((dc ++ rc') ++ post) (length (dc ++ rc')), carry') ∧
  length rc' = length ra ∧ Forall dig rc' ∧ dig carry' ∧
  value rc' + 100 ^ Z.of_nat (length ra) * carry' = value ra * db + value rc + carry.
Proof.
  intros Hlen Hf Hdb Hc Hra. revert da dc rc carry fuel Hlen Hf Hc.
  induction Hra as [|x ra Hx _ IH]; intros da dc rc carry [|fuel] Hlen Hf Hc Hrc; simpl in Hf; try lia; cbn [mul_row].
  - destruct rc; [|done]. rewrite app_nil_r, more_end. exists [], carry. rewrite app_nil_r. split_and!; try done. simpl. lia.
  - destruct rc as [|y rc]; [done|]. apply Forall_cons in Hrc as [Hy Hrc]. simpl in Hlen.
    destruct (mul_step x db y carry Hx Hdb Hy Hc) as (Hr & Hq & Hs). set (prod := x * db + y + carry) in *.
    rewrite more_at, peek_at. simpl app. simpl. rewrite peek_at. simpl. fold prod. rewrite poke_at. simpl.
    rewrite !next_at. rewrite (schar_id (Z.rem prod 100)) in * by (unfold dig in Hr; lia).
    destruct (IH (da ++ [x]) (dc ++ [Z.rem prod 100]) rc (Z.quot prod 100) fuel) as (rc' & c' & -> & Hl & Hd & Hc' & Hv);
      [lia|lia|done|done|].
    exists (Z.rem prod 100 :: rc'), c'. rewrite <- !app_assoc. split_and!; [done|simpl; lia|by constructor|done|].
    cbn [length]. rewrite Nat2Z.inj_succ, Z.pow_succ_r by lia.
    change (value (Z.rem prod 100 :: rc')) with (Z.rem prod 100 + 100 * value rc').
    change (value (x :: ra)) with (x + 100 * value ra). change (value (y :: rc)) with (y + 100 * value rc). subst prod. nia.
Qed.

Lemma mul_carry_ok carry b s done post fuel : dig carry → (1 < fuel)%nat →
  ∃ i, mul_carry fuel carry (mkNum b s (done ++ 0 :: post) (length done)) = Some (mkNum b s (done ++ carry :: post) i).
Proof.
  intros Hc Hf. destruct fuel as [|[|fuel]]; [lia|lia|]. cbn [mul_carry]. case_decide as H0.
  - rewrite peek_at. simpl. unfold dig in Hc. rewrite Z.rem_small, Z.quot_small by lia. rewrite poke_at. simpl.
    rewrite schar_id by lia. rewrite next_at, Z.add_0_l, <- app_assoc. by eexists.
  - unfold dig in Hc. assert (carry = 0) as -> by lia. eexists. done.
Qed.

Lemma mul_rows_ok e a bb sb db rb b s cs fuel : Forall dig (nbuf a) → Forall dig rb → Forall dig cs →
  (length_ a + length db)%nat = length cs → (length rb < fuel)%nat →
  ∃ cs' i, mul_rows fuel a (mkNum bb sb (db ++ rb) (length db)) (mkNum b s (cs ++ replicate (S (length rb + e)) 0) (length db))
           = Some (mkNum b s (cs' ++ replicate (S e) 0) i) ∧
  Forall dig cs' ∧ value cs' = value cs + 100 ^ Z.of_nat (length db) * (value (nbuf a) * value rb).
Proof.
  intros Ha Hrb. revert db cs fuel. induction Hrb as [|y rb Hy _ IH]; intros db cs [|fuel] Hcs Hlen Hf; simpl in Hf; try lia; cbn [mul_rows].
  - rewrite app_nil_r, more_end. eexists cs, _. split_and!; [done..|]. simpl. lia.
  - rewrite more_at, peek_at. simpl mbind. cbn [nrp].
    assert (∃ pre mid, cs = pre ++ mid ∧ length pre = length db ∧ length mid = length (nbuf a)) as (pre & mid & -> & Hpre & Hmid).
    { exists (take (length db) cs), (drop (length db) cs). rewrite take_drop, length_take, length_drop. unfold length_ in Hlen.
      split_and!; [done|lia|lia]. }
    apply Forall_app in Hcs as [Hdpre Hdmid].
    destruct (mul_row_ok y 0 false (nscale a) [] (nbuf a) b s pre mid (replicate (S (S (length rb + e))) 0) (S (length_ a)))
      as (mid' & c' & E & Hl' & Hd' & Hc' & Hv); [done|unfold length_; lia|done|unfold dig; lia|done|done|].
    change (mkNum false (nscale a) ([] ++ nbuf a) (length [])) with (first a) in E.
    change (length (y :: rb) + e)%nat with (S (length rb + e)). rewrite <- Hpre, <- app_assoc, bind_some, E, bind_some.
    destruct (mul_carry_ok c' b s (pre ++ mid') (replicate (S (length rb + e)) 0) (S (length ((pre ++ mid') ++ replicate (S (S (length rb + e))) 0))))
      as [i Ec]; [done|rewrite length_app; simpl; lia|].
    change (0 :: replicate (S (length rb + e)) 0) with (replicate (S (S (length rb + e))) 0) in Ec.
    unfold length_. cbn [nbuf]. rewrite Ec, bind_some.
    unfold set, set_field. cbn [nbuf nrp nbegin nscale]. rewrite Hpre, next_at.
    destruct (IH (db ++ [y]) ((pre ++ mid') ++ [c']) fuel) as (cs' & i' & E' & Hcs' & Hv').
    { apply Forall_app. split; [by apply Forall_app|]. by apply Forall_singleton. }
    { rewrite !length_app. unfold length_. simpl. lia. }
    { lia. }
    exists cs', i'. split_and!; [|done|].
    + rewrite <- E'. f_equal. rewrite length_app. simpl. f_equal; [|lia]. by rewrite <- !app_assoc.
    + rewrite Hv'. rewrite <- app_assoc, !value_app, length_app, Nat2Z.inj_add, Z.pow_add_r, Hpre, Hl' by lia.
      change (value (y :: rb)) with (y + 100 * value rb). change (value [c']) with (c' + 100 * 0).
      change (Z.of_nat (length [y])) with 1. nia.
Qed.

(** ** The sign *)

Lemma canon_sign ds : canon ds →
  value ds = 0 ∧ ds = [] ∨
  (∃ init t, ds = init ++ [t] ∧ 0 < t ∧ 100 ^ Z.of_nat (length init) ≤ value ds) ∨
  (∃ init, ds = init ++ [-1] ∧ - 100 ^ Z.of_nat (length init) ≤ value ds < 0).
Proof.
  intros [->|(init & t & -> & Hi & Ht)]; [by left|right].
  pose proof (value_range init Hi) as Hr. rewrite value_snoc. destruct Ht as [Ht|[-> _]].
  - left. exists init, t. split_and!; [done|lia|nia].
  - right. exists init. split; [done|lia].
Qed.

Lemma negative_ok n : canon (nbuf n) → negative n = Some (bool_decide (value (nbuf n) < 0), last_ n).
Proof.
  intros Hc. destruct n as [b s ds i]. cbn [nbuf] in *. unfold negative. cbn [nbuf].
  destruct (canon_sign ds Hc) as [[_ ->]|[(init & t & E & Ht & Hv)|(init & E & Hv)]]; [done|..].
  all: subst ds; rewrite last_at, peek_at.
  - pose proof (Z.pow_pos_nonneg 100 (Z.of_nat (length init))). rewrite (bool_decide_eq_false_2 (value _ < 0)) by lia.
    cbn. rewrite bool_decide_eq_false_2 by lia. by destruct init.
  - rewrite (bool_decide_eq_true_2 (value _ < 0)) by lia. cbn. by destruct init.
Qed.

Lemma nbuf_last n : nbuf (last_ n) = nbuf n.
Proof. unfold last_. by case_decide. Qed.
Lemma length_last n : length_ (last_ n) = length_ n.
Proof. unfold length_. by rewrite nbuf_last. Qed.
Lemma nscale_last n : nscale (last_ n) = nscale n.
Proof. unfold last_. by case_decide. Qed.

(** The magnitude takes no more digits than the complement. *)
Lemma opp_shorter ds ds' : canon ds → canon ds' → value ds < 0 → value ds' = - value ds → (length ds' ≤ length ds)%nat.
Proof.
  intros [[? _]|[(? & ? & _ & _ & H)|(init & -> & Hv)]]%canon_sign Hc' Hneg Heq; [lia| |].
  { pose proof (Z.pow_pos_nonneg 100 (Z.of_nat (length x))). lia. }
  destruct (canon_sign _ Hc') as [[_ ->]|[(init' & t' & -> & Ht & Hv')|(init' & -> & Hv')]]; [simpl; lia| |lia].
  rewrite !length_app. simpl. assert (Z.of_nat (length init') ≤ Z.of_nat (length init)); [|lia].
  apply (Z.pow_le_mono_r_iff 100); lia.
Qed.

(** An operand with its sign removed: [n1] and [n2] are copies or hold another cursor. *)
Lemma abs_ok n n1 n2 : canon (nbuf n) → nbuf n1 = nbuf n → nbuf n2 = nbuf n → nscale n1 = nscale n → nscale n2 = nscale n →
  ∃ m, (if bool_decide (value (nbuf n) < 0) then chsign n1 else Some n2) = Some m ∧
  canon (nbuf m) ∧ value (nbuf m) = Z.abs (value (nbuf n)) ∧ nscale m = nscale n ∧ (length_ m ≤ length_ n)%nat.
Proof.
  intros Hc H1 H2 Hs1 Hs2. unfold length_. case_bool_decide as Hs.
  - destruct (chsign_ok n1) as (m & -> & Hm & Hv & Hsm); [by rewrite H1|].
    rewrite H1 in Hv. exists m. split_and!; [done|done|lia|congruence|by apply opp_shorter].
  - exists n2. rewrite H2, Hs2. split_and!; [done|done|lia|done|lia].
Qed.

(** The digits of the product of the magnitudes, before the scale is reduced. *)
Lemma product_ok s ca cb la lb : Forall dig (nbuf ca) → Forall dig (nbuf cb) →
  (length_ ca ≤ la)%nat → (length_ cb ≤ lb)%nat →
  ∃ c, (c ← mul_rows (S (length_ cb)) ca (first cb) (mkNum false s (replicate (la + lb + 1) 0) 0); norm c) = Some c ∧
  canon (nbuf c) ∧ value (nbuf c) = value (nbuf ca) * value (nbuf cb) ∧ nscale c = (if decide (nbuf c = []) then 0 else s).
Proof.
  intros Ha Hb Hla Hlb. unfold length_ in *. set (e := (la + lb - length (nbuf ca) - length (nbuf cb))%nat).
  destruct (mul_rows_ok e ca false (nscale cb) [] (nbuf cb) false s (replicate (length (nbuf ca)) 0) (S (length (nbuf cb))))
    as (cs & i & E & Hd & Hv); [done|done| |unfold length_; simpl; rewrite length_replicate; lia|lia|].
  { by apply Forall_replicate. }
  rewrite <- replicate_add in E.
  replace (length (nbuf ca) + S (length (nbuf cb) + e))%nat with (la + lb + 1)%nat in E by lia.
  change (first cb) with (mkNum false (nscale cb) ([] ++ nbuf cb) (length (@nil Z))).
  change (mkNum false s (replicate (la + lb + 1) 0) 0) with (mkNum false s (replicate (la + lb + 1) 0) (length (@nil Z))).
  rewrite E, bind_some.
  destruct (norm_ok (mkNum false s (cs ++ replicate (S e) 0) i)) as (c & Ec & Hcan & Hvc & Hs & _).
  - apply dig_loose, Forall_app. split; [done|]. by apply Forall_replicate.
  - cbn. intros [_ ?]%app_nil. done.
  - exists c. split_and!; [done|done| |done]. rewrite Hvc. cbn [nbuf]. rewrite value_app, !value_zeros in *. simpl in Hv. lia.
Qed.

(** How many digits behind the point [mulnum] drops. *)
Definition mul_excess (scale sa sb : Z) : Z := Z.max 0 (sa + sb - Z.max (Z.max sa sb) scale).

Lemma quot_abs x p : 0 < p → Z.quot x p = if decide (x < 0) then - (Z.abs x / p) else Z.abs x / p.
Proof.
  intros Hp. case_decide as Hx.
  - assert (x = - Z.abs x) as E by lia. rewrite E at 1. rewrite Z.quot_opp_l, Z.quot_div_nonneg by lia. done.
  - rewrite Z.abs_eq, Z.quot_div_nonneg by lia. done.
Qed.
Lemma mul_negative va vb :
  va * vb < 0 ↔ xorb (bool_decide (va < 0)) (bool_decide (vb < 0)) = true ∧ va * vb ≠ 0.
Proof. repeat case_bool_decide; simpl; split; try (intros [? ?]); try split; try done; nia. Qed.
Lemma canon_nonempty ds : canon ds → ds ≠ [] → value ds ≠ 0.
Proof.
  intros [[_ ?]|[(init & ? & _ & _ & H)|(? & _ & H)]]%canon_sign Hne; [done| |lia].
  pose proof (Z.pow_pos_nonneg 100 (Z.of_nat (length init))). lia.
Qed.

(** The end of [mulnum] for magnitudes: the digits beyond [sc] behind the point go. *)
Lemma mul_scale_ok c s sc v : canon (nbuf c) → value (nbuf c) = v → 0 ≤ v → 0 ≤ sc →
  nscale c = (if decide (nbuf c = []) then 0 else s) →
  let k := Z.max 0 (s - sc) in
  ∃ c1, (if decide (0 < nscale c - sc) then
           c1 ← div10 c (nscale c - sc); Some (mkNum (nbegin c1) (nscale c1 - (nscale c - sc)) (nbuf c1) (nrp c1))
         else Some c) = Some c1 ∧
  canon (nbuf c1) ∧ value (nbuf c1) = v / 10 ^ k ∧ (value (nbuf c1) ≠ 0 → nscale c1 = s - k) ∧
  (k = 0 → value (nbuf c1) = 0 → nscale c1 = 0).
Proof.
  intros Hc Hv Hpos Hsc Hs k. destruct (decide (nbuf c = [])) as [H0|Hne].
  { rewrite H0 in Hv. simpl in Hv. rewrite decide_False by lia. exists c.
    rewrite H0, <- Hv, Z.div_0_l by (apply Z.pow_nonzero; lia). split_and!; [done|by left|done..]. }
  destruct (decide (0 < nscale c - sc)) as [Hk|Hk].
  - assert (nscale c - sc = k) as -> by lia.
    destruct (div10_ok c k) as (c1 & -> & Hv1 & Hc1 & Hs1); [lia|done|lia|done|].
    rewrite bind_some. eexists. split; [done|]. cbn [nbuf nscale]. split_and!; [done|by rewrite Hv1, Hv| |].
    + intros Hz. rewrite Hs1; [lia|]. intros H0. by rewrite H0 in Hz.
    + lia.
  - assert (k = 0) as -> by lia. exists c. rewrite Z.pow_0_r, Z.div_1_r, Z.sub_0_r.
    pose proof (canon_nonempty _ Hc Hne). split_and!; done.
Qed.

Lemma mulnum_ok scale a b : canon (nbuf a) → canon (nbuf b) → 0 ≤ nscale a → 0 ≤ nscale b →
  let k := mul_excess scale (nscale a) (nscale b) in
  ∃ c, mulnum scale a b = Some c ∧ canon (nbuf c) ∧
  value (nbuf c) = Z.quot (value (nbuf a) * value (nbuf b)) (10 ^ k) ∧
  (value (nbuf c) ≠ 0 → nscale c = nscale a + nscale b - k) ∧ (k = 0 → value (nbuf c) = 0 → nscale c = 0).
Proof.
  intros Ha Hb Hsa Hsb k. unfold mulnum. rewrite !negative_ok, !bind_some by done. cbv zeta.
  destruct (abs_ok a (copy (last_ a)) (last_ a)) as (ca & -> & Hca & Hva & _ & Hla);
    [done|apply nbuf_last|apply nbuf_last|apply nscale_last|apply nscale_last|].
  destruct (abs_ok b (copy (last_ b)) (last_ b)) as (cb & -> & Hcb & Hvb & _ & Hlb);
    [done|apply nbuf_last|apply nbuf_last|apply nscale_last|apply nscale_last|].
  destruct (canon_dig _ Hca ltac:(lia)) as [Hda _], (canon_dig _ Hcb ltac:(lia)) as [Hdb _].
  rewrite !bind_some. unfold zeronum, set, set_field. cbn [nbegin nscale nbuf nrp]. rewrite !length_last, !nscale_last.
  destruct (product_ok (nscale a + nscale b) ca cb (length_ a) (length_ b)) as (c & E & Hc & Hv & Hs); [done..|].
  destruct (mul_rows _ _ _ _) as [c0|]; [|done]. rewrite bind_some in *. rewrite E, bind_some.
  rewrite Hva, Hvb, <- Z.abs_mul in Hv.
  set (sc := if decide _ then scale else _).
  assert (sc = Z.max (Z.max (nscale a) (nscale b)) scale) as Hsc by (subst sc; clear; repeat case_decide; lia).
  destruct (mul_scale_ok c (nscale a + nscale b) sc _ Hc Hv) as (c1 & -> & Hc1 & Hv1 & Hs1 & Hz1); [lia|lia|done|].
  rewrite Hsc in Hv1, Hs1, Hz1. fold (mul_excess scale (nscale a) (nscale b)) in Hv1, Hs1, Hz1. fold k in Hv1, Hs1, Hz1.
  rewrite bind_some. pose proof (Z.pow_pos_nonneg 10 k ltac:(lia) ltac:(unfold k, mul_excess; lia)) as Hp.
  rewrite quot_abs by done. set (va := value (nbuf a)) in *. set (vb := value (nbuf b)) in *.
  pose proof (mul_negative va vb) as Hx. destruct (xorb _ _).
  - destruct (chsign_ok c1 Hc1) as (c2 & -> & Hc2 & Hv2 & Hs2). exists c2. split_and!; [done|done| | |].
    + rewrite Hv2, Hv1. destruct (decide (va * vb < 0)) as [|Hn]; [done|].
      assert (va * vb = 0) as -> by (destruct (decide (va * vb = 0)); [done|tauto]). by rewrite Z.div_0_l by lia.
    + rewrite Hv2, Hs2. intros. apply Hs1. lia.
    + rewrite Hv2, Hs2. intros. apply Hz1; [done|lia].
  - exists c1. split_and!; [done|done| |done|done]. rewrite decide_False by (intros [? _]%Hx; done). done.
Qed.

Lemma cmpnum_ok a b : canon (nbuf a) → canon (nbuf b) →
  let S := Z.max (nscale a) (nscale b) in
  cmpnum a b = Some (Z.sgn (10 ^ (S - nscale a) * value (nbuf a) - 10 ^ (S - nscale b) * value (nbuf b))).
Proof.
  intros Ha Hb. cbv zeta. unfold cmpnum. destruct (subnum_ok a b Ha Hb) as (d & -> & Hd & <- & _). rewrite bind_some.
  rewrite (negative_ok d Hd), bind_some. unfold length_. destruct (canon_sign _ Hd) as [[-> ->]|Hne]; [done|].
  rewrite decide_False by (destruct Hne as [(?&?&->&_)|(?&->&_)]; rewrite length_app; simpl; lia). f_equal.
  destruct Hne as [(init&?&_&_&Hv)|(init&_&Hv)].
  - pose proof (Z.pow_pos_nonneg 100 (Z.of_nat (length init))). rewrite bool_decide_eq_false_2 by lia. symmetry. apply Z.sgn_pos. lia.
  - rewrite bool_decide_eq_true_2 by lia. symmetry. apply Z.sgn_neg. lia.
Qed.

(** ** The four commands *)

(** The number times [10 ^ S]. *)
Definition scaled (S : Z) (n : num) : Z := 10 ^ (S - nscale n) * value (nbuf n).
Definition wf_num (n : num) : Prop := canon (nbuf n) ∧ 0 ≤ nscale n.

Lemma scaled_result S c : nscale c = (if decide (nbuf c = []) then 0 else S) → scaled S c = value (nbuf c).
Proof.
  intros E. unfold scaled. rewrite E. case_decide as H0; [rewrite H0; simpl; lia|]. rewrite Z.sub_diag. lia.
Qed.

(** dc adds, subtracts and compares numbers exactly, whatever their scales,
    and multiplies them exactly up to truncation at the larger of the operands'
    scales and the scale in force; every result is canonical. *)
Theorem dc_arithmetic scale a b : wf_num a → wf_num b →
  let S := Z.max (nscale a) (nscale b) in
  (∃ c, addnum a b = Some c ∧ wf_num c ∧ scaled S c = scaled S a + scaled S b) ∧
  (∃ c, subnum a b = Some c ∧ wf_num c ∧ scaled S c = scaled S a - scaled S b) ∧
  cmpnum a b = Some (Z.sgn (scaled S a - scaled S b)) ∧
  let k := mul_excess scale (nscale a) (nscale b) in
  ∃ c, mulnum scale a b = Some c ∧ canon (nbuf c) ∧
    value (nbuf c) = Z.quot (value (nbuf a) * value (nbuf b)) (10 ^ k) ∧
    (value (nbuf c) ≠ 0 → nscale c = nscale a + nscale b - k).
Proof.
  intros [Ha Hsa] [Hb Hsb] S.
  assert (∀ c, nscale c = (if decide (nbuf c = []) then 0 else S) → 0 ≤ nscale c) as Hnn by (intros c ->; case_decide; lia).
  split_and!.
  - destruct (addnum_ok a b (canon_loose _ Ha) (canon_loose _ Hb)) as (c & E & Hc & Hv & Hs). exists c. rewrite (scaled_result S c Hs). by repeat split; auto.
  - destruct (subnum_ok a b Ha Hb) as (c & E & Hc & Hv & Hs). exists c. rewrite (scaled_result S c Hs). by repeat split; auto.
  - apply (cmpnum_ok a b Ha Hb).
  - destruct (mulnum_ok scale a b Ha Hb Hsa Hsb) as (c & ? & ? & ? & ? & _). by exists c.
Qed.

Lemma dc_arithmetic_witness :
  (∃ c, addnum (mkNum false 2 [25; 1] 0) (mkNum false 1 [93; -1] 0) = Some c ∧ scaled 2 c = 55) ∧
  cmpnum (mkNum false 2 [25; 1] 0) (mkNum false 1 [93; -1] 0) = Some 1.
Proof.
  destruct (dc_arithmetic 0 (mkNum false 2 [25; 1] 0) (mkNum false 1 [93; -1] 0)) as ((c & E & _ & Hv) & _ & Hc & _).
  - split; [|done]. right. exists [25], 1. split_and!; [done| |left; lia]. apply Forall_singleton. unfold dig. lia.
  - split; [|done]. right. exists [93], (-1). split_and!; [done| |right; done]. apply Forall_singleton. unfold dig. lia.
  - split; [|exact Hc]. exists c. split; [exact E|exact Hv].
Defined.

(** *** Where numbers go wrong *)

(** The product of .1 by .1 at scale 0 is empty with a negative scale. *)
Example mul_negative_scale : (c ← mulnum 0 (mkNum false 1 [1] 0) (mkNum false 1 [1] 0); Some (nbuf c, nscale c)) = Some ([], -1).
Proof. vm_compute. reflexivity. Qed.
(** A carry over 127 does not fit a digit: 50 times 1000, as for an output base
    of 1000, becomes -12. *)
Example muln_overflow : (n ← muln (mkNum false 0 [50] 0) 1000; Some (nbuf n)) = Some [0; -12].
Proof. vm_compute. reflexivity. Qed.
