(* ===== verification/DcDiv.v ===== *)
(** * dc: division, powers and roots of src/cmd/extra/dc.c

    The operations built on the numbers of Dc.v that divide: [divmod] with its
    estimated quotient digits, division and remainder at a scale, powers by
    repeated squaring and square roots by Newton's method.  [long] holds every
    value the estimates take (below 10^8), so its width does not show. *)

From S2P Require Import Prelude Dc.

Local Open Scope Z_scope.

Definition seek (n : num) (pos : Z) : num := n <| nrp := Z.to_nat pos |>.
(** [divd->wp--] *)
Definition shorten (n : num) : num := n <| nbuf := take (pred (length_ n)) (nbuf n) |>.
(** [prev(n) ? peek(n) : 0] *)
Definition prev_peek (n : num) : option (Z * num) :=
  if decide (0 < nrp n)%nat then d ← peek (prev n); Some (d, prev n) else Some (0, prev n).

Fixpoint mulnto_loop (fuel : nat) (k carry : Z) (src dst : num) : option (num * num * Z) :=
  match fuel with
  | O => None
  | S fuel =>
      if more src then
        d ← peek src;
        let d := d * k + carry in
        mulnto_loop fuel k (Z.quot d 100) (next src) (wrdigit dst (Z.rem d 100))
      else Some (src, dst, carry)
  end.
Definition mulnto (src dst : num) (k : Z) : option (num * num) :=
  dst ← numtrunc (first dst);
  '(src, dst, carry) ← mulnto_loop (S (length_ src)) k 0 (first src) dst;
  Some (src, if decide (carry ≠ 0) then wrdigit dst carry else dst).

(** ** divmod *)

(** The loop that subtracts [acc] from the dividend. *)
Fixpoint divsub (fuel : nat) (carry : Z) (divd acc : num) : option (num * num * Z) :=
  match fuel with
  | O => None
  | S fuel =>
      if more divd then
        d ← peek divd;
        '(da, acc) ← (if more acc then rddigit acc else Some (0, acc));
        let d := d - da - carry in
        let '(d, carry) := if decide (d < 0) then (d + 100, 1) else (d, 0) in
        divd ← poke divd d;
        divsub fuel carry (next divd) acc
      else Some (divd, acc, carry)
  end.

Record divstate := mkDivstate {
  dv_divd : num; dv_divr : num; dv_acc : num; dv_res : num;
  dv_q : Z; dv_under : bool; dv_carry : Z;
}.

(** The estimate of a digit from the leading digits [dd] and [dr]. *)
Definition divdigit (magic : bool) (dr : Z) (diff : nat) (dd : Z) : Z * bool :=
  let '(dd, cc) := if decide (diff = 0%nat) then (dd + 1, dr) else (dd, dr + 1) in
  let dd := if magic then dd * 8 else dd in
  let q := Z.quot dd cc in
  let under := bool_decide (0 < q ∧ Z.rem dd cc < 8) && magic in
  (if under then q - 1 else q, under).
(** One round of the loop over [diff]: estimate a digit, subtract, store it. *)
Definition divstep (magic : bool) (dr : Z) (diff : nat) (s : divstate) : option divstate :=
  let divd := last_ (dv_divd s) in
  d0 ← peek divd;
  '(d1, divd) ← prev_peek divd;
  '(d2, divd) ← prev_peek divd;
  let '(q, under) := divdigit magic dr diff ((d0 * 100 + d1) * 100 + d2) in
  '(divr, acc) ← mulnto (dv_divr s) (dv_acc s) q;
  '(divd, acc, carry) ← divsub (S (length_ divd)) 0 (seek divd (Z.of_nat diff)) (first acc);
  res ← poke (prev (dv_res s)) q;
  let divd := last_ divd in
  d ← peek divd;
  divd ← (if decide (d ≠ 0 ∧ diff ≠ 0%nat) then
            let divd := prev divd in d ← peek divd; poke divd (d + 100)
          else Some divd);
  Some (mkDivstate (if decide (diff = 0%nat) then divd else shorten divd) divr acc res q under carry).
(** [n] is [diff + 1]. *)
Fixpoint divloop (magic : bool) (dr : Z) (n : nat) (s : divstate) : option divstate :=
  match n with
  | O => Some s
  | S diff => s ← divstep magic dr diff s; divloop magic dr diff s
  end.

(** The leading digits of the divisor, two, or three when the first is small. *)
Definition divestimate (divr : num) : option (bool * Z * num) :=
  dr ← peek divr;
  let magic := bool_decide (dr < 10) in
  '(d1, divr) ← prev_peek divr;
  let dr := dr * 100 + d1 in
  if magic then
    '(d2, divr) ← prev_peek divr;
    Some (magic, Z.quot ((dr * 100 + d2) * 2) 25, divr)
  else Some (magic, dr, divr).

(** The last digit is put right; [addnum] aligns its operands in place. *)
Definition divadjust (s : divstate) : option (num * num) :=
  '(divd, res) ←
    (if dv_under s then
       p ← subnum (dv_divd s) (dv_divr s);
       '(neg, p) ← negative p;
       if neg : bool then
         tmp ← chsign (copy (dv_divr s));
         '(divd, _) ← align (dv_divd s) tmp;
         Some (divd <| nbegin := false |> <| nrp := length_ divd |>, dv_res s)
       else res ← poke (dv_res s) (dv_q s + 1); Some (p, res)
     else Some (dv_divd s, dv_res s));
  if decide (dv_carry s ≠ 0) then
    res ← poke res (dv_q s - 1);
    divd ← poke divd (-1);
    divd ← addnum (dv_divr s) divd;
    Some (divd, res)
  else Some (divd, res).

(** The quotient and the dividend that is left, both without sign. *)
Definition divabs (divd divr res : num) : option (num * num) :=
  let diff := Z.of_nat (length_ divd) - Z.of_nat (length_ divr) in
  let divd := wrdigit (last_ divd) 0 in
  '(magic, dr, divr) ← divestimate (last_ divr);
  s ← divloop magic dr (Z.to_nat (diff + 1))
        (mkDivstate divd divr (copy zero) (seek res (diff + 1)) 0 false 0);
  '(divd, res) ← divadjust s;
  '(res, _) ← sweep_digits (λ d carry, let d := d + carry in
                              if decide (100 ≤ d) then (d - 100, 1) else (d, 0)) 0 res;
  Some (divd, res).

Definition divmod (odivd odivr : num) : option (num * num) :=
  let res := zeronum (length_ odivd) in
  '(divd, res) ←
    (if decide (length_ odivr = 0%nat) then Some (copy odivd, res)
     else
       '(divsign, divd) ← negative (copy odivd);
       divd ← (if divsign : bool then chsign divd else Some divd);
       '(remsign, divr) ← negative odivr;
       divr ← (if remsign : bool then chsign (copy divr) else Some divr);
       '(divd, res) ← divabs divd divr res;
       divd ← (if divsign : bool then chsign divd else Some divd);
       res ← (if xorb divsign remsign then chsign res else Some res);
       Some (divd, res));
  rem ← norm (divd <| nscale := nscale odivd |>);
  res ← norm (res <| nscale := Z.max 0 (nscale odivd - nscale odivr) |>);
  Some (res, rem).

(** ** At a scale *)

Definition divscale (scale : Z) (divd divr : num) : option (option (num * num)) :=
  if decide (length_ divr = 0%nat) then Some None
  else
    let diff := scale + nscale divr - nscale divd in
    if decide (0 < diff) then
      divd ← mul10 divd diff; Some (Some (divd <| nscale := nscale divd + diff |>, divr))
    else if decide (diff < 0) then
      divr ← mul10 divr (- diff); Some (Some (divd, divr <| nscale := nscale divr - diff |>))
    else Some (Some (divd, divr)).

Definition absnum (n : num) : option (bool * num) :=
  '(neg, n) ← negative n;
  n ← (if neg : bool then chsign n else Some n);
  Some (neg, n).

Definition divnum (scale : Z) (a b : num) : option num :=
  '(siga, a) ← absnum a;
  '(sigb, b) ← absnum b;
  s ← divscale scale a b;
  match s with
  | None => Some (copy zero)
  | Some (a, b) =>
      '(r, _) ← divmod a b;
      if xorb siga sigb then chsign r else Some r
  end.
Definition modnum (scale : Z) (a b : num) : option num :=
  '(siga, a) ← absnum a;
  '(sigb, b) ← absnum b;
  s ← divscale scale a b;
  match s with
  | None => Some (copy zero)
  | Some (a, b) =>
      '(_, m) ← divmod a b;
      if siga : bool then chsign m else Some m
  end.

(** ** Powers *)

Fixpoint exploop (fuel : nat) (scale : Z) (res fact e : num) : option num :=
  match fuel with
  | O => None
  | S fuel =>
      if decide (length_ e = 0%nat) then Some res
      else
        let e := first e in
        d ← peek e;
        res ← (if decide (Z.rem d 2 = 1) then mulnum scale res fact else Some res);
        fact ← mulnum scale fact fact;
        '(e, _) ← divn e 2;
        exploop fuel scale res fact e
  end.
Definition expnum (scale : Z) (base exp : num) : option num :=
  if decide (length_ exp = 0%nat) then Some (copy one)
  else
    '(neg, _) ← negative exp;
    e ← (if neg : bool then chsign (copy exp) else Some (copy exp));
    e ← (if decide (0 < nscale e) then e ← div10 e (nscale e); Some (e <| nscale := 0 |>) else Some e);
    res ← exploop (S (7 * length_ e)) scale (copy one) (copy base) e;
    if neg : bool then divnum scale (copy one) res else Some res.

(** ** Square roots *)

Fixpoint isqrt_loop (fuel : nat) (n x x1 : Z) : option Z :=
  match fuel with
  | O => None
  | S fuel => if decide (x1 < x) then isqrt_loop fuel n x1 (Z.quot (x1 + Z.quot n x1) 2) else Some x
  end.
Definition isqrt (n : Z) : option Z :=
  if decide (n ≤ 0) then Some 0
  else if decide (n = 1) then Some 1
  else isqrt_loop (Z.to_nat n) n n (Z.quot (n + 1) 2).

(** The rounds of Newton's method that are left. *)
Fixpoint newton (iter : nat) (y x : num) (xprev : option num) : option num :=
  match iter with
  | O => Some x
  | S iter =>
      '(q, _) ← divmod y x;
      sum ← addnum x q;
      '(sum, _) ← divn sum 2;
      c ← cmpnum sum x;
      if decide (c = 0) then Some x
      else
        c ← match xprev with Some p => cmpnum sum p | None => Some 1 end;
        if decide (c = 0) then
          c ← cmpnum x sum;
          Some (if decide (c < 0) then x else sum)
        else newton iter y sum (Some x)
  end.

Definition sqrtnum (scale : Z) (oy : num) : option num :=
  if decide (length_ oy = 0%nat) then Some (copy zero)
  else
    '(neg, oy) ← negative oy;
    if neg : bool then Some (copy zero)
    else
      let ysc := 2 * scale + 2 - nscale oy in
      y ← (if decide (0 < ysc) then mul10 (copy oy) ysc else Some (copy oy));
      let ysc := 2 * scale + 2 in
      '(y, ysc) ← (if decide (Z.rem ysc 2 = 1) then y ← muln y 10; Some (y, ysc + 1) else Some (y, ysc));
      let y := last_ (y <| nscale := 0 |>) in
      top ← peek y;
      top ← (if decide (0 < nrp y)%nat then
               if decide (1 < length_ y)%nat then d ← peek (prev y); Some (top * 100 + d) else Some top
             else Some top);
      r ← isqrt top;
      let x := lshift (wrdigit newnum r) (Nat.div (length_ y - 1) 2) in
      x ← newton 1000 y x None;
      let x := x <| nscale := Z.quot ysc 2 |> in
      x ← (if decide (scale < nscale x) then
             x ← div10 x (nscale x - scale); Some (x <| nscale := scale |>)
           else Some x);
      norm x.

(** ** Examples *)

Definition int_ (ds : list Z) : num := mkNum false 0 ds 0.
Definition digits_of (o : option num) : option (list Z * Z) := n ← o; Some (nbuf n, nscale n).

Example divmod_99999_7 : (p ← divmod (int_ [99; 99; 9]) (int_ [7]); Some (nbuf (fst p), nbuf (snd p))) = Some ([85; 42; 1], [4]).
Proof. vm_compute. reflexivity. Qed.
Example exp_3_13 : digits_of (expnum 0 (int_ [3]) (int_ [13])) = Some ([23; 43; 59; 1], 0).
Proof. vm_compute. reflexivity. Qed.
Example sqrt_2_10 : digits_of (sqrtnum 5 (int_ [2])) = Some ([21; 14; 14], 5).
Proof. vm_compute. reflexivity. Qed.

(** The adjustment of the last digit subtracts the divisor at its own scale
    from the dividend at a larger one: 66427 / 66427 at scale 1 is .9, and the
    remainder of 154395 by 10161 is 10108.8 instead of 963.9. *)
Example div_short : digits_of (divnum 1 (int_ [27; 64; 6]) (int_ [27; 64; 6])) = Some ([9], 1).
Proof. vm_compute. reflexivity. Qed.
Example mod_long : digits_of (modnum 1 (int_ [95; 43; 15]) (int_ [61; 1; 1])) = Some ([88; 10; 10], 1).
Proof. vm_compute. reflexivity. Qed.
(** The root of 4.001 at scale 0 is taken of 40.01: the value is only scaled up. *)
Example sqrt_long_scale : digits_of (sqrtnum 0 (mkNum false 3 [1; 40] 0)) = Some ([6], 0).
Proof. vm_compute. reflexivity. Qed.
