(* ===== verification/DcDivmod.v ===== *)
(** * dc: powers, small roots and divmod

    [expnum] computes the power of integers, in at most seven rounds for each
    digit pair of the exponent, and [isqrt] the integer square root.

    [divmod] estimates each quotient digit from the leading digits of the
    dividend and the divisor, and lets a digit run over 99 before it corrects
    the result.  When both operands have the same scale it yields the quotient
    and the remainder: every estimate but the last is not too large and leaves
    less than 1.2 times the shifted divisor, so no digit reaches 128; the last
    one is at most one off, and the borrow or [under] tells which way. *)

From S2P Require Import Prelude Dc DcFacts DcDiv.

Local Open Scope Z_scope.

(** ** Powers *)

Definition integer (n : num) : Prop := canon (nbuf n) ∧ nscale n = 0.

Lemma mulnum_integer scale a b : integer a → integer b → 
  ∃ c, mulnum scale a b = Some c ∧ integer c ∧ value (nbuf c) = value (nbuf a) * value (nbuf b).
Proof.
  intros [Ha Hsa] [Hb Hsb]. destruct (mulnum_ok scale a b) as (c & E & Hc & Hv & Hs & Hz); [done|done|lia|lia|].
  assert (mul_excess scale (nscale a) (nscale b) = 0) as Hk by (unfold mul_excess; lia).
  rewrite Hk in *. rewrite Z.pow_0_r, Z.quot_1_r in Hv. exists c. split_and!; [done| |done]. split; [done|].
  destruct (decide (value (nbuf c) = 0)); [auto|]. rewrite Hs by done. lia.
Qed.

Lemma peek_first n d ds : nbuf n = d :: ds → peek (first n) = Some d.
Proof. destruct n as [b s l i]. simpl. intros ->. apply (peek_at false s [] d ds). Qed.

Lemma exploop_ok fuel scale res fact e :
  integer res → integer fact → canon (nbuf e) → 0 ≤ value (nbuf e) < 2 ^ Z.of_nat fuel →
  ∃ r, exploop (S fuel) scale res fact e = Some r ∧ integer r ∧
       value (nbuf r) = value (nbuf res) * value (nbuf fact) ^ value (nbuf e).
Proof.
  revert res fact e. induction fuel as [|fuel IH]; intros res fact e Hr Hf He Hv;
    (destruct (decide (nbuf e = [])) as [H0|Hne];
      [cbn [exploop]; unfold length_; rewrite H0, decide_True by done; exists res;
       split_and!; [done|done|]; cbn; rewrite Z.pow_0_r; lia|]).
  { pose proof (canon_nonempty _ He Hne). simpl in Hv. lia. }
  destruct (canon_dig _ He (proj1 Hv)) as [Hd _]. destruct (nbuf e) as [|d ds] eqn:Ee; [done|].
  apply Forall_cons in Hd as [Hd Hds]. set (v := value (d :: ds)) in *.
  assert (v = d + 100 * value ds) as Ev by done.
  remember (S fuel) as f. cbn [exploop]. subst f. unfold length_. rewrite Ee, decide_False by done. cbv zeta. rewrite (peek_first e d ds Ee), bind_some.
  assert (∃ res', (if decide (Z.rem d 2 = 1) then mulnum scale res fact else Some res) = Some res' ∧ integer res' ∧
    value (nbuf res') = value (nbuf res) * value (nbuf fact) ^ (v mod 2)) as (res' & -> & Hr' & Hvr).
  { unfold dig in Hd. assert (v mod 2 = Z.rem d 2) as -> by (clearbody v; dlia). case_decide as Hodd.
    - destruct (mulnum_integer scale res fact Hr Hf) as (r & -> & ? & Hv'). exists r. rewrite Hodd, Z.pow_1_r. auto.
    - assert (Z.rem d 2 = 0) as -> by dlia. exists res. rewrite Z.pow_0_r. split_and!; [done|done|lia]. }
  rewrite bind_some. destruct (mulnum_integer scale fact fact Hf Hf) as (fact' & -> & Hf' & Hvf). rewrite bind_some.
  destruct (divn_ok (first e) 2) as (e' & -> & Hve & He' & _); [lia|by simpl; rewrite Ee; constructor|done|]. rewrite bind_some.
  replace (value (nbuf (first e))) with v in Hve by (simpl; by rewrite Ee).
  destruct (IH res' fact' e' Hr' Hf' He') as (r & Er & Hir & Hvr').
  { rewrite Hve. rewrite Nat2Z.inj_succ, Z.pow_succ_r in Hv by lia. split; [apply Z.div_pos; lia|apply Z.div_lt_upper_bound; lia]. }
  exists r. split_and!; [exact Er|done|]. rewrite Hvr', Hvr, Hvf, Hve, <- Z.mul_assoc. f_equal.
  rewrite Z.pow_mul_l, <- Z.pow_add_r, <- Z.pow_add_r by dlia. f_equal. dlia.
Qed.

Lemma digits_bits ds : Forall dig ds → 0 ≤ value ds < 2 ^ Z.of_nat (7 * length ds).
Proof.
  intros H. pose proof (value_range ds H) as Hr. split; [lia|]. eapply Z.lt_le_trans; [apply Hr|].
  rewrite Nat2Z.inj_mul, Z.pow_mul_r by lia. apply Z.pow_le_mono_l. lia.
Qed.

Lemma expnum_ok scale base exp : integer base → integer exp → 0 ≤ value (nbuf exp) →
  ∃ r, expnum scale base exp = Some r ∧ integer r ∧ value (nbuf r) = value (nbuf base) ^ value (nbuf exp).
Proof.
  intros [Hb Hsb] [He Hse] Hpos. assert (integer (copy one)) as Hone.
  { split; [|done]. right. exists [], 1. split_and!; [done|done|]. left. lia. }
  unfold expnum. destruct (decide (nbuf exp = [])) as [H0|Hne].
  { rewrite decide_True by (unfold length_; by rewrite H0). rewrite H0. exists (copy one). split_and!; [done|done|]. change (value []) with 0. by rewrite Z.pow_0_r. }
  rewrite decide_False by (unfold length_; by destruct (nbuf exp)). rewrite negative_ok, bind_some by done.
  rewrite bool_decide_eq_false_2, bind_some by lia. change (nscale (copy exp)) with (nscale exp).
  rewrite Hse, decide_False, bind_some by lia.
  destruct (exploop_ok (7 * length_ (copy exp)) scale (copy one) (copy base) (copy exp)) as (r & -> & Hr & Hv);
    [done|done|done|apply digits_bits, (canon_dig _ He Hpos)|].
  rewrite bind_some. exists r. split_and!; [done|done|]. rewrite Hv. apply Z.mul_1_l.
Qed.

(** ** isqrt *)

(** Newton's step from [x] at or above the root stays at or above it, and stops
    only at the root. *)
Lemma newton_above n x : 0 < n → 0 < x → Z.sqrt n ≤ (x + n / x) / 2.
Proof.
  intros Hn Hx. destruct (Z.sqrt_spec n ltac:(lia)) as [Hr _]. generalize dependent (Z.sqrt n). intros r Hr.
  apply Z.div_le_lower_bound; [lia|]. enough (2 * r - x ≤ n / x) by (generalize dependent (n / x); lia).
  apply Z.div_le_lower_bound; [lia|]. pose proof (Z.square_nonneg (x - r)). nia.
Qed.
Lemma newton_stop n x : 0 < n → Z.sqrt n ≤ x → x ≤ (x + n / x) / 2 → x = Z.sqrt n.
Proof.
  intros Hn Hge Hle. destruct (Z.sqrt_spec n ltac:(lia)) as [Hr1 Hr2].
  destruct (decide (x = Z.sqrt n)); [done|]. exfalso. assert (Z.sqrt n < x) as Hlt by lia. pose proof (Z.sqrt_nonneg n).
  assert (n / x < x) by (apply Z.div_lt_upper_bound; nia). dlia.
Qed.

Lemma isqrt_loop_ok fuel n x x1 : 0 < n → 0 < x1 → Z.sqrt n ≤ x1 →
  (x ≤ x1 → x = Z.sqrt n) → x ≤ Z.of_nat fuel → 0 < x → isqrt_loop fuel n x x1 = Some (Z.sqrt n).
Proof.
  intros Hn. revert x x1. induction fuel as [|fuel IH]; intros x x1 Hx1 Hge Hstop Hf Hx; [lia|].
  cbn [isqrt_loop]. case_decide as Hlt; [|by rewrite Hstop by lia].
  rewrite (Z.quot_div_nonneg n), Z.quot_div_nonneg by (try apply Z.add_nonneg_nonneg; try apply Z.div_pos; lia).
  pose proof (newton_above n x1 Hn Hx1) as Hab. pose proof (proj2 (Z.sqrt_pos n) Hn).
  apply IH; [lia|done|by apply newton_stop|lia|done].
Qed.

Lemma isqrt_ok n : isqrt n = Some (Z.sqrt n).
Proof.
  unfold isqrt. case_decide; [f_equal; destruct n; [done|lia|done]|]. case_decide; [by subst|].
  pose proof (newton_above n 1 ltac:(lia) ltac:(lia)) as Hab. rewrite Z.div_1_r in Hab.
  rewrite Z.quot_div_nonneg by lia. replace (n + 1) with (1 + n) by lia.
  apply isqrt_loop_ok; [lia|dlia|done|dlia|lia|lia].
Qed.

(** [expnum] raises an integer to a non-negative integer power exactly, at
    any scale, and [isqrt], the first guess of [sqrtnum], is the integer square
    root; the loops of both end. *)
Theorem expnum_power scale base exp : integer base → integer exp → 0 ≤ value (nbuf exp) →
  (∃ r, expnum scale base exp = Some r ∧ integer r ∧ value (nbuf r) = value (nbuf base) ^ value (nbuf exp)) ∧
  ∀ n, isqrt n = Some (Z.sqrt n).
Proof. intros Hb He Hpos. split; [by apply expnum_ok|apply isqrt_ok]. Qed.

Lemma expnum_power_witness : ∃ r, expnum 0 (int_ [98; -1]) (int_ [11]) = Some r ∧ value (nbuf r) = -2048.
Proof.
  destruct (expnum_power 0 (int_ [98; -1]) (int_ [11])) as [(r & E & _ & Hv) _].
  - split; [|done]. right. exists [98], (-1). split_and!; [done| |right; done]. apply Forall_singleton. unfold dig. lia.
  - split; [|done]. right. exists [], 11. split_and!; [done|constructor|left; lia].
  - vm_compute. done.
  - exists r. split; [exact E|exact Hv].
Defined.


(** ** Estimates *)

(** [dd] are the leading digits of the dividend [A], [dr] those of the divisor
    [X] at the same place [W]; both times [K], which is 8 in the magic case. *)
Record estimate (K dd dr W A X : Z) : Prop := {
  est_K : K = 1 ∨ K = 8;
  est_W : 0 < W;
  est_dr : 800 ≤ dr;
  est_dd : K * dd * W ≤ A < K * (dd + 1) * W;
  est_X : dr * W ≤ X;
  est_X1 : K = 1 → X < (dr + 1) * W;
  est_X8 : 25 * X < (25 * dr + 26) * W;
  est_A : 0 ≤ A < 120 * X;
}.

Lemma est_dd_range K dd dr W A X : estimate K dd dr W A X → 0 ≤ dd ∧ K * dd ≤ 120 * dr + 124.
Proof.
  intros [HK HW Hdr [Hdd3 Hdd4] HX HX1 HX8 HA]. split.
  - assert (0 < K * (dd + 1) * W) as H by lia. destruct HK as [-> | ->]; apply Z.mul_pos_cancel_r in H; lia.
  - assert (25 * (K * dd) * W < (120 * (25 * dr + 26)) * W) as H by lia. apply Z.mul_lt_mono_pos_r in H; lia.
Qed.

(** The products the next two proofs compare. *)
Lemma est_products dr W X q : 0 < W → 800 ≤ dr → dr * W ≤ X → 25 * X < (25 * dr + 26) * W → 0 ≤ q ≤ 120 →
  q * (dr * W) ≤ q * X ∧ 25 * (q * X) ≤ 25 * (q * (dr * W)) + 26 * (q * W) ∧ 0 ≤ q * W ≤ 120 * W ∧ 800 * W ≤ dr * W.
Proof.
  intros HW Hdr HX HX8 Hq. split_and!.
  - apply Z.mul_le_mono_nonneg_l; lia.
  - pose proof (Z.mul_le_mono_nonneg_l (25 * X) ((25 * dr + 26) * W) q ltac:(lia) ltac:(lia)). lia.
  - apply Z.mul_nonneg_nonneg; lia.
  - apply Z.mul_le_mono_nonneg_r; lia.
  - apply Z.mul_le_mono_nonneg_r; lia.
Qed.

(** A digit that is not the last. *)
Lemma estimate_under K dd dr W A X q : estimate K dd dr W A X →
  q = (K * dd) / (dr + 1) →
  let under := bool_decide (0 < q ∧ (K * dd) mod (dr + 1) < 8) && bool_decide (K = 8) in
  let q := if under then q - 1 else q in
  0 ≤ q ≤ 120 ∧ 0 ≤ A - q * X ∧ 5 * (A - q * X) < 6 * X.
Proof.
  intros He Hq. destruct (est_dd_range _ _ _ _ _ _ He) as [Hdd Hdd2]. destruct He as [HK HW Hdr [Hdd3 Hdd4] HX HX1 HX8 HA].
  set (n := K * dd) in *. assert (0 ≤ n) by (subst n; destruct HK as [-> | ->]; lia).
  assert (A < n * W + 8 * W) as HA8 by (subst n; destruct HK as [-> | ->]; lia).
  pose proof (Z.div_mod n (dr + 1) ltac:(lia)) as Hn. pose proof (Z.mod_pos_bound n (dr + 1) ltac:(lia)) as Hr.
  assert (0 ≤ q ≤ 120) as Hq120.
  { rewrite Hq. split; [apply Z.div_pos; lia|]. enough (n / (dr + 1) < 121) by (generalize dependent (n / (dr + 1)); lia).
    apply Z.div_lt_upper_bound; lia. }
  rewrite <- Hq in Hn. set (r := n mod (dr + 1)) in *. clearbody n r.
  destruct (est_products dr W X q) as (H1 & H2 & H3 & H4); [done..|].
  assert (n * W = q * (dr * W) + q * W + r * W) as HnW by (rewrite Hn at 1; ring).
  assert (r * W ≤ dr * W) by (apply Z.mul_le_mono_nonneg_r; lia). assert (0 ≤ r * W) by (apply Z.mul_nonneg_nonneg; lia).
  intros under. destruct under eqn:Eu; subst under; cbv zeta.
  - apply andb_true_iff in Eu as [[Hq0 H8]%bool_decide_eq_true_1 _].
    assert (r * W ≤ 7 * W) by (apply Z.mul_le_mono_nonneg_r; lia). split; [lia|]. split; lia.
  - split; [lia|]. apply andb_false_iff in Eu as [Eu|Eu]; apply bool_decide_eq_false_1 in Eu.
    + split; [|lia]. destruct (decide (q = 0)) as [->|]; [lia|].
      assert (8 * W ≤ r * W) by (apply Z.mul_le_mono_nonneg_r; lia). lia.
    + assert (K = 1) as HK1 by tauto. specialize (HX1 HK1).
      pose proof (Z.mul_le_mono_nonneg_l X ((dr + 1) * W) q ltac:(lia) ltac:(lia)). split; lia.
Qed.

(** The last digit is one too large, or one too small with [under]. *)
Lemma estimate_last K dd dr W A X q : estimate K dd dr W A X →
  q = (K * (dd + 1)) / dr →
  let under := bool_decide (0 < q ∧ (K * (dd + 1)) mod dr < 8) && bool_decide (K = 8) in
  let q := if under then q - 1 else q in
  0 ≤ q ≤ 120 ∧ (if under then 0 ≤ A - q * X < 2 * X else - X < A - q * X < X).
Proof.
  intros He Hq. destruct (est_dd_range _ _ _ _ _ _ He) as [Hdd Hdd2]. destruct He as [HK HW Hdr [Hdd3 Hdd4] HX HX1 HX8 HA].
  set (n := K * (dd + 1)) in *. assert (0 < n ≤ 120 * dr + 132) by (subst n; destruct HK as [-> | ->]; lia).
  assert (A < n * W ≤ A + 8 * W) as HA8 by (subst n; destruct HK as [-> | ->]; lia).
  pose proof (Z.div_mod n dr ltac:(lia)) as Hn. pose proof (Z.mod_pos_bound n dr ltac:(lia)) as Hr.
  assert (0 ≤ q ≤ 120) as Hq120.
  { rewrite Hq. split; [apply Z.div_pos; lia|]. enough (n / dr < 121) by (generalize dependent (n / dr); lia).
    apply Z.div_lt_upper_bound; lia. }
  rewrite <- Hq in Hn. set (r := n mod dr) in *. clearbody n r.
  destruct (est_products dr W X q) as (H1 & H2 & H3 & H4); [done..|].
  assert (n * W = q * (dr * W) + r * W) as HnW by (rewrite Hn at 1; ring).
  assert (r * W ≤ (dr - 1) * W) by (apply Z.mul_le_mono_nonneg_r; lia). assert (0 ≤ r * W) by (apply Z.mul_nonneg_nonneg; lia).
  intros under. destruct under eqn:Eu; subst under; cbv zeta.
  - apply andb_true_iff in Eu as [[Hq0 H8]%bool_decide_eq_true_1 _].
    assert (r * W ≤ 7 * W) by (apply Z.mul_le_mono_nonneg_r; lia). split; [lia|]. split; lia.
  - split; [lia|]. split; lia.
Qed.

(** ** A multiple of the divisor *)

Lemma mulnto_loop_ok k carry b s done rest bd sd ds i fuel : (length rest < fuel)%nat →
  Forall dig rest → 0 ≤ k ≤ 120 → 0 ≤ carry ≤ 120 →
  ∃ vs carry', mulnto_loop fuel k carry (mkNum b s (done ++ rest) (length done)) (mkNum bd sd ds i) =
    Some (mkNum b s (done ++ rest) (length (done ++ rest)), mkNum bd sd (ds ++ vs) i, carry') ∧
  Forall dig vs ∧ length vs = length rest ∧ 0 ≤ carry' ≤ 120 ∧
  value vs + 100 ^ Z.of_nat (length rest) * carry' = k * value rest + carry.
Proof.
  intros Hf Hd. revert carry done ds fuel Hf.
  induction Hd as [|d rest Hd _ IH]; intros carry done ds [|fuel] Hf Hk Hc; simpl in Hf; try lia; cbn [mulnto_loop].
  - rewrite app_nil_r, more_end. exists [], carry. rewrite app_nil_r. split_and!; try done; simpl; lia.
  - rewrite more_at, peek_at, bind_some, next_at, wrdigit_at. unfold dig in Hd. cbv zeta. set (p := d * k + carry).
    assert (0 ≤ p ≤ 12000) by (subst p; nia). rewrite Z.quot_div_nonneg, Z.rem_mod_nonneg by lia.
    pose proof (Z.mod_pos_bound p 100 ltac:(lia)). rewrite schar_id by lia.
    destruct (IH (p / 100) (done ++ [d]) (ds ++ [p mod 100]) fuel) as (vs & c' & -> & Hvs & Hl & Hc' & Hv); [lia|lia|dlia|].
    exists (p mod 100 :: vs), c'. rewrite <- !app_assoc. split_and!; [done|by constructor|simpl; lia|lia|lia|].
    cbn [length]. rewrite Nat2Z.inj_succ, Z.pow_succ_r by lia.
    change (value (p mod 100 :: vs)) with (p mod 100 + 100 * value vs). change (value (d :: rest)) with (d + 100 * value rest).
    pose proof (Z.div_mod p 100 ltac:(lia)). lia.
Qed.

Lemma mulnto_ok src dst k : Forall dig (nbuf src) → 0 ≤ k ≤ 120 →
  ∃ src' acc, mulnto src dst k = Some (src', acc) ∧ nbuf src' = nbuf src ∧ nscale src' = nscale src ∧
  value (nbuf acc) = k * value (nbuf src) ∧ (length (nbuf acc) ≤ S (length (nbuf src)))%nat ∧
  Forall dig (take (length (nbuf src)) (nbuf acc)) ∧ Forall (λ d, 0 ≤ d ≤ 120) (nbuf acc).
Proof.
  intros Hd Hk. unfold mulnto. change (numtrunc (first dst)) with (numtrunc (mkNum false (nscale dst) ([] ++ nbuf dst) (length (@nil Z)))).
  rewrite numtrunc_at, bind_some.
  destruct (mulnto_loop_ok k 0 false (nscale src) [] (nbuf src) false (nscale dst) [] 0 (S (length_ src)))
    as (vs & c & E & Hvs & Hl & Hc & Hv); [unfold length_; lia|done|done|lia|].
  change (mkNum false (nscale src) ([] ++ nbuf src) (length [])) with (first src) in E.
  change (pred (length (@nil Z))) with 0%nat. rewrite E, bind_some. eexists _, _. split; [done|]. split; [done|]. split; [done|].
  assert (Forall (λ d, 0 ≤ d ≤ 120) vs) by (eapply Forall_impl; [exact Hvs|]; unfold dig; lia).
  case_decide as H0.
  - rewrite wrdigit_at, schar_id by lia. cbn [nbuf app]. rewrite value_snoc, Hl, length_app. split_and!; [lia|simpl; lia| |].
    + by rewrite <- Hl, take_app_length.
    + apply Forall_app. split; [done|]. by apply Forall_singleton.
  - cbn [nbuf app]. split_and!; [nia|lia|by apply Forall_take|done].
Qed.

(** ** Subtracting it *)

(** The digits below the top. *)
Lemma divsub_low c b s done lo rest ba sa da al fuel : Forall dig lo → Forall dig (take (length lo) al) → 0 ≤ c ≤ 1 →
  ∃ lo' c' da', da' ++ drop (length lo) al = da ++ al ∧
  divsub (length lo + fuel) c (mkNum b s (done ++ lo ++ rest) (length done)) (mkNum ba sa (da ++ al) (length da)) =
  divsub fuel c' (mkNum b s ((done ++ lo') ++ rest) (length (done ++ lo'))) (mkNum ba sa (da' ++ drop (length lo) al) (length da')) ∧
  Forall dig lo' ∧ length lo' = length lo ∧ 0 ≤ c' ≤ 1 ∧
  value lo' - 100 ^ Z.of_nat (length lo) * c' = value lo - value (take (length lo) al) - c.
Proof.
  intros Hlo. revert c done da al. induction Hlo as [|d lo Hd _ IH]; intros c done da al Hal Hc.
  { exists [], c, da. rewrite app_nil_r. split_and!; try done; simpl; lia. }
  cbn [length Nat.add divsub]. simpl app. rewrite more_at, peek_at, bind_some.
  destruct (read_digit_ok ba sa da al) as (da1 & Ea & Ra). unfold read_digit in Ra. rewrite Ra, bind_some.
  assert (dig (hd 0 al) ∧ Forall dig (take (length lo) (tail al))) as [Ha Hal'].
  { destruct al as [|a al]; simpl in *; [rewrite take_nil; split; [unfold dig; lia|constructor]|].
    by apply Forall_cons in Hal. }
  set (u := d - hd 0 al - c) in *.
  assert (∃ v c1, (if decide (u < 0) then (u + 100, 1) else (u, 0)) = (v, c1) ∧ dig v ∧ 0 ≤ c1 ≤ 1 ∧ v - 100 * c1 = u)
    as (v & c1 & -> & Hv & Hc1 & Hu).
  { unfold dig in *. case_decide; eexists _, _; (split; [done|]); lia. }
  rewrite poke_at, bind_some, schar_id by (unfold dig in Hv; lia). rewrite next_at.
  destruct (IH c1 (done ++ [v]) da1 (tail al) Hal' Hc1) as (lo' & c' & da' & Eda & E & Hlo' & Hl & Hc' & Hval).
  exists (v :: lo'), c', da'. assert (drop (S (length lo)) al = drop (length lo) (tail al)) as -> by (destruct al; [simpl; by rewrite drop_nil|done]).
  split_and!; [by rewrite Eda, Ea| |by constructor|simpl; lia|lia|lia|].
  - rewrite E, <- !app_assoc. done.
  - rewrite Nat2Z.inj_succ, Z.pow_succ_r by lia. assert (value (take (S (length lo)) al) = hd 0 al + 100 * value (take (length lo) (tail al))) as ->.
    { destruct al; [simpl; by rewrite take_nil|done]. }
    change (value (v :: lo')) with (v + 100 * value lo'). change (value (d :: lo)) with (d + 100 * value lo). subst u. lia.
Qed.

(** [u] is what the top digit would be. *)
Lemma divsub_ok b s done lo t acc : Forall dig lo → 0 ≤ t ≤ 120 →
  Forall dig (take (length lo) (nbuf acc)) → Forall (λ d, 0 ≤ d ≤ 120) (nbuf acc) → (length (nbuf acc) ≤ S (length lo))%nat →
  ∃ lo' u acc', Forall dig lo' ∧ length lo' = length lo ∧
  value lo' + 100 ^ Z.of_nat (length lo) * u = value (lo ++ [t]) - value (nbuf acc) ∧
  divsub (S (length (done ++ lo ++ [t]))) 0 (mkNum b s (done ++ lo ++ [t]) (length done)) (first acc) =
  let ds := done ++ lo' ++ [schar (if decide (u < 0) then u + 100 else u)] in
  Some (mkNum b s ds (length ds), acc', if decide (u < 0) then 1 else 0).
Proof.
  intros Hlo Ht Hal Hal2 Hlen. destruct acc as [ba sa al ia]. cbn [nbuf] in *.
  change (first (mkNum ba sa al ia)) with (mkNum false sa ([] ++ al) (length (@nil Z))).
  destruct (divsub_low 0 b s done lo [t] false sa [] al (S (S (length done))) Hlo Hal ltac:(lia))
    as (lo' & c & da & Eda & E & Hlo' & Hl & Hc & Hv).
  assert (∃ x, value al = value (take (length lo) al) + 100 ^ Z.of_nat (length lo) * x ∧ hd 0 (drop (length lo) al) = x) as (x & Hx & Hhd).
  { exists (hd 0 (drop (length lo) al)). split; [|done]. rewrite <- (take_drop (length lo) al) at 1. rewrite value_app, length_take.
    destruct (decide (length al ≤ length lo)%nat).
    - rewrite (drop_ge al) by lia. simpl. lia.
    - rewrite Nat.min_l by lia. f_equal. f_equal. assert (length (drop (length lo) al) = 1%nat) as Hd1 by (rewrite length_drop; lia).
      destruct (drop (length lo) al) as [|y [|]]; try done. simpl. lia. }
  destruct (read_digit_ok false sa da (drop (length lo) al)) as (da1 & Ea & Ra). unfold read_digit in Ra.
  exists lo', (t - x - c). eexists. split_and!; [done|done|rewrite value_snoc; lia|].
  replace (S (length (done ++ lo ++ [t]))) with (length lo + S (S (length done)))%nat by (rewrite !length_app; simpl; lia).
  rewrite E. cbn [divsub]. rewrite more_at, peek_at, bind_some.
  rewrite Ra, bind_some, Hhd.
  set (u := t - x - c). destruct (decide (u < 0)).
  all: rewrite poke_at, bind_some, next_at, app_nil_r, more_end, <- app_assoc; done.
Qed.

(** ** Leading digits *)

(** [e] are the first digits of [V], which has [N] more: the top one and [j]
    others; [lo] are the digits not yet read. *)
Definition leads (V : Z) (N : nat) (e : Z) (j : nat) (lo : list Z) : Prop :=
  V * 100 ^ Z.of_nat j = e * 100 ^ Z.of_nat N + value lo * 100 ^ Z.of_nat j ∧
  Forall dig lo ∧ (length lo + j = N ∨ lo = [])%nat.

Lemma leads_start lo t : Forall dig lo → leads (value (lo ++ [t])) (length lo) t 0 lo.
Proof. intros H. split_and!; [rewrite value_snoc; simpl; lia|done|left; lia]. Qed.

Lemma leads_bounds V N e j lo : leads V N e j lo →
  e * 100 ^ Z.of_nat N ≤ V * 100 ^ Z.of_nat j < (e + 1) * 100 ^ Z.of_nat N.
Proof.
  intros (Hv & Hd & Hl). pose proof (value_range lo Hd) as Hr.
  pose proof (Z.pow_pos_nonneg 100 (Z.of_nat j) ltac:(lia) ltac:(lia)) as Hj.
  pose proof (Z.pow_pos_nonneg 100 (Z.of_nat N) ltac:(lia) ltac:(lia)) as HN.
  assert (0 ≤ value lo * 100 ^ Z.of_nat j < 100 ^ Z.of_nat N); [|lia]. split; [apply Z.mul_nonneg_nonneg; lia|].
  destruct Hl as [<- | ->]; [|simpl; lia]. rewrite Nat2Z.inj_add, Z.pow_add_r by lia. apply Z.mul_lt_mono_pos_r; lia.
Qed.

Lemma prev_peek_leads V N e j lo hi b s : leads V N e j lo →
  ∃ x b' lo' hi', prev_peek (mkNum b s (lo ++ hi) (length lo)) = Some (x, mkNum b' s (lo' ++ hi') (length lo')) ∧
  lo' ++ hi' = lo ++ hi ∧ dig x ∧ leads V N (e * 100 + x) (S j) lo'.
Proof.
  intros (Hv & Hd & Hl). unfold leads. rewrite Nat2Z.inj_succ, Z.pow_succ_r by lia.
  destruct lo as [|x lo _] using rev_ind.
  - exists 0, true, [], hi. unfold dig. split_and!; [done|done|lia|lia| |constructor|by right]. simpl in *. lia.
  - apply Forall_app in Hd as [Hd [Hx _]%Forall_cons]. rewrite length_app in Hl |- *. exists x, b, lo, (x :: hi).
    destruct Hl as [Hl|[? ?]%app_nil]; [|done]. simpl in Hl. rewrite <- app_assoc.
    split_and!; [|done|exact Hx| |done|left; lia].
    + unfold prev_peek. cbn [nrp]. rewrite decide_True by (simpl; lia). simpl app.
      replace (length lo + length [x])%nat with (length (lo ++ [x])) by (rewrite length_app; done).
      by rewrite prev_at, peek_at, bind_some.
    + rewrite value_snoc in Hv. assert (100 ^ Z.of_nat N = 100 ^ Z.of_nat (length lo) * 100 ^ Z.of_nat j * 100) as HN.
      { rewrite <- Hl, !Nat2Z.inj_add, !Z.pow_add_r by lia. change (100 ^ Z.of_nat 1) with 100. lia. }
      rewrite HN in *. lia.
Qed.

(** The top digits of the divisor, as [divestimate] takes them. *)
Lemma divestimate_ok divr init t : nbuf divr = init ++ [t] → Forall dig init → 0 < t < 100 →
  ∃ magic dr divr', divestimate (last_ divr) = Some (magic, dr, divr') ∧ nbuf divr' = nbuf divr ∧ nscale divr' = nscale divr ∧
  let K := if magic : bool then 8 else 1 in
  let P := 100 ^ Z.of_nat (S (length init)) in
  let D := K * value (nbuf divr) * 10000 in
  800 ≤ dr ∧ dr * P ≤ D ∧ (K = 1 → D < (dr + 1) * P) ∧ 25 * D < (25 * dr + 26) * P.
Proof.
  intros Hn Hd Ht. destruct divr as [b s ds i]. cbn [nbuf nscale] in *. subst ds. rewrite last_at. unfold divestimate.
  rewrite peek_at, bind_some. cbv zeta.
  destruct (prev_peek_leads _ _ _ _ init [t] false s (leads_start init t Hd)) as (x & b1 & lo1 & hi1 & -> & E1 & Hx & H1).
  rewrite bind_some. pose proof (leads_bounds _ _ _ _ _ H1) as [L1 U1]. change (100 ^ Z.of_nat 1) with 100 in *.
  rewrite Nat2Z.inj_succ, Z.pow_succ_r by lia. set (P := 100 ^ Z.of_nat (length init)) in *. set (D := value (init ++ [t])) in *.
  unfold dig in Hx. case_bool_decide as Hm.
  - destruct (prev_peek_leads _ _ _ _ lo1 hi1 b1 s H1) as (y & b2 & lo2 & hi2 & -> & E2 & Hy & H2).
    rewrite bind_some. pose proof (leads_bounds _ _ _ _ _ H2) as [L2 U2]. change (100 ^ Z.of_nat 2) with 10000 in *.
    unfold dig in Hy. set (e := (t * 100 + x) * 100 + y) in *. rewrite Z.quot_div_nonneg by lia.
    eexists true, _, _. split; [done|]. cbn [nbuf nscale]. split_and!; [by rewrite E2, E1|done| | |done|].
    + dlia.
    + assert (100 * (e * 2 / 25) * P ≤ 8 * e * P) by (apply Z.mul_le_mono_nonneg_r; [subst P; lia|dlia]). lia.
    + assert (8 * (e + 1) * 25 * P ≤ (25 * (e * 2 / 25) + 26) * 100 * P) by (apply Z.mul_le_mono_nonneg_r; [subst P; lia|dlia]). lia.
  - eexists false, _, _. split; [done|]. cbn [nbuf nscale]. split_and!; [by rewrite E1|done|lia|lia|lia|lia].
Qed.

(** ** The loop *)

(** The digit goes into the result. *)
Lemma store_digit res diff hi q : nbuf res = replicate (S diff) 0 ++ hi → nrp res = S diff → 0 ≤ q ≤ 120 →
  ∃ res', poke (prev res) q = Some res' ∧ nbuf res' = replicate diff 0 ++ q :: hi ∧ nrp res' = diff ∧
  value (nbuf res') = value (nbuf res) + q * 100 ^ Z.of_nat diff.
Proof.
  destruct res as [b s ds i]. cbn [nbuf nrp]. intros -> -> Hq. rewrite replicate_S_end, <- app_assoc. simpl app.
  assert (S diff = length (replicate diff 0 ++ [0])) as -> by (rewrite length_app, length_replicate; simpl; lia).
  rewrite prev_at, poke_at, schar_id by lia. eexists. split; [done|]. cbn [nbuf nrp]. rewrite length_replicate. split_and!; [done..|].
  rewrite !value_app, length_replicate. change (value (q :: hi)) with (q + 100 * value hi). change (value (0 :: hi)) with (0 + 100 * value hi). lia.
Qed.

Lemma shorten_ok b s lo t i : shorten (mkNum b s (lo ++ [t]) i) = mkNum b s lo i.
Proof.
  unfold shorten, length_, set, set_field. cbn [nbuf nrp nbegin nscale]. rewrite length_app, Nat.add_1_r. simpl pred. by rewrite take_app_length.
Qed.

(** A top digit 1 moves into the digit below it, which stays small. *)
Lemma top_moves lo u X : Forall dig lo → lo ≠ [] → 0 ≤ value lo + 100 ^ Z.of_nat (length lo) * u →
  5 * (value lo + 100 ^ Z.of_nat (length lo) * u) < 6 * X → X < 100 ^ Z.of_nat (length lo) →
  (u = 0 ∨ u = 1) ∧ ∃ lo' x, lo = lo' ++ [x] ∧ Forall dig lo' ∧ 0 ≤ x + 100 * u ≤ 120 ∧
  value (lo' ++ [x + 100 * u]) = value lo + 100 ^ Z.of_nat (length lo) * u.
Proof.
  intros Hlo Hne H0 H5 HX. pose proof (value_range lo Hlo) as Hr. set (W := 100 ^ Z.of_nat (length lo)) in *.
  assert (u = 0 ∨ u = 1) as Hu by nia. split; [done|].
  destruct lo as [|x lo _] using rev_ind; [done|]. exists lo, x. apply Forall_app in Hlo as [Hlo [Hx _]%Forall_cons].
  rewrite value_snoc in *. rewrite value_snoc. pose proof (value_range lo Hlo) as Hr1.
  assert (W = 100 * 100 ^ Z.of_nat (length lo)) as HW.
  { subst W. rewrite length_app, Nat2Z.inj_add, Z.pow_add_r by lia. change (100 ^ Z.of_nat (length [x])) with 100. lia. }
  rewrite HW in *. clearbody W. unfold dig in Hx. split_and!; [done..| | |lia]; destruct Hu as [-> | ->]; nia.
Qed.

Section divide.
Context (magic : bool) (dr : Z) (Dl : list Z).
Let K := if magic then 8 else 1.
Let P := 100 ^ Z.of_nat (length Dl).
Context (HD : Forall dig Dl) (Hdr : 800 ≤ dr) (Hlow : dr * P ≤ K * value Dl * 10000)
  (Hup1 : K = 1 → K * value Dl * 10000 < (dr + 1) * P)
  (Hup : 25 * (K * value Dl * 10000) < (25 * dr + 26) * P).

Lemma divdigit_ok A diff dd : dd * (P * 100 ^ Z.of_nat diff) ≤ A * 10000 < (dd + 1) * (P * 100 ^ Z.of_nat diff) →
  let X := value Dl * 100 ^ Z.of_nat diff in
  0 ≤ A < 120 * X →
  let '(q, under) := divdigit magic dr diff dd in
  0 ≤ q ≤ 120 ∧
  if decide (diff = 0%nat) then if under then 0 ≤ A - q * X < 2 * X else - X < A - q * X < X
  else 0 ≤ A - q * X ∧ 5 * (A - q * X) < 6 * X.
Proof using Hdr Hlow Hup1 Hup.
  intros Hdd X HA. pose proof (Z.pow_pos_nonneg 100 (Z.of_nat diff) ltac:(lia) ltac:(lia)) as HR.
  assert (0 < P) as HP by (apply Z.pow_pos_nonneg; lia).
  assert (0 < K ≤ 8 ∧ (K = 1 ∨ K = 8)) as [HK HK'] by (subst K; destruct magic; lia).
  set (R := 100 ^ Z.of_nat diff) in *. set (W := P * R) in *.
  assert (estimate K dd dr W (K * A * 10000) (K * X * 10000)) as He.
  { assert (K * X * 10000 = (K * value Dl * 10000) * R) as EX by (subst X; ring). rewrite EX.
    constructor; [done|apply Z.mul_pos_pos; lia|done| | | | |].
    - destruct HK' as [-> | ->]; lia.
    - pose proof (Z.mul_le_mono_nonneg_r _ _ R ltac:(lia) Hlow). subst W. lia.
    - intros E. pose proof (proj1 (Z.mul_lt_mono_pos_r R _ _ HR) (Hup1 E)). subst W. lia.
    - pose proof (proj1 (Z.mul_lt_mono_pos_r R _ _ HR) Hup). subst W. lia.
    - rewrite <- EX. destruct HK' as [-> | ->]; lia. }
  assert (bool_decide (K = 8) = magic) as Em by (subst K; by destruct magic).
  assert (∀ x, (if magic then x * 8 else x) = K * x) as Ek by (intros x; subst K; destruct magic; lia).
  destruct (est_dd_range _ _ _ _ _ _ He) as [Hdd0 _]. unfold divdigit. destruct (decide (diff = 0%nat)) as [H0|H0]; rewrite Ek.
  - pose proof (estimate_last _ _ _ _ _ _ _ He eq_refl) as Hl. cbv zeta in Hl. rewrite Em in Hl.
    rewrite Z.quot_div_nonneg, Z.rem_mod_nonneg by (destruct HK' as [-> | ->]; lia).
    destruct (_ && magic); destruct HK' as [EK|EK]; rewrite EK in *; lia.
  - pose proof (estimate_under _ _ _ _ _ _ _ He eq_refl) as Hl. cbv zeta in Hl. rewrite Em in Hl.
    rewrite Z.quot_div_nonneg, Z.rem_mod_nonneg by (destruct HK' as [-> | ->]; lia).
    destruct (_ && magic); destruct HK' as [EK|EK]; rewrite EK in *; lia.
Qed.

(** What one round does up to the point where the digit is stored: [u] is the
    top digit that is left. *)
Lemma divstep_run diff s lo t : Forall dig lo → 0 ≤ t ≤ 120 → length lo = (length Dl + diff)%nat →
  nbuf (dv_divd s) = lo ++ [t] → nbuf (dv_divr s) = Dl →
  let A := value (lo ++ [t]) in
  let X := value Dl * 100 ^ Z.of_nat diff in
  A < 120 * X →
  ∃ q under lo' u divr acc, 0 ≤ q ≤ 120 ∧
  (if decide (diff = 0%nat) then if under : bool then 0 ≤ A - q * X < 2 * X else - X < A - q * X < X
   else 0 ≤ A - q * X ∧ 5 * (A - q * X) < 6 * X) ∧
  Forall dig lo' ∧ length lo' = length lo ∧ value lo' + 100 ^ Z.of_nat (length lo) * u = A - q * X ∧
  nbuf divr = Dl ∧ nscale divr = nscale (dv_divr s) ∧
  divstep magic dr diff s =
    (res ← poke (prev (dv_res s)) q;
     let divd := mkNum false (nscale (dv_divd s)) (lo' ++ [schar (if decide (u < 0) then u + 100 else u)]) (length lo) in
     d ← peek divd;
     divd ← (if decide (d ≠ 0 ∧ diff ≠ 0%nat) then let divd := prev divd in d ← peek divd; poke divd (d + 100) else Some divd);
     Some (mkDivstate (if decide (diff = 0%nat) then divd else shorten divd) divr acc res q under (if decide (u < 0) then 1 else 0))).
Proof using HD Hdr Hlow Hup1 Hup.
  intros Hlo Ht Hlen Hdivd Hdivr A X HA. destruct s as [divd divr acc res q0 un0 c0]. cbn [dv_divd dv_divr dv_res] in *.
  destruct divd as [b sc ds i]. cbn [nbuf nscale] in *. subst ds. unfold divstep. cbn [dv_divd dv_divr dv_acc dv_res]. rewrite last_at, peek_at, bind_some.
  destruct (prev_peek_leads _ _ _ _ lo [t] false sc (leads_start lo t Hlo)) as (x & b1 & lo1 & hi1 & -> & E1 & _ & H1). rewrite bind_some.
  destruct (prev_peek_leads _ _ _ _ lo1 hi1 b1 sc H1) as (y & b2 & lo2 & hi2 & -> & E2 & _ & H2). rewrite bind_some.
  pose proof (leads_bounds _ _ _ _ _ H2) as Hdd. change (100 ^ Z.of_nat 2) with 10000 in Hdd.
  rewrite Hlen, Nat2Z.inj_add, Z.pow_add_r in Hdd by lia. fold P A in Hdd.
  assert (0 ≤ A) as HA0 by (subst A; rewrite value_snoc; pose proof (value_range lo Hlo); lia).
  pose proof (divdigit_ok A diff _ Hdd (conj HA0 HA)) as Hq. destruct (divdigit _ _ _ _) as [q under]. destruct Hq as [Hq Hrem].
  destruct (mulnto_ok divr acc q) as (divr' & acc' & -> & Hb & Hs & Hv & Hl & Ht1 & Ht2); [by rewrite Hdivr|done|]. rewrite bind_some.
  rewrite E2, E1. unfold length_. cbn [nbuf]. rewrite Hdivr in *.
  assert (∃ done mid, lo = done ++ mid ∧ length done = diff ∧ length mid = length Dl) as (done & mid & -> & Hdone & Hmid).
  { exists (take diff lo), (drop diff lo). rewrite take_drop, length_take, length_drop. split_and!; [done|lia|lia]. }
  apply Forall_app in Hlo as [Hdone1 Hmid1]. rewrite <- app_assoc.
  destruct (divsub_ok b2 sc done mid t acc') as (mid' & u & acc2 & Hd' & Hl' & Hval & E); [done|done|by rewrite Hmid|done|by rewrite Hmid|].
  unfold seek, set, set_field. cbn [nbuf nrp nbegin nscale]. rewrite Nat2Z.id, <- Hdone, E. cbv zeta. rewrite bind_some.
  exists q, under, (done ++ mid'), u, divr', acc2. split_and!; [lia|lia|by rewrite Hdone|by apply Forall_app| | |done|done|].
  - rewrite !length_app. lia.
  - rewrite !value_app, length_app, Nat2Z.inj_add, Z.pow_add_r by lia. subst A X. rewrite <- app_assoc, value_app.
    rewrite Hdone in *. rewrite Hv in Hval. nia.
  - rewrite app_assoc, last_at, Hdone. by replace (length (done ++ mid')) with (length (done ++ mid)) by (rewrite !length_app; lia).
Qed.

(** Before the round for [diff]: what is left of the dividend and the digits
    found make up the dividend [A0]. *)
Record div_inv (A0 scr scd : Z) (m diff : nat) (s : divstate) : Prop := {
  di_divr : nbuf (dv_divr s) = Dl;
  di_scr : nscale (dv_divr s) = scr;
  di_divd : ∃ lo t, nbuf (dv_divd s) = lo ++ [t] ∧ Forall dig lo ∧ 0 ≤ t ≤ 120 ∧ length lo = (length Dl + diff)%nat;
  di_lt : value (nbuf (dv_divd s)) < 120 * (value Dl * 100 ^ Z.of_nat diff);
  di_scd : nscale (dv_divd s) = scd;
  di_res : ∃ hi, nbuf (dv_res s) = replicate (S diff) 0 ++ hi ∧ nrp (dv_res s) = S diff ∧
                 Forall (λ d, 0 ≤ d ≤ 120) hi ∧ (S diff + length hi = m)%nat;
  di_val : value (nbuf (dv_res s)) * value Dl + value (nbuf (dv_divd s)) = A0;
}.

Lemma divisor_range : 0 ≤ value Dl < P.
Proof using HD. apply value_range, HD. Qed.

Lemma divstep_next A0 scr scd m diff s : div_inv A0 scr scd m (S diff) s →
  ∃ s', divstep magic dr (S diff) s = Some s' ∧ div_inv A0 scr scd m diff s'.
Proof using HD Hdr Hlow Hup1 Hup.
  intros [Hdivr Hscr (lo & t & Hdivd & Hlo & Ht & Hlen) Hlt Hscd (hi & Hres & Hrp & Hhi & Hm) Hval].
  rewrite Hdivd in Hlt, Hval.
  destruct (divstep_run (S diff) s lo t Hlo Ht Hlen Hdivd Hdivr Hlt)
    as (q & under & lo' & u & divr' & acc' & Hq & [Hge H5] & Hlo' & Hl' & Hv & Hb' & Hs' & ->).
  destruct (store_digit (dv_res s) (S diff) hi q Hres Hrp Hq) as (res' & -> & Hres' & Hrp' & Hvr). rewrite bind_some. cbv zeta.
  rewrite <- Hv, <- Hl' in H5, Hge. pose proof divisor_range as HDr.
  set (R := 100 ^ Z.of_nat (S diff)) in *. assert (0 < R) as HR by (apply Z.pow_pos_nonneg; lia).
  assert (value Dl * R < 100 ^ Z.of_nat (length lo')) as HX.
  { rewrite Hl', Hlen, Nat2Z.inj_add, Z.pow_add_r by lia. apply Z.mul_lt_mono_pos_r; [done|apply HDr]. }
  destruct (top_moves lo' u _ Hlo' ltac:(intros ->; simpl in *; lia) Hge H5 HX) as (Hu & lo2 & x & -> & Hlo2 & Hx & Hv2).
  rewrite <- Hl', peek_at, bind_some.
  assert (schar (if decide (u < 0) then u + 100 else u) = u) as -> by (destruct Hu as [-> | ->]; done).
  assert ((if decide (u ≠ 0 ∧ S diff ≠ 0%nat) then
             d ← peek (prev (mkNum false (nscale (dv_divd s)) ((lo2 ++ [x]) ++ [u]) (length (lo2 ++ [x]))));
             poke (prev (mkNum false (nscale (dv_divd s)) ((lo2 ++ [x]) ++ [u]) (length (lo2 ++ [x])))) (d + 100)
           else Some (mkNum false (nscale (dv_divd s)) ((lo2 ++ [x]) ++ [u]) (length (lo2 ++ [x])))) =
          Some (mkNum false (nscale (dv_divd s)) ((lo2 ++ [x + 100 * u]) ++ [u]) (if decide (u = 0) then S (length lo2) else length lo2))) as ->.
  { destruct Hu as [-> | ->].
    - rewrite decide_False, Z.mul_0_r, Z.add_0_r, length_app, Nat.add_1_r by lia. done.
    - rewrite decide_True by lia. rewrite <- app_assoc. simpl app. rewrite prev_at, peek_at, bind_some, poke_at, schar_id, <- app_assoc by lia. done. }
  rewrite bind_some, shorten_ok, (decide_False (P := S diff = 0%nat)) by lia. eexists. split; [done|].
  constructor; cbn [dv_divr dv_divd dv_res nbuf nscale]; [done|by rewrite Hs'| | |done| |].
  - exists lo2, (x + 100 * u). split_and!; [done..|lia|lia|]. rewrite length_app in Hl'. simpl in Hl'. lia.
  - rewrite Hv2. subst R. rewrite Nat2Z.inj_succ, Z.pow_succ_r in H5 by lia. lia.
  - exists (q :: hi). split_and!; [done|done| |simpl; lia]. by constructor.
  - rewrite Hvr, Hv2, <- Hval, Hl', Hv. subst R. lia.
Qed.

Lemma divloop_ok A0 scr scd m diff s : div_inv A0 scr scd m diff s →
  ∃ s1, div_inv A0 scr scd m 0 s1 ∧ divloop magic dr (S diff) s = divstep magic dr 0 s1.
Proof using HD Hdr Hlow Hup1 Hup.
  revert s. induction diff as [|diff IH]; intros s Hs.
  - exists s. split; [done|]. cbn [divloop]. by destruct (divstep magic dr 0 s).
  - destruct (divstep_next _ _ _ _ _ _ Hs) as (s' & E & Hs'). destruct (IH s' Hs') as (s1 & H1 & E1).
    exists s1. split; [done|]. remember (S diff) as k. cbn [divloop]. subst k. by rewrite E, bind_some.
Qed.

(** After the last round: [u] tells whether the digit was too large. *)
Record div_last (A0 sc : Z) (m : nat) (s : divstate) : Prop := {
  dl_divr : nbuf (dv_divr s) = Dl;
  dl_scr : nscale (dv_divr s) = sc;
  dl_divd : ∃ lo u i, dv_divd s = mkNum false sc (lo ++ [if decide (u < 0) then 99 else u]) (length lo) ∧
    Forall dig lo ∧ length lo = length Dl ∧ dv_carry s = (if decide (u < 0) then 1 else 0) ∧
    (if dv_under s then 0 ≤ value lo + P * u < 2 * value Dl ∧ 0 ≤ u ≤ 1
     else - value Dl < value lo + P * u < value Dl ∧ -1 ≤ u ≤ 0 ∧ (u = -1 → 1 ≤ dv_q s)) ∧
    ∃ b hi, dv_res s = mkNum b i (dv_q s :: hi) 0 ∧ 0 ≤ dv_q s ≤ 120 ∧ Forall (λ d, 0 ≤ d ≤ 120) hi ∧ S (length hi) = m ∧
    value (dv_q s :: hi) * value Dl + (value lo + P * u) = A0;
}.

Lemma divstep_last A0 sc m s : div_inv A0 sc sc m 0 s →
  ∃ s', divstep magic dr 0 s = Some s' ∧ div_last A0 sc m s'.
Proof using HD Hdr Hlow Hup1 Hup.
  intros [Hdivr Hscr (lo & t & Hdivd & Hlo & Ht & Hlen) Hlt Hscd (hi & Hres & Hrp & Hhi & Hm) Hval].
  rewrite Hdivd in Hlt, Hval.
  destruct (divstep_run 0 s lo t Hlo Ht Hlen Hdivd Hdivr Hlt)
    as (q & under & lo' & u & divr' & acc' & Hq & Hrem & Hlo' & Hl' & Hv & Hb' & Hs' & ->).
  destruct (store_digit (dv_res s) 0 hi q Hres Hrp Hq) as (res' & -> & Hres' & Hrp' & Hvr). rewrite bind_some. cbv zeta.
  rewrite decide_True in Hrem by done. rewrite <- Hl', peek_at, bind_some.
  change (100 ^ Z.of_nat 0) with 1 in *. rewrite Z.mul_1_r in *. rewrite Nat.add_0_r in Hlen. rewrite Hlen in Hv. fold P in Hv.
  pose proof divisor_range as HDr. pose proof (value_range lo' Hlo') as Hr. rewrite Hl', Hlen in Hr. fold P in Hr.
  rewrite (decide_False (P := _ ∧ 0%nat ≠ 0%nat)) by (intros [_ ?]; done). rewrite bind_some. eexists. split; [done|].
  assert (-1 ≤ u ≤ 1) as Hu by (destruct under; nia).
  assert (schar (if decide (u < 0) then u + 100 else u) = if decide (u < 0) then 99 else u) as ->.
  { destruct (decide (u < 0)); [assert (u = -1) as -> by lia; done|apply schar_id; lia]. }
  constructor; cbn [dv_divr dv_divd dv_res dv_under dv_carry dv_q]; [done|by rewrite Hs'|].
  exists lo', u, (nscale res'). split_and!; [by rewrite Hscd|done|by rewrite Hl'|done| |].
  - rewrite Hv. pose proof (value_range lo Hlo). destruct under; split; [lia|nia|lia|]. split; [nia|]. intros Hu1.
    rewrite value_snoc in Hv, Hrem. assert (0 ≤ value lo + 100 ^ Z.of_nat (length lo) * t) by nia. destruct (decide (q = 0)); [|lia]. subst q. lia.
  - destruct res' as [b' sr dsr ir]. cbn [nbuf nrp nscale] in *. subst. exists b', hi. split_and!; [done|lia|lia|done|done|].
    change (replicate 0 0 ++ q :: hi) with (q :: hi) in Hvr. rewrite Hvr, Hv. lia.
Qed.
End divide.

(** ** The last digit *)

Lemma align_same a b : nscale a = nscale b → align a b = Some (a, b).
Proof. intros E. unfold align. cbv zeta. by rewrite decide_True by lia. Qed.

Lemma dig_wide ds : Forall dig ds → Forall (λ d, -10 ≤ d < 100) ds.
Proof. intros H. eapply Forall_impl; [exact H|]. unfold dig. lia. Qed.

(** The quotient digits before the final carry. *)
Definition quotient (A0 D : Z) (m : nat) (divd res : num) : Prop :=
  Forall dig (nbuf divd) ∧ (nbuf divd = [] → nrp divd = 0%nat) ∧ 0 ≤ value (nbuf divd) < D ∧
  Forall (λ d, 0 ≤ d ≤ 121) (nbuf res) ∧ length (nbuf res) = m ∧
  value (nbuf res) * D + value (nbuf divd) = A0.

Lemma divadjust_ok Dl A0 sc m s : canon Dl → 0 < value Dl → div_last Dl A0 sc m s →
  ∃ divd res, divadjust s = Some (divd, res) ∧ quotient A0 (value Dl) m divd res.
Proof.
  intros HDl Hpos [Hdivr Hscr (lo & u & i & Hdivd & Hlo & Hlen & Hc & Hu & b & hi & Hres & Hq & Hhi & Hm & Hval)].
  destruct (canon_dig _ HDl ltac:(lia)) as [HD _]. pose proof (value_range Dl HD) as HDr.
  pose proof (value_range lo Hlo) as Hlor. rewrite Hlen in Hlor. unfold divadjust. rewrite Hc. destruct (dv_under s).
  - destruct Hu as [Hr Hu]. rewrite decide_False in Hdivd by lia. rewrite (decide_False (P := u < 0)) by lia.
    unfold subnum. destruct (chsign_ok (copy (dv_divr s))) as (tmp & Et & Ht & Hvt & Hst); [cbn; by rewrite Hdivr|].
    cbn [copy nbuf nscale] in Hvt, Hst. rewrite Hdivr in Hvt.
    assert (Forall dig (lo ++ [u])) as Hlou by (apply Forall_app; split; [done|]; apply Forall_singleton; unfold dig; lia).
    assert (align (dv_divd s) tmp = Some (dv_divd s, tmp)) as Eal by (apply align_same; rewrite Hst, Hscr, Hdivd; done).
    destruct (addnum_aligned (dv_divd s) tmp (dv_divd s) tmp Eal) as (p & Ep & Hp & Hvp & _ & Hrp).
    { rewrite Hdivd. by apply dig_wide. }
    { eapply Forall_impl; [exact (canon_digits _ Ht)|]. simpl. lia. }
    rewrite Et, !bind_some, Ep, bind_some, negative_ok, bind_some by done.
    assert (value (nbuf (dv_divd s)) = value lo + 100 ^ Z.of_nat (length Dl) * u) as Hvd.
    { rewrite Hdivd. cbn. by rewrite value_snoc, Hlen. }
    case_bool_decide as Hneg.
    + rewrite Eal, !bind_some. rewrite decide_False by lia. eexists _, _. split; [done|]. unfold quotient, set, set_field. cbn [nbuf].
      rewrite Hvd, Hres, Hdivd. cbn [nbuf]. split_and!; [done|by intros [_ ?]%app_nil|lia|lia| |done|done].
      constructor; [lia|]. eapply Forall_impl; [exact Hhi|]. simpl. lia.
    + rewrite Hres. change (mkNum b i (dv_q s :: hi) 0) with (mkNum b i ([] ++ dv_q s :: hi) (length (@nil Z))).
      rewrite poke_at, !bind_some, schar_id by lia. rewrite decide_False by lia. eexists _, _. split; [done|].
      unfold quotient. cbn [nbuf app]. rewrite nbuf_last, Hvp. change (value (dv_q s + 1 :: hi)) with (dv_q s + 1 + 100 * value hi).
      change (value (dv_q s :: hi)) with (dv_q s + 100 * value hi) in Hval.
      split_and!; [apply (canon_dig _ Hp); lia|by intros E0; unfold last_; rewrite decide_True by done; apply Hrp|lia|lia| |done|lia].
      constructor; [lia|]. eapply Forall_impl; [exact Hhi|]. simpl. lia.
  - destruct Hu as (Hr & Hu & Hq1). rewrite bind_some. destruct (decide (u < 0)) as [Hlt|Hge].
    + assert (u = -1) as -> by lia. rewrite decide_True by lia.
      rewrite Hres. change (mkNum b i (dv_q s :: hi) 0) with (mkNum b i ([] ++ dv_q s :: hi) (length (@nil Z))).
      rewrite poke_at, bind_some, schar_id by lia. rewrite Hdivd, poke_at, bind_some. change (schar (-1)) with (-1).
      destruct (addnum_aligned (dv_divr s) (mkNum false sc (lo ++ [-1]) (length lo)) _ _ (align_same _ (mkNum false sc (lo ++ [-1]) (length lo)) Hscr))
        as (p & -> & Hp & Hvp & _ & Hrp).
      { rewrite Hdivr. by apply dig_wide. }
      { apply Forall_app. split; [by apply dig_wide|]. apply Forall_singleton. lia. }
      rewrite bind_some. eexists _, _. split; [done|]. unfold quotient. cbn [nbuf app] in *. rewrite value_snoc, Hlen, Hdivr in Hvp.
      change (value (dv_q s - 1 :: hi)) with (dv_q s - 1 + 100 * value hi).
      change (value (dv_q s :: hi)) with (dv_q s + 100 * value hi) in Hval.
      split_and!; [apply (canon_dig _ Hp); lia|done|lia|lia| |done|lia].
      constructor; [lia|]. eapply Forall_impl; [exact Hhi|]. simpl. lia.
    + assert (u = 0) as -> by lia. rewrite decide_False by lia. eexists _, _. split; [done|]. unfold quotient. rewrite Hres, Hdivd. cbn [nbuf].
      rewrite value_snoc. split_and!; [|by intros [_ ?]%app_nil|lia|lia| |done|lia].
      * apply Forall_app. split; [done|]. apply Forall_singleton. unfold dig. lia.
      * constructor; [lia|]. eapply Forall_impl; [exact Hhi|]. simpl. lia.
Qed.

(** ** Without signs *)

Lemma carry_digits ds : Forall (λ d, 0 ≤ d ≤ 121) ds → value ds < 100 ^ Z.of_nat (length ds) →
  let '(vs, _) := carry_map (λ d carry, let d := d + carry in if decide (100 ≤ d) then (d - 100, 1) else (d, 0)) 0 ds in
  Forall dig vs ∧ value vs = value ds.
Proof.
  intros Hds Hlt. rewrite Forall_forall in Hds. set (f := λ d carry, _).
  assert (∀ d c, d ∈ ds → 0 ≤ c ≤ 1 → let '(v, c') := f d c in (schar v + 100 * c' = 1 * d + c ∧ 0 ≤ c' ≤ 1) ∧ dig (schar v)) as Hf.
  { intros d c Hd%Hds Hc. unfold f, dig. case_decide; rewrite schar_id by lia; lia. }
  pose proof (carry_map_value f 1 id (λ c, 0 ≤ c ≤ 1) 0 ds) as Hv.
  pose proof (length_carry_map f 0 ds) as Hl.
  pose proof (carry_map_forall f (λ c, 0 ≤ c ≤ 1) dig 0 ds) as Hfa.
  destruct (carry_map f 0 ds) as [vs c]. simpl in Hl. unfold id in Hv.
  destruct Hfa as [Hvs _]; [|lia|].
  { intros d c0 Hd Hc0. specialize (Hf d c0 Hd Hc0). destruct (f d c0). tauto. }
  destruct Hv as [Hv Hc]; [|lia|].
  { intros d c0 Hd Hc0. specialize (Hf d c0 Hd Hc0). destruct (f d c0). tauto. }
  split; [done|]. pose proof (value_range vs Hvs). rewrite Hl in *. assert (c = 0) by nia. subst c. lia.
Qed.

Lemma canon_lower ds : canon ds → 0 < value ds → ∃ init t, ds = init ++ [t] ∧ Forall dig init ∧ 0 < t < 100 ∧
  100 ^ Z.of_nat (length init) ≤ value ds.
Proof.
  intros Hc Hpos. destruct (canon_dig _ Hc ltac:(lia)) as [Hd _].
  destruct (canon_sign _ Hc) as [[? _]|[(init & t & -> & Ht & Hv)|(? & _ & ?)]]; [lia| |lia].
  apply Forall_app in Hd as [Hd [Ht' _]%Forall_cons]. exists init, t. unfold dig in Ht'. split_and!; [done|done|lia|lia|lia].
Qed.

(** The rounds and the adjustment, for a divisor whose leading digits are known. *)
Lemma divrounds_ok magic dr A D b sc i divr m : let K := if magic : bool then 8 else 1 in let P := 100 ^ Z.of_nat (length D) in
  800 ≤ dr → dr * P ≤ K * value D * 10000 → (K = 1 → K * value D * 10000 < (dr + 1) * P) →
  25 * (K * value D * 10000) < (25 * dr + 26) * P →
  Forall dig A → canon D → 0 < value D → nbuf divr = D → nscale divr = sc → (length A ≤ m)%nat →
  let diff := Z.of_nat (length A) - Z.of_nat (length D) in
  ∃ s divd' res, divloop magic dr (Z.to_nat (diff + 1))
    (mkDivstate (mkNum b sc (A ++ [0]) i) divr (copy zero) (seek (zeronum m) (diff + 1)) 0 false 0) = Some s ∧
  divadjust s = Some (divd', res) ∧ quotient (value A) (value D) m divd' res.
Proof.
  intros K P Hdr H1 H2 H3 HA HD HD0 Hb Hs Hm diff. pose proof (value_range A HA) as HAr.
  destruct (canon_dig _ HD ltac:(lia)) as [HDd _]. destruct (canon_lower _ HD HD0) as (init & t & HDl & _ & _ & HDge).
  assert (length D = S (length init)) as HlD by (rewrite HDl, length_app; simpl; lia). subst diff.
  destruct (decide (length A < length D)%nat) as [Hlt|Hge].
  - replace (Z.to_nat _) with 0%nat by lia. eexists _, _, _. split; [done|]. cbn [divadjust dv_under dv_carry].
    split; [done|]. unfold quotient, seek, set, set_field. cbn [nbuf zeronum dv_divd dv_res].
    rewrite value_trunc, value_zeros, length_replicate.
    assert (100 ^ Z.of_nat (length A) ≤ 100 ^ Z.of_nat (length init)) by (apply Z.pow_le_mono_r; lia).
    split_and!; [|by intros [_ ?]%app_nil|lia|lia| |done|lia].
    + apply Forall_app. split; [done|]. apply Forall_singleton. unfold dig. lia.
    + apply Forall_replicate. lia.
  - set (k := (length A - length D)%nat). replace (Z.to_nat _) with (S k) by lia.
    replace (Z.of_nat (length A) - Z.of_nat (length D) + 1) with (Z.of_nat (S k)) by lia.
    edestruct (divloop_ok magic dr D HDd Hdr H1 H2 H3 (value A) sc sc m k) as (s1 & Hs1 & ->).
    2: { destruct (divstep_last magic dr D HDd Hdr H1 H2 H3 _ _ _ _ Hs1) as (s2 & -> & Hs2).
         destruct (divadjust_ok D _ sc m s2 HD HD0 Hs2) as (divd' & res & E & Hq). by exists s2, divd', res. }
    constructor; cbn [dv_divr dv_divd dv_res]; unfold seek, set, set_field; cbn [nbuf nscale nrp zeronum]; [done|done| | |done| |].
    + exists A, 0. split_and!; [done|done|lia|lia|lia].
    + rewrite value_trunc. eapply Z.lt_le_trans; [apply HAr|]. replace (length A) with (length init + S k)%nat by lia.
      rewrite Nat2Z.inj_add, Nat2Z.inj_succ, Z.pow_add_r, Z.pow_succ_r by lia.
      pose proof (Z.pow_pos_nonneg 100 (Z.of_nat k) ltac:(lia) ltac:(lia)). nia.
    + exists (replicate (m - S k) 0). rewrite Nat2Z.id, <- replicate_add, length_replicate.
      split_and!; [f_equal; lia|done|apply Forall_replicate; lia|lia].
    + rewrite value_trunc, value_zeros. lia.
Qed.

Lemma value_nonneg ds : Forall (λ d, 0 ≤ d ≤ 121) ds → 0 ≤ value ds.
Proof. induction 1 as [|d l Hd _ IH]; [done|]. change (value (d :: l)) with (d + 100 * value l). lia. Qed.

(** Digits without a sign, as the result of a division. *)
Definition plain (n : num) : Prop := Forall dig (nbuf n) ∧ (nbuf n = [] → nrp n = 0%nat).

(** A dividend and a divisor of the same scale; the result has room for the quotient. *)
Lemma divabs_ok divd divr m : canon (nbuf divd) → 0 ≤ value (nbuf divd) → canon (nbuf divr) → 0 < value (nbuf divr) →
  nscale divd = nscale divr → (length_ divd ≤ m)%nat →
  ∃ divd' res, divabs divd divr (zeronum m) = Some (divd', res) ∧ plain divd' ∧ plain res ∧
  value (nbuf res) = value (nbuf divd) / value (nbuf divr) ∧ value (nbuf divd') = value (nbuf divd) mod value (nbuf divr).
Proof.
  intros HA HA0 HD HD0 Hsc Hm. destruct (canon_dig _ HA HA0) as [HAd _].
  destruct (canon_lower _ HD HD0) as (init & t & HDl & Hinit & Ht & _). unfold divabs, length_ in *.
  destruct (divestimate_ok divr init t HDl Hinit Ht) as (magic & dr & divr' & -> & Hb & Hs & Hdr & H1 & H2 & H3).
  rewrite bind_some.
  assert (length (nbuf divr) = S (length init)) as HlD by (rewrite HDl, length_app; simpl; lia). rewrite <- HlD in H1, H2, H3.
  assert (wrdigit (last_ divd) 0 = mkNum (nbegin (last_ divd)) (nscale divd) (nbuf divd ++ [0]) (nrp (last_ divd))) as ->.
  { rewrite <- (nscale_last divd), <- (nbuf_last divd) at 1. by destruct (last_ divd). }
  rewrite Hsc. destruct (divrounds_ok magic dr (nbuf divd) (nbuf divr) (nbegin (last_ divd)) (nscale divr) (nrp (last_ divd)) divr' m)
    as (s & divd' & res & -> & E & Hd1 & Hrp1 & Hr1 & Hres & Hlen & Hval); [done..|].
  rewrite bind_some, E, bind_some, sweep_digits_ok, bind_some. pose proof (carry_digits _ Hres) as Hc.
  destruct (carry_map _ 0 (nbuf res)) as [vs c]. destruct Hc as [Hvs Hv].
  { rewrite Hlen. pose proof (value_nonneg _ Hres). pose proof (value_range _ HAd).
    eapply Z.le_lt_trans; [|eapply Z.lt_le_trans; [apply (value_range _ HAd)|apply Z.pow_le_mono_r; lia]]. nia. }
  eexists _, _. split; [done|]. unfold plain. cbn [fst snd nbuf nrp]. rewrite Hv. split_and!; [done|done|done|by intros ->| |].
  - apply (Z.div_unique _ _ _ (value (nbuf divd'))); lia.
  - apply (Z.mod_unique _ _ (value (nbuf res))); lia.
Qed.

(** ** With signs *)

(** [chsign] of digits that may have zeros at the top. *)
Lemma chsign_plain n : plain n →
  ∃ n', chsign n = Some n' ∧ loose (nbuf n') ∧ value (nbuf n') = - value (nbuf n) ∧ nscale n' = nscale n ∧ (nbuf n' = [] → nrp n' = 0%nat).
Proof.
  intros [Hd Hrp]. destruct (decide (nbuf n = [])) as [H0|Hne].
  { destruct n as [b s ds i]. cbn [nbuf nrp] in *. subst ds. rewrite (Hrp eq_refl). eexists. split; [done|]. split_and!; [by left|done..]. }
  pose proof (chsign_low _ Hd) as Hlow. pose proof (chsign_value (nbuf n)) as Hv. pose proof (length_carry_map chsign_digit 0 (nbuf n)) as Hl.
  destruct (carry_map chsign_digit 0 (nbuf n)) as [ws c] eqn:E. destruct Hv as [Hv _].
  { eapply Forall_impl; [exact Hd|]. unfold dig. lia. }
  destruct Hlow as [Hws Hc]. simpl in Hl. destruct ws as [|v vs _] using rev_ind; [by destruct (nbuf n)|].
  rewrite (chsign_run n vs v c E). rewrite <- Hl in Hv. destruct Hc as [[-> Hz]|[-> _]].
  - apply Forall_app in Hz as [_ [-> _]%Forall_cons]. apply Forall_app in Hws as [Hvs _]. rewrite value_trunc in Hv.
    rewrite decide_False, decide_True by lia. eexists. split; [done|]. cbn [nbuf nscale nrp]. split_and!; [by apply dig_loose|lia|done|by intros ->].
  - assert (loose (vs ++ [-1])) as Hl1.
    { right. exists vs, (-1). apply Forall_app in Hws as [? _]. split_and!; [done..|lia|lia]. }
    rewrite decide_True by lia. case_decide as H99; (eexists; split; [done|]); cbn [nbuf nscale nrp].
    + subst v. split_and!; [done|rewrite value_borrow; lia|done|by intros [_ ?]%app_nil].
    + split_and!; [|rewrite value_snoc; lia|done|by intros [_ ?]%app_nil]. right. exists (vs ++ [v]), (-1). split_and!; [done..|lia|lia].
Qed.

(** A result gets its sign and its scale and is normalised. *)
Lemma sign_norm (neg : bool) n sc : plain n →
  ∃ n1 n', (if neg then chsign n else Some n) = Some n1 ∧ norm (n1 <| nscale := sc |>) = Some n' ∧ canon (nbuf n') ∧
  value (nbuf n') = (if neg then - value (nbuf n) else value (nbuf n)) ∧ nscale n' = if decide (nbuf n' = []) then 0 else sc.
Proof.
  intros Hp. assert (∃ n1, (if neg then chsign n else Some n) = Some n1 ∧ loose (nbuf n1) ∧
    value (nbuf n1) = (if neg then - value (nbuf n) else value (nbuf n)) ∧ (nbuf n1 = [] → nrp n1 = 0%nat)) as (n1 & E & Hl & Hv & Hr).
  { destruct neg.
    - destruct (chsign_plain n Hp) as (n1 & ? & ? & ? & _ & ?). by exists n1.
    - exists n. destruct Hp. split_and!; [done|by apply dig_loose|done|done]. }
  destruct (norm_ok (mkNum (nbegin n1) sc (nbuf n1) (nrp n1)) Hl Hr) as (n' & En & Hc & Hvn & Hsn & _). exists n1, n'.
  split_and!; [done|exact En|done| |exact Hsn]. rewrite Hvn. exact Hv.
Qed.

Lemma quot_rem_signs a b : b ≠ 0 →
  Z.quot a b = (if xorb (bool_decide (a < 0)) (bool_decide (b < 0)) then - (Z.abs a / Z.abs b) else Z.abs a / Z.abs b) ∧
  Z.rem a b = (if bool_decide (a < 0) then - (Z.abs a mod Z.abs b) else Z.abs a mod Z.abs b).
Proof.
  intros Hb. rewrite <- Z.quot_div_nonneg, <- Z.rem_mod_nonneg by lia.
  repeat case_bool_decide; simpl; rewrite ?(Z.abs_eq a), ?(Z.abs_neq a), ?(Z.abs_eq b), ?(Z.abs_neq b) by lia.
  all: rewrite ?Z.quot_opp_l, ?Z.quot_opp_r, ?Z.rem_opp_l, ?Z.rem_opp_r, ?Z.opp_involutive by lia; done.
Qed.

Lemma divmod_ok a b : canon (nbuf a) → canon (nbuf b) → value (nbuf b) ≠ 0 → nscale a = nscale b →
  ∃ q r, divmod a b = Some (q, r) ∧ canon (nbuf q) ∧ canon (nbuf r) ∧
  value (nbuf q) = Z.quot (value (nbuf a)) (value (nbuf b)) ∧ nscale q = 0 ∧
  value (nbuf r) = Z.rem (value (nbuf a)) (value (nbuf b)) ∧ nscale r = if decide (nbuf r = []) then 0 else nscale a.
Proof.
  intros Ha Hb Hne Hs. unfold divmod. rewrite decide_False by (unfold length_; destruct (nbuf b); done).
  rewrite (negative_ok (copy a) Ha), (negative_ok b Hb), !bind_some. change (nbuf (copy a)) with (nbuf a).
  destruct (abs_ok a (last_ (copy a)) (last_ (copy a))) as (divd & -> & Hcd & Hvd & Hsd & Hld);
    [done|apply (nbuf_last (copy a))|apply (nbuf_last (copy a))|apply (nscale_last (copy a))|apply (nscale_last (copy a))|].
  rewrite !bind_some. destruct (abs_ok b (copy (last_ b)) (last_ b)) as (divr & -> & Hcr & Hvr & Hsr & _);
    [done|apply nbuf_last|apply nbuf_last|apply nscale_last|apply nscale_last|].
  rewrite !bind_some.
  destruct (divabs_ok divd divr (length_ a)) as (d' & res & -> & Hpd & Hpr & Hq & Hr); [done|lia|done|lia|congruence|done|].
  rewrite bind_some. destruct (quot_rem_signs (value (nbuf a)) (value (nbuf b)) Hne) as [Eq Er]. rewrite Hvd, Hvr in Hq, Hr.
  destruct (sign_norm (bool_decide (value (nbuf a) < 0)) d' (nscale a) Hpd) as (d1 & d2 & -> & E2 & Hc2 & Hv2 & Hs2).
  rewrite bind_some.
  destruct (sign_norm (xorb (bool_decide (value (nbuf a) < 0)) (bool_decide (value (nbuf b) < 0))) res (Z.max 0 (nscale a - nscale b)) Hpr)
    as (r1 & r2 & -> & E3 & Hc3 & Hv3 & Hs3).
  rewrite !bind_some, E2, bind_some, E3, bind_some. exists r2, d2.
  split_and!; [done|done|done|by rewrite Hv3, Eq, Hq| |by rewrite Hv2, Er, Hr|done].
  rewrite Hs3, Hs, Z.sub_diag. by case_decide.
Qed.

Lemma absnum_ok n : canon (nbuf n) → ∃ m, absnum n = Some (bool_decide (value (nbuf n) < 0), m) ∧
  canon (nbuf m) ∧ value (nbuf m) = Z.abs (value (nbuf n)) ∧ nscale m = nscale n.
Proof.
  intros Hc. unfold absnum. rewrite (negative_ok n Hc), bind_some.
  destruct (abs_ok n (last_ n) (last_ n)) as (m & -> & Hm & Hv & Hs & _);
    [done|apply nbuf_last|apply nbuf_last|apply nscale_last|apply nscale_last|].
  rewrite bind_some. by exists m.
Qed.

(** At scale 0, operands of one scale reach [divmod] without their signs. *)
Lemma divscale_ok a b : canon (nbuf b) → value (nbuf b) ≠ 0 → nscale a = nscale b → divscale 0 a b = Some (Some (a, b)).
Proof.
  intros Hb Hne Hs. unfold divscale. rewrite decide_False by (unfold length_; destruct (nbuf b); done).
  cbv zeta. rewrite !decide_False by lia. done.
Qed.

Lemma sign_ok (neg : bool) n : canon (nbuf n) →
  ∃ m, (if neg then chsign n else Some n) = Some m ∧ canon (nbuf m) ∧
  value (nbuf m) = (if neg then - value (nbuf n) else value (nbuf n)) ∧ nscale m = nscale n.
Proof. intros Hc. destruct neg; [destruct (chsign_ok n Hc) as (m & ? & ? & ? & ?)|]; eauto. Qed.

(** Division of numbers of one scale. *)
Lemma division_ok a b : canon (nbuf a) → canon (nbuf b) → nscale a = nscale b → value (nbuf b) ≠ 0 →
  (∃ q r, divmod a b = Some (q, r) ∧ canon (nbuf q) ∧ canon (nbuf r) ∧ nscale q = 0 ∧
     value (nbuf q) = Z.quot (value (nbuf a)) (value (nbuf b)) ∧ value (nbuf r) = Z.rem (value (nbuf a)) (value (nbuf b))) ∧
  (∃ q, divnum 0 a b = Some q ∧ canon (nbuf q) ∧ nscale q = 0 ∧ value (nbuf q) = Z.quot (value (nbuf a)) (value (nbuf b))) ∧
  (∃ r, modnum 0 a b = Some r ∧ canon (nbuf r) ∧ value (nbuf r) = Z.rem (value (nbuf a)) (value (nbuf b)) ∧ (nscale a = 0 → nscale r = 0)).
Proof.
  intros Ha Hb Hs Hne. split.
  { destruct (divmod_ok a b Ha Hb Hne Hs) as (q & r & ? & ? & ? & ? & ? & ? & _). by exists q, r. }
  destruct (absnum_ok a Ha) as (a' & Ea & Ha' & Hva & Hsa), (absnum_ok b Hb) as (b' & Eb & Hb' & Hvb & Hsb).
  destruct (divmod_ok a' b') as (q & r & E & Hq & Hr & Hvq & Hsq & Hvr & Hsr); [done|done|lia|congruence|].
  rewrite Hva, Hvb in Hvq, Hvr. rewrite Z.quot_div_nonneg in Hvq by lia. rewrite Z.rem_mod_nonneg in Hvr by lia.
  destruct (quot_rem_signs (value (nbuf a)) (value (nbuf b)) Hne) as [-> ->].
  unfold divnum, modnum. rewrite Ea, Eb, !bind_some, divscale_ok, !bind_some, E, !bind_some by (done || lia || congruence).
  split.
  - destruct (sign_ok (xorb (bool_decide (value (nbuf a) < 0)) (bool_decide (value (nbuf b) < 0))) q Hq) as (m & -> & Hm & Hv & Hsm).
    exists m. rewrite Hv, Hvq. split_and!; [done|done|congruence|done].
  - destruct (sign_ok (bool_decide (value (nbuf a) < 0)) r Hr) as (m & -> & Hm & Hv & Hsm). exists m. rewrite Hv, Hvr.
    split_and!; [done..|]. intros H0. rewrite Hsm, Hsr, Hsa. by case_decide.
Qed.

(** C32: dc's division is exact for canonical operands of one scale, the divisor not zero: the guessed digits
    of [divmod] give the truncated quotient and its remainder, canonical, for
    every sign and length; so do the commands / and % when the scale is 0. *)
Theorem dc_division a b : canon (nbuf a) → canon (nbuf b) → nscale a = nscale b → value (nbuf b) ≠ 0 →
  (∃ q r, divmod a b = Some (q, r) ∧ canon (nbuf q) ∧ canon (nbuf r) ∧ nscale q = 0 ∧
     value (nbuf q) = Z.quot (value (nbuf a)) (value (nbuf b)) ∧ value (nbuf r) = Z.rem (value (nbuf a)) (value (nbuf b))) ∧
  (∃ q, divnum 0 a b = Some q ∧ canon (nbuf q) ∧ nscale q = 0 ∧ value (nbuf q) = Z.quot (value (nbuf a)) (value (nbuf b))) ∧
  (∃ r, modnum 0 a b = Some r ∧ canon (nbuf r) ∧ value (nbuf r) = Z.rem (value (nbuf a)) (value (nbuf b))).
Proof. intros Ha Hb Hs Hne. destruct (division_ok a b Ha Hb Hs Hne) as (? & ? & r & ? & ? & ? & _). eauto 10. Qed.

Lemma dc_division_witness :
  ∃ q, divnum 0 (mkNum false 0 [1; -1] 0) (int_ [7]) = Some q ∧ value (nbuf q) = -14.
Proof.
  destruct (dc_division (mkNum false 0 [1; -1] 0) (int_ [7])) as (_ & (q & E & _ & _ & Hv) & _).
  - right. exists [1], (-1). split_and!; [done| |right; done]. apply Forall_singleton. unfold dig. lia.
  - right. exists [], 7. split_and!; [done|constructor|left; lia].
  - done.
  - done.
  - exists q. split; [exact E|exact Hv].
Defined.
