(* ===== verification/DcIo.v ===== *)
(** * dc: reading and printing numbers, src/cmd/extra/dc.c

    [tonum] reads a number in the input base from the current input line and
    [printnum] prints one in the output base, breaking lines at column 69.  The
    input is the memory from [input->s] on, so what lies behind the terminator
    of a line is visible: [None] is a read outside it, or a loop that has not
    ended within [fuel] rounds. *)

From S2P Require Import Prelude Dc DcDiv.

Local Open Scope Z_scope.

(** "0123456789ABCDEF." without its terminator *)
Definition digits : list Z := [48; 49; 50; 51; 52; 53; 54; 55; 56; 57; 65; 66; 67; 68; 69; 70; 46].

Fixpoint index_of (l : list Z) (ch : Z) : option Z :=
  match l with
  | [] => None
  | c :: l => if decide (c = ch) then Some 0 else i ← index_of l ch; Some (i + 1)
  end.
(** [strchr(digits, ch) - digits]; the terminator belongs to the string. *)
Definition strchr_digits (ch : Z) : option Z := index_of (digits ++ [0]) ch.

(** ** tonum *)

(** The end of the number and its point, as offsets. *)
Fixpoint scan (mem : list Z) (t : nat) (dot : option nat) : option (nat * option nat) :=
  match mem with
  | [] => None
  | ch :: mem =>
      match strchr_digits ch with
      | None => Some (t, dot)
      | Some _ =>
          if decide (ch = 46) then
            match dot with
            | Some _ => Some (t, dot)
            | None => scan mem (S t) (Some t)
            end
          else scan mem (S t) dot
      end
  end.

Definition horner (ibase : Z) (n : num) (chs : list Z) : option num :=
  fold_left (λ o ch, n ← o; d ← strchr_digits ch; n ← muln n ibase; addn n d) chs (Some n).
Definition power (ibase : Z) (k : nat) : option num :=
  Nat.iter k (λ o, n ← o; muln n ibase) (Some (copy one)).

Definition first_digit (n : num) : option Z := if decide (nbuf n = []) then Some 0 else peek (first n).

(** Two decimal digits of the fraction in each round. *)
Fixpoint frac_loop (fuel : nat) (nfrac : Z) (denom numer frac : num) (d : Z) : option (num * Z) :=
  match fuel with
  | O => None
  | S fuel =>
      if decide (nscale frac < nfrac ∨ (0 < length_ numer)%nat) then
        numer ← muln numer 100;
        '(q, rem) ← divmod numer denom;
        d ← first_digit q;
        let frac := wrdigit frac d in
        frac_loop fuel nfrac denom rem (frac <| nscale := nscale frac + 2 |>) d
      else Some (frac, d)
  end.
Definition reverse (n : num) : num := n <| nbuf := rev (nbuf n) |>.

Definition tonum_frac (fuel : nat) (ibase : Z) (chs : list Z) : option num :=
  denom ← power ibase (length chs);
  numer ← horner ibase (copy zero) chs;
  let nfrac := Z.of_nat (length chs) in
  '(frac, d) ← frac_loop fuel nfrac denom numer newnum 0;
  let frac := reverse frac in
  if decide (nfrac < nscale frac ∧ Z.rem d 10 = 0) then
    '(frac, _) ← divn frac 10;
    Some (frac <| nscale := nscale frac - 1 |>)
  else Some frac.

(** The number and where reading goes on. *)
Definition tonum (fuel : nat) (ibase : Z) (mem : list Z) : option (num * nat) :=
  ch ← head mem;
  let sign := bool_decide (ch = 95) in
  let s := if sign then tail mem else mem in
  '(end_, dot) ← scan s 0 None;
  let stop := default end_ dot in
  num ← horner ibase newnum (take stop s);
  num ← norm num;
  num ← match dot with
        | None => Some num
        | Some dot =>
            frac ← tonum_frac fuel ibase (take (end_ - dot - 1) (drop (S dot) s));
            addnum num frac
        end;
  num ← (if sign then chsign num else Some num);
  Some (num, if sign then S end_ else end_).

(** ** printnum *)

Record outbuf := mkOut { o_col : Z; o_text : list Z }.
Definition putchar (ch : Z) (o : outbuf) : outbuf := mkOut (o_col o) (o_text o ++ [ch]).
Definition newline (o : outbuf) : outbuf := mkOut 0 (o_text (putchar 10 (putchar 92 o))).

Definition prchr (ch : Z) (o : outbuf) : outbuf :=
  let o := if decide (69 ≤ o_col o) then newline o else o in
  mkOut (o_col o + 1) (o_text o ++ [ch]).

(** The decimal digits of [d], at least [w], as printf writes [%0*d]. *)
Fixpoint decimal (w : nat) (d : Z) : list Z :=
  match w with
  | O => []
  | S w => decimal w (d / 10) ++ [48 + d mod 10]
  end.
Fixpoint width (fuel : nat) (n : Z) : nat :=
  match fuel with
  | O => 1
  | S fuel => if decide (10 ≤ n) then S (width fuel (Z.quot n 10)) else 1
  end.

Definition printd (d base : Z) (space : bool) (o : outbuf) : option outbuf :=
  if decide (base ≤ 16) then
    ch ← digits !! Z.to_nat d;
    Some (prchr ch o)
  else
    let o := if space then prchr 32 o else o in
    let w := width (Z.to_nat base) (base - 1) in
    let o := if decide (69 < o_col o + Z.of_nat w) then newline o else o in
    Some (mkOut (o_col o + Z.of_nat w) (o_text o ++ decimal w d)).

(** The digits of the integer part, the last one pushed first. *)
Fixpoint int_digits (fuel : nat) (base : Z) (inte : num) (sp : list Z) : option (list Z) :=
  match fuel with
  | O => None
  | S fuel =>
      if decide (length_ inte = 0%nat) then Some sp
      else '(inte, d) ← divn inte base; int_digits fuel base inte (d :: sp)
  end.
Definition print_ints (base : Z) (sp : list Z) (o : outbuf) : option outbuf :=
  fold_left (λ m d, o ← m; printd d base true o) sp (Some o).

Fixpoint print_frac (k : nat) (base : Z) (space : bool) (opow frac : num) (o : outbuf) : option outbuf :=
  match k with
  | O => Some o
  | S k =>
      frac ← muln frac base;
      '(q, rem) ← divmod frac opow;
      d ← first_digit q;
      o ← printd d base space o;
      print_frac k base true opow rem o
  end.

Definition printnum (base : Z) (onum : num) : option (list Z) :=
  let o := mkOut 0 [] in
  if decide (length_ onum = 0%nat) then Some (o_text (prchr 48 o))
  else
    '(sign, num) ← negative (copy onum);
    num ← (if sign : bool then chsign num else Some num);
    let sc := nscale num in
    num ← (if decide (Z.rem (nscale num) 2 = 1) then
             num ← muln num 10; Some (num <| nscale := nscale num + 1 |>)
           else Some num);
    inte ← rshift (copy num) (Z.to_nat (Z.quot (nscale num) 2));
    let inte := inte <| nscale := 0 |> in
    frac ← subnum num inte;
    sp ← int_digits (S (7 * length_ inte)) base inte [];
    let o := if sign : bool then prchr 45 o else o in
    o ← print_ints base sp o;
    if decide (nscale num = 0) then Some (o_text o)
    else
      let o := prchr 46 o in
      opow ← mul10 (copy one) (nscale num);
      o ← print_frac (Z.to_nat sc) base false opow frac o;
      Some (o_text o).

(** ** Examples *)

Definition read (ibase : Z) (mem : list Z) : option (list Z * Z * nat) :=
  '(n, k) ← tonum 20 ibase mem; Some (nbuf n, nscale n, k).

(** "_12.345 " is -12345 at scale 3; "FF " in base 16; printing -12.345. *)
Example read_dec : read 10 [95; 49; 50; 46; 51; 52; 53; 32] = Some ([55; 76; 98; -1], 3, 7%nat).
Proof. vm_compute. reflexivity. Qed.
Example read_hex : read 16 [70; 70; 32] = Some ([55; 2], 0, 2%nat).
Proof. vm_compute. reflexivity. Qed.
Example print_dec : printnum 10 (mkNum false 3 [55; 76; 98; -1] 0) = Some [45; 49; 50; 46; 51; 52; 53].
Proof. vm_compute. reflexivity. Qed.
