(* ===== verification/DcIoFacts.v ===== *)
(** * dc: numbers are read and printed faithfully

    Canonical digits are unique; reading evaluates the digits in the input
    base, reading a decimal fraction is exact, integers of any sign and size are
    printed as their digits in lines of 69 characters, and one that fits a line
    is read back from what is printed.  A fraction in a base that does not
    divide a power of ten keeps [tonum] in its loop for ever, and a number that
    ends a line makes it read past the terminator. *)

From S2P Require Import Prelude Dc DcFacts DcDiv DcDivmod DcIo.

Local Open Scope Z_scope.

(** ** Canonical digits are unique *)

Lemma canon_tail d ds : canon (d :: ds) → ds ≠ [] → dig d ∧ canon ds ∧ (ds = [-1] → d ≠ 99).
Proof.
  intros [?|(init & t & E & Hi & Ht)] Hne; [done|]. destruct init as [|x init]; [by injection E as _ ->|].
  injection E as <- ->. apply Forall_cons in Hi as [Hd Hi]. split_and!; [done| |].
  - right. exists init, t. split_and!; [done|done|]. destruct Ht as [?|[-> Hl]]; [by left|right; split; [done|]].
    intros Hl'. apply Hl. destruct init; [done|exact Hl'].
  - intros E. destruct init as [|? [|? ?]]; [|done..]. injection E as ->. destruct Ht as [?|[_ Hl]]; [lia|]. simpl in Hl. congruence.
Qed.
Lemma canon_single t : canon [t] → 0 < t < 100 ∨ t = -1.
Proof.
  intros [?|(init & t' & E & _ & Ht)]; [done|]. destruct init as [|? [|? ?]]; [|done..]. injection E as ->. tauto.
Qed.
Lemma canon_minus_one ds : canon ds → value ds = -1 → ds = [-1].
Proof.
  induction ds as [|d ds IH]; intros Hc Hv; [done|]. change (value (d :: ds)) with (d + 100 * value ds) in Hv.
  destruct (decide (ds = [])) as [->|Hne]; [simpl in Hv; f_equal; lia|].
  destruct (canon_tail _ _ Hc Hne) as (Hd & Hc' & H99). unfold dig in Hd. specialize (IH Hc' ltac:(lia)). by destruct (H99 IH); lia.
Qed.
Lemma canon_unique a b : canon a → canon b → value a = value b → a = b.
Proof.
  revert b. induction a as [|d a IH]; intros b Ha Hb Hv.
  { destruct b as [|e b]; [done|]. by destruct (canon_nonempty _ Hb). }
  destruct b as [|e b]; [by destruct (canon_nonempty _ Ha)|].
  change (value (d :: a)) with (d + 100 * value a) in Hv. change (value (e :: b)) with (e + 100 * value b) in Hv.
  assert (∀ t x l, canon [t] → canon (x :: l) → l ≠ [] → t ≠ x + 100 * value l) as Hmix.
  { intros t x l Ht Hx Hl E. destruct (canon_tail _ _ Hx Hl) as (Hd & Hc & H99). unfold dig in Hd.
    pose proof (canon_nonempty _ Hc Hl). destruct (canon_single _ Ht) as [?| ->]; [lia|].
    apply (H99 (canon_minus_one l Hc ltac:(lia))). lia. }
  destruct (decide (a = [])) as [->|Hna], (decide (b = [])) as [->|Hnb].
  - f_equal. simpl in Hv. lia.
  - destruct (Hmix d e b Ha Hb Hnb). simpl in Hv. lia.
  - destruct (Hmix e d a Hb Ha Hna). simpl in Hv. lia.
  - destruct (canon_tail _ _ Ha Hna) as (Hd & Hca & _), (canon_tail _ _ Hb Hnb) as (He & Hcb & _). unfold dig in *.
    assert (d = e) as -> by lia. f_equal. apply IH; [done|done|lia].
Qed.

(** ** Digits in a base *)

Lemma addn_loop_ok fuel c b s done rest : (length rest < fuel)%nat → 0 ≤ c < 100 → (c ≠ 0 → (S (length rest) < fuel)%nat) →
  Forall dig rest →
  ∃ ds i, addn_loop fuel c (mkNum b s (done ++ rest) (length done)) = Some (mkNum b s (done ++ ds) i) ∧
  Forall dig ds ∧ value ds = value rest + c ∧ (last rest ≠ Some 0 → last ds ≠ Some 0) ∧ (c = 0 → ds = rest ∧ i = length done).
Proof.
  revert c done rest. induction fuel as [|fuel IH]; intros c done rest Hf Hc Hf2 Hd; [lia|]. cbn [addn_loop].
  case_decide as Hc0.
  { subst c. exists rest, (length done). split_and!; [done|done|lia|done|done]. }
  specialize (Hf2 Hc0). destruct rest as [|d rest].
  - rewrite app_nil_r, more_end, bind_some. rewrite decide_False by lia.
    assert (poke (mkNum b s done (length done)) (0 + c) = Some (mkNum b s (done ++ [c]) (length done))) as ->.
    { unfold poke, length_. cbn [nbuf nrp]. rewrite decide_True, wrdigit_at, schar_id by (done || lia). done. }
    rewrite bind_some. rewrite (next_at b s done c []). destruct (IH 0 (done ++ [c]) []) as (ds & i & E & _ & _ & _ & H0); [simpl in *; lia|lia|done|done|].
    destruct (H0 eq_refl) as [-> ->]. eexists [c], _. split_and!; [by rewrite E, app_nil_r| |simpl; lia|simpl; congruence|done].
    apply Forall_singleton. unfold dig. lia.
  - apply Forall_cons in Hd as [Hd Hrest]. unfold dig in Hd. rewrite more_at, peek_at, bind_some.
    assert (∃ v c', (if decide (100 ≤ d + c) then (d + c - 100, 1) else (d + c, 0)) = (v, c') ∧ dig v ∧ 0 ≤ c' ≤ 1 ∧ v + 100 * c' = d + c)
      as (v & c' & -> & Hv & Hc' & Hvc).
    { unfold dig. case_decide; eexists _, _; (split; [done|]); lia. }
    rewrite poke_at, bind_some, schar_id by (unfold dig in Hv; lia). rewrite next_at. simpl in Hf2.
    destruct (IH c' (done ++ [v]) rest) as (ds & i & E & Hds & Hval & Hl & H0); [lia|lia|lia|done|].
    exists (v :: ds), i. rewrite E, <- app_assoc. split_and!; [done|by constructor| | |done].
    + change (value (v :: ds)) with (v + 100 * value ds). change (value (d :: rest)) with (d + 100 * value rest). lia.
    + intros Hlast. destruct rest as [|r rest].
      * destruct (decide (c' = 0)) as [->|]; [destruct (H0 eq_refl) as [-> _]; simpl; unfold dig in Hv; intros [= ?]; lia|].
        assert (value ds = 1) by (simpl in Hval; lia). destruct ds as [|x ds]; [done|]. apply Hl. done.
      * assert (ds ≠ []) as Hne.
        { intros ->. destruct (decide (c' = 0)) as [->|]; [by destruct (H0 eq_refl)|].
          simpl in Hval. pose proof (value_range (r :: rest) Hrest). simpl in *. lia. }
        destruct ds as [|x ds]; [done|]. apply (Hl Hlast).
Qed.

Lemma addn_ok n v : 0 ≤ v < 100 → canon (nbuf n) → 0 ≤ value (nbuf n) →
  ∃ n', addn n v = Some n' ∧ canon (nbuf n') ∧ value (nbuf n') = value (nbuf n) + v ∧ nscale n' = nscale n ∧ (nbuf n' = [] → nrp n' = 0%nat).
Proof.
  intros Hv Hc Hpos. destruct (canon_dig _ Hc Hpos) as [Hd Hl].
  destruct (addn_loop_ok (S (S (length_ n))) v false (nscale n) [] (nbuf n)) as (ds & i & E & Hds & Hval & Hlast & H0);
    [unfold length_; lia|done|unfold length_; lia|done|].
  exists (mkNum false (nscale n) ds i). split_and!; [exact E|by apply canon_pos; auto|done|done|]. cbn [nbuf nrp]. intros ->.
  destruct (decide (v = 0)) as [->|]; [by destruct (H0 eq_refl)|]. simpl in Hval. lia.
Qed.

Lemma muln_canon n k : 0 < k ≤ 100 → canon (nbuf n) → 0 ≤ value (nbuf n) →
  ∃ n', muln n k = Some n' ∧ canon (nbuf n') ∧ value (nbuf n') = k * value (nbuf n) ∧ nscale n' = nscale n.
Proof.
  intros Hk Hc Hpos. destruct (canon_dig _ Hc Hpos) as [Hd Hl].
  destruct (muln_ok n k ltac:(lia) (canon_loose _ Hc)) as (n' & E & Hv & Hs & _ & Hdig). specialize (Hdig Hd).
  exists n'. split_and!; [done| |done|done]. apply canon_pos; [done|]. rewrite muln_run in E.
  pose proof (length_carry_map (muln_digit k) 0 (nbuf n)) as Hlen. pose proof (muln_low k (nbuf n) ltac:(lia) Hd) as Hlow.
  destruct (carry_map (muln_digit k) 0 (nbuf n)) as [vs c]. destruct Hlow as (_ & _ & Hcr). simpl in *.
  injection E as <-. cbn [nbuf] in *. case_decide as Hc0.
  - rewrite last_snoc, schar_id by lia. congruence.
  - destruct (decide (nbuf n = [])) as [H0|Hne]; [rewrite H0 in *; by destruct vs|].
    destruct (canon_lower (nbuf n) Hc) as (init & t & Hn & _ & _ & Hge).
    { pose proof (canon_nonempty _ Hc Hne). lia. }
    destruct vs as [|v vs _] using rev_ind; [done|]. rewrite last_snoc. intros [= ->]. rewrite value_trunc in Hv.
    apply Forall_app in Hdig as [Hvs _]. pose proof (value_range vs Hvs) as Hr. rewrite Hn, !length_app in Hlen. simpl in Hlen.
    replace (length vs) with (length init) in Hr by lia. nia.
Qed.

(** The value of characters in a base, from a start. *)
Definition chars_value (base : Z) (v : Z) (chs : list Z) : Z :=
  fold_left (λ v ch, v * base + default 0 (strchr_digits ch)) chs v.
Definition digit_char (ch : Z) : Prop := ∃ d, 0 ≤ d < 16 ∧ digits !! Z.to_nat d = Some ch.

Lemma digit_chars d : 0 ≤ d < 16 → ∃ ch, digits !! Z.to_nat d = Some ch ∧ strchr_digits ch = Some d ∧ ch ≠ 46 ∧ ch ≠ 95.
Proof.
  intros Hd. assert (Forall (λ d : nat, ∃ ch, digits !! d = Some ch ∧ strchr_digits ch = Some (Z.of_nat d) ∧ ch ≠ 46 ∧ ch ≠ 95) (seq 0 16)) as H.
  { repeat constructor; eexists; (split; [reflexivity|]); (split; [reflexivity|lia]). }
  rewrite Forall_forall in H. destruct (H (Z.to_nat d)) as (ch & ? & E & ?); [apply elem_of_seq; lia|].
  exists ch. by rewrite E, Z2Nat.id by lia.
Qed.
Lemma digit_char_ok ch : digit_char ch → ∃ d, 0 ≤ d < 16 ∧ strchr_digits ch = Some d ∧ ch ≠ 46 ∧ ch ≠ 95.
Proof.
  intros (d & Hd & E). destruct (digit_chars d Hd) as (ch' & E' & H). rewrite E in E'. injection E' as <-. exists d. tauto.
Qed.

Lemma horner_ok base n chs : 2 ≤ base ≤ 16 → Forall digit_char chs → canon (nbuf n) → 0 ≤ value (nbuf n) → (nbuf n = [] → nrp n = 0%nat) →
  ∃ n', horner base n chs = Some n' ∧ canon (nbuf n') ∧ 0 ≤ value (nbuf n') ∧
  value (nbuf n') = chars_value base (value (nbuf n)) chs ∧ nscale n' = nscale n ∧ (nbuf n' = [] → nrp n' = 0%nat).
Proof.
  intros Hb Hchs. revert n. unfold horner, chars_value. induction Hchs as [|ch chs Hch _ IH]; intros n Hc Hpos Hrp; cbn [fold_left].
  { exists n. by split_and!. }
  destruct (digit_char_ok ch Hch) as (d & Hd & E & _). rewrite bind_some, E, bind_some.
  destruct (muln_canon n base) as (n1 & -> & Hc1 & Hv1 & Hs1); [lia|done|done|]. rewrite bind_some.
  assert (0 ≤ value (nbuf n1)) by (rewrite Hv1; lia).
  destruct (addn_ok n1 d) as (n2 & -> & Hc2 & Hv2 & Hs2 & Hr2); [lia|done|done|].
  destruct (IH n2) as (n' & E' & ? & ? & Hv & Hs & ?); [done|lia|done|]. exists n'. rewrite E'. split_and!; try done.
  - rewrite Hv, Hv2, Hv1. simpl. do 2 f_equal. lia.
  - congruence.
Qed.

Lemma power_ok base k : 2 ≤ base ≤ 16 → ∃ n, power base k = Some n ∧ integer n ∧ value (nbuf n) = base ^ Z.of_nat k.
Proof.
  intros Hb. unfold power. induction k as [|k (n & E & [Hc Hs] & Hv)].
  { exists (copy one). split_and!; [done| |done]. split; [|done]. right. exists [], 1. split_and!; [done|done|left; lia]. }
  rewrite Nat.iter_succ, E, bind_some. pose proof (Z.pow_pos_nonneg base (Z.of_nat k)).
  destruct (muln_canon n base) as (n' & -> & Hc' & Hv' & Hs'); [lia|done|lia|]. exists n'. split_and!; [done|split; [done|congruence]|].
  rewrite Hv', Hv, Nat2Z.inj_succ, Z.pow_succ_r by lia. done.
Qed.

(** ** The fraction *)

Lemma first_digit_ok q : canon (nbuf q) → 0 ≤ value (nbuf q) < 100 → first_digit q = Some (value (nbuf q)).
Proof.
  intros Hc Hv. unfold first_digit. destruct (decide (nbuf q = [])) as [->|Hne]; [done|].
  destruct (nbuf q) as [|d ds] eqn:E; [done|]. rewrite (peek_first q d ds E). f_equal.
  change (value (d :: ds)) with (d + 100 * value ds) in *. destruct (decide (ds = [])) as [->|Hds]; [simpl; lia|].
  destruct (canon_tail d ds Hc Hds) as (Hd & Hc' & _). pose proof (canon_nonempty _ Hc' Hds). unfold dig in Hd. lia.
Qed.

(** One round: the next two decimal digits of [v / D]. *)
Lemma frac_round numer denom D : integer numer → integer denom → value (nbuf denom) = D → 0 ≤ value (nbuf numer) < D →
  ∃ n1 q rem, muln numer 100 = Some n1 ∧ divmod n1 denom = Some (q, rem) ∧
  first_digit q = Some (100 * value (nbuf numer) / D) ∧ integer rem ∧ value (nbuf rem) = (100 * value (nbuf numer)) mod D ∧
  0 ≤ 100 * value (nbuf numer) / D < 100.
Proof.
  intros [Hcn Hsn] [Hcd Hsd] HD Hv. destruct (muln_canon numer 100) as (n1 & E1 & Hc1 & Hv1 & Hs1); [lia|done|lia|].
  destruct (divmod_ok n1 denom) as (q & rem & E & Hcq & Hcr & Hvq & _ & Hvr & Hsr); [done|done|lia|congruence|].
  rewrite Hv1, HD, Z.quot_div_nonneg in Hvq by lia. rewrite Hv1, HD, Z.rem_mod_nonneg in Hvr by lia.
  assert (0 ≤ 100 * value (nbuf numer) / D < 100) as Hr.
  { split; [apply Z.div_pos; lia|apply Z.div_lt_upper_bound; lia]. }
  exists n1, q, rem. split_and!; [done|done|by rewrite first_digit_ok, Hvq by (done || lia)|split; [done|]|done|lia|lia].
  rewrite Hsr, Hs1, Hsn. by case_decide.
Qed.

Lemma value_rev_snoc ds d : value (rev (ds ++ [d])) = d + 100 * value (rev ds).
Proof. by rewrite rev_app_distr. Qed.

(** After [j] rounds the digits are those of [V * 100 ^ j / 10 ^ n]; [r] rounds are left. *)
Lemma frac_loop_ok fuel n V denom numer frac d j r : integer denom → value (nbuf denom) = 10 ^ Z.of_nat n → integer numer →
  (n ≤ 2 * (j + r) ≤ n + 1)%nat → (r < fuel)%nat → 0 ≤ V < 10 ^ Z.of_nat n →
  value (nbuf numer) = (V * 100 ^ Z.of_nat j) mod 10 ^ Z.of_nat n →
  Forall dig (nbuf frac) → value (rev (nbuf frac)) = V * 100 ^ Z.of_nat j / 10 ^ Z.of_nat n → nscale frac = 2 * Z.of_nat j →
  (j ≠ 0%nat → d = value (rev (nbuf frac)) mod 100) →
  ∃ frac' d', frac_loop fuel (Z.of_nat n) denom numer frac d = Some (frac', d') ∧
  Forall dig (nbuf frac') ∧ value (rev (nbuf frac')) = V * 100 ^ Z.of_nat (j + r) / 10 ^ Z.of_nat n ∧ nscale frac' = 2 * Z.of_nat (j + r) ∧
  (nbegin frac' = nbegin frac ∧ nrp frac' = nrp frac) ∧ ((j + r ≠ 0)%nat → d' = value (rev (nbuf frac')) mod 100).
Proof.
  intros Hden HD. revert fuel numer frac d j. set (D := 10 ^ Z.of_nat n) in *.
  assert (0 < D) as HD0 by (apply Z.pow_pos_nonneg; lia).
  induction r as [|r IH]; intros [|fuel] numer frac d j Hnum Hn Hf HV Hvn Hdig Hvf Hsf Hd; try lia; cbn [frac_loop].
  - assert (value (nbuf numer) = 0) as H0.
    { rewrite Hvn. replace (100 ^ Z.of_nat j) with (10 ^ (2 * Z.of_nat j - Z.of_nat n) * D).
      - rewrite Z.mul_assoc. apply Z.mod_mul. lia.
      - subst D. rewrite <- Z.pow_add_r by lia. change 100 with (10 ^ 2). rewrite <- Z.pow_mul_r by lia. f_equal. lia. }
    assert (nbuf numer = []) as H1 by (destruct (decide (nbuf numer = [])); [done|by destruct (canon_nonempty _ (proj1 Hnum))]).
    rewrite decide_False by (unfold length_; rewrite H1; simpl; lia). exists frac, d. rewrite Nat.add_0_r. by split_and!.
  - rewrite decide_True by lia.
    assert (0 ≤ value (nbuf numer) < D) as Hnr by (rewrite Hvn; apply Z.mod_pos_bound; lia).
    destruct (frac_round numer denom D Hnum Hden HD Hnr) as (n1 & q & rem & -> & E2 & E3 & Hrem & Hvr & Hqr).
    rewrite bind_some, E2, bind_some, E3, bind_some. set (x := 100 * value (nbuf numer) / D) in *.
    pose proof (Z.div_mod (V * 100 ^ Z.of_nat j) D ltac:(lia)) as HVj. rewrite <- Hvf, <- Hvn in HVj.
    assert (V * 100 ^ Z.of_nat (S j) = D * (x + 100 * value (rev (nbuf frac))) + value (nbuf rem)) as HVS.
    { rewrite Nat2Z.inj_succ, Z.pow_succ_r, Hvr by lia. pose proof (Z.div_mod (100 * value (nbuf numer)) D ltac:(lia)) as Hx. fold x in Hx. lia. }
    assert (0 ≤ value (nbuf rem) < D) as Hrr by (rewrite Hvr; apply Z.mod_pos_bound; lia).
    destruct frac as [b s ds i]. rewrite wrdigit_at, schar_id by lia. cbn [nbuf nscale nbegin nrp] in *.
    replace (j + S r)%nat with (S j + r)%nat by lia. unfold set, set_field. cbn [nbuf nscale nbegin nrp].
    apply (IH fuel rem (mkNum b (s + 2) (ds ++ [x]) i) x (S j)); cbn [nbuf nscale]; [done|lia|lia|done| | | |lia|].
    + apply (Z.mod_unique _ _ (x + 100 * value (rev ds))); lia.
    + apply Forall_app. split; [done|]. apply Forall_singleton. exact Hqr.
    + rewrite value_rev_snoc. apply (Z.div_unique _ _ _ (value (nbuf rem))); lia.
    + intros _. rewrite value_rev_snoc, Z.mul_comm, Z.mod_add, Z.mod_small by lia. done.
Qed.

Definition digit_of (base ch : Z) : Prop := ∃ d, 0 ≤ d < base ∧ digits !! Z.to_nat d = Some ch.

Lemma digit_of_char base ch : base ≤ 16 → digit_of base ch → digit_char ch.
Proof. intros Hb (d & Hd & E). exists d. split; [lia|done]. Qed.
Lemma digits_of_char base chs : base ≤ 16 → Forall (digit_of base) chs → Forall digit_char chs.
Proof. intros Hb H. eapply Forall_impl; [exact H|]. intros ch. by apply digit_of_char. Qed.

Lemma chars_value_app base v a b : chars_value base v (a ++ b) = chars_value base (chars_value base v a) b.
Proof. unfold chars_value. by rewrite fold_left_app. Qed.
Lemma chars_value_range base chs : 2 ≤ base ≤ 16 → Forall (digit_of base) chs → 0 ≤ chars_value base 0 chs < base ^ Z.of_nat (length chs).
Proof.
  intros Hb. induction chs as [|ch chs IH] using rev_ind; intros H; [simpl; lia|].
  apply Forall_app in H as [H [(d & Hd & E) _]%Forall_cons]. rewrite chars_value_app, length_app, Nat2Z.inj_add, Z.pow_add_r by lia.
  destruct (digit_chars d ltac:(lia)) as (ch' & E' & E2 & _). rewrite E in E'. injection E' as <-.
  specialize (IH H). unfold chars_value at 1 3. cbn [fold_left length]. rewrite E2. change (base ^ Z.of_nat 1) with (base ^ 1).
  rewrite Z.pow_1_r. simpl default. nia.
Qed.

Lemma tonum_frac_ok fuel chs : Forall (digit_of 10) chs → (length chs < fuel)%nat →
  ∃ frac, tonum_frac fuel 10 chs = Some frac ∧ Forall dig (nbuf frac) ∧ value (nbuf frac) = chars_value 10 0 chs ∧
  -1 ≤ nscale frac ≤ Z.of_nat (length chs) ∧ (value (nbuf frac) ≠ 0 → nscale frac = Z.of_nat (length chs)).
Proof.
  intros Hchs Hf. unfold tonum_frac. set (n := length chs) in *.
  destruct (power_ok 10 n ltac:(lia)) as (denom & -> & Hden & Hvd). rewrite bind_some.
  destruct (horner_ok 10 (copy zero) chs) as (numer & -> & Hcn & _ & Hvn & Hsn & _);
    [lia|by apply (digits_of_char 10); [lia|]|by left|done|done|]. rewrite bind_some.
  change (value (nbuf (copy zero))) with 0 in Hvn. pose proof (chars_value_range 10 chs ltac:(lia) Hchs) as HV. fold n in HV.
  set (V := chars_value 10 0 chs) in *. set (r := Nat.div (S n) 2).
  assert (n ≤ 2 * r ≤ n + 1)%nat as Hr by (subst r; pose proof (Nat.div_mod_eq (S n) 2); pose proof (Nat.mod_upper_bound (S n) 2); lia).
  destruct (frac_loop_ok fuel n V denom numer newnum 0 0 r) as (frac & d & -> & Hdig & Hvf & Hsf & [_ Hrp] & Hd);
    [done|done|done|lia|lia|lia| |constructor| |done|done|].
  { rewrite Hvn. change (100 ^ Z.of_nat 0) with 1. rewrite Z.mul_1_r, Z.mod_small by lia. done. }
  { change (100 ^ Z.of_nat 0) with 1. rewrite Z.mul_1_r, Z.div_small by lia. done. }
  rewrite bind_some. simpl Nat.add in *.
  assert (value (rev (nbuf frac)) = V * 10 ^ (2 * Z.of_nat r - Z.of_nat n)) as Hval.
  { rewrite Hvf. replace (100 ^ Z.of_nat r) with (10 ^ (2 * Z.of_nat r - Z.of_nat n) * 10 ^ Z.of_nat n).
    - rewrite Z.mul_assoc. apply Z.div_mul. lia.
    - rewrite <- Z.pow_add_r by lia. change 100 with (10 ^ 2). rewrite <- Z.pow_mul_r by lia. f_equal. lia. }
  unfold reverse, set, set_field. cbn [nbuf nscale nbegin nrp]. rewrite Hsf.
  destruct (decide (Z.of_nat n < 2 * Z.of_nat r)) as [Hodd|Heven].
  - replace (2 * Z.of_nat r - Z.of_nat n) with 1 in Hval by lia. rewrite Z.pow_1_r in Hval.
    rewrite decide_True.
    2: { split; [done|]. rewrite Hd, Hval by lia. rewrite Z.rem_mod_nonneg by (try apply Z.mod_pos_bound; lia). dlia. }
    destruct (divn_ok (mkNum (nbegin frac) (2 * Z.of_nat r) (rev (nbuf frac)) (nrp frac)) 10) as (f & E & Hv & Hc & Hs);
      [lia|by apply Forall_rev|by rewrite Hrp|].
    rewrite E, bind_some. cbn [nbuf nscale] in *. rewrite Hval, Z.div_mul in Hv by lia.
    eexists. split; [done|]. cbn [nbuf nscale]. split_and!; [apply (canon_dig _ Hc); lia|done| | |].
    + rewrite Hs. case_decide; lia.
    + rewrite Hs. case_decide; lia.
    + intros H0. rewrite Hs, decide_False; [lia|]. intros E0. by rewrite E0 in H0.
  - rewrite decide_False by (intros [? _]; lia). replace (2 * Z.of_nat r - Z.of_nat n) with 0 in Hval by lia.
    rewrite Z.pow_0_r, Z.mul_1_r in Hval. eexists. split; [done|]. cbn [nbuf nscale].
    split_and!; [by apply Forall_rev|done|lia|lia|lia].
Qed.

(** ** Where a number ends *)

Lemma scan_digits chs mem t dot : Forall digit_char chs → scan (chs ++ mem) t dot = scan mem (t + length chs) dot.
Proof.
  intros H. revert t. induction H as [|ch chs Hch _ IH]; intros t; cbn [app length scan]; [f_equal; lia|].
  destruct (digit_char_ok ch Hch) as (d & _ & E & H46 & _). rewrite E, decide_False by done. rewrite IH. f_equal. lia.
Qed.
Lemma scan_stop stop mem t dot : strchr_digits stop = None → scan (stop :: mem) t dot = Some (t, dot).
Proof. intros E. cbn [scan]. by rewrite E. Qed.

(** ** tonum *)

(** The integer part. *)
Lemma tonum_int_part base I : 2 ≤ base ≤ 16 → Forall (digit_of base) I →
  ∃ n0 n, horner base newnum I = Some n0 ∧ norm n0 = Some n ∧ integer n ∧ value (nbuf n) = chars_value base 0 I.
Proof.
  intros Hb HI. destruct (horner_ok base newnum I) as (n0 & E & Hc & Hpos & Hv & Hs & Hr);
    [lia|by apply (digits_of_char base); [lia|]|by left|done|done|].
  destruct (norm_ok n0 (canon_loose _ Hc) Hr) as (n & En & Hcn & Hvn & Hsn & _). exists n0, n.
  split_and!; [done|done| |by rewrite Hvn, Hv]. split; [done|]. rewrite Hsn, Hs. by case_decide.
Qed.

(** The part of the memory that holds a number. *)
Definition number_text (I : list Z) (F : option (list Z)) : list Z := I ++ match F with Some F => 46 :: F | None => [] end.

Lemma scan_number base I F stop rest : base ≤ 16 → Forall (digit_of base) I → Forall (digit_of base) (default [] F) → strchr_digits stop = None →
  scan (number_text I F ++ stop :: rest) 0 None =
  Some (length (number_text I F), match F with Some _ => Some (length I) | None => None end).
Proof.
  intros Hb HI HF Hs. unfold number_text. rewrite <- app_assoc, scan_digits by (by apply (digits_of_char base)).
  rewrite length_app. destruct F as [F|]; simpl in *; [|rewrite Hs; do 2 f_equal; lia].
  rewrite scan_digits by (by apply (digits_of_char base)). rewrite scan_stop by done. do 2 f_equal. lia.
Qed.

(** The sign is taken off in front and put back at the end. *)
Lemma tonum_sign fuel base (neg : bool) text stop rest : text ≠ [] → head text ≠ Some 95 →
  tonum fuel base ((if neg then [95] else []) ++ text ++ stop :: rest) =
  ('(num, end_) ← tonum fuel base (text ++ stop :: rest);
   num ← (if neg then chsign num else Some num);
   Some (num, if neg then S end_ else end_)).
Proof.
  intros Hne Hh. destruct text as [|ch text]; [done|]. simpl in Hh. destruct neg; simpl app.
  - unfold tonum. cbn [head tail]. rewrite !bind_some. rewrite (bool_decide_eq_true_2 (95 = 95)) by done.
    rewrite (bool_decide_eq_false_2 (ch = 95)) by congruence. destruct (scan _ _ _) as [[end_ dot]|]; [|done]. rewrite !bind_some.
    destruct (horner _ _ _) as [n0|]; [|done]. rewrite !bind_some. destruct (norm n0) as [n|]; [|done]. rewrite !bind_some.
    destruct (match dot with Some _ => _ | None => _ end); done.
  - destruct (tonum _ _ _) as [[n e]|]; done.
Qed.

Lemma number_text_head base I F : base ≤ 16 → Forall (digit_of base) I → head (number_text I F) ≠ Some 95.
Proof.
  intros Hb HI. unfold number_text. destruct HI as [|ch I Hch _]; [by destruct F|]. simpl. intros [= ->].
  destruct (digit_char_ok 95 (digit_of_char base 95 Hb Hch)) as (? & _ & _ & _ & ?). done.
Qed.

Lemma tonum_integer fuel base I stop rest : 2 ≤ base ≤ 16 → Forall (digit_of base) I → I ≠ [] → strchr_digits stop = None →
  ∃ num, tonum fuel base (I ++ stop :: rest) = Some (num, length I) ∧ integer num ∧ value (nbuf num) = chars_value base 0 I.
Proof.
  intros Hb HI Hne Hs. pose proof (scan_number base I None stop rest ltac:(lia) HI ltac:(constructor) Hs) as Hsc.
  pose proof (number_text_head base I None ltac:(lia) HI) as Hh. unfold number_text in *. rewrite !app_nil_r in *.
  destruct (tonum_int_part base I Hb HI) as (n0 & n & E1 & E2 & Hi & Hv). exists n. split; [|done].
  destruct I as [|ch I]; [done|]. unfold tonum. cbn [head app]. rewrite bind_some. simpl in Hh. rewrite bool_decide_eq_false_2 by congruence.
  change (ch :: I ++ stop :: rest) with ((ch :: I) ++ stop :: rest). rewrite Hsc, bind_some. simpl default.
  change (S (length I)) with (length (ch :: I)). by rewrite take_app_length, E1, bind_some, E2, !bind_some.
Qed.

Lemma tonum_decimal_ok fuel I F stop rest : Forall (digit_of 10) I → Forall (digit_of 10) F → (length F < fuel)%nat → strchr_digits stop = None →
  ∃ num, tonum fuel 10 (number_text I (Some F) ++ stop :: rest) = Some (num, length (number_text I (Some F))) ∧ wf_num num ∧
  scaled (Z.of_nat (length F)) num = chars_value 10 0 I * 10 ^ Z.of_nat (length F) + chars_value 10 0 F.
Proof.
  intros HI HF Hf Hs. pose proof (scan_number 10 I (Some F) stop rest ltac:(lia) HI HF Hs) as Hsc.
  pose proof (number_text_head 10 I (Some F) ltac:(lia) HI) as Hh.
  destruct (tonum_int_part 10 I ltac:(lia) HI) as (n0 & n & E1 & E2 & [Hcn Hsn] & Hvn).
  destruct (tonum_frac_ok fuel F HF Hf) as (frac & E3 & Hdf & Hvf & Hsf & Hsf0).
  destruct (addnum_ok n frac (canon_loose _ Hcn) (dig_loose _ Hdf)) as (c & E4 & Hc & Hv & Hsc4).
  exists c. set (mem := number_text I (Some F) ++ stop :: rest) in *. set (k := Z.of_nat (length F)) in *. split; [|split].
  - assert (head mem = head (number_text I (Some F))) as Hm by (subst mem; unfold number_text; by destruct I).
    destruct mem as [|ch mem'] eqn:Em; [done|]. rewrite <- Em. unfold tonum. rewrite Em at 1. cbn [head]. rewrite bind_some.
    rewrite bool_decide_eq_false_2 by (intros ->; apply Hh; by rewrite <- Hm). rewrite Em, Hsc, bind_some. simpl default.
    rewrite <- Em. subst mem. clear Hsc Hm.
    assert (take (length I) (number_text I (Some F) ++ stop :: rest) = I) as ->.
    { unfold number_text. by rewrite <- app_assoc, take_app_length. }
    assert (take (length (number_text I (Some F)) - length I - 1) (drop (S (length I)) (number_text I (Some F) ++ stop :: rest)) = F) as ->.
    { unfold number_text. rewrite <- app_assoc, length_app. simpl. replace (length I + S (length F) - length I - 1)%nat with (length F) by lia.
      replace (S (length I)) with (length (I ++ [46])) by (rewrite length_app; simpl; lia).
      change (46 :: F ++ stop :: rest) with ([46] ++ F ++ stop :: rest). by rewrite app_assoc, drop_app_length, take_app_length. }
    by rewrite E1, bind_some, E2, bind_some, E3, bind_some, E4, !bind_some.
  - split; [done|]. rewrite Hsc4. case_decide; lia.
  - rewrite Hsn in *. rewrite Hvn, Hvf in *. pose proof (chars_value_range 10 I ltac:(lia) HI) as HVI.
    pose proof (chars_value_range 10 F ltac:(lia) HF) as HVF. set (vI := chars_value 10 0 I) in *. set (vF := chars_value 10 0 F) in *.
    set (S := Z.max 0 (nscale frac)) in *. rewrite Z.sub_0_r in Hv.
    assert (value (nbuf c) * 10 ^ k = (vI * 10 ^ k + vF) * 10 ^ S) as Hval.
    { destruct (decide (vF = 0)) as [H0|H0]; [rewrite Hv, H0; lia|]. assert (nscale frac = k) as Hk by auto.
      assert (S = k) as HS by lia. rewrite Hv, HS, Hk, Z.sub_diag. lia. }
    assert (0 < 10 ^ S) by (apply Z.pow_pos_nonneg; lia). assert (0 < 10 ^ k) by (apply Z.pow_pos_nonneg; lia).
    unfold scaled. rewrite Hsc4. destruct (decide (nbuf c = [])) as [Hnil|Hnil].
    + rewrite Hnil in *. simpl in Hval. simpl. rewrite Z.mul_0_r. nia.
    + assert (10 ^ k = 10 ^ (k - S) * 10 ^ S) as Hp by (rewrite <- Z.pow_add_r by lia; f_equal; lia).
      apply (Z.mul_cancel_r _ _ (10 ^ S)); [lia|]. rewrite <- Hval, Hp. ring.
Qed.

(** dc reads a decimal number exactly, whatever the digits on either side
    of the point and the sign in front, stops behind its last digit, and ends
    within a round for each digit of the fraction. *)
Theorem tonum_decimal fuel (neg : bool) I F stop rest : Forall (digit_of 10) I → Forall (digit_of 10) F → (length F < fuel)%nat →
  strchr_digits stop = None →
  let text := number_text I (Some F) in
  let v := chars_value 10 0 I * 10 ^ Z.of_nat (length F) + chars_value 10 0 F in
  ∃ num, tonum fuel 10 ((if neg then [95] else []) ++ text ++ stop :: rest) = Some (num, length ((if neg then [95] else []) ++ text)) ∧
  wf_num num ∧ scaled (Z.of_nat (length F)) num = if neg then - v else v.
Proof.
  intros HI HF Hf Hs. cbv zeta. destruct (tonum_decimal_ok fuel I F stop rest HI HF Hf Hs) as (n & E & [Hc Hsc] & Hv).
  rewrite tonum_sign, E, bind_some; [|by destruct I|by apply (number_text_head 10)]. destruct neg.
  - destruct (chsign_ok n Hc) as (m & -> & Hm & Hvm & Hsm). rewrite bind_some. exists m. split; [done|]. split; [split; [done|lia]|].
    unfold scaled in *. rewrite Hvm, Hsm. lia.
  - rewrite bind_some. by exists n.
Qed.

Lemma tonum_decimal_witness :
  ∃ num, tonum 5 10 [95; 49; 50; 46; 51; 52; 53; 32] = Some (num, 7%nat) ∧ scaled 3 num = -12345.
Proof.
  assert (∀ d ch, 0 ≤ d < 10 → digits !! Z.to_nat d = Some ch → digit_of 10 ch) as Hd by (intros d ch ? ?; by exists d).
  destruct (tonum_decimal 5 true [49; 50] [51; 52; 53] 32 []) as (num & E & _ & Hv).
  - constructor; [by apply (Hd 1)|]. constructor; [by apply (Hd 2)|constructor].
  - constructor; [by apply (Hd 3)|]. constructor; [by apply (Hd 4)|]. constructor; [by apply (Hd 5)|constructor].
  - simpl. lia.
  - reflexivity.
  - exists num. split; [exact E|exact Hv].
Defined.

(** ** printnum *)

Definition digits_value (base : Z) (v : Z) (ds : list Z) : Z := fold_left (λ v d, v * base + d) ds v.

Lemma int_digits_ok fuel base inte sp : 2 ≤ base → canon (nbuf inte) → 0 ≤ value (nbuf inte) < 2 ^ Z.of_nat fuel →
  ∃ ds, int_digits (S fuel) base inte sp = Some (ds ++ sp) ∧ Forall (λ d, 0 ≤ d < base) ds ∧ digits_value base 0 ds = value (nbuf inte) ∧
  (∀ k, value (nbuf inte) < base ^ Z.of_nat k → (length ds ≤ k)%nat) ∧ (nbuf inte ≠ [] → ds ≠ []).
Proof.
  intros Hb. revert inte sp. induction fuel as [|fuel IH]; intros inte sp Hc Hv.
  all: destruct (decide (nbuf inte = [])) as [H0|Hne];
    [exists []; cbn [int_digits]; unfold length_; rewrite H0, decide_True by done; split_and!; [done|constructor|done|simpl; lia|done]|].
  { pose proof (canon_nonempty _ Hc Hne). simpl in Hv. lia. }
  remember (S fuel) as f. cbn [int_digits]. subst f. rewrite decide_False by (unfold length_; by destruct (nbuf inte)).
  destruct (canon_dig _ Hc (proj1 Hv)) as [Hd _]. pose proof (canon_nonempty _ Hc Hne) as Hnz.
  destruct (divn_ok inte base) as (i' & -> & Hv' & Hc' & _); [lia|done|done|]. rewrite bind_some. set (v := value (nbuf inte)) in *.
  pose proof (Z.mod_pos_bound v base ltac:(lia)) as Hm. pose proof (Z.div_mod v base ltac:(lia)) as Hdm.
  rewrite Nat2Z.inj_succ, Z.pow_succ_r in Hv by lia.
  destruct (IH i' (v mod base :: sp) Hc') as (ds & E & Hds & Hval & Hlen & _).
  { rewrite Hv'. split; [apply Z.div_pos; lia|apply Z.div_lt_upper_bound; nia]. }
  exists (ds ++ [v mod base]). split_and!.
  - by rewrite E, <- app_assoc.
  - apply Forall_app. split; [done|]. by apply Forall_singleton.
  - unfold digits_value in *. rewrite fold_left_app, Hval, Hv'. simpl. lia.
  - intros [|k] Hk; [simpl in Hk; lia|]. rewrite length_app, Nat.add_1_r. apply le_n_S, Hlen. rewrite Hv'.
    rewrite Nat2Z.inj_succ, Z.pow_succ_r in Hk by lia. apply Z.div_lt_upper_bound; lia.
  - intros _. by destruct ds.
Qed.

Lemma rshift_zero n : Forall dig (nbuf n) → ∃ n', rshift n 0 = Some n' ∧ nbuf n' = nbuf n ∧ nscale n' = nscale n.
Proof. intros Hd. destruct (rshift_ok n 0 Hd) as (n' & E & Hb & Hs & _). by exists n'. Qed.

(** ** Lines of output *)

(** A text as it is printed: lines of 69 characters that end in a backslash, and
    a last one that is not longer. *)
Definition wraps (text chars : list Z) (col : nat) : Prop := ∃ ls cur,
  text = concat (map (λ l, l ++ [92; 10]) ls) ++ cur ∧ chars = concat ls ++ cur ∧ Forall (λ l, length l = 69%nat) ls ∧ length cur = col ∧ (col ≤ 69)%nat ∧ (ls ≠ [] → cur ≠ []).
Definition wrapped (text chars : list Z) : Prop := ∃ col, wraps text chars col.
Definition buffer (o : outbuf) (chars : list Z) : Prop := ∃ col, wraps (o_text o) chars col ∧ o_col o = Z.of_nat col.

Lemma prchr_buffer o chars c : buffer o chars → buffer (prchr c o) (chars ++ [c]).
Proof.
  intros (col & (ls & cur & Et & Ec & Hls & Hcol & Hle & Hcur) & Eo). unfold prchr. destruct (decide (69 ≤ o_col o)) as [H|H].
  - assert (col = 69%nat) as -> by lia. exists 1%nat. split; [|done]. exists (ls ++ [cur]), [c]. unfold newline, putchar. cbn [o_col o_text]. rewrite Et, Ec. split_and!; try done; try lia.
    + rewrite map_app, concat_app. cbn [map concat]. by rewrite app_nil_r, <- !app_assoc.
    + rewrite concat_app. cbn [concat]. by rewrite app_nil_r, <- !app_assoc.
    + apply Forall_app. split; [done|]. by constructor.
  - exists (S col). split; [|cbn [o_col]; lia]. exists ls, (cur ++ [c]). cbn [o_col o_text]. rewrite Et, Ec, length_app. cbn [length]. split_and!; try lia; try done; [by rewrite app_assoc..|].
    intros _. by destruct cur.
Qed.
(** What fits a line is printed as it is. *)
Lemma wrapped_short text chars : wrapped text chars → (length chars ≤ 69)%nat → text = chars.
Proof.
  intros (col & ls & cur & -> & -> & Hls & _ & _ & Hcur) Hlen. destruct ls as [|l ls]; [done|]. apply Forall_cons in Hls as [Hl _]. exfalso.
  rewrite length_app in Hlen. cbn [concat] in Hlen. rewrite length_app in Hlen. destruct cur; [by apply Hcur|]. cbn [length] in Hlen. lia.
Qed.
Lemma print_ints_buffer base ds o chars : base ≤ 16 → Forall (λ d, 0 ≤ d < base) ds → buffer o chars →
  ∃ o' chs, print_ints base ds o = Some o' ∧ buffer o' (chars ++ chs) ∧ length chs = length ds ∧ Forall (digit_of base) chs ∧ ∀ v, chars_value base v chs = digits_value base v ds.
Proof.
  intros Hb Hds. revert o chars. unfold print_ints. induction Hds as [|d ds Hd _ IH]; intros o chars Ho; cbn [fold_left length].
  { exists o, []. rewrite app_nil_r. split_and!; [done|done|done|constructor|done]. }
  destruct (digit_chars d ltac:(lia)) as (ch & Ech & Esch & _). rewrite bind_some. unfold printd at 2. rewrite decide_True, Ech, bind_some by done.
  destruct (IH (prchr ch o) (chars ++ [ch]) (prchr_buffer _ _ _ Ho)) as (o' & chs & -> & Hbuf & Hl & Hchs & Hv).
  exists o', (ch :: chs). split_and!; [done|by rewrite <- app_assoc in Hbuf|simpl; lia| |].
  - constructor; [|done]. by exists d.
  - intros v. unfold chars_value, digits_value in *. cbn [fold_left]. by rewrite Esch, Hv.
Qed.

(** An integer is printed as a sign if it is negative and the digits of its
    magnitude in the base, in lines of 69 characters. *)
Definition sign_of (v : Z) : list Z := if decide (v < 0) then [45] else [].
Lemma printnum_any base n : 2 ≤ base ≤ 16 → integer n →
  ∃ text chs, printnum base n = Some text ∧ wrapped text (sign_of (value (nbuf n)) ++ chs) ∧ Forall (digit_of base) chs ∧ chs ≠ [] ∧
    chars_value base 0 chs = Z.abs (value (nbuf n)) ∧ ∀ k, (0 < k)%nat → Z.abs (value (nbuf n)) < base ^ Z.of_nat k → (length chs ≤ k)%nat.
Proof.
  intros Hb [Hc Hs]. unfold printnum. destruct (decide (nbuf n = [])) as [H0|Hne].
  { rewrite decide_True by (unfold length_; by rewrite H0). exists [48], [48]. rewrite H0. split_and!; [done| | |done|done|intros k Hk _; cbn [length]; lia].
    - exists 1%nat, [], [48]. split_and!; done || lia.
    - apply Forall_singleton. exists 0. split; [lia|done]. }
  rewrite decide_False by (unfold length_; by destruct (nbuf n)). rewrite (negative_ok (copy n) Hc), bind_some. change (nbuf (copy n)) with (nbuf n).
  set (sgn := bool_decide (value (nbuf n) < 0)).
  assert (∃ m, (if sgn then chsign (last_ (copy n)) else Some (last_ (copy n))) = Some m ∧ canon (nbuf m) ∧ value (nbuf m) = Z.abs (value (nbuf n)) ∧ nscale m = 0 ∧ nbuf m ≠ [])
    as (m & -> & Hcm & Hvm & Hsm & Hmne).
  { assert (nbuf (last_ (copy n)) = nbuf n) as Hbl by (by rewrite nbuf_last). pose proof (canon_nonempty _ Hc Hne) as Hnz. unfold sgn. case_bool_decide as Hneg.
    - destruct (chsign_ok (last_ (copy n))) as (m & -> & Hcm & Hvm & Hsm); [by rewrite Hbl|]. rewrite Hbl in Hvm. rewrite nscale_last in Hsm. exists m.
      split_and!; [done|done|lia|by rewrite Hsm|]. intros E. rewrite E in Hvm. simpl in Hvm. lia.
    - exists (last_ (copy n)). rewrite Hbl, nscale_last. split_and!; [done|done|lia|done|done]. }
  rewrite bind_some, Hsm. rewrite decide_False, bind_some by done. rewrite Hsm. change (Z.to_nat (Z.quot 0 2)) with 0%nat.
  destruct (canon_dig _ Hcm ltac:(lia)) as [Hd _].
  destruct (rshift_zero (copy m)) as (inte & -> & Hbi & Hsi); [done|]. rewrite bind_some. cbn [copy nbuf] in Hbi.
  destruct (subnum_ok m (inte <| nscale := 0 |>)) as (frac & -> & _); [done|by cbn; rewrite Hbi|]. rewrite bind_some.
  destruct (int_digits_ok (7 * length_ (inte <| nscale := 0 |>)) base (inte <| nscale := 0 |>) []) as (ds & -> & Hds & Hval & Hlen & Hnil).
  { lia. }
  { cbn. by rewrite Hbi. }
  { cbn [set set_field nbuf]. unfold length_. cbn. rewrite Hbi. apply digits_bits; done || lia. }
  rewrite bind_some, app_nil_r. cbn [nbuf set set_field] in Hval, Hlen, Hnil. rewrite Hbi in *.
  assert (buffer (mkOut 0 []) []) as H0 by (exists 0%nat; split; [exists [], []; split_and!; done || lia|done]).
  assert (buffer (if sgn then prchr 45 (mkOut 0 []) else mkOut 0 []) (sign_of (value (nbuf n)))) as Hbuf.
  { unfold sgn, sign_of. case_bool_decide; [rewrite decide_True by done; by apply (prchr_buffer _ [] 45)|by rewrite decide_False]. }
  destruct (print_ints_buffer base ds _ _ ltac:(lia) Hds Hbuf) as (o' & chs & -> & (col & Hw & _) & Hl & Hchs & Hcv).
  rewrite bind_some, decide_True by done. exists (o_text o'), chs. split_and!; [done|by exists col|done| |by rewrite Hcv, Hval|].
  - intros ->. destruct ds; [|done]. by apply Hnil.
  - intros k _ Hk. rewrite Hl. apply Hlen. by rewrite Hvm.
Qed.

(** An integer that is not negative and fits a line is printed as its digits. *)
Lemma printnum_ok base n : 2 ≤ base ≤ 16 → integer n → 0 ≤ value (nbuf n) < base ^ 69 →
  ∃ chs, printnum base n = Some chs ∧ Forall (digit_of base) chs ∧ chs ≠ [] ∧ chars_value base 0 chs = value (nbuf n).
Proof.
  intros Hb Hn Hv. destruct (printnum_any base n Hb Hn) as (text & chs & E & Hw & Hd & Hne & Hval & Hlen).
  rewrite Z.abs_eq in Hval, Hlen by lia. unfold sign_of in Hw. rewrite decide_False in Hw by lia. cbn [app] in Hw.
  apply wrapped_short in Hw as ->; [by exists chs|]. apply Hlen; [lia|apply Hv].
Qed.

(** an integer that dc prints on one line, in any base up to 16, is read
    back digit for digit with that base as the input base. *)
Theorem dc_print_read base n stop rest fuel : 2 ≤ base ≤ 16 → integer n → 0 ≤ value (nbuf n) < base ^ 69 → strchr_digits stop = None →
  ∃ text num, printnum base n = Some text ∧ tonum fuel base (text ++ stop :: rest) = Some (num, length text) ∧
  nbuf num = nbuf n ∧ nscale num = nscale n.
Proof.
  intros Hb Hn Hv Hs. destruct (printnum_ok base n Hb Hn Hv) as (text & E & Hch & Hne & Hval).
  destruct (tonum_integer fuel base text stop rest Hb Hch Hne Hs) as (num & E2 & [Hc Hsc] & Hv2).
  exists text, num. destruct Hn as [Hcn Hsn]. split_and!; [done|done| |congruence]. apply canon_unique; [done|done|congruence].
Qed.

Lemma dc_print_read_witness :
  ∃ text num, printnum 16 (int_ [55; 2]) = Some text ∧ tonum 1 16 (text ++ [10]) = Some (num, length text) ∧ nbuf num = [55; 2].
Proof.
  destruct (dc_print_read 16 (int_ [55; 2]) 10 [] 1) as (text & num & E1 & E2 & E3 & _).
  - lia.
  - split; [|done]. right. exists [55], 2. split_and!; [done| |left; lia]. apply Forall_singleton. unfold dig. lia.
  - vm_compute. split; [discriminate|reflexivity].
  - reflexivity.
  - exists text, num. split; [exact E1|split; [exact E2|exact E3]].
Defined.

(** ** Where reading fails *)

(** 1/3 leaves the remainder 1 in every round. *)
Lemma third_diverges fuel frac d denom numer : integer denom → value (nbuf denom) = 3 → integer numer → value (nbuf numer) = 1 →
  frac_loop fuel 1 denom numer frac d = None.
Proof.
  intros Hd Hvd. revert numer frac d. induction fuel as [|fuel IH]; intros numer frac d Hn Hv; [done|]. cbn [frac_loop].
  rewrite decide_True by (right; unfold length_; destruct (nbuf numer); simpl; [done|lia]).
  destruct (frac_round numer denom 3 Hn Hd Hvd ltac:(lia)) as (n1 & q & rem & -> & E2 & E3 & Hrem & Hvr & _).
  rewrite bind_some, E2, bind_some, E3, bind_some. apply IH; [done|]. rewrite Hvr, Hv. done.
Qed.

(** reading has two limits. A fraction whose base does not divide a power
    of ten is never finished: ".1" with the input base 3 keeps [tonum] in its
    loop. And a number that ends the line makes [tonum] read past the
    terminator, since [strchr] finds the terminator among the digits. *)
Theorem tonum_limits :
  (∀ fuel stop, strchr_digits stop = None → tonum fuel 3 [46; 49; stop] = None) ∧
  (∀ fuel base I, base ≤ 16 → Forall (digit_of base) I → I ≠ [] → tonum fuel base (I ++ [0]) = None).
Proof.
  split.
  - intros fuel stop Hs. unfold tonum. cbn [head]. rewrite bind_some, bool_decide_eq_false_2 by done.
    change (scan [46; 49; stop] 0 None) with (scan [stop] 2 (Some 0%nat)). rewrite scan_stop, bind_some by done. simpl default.
    change (take 0 [46; 49; stop]) with (@nil Z). change (horner 3 newnum []) with (Some newnum). rewrite bind_some.
    change (norm newnum) with (Some (mkNum true 0 [] 0)). rewrite bind_some.
    change (take (2 - 0 - 1) (drop 1 [46; 49; stop])) with [49].
    change (tonum_frac fuel 3 [49]) with ('(frac, d) ← frac_loop fuel 1 (mkNum false 0 [3] 1) (mkNum false 0 [1] 1) newnum 0;
      let frac := reverse frac in
      if decide (1 < nscale frac ∧ Z.rem d 10 = 0) then '(frac, _) ← divn frac 10; Some (frac <| nscale := nscale frac - 1 |>) else Some frac).
    rewrite third_diverges; [done| |done| |done].
    all: split; [|done]; right; exists []; eexists; (split; [done|]); (split; [constructor|]); left; lia.
  - intros fuel base I Hb HI Hne. pose proof (number_text_head base I None Hb HI) as Hh. unfold number_text in Hh. rewrite app_nil_r in Hh.
    unfold tonum. destruct I as [|ch I]; [done|]. cbn [head app]. rewrite bind_some. simpl in Hh.
    rewrite bool_decide_eq_false_2 by congruence. change (ch :: I ++ [0]) with ((ch :: I) ++ [0]).
    by rewrite scan_digits by (by apply (digits_of_char base)).
Qed.

Lemma tonum_limits_witness : tonum 9 3 [46; 49; 32] = None ∧ tonum 9 10 ([53] ++ [0]) = None.
Proof.
  split; [exact (proj1 tonum_limits 9%nat 32 eq_refl)|]. apply (proj2 tonum_limits); [lia| |done].
  constructor; [|constructor]. exists 5. split; [lia|reflexivity].
Defined.

(** In base 10 the digit F of a fraction counts only modulo ten: ".F" is 1.5 by
    the comment in [tonum], and is read as .5. *)
Example read_point_f : (p ← tonum 9 10 [46; 70; 32]; Some (nbuf (fst p), nscale (fst p))) = Some ([5], 1).
Proof. vm_compute. reflexivity. Qed.
