(* ===== verification/DcVm.v ===== *)
(** * dc: the calculator of src/cmd/extra/dc.c

    The stack, the registers with their value and array stacks, the inputs, and
    one round of the command loop.  [error] jumps back to [eval]: it is [Die],
    and [eval] catches it and keeps the state as it is at that point.  [exit]
    sets [d_exit] and unwinds the same way; outside [eval] the jump is the exit
    of [eprintf].  A file is the list of the lines
    that [getline] returns; text read from [input->s] is the bytes of the buffer
    and the NUL behind them, and a read beyond is [Ub].  Registers live in an
    array in the order of their allocation, and a pointer to one is its index.
    Commands given to the shell with ! are recorded.  Messages are
    given without the values printed into them.  Warnings on stderr
    (division by zero, negative roots), memory and failing reads are left out. *)

From S2P Require Import Prelude CString StrList Args Dc DcDiv DcIo.

Local Open Scope Z_scope.

(** ** Values and state *)

Inductive val := NVAL | STR (s : list Z) | NUM (n : num).

(** [r_vals] and [r_arys] are the chains from [val] and [ary] on. *)
Record reg := mkReg { r_name : list Z; r_vals : list val; r_arys : list (list val) }.
#[export] Instance eta_reg : Eta reg := λ r, mkReg (r_name r) (r_vals r) (r_arys r).

(** A file is the lines that remain in it. *)
Inductive stream := Stdin | Lines (ls : list (list Z)).

Record input := mkInput { i_fp : option stream; i_buf : option (list Z); i_off : nat }.
#[export] Instance eta_input : Eta input := λ i, mkInput (i_fp i) (i_buf i) (i_off i).

Record dcstate := mkDc {
  d_stack : list val;
  d_inputs : list input;
  d_regs : list reg;
  d_htbl : list (list nat);
  d_scale : Z;
  d_ibase : Z;
  d_obase : Z;
  d_iflag : bool;
  d_out : list Z;
  d_err : list cstr;
  d_sys : list (list Z);
  d_stdin : option (list (list Z));
  d_fd3 : option (list (list Z));
  d_exit : option Z;
}.
#[export] Instance eta_dcstate : Eta dcstate := λ s,
  mkDc (d_stack s) (d_inputs s) (d_regs s) (d_htbl s) (d_scale s) (d_ibase s) (d_obase s) (d_iflag s)
    (d_out s) (d_err s) (d_sys s) (d_stdin s) (d_fd3 s) (d_exit s).

Definition error {A} (msg : cstr) : M dcstate A := eprintf msg.
Definition exit_ {A} (status : Z) : M dcstate A := modify (set d_exit (λ _, Some status)) ;; eprintf [].
Definition puts_ (text : list Z) : M dcstate unit := modify (set d_out (λ o, o ++ text)).

Definition HASHSIZ : nat := 128.
Definition REGSIZ : nat := 16.

Definition isspace_ (ch : Z) : bool := bool_decide (ch = 32 ∨ 9 ≤ ch ≤ 13).

(** ** Input *)

(** [*input->s] *)
Definition peekc : M dcstate Z :=
  s <- gets d_inputs ;;
  i <- deref (head s) ;;
  buf <- deref (i_buf i) ;;
  deref ((buf ++ [0]) !! i_off i).
Definition top_input (f : input → input) : M dcstate unit :=
  modify (set d_inputs (λ l, match l with [] => [] | i :: l => f i :: l end)).
Definition skipc : M dcstate unit := top_input (set i_off Datatypes.S).
(** [*input->s++] *)
Definition nextc : M dcstate Z := ch <- peekc ;; skipc ;; mret ch.

(** The next line of a stream, and the stream behind it; standard input must not have been closed. *)
Definition getline (fp : stream) : M dcstate (option (list Z) * stream) :=
  match fp with
  | Lines [] => mret (None, fp)
  | Lines (line :: ls) => mret (Some line, Lines ls)
  | Stdin =>
      o <- gets d_stdin ;;
      ls <- deref o ;;
      match ls with
      | [] => mret (None, fp)
      | line :: ls => modify (set d_stdin (λ _, Some ls)) ;; mret (Some line, fp)
      end
  end.
Definition fclose (fp : stream) : M dcstate unit :=
  match fp with Stdin => modify (set d_stdin (λ _, None)) | Lines _ => mret tt end.

Fixpoint moreinput_from (l : list input) : M dcstate bool :=
  match l with
  | [] => modify (set d_inputs (λ _, [])) ;; mret false
  | i :: rest =>
      ch <- match i_buf i with Some buf => deref ((buf ++ [0]) !! i_off i) | None => mret 0 end ;;
      if decide (ch ≠ 0) then modify (set d_inputs (λ _, l)) ;; mret true
      else
        match i_fp i with
        | Some fp =>
            p <- getline fp ;;
            match p with
            | (Some line, fp) => modify (set d_inputs (λ _, mkInput (Some fp) (Some line) 0 :: rest)) ;; mret true
            | (None, fp) => fclose fp ;; moreinput_from rest
            end
        | None => moreinput_from rest
        end
  end.
Definition moreinput : M dcstate bool := l <- gets d_inputs ;; moreinput_from l.

Definition addinput (fp : option stream) (s : option (list Z)) : M dcstate unit :=
  modify (set d_inputs (cons (mkInput fp s 0))).

(** [n] times; the budget of the loop is [n]. *)
Fixpoint delinput_loop (n : nat) (cmd : Z) : M dcstate unit :=
  match n with
  | O => mret tt
  | Datatypes.S n =>
      l <- gets d_inputs ;;
      match l with
      | [] => mub
      | i :: rest =>
          if decide (cmd = 81 ∧ rest = []) then error "Q command argument exceeded string execution depth"
          else
            modify (set d_inputs (λ _, rest)) ;;
            match rest with [] => exit_ 0 | _ => delinput_loop n cmd end
      end
  end.
Definition delinput (cmd n : Z) : M dcstate unit :=
  if decide (n < 0) then error "Q command requires a number >= 0" else delinput_loop (Z.to_nat n) cmd.

(** ** The stack *)

Definition push (v : val) : M dcstate unit := modify (set d_stack (cons v)).
Definition needstack (n : nat) : M dcstate unit :=
  s <- gets d_stack ;;
  if decide (length s < n)%nat then error "stack empty" else mret tt.
Definition pop : M dcstate val :=
  s <- gets d_stack ;;
  match s with
  | [] => error "stack empty"
  | v :: s => modify (set d_stack (λ _, s)) ;; mret v
  end.
Definition popnum : M dcstate num :=
  v <- pop ;;
  match v with NUM n => mret n | STR _ => error "non-numeric value" | NVAL => mub end.
Definition pushnum (n : num) : M dcstate unit := push (NUM n).
Definition pushstr (s : list Z) : M dcstate unit := push (STR s).

Definition arith (fn : num → num → option num) : M dcstate unit :=
  needstack 2 ;;
  b <- popnum ;;
  a <- popnum ;;
  c <- deref (fn a b) ;;
  pushnum c.

Definition pushdivmod : M dcstate unit :=
  needstack 2 ;;
  b <- popnum ;;
  a <- popnum ;;
  scale <- gets d_scale ;;
  ab <- deref (divscale scale a b) ;;
  p <- match ab with
       | None => mret (copy zero, copy zero)
       | Some (a, b) => deref (divmod a b)
       end ;;
  pushnum (fst p) ;; pushnum (snd p).

(** The loop of [popint] from the last digit to the first. *)
Fixpoint popint_digits (ds : list Z) (n : Z) : Z :=
  match ds with
  | [] => n
  | d :: ds =>
      if decide (INT_MAX / 100 < n) then -1
      else
        let n := n * 100 in
        if decide (INT_MAX - d < n) then -1 else popint_digits ds (n + d)
  end.
Definition numtoint (n : num) : option Z :=
  '(neg, n) ← negative n;
  if neg : bool then Some (-1)
  else n ← div10 n (nscale n); Some (popint_digits (rev (nbuf n)) 0).
Definition popint : M dcstate Z := n <- popnum ;; deref (numtoint n).

Fixpoint int_digits_of (fuel : nat) (n : Z) (acc : num) : num :=
  match fuel with
  | O => acc
  | Datatypes.S fuel =>
      if decide (0 < n) then int_digits_of fuel (Z.quot n 100) (wrdigit acc (Z.rem n 100)) else acc
  end.
(** An [int] has at most five pairs of digits. *)
Definition pushint (n : Z) : M dcstate unit := pushnum (int_digits_of 5 n newnum).

Definition printval (v : val) : M dcstate unit :=
  match v with
  | STR s => puts_ s
  | NUM n => obase <- gets d_obase ;; text <- deref (printnum obase n) ;; puts_ text
  | NVAL => mub
  end.
Definition dupval (v : val) : val :=
  match v with STR s => STR s | NUM n => NUM (copy n) | NVAL => NUM (copy zero) end.

Definition dumpstack : M dcstate unit :=
  s <- gets d_stack ;; mforeach (λ v, printval v ;; puts_ [10]) s.
Definition clearstack : M dcstate unit := modify (set d_stack (λ _, [])).
Definition dupstack : M dcstate unit := v <- pop ;; push v ;; push (dupval v).
Definition deepstack : M dcstate unit :=
  s <- gets d_stack ;;
  if decide (INT_MAX < Z.of_nat (length s)) then error "stack depth does not fit in a integer"
  else pushint (Z.of_nat (length s)).
Definition pushfrac : M dcstate unit :=
  v <- pop ;;
  match v with NUM n => pushint (nscale n) | STR _ => pushint 0 | NVAL => mub end.
Definition numlen (n : num) : option Z :=
  if decide (nbuf n = []) then Some 1
  else d ← peek (last_ n); Some (Z.of_nat (length_ n) * 2 - (if decide (d < 10) then 1 else 0)).
Definition pushlen : M dcstate unit :=
  v <- pop ;;
  match v with
  | STR s => pushint (Z.of_nat (length s))
  | NUM n => k <- deref (numlen n) ;; pushint k
  | NVAL => mub
  end.

Definition setibase : M dcstate unit :=
  n <- popint ;;
  if decide (n < 2 ∨ 16 < n) then error "input base must be an integer between 2 and 16"
  else modify (set d_ibase (λ _, n)).
Definition setobase : M dcstate unit :=
  n <- popint ;;
  if decide (n < 2) then error "output base must be an integer greater than 1"
  else modify (set d_obase (λ _, n)).
Definition setscale : M dcstate unit :=
  n <- popint ;;
  if decide (n < 0) then error "scale must be a nonnegative integer"
  else modify (set d_scale (λ _, n)).

(** [string]; [depth] counts the calls that are active, and a call for a nested
    bracket continues the loop of its caller when it returns. *)
Fixpoint string_loop (fuel : nat) (depth : nat) (dst : list Z) : M dcstate (list Z) :=
  match fuel with
  | O => mfuel
  | Datatypes.S fuel =>
      ch <- peekc ;;
      if decide (ch = 0) then
        more <- moreinput ;;
        if more : bool then string_loop fuel depth dst else exit_ 0
      else
        skipc ;;
        if decide (ch = 93) then
          match depth with
          | O => mret dst
          | Datatypes.S depth => string_loop fuel depth (dst ++ [ch])
          end
        else if decide (ch = 91) then string_loop fuel (Datatypes.S depth) (dst ++ [ch])
        else if decide (ch = 92) then
          c2 <- peekc ;;
          if decide (c2 = 91) then skipc ;; string_loop fuel depth (dst ++ [91])
          else string_loop fuel depth (dst ++ [ch])
        else string_loop fuel depth (dst ++ [ch])
  end.

(** ** Registers *)

Definition hash (name : list Z) : Z :=
  fold_left (λ h c, Z.lxor (h * 33 mod 2 ^ 32) (schar c mod 2 ^ 32)) name 5381.

Fixpoint find_reg (regs : list reg) (name : list Z) (chain : list nat) : option (option nat) :=
  match chain with
  | [] => Some None
  | i :: chain =>
      match regs !! i with
      | None => None
      | Some r => if decide (r_name r = name) then Some (Some i) else find_reg regs name chain
      end
  end.
Definition lookup_ (name : list Z) : M dcstate nat :=
  let h := Z.to_nat (Z.land (hash name) (Z.of_nat HASHSIZ - 1)) in
  s <- gets id ;;
  chain <- deref (d_htbl s !! h) ;;
  it <- deref (find_reg (d_regs s) name chain) ;;
  match it with
  | Some i => mret i
  | None =>
      let i := length (d_regs s) in
      modify (set d_regs (λ l, l ++ [mkReg name [NVAL] [[]]])) ;;
      modify (set d_htbl <[h := i :: chain]>) ;;
      mret i
  end.
Definition at_reg (i : nat) : M dcstate reg := l <- gets d_regs ;; deref (l !! i).
Definition upd_reg (i : nat) (f : reg → reg) : M dcstate unit :=
  r <- at_reg i ;; modify (set d_regs <[i := f r]>).

(** [atoi] of at most 15 characters, as the low byte it is used for. *)
Fixpoint atoi_digits (s : list Z) (n : Z) : Z :=
  match s with
  | ch :: s => if decide (48 ≤ ch ≤ 57) then atoi_digits s (n * 10 + (ch - 48)) else n
  | [] => n
  end.
Fixpoint atoi (s : list Z) : Z :=
  match s with
  | [] => 0
  | ch :: s' =>
      if isspace_ ch then atoi s'
      else if decide (ch = 45) then - atoi_digits s' 0
      else if decide (ch = 43) then atoi_digits s' 0
      else atoi_digits s 0
  end.
(** A one-character name; the NUL character makes the empty one. *)
Definition char_name (ch : Z) : list Z := if decide (ch = 0) then [] else [ch].

(** Characters of a long name; [room] is what is left of the array. *)
Fixpoint regname_loop (room : nat) (delim : Z) (name : list Z) : M dcstate (list Z) :=
  match room with
  | O => error "identifier too long"
  | Datatypes.S room =>
      ch <- nextc ;;
      if decide (ch = 0 ∨ ch = delim) then
        mret (if decide (ch = 62) then char_name (atoi name mod 256) else name)
      else regname_loop room delim (name ++ [ch])
  end.
Definition regname : M dcstate (list Z) :=
  ch <- nextc ;;
  iflag <- gets d_iflag ;;
  if decide (iflag = false ∨ (ch ≠ 60 ∧ ch ≠ 34)) then mret (char_name ch)
  else regname_loop REGSIZ (if decide (ch = 60) then 62 else ch) [].

(** The value and the array below become current; there is always one of each. *)
Definition reg_drop (r : reg) : reg :=
  mkReg (r_name r) (match tail (r_vals r) with [] => [NVAL] | vals => vals end)
    (match tail (r_arys r) with [] => [[]] | arys => arys end).
Definition reg_push (v : val) (r : reg) : reg := mkReg (r_name r) (v :: r_vals r) ([] :: r_arys r).
Definition popreg : M dcstate unit :=
  name <- regname ;;
  i <- lookup_ name ;;
  r <- at_reg i ;;
  v <- deref (head (r_vals r)) ;;
  match v with
  | NVAL => error "stack register is empty"
  | v => push v ;; upd_reg i reg_drop
  end.
Definition pushreg : M dcstate unit :=
  name <- regname ;;
  i <- lookup_ name ;;
  v <- pop ;;
  upd_reg i (reg_push v).
Definition storereg : M dcstate unit :=
  name <- regname ;;
  i <- lookup_ name ;;
  v <- pop ;;
  upd_reg i (set r_vals (λ vals, v :: tail vals)).
Definition loadreg : M dcstate unit :=
  name <- regname ;;
  i <- lookup_ name ;;
  r <- at_reg i ;;
  v <- deref (head (r_vals r)) ;;
  push (dupval v).

(** The current array is long enough for [n]. *)
Definition ary_grow (n : nat) (ary : list val) : list val := ary ++ replicate (Datatypes.S n - length ary) NVAL.
Definition upd_ary (i : nat) (f : list val → list val) : M dcstate unit :=
  upd_reg i (set r_arys (λ arys, f (hd [] arys) :: tail arys)).
Definition aryidx : M dcstate (nat * nat) :=
  name <- regname ;;
  i <- lookup_ name ;;
  n <- popint ;;
  if decide (n < 0) then error "array index must fit in a positive integer"
  else upd_ary i (ary_grow (Z.to_nat n)) ;; mret (i, Z.to_nat n).
(** [aryidx] has returned the address of the element. *)
Definition elem (p : nat * nat) : M dcstate val :=
  r <- at_reg (fst p) ;; deref (hd [] (r_arys r) !! snd p).
Definition aryget : M dcstate unit := p <- aryidx ;; v <- elem p ;; push (dupval v).
Definition aryset : M dcstate unit :=
  p <- aryidx ;;
  v <- pop ;;
  elem p ;;
  upd_ary (fst p) <[snd p := v]>.

(** ** Macros *)

(** The part of the bytes that is a C string. *)
Fixpoint until_nul (s : list Z) : list Z :=
  match s with
  | [] => []
  | ch :: s => if decide (ch = 0) then [] else ch :: until_nul s
  end.

(** [input->s] moves over blanks, for the bytes that are left. *)
Fixpoint skip_blanks (rest : list Z) : M dcstate unit :=
  match rest with
  | [] => mret tt
  | ch :: rest => if isspace_ ch then skipc ;; skip_blanks rest else mret tt
  end.
Definition skip_line_blanks : M dcstate unit :=
  s <- gets d_inputs ;;
  i <- deref (head s) ;;
  buf <- deref (i_buf i) ;;
  skip_blanks (drop (i_off i) buf).

Definition execmacro : M dcstate unit :=
  v <- pop ;;
  match v with
  | NVAL => mub
  | NUM _ => push v
  | STR m =>
      l <- gets d_inputs ;;
      i <- deref (head l) ;;
      match i_fp i with
      | Some _ => addinput None (Some m)
      | None =>
          skip_line_blanks ;;
          ch <- peekc ;;
          buf <- deref (i_buf i) ;;
          if decide (ch = 0 ∧ until_nul buf = m) then top_input (λ _, mkInput None (Some m) 0)
          else addinput None (Some m)
      end
  end.

Inductive relop := GT | LT | EQ | LE | GE | NE.
Definition holds (op : relop) (r : Z) : bool :=
  match op with
  | GT => bool_decide (0 < r) | LT => bool_decide (r < 0) | EQ => bool_decide (r = 0)
  | LE => bool_decide (r ≤ 0) | GE => bool_decide (0 ≤ r) | NE => bool_decide (r ≠ 0)
  end.
Definition relational (op : relop) : M dcstate unit :=
  name <- regname ;;
  i <- lookup_ name ;;
  needstack 2 ;;
  a <- popnum ;;
  b <- popnum ;;
  r <- deref (cmpnum a b) ;;
  if holds op r then
    rp <- at_reg i ;;
    v <- deref (head (r_vals rp)) ;;
    push (dupval v) ;;
    execmacro
  else mret tt.

Definition printbytes : M dcstate unit :=
  v <- pop ;;
  match v with
  | STR s => puts_ s
  | NUM n =>
      n <- deref (div10 n (nscale n)) ;;
      text <- deref (printnum 100 (n <| nscale := 0 |>)) ;;
      puts_ text
  | NVAL => mub
  end.

(** ** Commands *)

(** [while ( *input->s ) ++input->s], for the bytes that are left. *)
Definition discard : M dcstate unit :=
  s <- gets d_inputs ;;
  i <- deref (head s) ;;
  buf <- deref (i_buf i) ;;
  top_input (set i_off (λ off, (off + length (until_nul (drop off buf)))%nat)).

(** [getline(&s, &siz, readsrc())]: from descriptor 3 when it is open. *)
Definition readline : M dcstate unit :=
  fd3 <- gets d_fd3 ;;
  match fd3 with
  | Some [] => mret tt
  | Some (line :: ls) => modify (set d_fd3 (λ _, Some ls)) ;; addinput None (Some line)
  | None =>
      p <- getline Stdin ;;
      match fst p with Some line => addinput None (Some line) | None => mret tt end
  end.

Definition bang : M dcstate unit :=
  ch <- nextc ;;
  if decide (ch = 60) then relational GE
  else if decide (ch = 62) then relational LE
  else if decide (ch = 61) then relational NE
  else
    s <- gets d_inputs ;;
    i <- deref (head s) ;;
    buf <- deref (i_buf i) ;;
    modify (set d_sys (λ l, l ++ [until_nul (drop (pred (i_off i)) buf)])) ;;
    (if decide (length buf < i_off i)%nat then mub else discard).

Definition number (fuel : nat) : M dcstate unit :=
  s <- gets id ;;
  i <- deref (head (d_inputs s)) ;;
  buf <- deref (i_buf i) ;;
  p <- deref (tonum fuel (d_ibase s) (drop (i_off i) (buf ++ [0]))) ;;
  top_input (set i_off (λ off, off + snd p)%nat) ;;
  pushnum (fst p).

(** The bodies of the switch. *)
Definition commands (fuel : nat) (scale : Z) : list (ascii * M dcstate unit) :=
  [("n"%char, v <- pop ;; printval v);
   ("p"%char, v <- pop ;; printval v ;; puts_ [10] ;; push v);
   ("P"%char, printbytes);
   ("f"%char, dumpstack);
   ("+"%char, arith addnum);
   ("-"%char, arith subnum);
   ("*"%char, arith (mulnum scale));
   ("/"%char, arith (divnum scale));
   ("%"%char, arith (modnum scale));
   ("^"%char, arith (expnum scale));
   ("~"%char, pushdivmod);
   ("v"%char, n <- popnum ;; r <- deref (sqrtnum scale n) ;; pushnum r);
   ("c"%char, clearstack);
   ("d"%char, dupstack);
   ("r"%char, needstack 2 ;; v1 <- pop ;; v2 <- pop ;; push v1 ;; push v2);
   ("S"%char, pushreg);
   ("L"%char, popreg);
   ("s"%char, storereg);
   ("l"%char, loadreg);
   ("i"%char, setibase);
   ("o"%char, setobase);
   ("k"%char, setscale);
   ("I"%char, n <- gets d_ibase ;; pushint n);
   ("O"%char, n <- gets d_obase ;; pushint n);
   ("K"%char, pushint scale);
   ("["%char, s <- string_loop fuel 0 [] ;; pushstr s);
   ("x"%char, execmacro);
   ("!"%char, bang);
   (">"%char, relational GT);
   ("<"%char, relational LT);
   ("="%char, relational EQ);
   ("?"%char, readline);
   ("q"%char, delinput 113 2);
   ("Q"%char, n <- popint ;; delinput 81 n);
   ("Z"%char, pushlen);
   ("X"%char, pushfrac);
   ("z"%char, deepstack);
   ("#"%char, discard);
   (":"%char, aryset);
   (";"%char, aryget)].

(** For a character that is not a blank; the bytes of the input are characters. *)
Fixpoint find_command (ch : Z) (l : list (ascii * M dcstate unit)) : option (M dcstate unit) :=
  match l with
  | [] => None
  | (c, m) :: l => if decide (Z.of_nat (nat_of_ascii c) = ch) then Some m else find_command ch l
  end.
Definition command (fuel : nat) (ch : Z) : M dcstate unit :=
  scale <- gets d_scale ;;
  match find_command ch (commands fuel scale) with
  | Some m => m
  | None =>
      if decide (ch = 95 ∨ strchr_digits ch ≠ None) then
        top_input (set i_off pred) ;; number fuel
      else error "unimplemented"
  end.

(** [setjmp]: a jump back ends the round. *)
Definition catch (m : M dcstate unit) : M dcstate unit := λ s,
  match m s with
  | Die msg s' =>
      match d_exit s' with
      | Some _ => Die msg s'
      | None => Ok tt (s' <| d_err := d_err s' ++ [msg] |>)
      end
  | o => o
  end.
Definition eval (fuel : nat) : M dcstate unit := catch (
  skip_line_blanks ;;
  ch <- peekc ;;
  if decide (ch = 0) then mret tt else skipc ;; command fuel ch).

(** [while (moreinput()) eval();] *)
Fixpoint dc_loop (rounds fuel : nat) : M dcstate unit :=
  match rounds with
  | O => mfuel
  | Datatypes.S rounds =>
      more <- moreinput ;;
      if more : bool then eval fuel ;; dc_loop rounds fuel else mret tt
  end.
Section main.
(** The lines of the file with a name. *)
Context (open_file : cstr → option (list (list Z))).

Definition dc (rounds fuel : nat) (fname : cstr) : M dcstate unit :=
  fp <- (if decide (fname = lit "-") then mret Stdin
         else match open_file fname with
              | Some ls => mret (Lines ls)
              | None => eprintf (lit "opening '" ++ fname ++ lit "':")
              end) ;;
  addinput (Some fp) None ;;
  dc_loop rounds fuel ;;
  modify (set d_inputs (λ _, [])).

Definition dc_usage {A} : M dcstate A := eprintf "usage: dc [-i] [file ...]".
Definition dc_flag (c : ascii) (o : unit) : M dcstate unit :=
  if decide (c = "i"%char) then modify (set d_iflag (λ _, true)) else dc_usage.

(** Each file and then standard input. *)
Definition dc_main (rounds fuel : nat) (args : StrList) : M dcstate Z :=
  p <- argbegin (λ _, false) (λ _ _ o, mret o) dc_flag dc_usage args tt ;;
  mforeach (dc rounds fuel) (fst p) ;;
  dc rounds fuel (lit "-") ;;
  mret 0.
End main.

Definition dc_start (stdin : list (list Z)) : dcstate :=
  mkDc [] [] [] (replicate HASHSIZ []) 0 10 10 false [] [] [] (Some stdin) None None.
