(* ===== verification/DcVmFacts.v ===== *)
(** * dc: the state of the calculator

    Whatever is typed, the calculator keeps its state in shape: only strings
    and numbers on the stack, so that the assertion of execmacro holds and no
    unset value is printed; registers with their chains; bases and scale in
    range; and a hash table in which every register is found by its name and by
    no other.  Errors leave the state in that shape too. *)

From S2P Require Import Prelude CString StrList Args Dc DcDiv DcIo DcVm.

Local Open Scope Z_scope.

Definition bucket (name : list Z) : nat := Z.to_nat (Z.land (hash name) (Z.of_nat HASHSIZ - 1)).

Definition reg_ok (r : reg) : Prop := r_vals r ≠ [] ∧ r_arys r ≠ [].

(** The hash table and the registers. *)
Record table_ok (regs : list reg) (htbl : list (list nat)) : Prop := {
  tb_size : length htbl = HASHSIZ;
  tb_names : NoDup (r_name <$> regs);
  tb_chain : ∀ h chain i, htbl !! h = Some chain → i ∈ chain → ∃ r, regs !! i = Some r ∧ bucket (r_name r) = h;
  tb_found : ∀ i r, regs !! i = Some r → ∃ chain, htbl !! bucket (r_name r) = Some chain ∧ i ∈ chain;
}.

Record dc_inv (s : dcstate) : Prop := {
  iv_stack : Forall (λ v, v ≠ NVAL) (d_stack s);
  iv_regs : Forall reg_ok (d_regs s);
  iv_table : table_ok (d_regs s) (d_htbl s);
  iv_scale : 0 ≤ d_scale s;
  iv_ibase : 2 ≤ d_ibase s ≤ 16;
  iv_obase : 2 ≤ d_obase s;
}.

(** ** Computations that keep the invariant *)

(** [m] keeps it, also when it jumps out, and its result satisfies [Q]. *)
Definition safe {A} (m : M dcstate A) (Q : A → Prop) : Prop :=
  ∀ s, dc_inv s →
  match m s with
  | Ok a s' => dc_inv s' ∧ Q a
  | Die _ s' => dc_inv s'
  | Ub | Fuel => True
  end.
Abbreviation keeps m := (safe m (λ _, True)).

Lemma safe_bind {A B} (m : M dcstate A) (k : A → M dcstate B) Q Q' :
  safe m Q → (∀ a, Q a → safe (k a) Q') → safe (mbind m k) Q'.
Proof.
  intros Hm Hk s Hs. specialize (Hm s Hs). unfold mbind. destruct (m s) as [a s1| | |]; [|done..].
  destruct Hm as [Hs1 Ha]. exact (Hk a Ha s1 Hs1).
Qed.
Lemma safe_weak {A} (m : M dcstate A) (Q Q' : A → Prop) : safe m Q → (∀ a, Q a → Q' a) → safe m Q'.
Proof. intros Hm HQ s Hs. specialize (Hm s Hs). destruct (m s); naive_solver. Qed.
Lemma keeps_bind {A B} (m : M dcstate A) (k : A → M dcstate B) Q : keeps m → (∀ a, safe (k a) Q) → safe (mbind m k) Q.
Proof. intros Hm Hk. eapply safe_bind; [exact Hm|auto]. Qed.
Lemma safe_ret {A} (a : A) (Q : A → Prop) : Q a → safe (mret a) Q.
Proof. intros HQ s Hs. by split. Qed.
Lemma safe_error {A} msg (Q : A → Prop) : safe (error msg) Q.
Proof. by intros s Hs. Qed.
Lemma safe_ub {A} (Q : A → Prop) : safe mub Q.
Proof. by intros s Hs. Qed.
Lemma safe_fuel {A} (Q : A → Prop) : safe mfuel Q.
Proof. by intros s Hs. Qed.
Lemma safe_deref {A} (o : option A) (Q : A → Prop) : (∀ a, o = Some a → Q a) → safe (deref o) Q.
Proof. intros HQ s Hs. destruct o as [a|]; [|done]. simpl. auto. Qed.
Lemma keeps_deref {A} (o : option A) : keeps (deref o).
Proof. by apply safe_deref. Qed.
Lemma keeps_gets {A} (f : dcstate → A) : keeps (gets f).
Proof. intros s Hs. by split. Qed.
Lemma safe_gets {A} (f : dcstate → A) (Q : A → Prop) : (∀ s, dc_inv s → Q (f s)) → safe (gets f) Q.
Proof. intros HQ s Hs. split; auto. Qed.
Lemma keeps_modify f : (∀ s, dc_inv s → dc_inv (f s)) → keeps (modify f).
Proof. intros Hf s Hs. split; auto. Qed.

(** Fields the invariant does not mention. *)
Lemma inv_inputs s f : dc_inv s → dc_inv (set d_inputs f s).
Proof. intros []. by constructor. Qed.
Lemma inv_out s f : dc_inv s → dc_inv (set d_out f s).
Proof. intros []. by constructor. Qed.
Lemma inv_err s f : dc_inv s → dc_inv (set d_err f s).
Proof. intros []. by constructor. Qed.
Lemma inv_sys s f : dc_inv s → dc_inv (set d_sys f s).
Proof. intros []. by constructor. Qed.
Lemma inv_fd3 s f : dc_inv s → dc_inv (set d_fd3 f s).
Proof. intros []. by constructor. Qed.
Lemma inv_stdin s f : dc_inv s → dc_inv (set d_stdin f s).
Proof. intros []. by constructor. Qed.
Lemma inv_iflag s f : dc_inv s → dc_inv (set d_iflag f s).
Proof. intros []. by constructor. Qed.
Lemma inv_exit s f : dc_inv s → dc_inv (set d_exit f s).
Proof. intros []. by constructor. Qed.

Create HintDb dc.
#[local] Hint Resolve safe_ret safe_error safe_ub safe_fuel keeps_deref keeps_gets keeps_modify
  inv_inputs inv_out inv_err inv_sys inv_fd3 inv_stdin inv_iflag inv_exit : dc.
(** One step through a computation. *)
Ltac dc_step :=
  match goal with
  | |- safe (mbind _ _) _ => first [apply keeps_bind; [solve [eauto with dc]|intros ?] | eapply safe_bind; [solve [eauto with dc]|intros ? ?]]
  | |- safe (if decide _ then _ else _) _ => case_decide
  | |- safe (match ?x with _ => _ end) _ => destruct x
  | |- safe _ _ => solve [eauto with dc | apply safe_ret; auto | eapply safe_weak; [solve [eauto with dc]|auto]]
  end.
Ltac dc_safe := intros; repeat dc_step.

(** ** Input and output *)

Lemma exit_keeps {A} n (Q : A → Prop) : safe (exit_ n) Q.
Proof. intros s Hs. simpl. by apply inv_exit. Qed.
#[local] Hint Resolve exit_keeps : dc.
Lemma puts_keeps t : keeps (puts_ t).
Proof. unfold puts_. eauto with dc. Qed.
Lemma peekc_keeps : keeps peekc.
Proof. unfold peekc. dc_safe. Qed.
Lemma top_input_keeps f : keeps (top_input f).
Proof. unfold top_input. eauto with dc. Qed.
Lemma skipc_keeps : keeps skipc.
Proof. apply top_input_keeps. Qed.
#[local] Hint Resolve puts_keeps peekc_keeps top_input_keeps skipc_keeps : dc.
Lemma nextc_keeps : keeps nextc.
Proof. unfold nextc. dc_safe. Qed.
Lemma addinput_keeps fp b : keeps (addinput fp b).
Proof. unfold addinput. eauto with dc. Qed.
Lemma getline_keeps fp : keeps (getline fp).
Proof. unfold getline. dc_safe. Qed.
Lemma fclose_keeps fp : keeps (fclose fp).
Proof. unfold fclose. dc_safe. Qed.
#[local] Hint Resolve getline_keeps fclose_keeps : dc.
Lemma moreinput_keeps : keeps moreinput.
Proof.
  unfold moreinput. apply keeps_bind; [apply keeps_gets|]. intros l. induction l as [|i l IH]; cbn [moreinput_from]; [dc_safe|].
  apply keeps_bind; [destruct (i_buf i); eauto with dc|intros ch]. case_decide; [dc_safe|].
  destruct (i_fp i) as [fp|]; [|done]. apply keeps_bind; [eauto with dc|intros [[line|] fp']]; [dc_safe|].
  apply keeps_bind; [eauto with dc|done].
Qed.
Lemma delinput_keeps cmd n : keeps (delinput cmd n).
Proof.
  unfold delinput. case_decide; [dc_safe|]. induction (Z.to_nat n) as [|k IH]; cbn [delinput_loop]; [dc_safe|].
  apply keeps_bind; [apply keeps_gets|intros l]. destruct l as [|i rest]; [dc_safe|]. case_decide; [dc_safe|].
  apply keeps_bind; [eauto with dc|intros _]. destruct rest; [dc_safe|done].
Qed.
#[local] Hint Resolve nextc_keeps addinput_keeps moreinput_keeps delinput_keeps : dc.

(** ** The stack *)

Lemma push_keeps v : v ≠ NVAL → keeps (push v).
Proof. intros Hv. apply keeps_modify. intros s []. constructor; [by constructor|done..]. Qed.
Lemma pop_safe : safe pop (λ v, v ≠ NVAL).
Proof.
  intros s Hs. unfold pop, gets, mbind. destruct (d_stack s) as [|v l] eqn:E; [done|]. destruct Hs as [Hst ?].
  rewrite E in Hst. apply Forall_cons in Hst as [Hv Hl]. split; [by constructor|done].
Qed.
Lemma needstack_keeps n : keeps (needstack n).
Proof. unfold needstack. dc_safe. Qed.
#[local] Hint Resolve pop_safe needstack_keeps : dc.
Lemma popnum_keeps : keeps popnum.
Proof. unfold popnum. eapply safe_bind; [apply pop_safe|]. intros v _. dc_safe. Qed.
Lemma pushnum_keeps n : keeps (pushnum n).
Proof. by apply push_keeps. Qed.
Lemma pushstr_keeps t : keeps (pushstr t).
Proof. by apply push_keeps. Qed.
Lemma dupval_set v : dupval v ≠ NVAL.
Proof. by destruct v. Qed.
Lemma pushdup_keeps v : keeps (push (dupval v)).
Proof. apply push_keeps, dupval_set. Qed.
#[local] Hint Resolve push_keeps popnum_keeps pushnum_keeps pushstr_keeps pushdup_keeps : dc.
Lemma popint_keeps : keeps popint.
Proof. unfold popint. dc_safe. Qed.
Lemma pushint_keeps n : keeps (pushint n).
Proof. apply pushnum_keeps. Qed.
#[local] Hint Resolve popint_keeps pushint_keeps : dc.
Lemma arith_keeps fn : keeps (arith fn).
Proof. unfold arith. dc_safe. Qed.
Lemma pushdivmod_keeps : keeps pushdivmod.
Proof. unfold pushdivmod. do 5 dc_step. apply keeps_bind; [destruct a3 as [[]|]; eauto with dc|]. dc_safe. Qed.
Lemma printval_keeps v : keeps (printval v).
Proof. unfold printval. dc_safe. Qed.
#[local] Hint Resolve arith_keeps pushdivmod_keeps printval_keeps : dc.
Lemma foreach_keeps {A} (f : A → M dcstate unit) l : (∀ a, keeps (f a)) → keeps (mforeach f l).
Proof. intros Hf. induction l as [|a l IH]; cbn [mforeach]; [by apply safe_ret|]. apply keeps_bind; auto. Qed.
Lemma dumpstack_keeps : keeps dumpstack.
Proof. unfold dumpstack. apply keeps_bind; [apply keeps_gets|]. intros l. apply foreach_keeps. dc_safe. Qed.
Lemma clearstack_keeps : keeps clearstack.
Proof. apply keeps_modify. intros s []. by constructor. Qed.
Lemma dupstack_keeps : keeps dupstack.
Proof. unfold dupstack. dc_safe. Qed.
Lemma deepstack_keeps : keeps deepstack.
Proof. unfold deepstack. dc_safe. Qed.
Lemma pushfrac_keeps : keeps pushfrac.
Proof. unfold pushfrac. dc_safe. Qed.
Lemma pushlen_keeps : keeps pushlen.
Proof. unfold pushlen. dc_safe. Qed.
#[local] Hint Resolve dumpstack_keeps clearstack_keeps dupstack_keeps deepstack_keeps pushfrac_keeps pushlen_keeps : dc.
Lemma setibase_keeps : keeps setibase.
Proof.
  unfold setibase. dc_step. case_decide; [dc_safe|]. apply keeps_modify. intros s []. constructor; try done. simpl. lia.
Qed.
Lemma setobase_keeps : keeps setobase.
Proof.
  unfold setobase. dc_step. case_decide; [dc_safe|]. apply keeps_modify. intros s []. constructor; try done. simpl. lia.
Qed.
Lemma setscale_keeps : keeps setscale.
Proof.
  unfold setscale. dc_step. case_decide; [dc_safe|]. apply keeps_modify. intros s []. constructor; try done. simpl. lia.
Qed.
Lemma string_keeps fuel depth dst : keeps (string_loop fuel depth dst).
Proof. revert depth dst. induction fuel as [|fuel IH]; intros depth dst; cbn [string_loop]; dc_safe; auto. Qed.
#[local] Hint Resolve setibase_keeps setobase_keeps setscale_keeps string_keeps : dc.

(** ** Registers *)

Lemma bucket_size name : (bucket name < HASHSIZ)%nat.
Proof. unfold bucket. change (Z.of_nat HASHSIZ - 1) with (Z.ones 7). rewrite Z.land_ones by lia. pose proof (Z.mod_pos_bound (hash name) (2 ^ 7)). unfold HASHSIZ. lia. Qed.

Lemma find_reg_ok regs name chain : (∀ i, i ∈ chain → is_Some (regs !! i)) →
  (∃ i r, find_reg regs name chain = Some (Some i) ∧ regs !! i = Some r ∧ r_name r = name) ∨
  (find_reg regs name chain = Some None ∧ ∀ i r, i ∈ chain → regs !! i = Some r → r_name r ≠ name).
Proof.
  intros Hc. induction chain as [|i chain IH]; cbn [find_reg]; [right; split; [done|set_solver]|].
  destruct (Hc i) as [r E]; [set_solver|]. rewrite E. case_decide as Hn; [left; by exists i, r|].
  destruct IH as [?|[? IH]]; [set_solver|by left|right]. split; [done|]. intros j r' [->|Hj]%elem_of_cons E'; [congruence|eauto].
Qed.

(** A new register under a name that no register has. *)
Lemma table_insert regs htbl name chain : table_ok regs htbl → htbl !! bucket name = Some chain →
  (∀ i r, i ∈ chain → regs !! i = Some r → r_name r ≠ name) →
  table_ok (regs ++ [mkReg name [NVAL] [[]]]) (<[bucket name := length regs :: chain]> htbl).
Proof.
  intros [Hsz Hnd Hch Hf] Hc Hnew. assert (bucket name < length htbl)%nat as Hb by (by apply lookup_lt_Some in Hc).
  constructor.
  - by rewrite length_insert.
  - rewrite fmap_app. apply NoDup_app. split_and!; [done| |by apply NoDup_singleton]. intros x Hx Hin.
    apply list_elem_of_singleton in Hin as ->. apply list_elem_of_fmap in Hx as (r & E & [i Hi]%list_elem_of_lookup). simpl in E.
    destruct (Hf i r Hi) as (c & Ec & Hin). rewrite <- E, Hc in Ec. injection Ec as <-. by apply (Hnew i r).
  - intros h c i Hh Hin. destruct (decide (h = bucket name)) as [->|Hne].
    + rewrite list_lookup_insert_eq in Hh by done. injection Hh as <-. apply elem_of_cons in Hin as [->|Hin].
      * exists (mkReg name [NVAL] [[]]). by rewrite list_lookup_middle.
      * destruct (Hch _ _ _ Hc Hin) as (r & Hr & ?). exists r. split; [by apply lookup_app_l_Some|done].
    + rewrite list_lookup_insert_ne in Hh by done. destruct (Hch _ _ _ Hh Hin) as (r & Hr & ?). exists r. split; [by apply lookup_app_l_Some|done].
  - intros i r [Hi|[Hge Hi]]%lookup_app_Some.
    + destruct (Hf i r Hi) as (c & Ec & Hin). destruct (decide (bucket (r_name r) = bucket name)) as [E|Hne].
      * rewrite E in *. rewrite Hc in Ec. injection Ec as <-. exists (length regs :: chain). rewrite list_lookup_insert_eq by done. split; [done|by right].
      * exists c. rewrite list_lookup_insert_ne by done. done.
    + apply list_lookup_singleton_Some in Hi as [Hi <-]. exists (length regs :: chain). simpl. rewrite list_lookup_insert_eq by done.
      split; [done|]. replace i with (length regs) by lia. left.
Qed.

(** [lookup] answers with the register of the name, which it creates if there is none. *)
Lemma lookup_ok name s : dc_inv s → ∃ i s' r, lookup_ name s = Ok i s' ∧ dc_inv s' ∧ d_regs s' !! i = Some r ∧ r_name r = name ∧
  (s' = s ∨ (name ∉ (r_name <$> d_regs s) ∧ d_regs s' = d_regs s ++ [mkReg name [NVAL] [[]]] ∧
             d_stack s' = d_stack s ∧ d_inputs s' = d_inputs s)).
Proof.
  intros Hs. destruct (iv_table s Hs) as [Hsz Hnd Hch Hf]. unfold lookup_. fold (bucket name). unfold gets, id, mbind.
  assert (is_Some (d_htbl s !! bucket name)) as [chain Hc] by (apply lookup_lt_is_Some_2; rewrite Hsz; apply bucket_size). rewrite Hc. cbn [deref mret].
  destruct (find_reg_ok (d_regs s) name chain) as [(i & r & -> & Hr & Hn)|[-> Hnew]].
  { intros i Hi. destruct (Hch _ _ _ Hc Hi) as (r & ? & _). by exists r. }
  - exists i, s, r. split_and!; [done..|by left].
  - eexists _, _, (mkReg name [NVAL] [[]]). split; [done|]. cbn [modify mret set set_field d_regs d_htbl]. split_and!.
    + destruct Hs. constructor; cbn; try done.
      * apply Forall_app. split; [done|]. by apply Forall_singleton.
      * by apply table_insert.
    + cbn. by rewrite list_lookup_middle.
    + done.
    + right. split_and!; try done. intros (r & -> & [i Hi]%list_elem_of_lookup)%list_elem_of_fmap.
      destruct (Hf i r Hi) as (c & Ec & Hin). rewrite Hc in Ec. injection Ec as <-. by apply (Hnew i r).
Qed.

Lemma lookup_keeps name : keeps (lookup_ name).
Proof. intros s Hs. destruct (lookup_ok name s Hs) as (i & s' & r & -> & Hs' & _). by split. Qed.
Lemma at_reg_safe i : safe (at_reg i) reg_ok.
Proof.
  intros s Hs. unfold at_reg, gets, mbind. destruct (d_regs s !! i) as [r|] eqn:E; [|done]. split; [done|].
  by apply (Forall_lookup_1 _ _ i r (iv_regs s Hs)).
Qed.
(** Changing the contents of a register. *)
Lemma upd_reg_keeps i f : (∀ r, reg_ok r → reg_ok (f r) ∧ r_name (f r) = r_name r) → keeps (upd_reg i f).
Proof.
  intros Hf s Hs. unfold upd_reg, at_reg, gets, mbind. destruct (d_regs s !! i) as [r|] eqn:E; [|done]. split; [|done].
  destruct (Hf r) as [Hok Hn]; [by apply (Forall_lookup_1 _ _ i r (iv_regs s Hs))|]. destruct Hs as [? Hr [Hsz Hnd Hch Hfd] ? ? ?].
  assert (∀ j x, <[i := f r]> (d_regs s) !! j = Some x → ∃ y, d_regs s !! j = Some y ∧ r_name x = r_name y) as Hback.
  { intros j x. destruct (decide (i = j)) as [<-|Hne]; [rewrite list_lookup_insert_eq by (by apply lookup_lt_Some in E); intros [= <-]; by exists r|].
    rewrite list_lookup_insert_ne by done. intros Hx. by exists x. }
  constructor; cbn [modify set set_field d_stack d_regs d_htbl d_scale d_ibase d_obase]; try done.
  - by apply Forall_insert.
  - constructor; [done| | |].
    + rewrite list_fmap_insert, Hn. rewrite list_insert_id; [done|]. by rewrite list_lookup_fmap, E.
    + intros h chain j Hh Hj. destruct (Hch h chain j Hh Hj) as (x & Hx & Hb). destruct (decide (i = j)) as [<-|Hne].
      * exists (f r). rewrite list_lookup_insert_eq by (by apply lookup_lt_Some in E). split; [done|]. rewrite Hn. congruence.
      * exists x. by rewrite list_lookup_insert_ne.
    + intros j x Hx. destruct (Hback j x Hx) as (y & Hy & ->). by apply Hfd in Hy.
Qed.

Lemma regname_loop_keeps room delim name : keeps (regname_loop room delim name).
Proof. revert name. induction room as [|room IH]; intros name; cbn [regname_loop]; dc_safe; auto. Qed.
#[local] Hint Resolve lookup_keeps regname_loop_keeps : dc.
Lemma regname_keeps : keeps regname.
Proof. unfold regname. dc_safe. Qed.
Lemma at_reg_keeps i : keeps (at_reg i).
Proof. eapply safe_weak; [apply at_reg_safe|done]. Qed.
#[local] Hint Resolve regname_keeps at_reg_keeps : dc.
Lemma popreg_keeps : keeps popreg.
Proof.
  unfold popreg. do 4 dc_step. destruct a2; [dc_safe|..]; (apply keeps_bind; [by apply push_keeps|intros _]); apply upd_reg_keeps.
  all: intros r _; split; [|done]; split; simpl; [by destruct (tail (r_vals r))|by destruct (tail (r_arys r))].
Qed.
Lemma pushreg_keeps : keeps pushreg.
Proof. unfold pushreg. do 3 dc_step. apply upd_reg_keeps. by intros r _. Qed.
Lemma storereg_keeps : keeps storereg.
Proof. unfold storereg. do 3 dc_step. apply upd_reg_keeps. by intros r [_ ?]. Qed.
Lemma loadreg_keeps : keeps loadreg.
Proof. unfold loadreg. dc_safe. Qed.
Lemma upd_ary_keeps i f : keeps (upd_ary i f).
Proof. apply upd_reg_keeps. by intros r [? _]. Qed.
Lemma elem_keeps p : keeps (elem p).
Proof. unfold elem. dc_safe. Qed.
#[local] Hint Resolve popreg_keeps pushreg_keeps storereg_keeps loadreg_keeps upd_ary_keeps elem_keeps : dc.
Lemma aryidx_keeps : keeps aryidx.
Proof. unfold aryidx. dc_safe. Qed.
#[local] Hint Resolve aryidx_keeps : dc.
Lemma aryget_keeps : keeps aryget.
Proof. unfold aryget. dc_safe. Qed.
Lemma aryset_keeps : keeps aryset.
Proof. unfold aryset. dc_safe. Qed.
#[local] Hint Resolve aryget_keeps aryset_keeps : dc.

(** ** Macros and commands *)

Lemma skip_blanks_keeps rest : keeps (skip_blanks rest).
Proof. induction rest; cbn [skip_blanks]; dc_safe. Qed.
#[local] Hint Resolve skip_blanks_keeps : dc.
Lemma skip_line_keeps : keeps skip_line_blanks.
Proof. unfold skip_line_blanks. dc_safe. Qed.
#[local] Hint Resolve skip_line_keeps : dc.
Lemma execmacro_keeps : keeps execmacro.
Proof. unfold execmacro. dc_safe. Qed.
#[local] Hint Resolve execmacro_keeps : dc.
Lemma relational_keeps op : keeps (relational op).
Proof. unfold relational. dc_safe. Qed.
Lemma printbytes_keeps : keeps printbytes.
Proof. unfold printbytes. dc_safe. Qed.
Lemma discard_keeps : keeps discard.
Proof. unfold discard. dc_safe. Qed.
Lemma readline_keeps : keeps readline.
Proof. unfold readline. dc_safe. Qed.
#[local] Hint Resolve relational_keeps printbytes_keeps discard_keeps readline_keeps : dc.
Lemma bang_keeps : keeps bang.
Proof. unfold bang. dc_safe. Qed.
Lemma number_keeps fuel : keeps (number fuel).
Proof. unfold number. dc_safe. Qed.
#[local] Hint Resolve bang_keeps number_keeps : dc.
Lemma find_command_keeps ch l : Forall (λ c, keeps (snd c)) l → ∀ m, find_command ch l = Some m → keeps m.
Proof.
  induction 1 as [|[c m] l Hm _ IH]; intros m' E; cbn [find_command] in E; [done|]. case_decide; [by injection E as <-|auto].
Qed.
Lemma commands_keep fuel scale : Forall (λ c, keeps (snd c)) (commands fuel scale).
Proof. unfold commands. repeat (constructor; [cbn [snd]; dc_safe|]). constructor. Qed.
Lemma command_keeps fuel ch : keeps (command fuel ch).
Proof.
  unfold command. apply keeps_bind; [apply keeps_gets|intros scale].
  destruct (find_command ch (commands fuel scale)) as [m|] eqn:E; [|dc_safe].
  exact (find_command_keeps _ _ (commands_keep fuel scale) m E).
Qed.
Lemma catch_keeps m : keeps m → keeps (catch m).
Proof.
  intros Hm s Hs. specialize (Hm s Hs). unfold catch. destruct (m s) as [a s'|msg s'| |]; [done| |done..].
  destruct (d_exit s'); [done|]. split; [by apply inv_err|done].
Qed.
Lemma eval_keeps fuel : keeps (eval fuel).
Proof.
  unfold eval. apply catch_keeps. do 2 dc_step. case_decide; [dc_safe|]. dc_step. apply command_keeps.
Qed.
Lemma dc_loop_keeps rounds fuel : keeps (dc_loop rounds fuel).
Proof.
  induction rounds as [|rounds IH]; cbn [dc_loop]; [dc_safe|]. dc_step. destruct a; [|dc_safe].
  apply keeps_bind; [apply eval_keeps|auto].
Qed.
Lemma dc_keeps open_file rounds fuel fname : keeps (dc open_file rounds fuel fname).
Proof.
  unfold dc. apply keeps_bind; [dc_safe; by intros s Hs|intros fp]. dc_step. apply keeps_bind; [apply dc_loop_keeps|]. dc_safe.
Qed.
Lemma dc_flag_keeps c o : keeps (dc_flag c o).
Proof. unfold dc_flag. case_decide; [dc_safe|]. by intros s Hs. Qed.
Lemma arg_letters_keeps letters rest o :
  keeps (arg_letters (λ _, false) (λ _ _ o, mret o) dc_flag dc_usage letters rest o).
Proof.
  revert o. induction letters as [|c more IH]; intros o; cbn [arg_letters]; [dc_safe|].
  apply keeps_bind; [apply dc_flag_keeps|auto].
Qed.
Lemma arg_loop_keeps fuel args o : keeps (arg_loop (λ _, false) (λ _ _ o, mret o) dc_flag dc_usage fuel args o).
Proof.
  revert args o. induction fuel as [|fuel IH]; intros args o; cbn [arg_loop]; [dc_safe|].
  destruct args as [|[|a [|c r]] rest]; [by apply safe_ret|by apply safe_ret|by destruct a as [[] [] [] [] [] [] [] []]; apply safe_ret|].
  destruct (decide (a = "-"%char)) as [->|Ha]; [|destruct a as [[] [] [] [] [] [] [] []]; first [done | by apply safe_ret]].
  case_decide; [dc_safe|]. apply keeps_bind; [apply arg_letters_keeps|auto].
Qed.
Lemma mforeach_keeps {A} (f : A → M dcstate unit) l : (∀ a, keeps (f a)) → keeps (mforeach f l).
Proof. intros Hf. induction l as [|a l IH]; simpl; [dc_safe|]. by apply keeps_bind. Qed.
Lemma dc_main_keeps open_file rounds fuel args : keeps (dc_main open_file rounds fuel args).
Proof.
  unfold dc_main. apply keeps_bind; [apply arg_loop_keeps|intros p].
  apply keeps_bind; [apply mforeach_keeps; intros a; apply dc_keeps|intros _]. apply keeps_bind; [apply dc_keeps|dc_safe].
Qed.

Lemma dc_start_inv src : dc_inv (dc_start src).
Proof.
  constructor; try done. constructor; [done|constructor| |done].
  intros h chain i Hh Hi. apply lookup_replicate in Hh as [-> _]. by apply not_elem_of_nil in Hi.
Qed.

(** C33: the state of dc stays well-typed whatever it reads: every round of the
    command loop, completed or left through an error, and every run of
    the program keep only set values on the stack, registers that have a value and an
    array, bases and scale in range, and a hash table that finds each register by
    its name; and [lookup] always answers with the one register of the name. *)
Theorem dc_state_typed :
  (∀ fuel s, dc_inv s → match eval fuel s with Ok _ s' | Die _ s' => dc_inv s' | _ => True end) ∧
  (∀ open_file rounds fuel args src, match dc_main open_file rounds fuel args (dc_start src) with Ok _ s' | Die _ s' => dc_inv s' | _ => True end) ∧
  (∀ name s, dc_inv s → ∃ i s' r, lookup_ name s = Ok i s' ∧ dc_inv s' ∧ d_regs s' !! i = Some r ∧ r_name r = name ∧
     ∀ j x, d_regs s' !! j = Some x → r_name x = name → j = i).
Proof.
  split_and!.
  - intros fuel s Hs. pose proof (eval_keeps fuel s Hs). destruct (eval fuel s); tauto.
  - intros open_file rounds fuel args src. pose proof (dc_main_keeps open_file rounds fuel args _ (dc_start_inv src)).
    destruct (dc_main _ _ _ _ _); tauto.
  - intros name s Hs. destruct (lookup_ok name s Hs) as (i & s' & r & E & Hs' & Hr & Hn & _). exists i, s', r. split_and!; [done..|].
    intros j x Hx Hnx. apply (NoDup_lookup _ _ _ name (tb_names _ _ (iv_table _ Hs'))); by rewrite list_lookup_fmap, ?Hx, ?Hr; simpl; congruence.
Qed.

Lemma dc_state_typed_witness :
  dc_inv (dc_start []) ∧ ∃ i s' r, lookup_ [97] (dc_start []) = Ok i s' ∧ dc_inv s' ∧ d_regs s' !! i = Some r.
Proof.
  split; [apply dc_start_inv|].
  destruct (proj2 (proj2 dc_state_typed) [97] (dc_start [])) as (i & s' & r & E & Hs & Hr & _); [apply dc_start_inv|].
  exists i, s', r. split; [exact E|split; [exact Hs|exact Hr]].
Defined.
