(* ===== verification/DcRun.v ===== *)
(** * dc: from the text of a line to the printed value

    The parts of the calculator together: an expression over integers, written
    in postfix on a line, is read and evaluated to its value on the stack, and
    printed in decimal.  The examples run small programs; some of them show
    where the calculator goes wrong. *)

From S2P Require Import Prelude Stdio CString StrList Args Dc DcFacts DcDiv DcDivmod DcIo DcIoFacts DcVm.

Local Open Scope Z_scope.

(** ** Expressions and their text *)

Inductive binop := Add | Sub | Mul | Div | Mod | Pow.
Inductive expr := Lit (ds : list Z) | Bin (op : binop) (a b : expr).

Definition op_char (op : binop) : Z :=
  match op with Add => 43 | Sub => 45 | Mul => 42 | Div => 47 | Mod => 37 | Pow => 94 end.
(** A literal is set off by a blank. *)
Fixpoint postfix (e : expr) : list Z :=
  match e with
  | Lit ds => 32 :: ds
  | Bin op a b => postfix a ++ postfix b ++ [op_char op]
  end.
Fixpoint size (e : expr) : nat :=
  match e with Lit _ => 1 | Bin _ a b => size a + size b + 1 end.

(** The value in the integers; division truncates. *)
Definition denote_op (op : binop) (x y : Z) : option Z :=
  match op with
  | Add => Some (x + y)
  | Sub => Some (x - y)
  | Mul => Some (x * y)
  | Div => if decide (y = 0) then None else Some (Z.quot x y)
  | Mod => if decide (y = 0) then None else Some (Z.rem x y)
  | Pow => if decide (y < 0) then None else Some (x ^ y)
  end.
Fixpoint denote (base : Z) (e : expr) : option Z :=
  match e with
  | Lit ds => Some (chars_value base 0 ds)
  | Bin op a b => x ← denote base a; y ← denote base b; denote_op op x y
  end.
Fixpoint literals (base : Z) (e : expr) : Prop :=
  match e with
  | Lit ds => Forall (digit_of base) ds ∧ ds ≠ []
  | Bin _ a b => literals base a ∧ literals base b
  end.

(** ** Rounds of the loop on a known line *)

(** The state whose current line is [buf], read up to [off]. *)
Definition at_line (s : dcstate) (fp : option stream) (buf : list Z) (off : nat) (l : list input) : dcstate :=
  s <| d_inputs := mkInput fp (Some buf) off :: l |>.

Section line.
Context (fp : option stream) (l : list input).
Implicit Types (s : dcstate) (buf : list Z).

Definition under (s : dcstate) (buf : list Z) (off : nat) : Prop := d_inputs s = mkInput fp (Some buf) off :: l.

Lemma peekc_at s pre ch rest : under s (pre ++ ch :: rest) (length pre) → peekc s = Ok ch s.
Proof.
  intros Hs. unfold peekc, gets, mbind. rewrite Hs. cbn [head deref mret i_buf i_off].
  rewrite <- app_assoc. cbn [app]. by rewrite list_lookup_middle.
Qed.
Lemma peekc_end s buf : under s buf (length buf) → peekc s = Ok 0 s.
Proof.
  intros Hs. unfold peekc, gets, mbind. rewrite Hs. cbn [head deref mret i_buf i_off].
  by rewrite list_lookup_middle.
Qed.
Lemma top_input_at f s buf off : under s buf off →
  top_input f s = Ok tt (s <| d_inputs := f (mkInput fp (Some buf) off) :: l |>).
Proof. intros Hs. unfold top_input, modify. f_equal. destruct s. unfold under in Hs. cbn in Hs. subst. done. Qed.
Lemma moreinput_at s pre ch rest : under s (pre ++ ch :: rest) (length pre) → ch ≠ 0 → moreinput s = Ok true s.
Proof.
  intros Hs Hch. unfold moreinput, gets, mbind. rewrite Hs. cbn [moreinput_from i_buf i_off].
  rewrite <- app_assoc. cbn [app]. rewrite list_lookup_middle by done. unfold mbind. cbn [deref mret]. rewrite decide_True by done.
  unfold modify, mret. f_equal. destruct s. unfold under in Hs. cbn in Hs. subst. done.
Qed.
Lemma under_set s buf off : under (at_line s fp buf off l) buf off.
Proof. by destruct s. Qed.

(** Blanks are skipped. *)
Lemma skip_line_blanks_at s pre bl rest : under s (pre ++ bl ++ rest) (length pre) →
  Forall (λ ch, isspace_ ch = true) bl → (∀ ch, head rest = Some ch → isspace_ ch = false) →
  skip_line_blanks s = Ok tt (at_line s fp (pre ++ bl ++ rest) (length (pre ++ bl)) l).
Proof.
  intros Hs Hbl Hr. unfold skip_line_blanks, gets, mbind. rewrite Hs. cbn [head deref mret i_buf i_off]. rewrite drop_app_length.
  rewrite length_app. set (buf := pre ++ bl ++ rest) in *. clearbody buf. generalize dependent (length pre). clear pre. intros off Hs.
  revert s off Hs. induction Hbl as [|ch bl Hch Hbl IH]; intros s off Hs; cbn [app length].
  - rewrite Nat.add_0_r. assert (s = at_line s fp buf off l) as E.
    { destruct s. unfold under in Hs. cbn in Hs. by subst. }
    destruct rest as [|ch rest]; cbn [skip_blanks]; [by rewrite <- E|]. rewrite (Hr ch) by done. by rewrite <- E.
  - cbn [skip_blanks]. rewrite Hch. unfold skipc, mbind. rewrite (top_input_at _ _ _ _ Hs).
    rewrite (IH _ (S off)) by (by destruct s). f_equal. destruct s. cbn. repeat f_equal. lia.
Qed.

(** The command behind the blanks is executed. *)
Lemma eval_command fuel s pre bl ch rest : under s (pre ++ bl ++ ch :: rest) (length pre) →
  Forall (λ ch, isspace_ ch = true) bl → isspace_ ch = false → ch ≠ 0 →
  eval fuel s = catch (command fuel ch) (at_line s fp (pre ++ bl ++ ch :: rest) (S (length (pre ++ bl))) l).
Proof.
  intros Hs Hbl Hch H0. unfold eval, catch, mbind. rewrite (skip_line_blanks_at s pre bl (ch :: rest)); [|done..|by intros ? [= <-]].
  rewrite (peekc_at _ (pre ++ bl) ch rest) by (rewrite <- app_assoc; apply under_set). rewrite decide_False by done.
  unfold skipc. rewrite (top_input_at _ _ (pre ++ bl ++ ch :: rest) (length (pre ++ bl))) by apply under_set. by destruct s.
Qed.
End line.

(** ** Operators *)

Definition op_fn (op : binop) : num → num → option num :=
  match op with
  | Add => addnum | Sub => subnum | Mul => mulnum 0 | Div => divnum 0 | Mod => modnum 0 | Pow => expnum 0
  end.

Lemma op_fn_ok op a b v : integer a → integer b → denote_op op (value (nbuf a)) (value (nbuf b)) = Some v →
  ∃ c, op_fn op a b = Some c ∧ integer c ∧ value (nbuf c) = v.
Proof.
  intros Ha Hb. pose proof Ha as [Hca Hsa]. pose proof Hb as [Hcb Hsb]. destruct op; simpl.
  - intros [= <-]. destruct (addnum_ok a b (canon_loose _ Hca) (canon_loose _ Hcb)) as (c & E & Hc & Hv & Hs).
    rewrite Hsa, Hsb in Hv, Hs. rewrite Z.max_id, Z.sub_diag, Z.pow_0_r, !Z.mul_1_l in Hv.
    exists c. split_and!; [done| |done]. split; [done|]. by case_decide.
  - intros [= <-]. destruct (subnum_ok a b Hca Hcb) as (c & E & Hc & Hv & Hs).
    rewrite Hsa, Hsb in Hv, Hs. rewrite Z.max_id, Z.sub_diag, Z.pow_0_r, !Z.mul_1_l in Hv.
    exists c. split_and!; [done| |done]. split; [done|]. by case_decide.
  - intros [= <-]. by apply mulnum_integer.
  - case_decide; [done|]. intros [= <-]. destruct (division_ok a b) as (_ & (q & ? & ? & ? & ?) & _); [done|done|congruence|done|].
    exists q. by split_and!.
  - case_decide; [done|]. intros [= <-]. destruct (division_ok a b) as (_ & _ & r & ? & ? & ? & ?); [done|done|congruence|done|].
    exists r. split_and!; [done| |done]. split; auto.
  - case_decide; [done|]. intros [= <-]. apply expnum_ok; [done|done|lia].
Qed.

Lemma op_command fuel op s : d_scale s = 0 → command fuel (op_char op) s = arith (op_fn op) s.
Proof. intros Hs. unfold command, gets, mbind at 1. rewrite Hs. by destruct op. Qed.

Lemma popnum_ok s n stk : d_stack s = NUM n :: stk → popnum s = Ok n (s <| d_stack := stk |>).
Proof. intros Hs. unfold popnum, pop, gets, modify, mbind. by rewrite Hs. Qed.
Lemma needstack_ok s k : (k ≤ length (d_stack s))%nat → needstack k s = Ok tt s.
Proof. intros Hs. unfold needstack, gets, mbind. by rewrite decide_False by lia. Qed.
Lemma arith_ok fn a b c s stk : d_stack s = NUM b :: NUM a :: stk → fn a b = Some c →
  arith fn s = Ok tt (s <| d_stack := NUM c :: stk |>).
Proof.
  intros Hs E. unfold arith. unfold mbind at 1. rewrite needstack_ok by (rewrite Hs; simpl; lia).
  unfold mbind at 1. rewrite (popnum_ok _ _ _ Hs). unfold mbind at 1. rewrite (popnum_ok _ a stk) by (by destruct s).
  rewrite E. by destruct s.
Qed.

Lemma find_command_digit fuel scale ch : digit_char ch → find_command ch (commands fuel scale) = None.
Proof.
  intros (d & Hd & E). assert (ch ∈ take 16 digits) as Hin.
  { apply list_elem_of_lookup. exists (Z.to_nat d). rewrite lookup_take by lia. by rewrite decide_True by lia. }
  clear E. repeat (apply elem_of_cons in Hin as [->|Hin]; [reflexivity|]). by apply not_elem_of_nil in Hin.
Qed.

(** ** Evaluation of an expression *)

Section evaluation.
Context (fp : option stream) (l : list input) (fuel : nat).

(** The state behind the text of an expression, with its value on the stack. *)
Definition pushed (s : dcstate) (n : num) (buf : list Z) (off : nat) : dcstate :=
  at_line s fp buf off l <| d_stack := NUM n :: d_stack s |>.

Lemma digit_char_blank ch : digit_char ch → isspace_ ch = false ∧ ch ≠ 0.
Proof.
  intros (d & Hd & E). assert (ch ∈ take 16 digits) as Hin.
  { apply list_elem_of_lookup. exists (Z.to_nat d). rewrite lookup_take by lia. by rewrite decide_True by lia. }
  clear E. repeat (apply elem_of_cons in Hin as [->|Hin]; [by split|]). by apply not_elem_of_nil in Hin.
Qed.

Lemma digit_char_digits ch : digit_char ch → ch = 95 ∨ strchr_digits ch ≠ None.
Proof. intros Hch. destruct (digit_char_ok ch Hch) as (d & _ & E & _). right. by rewrite E. Qed.

Lemma number_ok s pre ds stop rest : under fp l s (pre ++ ds ++ stop :: rest) (length pre) → 2 ≤ d_ibase s ≤ 16 →
  Forall (digit_of (d_ibase s)) ds → ds ≠ [] → strchr_digits stop = None →
  ∃ n, number fuel s = Ok tt (pushed s n (pre ++ ds ++ stop :: rest) (length (pre ++ ds))) ∧
  integer n ∧ value (nbuf n) = chars_value (d_ibase s) 0 ds.
Proof.
  intros Hs Hb Hds Hne Hst. destruct (tonum_integer fuel (d_ibase s) ds stop (rest ++ [0]) Hb Hds Hne Hst) as (n & E & Hn & Hv).
  exists n. split; [|done]. unfold number. rewrite (bind_run _ _ _ s s) by done. rewrite Hs.
  rewrite (bind_run _ _ _ (mkInput fp (Some (pre ++ ds ++ stop :: rest)) (length pre)) s) by done.
  rewrite (bind_run _ _ _ (pre ++ ds ++ stop :: rest) s) by done. cbn [i_off].
  rewrite <- app_assoc, drop_app_length, <- app_assoc. cbn [app]. rewrite E.
  rewrite (bind_run _ _ _ (n, length ds) s) by done. rewrite (bind_run _ _ _ tt _ (top_input_at fp l _ _ _ _ Hs)).
  rewrite length_app. by destruct s.
Qed.

Lemma eval_literal s pre ds stop rest : under fp l s (pre ++ 32 :: ds ++ stop :: rest) (length pre) → 2 ≤ d_ibase s ≤ 16 →
  Forall (digit_of (d_ibase s)) ds → ds ≠ [] → strchr_digits stop = None →
  ∃ n, eval fuel s = Ok tt (pushed s n (pre ++ 32 :: ds ++ stop :: rest) (length (pre ++ 32 :: ds))) ∧
  integer n ∧ value (nbuf n) = chars_value (d_ibase s) 0 ds.
Proof.
  intros Hs Hb Hds Hne Hst. destruct ds as [|ch ds]; [done|]. pose proof Hds as [Hch _]%Forall_cons.
  apply (digit_of_char (d_ibase s)) in Hch; [|lia]. destruct (digit_char_blank ch Hch) as [Hbl H0].
  set (s1 := at_line s fp (pre ++ 32 :: (ch :: ds) ++ stop :: rest) (length (pre ++ [32])) l).
  destruct (number_ok s1 (pre ++ [32]) (ch :: ds) stop rest) as (n & E & Hn & Hv); [|by destruct s..|].
  { rewrite <- app_assoc. apply under_set. }
  exists n. split; [|destruct s; done].
  rewrite (eval_command fp l fuel s pre [32] ch (ds ++ stop :: rest)); [|done|by constructor|done..].
  unfold catch, command. rewrite (bind_run _ _ _ (d_scale s) _) by (by destruct s). rewrite find_command_digit by done.
  rewrite decide_True by (by apply digit_char_digits).
  rewrite (bind_run _ _ _ tt _ (top_input_at fp l _ _ _ _ (under_set fp l _ _ _))).
  replace (at_line s fp _ _ l <| d_inputs := _ |>) with s1 by (by destruct s).
  rewrite E. rewrite <- !app_assoc. by destruct s.
Qed.

Lemma op_char_plain op : isspace_ (op_char op) = false ∧ op_char op ≠ 0 ∧ strchr_digits (op_char op) = None.
Proof. by destruct op. Qed.

Lemma eval_operator s pre op rest a b v stk : under fp l s (pre ++ op_char op :: rest) (length pre) → d_scale s = 0 →
  d_stack s = NUM b :: NUM a :: stk → integer a → integer b → denote_op op (value (nbuf a)) (value (nbuf b)) = Some v →
  ∃ c, eval fuel s = Ok tt (at_line s fp (pre ++ op_char op :: rest) (length (pre ++ [op_char op])) l <| d_stack := NUM c :: stk |>) ∧
  integer c ∧ value (nbuf c) = v.
Proof.
  intros Hs Hsc Hst Ha Hb Hv. destruct (op_fn_ok op a b v Ha Hb Hv) as (c & E & Hc & Hvc). exists c. split; [|done].
  destruct (op_char_plain op) as (Hbl & H0 & _). rewrite (eval_command fp l fuel s pre [] (op_char op) rest); [|done..]. unfold catch.
  rewrite op_command by (by destruct s). rewrite (arith_ok _ a b c _ stk); [|by destruct s|done].
  rewrite app_nil_r, length_app, Nat.add_1_r. by destruct s.
Qed.

Lemma postfix_head e : ∃ t, postfix e = 32 :: t.
Proof. induction e as [ds|op a [t Ht] b _]; simpl; [eauto|]. rewrite Ht. simpl. eauto. Qed.

Lemma loop_round s pre ch rest s' k : under fp l s (pre ++ ch :: rest) (length pre) → ch ≠ 0 → eval fuel s = Ok tt s' →
  dc_loop (S k) fuel s = dc_loop k fuel s'.
Proof.
  intros Hs Hch E. cbn [dc_loop]. rewrite (bind_run _ _ _ true s) by (by apply (moreinput_at fp l s pre ch rest)).
  by rewrite (bind_run _ _ _ tt s').
Qed.

Lemma loop_expr e s pre stop rest v k : under fp l s (pre ++ postfix e ++ stop :: rest) (length pre) → d_scale s = 0 →
  2 ≤ d_ibase s ≤ 16 → literals (d_ibase s) e → denote (d_ibase s) e = Some v → strchr_digits stop = None →
  ∃ n, dc_loop (size e + k) fuel s = dc_loop k fuel (pushed s n (pre ++ postfix e ++ stop :: rest) (length (pre ++ postfix e))) ∧
  integer n ∧ value (nbuf n) = v.
Proof.
  revert s pre stop rest v k. induction e as [ds|op a IHa b IHb]; intros s pre stop rest v k Hs Hsc Hb Hl Hd Hst; cbn in Hl, Hd.
  - destruct Hl as [Hds Hne]. injection Hd as <-. destruct (eval_literal s pre ds stop rest) as (n & E & Hn & Hv); [done..|].
    exists n. split; [|done]. by apply (loop_round s pre 32 (ds ++ stop :: rest)).
  - destruct Hl as [Hla Hlb]. apply bind_Some in Hd as (x & Hx & (y & Hy & Hv)%bind_Some).
    destruct (op_char_plain op) as (_ & H0 & Hop). destruct (postfix_head b) as [tb Hhb].
    set (buf := pre ++ postfix (Bin op a b) ++ stop :: rest) in *.
    assert (buf = pre ++ postfix a ++ 32 :: tb ++ op_char op :: stop :: rest) as E1
      by (unfold buf; cbn [postfix]; rewrite Hhb; cbn [app]; by rewrite <- !app_assoc; cbn [app]; rewrite <- !app_assoc).
    assert (buf = (pre ++ postfix a) ++ postfix b ++ op_char op :: stop :: rest) as E2
      by (unfold buf; cbn [postfix]; by rewrite <- !app_assoc).
    assert (buf = ((pre ++ postfix a) ++ postfix b) ++ op_char op :: stop :: rest) as E3 by (by rewrite E2, <- !app_assoc).
    rewrite E1 in Hs. destruct (IHa s pre 32 (tb ++ op_char op :: stop :: rest) x (size b + (1 + k))%nat) as (na & Ea & Hna & Hva); [done..|].
    rewrite <- E1 in Ea, Hs. set (sa := pushed s na buf (length (pre ++ postfix a))) in *.
    destruct (IHb sa (pre ++ postfix a) (op_char op) (stop :: rest) y (1 + k)%nat) as (nb & Eb & Hnb & Hvb); [|by destruct s..|done|].
    { rewrite <- E2. by destruct s. }
    rewrite <- E2 in Eb. set (sb := pushed sa nb buf (length ((pre ++ postfix a) ++ postfix b))) in *.
    destruct (eval_operator sb ((pre ++ postfix a) ++ postfix b) op (stop :: rest) na nb v (d_stack s)) as (c & Ec & Hc & Hvc); try by destruct s.
    { rewrite <- E3. by destruct s. }
    { by rewrite Hva, Hvb. }
    rewrite <- E3 in Ec. exists c. split; [|done]. cbn [size]. replace (size a + size b + 1 + k)%nat with (size a + (size b + (1 + k)))%nat by lia.
    rewrite Ea, Eb. erewrite loop_round; [|rewrite <- E3; by destruct s|done|exact Ec]. unfold pushed. cbn [postfix].
    rewrite <- !app_assoc. by destruct s.
Qed.
End evaluation.

(** ** A line with an expression and the print command *)

Lemma eval_print fp l fuel s pre rest n text stk : under fp l s (pre ++ 112 :: rest) (length pre) →
  d_stack s = NUM n :: stk → printnum (d_obase s) n = Some text →
  eval fuel s = Ok tt (at_line s fp (pre ++ 112 :: rest) (length (pre ++ [112])) l <| d_out := d_out s ++ text ++ [10] |>).
Proof.
  intros Hs Hst E. rewrite (eval_command fp l fuel s pre [] 112 rest) by done. unfold catch, command.
  rewrite (bind_run _ _ _ (d_scale s) _) by (by destruct s). cbn [find_command commands]. rewrite decide_False by done. rewrite decide_True by done.
  unfold pop. rewrite (bind_run _ _ _ (NUM n) (at_line s fp (pre ++ 112 :: rest) (length (pre ++ [112])) l <| d_stack := stk |>)).
  2: { destruct s. cbn in Hst. subst. unfold at_line. rewrite app_nil_r, length_app, Nat.add_1_r. done. }
  unfold printval, gets, puts_, modify, mbind, push. destruct s. cbn in Hst, E |- *. subst. rewrite E. rewrite (app_assoc d_out text [10]). done.
Qed.

Lemma eval_end fp l fuel s pre : under fp l s (pre ++ [10]) (length pre) →
  eval fuel s = Ok tt (at_line s fp (pre ++ [10]) (length (pre ++ [10])) l).
Proof.
  intros Hs. unfold eval, catch, mbind. rewrite (skip_line_blanks_at fp l s pre [10] []); [|done|by constructor|done].
  rewrite app_nil_r. rewrite (peekc_end fp l _ (pre ++ [10])) by apply under_set. done.
Qed.

(** The loop ends when the line and standard input are read. *)
Lemma loop_end fuel s buf k : under (Some Stdin) [] s buf (length buf) → d_stdin s = Some [] →
  dc_loop (S k) fuel s = Ok tt (s <| d_stdin := None |> <| d_inputs := [] |>).
Proof.
  intros Hs Hin. cbn [dc_loop]. rewrite (bind_run _ _ _ false (s <| d_stdin := None |> <| d_inputs := [] |>)); [done|].
  unfold moreinput, gets, mbind. rewrite Hs. cbn [moreinput_from i_buf i_off i_fp]. rewrite list_lookup_middle by done.
  cbn [deref]. unfold getline, gets, mbind, mret. cbn. rewrite decide_False by (intros []; done). by rewrite Hin.
Qed.

(** ** Programs *)

(** What a program given on standard input prints. *)
Definition output (text : string) : option cstr :=
  match dc_main (λ _, None) 400 400 [] (dc_start (map bytes_of (split_lines_from [] (lit text)))) with
  | Ok _ s => Some (map char_of (d_out s))
  | _ => None
  end.
Definition line (l : list string) : option cstr := Some (concat (map (λ s, lit s ++ [NL]) l)).
(** The text on one line, with its newline. *)
Definition prog (s : string) : option cstr := output (s ++ String "010" EmptyString).

Example factorial : prog "5[d1-d1<F*]dsFxp" = line ["120"].
Proof. vm_compute. reflexivity. Qed.
Example register_stack : prog "1Sa 2Sa La p La p" = line ["2"; "1"].
Proof. vm_compute. reflexivity. Qed.
Example array_elements : prog "7 3:a 3;ap 2;ap" = line ["7"; "0"].
Proof. vm_compute. reflexivity. Qed.
(** The quotient and remainder of -95 by 7 at scale 1 are -13.5 and -.5. *)
Example divmod_negative : prog "1k _95 7~psap" = line ["6.5"; "-16.8"].
Proof. vm_compute. reflexivity. Qed.
(** A negative number is as long as its complement. *)
Example length_negative : prog "_5Zp" = line ["3"].
Proof. vm_compute. reflexivity. Qed.
(** A macro that ends in a number or in a command that needs a register name is
    read beyond its end. *)
Example macro_end_number : prog "[5]xp" = None.
Proof. vm_compute. reflexivity. Qed.
Example macro_end_register : prog "1[s]x" = None.
Proof. vm_compute. reflexivity. Qed.

(** C10: dc is a calculator.  An expression over decimal integers with + - * / %
    and ^, written in postfix on a line and followed by p, is scanned, evaluated
    on the stack and printed: within one round of the loop for each token and
    three more, dc ends without an error and has written the value the expression
    has in the integers, whatever its sign and size, and a newline.  The value is
    written as a minus sign if it is negative and the shortest decimal digits of
    its magnitude, on lines of 69 characters that a backslash continues. *)
Theorem dc_calculates open_file e v k fuel : literals 10 e → denote 10 e = Some v →
  ∃ text ds s', dc_main open_file (size e + (3 + k)) fuel [] (dc_start [postfix e ++ [112; 10]]) = Ok 0 s' ∧
  d_out s' = text ++ [10] ∧ d_err s' = [] ∧ wrapped text (sign_of v ++ ds) ∧ Forall (digit_of 10) ds ∧ ds ≠ [] ∧
  chars_value 10 0 ds = Z.abs v ∧ ∀ k, (0 < k)%nat → Z.abs v < 10 ^ Z.of_nat k → (length ds ≤ k)%nat.
Proof.
  intros Hl Hd. set (line := postfix e ++ [112; 10]). set (s0 := at_line (dc_start []) (Some Stdin) line 0 []).
  set (s1 := dc_start [line] <| d_inputs := [mkInput (Some Stdin) None 0] |>).
  destruct (loop_expr (Some Stdin) [] fuel e s0 [] 112 [10] v (3 + k)) as (n & E & Hn & Hvn); [done|done|cbn; lia|done|done|done|].
  destruct (printnum_any 10 n) as (text & ds & Hp & Hshown); [lia|done|]. rewrite Hvn in Hshown.
  exists text, ds. eexists. split; [|split_and!; [| |apply Hshown..]].
  - unfold dc_main. rewrite (bind_run _ _ _ ([], tt) (dc_start [line])) by done. cbn [mforeach fst].
    rewrite (bind_run _ _ _ tt (dc_start [line])) by done. unfold dc. rewrite decide_True by done.
    assert (dc_loop (size e + (3 + k)) fuel s1 = dc_loop (size e + (3 + k)) fuel s0) as Hfirst.
    { replace (size e + (3 + k))%nat with (S (size e + (2 + k)))%nat by lia. cbn [dc_loop]. destruct (postfix_head e) as [t Ht].
      rewrite (bind_run _ _ _ true s0) by done. rewrite (bind_run moreinput _ s0 true s0); [done|].
      apply (moreinput_at (Some Stdin) [] s0 [] 32 (t ++ [112; 10])); [|done]. unfold s0, line. by rewrite Ht. }
    unfold mbind. cbn [mret]. change (addinput (Some Stdin) None (dc_start [line])) with (Ok tt s1). cbn iota. rewrite Hfirst, E. cbn [app Nat.add].
    erewrite loop_round; [|apply (under_set (Some Stdin) [] _ line)|done|].
    2: { apply (eval_print (Some Stdin) [] fuel _ (postfix e) [10] n text []); [done|done|exact Hp]. }
    rewrite (loop_round (Some Stdin) [] fuel _ (postfix e ++ [112]) 10 [] (at_line (pushed (Some Stdin) [] s0 n line (length (postfix e)) <| d_out := text ++ [10] |>) (Some Stdin) line (length line) [])); [| |done|].
    2: { unfold under. rewrite <- app_assoc. done. }
    2: { rewrite (eval_end (Some Stdin) [] fuel _ (postfix e ++ [112])); [|unfold under; by rewrite <- app_assoc]. unfold line. by rewrite <- !app_assoc. }
    rewrite (loop_end fuel _ line); [reflexivity|apply under_set|done].
  - done.
  - done.
Qed.

(** 2 ^ 3 - (12 + 30) * 5 is -202. *)
Lemma dc_calculates_witness : let e := Bin Sub (Bin Pow (Lit [50]) (Lit [51])) (Bin Mul (Bin Add (Lit [49; 50]) (Lit [51; 48])) (Lit [53])) in
  ∃ text ds s', dc_main (λ _, None) (size e + (3 + 0)) 9 [] (dc_start [postfix e ++ [112; 10]]) = Ok 0 s' ∧
  d_out s' = text ++ [10] ∧ d_err s' = [] ∧ wrapped text (45 :: ds) ∧ Forall (digit_of 10) ds ∧ ds ≠ [] ∧
  chars_value 10 0 ds = 202 ∧ ∀ k, (0 < k)%nat → 202 < 10 ^ Z.of_nat k → (length ds ≤ k)%nat.
Proof.
  intros e. apply (dc_calculates (λ _, None) e (-202) 0 9).
  - repeat split; try done; repeat constructor;
      [exists 2|exists 3|exists 1|exists 2|exists 3|exists 0|exists 5]; (split; [lia|reflexivity]).
  - reflexivity.
Defined.
