(* ===== verification/Inflate.v ===== *)
(** * gzip: the deflate decoder of src/cmd/pseudo/gzip.c

    [inflate_raw] and what it calls.  Memory that is not initialised is a cell
    without a value, and reading one is [Ub], as is an index outside an array.
    [longjmp], taken when the input ends too early, is [Die], which [inflate_raw]
    catches.  The destination is an array or NULL, for the pass that only
    measures.  Counters are natural numbers: no input is long enough to wrap them.
    The codes that inflate_fixed keeps in static variables after its first call
    are constants. *)

From S2P Require Import Prelude.

Local Open Scope Z_scope.

Definition MAXBITS : nat := 15.
Definition MAXLCODES : nat := 286.
Definition MAXDCODES : nat := 30.
Definition MAXCODES : nat := MAXLCODES + MAXDCODES.
Definition FIXLCODES : nat := 288.

(** ** Arrays *)

Abbreviation array := (list (option Z)).
Definition unset (n : nat) : array := replicate n None.
Definition rd {S} (a : array) (i : nat) : M S Z :=
  match a !! i with Some (Some v) => mret v | _ => mub end.
Definition wr {S} (a : array) (i : nat) (v : Z) : M S array :=
  if decide (i < length a)%nat then mret (<[i := Some v]> a) else mub.

(** ** State *)

Record InflateState := mkInflate {
  s_out : option array;
  s_outlen : nat;
  s_outcnt : nat;
  s_in : list Z;
  s_inlen : nat;
  s_incnt : nat;
  s_bitbuf : Z;
  s_bitcnt : Z;
}.
#[export] Instance eta_inflate : Eta InflateState := λ s,
  mkInflate (s_out s) (s_outlen s) (s_outcnt s) (s_in s) (s_inlen s) (s_incnt s) (s_bitbuf s) (s_bitcnt s).

Record Huffman := mkHuffman { h_count : list Z; h_symbol : array }.

(** [s->in[s->incnt++]] *)
Definition in_byte : M InflateState Z :=
  s <- gets id ;;
  b <- deref (s_in s !! s_incnt s) ;;
  modify (set s_incnt S) ;;
  mret b.
(** The same where the end of the input is a jump back. *)
Definition next_byte : M InflateState Z :=
  s <- gets id ;;
  if decide (s_incnt s = s_inlen s) then eprintf [] else in_byte.

(** ** inflate_bits *)

Fixpoint bits_loop (fuel : nat) (need val : Z) : M InflateState Z :=
  bitcnt <- gets s_bitcnt ;;
  if decide (bitcnt < need) then
    match fuel with
    | O => mfuel
    | S fuel =>
        b <- next_byte ;;
        modify (set s_bitcnt (λ n, n + 8)) ;;
        bits_loop fuel need (Z.lor val (Z.shiftl b bitcnt))
    end
  else mret val.
(** A round adds a byte, so [need] of them are more than enough. *)
Definition inflate_bits (need : Z) : M InflateState Z :=
  bitbuf <- gets s_bitbuf ;;
  val <- bits_loop (Z.to_nat need) need bitbuf ;;
  modify (set s_bitbuf (λ _, Z.shiftr val need)) ;;
  modify (set s_bitcnt (λ n, n - need)) ;;
  mret (Z.land val (Z.shiftl 1 need - 1)).

(** ** inflate_stored *)

(** [s->out[s->outcnt++] = v] *)
Definition put_out (v : Z) : M InflateState unit :=
  s <- gets id ;;
  match s_out s with
  | None => mub
  | Some a =>
      a <- wr a (s_outcnt s) v ;;
      modify (set s_out (λ _, Some a)) ;;
      modify (set s_outcnt S)
  end.

Fixpoint copy_stored (len : nat) : M InflateState unit :=
  match len with
  | O => mret tt
  | S len => b <- in_byte ;; put_out b ;; copy_stored len
  end.

Definition inflate_stored : M InflateState Z :=
  modify (set s_bitbuf (λ _, 0)) ;;
  modify (set s_bitcnt (λ _, 0)) ;;
  s <- gets id ;;
  if decide (s_inlen s < s_incnt s + 4)%nat then mret 2
  else
    lo <- in_byte ;;
    hi <- in_byte ;;
    let len := Z.lor lo (Z.shiftl hi 8) in
    c0 <- in_byte ;;
    if decide (c0 ≠ Z.land (Z.lnot len) 255) then mret (-2)
    else
      c1 <- in_byte ;;
      if decide (c1 ≠ Z.land (Z.shiftr (Z.lnot len) 8) 255) then mret (-2)
      else
        let len := Z.to_nat len in
        s <- gets id ;;
        if decide (s_inlen s < s_incnt s + len)%nat then mret 2
        else
          match s_out s with
          | Some _ =>
              if decide (s_outlen s < s_outcnt s + len)%nat then mret 1
              else copy_stored len ;; mret 0
          | None =>
              modify (set s_outcnt (λ n, n + len)%nat) ;;
              modify (set s_incnt (λ n, n + len)%nat) ;;
              mret 0
          end.

(** ** inflate_decode *)

(** The two loops as one: [left_] bits of [bitbuf] are still to be looked at, and
    the next byte follows them. *)
Fixpoint decode_loop (fuel : nat) (h : Huffman) (code first index : Z) (len : nat) (bitbuf : Z) (left_ : nat) : M InflateState Z :=
  match fuel with
  | O => mfuel
  | S fuel =>
      match left_ with
      | S left_ =>
          let code := Z.lor code (Z.land bitbuf 1) in
          let bitbuf := Z.shiftr bitbuf 1 in
          count <- deref (h_count h !! len) ;;
          if decide (code - count < first) then
            modify (set s_bitbuf (λ _, bitbuf)) ;;
            modify (set s_bitcnt (λ n, Z.land (n - Z.of_nat len) 7)) ;;
            (if decide (index + (code - first) < 0) then mub else rd (h_symbol h) (Z.to_nat (index + (code - first))))
          else
            decode_loop fuel h (Z.shiftl code 1) (Z.shiftl (first + count) 1) (index + count) (S len) bitbuf left_
      | O =>
          let left_ := (S MAXBITS - len)%nat in
          if decide (left_ = 0%nat) then mret (-10)
          else
            b <- next_byte ;;
            decode_loop fuel h code first index len b (if decide (8 < left_)%nat then 8 else left_)%nat
      end
  end.
(** At most 15 bits, and a byte is fetched before at most 15 of them. *)
Definition inflate_decode (h : Huffman) : M InflateState Z :=
  s <- gets id ;;
  decode_loop 32 h 0 0 0 1 (s_bitbuf s) (Z.to_nat (s_bitcnt s)).

(** ** huffman_construct *)

Section construct.
Context {S : Type}.

Fixpoint count_lengths (length : array) (symbols : list nat) (count : list Z) : M S (list Z) :=
  match symbols with
  | [] => mret count
  | symbol :: symbols =>
      l <- rd length symbol ;;
      c <- deref (count !! Z.to_nat l) ;;
      count_lengths length symbols (<[Z.to_nat l := c + 1]> count)
  end.

(** [false] for the early return. *)
Fixpoint subscribe (count : list Z) (lens : list nat) (left_ : Z) : M S (bool * Z) :=
  match lens with
  | [] => mret (true, left_)
  | len :: lens =>
      c <- deref (count !! len) ;;
      let left_ := Z.shiftl left_ 1 - c in
      if decide (left_ < 0) then mret (false, left_) else subscribe count lens left_
  end.

Fixpoint offsets (count : list Z) (lens : list nat) (offs : array) : M S array :=
  match lens with
  | [] => mret offs
  | len :: lens =>
      o <- rd offs len ;;
      c <- deref (count !! len) ;;
      offs <- wr offs (Datatypes.S len) (o + c) ;;
      offsets count lens offs
  end.

Fixpoint place (length : array) (symbols : list nat) (offs symbol_ : array) : M S array :=
  match symbols with
  | [] => mret symbol_
  | symbol :: symbols =>
      l <- rd length symbol ;;
      if decide (l ≠ 0) then
        o <- rd offs (Z.to_nat l) ;;
        symbol_ <- wr symbol_ (Z.to_nat o) (Z.of_nat symbol) ;;
        offs <- wr offs (Z.to_nat l) (o + 1) ;;
        place length symbols offs symbol_
      else place length symbols offs symbol_
  end.

(** The result and the tables, for a code whose arrays are [h]. *)
Definition huffman_construct (h : Huffman) (length : array) (n : nat) : M S (Z * Huffman) :=
  count <- count_lengths length (seq 0 n) (replicate (Datatypes.S MAXBITS) 0) ;;
  c0 <- deref (count !! 0%nat) ;;
  if decide (c0 = Z.of_nat n) then mret (0, mkHuffman count (h_symbol h))
  else
    p <- subscribe count (seq 1 MAXBITS) 1 ;;
    match p with
    | (false, left_) => mret (left_, mkHuffman count (h_symbol h))
    | (true, left_) =>
        offs <- wr (unset (Datatypes.S MAXBITS)) 1 0 ;;
        offs <- offsets count (seq 1 (MAXBITS - 1)) offs ;;
        symbol <- place length (seq 0 n) offs (h_symbol h) ;;
        mret (left_, mkHuffman count symbol)
    end.
End construct.

(** ** inflate_codes *)

Definition lens : list Z := [3; 4; 5; 6; 7; 8; 9; 10; 11; 13; 15; 17; 19; 23; 27; 31; 35; 43; 51; 59; 67; 83; 99; 115; 131; 163; 195; 227; 258].
Definition lext : list Z := [0; 0; 0; 0; 0; 0; 0; 0; 1; 1; 1; 1; 2; 2; 2; 2; 3; 3; 3; 3; 4; 4; 4; 4; 5; 5; 5; 5; 0].
Definition dists : list Z := [1; 2; 3; 4; 5; 7; 9; 13; 17; 25; 33; 49; 65; 97; 129; 193; 257; 385; 513; 769; 1025; 1537; 2049; 3073; 4097; 6145; 8193; 12289; 16385; 24577].
Definition dext : list Z := [0; 0; 0; 0; 1; 1; 2; 2; 3; 3; 4; 4; 5; 5; 6; 6; 7; 7; 8; 8; 9; 9; 10; 10; 11; 11; 12; 12; 13; 13].

Fixpoint copy_match (len dist : nat) : M InflateState unit :=
  match len with
  | O => mret tt
  | S len =>
      s <- gets id ;;
      match s_out s with
      | None => mub
      | Some a =>
          v <- (if decide (s_outcnt s < dist)%nat then mub else rd a (s_outcnt s - dist)) ;;
          put_out v ;;
          copy_match len dist
      end
  end.

Fixpoint codes_loop (fuel : nat) (lencode distcode : Huffman) : M InflateState Z :=
  match fuel with
  | O => mfuel
  | S fuel =>
      symbol <- inflate_decode lencode ;;
      if decide (symbol < 0) then mret symbol
      else if decide (symbol < 256) then
        s <- gets id ;;
        match s_out s with
        | Some _ =>
            if decide (s_outcnt s = s_outlen s) then mret 1
            else put_out symbol ;; codes_loop fuel lencode distcode
        | None => modify (set s_outcnt S) ;; codes_loop fuel lencode distcode
        end
      else if decide (256 < symbol) then
        let symbol := Z.to_nat (symbol - 257) in
        if decide (29 ≤ symbol)%nat then mret (-10)
        else
          l <- deref (lens !! symbol) ;;
          e <- deref (lext !! symbol) ;;
          x <- inflate_bits e ;;
          let len := Z.to_nat (l + x) in
          symbol <- inflate_decode distcode ;;
          if decide (symbol < 0) then mret symbol
          else
            d <- deref (dists !! Z.to_nat symbol) ;;
            e <- deref (dext !! Z.to_nat symbol) ;;
            x <- inflate_bits e ;;
            let dist := Z.to_nat (d + x) in
            s <- gets id ;;
            if decide (s_outcnt s < dist)%nat then mret (-11)
            else
              match s_out s with
              | Some _ =>
                  if decide (s_outlen s < s_outcnt s + len)%nat then mret 1
                  else copy_match len dist ;; codes_loop fuel lencode distcode
              | None => modify (set s_outcnt (λ n, n + len)%nat) ;; codes_loop fuel lencode distcode
              end
      else mret 0
  end.
(** Each round decodes a symbol of at least one bit. *)
Definition bits_left (s : InflateState) : nat := 8 * (s_inlen s - s_incnt s) + Z.to_nat (s_bitcnt s).
Definition inflate_codes (lencode distcode : Huffman) : M InflateState Z :=
  n <- gets bits_left ;; codes_loop (S n) lencode distcode.

(** ** Blocks *)

Definition fixed_lengths : list Z :=
  replicate 144 8 ++ replicate 112 9 ++ replicate 24 7 ++ replicate 8 8.
Definition inflate_fixed : M InflateState Z :=
  p <- huffman_construct (mkHuffman [] (unset FIXLCODES)) (map Some fixed_lengths) FIXLCODES ;;
  q <- huffman_construct (mkHuffman [] (unset MAXDCODES)) (replicate MAXDCODES (Some 5)) MAXDCODES ;;
  inflate_codes (snd p) (snd q).

Definition order : list nat := [16; 17; 18; 0; 8; 7; 9; 6; 10; 5; 11; 4; 12; 3; 13; 2; 14; 1; 15]%nat.

Fixpoint read_lengths (idxs : list nat) (lengths : array) : M InflateState array :=
  match idxs with
  | [] => mret lengths
  | i :: idxs =>
      v <- inflate_bits 3 ;;
      lengths <- wr lengths i v ;;
      read_lengths idxs lengths
  end.
Fixpoint fill {S} (idxs : list nat) (v : Z) (lengths : array) : M S array :=
  match idxs with
  | [] => mret lengths
  | i :: idxs => lengths <- wr lengths i v ;; fill idxs v lengths
  end.

(** The loop for the lengths of both codes; a round sets at least one, so
    the number that is left is its measure.  [inl] is an early return. *)
Fixpoint lengths_loop (fuel : nat) (lencode : Huffman) (total index : nat) (lengths : array) : M InflateState (Z + array) :=
  if decide (index < total)%nat then
    match fuel with
    | O => mfuel
    | S fuel =>
        symbol <- inflate_decode lencode ;;
        if decide (symbol < 0) then mret (inl symbol)
        else if decide (symbol < 16) then
          lengths <- wr lengths index symbol ;;
          lengths_loop fuel lencode total (S index) lengths
        else if decide (symbol = 16 ∧ index = 0%nat) then mret (inl (-5))
        else
          p <- (if decide (symbol = 16) then
                  len <- rd lengths (index - 1) ;; x <- inflate_bits 2 ;; mret (len, 3 + x)
                else if decide (symbol = 17) then x <- inflate_bits 3 ;; mret (0, 3 + x)
                else x <- inflate_bits 7 ;; mret (0, 11 + x)) ;;
          let n := Z.to_nat (snd p) in
          if decide (total < index + n)%nat then mret (inl (-6))
          else
            lengths <- fill (seq index n) (fst p) lengths ;;
            lengths_loop fuel lencode total (index + n) lengths
    end
  else mret (inr lengths).

(** [err && (err < 0 || n != count[0] + count[1])] *)
Definition bad_code {S} (err : Z) (h : Huffman) (n : nat) : M S bool :=
  if decide (err = 0) then mret false
  else if decide (err < 0) then mret true
  else
    c0 <- deref (h_count h !! 0%nat) ;;
    c1 <- deref (h_count h !! 1%nat) ;;
    mret (bool_decide (Z.of_nat n ≠ c0 + c1)).

Definition inflate_dynamic : M InflateState Z :=
  x <- inflate_bits 5 ;;
  let nlen := Z.to_nat (x + 257) in
  x <- inflate_bits 5 ;;
  let ndist := Z.to_nat (x + 1) in
  x <- inflate_bits 4 ;;
  let ncode := Z.to_nat (x + 4) in
  if decide (MAXLCODES < nlen ∨ MAXDCODES < ndist)%nat then mret (-3)
  else
    lengths <- read_lengths (take ncode order) (unset MAXCODES) ;;
    lengths <- fill (drop ncode order) 0 lengths ;;
    p <- huffman_construct (mkHuffman [] (unset MAXLCODES)) lengths 19 ;;
    let '(err, lencode) := p in
    if decide (err ≠ 0) then mret (-4)
    else
      r <- lengths_loop (nlen + ndist) lencode (nlen + ndist) 0 lengths ;;
      match r with
      | inl err => mret err
      | inr lengths =>
          v <- rd lengths 256 ;;
          if decide (v = 0) then mret (-9)
          else
            p <- huffman_construct lencode lengths nlen ;;
            let '(err, lencode) := p in
            bad <- bad_code err lencode nlen ;;
            if bad : bool then mret (-7)
            else
              p <- huffman_construct (mkHuffman [] (unset MAXDCODES)) (drop nlen lengths) ndist ;;
              let '(err, distcode) := p in
              bad <- bad_code err distcode ndist ;;
              if bad : bool then mret (-8) else inflate_codes lencode distcode
      end.

Fixpoint blocks_loop (fuel : nat) : M InflateState Z :=
  match fuel with
  | O => mfuel
  | S fuel =>
      last <- inflate_bits 1 ;;
      type <- inflate_bits 2 ;;
      err <- (if decide (type = 0) then inflate_stored
              else if decide (type = 1) then inflate_fixed
              else if decide (type = 2) then inflate_dynamic
              else mret (-1)) ;;
      if decide (err ≠ 0) then mret err
      else if decide (last = 0) then blocks_loop fuel else mret 0
  end.

(** The error and the final state, of which the caller sees [outcnt], [incnt]
    and the destination. *)
Definition inflate_raw {S} (dest : option array) (destlen : nat) (source : list Z) (sourcelen : nat) : M S (Z * InflateState) := λ st,
  let s := mkInflate dest destlen 0 source sourcelen 0 0 0 in
  match blocks_loop (Datatypes.S (bits_left s)) s with
  | Ok err s => Ok (err, s) st
  | Die _ s => Ok (2, s) st
  | Ub => Ub
  | Fuel => Fuel
  end.
