(* ===== verification/Deflate.v ===== *)
(** * The deflate format (RFC 1951)

    What a deflate stream means, on the sequence of its bits: bytes give their
    bits from the least significant one, numbers are read the same way, and
    Huffman codewords from their first bit.  A code is given by the lengths of
    the codewords of its symbols; the codewords are the canonical ones of
    section 3.2.2.  The decoder of gzip is related to this in InflateFacts.
    Errors carry the number that the program returns for them. *)

From S2P Require Import Prelude Stdio.

Local Open Scope Z_scope.

(** ** Bits *)

Definition byte_bits (b : Z) : list bool := map (λ i, Z.testbit b (Z.of_nat i)) (seq 0 8).
Definition stream (bytes : list Z) : list bool := concat (map byte_bits bytes).
(** A number from its least, and from its most significant bit. *)
Fixpoint lsb (bs : list bool) : Z :=
  match bs with [] => 0 | b :: bs => Z.b2z b + 2 * lsb bs end.
Definition msb (bs : list bool) : Z := fold_left (λ v b, 2 * v + Z.b2z b) bs 0.

(** Readers of the stream: an error, or a result and the bits behind it. *)
Definition D (A : Type) : Type := list bool → Z + A * list bool.
Definition dret {A} (a : A) : D A := λ bs, inr (a, bs).
Definition derr {A} (e : Z) : D A := λ _, inl e.
Definition dbind {A B} (m : D A) (k : A → D B) : D B := λ bs,
  match m bs with inl e => inl e | inr (a, bs) => k a bs end.
Notation "'do' x <- m ; k" := (dbind m (λ x, k)) (at level 100, x pattern, m at next level, k at level 200, right associativity).

Definition short : Z := 2.
Definition bits (n : nat) : D Z := λ bs,
  if decide (length bs < n)%nat then inl short else inr (lsb (take n bs), drop n bs).

(** ** Canonical Huffman codes *)

Definition count_of (ls : list nat) (len : nat) : Z := Z.of_nat (length (filter (λ l, l = len) ls)).
(** The first codeword of a length. *)
Fixpoint first_code (ls : list nat) (len : nat) : Z :=
  match len with
  | O => 0
  | S len => match len with O => 0 | S _ => 2 * (first_code ls len + count_of ls len) end
  end.
(** Codewords of a length are given to its symbols in order. *)
Definition code_of (ls : list nat) (sym : nat) (len : nat) : Z := first_code ls len + count_of (take sym ls) len.

Definition is_code (ls : list nat) (len : nat) (code : Z) (sym : nat) : Prop :=
  ls !! sym = Some len ∧ code_of ls sym len = code.
#[export] Instance is_code_dec ls len code sym : Decision (is_code ls len code sym).
Proof. unfold is_code. apply _. Defined.

(** The symbol of the codeword that starts the stream. *)
Fixpoint search (ls : list nat) (k len : nat) (bs : list bool) : Z + nat * list bool :=
  match k with
  | O => inl (-10)
  | S k =>
      if decide (length bs < len)%nat then inl short
      else
        match list_find (is_code ls len (msb (take len bs))) (seq 0 (length ls)) with
        | Some (_, sym) => inr (sym, drop len bs)
        | None => search ls k (S len) bs
        end
  end.
Definition decode (ls : list nat) : D nat := search ls 15 1.

(** What the codewords leave of the codewords of 15 bits. *)
Definition kraft (ls : list nat) : Z :=
  2 ^ 15 - fold_right (λ l v, (if decide (l = 0%nat) then 0 else 2 ^ (15 - Z.of_nat l)) + v) 0 ls.
Definition no_code (ls : list nat) : Prop := Forall (λ l, l = 0%nat) ls.
(** All codewords are used. *)
Definition complete (ls : list nat) : Prop := no_code ls ∨ kraft ls = 0.
(** A single codeword of one bit may leave the other one unused. *)
Definition usable (ls : list nat) : Prop := complete ls ∨ (0 < kraft ls ∧ Forall (λ l, l ≤ 1)%nat ls).
#[export] Instance complete_dec ls : Decision (complete ls).
Proof. unfold complete, no_code. apply _. Defined.
#[export] Instance usable_dec ls : Decision (usable ls).
Proof. unfold usable. apply _. Defined.

(** ** Lengths and distances (section 3.2.5)

    Ranges follow each other, of two to the number of extra bits each. *)

Definition length_extra (i : nat) : nat := if decide (i < 8 ∨ i = 28)%nat then 0 else Nat.div i 4 - 1.
Definition dist_extra (i : nat) : nat := if decide (i < 4)%nat then 0 else Nat.div i 2 - 1.
Definition bases (start : Z) (extra : nat → nat) (i : nat) : Z :=
  start + fold_right (λ j v, 2 ^ Z.of_nat (extra j) + v) 0 (seq 0 i).
Definition length_base (i : nat) : Z := if decide (i = 28%nat) then 258 else bases 3 length_extra i.
Definition dist_base (i : nat) : Z := bases 1 dist_extra i.

(** The copy of [n] bytes from [d] bytes before the end. *)
Fixpoint repeat_from (n d : nat) (out : list Z) : list Z :=
  match n with
  | O => out
  | S n => repeat_from n d (out ++ [nth (length out - d) out 0])
  end.

(** ** Blocks *)

Section blocks.
(** The room there is for the output, if that is limited. *)
Context (cap : option nat).
Definition fits (n : nat) : Prop := match cap with None => True | Some c => (n ≤ c)%nat end.
#[export] Instance fits_dec n : Decision (fits n).
Proof. unfold fits. destruct cap; apply _. Defined.

Fixpoint symbols (fuel : nat) (lit dist : list nat) (out : list Z) : D (list Z) :=
  match fuel with
  | O => derr 0
  | S fuel =>
      do sym <- decode lit;
      if decide (sym < 256)%nat then
        if decide (fits (S (length out))) then symbols fuel lit dist (out ++ [Z.of_nat sym]) else derr 1
      else if decide (sym = 256%nat) then dret out
      else
        let i := (sym - 257)%nat in
        if decide (29 ≤ i)%nat then derr (-10)
        else
          do x <- bits (length_extra i);
          let len := Z.to_nat (length_base i + x) in
          do j <- decode dist;
          do y <- bits (dist_extra j);
          let d := Z.to_nat (dist_base j + y) in
          if decide (length out < d)%nat then derr (-11)
          else if decide (fits (length out + len)) then symbols fuel lit dist (repeat_from len d out)
          else derr 1
  end.
Definition compressed (lit dist : list nat) (out : list Z) : D (list Z) := λ bs,
  symbols (S (length bs)) lit dist out bs.

(** Bytes of the stream; it is at a byte boundary. *)
Fixpoint take_bytes (n : nat) (bs : list bool) : list Z :=
  match n with O => [] | S n => lsb (take 8 bs) :: take_bytes n (drop 8 bs) end.

Definition stored (out : list Z) : D (list Z) := λ bs,
  let bs := drop (Nat.modulo (length bs) 8) bs in
  (do len <- bits 16;
   do nlen <- bits 16;
   if decide (len + nlen ≠ 2 ^ 16 - 1) then derr (-2)
   else λ bs,
     let n := Z.to_nat len in
     if decide (length bs < 8 * n)%nat then inl short
     else if decide (fits (length out + n)) then inr (out ++ take_bytes n bs, drop (8 * n) bs)
     else inl 1) bs.

Definition fixed_lit : list nat := replicate 144 8%nat ++ replicate 112 9%nat ++ replicate 24 7%nat ++ replicate 8 8%nat.
Definition fixed_dist : list nat := replicate 30 5%nat.
Definition fixed (out : list Z) : D (list Z) := compressed fixed_lit fixed_dist out.

Definition length_order : list nat := [16; 17; 18; 0; 8; 7; 9; 6; 10; 5; 11; 4; 12; 3; 13; 2; 14; 1; 15]%nat.
Fixpoint many {A} (n : nat) (m : D A) : D (list A) :=
  match n with O => dret [] | S n => do x <- m; do xs <- many n m; dret (x :: xs) end.
(** The lengths of the code for code lengths, in the order of the format. *)
Definition cl_lengths (vs : list Z) : list nat :=
  fold_left (λ l p, <[fst p := Z.to_nat (snd p)]> l) (zip length_order vs) (replicate 19 0%nat).

(** Code lengths with their runs, until there are [total]. *)
Fixpoint lengths (fuel : nat) (cl : list nat) (total : nat) (ls : list nat) : D (list nat) :=
  if decide (length ls < total)%nat then
    match fuel with
    | O => derr 0
    | S fuel =>
        do sym <- decode cl;
        if decide (sym < 16)%nat then lengths fuel cl total (ls ++ [sym])
        else if decide (sym = 16 ∧ ls = [])%nat then derr (-5)
        else
          do run <- (if decide (sym = 16)%nat then do x <- bits 2; dret (default 0%nat (last ls), 3 + x)
                     else if decide (sym = 17)%nat then do x <- bits 3; dret (0%nat, 3 + x)
                     else do x <- bits 7; dret (0%nat, 11 + x));
          let n := Z.to_nat (snd run) in
          if decide (total < length ls + n)%nat then derr (-6)
          else lengths fuel cl total (ls ++ replicate n (fst run))
    end
  else dret ls.

Definition dynamic (out : list Z) : D (list Z) :=
  do hlit <- bits 5;
  do hdist <- bits 5;
  do hclen <- bits 4;
  let nlen := Z.to_nat (hlit + 257) in
  let ndist := Z.to_nat (hdist + 1) in
  if decide (286 < nlen ∨ 30 < ndist)%nat then derr (-3)
  else
    do vs <- many (Z.to_nat (hclen + 4)) (bits 3);
    if decide (complete (cl_lengths vs)) then
      do ls <- lengths (nlen + ndist) (cl_lengths vs) (nlen + ndist) [];
      if decide (ls !! 256%nat = Some 0%nat) then derr (-9)
      else if decide (usable (take nlen ls)) then
        if decide (usable (drop nlen ls)) then compressed (take nlen ls) (drop nlen ls) out else derr (-8)
      else derr (-7)
    else derr (-4).

Fixpoint blocks (fuel : nat) (out : list Z) : D (list Z) :=
  match fuel with
  | O => derr 0
  | S fuel =>
      do final <- bits 1;
      do type <- bits 2;
      do out <- (if decide (type = 0) then stored out
                 else if decide (type = 1) then fixed out
                 else if decide (type = 2) then dynamic out
                 else derr (-1));
      if decide (final = 0) then blocks fuel out else dret out
  end.
(** The output of a stream and the bits behind it. *)
Definition inflate : D (list Z) := λ bs, blocks (S (length bs)) [] bs.
End blocks.

(** * Facts on the deflate format

    Numbers and the bits they are read from; canonical codes as prefix codes;
    and that a limit on the room for the output changes nothing for streams whose
    output fits. *)

(** ** Bits *)

Definition lowbits (n : nat) (x : Z) : list bool := map (λ i, Z.testbit x (Z.of_nat i)) (seq 0 n).

Lemma length_lowbits n x : length (lowbits n x) = n.
Proof. unfold lowbits. by rewrite length_map, length_seq. Qed.

Lemma lowbits_S n x : lowbits (S n) x = Z.odd x :: lowbits n (Z.shiftr x 1).
Proof.
  unfold lowbits. cbn [seq map]. rewrite Z.bit0_odd. f_equal. rewrite <- seq_shift, map_map. apply map_ext_in.
  intros i _. rewrite Z.shiftr_spec by lia. f_equal. lia.
Qed.

Lemma lowbits_add n k x : lowbits (n + k) x = lowbits n x ++ lowbits k (Z.shiftr x (Z.of_nat n)).
Proof.
  revert x. induction n as [|n IH]; intros x; [by rewrite Z.shiftr_0_r|]. cbn [Nat.add]. rewrite !lowbits_S, IH. cbn [app].
  do 2 f_equal. rewrite Z.shiftr_shiftr by lia. do 2 f_equal. lia.
Qed.

Lemma lsb_app a b : lsb (a ++ b) = lsb a + 2 ^ Z.of_nat (length a) * lsb b.
Proof.
  induction a as [|x a IH]; cbn [app lsb length]; [cbn; lia|]. rewrite IH, Nat2Z.inj_succ, Z.pow_succ_r by lia. lia.
Qed.

Lemma lsb_range bs : 0 ≤ lsb bs < 2 ^ Z.of_nat (length bs).
Proof.
  induction bs as [|b bs IH]; cbn [lsb length]; [cbn; lia|]. rewrite Nat2Z.inj_succ, Z.pow_succ_r by lia. destruct b; cbn [Z.b2z]; lia.
Qed.

Lemma odd_half x : x = Z.b2z (Z.odd x) + 2 * Z.shiftr x 1.
Proof.
  rewrite Z.shiftr_div_pow2 by lia. change (2 ^ 1) with 2. pose proof (Zmod_odd x) as H. pose proof (Z.div_mod x 2 ltac:(lia)).
  destruct (Z.odd x); cbn [Z.b2z]; lia.
Qed.

Lemma lsb_lowbits n x : lsb (lowbits n x) = x mod 2 ^ Z.of_nat n.
Proof.
  revert x. induction n as [|n IH]; intros x; [by rewrite Z.mod_1_r|]. rewrite lowbits_S. cbn [lsb].
  rewrite IH, Nat2Z.inj_succ, Z.pow_succ_r by lia. pose proof (odd_half x) as Hx. revert Hx.
  generalize (Z.shiftr x 1) as h, (Z.odd x) as o. intros h o ->. set (P := 2 ^ Z.of_nat n). assert (0 < P) by (apply Z.pow_pos_nonneg; lia).
  rewrite Z.rem_mul_r by lia.
  assert (0 ≤ Z.b2z o < 2) by (destruct o; cbn; lia).
  assert ((Z.b2z o + 2 * h) mod 2 = Z.b2z o) as -> by (symmetry; apply (Z.mod_unique _ _ h); lia).
  assert ((Z.b2z o + 2 * h) / 2 = h) as -> by (symmetry; apply (Z.div_unique _ _ _ (Z.b2z o)); lia). done.
Qed.

Lemma lowbits_lsb bs : lowbits (length bs) (lsb bs) = bs.
Proof.
  induction bs as [|b bs IH]; [done|]. cbn [length lsb]. rewrite lowbits_S.
  assert (Z.odd (Z.b2z b + 2 * lsb bs) = b) as -> by (rewrite Z.odd_add_mul_2; by destruct b).
  assert (Z.shiftr (Z.b2z b + 2 * lsb bs) 1 = lsb bs) as ->; [|by rewrite IH].
  rewrite Z.shiftr_div_pow2 by lia. change (2 ^ 1) with 2. rewrite (Z.mul_comm 2), Z.div_add by lia. destruct b; done.
Qed.

Lemma lsb_inj a b : length a = length b → lsb a = lsb b → a = b.
Proof. intros Hl Hv. by rewrite <- (lowbits_lsb a), <- (lowbits_lsb b), Hl, Hv. Qed.

Lemma msb_app a b : msb (a ++ [b]) = 2 * msb a + Z.b2z b.
Proof. unfold msb. by rewrite fold_left_app. Qed.

Lemma msb_range bs : 0 ≤ msb bs < 2 ^ Z.of_nat (length bs).
Proof.
  induction bs as [|b bs IH] using rev_ind; [cbn; lia|]. rewrite msb_app, length_app, Nat.add_1_r, Nat2Z.inj_succ, Z.pow_succ_r by lia.
  destruct b; cbn [Z.b2z]; lia.
Qed.

Lemma lsb_byte b : is_byte b → lsb (lowbits 8 b) = b.
Proof. intros Hb. unfold is_byte in Hb. rewrite lsb_lowbits. by rewrite Z.mod_small by (change (2 ^ Z.of_nat 8) with 256; lia). Qed.
Lemma byte_bits_lowbits b : byte_bits b = lowbits 8 b.
Proof. done. Qed.
Lemma length_stream bytes : length (stream bytes) = (8 * length bytes)%nat.
Proof. unfold stream. induction bytes as [|b bytes IH]; [done|]. cbn [map concat]. rewrite length_app, IH. cbn. lia. Qed.
Lemma stream_app a b : stream (a ++ b) = stream a ++ stream b.
Proof. unfold stream. by rewrite map_app, concat_app. Qed.
Lemma drop_stream n bytes : drop (8 * n) (stream bytes) = stream (drop n bytes).
Proof.
  destruct (decide (n ≤ length bytes)%nat).
  - rewrite <- (take_drop n bytes) at 1. rewrite stream_app. replace (8 * n)%nat with (length (stream (take n bytes))).
    + by rewrite drop_app_length.
    + rewrite length_stream, length_take. lia.
  - rewrite (drop_ge bytes) by lia. by rewrite drop_ge by (rewrite length_stream; lia).
Qed.
Lemma take_bytes_stream n bytes : Forall is_byte bytes → (n ≤ length bytes)%nat → take_bytes n (stream bytes) = take n bytes.
Proof.
  revert bytes. induction n as [|n IH]; intros bytes Hb Hn; [done|]. destruct bytes as [|b bytes]; [simpl in Hn; lia|].
  apply Forall_cons in Hb as [Hb0 Hb]. unfold stream. cbn [map concat]. fold (stream bytes). cbn [take_bytes].
  rewrite byte_bits_lowbits, take_app_length' by done. rewrite drop_app_length' by done. rewrite IH by (done || simpl in Hn; lia).
  by rewrite lsb_byte.
Qed.

(** ** Canonical codes *)

Lemma count_cons l ls len : count_of (l :: ls) len = (if decide (l = len) then 1 else 0) + count_of ls len.
Proof. unfold count_of. rewrite filter_cons. case_decide; cbn [length]; lia. Qed.
Lemma count_of_app a b len : count_of (a ++ b) len = count_of a len + count_of b len.
Proof. unfold count_of. rewrite filter_app, length_app. lia. Qed.
Lemma count_nonneg ls len : 0 ≤ count_of ls len.
Proof. unfold count_of. lia. Qed.
Lemma count_le ls len : count_of ls len ≤ Z.of_nat (length ls).
Proof. unfold count_of. pose proof (length_filter (λ l, l = len) ls). lia. Qed.
Lemma count_take_S ls sym l len : ls !! sym = Some l →
  count_of (take (S sym) ls) len = count_of (take sym ls) len + (if decide (l = len) then 1 else 0).
Proof. intros H. rewrite (take_S_r _ _ _ H), count_of_app. rewrite count_cons. change (count_of [] len) with 0. lia. Qed.
Lemma count_take_le ls sym len : count_of (take sym ls) len ≤ count_of ls len.
Proof. rewrite <- (take_drop sym ls) at 2. rewrite count_of_app. pose proof (count_nonneg (drop sym ls) len). lia. Qed.

(** The ranks of the symbols of a length are the numbers below their count. *)
Lemma rank_bound ls sym len : ls !! sym = Some len → 0 ≤ count_of (take sym ls) len < count_of ls len.
Proof.
  intros H. split; [apply count_nonneg|]. pose proof (count_take_le ls (S sym) len) as Hl.
  rewrite (count_take_S _ _ _ _ H), decide_True in Hl by done. lia.
Qed.
Lemma rank_surj ls len r : 0 ≤ r < count_of ls len → ∃ sym, ls !! sym = Some len ∧ count_of (take sym ls) len = r.
Proof.
  induction ls as [|l ls IH] using rev_ind; intros Hr; [unfold count_of in Hr; cbn in Hr; lia|].
  rewrite count_of_app, count_cons in Hr. change (count_of [] len) with 0 in Hr.
  destruct (decide (r < count_of ls len)).
  - destruct IH as (sym & H & E); [lia|]. exists sym. rewrite lookup_app_l by (by eapply lookup_lt_Some). split; [done|].
    rewrite take_app_le by (apply lookup_lt_Some in H; lia). done.
  - case_decide; [|lia]. subst l. exists (length ls). rewrite list_lookup_middle by done. rewrite take_app_length. split; [done|lia].
Qed.
Lemma rank_inj ls len a b : ls !! a = Some len → ls !! b = Some len →
  count_of (take a ls) len = count_of (take b ls) len → a = b.
Proof.
  assert (∀ a b, (a < b)%nat → ls !! a = Some len → ls !! b = Some len → count_of (take a ls) len < count_of (take b ls) len) as H.
  { clear a b. intros a b Hab Ha Hb. assert (take b ls !! a = Some len) as Hl by (rewrite lookup_take; by rewrite decide_True by lia).
    pose proof (rank_bound (take b ls) a len Hl) as Hr. rewrite take_take, Nat.min_l in Hr by lia. lia. }
  intros Ha Hb E. destruct (Nat.lt_trichotomy a b) as [Hl|[->|Hl]]; [|done|]; [pose proof (H a b Hl Ha Hb)|pose proof (H b a Hl Hb Ha)]; lia.
Qed.

(** [list_find] of a codeword. *)
Lemma find_code ls len sym : ls !! sym = Some len →
  list_find (is_code ls len (code_of ls sym len)) (seq 0 (length ls)) = Some (sym, sym).
Proof.
  intros H. apply list_find_Some. pose proof (lookup_lt_Some _ _ _ H). split_and!.
  - by rewrite lookup_seq_lt by lia.
  - by split.
  - intros j y Hj Hlt [Hy E]. apply lookup_seq in Hj as [-> _]. unfold code_of in E. simpl in *.
    pose proof (rank_inj ls len j sym Hy H ltac:(lia)). lia.
Qed.
Lemma find_no_code ls len code : ¬ (first_code ls len ≤ code < first_code ls len + count_of ls len) →
  list_find (is_code ls len code) (seq 0 (length ls)) = None.
Proof.
  intros H. apply list_find_None, Forall_forall. intros sym _ [Hs E]. pose proof (rank_bound ls sym len Hs). unfold code_of in E. lia.
Qed.

Lemma first_code_S ls len : (0 < len)%nat → first_code ls (S len) = 2 * (first_code ls len + count_of ls len).
Proof. by destruct len; [lia|]. Qed.
Lemma first_code_nonneg ls len : 0 ≤ first_code ls len.
Proof.
  induction len as [|[|len] IH]; [done|done|]. rewrite first_code_S by lia. pose proof (count_nonneg ls (S len)). lia.
Qed.

(** Longer codewords start above the shorter ones. *)
Lemma first_code_above ls len j : (0 < j < len)%nat →
  2 ^ Z.of_nat (len - j) * (first_code ls j + count_of ls j) ≤ first_code ls len.
Proof.
  intros Hj. assert (∀ k, 2 ^ Z.of_nat (S k) * (first_code ls j + count_of ls j) ≤ first_code ls (j + S k)) as H.
  { induction k as [|k IH].
    - rewrite Nat.add_1_r, first_code_S by lia. change (Z.of_nat 1) with 1. lia.
    - replace (j + S (S k))%nat with (S (j + S k)) by lia. rewrite first_code_S by lia.
      rewrite Nat2Z.inj_succ, Z.pow_succ_r by lia. pose proof (count_nonneg ls (j + S k)). nia. }
  specialize (H (len - j - 1)%nat). replace (S (len - j - 1)) with (len - j)%nat in H by lia.
  by replace (j + (len - j))%nat with len in H by lia.
Qed.

(** ** Prefix codes *)

(** The value of the first bits of a codeword. *)
Lemma msb_take j bs : (j ≤ length bs)%nat → msb (take j bs) = msb bs / 2 ^ Z.of_nat (length bs - j).
Proof.
  revert j. induction bs as [|b bs IH] using rev_ind; intros j Hj; [by destruct j|]. rewrite length_app in Hj |- *. simpl in Hj |- *.
  destruct (decide (j = length bs + 1)%nat) as [->|].
  - rewrite take_ge by (rewrite length_app; simpl; lia). rewrite Nat.sub_diag. by rewrite Z.div_1_r.
  - rewrite take_app_le by lia. rewrite IH by lia. rewrite msb_app. replace (length bs + 1 - j)%nat with (S (length bs - j)) by lia.
    rewrite Nat2Z.inj_succ, Z.pow_succ_r, <- Z.div_div by (try apply Z.pow_pos_nonneg; lia).
    f_equal. symmetry. rewrite Z.add_comm, (Z.mul_comm 2), Z.div_add by lia. by destruct b.
Qed.

(** A stream that starts with the codeword of a symbol is decoded to it. *)
Lemma decode_codeword ls sym len cw rest : ls !! sym = Some len → (0 < len ≤ 15)%nat →
  length cw = len → msb cw = code_of ls sym len → decode ls (cw ++ rest) = inr (sym, rest).
Proof.
  intros H Hlen Hl Hv. unfold decode. assert (∀ k j, (0 < j ≤ len)%nat → (len < k + j)%nat → search ls k j (cw ++ rest) = inr (sym, rest)) as Hs.
  { intros k. induction k as [|k IH]; intros j Hj Hk; [lia|]. cbn [search]. rewrite decide_False by (rewrite length_app; lia).
    rewrite take_app_le by lia. destruct (decide (j = len)) as [->|].
    - rewrite take_ge by lia. rewrite Hv, (find_code _ _ _ H). by rewrite drop_app_length' by lia.
    - rewrite find_no_code; [apply IH; lia|]. rewrite msb_take, Hl, Hv by lia. intros [_ Hc].
      pose proof (first_code_above ls len j ltac:(lia)) as Ha. pose proof (rank_bound ls sym len H) as Hr. unfold code_of in Hc.
      assert (0 < 2 ^ Z.of_nat (len - j)) as HP by (apply Z.pow_pos_nonneg; lia).
      assert (first_code ls j + count_of ls j ≤ (first_code ls len + count_of (take sym ls) len) / 2 ^ Z.of_nat (len - j)); [|lia].
      apply Z.div_le_lower_bound; lia. }
  apply Hs; lia.
Qed.

(** ** Over-subscription *)

(** The codewords of [len] bits that are used, or start with a shorter one. *)
Definition used (ls : list nat) (len : nat) : Z := first_code ls len + count_of ls len.

Lemma used_S ls len : (0 < len)%nat → used ls (S len) = 2 * used ls len + count_of ls (S len).
Proof. intros H. unfold used. rewrite first_code_S by done. lia. Qed.
Lemma used_cons l ls len : (0 < len)%nat →
  used (l :: ls) len = used ls len + (if decide (0 < l ≤ len)%nat then 2 ^ Z.of_nat (len - l) else 0).
Proof.
  intros H. induction len as [|[|len] IH]; [lia| |].
  - unfold used. cbn [first_code]. rewrite count_cons. repeat case_decide; try lia. subst l. change (2 ^ Z.of_nat (1 - 1)) with 1. lia.
  - rewrite (used_S ls (S len)), (used_S (l :: ls) (S len)), IH, count_cons by lia. destruct (decide (l = S (S len))) as [->|].
    + repeat case_decide; try lia. rewrite Nat.sub_diag. change (2 ^ Z.of_nat 0) with 1. lia.
    + destruct (decide (0 < l ≤ S len)%nat); [rewrite decide_True by lia|rewrite decide_False by lia; lia].
      replace (S (S len) - l)%nat with (S (S len - l)) by lia. rewrite (Nat2Z.inj_succ (S len - l)), Z.pow_succ_r by lia. lia.
Qed.
Lemma used_nil len : used [] len = 0.
Proof. unfold used. induction len as [|[|len] IH]; [done|done|]. rewrite first_code_S by lia. change (count_of [] (S (S len))) with 0. lia. Qed.
Lemma kraft_used ls : Forall (λ l, l ≤ 15)%nat ls → kraft ls = 2 ^ 15 - used ls 15.
Proof.
  intros H. unfold kraft. f_equal. induction H as [|l ls Hl _ IH]; [by rewrite used_nil|]. rewrite used_cons by lia. cbn [fold_right]. rewrite IH.
  repeat case_decide; try lia. replace (15 - Z.of_nat l) with (Z.of_nat (15 - l)) by lia. lia.
Qed.
Lemma used_mono ls j k : (0 < j)%nat → used ls j * 2 ^ Z.of_nat k ≤ used ls (j + k).
Proof.
  intros Hj. induction k as [|k IH]; [rewrite Nat.add_0_r; change (2 ^ Z.of_nat 0) with 1; lia|].
  replace (j + S k)%nat with (S (j + k)) by lia. rewrite used_S, Nat2Z.inj_succ, Z.pow_succ_r by lia.
  pose proof (count_nonneg ls (S (j + k))). lia.
Qed.
(** A code that is not over-subscribed has codewords of the right size. *)
Lemma used_room ls len : Forall (λ l, l ≤ 15)%nat ls → 0 ≤ kraft ls → (0 < len ≤ 15)%nat → used ls len ≤ 2 ^ Z.of_nat len.
Proof.
  intros Hls Hk Hlen. rewrite kraft_used in Hk by done. pose proof (used_mono ls len (15 - len) ltac:(lia)) as Hm.
  replace (len + (15 - len))%nat with 15%nat in Hm by lia. assert (2 ^ 15 = 2 ^ Z.of_nat len * 2 ^ Z.of_nat (15 - len)) as E.
  { rewrite <- Z.pow_add_r by lia. f_equal. lia. }
  assert (0 < 2 ^ Z.of_nat (15 - len)) by (apply Z.pow_pos_nonneg; lia). nia.
Qed.

(** The bits of a codeword. *)
Definition codeword (ls : list nat) (sym len : nat) : list bool := rev (lowbits len (code_of ls sym len)).
Lemma msb_rev bs : msb (rev bs) = lsb bs.
Proof. induction bs as [|b bs IH]; [done|]. cbn [rev lsb]. rewrite msb_app, IH. lia. Qed.

(** In a code that is not over-subscribed, no codeword is lost: every symbol is
    decoded from its canonical codeword, whatever follows. *)
Lemma decode_canonical ls sym len rest : Forall (λ l, l ≤ 15)%nat ls → 0 ≤ kraft ls →
  ls !! sym = Some len → len ≠ 0%nat → decode ls (codeword ls sym len ++ rest) = inr (sym, rest).
Proof.
  intros Hls Hk H H0. assert (len ≤ 15)%nat by (rewrite Forall_forall in Hls; apply Hls; by eapply list_elem_of_lookup_2).
  apply (decode_codeword ls sym len); [done|lia| |].
  - unfold codeword. by rewrite length_rev, length_lowbits.
  - unfold codeword. rewrite msb_rev, lsb_lowbits. apply Z.mod_small.
    pose proof (used_room ls len Hls Hk ltac:(lia)). pose proof (rank_bound ls sym len H). pose proof (first_code_nonneg ls len).
    unfold used, code_of in *. lia.
Qed.

(** ** Room for the output *)

(** Results grow the output, and are the same under a limit they respect. *)
Definition capped (m : option nat → D (list Z)) (n : nat) : Prop := ∀ cap bs r rest,
  m None bs = inr (r, rest) → (n ≤ length r)%nat ∧ (fits cap (length r) → m cap bs = inr (r, rest)).

Lemma fits_le cap a b : (a ≤ b)%nat → fits cap b → fits cap a.
Proof. destruct cap; cbn; lia. Qed.
Lemma capped_bind {A} (m : D A) (k : A → option nat → D (list Z)) n :
  (∀ a, capped (k a) n) → capped (λ cap, do a <- m; k a cap) n.
Proof.
  intros Hk cap bs r rest. unfold dbind. destruct (m bs) as [e|[a bs']]; [done|]. apply Hk.
Qed.
Lemma capped_seq m k n : capped m n → (∀ out, capped (k out) (length out)) → capped (λ cap, do out <- m cap; k out cap) n.
Proof.
  intros Hm Hk cap bs r rest. unfold dbind. destruct (m None bs) as [e|[out bs']] eqn:E; [done|]. intros H.
  destruct (Hm cap _ _ _ E) as [Hn Hc]. destruct (Hk out cap _ _ _ H) as [Hn' Hc']. split; [lia|].
  intros Hf. rewrite Hc by (by eapply fits_le). auto.
Qed.
Lemma capped_err e n : capped (λ _, derr e) n.
Proof. by intros cap bs r rest. Qed.
Lemma capped_ret out n : (n ≤ length out)%nat → capped (λ _, dret out) n.
Proof. intros H cap bs r rest [= -> ->]. auto. Qed.
Lemma capped_if (P : Prop) `{!Decision P} m1 m2 n : capped m1 n → capped m2 n → capped (λ cap, if decide P then m1 cap else m2 cap) n.
Proof. intros H1 H2. case_decide; auto. Qed.
Lemma capped_fits k m n : (n ≤ k)%nat → capped m k → capped (λ cap, if decide (fits cap k) then m cap else derr 1) n.
Proof.
  intros Hn Hm cap bs r rest. rewrite decide_True by done. intros H. destruct (Hm cap _ _ _ H) as [Hk Hc]. split; [lia|].
  intros Hf. rewrite decide_True by (by eapply fits_le). auto.
Qed.
Lemma length_repeat_from n d out : length (repeat_from n d out) = (length out + n)%nat.
Proof. revert out. induction n as [|n IH]; intros out; cbn [repeat_from]; [lia|]. rewrite IH, length_app. simpl. lia. Qed.

Lemma symbols_capped fuel lit dist out : capped (λ cap, symbols cap fuel lit dist out) (length out).
Proof.
  revert out. induction fuel as [|fuel IH]; intros out; cbn [symbols]; [apply capped_err|]. apply capped_bind. intros sym.
  apply capped_if; [apply capped_fits; [lia|]|].
  { specialize (IH (out ++ [Z.of_nat sym])). by rewrite length_app, Nat.add_1_r in IH. }
  apply capped_if; [by apply capped_ret|]. cbv zeta. apply capped_if; [apply capped_err|].
  apply capped_bind. intros x. apply capped_bind. intros j. apply capped_bind. intros y. apply capped_if; [apply capped_err|].
  set (len := Z.to_nat _). set (d := Z.to_nat _). apply capped_fits; [lia|]. specialize (IH (repeat_from len d out)). by rewrite length_repeat_from in IH.
Qed.
Lemma compressed_capped lit dist out : capped (λ cap, compressed cap lit dist out) (length out).
Proof. intros cap bs r rest. apply symbols_capped. Qed.
Lemma stored_capped out : capped (λ cap, stored cap out) (length out).
Proof.
  intros cap bs r rest. unfold stored. set (bs' := drop _ bs). generalize bs'. clear bs bs'. intros bs. revert cap bs r rest.
  change (capped (λ cap, do len <- bits 16; do nlen <- bits 16; if decide (len + nlen ≠ 2 ^ 16 - 1) then derr (-2) else λ bs,
     if decide (length bs < 8 * Z.to_nat len)%nat then inl short
     else if decide (fits cap (length out + Z.to_nat len)) then inr (out ++ take_bytes (Z.to_nat len) bs, drop (8 * Z.to_nat len) bs)
     else inl 1) (length out)).
  apply capped_bind. intros len. apply capped_bind. intros nlen. apply capped_if; [apply capped_err|]. intros cap bs r rest.
  case_decide; [done|]. rewrite decide_True by done. intros [= <- <-].
  assert (∀ n bs, length (take_bytes n bs) = n) as Ht by (induction n; intros; simpl; auto).
  rewrite length_app, Ht. split; [lia|]. intros Hf. by rewrite decide_True.
Qed.
Lemma dynamic_capped out : capped (λ cap, dynamic cap out) (length out).
Proof.
  unfold dynamic. do 3 (apply capped_bind; intros ?). cbv zeta. apply capped_if; [apply capped_err|]. apply capped_bind. intros vs.
  apply capped_if; [|apply capped_err]. apply capped_bind. intros ls. repeat (apply capped_if; try apply capped_err). apply compressed_capped.
Qed.
Lemma blocks_capped fuel out : capped (λ cap, blocks cap fuel out) (length out).
Proof.
  revert out. induction fuel as [|fuel IH]; intros out; cbn [blocks]; [apply capped_err|].
  do 2 (apply capped_bind; intros ?). apply capped_seq; [repeat apply capped_if|].
  - apply stored_capped.
  - apply compressed_capped.
  - apply dynamic_capped.
  - apply capped_err.
  - intros out'. apply capped_if; [apply IH|by apply capped_ret].
Qed.
Lemma inflate_capped cap bs out rest : inflate None bs = inr (out, rest) → fits cap (length out) → inflate cap bs = inr (out, rest).
Proof. intros H Hf. by apply (blocks_capped (S (length bs)) [] cap bs out rest H). Qed.

(** ** Readers move forward *)

Definition shrinks {A} (m : D A) : Prop := ∀ bs a bs', m bs = inr (a, bs') → (length bs' ≤ length bs)%nat.

Lemma shrinks_bind {A B} (m : D A) (k : A → D B) : shrinks m → (∀ a, shrinks (k a)) → shrinks (dbind m k).
Proof.
  intros Hm Hk bs b bs'. unfold dbind. destruct (m bs) as [|[a bs1]] eqn:E; [done|]. intros H.
  apply Hm in E. apply Hk in H. lia.
Qed.
Lemma shrinks_ret {A} (a : A) : shrinks (dret a).
Proof. by intros bs b bs' [= _ ->]. Qed.
Lemma shrinks_err {A} e : shrinks (@derr A e).
Proof. by intros bs b bs'. Qed.
Lemma shrinks_bits n : shrinks (bits n).
Proof. intros bs v bs'. unfold bits. case_decide; [done|]. intros [= _ <-]. rewrite length_drop. lia. Qed.
Lemma shrinks_decode ls : shrinks (decode ls).
Proof.
  intros bs sym bs'. unfold decode. assert (∀ k len, search ls k len bs = inr (sym, bs') → (length bs' ≤ length bs)%nat) as H; [|apply H].
  induction k as [|k IH]; intros len; cbn [search]; [done|].
  case_decide; [done|]. destruct (list_find _ _) as [[]|]; [|apply IH]. intros [= _ <-]. rewrite length_drop. lia.
Qed.
Create HintDb shrinks.
#[export] Hint Resolve shrinks_ret shrinks_err shrinks_bits shrinks_decode : shrinks.
#[export] Hint Extern 2 (shrinks (dbind _ _)) => apply shrinks_bind; [|intros ?] : shrinks.
#[export] Hint Extern 2 (shrinks (if decide _ then _ else _)) => case_decide : shrinks.

Lemma shrinks_symbols cap fuel lit dist out : shrinks (symbols cap fuel lit dist out).
Proof. revert out. induction fuel as [|fuel IH]; intros out; cbn [symbols]; cbv zeta; eauto 20 with shrinks. Qed.
Lemma shrinks_compressed cap lit dist out : shrinks (compressed cap lit dist out).
Proof. intros bs a bs'. apply shrinks_symbols. Qed.
Lemma shrinks_stored cap out : shrinks (stored cap out).
Proof.
  intros bs a bs'. unfold stored. intros H. etransitivity; [|apply (Nat.le_sub_l (length bs) (Nat.modulo (length bs) 8))]. rewrite <- length_drop.
  revert H. generalize (drop (length bs mod 8) bs). clear bs. intros bs. revert bs a bs'. 
  apply shrinks_bind; [auto with shrinks|intros len]. apply shrinks_bind; [auto with shrinks|intros nlen]. case_decide; [auto with shrinks|].
  intros bs a bs'. cbv zeta. repeat case_decide; try done. intros [= _ <-]. rewrite length_drop. lia.
Qed.
Lemma shrinks_many {A} n (m : D A) : shrinks m → shrinks (many n m).
Proof. intros Hm. induction n; cbn [many]; eauto with shrinks. Qed.
Lemma shrinks_lengths fuel cl total ls : shrinks (lengths fuel cl total ls).
Proof. revert ls. induction fuel as [|fuel IH]; intros ls; cbn [lengths]; cbv zeta; eauto 20 with shrinks. Qed.
#[export] Hint Resolve shrinks_compressed shrinks_stored shrinks_many shrinks_lengths : shrinks.
Lemma shrinks_dynamic cap out : shrinks (dynamic cap out).
Proof. unfold dynamic. cbv zeta. eauto 20 with shrinks. Qed.

(** ** The output consists of bytes *)

Definition gives_bytes (m : D (list Z)) : Prop := ∀ bs r bs', m bs = inr (r, bs') → Forall is_byte r.
Lemma gives_bind {A} (m : D A) (k : A → D (list Z)) : (∀ a, gives_bytes (k a)) → gives_bytes (dbind m k).
Proof. intros Hk bs r bs'. unfold dbind. destruct (m bs) as [|[a bs1]]; [done|]. apply Hk. Qed.
Lemma gives_seq m k : gives_bytes m → (∀ out, Forall is_byte out → gives_bytes (k out)) → gives_bytes (dbind m k).
Proof.
  intros Hm Hk bs r bs'. unfold dbind. destruct (m bs) as [|[a bs1]] eqn:E; [done|]. apply Hm in E. by apply Hk.
Qed.
Lemma gives_err e : gives_bytes (derr e).
Proof. by intros bs r bs'. Qed.
Lemma gives_ret out : Forall is_byte out → gives_bytes (dret out).
Proof. by intros H bs r bs' [= -> _]. Qed.

Lemma repeat_from_bytes n d out : Forall is_byte out → Forall is_byte (repeat_from n d out).
Proof.
  revert out. induction n as [|n IH]; intros out H; cbn [repeat_from]; [done|]. apply IH, Forall_app. split; [done|]. apply Forall_singleton.
  destruct (nth_in_or_default (length out - d) out 0) as [Hin| ->]; [|unfold is_byte; lia]. rewrite Forall_forall in H. by apply H, list_elem_of_In.
Qed.
Lemma take_bytes_bytes n bs : Forall is_byte (take_bytes n bs).
Proof.
  revert bs. induction n as [|n IH]; intros bs; constructor; [|done]. pose proof (lsb_range (take 8 bs)) as H. rewrite length_take in H.
  assert (2 ^ Z.of_nat (Nat.min 8 (length bs)) ≤ 2 ^ 8) by (apply Z.pow_le_mono_r; lia). unfold is_byte. change (2 ^ 8) with 256 in *. lia.
Qed.
Lemma symbols_bytes cap fuel lit dist out : Forall is_byte out → gives_bytes (symbols cap fuel lit dist out).
Proof.
  revert out. induction fuel as [|fuel IH]; intros out H; cbn [symbols]; [apply gives_err|]. apply gives_bind. intros sym. cbv zeta.
  case_decide.
  { case_decide; [|apply gives_err]. apply IH, Forall_app. split; [done|]. apply Forall_singleton. unfold is_byte. lia. }
  case_decide; [by apply gives_ret|]. case_decide; [apply gives_err|]. do 3 (apply gives_bind; intros ?).
  case_decide; [apply gives_err|]. case_decide; [|apply gives_err]. by apply IH, repeat_from_bytes.
Qed.
Lemma compressed_bytes cap lit dist out : Forall is_byte out → gives_bytes (compressed cap lit dist out).
Proof. intros H bs r bs'. by apply symbols_bytes. Qed.
Lemma stored_bytes cap out : Forall is_byte out → gives_bytes (stored cap out).
Proof.
  intros H bs r bs'. unfold stored. generalize (drop (length bs mod 8) bs). clear bs. intros bs. revert bs r bs'.
  apply gives_bind. intros len. apply gives_bind. intros nlen. case_decide; [apply gives_err|]. intros bs r bs'. cbv zeta.
  repeat case_decide; try done. intros [= <- _]. apply Forall_app. split; [done|apply take_bytes_bytes].
Qed.
Lemma dynamic_bytes cap out : Forall is_byte out → gives_bytes (dynamic cap out).
Proof.
  intros H. unfold dynamic. do 3 (apply gives_bind; intros ?). cbv zeta. case_decide; [apply gives_err|]. apply gives_bind. intros vs.
  case_decide; [|apply gives_err]. apply gives_bind. intros ls. repeat case_decide; try apply gives_err. by apply compressed_bytes.
Qed.
Lemma blocks_bytes cap fuel out : Forall is_byte out → gives_bytes (blocks cap fuel out).
Proof.
  revert out. induction fuel as [|fuel IH]; intros out H; cbn [blocks]; [apply gives_err|]. do 2 (apply gives_bind; intros ?).
  apply gives_seq; [|intros out' H'; case_decide; [by apply IH|by apply gives_ret]].
  repeat case_decide; [by apply stored_bytes|by apply compressed_bytes|by apply dynamic_bytes|apply gives_err].
Qed.
Lemma inflate_bytes cap bs out rest : inflate cap bs = inr (out, rest) → Forall is_byte out.
Proof. by apply blocks_bytes. Qed.
