(* ===== verification/InflateFacts.v ===== *)
(** * gzip: the decoder implements the deflate format

    [inflate_raw] computes what Deflate defines, from the bytes of its source,
    for every source, with and without a destination: the same error, or the
    same output and the same end of the stream.  It never reads or writes outside
    its arrays, never reads a cell it has not set, and always returns. *)

From S2P Require Import Prelude Stdio Deflate Inflate.

Local Open Scope Z_scope.

Lemma mbind_assoc {S A B C} (m : M S A) (k : A → M S B) (k' : B → M S C) s :
  mbind (mbind m k) k' s = mbind m (λ a, mbind (k a) k') s.
Proof. unfold mbind. by destruct (m s). Qed.
Lemma dbind_assoc {A B C} (m : D A) (k : A → D B) (k' : B → D C) bs :
  dbind (dbind m k) k' bs = dbind m (λ a, dbind (k a) k') bs.
Proof. unfold dbind. by destruct (m bs) as [|[]]. Qed.

(** ** Tables of a code *)

(** Where the symbols of a length start. *)
Fixpoint index_of_len (ls : list nat) (len : nat) : Z :=
  match len with
  | O => 0
  | S len => match len with O => 0 | S _ => index_of_len ls len + count_of ls len end
  end.
Definition slot (ls : list nat) (sym len : nat) : Z := index_of_len ls len + count_of (take sym ls) len.
Definition counts (ls : list nat) : list Z := map (count_of ls) (seq 0 16).

Record table_for (ls : list nat) (h : Huffman) : Prop := {
  tf_count : h_count h = counts ls;
  tf_symbol : ∀ sym len, ls !! sym = Some len → len ≠ 0%nat → h_symbol h !! Z.to_nat (slot ls sym len) = Some (Some (Z.of_nat sym));
}.

Lemma index_S ls len : (0 < len)%nat → index_of_len ls (S len) = index_of_len ls len + count_of ls len.
Proof. by destruct len; [lia|]. Qed.
Lemma index_nonneg ls len : 0 ≤ index_of_len ls len.
Proof. induction len as [|[|len] IH]; [done|done|]. rewrite index_S by lia. pose proof (count_nonneg ls (S len)). lia. Qed.
Lemma index_mono ls j len : (0 < j < len)%nat → index_of_len ls j + count_of ls j ≤ index_of_len ls len.
Proof.
  intros Hj. assert (∀ k, index_of_len ls j + count_of ls j ≤ index_of_len ls (j + S k)) as H.
  { induction k as [|k IH]; [rewrite Nat.add_1_r, index_S by lia; lia|]. replace (j + S (S k))%nat with (S (j + S k)) by lia.
    rewrite index_S by lia. pose proof (count_nonneg ls (j + S k)). lia. }
  specialize (H (len - j - 1)%nat). by replace (j + S (len - j - 1))%nat with len in H by lia.
Qed.
Lemma index_total ls len : (0 < len)%nat → index_of_len ls len ≤ Z.of_nat (length ls).
Proof.
  intros Hlen. assert (index_of_len ls len ≤ Z.of_nat (length (filter (λ l, l < len)%nat ls))) as H.
  { induction len as [|[|len] IH]; [lia|cbn; lia|]. rewrite index_S by lia. etransitivity; [apply Z.add_le_mono_r, IH; lia|].
    clear. unfold count_of. induction ls as [|l ls IH]; [done|]. rewrite !filter_cons. repeat case_decide; cbn [length] in *; lia. }
  pose proof (length_filter (λ l, l < len)%nat ls). lia.
Qed.
Lemma slot_range ls sym len : ls !! sym = Some len → (0 < len)%nat →
  index_of_len ls len ≤ slot ls sym len < index_of_len ls len + count_of ls len.
Proof. intros H Hl. pose proof (rank_bound ls sym len H). unfold slot. lia. Qed.
Lemma slot_bound ls sym len : ls !! sym = Some len → (0 < len)%nat → 0 ≤ slot ls sym len < Z.of_nat (length ls).
Proof.
  intros H Hl. pose proof (slot_range ls sym len H Hl). pose proof (index_nonneg ls len).
  pose proof (index_total ls (S len) ltac:(lia)) as Ht. rewrite index_S in Ht by lia. lia.
Qed.
Lemma slot_inj ls a la b lb : ls !! a = Some la → ls !! b = Some lb → (0 < la)%nat → (0 < lb)%nat →
  slot ls a la = slot ls b lb → a = b.
Proof.
  intros Ha Hb Hla Hlb E. pose proof (slot_range ls a la Ha Hla). pose proof (slot_range ls b lb Hb Hlb).
  destruct (Nat.lt_trichotomy la lb) as [Hl|[->|Hl]].
  - pose proof (index_mono ls la lb ltac:(lia)). lia.
  - apply (rank_inj ls lb); [done|done|]. unfold slot in E. lia.
  - pose proof (index_mono ls lb la ltac:(lia)). lia.
Qed.

(** ** huffman_construct *)

Section construct.
Context {S : Type} (st : S).
(** The array holds the lengths of the symbols. *)
Context (ls : list nat) (a : array).
Hypothesis a_ls : ∀ i l, ls !! i = Some l → a !! i = Some (Some (Z.of_nat l)).
Hypothesis small : Forall (λ l, l ≤ 15)%nat ls.

Lemma rd_ok (b : array) i v : b !! i = Some (Some v) → @rd S b i st = Ok v st.
Proof. unfold rd. by intros ->. Qed.
Lemma wr_ok (b : array) i v : (i < length b)%nat → @wr S b i v st = Ok (<[i := Some v]> b) st.
Proof. intros H. unfold wr. by rewrite decide_True. Qed.
Lemma length_small i l : ls !! i = Some l → (l ≤ 15)%nat.
Proof using small. rewrite Forall_lookup in small. eauto. Qed.
Lemma counts_at len : (len < 16)%nat → counts ls !! len = Some (count_of ls len).
Proof. intros H. unfold counts. rewrite list_lookup_fmap, lookup_seq_lt by done. done. Qed.

Lemma count_lengths_ok k : (k ≤ length ls)%nat →
  count_lengths a (seq k (length ls - k)) (counts (take k ls)) st = Ok (counts ls) st.
Proof using a_ls small.
  intros Hk. remember (length ls - k)%nat as n eqn:En. revert k Hk En. induction n as [|n IH]; intros k Hk En; cbn [seq count_lengths].
  - by rewrite take_ge by lia.
  - destruct (lookup_lt_is_Some_2 ls k ltac:(lia)) as [l Hl]. pose proof (length_small k l Hl).
    rewrite (bind_run _ _ st (Z.of_nat l) st) by (by apply rd_ok, a_ls). rewrite Nat2Z.id.
    assert (counts (take k ls) !! l = Some (count_of (take k ls) l)) as E.
    { unfold counts. rewrite list_lookup_fmap, lookup_seq_lt by lia. done. }
    rewrite (bind_run _ _ st (count_of (take k ls) l) st) by (by rewrite E).
    assert (<[l := count_of (take k ls) l + 1]> (counts (take k ls)) = counts (take (Datatypes.S k) ls)) as ->.
    { apply list_eq_same_length with 16%nat; [by unfold counts; rewrite length_map|by rewrite length_insert; unfold counts; rewrite length_map|].
      intros i x y Hi Hx Hy. unfold counts in Hx, Hy. rewrite list_lookup_fmap, lookup_seq_lt in Hy by lia. injection Hy as <-.
      cbn [Nat.add]. rewrite (count_take_S ls k l i Hl). destruct (decide (l = i)) as [->|Hne].
      - rewrite list_lookup_insert_eq in Hx by (rewrite length_map, length_seq; lia). by injection Hx as <-.
      - rewrite list_lookup_insert_ne, list_lookup_fmap, lookup_seq_lt in Hx by lia. injection Hx as <-. cbn [Nat.add]. lia. }
    apply IH; lia.
Qed.

(** What is left of the codewords of [j] bits. *)
Definition room (j : nat) : Z := if decide (j = 0%nat) then 1 else 2 ^ Z.of_nat j - used ls j.
Lemma room_S j : room (Datatypes.S j) = 2 * room j - count_of ls (Datatypes.S j).
Proof.
  unfold room. rewrite decide_False by lia. case_decide as H; [subst j; unfold used; cbn [first_code]; change (2 ^ Z.of_nat 1) with 2; lia|].
  rewrite used_S, Nat2Z.inj_succ, Z.pow_succ_r by lia. lia.
Qed.
Lemma room_kraft j : (j ≤ 15)%nat → room j < 0 → kraft ls < 0.
Proof using small.
  intros Hj Hr. destruct (decide (0 ≤ kraft ls)) as [Hk|]; [|lia]. unfold room in Hr. case_decide; [lia|].
  pose proof (used_room ls j small Hk ltac:(lia)). lia.
Qed.
Lemma subscribe_ok j : (j ≤ 15)%nat → 0 ≤ room j →
  ∃ ok left_, subscribe (counts ls) (seq (Datatypes.S j) (15 - j)) (room j) st = Ok (ok, left_) st ∧
  if ok : bool then left_ = kraft ls ∧ 0 ≤ left_ else left_ < 0 ∧ kraft ls < 0.
Proof using small.
  intros Hj Hr. remember (15 - j)%nat as n eqn:En. revert j Hj Hr En. induction n as [|n IH]; intros j Hj Hr En; cbn [seq subscribe].
  - exists true, (room j). split; [done|]. replace j with 15%nat in * by lia. split; [|done]. by rewrite kraft_used.
  - rewrite (bind_run _ _ st (count_of ls (Datatypes.S j)) st) by (by rewrite counts_at by lia). cbv zeta.
    replace (Z.shiftl (room j) 1 - count_of ls (Datatypes.S j)) with (room (Datatypes.S j)) by (rewrite room_S, Z.shiftl_mul_pow2; lia).
    case_decide as Hneg; [exists false, (room (Datatypes.S j)); split; [done|]; split; [done|apply (room_kraft (Datatypes.S j)); lia]|].
    apply IH; lia.
Qed.

(** The offsets of the lengths up to [j] when [k] symbols are placed. *)
Definition offs_at (j k : nat) (offs : array) : Prop := length offs = 16%nat ∧
  ∀ len, (0 < len ≤ j)%nat → offs !! len = Some (Some (index_of_len ls len + count_of (take k ls) len)).
Lemma offsets_ok j offs : (0 < j ≤ 15)%nat → offs_at j 0 offs →
  ∃ offs', offsets (counts ls) (seq j (15 - j)) offs st = Ok offs' st ∧ offs_at 15 0 offs'.
Proof.
  intros Hj Ho. remember (15 - j)%nat as n eqn:En. revert j offs Hj Ho En. induction n as [|n IH]; intros j offs Hj [Hl Ho] En; cbn [seq offsets].
  - exists offs. split; [done|]. by replace j with 15%nat in * by lia.
  - rewrite (bind_run _ _ st _ st (rd_ok _ _ _ (Ho j ltac:(lia)))). rewrite (bind_run _ _ st (count_of ls j) st) by (by rewrite counts_at by lia).
    rewrite (bind_run _ _ st _ st (wr_ok offs (Datatypes.S j) _ ltac:(lia))). apply IH; [lia| |lia].
    split; [by rewrite length_insert|]. intros len Hlen. destruct (decide (len = Datatypes.S j)) as [->|].
    + rewrite list_lookup_insert_eq by lia. rewrite index_S by lia. change (count_of (take 0 ls) j) with 0. change (count_of (take 0 ls) (Datatypes.S j)) with 0. do 2 f_equal. lia.
    + rewrite list_lookup_insert_ne by lia. apply Ho. lia.
Qed.

(** The symbols below [k] are in their slots. *)
Definition placed (k : nat) (syms : array) : Prop := ∀ sym len, (sym < k)%nat → ls !! sym = Some len → len ≠ 0%nat →
  syms !! Z.to_nat (slot ls sym len) = Some (Some (Z.of_nat sym)).
Lemma place_ok k offs syms : (k ≤ length ls)%nat → offs_at 15 k offs → placed k syms → (length ls ≤ length syms)%nat →
  ∃ syms', place a (seq k (length ls - k)) offs syms st = Ok syms' st ∧ placed (length ls) syms' ∧ length syms' = length syms.
Proof using a_ls small.
  intros Hk Ho Hp Hs. remember (length ls - k)%nat as n eqn:En. revert k offs syms Hk Ho Hp Hs En.
  induction n as [|n IH]; intros k offs syms Hk Ho Hp Hs En; cbn [seq place].
  - exists syms. split; [done|]. by replace (length ls) with k by lia.
  - destruct (lookup_lt_is_Some_2 ls k ltac:(lia)) as [l Hl]. pose proof (length_small k l Hl).
    rewrite (bind_run _ _ st (Z.of_nat l) st) by (by apply rd_ok, a_ls). destruct Ho as [Hlo Ho]. case_decide as H0.
    + rewrite Nat2Z.id. pose proof (slot_bound ls k l Hl ltac:(lia)) as Hsl. rewrite (bind_run _ _ st (slot ls k l) st) by (apply rd_ok, Ho; lia).
      rewrite (bind_run _ _ st _ st (wr_ok syms (Z.to_nat (slot ls k l)) _ ltac:(lia))). rewrite (bind_run _ _ st _ st (wr_ok offs l _ ltac:(lia))).
      destruct (IH (Datatypes.S k) (<[l:=Some (slot ls k l + 1)]> offs) (<[Z.to_nat (slot ls k l):=Some (Z.of_nat k)]> syms)) as (syms' & E & Hp' & Hl'); [lia| | |by rewrite length_insert|lia|].
      * split; [by rewrite length_insert|]. intros len Hlen. rewrite (count_take_S ls k l len Hl). destruct (decide (l = len)) as [->|].
        -- rewrite list_lookup_insert_eq by lia. unfold slot. do 2 f_equal. lia.
        -- rewrite list_lookup_insert_ne, Ho by lia. do 2 f_equal. lia.
      * intros sym len Hsym Hls Hne. destruct (decide (sym = k)) as [->|].
        -- rewrite Hl in Hls. injection Hls as <-. by rewrite list_lookup_insert_eq by lia.
        -- rewrite list_lookup_insert_ne; [apply Hp; [lia|done..]|]. pose proof (slot_bound ls sym len Hls ltac:(lia)).
           intros E. assert (k = sym); [|lia]. apply (slot_inj ls k l sym len); [done|done|lia|lia|lia].
      * exists syms'. split; [exact E|]. split; [done|]. by rewrite Hl', length_insert.
    + apply IH; [lia| | |done|lia].
      * split; [done|]. intros len Hlen. rewrite (count_take_S ls k l len Hl), decide_False, Z.add_0_r by lia. by apply Ho.
      * intros sym len Hsym Hls Hne. destruct (decide (sym = k)) as [->|]; [rewrite Hl in Hls; injection Hls as <-; lia|]. apply Hp; [lia|done..].
Qed.

Lemma no_code_count : count_of ls 0 = Z.of_nat (length ls) ↔ no_code ls.
Proof.
  unfold no_code, count_of. clear small a_ls. split.
  - intros H. assert (length (filter (λ l, l = 0%nat) ls) = length ls) as E by lia. clear H.
    induction ls as [|l ls' IH]; [constructor|]. rewrite filter_cons in E. case_decide; cbn [length] in E; [constructor; auto|].
    pose proof (length_filter (λ l, l = 0%nat) ls'). lia.
  - induction 1 as [|l ls' -> _ IH]; [done|]. rewrite filter_cons, decide_True by done. cbn [length]. lia.
Qed.

Lemma huffman_construct_ok h : (length ls ≤ length (h_symbol h))%nat →
  ∃ err h', huffman_construct h a (length ls) st = Ok (err, h') st ∧
  h_count h' = counts ls ∧ length (h_symbol h') = length (h_symbol h) ∧
  (err = 0 ↔ complete ls) ∧ (err < 0 → kraft ls < 0) ∧ (0 < err → 0 < kraft ls) ∧ (0 ≤ err → table_for ls h').
Proof using a_ls small.
  intros Hs. unfold huffman_construct. pose proof (count_lengths_ok 0 ltac:(lia)) as Hc. rewrite Nat.sub_0_r in Hc.
  rewrite (bind_run _ _ st _ st Hc). rewrite (bind_run _ _ st (count_of ls 0) st) by (by rewrite counts_at by lia). case_decide as H0.
  { apply no_code_count in H0. exists 0, (mkHuffman (counts ls) (h_symbol h)). split_and!; [done|done|done| | | |].
    - split; [by left|done].
    - lia.
    - lia.
    - intros _. split; [done|]. intros sym len Hsym Hne.
      unfold no_code in H0. rewrite Forall_lookup in H0. by apply H0 in Hsym. }
  rewrite no_code_count in H0. destruct (subscribe_ok 0 ltac:(lia)) as (ok & left_ & E & Hk); [done|]. change (15 - 0)%nat with MAXBITS in E.
  change (room 0) with 1 in E. rewrite (bind_run _ _ st _ st E). destruct ok.
  - rewrite (bind_run _ _ st _ st (wr_ok (unset 16) 1 0 ltac:(vm_compute; lia))).
    destruct (offsets_ok 1 (<[1%nat := Some 0]> (unset 16))) as (offs & Eo & Ho); [lia| |].
    { split; [done|]. intros len Hlen. replace len with 1%nat by lia. done. }
    rewrite (bind_run _ _ st _ st Eo). destruct (place_ok 0 offs (h_symbol h)) as (syms & Ep & Hp & Hl); [lia|done|intros ???; lia|done|].
    rewrite Nat.sub_0_r in Ep. rewrite (bind_run _ _ st _ st Ep). destruct Hk as [-> Hk].
    exists (kraft ls), (mkHuffman (counts ls) syms). split_and!; [done|done|done| | | |].
    + unfold complete. tauto.
    + lia.
    + done.
    + intros _. split; [done|].
      intros sym len Hsym Hne. apply Hp; [by eapply lookup_lt_Some|done..].
  - destruct Hk as [Hneg Hk]. exists left_, (mkHuffman (counts ls) (h_symbol h)). split_and!; [done|done|done| |lia|lia|lia].
    unfold complete. split; [lia|intros [?|?]; [done|lia]].
Qed.
End construct.

(** ** The stream that the state stands for *)

Section refinement.
Context (src : list Z) (n : nat) (cap : option nat).
Hypothesis src_bytes : Forall is_byte src.
Hypothesis src_length : (n ≤ length src)%nat.

(** The bits that are not fetched yet, and all that are left. *)
Definition rest_bits (s : InflateState) : list bool := stream (drop (s_incnt s) (take n src)).
Definition buf_bits (s : InflateState) : list bool := lowbits (Z.to_nat (s_bitcnt s)) (s_bitbuf s).

Record in_ok (s : InflateState) : Prop := {
  io_in : s_in s = src;
  io_inlen : s_inlen s = n;
  io_incnt : (s_incnt s ≤ n)%nat;
}.
Definition out_ok (s : InflateState) (out : list Z) : Prop := s_outcnt s = length out ∧
  match s_out s, cap with
  | None, None => True
  | Some a, Some c => s_outlen s = c ∧ length a = c ∧ (length out ≤ c)%nat ∧ take (length out) a = map Some out
  | _, _ => False
  end.
Record rel (s : InflateState) (bs : list bool) (out : list Z) : Prop := {
  re_in : in_ok s;
  re_cnt : 0 ≤ s_bitcnt s < 8;
  re_buf : 0 ≤ s_bitbuf s < 2 ^ s_bitcnt s;
  re_bits : buf_bits s ++ rest_bits s = bs;
  re_out : out_ok s out;
}.

Lemma in_byte_ok s : in_ok s → (s_incnt s < n)%nat →
  ∃ b, in_byte s = Ok b (set s_incnt S s) ∧ is_byte b ∧ src !! s_incnt s = Some b ∧ rest_bits s = lowbits 8 b ++ rest_bits (set s_incnt S s).
Proof using src_bytes src_length.
  intros [Hi Hn Hc] Hlt. destruct (lookup_lt_is_Some_2 src (s_incnt s) ltac:(lia)) as [b Hb]. exists b. split_and!; [|by eapply Forall_lookup_1|done|].
  - unfold in_byte, gets, mbind, deref. cbn [id]. by rewrite Hi, Hb.
  - unfold rest_bits. cbn. assert (take n src !! s_incnt s = Some b) as Hb' by (rewrite lookup_take; by rewrite decide_True).
    rewrite (drop_S _ _ _ Hb'). done.
Qed.
Lemma next_byte_ok s : in_ok s → (s_incnt s < n)%nat →
  ∃ b, next_byte s = Ok b (set s_incnt S s) ∧ is_byte b ∧ rest_bits s = lowbits 8 b ++ rest_bits (set s_incnt S s).
Proof using src_bytes src_length.
  intros Hs Hlt. destruct (in_byte_ok s Hs Hlt) as (b & E & Hb & _ & Hr). exists b. split; [|done].
  unfold next_byte, gets, mbind. cbn [id]. rewrite (io_inlen s Hs), decide_False by lia. done.
Qed.
Lemma next_byte_end s : in_ok s → s_incnt s = n → next_byte s = Die [] s ∧ rest_bits s = [].
Proof using src_length.
  intros Hs E. split.
  - unfold next_byte, gets, mbind. cbn [id]. by rewrite (io_inlen s Hs), decide_True.
  - unfold rest_bits. rewrite drop_ge; [done|]. rewrite length_take. lia.
Qed.
Lemma in_ok_incnt s k : in_ok s → (s_incnt s + k ≤ n)%nat → in_ok (set s_incnt (λ c, c + k)%nat s).
Proof. intros [Hi Hl Hc] Hk. constructor; [done|done|done]. Qed.
Lemma in_ok_next s : in_ok s → (s_incnt s < n)%nat → in_ok (set s_incnt S s).
Proof. intros [Hi Hl Hc] Hk. constructor; [done|done|simpl; lia]. Qed.
Lemma in_ok_cnt s f : in_ok s → in_ok (set s_bitcnt f s).
Proof. intros []. by constructor. Qed.
Lemma in_ok_buf s f : in_ok s → in_ok (set s_bitbuf f s).
Proof. intros []. by constructor. Qed.

(** A byte put above the bits of a buffer. *)
Lemma lor_shift val b c : 0 ≤ c → 0 ≤ val < 2 ^ c → is_byte b →
  Z.lor val (Z.shiftl b c) = val + 2 ^ c * b ∧ 0 ≤ val + 2 ^ c * b < 2 ^ (c + 8) ∧
  lowbits (Z.to_nat c + 8) (val + 2 ^ c * b) = lowbits (Z.to_nat c) val ++ lowbits 8 b.
Proof.
  intros Hc Hv Hb. unfold is_byte in Hb. assert (0 < 2 ^ c) by (apply Z.pow_pos_nonneg; lia). split_and!.
  - rewrite Z.lor_comm, lor_high by lia. lia.
  - lia.
  - rewrite Z.pow_add_r by lia. change (2 ^ 8) with 256. nia.
  - apply lsb_inj; [by rewrite length_app, !length_lowbits|]. rewrite lsb_app, !lsb_lowbits, length_lowbits, Nat2Z.inj_add, Z2Nat.id by lia.
    rewrite Z.pow_add_r by lia. change (Z.of_nat 8) with 8. change (2 ^ 8) with 256. rewrite !Z.mod_small by nia. done.
Qed.

(** The low bits of a buffer are taken off. *)
Lemma buf_split c k val : 0 ≤ k ≤ c → 0 ≤ val < 2 ^ c →
  lowbits (Z.to_nat c) val = lowbits (Z.to_nat k) val ++ lowbits (Z.to_nat (c - k)) (Z.shiftr val k) ∧
  0 ≤ Z.shiftr val k < 2 ^ (c - k).
Proof.
  intros Hk Hv. split.
  - replace (Z.to_nat c) with (Z.to_nat k + Z.to_nat (c - k))%nat by lia. rewrite lowbits_add. by rewrite Z2Nat.id by lia.
  - rewrite Z.shiftr_div_pow2 by lia. split; [apply Z.div_pos; [lia|apply Z.pow_pos_nonneg; lia]|].
    apply Z.div_lt_upper_bound; [apply Z.pow_pos_nonneg; lia|]. rewrite <- Z.pow_add_r by lia. replace (k + (c - k)) with c by lia. lia.
Qed.

(** ** inflate_bits *)

Lemma bits_loop_ok fuel need val s : in_ok s → 0 ≤ s_bitcnt s < need + 8 → 0 ≤ val < 2 ^ s_bitcnt s → need ≤ s_bitcnt s + 8 * Z.of_nat fuel →
  let bs := lowbits (Z.to_nat (s_bitcnt s)) val ++ rest_bits s in
  if decide (Z.of_nat (length bs) < need) then ∃ msg s', bits_loop fuel need val s = Die msg s'
  else ∃ val' c i, let s' := set s_bitcnt (λ _, c) (set s_incnt (λ _, i) s) in
    bits_loop fuel need val s = Ok val' s' ∧ in_ok s' ∧ need ≤ c < need + 8 ∧ 0 ≤ c ∧ 0 ≤ val' < 2 ^ c ∧
    lowbits (Z.to_nat c) val' ++ rest_bits s' = bs.
Proof using src_bytes src_length.
  revert val s. induction fuel as [|fuel IH]; intros val s Hs Hc Hv Hf bs.
  - cbn [bits_loop]. unfold gets, mbind. rewrite !decide_False by (try (subst bs; rewrite length_app, length_lowbits); lia).
    exists val, (s_bitcnt s), (s_incnt s). destruct s. cbn in *. split_and!; try done; lia.
  - cbn [bits_loop]. rewrite (bind_run _ _ s (s_bitcnt s) s) by done. destruct (decide (s_bitcnt s < need)) as [Hlt|].
    2: { rewrite decide_False by (subst bs; rewrite length_app, length_lowbits; lia).
         exists val, (s_bitcnt s), (s_incnt s). destruct s. cbn in *. split_and!; try done; lia. }
    destruct (decide (s_incnt s = n)) as [He|Hne].
    { destruct (next_byte_end s Hs He) as [E Hr]. rewrite decide_True; [exists [], s; unfold mbind; by rewrite E|].
      subst bs. rewrite Hr, app_nil_r, length_lowbits. lia. }
    destruct (next_byte_ok s Hs) as (b & E & Hb & Hr); [pose proof (io_incnt s Hs); lia|].
    rewrite (bind_run _ _ _ _ _ E). rewrite (bind_run _ _ _ tt (set s_bitcnt (λ n, n + 8) (set s_incnt S s))) by done.
    destruct (lor_shift val b (s_bitcnt s)) as (El & Hrange & Hbits); [lia|done|done|]. rewrite El.
    set (s1 := set s_bitcnt (λ n, n + 8) (set s_incnt S s)).
    assert (lowbits (Z.to_nat (s_bitcnt s1)) (val + 2 ^ s_bitcnt s * b) ++ rest_bits s1 = bs) as Ebs.
    { change (s_bitcnt s1) with (s_bitcnt s + 8). rewrite Z2Nat.inj_add by lia. change (Z.to_nat 8) with 8%nat. rewrite Hbits, <- app_assoc.
      subst bs. by rewrite Hr. }
    specialize (IH (val + 2 ^ s_bitcnt s * b) s1). rewrite Ebs in IH. destruct s. cbn in *.
    apply IH; [|lia|done|lia]. constructor; cbn; destruct Hs; cbn in *; [done|done|lia].
Qed.

Lemma inflate_bits_ok k s bs out : rel s bs out →
  match bits k bs with
  | inl e => e = short ∧ ∃ msg s', inflate_bits (Z.of_nat k) s = Die msg s'
  | inr (v, bs') => ∃ s', inflate_bits (Z.of_nat k) s = Ok v s' ∧ rel s' bs' out
  end.
Proof using src_bytes src_length.
  intros [Hin Hc Hb Hbits Hout]. unfold bits, inflate_bits.
  pose proof (bits_loop_ok (Z.to_nat (Z.of_nat k)) (Z.of_nat k) (s_bitbuf s) s Hin ltac:(lia) Hb ltac:(lia)) as H. cbv zeta in H.
  unfold buf_bits in Hbits. rewrite Hbits in H. rewrite (bind_run _ _ s (s_bitbuf s) s) by done.
  destruct (decide (length bs < k)%nat) as [Hlt|Hge].
  - rewrite decide_True in H by lia. destruct H as (msg & s' & E). split; [done|]. exists msg, s'. unfold mbind. by rewrite E.
  - rewrite decide_False in H by lia. destruct H as (val & c & i & E & Hin' & Hcr & Hc0 & Hv & Hbs). rewrite (bind_run _ _ _ _ _ E).
    destruct (buf_split c (Z.of_nat k) val) as [Hsp Hr]; [lia|done|]. rewrite Hsp, <- app_assoc, Nat2Z.id in Hbs.
    eexists. split.
    + unfold modify, mbind, mret. f_equal.
      replace (Z.shiftl 1 (Z.of_nat k) - 1) with (Z.ones (Z.of_nat k)) by (unfold Z.ones; lia). rewrite Z.land_ones by lia.
      rewrite <- Hbs, take_app_length' by (by rewrite length_lowbits). by rewrite lsb_lowbits.
    + destruct Hin' as [Hi1 Hi2 Hi3]. destruct s. cbn in *. constructor; cbn; [by constructor|lia|done| |done].
      rewrite <- Hbs, drop_app_length' by (by rewrite length_lowbits). done.
Qed.
(** ** inflate_decode *)

Section decode.
Context (ls : list nat) (h : Huffman).
Hypothesis h_table : table_for ls h.
Hypothesis ls_small : Forall (λ l, l ≤ 15)%nat ls.

(** The variables of the loop in front of the bit that makes codewords of
    [len] bits; [avail] bits of the buffer are not looked at. *)
Record decoding (bs : list bool) (s : InflateState) (code first index : Z) (len : nat) (bitbuf : Z) (left_ avail : nat) : Prop := {
  dg_in : in_ok s;
  dg_avail : (avail ≤ 8)%nat;
  dg_buf : 0 ≤ bitbuf < 2 ^ Z.of_nat avail;
  dg_len : (1 ≤ len ≤ 16)%nat;
  dg_bits : lowbits avail bitbuf ++ rest_bits s = drop (len - 1) bs;
  dg_read : (len - 1 ≤ length bs)%nat;
  dg_code : code = 2 * msb (take (len - 1) bs);
  dg_first : first = first_code ls len;
  dg_index : index = index_of_len ls len;
  dg_order : first ≤ code;
  dg_left : (left_ ≤ 16 - len)%nat;
  dg_left' : left_ = avail ∨ (left_ = 16 - len)%nat ∧ (left_ ≤ avail)%nat;
  dg_cnt : (s_bitcnt s - Z.of_nat (len - 1)) mod 8 = Z.of_nat avail mod 8;
}.

(** What it means that the loop has decoded the stream. *)
Definition decoded (s : InflateState) (spec : Z + nat * list bool) (o : out InflateState Z) : Prop :=
  match spec with
  | inl e => (e = short ∧ ∃ msg s', o = Die msg s') ∨ (e = -10 ∧ ∃ s', o = Ok (-10) s')
  | inr (sym, bs') => ∃ c b i, let s' := set s_bitcnt (λ _, c) (set s_bitbuf (λ _, b) (set s_incnt (λ _, i) s)) in
      o = Ok (Z.of_nat sym) s' ∧ in_ok s' ∧ 0 ≤ c < 8 ∧ 0 ≤ b < 2 ^ c ∧ buf_bits s' ++ rest_bits s' = bs'
  end.

(** The next bit. *)
Lemma decoding_bit bs s code first index len bitbuf left_ avail :
  decoding bs s code first index len bitbuf (S left_) avail →
  ∃ b, (0 < avail)%nat ∧ lowbits avail bitbuf = b :: lowbits (avail - 1) (Z.shiftr bitbuf 1) ∧
  0 ≤ Z.shiftr bitbuf 1 < 2 ^ Z.of_nat (avail - 1) ∧ lowbits (avail - 1) (Z.shiftr bitbuf 1) ++ rest_bits s = drop len bs ∧
  (len ≤ length bs)%nat ∧ take len bs = take (len - 1) bs ++ [b] ∧ Z.lor code (Z.land bitbuf 1) = msb (take len bs).
Proof.
  intros [Hin Hav Hb Hlen Hbits Hrd -> Hf Hi Ho Hl Hl' Hc]. assert (0 < avail)%nat as Hp by lia. exists (Z.odd bitbuf).
  replace avail with (S (avail - 1)) in Hbits at 1 by lia. rewrite lowbits_S in Hbits. cbn [app] in Hbits.
  assert (bs !! (len - 1)%nat = Some (Z.odd bitbuf)) as Hb0.
  { rewrite <- (Nat.add_0_r (len - 1)), <- lookup_drop, <- Hbits. done. }
  assert (take len bs = take (len - 1) bs ++ [Z.odd bitbuf]) as Ht.
  { replace len with (S (len - 1)) at 1 by lia. by apply take_S_r. }
  split_and!; [done| | | | |by apply lookup_lt_Some in Hb0; lia|done|].
  - replace avail with (S (avail - 1)) at 1 by lia. apply lowbits_S.
  - rewrite Z.shiftr_div_pow2 by lia. apply Z.div_pos; lia.
  - rewrite Z.shiftr_div_pow2 by lia. apply Z.div_lt_upper_bound; [lia|]. rewrite <- Z.pow_succ_r, <- Nat2Z.inj_succ by lia.
    replace (S (avail - 1)) with avail by lia. lia.
  - replace len with (S (len - 1)) at 1 by lia. rewrite (drop_S _ _ _ Hb0) in Hbits. by injection Hbits.
  - rewrite Ht, msb_app. change 1 with (Z.ones 1) at 1. rewrite Z.land_ones by lia. change (2 ^ 1) with 2. rewrite Zmod_odd.
    rewrite (Z.mul_comm 2), <- (Z.shiftl_mul_pow2 _ 1) by lia. rewrite lor_high by (destruct (Z.odd bitbuf); cbn; lia). change (2 ^ 1) with 2.
    rewrite Z.shiftl_mul_pow2 by lia. by destruct (Z.odd bitbuf).
Qed.

Lemma decode_found bs s code first index len bitbuf left_ avail b :
  decoding bs s code first index len bitbuf (S left_) avail → (0 < avail)%nat →
  let code := msb (take len bs) in take len bs = take (len - 1) bs ++ [b] →
  0 ≤ Z.shiftr bitbuf 1 < 2 ^ Z.of_nat (avail - 1) → lowbits (avail - 1) (Z.shiftr bitbuf 1) ++ rest_bits s = drop len bs →
  (len ≤ length bs)%nat → code - count_of ls len < first →
  decoded s (search ls (16 - len) len bs)
    ((modify (set s_bitbuf (λ _, Z.shiftr bitbuf 1)) ;; modify (set s_bitcnt (λ n, Z.land (n - Z.of_nat len) 7)) ;;
      (if decide (index + (code - first) < 0) then mub else rd (h_symbol h) (Z.to_nat (index + (code - first))))) s).
Proof using h_table src_length.
  intros Hd Hp code' Ht Hb Hbits Hl Hlt. destruct Hd as [Hin Hav _ Hlen _ Hrd -> -> -> Ho Hl1 Hl2 Hc].
  assert (first_code ls len ≤ code') as Hge by (subst code'; rewrite Ht, msb_app; destruct b; cbn [Z.b2z]; lia).
  destruct (rank_surj ls len (code' - first_code ls len)) as (sym & Hsym & Hr); [lia|].
  assert (code_of ls sym len = code') as Hcode by (unfold code_of; lia).
  replace (16 - len)%nat with (S (15 - len)) by lia. cbn [search]. rewrite decide_False by lia. fold code'.
  pose proof (find_code ls len sym Hsym) as Hfind. rewrite Hcode in Hfind. rewrite Hfind.
  assert (index_of_len ls len + (code' - first_code ls len) = slot ls sym len) as -> by (unfold slot; lia).
  pose proof (slot_bound ls sym len Hsym ltac:(lia)). pose proof (tf_symbol ls h h_table sym len Hsym ltac:(lia)) as Hsymb.
  exists (Z.of_nat (avail - 1)), (Z.shiftr bitbuf 1), (s_incnt s). unfold modify, mbind. rewrite decide_False by lia.
  unfold rd. rewrite Hsymb. split_and!.
  - unfold mret. f_equal. change 7 with (Z.ones 3). unfold set, set_field. cbn. rewrite Z.land_ones by lia. change (2 ^ 3) with 8.
    assert ((s_bitcnt s - Z.of_nat len) mod 8 = Z.of_nat (avail - 1)) as ->; [|by destruct s].
    replace (s_bitcnt s - Z.of_nat len) with (s_bitcnt s - Z.of_nat (len - 1) - 1) by lia. rewrite Zminus_mod, Hc, <- Zminus_mod.
    rewrite Z.mod_small; lia.
  - destruct Hin. by constructor.
  - lia.
  - lia.
  - lia.
  - lia.
  - unfold buf_bits. cbn. by rewrite Nat2Z.id.
Qed.

Lemma decode_loop_ok fuel : ∀ bs s code first index len bitbuf left_ avail,
  decoding bs s code first index len bitbuf left_ avail → (2 * (16 - len) + (if decide (left_ = 0) then 2 else 1) ≤ fuel)%nat →
  decoded s (search ls (16 - len) len bs) (decode_loop fuel h code first index len bitbuf left_ s).
Proof using h_table src_bytes src_length.
  induction fuel as [|fuel IH]; intros bs s code first index len bitbuf left_ avail Hd Hf; [case_decide; lia|]. cbn [decode_loop].
  destruct left_ as [|left_].
  - rewrite decide_True in Hf by done. pose proof Hd as [Hin Hav Hb Hlen Hbits Hrd Hco Hfi Hix Ho Hl1 Hl2 Hc]. change (S MAXBITS) with 16%nat. case_decide as H16.
    { replace (16 - len)%nat with 0%nat by lia. right. split; [done|]. by eexists. }
    assert (avail = 0%nat) as -> by lia. cbn [lowbits seq map app] in Hbits. destruct (decide (s_incnt s = n)) as [He|Hne].
    + destruct (next_byte_end s Hin He) as [E Hr]. rewrite Hr in Hbits. replace (16 - len)%nat with (S (15 - len)) by lia. cbn [search].
      rewrite decide_True. { left. split; [done|]. exists [], s. unfold mbind. by rewrite E. }
      assert (length (drop (len - 1) bs) = 0%nat) as H0 by (by rewrite <- Hbits). rewrite length_drop in H0. lia.
    + destruct (next_byte_ok s Hin) as (b & E & Hbb & Hr); [pose proof (io_incnt s Hin); lia|]. rewrite (bind_run _ _ _ _ _ E).
      set (s1 := set s_incnt S s). assert (decoded s1 (search ls (16 - len) len bs)
        (decode_loop fuel h code first index len b (if decide (8 < 16 - len)%nat then 8 else 16 - len)%nat s1)) as H.
      { apply (IH _ _ _ _ _ _ _ _ 8%nat).
        - constructor; try done.
          + apply in_ok_next; [done|]. pose proof (io_incnt s Hin). lia.
          + rewrite <- Hbits. exact (eq_sym Hr).
          + case_decide; lia.
          + case_decide; lia.
        - repeat case_decide; lia. }
      unfold decoded in H |- *. destruct (search ls (16 - len) len bs) as [e|[sym bs']]; [done|].
      destruct H as (c & b' & i & H). exists c, b', i. by destruct s.
  - rewrite decide_False in Hf by done. destruct (decoding_bit _ _ _ _ _ _ _ _ _ Hd) as (b & Hp & Hlb & Hbr & Hbits & Hlb' & Ht & ->).
    rewrite (bind_run _ _ s (count_of ls len) s).
    2: { rewrite (tf_count ls h h_table), counts_at; [done|]. pose proof (dg_left _ _ _ _ _ _ _ _ _ Hd). lia. }
    case_decide as Hlt; [by eapply decode_found|].
    pose proof Hd as [Hin Hav Hb Hlen _ Hrd Hco Hfi Hix Ho Hl1 Hl2 Hc].
    assert (msb (take len bs) = code + Z.b2z b) as Hcode by (rewrite Ht, msb_app; lia).
    replace (16 - len)%nat with (S (16 - S len)) by lia. cbn [search]. rewrite decide_False by lia.
    rewrite find_no_code by lia. rewrite !Z.shiftl_mul_pow2 by lia. change (2 ^ 1) with 2.
    apply (IH _ _ _ _ _ _ _ _ (avail - 1)%nat); [|case_decide; lia].
    constructor; replace (S len - 1)%nat with len by lia; try done; try lia.
    + rewrite first_code_S by lia. lia.
    + rewrite index_S by lia. lia.
    + replace (s_bitcnt s - Z.of_nat len) with (s_bitcnt s - Z.of_nat (len - 1) - 1) by lia. rewrite Zminus_mod, Hc, <- Zminus_mod. f_equal. lia.
Qed.

Lemma inflate_decode_ok s bs out : rel s bs out →
  match decode ls bs with
  | inl e => (e = short ∧ ∃ msg s', inflate_decode h s = Die msg s') ∨ (e = -10 ∧ ∃ s', inflate_decode h s = Ok (-10) s')
  | inr (sym, bs') => ∃ s', inflate_decode h s = Ok (Z.of_nat sym) s' ∧ rel s' bs' out
  end.
Proof using h_table src_bytes src_length.
  intros [Hin Hc Hb Hbits Hout]. unfold inflate_decode, decode. rewrite (bind_run _ _ s s s) by done.
  assert (decoding bs s 0 0 0 1 (s_bitbuf s) (Z.to_nat (s_bitcnt s)) (Z.to_nat (s_bitcnt s))) as Hd.
  { constructor; try done; try lia; rewrite Z2Nat.id by lia; [done|]. change (Z.of_nat (1 - 1)) with 0. by rewrite Z.sub_0_r. }
  pose proof (decode_loop_ok 32 bs s 0 0 0 1 _ _ _ Hd ltac:(case_decide; lia)) as H.
  change (16 - 1)%nat with 15%nat in H. unfold decoded in H. destruct (search ls 15 1 bs) as [e|[sym bs']]; [done|].
  destruct H as (c & b & i & E & Hin' & Hc' & Hb' & Hbits'). eexists. split; [exact E|]. by constructor.
Qed.
End decode.
(** ** Simulation *)

(** The program agrees with the format: it fails with the same error, by a
    return or by the jump, or it has a good result. *)
Definition sim {A B} (err : Z → B) (good : A → list bool → Prelude.out InflateState B → Prop) (spec : Z + A * list bool) (o : Prelude.out InflateState B) : Prop :=
  match spec with
  | inl e => (e = short ∧ ∃ msg s', o = Die msg s') ∨ (e ≠ 0 ∧ ∃ s', o = Ok (err e) s')
  | inr (a, bs) => good a bs o
  end.
(** A block is good when its output is there and the state stands for the rest. *)
Definition simulates (spec : Z + list Z * list bool) (o : Prelude.out InflateState Z) : Prop :=
  sim id (λ out bs o, ∃ s', o = Ok 0 s' ∧ rel s' bs out) spec o.

Lemma sim_ret_err e s bs : e ≠ 0 → simulates (derr e bs) (mret e s).
Proof. intros H. right. split; [done|]. by exists s. Qed.
Lemma sim_bits {A B err good} k K M s bs out : rel s bs out →
  (∀ v s' bs', rel s' bs' out → (length bs' + k = length bs)%nat → 0 ≤ v < 2 ^ Z.of_nat k → sim err good (K v bs') (M v s')) →
  @sim A B err good (dbind (bits k) K bs) (mbind (inflate_bits (Z.of_nat k)) M s).
Proof using src_bytes src_length.
  intros Hs H. pose proof (inflate_bits_ok k s bs out Hs) as Hb. unfold dbind. unfold bits in *. case_decide.
  - destruct Hb as (_ & msg & s' & E). left. split; [done|]. exists msg, s'. unfold mbind. by rewrite E.
  - destruct Hb as (s' & E & Hs'). rewrite (bind_run _ _ _ _ _ E). apply H; [done|rewrite length_drop; lia|].
    pose proof (lsb_range (take k bs)) as Hr. by rewrite length_take, Nat.min_l in Hr by lia.
Qed.
Lemma search_shrinks ls k len bs sym bs' : search ls k len bs = inr (sym, bs') →
  (length bs' + len ≤ length bs)%nat ∧ (sym < length ls)%nat.
Proof.
  revert len. induction k as [|k IH]; intros len; cbn [search]; [done|]. case_decide; [done|].
  destruct (list_find _ _) as [[i x]|] eqn:E; [|intros H'; apply IH in H'; lia]. intros [= -> <-]. rewrite length_drop. split; [lia|].
  apply list_find_Some in E as (E & _ & _). apply lookup_seq in E. lia.
Qed.
Lemma sim_decode {A B err good} ls h K M s bs out : table_for ls h → rel s bs out →
  (∀ s', ∃ s'', M (-10) s' = Ok (err (-10)) s'') →
  (∀ sym s' bs', rel s' bs' out → (length bs' < length bs)%nat → (sym < length ls)%nat → sim err good (K sym bs') (M (Z.of_nat sym) s')) →
  @sim A B err good (dbind (decode ls) K bs) (mbind (inflate_decode h) M s).
Proof using src_bytes src_length.
  intros Ht Hs Herr H. pose proof (inflate_decode_ok ls h Ht s bs out Hs) as Hd. unfold dbind. destruct (decode ls bs) as [e|[sym bs']] eqn:E.
  - destruct Hd as [(-> & msg & s' & Ed)|(-> & s' & Ed)].
    + left. split; [done|]. exists msg, s'. unfold mbind. by rewrite Ed.
    + right. split; [done|]. destruct (Herr s') as [s'' E2]. exists s''. by rewrite (bind_run _ _ _ _ _ Ed).
  - destruct Hd as (s' & Ed & Hs'). rewrite (bind_run _ _ _ _ _ Ed). apply search_shrinks in E. apply H; [done|lia|lia].
Qed.

(** ** The output *)

Lemma rel_out s bs out o c out' : rel s bs out → out_ok (set s_outcnt (λ _, c) (set s_out (λ _, o) s)) out' →
  rel (set s_outcnt (λ _, c) (set s_out (λ _, o) s)) bs out'.
Proof. intros [[Hi1 Hi2 Hi3] Hc Hb Hbits Hout] Ho. constructor; [by constructor|done|done|done|done]. Qed.

Lemma take_snoc {A} (l : list A) i x : (i < length l)%nat → take (S i) (<[i := x]> l) = take i l ++ [x].
Proof.
  intros H. rewrite (take_S_r _ _ x) by (by apply list_lookup_insert_eq). by rewrite take_insert_ge by lia.
Qed.

Lemma put_out_ok s bs out v a : rel s bs out → s_out s = Some a → fits cap (S (length out)) →
  ∃ s', put_out v s = Ok tt s' ∧ rel s' bs (out ++ [v]) ∧ (∃ a', s_out s' = Some a') ∧ s_incnt s' = s_incnt s.
Proof.
  intros Hs Ea Hf. pose proof (re_out _ _ _ Hs) as [Hoc Ho]. rewrite Ea in Ho. destruct cap as [c|] eqn:Ec; [|done]. destruct Ho as (Hol & Hla & Hle & Ht).
  cbn in Hf. unfold put_out, gets, mbind. cbn [id]. rewrite Ea. unfold wr. rewrite decide_True by lia. cbn [mret].
  eexists. split; [reflexivity|].
  assert (rel (set s_outcnt (λ _, S (length out)) (set s_out (λ _, Some (<[s_outcnt s:=Some v]> a)) s)) bs (out ++ [v])) as Hr.
  { apply (rel_out s bs out); [done|]. split; [cbn; rewrite length_app; simpl; lia|]. cbn. rewrite Ec, length_insert, length_app, Nat.add_1_r.
    split_and!; [done|done|lia|]. rewrite Hoc, take_snoc by lia. rewrite Ht, map_app. done. }
  split; [|by split; [eexists|]]. replace (set s_outcnt S _) with (set s_outcnt (λ _, S (length out)) (set s_out (λ _, Some (<[s_outcnt s:=Some v]> a)) s)); [done|].
  destruct s. cbn in *. by rewrite Hoc.
Qed.

(** Only counted when there is no destination. *)
Lemma count_out_ok s bs out vs : rel s bs out → s_out s = None → rel (set s_outcnt (λ n, n + length vs)%nat s) bs (out ++ vs).
Proof.
  intros [[Hi1 Hi2 Hi3] Hc Hb Hbits [Hoc Ho]] E. constructor; [by constructor|done|done|done|]. rewrite E in Ho. destruct cap eqn:Ec; [done|].
  split; [|by cbn; rewrite E, Ec]. cbn. rewrite length_app. lia.
Qed.

Lemma repeat_from_prefix k d out : ∃ vs, repeat_from k d out = out ++ vs ∧ length vs = k.
Proof.
  revert out. induction k as [|k IH]; intros out; cbn [repeat_from]; [exists []; by rewrite app_nil_r|].
  destruct (IH (out ++ [nth (length out - d) out 0])) as (vs & -> & Hl). eexists. split; [by rewrite <- app_assoc|]. simpl. lia.
Qed.

Lemma copy_match_ok k d s bs out a : rel s bs out → s_out s = Some a → (0 < d ≤ length out)%nat → fits cap (length out + k) →
  ∃ s', copy_match k d s = Ok tt s' ∧ rel s' bs (repeat_from k d out).
Proof.
  revert s out a. induction k as [|k IH]; intros s out a Hs Ea Hd Hf; cbn [copy_match repeat_from]; [by exists s|].
  rewrite (bind_run _ _ s s s) by done. rewrite Ea. pose proof (re_out _ _ _ Hs) as [Hoc Ho]. rewrite Ea in Ho. destruct cap as [c|] eqn:Ec; [|done].
  destruct Ho as (Hol & Hla & Hle & Ht). rewrite decide_False by lia. rewrite Hoc.
  assert (a !! (length out - d)%nat = Some (Some (nth (length out - d) out 0))) as Hv.
  { assert (take (length out) a !! (length out - d)%nat = a !! (length out - d)%nat) as <- by (rewrite lookup_take; by rewrite decide_True by lia).
    rewrite Ht, list_lookup_fmap. destruct (lookup_lt_is_Some_2 out (length out - d) ltac:(lia)) as [x Hx]. rewrite Hx. cbn.
    by rewrite (nth_lookup_Some _ _ _ _ Hx). }
  rewrite (bind_run _ _ s (nth (length out - d) out 0) s) by (unfold rd; by rewrite Hv).
  cbn in Hf. destruct (put_out_ok s bs out (nth (length out - d) out 0) a Hs Ea) as (s' & E & Hs' & (a' & Ea') & _); [rewrite Ec; cbn; lia|].
  rewrite (bind_run _ _ _ _ _ E). apply (IH s' _ a'); [done|done|rewrite length_app; lia|cbn; rewrite length_app; simpl; lia].
Qed.
(** ** inflate_codes *)

Lemma length_tables : Forall (λ i, lens !! i = Some (length_base i) ∧ lext !! i = Some (Z.of_nat (length_extra i))) (seq 0 29).
Proof. apply (bool_decide_unpack _). vm_compute. exact I. Qed.
Lemma dist_tables : Forall (λ i, dists !! i = Some (dist_base i) ∧ dext !! i = Some (Z.of_nat (dist_extra i)) ∧ 1 ≤ dist_base i) (seq 0 30).
Proof. apply (bool_decide_unpack _). vm_compute. exact I. Qed.
Lemma seq_forall (P : nat → Prop) k i : Forall P (seq 0 k) → (i < k)%nat → P i.
Proof. intros H Hi. rewrite Forall_forall in H. apply H, elem_of_seq. lia. Qed.

Lemma out_cases s bs out : rel s bs out → (s_out s = None ∧ cap = None) ∨
  (∃ a c, s_out s = Some a ∧ cap = Some c ∧ s_outlen s = c ∧ s_outcnt s = length out ∧ (length out ≤ c)%nat).
Proof.
  intros Hs. destruct (re_out _ _ _ Hs) as [Hoc Ho]. destruct (s_out s) as [a|], cap as [c|]; try done; [|by left].
  right. exists a, c. naive_solver.
Qed.

(** A literal byte. *)
Lemma literal_ok s bs out v K M : rel s bs out → (∀ s', rel s' bs (out ++ [v]) → simulates (K bs) (M s')) →
  simulates ((if decide (fits cap (S (length out))) then K else derr 1) bs)
    (match s_out s with
     | Some _ => if decide (s_outcnt s = s_outlen s) then mret 1 else put_out v ;; M
     | None => modify (set s_outcnt S) ;; M
     end s).
Proof.
  intros Hs H. destruct (out_cases s bs out Hs) as [[Eo Ec]|(a & c & Eo & Ec & Hol & Hoc & Hle)]; rewrite Eo.
  - rewrite decide_True by (by rewrite Ec). apply H. pose proof (count_out_ok s bs out [v] Hs Eo) as Hr.
    replace (set s_outcnt S s) with (set s_outcnt (λ n, n + length [v])%nat s); [done|]. unfold set, set_field. cbn [length]. by rewrite Nat.add_1_r.
  - case_decide as Hf.
    + rewrite decide_False by (rewrite Ec in Hf; cbn in Hf; lia). destruct (put_out_ok s bs out v a Hs Eo Hf) as (s' & E & Hs' & _).
      rewrite (bind_run _ _ _ _ _ E). by apply H.
    + rewrite decide_True by (rewrite Ec in Hf; cbn in Hf; lia). by apply sim_ret_err.
Qed.

(** A copy of earlier output. *)
Lemma match_ok s bs out k d K M : rel s bs out → (0 < d ≤ length out)%nat → (∀ s', rel s' bs (repeat_from k d out) → simulates (K bs) (M s')) →
  simulates ((if decide (fits cap (length out + k)) then K else derr 1) bs)
    (match s_out s with
     | Some _ => if decide (s_outlen s < s_outcnt s + k)%nat then mret 1 else copy_match k d ;; M
     | None => modify (set s_outcnt (λ n, n + k)%nat) ;; M
     end s).
Proof.
  intros Hs Hd H. destruct (out_cases s bs out Hs) as [[Eo Ec]|(a & c & Eo & Ec & Hol & Hoc & Hle)]; rewrite Eo.
  - rewrite decide_True by (by rewrite Ec). apply H. destruct (repeat_from_prefix k d out) as (vs & -> & <-). by apply count_out_ok.
  - case_decide as Hf.
    + rewrite decide_False by (rewrite Ec in Hf; cbn in Hf; lia). destruct (copy_match_ok k d s bs out a Hs Eo Hd Hf) as (s' & E & Hs').
      rewrite (bind_run _ _ _ _ _ E). by apply H.
    + rewrite decide_True by (rewrite Ec in Hf; cbn in Hf; lia). by apply sim_ret_err.
Qed.

Lemma codes_loop_ok lit dist hl hd fuel : table_for lit hl → table_for dist hd → (length dist ≤ 30)%nat →
  ∀ s bs out, rel s bs out → (length bs < fuel)%nat → simulates (symbols cap fuel lit dist out bs) (codes_loop fuel hl hd s).
Proof using src_bytes src_length.
  intros Hl Hd H30. induction fuel as [|fuel IH]; intros s bs out Hs Hf; [lia|]. cbn [symbols codes_loop].
  apply (sim_decode lit hl _ _ s bs out); [done|done|intros s'; by exists s'|]. intros sym s1 bs1 Hs1 Hl1 Hsym.
  rewrite (decide_False (P := Z.of_nat sym < 0)) by lia. destruct (decide (sym < 256)%nat).
  { rewrite (decide_True (P := Z.of_nat sym < 256)) by lia. rewrite (bind_run _ _ _ s1 s1) by done. apply literal_ok; [done|]. intros s' Hs'. apply IH; [done|lia]. }
  rewrite (decide_False (P := Z.of_nat sym < 256)) by lia. destruct (decide (sym = 256%nat)) as [->|].
  { by exists s1. }
  rewrite (decide_True (P := 256 < Z.of_nat sym)) by lia. replace (Z.to_nat (Z.of_nat sym - 257)) with (sym - 257)%nat by lia. cbv zeta.
  case_decide; [by apply sim_ret_err|]. destruct (seq_forall _ _ (sym - 257) length_tables ltac:(lia)) as [-> ->]. unfold deref.
  rewrite (bind_run _ _ _ (length_base (sym - 257)) s1), (bind_run _ _ _ (Z.of_nat (length_extra (sym - 257))) s1) by done.
  apply (sim_bits _ _ _ s1 bs1 out); [done|]. intros x s2 bs2 Hs2 Hl2 Hx.
  apply (sim_decode dist hd _ _ s2 bs2 out); [done|done|intros s'; by exists s'|]. intros j s3 bs3 Hs3 Hl3 Hj.
  rewrite (decide_False (P := Z.of_nat j < 0)), Nat2Z.id by lia. destruct (seq_forall _ _ j dist_tables ltac:(lia)) as (-> & -> & Hbase). unfold deref.
  rewrite (bind_run _ _ _ (dist_base j) s3), (bind_run _ _ _ (Z.of_nat (dist_extra j)) s3) by done.
  apply (sim_bits _ _ _ s3 bs3 out); [done|]. intros y s4 bs4 Hs4 Hl4 Hy. rewrite (bind_run _ _ _ s4 s4) by done. cbv zeta.
  pose proof (re_out _ _ _ Hs4) as [Hoc _]. case_decide.
  { rewrite (decide_True (P := (s_outcnt s4 < _)%nat)) by lia. by apply sim_ret_err. }
  rewrite (decide_False (P := (s_outcnt s4 < _)%nat)) by lia.
  apply match_ok; [done|lia|]. intros s' Hs'. apply IH; [done|lia].
Qed.
Lemma length_rest s : length (rest_bits s) = (8 * (n - s_incnt s))%nat.
Proof using src_length. unfold rest_bits. rewrite length_stream, length_drop, length_take. lia. Qed.
Lemma bits_left_ok s bs out : rel s bs out → bits_left s = length bs.
Proof using src_length.
  intros [Hin Hc Hb <- Hout]. unfold bits_left. rewrite length_app, length_rest, (io_inlen s Hin). unfold buf_bits. rewrite length_lowbits. lia.
Qed.
Lemma inflate_codes_ok lit dist hl hd s bs out : table_for lit hl → table_for dist hd → (length dist ≤ 30)%nat → rel s bs out →
  simulates (compressed cap lit dist out bs) (inflate_codes hl hd s).
Proof using src_bytes src_length.
  intros Hl Hd H30 Hs. unfold inflate_codes, compressed. rewrite (bind_run _ _ s (length bs) s) by (unfold gets; by erewrite bits_left_ok).
  apply codes_loop_ok; [done..|lia].
Qed.

(** ** inflate_stored *)

(** A byte taken at a byte boundary. *)
Lemma in_byte_rel s bs out : rel s bs out → s_bitcnt s = 0 → (s_incnt s < n)%nat →
  ∃ b bs', in_byte s = Ok b (set s_incnt S s) ∧ is_byte b ∧ bs = lowbits 8 b ++ bs' ∧ rel (set s_incnt S s) bs' out.
Proof using src_bytes src_length.
  intros Hs H0 Hk. destruct (in_byte_ok s (re_in _ _ _ Hs) Hk) as (b & E & Hb & _ & Hr). exists b, (rest_bits (set s_incnt S s)).
  split_and!; [done|apply Hb| |].
  - rewrite <- Hr, <- (re_bits _ _ _ Hs). unfold buf_bits. by rewrite H0.
  - destruct Hs as [Hin Hc Hbuf Hbits Hout]. constructor; [by apply in_ok_next|done|done| |done]. unfold buf_bits. cbn. by rewrite H0.
Qed.

Lemma copy_stored_ok k s bs out a : rel s bs out → s_bitcnt s = 0 → s_out s = Some a → (s_incnt s + k ≤ n)%nat → fits cap (length out + k) →
  ∃ s', copy_stored k s = Ok tt s' ∧ rel s' (drop (8 * k) bs) (out ++ take_bytes k bs).
Proof using src_bytes src_length.
  revert s bs out a. induction k as [|k IH]; intros s bs out a Hs H0 Ea Hk Hf; cbn [copy_stored take_bytes].
  { exists s. split; [done|]. by rewrite app_nil_r. }
  destruct (in_byte_rel s bs out Hs H0) as (b & bs' & E & Hb & -> & Hs1); [lia|]. rewrite (bind_run _ _ _ _ _ E).
  rewrite take_app_length', (drop_app_length' (lowbits 8 b) bs' 8) by done. rewrite (lsb_byte b Hb).
  destruct (put_out_ok _ _ _ b a Hs1) as (s2 & E2 & Hs2 & (a2 & Ea2) & Hi2); [by destruct s|by eapply fits_le; [|exact Hf]; lia|].
  rewrite (bind_run _ _ _ _ _ E2). destruct (IH s2 _ _ a2 Hs2) as (s3 & E3 & Hs3).
  - revert E2. unfold put_out, gets, mbind, wr. destruct (s_out _); [|done]. case_decide; [|done]. by intros [= <-].
  - done.
  - rewrite Hi2. cbn. lia.
  - rewrite length_app. simpl. by replace (length out + 1 + k)%nat with (length out + S k)%nat by lia.
  - exists s3. split; [exact E3|]. rewrite <- app_assoc in Hs3. replace (8 * S k)%nat with (8 + 8 * k)%nat by lia.
    by rewrite <- drop_drop, drop_app_length' by done.
Qed.

Lemma bits_16 b0 b1 bs : is_byte b0 → is_byte b1 → bits 16 (lowbits 8 b0 ++ lowbits 8 b1 ++ bs) = inr (b0 + 256 * b1, bs).
Proof.
  intros H0 H1. unfold bits. rewrite decide_False by (rewrite !length_app, !length_lowbits; lia). rewrite app_assoc.
  rewrite take_app_length', drop_app_length' by (by rewrite length_app, !length_lowbits). by rewrite lsb_app, !lsb_byte, length_lowbits.
Qed.

(** The complement of the length, byte by byte. *)
Lemma nlen_ok b0 b1 b2 b3 : is_byte b0 → is_byte b1 → is_byte b2 → is_byte b3 →
  let len := Z.lor b0 (Z.shiftl b1 8) in
  len = b0 + 256 * b1 ∧
  (b0 + 256 * b1 + (b2 + 256 * b3) = 2 ^ 16 - 1 ↔ b2 = Z.land (Z.lnot len) 255 ∧ b3 = Z.land (Z.shiftr (Z.lnot len) 8) 255).
Proof.
  intros H0 H1 H2 H3 len. unfold is_byte in H0, H1, H2, H3. assert (len = b0 + 256 * b1) as E.
  { subst len. rewrite Z.lor_comm, lor_high by (change (2 ^ 8) with 256; lia). change (2 ^ 8) with 256. lia. }
  split; [done|]. rewrite E. change 255 with (Z.ones 8). rewrite !Z.land_ones by lia. rewrite Z.shiftr_div_pow2 by lia. unfold Z.lnot. change (2 ^ 8) with 256.
  assert (Z.pred (- (b0 + 256 * b1)) mod 256 = 255 - b0) as -> by (symmetry; apply (Z.mod_unique _ _ (- b1 - 1)); lia).
  assert (Z.pred (- (b0 + 256 * b1)) / 256 = - b1 - 1) as -> by (symmetry; apply (Z.div_unique _ _ _ (255 - b0)); lia).
  assert ((- b1 - 1) mod 256 = 255 - b1) as -> by (symmetry; apply (Z.mod_unique _ _ (-1)); lia). change (2 ^ 16) with 65536. lia.
Qed.

Lemma align_bits s bs out : rel s bs out → drop (Nat.modulo (length bs) 8) bs = rest_bits s ∧
  rel (set s_bitcnt (λ _, 0) (set s_bitbuf (λ _, 0) s)) (rest_bits s) out.
Proof using src_length.
  intros [[Hi1 Hi2 Hi3] Hc Hb <- Hout]. split.
  - assert (Nat.modulo (length (buf_bits s ++ rest_bits s)) 8 = length (buf_bits s)) as ->; [|by rewrite drop_app_length].
    rewrite length_app, length_rest. unfold buf_bits. rewrite length_lowbits. rewrite (Nat.mul_comm 8), Nat.Div0.mod_add, Nat.mod_small by lia. done.
  - constructor; [by constructor|cbn; lia|cbn; lia|done|done].
Qed.

Lemma inflate_stored_ok s bs out : rel s bs out → simulates (stored cap out bs) (inflate_stored s).
Proof using src_bytes src_length.
  intros Hs. destruct (align_bits s bs out Hs) as [Ea Hs0]. unfold stored. cbv zeta. rewrite Ea. unfold inflate_stored.
  rewrite (bind_run _ _ _ tt (set s_bitbuf (λ _, 0) s)), (bind_run _ _ _ tt (set s_bitcnt (λ _, 0) (set s_bitbuf (λ _, 0) s))) by done.
  set (s0 := set s_bitcnt (λ _, 0) (set s_bitbuf (λ _, 0) s)) in *. rewrite (bind_run _ _ _ s0 s0) by done.
  pose proof (length_rest s) as Hlr. rewrite (io_inlen _ (re_in _ _ _ Hs0)). change (s_incnt s0) with (s_incnt s). case_decide as H4.
  { unfold dbind, bits. destruct (decide (length (rest_bits s) < 16)%nat); [by apply (sim_ret_err short s0 [])|].
    rewrite decide_True by (rewrite length_drop; lia). by apply (sim_ret_err short s0 []). }
  set (bs0 := rest_bits s) in *. clearbody bs0.
  destruct (in_byte_rel s0 bs0 out Hs0) as (b0 & bs1 & E0 & Hb0 & -> & Hs1); [done|change (s_incnt s0) with (s_incnt s); lia|]. rewrite (bind_run _ _ _ _ _ E0).
  destruct (in_byte_rel _ bs1 out Hs1) as (b1 & bs2 & E1 & Hb1 & -> & Hs2); [done|cbn; lia|]. rewrite (bind_run _ _ _ _ _ E1). cbv zeta.
  destruct (in_byte_rel _ bs2 out Hs2) as (b2 & bs3 & E2 & Hb2 & -> & Hs3); [done|cbn; lia|]. rewrite (bind_run _ _ _ _ _ E2).
  destruct (in_byte_rel _ bs3 out Hs3) as (b3 & bs4 & E3 & Hb3 & -> & Hs4); [done|cbn; lia|].
  destruct (nlen_ok b0 b1 b2 b3 Hb0 Hb1 Hb2 Hb3) as [El Hn]. unfold dbind. rewrite bits_16, bits_16 by done.
  destruct (decide (b2 ≠ Z.land (Z.lnot (Z.lor b0 (b1 ≪ 8))) 255)) as [H2|H2].
  { rewrite (decide_True (P := b0 + 256 * b1 + _ ≠ _)) by tauto. by apply sim_ret_err. }
  rewrite (bind_run _ _ _ _ _ E3). destruct (decide (b3 ≠ Z.land (Z.shiftr (Z.lnot (Z.lor b0 (b1 ≪ 8))) 8) 255)) as [H3|H3].
  { rewrite (decide_True (P := b0 + 256 * b1 + _ ≠ _)) by tauto. by apply sim_ret_err. }
  assert (b0 + 256 * b1 + (b2 + 256 * b3) = 2 ^ 16 - 1) as Hsum by (apply Hn; split; apply dec_stable; tauto).
  rewrite (decide_False (P := b0 + 256 * b1 + _ ≠ _)) by tauto. rewrite El. clear El Hn H2 H3 Hsum. set (k := Z.to_nat (b0 + 256 * b1)).
  match type of Hs4 with rel ?x _ _ => set (s4 := x) in * end. rewrite (bind_run _ _ _ s4 s4) by done. pose proof (re_in _ _ _ Hs4) as Hin4. rewrite (io_inlen _ Hin4).
  assert (length bs4 = 8 * (n - s_incnt s4))%nat as Hl4.
  { rewrite <- (re_bits _ _ _ Hs4), length_app, length_rest. unfold buf_bits. by rewrite length_lowbits. }
  pose proof (io_incnt _ Hin4) as Hi4. destruct (decide (n < s_incnt s4 + k)%nat) as [Hlt|Hge].
  { rewrite decide_True by lia. by apply sim_ret_err. }
  rewrite (decide_False (P := (length bs4 < _)%nat)) by lia.
  destruct (out_cases s4 bs4 out Hs4) as [[Eo Ec]|(a & c & Eo & Ec & Hol & Hoc & Hle)]; rewrite Eo.
  - rewrite decide_True by (by rewrite Ec). eexists. split; [reflexivity|].
    assert (length (take_bytes k bs4) = k) as Hlt by (clear; revert bs4; induction k; intros; simpl; auto).
    pose proof (count_out_ok s4 bs4 out (take_bytes k bs4) Hs4 Eo) as Hr. rewrite Hlt in Hr.
    destruct Hr as [[Hi1 Hi2 Hi3] Hc Hb Hbits Hout]. constructor; [constructor; [done|done|change (s_incnt s4 + k ≤ n)%nat; lia]|done|done| |done].
    rewrite <- Hbits. change (buf_bits _) with (@nil bool). change (buf_bits _) with (@nil bool). cbn [app]. unfold rest_bits.
    rewrite drop_stream, drop_drop. done.
  - case_decide as Hf.
    + rewrite decide_False by (rewrite Ec in Hf; cbn in Hf; lia). destruct (copy_stored_ok k s4 bs4 out a Hs4) as (s5 & E5 & Hs5); [done|done|lia|done|].
      rewrite (bind_run _ _ _ _ _ E5). by exists s5.
    + rewrite decide_True by (rewrite Ec in Hf; cbn in Hf; lia). by apply sim_ret_err.
Qed.
(** ** inflate_fixed *)

(** An array that holds the lengths of a code. *)
Definition holds_lengths (ls : list nat) (a : array) : Prop := ∀ i l, ls !! i = Some l → a !! i = Some (Some (Z.of_nat l)).

Lemma inflate_fixed_ok s bs out : rel s bs out → simulates (fixed cap out bs) (inflate_fixed s).
Proof using src_bytes src_length.
  intros Hs. unfold inflate_fixed, fixed.
  assert (map Some fixed_lengths = map (λ l, Some (Z.of_nat l)) fixed_lit) as -> by reflexivity.
  destruct (huffman_construct_ok s fixed_lit (map (λ l, Some (Z.of_nat l)) fixed_lit)) with (h := mkHuffman [] (unset FIXLCODES))
    as (e1 & hl & E1 & _ & _ & _ & Hn1 & _ & Ht1).
  { intros i l Hl. rewrite list_lookup_fmap, Hl. done. }
  { apply (bool_decide_unpack _). vm_compute. exact I. }
  { apply Nat.eq_le_incl. reflexivity. }
  destruct (huffman_construct_ok s fixed_dist (replicate MAXDCODES (Some 5))) with (h := mkHuffman [] (unset MAXDCODES))
    as (e2 & hd & E2 & _ & _ & _ & Hn2 & _ & Ht2).
  { intros i l Hl. apply lookup_replicate in Hl as [-> Hi]. rewrite (lookup_replicate_2 MAXDCODES (Some 5) i Hi). reflexivity. }
  { apply (bool_decide_unpack _). vm_compute. exact I. }
  { apply Nat.eq_le_incl. reflexivity. }
  assert (length fixed_lit = FIXLCODES) as Hl1 by reflexivity. assert (length fixed_dist = MAXDCODES) as Hl2 by reflexivity. rewrite Hl1 in E1. rewrite Hl2 in E2.
  rewrite (bind_run _ _ _ _ _ E1), (bind_run _ _ _ _ _ E2). apply inflate_codes_ok; [| |by apply Nat.eq_le_incl|done].
  - apply Ht1. destruct (Z.lt_ge_cases e1 0) as [H|]; [|done]. specialize (Hn1 H). by rewrite (eq_refl : kraft fixed_lit = 0) in Hn1.
  - apply Ht2. destruct (Z.lt_ge_cases e2 0) as [H|]; [|done]. specialize (Hn2 H). by rewrite (eq_refl : kraft fixed_dist = 2048) in Hn2.
Qed.

(** ** inflate_dynamic *)

(** The code for code lengths, when those in [done] are set. *)
Record cl_state (done : list nat) (a : array) (cl : list nat) : Prop := {
  cs_array : length a = MAXCODES;
  cs_length : length cl = 19%nat;
  cs_small : Forall (λ l, l ≤ 15)%nat cl;
  cs_set : ∀ i l, i ∈ done → cl !! i = Some l → a !! i = Some (Some (Z.of_nat l));
  cs_zero : ∀ i l, i ∉ done → cl !! i = Some l → l = 0%nat;
}.
Lemma cl_set done a cl i v : cl_state done a cl → i ∉ done → (i < 19)%nat → 0 ≤ v < 8 →
  wr a i v = mret (S := InflateState) (<[i := Some v]> a) ∧ cl_state (i :: done) (<[i := Some v]> a) (<[i := Z.to_nat v]> cl).
Proof.
  intros [Ha Hl Hsm Hset Hz] Hi H19 Hv. split; [unfold wr; rewrite decide_True; [done|rewrite Ha; unfold MAXCODES, MAXLCODES; lia]|]. constructor.
  - by rewrite length_insert.
  - by rewrite length_insert.
  - apply Forall_insert; [done|lia].
  - intros j l Hj Hc. destruct (decide (j = i)) as [->|Hne].
    + rewrite list_lookup_insert_eq in Hc by lia. injection Hc as <-. rewrite list_lookup_insert_eq by (rewrite Ha; unfold MAXCODES, MAXLCODES; lia).
      by rewrite Z2Nat.id by lia.
    + rewrite list_lookup_insert_ne in Hc by done. rewrite list_lookup_insert_ne by done. apply Hset; [set_solver|done].
  - intros j l Hj Hc. rewrite list_lookup_insert_ne in Hc by set_solver. apply (Hz j); [set_solver|done].
Qed.

Lemma NoDup_shift {A} (x : A) l k : NoDup ((x :: l) ++ k) → NoDup (l ++ x :: k).
Proof. rewrite (Permutation_middle l k x). done. Qed.

Lemma read_lengths_ok todo done a cl s bs out : rel s bs out → cl_state done a cl → NoDup (todo ++ done) → Forall (λ i, i < 19)%nat todo →
  match many (length todo) (bits 3) bs with
  | inl e => e = short ∧ ∃ msg s', read_lengths todo a s = Die msg s'
  | inr (vs, bs') => ∃ s' a', read_lengths todo a s = Ok a' s' ∧ rel s' bs' out ∧ length vs = length todo ∧
      cl_state (rev todo ++ done) a' (fold_left (λ l p, <[fst p := Z.to_nat (snd p)]> l) (zip todo vs) cl)
  end.
Proof using src_bytes src_length.
  revert done a cl s bs. induction todo as [|i todo IH]; intros done a cl s bs Hs Hc Hnd Hlt; cbn [length many read_lengths].
  { exists s, a. done. }
  apply Forall_cons in Hlt as [Hi Hlt]. pose proof (NoDup_shift i todo done Hnd) as Hnd'. cbn [app] in Hnd. apply NoDup_cons in Hnd as [Hni Hnd].
  pose proof (inflate_bits_ok 3 s bs out Hs) as Hb. unfold dbind. destruct (bits 3 bs) as [e|[v bs1]] eqn:Eb.
  { destruct Hb as (-> & msg & s' & E). split; [done|]. exists msg, s'. unfold mbind. change 3 with (Z.of_nat 3). by rewrite E. }
  destruct Hb as (s1 & E & Hs1). change 3 with (Z.of_nat 3). rewrite (bind_run _ _ _ _ _ E).
  assert (0 ≤ v < 8) as Hv. { unfold bits in Eb. case_decide; [done|]. injection Eb as <- _. pose proof (lsb_range (take 3 bs)) as Hr.
    rewrite length_take, Nat.min_l in Hr by lia. done. }
  destruct (cl_set done a cl i v Hc ltac:(set_solver) Hi Hv) as [Ew Hc1]. rewrite Ew, (bind_run _ _ _ (<[i := Some v]> a) s1) by done.
  specialize (IH (i :: done) _ _ s1 bs1 Hs1 Hc1 Hnd' Hlt). destruct (many (length todo) (bits 3) bs1) as [e|[vs bs2]].
  - by apply IH.
  - destruct IH as (s2 & a2 & E2 & Hs2 & Hl & Hc2); [done..|].
    exists s2, a2. split_and!; [done|done|by simpl; f_equal|]. cbn [rev zip fold_left fst snd]. by rewrite <- app_assoc.
Qed.
Lemma fill_zero todo done a cl s : cl_state done a cl → NoDup (todo ++ done) → Forall (λ i, i < 19)%nat todo →
  ∃ a', fill todo 0 a s = Ok (S := InflateState) a' s ∧ cl_state (rev todo ++ done) a' cl.
Proof.
  revert done a. induction todo as [|i todo IH]; intros done a Hc Hnd Hlt; cbn [fill]; [by exists a|].
  apply Forall_cons in Hlt as [Hi Hlt]. pose proof (NoDup_shift i todo done Hnd) as Hnd'. cbn [app] in Hnd. apply NoDup_cons in Hnd as [Hni Hnd].
  destruct (cl_set done a cl i 0 Hc ltac:(set_solver) Hi ltac:(lia)) as [Ew Hc1]. rewrite Ew, (bind_run _ _ _ (<[i := Some 0]> a) s) by done.
  assert (<[i := Z.to_nat 0]> cl = cl) as Ecl.
  { apply list_insert_id. destruct (lookup_lt_is_Some_2 cl i) as [l Hl]; [rewrite (cs_length _ _ _ Hc); lia|].
    rewrite Hl. f_equal. apply (cs_zero _ _ _ Hc i); [set_solver|done]. }
  rewrite Ecl in Hc1. destruct (IH (i :: done) _ Hc1 Hnd' Hlt) as (a' & E & Hc'). exists a'. split; [exact E|]. cbn [rev]. by rewrite <- app_assoc.
Qed.
(** The lengths of both codes. *)
Definition good_lengths (out : list Z) (total : nat) (ls : list nat) (bs : list bool) (o : Prelude.out InflateState (Z + array)) : Prop :=
  ∃ s' a', o = Ok (inr a') s' ∧ rel s' bs out ∧ holds_lengths ls a' ∧ length a' = MAXCODES ∧ length ls = total ∧ Forall (λ l, l ≤ 15)%nat ls.

Lemma holds_snoc ls a k v : holds_lengths ls a → (length ls + k ≤ length a)%nat →
  ∃ a', fill (seq (length ls) k) (Z.of_nat v) a = mret (S := InflateState) a' ∧ holds_lengths (ls ++ replicate k v) a' ∧ length a' = length a.
Proof.
  revert ls a. induction k as [|k IH]; intros ls a Hh Hl; cbn [seq fill replicate]; [exists a; by rewrite app_nil_r|].
  unfold wr. rewrite decide_True by lia. destruct (IH (ls ++ [v]) (<[length ls := Some (Z.of_nat v)]> a)) as (a' & E & Hh' & Hl').
  - intros i l Hi. destruct (decide (i = length ls)) as [->|].
    + rewrite list_lookup_middle in Hi by done. injection Hi as <-. by rewrite list_lookup_insert_eq by lia.
    + rewrite list_lookup_insert_ne by done. apply Hh. apply lookup_lt_Some in Hi as Hlt. rewrite length_app in Hlt. simpl in Hlt.
      by rewrite lookup_app_l in Hi by lia.
  - rewrite length_insert, length_app. simpl. lia.
  - exists a'. rewrite length_app, Nat.add_1_r in E. split_and!; [exact E| |by rewrite Hl', length_insert]. by rewrite <- app_assoc in Hh'.
Qed.

Lemma lengths_loop_ok cl hc total fuel : table_for cl hc → (length cl ≤ 19)%nat → (total ≤ MAXCODES)%nat →
  ∀ s bs out ls a, rel s bs out → holds_lengths ls a → length a = MAXCODES → (length ls ≤ total)%nat → Forall (λ l, l ≤ 15)%nat ls →
  (total - length ls ≤ fuel)%nat →
  sim inl (good_lengths out total) (lengths fuel cl total ls bs) (lengths_loop fuel hc total (length ls) a s).
Proof using src_bytes src_length.
  intros Ht H19 Hmax. induction fuel as [|fuel IH]; intros s bs out ls a Hs Hh Ha Hl Hsm Hf; cbn [lengths lengths_loop].
  { rewrite !decide_False by lia. exists s, a. split_and!; try done. lia. }
  case_decide as Hlt; [|exists s, a; split_and!; try done; lia].
  apply (sim_decode cl hc _ _ s bs out); [done|done|intros s'; by exists s'|]. intros sym s1 bs1 Hs1 _ Hsym.
  rewrite (decide_False (P := Z.of_nat sym < 0)) by lia. destruct (decide (sym < 16)%nat).
  { rewrite (decide_True (P := Z.of_nat sym < 16)) by lia. destruct (holds_snoc ls a 1 sym Hh) as (a' & E & Hh' & Ha'); [lia|].
    cbn [seq fill] in E. assert (∀ s, @wr InflateState a (length ls) (Z.of_nat sym) s = Ok a' s) as Ew.
    { intros s'. apply (f_equal (λ f, f s')) in E. unfold wr in E. rewrite decide_True in E by lia.
      unfold wr. rewrite decide_True by lia. exact E. }
    rewrite (bind_run _ _ _ _ _ (Ew s1)). replace (S (length ls)) with (length (ls ++ replicate 1 sym)) by (rewrite length_app; simpl; lia).
    apply IH; [done|done|congruence|rewrite length_app; simpl; lia| |rewrite length_app; simpl; lia].
    apply Forall_app. split; [done|]. apply Forall_singleton. lia. }
  rewrite (decide_False (P := Z.of_nat sym < 16)) by lia. destruct (decide (sym = 16 ∧ ls = [])%nat) as [[-> ->]|Hn5].
  { rewrite decide_True by done. right. split; [done|]. by exists s1. }
  rewrite (decide_False (P := Z.of_nat sym = 16 ∧ length ls = 0%nat)) by (intros [? ?]; apply Hn5; split; [lia|by destruct ls]).
  assert (∀ v x s2 bs2, rel s2 bs2 out → (v ≤ 15)%nat → 3 ≤ x →
    sim inl (good_lengths out total)
      ((if decide (total < length ls + Z.to_nat x)%nat then derr (-6) else lengths fuel cl total (ls ++ replicate (Z.to_nat x) v)) bs2)
      ((if decide (total < length ls + Z.to_nat x)%nat then mret (inl (-6))
        else a' <- fill (seq (length ls) (Z.to_nat x)) (Z.of_nat v) a ;; lengths_loop fuel hc total (length ls + Z.to_nat x) a') s2)) as Hrun.
  { intros v x s2 bs2 Hs2 Hv Hx. case_decide; [right; split; [done|]; by exists s2|].
    destruct (holds_snoc ls a (Z.to_nat x) v Hh) as (a' & E & Hh' & Ha'); [lia|]. rewrite E, (bind_run _ _ _ a' s2) by done.
    replace (length ls + Z.to_nat x)%nat with (length (ls ++ replicate (Z.to_nat x) v)) by (by rewrite length_app, length_replicate).
    apply IH; [done|done|congruence|rewrite length_app, length_replicate; lia| |rewrite length_app, length_replicate; lia].
    apply Forall_app. split; [done|]. by apply Forall_replicate. }
  destruct (decide (sym = 16)%nat) as [->|].
  { rewrite (decide_True (P := Z.of_nat 16 = 16)) by done. destruct (last ls) as [v|] eqn:El; [|apply last_None in El; subst; tauto].
    pose proof El as El'. rewrite last_lookup in El'. pose proof (Hh _ _ El') as Hrd. replace (pred (length ls)) with (length ls - 1)%nat in Hrd by lia.
    assert (v ≤ 15)%nat as Hv by (eapply Forall_lookup_1 in Hsm; [|exact El']; done).
    rewrite mbind_assoc. rewrite (bind_run _ _ _ (Z.of_nat v) s1) by (unfold rd; by rewrite Hrd). rewrite mbind_assoc, dbind_assoc.
    apply (sim_bits 2 _ _ s1 bs1 out); [done|]. intros x s2 bs2 Hs2 _ Hx. apply (Hrun v (3 + x)); [done|done|lia]. }
  rewrite (decide_False (P := Z.of_nat sym = 16)) by lia. destruct (decide (sym = 17)%nat) as [->|].
  { rewrite (decide_True (P := Z.of_nat 17 = 17)) by done. rewrite mbind_assoc, dbind_assoc.
    apply (sim_bits 3 _ _ s1 bs1 out); [done|]. intros x s2 bs2 Hs2 _ Hx. apply (Hrun 0%nat (3 + x)); [done|lia|lia]. }
  rewrite (decide_False (P := Z.of_nat sym = 17)) by lia. rewrite mbind_assoc, dbind_assoc.
  apply (sim_bits 7 _ _ s1 bs1 out); [done|]. intros x s2 bs2 Hs2 _ Hx. apply (Hrun 0%nat (11 + x)); [done|lia|lia].
Qed.
Lemma count_01 ls : count_of ls 0 + count_of ls 1 = Z.of_nat (length ls) ↔ Forall (λ l, l ≤ 1)%nat ls.
Proof.
  assert (count_of ls 0 + count_of ls 1 = Z.of_nat (length ls) - Z.of_nat (length (filter (λ l, ¬ (l ≤ 1)%nat) ls))) as E.
  { induction ls as [|l ls IH]; [done|]. rewrite !count_cons, filter_cons. repeat case_decide; cbn [length]; try lia. }
  rewrite E. split.
  - intros H. assert (filter (λ l, ¬ (l ≤ 1)%nat) ls = []) as H0 by (apply length_zero_iff_nil; lia). rewrite Forall_forall. intros l Hl.
    apply dec_stable. intros Hn. assert (l ∈ filter (λ l, ¬ (l ≤ 1)%nat) ls) as Hf by (by apply list_elem_of_filter). rewrite H0 in Hf. set_solver.
  - intros H. assert (filter (λ l, ¬ (l ≤ 1)%nat) ls = []) as ->; [|cbn; lia]. clear E.
    induction H as [|l ls Hl _ IH]; [done|]. rewrite filter_cons. case_decide; [lia|done].
Qed.

Lemma bad_code_ok ls h err (s : InflateState) : h_count h = counts ls → (err = 0 ↔ complete ls) → (err < 0 → kraft ls < 0) → (0 < err → 0 < kraft ls) →
  ∃ bad, bad_code err h (length ls) s = Ok bad s ∧ (bad = false ↔ usable ls) ∧ (bad = false → 0 ≤ err).
Proof.
  intros Hc H0 Hn Hp. unfold bad_code. case_decide as Ez; [exists false; split_and!; [done| |lia]; split; [by left; apply H0|done]|].
  case_decide as Eneg; [exists true; split_and!; [done| |done]; split; [done|intros [?|[? _]]; [tauto|specialize (Hn Eneg); lia]]|].
  rewrite Hc, !counts_at by lia. exists (bool_decide (Z.of_nat (length ls) ≠ count_of ls 0 + count_of ls 1)). split_and!; [done| |lia].
  rewrite bool_decide_eq_false. assert (Z.of_nat (length ls) = count_of ls 0 + count_of ls 1 ↔ Forall (λ l, l ≤ 1)%nat ls) as -> by (rewrite <- count_01; lia).
  unfold usable. split.
  - intros H. right. split; [apply Hp; lia|by apply dec_stable].
  - intros [?|[_ ?]] Hnot; tauto.
Qed.
(** The code for code lengths has its table. *)
Lemma cl_table_ok s bs out k : rel s bs out → (k ≤ 19)%nat →
  match many k (bits 3) bs with
  | inl e => e = short ∧ ∃ msg s', read_lengths (take k order) (unset MAXCODES) s = Die msg s'
  | inr (vs, bs') => ∃ s' a' a, read_lengths (take k order) (unset MAXCODES) s = Ok a' s' ∧ rel s' bs' out ∧
      fill (drop k order) 0 a' s' = Ok a s' ∧ length a = MAXCODES ∧ holds_lengths (cl_lengths vs) a ∧ length (cl_lengths vs) = 19%nat ∧
      Forall (λ l, l ≤ 15)%nat (cl_lengths vs)
  end.
Proof using src_bytes src_length.
  intros Hs Hk. assert (NoDup order ∧ Forall (λ i, i < 19)%nat order ∧ ∀ i, (i < 19)%nat → i ∈ order) as (Hnd & Hlt & Hall).
  { split; [apply (bool_decide_unpack _); vm_compute; exact I|]. split; [apply (bool_decide_unpack _); vm_compute; exact I|].
    intros i. apply (seq_forall (λ i, i ∈ order)). apply (bool_decide_unpack _). vm_compute. exact I. }
  pose proof (read_lengths_ok (take k order) [] (unset MAXCODES) (replicate 19 0%nat) s bs out Hs) as H.
  assert (length (take k order) = k) as Hlk by (rewrite length_take; change (length order) with 19%nat; lia). rewrite Hlk in H.
  assert (cl_state [] (unset MAXCODES) (replicate 19 0%nat)) as Hc0.
  { constructor; [done|done|apply Forall_replicate; lia|set_solver|]. intros i l _ Hl. by apply lookup_replicate in Hl as [-> _]. }
  rewrite <- (take_drop k order) in Hnd, Hlt. apply Forall_app in Hlt as [Hlt1 Hlt2].
  assert (NoDup (take k order ++ [])) as Hnd1 by (rewrite app_nil_r; by apply NoDup_app in Hnd as (? & _)). specialize (H Hc0 Hnd1 Hlt1).
  destruct (many k (bits 3) bs) as [e|[vs bs']]; [done|]. destruct H as (s' & a' & E & Hs' & Hlv & Hc). rewrite app_nil_r in Hc.
  destruct (fill_zero (drop k order) _ a' _ s' Hc) as (a & Ef & Hc').
  { rewrite Permutation_rev in Hnd. rewrite rev_app_distr in Hnd. rewrite <- (Permutation_rev (drop k order)) in Hnd. exact Hnd. }
  { done. }
  assert (fold_left (λ l p, <[fst p := Z.to_nat (snd p)]> l) (zip (take k order) vs) (replicate 19 0%nat) = cl_lengths vs) as Ecl.
  { unfold cl_lengths. change length_order with order. f_equal. rewrite <- (take_drop k order) at 2. rewrite <- (app_nil_r vs) at 2.
    rewrite zip_with_app by congruence. by rewrite zip_with_nil_r, app_nil_r. }
  rewrite Ecl in Hc'. destruct Hc' as [H1 H2 H3 H4 _]. exists s', a', a. split_and!; [done|done|done|done| |done|done].
  intros i l Hl. apply H4; [|done]. apply lookup_lt_Some in Hl as Hi. rewrite H2 in Hi. rewrite elem_of_app, <- !Permutation_rev.
  specialize (Hall i Hi). rewrite <- (take_drop k order), elem_of_app in Hall. tauto.
Qed.

(** The two codes of a dynamic block, and the block. *)
Lemma dynamic_codes_ok nlen ndist ls hc s5 a5 bs5 out : rel s5 bs5 out → holds_lengths ls a5 → length ls = (nlen + ndist)%nat →
  Forall (λ l, l ≤ 15)%nat ls → ¬ (286 < nlen ∨ 30 < ndist)%nat → length (h_symbol hc) = 286%nat →
  simulates ((if decide (usable (take nlen ls)) then
                if decide (usable (drop nlen ls)) then compressed cap (take nlen ls) (drop nlen ls) out else derr (-8)
              else derr (-7)) bs5)
    ((p <- huffman_construct hc a5 nlen ;;
      let '(err, lencode) := p in
      bad <- bad_code err lencode nlen ;;
      if bad : bool then mret (-7)
      else
        p <- huffman_construct (mkHuffman [] (unset 30)) (drop nlen a5) ndist ;;
        let '(err, distcode) := p in
        bad <- bad_code err distcode ndist ;;
        if bad : bool then mret (-8) else inflate_codes lencode distcode) s5).
Proof using src_bytes src_length.
  intros Hs5 Hh5 Hl5 Hsm5 Hn Hsl.
  assert (length (take nlen ls) = nlen) as Hlt by (rewrite length_take; lia). assert (length (drop nlen ls) = ndist) as Hld by (rewrite length_drop; lia).
  destruct (huffman_construct_ok s5 (take nlen ls) a5) with (h := hc) as (e1 & hl & E6 & Hc6 & _ & Hz6 & Hn6 & Hp6 & Ht6).
  { intros i l Hi. apply Hh5. rewrite lookup_take in Hi. by case_decide. }
  { by apply Forall_take. }
  { rewrite Hsl, Hlt. lia. }
  rewrite Hlt in E6. rewrite (bind_run _ _ _ _ _ E6). destruct (bad_code_ok (take nlen ls) hl e1 s5 Hc6 Hz6 Hn6 Hp6) as (bad & E7 & Hb7 & Hpos7).
  rewrite Hlt in E7. rewrite (bind_run _ _ _ _ _ E7). destruct (decide (usable (take nlen ls))) as [Hu|Hu].
  2: { destruct bad; [by apply sim_ret_err|tauto]. }
  assert (bad = false) as -> by tauto. specialize (Ht6 (Hpos7 eq_refl)).
  destruct (huffman_construct_ok s5 (drop nlen ls) (drop nlen a5)) with (h := mkHuffman [] (unset 30)) as (e2 & hd & E8 & Hc8 & _ & Hz8 & Hn8 & Hp8 & Ht8).
  { intros i l Hi. rewrite lookup_drop in Hi. rewrite lookup_drop. by apply Hh5. }
  { by apply Forall_drop. }
  { rewrite Hld. change (length (h_symbol _)) with 30%nat. lia. }
  rewrite Hld in E8. rewrite (bind_run _ _ _ _ _ E8). destruct (bad_code_ok (drop nlen ls) hd e2 s5 Hc8 Hz8 Hn8 Hp8) as (bad & E9 & Hb9 & Hpos9).
  rewrite Hld in E9. rewrite (bind_run _ _ _ _ _ E9). destruct (decide (usable (drop nlen ls))) as [Hu'|Hu'].
  2: { destruct bad; [by apply sim_ret_err|tauto]. }
  assert (bad = false) as -> by tauto. specialize (Ht8 (Hpos9 eq_refl)). apply inflate_codes_ok; [done|done|lia|done].
Qed.

Lemma inflate_dynamic_ok s bs out : rel s bs out → simulates (dynamic cap out bs) (inflate_dynamic s).
Proof using src_bytes src_length.
  intros Hs. unfold inflate_dynamic, dynamic.
  apply (sim_bits 5 _ _ s bs out); [done|]. intros x s1 bs1 Hs1 _ Hx. apply (sim_bits 5 _ _ s1 bs1 out); [done|]. intros y s2 bs2 Hs2 _ Hy.
  apply (sim_bits 4 _ _ s2 bs2 out); [done|]. intros z s3 bs3 Hs3 _ Hz. cbv zeta. change MAXLCODES with 286%nat. change MAXDCODES with 30%nat.
  set (nlen := Z.to_nat (x + 257)) in *. set (ndist := Z.to_nat (y + 1)) in *. change (2 ^ Z.of_nat 4) with 16 in Hz. case_decide as Hn; [by apply sim_ret_err|].
  pose proof (cl_table_ok s3 bs3 out (Z.to_nat (z + 4)) Hs3 ltac:(lia)) as Hcl. unfold dbind at 1.
  destruct (many (Z.to_nat (z + 4)) (bits 3) bs3) as [e|[vs bs4]].
  { destruct Hcl as (-> & msg & s' & E). left. split; [done|]. exists msg, s'. unfold mbind. by rewrite E. }
  destruct Hcl as (s4 & a0 & a & E1 & Hs4 & E2 & Ha & Hh & H19 & Hsm). rewrite (bind_run _ _ _ _ _ E1), (bind_run _ _ _ _ _ E2).
  destruct (huffman_construct_ok s4 (cl_lengths vs) a Hh Hsm (mkHuffman [] (unset 286))) as (err & hc & E3 & _ & Hsl & Hz0 & _ & _ & Ht).
  { rewrite H19. apply Nat.leb_le. reflexivity. }
  rewrite H19 in E3. rewrite (bind_run _ _ _ _ _ E3). destruct (decide (complete (cl_lengths vs))) as [Hcomp|Hcomp].
  2: { rewrite decide_True by tauto. by apply sim_ret_err. }
  assert (err = 0) as -> by tauto. rewrite (decide_False (P := 0 ≠ 0)) by tauto. specialize (Ht ltac:(lia)).
  assert (nlen + ndist ≤ MAXCODES)%nat as Hmax by (change MAXCODES with 316%nat; lia).
  pose proof (lengths_loop_ok (cl_lengths vs) hc (nlen + ndist) (nlen + ndist) Ht ltac:(lia) Hmax s4 bs4 out [] a Hs4
    ltac:(done) Ha ltac:(simpl; lia) ltac:(constructor) ltac:(simpl; lia)) as Hlp. unfold dbind. cbn [length] in Hlp.
  destruct (lengths (nlen + ndist) (cl_lengths vs) (nlen + ndist) [] bs4) as [e|[ls bs5]].
  { destruct Hlp as [(-> & msg & s' & E)|(He & s' & E)].
    - left. split; [done|]. exists msg, s'. unfold mbind. by rewrite E.
    - right. split; [done|]. exists s'. by rewrite (bind_run _ _ _ _ _ E). }
  destruct Hlp as (s5 & a5 & E5 & Hs5 & Hh5 & Ha5 & Hl5 & Hsm5). rewrite (bind_run _ _ _ _ _ E5).
  destruct (lookup_lt_is_Some_2 ls 256) as [l256 H256]; [lia|]. rewrite (bind_run _ _ _ (Z.of_nat l256) s5) by (unfold rd; by rewrite (Hh5 _ _ H256)).
  destruct (decide (ls !! 256%nat = Some 0%nat)) as [H0|H0].
  { rewrite decide_True by (rewrite H256 in H0; injection H0; lia). by apply sim_ret_err. }
  rewrite (decide_False (P := Z.of_nat l256 = 0)) by (intros E; apply H0; rewrite H256; f_equal; lia).
  by apply dynamic_codes_ok.
Qed.
(** ** Blocks *)

Lemma blocks_loop_ok fuel : ∀ s bs out, rel s bs out → (length bs < fuel)%nat → simulates (blocks cap fuel out bs) (blocks_loop fuel s).
Proof using src_bytes src_length.
  induction fuel as [|fuel IH]; intros s bs out Hs Hf; [lia|]. cbn [blocks blocks_loop].
  apply (sim_bits 1 _ _ s bs out); [done|]. intros last s1 bs1 Hs1 Hl1 _. apply (sim_bits 2 _ _ s1 bs1 out); [done|]. intros type s2 bs2 Hs2 Hl2 _.
  set (spec := if decide (type = 0) then _ else _). set (prog := if decide (type = 0) then _ else _).
  assert (simulates (spec bs2) (prog s2)) as Hsim.
  { subst spec prog. repeat case_decide; [by apply inflate_stored_ok|by apply inflate_fixed_ok|by apply inflate_dynamic_ok|by apply sim_ret_err]. }
  assert (shrinks spec) as Hsh.
  { subst spec. unfold fixed. repeat case_decide; auto using shrinks_dynamic with shrinks. }
  unfold dbind. specialize (Hsh bs2). destruct (spec bs2) as [e|[out' bs3]].
  - destruct Hsim as [(-> & msg & s' & E)|(He & s' & E)].
    + left. split; [done|]. exists msg, s'. unfold mbind. by rewrite E.
    + right. split; [done|]. exists s'. rewrite (bind_run _ _ _ _ _ E). by rewrite decide_True.
  - destruct Hsim as (s3 & E & Hs3). rewrite (bind_run _ _ _ _ _ E). rewrite (decide_False (P := 0 ≠ 0)) by tauto. specialize (Hsh out' bs3 eq_refl).
    case_decide; [apply IH; [done|lia]|by exists s3].
Qed.
End refinement.

(** A destination for at most [cap] bytes. *)
Definition dest_for (cap : option nat) (dest : option array) (destlen : nat) : Prop :=
  match dest, cap with
  | None, None => True
  | Some a, Some c => destlen = c ∧ length a = c
  | _, _ => False
  end.

(** [inflate_raw] against the format. *)
Lemma inflate_raw_ok {S} cap dest destlen src n (st : S) : Forall is_byte src → (n ≤ length src)%nat → dest_for cap dest destlen →
  ∃ err s, inflate_raw dest destlen src n st = Ok (err, s) st ∧
  match inflate cap (stream (take n src)) with
  | inl e => err = e ∧ e ≠ 0
  | inr (out, rest) => err = 0 ∧ s_outcnt s = length out ∧
      (s_incnt s + length rest / 8 = n)%nat ∧
      match dest with None => s_out s = None | Some _ => ∃ a, s_out s = Some a ∧ length a = destlen ∧ take (length out) a = map Some out end
  end.
Proof.
  intros Hb Hn Hd. unfold inflate_raw, inflate. set (s0 := mkInflate dest destlen 0 src n 0 0 0).
  assert (rel src n cap s0 (stream (take n src)) []) as Hs0.
  { constructor; [by constructor; [| |simpl; lia]|simpl; lia|simpl; lia|done|]. split; [done|]. simpl. destruct dest as [a|], cap as [c|]; try done.
    destruct Hd as [-> Ha]. split_and!; [done|done|simpl; lia|done]. }
  rewrite (bits_left_ok src n cap Hn s0 _ _ Hs0). pose proof (blocks_loop_ok src n cap Hb Hn (Datatypes.S (length (stream (take n src)))) s0 _ [] Hs0 ltac:(lia)) as Hsim.
  destruct (blocks cap _ [] _) as [e|[out rest]].
  - destruct Hsim as [(-> & msg & s & E)|(He & s & E)]; rewrite E; eexists _, _; done.
  - destruct Hsim as (s & E & Hs). rewrite E. exists 0, s. split; [done|]. destruct Hs as [Hin Hc Hbuf Hbits [Hoc Ho]]. split_and!; [done|done| |].
    + rewrite <- Hbits, length_app, (length_rest src n Hn). unfold buf_bits. rewrite length_lowbits.
      assert ((Z.to_nat (s_bitcnt s) + 8 * (n - s_incnt s)) / 8 = n - s_incnt s)%nat as -> by (rewrite Nat.mul_comm, Nat.div_add, Nat.div_small by lia; lia).
      pose proof (io_incnt _ _ _ Hin). lia.
    + revert Ho. unfold dest_for in Hd. destruct dest as [a0|], cap as [c|], (s_out s) as [a|]; try done. destruct Hd as [-> _]. naive_solver.
Qed.
