(* ===== verification/Gzip.v ===== *)
(** * gzip: the utility of src/cmd/pseudo/gzip.c

    The checksum, the gzip member around deflate data, and the program on a file
    system.  [gunzip] writes to its stream once, at the end, and [gzip_compress]
    cannot fail but by writing, so both are given by the bytes they write; errors
    of writing and closing are left out.  Reading a byte behind the input, or a
    cell of the destination that is not set, is [Ub]. *)

From stdpp Require Import gmap strings.
From S2P Require Import Prelude CString StrList Args Stdio Inflate.

Local Open Scope Z_scope.

(** ** crc32 *)

Definition crc_step (c : Z) : Z :=
  if decide (Z.land c 1 ≠ 0) then Z.lxor 3988292384 (Z.shiftr c 1) else Z.shiftr c 1.
Definition crc32_init : list Z := map (λ n, Nat.iter 8 crc_step (Z.of_nat n)) (seq 0 256).
Definition crc32_table : list Z := Eval vm_compute in crc32_init.

Definition not32 (x : Z) : Z := Z.lxor x (2 ^ 32 - 1).
Fixpoint crc32_bytes (crc : Z) (buf : list Z) : option Z :=
  match buf with
  | [] => Some crc
  | b :: buf =>
      t ← crc32_table !! Z.to_nat (Z.land (Z.lxor crc b) 255);
      crc32_bytes (Z.lxor t (Z.shiftr crc 8)) buf
  end.
Definition crc32_update (crc : Z) (buf : list Z) : option Z := not32 <$> crc32_bytes (not32 crc) buf.

Definition get_le32 (p : list Z) : option Z :=
  match p with
  | b0 :: b1 :: b2 :: b3 :: _ =>
      Some (Z.lor (Z.lor (Z.lor b0 (Z.shiftl b1 8)) (Z.shiftl b2 16)) (Z.shiftl b3 24))
  | _ => None
  end.
Definition put_le32 (v : Z) : list Z :=
  [Z.land v 255; Z.land (Z.shiftr v 8) 255; Z.land (Z.shiftr v 16) 255; Z.land (Z.shiftr v 24) 255].

Definition GZ_FHCRC : Z := 2.
Definition GZ_FEXTRA : Z := 4.
Definition GZ_FNAME : Z := 8.
Definition GZ_FCOMMENT : Z := 16.

(** ** gunzip *)

(** [while (pos < inlen && in[pos] != 0) pos++], for the bytes at [pos]. *)
Fixpoint name_len (s : list Z) : nat :=
  match s with
  | [] => 0
  | b :: s => if decide (b = 0) then 0 else Datatypes.S (name_len s)
  end.

Section gunzip.
Context {S : Type}.

(** The cells of the destination that hold the output. *)
Fixpoint dest_bytes (a : array) (n : nat) {struct n} : M S (list Z) :=
  match n with
  | O => mret []
  | Datatypes.S n =>
      match a with
      | Some v :: a => vs <- dest_bytes a n ;; mret (v :: vs)
      | _ => mub
      end
  end.

(** The position behind the header. *)
Definition gz_header (input : list Z) : M S nat :=
  let inlen := length input in
  let at_ i := deref (input !! i) in
  b0 <- at_ 0%nat ;; b1 <- at_ 1%nat ;;
  if decide (b0 ≠ 31 ∨ b1 ≠ 139) then eprintf "gzip: not in gzip format"
  else
    b2 <- at_ 2%nat ;;
    if decide (b2 ≠ 8) then eprintf "gzip: unsupported compression method"
    else
      flg <- at_ 3%nat ;;
      let pos := 10%nat in
      pos <- (if decide (Z.land flg GZ_FEXTRA ≠ 0) then
                if decide (inlen < pos + 2)%nat then eprintf "gzip: truncated header"
                else
                  x0 <- at_ pos ;; x1 <- at_ (pos + 1)%nat ;;
                  mret (pos + (2 + Z.to_nat (Z.lor x0 (Z.shiftl x1 8))))%nat
              else mret pos) ;;
      let pos := if decide (Z.land flg GZ_FNAME ≠ 0) then (pos + name_len (drop pos input) + 1)%nat else pos in
      let pos := if decide (Z.land flg GZ_FCOMMENT ≠ 0) then (pos + name_len (drop pos input) + 1)%nat else pos in
      let pos := if decide (Z.land flg GZ_FHCRC ≠ 0) then (pos + 2)%nat else pos in
      if decide (inlen < pos + 8)%nat then eprintf "gzip: truncated header" else mret pos.

Definition gunzip (input : list Z) : M S (list Z) :=
  let inlen := length input in
  if decide (inlen < 18)%nat then eprintf "gzip: not in gzip format"
  else
    hdr <- gz_header input ;;
    p <- inflate_raw None 0 (drop hdr input) (inlen - hdr - 8) ;;
    let '(err, s) := p in
    if decide (err ≠ 0) then eprintf "gzip: corrupt compressed data"
    else
      let destlen := if decide (s_outcnt s = 0%nat) then 1%nat else s_outcnt s in
      p <- inflate_raw (Some (unset destlen)) destlen (drop hdr input) (inlen - hdr - 8) ;;
      let '(err, s) := p in
      if decide (err ≠ 0) then eprintf "gzip: corrupt compressed data"
      else
        let destlen := s_outcnt s in
        let srclen := s_incnt s in
        want_crc <- deref (get_le32 (drop (hdr + srclen) input)) ;;
        want_isize <- deref (get_le32 (drop (hdr + srclen + 4) input)) ;;
        dest <- deref (s_out s) ;;
        bytes <- dest_bytes dest destlen ;;
        got_crc <- deref (crc32_update 0 bytes) ;;
        if decide (got_crc ≠ want_crc) then eprintf "gzip: crc mismatch"
        else if decide (Z.of_nat destlen mod 2 ^ 32 ≠ want_isize) then eprintf "gzip: size mismatch"
        else mret bytes.
End gunzip.

(** ** gzip_compress *)

Definition stored_header (last : bool) (chunk : Z) : list Z :=
  [if last then 1 else 0; Z.land chunk 255; Z.land (Z.shiftr chunk 8) 255; Z.land (Z.lnot chunk) 255; Z.land (Z.shiftr (Z.lnot chunk) 8) 255].
Fixpoint write_chunks (fuel : nat) (input : list Z) : list Z :=
  match fuel with
  | O => []
  | S fuel =>
      match input with
      | [] => []
      | _ =>
          let len := length input in
          let chunk := if decide (Z.to_nat 65535 < len)%nat then Z.to_nat 65535 else len in
          stored_header (bool_decide (chunk = len)) (Z.of_nat chunk) ++ take chunk input ++ write_chunks fuel (drop chunk input)
      end
  end.
Definition gzip_write_stored (input : list Z) : list Z :=
  if decide (length input = 0%nat) then [1; 0; 0; 0; 0] else write_chunks (length input) input.

Definition gzip_compress (input : list Z) (name : option cstr) : option (list Z) :=
  crc ← crc32_update 0 input;
  Some ([31; 139; 8; match name with Some _ => GZ_FNAME | None => 0 end] ++ put_le32 0 ++ [0; 255] ++
        match name with Some s => bytes_of s ++ [0] | None => [] end ++
        gzip_write_stored input ++ put_le32 crc ++ put_le32 (Z.of_nat (length input) mod 2 ^ 32)).

(** The block written for an empty input lacks the complement of its length. *)
Example gunzip_empty : gunzip (S := unit) (default [] (gzip_compress [] None)) tt = Die "gzip: corrupt compressed data" tt.
Proof. vm_compute. reflexivity. Qed.
Example crc_check : crc32_update 0 (bytes_of "123456789") = Some 3421780262.
Proof. vm_compute. reflexivity. Qed.

(** ** main *)

Record gzstate := mkGz { g_files : gmap cstr (list Z); g_out : list Z; g_err : list cstr }.
#[export] Instance eta_gzstate : Eta gzstate := λ s, mkGz (g_files s) (g_out s) (g_err s).

Definition strip_gz_suffix (name : cstr) : option cstr :=
  let n := length name in
  if decide (3 < n ∧ drop (n - 3) name = lit ".gz")%nat then Some (take (n - 3) name) else None.

Record gz_options := mkGzo { o_c : bool; o_d : bool; o_f : bool; o_k : bool; o_n : bool }.
#[export] Instance eta_gz_options : Eta gz_options := λ o, mkGzo (o_c o) (o_d o) (o_f o) (o_k o) (o_n o).

Section main.
(** Whether a file can be created or removed, and standard input. *)
Context (can_create can_unlink : cstr → bool) (stdin : FILE).

Definition gz_usage {A} (argv0 : cstr) : M gzstate A :=
  eprintf (lit "usage: " ++ argv0 ++ lit " [-cdfkn] [-1..-9] [file ...]").
Definition gz_flag (argv0 : cstr) (c : ascii) (o : gz_options) : M gzstate gz_options :=
  if decide (c = "c"%char) then mret (o <| o_c := true |>)
  else if decide (c = "d"%char) then mret (o <| o_d := true |>)
  else if decide (c = "f"%char) then mret (o <| o_f := true |>)
  else if decide (c = "k"%char) then mret (o <| o_k := true |>)
  else if decide (c = "n"%char) then mret (o <| o_n := true |>)
  else if decide (c ∈ lit "123456789") then mret o
  else gz_usage argv0.

Definition read_all (fp : FILE) : M gzstate (list Z) :=
  if f_err fp then eprintf "read:" else mret (f_bytes fp).
(** [fopen(name, "wb")] *)
Definition create (name : cstr) : M gzstate unit :=
  if can_create name then modify (set g_files <[name := []]>) else eprintf (lit "open " ++ name ++ lit ":").
Definition write_file (name : cstr) (bytes : list Z) : M gzstate unit :=
  modify (set g_files (alter (λ old, old ++ bytes) name)).
Definition write_out (bytes : list Z) : M gzstate unit := modify (set g_out (λ o, o ++ bytes)).
Definition gz_warn (msg : cstr) : M gzstate unit := modify (set g_err (λ l, l ++ [msg])).
Definition unlink (name : cstr) : M gzstate unit :=
  if can_unlink name then modify (set g_files (delete name)) else gz_warn (lit "unlink " ++ name ++ lit ":").

Definition OUTNAME : nat := 4095.

Definition gz_file (o : gz_options) (name : cstr) : M gzstate unit :=
  files <- gets g_files ;;
  match files !! name with
  | None => gz_warn (lit "open " ++ name ++ lit ":")
  | Some data =>
      buf <- read_all (mkFile data false) ;;
      if o_d o then
        if o_c o then bytes <- gunzip buf ;; write_out bytes
        else
          match strip_gz_suffix name with
          | None => eprintf (lit "gzip: " ++ name ++ lit ": unknown suffix, ignored")
          | Some stripped =>
              let outname := take OUTNAME stripped in
              create outname ;;
              bytes <- gunzip buf ;;
              write_file outname bytes ;;
              mwhen (negb (o_k o)) (unlink name)
          end
      else if o_c o then bytes <- deref (gzip_compress buf None) ;; write_out bytes
      else
        let outname := take OUTNAME (take OUTNAME name ++ lit ".gz") in
        create outname ;;
        bytes <- deref (gzip_compress buf (if o_n o then None else Some name)) ;;
        write_file outname bytes ;;
        mwhen (negb (o_k o)) (unlink name)
  end.

Definition gz_main (argv0 : cstr) (args : StrList) : M gzstate Z :=
  p <- argbegin (λ _, false) (λ _ _ o, mret o) (gz_flag argv0) (gz_usage argv0) args (mkGzo false false false false false) ;;
  let '(argv, o) := p in
  match argv with
  | [] =>
      buf <- read_all stdin ;;
      (if o_d o then bytes <- gunzip buf ;; write_out bytes else bytes <- deref (gzip_compress buf None) ;; write_out bytes) ;;
      mret 0
  | _ => mforeach (gz_file o) argv ;; mret 0
  end.
End main.
