(* ===== verification/GzipFacts.v ===== *)
(** * gzip: checksum, safety and round trip

    The table-driven checksum is the bit-serial one of RFC 1952.  Whatever bytes
    it is given, [gunzip] stays inside its buffers, ends, and writes only what the
    deflate data mean, with the checksum and the length of the trailer.  What
    gzip writes, gzip -d restores, unless the file is empty. *)

From stdpp Require Import gmap strings.
From S2P Require Import Prelude CString StrList Args Stdio Deflate Inflate InflateFacts Gzip.

Local Open Scope Z_scope.

(** ** The checksum *)

(** One bit of the message, the first bit of a byte being its least significant one. *)
Definition crc_bit (c : Z) (b : bool) : Z := crc_step (Z.lxor c (Z.b2z b)).
Definition crc32_ref (bytes : list Z) : Z := not32 (fold_left crc_bit (stream bytes) (2 ^ 32 - 1)).

Lemma crc_step_eq c : crc_step c = Z.lxor (if Z.odd c then 3988292384 else 0) (Z.shiftr c 1).
Proof.
  unfold crc_step. assert (Z.land c 1 = if Z.odd c then 1 else 0) as -> by (rewrite <- Zmod_odd; apply (Z.land_ones c 1); lia).
  destruct (Z.odd c); [by rewrite decide_True|rewrite decide_False by (intros H; by apply H)]. by rewrite Z.lxor_0_l.
Qed.
Lemma odd_lxor a b : Z.odd (Z.lxor a b) = xorb (Z.odd a) (Z.odd b).
Proof. rewrite <- !Z.bit0_odd. apply Z.lxor_spec. Qed.
Lemma crc_step_lxor a b : crc_step (Z.lxor a b) = Z.lxor (crc_step a) (crc_step b).
Proof.
  rewrite !crc_step_eq, odd_lxor, Z.shiftr_lxor. apply Z.bits_inj'. intros i Hi. rewrite !Z.lxor_spec.
  destruct (Z.odd a), (Z.odd b); cbn [xorb]; rewrite ?Z.bits_0;
    destruct (Z.testbit 3988292384 i), (Z.testbit (Z.shiftr a 1) i), (Z.testbit (Z.shiftr b 1) i); done.
Qed.
Lemma crc_step_double y : crc_step (2 * y) = y.
Proof.
  rewrite crc_step_eq, Z.odd_mul. change (Z.odd 2) with false. cbn [andb]. rewrite Z.lxor_0_l, Z.shiftr_div_pow2 by lia.
  change (2 ^ 1) with 2. rewrite Z.mul_comm. by apply Z.div_mul.
Qed.
Lemma iter_lxor k a b : Nat.iter k crc_step (Z.lxor a b) = Z.lxor (Nat.iter k crc_step a) (Nat.iter k crc_step b).
Proof. induction k as [|k IH]; [done|]. by rewrite !Nat.iter_succ, IH, crc_step_lxor. Qed.
Lemma iter_shift k y : Nat.iter k crc_step (Z.shiftl y (Z.of_nat k)) = y.
Proof.
  revert y. induction k as [|k IH]; intros y; [by rewrite Z.shiftl_0_r|]. rewrite Nat.iter_succ_r.
  replace (Z.shiftl y (Z.of_nat (S k))) with (2 * Z.shiftl y (Z.of_nat k)).
  - by rewrite crc_step_double.
  - rewrite !Z.shiftl_mul_pow2, Nat2Z.inj_succ, Z.pow_succ_r by lia. lia.
Qed.

(** A run of bits at once. *)
Lemma crc_bits_iter bs c : fold_left crc_bit bs c = Nat.iter (length bs) crc_step (Z.lxor c (lsb bs)).
Proof.
  revert c. induction bs as [|b bs IH]; intros c; cbn [fold_left length lsb]; [by rewrite Z.lxor_0_r|]. rewrite IH, Nat.iter_succ_r. f_equal.
  unfold crc_bit. rewrite <- (crc_step_double (lsb bs)) at 1. rewrite <- crc_step_lxor, Z.lxor_assoc. do 2 f_equal.
  rewrite Z.lxor_comm. rewrite <- Z.add_nocarry_lxor; [lia|].
  apply Z.bits_inj'. intros i Hi. rewrite Z.land_spec, Z.bits_0. destruct (decide (i = 0)) as [->|].
  - by rewrite Z.testbit_even_0.
  - replace (Z.testbit (Z.b2z b) i) with false; [by rewrite andb_comm|]. destruct b; [|by rewrite Z.bits_0]. symmetry. apply Z.bits_above_log2; cbn; lia.
Qed.

Lemma split_byte x : x = Z.lxor (Z.land x 255) (Z.shiftl (Z.shiftr x 8) 8).
Proof.
  apply Z.bits_inj'. intros i Hi. rewrite Z.lxor_spec, Z.land_spec. change 255 with (Z.ones 8). destruct (Z.lt_ge_cases i 8).
  - rewrite Z.ones_spec_low, Z.shiftl_spec_low by lia. by destruct (Z.testbit x i).
  - rewrite Z.ones_spec_high, Z.shiftl_spec_high, Z.shiftr_spec by lia. replace (i - 8 + 8) with i by lia. by destruct (Z.testbit x i).
Qed.
Lemma table_at i : 0 ≤ i < 256 → crc32_table !! Z.to_nat i = Some (Nat.iter 8 crc_step i).
Proof.
  intros Hi. assert (crc32_table = crc32_init) as -> by (vm_compute; reflexivity). unfold crc32_init.
  rewrite list_lookup_fmap, lookup_seq_lt by lia. cbn [fmap option_fmap option_map]. by rewrite Nat.add_0_l, Z2Nat.id by lia.
Qed.
Lemma crc32_bytes_ok buf c : Forall is_byte buf → crc32_bytes c buf = Some (fold_left crc_bit (stream buf) c).
Proof.
  intros H. revert c. induction H as [|b buf Hb _ IH]; intros c; [done|]. cbn [crc32_bytes]. unfold stream. cbn [map concat]. fold (stream buf).
  rewrite fold_left_app, (crc_bits_iter (byte_bits b)), byte_bits_lowbits, length_lowbits, (lsb_byte b Hb).
  assert (0 ≤ Z.land (Z.lxor c b) 255 < 256) as Hi by (change 255 with (Z.ones 8); rewrite Z.land_ones by lia; change (2 ^ 8) with 256; apply Z.mod_pos_bound; lia).
  rewrite (table_at _ Hi). cbn [option_bind base.mbind]. rewrite IH. do 2 f_equal. rewrite (split_byte (Z.lxor c b)) at 2. rewrite iter_lxor, (iter_shift 8).
  f_equal. rewrite Z.shiftr_lxor. unfold is_byte in Hb. rewrite (Z.shiftr_div_pow2 b) by lia. change (2 ^ 8) with 256. by rewrite (Z.div_small b), Z.lxor_0_r by lia.
Qed.
Lemma crc32_update_ok buf : Forall is_byte buf → crc32_update 0 buf = Some (crc32_ref buf).
Proof. intros H. unfold crc32_update, crc32_ref. by rewrite (crc32_bytes_ok buf _ H). Qed.

(** ** gunzip *)

Section gunzip.
Context {S : Type} (st : S).

Lemma at_ok (input : list Z) i : (i < length input)%nat → ∃ b, @deref S Z (input !! i) st = Ok b st.
Proof. intros H. destruct (lookup_lt_is_Some_2 input i H) as [b E]. exists b. by rewrite E. Qed.

Lemma gz_header_ok input : (18 ≤ length input)%nat →
  match gz_header input st with
  | Ok hdr st' => st' = st ∧ (hdr + 8 ≤ length input)%nat
  | Die _ st' => st' = st
  | Ub | Fuel => False
  end.
Proof.
  intros Hl. unfold gz_header. cbv zeta. destruct (at_ok input 0 ltac:(lia)) as [b0 E0], (at_ok input 1 ltac:(lia)) as [b1 E1].
  rewrite (bind_run _ _ _ _ _ E0), (bind_run _ _ _ _ _ E1). case_decide; [done|].
  destruct (at_ok input 2 ltac:(lia)) as [b2 E2], (at_ok input 3 ltac:(lia)) as [flg E3]. rewrite (bind_run _ _ _ _ _ E2). case_decide; [done|].
  rewrite (bind_run _ _ _ _ _ E3). set (extra := if decide (Z.land flg GZ_FEXTRA ≠ 0) then _ else _).
  assert (∃ pos, extra st = Ok pos st) as [pos Ep].
  { subst extra. case_decide; [|by eexists]. rewrite decide_False by lia.
    destruct (at_ok input 10 ltac:(lia)) as [x0 F0], (at_ok input (10 + 1) ltac:(lia)) as [x1 F1]. rewrite (bind_run _ _ _ _ _ F0), (bind_run _ _ _ _ _ F1). by eexists. }
  rewrite (bind_run _ _ _ _ _ Ep). clear extra Ep. match goal with |- context [decide (length input < ?p + 8)%nat] => generalize p end.
  intros p. case_decide; [done|]. split; [done|]. lia.
Qed.

Lemma dest_bytes_ok a out : take (length out) a = map Some out → dest_bytes a (length out) st = Ok out st.
Proof.
  revert a. induction out as [|v out IH]; intros a E; [done|]. destruct a as [|c a]; [done|]. cbn [length take map dest_bytes] in *. injection E as -> E.
  by rewrite (bind_run _ _ _ _ _ (IH a E)).
Qed.

Lemma get_le32_ok (l : list Z) : (4 ≤ length l)%nat → ∃ v, get_le32 l = Some v.
Proof. destruct l as [|? [|? [|? [|? l]]]]; simpl; try lia. by eexists. Qed.

(** The two passes of [gunzip] agree. *)
Lemma two_passes src n out rest : Forall is_byte src → (n ≤ length src)%nat → inflate None (stream (take n src)) = inr (out, rest) →
  let destlen := if decide (length out = 0%nat) then 1%nat else length out in
  ∃ s a, inflate_raw (Some (unset destlen)) destlen src n st = Ok (0, s) st ∧ s_outcnt s = length out ∧
  (s_incnt s + length rest / 8 = n)%nat ∧ s_out s = Some a ∧ take (length out) a = map Some out.
Proof.
  intros Hb Hn E destlen. destruct (inflate_raw_ok (Some destlen) (Some (unset destlen)) destlen src n st Hb Hn) as (err & s & Er & H).
  { split; [done|]. unfold unset. by rewrite length_replicate. }
  rewrite (inflate_capped (Some destlen) _ _ _ E) in H by (unfold fits, destlen; case_decide; lia).
  destruct H as (-> & Hoc & Hic & a & Ea & _ & Ht). by exists s, a.
Qed.

(** What a successful run tells about the member. *)
Definition member_of (input out : list Z) : Prop := ∃ hdr rest,
  gz_header input st = Ok hdr st ∧ (hdr + 8 ≤ length input)%nat ∧
  inflate None (stream (take (length input - hdr - 8) (drop hdr input))) = inr (out, rest) ∧
  let trailer := drop (length input - 8 - length rest / 8) input in
  get_le32 trailer = Some (crc32_ref out) ∧ get_le32 (drop 4 trailer) = Some (Z.of_nat (length out) mod 2 ^ 32).

(** The outcome when the data can be decoded. *)
Lemma gunzip_run input hdr out rest c z : Forall is_byte input → (18 ≤ length input)%nat → gz_header input st = Ok hdr st → (hdr + 8 ≤ length input)%nat →
  inflate None (stream (take (length input - hdr - 8) (drop hdr input))) = inr (out, rest) →
  let trailer := drop (length input - 8 - length rest / 8) input in
  get_le32 trailer = Some c → get_le32 (drop 4 trailer) = Some z →
  (length rest / 8 + hdr + 8 ≤ length input)%nat ∧
  gunzip input st = if decide (crc32_ref out ≠ c) then Die "gzip: crc mismatch" st
                    else if decide (Z.of_nat (length out) mod 2 ^ 32 ≠ z) then Die "gzip: size mismatch" st else Ok out st.
Proof.
  intros Hb H18 Eh Hh Ei trailer Ec Ez. unfold gunzip. cbv zeta. rewrite decide_False by lia. rewrite (bind_run _ _ _ _ _ Eh).
  set (src := drop hdr input) in *. set (n := (length input - hdr - 8)%nat) in *.
  assert (Forall is_byte src) as Hbs by (by apply Forall_drop). assert (n ≤ length src)%nat as Hn by (unfold src, n; rewrite length_drop; lia).
  destruct (inflate_raw_ok None None 0 src n st Hbs Hn I) as (err & s & E1 & H1). rewrite Ei in H1. destruct H1 as (-> & Hoc & _).
  rewrite (bind_run _ _ _ _ _ E1). rewrite (decide_False (P := 0 ≠ 0)) by tauto. rewrite Hoc.
  destruct (two_passes src n out rest Hbs Hn Ei) as (s2 & a & E2 & Hoc2 & Hic2 & Ea & Ht). rewrite (bind_run _ _ _ _ _ E2).
  rewrite (decide_False (P := 0 ≠ 0)) by tauto. split; [unfold n in Hic2; lia|].
  subst trailer. replace (length input - 8 - length rest / 8)%nat with (hdr + s_incnt s2)%nat in Ec, Ez by (unfold n in Hic2; lia).
  rewrite drop_drop in Ez. rewrite Ec, Ez, Ea, Hoc2. rewrite (bind_run _ _ _ c st), (bind_run _ _ _ z st), (bind_run _ _ _ a st) by done.
  rewrite (bind_run _ _ _ _ _ (dest_bytes_ok a out Ht)). pose proof (inflate_bytes _ _ _ _ Ei) as Hob.
  rewrite (bind_run _ _ _ (crc32_ref out) st) by (by rewrite crc32_update_ok).
  destruct (decide (crc32_ref out ≠ c)); [done|]. by destruct (decide (Z.of_nat (length out) mod 2 ^ 32 ≠ z)).
Qed.

Lemma gunzip_corrupt input hdr e : Forall is_byte input → (18 ≤ length input)%nat → gz_header input st = Ok hdr st → (hdr + 8 ≤ length input)%nat →
  inflate None (stream (take (length input - hdr - 8) (drop hdr input))) = inl e → gunzip input st = Die "gzip: corrupt compressed data" st.
Proof.
  intros Hb H18 Eh Hh Ei. unfold gunzip. cbv zeta. rewrite decide_False by lia. rewrite (bind_run _ _ _ _ _ Eh).
  destruct (inflate_raw_ok None None 0 (drop hdr input) (length input - hdr - 8) st) as (err & s & E1 & H1); [by apply Forall_drop|rewrite length_drop; lia|done|].
  rewrite Ei in H1. destruct H1 as [-> He]. rewrite (bind_run _ _ _ _ _ E1). by rewrite decide_True.
Qed.

Lemma gunzip_ok input : Forall is_byte input →
  match gunzip input st with
  | Ok out st' => st' = st ∧ member_of input out
  | Die _ st' => st' = st
  | Ub | Fuel => False
  end.
Proof.
  intros Hb. destruct (decide (length input < 18)%nat) as [Hl|Hl]; [unfold gunzip; by rewrite decide_True|].
  pose proof (gz_header_ok input ltac:(lia)) as Hh. destruct (gz_header input st) as [hdr st1|msg st1| |] eqn:Eh; [| |done..].
  2: { subst st1. unfold gunzip, mbind. rewrite decide_False by lia. by rewrite Eh. }
  destruct Hh as [-> Hh]. destruct (inflate None (stream (take (length input - hdr - 8) (drop hdr input)))) as [e|[out rest]] eqn:Ei.
  { by rewrite (gunzip_corrupt input hdr e Hb ltac:(lia) Eh Hh Ei). }
  destruct (two_passes (drop hdr input) (length input - hdr - 8) out rest) as (s2 & _ & _ & _ & Hic & _); [by apply Forall_drop|rewrite length_drop; lia|done|].
  destruct (get_le32_ok (drop (length input - 8 - length rest / 8) input)) as [c Ec]; [rewrite length_drop; lia|].
  destruct (get_le32_ok (drop 4 (drop (length input - 8 - length rest / 8) input))) as [z Ez]; [rewrite !length_drop; lia|].
  destruct (gunzip_run input hdr out rest c z Hb ltac:(lia) Eh Hh Ei Ec Ez) as [_ ->].
  destruct (decide (crc32_ref out ≠ c)) as [Hcrc|Hcrc]; [done|]. destruct (decide (Z.of_nat (length out) mod 2 ^ 32 ≠ z)) as [Hsz|Hsz]; [done|].
  apply dec_stable in Hcrc, Hsz. split; [done|]. exists hdr, rest. split_and!; [done|done|done|]. cbv zeta. by rewrite Ec, Ez, Hcrc, Hsz.
Qed.
End gunzip.

(** ** Stored blocks *)

Lemma bits_prefix k pre bs : length pre = k → bits k (pre ++ bs) = inr (lsb pre, bs).
Proof.
  intros <-. unfold bits. rewrite decide_False by (rewrite length_app; lia). by rewrite take_app_length, drop_app_length.
Qed.
Lemma stream_cons b bytes : stream (b :: bytes) = lowbits 8 b ++ stream bytes.
Proof. done. Qed.

Lemma header_length k : 0 ≤ k < 65536 →
  Z.land k 255 + 256 * Z.land (Z.shiftr k 8) 255 = k ∧
  Z.land (Z.lnot k) 255 + 256 * Z.land (Z.shiftr (Z.lnot k) 8) 255 = 65535 - k.
Proof.
  intros Hk. change 255 with (Z.ones 8). rewrite !Z.land_ones, !Z.shiftr_div_pow2 by lia. change (2 ^ 8) with 256.
  pose proof (Z.div_mod k 256 ltac:(lia)). pose proof (Z.mod_pos_bound k 256 ltac:(lia)).
  assert (0 ≤ k / 256 < 256) by (split; [apply Z.div_pos; lia|apply Z.div_lt_upper_bound; lia]). rewrite (Z.mod_small (k / 256)) by lia.
  split; [lia|]. unfold Z.lnot.
  assert (Z.pred (- k) mod 256 = 255 - k mod 256) as -> by (symmetry; apply (Z.mod_unique _ _ (- (k / 256) - 1)); lia).
  assert (Z.pred (- k) / 256 = - (k / 256) - 1) as -> by (symmetry; apply (Z.div_unique _ _ _ (255 - k mod 256)); lia).
  assert ((- (k / 256) - 1) mod 256 = 255 - k / 256) as -> by (symmetry; apply (Z.mod_unique _ _ (-1)); lia). lia.
Qed.
Lemma land_255 x : is_byte (Z.land x 255).
Proof. unfold is_byte. change 255 with (Z.ones 8). rewrite Z.land_ones by lia. apply (Z.mod_pos_bound x 256). lia. Qed.

(** A block is copied to the output. *)
Lemma stored_block fuel out (last : bool) chunk rest : Z.of_nat (length chunk) < 65536 → Forall is_byte chunk → Forall is_byte rest →
  blocks None (S fuel) out (stream (stored_header last (Z.of_nat (length chunk)) ++ chunk ++ rest)) =
  if last then inr (out ++ chunk, stream rest) else blocks None fuel (out ++ chunk) (stream rest).
Proof.
  intros Hk Hc Hr. unfold stored_header. cbn [app]. set (k := Z.of_nat (length chunk)) in *. destruct (header_length k ltac:(lia)) as [Hlen Hnlen].
  set (c0 := Z.land k 255) in *. set (c1 := Z.land (Z.shiftr k 8) 255) in *. set (n0 := Z.land (Z.lnot k) 255) in *. set (n1 := Z.land (Z.shiftr (Z.lnot k) 8) 255) in *.
  assert (is_byte c0 ∧ is_byte c1 ∧ is_byte n0 ∧ is_byte n1) as (B0 & B1 & B2 & B3) by (split_and!; apply land_255). clearbody c0 c1 n0 n1.
  set (t := c0 :: c1 :: n0 :: n1 :: chunk ++ rest).
  assert (stream ((if last then 1 else 0) :: t) = [last] ++ [false; false] ++ replicate 5 false ++ stream t) as -> by (by destruct last).
  cbn [blocks]. unfold dbind. rewrite bits_prefix by done. rewrite bits_prefix by done. change (lsb [false; false]) with 0. rewrite (decide_True (P := 0 = 0)) by done.
  unfold stored. cbv zeta. assert (Nat.modulo (length (replicate 5 false ++ stream t)) 8 = 5%nat) as ->.
  { rewrite length_app, length_replicate, length_stream, Nat.mul_comm. rewrite Nat.Div0.mod_add. done. }
  rewrite drop_app_length' by done. subst t. unfold dbind. rewrite !stream_cons.
  rewrite (app_assoc (lowbits 8 c0)), bits_prefix by done. rewrite (app_assoc (lowbits 8 n0)), bits_prefix by done.
  rewrite !lsb_app, !lsb_byte, !length_lowbits by done. change (2 ^ Z.of_nat 8) with 256. rewrite Hlen, Hnlen.
  rewrite (decide_False (P := k + (65535 - k) ≠ 2 ^ 16 - 1)) by (change (2 ^ 16) with 65536; lia).
  assert (Z.to_nat k = length chunk) as -> by lia. rewrite (decide_False (P := (length (stream _) < _)%nat)) by (rewrite length_stream, length_app; lia).
  rewrite decide_True by done. rewrite drop_stream, drop_app_length.
  rewrite take_bytes_stream by first [by apply Forall_app | rewrite length_app; lia]. rewrite take_app_length. by destruct last.
Qed.

Lemma write_chunks_bytes f l : Forall is_byte l → Forall is_byte (write_chunks f l).
Proof.
  revert l. induction f as [|f IH]; intros l Hl; cbn [write_chunks]; [constructor|]. destruct l as [|x l]; [constructor|]. cbv zeta.
  repeat (apply Forall_app; split); [|by apply Forall_take|by apply IH, Forall_drop]. unfold stored_header.
  repeat (apply Forall_cons; split); try apply land_255; [|constructor]. case_bool_decide; unfold is_byte; lia.
Qed.
Lemma stored_bytes_ok input : Forall is_byte input → Forall is_byte (gzip_write_stored input).
Proof.
  intros H. unfold gzip_write_stored. case_decide; [|by apply write_chunks_bytes].
  repeat (apply Forall_cons; split); try (unfold is_byte; lia). constructor.
Qed.
Lemma write_chunks_ok fuel fuel' out input : Forall is_byte input → input ≠ [] → (length input ≤ fuel)%nat → (length input ≤ fuel')%nat →
  blocks None fuel' out (stream (write_chunks fuel input)) = inr (out ++ input, []).
Proof.
  revert fuel' out input. induction fuel as [|fuel IH]; intros fuel' out input Hb Hne Hf Hf'; [by destruct input; simpl in Hf; [|lia]|].
  destruct fuel' as [|fuel']; [by destruct input; simpl in Hf'; [|lia]|]. cbn [write_chunks]. destruct input as [|b input']; [done|]. set (input := b :: input') in *.
  cbv zeta. set (chunk := if decide (Z.to_nat 65535 < length input)%nat then _ else _).
  assert (0 < length input)%nat as Hpos by (subst input; simpl; lia).
  assert (0 < chunk ≤ length input)%nat as Hch by (subst chunk; case_decide; lia). assert (Z.of_nat chunk < 65536) as Hk by (subst chunk; case_decide; lia).
  assert (length (take chunk input) = chunk) as Hl by (rewrite length_take; lia).
  pose proof (stored_block fuel' out (bool_decide (chunk = length input)) (take chunk input) (write_chunks fuel (drop chunk input))) as Hsb.
  rewrite Hl in Hsb. rewrite Hsb; [|done|by apply Forall_take|by apply write_chunks_bytes, Forall_drop]. case_bool_decide as Hlast.
  - rewrite take_ge, drop_ge by lia. by destruct fuel.
  - rewrite IH; [by rewrite <- app_assoc, take_drop|by apply Forall_drop| |rewrite length_drop; lia|rewrite length_drop; lia].
    intros E. apply (f_equal length) in E. rewrite length_drop in E. change (length (@nil Z)) with 0%nat in E. lia.
Qed.
Lemma inflate_stored_data input : Forall is_byte input → input ≠ [] → inflate None (stream (gzip_write_stored input)) = inr (input, []).
Proof.
  intros Hb Hne. unfold inflate, gzip_write_stored. rewrite decide_False by (by destruct input).
  apply (write_chunks_ok (length input) _ [] input); [done|done|lia|]. rewrite length_stream.
  assert (∀ f l, (length l ≤ f → length l ≤ length (write_chunks f l))%nat) as H; [|specialize (H (length input) input ltac:(lia)); lia].
  clear. induction f as [|f IH]; intros l Hl; cbn [write_chunks]; [lia|]. destruct l as [|x l]; [done|]. cbv zeta. set (l' := x :: l) in *.
  set (chunk := if decide _ then _ else _). rewrite !length_app, length_take. assert (0 < chunk)%nat by (subst chunk l'; case_decide; simpl; lia).
  specialize (IH (drop chunk l')). rewrite length_drop in IH. lia.
Qed.

(** ** The trailer *)

Lemma byte_at v k i : 0 ≤ k → 0 ≤ i →
  Z.testbit (Z.shiftl (Z.land (Z.shiftr v k) 255) k) i = Z.testbit v i && bool_decide (k ≤ i < k + 8).
Proof.
  intros Hk Hi. destruct (Z.lt_ge_cases i k).
  - rewrite Z.shiftl_spec_low by lia. rewrite bool_decide_eq_false_2 by lia. by rewrite andb_false_r.
  - rewrite Z.shiftl_spec_high, Z.land_spec, Z.shiftr_spec by lia. replace (i - k + k) with i by lia. f_equal. change 255 with (Z.ones 8).
    destruct (Z.lt_ge_cases i (k + 8)); [rewrite Z.ones_spec_low, bool_decide_eq_true_2 by lia; done|rewrite Z.ones_spec_high, bool_decide_eq_false_2 by lia; done].
Qed.
Lemma get_put v t : 0 ≤ v < 2 ^ 32 → get_le32 (put_le32 v ++ t) = Some v.
Proof.
  intros Hv. unfold put_le32. cbn [app get_le32]. f_equal. apply Z.bits_inj'. intros i Hi. rewrite !Z.lor_spec, !byte_at by lia.
  pose proof (byte_at v 0 i ltac:(lia) Hi) as H0. rewrite Z.shiftl_0_r, Z.shiftr_0_r in H0. rewrite H0.
  destruct (Z.lt_ge_cases i 32).
  - destruct (Z.testbit v i); [|done]. cbn [andb]. rewrite !orb_true_iff, !bool_decide_eq_true. lia.
  - rewrite <- (Z.mod_small v (2 ^ 32) Hv), Z.mod_pow2_bits_high by lia. done.
Qed.
Lemma crc32_bit_range c b : 0 ≤ c < 2 ^ 32 → 0 ≤ crc_bit c b < 2 ^ 32.
Proof.
  intros Hc. unfold crc_bit. assert (0 ≤ Z.lxor c (Z.b2z b) < 2 ^ 32) as H by (apply lxor_range; [lia|done|destruct b; cbn; lia]).
  revert H. generalize (Z.lxor c (Z.b2z b)). intros x Hx. rewrite crc_step_eq. apply lxor_range; [lia|destruct (Z.odd x); lia|].
  rewrite Z.shiftr_div_pow2 by lia. split; [apply Z.div_pos; lia|apply Z.div_lt_upper_bound; lia].
Qed.
Lemma crc32_ref_range bytes : 0 ≤ crc32_ref bytes < 2 ^ 32.
Proof.
  unfold crc32_ref, not32. apply lxor_range; [lia| |lia]. generalize (stream bytes). intros bs.
  assert (∀ c, 0 ≤ c < 2 ^ 32 → 0 ≤ fold_left crc_bit bs c < 2 ^ 32) as H; [|apply H; lia].
  induction bs as [|b bs IH]; intros c Hc; cbn [fold_left]; [done|]. by apply IH, crc32_bit_range.
Qed.

(** ** Round trip *)

Lemma name_len_ok name t : no_nul name → name_len (bytes_of name ++ 0 :: t) = length name.
Proof.
  unfold no_nul, bytes_of. induction name as [|c name IH]; intros H; [done|]. cbn [map app name_len length]. rewrite decide_False.
  - f_equal. apply IH. set_solver.
  - intros E. apply H. assert (c = NUL) as ->; [|set_solver]. apply byte_of_inj. by rewrite E.
Qed.

(** The member that [gzip_compress] writes. *)
Definition member (input : list Z) (name : option cstr) : list Z :=
  [31; 139; 8; match name with Some _ => GZ_FNAME | None => 0 end; 0; 0; 0; 0; 0; 255] ++
  match name with Some s => bytes_of s ++ [0] | None => [] end ++
  gzip_write_stored input ++ put_le32 (crc32_ref input) ++ put_le32 (Z.of_nat (length input) mod 2 ^ 32).
Lemma gzip_compress_ok input name : Forall is_byte input → gzip_compress input name = Some (member input name).
Proof. intros H. unfold gzip_compress. rewrite crc32_update_ok by done. reflexivity. Qed.

Definition header_len (name : option cstr) : nat := match name with Some s => 10 + length s + 1 | None => 10 end.

Section roundtrip.
Context {S : Type} (st : S).
Lemma member_header input name : from_option no_nul True name → (18 ≤ length (member input name))%nat →
  (header_len name + 8 ≤ length (member input name))%nat →
  gz_header (member input name) st = Ok (header_len name) st.
Proof.
  intros Hn H18 Hl. unfold gz_header. cbv zeta. unfold member at 1 2 3 4. cbn [app lookup list_lookup deref].
  rewrite !(bind_run (mret _) _ st _ st eq_refl). rewrite decide_False by (intros [E|E]; by apply E). rewrite (bind_run (mret 8) _ st _ st eq_refl), decide_False by (intros E; by apply E).
  destruct name as [name|]; rewrite (bind_run (mret _) _ st _ st eq_refl).
  - rewrite (decide_False (P := Z.land GZ_FNAME GZ_FEXTRA ≠ 0)) by (intros E; by apply E). rewrite (bind_run (mret _) _ st _ st eq_refl).
    rewrite (decide_True (P := Z.land GZ_FNAME GZ_FNAME ≠ 0)) by done. rewrite (decide_False (P := Z.land GZ_FNAME GZ_FCOMMENT ≠ 0)) by (intros E; by apply E).
    rewrite (decide_False (P := Z.land GZ_FNAME GZ_FHCRC ≠ 0)) by (intros E; by apply E).
    assert (name_len (drop 10 (member input (Some name))) = length name) as ->.
    { unfold member. cbn [app drop]. rewrite <- app_assoc. cbn [app]. by apply name_len_ok. }
    rewrite decide_False by (cbn [header_len] in Hl; lia). done.
  - assert (∀ f, ¬ Z.land 0 f ≠ 0) as H0 by (intros f E; apply E, Z.land_0_l).
    rewrite (decide_False (P := Z.land 0 GZ_FEXTRA ≠ 0)) by apply H0. rewrite (bind_run (mret _) _ st _ st eq_refl).
    rewrite (decide_False (P := Z.land 0 GZ_FNAME ≠ 0)), (decide_False (P := Z.land 0 GZ_FCOMMENT ≠ 0)), (decide_False (P := Z.land 0 GZ_FHCRC ≠ 0)) by apply H0.
    rewrite decide_False by (cbn [header_len] in Hl; lia). done.
Qed.

Lemma stored_length input : (5 ≤ length (gzip_write_stored input))%nat.
Proof.
  unfold gzip_write_stored. case_decide; [simpl; lia|]. destruct input as [|b input]; [done|]. cbn [length write_chunks]. rewrite length_app. simpl. lia.
Qed.
Lemma member_bytes input name : Forall is_byte input → Forall is_byte (gzip_write_stored input) → Forall is_byte (member input name).
Proof.
  intros Hb Hw. unfold member. apply Forall_app. split.
  - repeat (apply Forall_cons; split); try (unfold is_byte; lia); [|constructor]. destruct name; unfold is_byte, GZ_FNAME; lia.
  - apply Forall_app. split; [|apply Forall_app; split; [done|]].
    + destruct name as [name|]; [|constructor]. apply Forall_app. split; [|apply Forall_singleton; unfold is_byte; lia].
      unfold bytes_of. apply Forall_forall. intros x Hx. apply list_elem_of_fmap in Hx as (c & -> & _). apply byte_of_range.
    + apply Forall_app. split; repeat (apply Forall_cons; split); try apply land_255; constructor.
Qed.

(** The parts of a member. *)
Lemma member_parts input name : Forall is_byte input → from_option no_nul True name →
  let trailer := put_le32 (crc32_ref input) ++ put_le32 (Z.of_nat (length input) mod 2 ^ 32) in
  Forall is_byte (member input name) ∧ (18 ≤ length (member input name))%nat ∧ gz_header (member input name) st = Ok (header_len name) st ∧
  length (member input name) = (header_len name + length (gzip_write_stored input) + 8)%nat ∧
  ∃ h, length h = header_len name ∧ member input name = h ++ gzip_write_stored input ++ trailer.
Proof.
  intros Hb Hn trailer. set (w := gzip_write_stored input).
  assert (∃ h, length h = header_len name ∧ member input name = h ++ w ++ trailer) as (h & Hh & E).
  { destruct name as [name|]; unfold member.
    - eexists. split; [|by rewrite app_assoc]. rewrite !length_app. unfold bytes_of. rewrite length_map. simpl. lia.
    - exists [31; 139; 8; 0; 0; 0; 0; 0; 0; 255]. done. }
  assert (length (member input name) = header_len name + length w + 8)%nat as Hl by (rewrite E, !length_app, Hh; simpl; lia).
  pose proof (stored_length input) as Hw5. fold w in Hw5. assert (10 ≤ header_len name)%nat by (destruct name; simpl; lia).
  split_and!; [|lia|apply member_header; [done|lia|lia]|lia|by exists h]. apply member_bytes; [done|by apply stored_bytes_ok].
Qed.

Lemma gunzip_member input name : Forall is_byte input → input ≠ [] → from_option no_nul True name →
  gunzip (member input name) st = Ok input st.
Proof.
  intros Hb Hne Hn. destruct (member_parts input name Hb Hn) as (Hmb & H18 & Hhd & Hl & h & Hh & E). set (w := gzip_write_stored input) in *.
  set (t1 := put_le32 (crc32_ref input)) in *. set (t2 := put_le32 (Z.of_nat (length input) mod 2 ^ 32)) in *.
  assert (drop (header_len name) (member input name) = w ++ t1 ++ t2) as Hd by (by rewrite E, drop_app_length').
  destruct (gunzip_run st (member input name) (header_len name) input [] (crc32_ref input) (Z.of_nat (length input) mod 2 ^ 32) Hmb) as [_ ->].
  - done.
  - done.
  - lia.
  - rewrite Hd, take_app_length' by lia. by apply inflate_stored_data.
  - rewrite Hl. change (length (@nil bool) / 8)%nat with 0%nat. replace (header_len name + length w + 8 - 8 - 0)%nat with (length (h ++ w)) by (rewrite length_app; lia).
    rewrite E, app_assoc, drop_app_length. apply get_put, crc32_ref_range.
  - rewrite Hl. change (length (@nil bool) / 8)%nat with 0%nat. replace (header_len name + length w + 8 - 8 - 0)%nat with (length (h ++ w)) by (rewrite length_app; lia).
    rewrite E, app_assoc, drop_app_length. rewrite drop_app_length' by done. rewrite <- (app_nil_r t2). apply get_put, Z.mod_pos_bound. lia.
  - rewrite (decide_False (P := crc32_ref input ≠ _)) by tauto. rewrite decide_False by tauto. done.
Qed.
(** An empty input gives a block that is not valid. *)
Lemma gunzip_empty_member name : from_option no_nul True name → gunzip (member [] name) st = Die "gzip: corrupt compressed data" st.
Proof.
  intros Hn. destruct (member_parts [] name (Forall_nil_2 _) Hn) as (Hmb & H18 & Hhd & Hl & h & Hh & E).
  apply (gunzip_corrupt st (member [] name) (header_len name) (-2)); [done|done|done|lia|].
  rewrite Hl, E, drop_app_length' by done. rewrite take_app_length' by lia. vm_compute. reflexivity.
Qed.
End roundtrip.

(** ** Properties *)

(** C2: [inflate_raw] refines the deflate format of RFC 1951.  For every
    source, and with a destination or with none, it returns, has stayed inside all
    arrays and read only cells that were set, and agrees with the format on the
    bits of the source: the same error, or output of the same length, in the
    destination byte for byte, and the same number of bytes consumed. *)
Theorem inflate_refines cap dest destlen src n : Forall is_byte src → (n ≤ length src)%nat → dest_for cap dest destlen →
  ∃ err s, inflate_raw dest destlen src n tt = Ok (err, s) tt ∧
  match inflate cap (stream (take n src)) with
  | inl e => err = e ∧ e ≠ 0
  | inr (out, rest) => err = 0 ∧ s_outcnt s = length out ∧ (s_incnt s + length rest / 8 = n)%nat ∧
      match dest with None => s_out s = None | Some _ => ∃ a, s_out s = Some a ∧ length a = destlen ∧ take (length out) a = map Some out end
  end.
Proof. apply inflate_raw_ok. Qed.

Lemma inflate_refines_witness : ∃ err s,
  inflate_raw (Some (unset 3)) 3 [1; 3; 0; 252; 255; 97; 98; 99; 9] 8 tt = Ok (err, s) tt ∧ err = 0 ∧ s_outcnt s = 3%nat.
Proof.
  destruct (inflate_refines (Some 3%nat) (Some (unset 3)) 3 [1; 3; 0; 252; 255; 97; 98; 99; 9] 8) as (err & s & E & H).
  - repeat (apply Forall_cons; split); try (unfold is_byte; lia). constructor.
  - simpl. lia.
  - done.
  - exists err, s. split; [exact E|]. revert H. vm_compute (inflate _ _). intros (-> & H & _). split; [reflexivity|exact H].
Defined.

(** Huffman decoding is right.  For any code lengths that
    [huffman_construct] accepts, [inflate_decode] with its tables turns the
    canonical codeword of every symbol, whatever bits follow, into that symbol
    and leaves the bits that follow. *)
Theorem huffman_decodes ls h err h' sym len src n cap s rest out : Forall (λ l, l ≤ 15)%nat ls → (length ls ≤ length (h_symbol h))%nat →
  huffman_construct h (map (λ l, Some (Z.of_nat l)) ls) (length ls) tt = Ok (err, h') tt → 0 ≤ err →
  ls !! sym = Some len → len ≠ 0%nat →
  Forall is_byte src → (n ≤ length src)%nat → rel src n cap s (codeword ls sym len ++ rest) out →
  ∃ s', inflate_decode h' s = Ok (Z.of_nat sym) s' ∧ rel src n cap s' rest out.
Proof.
  intros Hls Hh Ec Herr Hsym Hne Hb Hl Hs.
  destruct (huffman_construct_ok tt ls (map (λ l, Some (Z.of_nat l)) ls)) with (h := h) as (e & h2 & E & _ & _ & Hz & _ & Hpos & Ht); [|done|done|].
  { intros i l Hi. by rewrite list_lookup_fmap, Hi. }
  rewrite Ec in E. injection E as <- <-. specialize (Ht Herr).
  pose proof (inflate_decode_ok src n cap Hb Hl ls h' Ht s _ _ Hs) as H. rewrite decode_canonical in H; [exact H|done| |done|done].
  destruct (decide (err = 0)) as [E0|]; [|specialize (Hpos ltac:(lia)); lia]. apply Hz in E0 as [Hno|]; [|lia].
  unfold no_code in Hno. rewrite Forall_lookup in Hno. by apply Hno in Hsym.
Qed.

(** The second of the symbols with codewords 0, 10 and 11. *)
Lemma huffman_decodes_witness : ∃ h s',
  huffman_construct (mkHuffman [] (unset 3)) [Some 1; Some 2; Some 2] 3 tt = Ok (0, h) tt ∧
  inflate_decode h (mkInflate None 0 0 [5] 1 0 0 0) = Ok 1 s'.
Proof.
  eexists. destruct (huffman_decodes [1; 2; 2]%nat (mkHuffman [] (unset 3)) 0 (mkHuffman [0; 1; 2; 0; 0; 0; 0; 0; 0; 0; 0; 0; 0; 0; 0; 0] [Some 0; Some 1; Some 2])
    1 2 [5] 1 None (mkInflate None 0 0 [5] 1 0 0 0) [true; false; false; false; false; false] []) as (s' & E & _).
  - repeat constructor.
  - vm_compute. lia.
  - vm_compute. reflexivity.
  - lia.
  - reflexivity.
  - lia.
  - apply Forall_singleton. unfold is_byte. lia.
  - simpl. lia.
  - constructor; [by constructor; [| |simpl; lia]|simpl; lia|simpl; lia|vm_compute; reflexivity|by split].
  - exists s'. split; [vm_compute; reflexivity|exact E].
Defined.

(** C5: gunzip is safe for every sequence of bytes, well-formed or not: it
    never reads outside its input or its buffers, never uses an unset cell, and
    ends; it leaves everything else alone; and what it writes is what the deflate
    data behind the header mean, with the checksum and the length of the trailer. *)
Theorem gunzip_safe {S} (input : list Z) (st : S) : Forall is_byte input →
  match gunzip input st with
  | Ok out st' => st' = st ∧ member_of st input out
  | Die _ st' => st' = st
  | Ub | Fuel => False
  end.
Proof. apply gunzip_ok. Qed.

Lemma gunzip_safe_witness : let input := 31 :: 139 :: 8 :: replicate 20 255 in
  gunzip input tt = Die "gzip: truncated header" tt ∧
  match gunzip input tt with
  | Ok out st' => st' = tt ∧ member_of tt input out
  | Die _ st' => st' = tt
  | Ub | Fuel => False
  end.
Proof.
  intros input. split; [vm_compute; reflexivity|]. apply (gunzip_safe input tt). apply (bool_decide_unpack _). vm_compute. exact I.
Defined.

(** the checksum of gzip is the CRC-32 of RFC 1952: for every buffer the
    loop over the table of [crc32_init] gives what feeding the bits of the bytes,
    least significant first, into the shift register of the polynomial gives. *)
Theorem crc32_standard (buf : list Z) : Forall is_byte buf → crc32_update 0 buf = Some (crc32_ref buf).
Proof. apply crc32_update_ok. Qed.

Lemma crc32_standard_witness : Some (crc32_ref (bytes_of "123456789")) = Some 3421780262.
Proof.
  assert (Forall is_byte (bytes_of "123456789")) as H by (apply (bool_decide_unpack _); vm_compute; exact I).
  rewrite <- (crc32_standard _ H). vm_compute. reflexivity.
Defined.

(** ** The program *)

Section program.
Context (can_create can_unlink : cstr → bool) (stdin : FILE).
Hypothesis creates : ∀ name, can_create name = true.
Hypothesis unlinks : ∀ name, can_unlink name = true.

(** An operand that is not an option. *)
Definition operand (name : cstr) : Prop := name ≠ [] ∧ head name ≠ Some "-"%char ∧ no_nul name ∧ (length name + 3 ≤ OUTNAME)%nat.

Lemma argbegin_operand {S O} (f : ascii → O → M S O) u name o s : head name ≠ Some "-"%char →
  argbegin (λ _, false) (λ _ _ o, mret o) f u [name] o s = Ok ([name], o) s.
Proof. intros H. destruct name as [|c name]; [done|]. by destruct c as [[] [] [] [] [] [] [] []]; destruct name. Qed.

Lemma gz_suffix name : operand name → strip_gz_suffix (name ++ lit ".gz") = Some name ∧
  take OUTNAME (take OUTNAME name ++ lit ".gz") = name ++ lit ".gz" ∧ take OUTNAME name = name.
Proof.
  intros (Hne & _ & _ & Hl). assert (length (name ++ lit ".gz") = length name + 3)%nat as E by (by rewrite length_app). split_and!.
  - unfold strip_gz_suffix. rewrite E, Nat.add_sub. rewrite decide_True.
    + by rewrite take_app_length.
    + split; [destruct name; [done|simpl; lia]|]. by rewrite drop_app_length.
  - rewrite (take_ge name) by lia. apply take_ge. rewrite E. lia.
  - apply take_ge. lia.
Qed.
Lemma gz_name_ne name : name ≠ name ++ lit ".gz".
Proof. intros E. apply (f_equal length) in E. rewrite length_app in E. simpl in E. lia. Qed.

(** The output is written under its name and the input removed. *)
Lemma write_and_unlink out name bytes (m : M gzstate (list Z)) s : (∀ s, m s = Ok bytes s) →
  (create can_create out ;; b <- m ;; write_file out b ;; mwhen (negb false) (unlink can_unlink name)) s =
    Ok tt (s <| g_files := delete name (<[out := bytes]> (g_files s)) |>).
Proof using creates unlinks.
  intros Hm. unfold create. rewrite creates. rewrite (bind_run (modify _) _ s tt (s <| g_files := <[out := []]> (g_files s) |>)) by done.
  rewrite (bind_run _ _ _ _ _ (Hm _)). unfold unlink. rewrite unlinks. unfold modify, mbind, write_file, mwhen, negb. destruct s as [files o err]. cbn.
  unfold set, set_field. cbn. by rewrite alter_insert_eq.
Qed.

Lemma compress_file name data s : operand name → Forall is_byte data → g_files s !! name = Some data →
  gz_main can_create can_unlink stdin "gzip" [name] s =
    Ok 0 (s <| g_files := delete name (<[name ++ lit ".gz" := member data (Some name)]> (g_files s)) |>).
Proof using creates unlinks.
  intros Hop Hb Hf. pose proof Hop as (Hne & Hh & Hn & Hl). destruct (gz_suffix name Hop) as (_ & Ho & _). unfold gz_main.
  rewrite (bind_run _ _ _ _ _ (argbegin_operand _ _ name _ s Hh)). cbn [mforeach]. rewrite mbind_assoc. unfold gz_file at 1.
  rewrite mbind_assoc, (bind_run _ _ _ (g_files s) s) by done. rewrite Hf. cbn [o_d o_c o_n o_k]. rewrite mbind_assoc, (bind_run _ _ _ data s) by done. cbv zeta. rewrite Ho.
  rewrite (gzip_compress_ok data (Some name) Hb). by rewrite (bind_run _ _ _ _ _ (write_and_unlink (name ++ lit ".gz") name (member data (Some name)) _ s (λ _, eq_refl))).
Qed.

Lemma decompress_file name data s : operand name → Forall is_byte data → data ≠ [] → g_files s !! (name ++ lit ".gz") = Some (member data (Some name)) →
  gz_main can_create can_unlink stdin "gzip" [lit "-d"; name ++ lit ".gz"] s =
    Ok 0 (s <| g_files := delete (name ++ lit ".gz") (<[name := data]> (g_files s)) |>).
Proof using creates unlinks.
  intros Hop Hb Hnd Hf. pose proof Hop as (Hne & Hh & Hn & Hl). destruct (gz_suffix name Hop) as (Hs & _ & Ho). unfold gz_main.
  assert (argbegin (λ _, false) (λ _ _ o, mret o) (gz_flag "gzip") (gz_usage "gzip") [lit "-d"; name ++ lit ".gz"] (mkGzo false false false false false) s
    = Ok ([name ++ lit ".gz"], mkGzo false true false false false) s) as Ea.
  { destruct name as [|c name]; [done|]. by destruct c as [[] [] [] [] [] [] [] []]; destruct name. }
  rewrite (bind_run _ _ _ _ _ Ea). cbn [mforeach]. rewrite mbind_assoc. unfold gz_file at 1.
  rewrite mbind_assoc, (bind_run _ _ _ (g_files s) s) by done. rewrite Hf. cbn [o_d o_c o_n o_k].
  rewrite mbind_assoc, (bind_run _ _ _ (member data (Some name)) s) by done. rewrite Hs. cbv zeta. rewrite Ho.
  by rewrite (bind_run _ _ _ _ _ (write_and_unlink name (name ++ lit ".gz") data _ s (λ s, gunzip_member s data (Some name) Hb Hnd Hn))).
Qed.
End program.

(** C13: gzip loses nothing.  On a file with at least one byte, gzip and then
    gzip -d on its result bring the file system back to where it was, both with
    exit status 0; after the first run the file is replaced by its member.  For
    an empty file the member that gzip writes is rejected as corrupt. *)
Theorem gzip_roundtrip (stdin : FILE) (name : cstr) (data : list Z) (s : gzstate) :
  operand name → Forall is_byte data → g_files s !! name = Some data → g_files s !! (name ++ lit ".gz") = None →
  let gzip := gz_main (λ _, true) (λ _, true) stdin "gzip" in
  (data ≠ [] → ∃ s', gzip [name] s = Ok 0 s' ∧ g_files s' !! name = None ∧ gzip [lit "-d"; name ++ lit ".gz"] s' = Ok 0 s) ∧
  (data = [] → ∃ z, gzip_compress data (Some name) = Some z ∧ gunzip z tt = Die "gzip: corrupt compressed data" tt).
Proof.
  intros Hop Hb Hf Hg gzip. split.
  - intros Hne. pose proof (gz_name_ne name) as Hnn. eexists. split; [by apply compress_file|]. destruct s as [files out err]. cbn in Hf, Hg |- *.
    split; [apply lookup_delete_eq|]. unfold gzip. erewrite decompress_file; [|done|done|done|exact Hb|exact Hne|].
    2: { cbn. rewrite lookup_delete_ne by done. apply lookup_insert_eq. }
    cbn. do 2 f_equal. rewrite insert_delete_eq, insert_insert_ne, delete_insert_eq by done.
    by rewrite delete_id, insert_id by (done || by rewrite lookup_insert_ne).
  - intros ->. exists (member [] (Some name)). split; [by apply gzip_compress_ok|]. apply gunzip_empty_member. apply Hop.
Qed.

Lemma gzip_roundtrip_witness :
  let s := mkGz {[ lit "f" := bytes_of "abc" ]} [] [] in
  ∃ s', gz_main (λ _, true) (λ _, true) (mkFile [] false) "gzip" [lit "f"] s = Ok 0 s' ∧
  gz_main (λ _, true) (λ _, true) (mkFile [] false) "gzip" [lit "-d"; lit "f.gz"] s' = Ok 0 s.
Proof.
  intros s. destruct (gzip_roundtrip (mkFile [] false) (lit "f") (bytes_of "abc") s) as [H _].
  - split_and!; [discriminate|discriminate|apply (bool_decide_unpack _); vm_compute; exact I|vm_compute; lia].
  - apply (bool_decide_unpack _). vm_compute. exact I.
  - vm_compute. reflexivity.
  - vm_compute. reflexivity.
  - destruct H as (s' & E1 & _ & E2); [discriminate|]. exists s'. split; [exact E1|exact E2].
Defined.
