(* ===== verification/Diff.v ===== *)
(** * Line differences: src/shared/libutil/diffutil.c

    Loading a file as lines, the differences of two files by a table of longest
    common subsequences, and the printed formats.  An access outside an array is
    [None]; so is a loop that outlives its bound, which [DiffFacts] excludes.
    A [struct difffile] is the list of its lines: the array has one more cell,
    a line of length 0 that holds the pointer to free, and reading it is
    defined.  Sizes are natural numbers, since (n+1)*(m+1) cells were allocated;
    the characters are those of the C locale. *)

From stdpp Require Import gmap strings pretty.
From S2P Require Import Prelude CString Stdio.

Local Open Scope nat_scope.

Abbreviation line := (list Z).
Abbreviation difffile := (list line).

Record diffrange := mkRange { from : nat; to : nat }.
Record diffhunk := mkHunk { h_old : diffrange; h_new : diffrange }.

Inductive diffformat :=
| DIFF_NORMAL | DIFF_UNIFIED | DIFF_CONTEXT | DIFF_ED | DIFF_RCSED | DIFF_BRIEF.

Record diffopts := mkOpts {
  o_format : diffformat;
  o_context : nat;
  o_ignore_case : bool;
  o_ignore_blanks : bool;
  o_strip_cr : bool;
  o_treat_binary : bool
}.

#[export] Instance diffrange_eq_dec : EqDecision diffrange.
Proof. solve_decision. Defined.
#[export] Instance diffhunk_eq_dec : EqDecision diffhunk.
Proof. solve_decision. Defined.

(** [lines[i]], the cell behind the last line included *)
Definition line_at (df : difffile) (i : nat) : option line :=
  if decide (i = length df) then Some [] else df !! i.

(** A store into an array. *)
Definition put {A} (a : list A) (i : nat) (v : A) : option (list A) :=
  if decide (i < length a) then Some (<[i := v]> a) else None.

(** ** Loading *)

(** [read_all]: the buffer grows to twice the size needed, and 64. *)
Definition read_block (st : nat * list Z) (b : list Z) : option (nat * list Z) :=
  let '(cap, data) := st in
  let len := length data in
  let cap := if decide (cap < len + length b) then (len + length b) * 2 + 64 else cap in
  if decide (len + length b ≤ cap) then Some (cap, data ++ b) else None.
Fixpoint read_blocks (st : nat * list Z) (bs : list (list Z)) : option (nat * list Z) :=
  match bs with
  | [] => Some st
  | b :: bs => st ← read_block st b; read_blocks st bs
  end.
(** [sizeof(buf)] *)
Definition RBUF : nat := Z.to_nat 8192.
(** What is read, or [None] inside for an error of the stream. *)
Definition read_all (fp : FILE) : option (option (list Z)) :=
  st ← read_blocks (0, []) (fread_blocks RBUF fp);
  Some (if f_err fp then None else Some (snd st)).

(** The bytes from [a] to before [b]. *)
Definition slice {A} (l : list A) (a b : nat) : list A := take (b - a) (drop a l).

Definition count_lines (data : list Z) : nat :=
  let n := length (filter (λ b, b = 10%Z) data) in
  if decide (0 < length data ∧ last data ≠ Some 10%Z) then S n else n.

(** The loop over the bytes [rest] from [n] on, with [i] lines stored. *)
Fixpoint split_loop (data rest : list Z) (n start i : nat) (lines : list line)
    : option (nat * nat * list line) :=
  match rest with
  | [] => Some (start, i, lines)
  | b :: rest =>
      if decide (b = 10%Z) then
        lines ← put lines i (slice data start n);
        split_loop data rest (S n) (S n) (S i) lines
      else split_loop data rest (S n) start i lines
  end.
Definition split_lines (data : list Z) : option difffile :=
  let n := count_lines data in
  if decide (n = 0) then Some []
  else
    '(start, i, lines) ← split_loop data data 0 0 0 (replicate n []);
    if decide (start < length data) then
      lines ← put lines i (slice data start (length data));
      Some (take (S i) lines)
    else Some (take i lines).

(** ** Comparing two lines *)

Definition isspace_byte (b : Z) : bool := isspace (char_of b).
Definition tolower (b : Z) : Z := if decide (65 ≤ b ≤ 90)%Z then (b + 32)%Z else b.

Fixpoint skip_space (s : line) : line :=
  match s with
  | [] => []
  | b :: s' => if isspace_byte b then skip_space s' else s
  end.
Definition same_char (icase : bool) (x y : Z) : bool :=
  if icase then bool_decide (tolower x = tolower y) else bool_decide (x = y).
(** The loop of ignore_blanks; a round that does not end it consumes a character. *)
Fixpoint blanks_loop (fuel : nat) (icase : bool) (a b : line) : option bool :=
  match a, b with
  | _ :: _, _ :: _ =>
      match skip_space a, skip_space b with
      | x :: a', y :: b' =>
          match fuel with
          | O => None
          | S fuel => if same_char icase x y then blanks_loop fuel icase a' b' else Some false
          end
      | a', b' => Some (bool_decide (skip_space a' = [] ∧ skip_space b' = []))
      end
  | _, _ => Some (bool_decide (skip_space a = [] ∧ skip_space b = []))
  end.
Fixpoint case_loop (a b : line) : bool :=
  match a, b with
  | x :: a, y :: b => if bool_decide (tolower x = tolower y) then case_loop a b else false
  | _, _ => true
  end.
Definition lines_equal (opts : diffopts) (a b : line) : option bool :=
  if o_ignore_blanks opts then blanks_loop (length a) (o_ignore_case opts) a b
  else if o_ignore_case opts then
    Some (if decide (length a = length b) then case_loop a b else false)
  else Some (if decide (length a = length b) then bool_decide (a = b) else false).

(** ** diff_compute *)

Record lcs_cell := mkCell { diag : Z; up : Z; left : Z }.

Section compute.
Context (opts : diffopts) (old new : difffile).

(** [&c[i * (m + 1) + j]] *)
Definition idx (i j : nat) : nat := i * (length new + 1) + j.

(** [i > 0 && j > 0 && lines_equal(&old->lines[i - 1], &new->lines[j - 1], opts)] *)
Definition equal_before (i j : nat) : option bool :=
  match i, j with
  | S i, S j => x ← line_at old i; y ← line_at new j; lines_equal opts x y
  | _, _ => Some false
  end.

(** [i > 0 && (j == 0 || c[i - 1][j].diag >= c[i][j - 1].diag)] *)
Definition goes_up (c : list lcs_cell) (i j : nat) : option bool :=
  match i, j with
  | O, _ => Some false
  | S _, O => Some true
  | S i', S j' =>
      u ← c !! idx i' j; l ← c !! idx i j';
      Some (bool_decide (diag l ≤ diag u)%Z)
  end.

(** The body of the two loops. *)
Definition fill_cell (c : list lcs_cell) (i j : nat) : option (list lcs_cell) :=
  if decide (i = 0 ∧ j = 0) then
    old ← c !! idx i j; put c (idx i j) (mkCell 0 (up old) (left old))
  else
    eq ← equal_before i j;
    if (eq : bool) then d ← c !! idx (i - 1) (j - 1); put c (idx i j) (mkCell (diag d + 1) 0 0)
    else
      gu ← goes_up c i j;
      if (gu : bool) then u ← c !! idx (i - 1) j; put c (idx i j) (mkCell (diag u) 1 0)
      else
        match j with
        | O => None
        | S j' => l ← c !! idx i j'; put c (idx i j) (mkCell (diag l) 0 1)
        end.
Fixpoint fill_row (c : list lcs_cell) (i : nat) (js : list nat) : option (list lcs_cell) :=
  match js with
  | [] => Some c
  | j :: js => c ← fill_cell c i j; fill_row c i js
  end.
Fixpoint fill_rows (c : list lcs_cell) (rows : list nat) : option (list lcs_cell) :=
  match rows with
  | [] => Some c
  | i :: rows => c ← fill_row c i (seq 0 (length new + 1)); fill_rows c rows
  end.
Definition fill_table : option (list lcs_cell) :=
  fill_rows (replicate ((length old + 1) * (length new + 1)) (mkCell 0 0 0)) (seq 0 (length old + 1)).

(** The way back through the table: what is done at each step, last step first. *)
Fixpoint backtrack (fuel : nat) (c : list lcs_cell) (i j k : nat) (xs ys : list Z)
    : option (nat * list Z * list Z) :=
  if decide (i = 0 ∧ j = 0) then Some (k, xs, ys)
  else
    match fuel with
    | O => None
    | S fuel =>
        eq ← equal_before i j;
        if (eq : bool) then
          xs ← put xs k 0%Z; ys ← put ys k 0%Z; backtrack fuel c (i - 1) (j - 1) (S k) xs ys
        else
          u ← (if decide (0 < i) then up <$> c !! idx i j else Some 0%Z);
          if decide (u ≠ 0%Z) then
            xs ← put xs k 1%Z; ys ← put ys k 0%Z; backtrack fuel c (i - 1) j (S k) xs ys
          else
            match j with
            | O => None
            | S j' => xs ← put xs k 0%Z; ys ← put ys k 2%Z; backtrack fuel c i j' (S k) xs ys
            end
    end.

(** [op = xs[idx] | ys[idx]] *)
Definition op_at (xs ys : list Z) (k : nat) : option (Z * Z * Z) :=
  x ← xs !! k; y ← ys !! k; Some (x, y, Z.lor x y).

(** The inner loop: the end of a hunk. *)
Fixpoint hunk_end (step : nat) (xs ys : list Z) (hto vto : nat) : option (nat * nat * nat) :=
  match step with
  | O => Some (0, hto, vto)
  | S step' =>
      '(x, y, op) ← op_at xs ys step';
      if decide (op = 0%Z) then Some (step, hto, vto)
      else
        hunk_end step' xs ys (if decide (x = 1%Z) then S hto else hto)
          (if decide (y = 2%Z) then S vto else vto)
  end.
Fixpoint collect (fuel step : nat) (xs ys : list Z) (i j : nat) (v : list diffhunk)
    : option (list diffhunk) :=
  match step with
  | O => Some v
  | S step' =>
      match fuel with
      | O => None
      | S fuel =>
          '(_, _, op) ← op_at xs ys step';
          if decide (op = 0%Z) then collect fuel step' xs ys (S i) (S j) v
          else
            '(step, hto, vto) ← hunk_end step xs ys i j;
            collect fuel step xs ys hto vto (v ++ [mkHunk (mkRange i hto) (mkRange j vto)])
      end
  end.

Definition diff_hunks : option (list diffhunk) :=
  if decide (length old = 0 ∧ length new = 0) then Some []
  else
    c ← fill_table;
    let cap := length old + length new + 16 in
    '(k, xs, ys) ← backtrack (length old + length new) c (length old) (length new) 0
                     (replicate cap 0%Z) (replicate cap 0%Z);
    collect k k xs ys 0 0 [].
End compute.

(** [memset] and a context of 3, when the options are NULL *)
Definition default_opts : diffopts := mkOpts DIFF_NORMAL 3 false false false false.
Definition diff_compute (old new : difffile) (opts : option diffopts) : option (list diffhunk) :=
  diff_hunks (default default_opts opts) old new.

Definition ABCABBA : difffile := map bytes_of (lits ["a"; "b"; "c"; "a"; "b"; "b"; "a"]).
Definition CBABAC : difffile := map bytes_of (lits ["c"; "b"; "a"; "b"; "a"; "c"]).
Example compute_small : diff_compute ABCABBA CBABAC None =
  Some [mkHunk (mkRange 0 1) (mkRange 0 1); mkHunk (mkRange 2 3) (mkRange 2 2);
        mkHunk (mkRange 4 5) (mkRange 3 3); mkHunk (mkRange 7 7) (mkRange 5 6)].
Proof. vm_compute. reflexivity. Qed.

(** ** diff_looks_binary *)

Fixpoint binary_loop (scan : nat) (lines : difffile) : bool :=
  match lines with
  | [] => false
  | l :: lines =>
      if decide (0 < scan) then
        let take_ := if decide (length l < scan) then length l else scan in
        if decide (0%Z ∈ take take_ l) then true else binary_loop (scan - take_) lines
      else false
  end.
Definition diff_looks_binary (df : difffile) : bool := binary_loop (Z.to_nat 4096) df.

(** ** Formats *)

(** [a - b] of two [size_t] *)
Definition sub_size (a b : nat) : N :=
  if decide (b ≤ a) then N.of_nat (a - b) else (2 ^ 64 - N.of_nat (b - a))%N.
Definition zu (n : N) : list Z := bytes_of (pretty n).
Definition txt (s : cstr) : list Z := bytes_of s.
Definition NLB : Z := 10.

Definition print_range (f t : nat) : list Z :=
  if decide (sub_size t f ≤ 1)%N then zu (N.of_nat f + 1)
  else zu (N.of_nat f + 1) ++ txt "," ++ zu (N.of_nat t).

(** The loop over the lines [f, ..., f + n - 1], each behind [pre]. *)
Fixpoint print_n (pre : list Z) (lines : difffile) (f n : nat) : option (list Z) :=
  match n with
  | O => Some []
  | S n =>
      l ← line_at lines f;
      rest ← print_n pre lines (S f) n;
      Some (pre ++ l ++ [NLB] ++ rest)
  end.
Definition print_lines (lines : difffile) (f t : nat) (prefix : cstr) : option (list Z) :=
  print_n (txt prefix) lines f (t - f).

(** The concatenation of what a loop prints. *)
Fixpoint print_all {A} (f : A → option (list Z)) (l : list A) : option (list Z) :=
  match l with
  | [] => Some []
  | x :: l => o ← f x; rest ← print_all f l; Some (o ++ rest)
  end.

(** [oldn == 0 ? 'a' : (newn == 0 ? 'd' : 'c')] *)
Definition hunk_op (h : diffhunk) : cstr :=
  if decide (to (h_old h) = from (h_old h)) then lit "a"
  else if decide (to (h_new h) = from (h_new h)) then lit "d" else lit "c".

Definition normal_hunk (old new : difffile) (h : diffhunk) : option (list Z) :=
  let o := h_old h in
  let n := h_new h in
  let head := print_range (from o) (to o) ++ txt (hunk_op h) ++ print_range (from n) (to n) ++ [NLB] in
  body ← (if decide (to o ≠ from o ∧ to n ≠ from n) then
            a ← print_lines old (from o) (to o) "<";
            b ← print_lines new (from n) (to n) ">";
            Some (a ++ txt "---" ++ [NLB] ++ b)
          else if decide (to o ≠ from o) then print_lines old (from o) (to o) "<"
          else print_lines new (from n) (to n) ">");
  Some (head ++ body).
Definition format_normal (hunks : list diffhunk) (old new : difffile) : option (list Z) :=
  print_all (normal_hunk old new) hunks.

(** The range of a hunk with its context: [h->from < ctx ? 0 : h->from - ctx],
    and the end cut to the length of the file. *)
Definition widen (r : diffrange) (ctx n : nat) : diffrange :=
  mkRange (if decide (from r < ctx) then 0 else from r - ctx)
    (if decide (n < to r + ctx) then n else to r + ctx).

Definition emit_unified_hunk (old new : difffile) (ctx : nat) (h : diffhunk) : option (list Z) :=
  let o := widen (h_old h) ctx (length old) in
  let n := widen (h_new h) ctx (length new) in
  let olen := sub_size (to o) (from o) in
  let nlen := sub_size (to n) (from n) in
  let ofrom := zu (N.of_nat (from o) + 1) in
  let nfrom := zu (N.of_nat (from n) + 1) in
  let head :=
    if decide (olen ≤ 1)%N then
      txt "@@ -" ++ ofrom ++ txt " +" ++ nfrom ++ txt "," ++ zu nlen ++ txt " @@" ++ [NLB]
    else if decide (nlen ≤ 1)%N then
      txt "@@ -" ++ ofrom ++ txt "," ++ zu olen ++ txt " +" ++ nfrom ++ txt " @@" ++ [NLB]
    else
      txt "@@ -" ++ ofrom ++ txt "," ++ zu olen ++ txt " +" ++ nfrom ++ txt "," ++ zu nlen ++ txt " @@" ++ [NLB]
  in
  before ← print_lines old (from o) (from (h_old h)) " ";
  removed ← print_lines old (from (h_old h)) (to (h_old h)) "-";
  added ← print_lines new (from (h_new h)) (to (h_new h)) "+";
  after ← print_lines old (to (h_old h)) (to o) " ";
  Some (head ++ before ++ removed ++ added ++ after).

Definition label (mark : cstr) (l : option cstr) : list Z :=
  match l with Some s => txt (mark ++ s) ++ [NLB] | None => [] end.

Definition format_unified (hunks : list diffhunk) (old new : difffile) (oldlabel newlabel : option cstr)
    (ctx : nat) : option (list Z) :=
  body ← print_all (emit_unified_hunk old new ctx) hunks;
  Some (label "--- " oldlabel ++ label "+++ " newlabel ++ body).

Definition emit_context_hunk (old new : difffile) (ctx : nat) (h : diffhunk) : option (list Z) :=
  let o := widen (h_old h) ctx (length old) in
  let n := widen (h_new h) ctx (length new) in
  let head (mark : cstr) (r : diffrange) (tail : cstr) :=
    txt mark ++ zu (N.of_nat (from r) + 1) ++
    (if decide (sub_size (to r) (from r) ≤ 1)%N then [] else txt "," ++ zu (sub_size (to r) (from r))) ++
    txt tail ++ [NLB] in
  before ← print_lines old (from o) (from (h_old h)) " ";
  removed ← print_lines old (from (h_old h)) (to (h_old h)) "-";
  after ← print_lines old (to (h_old h)) (to o) " ";
  before' ← print_lines new (from n) (from (h_new h)) " ";
  added ← print_lines new (from (h_new h)) (to (h_new h)) "+";
  after' ← print_lines new (to (h_new h)) (to n) " ";
  Some (txt "***************" ++ [NLB] ++
        head "*** " o " ****" ++ before ++ removed ++ after ++
        head "--- " n " ----" ++ before' ++ added ++ after').

Definition format_context (hunks : list diffhunk) (old new : difffile) (oldlabel newlabel : option cstr)
    (ctx : nat) : option (list Z) :=
  body ← print_all (emit_context_hunk old new ctx) hunks;
  Some (label "*** " oldlabel ++ label "--- " newlabel ++ body).

(** A line of the text of an ed command. *)
Definition ed_line (l : line) : list Z :=
  if decide (l = txt ".") then txt ".." ++ [NLB]
  else if decide (l = []) then txt "." ++ [NLB]
  else l ++ [NLB].
Fixpoint ed_text (new : difffile) (f n : nat) : option (list Z) :=
  match n with
  | O => Some []
  | S n => l ← line_at new f; rest ← ed_text new (S f) n; Some (ed_line l ++ rest)
  end.
Definition ed_hunk (new : difffile) (h : diffhunk) : option (list Z) :=
  let o := h_old h in
  let n := h_new h in
  let head := print_range (from o) (to o) ++ txt (hunk_op h) ++ [NLB] in
  if decide (hunk_op h = lit "d") then Some head
  else text ← ed_text new (from n) (to n - from n); Some (head ++ text ++ txt "." ++ [NLB]).
Definition format_ed (hunks : list diffhunk) (new : difffile) : option (list Z) :=
  print_all (ed_hunk new) hunks.

(** The value returned and what is printed. *)
Definition diff_format (hunks : list diffhunk) (old new : difffile) (oldlabel newlabel : option cstr)
    (opts : option diffopts) : option (Z * list Z) :=
  let opts := default default_opts opts in
  let ctx := if decide (o_context opts = 0) then 3 else o_context opts in
  match o_format opts with
  | DIFF_NORMAL => o ← format_normal hunks old new; Some (0%Z, o)
  | DIFF_UNIFIED => o ← format_unified hunks old new oldlabel newlabel ctx; Some (0%Z, o)
  | DIFF_CONTEXT => o ← format_context hunks old new oldlabel newlabel ctx; Some (0%Z, o)
  | DIFF_ED | DIFF_RCSED => o ← format_ed hunks new; Some (0%Z, o)
  | DIFF_BRIEF => Some (if decide (0 < length hunks) then 1%Z else 0%Z, [])
  end.

(** Appending a line behind the second one is written as a command for a third
    line that does not exist: the number printed for an empty range is one too
    large. *)
Example normal_append :
  let old := map bytes_of (lits ["a"; "b"]) in
  let new := map bytes_of (lits ["a"; "b"; "c"]) in
  (h ← diff_compute old new None; format_normal h old new) =
  Some (txt "3a3" ++ [NLB] ++ txt ">c" ++ [NLB]).
Proof. vm_compute. reflexivity. Qed.

(** An empty line is printed as the line that ends the text of an ed command. *)
Example ed_empty_line :
  let old := map bytes_of (lits ["a"]) in
  let new := [txt "b"; []; txt "c"] in
  (h ← diff_compute old new None; format_ed h new) =
  Some (txt "1c" ++ [NLB] ++ txt "b" ++ [NLB] ++ txt "." ++ [NLB] ++ txt "c" ++ [NLB] ++ txt "." ++ [NLB]).
Proof. vm_compute. reflexivity. Qed.

(** ** diff_load *)

(** The files, standard input, standard output and the messages of a program. *)
Record io := mkIo { io_files : gmap cstr FILE; io_stdin : FILE; io_out : list Z; io_err : list cstr }.
#[export] Instance eta_io : Eta io := λ s, mkIo (io_files s) (io_stdin s) (io_out s) (io_err s).

Definition warn (msg : cstr) : M io unit := modify (set io_err (λ l, l ++ [msg])).
Definition emit (bytes : list Z) : M io unit := modify (set io_out (λ o, o ++ bytes)).

(** [fopen], with [None] when it fails; standard input keeps what was not read. *)
Definition open_path (path : cstr) : M io (option FILE) :=
  if decide (path = lit "-") then
    fp <- gets io_stdin ;; modify (set io_stdin (λ fp, mkFile [] (f_err fp))) ;; mret (Some fp)
  else files <- gets io_files ;; mret (files !! path).

Definition diff_load (path : cstr) : M io (option difffile) :=
  fp <- open_path path ;;
  match fp with
  | None => warn (lit "open " ++ path ++ lit ":") ;; mret None
  | Some fp =>
      data <- deref (read_all fp) ;;
      match data with
      | None => warn (lit "read " ++ path ++ lit ":") ;; mret None
      | Some data =>
          if decide (length data = 0) then mret (Some [])
          else lines <- deref (split_lines data) ;; mret (Some lines)
      end
  end.
