(* ===== verification/DiffFacts.v ===== *)
(** * What the differences of two files are worth

    Splitting a file into lines loses nothing.  The hunks of [diff_compute] cut
    both files into runs of equal lines and changes ([Hunked]), they leave out
    as few lines as possible, and replacing the changes in one file gives the
    other.  No index is out of range on the way. *)

From stdpp Require Import gmap strings pretty.
From S2P Require Import Prelude CString Stdio Diff.

Local Open Scope nat_scope.

(** ** Loading *)

Definition join_lines (ls : difffile) : list Z := concat (map (λ l, l ++ [10%Z]) ls).
(** The newline a file may lack at its end. *)
Definition final_newline (data : list Z) : list Z :=
  if decide (data = [] ∨ last data = Some 10%Z) then [] else [10%Z].

Lemma read_all_total fp : Diff.read_all fp = Some (if f_err fp then None else Some (f_bytes fp)).
Proof.
  unfold Diff.read_all.
  assert (∀ bs cap data, ∃ cap', read_blocks (cap, data) bs = Some (cap', data ++ concat bs)) as H.
  { induction bs as [|b bs IH]; intros cap data; simpl; [by rewrite app_nil_r; eauto|].
    unfold read_block. rewrite (decide_True (P := (_ ≤ _)%nat)) by (case_decide; lia).
    simpl. rewrite app_assoc. apply IH. }
  destruct (H (fread_blocks RBUF fp) 0 []) as [cap ->]. simpl.
  destruct (fread_blocks_ok RBUF fp) as [-> _]; [unfold RBUF; lia|done].
Qed.

Lemma put_ok {A} (a : list A) i v : i < length a → put a i v = Some (<[i := v]> a).
Proof. intros. unfold put. by rewrite decide_True. Qed.

Lemma take_insert_end {A} (l : list A) i v : i < length l → take (S i) (<[i := v]> l) = take i l ++ [v].
Proof.
  intros Hi. rewrite (take_S_r _ _ v) by (by apply list_lookup_insert_eq).
  by rewrite take_insert_ge by lia.
Qed.

Lemma slice_snoc (data pre : list Z) b rest start : data = pre ++ b :: rest → start ≤ length pre →
  slice data start (S (length pre)) = slice data start (length pre) ++ [b].
Proof.
  intros -> Hs. unfold slice. replace (S (length pre) - start) with (S (length pre - start)) by lia.
  apply take_S_r. rewrite lookup_drop. replace (start + _) with (length pre) by lia.
  by rewrite lookup_app_r, Nat.sub_diag.
Qed.

Lemma take_slice {A} (l : list A) a b : a ≤ b → take a l ++ slice l a b = take b l.
Proof.
  intros H. unfold slice. rewrite <- (take_drop a (take b l)) at 1.
  rewrite take_take, Nat.min_l, skipn_firstn_comm by lia. done.
Qed.

(** The lines counted for the bytes that are left. *)
Definition lines_left (start n : nat) (rest : list Z) : nat :=
  length (filter (λ b, b = 10%Z) rest) +
  if decide (last rest = Some 10%Z ∨ (rest = [] ∧ start = n)) then 0 else 1.

Lemma lines_left_nl start n rest : lines_left start n (10%Z :: rest) = S (lines_left (S n) (S n) rest).
Proof.
  unfold lines_left. rewrite filter_cons_True by done. cbn [length]. rewrite Nat.add_succ_l. do 2 f_equal.
  apply decide_ext. destruct rest; [simpl; naive_solver|]. simpl. naive_solver.
Qed.
Lemma lines_left_other start n b rest : b ≠ 10%Z → start ≤ n →
  lines_left start n (b :: rest) = lines_left start (S n) rest.
Proof.
  intros Hb Hs. unfold lines_left. rewrite filter_cons_False by done. f_equal.
  apply decide_ext. destruct rest; simpl; [|naive_solver]. split; [intros [[= ->]|[? _]]; done|].
  intros [?|[_ ?]]; [done|lia].
Qed.

Lemma split_loop_ok data rest n start i lines : data = take n data ++ rest → n = length (take n data) →
  start ≤ n → 10%Z ∉ slice data start n → i + lines_left start n rest = length lines →
  join_lines (take i lines) = take start data → Forall (λ l, 10%Z ∉ l) (take i lines) →
  ∃ start' i' lines', split_loop data rest n start i lines = Some (start', i', lines') ∧
    start' ≤ length data ∧ 10%Z ∉ slice data start' (length data) ∧
    i' + (if decide (start' = length data) then 0 else 1) = length lines' ∧
    join_lines (take i' lines') = take start' data ∧ Forall (λ l, 10%Z ∉ l) (take i' lines').
Proof.
  revert n start i lines. induction rest as [|b rest IH]; intros n start i lines Hd Hn Hs Hnl Hlen Hj Hf; simpl.
  - assert (n = length data) as Hnd. { rewrite Hd, app_nil_r. done. }
    exists start, i, lines. split_and!; try done; try lia; [by rewrite <- Hnd|].
    unfold lines_left in Hlen. simpl in Hlen. rewrite <- Hnd.
    destruct (decide (start = n)); [rewrite decide_True in Hlen by (by right)|rewrite decide_False in Hlen by naive_solver]; lia.
  - assert (take (S n) data = take n data ++ [b]) as Ht.
    { apply take_S_r. rewrite Hd, lookup_app_r, <- Hn, Nat.sub_diag by lia. done. }
    assert (data = take (S n) data ++ rest) as Hd'. { by rewrite Ht, <- app_assoc. }
    assert (S n = length (take (S n) data)) as Hn'. { rewrite Ht, length_app, <- Hn. simpl. lia. }
    pose proof (slice_snoc data (take n data) b rest start Hd) as Hsl. rewrite <- Hn in Hsl. specialize (Hsl Hs).
    case_decide as Hb; [subst b|].
    + rewrite lines_left_nl in Hlen. assert (i < length lines) as Hi by lia.
      rewrite (put_ok lines i _ Hi). simpl.
      apply IH; auto.
      * unfold slice. rewrite Nat.sub_diag. simpl. set_solver.
      * rewrite length_insert. lia.
      * rewrite take_insert_end by done. unfold join_lines in *. rewrite map_app, concat_app, Hj. simpl.
        rewrite app_nil_r, app_assoc, take_slice by done. by rewrite Ht.
      * rewrite take_insert_end by done. apply Forall_app. split; [done|]. by constructor.
    + apply IH; auto.
      * rewrite Hsl. set_solver.
      * by rewrite lines_left_other in Hlen.
Qed.

Lemma split_lines_join data : ∃ ls, split_lines data = Some ls ∧ Forall (λ l, 10%Z ∉ l) ls ∧
  join_lines ls = data ++ final_newline data.
Proof.
  unfold split_lines. destruct (decide (data = [])) as [->|Hne].
  { exists []. done. }
  assert (count_lines data = lines_left 0 0 data) as Hc.
  { unfold count_lines, lines_left. destruct data as [|b data]; [done|].
    destruct (decide (last (b :: data) = Some 10%Z)).
    - rewrite decide_False by naive_solver. rewrite decide_True by auto. lia.
    - rewrite decide_True by (simpl; split; [lia|done]). rewrite decide_False by naive_solver. lia. }
  destruct (split_loop_ok data data 0 0 0 (replicate (count_lines data) [])) as (start & i & lines & E & Hs & Hnl & Hlen & Hj & Hf);
    simpl; try done; try lia; [by apply not_elem_of_nil|by rewrite length_replicate|].
  assert (count_lines data ≠ 0) as Hn0.
  { unfold count_lines; cbv zeta. destruct (decide (0 < length data ∧ last data ≠ Some 10%Z)) as [|H]; [done|].
    destruct (decide (last data = Some 10%Z)) as [Hl|Hl].
    - apply last_Some in Hl as [l ->]. rewrite filter_app, length_app. simpl. lia.
    - destruct H. split; [destruct data; simpl; [done|lia]|done]. }
  rewrite decide_False by done. rewrite E. cbn.
  assert (∀ l, last data = Some l → slice data start (length data) = [] ∨ last (slice data start (length data)) = Some l) as Hlast.
  { intros l Hl. destruct (decide (start = length data)) as [->|].
    - left. unfold slice. by rewrite Nat.sub_diag.
    - right. unfold slice. rewrite take_ge by (rewrite length_drop; lia).
      rewrite last_lookup, lookup_drop, length_drop. rewrite last_lookup in Hl. rewrite <- Hl. f_equal. lia. }
  destruct (decide (start < length data)) as [Hlt|Hge].
  - rewrite decide_False in Hlen by lia. rewrite put_ok by lia. simpl.
    eexists. split; [done|]. rewrite take_insert_end by lia. split.
    + apply Forall_app. by repeat constructor.
    + unfold join_lines in *. rewrite map_app, concat_app, Hj. simpl. rewrite app_nil_r, app_assoc, take_slice, firstn_all by lia.
      f_equal. unfold final_newline. rewrite decide_False; [done|]. intros [?|Hl]; [done|].
      destruct (Hlast _ Hl) as [Hx|Hx].
      * apply (f_equal length) in Hx. unfold slice in Hx. rewrite length_take, length_drop in Hx. simpl in Hx. lia.
      * apply Hnl. apply last_Some in Hx as [? ->]. set_solver.
  - assert (start = length data) as -> by lia. rewrite decide_True in Hlen by done.
    eexists. split; [done|]. split; [done|]. rewrite Hj, firstn_all. unfold final_newline. rewrite decide_True; [by rewrite app_nil_r|].
    right. destruct (take i lines) as [|x l] eqn:El using rev_ind.
    { simpl in Hj. rewrite firstn_all in Hj. by rewrite <- Hj in Hne. }
    unfold join_lines in Hj. rewrite map_app, concat_app, firstn_all in Hj. simpl in Hj. rewrite <- Hj.
    by rewrite !app_nil_r, app_assoc, last_snoc.
Qed.

(** ** Equality of lines *)

(** What is compared of a line. *)
Definition line_key (opts : diffopts) (l : line) : line :=
  let l := if o_ignore_blanks opts then filter (λ b, isspace_byte b = false) l else l in
  if o_ignore_case opts then map tolower l else l.

Lemma skip_space_ok s :
  filter (λ b, isspace_byte b = false) (skip_space s) = filter (λ b, isspace_byte b = false) s ∧
  length (skip_space s) ≤ length s ∧ skip_space (skip_space s) = skip_space s ∧
  match skip_space s with [] => True | b :: _ => isspace_byte b = false end.
Proof.
  induction s as [|b s (IH1 & IH2 & IH3 & IH4)]; simpl; [done|]. destruct (isspace_byte b) eqn:E.
  - rewrite filter_cons_False by congruence. split_and!; try done. lia.
  - simpl. rewrite E. done.
Qed.

Lemma skip_space_nil s : skip_space s = [] ↔ filter (λ b, isspace_byte b = false) s = [].
Proof.
  destruct (skip_space_ok s) as (<- & _ & _ & Hh). destruct (skip_space s) as [|b l]; [done|].
  rewrite filter_cons_True by done. done.
Qed.

Lemma cons_decide (x y : Z) (k l : list Z) :
  (if bool_decide (x = y) then bool_decide (k = l) else false) = bool_decide (x :: k = y :: l).
Proof. repeat case_bool_decide; congruence. Qed.

Lemma blanks_loop_ok opts fuel a b : o_ignore_blanks opts = true → length a ≤ fuel →
  blanks_loop fuel (o_ignore_case opts) a b = Some (bool_decide (line_key opts a = line_key opts b)).
Proof.
  intros Hb. assert (∀ l, line_key opts l = let k := filter (λ b, isspace_byte b = false) l in
    if o_ignore_case opts then map tolower k else k) as Hk. { intros l. unfold line_key. by rewrite Hb. }
  assert (∀ a b, skip_space a = [] ∨ skip_space b = [] →
    Some (bool_decide (skip_space a = [] ∧ skip_space b = [])) = Some (bool_decide (line_key opts a = line_key opts b))) as Hend.
  { intros x y Hor. f_equal. apply bool_decide_ext. rewrite !Hk. rewrite !skip_space_nil in Hor |- *. cbv zeta.
    split; [by intros [-> ->]|]. intros He. destruct (o_ignore_case opts).
    - destruct Hor as [Hor|Hor]; rewrite Hor in He; simpl in He; split; try done; [symmetry in He|]; by apply map_eq_nil in He.
    - destruct Hor as [Hor|Hor]; rewrite Hor in He; by split. }
  revert a b. induction fuel as [|fuel IH]; intros a b Hf; destruct a as [|x0 a0], b as [|y0 b0];
    try (apply Hend; by auto); [simpl in Hf; lia|].
  cbn [blanks_loop]. destruct (skip_space_ok (x0 :: a0)) as (Ha & Hla & Hia & Hha), (skip_space_ok (y0 :: b0)) as (Hb' & _ & Hib & Hhb).
  destruct (skip_space (x0 :: a0)) as [|x a] eqn:Ea, (skip_space (y0 :: b0)) as [|y b] eqn:Eb; rewrite ?Hia, ?Hib.
  1-3: rewrite <- (Hend (x0 :: a0) (y0 :: b0)) by (rewrite Ea, Eb; by auto); by rewrite Ea, Eb.
  rewrite !Hk, <- Ha, <- Hb'. rewrite !filter_cons_True by done. simpl in Hla, Hf.
  specialize (IH a b ltac:(lia)). rewrite !Hk in IH. unfold same_char. simpl. destruct (o_ignore_case opts); cbv zeta in IH |- *.
  all: rewrite IH; simpl; rewrite <- cons_decide; by case_match.
Qed.

Lemma case_loop_ok a b : length a = length b → case_loop a b = bool_decide (map tolower a = map tolower b).
Proof.
  revert b. induction a as [|x a IH]; intros [|y b] Hl; simpl in *; try done; try lia.
  by rewrite IH, cons_decide by lia.
Qed.

(** Two lines are equal when what is compared of them is, under all options. *)
Lemma lines_equal_ok opts a b :
  lines_equal opts a b = Some (bool_decide (line_key opts a = line_key opts b)).
Proof.
  unfold lines_equal. destruct (o_ignore_blanks opts) eqn:Hb; [by apply blanks_loop_ok|].
  unfold line_key. rewrite Hb. cbv zeta. destruct (o_ignore_case opts); f_equal; case_decide as Hl.
  - by apply case_loop_ok.
  - rewrite bool_decide_eq_false_2; [done|]. intros H%(f_equal length). rewrite !length_map in H. done.
  - done.
  - rewrite bool_decide_eq_false_2; [done|]. congruence.
Qed.

(** ** Longest common subsequences *)

Section lcs.
Context (E : nat → nat → bool).

(** The length of the longest one of the first [i] and the first [j] lines. *)
Fixpoint lcs (i : nat) : nat → nat :=
  match i with
  | O => λ _, O
  | S i' =>
      fix row (j : nat) : nat :=
        match j with
        | O => O
        | S j' => if E i' j' then S (lcs i' j') else Nat.max (lcs i' j) (row j')
        end
  end.

Lemma lcs_S i j : lcs (S i) (S j) = if E i j then S (lcs i j) else Nat.max (lcs i (S j)) (lcs (S i) j).
Proof. done. Qed.
Lemma lcs_0 i : lcs i 0 = 0.
Proof. by destruct i. Qed.

Lemma lcs_step i j :
  lcs i j ≤ lcs i (S j) ≤ S (lcs i j) ∧ lcs i j ≤ lcs (S i) j ≤ S (lcs i j).
Proof.
  revert j. induction i as [|i IHi]; intros j; induction j as [|j IHj].
  - rewrite !lcs_0. simpl. lia.
  - rewrite (lcs_S 0 j). change (lcs 0) with (λ _ : nat, 0) in *. simpl in IHj |- *. destruct (E 0 j); lia.
  - rewrite (lcs_S i 0), !lcs_0. destruct (IHi 0) as [? _]. rewrite lcs_0 in *. destruct (E i 0); lia.
  - pose proof (IHi (S j)). pose proof (lcs_S i (S j)). pose proof (lcs_S (S i) j). pose proof (lcs_S i j).
    destruct (E i (S j)), (E (S i) j); lia.
Qed.

Lemma lcs_mono i j i' j' : i ≤ i' → j ≤ j' → lcs i j ≤ lcs i' j'.
Proof.
  intros Hi Hj. transitivity (lcs i j').
  - induction Hj as [|j' _ IH]; [done|]. destruct (lcs_step i j'). lia.
  - clear Hj j. induction Hi as [|i' _ IH]; [done|]. destruct (lcs_step i' j'). lia.
Qed.

(** A common subsequence, as the pairs of positions of its lines, last one first. *)
Fixpoint common (i j : nat) (ps : list (nat * nat)) : Prop :=
  match ps with
  | [] => True
  | (x, y) :: ps => x < i ∧ y < j ∧ E x y = true ∧ common x y ps
  end.

Lemma lcs_longest i j ps : common i j ps → length ps ≤ lcs i j.
Proof.
  revert i j. induction ps as [|[x y] ps IH]; intros i j; simpl; [lia|].
  intros (Hx & Hy & He & Hc). apply IH in Hc. pose proof (lcs_S x y) as HS. rewrite He in HS.
  pose proof (lcs_mono (S x) (S y) i j Hx Hy). lia.
Qed.

(** The cell of the table. *)
Definition cell_value (i j : nat) : lcs_cell :=
  match i, j with
  | O, O => mkCell 0 0 0
  | O, S _ => mkCell 0 0 1
  | S _, O => mkCell 0 1 0
  | S i', S j' =>
      if E i' j' then mkCell (Z.of_nat (lcs i j)) 0 0
      else if decide (lcs i j' ≤ lcs i' j) then mkCell (Z.of_nat (lcs i j)) 1 0
      else mkCell (Z.of_nat (lcs i j)) 0 1
  end.
Lemma cell_value_S i j : cell_value (S i) (S j) =
  if E i j then mkCell (Z.of_nat (lcs (S i) (S j))) 0 0
  else if decide (lcs (S i) j ≤ lcs i (S j)) then mkCell (Z.of_nat (lcs (S i) (S j))) 1 0
  else mkCell (Z.of_nat (lcs (S i) (S j))) 0 1.
Proof. done. Qed.
Lemma cell_diag i j : diag (cell_value i j) = Z.of_nat (lcs i j).
Proof. destruct i, j; simpl; try done. destruct (E i j); [done|]. by case_decide. Qed.
End lcs.
#[local] Arguments cell_value : simpl never.

(** ** The table *)

Section table.
Context (opts : diffopts) (old new : difffile).
#[local] Abbreviation n := (length old).
#[local] Abbreviation m := (length new).
#[local] Abbreviation idx := (idx new).

(** Whether line [i] of the one and line [j] of the other are equal. *)
Definition same_at (i j : nat) : bool :=
  match old !! i, new !! j with
  | Some x, Some y => bool_decide (line_key opts x = line_key opts y)
  | _, _ => false
  end.

Lemma equal_before_ok i j : i ≤ n → j ≤ m →
  equal_before opts old new i j = Some (match i, j with S i, S j => same_at i j | _, _ => false end).
Proof.
  intros Hi Hj. destruct i as [|i], j as [|j]; try done. simpl. unfold line_at, same_at.
  rewrite !decide_False by lia. destruct (lookup_lt_is_Some_2 old i) as [x ->]; [lia|].
  destruct (lookup_lt_is_Some_2 new j) as [y ->]; [lia|]. simpl. apply lines_equal_ok.
Qed.

Definition table_ok (K : nat) (c : list lcs_cell) : Prop :=
  length c = (n + 1) * (m + 1) ∧
  ∀ i j, i ≤ n → j ≤ m → c !! idx i j = Some (if decide (idx i j < K) then cell_value same_at i j else mkCell 0 0 0).

Lemma idx_lt i j : i ≤ n → j ≤ m → idx i j < (n + 1) * (m + 1).
Proof. unfold Diff.idx. nia. Qed.
Lemma idx_inj i j i' j' : j ≤ m → j' ≤ m → idx i j = idx i' j' → i = i' ∧ j = j'.
Proof. unfold Diff.idx. intros. assert (i = i') by nia. subst. lia. Qed.

Lemma table_set i j c : i ≤ n → j ≤ m → table_ok (idx i j) c →
  ∃ c', put c (idx i j) (cell_value same_at i j) = Some c' ∧ table_ok (S (idx i j)) c'.
Proof.
  intros Hi Hj [Hl Hc]. pose proof (idx_lt i j Hi Hj). rewrite put_ok by lia. eexists. split; [done|].
  split; [by rewrite length_insert|]. intros i' j' Hi' Hj'.
  destruct (decide (idx i' j' = idx i j)) as [Heq|Hne].
  - destruct (idx_inj i' j' i j Hj' Hj Heq) as [-> ->]. rewrite list_lookup_insert_eq by lia. by rewrite decide_True by lia.
  - rewrite list_lookup_insert_ne, Hc by done. do 2 f_equal. apply decide_ext. lia.
Qed.

Lemma table_get K c i j : table_ok K c → i ≤ n → j ≤ m → idx i j < K → c !! idx i j = Some (cell_value same_at i j).
Proof. intros [_ Hc] Hi Hj Hk. by rewrite Hc, decide_True by done. Qed.

Lemma fill_cell_ok c i j : i ≤ n → j ≤ m → table_ok (idx i j) c →
  ∃ c', fill_cell opts old new c i j = Some c' ∧ table_ok (S (idx i j)) c'.
Proof.
  intros Hi Hj Hc. pose proof (table_set i j c Hi Hj Hc) as Hset. unfold fill_cell.
  assert (∀ i' j', i' ≤ n → j' ≤ m → idx i' j' < idx i j → c !! idx i' j' = Some (cell_value same_at i' j')) as Hget.
  { intros. by eapply table_get. }
  destruct (decide (i = 0 ∧ j = 0)) as [[-> ->]|Hne].
  { destruct Hc as [_ Hc]. rewrite (Hc 0 0), decide_False by lia. apply Hset. }
  rewrite equal_before_ok by done. cbn [mbind option_bind].
  destruct i as [|i], j as [|j]; [naive_solver|..]; cbn [goes_up]; simpl.
  - rewrite Hget by (unfold Diff.idx; lia). simpl. rewrite cell_diag. apply Hset.
  - rewrite Nat.sub_0_r, Hget by (unfold Diff.idx; lia). simpl. rewrite cell_diag, lcs_0. apply Hset.
  - rewrite !Nat.sub_0_r. rewrite cell_value_S, lcs_S in Hset.
    assert (idx i j < idx (S i) (S j) ∧ idx i (S j) < idx (S i) (S j) ∧ idx (S i) j < idx (S i) (S j)) as (H1 & H2 & H3)
      by (unfold Diff.idx; lia).
    destruct (same_at i j); [rewrite Hget by lia|]; simpl.
    + rewrite cell_diag. replace (Z.of_nat (lcs same_at i j) + 1)%Z with (Z.of_nat (S (lcs same_at i j))) by lia. apply Hset.
    + rewrite !Hget by lia. simpl. rewrite !cell_diag.
      destruct (decide (lcs same_at (S i) j ≤ lcs same_at i (S j))) as [Hle|Hle].
      * rewrite bool_decide_eq_true_2 by lia. rewrite ?cell_diag.
        rewrite Nat.max_l in Hset by done. apply Hset.
      * rewrite bool_decide_eq_false_2 by lia. rewrite ?cell_diag.
        rewrite Nat.max_r in Hset by lia. apply Hset.
Qed.

Lemma fill_row_ok c i j k : i ≤ n → j + k = m + 1 → table_ok (idx i j) c →
  ∃ c', fill_row opts old new c i (seq j k) = Some c' ∧ table_ok (idx (S i) 0) c'.
Proof.
  intros Hi. revert c j. induction k as [|k IH]; intros c j Hjk Hc; simpl.
  - exists c. split; [done|]. replace (idx (S i) 0) with (idx i j) by (unfold Diff.idx; lia). done.
  - destruct (fill_cell_ok c i j Hi ltac:(lia) Hc) as (c' & -> & Hc'). simpl. apply IH; [lia|].
    replace (idx i (S j)) with (S (idx i j)) by (unfold Diff.idx; lia). done.
Qed.

Lemma fill_rows_ok c i k : i + k = n + 1 → table_ok (idx i 0) c →
  ∃ c', fill_rows opts old new c (seq i k) = Some c' ∧ table_ok (idx (n + 1) 0) c'.
Proof.
  revert c i. induction k as [|k IH]; intros c i Hik Hc; cbn [seq fill_rows].
  - exists c. split; [done|]. by replace (n + 1) with i by lia.
  - destruct (fill_row_ok c i 0 (m + 1) ltac:(lia) ltac:(lia) Hc) as (c' & -> & Hc'). simpl. apply IH; [lia|done].
Qed.

Lemma fill_table_ok : ∃ c, fill_table opts old new = Some c ∧
  ∀ i j, i ≤ n → j ≤ m → c !! idx i j = Some (cell_value same_at i j).
Proof.
  unfold fill_table. destruct (fill_rows_ok (replicate ((n + 1) * (m + 1)) (mkCell 0 0 0)) 0 (n + 1)) as (c & -> & Hc); [lia| |].
  - split; [by rewrite length_replicate|]. intros i j Hi Hj. pose proof (idx_lt i j Hi Hj).
    rewrite lookup_replicate_2 by lia. by rewrite decide_False by (unfold Diff.idx; lia).
  - exists c. split; [done|]. intros i j Hi Hj. eapply table_get; eauto.
    pose proof (idx_lt i j Hi Hj). unfold Diff.idx in *. lia.
Qed.
End table.

(** ** The edit script *)

Inductive op := Keep | Del | Ins.
#[export] Instance op_eq_dec : EqDecision op.
Proof. solve_decision. Defined.
Definition xcode (o : op) : Z := match o with Del => 1 | _ => 0 end.
Definition ycode (o : op) : Z := match o with Ins => 2 | _ => 0 end.
Definition tally (o : op) (s : list op) : nat := length (filter (λ x, x = o) s).

Lemma tally_app o s t : tally o (s ++ t) = tally o s + tally o t.
Proof. unfold tally. by rewrite filter_app, length_app. Qed.
Lemma tally_cons o x s : tally o (x :: s) = (if decide (x = o) then 1 else 0) + tally o s.
Proof. unfold tally. rewrite filter_cons. by case_decide. Qed.

(** ** What hunks are: runs of equal lines around changes *)

Section hunked.
Context (R : line → line → Prop).

(** [gap] tells that a change came just before, so that an equal line comes first. *)
Inductive Hunked : bool → nat → nat → difffile → difffile → list diffhunk → Prop :=
| Hunked_end gap i j a b : Forall2 R a b → Hunked gap i j a b []
| Hunked_hunk gap i j c c' d a rest rest' hs :
    Forall2 R c c' → (gap = true → c ≠ []) → d ++ a ≠ [] →
    Hunked true (i + length c + length d) (j + length c + length a) rest rest' hs →
    Hunked gap i j (c ++ d ++ rest) (c' ++ a ++ rest')
      (mkHunk (mkRange (i + length c) (i + length c + length d))
              (mkRange (j + length c) (j + length c + length a)) :: hs).

Lemma Hunked_keep gap gap' i j x y a b hs : R x y → Hunked gap (S i) (S j) a b hs →
  Hunked gap' i j (x :: a) (y :: b) hs.
Proof.
  intros Hxy H. remember (S i) as i1 eqn:Hi. remember (S j) as j1 eqn:Hj.
  destruct H as [??? a b Hab|??? c c' d a rest rest' hs Hc Hg Hne Hr]; subst.
  - apply Hunked_end. by constructor.
  - replace (S i + length c) with (i + length (x :: c)) in * by (simpl; lia).
    replace (S j + length c) with (j + length (x :: c)) in * by (simpl; lia).
    apply (Hunked_hunk gap' i j (x :: c) (y :: c') d a rest rest' hs); [by constructor|done..].
Qed.

Lemma Hunked_first i j i' j' d a rest rest' hs : i' = i + length d → j' = j + length a → d ++ a ≠ [] →
  Hunked true i' j' rest rest' hs →
  Hunked false i j (d ++ rest) (a ++ rest') (mkHunk (mkRange i i') (mkRange j j') :: hs).
Proof.
  intros -> -> Hne H. pose proof (Hunked_hunk false i j [] [] d a rest rest' hs) as Hmk.
  simpl in Hmk. rewrite !Nat.add_0_r in Hmk. by apply Hmk.
Qed.
End hunked.

Definition old_lines (hs : list diffhunk) : nat := sum_list (map (λ h, to (h_old h) - from (h_old h)) hs).
Definition new_lines (hs : list diffhunk) : nat := sum_list (map (λ h, to (h_new h) - from (h_new h)) hs).

Section script.
Context (opts : diffopts) (old new : difffile).
#[local] Abbreviation n := (length old).
#[local] Abbreviation m := (length new).
#[local] Abbreviation E := (same_at opts old new).

(** The steps from [i] and [j] to the ends of both files. *)
Inductive Run : nat → nat → list op → Prop :=
| Run_end : Run n m []
| Run_keep i j s : E i j = true → Run (S i) (S j) s → Run i j (Keep :: s)
| Run_del i j s : i < n → Run (S i) j s → Run i j (Del :: s)
| Run_ins i j s : j < m → Run i (S j) s → Run i j (Ins :: s).

Lemma E_true i j : E i j = true → ∃ x y, old !! i = Some x ∧ new !! j = Some y ∧ line_key opts x = line_key opts y.
Proof.
  unfold same_at. destruct (old !! i) as [x|], (new !! j) as [y|]; try done.
  intros H%bool_decide_eq_true. eauto.
Qed.

(** [res] holds the steps to [i] and [j] behind the first [k] ones, in reverse. *)
Definition Back (i j k : nat) (xs ys : list Z) (res : option (nat * list Z * list Z)) : Prop :=
  ∃ s xs' ys', res = Some (k + length s, xs', ys') ∧ (∀ r, Run i j r → Run 0 0 (s ++ r)) ∧
    tally Keep s = lcs E i j ∧
    take (k + length s) xs' = take k xs ++ map xcode (reverse s) ∧
    take (k + length s) ys' = take k ys ++ map ycode (reverse s).

Lemma back_snoc (code : op → Z) o k s xs xs' : k < length xs →
  take (S k + length s) xs' = take (S k) (<[k := code o]> xs) ++ map code (reverse s) →
  take (k + length (s ++ [o])) xs' = take k xs ++ map code (reverse (s ++ [o])).
Proof.
  intros Hk H. rewrite length_app, reverse_snoc. simpl. rewrite Nat.add_comm with (m := 1).
  replace (k + (1 + length s)) with (S k + length s) by lia.
  rewrite H, take_insert_end by done. by rewrite <- app_assoc.
Qed.

Lemma Back_step o i0 j0 i j k xs ys res : (∀ r, Run i j r → Run i0 j0 (o :: r)) →
  lcs E i j = tally Keep [o] + lcs E i0 j0 → k < length xs → k < length ys →
  Back i0 j0 (S k) (<[k := xcode o]> xs) (<[k := ycode o]> ys) res → Back i j k xs ys res.
Proof.
  intros Hr Hl Hx Hy (s & xs' & ys' & -> & Hs & Hk & Hxs & Hys). exists (s ++ [o]), xs', ys'. split_and!.
  - rewrite length_app. simpl. do 3 f_equal. lia.
  - intros r H%Hr%Hs. by rewrite <- app_assoc.
  - rewrite tally_app. lia.
  - by apply back_snoc.
  - by apply back_snoc.
Qed.

Lemma backtrack_ok c : (∀ i j, i ≤ n → j ≤ m → c !! idx new i j = Some (cell_value E i j)) →
  ∀ fuel i j k xs ys, i ≤ n → j ≤ m → i + j ≤ fuel → k + i + j ≤ length xs → k + i + j ≤ length ys →
  Back i j k xs ys (backtrack opts old new fuel c i j k xs ys).
Proof.
  intros Hc. induction fuel as [|fuel IH]; intros i j k xs ys Hi Hj Hf Hx Hy;
    (destruct (decide (i = 0 ∧ j = 0)) as [[-> ->]|Hne];
     [exists [], xs, ys; split_and!; try done; [simpl; by rewrite Nat.add_0_r|simpl; by rewrite Nat.add_0_r, app_nil_r..]|]);
    [lia|].
  cbn [backtrack]. rewrite decide_False by done. rewrite equal_before_ok by done. cbn [base.mbind option_bind].
  assert ((∀ v, put xs k v = Some (<[k := v]> xs)) ∧ (∀ v, put ys k v = Some (<[k := v]> ys))) as [Hpx Hpy].
  { split; intros v; apply put_ok; lia. }
  destruct i as [|i], j as [|j]; [naive_solver|..].
  - simpl. rewrite Hpx; simpl; rewrite Hpy; simpl. apply (Back_step Ins 0 j); try lia; try done.
    + intros r. by apply Run_ins.
    + apply IH; rewrite ?length_insert; lia.
  - rewrite Hc by lia. simpl. rewrite Hpx; simpl; rewrite Hpy; simpl. apply (Back_step Del i 0); try lia.
    + intros r. by apply Run_del.
    + by rewrite !lcs_0.
    + rewrite Nat.sub_0_r. apply IH; rewrite ?length_insert; lia.
  - rewrite Hc by lia. rewrite cell_value_S. pose proof (lcs_S E i j) as HS. destruct (E i j) eqn:He.
    + rewrite Hpx; simpl; rewrite Hpy; simpl. rewrite !Nat.sub_0_r. apply (Back_step Keep i j); try lia; [|done|].
      * intros r. by apply Run_keep.
      * apply IH; rewrite ?length_insert; lia.
    + destruct (decide (lcs E (S i) j ≤ lcs E i (S j))) as [Hle|Hle]; simpl.
      * rewrite Hpx; simpl; rewrite Hpy; simpl. rewrite Nat.sub_0_r. apply (Back_step Del i (S j)); try lia.
        -- intros r. by apply Run_del.
        -- rewrite HS. change (tally Keep [Del]) with 0. lia.
        -- apply IH; rewrite ?length_insert; lia.
      * rewrite Hpx; simpl; rewrite Hpy; simpl. apply (Back_step Ins (S i) j); try lia.
        -- intros r. by apply Run_ins.
        -- rewrite HS. change (tally Keep [Ins]) with 0. lia.
        -- apply IH; rewrite ?length_insert; lia.
Qed.

(** ** From the script to the hunks *)

Definition equal_lines (x y : line) : Prop := line_key opts x = line_key opts y.
(** No change comes next. *)
Definition calm (r : list op) : Prop := match r with [] | Keep :: _ => True | _ => False end.

Lemma Run_nil i j : Run i j [] → i = n ∧ j = m.
Proof. by inversion 1. Qed.

Lemma Run_edits i j e r : Forall (λ o, o ≠ Keep) e → i ≤ n → j ≤ m → Run i j (e ++ r) →
  Run (i + tally Del e) (j + tally Ins e) r ∧ i + tally Del e ≤ n ∧ j + tally Ins e ≤ m.
Proof.
  intros He. revert i j. induction He as [|o e Ho He IH]; intros i j Hi Hj Hr; simpl in *.
  { change (tally _ []) with 0. rewrite !Nat.add_0_r. done. }
  inversion Hr as [|? ? ? Hk|? ? ? Hl Hr'|? ? ? Hl Hr']; subst; [done|..].
  - apply IH in Hr'; [|lia..]. rewrite !tally_cons. simpl. rewrite <- !plus_n_Sm in *. simpl in Hr'. done.
  - apply IH in Hr'; [|lia..]. rewrite !tally_cons. simpl. rewrite <- !plus_n_Sm in *. simpl in Hr'. done.
Qed.

Lemma code_at total (code : op → Z) zs p o r : total = p ++ o :: r →
  take (length total) zs = map code (reverse total) → zs !! length r = Some (code o).
Proof.
  intros -> Hz. rewrite <- (lookup_take_lt zs (length (p ++ o :: r))) by (rewrite length_app; simpl; lia).
  rewrite Hz, reverse_app, reverse_cons, map_app, map_app. rewrite lookup_app_l by (rewrite length_app, !length_map, length_reverse; simpl; lia).
  rewrite lookup_app_r by (rewrite length_map, length_reverse; lia).
  by rewrite length_map, length_reverse, Nat.sub_diag.
Qed.

Lemma drop_edit {A} (l : list A) i k : i + k ≤ length l →
  drop i l = take k (drop i l) ++ drop (i + k) l ∧ length (take k (drop i l)) = k.
Proof.
  intros H. split; [by rewrite <- drop_drop, take_drop|]. rewrite length_take, length_drop. lia.
Qed.

Section collect.
Context (total : list op) (xs ys : list Z).
Hypothesis Hxs : take (length total) xs = map xcode (reverse total).
Hypothesis Hys : take (length total) ys = map ycode (reverse total).

Lemma op_at_ok p o r : total = p ++ o :: r →
  op_at xs ys (length r) = Some (xcode o, ycode o, match o with Keep => 0 | Del => 1 | Ins => 2 end)%Z.
Proof using Hxs Hys.
  intros Ht. unfold op_at. rewrite (code_at total xcode xs p o r Ht Hxs), (code_at total ycode ys p o r Ht Hys). by destruct o.
Qed.

Lemma hunk_end_ok p r h v : total = p ++ r → ∃ e r', r = e ++ r' ∧ Forall (λ o, o ≠ Keep) e ∧ calm r' ∧
  hunk_end (length r) xs ys h v = Some (length r', h + tally Del e, v + tally Ins e).
Proof using Hxs Hys.
  revert p h v. induction r as [|o r IH]; intros p h v Ht; cbn [length hunk_end].
  { exists [], []. split_and!; try done. change (tally _ []) with 0. by rewrite !Nat.add_0_r. }
  rewrite (op_at_ok p o r Ht). cbn [base.mbind option_bind].
  destruct (decide (o = Keep)) as [->|Hk].
  { exists [], (Keep :: r). split_and!; try done. change (tally _ []) with 0. by rewrite !Nat.add_0_r. }
  rewrite decide_False by (by destruct o).
  destruct (IH (p ++ [o]) (if decide (xcode o = 1%Z) then S h else h) (if decide (ycode o = 2%Z) then S v else v))
    as (e & r' & -> & He & Hr' & ->); [by rewrite <- app_assoc|].
  exists (o :: e), r'. split_and!; try done; [by constructor|]. rewrite !tally_cons. do 2 f_equal; [f_equal|]; destruct o; simpl; lia.
Qed.

Lemma collect_ok fuel p r i j v : total = p ++ r → length r ≤ fuel → i ≤ n → j ≤ m → Run i j r →
  ∃ hs, collect fuel (length r) xs ys i j v = Some (v ++ hs) ∧
    (∀ gap, (gap = true → calm r) → Hunked equal_lines gap i j (drop i old) (drop j new) hs) ∧
    tally Keep r + old_lines hs = n - i ∧ tally Keep r + new_lines hs = m - j.
Proof using Hxs Hys.
  revert p r i j v. induction fuel as [|fuel IH]; intros p r i j v Ht Hf Hi Hj Hr; (destruct r as [|o r];
    [destruct (Run_nil i j Hr) as [-> ->]; exists []; rewrite app_nil_r, !Nat.sub_diag, !drop_all;
     split_and!; try done; intros gap _; by apply Hunked_end, Forall2_nil|]).
  { simpl in Hf. lia. }
  cbn [length collect]. rewrite (op_at_ok p o r Ht). cbn [base.mbind option_bind].
  destruct (decide (o = Keep)) as [->|Hk].
  - rewrite decide_True by done. inversion Hr as [|? ? ? He Hr'| |]; subst.
    destruct (E_true i j He) as (x & y & Hx & Hy & Hxy).
    pose proof (lookup_lt_Some _ _ _ Hx). pose proof (lookup_lt_Some _ _ _ Hy).
    destruct (IH (p ++ [Keep]) r (S i) (S j) v) as (hs & -> & HH & Ho & Hn); try done; [by rewrite <- app_assoc|simpl in Hf; lia..|].
    exists hs. split; [done|]. rewrite tally_cons. split_and!.
    + intros gap _. rewrite (drop_S old x i), (drop_S new y j) by done. eapply Hunked_keep; [done|]. by apply (HH false).
    + simpl. lia.
    + simpl. lia.
  - rewrite decide_False by (by destruct o).
    destruct (hunk_end_ok p (o :: r) i j Ht) as (e & r' & Hor & He & Hcalm & Hend). cbn [length] in Hend. rewrite Hend. cbn [base.mbind option_bind].
    assert (e ≠ []) as Hne. { intros ->. simpl in Hor. subst r'. by destruct o. }
    rewrite Hor in Hr, Ht. destruct (Run_edits i j e r' He Hi Hj Hr) as (Hr' & Hin & Hjm).
    assert (length e + length r' = S (length r)) as Hlen by (rewrite <- length_app, <- Hor; done).
    destruct (IH (p ++ e) r' (i + tally Del e) (j + tally Ins e) (v ++ [mkHunk (mkRange i (i + tally Del e)) (mkRange j (j + tally Ins e))]))
      as (hs & -> & HH & Ho & Hn); try done.
    { by rewrite <- app_assoc. } { destruct e; [done|]. simpl in *. lia. }
    eexists (_ :: hs). rewrite <- app_assoc. split; [done|].
    assert (tally Keep e = 0) as HK.
    { unfold tally. clear -He. induction He as [|x e Hx He IH]; [done|]. by rewrite filter_cons_False. }
    assert (tally Del e + tally Ins e ≠ 0) as HDI.
    { destruct e as [|x e]; [done|]. apply Forall_cons in He as [Hx _]. rewrite !tally_cons. destruct x; [done|simpl; lia..]. }
    destruct (drop_edit old i (tally Del e) Hin) as [Hd Hdl], (drop_edit new j (tally Ins e) Hjm) as [Ha Hal].
    rewrite Hor, tally_app, HK. split_and!; [|unfold old_lines in *; simpl; lia|unfold new_lines in *; simpl; lia].
    intros gap Hgap.
    assert (gap = false) as ->. { destruct gap; [|done]. specialize (Hgap eq_refl). destruct e as [|x e]; [done|]. apply Forall_cons in He as [Hx _]. by destruct x. }
    rewrite Hd, Ha. apply Hunked_first; [by rewrite Hdl|by rewrite Hal| |by apply HH].
    intros [H1 H2]%app_eq_nil. rewrite H1 in Hdl. rewrite H2 in Hal. simpl in *. lia.
Qed.
End collect.

Lemma diff_hunks_ok : ∃ hs, diff_hunks opts old new = Some hs ∧
  Hunked equal_lines false 0 0 old new hs ∧
  lcs E n m + old_lines hs = n ∧ lcs E n m + new_lines hs = m.
Proof.
  unfold diff_hunks. destruct (decide (n = 0 ∧ m = 0)) as [[Hn Hm]|Hne].
  { exists []. rewrite Hn, Hm. apply nil_length_inv in Hn as ->, Hm as ->.
    split_and!; try done. apply Hunked_end. constructor. }
  destruct (fill_table_ok opts old new) as (c & -> & Hc). cbn [base.mbind option_bind]. set (cap := n + m + 16).
  destruct (backtrack_ok c Hc (n + m) n m 0 (replicate cap 0%Z) (replicate cap 0%Z)) as (s & xs & ys & -> & Hr & Hk & Hx & Hy);
    rewrite ?length_replicate; try (unfold cap; lia).
  simpl in *. rewrite <- Hk.
  destruct (collect_ok s xs ys Hx Hy (length s) [] s 0 0 []) as (hs & -> & HH & Ho & Hn); try done; try lia.
  { rewrite <- (app_nil_r s). apply Hr. constructor. }
  exists hs. split_and!; [done|by apply (HH false)|lia..].
Qed.
End script.

(** ** Applying the differences *)

(** A range of a file and the lines to put in its place. *)
Abbreviation edit := (diffrange * difffile)%type.
(** The lines of [base] from [i] on, with the edits made. *)
Fixpoint apply_edits (base : difffile) (i : nat) (es : list edit) : difffile :=
  match es with
  | [] => drop i base
  | (r, ls) :: es => slice base i (from r) ++ ls ++ apply_edits base (to r) es
  end.
(** The edits that make the old file the new one, and those that take it back. *)
Definition lines_of (f : difffile) (r : diffrange) : difffile := slice f (from r) (to r).
Definition edits_to (new : difffile) (hs : list diffhunk) : list edit :=
  map (λ h, (h_old h, lines_of new (h_new h))) hs.
Definition edits_back (old : difffile) (hs : list diffhunk) : list edit :=
  map (λ h, (h_new h, lines_of old (h_old h))) hs.

Definition swap_hunk (h : diffhunk) : diffhunk := mkHunk (h_new h) (h_old h).
Lemma edits_swap old hs : edits_back old hs = edits_to old (map swap_hunk hs).
Proof. unfold edits_back, edits_to. by rewrite map_map. Qed.

Lemma Hunked_mono (R R' : line → line → Prop) gap i j a b hs : (∀ x y, R x y → R' x y) →
  Hunked R gap i j a b hs → Hunked R' gap i j a b hs.
Proof.
  intros HR. induction 1; constructor; try done; by eapply Forall2_impl.
Qed.

Lemma Hunked_swap R gap i j a b hs : Hunked R gap i j a b hs →
  Hunked (flip R) gap j i b a (map swap_hunk hs).
Proof.
  induction 1 as [??? a b H|??? c c' d a rest rest' hs Hc Hg Hne _ IH].
  - apply Hunked_end. by apply Forall2_flip.
  - pose proof (Forall2_length _ _ _ Hc) as Hl. rewrite Hl in *.
    apply (Hunked_hunk (flip R) gap j i c' c a d rest' rest); [by apply Forall2_flip| | |done].
    + intros Hgap ->. apply Hg; [done|]. by destruct c.
    + intros [-> ->]%app_eq_nil. done.
Qed.

Lemma slice_middle {A} (p c r : list A) i k : length p = i → length c = k → slice (p ++ c ++ r) i (i + k) = c.
Proof.
  intros <- <-. unfold slice. rewrite drop_app_length. replace (length p + length c - length p) with (length c) by lia.
  apply take_app_length.
Qed.

Lemma Hunked_apply (key : line → line) gap i j a b hs : Hunked (λ x y, key x = key y) gap i j a b hs →
  ∀ po pn, length po = i → length pn = j →
  map key (apply_edits (po ++ a) i (edits_to (pn ++ b) hs)) = map key b.
Proof.
  induction 1 as [??? a b H|??? c c' d a rest rest' hs Hc Hg Hne _ IH]; intros po pn Hi Hj; simpl.
  - subst. rewrite drop_app_length. induction H; simpl; congruence.
  - pose proof (Forall2_length _ _ _ Hc) as Hl. unfold lines_of. simpl.
    rewrite (slice_middle po c) by done. rewrite (app_assoc pn c').
    rewrite (slice_middle (pn ++ c') a) by (rewrite ?length_app; lia).
    rewrite !map_app. f_equal; [clear -Hc; induction Hc; simpl; congruence|]. f_equal.
    specialize (IH (po ++ c ++ d) ((pn ++ c') ++ a)). repeat rewrite <- app_assoc in IH. repeat rewrite <- app_assoc. apply IH; rewrite ?length_app; lia.
Qed.

(** C3: diff_compute always returns: no index leaves the table, the two arrays of
    steps or the files, and every loop ends.  Its hunks cut the two files
    into runs of lines that are equal under the options and changes between
    them, in order, with an equal line between any two changes and no change
    empty; and no common subsequence of the two files is longer than the lines
    the hunks leave alone, so the difference is as small as it can be. *)
Theorem diff_minimal old new opts :
  let o := default default_opts opts in
  ∃ hs, diff_compute old new opts = Some hs ∧
    Hunked (equal_lines o) false 0 0 old new hs ∧
    ∀ ps, common (same_at o old new) (length old) (length new) ps →
      length ps + old_lines hs ≤ length old ∧ length ps + new_lines hs ≤ length new.
Proof.
  intros o. destruct (diff_hunks_ok o old new) as (hs & Hd & HH & Ho & Hn).
  exists hs. split_and!; [done|done|]. intros ps Hps%lcs_longest. lia.
Qed.

Lemma diff_patches old new opts hs : diff_compute old new opts = Some hs →
  let key := line_key (default default_opts opts) in
  map key (apply_edits old 0 (edits_to new hs)) = map key new ∧
  map key (apply_edits new 0 (edits_back old hs)) = map key old.
Proof.
  intros Hd key. destruct (diff_hunks_ok (default default_opts opts) old new) as (hs' & Hd' & HH & _).
  unfold diff_compute in Hd. rewrite Hd' in Hd. injection Hd as <-. split.
  - by apply (Hunked_apply key false 0 0 old new hs' HH [] []).
  - rewrite edits_swap. apply (Hunked_apply key false 0 0 new old (map swap_hunk hs')) with (po := []) (pn := []); [|done..].
    apply Hunked_swap in HH. revert HH. generalize (map swap_hunk hs'). unfold key. clear.
    intros l. apply Hunked_mono. intros x y. unfold flip, equal_lines. done.
Qed.

Lemma Hunked_lines R gap i j a b hs : Hunked R gap i j a b hs → hs = [] ∨ 0 < old_lines hs + new_lines hs.
Proof.
  destruct 1 as [|??? c c' d a rest rest' hs _ _ Hne _]; [by left|right]. unfold old_lines, new_lines. simpl.
  destruct d; simpl; [|lia]. destruct a; simpl; [done|lia].
Qed.

Lemma diagonal_common o old new k : map (line_key o) old = map (line_key o) new → k ≤ length old →
  common (same_at o old new) k k (map (λ i, (i, i)) (reverse (seq 0 k))).
Proof.
  intros Hk. induction k as [|k IH]; intros Hl; [done|].
  rewrite seq_S, reverse_snoc. simpl. split_and!; [lia..| |apply IH; lia].
  unfold same_at. pose proof (f_equal (λ l, l !! k) Hk) as Hl'. simpl in Hl'. rewrite !list_lookup_fmap in Hl'.
  destruct (lookup_lt_is_Some_2 old k) as [x Hx]; [lia|]. rewrite Hx in Hl' |- *. simpl in Hl'.
  destruct (new !! k) as [y|]; simpl in Hl'; [|done]. rewrite bool_decide_eq_true. congruence.
Qed.

(** There is nothing to report exactly when the files are equal under the options. *)
Theorem diff_none_iff old new opts :
  let key := line_key (default default_opts opts) in
  diff_compute old new opts = Some [] ↔ map key old = map key new.
Proof.
  intros key. split.
  - intros Hd. by destruct (diff_patches old new opts [] Hd) as [Ha _].
  - intros Hk. destruct (diff_hunks_ok (default default_opts opts) old new) as (hs & Hd & HH & Ho & Hn).
    unfold diff_compute. rewrite Hd. f_equal.
    pose proof (diagonal_common _ old new (length old) Hk (Nat.le_refl _)) as Hc.
    pose proof (f_equal length Hk) as Hl. rewrite !length_map in Hl. rewrite Hl in Hc at 2.
    apply lcs_longest in Hc. rewrite length_map, length_reverse, length_seq in Hc.
    destruct (Hunked_lines _ _ _ _ _ _ _ HH) as [|?]; [done|lia].
Qed.

(** C18: Two files are loaded and compared byte for byte, and the changes put into
    the lines of the first give the second file, up to a newline missing at its
    end; the changes undone in the second give the first. *)
Theorem diff_patch_roundtrip data1 data2 :
  ∃ old new hs, split_lines data1 = Some old ∧ split_lines data2 = Some new ∧
    diff_compute old new None = Some hs ∧
    join_lines (apply_edits old 0 (edits_to new hs)) = data2 ++ final_newline data2 ∧
    join_lines (apply_edits new 0 (edits_back old hs)) = data1 ++ final_newline data1.
Proof.
  destruct (split_lines_join data1) as (old & H1 & _ & <-), (split_lines_join data2) as (new & H2 & _ & <-).
  destruct (diff_hunks_ok default_opts old new) as (hs & Hd & _).
  exists old, new, hs. destruct (diff_patches old new None hs Hd) as [Ha Hb].
  change (line_key (default default_opts None)) with (λ l : line, l) in Ha, Hb. rewrite !map_id in Ha, Hb.
  split_and!; try done; by f_equal.
Qed.
