(* ===== verification/Diff3.v ===== *)
(** * diff3: src/cmd/pseudo/diff3.c

    The three-way comparison on top of [Diff]: the hunks of file 1 against file 2
    and of file 2 against file 3 are merged into one list, which is printed as
    a report, as an ed script or as merged text.  Regions are pairs of [size_t]
    and their arithmetic wraps; an access outside an array is [None].  Options
    that are read but not used (-a, -T) are kept.  Errors of writing are left
    out. *)

From stdpp Require Import gmap strings pretty.
From S2P Require Import Prelude CString StrList Args Stdio Diff.

Local Open Scope Z_scope.

Record region := mkRegion { r_from : Z; r_to : Z }.
Record pair_hunk := mkPair { p_old : region; p_new : region }.
Inductive hunk_kind := HUNK_NONE | HUNK_TYPE1 | HUNK_TYPE2 | HUNK_TYPE3.
#[export] Instance hunk_kind_eq_dec : EqDecision hunk_kind.
Proof. solve_decision. Defined.

Record three_hunk := mkThree {
  t_kind : hunk_kind;
  t_r1 : region;
  t_r2 : region;
  t_r3 : region;
  t_dup : bool
}.

(** A [size_t] *)
Definition wrap (z : Z) : Z := z mod 2 ^ 64.

Definition convert_range (r : diffrange) : region := mkRegion (Z.of_nat (from r)) (Z.of_nat (to r)).
Definition convert_hunks (v : list diffhunk) : list pair_hunk :=
  map (λ h, mkPair (convert_range (h_old h)) (convert_range (h_new h))) v.

(** [f->lines[i]] *)
Definition line3 (f : difffile) (i : Z) : option line :=
  if decide (0 ≤ i ≤ Z.of_nat (length f)) then line_at f (Z.to_nat i) else None.

(** ** region_same *)

(** The loop from [i] on, on regions of [len] lines.  An access fails before the
    fuel, two more than the lines of a file, is spent. *)
Fixpoint same_loop (fuel : nat) (a b : difffile) (ra rb : region) (i len : Z) : option bool :=
  if decide (i < len) then
    match fuel with
    | O => None
    | S fuel =>
        x ← line3 a (wrap (r_from ra + i));
        y ← line3 b (wrap (r_from rb + i));
        if decide (length x ≠ length y) then Some false
        else if decide (x ≠ y) then Some false
        else same_loop fuel a b ra rb (i + 1) len
    end
  else Some true.
Definition region_same (a : difffile) (ra : region) (b : difffile) (rb : region) : option bool :=
  if decide (wrap (r_to ra - r_from ra) ≠ wrap (r_to rb - r_from rb)) then Some false
  else same_loop (length a + 2) a b ra rb 0 (wrap (r_to ra - r_from ra)).

(** ** merge_hunks *)

(** The array of results: its capacity and the hunks stored.  It is doubled when
    one place is left. *)
Definition push (st : nat * list three_hunk) (h : three_hunk) : option (nat * list three_hunk) :=
  let '(cap, hs) := st in
  let k := length hs in
  let cap := if decide (cap ≤ k + 1)%nat then (cap * 2)%nat else cap in
  if decide (k < cap)%nat then Some (cap, hs ++ [h]) else None.

(** The hunk of an overlap. *)
Definition overlap (f1 f3 : difffile) (a b : pair_hunk) : option three_hunk :=
  let '(mkRegion a1 a2) := p_new a in
  let '(mkRegion b1 b2) := p_old b in
  let r2 := mkRegion (if decide (a1 < b1) then a1 else b1) (if decide (a2 > b2) then a2 else b2) in
  let extra_pre := if decide (a1 > b1) then a1 - b1 else b1 - a1 in
  let extra_post := if decide (a2 > b2) then a2 - b2 else b2 - a2 in
  let r1 :=
    if decide (a1 >= b1) then
      mkRegion (wrap (r_from (p_old a) - extra_pre)) (wrap (r_to (p_old a) + extra_post))
    else mkRegion (r_from (p_old a)) (wrap (r_to (p_old a) + (extra_pre + extra_post))) in
  let r3 :=
    if decide (b1 >= a1) then
      mkRegion (wrap (r_from (p_new b) - extra_pre)) (wrap (r_to (p_new b) + extra_post))
    else mkRegion (r_from (p_new b)) (wrap (r_to (p_new b) + (extra_pre + extra_post))) in
  dup ← region_same f1 r1 f3 r3;
  Some (mkThree HUNK_TYPE3 r1 r2 r3 dup).

Definition type1 (a : pair_hunk) : three_hunk := mkThree HUNK_TYPE1 (p_old a) (p_new a) (p_new a) false.
Definition type2 (b : pair_hunk) : three_hunk := mkThree HUNK_TYPE2 (p_old b) (p_old b) (p_new b) false.

Section merge.
Context (f1 f3 : difffile) (d13 d23 : list pair_hunk).

Fixpoint merge_loop (fuel i j : nat) (st : nat * list three_hunk) : option (nat * list three_hunk) :=
  if decide (i < length d13 ∨ j < length d23)%nat then
    match fuel with
    | O => None
    | S fuel =>
        let a := d13 !! i in
        let b := d23 !! j in
        let a1 := default 0 ((λ h, r_from (p_new h)) <$> a) in
        let a2 := default 0 ((λ h, r_to (p_new h)) <$> a) in
        let b1 := default 0 ((λ h, r_from (p_old h)) <$> b) in
        let b2 := default 0 ((λ h, r_to (p_old h)) <$> b) in
        if decide (is_Some a ∧ (b = None ∨ a2 ≤ b1)) then
          h ← a; st ← push st (type1 h); merge_loop fuel (S i) j st
        else if decide (is_Some b ∧ (a = None ∨ b2 < a1)) then
          h ← b; st ← push st (type2 h); merge_loop fuel i (S j) st
        else
          ha ← a; hb ← b; h ← overlap f1 f3 ha hb;
          st ← push st h; merge_loop fuel (S i) (S j) st
    end
  else Some st.
Definition merge_hunks : option (list three_hunk) :=
  snd <$> merge_loop (length d13 + length d23) 0 0 (length d13 + length d23 + 4, [])%nat.
End merge.

(** ** Printing *)

Fixpoint lines_loop (fuel : nat) (f : difffile) (i t : Z) : option (list Z) :=
  if decide (i < t) then
    match fuel with
    | O => None
    | S fuel => l ← line3 f i; rest ← lines_loop fuel f (i + 1) t; Some (l ++ [NLB] ++ rest)
    end
  else Some [].
(** [print_lines]; the fuel is spent only behind an access that fails. *)
Definition print_region (f : difffile) (f0 t : Z) : option (list Z) := lines_loop (length f + 2) f f0 t.

Definition zuz (z : Z) : list Z := zu (Z.to_N z).

Definition print_range_cmd (f t : Z) (op : cstr) : list Z :=
  if decide (t ≤ f) then zuz f ++ txt "a" ++ [NLB]
  else zuz (wrap (f + 1)) ++ (if decide (t - f > 1) then txt "," ++ zuz t else []) ++ txt op ++ [NLB].

(** ["1:%zu"], [",%zu"] when there is more than a line, and the letter *)
Definition range_line (file : cstr) (r : region) (op : cstr) : list Z :=
  txt file ++ zuz (wrap (r_from r + 1)) ++
  (if decide (wrap (r_to r - r_from r) > 1) then txt "," ++ zuz (r_to r) else []) ++ txt op ++ [NLB].

Definition normal3_hunk (f1 f3 : difffile) (h : three_hunk) : option (list Z) :=
  let tag : cstr :=
    match t_kind h with
    | HUNK_TYPE1 => lit "1"
    | HUNK_TYPE2 => lit "2"
    | HUNK_TYPE3 => if t_dup h then lit "3" else []
    | HUNK_NONE => []
    end in
  let head := txt "====" ++ txt tag ++ [NLB] in
  match t_kind h with
  | HUNK_TYPE1 =>
      ls ← print_region f1 (r_from (t_r1 h)) (r_to (t_r1 h));
      Some (head ++ range_line "1:" (t_r1 h) "a" ++ range_line "3:" (t_r3 h) "a" ++ ls)
  | HUNK_TYPE2 =>
      ls ← print_region f3 (r_from (t_r3 h)) (r_to (t_r3 h));
      Some (head ++ range_line "2:" (t_r2 h) "a" ++ range_line "3:" (t_r3 h) "a" ++ ls)
  | _ =>
      l1 ← print_region f1 (r_from (t_r1 h)) (r_to (t_r1 h));
      l3 ← print_region f3 (r_from (t_r3 h)) (r_to (t_r3 h));
      Some (head ++ range_line "1:" (t_r1 h) "c" ++ range_line "2:" (t_r2 h) "c" ++ range_line "3:" (t_r3 h) "c" ++ l1 ++ l3)
  end.
Definition format_normal3 (hs : list three_hunk) (f1 f3 : difffile) : option (list Z) :=
  print_all (normal3_hunk f1 f3) hs.

(** One hunk of the script; the hunks are taken from the last to the first. *)
Definition ed3_hunk (overlap_only show_all : bool) (f2 f3 : difffile) (h : three_hunk) : option (list Z) :=
  let r1 := t_r1 h in
  let r2 := t_r2 h in
  let r3 := t_r3 h in
  let dot := txt "." ++ [NLB] in
  let change3 := ls ← print_region f3 (r_from r3) (r_to r3); Some (print_range_cmd (r_from r2) (r_to r2) "c" ++ ls ++ dot) in
  let change1 := ls ← print_region f2 (r_from r1) (r_to r1); Some (print_range_cmd (r_from r2) (r_to r2) "c" ++ ls ++ dot) in
  match t_kind h with
  | HUNK_TYPE1 =>
      if decide (r_to r1 = r_from r1) then
        ls ← print_region f2 (r_from r2) (r_from r2);
        Some (print_range_cmd (r_from r2) (r_from r2) "a" ++ ls ++ dot)
      else change1
  | HUNK_TYPE2 => change3
  | _ =>
      if t_dup h then change1
      else if overlap_only then Some []
      else if show_all then change3 else Some []
  end.
Definition format_ed3 (hs : list three_hunk) (overlap_only show_all : bool) (f2 f3 : difffile) : option (list Z) :=
  print_all (ed3_hunk overlap_only show_all f2 f3) (reverse hs).

Definition merge_hunk (labels : list cstr) (f1 f2 f3 : difffile) (cursor : Z) (h : three_hunk) : option (list Z) :=
  let name (i : nat) (d : cstr) := default d (labels !! i) in
  before ← print_region f2 cursor (r_from (t_r2 h));
  body ← match t_kind h with
    | HUNK_TYPE1 => print_region f1 (r_from (t_r1 h)) (r_to (t_r1 h))
    | HUNK_TYPE2 => print_region f3 (r_from (t_r3 h)) (r_to (t_r3 h))
    | _ =>
        if t_dup h then print_region f1 (r_from (t_r1 h)) (r_to (t_r1 h))
        else
          l1 ← print_region f1 (r_from (t_r1 h)) (r_to (t_r1 h));
          l2 ← print_region f2 (r_from (t_r2 h)) (r_to (t_r2 h));
          l3 ← print_region f3 (r_from (t_r3 h)) (r_to (t_r3 h));
          Some (txt (lit "<<<<<<< " ++ name 0%nat (lit "file1")) ++ [NLB] ++ l1 ++
                txt (lit "||||||| " ++ name 1%nat (lit "file2")) ++ [NLB] ++ l2 ++
                txt "=======" ++ [NLB] ++ l3 ++
                txt (lit ">>>>>>> " ++ name 2%nat (lit "file3")) ++ [NLB])
    end;
  Some (before ++ body).
Fixpoint merge_from (labels : list cstr) (f1 f2 f3 : difffile) (cursor : Z) (hs : list three_hunk) : option (list Z) :=
  match hs with
  | [] => print_region f2 cursor (Z.of_nat (length f2))
  | h :: hs =>
      o ← merge_hunk labels f1 f2 f3 cursor h;
      rest ← merge_from labels f1 f2 f3 (r_to (t_r2 h)) hs;
      Some (o ++ rest)
  end.
Definition format_merge (labels : list cstr) (hs : list three_hunk) (f1 f2 f3 : difffile) : option (list Z) :=
  merge_from labels f1 f2 f3 0 hs.

(** ** main *)

Record d3flags := mkD3 {
  k_a : bool; k_T : bool; k_e : bool; k_E : bool; k_x : bool; k_X : bool; k_A : bool; k_m : bool; k_i : bool;
  k_labels : list cstr
}.
#[export] Instance eta_d3flags : Eta d3flags := λ k,
  mkD3 (k_a k) (k_T k) (k_e k) (k_E k) (k_x k) (k_X k) (k_A k) (k_m k) (k_i k) (k_labels k).
Definition no_flags : d3flags := mkD3 false false false false false false false false false [].

Definition is_conflict (h : three_hunk) : bool := bool_decide (t_kind h = HUNK_TYPE3) && negb (t_dup h).

(** The part of main between loading and freeing: the exit status and the output. *)
Definition diff3_files (k : d3flags) (f1 f2 f3 : difffile) : option (Z * list Z) :=
  let opts := mkOpts DIFF_NORMAL 3 (k_i k) false false false in
  raw13 ← diff_compute f1 f2 (Some opts);
  raw23 ← diff_compute f2 f3 (Some opts);
  hs ← merge_hunks f1 f3 (convert_hunks raw13) (convert_hunks raw23);
  if decide (length hs = 0%nat) then Some (0, [])
  else if k_m k then
    o ← format_merge (k_labels k) hs f1 f2 f3; Some (if existsb is_conflict hs then 1 else 0, o)
  else if k_e k || k_E k then o ← format_ed3 hs (k_E k && negb (k_e k)) false f2 f3; Some (1, o)
  else if k_x k then o ← format_ed3 hs true false f2 f3; Some (1, o)
  else if k_X k then o ← format_ed3 hs false true f2 f3; Some (1, o)
  else if k_A k then o ← format_ed3 hs false true f2 f3; Some (1, o)
  else o ← format_normal3 hs f1 f3; Some (1, o).

Definition d3_usage {A} (argv0 : cstr) : M io A :=
  eprintf (lit "usage: " ++ argv0 ++ lit " [-3aAeEimTxX] [-L label] file1 file2 file3").
Definition d3_flag (argv0 : cstr) (c : ascii) (k : d3flags) : M io d3flags :=
  if decide (c = "3"%char) then mret (k <| k_A := true |>)
  else if decide (c = "a"%char) then mret (k <| k_a := true |>)
  else if decide (c = "A"%char) then mret (k <| k_A := true |>)
  else if decide (c = "e"%char) then mret (k <| k_e := true |>)
  else if decide (c = "E"%char) then mret (k <| k_E := true |>)
  else if decide (c = "i"%char) then mret (k <| k_i := true |>)
  else if decide (c = "m"%char) then mret (k <| k_m := true |>)
  else if decide (c = "T"%char) then mret (k <| k_T := true |>)
  else if decide (c = "x"%char) then mret (k <| k_x := true |>)
  else if decide (c = "X"%char) then mret (k <| k_X := true |>)
  else d3_usage argv0.
(** -L; the third label is the last. *)
Definition d3_label (argv0 : cstr) (_ : ascii) (a : cstr) (k : d3flags) : M io d3flags :=
  if decide (3 ≤ length (k_labels k))%nat then d3_usage argv0
  else mret (set k_labels (λ l, l ++ [a]) k).

Definition d3_main (argv0 : cstr) (args : StrList) : M io Z :=
  p <- argbegin (λ c, bool_decide (c = "L"%char)) (d3_label argv0) (d3_flag argv0) (d3_usage argv0) args no_flags ;;
  let '(argv, k) := p in
  match argv with
  | [p1; p2; p3] =>
      f1 <- diff_load p1 ;;
      match f1 with
      | None => mret 2
      | Some f1 =>
          f2 <- diff_load p2 ;;
          match f2 with
          | None => mret 2
          | Some f2 =>
              f3 <- diff_load p3 ;;
              match f3 with
              | None => mret 2
              | Some f3 =>
                  r <- deref (diff3_files k f1 f2 f3) ;;
                  let '(ret, o) := r in emit o ;; mret ret
              end
          end
      end
  | _ => d3_usage argv0
  end.
