(* ===== verification/Diff3Facts.v ===== *)
(** * Merging three files

    When the changes of the first and of the third file touch different lines of
    the second, [diff3 -m] prints the second file with both sets of changes and
    exits with 0 ([diff3_merges]).  The examples at the end show what it does
    where they overlap, where there are none, and what the options for ed scripts
    print. *)

From stdpp Require Import gmap strings pretty.
From S2P Require Import Prelude CString StrList Args Stdio Diff DiffFacts Diff3.

Local Open Scope nat_scope.

(** ** Ranges in order *)

Fixpoint chain (i : nat) (rs : list diffrange) (e : nat) : Prop :=
  match rs with
  | [] => i ≤ e
  | r :: rs => i ≤ from r ≤ to r ∧ chain (to r) rs e
  end.

Lemma chain_le i rs e : chain i rs e → i ≤ e.
Proof. revert i. induction rs as [|r rs IH]; intros i; simpl; [done|]. intros [? ?%IH]. lia. Qed.

(** A later start, when the first range allows it. *)
Lemma chain_from i i' rs e : chain i rs e → i' ≤ default e (from <$> head rs) → chain i' rs e.
Proof. destruct rs as [|r rs]; simpl; [done|]. intros [? ?]. naive_solver lia. Qed.

Lemma Hunked_chain R gap i j a b hs : Hunked R gap i j a b hs →
  chain i (map h_old hs) (i + length a) ∧ chain j (map h_new hs) (j + length b).
Proof.
  induction 1 as [??? a b H|??? c c' d a rest rest' hs Hc Hg Hne _ [IH1 IH2]]; simpl; [lia|].
  pose proof (Forall2_length _ _ _ Hc) as Hl.
  rewrite !length_app. split; (split; [lia|]); [revert IH1|revert IH2];
    match goal with |- chain _ _ ?x → chain _ _ ?y => replace y with x by lia end; done.
Qed.

(** ** The hunks of both sides, merged *)

(** The side of file 1 and the side of file 3: what a hunk does to file 2. *)
Definition convert_hunk (h : diffhunk) : pair_hunk := mkPair (convert_range (h_old h)) (convert_range (h_new h)).
Definition side1 (h : diffhunk) : three_hunk := type1 (convert_hunk h).
Definition side3 (h : diffhunk) : three_hunk := type2 (convert_hunk h).

(** No change of the one side meets a change of the other. *)
Definition apart (h1 h2 : list diffhunk) : Prop :=
  ∀ a b, a ∈ h1 → b ∈ h2 → to (h_new a) ≤ from (h_old b) ∨ to (h_old b) < from (h_new a).

(** A change, with the side it comes from. *)
Definition change : Type := diffhunk + diffhunk.
Definition change_range (c : change) : diffrange := match c with inl h => h_new h | inr h => h_old h end.
Definition change_hunk (c : change) : three_hunk := match c with inl h => side1 h | inr h => side3 h end.
Definition from1 (c : change) : option diffhunk := match c with inl h => Some h | inr _ => None end.
Definition from3 (c : change) : option diffhunk := match c with inl _ => None | inr h => Some h end.
Definition change_edit (f1 f3 : difffile) (c : change) : edit :=
  match c with
  | inl h => (h_new h, lines_of f1 (h_old h))
  | inr h => (h_old h, lines_of f3 (h_new h))
  end.

Section merge.
Context (f1 f3 : difffile) (h1 h2 : list diffhunk).

Lemma push_ok cap hs h : length hs + 1 < cap → push (cap, hs) h = Some (cap, hs ++ [h]).
Proof using Type.
  intros H. unfold push. rewrite (decide_False (P := cap ≤ _)) by lia. by rewrite decide_True by lia.
Qed.

Lemma drop_cons {A} (l : list A) i x r : drop i l = x :: r → l !! i = Some x ∧ drop (S i) l = r ∧ i < length l.
Proof using Type.
  intros H. assert (l !! i = Some x) as Hx. { rewrite <- (Nat.add_0_r i), <- lookup_drop, H. done. }
  split; [done|]. split; [|by eapply lookup_lt_Some]. erewrite drop_S in H by done. congruence.
Qed.
Lemma drop_nil {A} (l : list A) i : drop i l = [] → l !! i = None ∧ length l ≤ i.
Proof using Type. intros H%(f_equal length). rewrite length_drop in H. simpl in H. rewrite lookup_ge_None. lia. Qed.

#[local] Abbreviation loop := (merge_loop f1 f3 (convert_hunks h1) (convert_hunks h2)).

Lemma loop_take1 fuel i j a l1 cap hs : drop i h1 = a :: l1 → length hs + 1 < cap →
  (∀ b l2, drop j h2 = b :: l2 → to (h_new a) ≤ from (h_old b)) →
  loop (S fuel) i j (cap, hs) = loop fuel (S i) j (cap, hs ++ [side1 a]).
Proof using Type.
  intros (Ha & _ & Hi)%drop_cons Hcap Hb. cbn [merge_loop]. unfold convert_hunks. rewrite !length_map.
  rewrite decide_True by lia. rewrite !list_lookup_fmap, Ha. cbn [fmap option_fmap option_map].
  rewrite decide_True; [cbn [base.mbind option_bind]; by rewrite push_ok|]. split; [by eexists|].
  destruct (drop j h2) as [|b l2] eqn:E.
  - apply drop_nil in E as [-> _]. by left.
  - specialize (Hb b l2 eq_refl). apply drop_cons in E as (-> & _). right. simpl. lia.
Qed.

Lemma loop_take3 fuel i j b l2 cap hs : drop j h2 = b :: l2 → length hs + 1 < cap →
  (∀ a l1, drop i h1 = a :: l1 → to (h_old b) < from (h_new a) ∧ ¬ to (h_new a) ≤ from (h_old b)) →
  loop (S fuel) i j (cap, hs) = loop fuel i (S j) (cap, hs ++ [side3 b]).
Proof using Type.
  intros (Hb & _ & Hj)%drop_cons Hcap Ha. cbn [merge_loop]. unfold convert_hunks. rewrite !length_map.
  rewrite decide_True by lia. rewrite !list_lookup_fmap, Hb. cbn [fmap option_fmap option_map].
  destruct (drop i h1) as [|a l1] eqn:E.
  - apply drop_nil in E as [-> _]. rewrite decide_False by (intros [[? ?] ?]; done).
    rewrite decide_True; [cbn [base.mbind option_bind]; by rewrite push_ok|]. split; [by eexists|by left].
  - destruct (Ha a l1 eq_refl). apply drop_cons in E as (-> & _). rewrite decide_False by (intros [_ [?|Hx]]; [done|simpl in Hx; lia]).
    rewrite decide_True; [cbn [base.mbind option_bind]; by rewrite push_ok|]. split; [by eexists|]. right. simpl. lia.
Qed.

Lemma merge_loop_ok fuel i j l1 l2 c e cap hs :
  drop i h1 = l1 → drop j h2 = l2 → length l1 + length l2 ≤ fuel → length hs + length l1 + length l2 + 1 ≤ cap →
  chain c (map h_new l1) e → chain c (map h_old l2) e → apart l1 l2 →
  ∃ cs, loop fuel i j (cap, hs) = Some (cap, hs ++ map change_hunk cs) ∧
    omap from1 cs = l1 ∧ omap from3 cs = l2 ∧ chain c (map change_range cs) e.
Proof using Type.
  revert i j l1 l2 c hs. induction fuel as [|fuel IH]; intros i j l1 l2 c hs H1 H2 Hf Hcap Hc1 Hc2 Hap;
    (destruct l1 as [|a l1'] eqn:E1, l2 as [|b l2'] eqn:E2;
     [exists []; apply drop_nil in H1 as [_ ?], H2 as [_ ?]; rewrite app_nil_r; split_and!; try done;
      cbn [merge_loop]; unfold convert_hunks; rewrite !length_map, decide_False by lia; done|..]); try (simpl in Hf; lia).
  all: simpl in Hf, Hcap.
  - rewrite (loop_take3 _ _ _ b l2') by (done || lia || (intros ? ?; congruence)). simpl in Hc2. destruct Hc2 as [? Hc2].
    destruct (IH i (S j) [] l2' (to (h_old b)) (hs ++ [side3 b])) as (cs & -> & <- & <- & Hch); rewrite ?length_app; simpl; try done; try lia.
    + by apply drop_cons in H2 as (_ & ? & _).
    + by apply chain_le in Hc2.
    + intros ? ? []%not_elem_of_nil.
    + exists (inr b :: cs). rewrite <- app_assoc. by split_and!.
  - rewrite (loop_take1 _ _ _ a l1') by (done || lia || (intros ? ?; congruence)). simpl in Hc1. destruct Hc1 as [? Hc1].
    destruct (IH (S i) j l1' [] (to (h_new a)) (hs ++ [side1 a])) as (cs & -> & <- & <- & Hch); rewrite ?length_app; simpl; try done; try lia.
    + by apply drop_cons in H1 as (_ & ? & _).
    + by apply chain_le in Hc1.
    + intros ? ? _ []%not_elem_of_nil.
    + exists (inl a :: cs). rewrite <- app_assoc. by split_and!.
  - destruct (decide (to (h_new a) ≤ from (h_old b))) as [Hab|Hab].
    + rewrite (loop_take1 _ _ _ a l1') by (done || lia || (intros ? ? Hx; rewrite H2 in Hx; by simplify_eq)).
      simpl in Hc1. destruct Hc1 as [? Hc1].
      destruct (IH (S i) j l1' (b :: l2') (to (h_new a)) (hs ++ [side1 a])) as (cs & -> & <- & <- & Hch); rewrite ?length_app; simpl; try done; try lia.
      * by apply drop_cons in H1 as (_ & ? & _).
      * simpl in Hc2. naive_solver lia.
      * intros x y Hx Hy. apply Hap; [by right|done].
      * exists (inl a :: cs). rewrite <- app_assoc. by split_and!.
    + destruct (Hap a b) as [?|Hba]; [by left..|done|].
      rewrite (loop_take3 _ _ _ b l2') by (done || lia || (intros ? ? Hx; rewrite H1 in Hx; by simplify_eq)).
      simpl in Hc2. destruct Hc2 as [? Hc2].
      destruct (IH i (S j) (a :: l1') l2' (to (h_old b)) (hs ++ [side3 b])) as (cs & -> & <- & <- & Hch); rewrite ?length_app; simpl; try done; try lia.
      * by apply drop_cons in H2 as (_ & ? & _).
      * simpl in Hc1. naive_solver lia.
      * intros x y Hx Hy. apply Hap; [done|by right].
      * exists (inr b :: cs). rewrite <- app_assoc. by split_and!.
Qed.
End merge.

(** Every change is there once, in order. *)
Lemma changes_perm (cs : list change) : cs ≡ₚ map inl (omap from1 cs) ++ map inr (omap from3 cs).
Proof.
  induction cs as [|[h|h] cs IH]; simpl; [done|by rewrite <- IH|].
  rewrite <- Permutation_middle. by rewrite <- IH.
Qed.

(** ** Printing the merge *)

Lemma slice_cons {A} (l : list A) a b x : a < b → l !! a = Some x → slice l a b = x :: slice l (S a) b.
Proof.
  intros Hab Hx. unfold slice. rewrite (drop_S l x a Hx). replace (b - a) with (S (b - S a)) by lia. done.
Qed.

Lemma print_region_ok f a b : a ≤ b ≤ length f →
  print_region f (Z.of_nat a) (Z.of_nat b) = Some (join_lines (slice f a b)).
Proof.
  intros Hab. unfold print_region. assert (b - a ≤ length f + 2) as Hf by lia.
  revert a Hab Hf. generalize (length f + 2) as fuel. induction fuel as [|fuel IH]; intros a Hab Hf; cbn [lines_loop].
  all: destruct (decide (a = b)) as [->|Hne];
    [rewrite decide_False by lia; unfold slice; rewrite Nat.sub_diag; done|].
  { lia. }
  rewrite decide_True by lia. destruct (lookup_lt_is_Some_2 f a) as [x Hx]; [lia|].
  unfold line3, line_at. rewrite decide_True by lia. rewrite Nat2Z.id, decide_False by lia. rewrite Hx. simpl.
  replace (Z.of_nat a + 1)%Z with (Z.of_nat (S a)) by lia. rewrite IH by lia. simpl.
  rewrite (slice_cons f a b x) by (done || lia). unfold join_lines. simpl. by rewrite <- app_assoc.
Qed.

Lemma join_app a b : join_lines (a ++ b) = join_lines a ++ join_lines b.
Proof. unfold join_lines. by rewrite map_app, concat_app. Qed.

Definition in_range (f : difffile) (r : diffrange) : Prop := from r ≤ to r ≤ length f.
Definition sources_ok (f1 f3 : difffile) (c : change) : Prop :=
  match c with inl h => in_range f1 (h_old h) | inr h => in_range f3 (h_new h) end.

Lemma merge_from_ok labels f1 f2 f3 cs i : chain i (map change_range cs) (length f2) →
  Forall (sources_ok f1 f3) cs →
  merge_from labels f1 f2 f3 (Z.of_nat i) (map change_hunk cs) =
  Some (join_lines (apply_edits f2 i (map (change_edit f1 f3) cs))).
Proof.
  intros Hch Hs. revert i Hch. induction Hs as [|c cs Hc Hs IH]; intros i Hch.
  - simpl. rewrite print_region_ok by (simpl in Hch; lia). unfold slice. rewrite take_ge; [done|]. rewrite length_drop. lia.
  - destruct Hch as [Hi Hch]. pose proof (chain_le _ _ _ Hch) as He. specialize (IH _ Hch).
    cbn [map merge_from]. unfold merge_hunk.
    assert (t_r2 (change_hunk c) = convert_range (change_range c)) as -> by (by destruct c).
    cbn [convert_range r_from r_to]. rewrite IH.
    assert (match t_kind (change_hunk c) with
      | HUNK_TYPE1 => print_region f1 (r_from (t_r1 (change_hunk c))) (r_to (t_r1 (change_hunk c)))
      | HUNK_TYPE2 => print_region f3 (r_from (t_r3 (change_hunk c))) (r_to (t_r3 (change_hunk c)))
      | _ => None end = Some (join_lines (snd (change_edit f1 f3 c)))) as Hbody.
    { destruct c as [h|h]; simpl; by apply print_region_ok. }
    destruct c as [h|h]; simpl in Hbody |- *; rewrite Hbody; simpl in *;
      rewrite (print_region_ok f2) by lia; simpl; by rewrite !join_app, <- app_assoc.
Qed.

Lemma chain_in i rs e f : chain i rs e → e ≤ length f → Forall (in_range f) rs.
Proof.
  intros Hch He. revert i Hch. induction rs as [|r rs IH]; intros i Hch; constructor; destruct Hch as [? Hch].
  - apply chain_le in Hch. unfold in_range. lia.
  - eauto.
Qed.

Lemma diff3_chains o f g hs : diff_compute f g (Some o) = Some hs →
  chain 0 (map h_old hs) (length f) ∧ chain 0 (map h_new hs) (length g).
Proof.
  intros Hd. destruct (diff_hunks_ok o f g) as (hs' & Hd' & HH & _).
  unfold diff_compute in Hd. simpl in Hd. rewrite Hd' in Hd. injection Hd as <-. by apply Hunked_chain in HH.
Qed.

Lemma merge_hunks_apart (f1 f2 f3 : difffile) h1 h2 :
  chain 0 (map h_old h1) (length f1) → chain 0 (map h_new h1) (length f2) →
  chain 0 (map h_old h2) (length f2) → chain 0 (map h_new h2) (length f3) → apart h1 h2 →
  ∃ cs, merge_hunks f1 f3 (convert_hunks h1) (convert_hunks h2) = Some (map change_hunk cs) ∧
    omap from1 cs = h1 ∧ omap from3 cs = h2 ∧
    chain 0 (map change_range cs) (length f2) ∧ Forall (sources_ok f1 f3) cs.
Proof.
  intros H11 H12 H22 H23 Hap. unfold merge_hunks.
  destruct (merge_loop_ok f1 f3 h1 h2 (length h1 + length h2) 0 0 h1 h2 0 (length f2) (length h1 + length h2 + 4) [])
    as (cs & Hm & Hc1 & Hc2 & Hch); simpl; try done; try lia.
  exists cs. assert (length (convert_hunks h1) = length h1 ∧ length (convert_hunks h2) = length h2) as [-> ->]
    by (unfold convert_hunks; by rewrite !length_map).
  rewrite Hm. simpl. split_and!; try done.
  apply chain_in with (f := f1) in H11; [|done]. apply chain_in with (f := f3) in H23; [|done].
  apply Forall_forall. intros [h|h] Hh; rewrite Forall_forall in H11, H23; simpl.
  - apply H11, list_elem_of_fmap. exists h. split; [done|]. rewrite <- Hc1. apply list_elem_of_omap. by exists (inl h).
  - apply H23, list_elem_of_fmap. exists h. split; [done|]. rewrite <- Hc2. apply list_elem_of_omap. by exists (inr h).
Qed.

Lemma no_conflict cs : existsb is_conflict (map change_hunk cs) = false.
Proof. by induction cs as [|[h|h] cs IH]. Qed.

Lemma diff3_merge_changes k f1 f2 f3 h1 h2 :
  let opts := Some (mkOpts DIFF_NORMAL 3 (k_i k) false false false) in
  k_m k = true → diff_compute f1 f2 opts = Some h1 → diff_compute f2 f3 opts = Some h2 →
  h1 ++ h2 ≠ [] → apart h1 h2 →
  ∃ cs, omap from1 cs = h1 ∧ omap from3 cs = h2 ∧ chain 0 (map change_range cs) (length f2) ∧
    diff3_files k f1 f2 f3 = Some (0%Z, join_lines (apply_edits f2 0 (map (change_edit f1 f3) cs))).
Proof.
  intros opts Hm H1 H2 Hne Hap. unfold opts in *.
  destruct (diff3_chains _ _ _ _ H1) as [C11 C12], (diff3_chains _ _ _ _ H2) as [C22 C23].
  destruct (merge_hunks_apart f1 f2 f3 h1 h2 C11 C12 C22 C23 Hap) as (cs & Hmg & Hc1 & Hc2 & Hch & Hs).
  exists cs. split_and!; try done. unfold diff3_files. rewrite H1, H2. cbn [base.mbind option_bind].
  rewrite Hmg. cbn [base.mbind option_bind]. rewrite length_map, decide_False.
  - rewrite Hm, no_conflict. unfold format_merge. by rewrite (merge_from_ok _ _ _ _ cs 0).
  - intros ->%nil_length_inv. subst. done.
Qed.

(** C34: When there is a change and none of file 1 meets one of file 3, diff3 -m prints file 2
    with the changes of both: the edits are those of the two comparisons, each
    once, they are disjoint and in the order of file 2, and the text printed is
    file 2 with the edits made.  The exit status is 0. *)
Theorem diff3_merges k f1 f2 f3 h1 h2 :
  let opts := Some (mkOpts DIFF_NORMAL 3 (k_i k) false false false) in
  k_m k = true → diff_compute f1 f2 opts = Some h1 → diff_compute f2 f3 opts = Some h2 →
  h1 ++ h2 ≠ [] → apart h1 h2 →
  ∃ es, es ≡ₚ edits_back f1 h1 ++ edits_to f3 h2 ∧ chain 0 (map fst es) (length f2) ∧
    diff3_files k f1 f2 f3 = Some (0%Z, join_lines (apply_edits f2 0 es)).
Proof.
  intros opts Hm H1 H2 Hne Hap.
  destruct (diff3_merge_changes k f1 f2 f3 h1 h2 Hm H1 H2 Hne Hap) as (cs & Hc1 & Hc2 & Hch & Hr).
  exists (map (change_edit f1 f3) cs). split_and!; [| |done].
  - rewrite (changes_perm cs) at 1. rewrite Hc1, Hc2, map_app, !map_map. done.
  - rewrite map_map. erewrite map_ext; [done|]. by intros [h|h].
Qed.

(** When only one side changed, the merge is that side. *)
Lemma diff3_one_side k f f' : k_m k = true → k_i k = false → f ≠ f' →
  diff3_files k f' f f = Some (0%Z, join_lines f') ∧ diff3_files k f f f' = Some (0%Z, join_lines f').
Proof.
  intros Hm Hi Hne. set (o := mkOpts DIFF_NORMAL 3 (k_i k) false false false).
  assert (∀ l : difffile, map (line_key (default default_opts (Some o))) l = l) as Hkey.
  { intros l. unfold line_key, o. simpl. rewrite Hi. apply map_id. }
  assert (diff_compute f f (Some o) = Some []) as H0 by (by apply diff_none_iff).
  split.
  - destruct (diff_hunks_ok o f' f) as (hs & Hd & _). pose proof (diff_patches f' f (Some o) hs Hd) as [_ Hp].
    destruct (diff3_merge_changes k f' f f hs [] Hm Hd H0) as (cs & Hc1 & Hc2 & _ & ->).
    { rewrite app_nil_r. intros ->. apply Hne. pose proof (proj1 (diff_none_iff f' f (Some o)) Hd) as He. by rewrite !Hkey in He. }
    { intros ? ? _ []%not_elem_of_nil. }
    rewrite !Hkey in Hp. rewrite <- Hp at 2. do 4 f_equal. unfold edits_back. rewrite <- Hc1. clear -Hc2.
    induction cs as [|[h|h] cs IH]; simpl in *; [done|f_equal; by apply IH|done].
  - destruct (diff_hunks_ok o f f') as (hs & Hd & _). pose proof (diff_patches f f' (Some o) hs Hd) as [Hp _].
    destruct (diff3_merge_changes k f f f' [] hs Hm H0 Hd) as (cs & Hc1 & Hc2 & _ & ->).
    { intros Hn. simpl in Hn. subst hs. apply Hne. pose proof (proj1 (diff_none_iff f f' (Some o)) Hd) as He. by rewrite !Hkey in He. }
    { intros ? ? []%not_elem_of_nil. }
    rewrite !Hkey in Hp. rewrite <- Hp at 2. do 4 f_equal. unfold edits_to. rewrite <- Hc2. clear -Hc1.
    induction cs as [|[h|h] cs IH]; simpl in *; [done|done|f_equal; by apply IH].
Qed.

(** ** Examples *)

Definition file_of (l : list string) : difffile := map bytes_of (lits l).
Definition m_flag : d3flags := no_flags <| k_m := true |>.
Definition base_file : difffile := file_of ["one"; "two"; "three"; "four"; "five"].

Lemma diff3_merges_witness :
  let f1 := file_of ["one"; "TWO"; "three"; "four"; "five"] in
  let f3 := file_of ["one"; "two"; "three"; "five"; "six"] in
  let h1 := [mkHunk (mkRange 1 2) (mkRange 1 2)] in
  let h2 := [mkHunk (mkRange 3 4) (mkRange 3 3); mkHunk (mkRange 5 5) (mkRange 4 5)] in
  ∃ es, es ≡ₚ edits_back f1 h1 ++ edits_to f3 h2 ∧ chain 0 (map fst es) 5 ∧
    diff3_files m_flag f1 base_file f3 = Some (0%Z, join_lines (apply_edits base_file 0 es)).
Proof.
  intros f1 f3 h1 h2. apply (diff3_merges m_flag f1 base_file f3 h1 h2).
  - reflexivity.
  - vm_compute. reflexivity.
  - vm_compute. reflexivity.
  - discriminate.
  - intros a b Ha Hb. unfold h1, h2 in *. apply list_elem_of_singleton in Ha as ->.
    apply elem_of_cons in Hb as [->|Hb]; [simpl; lia|]. apply list_elem_of_singleton in Hb as ->. simpl. lia.
Defined.

(** Three equal files are merged to nothing. *)
Example merge_equal : diff3_files m_flag base_file base_file base_file = Some (0%Z, []).
Proof. vm_compute. reflexivity. Qed.

(** A change inside another: the region of file 1 is taken to be four lines longer
    than it is, and lines behind the end of the array are read. *)
Example overlap_reads_outside :
  diff3_files m_flag (file_of ["all"]) base_file (file_of ["one"; "2"; "three"; "four"; "five"]) = None.
Proof. vm_compute. reflexivity. Qed.

(** The ed script for a change of file 1 puts the line of file 2 in the place
    of itself. *)
Example ed_keeps_line :
  diff3_files (no_flags <| k_e := true |>) (file_of ["one"; "2"; "three"; "four"; "five"]) base_file base_file =
  Some (1%Z, txt "2c" ++ [NLB] ++ txt "two" ++ [NLB] ++ txt "." ++ [NLB]).
Proof. vm_compute. reflexivity. Qed.

(** -x leaves out the overlapping changes, and prints the others. *)
Example x_skips_overlaps :
  diff3_files (no_flags <| k_x := true |>) (file_of ["one"; "2"; "three"; "four"; "five"]) base_file
    (file_of ["one"; "zwei"; "three"; "four"; "cinq"]) =
  Some (1%Z, txt "5c" ++ [NLB] ++ txt "cinq" ++ [NLB] ++ txt "." ++ [NLB]).
Proof. vm_compute. reflexivity. Qed.

(** The program on three files. *)
Example d3_main_merges :
  let fs := list_to_map [(lit "a", mkFile (txt "1" ++ [10%Z] ++ txt "b") false);
                         (lit "o", mkFile (txt "a" ++ [10%Z] ++ txt "b" ++ [10%Z] ++ txt "c" ++ [10%Z]) false);
                         (lit "b", mkFile (txt "a" ++ [10%Z] ++ txt "b" ++ [10%Z] ++ txt "3" ++ [10%Z]) false)] in
  match d3_main "diff3" (lits ["-m"; "o"; "o"; "b"]) (mkIo fs (mkFile [] false) [] []) with
  | Ok r s => r = 0%Z ∧ io_out s = txt "a" ++ [10%Z] ++ txt "b" ++ [10%Z] ++ txt "3" ++ [10%Z]
  | _ => False
  end.
Proof. vm_compute. auto. Qed.
