(* ===== verification/Expr.v ===== *)
(** * expr: src/cmd/posix/expr.c

    The evaluator of command line expressions: two stacks, operators and values,
    and reduction by precedence.  The array of values is the cells in use, top
    first, and the numbers left in the cells above them, [None] before the first
    store; reading such a number is [Ub], as is a NULL string and an overflow.
    Regular expressions are those of <regex.h>, a parameter.  [match] cuts its
    subject at the end of the group, which nothing reads afterwards. *)

From stdpp Require Import strings pretty.
From S2P Require Import Prelude CString Stdio Strtonum Utf.

Local Open Scope Z_scope.

(** The exit status of an error and the text printed. *)
Record xstate := mkX { x_status : Z; x_out : cstr }.
#[export] Instance eta_xstate : Eta xstate := λ s, mkX (x_status s) (x_out s).
Definition enprintf {A} (status : Z) (msg : cstr) : M xstate A :=
  modify (set x_status (λ _, status)) ;; eprintf msg.

(** Operators that are one character represent themselves. *)
Inductive tok := VAL | Chr (c : ascii) | GE | LE | NE.
#[export] Instance tok_eq_dec : EqDecision tok.
Proof. solve_decision. Defined.

Record val := mkVal { v_str : option cstr; v_num : option Z }.

(** <regex.h>: compiling gives an error or an expression, its number of groups, and
    the offsets of the match and of its first group. *)
Class Regex := {
  regex : Type;
  regcomp : cstr → regex + cstr;
  re_nsub : regex → nat;
  regexec : regex → cstr → option ((Z * Z) * (Z * Z))
}.

Definition lex (s : cstr) : tok :=
  match s with
  | [c] => if decide (c ∈ lit "|&=><+-*/%():") then Chr c else VAL
  | [c; e] =>
      if decide (c ∈ lit "><!" ∧ e = "="%char) then
        if decide (c = ">"%char) then GE else if decide (c = "<"%char) then LE else NE
      else VAL
  | _ => VAL
  end.

(** [prec]; [None] is the type 0 before the first token. *)
Definition prec (t : tok) : nat :=
  match t with
  | VAL => 0
  | GE | LE | NE => 3
  | Chr c =>
      if decide (c = "|"%char) then 1
      else if decide (c = "&"%char) then 2
      else if decide (c ∈ lit "=><") then 3
      else if decide (c ∈ lit "+-") then 4
      else if decide (c ∈ lit "*/%") then 5
      else if decide (c = ":"%char) then 6 else 0
  end.

Section expr.
Context `{Regex}.

Definition num_of (v : val) : M xstate Z := deref (v_num v).
Definition nonempty (s : option cstr) : bool := match s with Some (_ :: _) => true | _ => false end.

Definition tonum (v : val) : M xstate Z :=
  match v_str v with
  | None => num_of v
  | Some s =>
      match strtonum s LLONG_MIN LLONG_MAX with
      | inl d => mret d
      | inr _ => enprintf 2 (lit "error: expected integer, got " ++ s)
      end
  end.

(** A result of signed arithmetic. *)
Definition llong (z : Z) : M xstate val :=
  if decide (LLONG_MIN ≤ z ≤ LLONG_MAX) then mret (mkVal None (Some z)) else mub.
Definition ezero (z : Z) : M xstate unit := if decide (z ≠ 0) then mret tt else enprintf 2 "division by zero".

(** Its sign is that of the comparison. *)
Definition valcmp (a b : val) : M xstate comparison :=
  s1 <- deref (v_str a) ;;
  s2 <- deref (v_str b) ;;
  match strtonum s1 LLONG_MIN LLONG_MAX, strtonum s2 LLONG_MIN LLONG_MAX with
  | inl d1, inl d2 => mret (d1 ?= d2)
  | _, _ => mret (strcmp s1 s2)
  end.
Definition boolean (b : bool) : val := mkVal None (Some (if b then 1 else 0)).

Definition match_ (vstr vregx : val) : M xstate val :=
  regx <- deref (v_str vregx) ;;
  str <- deref (v_str vstr) ;;
  match regcomp (lit "^" ++ regx) with
  | inr err => enprintf 3 (lit "invalid regex: " ++ err)
  | inl re =>
      match regexec re str with
      | None => mret (mkVal (if decide (re_nsub re = 0%nat) then None else Some []) (Some 0))
      | Some ((so, eo), (so1, eo1)) =>
          if decide (re_nsub re ≠ 0%nat) then
            if decide (0 ≤ so1 ≤ eo1 ∧ eo1 ≤ Z.of_nat (length str)) then
              mret (mkVal (Some (take (Z.to_nat (eo1 - so1)) (drop (Z.to_nat so1) str))) (Some 0))
            else mub
          else if decide (0 ≤ so ≤ eo ∧ eo ≤ Z.of_nat (length str)) then
            n <- utfnlen (drop (Z.to_nat so) (bytes_of str) ++ [0]) (Z.to_nat (eo - so)) ;;
            mret (mkVal None (Some (Z.of_nat n)))
          else mub
      end
  end.

(** The switch of doop, on its two operands. *)
Definition binop (op : tok) (a b : val) : M xstate val :=
  let arith (f : Z → Z → M xstate val) := x <- tonum a ;; y <- tonum b ;; f x y in
  let cmp (f : comparison → bool) := c <- valcmp a b ;; mret (boolean (f c)) in
  match op with
  | GE => cmp (λ c, bool_decide (c ≠ Lt))
  | LE => cmp (λ c, bool_decide (c ≠ Gt))
  | NE => cmp (λ c, bool_decide (c ≠ Eq))
  | VAL => mret (mkVal None (Some 0))
  | Chr c =>
      if decide (c = "|"%char) then
        if nonempty (v_str a) then mret (mkVal (v_str a) (Some 0))
        else
          n <- (match v_str a with None => num_of a | Some _ => mret 0 end) ;;
          if decide (n ≠ 0) then mret (mkVal None (Some n))
          else if nonempty (v_str b) then mret (mkVal (v_str b) (Some 0))
          else m <- num_of b ;; mret (mkVal None (Some m))
      else if decide (c = "&"%char) then
        let truth (v : val) := if nonempty (v_str v) then mret true else n <- num_of v ;; mret (bool_decide (n ≠ 0)) in
        ta <- truth a ;;
        if (ta : bool) then
          tb <- truth b ;;
          mret (if (tb : bool) then a else mkVal None (Some 0))
        else mret (mkVal None (Some 0))
      else if decide (c = "="%char) then cmp (λ c, bool_decide (c = Eq))
      else if decide (c = ">"%char) then cmp (λ c, bool_decide (c = Gt))
      else if decide (c = "<"%char) then cmp (λ c, bool_decide (c = Lt))
      else if decide (c = "+"%char) then arith (λ x y, llong (x + y))
      else if decide (c = "-"%char) then arith (λ x y, llong (x - y))
      else if decide (c = "*"%char) then arith (λ x y, llong (x * y))
      else if decide (c = "/"%char) then arith (λ x y, ezero y ;; llong (Z.quot x y))
      else if decide (c = "%"%char) then
        arith (λ x y, ezero y ;; if decide (x = LLONG_MIN ∧ y = -1) then mub else llong (Z.rem x y))
      else if decide (c = ":"%char) then match_ a b
      else mret (mkVal None (Some 0))
  end.

(** The number that stays in the cell of the second operand: [tonum] stores it. *)
Definition left_num (op : tok) (b : val) : option Z :=
  match op, v_str b with
  | Chr c, Some s =>
      if decide (c ∈ lit "+-*/%") then
        match strtonum s LLONG_MIN LLONG_MAX with inl d => Some d | inr _ => v_num b end
      else v_num b
  | _, _ => v_num b
  end.

(** The operators, top first; the values, top first; the numbers above them; and
    the type of the last token. *)
Record stacks := mkSt { st_ops : list tok; st_live : list val; st_dead : list (option Z); st_last : option tok }.

Definition doop (st : stacks) : M xstate stacks :=
  match st_ops st with
  | [] => mub
  | op :: ops =>
      if decide (op = Chr "(") then enprintf 2 "syntax error: extra ("
      else
        match st_live st with
        | b :: a :: live =>
            ret <- binop op a b ;;
            mret (mkSt ops (ret :: live) (left_num op b :: st_dead st) (st_last st))
        | _ => enprintf 2 "syntax error: missing expression or extra operator"
        end
  end.

(** [while (opp > ophead && p(opp[-1])) doop(...)]; each round takes an operator. *)
Fixpoint doops (fuel : nat) (p : tok → bool) (st : stacks) : M xstate stacks :=
  match st_ops st with
  | [] => mret st
  | op :: _ =>
      if p op then
        match fuel with
        | O => mfuel
        | S fuel => st <- doop st ;; doops fuel p st
        end
      else mret st
  end.
Definition reduce (p : tok → bool) (st : stacks) : M xstate stacks := doops (length (st_ops st)) p st.

(** [*opp++ = type]; the array has a cell for each argument. *)
Definition push_op (n : nat) (t : tok) (st : stacks) : M xstate stacks :=
  if decide (length (st_ops st) < n)%nat then
    mret (mkSt (t :: st_ops st) (st_live st) (st_dead st) (st_last st))
  else mub.
(** [valp->str = *expr; valp++] *)
Definition push_val (s : cstr) (st : stacks) : M xstate stacks :=
  match st_dead st with
  | [] => mub
  | n :: dead => mret (mkSt (st_ops st) (mkVal (Some s) n :: st_live st) dead (st_last st))
  end.

Definition prec_last (t : option tok) : nat := match t with None => 0%nat | Some t => prec t end.

Definition token (n : nat) (s : cstr) (st : stacks) : M xstate stacks :=
  let type := lex s in
  st <- (if decide (type = VAL) then push_val s st
         else if decide (type = Chr "(") then push_op n type st
         else if decide (type = Chr ")") then
           if decide (st_last st = Some (Chr "(")) then enprintf 2 "syntax error: empty ( )"
           else
             st <- reduce (λ t, bool_decide (t ≠ Chr "(")) st ;;
             match st_ops st with
             | [] => enprintf 2 "syntax error: extra )"
             | _ :: ops => mret (mkSt ops (st_live st) (st_dead st) (st_last st))
             end
         else if decide (prec_last (st_last st) ≠ 0%nat) then enprintf 2 "syntax error: extra operator"
         else
           st <- reduce (λ t, bool_decide (prec type ≤ prec t)%nat) st ;;
           push_op n type st) ;;
  mret (mkSt (st_ops st) (st_live st) (st_dead st) (Some type)).

Fixpoint tokens_loop (n : nat) (ss : list cstr) (st : stacks) : M xstate stacks :=
  match ss with
  | [] => mret st
  | s :: ss => st <- token n s st ;; tokens_loop n ss st
  end.

(** [puts] or [printf("%lld\n")], and whether the value is true *)
Definition finish (v : val) : M xstate bool :=
  match v_str v with
  | Some s =>
      modify (set x_out (λ o, o ++ s ++ [NL])) ;;
      if nonempty (v_str v) then mret true else n <- num_of v ;; mret (bool_decide (n ≠ 0))
  | None =>
      n <- num_of v ;;
      modify (set x_out (λ o, o ++ lit (pretty n) ++ [NL])) ;;
      mret (bool_decide (n ≠ 0))
  end.

Definition parse (argv : list cstr) : M xstate bool :=
  let n := length argv in
  st <- tokens_loop n argv (mkSt [] [] (replicate n None) None) ;;
  st <- reduce (λ _, true) st ;;
  match st_live st with
  | [] => enprintf 2 "syntax error: missing expression"
  | [v] => finish v
  | _ => enprintf 2 "syntax error: extra expression"
  end.

Definition expr_main (argv : list cstr) : M xstate Z := r <- parse argv ;; mret (if (r : bool) then 0 else 1).
End expr.

(** ** Examples, with no regular expressions *)

Definition no_regex : Regex := {| regex := unit; regcomp := λ _, inr []; re_nsub := λ _, 0%nat; regexec := λ _ _, None |}.
Definition run_expr (l : list string) : out xstate Z := @expr_main no_regex (lits l) (mkX 0 []).

Example expr_prec : run_expr ["2"; "+"; "3"; "*"; "4"; "-"; "("; "1"; "-"; "6"; ")"; "/"; "2"] = Ok 0 (mkX 0 (lit "16" ++ [NL])).
Proof. vm_compute. reflexivity. Qed.
(** Comparing the result of a calculation reads a NULL string. *)
Example expr_compare_result : run_expr ["1"; "+"; "1"; "="; "2"] = Ub.
Proof. vm_compute. reflexivity. Qed.
(** A zero that was not calculated counts as true. *)
Example expr_or_zero : run_expr ["0"; "|"; "5"] = Ok 0 (mkX 0 (lit "0" ++ [NL])).
Proof. vm_compute. reflexivity. Qed.
(** The number of an empty string is not initialised. *)
Example expr_empty : run_expr [String.EmptyString; "&"; "1"] = Ub.
Proof. vm_compute. reflexivity. Qed.
