(* ===== verification/ExprFacts.v ===== *)
(** * What expr computes

    An expression is a tree; its tokens are written with parentheses where the
    precedences ask for them.  [expr_evaluates]: the two stacks evaluate the
    tree, operators of one precedence from left to right, with the errors that
    evaluating it has.  [expr_calculates]: for integers the result is the integer
    the tree denotes. *)

From stdpp Require Import strings pretty.
From S2P Require Import Prelude CString Stdio Strtonum Utf Expr.

Local Open Scope Z_scope.

(** ** Simulation: the same outcome unless the first is undefined *)

Section sim.
Context {St : Type}.
Definition sim {A B} (R : A → B → Prop) (m1 : M St A) (m2 : M St B) : Prop := ∀ s,
  match m1 s with
  | Ok a s' => ∃ b, m2 s = Ok b s' ∧ R a b
  | Die msg s' => m2 s = Die msg s'
  | Ub => True
  | Fuel => m2 s = Fuel
  end.

Lemma sim_ret {A B} (R : A → B → Prop) a b : R a b → sim R (mret a) (mret b).
Proof. intros HR s. simpl. eauto. Qed.
Lemma sim_bind {A B A' B'} (R : A → B → Prop) (Q : A' → B' → Prop) m1 m2 k1 k2 :
  sim R m1 m2 → (∀ a b, R a b → sim Q (k1 a) (k2 b)) → sim Q (mbind m1 k1) (mbind m2 k2).
Proof.
  intros Hm Hk s. unfold mbind. specialize (Hm s). destruct (m1 s) as [a s'| | |]; [|by rewrite Hm|done|by rewrite Hm].
  destruct Hm as (b & -> & HR). by apply Hk.
Qed.
Lemma sim_ub {A B} (R : A → B → Prop) m : sim R mub m.
Proof. by intros s. Qed.
Lemma sim_die {A B} (R : A → B → Prop) msg : sim R (@eprintf St A msg) (@eprintf St B msg).
Proof. by intros s. Qed.
Lemma sim_refl {A} (m : M St A) : sim eq m m.
Proof. intros s. destruct (m s); eauto. Qed.
Lemma sim_ext {A B} (R : A → B → Prop) (m1 m1' : M St A) (m2 m2' : M St B) :
  (∀ s, m1' s = m1 s) → (∀ s, m2' s = m2 s) → sim R m1 m2 → sim R m1' m2'.
Proof. intros H1 H2 H s. rewrite H1, H2. apply H. Qed.
Lemma sim_impl {A B} (R Q : A → B → Prop) m1 m2 : (∀ a b, R a b → Q a b) → sim R m1 m2 → sim Q m1 m2.
Proof. intros HRQ H s. specialize (H s). destruct (m1 s); naive_solver. Qed.
End sim.

(** ** Expressions *)

Inductive expr := Lit (s : cstr) | Par (e : expr) | Bin (o : tok) (l r : expr).

Definition level (e : expr) : nat := match e with Bin o _ _ => prec o | _ => 7%nat end.
Fixpoint wf (e : expr) : Prop :=
  match e with
  | Lit s => lex s = VAL
  | Par e => wf e
  | Bin o l r => (0 < prec o)%nat ∧ wf l ∧ wf r ∧ (prec o ≤ level l)%nat ∧ (prec o < level r)%nat
  end.
Definition tok_str (o : tok) : cstr :=
  match o with Chr c => [c] | GE => lit ">=" | LE => lit "<=" | NE => lit "!=" | VAL => [] end.
Fixpoint tokens (e : expr) : list cstr :=
  match e with
  | Lit s => [s]
  | Par e => lit "(" :: tokens e ++ [lit ")"]
  | Bin o l r => tokens l ++ tok_str o :: tokens r
  end.

(** A value known up to the number of a string. *)
Definition vle (v w : val) : Prop := v_str v = v_str w ∧ ∀ n, v_num v = Some n → v_num w = Some n.

Section eval.
Context `{Regex}.

Fixpoint eval (e : expr) : M xstate val :=
  match e with
  | Lit s => mret (mkVal (Some s) None)
  | Par e => eval e
  | Bin o l r => a <- eval l ;; b <- eval r ;; binop o a b
  end.

(** The operators that wait after the last token of an expression, and what they
    wait for. *)
Fixpoint pops (e : expr) : list tok := match e with Bin o _ r => pops r ++ [o] | _ => [] end.
Fixpoint pvals (e : expr) : M xstate (list val) :=
  match e with
  | Lit s => mret [mkVal (Some s) None]
  | Par e => v <- eval e ;; mret [v]
  | Bin o l r => v <- eval l ;; vs <- pvals r ;; mret (vs ++ [v])
  end.
Fixpoint flush (os : list tok) (vs : list val) : M xstate val :=
  match os, vs with
  | [], [v] => mret v
  | o :: os, b :: a :: vs => c <- binop o a b ;; flush os (c :: vs)
  | _, _ => mub
  end.

Lemma bind_assoc {A B C} (m : M xstate A) (f : A → M xstate B) (g : B → M xstate C) s :
  (y <- (x <- m ;; f x) ;; g y) s = (x <- m ;; y <- f x ;; g y) s.
Proof. unfold mbind. by destruct (m s). Qed.
Lemma bind_ext {A B} (m : M xstate A) (f g : A → M xstate B) s :
  (∀ a s', m s = Ok a s' → f a s' = g a s') → (x <- m ;; f x) s = (x <- m ;; g x) s.
Proof. unfold mbind. destruct (m s); auto. Qed.

Lemma bind_ext2 {A B} (m m' : M xstate A) (f : A → M xstate B) s : (∀ s, m s = m' s) → (x <- m ;; f x) s = (x <- m' ;; f x) s.
Proof. unfold mbind. by intros ->. Qed.
Lemma bind_ret_l {A B} (a : A) (f : A → M xstate B) s : (x <- mret a ;; f x) s = f a s.
Proof. done. Qed.

Lemma bind_ret_r {A} (m : M xstate A) s : (x <- m ;; mret x) s = m s.
Proof. unfold mbind. by destruct (m s). Qed.

Lemma flush_snoc os vs o v s : length vs = S (length os) →
  flush (os ++ [o]) (vs ++ [v]) s = (r <- flush os vs ;; binop o v r) s.
Proof.
  revert vs s. induction os as [|o' os IH]; intros vs s Hl; destruct vs as [|b [|a vs]]; simpl in Hl; try lia.
  - simpl. unfold mbind, mret. by destruct (binop o v b s).
  - simpl. rewrite bind_assoc. apply bind_ext. intros c s' _. apply (IH (c :: vs)). simpl. lia.
Qed.

Lemma pvals_length e s vs s' : pvals e s = Ok vs s' → length vs = S (length (pops e)).
Proof.
  revert s vs s'. induction e as [str|e IH|o l IHl r IHr]; intros s vs s' Hp; simpl in Hp.
  - by injection Hp as <- <-.
  - unfold mbind in Hp. destruct (eval e s) as [v s1| | |]; try done. by injection Hp as <- <-.
  - unfold mbind in Hp. destruct (eval l s) as [v s1| | |]; try done. destruct (pvals r s1) as [ws s2| | |] eqn:Er; try done.
    injection Hp as <- <-. apply IHr in Er. simpl. rewrite !length_app, Er. simpl. lia.
Qed.

Lemma eval_flush e s : eval e s = (vs <- pvals e ;; flush (pops e) vs) s.
Proof.
  revert s. induction e as [str|e IH|o l IHl r IHr]; intros s; simpl; [done| |].
  - rewrite bind_assoc. simpl. unfold mbind, mret. by destruct (eval e s).
  - rewrite bind_assoc. apply bind_ext. intros v s1 _. rewrite bind_assoc. simpl.
    rewrite (bind_ext (pvals r) _ (λ vs, r <- flush (pops r) vs ;; binop o v r)).
    + rewrite <- bind_assoc. unfold mbind at 1 3. by rewrite IHr.
    + intros vs s2 Hvs%pvals_length. by apply (flush_snoc (pops r) vs o v s2).
Qed.

(** ** Operations on values known in part *)

Lemma num_of_sim v w : vle v w → sim eq (num_of v) (num_of w).
Proof.
  intros [_ Hn]. unfold num_of. destruct (v_num v) as [n|]; [|apply sim_ub]. rewrite (Hn n eq_refl). apply sim_refl.
Qed.
Lemma tonum_sim v w : vle v w → sim eq (tonum v) (tonum w).
Proof.
  intros Hv. unfold tonum. rewrite <- (proj1 Hv). destruct (v_str v) as [s|]; [apply sim_refl|]. by apply num_of_sim.
Qed.
Lemma vle_refl v : vle v v.
Proof. by split. Qed.

Lemma binop_sim o a b a' b' : vle a a' → vle b b' → sim vle (binop o a b) (binop o a' b').
Proof.
  intros Ha Hb.
  assert (∀ f : Z → Z → M xstate val, sim vle (x <- tonum a ;; y <- tonum b ;; f x y) (x <- tonum a' ;; y <- tonum b' ;; f x y)) as Har.
  { intros f. eapply sim_bind; [by apply tonum_sim|]. intros ? x ->. eapply sim_bind; [by apply tonum_sim|]. intros ? y ->.
    eapply sim_impl, sim_refl. intros ? ? ->. apply vle_refl. }
  assert (∀ f, sim vle (c <- valcmp a b ;; mret (boolean (f c))) (c <- valcmp a' b' ;; mret (boolean (f c)))) as Hcmp.
  { intros f. unfold valcmp. destruct Ha as [-> _], Hb as [-> _]. eapply sim_impl, sim_refl. intros ? ? ->. apply vle_refl. }
  assert (∀ v w, vle v w → sim eq (if nonempty (v_str v) then mret true else n <- num_of v ;; mret (bool_decide (n ≠ 0)))
                                (if nonempty (v_str w) then mret true else n <- num_of w ;; mret (bool_decide (n ≠ 0)))) as Htr.
  { intros v w Hv. rewrite <- (proj1 Hv). destruct (nonempty (v_str v)); [apply sim_refl|].
    eapply sim_bind; [by apply num_of_sim|]. intros ? ? ->. apply sim_refl. }
  unfold binop. cbv zeta. destruct o as [|c| | |]; try apply Hcmp; [apply sim_ret, vle_refl|].
  destruct (decide (c = "|"%char)) as [_|_].
  { pose proof (proj1 Ha) as Ea. pose proof (proj1 Hb) as Eb. rewrite <- Ea, <- Eb.
    destruct (nonempty (v_str a)); [apply sim_ret, vle_refl|]. apply (sim_bind eq).
    - destruct (v_str a); [apply sim_refl|by apply num_of_sim].
    - intros ? n ->. destruct (decide (n ≠ 0)); [apply sim_ret, vle_refl|].
      destruct (nonempty (v_str b)); [apply sim_ret, vle_refl|]. apply (sim_bind eq); [by apply num_of_sim|].
      intros ? m ->. apply sim_ret, vle_refl. }
  destruct (decide (c = "&"%char)) as [_|_].
  { apply (sim_bind eq); [by apply Htr|]. intros ? ta ->. destruct ta; [|apply sim_ret, vle_refl].
    apply (sim_bind eq); [by apply Htr|]. intros ? tb ->. apply sim_ret. destruct tb; [done|apply vle_refl]. }
  repeat (case_decide; [first [apply Hcmp | apply Har]|]).
  case_decide; [|apply sim_ret, vle_refl].
  unfold match_. destruct Ha as [-> _], Hb as [-> _]. eapply sim_impl, sim_refl. intros ? ? ->. apply vle_refl.
Qed.

(** ** The machine *)

(** The last token of an expression is a value or a closing parenthesis. *)
Definition ended (t : option tok) : Prop := t = Some VAL ∨ t = Some (Chr ")").

Definition st_ok (n : nat) (ops : list tok) (live : list val) (vs : list val) (st : stacks) : Prop :=
  st_ops st = ops ∧ (∃ vs', st_live st = vs' ++ live ∧ Forall2 vle vs vs') ∧
  (length (st_live st) + length (st_dead st))%nat = n ∧ ended (st_last st).

Lemma doops_ok n p os ops live vs fuel st : (length os ≤ fuel)%nat →
  Forall (λ t, p t = true ∧ t ≠ Chr "(") os → (∀ t r, ops = t :: r → p t = false) →
  st_ok n (os ++ ops) live vs st →
  sim (λ v st', st_ok n ops live [v] st') (flush os vs) (doops fuel p st).
Proof.
  intros Hf Hos Hops. revert vs fuel st Hf. induction Hos as [|o os [Ho Hpar] Hos IH]; intros vs fuel st Hf (Hs1 & (vs' & Hs2 & Hvs) & Hs3 & Hs4); simpl.
  - destruct vs as [|v [|? ?]]; try apply sim_ub.
    assert (∀ s, doops fuel p st s = Ok st s) as He.
    { intros s. destruct fuel; simpl; rewrite Hs1; destruct ops as [|t r]; simpl; try done; by rewrite (Hops t r eq_refl). }
    intros s. rewrite He. eexists. split; [done|]. split_and!; eauto.
  - destruct vs as [|b [|a vs]]; try apply sim_ub. destruct fuel as [|fuel]; [simpl in Hf; lia|].
    apply Forall2_cons_inv_l in Hvs as (b' & vs1 & Hb & Hvs & ->). apply Forall2_cons_inv_l in Hvs as (a' & vs2 & Ha & Hvs & ->).
    simpl. rewrite Hs1. simpl. rewrite Ho.
    assert (∀ s, doop st s = (ret <- binop o a' b' ;; mret (mkSt (os ++ ops) (ret :: vs2 ++ live) (left_num o b' :: st_dead st) (st_last st))) s) as Hd.
    { intros s. unfold doop. rewrite Hs1, Hs2. simpl. by rewrite decide_False. }
    eapply sim_ext; [done| |].
    { intros s. rewrite (bind_ext2 _ _ _ s Hd), bind_assoc. done. }
    eapply sim_bind; [by apply binop_sim|]. intros c c' Hc.
    eapply sim_ext; [done|intros s; apply (bind_ret_l _ _ s)|]. apply IH; [simpl in Hf; lia|].
    split_and!; [done|exists (c' :: vs2); split; [done|by constructor]| |done].
    rewrite Hs2 in Hs3. simpl in *. lia.
Qed.

Lemma lex_tok_str o : (0 < prec o)%nat → lex (tok_str o) = o ∧ o ≠ VAL ∧ o ≠ Chr "(" ∧ o ≠ Chr ")".
Proof.
  destruct o as [|c| | |]; simpl; try (intros; lia); try done. intros Hp.
  assert (c ∈ lit "|&=><+-*/%:") as Hc.
  { unfold prec in Hp. repeat case_decide; simplify_eq; try lia; set_solver. }
  apply list_elem_of_In in Hc. simpl in Hc. destruct_or! Hc; try done; subst c; done.
Qed.

Lemma pops_level e : wf e → Forall (λ t, (level e ≤ prec t)%nat ∧ (0 < prec t)%nat) (pops e).
Proof.
  induction e as [|e IH|o l IHl r IHr]; simpl; [constructor..|]. intros (Ho & _ & Hr & _ & Hlr).
  apply Forall_app. split; [|by constructor]. eapply Forall_impl; [by apply IHr|]. simpl. lia.
Qed.
Lemma level_pos e : wf e → (0 < level e)%nat.
Proof. destruct e; simpl; [lia..|]. naive_solver. Qed.
Lemma tokens_pos e : (0 < length (tokens e))%nat.
Proof. induction e; simpl; rewrite ?length_app; simpl; lia. Qed.

Lemma tokens_loop_app n a b st s :
  tokens_loop n (a ++ b) st s = (st' <- tokens_loop n a st ;; tokens_loop n b st') s.
Proof.
  revert st s. induction a as [|x a IH]; intros st s; simpl; [done|].
  rewrite bind_assoc. apply bind_ext. intros st' s' _. apply IH.
Qed.

Lemma prec_paren t : (0 < prec t)%nat → t ≠ Chr "(".
Proof. intros Hp ->. vm_compute in Hp. lia. Qed.

Lemma ended_prec t : ended t → prec_last t = 0%nat ∧ t ≠ Some (Chr "(").
Proof. by intros [-> | ->]. Qed.

(** Reducing behind an expression gives its value. *)
Lemma reduce_expr n e p ops live vs st : wf e → (∀ t, (level e ≤ prec t)%nat → (0 < prec t)%nat → p t = true) →
  (∀ t r, ops = t :: r → p t = false) → st_ok n (pops e ++ ops) live vs st →
  sim (λ v st', st_ok n ops live [v] st') (flush (pops e) vs) (reduce p st).
Proof.
  intros Hwf Hp Hops Hst. unfold reduce. apply (doops_ok n p (pops e) ops live vs); [| |done..].
  - destruct Hst as (-> & _). rewrite length_app. lia.
  - eapply Forall_impl; [by apply pops_level|]. intros t [Ht Ht0]. split; [by apply Hp|]. by apply prec_paren.
Qed.

(** Processing the tokens of an expression. *)
Lemma tokens_ok n e : wf e → ∀ st ops live, st_ops st = ops → st_live st = live →
  (length live + length (st_dead st))%nat = n → (length live + length (tokens e) ≤ n)%nat →
  (length ops + length (tokens e) ≤ n)%nat → (∀ t r, ops = t :: r → (prec t < level e)%nat) →
  sim (λ vs st', st_ok n (pops e ++ ops) live vs st') (pvals e) (tokens_loop n (tokens e) st).
Proof.
  induction e as [str|e IH|o l IHl r IHr]; intros Hwf st ops live Hops Hlive Hn Hlc Hoc Htop; simpl in Hwf.
  - simpl. unfold token. rewrite Hwf, decide_True by done. unfold push_val. destruct (st_dead st) as [|d dead] eqn:Ed; [simpl in *; lia|].
    intros s. simpl. eexists. split; [done|]. split_and!; simpl; [done| | |by left].
    + rewrite Hlive. exists [mkVal (Some str) d]. split; [done|]. by repeat constructor.
    + rewrite Hlive. simpl in Hn. lia.
  - cbn [tokens tokens_loop]. simpl in Hlc, Hoc. rewrite length_app in Hlc, Hoc. simpl in Hlc, Hoc.
    pose proof (tokens_pos e). eapply sim_ext; [done| |].
    { intros s. unfold token at 1. simpl. unfold push_op. rewrite decide_True by (rewrite Hops; lia).
      unfold mbind at 1, mret at 1. simpl. rewrite tokens_loop_app. reflexivity. }
    eapply sim_ext; [intros s; simpl; rewrite (bind_ext2 _ _ _ s (eval_flush e)), bind_assoc; reflexivity|done|].
    eapply sim_bind; [apply (IH Hwf _ (Chr "(" :: ops) live); simpl; rewrite ?Hops; try done; try lia|].
    { intros t rr [= <- <-]. by apply level_pos. }
    intros vs st1 Hst1. eapply sim_ext; [done| |].
    { intros s. simpl. unfold token. simpl. destruct (ended_prec _ (proj2 (proj2 (proj2 Hst1)))) as [_ Hl].
      rewrite (decide_False (P := st_last st1 = _)) by done. rewrite !bind_assoc. reflexivity. }
    eapply sim_bind.
    { apply (reduce_expr n e _ (Chr "(" :: ops) live vs st1 Hwf); [| |done].
      - intros t _ Ht. apply bool_decide_eq_true. by apply prec_paren.
      - intros t rr [= <- <-]. done. }
    intros v st2 (H1 & H2 & H3 & H4). rewrite H1. intros s. simpl. eexists. split; [done|].
    split_and!; simpl; [done|done|done|by right].
  - destruct Hwf as (Ho & Hl & Hr & Hol & Hor). cbn [tokens]. simpl in Hlc, Hoc. rewrite length_app in Hlc, Hoc. simpl in Hlc, Hoc.
    pose proof (tokens_pos l). eapply sim_ext; [|intros s; rewrite tokens_loop_app; reflexivity|].
    { intros s. simpl. rewrite (bind_ext2 _ _ _ s (eval_flush l)), bind_assoc. reflexivity. }
    eapply sim_bind; [apply (IHl Hl _ ops live); try done; try lia|].
    { intros t rr Ht. specialize (Htop t rr Ht). simpl in Htop. lia. }
    intros vs st1 Hst1. destruct (lex_tok_str o Ho) as (Hlex & Hv & Hp1 & Hp2). eapply sim_ext; [done| |].
    { intros s. simpl. unfold token. rewrite Hlex. destruct (ended_prec _ (proj2 (proj2 (proj2 Hst1)))) as [Hl0 _].
      rewrite (decide_False (P := o = VAL)), (decide_False (P := o = Chr "(")), (decide_False (P := o = Chr ")")) by done.
      rewrite (decide_False (P := prec_last _ ≠ _)) by (rewrite Hl0; lia). rewrite !bind_assoc. reflexivity. }
    eapply sim_bind.
    { apply (reduce_expr n l _ ops live vs st1 Hl); [| |done].
      - intros t Ht _. apply bool_decide_eq_true. lia.
      - intros t rr Ht. apply bool_decide_eq_false. specialize (Htop t rr Ht). simpl in Htop. lia. }
    intros v st2 (H1 & (vs' & H2 & H2') & H3 & H4). apply Forall2_cons_inv_l in H2' as (v' & vs0 & Hv' & H2' & ->).
    apply Forall2_nil_inv_l in H2' as ->. eapply sim_ext; [done| |].
    { intros s. unfold push_op. rewrite decide_True by (rewrite H1; lia). unfold mbind at 1, mret at 1. reflexivity. }
    eapply sim_ext; [done|intros s; apply (bind_ret_l _ _ s)|].
    simpl in H2. assert (length (st_live st2) = S (length live)) as Hl2 by (by rewrite H2).
    eapply sim_ext; [done| |].
    { intros s. symmetry. apply bind_ret_r. }
    eapply sim_bind.
    { apply (IHr Hr _ (o :: ops) (v' :: live)); simpl; rewrite ?H1; try done; try lia. by intros t rr [= <- <-]. }
    intros ws st3 (G1 & (ws' & G2 & G2') & G3 & G4). apply sim_ret. split_and!; [| |done|done].
    + simpl. by rewrite G1, <- app_assoc.
    + exists (ws' ++ [v']). rewrite G2, <- app_assoc. split; [done|]. apply Forall2_app; [done|]. by constructor.
Qed.

Lemma finish_sim v w : vle v w → sim eq (finish v) (finish w).
Proof.
  intros Hv. unfold finish. rewrite <- (proj1 Hv). destruct (v_str v) as [str|].
  - eapply sim_bind; [apply sim_refl|]. intros ? ? _. destruct (nonempty (Some str)); [apply sim_refl|].
    eapply sim_bind; [by apply num_of_sim|]. intros ? ? ->. apply sim_refl.
  - eapply sim_bind; [by apply num_of_sim|]. intros ? ? ->. apply sim_refl.
Qed.

Lemma parse_sim e : wf e → sim eq (v <- eval e ;; finish v) (parse (tokens e)).
Proof.
  intros Hwf. unfold parse. eapply sim_ext; [intros s; rewrite (bind_ext2 _ _ _ s (eval_flush e)), bind_assoc; reflexivity|done|].
  eapply sim_bind; [apply (tokens_ok (length (tokens e)) e Hwf _ [] []); simpl; rewrite ?length_replicate; try done; lia|].
  intros vs st Hst. eapply sim_bind; [by apply (reduce_expr (length (tokens e)) e _ [] [] vs st Hwf)|].
  intros v st' (_ & (vs' & Hl & Hvs) & _). apply Forall2_cons_inv_l in Hvs as (v' & vs0 & Hv & Hvs & ->).
  apply Forall2_nil_inv_l in Hvs as ->. rewrite Hl. by apply finish_sim.
Qed.

(** The two stacks of expr evaluate the expression its arguments spell: operands
    before operators, operators of higher precedence first, those of the same
    precedence from left to right, parentheses first; the output, the exit status,
    and an error with its message are those of evaluating the tree.  Only
    where that reads the number of a string or has other undefined behaviour is
    nothing said. *)
Theorem expr_evaluates e s : wf e → (v <- eval e ;; finish v) s ≠ Ub →
  parse (tokens e) s = (v <- eval e ;; finish v) s.
Proof.
  intros Hwf Hub. pose proof (parse_sim e Hwf s) as Hs.
  destruct ((v <- eval e ;; finish v) s) as [a s'| | |]; try done. destruct Hs as (b & -> & ->). done.
Qed.

(** ** Integers *)

Definition in_llong (z : Z) : option Z := if decide (LLONG_MIN ≤ z ≤ LLONG_MAX) then Some z else None.
(** The value of an operation on integers, if there is one in range. *)
Definition arith (o : tok) (x y : Z) : option Z :=
  if decide (o = Chr "+") then in_llong (x + y)
  else if decide (o = Chr "-") then in_llong (x - y)
  else if decide (o = Chr "*") then in_llong (x * y)
  else if decide (o = Chr "/") then if decide (y = 0) then None else in_llong (Z.quot x y)
  else if decide (o = Chr "%") then
    if decide (y = 0 ∨ (x = LLONG_MIN ∧ y = -1)) then None else in_llong (Z.rem x y)
  else None.
Fixpoint denote (e : expr) : option Z :=
  match e with
  | Lit s => match strtonum s LLONG_MIN LLONG_MAX with inl d => Some d | inr _ => None end
  | Par e => denote e
  | Bin o l r => x ← denote l; y ← denote r; arith o x y
  end.
(** More than a numeral between parentheses. *)
Fixpoint calculation (e : expr) : bool := match e with Lit _ => false | Par e => calculation e | Bin _ _ _ => true end.

(** A value that holds an integer. *)
Definition holds (v : val) (z : Z) : Prop :=
  match v_str v with
  | None => v_num v = Some z
  | Some s => strtonum s LLONG_MIN LLONG_MAX = inl z
  end.

Lemma tonum_holds v z s : holds v z → tonum v s = Ok z s.
Proof. unfold holds, tonum, num_of. destruct (v_str v) as [str|]; by intros ->. Qed.

Lemma binop_arith o x y z a b s : arith o x y = Some z → holds a x → holds b y →
  binop o a b s = Ok (mkVal None (Some z)) s.
Proof.
  intros Hz Ha Hb. unfold arith in Hz.
  assert (∀ f : Z → Z → M xstate val, (x <- tonum a ;; y <- tonum b ;; f x y) s = f x y s) as Hf.
  { intros f. unfold mbind. by rewrite (tonum_holds a x s Ha), (tonum_holds b y s Hb). }
  assert (∀ w, in_llong w = Some z → llong w s = Ok (mkVal None (Some z)) s) as Hin.
  { intros w Hw. unfold llong, in_llong in *. case_decide; [by injection Hw as ->|done]. }
  assert (∀ f, binop o a b = (x <- tonum a ;; y <- tonum b ;; f x y) → binop o a b s = f x y s) as Hop.
  { intros f ->. apply Hf. }
  destruct (decide (o = Chr "+")) as [->|_]; [rewrite (Hop (λ x y, llong (x + y)) eq_refl); by apply Hin|].
  destruct (decide (o = Chr "-")) as [->|_]; [rewrite (Hop (λ x y, llong (x - y)) eq_refl); by apply Hin|].
  destruct (decide (o = Chr "*")) as [->|_]; [rewrite (Hop (λ x y, llong (x * y)) eq_refl); by apply Hin|].
  destruct (decide (o = Chr "/")) as [->|_].
  { rewrite (Hop (λ x y, ezero y ;; llong (Z.quot x y)) eq_refl). destruct (decide (y = 0)); [done|].
    unfold ezero, mbind. rewrite decide_True by done. by apply Hin. }
  destruct (decide (o = Chr "%")) as [->|_]; [|done].
  rewrite (Hop (λ x y, ezero y ;; if decide (x = LLONG_MIN ∧ y = -1) then mub else llong (Z.rem x y)) eq_refl).
  destruct (decide (y = 0 ∨ _)) as [|Hn]; [done|]. unfold ezero, mbind. rewrite decide_True by naive_solver.
  simpl. rewrite decide_False by naive_solver. by apply Hin.
Qed.

Lemma eval_denote e z s : denote e = Some z →
  ∃ v, eval e s = Ok v s ∧ holds v z ∧ (calculation e = true → v = mkVal None (Some z)).
Proof.
  revert z. induction e as [str|e IH|o l IHl r IHr]; intros z Hz; simpl in Hz |- *.
  - destruct (strtonum str LLONG_MIN LLONG_MAX) as [d|] eqn:Es; [|done]. injection Hz as ->.
    eexists. split; [done|]. by split.
  - auto.
  - apply bind_Some in Hz as (x & Hx & Hz). apply bind_Some in Hz as (y & Hy & Hz).
    destruct (IHl x Hx) as (a & Ha & Hax & _), (IHr y Hy) as (b & Hb & Hby & _).
    exists (mkVal None (Some z)). split; [|done]. unfold mbind. rewrite Ha, Hb. by apply (binop_arith o x y).
Qed.

(** C19: For an expression over the integers with + - * / and %, whose value and
    partial values fit 64 bits and which divides by no zero, expr prints
    the value in decimal and exits with 0, or with 1 when it is zero.  Division
    and remainder round towards zero. *)
Theorem expr_calculates e z status o : wf e → calculation e = true → denote e = Some z →
  expr_main (tokens e) (mkX status o) =
  Ok (if decide (z = 0) then 1 else 0) (mkX status (o ++ lit (pretty z) ++ [NL])).
Proof.
  intros Hwf Hc Hz. destruct (eval_denote e z (mkX status o) Hz) as (v & He & _ & Hv). specialize (Hv Hc). subst v.
  pose proof (parse_sim e Hwf (mkX status o)) as Hs. unfold mbind in Hs. rewrite He in Hs. simpl in Hs.
  destruct Hs as (b & Hp & <-). unfold expr_main, mbind. rewrite Hp. simpl. repeat case_decide; subst; done.
Qed.
End eval.

(** (2 + 3 * (1 - 8)) % 4 *)
Definition sample : expr :=
  Bin (Chr "%") (Par (Bin (Chr "+") (Lit "2") (Bin (Chr "*") (Lit "3") (Par (Bin (Chr "-") (Lit "1") (Lit "8")))))) (Lit "4").
Lemma expr_calculates_witness :
  @expr_main no_regex (tokens sample) (mkX 0 []) = Ok 0 (mkX 0 (lit "-3" ++ [NL])).
Proof.
  apply (@expr_calculates no_regex sample (-3) 0 []).
  - repeat split; vm_compute; lia.
  - reflexivity.
  - vm_compute. reflexivity.
Defined.

Lemma expr_evaluates_witness :
  let e := Bin (Chr "|") (Bin (Chr "=") (Lit "a") (Lit "b")) (Bin (Chr "/") (Lit "x") (Lit "2")) in
  @parse no_regex (tokens e) (mkX 0 []) = (v <- @eval no_regex e ;; finish v) (mkX 0 []).
Proof.
  intros e. apply expr_evaluates.
  - repeat split; vm_compute; lia.
  - vm_compute. discriminate.
Defined.
