(* ===== verification/Test.v ===== *)
(** * test: src/cmd/posix/test.c

    The primaries, the tables that name them, and the choice by the number of
    arguments.  What the system says of a file is a parameter.  Proved: the
    integer comparisons are those of the integers the operands denote, however
    long they are, and anything else is an error with status 2. *)

From stdpp Require Import strings.
From S2P Require Import Prelude CString StrList Stdio Strtonum Expr.

Local Open Scope Z_scope.

(** ** The system *)

Inductive file_kind := BLK | CHR | DIR | REG | LNK | FIFO | SOCK.
#[export] Instance file_kind_eq_dec : EqDecision file_kind.
Proof. solve_decision. Defined.
Record stat_t := mkStat {
  st_kind : file_kind; st_mode : Z; st_size : Z; st_dev : Z; st_ino : Z; st_sec : Z; st_nsec : Z
}.
Class Files := {
  stat_ : cstr → option stat_t;
  lstat_ : cstr → option stat_t;
  (** [faccessat(AT_FDCWD, s, mode, AT_EACCESS)] succeeds *)
  access_ : cstr → Z → bool;
  isatty_ : Z → bool
}.

Definition S_ISUID : Z := 2048.
Definition S_ISGID : Z := 1024.
Definition S_ISVTX : Z := 512.
Definition F_OK : Z := 0.
Definition X_OK : Z := 1.
Definition W_OK : Z := 2.
Definition R_OK : Z := 4.

(** An [off_t] returned as an [int]. *)
Definition to_int (z : Z) : Z := (z + 2 ^ 31) mod 2 ^ 32 - 2 ^ 31.
Definition of_bool (b : bool) : Z := if b then 1 else 0.

(** ** intcmp *)

Definition noint {A} : M xstate A := enprintf 2 "expected integer operands".

Definition sign_of (a : cstr) : Z := match a with c :: _ => if decide (c = "-"%char) then -1 else 1 | [] => 1 end.
Definition skip_sign (a : cstr) : cstr :=
  match a with c :: r => if decide (c = "-"%char ∨ c = "+"%char) then r else a | [] => [] end.
Fixpoint skip_zeros (a : cstr) : cstr :=
  match a with c :: r => if decide (c = "0"%char) then skip_zeros r else a | [] => [] end.
Definition cmp_int (c : comparison) : Z := match c with Lt => -1 | Eq => 0 | Gt => 1 end.

(** The sign of the result. *)
Definition intcmp (a b : cstr) : M xstate Z :=
  let asign := sign_of a in
  let bsign := sign_of b in
  let a := skip_sign a in
  let b := skip_sign b in
  if decide (a = [] ∨ b = []) then noint
  else if negb (forallb isdigit a) then noint
  else if negb (forallb isdigit b) then noint
  else
    let a := skip_zeros a in
    let b := skip_zeros b in
    let asign := asign * of_bool (bool_decide (a ≠ [])) in
    let bsign := bsign * of_bool (bool_decide (b ≠ [])) in
    mret (if decide (asign ≠ bsign) then if decide (asign < bsign) then -1 else 1
          else if decide (length a ≠ length b) then asign * (if decide (length a < length b)%nat then -1 else 1)
          else asign * cmp_int (strcmp a b)).

Section test.
Context `{Files}.

Definition mtimecmp (b1 b2 : stat_t) : Z :=
  if decide (st_sec b1 < st_sec b2) then -1
  else if decide (st_sec b1 > st_sec b2) then 1
  else if decide (st_nsec b1 < st_nsec b2) then -1
  else if decide (st_nsec b1 > st_nsec b2) then 1 else 0.

(** ** The primaries *)

Definition with_stat (st : cstr → option stat_t) (f : stat_t → Z) (s : cstr) : M xstate Z :=
  mret (match st s with None => 0 | Some buf => f buf end).
Definition is_kind (k : file_kind) (b : stat_t) : Z := of_bool (bool_decide (st_kind b = k)).

Definition unary_b := with_stat stat_ (is_kind BLK).
Definition unary_c := with_stat stat_ (is_kind CHR).
Definition unary_d := with_stat stat_ (is_kind DIR).
Definition unary_f := with_stat stat_ (is_kind REG).
Definition unary_g := with_stat stat_ (λ b, Z.land S_ISGID (st_mode b)).
Definition unary_h := with_stat lstat_ (is_kind LNK).
Definition unary_k := with_stat stat_ (λ b, Z.land S_ISVTX (st_mode b)).
Definition unary_p := with_stat stat_ (is_kind FIFO).
Definition unary_S := with_stat stat_ (is_kind SOCK).
Definition unary_s := with_stat stat_ (λ b, to_int (st_size b)).
Definition unary_u := with_stat stat_ (λ b, Z.land S_ISUID (st_mode b)).
Definition unary_n (s : cstr) : M xstate Z := mret (of_bool (bool_decide (s ≠ []))).
Definition unary_z (s : cstr) : M xstate Z := mret (of_bool (bool_decide (s = []))).
Definition unary_e (s : cstr) : M xstate Z := mret (of_bool (access_ s F_OK)).
Definition unary_r (s : cstr) : M xstate Z := mret (of_bool (access_ s R_OK)).
Definition unary_w (s : cstr) : M xstate Z := mret (of_bool (access_ s W_OK)).
Definition unary_x (s : cstr) : M xstate Z := mret (of_bool (access_ s X_OK)).
Definition unary_t (s : cstr) : M xstate Z :=
  match strtonum s 0 INT_MAX with
  | inl fd => mret (of_bool (isatty_ fd))
  | inr e => enprintf 2 (lit "strtonum " ++ s ++ lit ": " ++ errstr e)
  end.

Definition binary_se (s1 s2 : cstr) : M xstate Z := mret (of_bool (bool_decide (strcmp s1 s2 = Eq))).
Definition binary_sn (s1 s2 : cstr) : M xstate Z := mret (cmp_int (strcmp s1 s2)).
Definition binary_int (p : Z → bool) (s1 s2 : cstr) : M xstate Z := c <- intcmp s1 s2 ;; mret (of_bool (p c)).
Definition binary_eq := binary_int (λ c, bool_decide (c = 0)).
Definition binary_ne := binary_int (λ c, bool_decide (c ≠ 0)).
Definition binary_gt := binary_int (λ c, bool_decide (c > 0)).
Definition binary_ge := binary_int (λ c, bool_decide (c >= 0)).
Definition binary_lt := binary_int (λ c, bool_decide (c < 0)).
Definition binary_le := binary_int (λ c, bool_decide (c <= 0)).
Definition with_stats (f : stat_t → stat_t → bool) (s1 s2 : cstr) : M xstate Z :=
  mret (match stat_ s1, stat_ s2 with Some b1, Some b2 => of_bool (f b1 b2) | _, _ => 0 end).
Definition binary_ef := with_stats (λ b1 b2, bool_decide (st_dev b1 = st_dev b2 ∧ st_ino b1 = st_ino b2)).
Definition binary_ot := with_stats (λ b1 b2, bool_decide (mtimecmp b1 b2 < 0)).
Definition binary_nt := with_stats (λ b1 b2, bool_decide (mtimecmp b1 b2 > 0)).

Definition unary : list (cstr * (cstr → M xstate Z)) :=
  [(lit "-b", unary_b); (lit "-c", unary_c); (lit "-d", unary_d); (lit "-e", unary_e); (lit "-f", unary_f);
   (lit "-g", unary_g); (lit "-h", unary_h); (lit "-k", unary_k); (lit "-L", unary_h); (lit "-n", unary_n);
   (lit "-p", unary_p); (lit "-r", unary_r); (lit "-S", unary_S); (lit "-s", unary_s); (lit "-t", unary_t);
   (lit "-u", unary_u); (lit "-w", unary_w); (lit "-x", unary_x); (lit "-z", unary_z)].
Definition binary : list (cstr * (cstr → cstr → M xstate Z)) :=
  [(lit "=", binary_se); (lit "!=", binary_sn); (lit "-eq", binary_eq); (lit "-ne", binary_ne);
   (lit "-gt", binary_gt); (lit "-ge", binary_ge); (lit "-lt", binary_lt); (lit "-le", binary_le);
   (lit "-ef", binary_ef); (lit "-ot", binary_ot); (lit "-nt", binary_nt)].

Fixpoint find_test {A} (tests : list (cstr * A)) (name : cstr) : option A :=
  match tests with
  | [] => None
  | (n, f) :: tests => if decide (n = name) then Some f else find_test tests name
  end.

(** ** By the number of arguments *)

Definition not_ (m : M xstate Z) : M xstate Z := r <- m ;; mret (of_bool (bool_decide (r = 0))).
Definition onearg (a : cstr) : M xstate Z := unary_n a.
Definition twoarg (a b : cstr) : M xstate Z :=
  if decide (a = lit "!") then not_ (onearg b)
  else match find_test unary a with
       | Some t => t b
       | None => enprintf 2 (lit "bad unary test " ++ a)
       end.
Definition threearg (a b c : cstr) : M xstate Z :=
  match find_test binary b with
  | Some t => t a c
  | None => if decide (a = lit "!") then not_ (twoarg b c) else enprintf 2 (lit "bad binary test " ++ b)
  end.
Definition fourarg (a b c d : cstr) : M xstate Z :=
  if decide (a = lit "!") then not_ (threearg b c d) else enprintf 2 "too many arguments".

(** Whether the name of the program is a bracket, alone or behind a slash. *)
Definition is_bracket (argv0 : cstr) : bool :=
  match reverse argv0 with
  | c :: rest =>
      bool_decide (c = "["%char) && match rest with [] => true | d :: _ => bool_decide (d = "/"%char) end
  | [] => false
  end.

Definition test_main (argv0 : cstr) (argv : StrList) : M xstate Z :=
  argv <- (if is_bracket argv0 then
             if decide (last (argv0 :: argv) = Some (lit "]")) then mret (take (length argv - 1) argv)
             else enprintf 2 "no matching ]"
           else mret argv) ;;
  match argv with
  | [] => not_ (mret 0)
  | [a] => not_ (onearg a)
  | [a; b] => not_ (twoarg a b)
  | [a; b; c] => not_ (threearg a b c)
  | [a; b; c; d] => not_ (fourarg a b c d)
  | _ => enprintf 2 "too many arguments"
  end.
End test.

(** ** intcmp compares integers *)

(** An optional sign and digits, and the integer they denote. *)
Definition int_operand (s : cstr) (v : Z) : Prop :=
  ∃ ds, skip_sign s = ds ∧ ds ≠ [] ∧ Forall (λ c, isdigit c = true) ds ∧ v = sign_of s * num_value ds.

Lemma num_value_app acc ds : Forall (λ c, isdigit c = true) ds →
  foldl (λ acc c, acc * 10 + digit c) acc ds = acc * 10 ^ Z.of_nat (length ds) + num_value ds.
Proof.
  unfold num_value. intros Hd. revert acc. induction Hd as [|c ds Hc Hd IH]; intros acc; cbn [foldl length]; [simpl; lia|].
  rewrite IH, (IH (0 * 10 + digit c)). rewrite Nat2Z.inj_succ, Z.pow_succ_r by lia. lia.
Qed.

Lemma digit_range c : isdigit c = true → 0 ≤ digit c ≤ 9.
Proof. unfold isdigit, digit. rewrite bool_decide_eq_true. lia. Qed.

Lemma num_value_range ds : Forall (λ c, isdigit c = true) ds → 0 ≤ num_value ds < 10 ^ Z.of_nat (length ds).
Proof.
  induction 1 as [|c ds Hc Hd IH]; [done|]. unfold num_value. cbn [foldl]. rewrite num_value_app by done.
  apply digit_range in Hc. cbn [length]. rewrite Nat2Z.inj_succ, Z.pow_succ_r by lia. nia.
Qed.

(** A number without leading zeros has its first digit's weight. *)
Lemma value_lead ds : Forall (λ c, isdigit c = true) ds → ds ≠ [] → head ds ≠ Some "0"%char →
  10 ^ (Z.of_nat (length ds) - 1) ≤ num_value ds.
Proof.
  destruct 1 as [|c ds Hc Hd]; [done|]. intros _ Hz. unfold num_value. cbn [foldl]. rewrite num_value_app by done.
  pose proof (num_value_range ds Hd). apply digit_range in Hc as Hr. cbn [length]. replace (Z.of_nat (S (length ds)) - 1) with (Z.of_nat (length ds)) by lia.
  assert (1 ≤ digit c); [|nia]. destruct (decide (digit c = 0)) as [H0|]; [|lia]. destruct Hz. simpl. f_equal.
  unfold digit in H0. apply byte_of_inj. unfold byte_of. change (nat_of_ascii "0") with 48%nat. lia.
Qed.

Lemma skip_zeros_ok ds : Forall (λ c, isdigit c = true) ds →
  Forall (λ c, isdigit c = true) (skip_zeros ds) ∧ num_value (skip_zeros ds) = num_value ds ∧
  head (skip_zeros ds) ≠ Some "0"%char.
Proof.
  induction 1 as [|c ds Hc Hd IH]; simpl; [done|]. case_decide as Hz; [subst c; done|].
  split_and!; [by constructor|done|]. simpl. congruence.
Qed.

Lemma strcmp_value a b : Forall (λ c, isdigit c = true) a → Forall (λ c, isdigit c = true) b → length a = length b →
  strcmp a b = (num_value a ?= num_value b).
Proof.
  intros Ha. revert b. induction Ha as [|x a Hx Ha IH]; intros b Hb Hl; destruct Hb as [|y b Hy Hb]; simpl in Hl; try lia; [done|].
  unfold num_value. cbn [foldl strcmp]. rewrite !num_value_app by done.
  pose proof (num_value_range a Ha). pose proof (num_value_range b Hb). injection Hl as Hl. rewrite Hl in *.
  destruct (Z.compare_spec (byte_of x) (byte_of y)) as [E|E|E]; unfold byte_of in E.
  - rewrite IH by done. assert (digit x = digit y) as -> by (unfold digit; lia).
    destruct (Z.compare_spec (num_value a) (num_value b)); symmetry; [apply Z.compare_eq_iff|apply Z.compare_lt_iff|apply Z.compare_gt_iff]; lia.
  - symmetry. apply Z.compare_lt_iff. assert (digit x + 1 ≤ digit y) by (unfold digit; lia). nia.
  - symmetry. apply Z.compare_gt_iff. assert (digit y + 1 ≤ digit x) by (unfold digit; lia). nia.
Qed.

Definition is_int (s : cstr) : bool := bool_decide (skip_sign s ≠ []) && forallb isdigit (skip_sign s).
Definition int_value (s : cstr) : Z := sign_of s * num_value (skip_sign s).

Lemma forallb_digits ds : forallb isdigit ds = true ↔ Forall (λ c, isdigit c = true) ds.
Proof. rewrite forallb_forall, Forall_forall. by setoid_rewrite list_elem_of_In. Qed.

Lemma sign_of_cases s : sign_of s = 1 ∨ sign_of s = -1.
Proof. destruct s as [|c s]; simpl; [by left|]. case_decide; auto. Qed.

Lemma cmp_lt x y : x < y → cmp_int (x ?= y) = -1.
Proof. by intros ->%Z.compare_lt_iff. Qed.
Lemma cmp_gt x y : y < x → cmp_int (x ?= y) = 1.
Proof. by intros ->%Z.compare_gt_iff. Qed.

(** The order of two signed magnitudes, each with its zeros skipped. *)
Lemma signed_compare sa sb a b : (sa = 1 ∨ sa = -1) → (sb = 1 ∨ sb = -1) →
  Forall (λ c, isdigit c = true) a → Forall (λ c, isdigit c = true) b →
  head a ≠ Some "0"%char → head b ≠ Some "0"%char →
  let asign := sa * of_bool (bool_decide (a ≠ [])) in
  let bsign := sb * of_bool (bool_decide (b ≠ [])) in
  let r := if decide (asign ≠ bsign) then if decide (asign < bsign) then -1 else 1
           else if decide (length a ≠ length b) then asign * (if decide (length a < length b)%nat then -1 else 1)
           else asign * cmp_int (strcmp a b) in
  r = cmp_int (sa * num_value a ?= sb * num_value b).
Proof.
  intros Hsa Hsb Ha Hb Hza Hzb. cbv zeta.
  pose proof (num_value_range a Ha) as Ra. pose proof (num_value_range b Hb) as Rb.
  assert (∀ d : cstr, Forall (λ c, isdigit c = true) d → head d ≠ Some "0"%char →
    of_bool (bool_decide (d ≠ [])) = (if decide (d = []) then 0 else 1) ∧ (d = [] → num_value d = 0) ∧
    (d ≠ [] → 10 ^ (Z.of_nat (length d) - 1) ≤ num_value d ∧ 1 ≤ num_value d)) as Hnz.
  { intros d Hd Hz. split_and!.
    - destruct d; [done|]. rewrite bool_decide_eq_true_2 by done. by rewrite decide_False.
    - by intros ->.
    - intros Hne. pose proof (value_lead d Hd Hne Hz). split; [done|].
      assert (0 < 10 ^ (Z.of_nat (length d) - 1)); [|lia]. apply Z.pow_pos_nonneg; [lia|]. destruct d; [done|]. simpl. lia. }
  destruct (Hnz a Ha Hza) as (-> & Ha0 & Ha1), (Hnz b Hb Hzb) as (-> & Hb0 & Hb1).
  assert (∀ l1 l2 : cstr, l1 ≠ [] → l2 ≠ [] → (length l1 < length l2)%nat → num_value l1 < 10 ^ Z.of_nat (length l1) →
    10 ^ (Z.of_nat (length l2) - 1) ≤ num_value l2 → num_value l1 < num_value l2) as Hlen.
  { intros l1 l2 _ _ Hlt Hu Hw. assert (10 ^ Z.of_nat (length l1) ≤ 10 ^ (Z.of_nat (length l2) - 1)); [|lia].
    apply Z.pow_le_mono_r; lia. }
  destruct (decide (a = [])) as [Ea|Ea], (decide (b = [])) as [Eb|Eb].
  - rewrite Ha0, Hb0 by done. subst. destruct Hsa as [-> | ->], Hsb as [-> | ->]; done.
  - rewrite Ha0 by done. destruct (Hb1 Eb). destruct Hsa as [-> | ->], Hsb as [-> | ->];
      rewrite decide_True by lia; case_decide; try lia; symmetry; (apply cmp_lt || apply cmp_gt); lia.
  - rewrite Hb0 by done. destruct (Ha1 Ea). destruct Hsa as [-> | ->], Hsb as [-> | ->];
      rewrite decide_True by lia; case_decide; try lia; symmetry; (apply cmp_lt || apply cmp_gt); lia.
  - destruct (Ha1 Ea) as [La ?], (Hb1 Eb) as [Lb ?]. rewrite !Z.mul_1_r. destruct (decide (sa = sb)) as [<-|Hs].
    + rewrite decide_False by (intros Hn; by apply Hn). destruct (decide (length a = length b)) as [He|He].
      * rewrite decide_False by (intros Hn; by apply Hn). rewrite strcmp_value by done.
        destruct Hsa as [-> | ->]; [rewrite !Z.mul_1_l; by destruct (_ ?= _)|].
        replace (-1 * num_value a) with (- num_value a) by lia. replace (-1 * num_value b) with (- num_value b) by lia.
        rewrite Z.compare_opp, (Z.compare_antisym (num_value a) (num_value b)). by destruct (num_value a ?= num_value b).
      * rewrite decide_True by done. destruct (decide (length a < length b)%nat) as [Hlt|Hlt].
        -- pose proof (Hlen a b Ea Eb Hlt (proj2 Ra) Lb). destruct Hsa as [-> | ->]; symmetry; (apply cmp_lt || apply cmp_gt); lia.
        -- pose proof (Hlen b a Eb Ea ltac:(lia) (proj2 Rb) La). destruct Hsa as [-> | ->]; symmetry; (apply cmp_lt || apply cmp_gt); lia.
    + rewrite decide_True by done. destruct Hsa as [-> | ->], Hsb as [-> | ->]; try done; symmetry; (apply cmp_lt || apply cmp_gt); lia.
Qed.

Lemma intcmp_ok a b s : intcmp a b s =
  if is_int a && is_int b then Ok (cmp_int (int_value a ?= int_value b)) s
  else Die "expected integer operands" (s <| x_status := 2 |>).
Proof.
  unfold intcmp, is_int, int_value. cbv zeta.
  destruct (decide (skip_sign a = [] ∨ skip_sign b = [])) as [Hor|Hor].
  { assert (bool_decide (skip_sign a ≠ []) && forallb isdigit (skip_sign a) && (bool_decide (skip_sign b ≠ []) && forallb isdigit (skip_sign b)) = false) as ->; [|done].
    destruct Hor as [-> | ->]; simpl; [done|]. apply andb_false_r. }
  rewrite (bool_decide_eq_true_2 (skip_sign a ≠ [])), (bool_decide_eq_true_2 (skip_sign b ≠ [])) by tauto. rewrite !andb_true_l.
  destruct (forallb isdigit (skip_sign a)) eqn:Ha; [|done]. destruct (forallb isdigit (skip_sign b)) eqn:Hb; [|done]. simpl.
  apply forallb_digits in Ha, Hb. destruct (skip_zeros_ok _ Ha) as (Da & Va & Za), (skip_zeros_ok _ Hb) as (Db & Vb & Zb).
  rewrite <- Va, <- Vb. unfold mret. f_equal. apply signed_compare; try done; apply sign_of_cases.
Qed.

(** The six integer comparisons of test compare the integers that the operands
    denote, an optional sign and digits of any number, with no loss by overflow;
    an operand of another form is an error with exit status 2. *)
Theorem test_integers `{Files} a b op (rel : Z → Z → bool) s :
  (lit op, rel) ∈ [(lit "-eq", Z.eqb); (lit "-ne", λ x y, negb (x =? y)); (lit "-gt", Z.gtb); (lit "-ge", Z.geb);
                   (lit "-lt", Z.ltb); (lit "-le", Z.leb)] →
  test_main "test" [a; lit op; b] s =
  if is_int a && is_int b then Ok (if rel (int_value a) (int_value b) then 0 else 1) s
  else Die "expected integer operands" (s <| x_status := 2 |>).
Proof.
  intros Hop. assert (∀ t, find_test binary (lit op) = Some t →
    test_main "test" [a; lit op; b] s = not_ (t a b) s) as Hm.
  { intros t Ht. unfold test_main, mbind. change (is_bracket "test") with false. simpl. unfold threearg. by rewrite Ht. }
  unfold Z.gtb, Z.geb, Z.ltb, Z.leb in Hop.
  assert (∀ x y : Z, x =? y = match x ?= y with Eq => true | _ => false end) as Heqb.
  { intros x y. destruct (Z.compare_spec x y), (Z.eqb_spec x y); lia || done. }
  apply list_elem_of_In in Hop. simpl in Hop.
  destruct_or! Hop; try done; injection Hop as Hop <-; rewrite <- Hop in Hm |- *; rewrite (Hm _ eq_refl);
    unfold binary_eq, binary_ne, binary_gt, binary_ge, binary_lt, binary_le, binary_int, not_, mbind; rewrite intcmp_ok;
    destruct (is_int a && is_int b); try done; rewrite ?Heqb; by destruct (int_value a ?= int_value b).
Qed.

(** A system without files. *)
Definition no_files : Files := {| stat_ := λ _, None; lstat_ := λ _, None; access_ := λ _ _, false; isatty_ := λ _, false |}.
Lemma test_integers_witness :
  @test_main no_files "test" [lit "-00123456789012345678901234567890"; lit "-lt"; lit "+7"] (mkX 0 []) = Ok 0 (mkX 0 []).
Proof.
  etransitivity; [apply (@test_integers no_files _ _ "-lt" Z.ltb)|vm_compute; reflexivity].
  apply list_elem_of_In. simpl. auto 10.
Defined.

(** A file whose size is a multiple of 2^32 counts as empty. *)
Example test_s_large :
  let fs := {| stat_ := λ _, Some (mkStat REG 420 (2 ^ 32) 0 0 0 0); lstat_ := λ _, None; access_ := λ _ _, true; isatty_ := λ _, false |} in
  @test_main fs "test" [lit "-s"; lit "f"] (mkX 0 []) = Ok 1 (mkX 0 []).
Proof. vm_compute. reflexivity. Qed.
