(* ===== verification/Cal.v ===== *)
(** * cal: src/cmd/posix/cal.c

    The calendar of a month, Julian until 2 September 1752 and Gregorian from the
    14th on, and the layout of months in columns.  A line of a month is
    given by its cells, [None] for a blank one, and then as text.  Years are
    [size_t], so the year before year 0 wraps.  What the clock and the terminal say
    is a parameter.  Proved: the days of the week follow each other from day
    to day through all years from 1 on, and the grid of a month holds its days, each
    once and under its day of the week, both compared with a calendar that counts days. *)

From stdpp Require Import strings pretty.
From S2P Require Import Prelude CString StrList Args Stdio Strtonum.

Local Open Scope Z_scope.

Inductive caltype := JULIAN | GREGORIAN.
#[export] Instance caltype_eq_dec : EqDecision caltype.
Proof. solve_decision. Defined.
Definition FEB : Z := 1.
Definition TRANS_YEAR : Z := 1752.
Definition TRANS_MONTH : Z := 8.
Definition TRANS_DAY : Z := 2.

Definition isleap (year : Z) (cal : caltype) : bool :=
  match cal with
  | GREGORIAN =>
      if decide (year mod 400 = 0) then true
      else if decide (year mod 100 = 0) then false else bool_decide (year mod 4 = 0)
  | JULIAN => bool_decide (year mod 4 = 0)
  end.

Definition mdays : list Z := [31; 28; 31; 30; 31; 30; 31; 31; 30; 31; 30; 31].
Definition monthlength (year month : Z) (cal : caltype) : Z :=
  if decide (month = FEB ∧ isleap year cal = true) then 29 else nth (Z.to_nat month) mdays 0.

Definition size_t (z : Z) : Z := z mod 2 ^ 64.

Definition dayofweek (year month dom : Z) (cal : caltype) : Z :=
  let a := Z.quot (13 - month) 12 in
  let y := size_t (year - a) in
  let m := month + 12 * a - 1 in
  match cal with
  | GREGORIAN => size_t (dom + y + y / 4 - y / 100 + y / 400 + Z.quot (31 * m) 12) mod 7
  | JULIAN => size_t (5 + dom + y + y / 4 + Z.quot (31 * m) 12) mod 7
  end.

(** ** printgrid *)

Definition cal_of (year month : Z) : caltype :=
  if decide (year < TRANS_YEAR ∨ (year = TRANS_YEAR ∧ month <= TRANS_MONTH)) then JULIAN else GREGORIAN.
Definition is_trans (year month : Z) : bool := bool_decide (year = TRANS_YEAR ∧ month = TRANS_MONTH).
Definition first_offset (year month fday : Z) : Z :=
  let offset := dayofweek year month 1 (cal_of year month) - fday in
  if decide (offset < 0) then offset + 7 else offset.

(** The loop over the columns from [d] on, with [k] of them left. *)
Fixpoint day_cells (trans : bool) (mlen : Z) (k : nat) (dom : Z) : list (option Z) :=
  match k with
  | O => []
  | S k =>
      if decide (dom <= mlen) then
        Some dom :: day_cells trans mlen k (if trans && bool_decide (dom = TRANS_DAY) then dom + 11 + 1 else dom + 1)
      else replicate (S k) None
  end.
Definition line_cells (trans : bool) (mlen offset fday line : Z) : list (option Z) :=
  if decide (line = 1) then
    replicate (Z.to_nat offset) None ++ day_cells trans mlen (7 - Z.to_nat offset) 1
  else
    let dom := 8 - offset + (line - 2) * 7 in
    let dom := if trans && negb (bool_decide (line = 2 ∧ fday = 3)) then dom + 11 else dom in
    day_cells trans mlen 7 dom.
Definition grid_cells (year month fday line : Z) : list (option Z) :=
  line_cells (is_trans year month) (monthlength year month (cal_of year month)) (first_offset year month fday) fday line.

(** ["%2d"] *)
Definition pad2 (s : cstr) : cstr := replicate (2 - length s) " "%char ++ s.
Definition ESC : ascii := "027"%char.
Definition cell_text (today : Z) (c : option Z) : cstr :=
  match c with
  | None => lit "   "
  | Some dom =>
      if decide (dom = today) then ESC :: lit "[7m" ++ pad2 (lit (pretty dom)) ++ ESC :: lit "[0m "
      else pad2 (lit (pretty dom)) ++ lit " "
  end.

(** What [localtime] returned. *)
Record tm := mkTm { tm_year : Z; tm_mon : Z; tm_mday : Z }.

Definition printgrid (ltime : option tm) (year month fday line : Z) : cstr :=
  let today :=
    match ltime with
    | Some t => if decide (year = size_t (tm_year t + 1900) ∧ month = tm_mon t) then tm_mday t else 0
    | None => 0
    end in
  concat (map (cell_text today) (grid_cells year month fday line)).

(** ** drawcal *)

Definition smon : list cstr := lits
  ["January"; "February"; "March"; "April"; "May"; "June"; "July"; "August"; "September"; "October"; "November"; "December"].
Definition days : list cstr := lits ["Su"; "Mo"; "Tu"; "We"; "Th"; "Fr"; "Sa"].

(** The year and the month of column [m]. *)
Definition cur (year month m : Z) : Z * Z :=
  let cur_year := year + m / 12 in
  let cur_month := month + m mod 12 in
  if decide (11 < cur_month) then (cur_year + 1, cur_month - 12) else (cur_year, cur_month).

Definition WIDTH : nat := length (lit "Su Mo Tu We Th Fr Sa").
Definition blanks (n : nat) : cstr := replicate n " "%char.
(** [snprintf] cuts the title to the buffer. *)
Definition month_title (year month m : Z) : cstr :=
  let '(y, mo) := cur year month m in
  let month_year := take WIDTH (nth (Z.to_nat mo) smon [] ++ lit " " ++ lit (pretty y)) in
  let pad := (WIDTH - length month_year)%nat in
  blanks (pad / 2 + pad mod 2) ++ month_year ++ blanks (pad / 2) ++ lit "   ".
Definition day_title (fday : Z) : cstr :=
  concat (map (λ i, nth (Z.to_nat ((fday + Z.of_nat i) mod 7)) days [] ++ lit " ") (seq 0 7)) ++ lit "  ".

Section draw.
Context (ltime : option tm) (year month fday : Z) (ncols nmons : Z).

Definition grid_line (line : Z) (ms : list Z) : cstr :=
  concat (map (λ m, let '(y, mo) := cur year month m in printgrid ltime y mo fday line ++ lit "  ") ms) ++ [NL].
(** The months of one row. *)
Definition row_text (ms : list Z) : cstr :=
  concat (map (month_title year month) ms) ++ [NL] ++
  concat (map (λ _, day_title fday) ms) ++ [NL] ++
  concat (map (λ line, grid_line line ms) [1; 2; 3; 4; 5; 6]).
(** The columns of the row that starts at [m]. *)
Definition row_months (m : Z) : list Z :=
  map (λ i, m + Z.of_nat i) (seq 0 (Z.to_nat (Z.min ncols (nmons - m)))).
Fixpoint rows (fuel : nat) (m : Z) : option cstr :=
  if decide (m < nmons) then
    match fuel with
    | O => None
    | S fuel => rest ← rows fuel (m + Z.of_nat (length (row_months m))); Some (row_text (row_months m) ++ rest)
    end
  else Some [].
(** A row shows a month at least, unless there are no columns. *)
Definition drawcal : option cstr := rows (Z.to_nat nmons) 0.
End draw.

(** ** main *)

Record calopts := mkCal { c_year : Z; c_month : Z; c_fday : Z; c_ncols : Z; c_nmons : Z }.
#[export] Instance eta_calopts : Eta calopts := λ o, mkCal (c_year o) (c_month o) (c_fday o) (c_ncols o) (c_nmons o).

Section main.
Context (now : tm) (tty : bool).

Definition cal_usage {A} (argv0 : cstr) : M cstr A :=
  eprintf (lit "usage: " ++ argv0 ++ lit " [-1 | -3 | -y | -n num] [-s | -m | -f num] [-c num] [[month] year]").
Definition cal_arg (c : ascii) (a : cstr) (o : calopts) : M cstr calopts :=
  if decide (c = "c"%char) then n <- estrtonum a 0 LLONG_MAX ;; mret (o <| c_ncols := n |>)
  else if decide (c = "f"%char) then n <- estrtonum a 0 6 ;; mret (o <| c_fday := n |>)
  else n <- estrtonum a 1 LLONG_MAX ;; mret (o <| c_nmons := n |>).
Definition cal_flag (argv0 : cstr) (c : ascii) (o : calopts) : M cstr calopts :=
  if decide (c = "1"%char) then mret (o <| c_nmons := 1 |>)
  else if decide (c = "3"%char) then
    mret (if decide (c_month o - 1 = 0) then o <| c_nmons := 3 |> <| c_month := 12 |> <| c_year := size_t (c_year o - 1) |>
          else o <| c_nmons := 3 |> <| c_month := c_month o - 1 |>)
  else if decide (c = "m"%char) then mret (o <| c_fday := 1 |>)
  else if decide (c = "s"%char) then mret (o <| c_fday := 0 |>)
  else if decide (c = "y"%char) then mret (o <| c_month := 1 |> <| c_nmons := 12 |>)
  else cal_usage argv0.

Definition cal_main (argv0 : cstr) (args : StrList) : M cstr Z :=
  let o := mkCal (size_t (tm_year now + 1900)) (tm_mon now + 1) 0 3 0 in
  p <- argbegin (λ c, bool_decide (c ∈ lit "cfn")) cal_arg (cal_flag argv0) (cal_usage argv0) args o ;;
  let '(argv, o) := p in
  let o := if decide (c_nmons o = 0) then
             if decide (length argv = 1%nat) then o <| c_month := 1 |> <| c_nmons := 12 |> else o <| c_nmons := 1 |>
           else o in
  o <- match argv with
       | [] => mret o
       | [y] => year <- estrtonum y 0 INT_MAX ;; mret (o <| c_year := year |>)
       | [m; y] =>
           month <- estrtonum m 1 12 ;; year <- estrtonum y 0 INT_MAX ;;
           mret (o <| c_month := month |> <| c_year := year |>)
       | _ => cal_usage argv0
       end ;;
  text <- budget (drawcal (if tty then Some now else None) (c_year o) (c_month o - 1) (c_fday o) (c_ncols o) (c_nmons o)) ;;
  modify (λ out, out ++ text) ;;
  mret 0.
End main.

(** * The calendar is right

    Days of the week follow each other ([weekdays_follow]), the grid of a month
    holds its days under their days of the week ([cal_grid]), and the program
    ends exactly when it has a column to print in ([drawcal_ends]). *)

(** ** Dates *)

(** The calendar of a day: the month of the change has both. *)
Definition cal_at (year month d : Z) : caltype :=
  if is_trans year month && bool_decide (TRANS_DAY < d) then GREGORIAN else cal_of year month.
Definition dow (year month d : Z) : Z := dayofweek year month d (cal_at year month d).

Definition valid (year month d : Z) : Prop :=
  1 ≤ d ≤ monthlength year month (cal_of year month) ∧ ¬ (is_trans year month = true ∧ TRANS_DAY < d < 14).
#[export] Instance valid_dec y m d : Decision (valid y m d).
Proof. unfold valid. apply _. Defined.

Definition next_day (year month d : Z) : Z * Z * Z :=
  if decide (is_trans year month = true ∧ d = TRANS_DAY) then (year, month, 14)
  else if decide (d < monthlength year month (cal_of year month)) then (year, month, d + 1)
  else if decide (month < 11) then (year, month + 1, 1)
  else (year + 1, 0, 1).

(** Years for which the sums fit 64 bits: all that cal can print. *)
Definition year_ok (year : Z) : Prop := 1 ≤ year < 2 ^ 62.

Lemma size_t_small z : 0 ≤ z < 2 ^ 64 → size_t z = z.
Proof. apply Z.mod_small. Qed.

(** The formula, without the wrapping. *)
Lemma dayofweek_plain year month d cal : year_ok year → 0 ≤ month < 12 → 0 ≤ d ≤ 31 →
  let a := if decide (month < 2) then 1 else 0 in
  let y := year - a in
  dayofweek year month d cal =
  match cal with
  | GREGORIAN => (d + y + y / 4 - y / 100 + y / 400 + 31 * (month + 12 * a - 1) / 12) mod 7
  | JULIAN => (5 + d + y + y / 4 + 31 * (month + 12 * a - 1) / 12) mod 7
  end.
Proof.
  intros Hy Hm Hd a y. unfold dayofweek. cbv zeta.
  assert (Z.quot (13 - month) 12 = a) as ->.
  { unfold a. rewrite Z.quot_div_nonneg by lia. case_decide; dlia. }
  assert (0 ≤ a ≤ 1 ∧ 1 ≤ month + 12 * a - 1 ≤ 12) as [Ha Hma] by (unfold a; case_decide; lia).
  assert (size_t (year - a) = y) as ->. { apply size_t_small. unfold year_ok in Hy. lia. }
  rewrite Z.quot_div_nonneg by lia. unfold year_ok in Hy. assert (0 ≤ y < 2 ^ 62) as Hy' by (unfold y; lia).
  assert (2 ^ 64 = 4 * 2 ^ 62 ∧ 1000 ≤ 2 ^ 62) as [H64 Hbig] by done.
  destruct cal; rewrite size_t_small; try done; rewrite H64; clear -Hy' Hma Hd Hbig; revert Hy' Hbig;
    generalize (2 ^ 62) as N; intros; dlia.
Qed.

Lemma month_cases month : 0 ≤ month < 12 → month ∈ [0; 1; 2; 3; 4; 5; 6; 7; 8; 9; 10; 11].
Proof. intros H. assert (month = 0 ∨ month = 1 ∨ month = 2 ∨ month = 3 ∨ month = 4 ∨ month = 5 ∨ month = 6 ∨ month = 7 ∨
  month = 8 ∨ month = 9 ∨ month = 10 ∨ month = 11) as Hor by lia. destruct_or! Hor; subst; set_solver. Qed.

Lemma monthlength_range year month cal : 0 ≤ month < 12 → 28 ≤ monthlength year month cal ≤ 31.
Proof.
  intros H%month_cases. unfold monthlength. case_decide; [lia|].
  apply list_elem_of_In in H. simpl in H. destruct_or! H; subst; simpl; (lia || done).
Qed.

(** Inside a month and a calendar the days count up. *)
Lemma dow_in_month year month d e cal : year_ok year → 0 ≤ month < 12 → 0 ≤ d ≤ 31 → 0 ≤ e ≤ 31 →
  dayofweek year month e cal = (dayofweek year month d cal + (e - d)) mod 7.
Proof.
  intros Hy Hm Hd He. rewrite !dayofweek_plain by done. cbv zeta.
  destruct cal; rewrite Z.add_mod_idemp_l by lia; f_equal; lia.
Qed.

(** From the last day of a month to the first of the next, in one calendar. *)
Lemma monthlength_other year month cal : month ≠ FEB → monthlength year month cal = nth (Z.to_nat month) mdays 0.
Proof. intros H. unfold monthlength. by rewrite decide_False by tauto. Qed.
Lemma monthlength_feb year cal : monthlength year FEB cal = if isleap year cal then 29 else 28.
Proof. unfold monthlength. destruct (isleap year cal); [by rewrite decide_True|by rewrite decide_False by naive_solver]. Qed.

Lemma isleap_julian year : isleap year JULIAN = true ↔ year mod 4 = 0.
Proof. apply bool_decide_eq_true. Qed.
Lemma isleap_gregorian year : isleap year GREGORIAN = true ↔ year mod 4 = 0 ∧ (year mod 100 ≠ 0 ∨ year mod 400 = 0).
Proof.
  unfold isleap. repeat case_decide; rewrite ?bool_decide_eq_true; split; try done; try dlia; intros [? ?]; dlia.
Qed.

Ltac known_months := repeat match goal with |- context [nth (Z.to_nat ?m) mdays 0] =>
  let v := eval vm_compute in (nth (Z.to_nat m) mdays 0) in change (nth (Z.to_nat m) mdays 0) with v end.

Lemma dow_next_month year month cal : year_ok year → 0 ≤ month < 11 →
  dayofweek year (month + 1) 1 cal = (dayofweek year month (monthlength year month cal) cal + 1) mod 7.
Proof.
  intros Hy Hm. pose proof (monthlength_range year month cal ltac:(lia)) as Hl.
  rewrite !dayofweek_plain by (done || lia). cbv zeta. clear Hl.
  destruct (decide (month = FEB)) as [->|Hf].
  - rewrite monthlength_feb. unfold FEB. rewrite decide_False, decide_True by lia.
    unfold year_ok in Hy. destruct cal; rewrite Z.add_mod_idemp_l by lia.
    + pose proof (isleap_julian year). destruct (isleap year JULIAN); dlia.
    + pose proof (isleap_gregorian year). destruct (isleap year GREGORIAN); dlia.
  - rewrite monthlength_other by done. unfold FEB in Hf.
    assert (month ∈ [0; 1; 2; 3; 4; 5; 6; 7; 8; 9; 10; 11]) as Hc by (apply month_cases; lia).
    apply list_elem_of_In in Hc. simpl in Hc.
    destruct_or! Hc; try done; subst month; try lia; known_months; simpl decide; cbv iota;
      generalize (year / 4), (year / 100), (year / 400), ((year - 1) / 4), ((year - 1) / 100), ((year - 1) / 400); intros;
      destruct cal; rewrite Z.add_mod_idemp_l by lia; repeat (case_decide; try lia); dlia.
Qed.

Lemma dow_next_year year cal : year_ok year → year_ok (year + 1) →
  dayofweek (year + 1) 0 1 cal = (dayofweek year 11 31 cal + 1) mod 7.
Proof.
  intros Hy Hy'. rewrite !dayofweek_plain by (done || lia). cbv zeta. rewrite decide_True, decide_False by lia.
  replace (year + 1 - 1) with (year - 0) by lia. generalize ((year - 0) / 4), ((year - 0) / 100), ((year - 0) / 400). intros.
  destruct cal; rewrite Z.add_mod_idemp_l by lia; dlia.
Qed.

Lemma is_trans_true year month : is_trans year month = true ↔ year = 1752 ∧ month = 8.
Proof. apply bool_decide_eq_true. Qed.

(** Outside the month of the change the calendar is that of the month. *)
Lemma cal_at_month year month d : ¬ (year = 1752 ∧ month = 8) → cal_at year month d = cal_of year month.
Proof. intros H. unfold cal_at. destruct (is_trans year month) eqn:E; [|done]. by apply is_trans_true in E. Qed.

Lemma cal_at_first year month : cal_at year month 1 = cal_of year month.
Proof. unfold cal_at. by rewrite (bool_decide_eq_false_2 (TRANS_DAY < 1)), andb_false_r by (unfold TRANS_DAY; lia). Qed.

Lemma cal_of_next year month : ¬ (year = 1752 ∧ month = 8) → 0 ≤ month ≤ 11 →
  cal_of year (month + 1) = cal_of year month ∧ (month = 11 → cal_of (year + 1) 0 = cal_of year month).
Proof.
  intros H Hm. unfold cal_of, TRANS_YEAR, TRANS_MONTH. split; [|intros ->]; apply decide_ext; lia.
Qed.

(** The day after a day has the next day of the week: inside months, from month
    to month, from year to year, through leap years of both calendars and over
    the eleven days left out in September 1752, for all years from 1 on; and
    1 January 2000 is a Saturday. *)
Theorem weekdays_follow year month d : 1 ≤ year < 2 ^ 61 → 0 ≤ month < 12 → valid year month d →
  (let '(y, m, e) := next_day year month d in dow y m e = (dow year month d + 1) mod 7) ∧ dow 2000 0 1 = 6.
Proof.
  intros Hy Hm [Hd Hnt]. split; [|done].
  assert (year_ok year ∧ year_ok (year + 1)) as [Hy1 Hy2] by (unfold year_ok; lia).
  pose proof (monthlength_range year month (cal_of year month) Hm) as Hl. unfold next_day.
  destruct (is_trans year month) eqn:Et.
  - apply is_trans_true in Et as [-> ->]. change (cal_of 1752 8) with JULIAN in *. change (monthlength 1752 8 JULIAN) with 30 in *.
    destruct (decide (true = true ∧ d = TRANS_DAY)) as [[_ ->]|Hd2]; [done|]. unfold TRANS_DAY in *.
    destruct (decide (d < 30)) as [Hlt|Hge]; [|assert (d = 30) as -> by lia; done].
    unfold dow. assert (cal_at 1752 8 (d + 1) = cal_at 1752 8 d) as ->.
    { unfold cal_at. rewrite (bool_decide_ext (TRANS_DAY < d + 1) (TRANS_DAY < d)); [done|]. unfold TRANS_DAY.
      assert (d ≠ 2) by tauto. lia. }
    rewrite (dow_in_month 1752 8 d (d + 1)) by (done || lia). f_equal. lia.
  - assert (¬ (year = 1752 ∧ month = 8)) as Hn by (intros H%is_trans_true; congruence).
    rewrite decide_False by naive_solver. destruct (cal_of_next year month Hn ltac:(lia)) as [Hc1 Hc2].
    destruct (decide (d < monthlength year month (cal_of year month))) as [Hlt|Hge].
    + unfold dow. rewrite !cal_at_month by done. rewrite (dow_in_month year month d (d + 1)) by (done || lia). f_equal. lia.
    + replace d with (monthlength year month (cal_of year month)) by lia. destruct (decide (month < 11)) as [Hm11|Hm11].
      * unfold dow. rewrite cal_at_first, cal_at_month by done. rewrite Hc1. apply dow_next_month; [done|lia].
      * assert (month = 11) as -> by lia. unfold dow. rewrite cal_at_first, cal_at_month by done. rewrite Hc2 by done.
        rewrite (monthlength_other year 11) by done. by apply dow_next_year.
Qed.
Lemma weekdays_follow_witness : dow 1900 2 1 = (dow 1900 1 28 + 1) mod 7 ∧ dow 2000 0 1 = 6.
Proof. apply (weekdays_follow 1900 1 28); [lia|lia|]. apply (bool_decide_unpack (valid 1900 1 28)). vm_compute. exact I. Defined.

(** January of the year 0 does not lead to its March: the year before it wraps. *)
Example year_zero : dow 0 2 1 = 1 ∧ dow 0 1 29 = 4.
Proof. vm_compute. done. Qed.

Lemma filter_all {A} (P : A → Prop) `{∀ x, Decision (P x)} l : Forall P l → filter P l = l.
Proof. induction 1 as [|x l Hx Hl IH]; [done|]. rewrite filter_cons_True by done. by rewrite IH. Qed.

(** ** The calendar, by counting days *)

(** England's calendar: Julian leap years up to 1752, Gregorian ones after it, and
    the dates of a month; months are counted from 0. *)
Definition leap_year (y : Z) : Prop := y mod 4 = 0 ∧ (y ≤ 1752 ∨ y mod 100 ≠ 0 ∨ y mod 400 = 0).
#[export] Instance leap_year_dec y : Decision (leap_year y).
Proof. unfold leap_year. apply _. Defined.
Definition dates (y m : Z) : list Z :=
  if decide (y = 1752 ∧ m = 8) then [1; 2] ++ seqZ 14 17
  else seqZ 1 (if decide (m = 1) then if decide (leap_year y) then 29 else 28
               else if decide (m = 3 ∨ m = 5 ∨ m = 8 ∨ m = 10) then 30 else 31).

(** The days from 1 January of year 1 up to a date, and its day of the week: that
    first day was a Saturday. *)
Definition months_days (y : Z) (n : nat) : Z := Z.of_nat (length (concat (map (λ m, dates y (Z.of_nat m)) (seq 0 n)))).
Fixpoint years_days (n : nat) : Z :=
  match n with O => 0 | S n => years_days n + months_days (Z.of_nat n + 1) 12 end.
Definition days_before (y m d : Z) : Z :=
  years_days (Z.to_nat (y - 1)) + months_days y (Z.to_nat m) + Z.of_nat (length (filter (λ e, e < d) (dates y m))).
Definition weekday (y m d : Z) : Z := (6 + days_before y m d) mod 7.

(** Known days: Magna Carta on a Monday, the days around the reform, and the first of 2000. *)
Example known_weekdays : weekday 1215 5 15 = 1 ∧ weekday 1752 8 2 = 3 ∧ weekday 1752 8 14 = 4 ∧ weekday 2000 0 1 = 6.
Proof. vm_compute. done. Qed.

Lemma leap_cal y m : 0 ≤ m < 12 → m = 1 → (isleap y (cal_of y m) = true ↔ leap_year y).
Proof.
  intros Hm ->. unfold cal_of, TRANS_YEAR, TRANS_MONTH, leap_year. case_decide; [rewrite isleap_julian|rewrite isleap_gregorian]; split; try tauto; intros; lia || (split; [tauto|lia]).
Qed.
Lemma dates_plain y m : 0 ≤ m < 12 → ¬ (y = 1752 ∧ m = 8) → dates y m = seqZ 1 (monthlength y m (cal_of y m)).
Proof.
  intros Hm Hn. unfold dates. rewrite decide_False by done. f_equal. destruct (decide (m = 1)) as [E|E].
  - pose proof (leap_cal y m Hm E) as Hl. subst m. change (monthlength y 1) with (monthlength y FEB). rewrite monthlength_feb. case_decide; destruct (isleap y (cal_of y 1)); tauto || (exfalso; naive_solver).
  - rewrite monthlength_other by done. apply month_cases in Hm. apply list_elem_of_In in Hm. simpl in Hm. destruct_or! Hm; subst; try done; by rewrite ?decide_True, ?decide_False by lia.
Qed.
Lemma seqZ_below n d : 1 ≤ d ≤ n → Z.of_nat (length (filter (λ e, e < d) (seqZ 1 n))) = d - 1.
Proof.
  intros Hd. replace n with ((d - 1) + (n - d + 1)) by lia. rewrite seqZ_app by lia. rewrite filter_app, length_app.
  rewrite filter_all by (apply Forall_forall; intros e He%elem_of_seqZ; lia). rewrite length_seqZ.
  assert (filter (λ e, e < d) (seqZ (1 + (d - 1)) (n - d + 1)) = []) as ->; [|simpl; lia].
  apply elem_of_nil_inv. intros e [He1 He2%elem_of_seqZ]%list_elem_of_filter. lia.
Qed.
Lemma months_days_S y n : months_days y (S n) = months_days y n + Z.of_nat (length (dates y (Z.of_nat n))).
Proof. unfold months_days. rewrite seq_S, map_app, concat_app, length_app. simpl. rewrite app_nil_r. lia. Qed.

(** The code counts on by the length of a month, and from year to year. *)
Lemma dow_month y m : year_ok y → 0 ≤ m < 11 → dow y (m + 1) 1 = (dow y m 1 + Z.of_nat (length (dates y m))) mod 7.
Proof.
  intros Hy Hm. destruct (decide (y = 1752 ∧ m = 8)) as [[-> ->]|Hn]; [done|]. rewrite dates_plain, length_seqZ by (done || lia).
  pose proof (monthlength_range y m (cal_of y m) ltac:(lia)). unfold dow. rewrite !cal_at_first. destruct (cal_of_next y m Hn ltac:(lia)) as [-> _].
  rewrite dow_next_month, (dow_in_month y m 1) by (done || lia). rewrite Z.add_mod_idemp_l by lia. f_equal. lia.
Qed.
Lemma dow_months y n : year_ok y → (n ≤ 11)%nat → dow y (Z.of_nat n) 1 = (dow y 0 1 + months_days y n) mod 7.
Proof.
  intros Hy. induction n as [|n IH]; intros Hn.
  - change (months_days y 0) with 0. rewrite Z.add_0_r, Z.mod_small; [done|]. unfold dow, dayofweek. cbv zeta. destruct (cal_at _ _ _); apply Z.mod_pos_bound; lia.
  - rewrite Nat2Z.inj_succ, <- Z.add_1_r, dow_month, IH, months_days_S by (done || lia). rewrite Z.add_mod_idemp_l by lia. f_equal. lia.
Qed.
Lemma dow_years n : Z.of_nat n < 2 ^ 61 → dow (Z.of_nat n + 1) 0 1 = (6 + years_days n) mod 7.
Proof.
  induction n as [|n IH]; intros Hn; [done|]. set (y := Z.of_nat n + 1) in *. assert (year_ok y ∧ year_ok (y + 1)) as [Hy Hy'] by (unfold year_ok, y; lia).
  replace (Z.of_nat (S n) + 1) with (y + 1) by lia. cbn [years_days]. fold y. rewrite months_days_S.
  assert (dow (y + 1) 0 1 = (dow y 11 1 + 31) mod 7) as ->.
  { unfold dow. rewrite !cal_at_first. destruct (cal_of_next y 11 ltac:(lia) ltac:(lia)) as [_ Hc]. rewrite Hc by done.
    rewrite dow_next_year, (dow_in_month y 11 1 31) by (done || lia). rewrite Z.add_mod_idemp_l by lia. f_equal. lia. }
  change (dow y 11 1) with (dow y (Z.of_nat 11) 1). rewrite (dow_months y 11 Hy ltac:(lia)), IH by lia. change (Z.of_nat 11) with 11. rewrite dates_plain, length_seqZ by lia. rewrite monthlength_other by done.
  assert (Z.of_nat (Z.to_nat (nth (Z.to_nat 11) mdays 0)) = 31) as -> by done. rewrite (Z.add_mod_idemp_l _ 31), <- Z.add_assoc, Z.add_mod_idemp_l by lia. f_equal. lia.
Qed.
Lemma dow_counts y m d : 1 ≤ y < 2 ^ 61 → 0 ≤ m < 12 → d ∈ dates y m → dow y m d = weekday y m d.
Proof.
  intros Hy Hm Hd. assert (year_ok y) as Hy1 by (unfold year_ok; lia). unfold weekday, days_before.
  assert (dow y m 1 = (6 + (years_days (Z.to_nat (y - 1)) + months_days y (Z.to_nat m))) mod 7) as H1.
  { pose proof (dow_years (Z.to_nat (y - 1)) ltac:(lia)) as Hd0. replace (Z.of_nat (Z.to_nat (y - 1)) + 1) with y in Hd0 by lia.
    rewrite <- (Z2Nat.id m) at 1 by lia. rewrite dow_months, Hd0 by (done || lia). rewrite Z.add_mod_idemp_l by lia. f_equal. lia. }
  assert (dow y m d = (dow y m 1 + Z.of_nat (length (filter (λ e, e < d) (dates y m)))) mod 7) as ->; [|rewrite H1, Z.add_mod_idemp_l by lia; f_equal; lia].
  destruct (decide (y = 1752 ∧ m = 8)) as [[-> ->]|Hn].
  - assert (forallb (λ d, dow 1752 8 d =? (dow 1752 8 1 + Z.of_nat (length (filter (λ e, e < d) (dates 1752 8)))) mod 7) (dates 1752 8) = true) as Hall by (vm_compute; reflexivity).
    rewrite forallb_forall in Hall. apply Z.eqb_eq, (Hall d). by apply list_elem_of_In.
  - rewrite dates_plain in * by done. apply elem_of_seqZ in Hd. pose proof (monthlength_range y m (cal_of y m) Hm).
    rewrite seqZ_below by lia. unfold dow. rewrite cal_at_first, cal_at_month by done. by rewrite (dow_in_month y m 1 d) by (done || lia).
Qed.

(** ** The grid *)

Definition month_grid (year month fday : Z) : list (option Z) := concat (map (grid_cells year month fday) [1; 2; 3; 4; 5; 6]).
Definition month_days (year month : Z) : list Z :=
  filter (valid year month) (seqZ 1 (monthlength year month (cal_of year month))).

(** The cells of a month that has all its days, by their position. *)
Definition plain_cells (mlen offset fday : Z) : list (option Z) := concat (map (line_cells false mlen offset fday) [1; 2; 3; 4; 5; 6]).
Definition placed (offset : Z) (cells : list (option Z)) : bool :=
  forallb (λ pc, match pc with (p, Some d) => p =? offset + d - 1 | _ => true end) (zip (seqZ 0 42) cells).
Definition plain_ok (mlen offset : Z) : bool :=
  let cells := plain_cells mlen offset 0 in
  bool_decide (length cells = 42%nat) && bool_decide (omap id cells = seqZ 1 mlen) && placed offset cells.

Lemma plain_grid mlen offset : 28 ≤ mlen ≤ 31 → 0 ≤ offset ≤ 6 → plain_ok mlen offset = true.
Proof.
  intros Hm Ho. assert (mlen = 28 ∨ mlen = 29 ∨ mlen = 30 ∨ mlen = 31) as Hm' by lia.
  assert (offset = 0 ∨ offset = 1 ∨ offset = 2 ∨ offset = 3 ∨ offset = 4 ∨ offset = 5 ∨ offset = 6) as Ho' by lia.
  destruct_or! Hm'; destruct_or! Ho'; subst; vm_compute; reflexivity.
Qed.

Lemma cells_at (Q : Z → Z → bool) cells p d :
  forallb (λ pc, match pc with (p, Some d) => Q p d | _ => true end) (zip (seqZ 0 42) cells) = true →
  length cells = 42%nat → cells !! p = Some (Some d) → Q (Z.of_nat p) d = true.
Proof.
  rewrite forallb_forall. intros H Hl Hp. pose proof (lookup_lt_Some _ _ _ Hp) as Hlt.
  refine (H (Z.of_nat p, Some d) _). apply list_elem_of_In, list_elem_of_lookup. exists p.
  apply lookup_zip_with_Some. exists (Z.of_nat p), (Some d). split_and!; [done| |done]. rewrite lookup_seqZ. lia.
Qed.

(** The month of the change, on any first day of the week. *)
Definition trans_ok (fday : Z) : bool :=
  bool_decide (length (month_grid 1752 8 fday) = 42%nat) &&
  bool_decide (omap id (month_grid 1752 8 fday) = month_days 1752 8) &&
  forallb (λ pc, match pc with (p, Some d) => dow 1752 8 d =? (fday + p) mod 7 | _ => true end)
    (zip (seqZ 0 42) (month_grid 1752 8 fday)).
Lemma trans_grid fday : 0 ≤ fday < 7 → trans_ok fday = true.
Proof.
  intros Hf. assert (fday = 0 ∨ fday = 1 ∨ fday = 2 ∨ fday = 3 ∨ fday = 4 ∨ fday = 5 ∨ fday = 6) as Hf' by lia.
  destruct_or! Hf'; subst fday; vm_compute; reflexivity.
Qed.

Lemma first_offset_ok year month fday : 0 ≤ fday < 7 → 0 ≤ dow year month 1 < 7 →
  0 ≤ first_offset year month fday ≤ 6 ∧ (fday + first_offset year month fday) mod 7 = dow year month 1.
Proof.
  unfold dow, first_offset. rewrite cal_at_first. generalize (dayofweek year month 1 (cal_of year month)). intros w Hf Hw.
  cbv zeta. case_decide; split; try lia; dlia.
Qed.

(** The dates that are valid for the code are those of the calendar. *)
Lemma month_days_dates y m : 0 ≤ m < 12 → month_days y m = dates y m.
Proof.
  intros Hm. destruct (decide (y = 1752 ∧ m = 8)) as [[-> ->]|Hn]; [vm_compute; reflexivity|]. rewrite dates_plain by done. unfold month_days. apply filter_all.
  apply Forall_forall. intros d Hd%elem_of_seqZ. split; [lia|]. intros [?%is_trans_true _]. done.
Qed.
Lemma grid_weekdays year month fday : 1 ≤ year < 2 ^ 61 → 0 ≤ month < 12 → 0 ≤ fday < 7 →
  length (month_grid year month fday) = 42%nat ∧
  omap id (month_grid year month fday) = month_days year month ∧
  ∀ p d, month_grid year month fday !! p = Some (Some d) → dow year month d = (fday + Z.of_nat p) mod 7.
Proof.
  intros Hy Hm Hf. destruct (decide (year = 1752 ∧ month = 8)) as [[-> ->]|Hn].
  { pose proof (trans_grid fday Hf) as Hg. unfold trans_ok in Hg.
    apply andb_true_iff in Hg as [[H1%bool_decide_eq_true H2%bool_decide_eq_true]%andb_true_iff H3]. split_and!; [done..|].
    intros p d Hp. apply Z.eqb_eq. exact (cells_at (λ p d, dow 1752 8 d =? (fday + p) mod 7) _ p d H3 H1 Hp). }
  assert (year_ok year) as Hy1 by (unfold year_ok; lia).
  assert (is_trans year month = false) as Ht. { destruct (is_trans year month) eqn:E; [|done]. by apply is_trans_true in E. }
  pose proof (monthlength_range year month (cal_of year month) Hm) as Hl.
  assert (0 ≤ dow year month 1 < 7) as Hw. { unfold dow, dayofweek. cbv zeta. destruct (cal_at _ _ _); apply Z.mod_pos_bound; lia. }
  destruct (first_offset_ok year month fday Hf Hw) as [Ho Hfo].
  pose proof (plain_grid _ _ Hl Ho) as Hg. unfold plain_ok in Hg. cbv zeta in Hg.
  assert (plain_cells (monthlength year month (cal_of year month)) (first_offset year month fday) 0 = month_grid year month fday) as Hcells.
  { unfold plain_cells, month_grid, grid_cells. rewrite Ht. done. }
  rewrite Hcells in Hg. apply andb_true_iff in Hg as [[H1%bool_decide_eq_true H2%bool_decide_eq_true]%andb_true_iff H3].
  split_and!; [done| |].
  - rewrite H2. unfold month_days. rewrite filter_all; [done|]. apply Forall_forall. intros d Hd%elem_of_seqZ.
    split; [lia|]. intros [? _]. congruence.
  - intros p d Hp. pose proof (cells_at _ _ _ _ H3 H1 Hp) as Hpd. apply Z.eqb_eq in Hpd.
    assert (d ∈ omap id (month_grid year month fday)) as Hd.
    { apply list_elem_of_omap. exists (Some d). split; [|done]. by apply list_elem_of_lookup_2 with p. }
    rewrite H2 in Hd. apply elem_of_seqZ in Hd. unfold dow in *. rewrite cal_at_first in Hfo. rewrite cal_at_month by done.
    rewrite (dow_in_month year month 1 d) by (done || lia). rewrite <- Hfo, Z.add_mod_idemp_l by lia. f_equal. lia.
Qed.

(** C35: The six lines of seven cells that cal prints for a month hold the dates of
    the month, each once and in order, and each stands in the column of its day of
    the week, whatever day the week starts on.  The reference counts days: the
    lengths of months and leap years of the Julian and the Gregorian calendar, the
    eleven days left out in September 1752, and a first day that was a Saturday. *)
Theorem cal_grid year month fday : 1 ≤ year < 2 ^ 61 → 0 ≤ month < 12 → 0 ≤ fday < 7 →
  length (month_grid year month fday) = 42%nat ∧
  omap id (month_grid year month fday) = dates year month ∧
  ∀ p d, month_grid year month fday !! p = Some (Some d) → weekday year month d = (fday + Z.of_nat p) mod 7.
Proof.
  intros Hy Hm Hf. destruct (grid_weekdays year month fday Hy Hm Hf) as (H1 & H2 & H3). rewrite month_days_dates in H2 by done. split_and!; [done..|].
  intros p d Hp. rewrite <- dow_counts by (done || (rewrite <- H2; apply list_elem_of_omap; exists (Some d); split; [by apply list_elem_of_lookup_2 with p|done])).
  by apply H3.
Qed.
Lemma cal_grid_witness : omap id (month_grid 1752 8 3) = [1; 2] ++ seqZ 14 17 ∧ weekday 1752 8 14 = 4.
Proof.
  destruct (cal_grid 1752 8 3) as (_ & H & Hw); [lia..|]. split; [rewrite H; reflexivity|].
  apply (Hw 8%nat 14). vm_compute. reflexivity.
Defined.

(** ** Rows *)

(** C36: Drawing a calendar ends if and only if there is a column to draw in: with one
    or more columns the rows come to an end, and with none the first row
    leads to itself whatever the number of rounds. *)
Theorem drawcal_ends ltime year month fday ncols nmons : 0 ≤ ncols → 0 < nmons →
  (0 < ncols ↔ ∃ fuel text, rows ltime year month fday ncols nmons fuel 0 = Some text) ∧
  (0 < ncols → ∃ text, drawcal ltime year month fday ncols nmons = Some text).
Proof.
  intros Hc Hn.
  assert (∀ fuel m, 0 < ncols → nmons - m ≤ Z.of_nat fuel → ∃ text, rows ltime year month fday ncols nmons fuel m = Some text) as Hgo.
  { intros fuel m Hc1. revert m. induction fuel as [|fuel IH]; intros m Hm; cbn [rows]; (case_decide; [|by eauto]); [lia|].
    destruct (IH (m + Z.of_nat (length (row_months ncols nmons m)))) as [text ->]; [|by eauto].
    unfold row_months. rewrite length_map, length_seq. lia. }
  assert (∀ fuel, ncols = 0 → rows ltime year month fday ncols nmons fuel 0 = None) as Hno.
  { intros fuel ->. induction fuel as [|fuel IH]; cbn [rows]; rewrite decide_True by done; [done|].
    assert (row_months 0 nmons 0 = []) as ->. { unfold row_months. by rewrite Z.min_l by lia. }
    change (0 + Z.of_nat (length [])) with 0. by rewrite IH. }
  split; [split|].
  - intros Hc1. destruct (Hgo (Z.to_nat nmons) 0 Hc1) as [text Ht]; [lia|eauto].
  - intros (fuel & text & Ht). destruct (decide (ncols = 0)) as [H0|]; [|lia]. by rewrite Hno in Ht.
  - intros Hc1. unfold drawcal. apply Hgo; [done|lia].
Qed.
Lemma drawcal_ends_witness : ¬ ∃ fuel text, rows None 2024 0 0 0 12 fuel 0 = Some text.
Proof. destruct (drawcal_ends None 2024 0 0 0 12) as [H _]; [lia..|]. intros Hx. apply H in Hx. lia. Defined.
