(* ===== verification/Mode.v ===== *)
(** * File modes: src/shared/libutil/mode.c

    [parsemode]: an octal number, or clauses of who, operator and permissions.
    A [mode_t] is 32 bits wide.  [strtol] in base 8 with its blanks and sign;
    the result is stored in an [int].  Proved: octal modes are read back, and a
    symbolic mode does to the permissions what its clauses say. *)

From stdpp Require Import strings.
From S2P Require Import Prelude CString Stdio Strtonum.

Local Open Scope Z_scope.

Definition S_ISUID : Z := 2048.
Definition S_ISGID : Z := 1024.
Definition S_ISVTX : Z := 512.
Definition S_IRWXU : Z := 448.
Definition S_IRWXG : Z := 56.
Definition S_IRWXO : Z := 7.
Definition S_IFMT : Z := 61440.
Definition S_IFDIR : Z := 16384.
(** [S_IRUSR | S_IRGRP | S_IROTH] and the like *)
Definition ALL_R : Z := 292.
Definition ALL_W : Z := 146.
Definition ALL_X : Z := 73.
Definition ALL_BITS : Z := 4095.

Definition not32 (z : Z) : Z := Z.lxor z (2 ^ 32 - 1).

(** ** strtol in base 8 *)

Definition isodigit (c : ascii) : bool := bool_decide (48 ≤ Z.of_nat (nat_of_ascii c) ≤ 55).
Fixpoint odigits (acc : Z) (s : cstr) : Z * nat * cstr :=
  match s with
  | c :: r =>
      if isodigit c then let '(v, k, e) := odigits (acc * 8 + digit c) r in (v, S k, e)
      else (acc, O, s)
  | [] => (acc, O, [])
  end.
(** The value, which saturates, and the rest; without a digit, 0 and the whole string. *)
Definition strtol8 (str : cstr) : Z * cstr :=
  let s := skip_blanks str in
  let '(neg, s) :=
    match s with
    | c :: r =>
        if decide (c = "-"%char) then (true, r) else if decide (c = "+"%char) then (false, r) else (false, s)
    | [] => (false, s)
    end in
  let '(v, k, ep) := odigits 0 s in
  match k with
  | O => (0, str)
  | S _ => (Z.max LLONG_MIN (Z.min LLONG_MAX (if neg : bool then - v else v)), ep)
  end.
Definition as_int (z : Z) : Z := (z + 2 ^ 31) mod 2 ^ 32 - 2 ^ 31.

(** ** The clauses *)

Definition who_bits (c : ascii) : option Z :=
  if decide (c = "u"%char) then Some (Z.lor S_IRWXU S_ISUID)
  else if decide (c = "g"%char) then Some (Z.lor S_IRWXG S_ISGID)
  else if decide (c = "o"%char) then Some (Z.lor S_IRWXO S_ISVTX)
  else if decide (c = "a"%char) then Some ALL_BITS else None.
Fixpoint parse_who (p : cstr) (who : Z) : Z * cstr :=
  match p with
  | c :: r => match who_bits c with Some b => parse_who r (Z.lor who b) | None => (who, p) end
  | [] => (who, [])
  end.
(** [who] and [clear] *)
Definition clause_masks (who mask : Z) : Z * Z :=
  if decide (who ≠ 0) then (who, who) else (not32 mask, ALL_BITS).

Definition has (mode bit : Z) : bool := bool_decide (Z.land mode bit ≠ 0).
(** The permissions that one class has, for all classes; [sid] is its set-id bit. *)
Definition copy_perm (mode r w x sid : Z) : Z :=
  Z.lor (Z.lor (Z.lor (if has mode r then ALL_R else 0) (if has mode w then ALL_W else 0)) (if has mode x then ALL_X else 0))
    (if has mode sid then Z.lor S_ISUID S_ISGID else 0).
Definition perm_bits (mode : Z) (c : ascii) : option Z :=
  if decide (c = "r"%char) then Some ALL_R
  else if decide (c = "w"%char) then Some ALL_W
  else if decide (c = "x"%char) then Some ALL_X
  else if decide (c = "X"%char) then
    Some (if bool_decide (Z.land mode S_IFMT = S_IFDIR) || has mode ALL_X then ALL_X else 0)
  else if decide (c = "s"%char) then Some (Z.lor S_ISUID S_ISGID)
  else if decide (c = "t"%char) then Some S_ISVTX else None.
Fixpoint parse_perms (mode : Z) (p : cstr) (perm : Z) : Z * cstr :=
  match p with
  | c :: r => match perm_bits mode c with Some b => parse_perms mode r (Z.lor perm b) | None => (perm, p) end
  | [] => (perm, [])
  end.
Definition parse_perm (mode : Z) (p : cstr) : Z * cstr :=
  match p with
  | c :: r =>
      if decide (c = "u"%char) then (copy_perm mode 256 128 64 S_ISUID, r)
      else if decide (c = "g"%char) then (copy_perm mode 32 16 8 S_ISGID, r)
      else if decide (c = "o"%char) then (copy_perm mode 4 2 1 0, r)
      else parse_perms mode p 0
  | [] => (0, [])
  end.

Definition apply_op (op : ascii) (mode who clear perm : Z) : Z :=
  if decide (op = "="%char) then Z.lor (Z.land mode (not32 clear)) (Z.land perm who)
  else if decide (op = "+"%char) then Z.lor mode (Z.land perm who)
  else Z.land mode (not32 (Z.land perm who)).

Section parsemode.
Context {S : Type}.

(** The loop over the operators of a clause, with a jump to the next clause at a
    comma.  A round takes a character, so the length of the text is enough fuel. *)
Fixpoint clauses (fuel : nat) (str p : cstr) (mode mask who clear : Z) : M S Z :=
  match p with
  | [] => mret (Z.land mode (not32 S_IFMT))
  | op :: p =>
      match fuel with
      | O => mfuel
      | Datatypes.S fuel =>
          if decide (op ∈ lit "=+-") then
            let '(perm, p) := parse_perm mode p in
            let mode := apply_op op mode who clear perm in
            match p with
            | c :: r =>
                if decide (c = ","%char) then
                  let '(who, p) := parse_who r 0 in
                  let '(who, clear) := clause_masks who mask in
                  clauses fuel str p mode mask who clear
                else clauses fuel str p mode mask who clear
            | [] => clauses fuel str p mode mask who clear
            end
          else eprintf (str ++ lit ": invalid mode")
      end
  end.

Definition parsemode (str : cstr) (mode mask : Z) : M S Z :=
  let '(v, ep) := strtol8 str in
  let octal := as_int v in
  if decide (ep = []) then
    if decide (octal < 0 ∨ 4095 < octal) then eprintf (str ++ lit ": invalid mode") else mret octal
  else
    let '(who, p) := parse_who str 0 in
    let '(who, clear) := clause_masks who mask in
    clauses (length str) str p mode mask who clear.
End parsemode.

(** ** Octal modes *)

(** ["%o"] of a mode *)
Definition octal (m : Z) : cstr :=
  let d k := ascii_of_nat (Z.to_nat (48 + (m / k) mod 8)) in
  if decide (m < 8) then [d 1] else if decide (m < 64) then [d 8; d 1]
  else if decide (m < 512) then [d 64; d 8; d 1] else [d 512; d 64; d 8; d 1].

Lemma octal_strtol m : 0 ≤ m < 4096 → strtol8 (octal m) = (m, []).
Proof.
  change 4096 with (Z.of_nat 4096). revert m. apply (range_forall 4096).
  apply (bool_decide_unpack (Forall _ _)). vm_compute. exact I.
Qed.
Lemma parsemode_octal {S} m mode mask (s : S) : 0 ≤ m < 4096 → parsemode (octal m) mode mask s = Ok m s.
Proof.
  intros Hm. unfold parsemode. rewrite octal_strtol by done. rewrite decide_True by done.
  assert (as_int m = m) as ->. { unfold as_int. rewrite Z.mod_small; lia. }
  by rewrite decide_False by lia.
Qed.

(** A mode that does not fit an int is cut to one. *)
Example octal_wraps : parsemode (S := unit) "40000000644" 0 0 tt = Ok 420 tt.
Proof. vm_compute. reflexivity. Qed.

(** ** Symbolic modes *)

Inductive perms := Copy (c : ascii) | Letters (l : cstr).
Record action := mkAction { a_op : ascii; a_perms : perms }.
Record clause := mkClause { c_who : cstr; c_actions : list action }.

Definition show_perms (p : perms) : cstr := match p with Copy c => [c] | Letters l => l end.
Definition show_action (a : action) : cstr := a_op a :: show_perms (a_perms a).
Definition show_clause (c : clause) : cstr := c_who c ++ concat (map show_action (c_actions c)).
Fixpoint show_clauses (cs : list clause) : cstr :=
  match cs with
  | [] => []
  | [c] => show_clause c
  | c :: cs => show_clause c ++ ","%char :: show_clauses cs
  end.

Definition perms_ok (p : perms) : Prop :=
  match p with Copy c => c ∈ lit "ugo" | Letters l => Forall (.∈ lit "rwxXst") l end.
Definition clause_ok (c : clause) : Prop :=
  Forall (.∈ lit "ugoa") (c_who c) ∧ c_actions c ≠ [] ∧
  Forall (λ a, a_op a ∈ lit "=+-" ∧ perms_ok (a_perms a)) (c_actions c).

(** What a clause means: the bits it is about, the permissions it names, and what it
    does with them. *)
Definition who_mask (w : cstr) : Z := foldl (λ m c, Z.lor m (default 0 (who_bits c))) 0 w.
Definition perms_mask (mode : Z) (p : perms) : Z :=
  match p with
  | Copy c =>
      if decide (c = "u"%char) then copy_perm mode 256 128 64 S_ISUID
      else if decide (c = "g"%char) then copy_perm mode 32 16 8 S_ISGID else copy_perm mode 4 2 1 0
  | Letters l => foldl (λ m c, Z.lor m (default 0 (perm_bits mode c))) 0 l
  end.
Definition do_action (who clear mode : Z) (a : action) : Z :=
  apply_op (a_op a) mode who clear (perms_mask mode (a_perms a)).
Definition do_clause (mask mode : Z) (c : clause) : Z :=
  let '(who, clear) := clause_masks (who_mask (c_who c)) mask in foldl (do_action who clear) mode (c_actions c).
Definition do_clauses (mask mode : Z) (cs : list clause) : Z := Z.land (foldl (do_clause mask) mode cs) (not32 S_IFMT).

Lemma in_chars (s : string) c (P : ascii → Prop) : c ∈ lit s → Forall P (lit s) → P c.
Proof. intros Hc H. rewrite Forall_forall in H. by apply H. Qed.

Lemma parse_who_ok w rest acc : Forall (.∈ lit "ugoa") w → (∀ c r, rest = c :: r → who_bits c = None) →
  parse_who (w ++ rest) acc = (foldl (λ m c, Z.lor m (default 0 (who_bits c))) acc w, rest).
Proof.
  intros Hw Hr. revert acc. induction Hw as [|c w Hc Hw IH]; intros acc; simpl.
  - destruct rest as [|c r]; [done|]. simpl. by rewrite (Hr c r eq_refl).
  - assert (∃ b, who_bits c = Some b) as [b Hb].
    { revert Hc. intros Hc. apply (in_chars "ugoa" c (λ c, ∃ b, who_bits c = Some b) Hc). repeat constructor; eexists; reflexivity. }
    rewrite Hb. simpl. apply IH.
Qed.

Lemma parse_perms_ok mode l rest acc : Forall (.∈ lit "rwxXst") l → (∀ c r, rest = c :: r → perm_bits mode c = None) →
  parse_perms mode (l ++ rest) acc = (foldl (λ m c, Z.lor m (default 0 (perm_bits mode c))) acc l, rest).
Proof.
  intros Hl Hr. revert acc. induction Hl as [|c l Hc Hl IH]; intros acc; simpl.
  - destruct rest as [|c r]; [done|]. simpl. by rewrite (Hr c r eq_refl).
  - assert (∃ b, perm_bits mode c = Some b) as [b Hb].
    { apply (in_chars "rwxXst" c (λ c, ∃ b, perm_bits mode c = Some b) Hc). repeat constructor; eexists; reflexivity. }
    rewrite Hb. simpl. apply IH.
Qed.

(** What follows the permissions of an action: an operator, a comma or nothing. *)
Definition stops (rest : cstr) : Prop := ∀ c r, rest = c :: r → c ∈ lit "=+-,".

Lemma parse_perm_ok mode p rest : perms_ok p → stops rest →
  parse_perm mode (show_perms p ++ rest) = (perms_mask mode p, rest).
Proof.
  intros Hp Hs.
  assert (∀ c r, rest = c :: r → perm_bits mode c = None) as Hn.
  { intros c r Hc%Hs. apply (in_chars "=+-," c (λ c, perm_bits mode c = None) Hc). repeat constructor. }
  destruct p as [c|l]; simpl in Hp |- *.
  - apply (in_chars "ugo" c (λ c, parse_perm mode (c :: rest) = _) Hp). repeat constructor.
  - assert (parse_perm mode (l ++ rest) = parse_perms mode (l ++ rest) 0) as ->; [|by apply parse_perms_ok].
    unfold parse_perm. destruct (l ++ rest) as [|c r] eqn:E; [done|].
    assert (c ∈ lit "rwxXst=+-,") as Hc.
    { destruct l as [|c' l]; simpl in E; [apply Hs in E; set_solver|]. injection E as -> _. apply Forall_cons in Hp as [Hc _]. set_solver. }
    revert Hc. intros Hc. apply (in_chars "rwxXst=+-," c (λ c, (if decide (c = "u"%char) then _ else if decide (c = "g"%char) then _ else if decide (c = "o"%char) then _ else _) = _) Hc).
    repeat constructor.
Qed.

Section symbolic.
Context {St : Type} (str : cstr) (mask : Z).

Lemma show_actions_stop acts rest : Forall (λ a, a_op a ∈ lit "=+-" ∧ perms_ok (a_perms a)) acts → stops rest →
  stops (concat (map show_action acts) ++ rest).
Proof using Type. destruct 1 as [|a acts [Ha _] _]; intros Hs; [done|]. intros c r [= <- _]. set_solver. Qed.

(** The operators of one clause, up to the comma. *)
Lemma actions_ok acts rest fuel mode who clear (s : St) :
  Forall (λ a, a_op a ∈ lit "=+-" ∧ perms_ok (a_perms a)) acts → acts ≠ [] →
  rest = [] ∨ (∃ r, rest = ","%char :: r) → (length (concat (map show_action acts) ++ rest) ≤ fuel)%nat →
  ∃ fuel', (length rest ≤ fuel')%nat ∧
  clauses fuel str (concat (map show_action acts) ++ rest) mode mask who clear s =
  match rest with
  | [] => Ok (Z.land (foldl (do_action who clear) mode acts) (not32 S_IFMT)) s
  | _ :: r =>
      let '(who', p) := parse_who r 0 in
      let '(who', clear') := clause_masks who' mask in
      clauses fuel' str p (foldl (do_action who clear) mode acts) mask who' clear' s
  end.
Proof using Type.
  intros Ha. revert fuel mode. induction Ha as [|a acts [Hop Hp] Ha IH]; intros fuel mode Hne Hrest Hf; [done|].
  assert (stops rest) as Hst. { destruct Hrest as [-> | [r ->]]; intros c r' Hc; [done|]. injection Hc as <- _. set_solver. }
  destruct fuel as [|fuel]; [simpl in Hf; lia|]. cbn [map concat show_action app]. cbn [clauses].
  rewrite decide_True by done. rewrite <- app_assoc, parse_perm_ok by (done || by apply show_actions_stop).
  assert (length (show_perms (a_perms a)) + length (concat (map show_action acts) ++ rest) ≤ fuel)%nat as Hf1
    by (simpl in Hf; rewrite !length_app in Hf; rewrite length_app; lia). clear Hf.
  cbn [foldl]. unfold do_action at 2. destruct acts as [|a' acts].
  - exists fuel. simpl in Hf1. split; [lia|]. cbn [map concat app foldl]. destruct Hrest as [-> | [r ->]].
    + by destruct fuel.
    + rewrite decide_True by done. destruct (parse_who r 0) as [w p]. by destruct (clause_masks w mask).
  - destruct (IH fuel (apply_op (a_op a) mode who clear (perms_mask mode (a_perms a)))) as (fuel' & Hf' & He); try done; [lia|].
    exists fuel'. split; [done|]. etransitivity; [|exact He]. clear He IH.
    apply Forall_cons in Ha as [[Hop' _] _].
    assert (a_op a' ≠ ","%char) as Hc. { intros Hc. rewrite Hc in Hop'. set_solver. }
    cbn [map concat show_action app]. by rewrite decide_False by done.
Qed.

Lemma show_clause_who c : clause_ok c → ∀ rest c0 r, concat (map show_action (c_actions c)) ++ rest = c0 :: r → who_bits c0 = None.
Proof using Type.
  intros (_ & Hne & Ha) rest c0 r. destruct Ha as [|a acts [Hop _] _]; [done|]. intros [= <- _].
  apply (in_chars "=+-" (a_op a) (λ c, who_bits c = None) Hop). repeat constructor.
Qed.

Lemma clauses_ok cs c fuel mode (s : St) : Forall clause_ok (c :: cs) →
  (length (show_clauses (c :: cs)) ≤ fuel)%nat →
  (let '(who, p) := parse_who (show_clauses (c :: cs)) 0 in
   let '(who, clear) := clause_masks who mask in clauses fuel str p mode mask who clear s) =
  Ok (do_clauses mask mode (c :: cs)) s.
Proof using Type.
  revert c fuel mode. induction cs as [|c' cs IH]; intros c fuel mode Hok Hf; apply Forall_cons in Hok as [Hc Hcs].
  - simpl in Hf |- *. unfold show_clause in Hf |- *. rewrite <- (app_nil_r (concat _)) in Hf |- *.
    rewrite (parse_who_ok _ _ _ (proj1 Hc) (show_clause_who c Hc [])). fold (who_mask (c_who c)).
    rewrite length_app in Hf. unfold do_clauses, do_clause. cbn [foldl]. destruct (clause_masks (who_mask (c_who c)) mask) as [who clear].
    destruct Hc as (_ & Hne & Ha). destruct (actions_ok (c_actions c) [] fuel mode who clear s Ha Hne) as (fuel' & _ & ->); [by left|lia|done].
  - change (show_clauses (c :: c' :: cs)) with (show_clause c ++ ","%char :: show_clauses (c' :: cs)) in *.
    unfold show_clause at 1 in Hf. unfold show_clause at 1. rewrite <- app_assoc, length_app in Hf. rewrite <- app_assoc.
    rewrite (parse_who_ok _ _ _ (proj1 Hc) (show_clause_who c Hc _)). fold (who_mask (c_who c)).
    change (do_clauses mask mode (c :: c' :: cs)) with (do_clauses mask (do_clause mask mode c) (c' :: cs)).
    unfold do_clause. destruct (clause_masks (who_mask (c_who c)) mask) as [who clear]. destruct Hc as (_ & Hne & Ha).
    destruct (actions_ok (c_actions c) (","%char :: show_clauses (c' :: cs)) fuel mode who clear s Ha Hne) as (fuel' & Hf' & ->); [by right; eauto|lia|].
    apply IH; [done|]. simpl in Hf'. simpl. lia.
Qed.
End symbolic.

(** No symbolic mode is a number: it has no digits. *)
Lemma no_digits_strtol t : Forall (λ c, isodigit c = false) t → t ≠ [] → (strtol8 t).2 ≠ [].
Proof.
  intros Ht Hne. unfold strtol8.
  assert (∀ l, Forall (λ c, isodigit c = false) l → odigits 0 l = (0, O, l)) as Ho.
  { intros l Hl. destruct Hl as [|c l Hc _]; simpl; [done|]. by rewrite Hc. }
  assert (Forall (λ c, isodigit c = false) (skip_blanks t)) as Hs.
  { clear Hne. induction Ht as [|c t Hc Ht IH]; simpl; [constructor|]. destruct (isspace c); [done|by constructor]. }
  destruct Hs as [|c l Hc Hl]; [by rewrite Ho|]. repeat case_decide; rewrite Ho by (done || by constructor); done.
Qed.

Lemma show_clauses_chars cs : Forall clause_ok cs → Forall (λ c, isodigit c = false) (show_clauses cs).
Proof.
  assert (∀ c, clause_ok c → Forall (λ c, isodigit c = false) (show_clause c)) as Hc.
  { intros c (Hw & _ & Ha). apply Forall_app. split.
    - eapply Forall_impl; [exact Hw|]. simpl. intros x Hx. apply (in_chars "ugoa" x (λ c, isodigit c = false) Hx). repeat constructor.
    - induction Ha as [|a acts [Hop Hp] Ha IH]; simpl; [constructor|]. constructor.
      { apply (in_chars "=+-" (a_op a) (λ c, isodigit c = false) Hop). repeat constructor. }
      apply Forall_app. split; [|done]. destruct (a_perms a) as [x|l]; simpl in Hp |- *.
      + constructor; [|constructor]. apply (in_chars "ugo" x (λ c, isodigit c = false) Hp). repeat constructor.
      + eapply Forall_impl; [exact Hp|]. simpl. intros x Hx. apply (in_chars "rwxXst" x (λ c, isodigit c = false) Hx). repeat constructor. }
  induction 1 as [|c cs Hok Hcs IH]; [constructor|]. destruct cs as [|c' cs]; [by apply Hc|].
  change (show_clauses (c :: c' :: cs)) with (show_clause c ++ ","%char :: show_clauses (c' :: cs)).
  apply Forall_app. split; [by apply Hc|]. by constructor.
Qed.

(** A symbolic mode changes the permissions as its clauses say, one after the
    other and in each its operators from left to right: the classes named, or
    all that the mask allows, and the permissions given by letters or copied
    from a class, are set, added or removed; an octal mode is the number
    itself. *)
Theorem parsemode_correct {S} cs c mode mask m (s : S) : Forall clause_ok (c :: cs) → 0 ≤ m < 4096 →
  parsemode (show_clauses (c :: cs)) mode mask s = Ok (do_clauses mask mode (c :: cs)) s ∧
  parsemode (octal m) mode mask s = Ok m s.
Proof.
  intros Hok Hm. split; [|by apply parsemode_octal]. unfold parsemode.
  pose proof (no_digits_strtol (show_clauses (c :: cs)) (show_clauses_chars _ Hok)) as Hst.
  destruct (strtol8 (show_clauses (c :: cs))) as [v ep]. rewrite decide_False.
  - rewrite <- (clauses_ok (show_clauses (c :: cs)) mask cs c (length (show_clauses (c :: cs))) mode s Hok) by lia.
    destruct (parse_who (show_clauses (c :: cs)) 0) as [w p]. by destruct (clause_masks w mask).
  - apply Hst. apply Forall_cons in Hok as [(_ & Hne & _) _]. destruct (c_actions c) as [|a acts] eqn:E; [done|].
    destruct cs; simpl; unfold show_clause; rewrite E; simpl; by destruct (c_who c).
Qed.
Lemma parsemode_correct_witness :
  (** u=rwx,g+X,o-w on a directory with mode 0026 *)
  let cs := [mkClause "u" [mkAction "=" (Letters "rwx")]; mkClause "g" [mkAction "+" (Letters "X")]; mkClause "o" [mkAction "-" (Letters "w")]] in
  parsemode "u=rwx,g+X,o-w" (16384 + 22) 18 tt = Ok 476 tt ∧ parsemode "755" 0 0 tt = Ok 493 tt.
Proof.
  intros cs. destruct (parsemode_correct (S := unit) (tail cs) (mkClause "u" [mkAction "=" (Letters "rwx")]) (16384 + 22) 18 493 tt) as [H1 H2].
  - repeat constructor; simpl; set_solver.
  - lia.
  - split; [etransitivity; [exact H1|]; vm_compute; reflexivity|]. pose proof (parsemode_octal (S := unit) 493 0 0 tt ltac:(lia)) as H. exact H.
Defined.
