(* ===== verification/Uu.v ===== *)
(** * uuencode and uudecode: src/cmd/posix/uuencode.c, src/cmd/posix/uudecode.c

    Both encodings, the header line, and the programs on a file system of regular
    files with modes and other nodes.  Streams are read by blocks, lines or
    [fgets]; output goes to a file or to standard output as it is
    written, so that an error leaves what came before it.  The bytes of an [int]
    are stored with the low byte first.  A [char] is signed: a table indexed
    with a negative one, like a character behind the end of a line, is [Ub].
    Errors of fstat and of closing a stream are left out. *)

From stdpp Require Import gmap strings pretty.
From S2P Require Import Prelude CString StrList Args Stdio Strtonum Mode.

Local Open Scope Z_scope.

(** ** State *)

Inductive node := Reg (fp : FILE) (mode : Z) | Special.
Record ustate := mkU {
  u_files : gmap cstr node; u_stdin : FILE; u_stdin_mode : Z; u_out : list Z; u_err : list cstr
}.
#[export] Instance eta_ustate : Eta ustate := λ s,
  mkU (u_files s) (u_stdin s) (u_stdin_mode s) (u_out s) (u_err s).

(** A stream for output: standard output or a file. *)
Inductive dest := Stdout | File (name : cstr).
Definition append (bytes : list Z) (n : node) : node :=
  match n with Reg fp mode => Reg (mkFile (f_bytes fp ++ bytes) (f_err fp)) mode | Special => Special end.
Definition emit (d : dest) (bytes : list Z) : M ustate unit :=
  match d with
  | Stdout => modify (set u_out (λ o, o ++ bytes))
  | File name => modify (set u_files (alter (append bytes) name))
  end.
Definition print (s : cstr) : M ustate unit := emit Stdout (bytes_of s).

(** ** uuencode *)

Definition BUF : nat := 45.

(** [ch = ' ' + (x & 0x3f); putchar(ch == ' ' ? '`' : ch)] *)
Definition uuchar (x : Z) : Z := let ch := 32 + Z.land x 63 in if decide (ch = 32) then 96 else ch.
Definition uugroup (a b c : Z) : list Z :=
  [uuchar (Z.land (Z.shiftr a 2) 63);
   uuchar (Z.land (Z.lor (Z.shiftl a 4) (Z.land (Z.shiftr b 4) 15)) 63);
   uuchar (Z.land (Z.lor (Z.shiftl b 2) (Z.land (Z.shiftr c 6) 3)) 63);
   uuchar (Z.land c 63)].
(** The bytes behind a short end are set to 0. *)
Fixpoint uugroups (p : list Z) : list Z :=
  match p with
  | a :: b :: c :: p => uugroup a b c ++ uugroups p
  | [a; b] => uugroup a b 0
  | [a] => uugroup a 0 0
  | [] => []
  end.
Definition uuline (buf : list Z) : list Z := uuchar (Z.of_nat (length buf)) :: uugroups buf ++ [10].

Definition read_error {A} (s : cstr) : M ustate A := eprintf (lit "'" ++ s ++ lit "' read error:").

Definition uuencode (fp : FILE) (mode : Z) (name s : cstr) : M ustate unit :=
  print (lit "begin " ++ octal (Z.land mode 511) ++ lit " " ++ name ++ [NL]) ;;
  emit Stdout (concat (map uuline (fread_blocks BUF fp))) ;;
  if f_err fp then read_error s else print (lit "`" ++ [NL] ++ lit "end" ++ [NL]).

Definition b64et : list Z := bytes_of "ABCDEFGHIJKLMNOPQRSTUVWXYZabcdefghijklmnopqrstuvwxyz0123456789+/".
Definition b64ch (x : Z) : Z := nth (Z.to_nat (Z.land x 63)) b64et 0.
Definition b64e (b0 b1 b2 : Z) : Z :=
  let p := Z.lor (Z.lor b2 (Z.shiftl b1 8)) (Z.shiftl b0 16) in
  let o := b64ch p in
  let p := Z.shiftr p 6 in
  let o := Z.lor (Z.shiftl o 8) (b64ch p) in
  let p := Z.shiftr p 6 in
  let o := Z.lor (Z.shiftl o 8) (b64ch p) in
  let p := Z.shiftr p 6 in
  Z.lor (Z.shiftl o 8) (b64ch p).
(** The bytes of an [unsigned int] in memory. *)
Definition int_bytes (o : Z) : list Z :=
  [Z.land o 255; Z.land (Z.shiftr o 8) 255; Z.land (Z.shiftr o 16) 255; Z.land (Z.shiftr o 24) 255].

Fixpoint b64ints (pb : list Z) : list Z :=
  match pb with
  | a :: b :: c :: pb => b64e a b c :: b64ints pb
  | [a; b] => [b64e a b 0]
  | [a] => [b64e a 0 0]
  | [] => []
  end.
(** [po[-1] = (po[-1] & mask) | (dest & ~mask)] for [m] bytes in the last group *)
Definition pad_last (m : Z) (ints : list Z) : list Z :=
  if decide (m ≠ 0) then
    let mask := Z.shiftr (2 ^ 32 - 1) (Z.shiftl (3 - m) 3) in
    match reverse ints with
    | o :: r => reverse (Z.lor (Z.land o mask) (Z.land 1027423549 (not32 mask)) :: r)
    | [] => []
    end
  else ints.
(** The lines, with the value of [m] left by the lines before. *)
Fixpoint b64lines (m : Z) (blocks : list (list Z)) : list Z :=
  match blocks with
  | [] => []
  | buf :: blocks =>
      let n := length buf in
      let m := if decide (n ≠ BUF) then Z.of_nat n mod 3 else m in
      concat (map int_bytes (pad_last m (b64ints buf))) ++ [10] ++ b64lines m blocks
  end.
Definition uuencodeb64 (fp : FILE) (mode : Z) (name s : cstr) : M ustate unit :=
  print (lit "begin-base64 " ++ octal (Z.land mode 511) ++ lit " " ++ name ++ [NL]) ;;
  emit Stdout (b64lines 0 (fread_blocks BUF fp)) ;;
  if f_err fp then read_error s else print (lit "====" ++ [NL]).

Definition uuencode_usage {A} (argv0 : cstr) : M ustate A := eprintf (lit "usage: " ++ argv0 ++ lit " [-m] [file] name").
Definition uuencode_main (argv0 : cstr) (args : StrList) : M ustate Z :=
  p <- argbegin (λ _, false) (λ _ _ o, mret o)
         (λ c o, if decide (c = "m"%char) then mret true else uuencode_usage argv0) (uuencode_usage argv0) args false ;;
  let '(argv, m) := p in
  let uuencode_f := if (m : bool) then uuencodeb64 else uuencode in
  let from_stdin name := fp <- gets u_stdin ;; mode <- gets u_stdin_mode ;; uuencode_f fp mode name "<stdin>" ;; mret 0 in
  match argv with
  | [name] => from_stdin name
  | [path; name] =>
      if decide (path = lit "-") then from_stdin path
      else
        files <- gets u_files ;;
        match files !! path with
        | Some (Reg fp mode) => uuencode_f fp mode name path ;; mret 0
        | _ => eprintf (lit "fopen " ++ path ++ lit ":")
        end
  | _ => uuencode_usage argv0
  end.

(** ** uudecode: the header *)

(** [fgets] into [size] bytes: what is stored, and what remains. *)
Fixpoint fgets (size : nat) (s : list Z) : list Z * list Z :=
  match size, s with
  | S size, b :: s =>
      if decide (b = 10) then ([b], s)
      else let '(l, r) := fgets size s in (b :: l, r)
  | _, _ => ([], s)
  end.
Definition HEADER : nat := Z.to_nat (4096 + 18 - 1).

Fixpoint strip_end (s : cstr) : cstr :=
  match s with
  | [] => []
  | c :: r =>
      match strip_end r with
      | [] => if decide (c = NL ∨ c = CR) then [] else [c]
      | r' => c :: r'
      end
  end.

(** The header, the mode, the name and the rest of the input. *)
Definition parseheader (fp : FILE) (s : cstr) : M ustate (cstr * Z * cstr * list Z) :=
  let '(l, rest) := fgets HEADER (f_bytes fp) in
  if decide (l = [] ∧ f_err fp = true) then eprintf (s ++ lit ": read error:")
  else
    let bufs := cstr_at (map char_of l) in
    (** a line that is cut by the end of the file *)
    let eof := bool_decide (last l ≠ Some 10 ∧ (length l < HEADER)%nat ∧ f_err fp = false) in
    if decide (bufs = [] ∨ eof = true) then eprintf "empty or nil header string"
    else if decide (NL ∉ bufs) then eprintf "header string too long or non-newline terminated file"
    else
      match strchr bufs " " with
      | None => eprintf "malformed mode string in header, expected ' '"
      | Some (header, p) =>
          match strchr p " " with
          | None => eprintf "malformed mode string in header, expected ' '"
          | Some (m, q) =>
              mode <- parsemode m 0 0 ;;
              let fname := strip_end q in
              if decide (fname = []) then eprintf "header string does not contain output file"
              else mret (header, mode, fname, rest)
          end
      end.

(** ** uudecode: base64 *)

Definition b64dt (c : Z) : Z :=
  if decide (9 ≤ c ≤ 13 ∨ c = 32) then -2
  else if decide (c = 43) then 62
  else if decide (c = 47) then 63
  else if decide (48 ≤ c ≤ 57) then c + 4
  else if decide (c = 61) then 0
  else if decide (65 ≤ c ≤ 90) then c - 65
  else if decide (97 ≤ c ≤ 122) then c - 71 else -1.

Record b64state := mkB { k_b : Z; k_t : Z; k_l : Z; k_24 : Z * Z * Z }.

Definition quote (s : cstr) : cstr := DQ :: s ++ [DQ].
(** [*po++ = x], in a buffer of 45 bytes *)
Definition store (out : list Z) (x : Z) : M ustate (list Z) :=
  if decide (length out < BUF)%nat then mret (out ++ [x]) else mub.

(** One character: the state, the output of the block, and whether to return. *)
Definition b64char (k : b64state) (out : list Z) (c : Z) : M ustate (b64state * list Z * bool) :=
  let '(mkB b t l (x0, x1, x2)) := k in
  if decide (c = 10) then mret (mkB b t (l + 1) (x0, x1, x2), out, false)
  else if decide (c = 61) then
    if decide (b = 0) then
      let t := t - 1 in mret (mkB b t l (x0, x1, x2), out, bool_decide (t ≠ 0))
    else if decide (b = 1) then eprintf (lit (pretty l) ++ lit ": unexpected " ++ quote "=" ++ lit "appeared")
    else if decide (b = 2) then
      out <- store out x0 ;; mret (mkB 0 5 l (x0, x1, x2), out, false)
    else
      out <- store out x0 ;; out <- store out x1 ;; mret (mkB 0 6 l (x0, x1, x2), out, false)
  else if decide (128 ≤ c) then mub
  else
    let e := b64dt c in
    if decide (e = -1) then eprintf (lit (pretty l) ++ lit ": invalid byte " ++ quote [char_of c])
    else if decide (e = -2) then mret (k, out, false)
    else if decide (0 < t) then eprintf (lit (pretty l) ++ lit ": invalid byte " ++ quote [char_of c] ++ lit " after padding")
    else
      let '(x0, x1, x2) :=
        if decide (b = 0) then (Z.lor x0 (Z.shiftl e 2), x1, x2)
        else if decide (b = 1) then (Z.lor x0 (Z.land (Z.shiftr e 4) 3), Z.lor x1 (Z.shiftl (Z.land e 15) 4), x2)
        else if decide (b = 2) then (x0, Z.lor x1 (Z.land (Z.shiftr e 2) 15), Z.lor x2 (Z.shiftl (Z.land e 3) 6))
        else (x0, x1, Z.lor x2 e) in
      if decide (b + 1 = 4) then
        out <- store out x0 ;; out <- store out x1 ;; out <- store out x2 ;;
        mret (mkB 0 t l (0, 0, 0), out, false)
      else mret (mkB (b + 1) t l (x0, x1, x2), out, false).
Fixpoint b64block (k : b64state) (out : list Z) (buf : list Z) : M ustate (b64state * list Z * bool) :=
  match buf with
  | [] => mret (k, out, false)
  | c :: buf =>
      r <- b64char k out c ;;
      let '(k, out, stop) := r in
      if (stop : bool) then mret (k, out, true) else b64block k out buf
  end.
Fixpoint b64blocks (d : dest) (k : b64state) (blocks : list (list Z)) : M ustate unit :=
  match blocks with
  | [] => eprintf (lit (pretty (k_l k)) ++ lit ": invalid uudecode footer " ++ quote "====" ++ lit " not found")
  | buf :: blocks =>
      r <- b64block k [] buf ;;
      let '(k, out, stop) := r in
      emit d out ;;
      if (stop : bool) then mret tt else b64blocks d k blocks
  end.
Definition uudecodeb64 (fp : FILE) (d : dest) : M ustate unit :=
  b64blocks d (mkB 0 (-1) 1 (0, 0, 0)) (fread_blocks 60 fp).

(** ** uudecode: the traditional encoding *)

(** [getline]: the line with its newline, and the rest; [None] at the end. *)
Fixpoint until_nl (s : list Z) : list Z * list Z :=
  match s with
  | [] => ([], [])
  | b :: s => if decide (b = 10) then ([b], s) else let '(l, r) := until_nl s in (b :: l, r)
  end.
Definition getline (s : list Z) : option (list Z * list Z) :=
  match s with [] => None | _ => Some (until_nl s) end.

Definition schar (b : Z) : Z := if decide (b < 128) then b else b - 256.
Definition DEC (c : Z) : Z := Z.land (schar c - 32) 63.
Definition IS_DEC (c : Z) : bool := bool_decide (0 ≤ schar c - 32 ≤ 64).
Definition OUT_OF_RANGE {A} (p : list Z) : M ustate A :=
  c <- deref (head p) ;; eprintf (lit "character " ++ [char_of c] ++ lit " out of range: [33-96]").
Definition putc (d : dest) (ch : Z) : M ustate unit := emit d [Z.land ch 255].

(** [p[k]], and whether it can be decoded, from left to right *)
Fixpoint all_dec (cs : list Z) (k : nat) : option bool :=
  match k with
  | O => Some true
  | S k =>
      match cs with
      | [] => None
      | c :: cs => if IS_DEC c then all_dec cs k else Some false
      end
  end.
Definition dec1 (d : dest) (p0 p1 : Z) : M ustate unit := putc d (Z.lor (Z.shiftl (DEC p0) 2) (Z.shiftr (DEC p1) 4)).
Definition dec2 (d : dest) (p1 p2 : Z) : M ustate unit := putc d (Z.lor (Z.shiftl (DEC p1) 4) (Z.shiftr (DEC p2) 2)).
Definition dec3 (d : dest) (p2 p3 : Z) : M ustate unit := putc d (Z.lor (Z.shiftl (DEC p2) 6) (DEC p3)).

(** The groups of a line: [p] is what the buffer holds from the pointer on. *)
Fixpoint uudecode_groups (fuel : nat) (d : dest) (p : list Z) (i : Z) : M ustate unit :=
  if decide (0 < i) then
    match fuel with
    | O => mfuel
    | S fuel =>
        (if decide (3 ≤ i) then
           ok <- deref (all_dec p 4) ;;
           if negb ok then OUT_OF_RANGE p
           else
             match p with
             | p0 :: p1 :: p2 :: p3 :: _ => dec1 d p0 p1 ;; dec2 d p1 p2 ;; dec3 d p2 p3
             | _ => mub
             end
         else
           ok <- deref (all_dec p 2) ;;
           if negb ok then OUT_OF_RANGE p
           else
             match p with
             | p0 :: p1 :: _ => dec1 d p0 p1
             | _ => mub
             end ;;
             if decide (2 ≤ i) then
               ok <- deref (all_dec (drop 1 p) 2) ;;
               if negb ok then OUT_OF_RANGE p
               else match p with _ :: p1 :: p2 :: _ => dec2 d p1 p2 | _ => mub end
             else mret tt) ;;
        uudecode_groups fuel d (drop 4 p) (i - 3)
    end
  else mret tt.

(** The lines up to the one with no bytes; what remains of the input. *)
Fixpoint uudecode_lines (fuel : nat) (d : dest) (s : list Z) : M ustate (list Z) :=
  match getline s with
  | None => mret []
  | Some (l, rest) =>
      match fuel with
      | O => mfuel
      | S fuel =>
          if decide (last l ≠ Some 10) then eprintf "no newline found, aborting"
          else
            let buf := take (length l - 1) l ++ [0] in
            c <- deref (head buf) ;;
            let i := DEC c in
            if decide (i ≤ 0) then mret rest
            else uudecode_groups 64 d (drop 1 buf) i ;; uudecode_lines fuel d rest
      end
  end.
Definition uudecode (fp : FILE) (d : dest) : M ustate unit :=
  rest <- uudecode_lines (length (f_bytes fp)) d (f_bytes fp) ;;
  match getline rest with
  | None => eprintf "getline:"
  | Some (l, _) =>
      if decide (take 4 l = bytes_of (lit "end" ++ [NL])) then mret tt
      else eprintf (lit "invalid uudecode footer " ++ quote "end" ++ lit " not found")
  end.

(** ** uudecode: main *)

Section main.
(** Whether lstat fails for another reason than a file that is not there, whether a
    file can be opened for writing, and whether its mode can be changed. *)
Context (lstat_error can_write can_chmod : cstr → bool).

Definition warn (msg : cstr) : M ustate unit := modify (set u_err (λ l, l ++ [msg])).
Definition open_write (fname : cstr) : M ustate (option dest) :=
  if can_write fname then
    modify (set u_files (λ fs, match fs !! fname with
                               | Some (Reg _ mode) => <[fname := Reg (mkFile [] false) mode]> fs
                               | _ => <[fname := Reg (mkFile [] false) 420]> fs
                               end)) ;;
    mret (Some (File fname))
  else mret None.
Definition parsefile (fname : cstr) : M ustate (option dest) :=
  if decide (fname = lit "/dev/stdout" ∨ fname = lit "-") then mret (Some Stdout)
  else if lstat_error fname then warn (lit "lstat " ++ fname ++ lit ":") ;; mret None
  else
    files <- gets u_files ;;
    match files !! fname with
    | Some Special => warn "for safety uudecode operates only on regular files and /dev/stdout" ;; mret None
    | _ => open_write fname
    end.

Definition uudecode_usage {A} (argv0 : cstr) : M ustate A := eprintf (lit "usage: " ++ argv0 ++ lit " [-m] [-o output] [file]").
Definition set_mode (mode : Z) (n : node) : node := match n with Reg fp _ => Reg fp mode | Special => Special end.

Definition uudecode_main (argv0 : cstr) (args : StrList) : M ustate Z :=
  p <- argbegin (λ c, bool_decide (c = "o"%char)) (λ _ a _, mret (Some a))
         (λ c o, if decide (c = "m"%char) then mret o else uudecode_usage argv0) (uudecode_usage argv0) args None ;;
  let '(argv, ofname) := p in
  if decide (1 < length argv)%nat then uudecode_usage argv0
  else
    inp <- match argv with
           | path :: _ =>
               if decide (path = lit "-") then fp <- gets u_stdin ;; mret (fp, lit "<stdin>")
               else
                 files <- gets u_files ;;
                 match files !! path with
                 | Some (Reg fp _) => mret (fp, path)
                 | _ => eprintf (lit "fopen " ++ path ++ lit ":")
                 end
           | [] => fp <- gets u_stdin ;; mret (fp, lit "<stdin>")
           end ;;
    let '(fp, ifname) := inp in
    h <- parseheader fp ifname ;;
    let '(header, mode, fname, rest) := h in
    let fp := mkFile rest (f_err fp) in
    dec <- (if decide (header = lit "begin") then mret uudecode
            else if decide (header = lit "begin-base64") then mret uudecodeb64
            else eprintf (lit "unknown header " ++ header ++ lit ":")) ;;
    let fname := default fname ofname in
    nfp <- parsefile fname ;;
    match nfp with
    | None => eprintf (lit "fopen " ++ fname ++ lit ":")
    | Some d =>
        dec fp d ;;
        match d with
        | Stdout => mret 0
        | File name =>
            if can_chmod name then modify (set u_files (alter (set_mode mode) name)) ;; mret 0
            else eprintf (lit "chmod " ++ name ++ lit ":")
        end
    end.
End main.

(** ** Examples *)

Definition no_error : cstr → bool := λ _, false.
Definition yes : cstr → bool := λ _, true.
Definition run_decode (input : list Z) : out ustate Z :=
  uudecode_main no_error yes yes "uudecode" [] (mkU ∅ (mkFile input false) 420 [] []).
Definition ustdout (o : out ustate Z) : option (list Z) := match o with Ok _ s => Some (u_out s) | _ => None end.

Example decode_cat :
  ustdout (run_decode (bytes_of (lit "begin 644 -" ++ [NL] ++ lit "#0V%T" ++ [NL] ++ lit "`" ++ [NL] ++ lit "end" ++ [NL]))) = Some (bytes_of "Cat").
Proof. vm_compute. reflexivity. Qed.

(** 59 characters and a blank leave three characters of a group; 59 more and a pad
    then decode to 46 bytes in a buffer of 45. *)
Example b64_overflow :
  run_decode (bytes_of (lit "begin-base64 644 -" ++ [NL] ++ replicate 59 "A"%char ++ lit " " ++ replicate 59 "A"%char ++ lit "====")) = Ub.
Proof. vm_compute. reflexivity. Qed.
(** A byte above 127 indexes the table from before its start. *)
Example b64_high_byte : run_decode (bytes_of (lit "begin-base64 644 -" ++ [NL]) ++ [200]) = Ub.
Proof. vm_compute. reflexivity. Qed.
(** An empty line counts as one of 32 bytes, and what is behind its end is read. *)
Example uu_empty_line : run_decode (bytes_of (lit "begin 644 -" ++ [NL; NL])) = Ub.
Proof. vm_compute. reflexivity. Qed.
(** With - for standard input the name in the header is - as well. *)
Example encode_dash :
  ustdout (uuencode_main "uuencode" (lits ["-"; "name"]) (mkU ∅ (mkFile [] false) 420 [] [])) =
  Some (bytes_of (lit "begin 644 -" ++ [NL] ++ lit "`" ++ [NL] ++ lit "end" ++ [NL])).
Proof. vm_compute. reflexivity. Qed.
