(* ===== verification/UuFacts.v ===== *)
(** * What is encoded is decoded

    A file that uuencode writes, in either encoding, is recreated by uudecode: the
    name, the permissions and every byte ([uu_roundtrip]).  On the way: no store
    leaves the buffer of the decoder on encoded text, and the 60 bytes it
    reads at a time need not be lines. *)

From stdpp Require Import gmap strings pretty.
From S2P Require Import Prelude CString StrList Fs Args Stdio Strtonum Mode Uu.

Local Open Scope Z_scope.

(** ** Output *)

Lemma append_nil n : append [] n = n.
Proof. destruct n as [[b e] m|]; simpl; [by rewrite app_nil_r|done]. Qed.
Lemma append_app x y n : append y (append x n) = append (x ++ y) n.
Proof. destruct n as [[b e] m|]; simpl; [by rewrite app_assoc|done]. Qed.

Definition emitted (d : dest) (x : list Z) (s : ustate) : ustate :=
  match d with
  | Stdout => mkU (u_files s) (u_stdin s) (u_stdin_mode s) (u_out s ++ x) (u_err s)
  | File name => mkU (alter (append x) name (u_files s)) (u_stdin s) (u_stdin_mode s) (u_out s) (u_err s)
  end.
Lemma emit_run d x s : emit d x s = Ok tt (emitted d x s).
Proof. by destruct d. Qed.
Lemma emitted_nil d s : emitted d [] s = s.
Proof.
  destruct s as [fs si sm o e], d; simpl; [by rewrite app_nil_r|]. f_equal. apply alter_id. intros. apply append_nil.
Qed.
Lemma emitted_app d x y s : emitted d y (emitted d x s) = emitted d (x ++ y) s.
Proof.
  destruct s as [fs si sm o e], d; simpl; [by rewrite app_assoc|]. f_equal.
  apply map_eq. intros i. destruct (decide (i = name)) as [->|Hne].
  - rewrite !lookup_alter_eq. destruct (fs !! name) as [n|]; simpl; [by rewrite append_app|done].
  - by rewrite !lookup_alter_ne.
Qed.
Lemma emit_nil d s : emit d [] s = Ok tt s.
Proof. by rewrite emit_run, emitted_nil. Qed.
Lemma emit_emit d x y s : (emit d x ;; emit d y) s = emit d (x ++ y) s.
Proof. unfold mbind. by rewrite !emit_run, emitted_app. Qed.
(** Emitting before something that emits. *)
Lemma emit_then {A} d x (m : M ustate A) y (k : M ustate A) s : (∀ s, m s = (emit d y ;; k) s) →
  (emit d x ;; m) s = (emit d (x ++ y) ;; k) s.
Proof.
  intros Hm. unfold mbind at 1 2. rewrite !emit_run, Hm. unfold mbind. by rewrite emit_run, emitted_app.
Qed.

(** ** Groups of three bytes as four of six bits *)

Definition s0 (a b c : Z) : Z := a / 4.
Definition s1 (a b c : Z) : Z := a mod 4 * 16 + b / 16.
Definition s2 (a b c : Z) : Z := b mod 16 * 4 + c / 64.
Definition s3 (a b c : Z) : Z := c mod 64.

Lemma sextet_range a b c : is_byte a → is_byte b → is_byte c →
  0 ≤ s0 a b c < 64 ∧ 0 ≤ s1 a b c < 64 ∧ 0 ≤ s2 a b c < 64 ∧ 0 ≤ s3 a b c < 64.
Proof. unfold is_byte, s0, s1, s2, s3. intros. dlia. Qed.

Lemma land63 x : Z.land x 63 = x mod 64.
Proof. apply (land_low 6). lia. Qed.

Lemma uugroup_ok a b c : is_byte a → is_byte b → is_byte c →
  uugroup a b c = map uuchar [s0 a b c; s1 a b c; s2 a b c; s3 a b c].
Proof.
  unfold is_byte. intros Ha Hb Hc. unfold uugroup, s0, s1, s2, s3. cbn [map].
  assert (∀ x, Z.land x 63 = x mod 64) as H6 by apply land63.
  assert (Z.land (Z.shiftr b 4) 15 = b / 16) as ->.
  { rewrite (land_low 4) by lia. rewrite Z.shiftr_div_pow2 by lia. dlia. }
  assert (Z.land (Z.shiftr c 6) 3 = c / 64) as ->.
  { rewrite (land_low 2) by lia. rewrite Z.shiftr_div_pow2 by lia. dlia. }
  rewrite !lor_high by dlia. rewrite !H6, Z.shiftr_div_pow2 by lia.
  f_equal; [f_equal; dlia|]. f_equal; [f_equal; dlia|]. f_equal. f_equal. dlia.
Qed.

(** A character of the encoding and its value. *)
Lemma uuchar_dec x : 0 ≤ x < 64 → DEC (uuchar x) = x ∧ IS_DEC (uuchar x) = true ∧ 33 ≤ uuchar x ≤ 96.
Proof.
  intros Hx. assert (Forall (λ x, DEC (uuchar x) = x ∧ IS_DEC (uuchar x) = true ∧ 33 ≤ uuchar x ≤ 96) (map Z.of_nat (seq 0 64))) as H.
  { apply (bool_decide_unpack (Forall _ _)). vm_compute. exact I. }
  apply (range_forall 64 _ H). lia.
Qed.

Lemma putc_byte d x s : is_byte x → putc d x s = emit d [x] s.
Proof. unfold is_byte, putc. intros H. rewrite (land_low 8) by lia. by rewrite Z.mod_small by lia. Qed.

Lemma dec_bytes d a b c : is_byte a → is_byte b → is_byte c →
  (∀ s, dec1 d (uuchar (s0 a b c)) (uuchar (s1 a b c)) s = emit d [a] s) ∧
  (∀ s, dec2 d (uuchar (s1 a b c)) (uuchar (s2 a b c)) s = emit d [b] s) ∧
  (∀ s, dec3 d (uuchar (s2 a b c)) (uuchar (s3 a b c)) s = emit d [c] s).
Proof.
  intros Ha Hb Hc. destruct (sextet_range a b c Ha Hb Hc) as (H0 & H1 & H2 & H3). unfold is_byte in *.
  unfold dec1, dec2, dec3, putc.
  rewrite (proj1 (uuchar_dec _ H0)), (proj1 (uuchar_dec _ H1)), (proj1 (uuchar_dec _ H2)), (proj1 (uuchar_dec _ H3)).
  rewrite !(land_low 8), !Z.shiftr_div_pow2 by lia. unfold s0, s1, s2, s3 in *.
  split_and!; intros s; (rewrite lor_high by dlia); do 2 f_equal; dlia.
Qed.

(** ** The traditional encoding *)

Lemma all_dec_ok vs t k : Forall (λ x, 0 ≤ x < 64) vs → (k ≤ length vs)%nat → all_dec (map uuchar vs ++ t) k = Some true.
Proof.
  intros Hv. revert k. induction Hv as [|x vs Hx Hv IH]; intros k Hk; destruct k as [|k]; simpl in *; [by destruct t|lia|done|].
  rewrite (proj1 (proj2 (uuchar_dec x Hx))). apply IH. lia.
Qed.

#[local] Arguments dec1 : simpl never.
#[local] Arguments dec2 : simpl never.
#[local] Arguments dec3 : simpl never.
#[local] Arguments uuchar : simpl never.
#[local] Arguments emit : simpl never.
Lemma byte_0 : is_byte 0.
Proof. unfold is_byte. lia. Qed.

Lemma groups_ok fuel d buf t s : Forall is_byte buf → (length buf ≤ fuel)%nat →
  uudecode_groups fuel d (uugroups buf ++ t) (Z.of_nat (length buf)) s = emit d buf s.
Proof.
  intros Hb. revert buf t s Hb. induction fuel as [|fuel IH]; intros buf t s Hb Hf.
  { destruct buf; simpl in Hf; [|lia]. by rewrite emit_nil. }
  destruct buf as [|a [|b [|c buf]]].
  - by rewrite emit_nil.
  - apply Forall_cons in Hb as [Ha _]. destruct (dec_bytes d a 0 0 Ha byte_0 byte_0) as (H1 & _).
    destruct (sextet_range a 0 0 Ha byte_0 byte_0) as (R0 & R1 & R2 & R3).
    cbn [uugroups length uudecode_groups]. rewrite uugroup_ok by (done || apply byte_0).
    rewrite (decide_True (P := 0 < _)), (decide_False (P := 3 ≤ _)), (decide_False (P := 2 ≤ _)) by lia.
    rewrite all_dec_ok by (repeat constructor; done || (simpl; lia)). cbn [map app]. unfold mbind. simpl.
    rewrite H1, !emit_run. by destruct fuel.
  - apply Forall_cons in Hb as [Ha Hb]. apply Forall_cons in Hb as [Hb _].
    destruct (dec_bytes d a b 0 Ha Hb byte_0) as (H1 & H2 & _). destruct (sextet_range a b 0 Ha Hb byte_0) as (R0 & R1 & R2 & R3).
    cbn [uugroups length uudecode_groups]. rewrite uugroup_ok by (done || apply byte_0).
    rewrite (decide_True (P := 0 < _)), (decide_False (P := 3 ≤ _)), (decide_True (P := 2 ≤ _)) by lia.
    rewrite all_dec_ok by (repeat constructor; done || (simpl; lia)).
    replace (drop 1 (map uuchar [s0 a b 0; s1 a b 0; s2 a b 0; s3 a b 0] ++ t)) with (map uuchar [s1 a b 0; s2 a b 0; s3 a b 0] ++ t) by done.
    rewrite all_dec_ok by (repeat constructor; done || (simpl; lia)). cbn [map app]. unfold mbind. simpl.
    rewrite H1, !emit_run, H2, !emit_run, emitted_app. by destruct fuel.
  - apply Forall_cons in Hb as [Ha Hb]. apply Forall_cons in Hb as [Hb Hbuf]. apply Forall_cons in Hbuf as [Hc Hbuf].
    destruct (dec_bytes d a b c Ha Hb Hc) as (H1 & H2 & H3). destruct (sextet_range a b c Ha Hb Hc) as (R0 & R1 & R2 & R3).
    cbn [uugroups uudecode_groups]. rewrite decide_True by (simpl; lia). rewrite decide_True by (simpl; lia).
    rewrite uugroup_ok by done. rewrite <- app_assoc.
    rewrite all_dec_ok by (repeat constructor; done || (simpl; lia)). cbn [map app drop]. simpl deref.
    replace (Z.of_nat (length (a :: b :: c :: buf)) - 3) with (Z.of_nat (length buf)) by (simpl; lia).
    unfold mbind. simpl. rewrite H1, !emit_run, H2, !emit_run, H3, !emit_run, !emitted_app, drop_0, IH by (done || (simpl in Hf; lia)).
    by rewrite emit_run, emitted_app.
Qed.

Lemma until_nl_line l r : 10 ∉ l → until_nl (l ++ 10 :: r) = (l ++ [10], r).
Proof.
  induction l as [|b l IH]; intros Hn; simpl; [done|]. rewrite decide_False by set_solver. rewrite IH by set_solver. done.
Qed.

Lemma three_ind {A} (P : list A → Prop) : P [] → (∀ a, P [a]) → (∀ a b, P [a; b]) →
  (∀ a b c l, P l → P (a :: b :: c :: l)) → ∀ l, P l.
Proof. intros P0 P1 P2 P3. fix IH 1. intros [|a [|b [|c l]]]; [apply P0|apply P1|apply P2|apply P3, IH]. Qed.
Lemma uugroups_chars buf : Forall is_byte buf → Forall (λ c, 33 ≤ c ≤ 96) (uugroups buf).
Proof.
  assert (∀ a b c, is_byte a → is_byte b → is_byte c → Forall (λ c, 33 ≤ c ≤ 96) (uugroup a b c)) as Hg.
  { intros a b c Ha Hb Hc. rewrite uugroup_ok by done. destruct (sextet_range a b c Ha Hb Hc) as (? & ? & ? & ?).
    repeat constructor; apply uuchar_dec; done. }
  induction buf as [|a|a b|a b c buf IH] using three_ind; intros Hb; cbn [uugroups]; rewrite ?Forall_cons in Hb.
  - constructor.
  - apply Hg; [apply Hb|apply byte_0..].
  - apply Hg; [apply Hb..|apply byte_0].
  - apply Forall_app. split; [apply Hg; apply Hb|]. apply IH. apply Hb.
Qed.

Lemma uuline_ok d buf r fuel s : Forall is_byte buf → (0 < length buf ≤ BUF)%nat →
  uudecode_lines (S fuel) d (uuline buf ++ r) s = (emit d buf ;; uudecode_lines fuel d r) s.
Proof.
  intros Hb Hl. unfold BUF in Hl. set (n := Z.of_nat (length buf)).
  destruct (uuchar_dec n ltac:(unfold n; lia)) as (Hd & _ & Hr).
  assert (10 ∉ uuchar n :: uugroups buf) as Hn.
  { intros [H|H]%elem_of_cons; [lia|]. pose proof (uugroups_chars buf Hb) as Hc. rewrite Forall_forall in Hc. apply Hc in H. lia. }
  assert (uuline buf ++ r = (uuchar n :: uugroups buf) ++ 10 :: r) as -> by (unfold uuline; simpl; by rewrite <- app_assoc).
  cbn [uudecode_lines]. unfold getline. rewrite <- app_comm_cons. rewrite app_comm_cons, until_nl_line by done.
  rewrite decide_False by (rewrite last_snoc; intros Hx; by apply Hx).
  assert (take (length ((uuchar n :: uugroups buf) ++ [10]) - 1) ((uuchar n :: uugroups buf) ++ [10]) = uuchar n :: uugroups buf) as ->.
  { rewrite length_app, Nat.add_sub. apply take_app_length. }
  unfold mbind at 1. simpl deref. unfold mret. rewrite Hd. rewrite decide_False by (unfold n; lia). cbn [drop app].
  unfold mbind. unfold n. by rewrite drop_0, groups_ok by (done || lia).
Qed.

Definition uufooter : list Z := bytes_of (lit "`" ++ [NL] ++ lit "end" ++ [NL]).

Lemma uulines_ok d blocks fuel s : Forall (λ b, Forall is_byte b ∧ (0 < length b ≤ BUF)%nat) blocks → (length blocks < fuel)%nat →
  uudecode_lines fuel d (concat (map uuline blocks) ++ uufooter) s = (emit d (concat blocks) ;; mret (bytes_of (lit "end" ++ [NL]))) s.
Proof.
  intros Hb. revert fuel s. induction Hb as [|buf blocks [Hb Hl] Hbs IH]; intros fuel s Hf; (destruct fuel as [|fuel]; [simpl in Hf; lia|]).
  - unfold mbind. change (concat []) with (@nil Z). rewrite emit_nil. reflexivity.
  - cbn [map concat]. rewrite <- app_assoc, uuline_ok by done. apply emit_then. intros s'. apply IH. simpl in Hf. lia.
Qed.

Lemma uudecode_ok d blocks e s : Forall (λ b, Forall is_byte b ∧ (0 < length b ≤ BUF)%nat) blocks →
  uudecode (mkFile (concat (map uuline blocks) ++ uufooter) e) d s = emit d (concat blocks) s.
Proof.
  intros Hb. unfold uudecode, mbind. cbn [f_bytes]. rewrite uulines_ok; [|done|].
  - unfold mbind, mret. rewrite emit_run. done.
  - rewrite length_app. assert (length blocks ≤ length (concat (map uuline blocks)))%nat; [|simpl; lia].
    clear. induction blocks; simpl; [lia|]. rewrite length_app. lia.
Qed.

(** ** base64: the four characters of a group *)

Lemma b64ch_ok x : 0 ≤ x < 64 → b64dt (b64ch x) = x ∧ 43 ≤ b64ch x ≤ 122 ∧ b64ch x ≠ 61.
Proof.
  intros Hx. assert (Forall (λ x, b64dt (b64ch x) = x ∧ 43 ≤ b64ch x ≤ 122 ∧ b64ch x ≠ 61) (map Z.of_nat (seq 0 64))) as H.
  { apply (bool_decide_unpack (Forall _ _)). vm_compute. exact I. }
  apply (range_forall 64 _ H). lia.
Qed.

(** Four bytes as an [unsigned int]. *)
Definition word (c0 c1 c2 c3 : Z) : Z := c0 + c1 * 2 ^ 8 + c2 * 2 ^ 16 + c3 * 2 ^ 24.
Lemma int_bytes_word c0 c1 c2 c3 : is_byte c0 → is_byte c1 → is_byte c2 → is_byte c3 →
  int_bytes (word c0 c1 c2 c3) = [c0; c1; c2; c3].
Proof.
  unfold is_byte, int_bytes, word. intros. rewrite !(land_low 8), !Z.shiftr_div_pow2 by lia.
  f_equal; [dlia|]. f_equal; [dlia|]. f_equal; [dlia|]. f_equal. dlia.
Qed.

Lemma b64ch_mod x : b64ch x = b64ch (x mod 64).
Proof. unfold b64ch. rewrite !land63. by rewrite Z.mod_mod by lia. Qed.

Lemma b64e_ok a b c : is_byte a → is_byte b → is_byte c →
  b64e a b c = word (b64ch (s0 a b c)) (b64ch (s1 a b c)) (b64ch (s2 a b c)) (b64ch (s3 a b c)).
Proof.
  intros Ha Hb Hc. destruct (sextet_range a b c Ha Hb Hc) as (R0 & R1 & R2 & R3). unfold is_byte in *.
  unfold b64e. cbv zeta.
  assert (Z.lor (Z.lor c (Z.shiftl b 8)) (Z.shiftl a 16) = a * 65536 + b * 256 + c) as ->.
  { rewrite (Z.lor_comm c), lor_high by lia. rewrite Z.lor_comm, lor_high by lia. lia. }
  rewrite !Z.shiftr_div_pow2 by lia. rewrite !(b64ch_mod (a * 65536 + b * 256 + c)), !(b64ch_mod (_ / _)).
  replace ((a * 65536 + b * 256 + c) mod 64) with (s3 a b c) by (unfold s3; dlia).
  replace (((a * 65536 + b * 256 + c) / 2 ^ 6) mod 64) with (s2 a b c) by (unfold s2; dlia).
  replace (((a * 65536 + b * 256 + c) / 2 ^ 6 / 2 ^ 6) mod 64) with (s1 a b c) by (unfold s1; dlia).
  replace (((a * 65536 + b * 256 + c) / 2 ^ 6 / 2 ^ 6 / 2 ^ 6) mod 64) with (s0 a b c) by (unfold s0; dlia).
  destruct (b64ch_ok _ R0) as (_ & C0 & _), (b64ch_ok _ R1) as (_ & C1 & _), (b64ch_ok _ R2) as (_ & C2 & _), (b64ch_ok _ R3) as (_ & C3 & _).
  rewrite !lor_high by lia. unfold word. lia.
Qed.

(** The padding of the last group. *)
Lemma pad_word m c0 c1 c2 c3 : is_byte c0 → is_byte c1 → is_byte c2 → is_byte c3 → m = 1 ∨ m = 2 →
  let mask := Z.shiftr (2 ^ 32 - 1) (Z.shiftl (3 - m) 3) in
  Z.lor (Z.land (word c0 c1 c2 c3) mask) (Z.land 1027423549 (not32 mask)) =
  word c0 c1 (if decide (m = 1) then 61 else c2) 61.
Proof.
  intros H0 H1 H2 H3 Hm mask. unfold is_byte in *. unfold word. destruct Hm as [-> | ->].
  - change mask with (Z.ones 16). change (Z.land 1027423549 (not32 (Z.ones 16))) with (Z.shiftl 15677 16).
    rewrite (land_low 16), Z.lor_comm, lor_high by dlia. rewrite decide_True by done. dlia.
  - change mask with (Z.ones 24). change (Z.land 1027423549 (not32 (Z.ones 24))) with (Z.shiftl 61 24).
    rewrite (land_low 24), Z.lor_comm, lor_high by dlia. rewrite decide_False by done. dlia.
Qed.

(** The characters of a line. *)
Fixpoint b64chars (buf : list Z) : list Z :=
  match buf with
  | a :: b :: c :: buf => map b64ch [s0 a b c; s1 a b c; s2 a b c; s3 a b c] ++ b64chars buf
  | [a; b] => map b64ch [s0 a b 0; s1 a b 0; s2 a b 0] ++ [61]
  | [a] => map b64ch [s0 a 0 0; s1 a 0 0] ++ [61; 61]
  | [] => []
  end.

Lemma pad_last_cons m x l : l ≠ [] → pad_last m (x :: l) = x :: pad_last m l.
Proof.
  intros Hne. unfold pad_last. destruct (decide (m ≠ 0)); [|done]. cbv zeta.
  destruct (reverse l) as [|o r] eqn:E.
  { apply (f_equal reverse) in E. rewrite reverse_involutive in E. done. }
  rewrite reverse_cons, E. simpl. rewrite !reverse_cons, reverse_app. done.
Qed.

Lemma b64ch_byte x : 0 ≤ x < 64 → is_byte (b64ch x).
Proof. intros Hx. destruct (b64ch_ok x Hx) as (_ & ? & _). unfold is_byte. lia. Qed.

Lemma int_bytes_b64e a b c : is_byte a → is_byte b → is_byte c →
  int_bytes (b64e a b c) = map b64ch [s0 a b c; s1 a b c; s2 a b c; s3 a b c].
Proof.
  intros Ha Hb Hc. destruct (sextet_range a b c Ha Hb Hc) as (R0 & R1 & R2 & R3).
  rewrite b64e_ok by done. rewrite int_bytes_word by (by apply b64ch_byte). done.
Qed.

Lemma pad_one m a b : is_byte a → is_byte b → m = 1 ∨ m = 2 →
  concat (map int_bytes (pad_last m [b64e a b 0])) =
  [b64ch (s0 a b 0); b64ch (s1 a b 0); if decide (m = 1) then 61 else b64ch (s2 a b 0); 61].
Proof.
  intros Ha Hb Hm. destruct (sextet_range a b 0 Ha Hb byte_0) as (R0 & R1 & R2 & R3).
  unfold pad_last. rewrite decide_True by lia. cbn [reverse rev_append app]. rewrite b64e_ok by (done || apply byte_0).
  pose proof (pad_word m (b64ch (s0 a b 0)) (b64ch (s1 a b 0)) (b64ch (s2 a b 0)) (b64ch (s3 a b 0))) as Hp. cbv zeta in Hp |- *.
  rewrite Hp by (done || by apply b64ch_byte). cbn [map concat]. rewrite app_nil_r.
  apply int_bytes_word; try (by apply b64ch_byte); [|unfold is_byte; lia]. case_decide; [unfold is_byte; lia|by apply b64ch_byte].
Qed.

Lemma b64ints_cons x buf : b64ints (x :: buf) ≠ [].
Proof. destruct buf as [|? [|? ?]]; done. Qed.
Lemma b64line_step m a b c buf : is_byte a → is_byte b → is_byte c → m = Z.of_nat (length buf) mod 3 →
  concat (map int_bytes (pad_last m (b64ints (a :: b :: c :: buf)))) =
  map b64ch [s0 a b c; s1 a b c; s2 a b c; s3 a b c] ++ concat (map int_bytes (pad_last m (b64ints buf))).
Proof.
  intros Ha Hb Hc Hm. cbn [b64ints]. destruct buf as [|x buf].
  - cbn [length] in Hm. subst m. change (pad_last (Z.of_nat 0 mod 3) (b64e a b c :: b64ints [])) with [b64e a b c].
    cbn [map concat]. by rewrite int_bytes_b64e.
  - rewrite pad_last_cons by apply b64ints_cons. cbn [map concat]. by rewrite int_bytes_b64e.
Qed.

Lemma b64line_text buf m : Forall is_byte buf → m = Z.of_nat (length buf) mod 3 →
  concat (map int_bytes (pad_last m (b64ints buf))) = b64chars buf.
Proof.
  induction buf as [|a|a b|a b c buf IH] using three_ind; intros Hb Hm.
  - subst. done.
  - apply Forall_cons in Hb as [Ha _]. cbn in Hm. subst m. cbn [b64ints]. by rewrite pad_one by (done || auto || apply byte_0).
  - apply Forall_cons in Hb as [Ha Hb]. apply Forall_cons in Hb as [Hb _]. cbn in Hm. subst m. cbn [b64ints].
    by rewrite pad_one by (done || auto).
  - apply Forall_cons in Hb as [Ha Hb]. apply Forall_cons in Hb as [Hb Hbuf]. apply Forall_cons in Hbuf as [Hc Hbuf].
    assert (m = Z.of_nat (length buf) mod 3) as Hm'.
    { rewrite Hm. replace (Z.of_nat (length (a :: b :: c :: buf))) with (Z.of_nat (length buf) + 1 * 3) by (simpl; lia). by rewrite Z.mod_add by lia. }
    rewrite b64line_step by done. cbn [b64chars]. f_equal. exact (IH Hbuf Hm').
Qed.

Lemma b64lines_text blocks : Forall (Forall is_byte) blocks →
  (∀ bs b tl, blocks = bs ++ b :: tl → tl ≠ [] → length b = BUF) →
  b64lines 0 blocks = concat (map (λ b, b64chars b ++ [10]) blocks).
Proof.
  induction 1 as [|buf blocks Hb Hbs IH]; intros Hfull; [done|]. cbn [b64lines map concat]. cbv zeta.
  set (m := if decide (length buf ≠ BUF) then _ else 0).
  assert (m = Z.of_nat (length buf) mod 3) as Hm.
  { unfold m. case_decide as Hd; [done|]. assert (length buf = BUF) as -> by (destruct (decide (length buf = BUF)); [done|by destruct Hd]). done. }
  rewrite (b64line_text buf m Hb Hm), <- app_assoc. f_equal. f_equal. destruct blocks as [|b' blocks]; [done|].
  assert (m = 0) as ->. { rewrite Hm, (Hfull [] buf (b' :: blocks)) by done. done. }
  apply IH. intros bs b tl Hbl. apply (Hfull (buf :: bs)). by rewrite Hbl.
Qed.

(** ** base64: the blocks of the decoder *)

Section decoder.
Context (d : dest).

Definition footer_error (k : b64state) : M ustate unit :=
  eprintf (lit (pretty (k_l k)) ++ lit ": invalid uudecode footer " ++ quote "====" ++ lit " not found").

(** The decoder one character at a time: [u] of the block are done. *)
Fixpoint run (k : b64state) (out : list Z) (u : nat) (cs : list Z) : M ustate unit :=
  match cs with
  | [] => emit d out ;; footer_error k
  | c :: cs =>
      r <- b64char k out c ;;
      let '(k, out, stop) := r in
      if (stop : bool) then emit d out
      else if decide (S u = 60)%nat then emit d out ;; run k [] 0 cs
      else run k out (S u) cs
  end.

Lemma block_run cs : ∀ k out u s, (u + length cs < 60)%nat →
  (r <- b64block k out cs ;; let '(k, out, stop) := r in emit d out ;; if (stop : bool) then mret tt else footer_error k) s =
  run k out u cs s.
Proof.
  unfold mbind. induction cs as [|c cs IH]; intros k out u s Hu; cbn [run b64block]; [done|].
  unfold mbind. destruct (b64char k out c s) as [[[k' out'] stop] s'| | |]; try done.
  destruct stop; [unfold mret; by rewrite emit_run|]. rewrite decide_False by (simpl in Hu; lia).
  apply IH. simpl in Hu. lia.
Qed.
Lemma block_run_full cs : ∀ k out u s rest, (u + length cs = 60)%nat → cs ≠ [] →
  (r <- b64block k out cs ;; let '(k, out, stop) := r in emit d out ;; if (stop : bool) then mret tt else run k [] 0 rest) s =
  run k out u (cs ++ rest) s.
Proof.
  unfold mbind. induction cs as [|c cs IH]; intros k out u s rest Hu Hne; [done|]. cbn [run b64block app].
  unfold mbind. destruct (b64char k out c s) as [[[k' out'] stop] s'| | |]; try done.
  destruct stop; [unfold mret; by rewrite emit_run|]. destruct cs as [|c' cs].
  - by rewrite decide_True by (simpl in Hu; lia).
  - rewrite decide_False by (simpl in Hu; lia). apply IH; [simpl in *; lia|done].
Qed.
Lemma blocks_run fuel cs k s : (length cs ≤ fuel)%nat → b64blocks d k (blocks_from fuel 60 cs) s = run k [] 0 cs s.
Proof.
  revert cs k s. induction fuel as [|fuel IH]; intros cs k s Hf.
  - destruct cs; [|simpl in Hf; lia]. simpl. unfold mbind. by rewrite emit_nil.
  - destruct cs as [|c cs]; [simpl; unfold mbind; by rewrite emit_nil|]. set (t := c :: cs) in *.
    change (blocks_from (S fuel) 60 t) with (take 60 t :: blocks_from fuel 60 (drop 60 t)).
    cbn [b64blocks]. destruct (decide (length t < 60)%nat) as [Hl|Hl].
    + rewrite take_ge, drop_ge by lia. rewrite <- (block_run t) by lia. by destruct fuel.
    + transitivity (run k [] 0 (take 60 t ++ drop 60 t) s); [|by rewrite take_drop]. rewrite <- block_run_full.
      * unfold mbind. destruct (b64block k [] (take 60 t) s) as [[[k' out'] stop] s'| | |]; try done.
        rewrite emit_run. destruct stop; [done|]. apply IH. rewrite length_drop. lia.
      * rewrite length_take. lia.
      * by unfold t.
Qed.

(** ** base64: no store leaves the buffer *)

(** After [u] characters of the block, with [b] of a group pending and [col]
    characters since the last newline. *)
Definition room (out : list Z) (u : nat) (b col : Z) : Prop :=
  (u < 60)%nat ∧ b ≤ col ∧ ∃ q, Z.of_nat (length out) = 3 * q ∧
  4 * q + b ≤ Z.of_nat u + 3 ∧ (4 * q + b ≤ Z.of_nat u + 2 ∨ 4 * q + b ≤ col).
(** From [k] on, the characters [cs] are decoded to [tail]. *)
Definition decodes (k : b64state) (col : Z) (cs tail : list Z) : Prop :=
  ∀ out u s, room out u (k_b k) col → run k out u cs s = emit d (out ++ tail) s.

Lemma decodes_step k k' col col' c cs x tail : 0 ≤ k_b k' ≤ 3 → k_b k' ≤ col' →
  (∀ out u s, room out u (k_b k) col → b64char k out c s = Ok (k', out ++ x, false) s) →
  (∀ out u, room out u (k_b k) col → ∃ q, Z.of_nat (length (out ++ x)) = 3 * q ∧
     4 * q + k_b k' ≤ Z.of_nat u + 4 ∧ (4 * q + k_b k' ≤ Z.of_nat u + 3 ∨ 4 * q + k_b k' ≤ col')) →
  decodes k' col' cs tail → decodes k col (c :: cs) (x ++ tail).
Proof.
  intros Hb Hcol Hc Hr Hd out u s Ho. cbn [run]. unfold mbind. rewrite (Hc out u s Ho). case_decide as Hu.
  - rewrite emit_run, Hd, !emit_run, emitted_app; [by rewrite <- app_assoc|]. split; [lia|]. split; [done|]. exists 0. simpl. lia.
  - rewrite Hd; [by rewrite app_assoc|]. destruct (Hr out u Ho) as (q & Hq & H1 & H2). destruct Ho as (Hlt & _).
    split; [lia|]. split; [done|]. exists q. lia.
Qed.

(** The three bytes after a value more. *)
Definition upd (b : Z) (x : Z * Z * Z) (e : Z) : Z * Z * Z :=
  let '(x0, x1, x2) := x in
  if decide (b = 0) then (Z.lor x0 (Z.shiftl e 2), x1, x2)
  else if decide (b = 1) then (Z.lor x0 (Z.land (Z.shiftr e 4) 3), Z.lor x1 (Z.shiftl (Z.land e 15) 4), x2)
  else if decide (b = 2) then (x0, Z.lor x1 (Z.land (Z.shiftr e 2) 15), Z.lor x2 (Z.shiftl (Z.land e 3) 6))
  else (x0, x1, Z.lor x2 e).

Lemma store_ok out x s : (length out < BUF)%nat → store out x s = Ok (out ++ [x]) s.
Proof. intros H. unfold store. by rewrite decide_True. Qed.

Lemma b64char_value b t l x out v s : 0 ≤ v < 64 → t ≤ 0 →
  b64char (mkB b t l x) out (b64ch v) s =
  (let '(x0, x1, x2) := upd b x v in
   if decide (b + 1 = 4) then
     out <- store out x0 ;; out <- store out x1 ;; out <- store out x2 ;; mret (mkB 0 t l (0, 0, 0), out, false)
   else mret (mkB (b + 1) t l (x0, x1, x2), out, false)) s.
Proof.
  intros Hv Ht. destruct (b64ch_ok v Hv) as (Hd & Hr & Hne). destruct x as [[x0 x1] x2]. unfold b64char.
  rewrite (decide_False (P := b64ch v = 10)), (decide_False (P := b64ch v = 61)), (decide_False (P := 128 ≤ _)) by lia. cbv zeta.
  rewrite Hd. rewrite (decide_False (P := v = -1)), (decide_False (P := v = -2)), (decide_False (P := 0 < t)) by lia.
  done.
Qed.

#[local] Arguments b64char : simpl never.
#[local] Arguments b64ch : simpl never.
#[local] Arguments upd : simpl never.
Lemma decodes_value b t l x col v cs tail : 0 ≤ v < 64 → t ≤ 0 → 0 ≤ b < 3 → b ≤ col →
  decodes (mkB (b + 1) t l (upd b x v)) (col + 1) cs tail → decodes (mkB b t l x) col (b64ch v :: cs) tail.
Proof.
  intros Hv Ht Hb Hcol Hd. apply (decodes_step _ (mkB (b + 1) t l (upd b x v)) col (col + 1) (b64ch v) cs [] tail); simpl; try done; try lia.
  - intros out u s _. rewrite b64char_value by done. destruct (upd b x v) as [[x0 x1] x2].
    rewrite decide_False by lia. by rewrite app_nil_r.
  - intros out u (Hu & Hc & q & Hq & H1 & H2). rewrite app_nil_r. exists q. lia.
Qed.
Lemma decodes_last t l x col v cs tail x0 x1 x2 : 0 ≤ v < 64 → t ≤ 0 → 3 ≤ col → upd 3 x v = (x0, x1, x2) →
  decodes (mkB 0 t l (0, 0, 0)) (col + 1) cs tail → decodes (mkB 3 t l x) col (b64ch v :: cs) ([x0; x1; x2] ++ tail).
Proof.
  intros Hv Ht Hcol Hx Hd. apply (decodes_step _ (mkB 0 t l (0, 0, 0)) col (col + 1)); simpl; try done; try lia.
  - intros out u s (Hu & Hc & q & Hq & H1 & H2). simpl in *. rewrite b64char_value by done. rewrite Hx, decide_True by lia. unfold mbind.
    rewrite store_ok by (unfold BUF; lia). rewrite store_ok by (rewrite length_app; simpl; unfold BUF; lia).
    rewrite store_ok by (rewrite !length_app; simpl; unfold BUF; lia). by rewrite <- !app_assoc.
  - intros out u (Hu & Hc & q & Hq & H1 & H2). exists (q + 1). rewrite length_app. simpl in *. lia.
Qed.
Lemma decodes_newline t l x col cs tail : decodes (mkB 0 t (l + 1) x) 0 cs tail → decodes (mkB 0 t l x) col (10 :: cs) tail.
Proof.
  intros Hd. apply (decodes_step _ (mkB 0 t (l + 1) x) col 0 10 cs [] tail); simpl; try done.
  - intros out u s _. destruct x as [[x0 x1] x2]. by rewrite app_nil_r.
  - intros out u (Hu & Hc & q & Hq & H1 & H2). rewrite app_nil_r. exists q. simpl in *. lia.
Qed.

Lemma upd_group a b c : is_byte a → is_byte b → is_byte c →
  upd 1 (upd 0 (0, 0, 0) (s0 a b c)) (s1 a b c) = (a, Z.shiftl (b / 16) 4, 0) ∧
  upd 2 (a, Z.shiftl (b / 16) 4, 0) (s2 a b c) = (a, b, Z.shiftl (c / 64) 6) ∧
  upd 3 (a, b, Z.shiftl (c / 64) 6) (s3 a b c) = (a, b, c).
Proof.
  intros Ha Hb Hc. destruct (sextet_range a b c Ha Hb Hc) as (H0 & H1 & H2 & H3). unfold is_byte in *. split_and!.
  - transitivity (Z.lor (Z.lor 0 (Z.shiftl (s0 a b c) 2)) (Z.land (Z.shiftr (s1 a b c) 4) 3), Z.lor 0 (Z.shiftl (Z.land (s1 a b c) 15) 4), 0); [done|].
    rewrite !Z.lor_0_l, (land_low 2), (land_low 4), Z.shiftr_div_pow2 by lia. rewrite lor_high by dlia.
    unfold s0, s1 in *. f_equal. f_equal; [|f_equal]; dlia.
  - transitivity (a, Z.lor (Z.shiftl (b / 16) 4) (Z.land (Z.shiftr (s2 a b c) 2) 15), Z.lor 0 (Z.shiftl (Z.land (s2 a b c) 3) 6)); [done|].
    rewrite Z.lor_0_l, (land_low 4), (land_low 2), Z.shiftr_div_pow2 by lia. rewrite lor_high by dlia.
    unfold s2 in *. f_equal; [|f_equal]; [f_equal|]; dlia.
  - transitivity (a, b, Z.lor (Z.shiftl (c / 64) 6) (s3 a b c)); [done|]. rewrite lor_high by dlia. unfold s3 in *. f_equal. dlia.
Qed.

Lemma decodes_group a b c t l col cs tail : is_byte a → is_byte b → is_byte c → t ≤ 0 → 0 ≤ col →
  decodes (mkB 0 t l (0, 0, 0)) (col + 4) cs tail →
  decodes (mkB 0 t l (0, 0, 0)) col (map b64ch [s0 a b c; s1 a b c; s2 a b c; s3 a b c] ++ cs) ([a; b; c] ++ tail).
Proof.
  intros Ha Hb Hc Ht Hcol Hd. destruct (sextet_range a b c Ha Hb Hc) as (H0 & H1 & H2 & H3).
  destruct (upd_group a b c Ha Hb Hc) as (U1 & U2 & U3). cbn [map app].
  do 3 (apply decodes_value; [done|done|lia|lia|]). change (0 + 1 + 1 + 1) with 3. change (0 + 1 + 1) with 2. change (0 + 1) with 1. rewrite U1, U2.
  apply decodes_last; [done|done|lia|done|]. by replace (col + 1 + 1 + 1 + 1) with (col + 4) by lia.
Qed.

(** Nothing more is decoded. *)
Definition stops (k : b64state) (cs : list Z) : Prop := ∀ out u s, run k out u cs s = emit d out s.
Lemma stops_pad t l x cs : t ≠ 1 → stops (mkB 0 t l x) (61 :: cs).
Proof.
  intros Ht out u s. cbn [run]. unfold mbind. destruct x as [[x0 x1] x2]. unfold b64char.
  rewrite (decide_False (P := 61 = 10)), (decide_True (P := 61 = 61)), (decide_True (P := 0 = 0)) by lia. cbv zeta.
  by rewrite bool_decide_true by lia.
Qed.
Lemma stops_newline t l x cs : stops (mkB 0 t (l + 1) x) cs → stops (mkB 0 t l x) (10 :: cs).
Proof.
  intros Hs out u s. cbn [run]. unfold mbind. destruct x as [[x0 x1] x2]. unfold b64char. rewrite decide_True by done.
  unfold mret. case_decide; [|apply Hs]. rewrite emit_run, Hs. by rewrite emit_run, emitted_nil.
Qed.
Lemma stops_decodes k col cs : stops k cs → decodes k col cs [].
Proof. intros Hs out u s _. by rewrite Hs, app_nil_r. Qed.

(** The first pad stores what is pending. *)
Lemma decodes_pad k k' col c cs tail : stops k' cs →
  (∀ out u s, room out u (k_b k) col → b64char k out c s = Ok (k', out ++ tail, false) s) →
  decodes k col (c :: cs) tail.
Proof.
  intros Hs Hc out u s Hr. cbn [run]. unfold mbind. rewrite (Hc out u s Hr). case_decide; [|apply Hs].
  rewrite !emit_run, Hs. by rewrite emit_run, emitted_nil.
Qed.
Lemma decodes_pad1 t l x0 x1 x2 col cs : col ≤ 59 → decodes (mkB 3 t l (x0, x1, x2)) col (61 :: 10 :: 61 :: cs) [x0; x1].
Proof.
  intros Hcol. apply (decodes_pad _ (mkB 0 6 l (x0, x1, x2))); [by apply stops_newline, stops_pad|].
  intros out u s (Hu & Hc & q & Hq & H1 & H2). simpl in *. unfold b64char.
  rewrite (decide_False (P := 61 = 10)), (decide_True (P := 61 = 61)), (decide_False (P := 3 = 0)),
    (decide_False (P := 3 = 1)), (decide_False (P := 3 = 2)) by lia. unfold mbind.
  rewrite store_ok by (unfold BUF; lia). rewrite store_ok by (rewrite length_app; simpl; unfold BUF; lia). by rewrite <- app_assoc.
Qed.
Lemma decodes_pad2 t l x0 x1 x2 col cs : col ≤ 59 → decodes (mkB 2 t l (x0, x1, x2)) col (61 :: 61 :: cs) [x0].
Proof.
  intros Hcol. apply (decodes_pad _ (mkB 0 5 l (x0, x1, x2))); [by apply stops_pad|].
  intros out u s (Hu & Hc & q & Hq & H1 & H2). simpl in *. unfold b64char.
  rewrite (decide_False (P := 61 = 10)), (decide_True (P := 61 = 61)), (decide_False (P := 2 = 0)),
    (decide_False (P := 2 = 1)), (decide_True (P := 2 = 2)) by lia. unfold mbind.
  by rewrite store_ok by (unfold BUF; lia).
Qed.

(** A whole line, and the ones before the last. *)
Lemma decodes_full buf : Forall is_byte buf → ∀ n t l col cs tail, length buf = (3 * n)%nat → t ≤ 0 → 0 ≤ col →
  (∀ l, decodes (mkB 0 t l (0, 0, 0)) 0 cs tail) →
  decodes (mkB 0 t l (0, 0, 0)) col (b64chars buf ++ 10 :: cs) (buf ++ tail).
Proof.
  induction buf as [|a|a b|a b c buf IH] using three_ind; intros Hb n t l col cs tail Hn Ht Hcol Hd; simpl in Hn; try lia.
  - by apply decodes_newline.
  - rewrite !Forall_cons in Hb. destruct Hb as (Ha & Hb & Hc & Hbuf). cbn [b64chars]. rewrite <- app_assoc.
    apply (decodes_group a b c t l col _ (buf ++ tail)); try done. apply (IH Hbuf (n - 1)%nat); try done; lia.
Qed.
Lemma decodes_end buf : Forall is_byte buf → ∀ t l col cs, t ≤ 0 → 0 ≤ col → col + 4 * (Z.of_nat (length buf) / 3) ≤ 56 ∨ Z.of_nat (length buf) mod 3 = 0 →
  decodes (mkB 0 t l (0, 0, 0)) col (b64chars buf ++ 10 :: 61 :: cs) buf.
Proof.
  induction buf as [|a|a b|a b c buf IH] using three_ind; intros Hb t l col cs Ht Hcol Hlen; rewrite ?Forall_cons in Hb.
  - apply decodes_newline, stops_decodes, stops_pad. lia.
  - destruct Hb as (Ha & _). destruct (sextet_range a 0 0 Ha byte_0 byte_0) as (H0 & H1 & H2 & H3).
    destruct (upd_group a 0 0 Ha byte_0 byte_0) as (U1 & U2 & U3). cbn [b64chars map app].
    do 2 (apply decodes_value; [done|done|lia|lia|]). change (0 + 1 + 1) with 2. change (0 + 1) with 1. rewrite U1. apply decodes_pad2. simpl in Hlen. dlia.
  - destruct Hb as (Ha & Hb & _). destruct (sextet_range a b 0 Ha Hb byte_0) as (H0 & H1 & H2 & H3).
    destruct (upd_group a b 0 Ha Hb byte_0) as (U1 & U2 & U3). cbn [b64chars map app].
    do 3 (apply decodes_value; [done|done|lia|lia|]). change (0 + 1 + 1 + 1) with 3. change (0 + 1 + 1) with 2. change (0 + 1) with 1. rewrite U1, U2. apply decodes_pad1. simpl in Hlen. dlia.
  - destruct Hb as (Ha & Hb & Hc & Hbuf). cbn [b64chars]. rewrite <- app_assoc.
    apply (decodes_group a b c t l col _ buf); try done. apply (IH Hbuf); try done; [lia|].
    replace (Z.of_nat (length (a :: b :: c :: buf))) with (Z.of_nat (length buf) + 1 * 3) in Hlen by (simpl; lia).
    rewrite Z.mod_add, Z.div_add in Hlen by lia. lia.
Qed.

Lemma decodes_lines blocks cs : Forall (λ b, Forall is_byte b ∧ (0 < length b ≤ BUF)%nat) blocks →
  (∀ bs b, blocks = bs ++ [b] → Forall (λ b, length b = BUF) bs) →
  ∀ l, decodes (mkB 0 (-1) l (0, 0, 0)) 0 (concat (map (λ b, b64chars b ++ [10]) blocks) ++ 61 :: cs) (concat blocks).
Proof.
  induction 1 as [|buf blocks [Hb Hl] Hbs IH]; intros Hfull l; [by apply stops_decodes, stops_pad|].
  cbn [map concat]. rewrite <- !app_assoc. destruct blocks as [|b' blocks].
  - rewrite app_nil_r. simpl. apply decodes_end; try done; [lia..|]. unfold BUF in Hl. dlia.
  - apply (decodes_full buf Hb 15); try done.
    + destruct (exists_last (l := b' :: blocks) ltac:(done)) as (bs & x & Hx).
      specialize (Hfull (buf :: bs) x ltac:(by rewrite Hx)). by apply Forall_cons in Hfull as [-> _].
    + apply IH. intros bs b Hbl. specialize (Hfull (buf :: bs) b ltac:(by rewrite Hbl)). by apply Forall_cons in Hfull as [_ ?].
Qed.
End decoder.

Lemma file_blocks bytes e : Forall is_byte bytes →
  concat (fread_blocks BUF (mkFile bytes e)) = bytes ∧
  Forall (λ b, Forall is_byte b ∧ (0 < length b ≤ BUF)%nat) (fread_blocks BUF (mkFile bytes e)) ∧
  ∀ bs b, fread_blocks BUF (mkFile bytes e) = bs ++ [b] → Forall (λ b, length b = BUF) bs.
Proof.
  intros Hb. destruct (fread_blocks_ok BUF (mkFile bytes e)) as (Hc & Hl & Hfull); [unfold BUF; lia|]. simpl in Hc.
  split_and!; [done| |done]. rewrite Forall_forall in Hl |- *. intros b Hin. split; [|by apply Hl].
  rewrite <- Hc in Hb. apply list_elem_of_split in Hin as (l1 & l2 & E). rewrite E, concat_app, Forall_app in Hb.
  cbn [concat] in Hb. rewrite Forall_app in Hb. apply Hb.
Qed.

Definition b64footer : list Z := bytes_of (lit "====" ++ [NL]).
Lemma uudecodeb64_ok d bytes e e' s : Forall is_byte bytes →
  uudecodeb64 (mkFile (b64lines 0 (fread_blocks BUF (mkFile bytes e)) ++ b64footer) e') d s = emit d bytes s.
Proof.
  intros Hb. destruct (file_blocks bytes e Hb) as (Hc & Hl & Hfull). unfold uudecodeb64, fread_blocks at 1. rewrite blocks_run by done. cbn [f_bytes].
  rewrite b64lines_text.
  - change b64footer with (61 :: bytes_of (lit "===" ++ [NL])). pose proof (decodes_lines d _ (bytes_of (lit "===" ++ [NL])) Hl Hfull 1 [] 0%nat) as Hd.
    rewrite Hc in Hd. apply Hd. split; [lia|]. split; [done|]. exists 0. simpl. lia.
  - eapply Forall_impl; [exact Hl|]. by intros b [? _].
  - intros bs b tl E Htl. destruct (exists_last Htl) as (tl' & x & ->).
    specialize (Hfull (bs ++ b :: tl') x). rewrite <- app_assoc in Hfull. specialize (Hfull E).
    apply Forall_app in Hfull as [_ Hf]. by apply Forall_cons in Hf as [? _].
Qed.
Lemma uudecode_file_ok d bytes e e' s : Forall is_byte bytes →
  uudecode (mkFile (concat (map uuline (fread_blocks BUF (mkFile bytes e))) ++ uufooter) e') d s = emit d bytes s.
Proof. intros Hb. destruct (file_blocks bytes e Hb) as (Hc & Hl & _). rewrite uudecode_ok by done. by rewrite Hc. Qed.

(** ** The header *)

Lemma fgets_line size l r : 10 ∉ l → (length l < size)%nat → fgets size (l ++ 10 :: r) = (l ++ [10], r).
Proof.
  revert size. induction l as [|b l IH]; intros size Hn Hl; (destruct size as [|size]; [simpl in Hl; lia|]); simpl; [done|].
  rewrite decide_False by set_solver. rewrite IH by (set_solver || (simpl in Hl; lia)). done.
Qed.

Lemma strip_end_snoc s c : c = NL ∨ c = CR → strip_end (s ++ [c]) = strip_end s.
Proof.
  intros Hc. induction s as [|x s IH]; [simpl; by rewrite decide_True|]. cbn [app strip_end]. by rewrite IH.
Qed.
Lemma strip_end_id s : last s ≠ Some NL → last s ≠ Some CR → strip_end s = s.
Proof.
  induction s as [|x s IH]; intros Hn Hc; [done|]. cbn [strip_end]. destruct s as [|y s].
  - simpl. rewrite decide_False; [done|]. intros [-> | ->]; [by apply Hn|by apply Hc].
  - rewrite IH; [done|exact Hn|exact Hc].
Qed.

Definition good_name (name : cstr) : Prop :=
  name ≠ [] ∧ NL ∉ name ∧ no_nul name ∧ last name ≠ Some CR ∧ (length name < 4096)%nat ∧
  name ≠ lit "-" ∧ name ≠ lit "/dev/stdout".
Definition header (kind : cstr) (mode : Z) (name : cstr) : list Z :=
  bytes_of (kind ++ lit " " ++ octal (Z.land mode 511) ++ lit " " ++ name ++ [NL]).

Lemma octal_chars m : 0 ≤ m < 512 → Forall (λ c, c ≠ " "%char ∧ c ≠ NL ∧ c ≠ NUL) (octal m) ∧ (length (octal m) ≤ 3)%nat.
Proof.
  change 512 with (Z.of_nat 512). revert m. apply (range_forall 512).
  apply (bool_decide_unpack (Forall _ _)). vm_compute. exact I.
Qed.

Lemma header_ok kind mode name rest e ifname s :
  kind ≠ [] → " "%char ∉ kind → NL ∉ kind → no_nul kind → (length kind ≤ 12)%nat → good_name name →
  parseheader (mkFile (header kind mode name ++ rest) e) ifname s = Ok (kind, Z.land mode 511, name, rest) s.
Proof.
  intros Hne Hsp Hnl Hnul Hlen (N0 & N1 & N2 & N3 & N4 & _).
  assert (0 ≤ Z.land mode 511 < 512) as Hm. { rewrite (land_low 9) by lia. apply Z.mod_pos_bound. lia. }
  unfold header. set (m := Z.land mode 511) in *. destruct (octal_chars m Hm) as [Hoc Hol]. rewrite Forall_forall in Hoc.
  set (body := kind ++ lit " " ++ octal m ++ lit " " ++ name).
  assert (NL ∉ body ∧ NUL ∉ body) as [HnlB HnulB].
  { unfold body, lit, no_nul in *. rewrite !not_elem_of_app. split_and!; try done; try set_solver; intros Hin; by apply Hoc in Hin. }
  assert (length body < HEADER)%nat as HlB. { unfold body, HEADER. rewrite !length_app. simpl. lia. }
  assert (bytes_of (kind ++ lit " " ++ octal m ++ lit " " ++ name ++ [NL]) ++ rest = bytes_of body ++ 10 :: rest) as ->.
  { unfold body, bytes_of. rewrite !map_app, <- !app_assoc. done. }
  unfold parseheader. cbn [f_bytes f_err].
  assert (10 ∉ bytes_of body) as H10.
  { intros (c & Hc & Hin)%list_elem_of_fmap. apply (byte_of_inj NL c) in Hc. by subst. }
  rewrite fgets_line by (done || (unfold bytes_of; by rewrite length_map)).
  rewrite decide_False by (intros [H _]; by destruct (bytes_of body)). cbv zeta.
  assert (map char_of (bytes_of body ++ [10]) = body ++ [NL]) as ->.
  { rewrite map_app. f_equal. unfold bytes_of. rewrite map_map. rewrite (map_ext _ id) by apply char_of_byte. apply map_id. }
  rewrite cstr_at_id by (unfold no_nul; rewrite not_elem_of_app; split; [done|]; set_solver).
  rewrite decide_False.
  2: { intros [H|H]; [by destruct body|]. apply bool_decide_eq_true in H. rewrite last_snoc in H. by destruct H. }
  rewrite decide_False by (intros H; apply H; set_solver).
  assert (strchr (body ++ [NL]) " " = Some (kind, octal m ++ lit " " ++ name ++ [NL])) as ->.
  { apply strchr_Some. split; [|done]. unfold body. rewrite <- !app_assoc. done. }
  assert (strchr (octal m ++ lit " " ++ name ++ [NL]) " " = Some (octal m, name ++ [NL])) as ->.
  { apply strchr_Some. split; [done|]. intros Hin. apply Hoc in Hin. by destruct Hin. }
  unfold mbind. rewrite parsemode_octal by lia. rewrite strip_end_snoc by auto.
  rewrite strip_end_id; [|intros H; by apply last_Some_elem_of in H|done]. by rewrite decide_False.
Qed.

(** ** The programs *)

Definition encoded (m : bool) (mode : Z) (name : cstr) (bytes : list Z) : list Z :=
  let blocks := fread_blocks BUF (mkFile bytes false) in
  if m then header "begin-base64" mode name ++ b64lines 0 blocks ++ b64footer
  else header "begin" mode name ++ concat (map uuline blocks) ++ uufooter.

Lemma encode_main_ok (m : bool) argv0 path name bytes mode s : head path ≠ Some "-"%char →
  u_files s !! path = Some (Reg (mkFile bytes false) mode) →
  uuencode_main argv0 ((if m then [lit "-m"] else []) ++ [path; name]) s = Ok 0 (emitted Stdout (encoded m mode name bytes) s).
Proof.
  intros Hp Hf. assert (path ≠ lit "-") as Hd by (by intros ->). unfold uuencode_main. unfold mbind at 1. destruct m.
  - change (argbegin ?a ?b ?c ?e ([lit "-m"] ++ [path; name]) false s) with (arg_loop a b c e 3 [path; name] true s).
    rewrite operands_left by done. rewrite decide_False by done. unfold mbind at 1, gets. rewrite Hf.
    unfold uuencodeb64, print. cbn [f_err]. unfold mbind. by rewrite !emit_run, !emitted_app.
  - unfold argbegin. rewrite app_nil_l, operands_left by done. rewrite decide_False by done. unfold mbind at 1, gets. rewrite Hf.
    unfold uuencode, print. cbn [f_err]. unfold mbind. by rewrite !emit_run, !emitted_app.
Qed.

Section world.
Context (lstat_error can_write can_chmod : cstr → bool).

(** A state with a file in place. *)
Definition with_file (name : cstr) (n : node) (s : ustate) : ustate :=
  mkU (<[name := n]> (u_files s)) (u_stdin s) (u_stdin_mode s) (u_out s) (u_err s).

Lemma set_files f s : set u_files f s = mkU (f (u_files s)) (u_stdin s) (u_stdin_mode s) (u_out s) (u_err s).
Proof. done. Qed.
Lemma parsefile_ok name s : can_write name = true → lstat_error name = false → name ≠ lit "-" → name ≠ lit "/dev/stdout" →
  u_files s !! name ≠ Some Special → ∃ mode, parsefile lstat_error can_write name s = Ok (Some (File name)) (with_file name (Reg (mkFile [] false) mode) s).
Proof.
  intros Hw Hl Hd Hs Hn. unfold parsefile. rewrite decide_False by (by intros [?|?]). rewrite Hl. unfold mbind at 1, gets.
  unfold open_write. rewrite Hw. unfold mbind, modify, with_file.
  destruct (u_files s !! name) as [[fp mode|]|] eqn:E; [|done|]; rewrite set_files, E; by eexists.
Qed.

(** What is left to do once the header is read. *)
Lemma decode_tail (dec : dest → M ustate unit) mode name bytes s : good_name name →
  lstat_error name = false → can_write name = true → can_chmod name = true → u_files s !! name ≠ Some Special →
  (∀ d s, dec d s = emit d bytes s) →
  (nfp <- parsefile lstat_error can_write name ;;
   match nfp with
   | None => eprintf (lit "fopen " ++ name ++ lit ":")
   | Some d =>
       dec d ;;
       match d with
       | Stdout => mret 0
       | File name =>
           if can_chmod name then modify (set u_files (alter (set_mode mode) name)) ;; mret 0
           else eprintf (lit "chmod " ++ name ++ lit ":")
       end
   end) s = Ok 0 (with_file name (Reg (mkFile bytes false) mode) s).
Proof.
  intros (N0 & N1 & N2 & N3 & N4 & N5 & N6) Hl Hw Hc Hn Hd.
  destruct (parsefile_ok name s) as [old Ho]; [done..|]. unfold mbind. rewrite Ho, Hd, emit_run, Hc. unfold modify, mret.
  rewrite set_files. unfold with_file. simpl. by rewrite !alter_insert_eq.
Qed.

Lemma decode_main_ok (m : bool) argv0 mode name bytes s : Forall is_byte bytes → good_name name →
  lstat_error name = false → can_write name = true → can_chmod name = true →
  u_files s !! name ≠ Some Special → u_stdin s = mkFile (encoded m mode name bytes) false →
  uudecode_main lstat_error can_write can_chmod argv0 [] s =
  Ok 0 (with_file name (Reg (mkFile bytes false) (Z.land mode 511)) s).
Proof.
  intros Hb Hg Hl Hw Hc Hn Hs. unfold uudecode_main, argbegin. unfold mbind at 1. cbn [arg_loop length]. unfold mret at 1.
  rewrite decide_False by (simpl; lia). unfold mbind at 1 2, gets. unfold mret at 1. rewrite Hs. unfold encoded. destruct m.
  - unfold mbind at 1. rewrite header_ok by (done || (simpl; lia) || by apply (bool_decide_unpack (_ ∉ _))). unfold mbind at 1.
    apply decode_tail; try done. intros d s'. by apply uudecodeb64_ok.
  - unfold mbind at 1. rewrite header_ok by (done || (simpl; lia) || by apply (bool_decide_unpack (_ ∉ _))). unfold mbind at 1.
    apply decode_tail; try done. intros d s'. by apply uudecode_file_ok.
Qed.

(** C6: uuencode writes a text, in the traditional encoding or with -m in base64,
    from which uudecode recreates the file: it ends with status 0, and in
    the directory it works in the file named in the header has the bytes and the
    permissions of the original, whether it was there before or not; every other
    file is as it was.  This needs a name that can be written in a header line and
    is not one that stands for standard output, and a directory in which it can
    be created. *)
Theorem uu_roundtrip (m : bool) argv0 argv0' path name bytes mode s :
  Forall is_byte bytes → head path ≠ Some "-"%char → u_files s !! path = Some (Reg (mkFile bytes false) mode) → good_name name →
  lstat_error name = false → can_write name = true → can_chmod name = true →
  ∃ text, uuencode_main argv0 ((if m then [lit "-m"] else []) ++ [path; name]) s = Ok 0 (emitted Stdout text s) ∧
    ∀ t, u_stdin t = mkFile text false → u_files t !! name ≠ Some Special →
      uudecode_main lstat_error can_write can_chmod argv0' [] t =
      Ok 0 (with_file name (Reg (mkFile bytes false) (Z.land mode 511)) t).
Proof.
  intros Hb Hp Hf Hg Hl Hw Hc. exists (encoded m mode name bytes). split; [by apply encode_main_ok|].
  intros t Hs Hn. by apply (decode_main_ok m).
Qed.
End world.

Definition cat_file : ustate := mkU {[ lit "cat" := Reg (mkFile [67; 97; 116; 33] false) 33261 ]} (mkFile [] false) 420 [] [].
Definition to_decode (text : list Z) : ustate := mkU ∅ (mkFile text false) 420 [] [].
Lemma uu_roundtrip_witness : ∃ text,
  uuencode_main "uuencode" [lit "-m"; lit "cat"; lit "dog"] cat_file = Ok 0 (emitted Stdout text cat_file) ∧
  uudecode_main no_error yes yes "uudecode" [] (to_decode text) =
  Ok 0 (with_file "dog" (Reg (mkFile [67; 97; 116; 33] false) 493) (to_decode text)).
Proof.
  assert (Forall is_byte [67; 97; 116; 33]) as Hb. { repeat constructor; unfold is_byte; lia. }
  assert (good_name (lit "dog")) as Hg.
  { unfold good_name, no_nul. split_and!; try done; try (by apply (bool_decide_unpack (_ ∉ _))). simpl. lia. }
  destruct (uu_roundtrip no_error yes yes true "uuencode" "uudecode" "cat" "dog" [67; 97; 116; 33] 33261 cat_file
    Hb ltac:(done) ltac:(reflexivity) Hg ltac:(reflexivity) ltac:(reflexivity) ltac:(reflexivity)) as (text & He & Hd).
  exists text. split; [exact He|]. apply Hd; [reflexivity|]. intros H. vm_compute in H. discriminate.
Defined.
