(* ===== verification/Text.v ===== *)
(** * What the utilities on lines share: src/shared/libutil (unescape.c, linecmp.c,
    getlines.c), src/shared/text.h

    A line is the list of its characters, its newline included; a file is read
    as the lines that [getline] returns.  Programs run on [tio]: the files, standard
    input, standard output and the messages on standard error.  [memcmp] only
    gives a sign, so its result stands for any value of that sign. *)

From stdpp Require Import gmap strings sorting.
From S2P Require Import Prelude CString StrList Args Stdio Strtonum.

Local Open Scope Z_scope.

(** ** Programs *)

Record tio := mkTio { t_files : gmap cstr FILE; t_stdin : FILE; t_out : cstr; t_err : list cstr }.
#[export] Instance eta_tio : Eta tio := λ s, mkTio (t_files s) (t_stdin s) (t_out s) (t_err s).

Definition tput (s : cstr) : M tio unit := modify (set t_out (λ o, o ++ s)).
Definition twarn (msg : cstr) : M tio unit := modify (set t_err (λ l, l ++ [msg])).
Definition chars_of (fp : FILE) : cstr := map char_of (f_bytes fp).
(** The lines [getline] returns until it fails. *)
Definition lines_of (fp : FILE) : list cstr := split_lines_from [] (chars_of fp).
(** Standard input, read to its end. *)
Definition take_stdin : M tio FILE :=
  fp <- gets t_stdin ;; modify (set t_stdin (λ fp, mkFile [] (f_err fp))) ;; mret fp.

(** The loop over the operands that most utilities end with: - is standard input, a
    file that cannot be opened is reported and makes the status 1. *)
Definition operand (body : FILE → cstr → M tio unit) (ret : Z) (path : cstr) : M tio Z :=
  if decide (path = lit "-") then fp <- take_stdin ;; body fp "<stdin>" ;; mret ret
  else
    files <- gets t_files ;;
    match files !! path with
    | Some fp => body fp path ;; mret ret
    | None => twarn (lit "fopen " ++ path ++ lit ":") ;; mret 1
    end.
Definition operands (body : FILE → cstr → M tio unit) (argv : StrList) : M tio Z :=
  match argv with
  | [] => fp <- take_stdin ;; body fp "<stdin>" ;; mret 0
  | _ => mfold (operand body) 0 argv
  end.

(** ** unescape.c *)

Definition is_odigit (c : ascii) : bool := bool_decide (48 ≤ byte_of c ≤ 55).
Definition isxdigit (c : ascii) : bool :=
  isdigit c || bool_decide (65 ≤ byte_of c ≤ 70) || bool_decide (97 ≤ byte_of c ≤ 102).
Definition digit_value (c : ascii) : Z :=
  if isdigit c then byte_of c - 48 else if decide (97 ≤ byte_of c) then byte_of c - 97 + 10 else byte_of c + 32 - 97 + 10.

(** The table [escapes]; 0 where it has no entry. *)
Definition escapes (c : ascii) : option ascii :=
  if decide (c = DQ) then Some DQ
  else if decide (c = SQ) then Some SQ
  else if decide (c = BSL) then Some BSL
  else if decide (c = "a"%char) then Some "007"%char
  else if decide (c = "b"%char) then Some "008"%char
  else if decide (c = "E"%char ∨ c = "e"%char) then Some "027"%char
  else if decide (c = "f"%char) then Some "012"%char
  else if decide (c = "n"%char) then Some NL
  else if decide (c = "r"%char) then Some CR
  else if decide (c = "t"%char) then Some TAB
  else if decide (c = "v"%char) then Some "011"%char else None.

(** Up to [m] digits of a base, and what follows. *)
Fixpoint scan_digits (p : ascii → bool) (base : Z) (m : nat) (q : Z) (r : cstr) : Z * cstr :=
  match m, r with
  | S m, c :: r' => if p c then scan_digits p base m (q * base + digit_value c) r' else (q, r)
  | _, _ => (q, r)
  end.

(** What is written for the characters from the pointer [r] on: at most one
    character for each that was read, so that the string is rewritten in place. *)
Fixpoint unescape_from {S} (fuel : nat) (r : cstr) : M S cstr :=
  match r with
  | [] => mret []
  | c :: r =>
      match fuel with
      | O => mfuel
      | Datatypes.S fuel =>
          if decide (c ≠ BSL) then w <- unescape_from fuel r ;; mret (c :: w)
          else
            match r with
            | [] => eprintf "null escape sequence"
            | e :: r' =>
                match escapes e with
                | Some x => w <- unescape_from fuel r' ;; mret (x :: w)
                | None =>
                    if is_odigit e then
                      let '(q, r) := scan_digits is_odigit 8 3 0 r in
                      w <- unescape_from fuel r ;; mret (char_of (Z.min q 255) :: w)
                    else if bool_decide (e = "x"%char) && match r' with h :: _ => isxdigit h | [] => false end then
                      let '(q, r) := scan_digits isxdigit 16 2 0 r' in
                      w <- unescape_from fuel r ;; mret (char_of q :: w)
                    else eprintf (lit "invalid escape sequence '" ++ [BSL; e] ++ lit "'")
                end
            end
      end
  end.
(** The bytes left in the string and, as their number, its result. *)
Definition unescape {S} (s : cstr) : M S cstr := unescape_from (length s) s.

(** ** linecmp.c *)

(** The conversion of a [size_t] difference to [int]. *)
Definition diff_int (z : Z) : Z := (z + 2 ^ 31) mod 2 ^ 32 - 2 ^ 31.
Definition sign (c : comparison) : Z := match c with Lt => -1 | Eq => 0 | Gt => 1 end.
Fixpoint memcmp (a b : cstr) (n : nat) : comparison :=
  match n, a, b with
  | S n, x :: a, y :: b => match byte_of x ?= byte_of y with Eq => memcmp a b n | r => r end
  | _, _, _ => Eq
  end.
Definition linecmp (a b : cstr) : Z :=
  match memcmp a b (length a `min` length b) with
  | Eq => diff_int (Z.of_nat (length a) - Z.of_nat (length b))
  | r => sign r
  end.

(** ** memmem.c *)

(** [memchr]: the index of the first such character. *)
Fixpoint memchr (l : cstr) (c : ascii) : option nat :=
  match l with
  | [] => None
  | x :: l => if decide (x = c) then Some 0%nat else S <$> memchr l c
  end.
(** The loop from [cur] to [last], which is [k] turns away. *)
Fixpoint memmem_loop (k : nat) (cur s : cstr) : option nat :=
  if bool_decide (head cur = head s) && bool_decide (memcmp cur s (length s) = Eq) then Some 0%nat
  else
    match k, cur with
    | S k, _ :: cur => S <$> memmem_loop k cur s
    | _, _ => None
    end.
Definition memmem (l s : cstr) : option nat :=
  match s with
  | [] => Some 0%nat
  | [c] => if decide (length l < 1)%nat then None else memchr l c
  | _ => if decide (length l < length s)%nat then None else memmem_loop (length l - length s) l s
  end.

(** ** getlines.c *)

(** The newline that the last line of a file may lack is added. *)
Fixpoint end_line (delim : ascii) (ls : list cstr) : list cstr :=
  match ls with
  | [] => []
  | [l] => [if decide (last l = Some delim) then l else l ++ [delim]]
  | l :: ls => l :: end_line delim ls
  end.
Definition getlines (fp : FILE) : list cstr := end_line NL (lines_of fp).

(** ** Facts *)

Lemma chars_of_bytes x e : chars_of (mkFile (bytes_of x) e) = x.
Proof. unfold chars_of, bytes_of. cbn [f_bytes]. rewrite map_map. rewrite (map_ext _ id) by apply char_of_byte. apply map_id. Qed.
Lemma lines_of_joined ls e : Forall (λ l, NL ∉ l) ls → lines_of (mkFile (bytes_of (concat (map (λ l, l ++ [NL]) ls))) e) = map (λ l, l ++ [NL]) ls.
Proof.
  intros H. unfold lines_of. rewrite chars_of_bytes. apply split_lines_ok. apply Forall_map. eapply Forall_impl; [exact H|].
  intros l Hl. by exists l.
Qed.

Lemma tput_nil s : tput [] s = Ok tt s.
Proof using Type. unfold tput, modify. destruct s as [f i out e]. change (set t_out ?g (mkTio f i out e)) with (mkTio f i (g out) e). cbv beta. by rewrite app_nil_r. Qed.
Lemma tput_app x y s : (tput x ;; tput y) s = tput (x ++ y) s.
Proof using Type.
  unfold mbind, tput, modify. destruct s as [f i out e]. do 2 (change (set t_out ?g (mkTio f i ?x e)) with (mkTio f i (g x) e); cbv beta). by rewrite app_assoc.
Qed.

(** A line that fits an int in length is compared as a string of bytes. *)
Definition short (l : cstr) : Prop := Z.of_nat (length l) < 2 ^ 31.

Lemma diff_int_small z : - 2 ^ 31 < z < 2 ^ 31 → diff_int z = z.
Proof. intros H. unfold diff_int. rewrite Z.mod_small; lia. Qed.

Lemma memcmp_strcmp a b :
  match memcmp a b (length a `min` length b) with
  | Eq => strcmp a b = (Z.of_nat (length a) ?= Z.of_nat (length b))
  | r => strcmp a b = r
  end.
Proof.
  revert b. induction a as [|x a IH]; intros [|y b]; cbn [memcmp length Nat.min strcmp]; try done.
  specialize (IH b). destruct (byte_of x ?= byte_of y) eqn:E; [|done..].
  destruct (memcmp a b (length a `min` length b)); [|done..]. rewrite IH.
  destruct (Z.compare_spec (Z.of_nat (length a)) (Z.of_nat (length b))); symmetry; [apply Z.compare_eq_iff|apply Z.compare_lt_iff|apply Z.compare_gt_iff]; lia.
Qed.

Lemma linecmp_sign a b : short a → short b → (linecmp a b ?= 0) = strcmp a b.
Proof.
  unfold short. intros Ha Hb. pose proof (memcmp_strcmp a b) as H. unfold linecmp.
  destruct (memcmp a b (length a `min` length b)); [|by rewrite H..]. rewrite H, diff_int_small by lia.
  symmetry. apply Z.compare_sub.
Qed.

(** Lines are put in order by their bytes. *)
Definition str_le (a b : cstr) : Prop := strcmp a b ≠ Gt.
#[export] Instance str_le_dec a b : Decision (str_le a b).
Proof. unfold str_le. apply _. Defined.
Lemma str_le_spec a b : str_le a b ↔ a = b ∨ str_lt a b.
Proof. unfold str_le, str_lt. rewrite <- strcmp_eq. destruct (strcmp a b); naive_solver. Qed.
#[export] Instance str_le_trans : Transitive str_le.
Proof.
  intros a b c. rewrite !str_le_spec. intros [-> | H1] [-> | H2]; auto. right. by trans b.
Qed.
#[export] Instance str_le_total : Total str_le.
Proof. intros a b. unfold str_le. rewrite (strcmp_flip a b). destruct (strcmp a b); naive_solver. Qed.
Lemma str_lt_nle a b : str_lt a b ↔ ¬ str_le b a.
Proof. unfold str_lt, str_le. rewrite (strcmp_flip a b). destruct (strcmp a b); naive_solver. Qed.

Lemma scan_digits_shorter p base m q r : (length (snd (scan_digits p base m q r)) ≤ length r)%nat.
Proof.
  revert q r. induction m as [|m IH]; intros q [|c r]; cbn [scan_digits]; try done.
  destruct (p c); [|done]. etransitivity; [apply IH|]. simpl. lia.
Qed.
Lemma scan_digits_progress p base m q c r : p c = true →
  (length (snd (scan_digits p base (S m) q (c :: r))) ≤ length r)%nat.
Proof. intros Hp. cbn [scan_digits]. rewrite Hp. apply scan_digits_shorter. Qed.

(** The scan ends, and the string written is not longer than the one read. *)
Lemma unescape_bound {S} fuel r (s : S) : (length r ≤ fuel)%nat →
  match unescape_from fuel r s with
  | Ok w s' => s' = s ∧ (length w ≤ length r)%nat
  | Die _ s' => s' = s
  | _ => False
  end.
Proof.
  revert r s. induction fuel as [|fuel IH]; intros [|c r] s Hf; cbn [unescape_from length] in *; try (split; [done|simpl; lia]); [lia|].
  assert (∀ x r', (length r' ≤ length r)%nat → match (w <- unescape_from fuel r' ;; mret (x :: w)) s with
    | Ok w s' => s' = s ∧ (length w ≤ Datatypes.S (length r))%nat | Die _ s' => s' = s | _ => False end) as Hnext.
  { intros x r' Hr'. unfold mbind. specialize (IH r' s ltac:(lia)). destruct (unescape_from fuel r' s); try done.
    destruct IH as [-> ?]. split; [done|]. simpl. lia. }
  case_decide; [by apply Hnext|]. destruct r as [|e r']; [done|]. destruct (escapes e); [apply Hnext; simpl; lia|].
  destruct (is_odigit e) eqn:Eo.
  - pose proof (scan_digits_progress is_odigit 8 2 0 e r' Eo). destruct (scan_digits is_odigit 8 3 0 (e :: r')). apply Hnext. simpl in *. lia.
  - destruct (bool_decide _ && _); [|done]. pose proof (scan_digits_shorter isxdigit 16 2 0 r').
    destruct (scan_digits isxdigit 16 2 0 r'). apply Hnext. simpl in *. lia.
Qed.

(** A character as a backslash and three octal digits. *)
Definition octal_escape (c : ascii) : cstr :=
  BSL :: map (λ k, char_of (48 + (byte_of c / k) mod 8)) [64; 8; 1].

Lemma octal_escape_read c : ∃ e x, octal_escape c = BSL :: e :: x ∧ escapes e = None ∧ is_odigit e = true ∧
  ∀ r, scan_digits is_odigit 8 3 0 (e :: x ++ r) = (byte_of c, r).
Proof.
  assert (∀ b, 0 ≤ b < Z.of_nat 256 → let e k := char_of (48 + (b / k) mod 8) in
    escapes (e 64) = None ∧ is_odigit (e 64) = true ∧
    ∀ r, scan_digits is_odigit 8 3 0 (e 64 :: [e 8; e 1] ++ r) = (b, r)) as H.
  { apply range_forall. repeat (constructor; [split_and!; intros; vm_compute; reflexivity|]). constructor. }
  destruct (H (byte_of c) (byte_of_range c)) as (H1 & H2 & H3). eexists _, _. split; [reflexivity|]. split_and!; done.
Qed.

(** C37: Every sequence of bytes can be written for the utilities that unescape an
    operand: read back from octal escapes it is unchanged, NUL bytes and
    backslashes included.  Whatever the operand, the scan ends and writes no more
    characters than it has read, so that the string is rewritten inside its own
    bounds. *)
Theorem unescape_escaped {S} (l r : cstr) (s : S) :
  unescape (concat (map octal_escape l)) s = Ok l s ∧
  match unescape r s with
  | Ok w s' => s' = s ∧ (length w ≤ length r)%nat
  | Die _ s' => s' = s
  | _ => False
  end.
Proof.
  split; [|by apply unescape_bound].
  assert (∀ fuel, (4 * length l ≤ fuel)%nat → unescape_from fuel (concat (map octal_escape l)) s = Ok l s) as H.
  { induction l as [|c l IH]; intros fuel Hf; [by destruct fuel|].
    destruct fuel as [|fuel]; [simpl in Hf; lia|]. cbn [map concat].
    destruct (octal_escape_read c) as (e & x & -> & He & Ho & Hs). cbn [app unescape_from].
    rewrite decide_False by (intros H; by apply H). rewrite He, Ho, Hs. unfold mbind. rewrite IH by (simpl in Hf; lia).
    unfold mret. do 2 f_equal. rewrite Z.min_l by (pose proof (byte_of_range c) as Hr; unfold is_byte in Hr; lia). apply char_of_byte. }
  apply H. clear. induction l as [|c l IH]; simpl; lia.
Qed.
