(* ===== verification/Comm.v ===== *)
(** * comm: src/cmd/posix/comm.c

    The two files are read one line at a time, and the one whose line is smaller
    is read on.  Both may be standard input, so a file is an index into the
    open streams.  Proved: for sorted files the three columns are what is
    only in the first file, only in the second, and in both, counted with
    repetitions, and the lines are printed in order. *)

From stdpp Require Import gmap strings sorting.
From S2P Require Import Prelude CString StrList Args Stdio Strtonum Text.

Local Open Scope Z_scope.

(** ** State *)

(** The lines left in each open stream and whether reading it fails at the end;
    standard input is the first. *)
Record cst := mkC { c_ins : list (list cstr * bool); c_out : cstr }.
#[export] Instance eta_cst : Eta cst := λ s, mkC (c_ins s) (c_out s).

Definition getline (fp : nat) : M cst (option cstr) :=
  ins <- gets c_ins ;;
  match ins !! fp with
  | Some (l :: ls, e) => modify (set c_ins (λ _, <[fp := (ls, e)]> ins)) ;; mret (Some l)
  | Some ([], _) => mret None
  | None => mub
  end.
Definition ferror (fp : nat) : M cst bool :=
  ins <- gets c_ins ;; match ins !! fp with Some (_, e) => mret e | None => mub end.

(** ** printline *)

Definition shown (show : Z) (pos : nat) : bool := Z.testbit show (Z.of_nat pos).
(** The tabs for the columns before, and the line. *)
Definition column (show : Z) (pos : nat) (line : cstr) : cstr :=
  if shown show pos then
    concat (map (λ i, if shown show i then [TAB] else []) (seq 0 pos)) ++ line
  else [].
Definition printline (show : Z) (pos : nat) (line : cstr) : M cst unit :=
  modify (set c_out (λ o, o ++ column show pos line)).

(** ** The loop *)

Section comm.
Context (show : Z) (fp : nat → nat) (name : nat → cstr).

(** [while ((len = getline(...)) > 0) printline(...)] *)
Fixpoint drain_from (fuel : nat) (i : nat) : M cst unit :=
  l <- getline (fp i) ;;
  match l with
  | None => mret tt
  | Some l =>
      match fuel with
      | O => mfuel
      | S fuel => printline show i l ;; drain_from fuel i
      end
  end.
Definition drain (i : nat) : M cst unit :=
  ins <- gets c_ins ;; drain_from (length (concat (map fst ins))) i.
Definition check_error (i : nat) : M cst unit :=
  e <- ferror (fp i) ;; if (e : bool) then eprintf (lit "getline " ++ name i ++ lit ":") else mret tt.

(** File [i] has ended: the line of the other one, if it is still to be printed, and
    all that follows it. *)
Definition finish (i : nat) (other : option cstr) (pending : bool) : M cst unit :=
  check_error i ;;
  (if pending then
     l <- deref other ;; c <- deref (head l) ;;
     if decide (c ≠ NUL) then printline show (1 - i) l else mret tt
   else mret tt) ;;
  drain (1 - i) ;;
  check_error (1 - i).

Fixpoint comm_loop (fuel : nat) (line0 line1 : option cstr) (diff : Z) : M cst unit :=
  match fuel with
  | O => mfuel
  | S fuel =>
      let skip0 := bool_decide (diff ≠ 0 ∧ ¬ diff < 0) in
      let skip1 := bool_decide (diff < 0) in
      l0 <- (if skip0 then mret line0 else getline (fp 0)) ;;
      match l0 with
      | None => finish 0 line1 (bool_decide (diff ≠ 0))
      | Some x =>
          l1 <- (if skip1 then mret line1 else getline (fp 1)) ;;
          match l1 with
          | None => finish 1 (Some x) (bool_decide (diff ≠ 0) || negb skip0)
          | Some y =>
              let diff := Z.max (-1) (Z.min 1 (linecmp x y)) in
              printline show (Z.to_nat (Z.rem (2 - diff) 3)) (if decide (0 < diff) then y else x) ;;
              comm_loop fuel (Some x) (Some y) diff
          end
      end
  end.
End comm.

(** ** main *)

Section main.
Context (files : gmap cstr FILE).

Definition comm_usage {A} (argv0 : cstr) : M cst A := eprintf (lit "usage: " ++ argv0 ++ lit " [-123] file1 file2").
Definition comm_flag (argv0 : cstr) (c : ascii) (show : Z) : M cst Z :=
  if decide (c ∈ lit "123") then mret (Z.land show (Z.lxor 7 (Z.shiftl 1 (byte_of c - 49))))
  else comm_usage argv0.
Definition fopen (path : cstr) : M cst nat :=
  if decide (path = lit "-") then mret 0%nat
  else
    match files !! path with
    | None => eprintf (lit "fopen " ++ path ++ lit ":")
    | Some f =>
        ins <- gets c_ins ;;
        modify (set c_ins (λ ins, ins ++ [(lines_of f, f_err f)])) ;; mret (length ins)
    end.
Definition comm_name (path : cstr) : cstr := if decide (path = lit "-") then lit "<stdin>" else path.
Definition comm_main (argv0 : cstr) (args : StrList) : M cst Z :=
  p <- argbegin (λ _, false) (λ _ _ o, mret o) (comm_flag argv0) (comm_usage argv0) args 7 ;;
  let '(argv, show) := p in
  match argv with
  | [a; b] =>
      fp0 <- fopen a ;; fp1 <- fopen b ;;
      ins <- gets c_ins ;;
      comm_loop show (λ i, match i with O => fp0 | _ => fp1 end)
        (λ i, match i with O => comm_name a | _ => comm_name b end)
        (S (length (concat (map fst ins)))) None None 0 ;;
      mret 0
  | _ => comm_usage argv0
  end.
End main.

Definition text (l : list string) : FILE := mkFile (bytes_of (concat (map (λ x, lit x ++ [NL]) l))) false.
Example comm_ab :
  comm_main {[ lit "a" := text ["1"; "2"; "2"; "4"]; lit "b" := text ["2"; "3"] ]} "comm" (lits ["a"; "b"]) (mkC [([], false)] []) =
  Ok 0 (mkC [([], false); ([], false); ([], false)] (lit "1" ++ [NL; TAB; TAB] ++ lit "2" ++ [NL] ++ lit "2" ++ [NL; TAB] ++ lit "3" ++ [NL] ++ lit "4" ++ [NL])).
Proof. vm_compute. reflexivity. Qed.

(** A line that starts with a NUL byte counts as no line at the end of the other file:
    of the first file nothing is printed, although the second is empty. *)
Example comm_nul_line :
  comm_main {[ lit "a" := mkFile [0; 97; 10] false; lit "b" := text [] ]} "comm" (lits ["a"; "b"]) (mkC [([], false)] []) =
  Ok 0 (mkC [([], false); ([], false); ([], false)] []).
Proof. vm_compute. reflexivity. Qed.

(** ** The merge *)

(** The lines of two lists with their columns. *)
Fixpoint merge (a : list cstr) : list cstr → list (nat * cstr) :=
  fix go (b : list cstr) : list (nat * cstr) :=
    match a, b with
    | [], _ => map (pair 1%nat) b
    | _, [] => map (pair 0%nat) a
    | x :: a', y :: b' =>
        match strcmp x y with
        | Lt => (0%nat, x) :: merge a' b
        | Gt => (1%nat, y) :: go b'
        | Eq => (2%nat, x) :: merge a' b'
        end
    end.
Lemma merge_cons x a y b :
  merge (x :: a) (y :: b) =
  match strcmp x y with
  | Lt => (0%nat, x) :: merge a (y :: b)
  | Gt => (1%nat, y) :: merge (x :: a) b
  | Eq => (2%nat, x) :: merge a b
  end.
Proof. done. Qed.
Lemma merge_nil_r a : merge a [] = map (pair 0%nat) a.
Proof. by destruct a. Qed.
Lemma merge_nil_l b : merge [] b = map (pair 1%nat) b.
Proof. by destruct b. Qed.

Definition count (x : cstr) (l : list cstr) : nat := length (filter (λ y, y = x) l).
Definition in_column (k : nat) (out : list (nat * cstr)) : list cstr := omap (λ p, if decide (p.1 = k) then Some p.2 else None) out.

Lemma count_nil x : count x [] = 0%nat.
Proof. done. Qed.
Lemma column_count_cons x y l : count x (y :: l) = ((if decide (y = x) then 1 else 0) + count x l)%nat.
Proof. unfold count. rewrite filter_cons. by case_decide. Qed.
Lemma in_column_cons k j x out : in_column k ((j, x) :: out) = if decide (j = k) then x :: in_column k out else in_column k out.
Proof. unfold in_column. simpl. by case_decide. Qed.
Lemma in_column_pair k j l : in_column k (map (pair j) l) = if decide (j = k) then l else [].
Proof.
  induction l as [|x l IH]; [by case_decide|]. cbn [map]. rewrite in_column_cons, IH. by case_decide.
Qed.
Lemma count_none x l : Forall (λ y, y ≠ x) l → count x l = 0%nat.
Proof. induction 1 as [|y l Hy Hl IH]; [done|]. by rewrite column_count_cons, IH, decide_False. Qed.
Lemma count_below x y l : str_lt x y → Forall (str_le y) l → count x (y :: l) = 0%nat.
Proof.
  intros Hx Hs. apply count_none. constructor; [intros ->; by apply str_lt_irrefl in Hx|].
  eapply Forall_impl; [exact Hs|]. intros z Hz ->. by apply str_lt_nle in Hx.
Qed.

(** Which column is meant is known. *)
Ltac cols :=
  repeat match goal with
  | |- context [decide (?a = ?b :> nat)] =>
      first [rewrite (decide_True (P := a = b)) by done | rewrite (decide_False (P := a = b)) by done]
  end.
Lemma merge_counts a b : StronglySorted str_le a → StronglySorted str_le b → ∀ x,
  (count x (in_column 0 (merge a b)) + count x a `min` count x b)%nat = count x a ∧
  (count x (in_column 1 (merge a b)) + count x a `min` count x b)%nat = count x b ∧
  count x (in_column 2 (merge a b)) = (count x a `min` count x b)%nat.
Proof.
  intros Ha. revert b. induction Ha as [|x a Ha IHa Hxa]; intros b Hb z.
  { rewrite merge_nil_l, !in_column_pair. cols. rewrite ?count_nil. lia. }
  induction Hb as [|y b Hb IHb Hyb].
  { rewrite merge_nil_r, !in_column_pair. cols. rewrite ?count_nil. lia. }
  rewrite merge_cons. destruct (strcmp x y) eqn:E; rewrite !in_column_cons; cols; rewrite ?column_count_cons.
  - apply strcmp_eq in E as ->. specialize (IHa b Hb z). case_decide; lia.
  - specialize (IHa (y :: b) ltac:(by constructor) z). rewrite column_count_cons in IHa. destruct (decide (x = z)) as [Hz|Hz]; [|lia].
    subst z. pose proof (count_below x y b E Hyb) as H0. rewrite column_count_cons in H0. lia.
  - assert (str_lt y x) as E'. { unfold str_lt. by rewrite (strcmp_flip x y), E. }
    rewrite column_count_cons in IHb. destruct (decide (y = z)) as [Hz|Hz]; [|lia].
    subst z. pose proof (count_below y x a E' Hxa) as H0. rewrite column_count_cons in H0. lia.
Qed.

Lemma merge_lines a b p : p ∈ merge a b → p.2 ∈ a ∨ p.2 ∈ b.
Proof.
  revert b. induction a as [|x a IHa]; intros b.
  { rewrite merge_nil_l, list_elem_of_fmap. intros (y & -> & ?). by right. }
  induction b as [|y b IHb].
  { rewrite merge_nil_r, list_elem_of_fmap. intros (z & -> & ?). by left. }
  rewrite merge_cons. destruct (strcmp x y); rewrite elem_of_cons; intros [-> | Hp]; simpl; rewrite ?elem_of_cons; auto.
  - destruct (IHa _ Hp); auto.
  - destruct (IHa _ Hp) as [?|H]; auto. rewrite elem_of_cons in H. tauto.
  - destruct (IHb Hp) as [H|H]; auto. rewrite elem_of_cons in H. tauto.
Qed.
Lemma merge_sorted a b : StronglySorted str_le a → StronglySorted str_le b → StronglySorted str_le (map snd (merge a b)).
Proof.
  assert (∀ a b z, Forall (str_le z) a → Forall (str_le z) b → Forall (str_le z) (map snd (merge a b))) as Hall.
  { intros a0 b0 z H1 H2. rewrite Forall_forall in *. intros x (p & -> & Hp)%list_elem_of_fmap.
    destruct (merge_lines _ _ _ Hp); auto. }
  intros Ha. revert b. induction Ha as [|x a Ha IHa Hxa]; intros b Hb.
  { by rewrite merge_nil_l, map_map, map_id. }
  induction Hb as [|y b Hb IHb Hyb].
  { rewrite merge_nil_r, map_map, map_id. by constructor. }
  rewrite merge_cons. destruct (strcmp x y) eqn:E; cbn [map snd]; constructor; auto.
  - apply strcmp_eq in E as ->. by apply Hall.
  - apply IHa. by constructor.
  - apply Hall; [done|]. assert (str_le x y) by (apply str_le_spec; by right). constructor; [done|].
    eapply Forall_impl; [exact Hyb|]. intros z Hz. by trans y.
  - assert (str_lt y x) as E'. { unfold str_lt. by rewrite (strcmp_flip x y), E. }
    assert (str_le y x) by (apply str_le_spec; by right). apply Hall; [|done]. constructor; [done|].
    eapply Forall_impl; [exact Hxa|]. intros z Hz. by trans x.
Qed.

(** ** The loop makes the merge *)

Lemma getline_run ins o f ls e : ins !! f = Some (ls, e) →
  getline f (mkC ins o) = Ok (head ls) (mkC (<[f := (tail ls, e)]> ins) o).
Proof.
  intros H. unfold getline, mbind, gets. cbn [c_ins]. rewrite H. destruct ls; [|done]. unfold mret. simpl.
  by rewrite list_insert_id.
Qed.

Section loop.
Context (show : Z) (fp0 fp1 : nat) (name : nat → cstr).
Let fp (i : nat) : nat := match i with O => fp0 | _ => fp1 end.

Definition printed (out : list (nat * cstr)) : cstr := concat (map (λ p, column show p.1 p.2) out).

Lemma drain_run fuel i ins o ls : ins !! fp i = Some (ls, false) → (length ls ≤ fuel)%nat →
  drain_from show fp fuel i (mkC ins o) = Ok tt (mkC (<[fp i := ([], false)]> ins) (o ++ printed (map (pair i) ls))).
Proof using Type.
  revert ins o fuel. induction ls as [|l ls IH]; intros ins o fuel Hi Hf; (destruct fuel as [|fuel]; [simpl in Hf; try lia|]);
    cbn [drain_from]; unfold mbind; rewrite (getline_run _ _ _ _ _ Hi); cbn [head tail].
  1, 2: unfold mret; simpl; by rewrite app_nil_r.
  unfold printline, modify. simpl set.
  change (set c_out ?f (mkC ?i ?x)) with (mkC i (f x)). cbv beta.
  rewrite IH by (simpl in Hf; lia || (apply list_lookup_insert_eq; by eapply lookup_lt_Some)).
  rewrite list_insert_insert_eq. do 2 f_equal. unfold printed. cbn [map concat fst snd]. by rewrite app_assoc.
Qed.

Lemma stream_length ins f (ls : list cstr) (e : bool) : ins !! f = Some (ls, e) → (length ls ≤ length (concat (map fst ins)))%nat.
Proof using Type.
  revert f. induction ins as [|[x b] ins IH]; intros [|f] H; simpl in *; [done|done| |].
  - injection H as <- <-. rewrite length_app. lia.
  - rewrite length_app. specialize (IH f H). lia.
Qed.

Definition plain (l : cstr) : Prop := short l ∧ ∃ c r, l = c :: r ∧ c ≠ NUL.

Lemma finish_run i ins o other pending ls rest : (i = 0 ∨ i = 1)%nat → ins !! fp i = Some ([], false) → ins !! fp (1 - i) = Some (rest, false) →
  (if (pending : bool) then ∃ l, other = Some l ∧ plain l ∧ ls = l :: rest else ls = rest) →
  ∃ ins', finish show fp name i other pending (mkC ins o) = Ok tt (mkC ins' (o ++ printed (map (pair (1 - i)%nat) ls))).
Proof using Type.
  intros Hi H0 H1 Hp. exists (<[fp (1 - i) := ([], false)]> ins).
  assert (∀ ins o j x, ins !! fp j = Some (x, false) → check_error fp name j (mkC ins o) = Ok tt (mkC ins o)) as Hce.
  { intros ins0 o0 j x Hj. unfold check_error, ferror, mbind, gets. cbn [c_ins]. by rewrite Hj. }
  assert (∀ o, drain show fp (1 - i) (mkC ins o) = Ok tt (mkC (<[fp (1 - i) := ([], false)]> ins) (o ++ printed (map (pair (1 - i)%nat) rest)))) as Hdr.
  { intros o0. unfold drain, mbind, gets. apply drain_run; [done|]. cbn [c_ins]. by eapply stream_length. }
  unfold finish, mbind. rewrite (Hce _ _ _ _ H0).
  assert (<[fp (1 - i) := ([], false)]> ins !! fp (1 - i) = Some (@nil cstr, false)) as Hl by (apply list_lookup_insert_eq; by eapply lookup_lt_Some).
  destruct pending.
  - destruct Hp as (l & -> & (_ & c & r & -> & Hc) & ->). unfold deref, mret. cbn [head]. rewrite decide_True by done.
    unfold printline, modify. change (set c_out ?f (mkC ?i ?x)) with (mkC i (f x)). cbv beta. rewrite Hdr, (Hce _ _ _ _ Hl).
    unfold printed. cbn [map concat fst snd]. by rewrite app_assoc.
  - subst. unfold mret. by rewrite Hdr, (Hce _ _ _ _ Hl).
Qed.

(** What is left of the two files, the lines that were read and not printed
    included. *)
Definition left_over (diff : Z) (l0 l1 : option cstr) (a b A B : list cstr) : Prop :=
  (diff = 0 ∧ A = a ∧ B = b) ∨ (diff = -1 ∧ A = a ∧ ∃ y, l1 = Some y ∧ B = y :: b) ∨
  (diff = 1 ∧ (∃ x, l0 = Some x ∧ A = x :: a) ∧ B = b).

Hypothesis distinct : fp0 ≠ fp1.

Lemma comm_loop_run fuel : ∀ a b A B ins o l0 l1 diff,
  ins !! fp0 = Some (a, false) → ins !! fp1 = Some (b, false) → left_over diff l0 l1 a b A B →
  Forall plain A → Forall plain B → (length A + length B < fuel)%nat →
  ∃ ins', comm_loop show fp name fuel l0 l1 diff (mkC ins o) = Ok tt (mkC ins' (o ++ printed (merge A B))).
Proof using distinct.
  induction fuel as [|fuel IH]; intros a b A B ins o l0 l1 diff H0 H1 Hl HA HB Hf; [lia|]. cbn [comm_loop]. cbv zeta.
  assert (∃ ins1, (if bool_decide (diff ≠ 0 ∧ ¬ diff < 0) then mret l0 else getline (fp 0)) (mkC ins o) = Ok (head A) (mkC ins1 o) ∧
    ins1 !! fp0 = Some (tail A, false) ∧ ins1 !! fp1 = Some (b, false)) as (ins1 & Hg0 & I0 & I1).
  { destruct Hl as [(-> & -> & ->)|[(-> & -> & y & -> & ->)|(-> & (x & -> & ->) & ->)]]; simpl bool_decide; cbv iota.
    1, 2: exists (<[fp0 := (tail a, false)]> ins); rewrite bool_decide_false by lia; rewrite (getline_run _ _ fp0 a false H0);
      (split_and!; [done| |]); [apply list_lookup_insert_eq; by eapply lookup_lt_Some|by rewrite list_lookup_insert_ne].
    exists ins. rewrite bool_decide_true by lia. by split_and!. }
  unfold mbind at 1. rewrite Hg0. destruct A as [|x A]; cbn [head tail] in *.
  { rewrite merge_nil_l. apply (finish_run 0 _ _ _ _ B b); [by left|done|done|].
    destruct Hl as [(-> & _ & ->)|[(-> & _ & y & -> & ->)|(-> & (x & -> & [=]) & ->)]]; [done|].
    rewrite bool_decide_true by lia. exists y. split_and!; [done| |done]. by apply Forall_cons in HB as [? _]. }
  assert (∃ ins2, (if bool_decide (diff < 0) then mret l1 else getline (fp 1)) (mkC ins1 o) = Ok (head B) (mkC ins2 o) ∧
    ins2 !! fp0 = Some (A, false) ∧ ins2 !! fp1 = Some (tail B, false)) as (ins2 & Hg1 & J0 & J1).
  { destruct Hl as [(-> & _ & ->)|[(-> & _ & y & -> & ->)|(-> & _ & ->)]].
    1, 3: exists (<[fp1 := (tail b, false)]> ins1); rewrite bool_decide_false by lia; rewrite (getline_run _ _ fp1 b false I1);
      (split_and!; [done| |]); [by rewrite list_lookup_insert_ne|apply list_lookup_insert_eq; by eapply lookup_lt_Some].
    exists ins1. rewrite bool_decide_true by lia. by split_and!. }
  unfold mbind at 1. rewrite Hg1. apply Forall_cons in HA as [Hx HA]. destruct B as [|y B]; cbn [head tail] in *.
  { rewrite merge_nil_r. apply (finish_run 1 _ _ _ _ (x :: A) A); [by right|done|done|].
    assert (bool_decide (diff ≠ 0) || negb (bool_decide (diff ≠ 0 ∧ ¬ diff < 0)) = true) as ->.
    { destruct (decide (diff = 0)) as [->|]; [done|]. by rewrite bool_decide_true. }
    by exists x. }
  apply Forall_cons in HB as [Hy HB]. pose proof (linecmp_sign x y (proj1 Hx) (proj1 Hy)) as Hs.
  unfold mbind, printline, modify. change (set c_out ?f (mkC ?i ?x)) with (mkC i (f x)). cbv beta.
  assert (∀ d k z A' B', Z.max (-1) (Z.min 1 (linecmp x y)) = d → Z.to_nat (Z.rem (2 - d) 3) = k → (if decide (0 < d) then y else x) = z →
    merge (x :: A) (y :: B) = (k, z) :: merge A' B' → left_over d (Some x) (Some y) A B A' B' → Forall plain A' → Forall plain B' →
    (length A' + length B' < fuel)%nat →
    ∃ ins', comm_loop show fp name fuel (Some x) (Some y) (Z.max (-1) (Z.min 1 (linecmp x y)))
      (mkC ins2 (o ++ column show (Z.to_nat (Z.rem (2 - Z.max (-1) (Z.min 1 (linecmp x y))) 3)) (if decide (0 < Z.max (-1) (Z.min 1 (linecmp x y))) then y else x)))
      = Ok tt (mkC ins' (o ++ printed (merge (x :: A) (y :: B))))) as Hgo.
  { intros d k z A' B' -> -> -> Hm Hlo HA' HB' Hlen. rewrite Hm.
    destruct (IH A B A' B' ins2 (o ++ column show k z) (Some x) (Some y) d) as (ins' & E); try done.
    exists ins'. rewrite E. unfold printed. cbn [map concat fst snd]. by rewrite app_assoc. }
  rewrite merge_cons in Hgo |- *. simpl in Hf. destruct (strcmp x y) eqn:E.
  - apply (Hgo 0 2%nat x A B); try done; [|by left|lia]. apply Z.compare_eq_iff in Hs. lia.
  - apply (Hgo (-1) 0%nat x A (y :: B)); try done; [| |by constructor|simpl; lia].
    + rewrite Z.compare_lt_iff in Hs. lia.
    + right. left. split_and!; [done..|]. by exists y.
  - apply (Hgo 1 1%nat y (x :: A) B); try done; [| |by constructor|simpl; lia].
    + rewrite Z.compare_gt_iff in Hs. lia.
    + right. right. split_and!; [done| |done]. by exists x.
Qed.
End loop.

(** ** The program *)

(** The columns left by the letters of an option. *)
Definition show_of (ds : cstr) : Z := foldl (λ s c, Z.land s (Z.lxor 7 (Z.shiftl 1 (byte_of c - 49)))) 7 ds.
Definition digit_of (k : nat) : ascii := char_of (49 + Z.of_nat k).

Lemma shown_option ds k : Forall (λ c, c ∈ lit "123") ds → (k < 3)%nat → shown (show_of ds) k = bool_decide (digit_of k ∉ ds).
Proof.
  intros Hd Hk. unfold show_of. assert (shown 7 k = true) as H7 by (destruct k as [|[|[|k]]]; done || lia).
  enough (∀ s, shown (foldl (λ s c, Z.land s (Z.lxor 7 (Z.shiftl 1 (byte_of c - 49)))) s ds) k = shown s k && bool_decide (digit_of k ∉ ds)) as H by (by rewrite H, H7).
  induction Hd as [|c ds Hc Hd IH]; intros s; cbn [foldl].
  { by rewrite bool_decide_true, andb_true_r by set_solver. }
  rewrite IH. unfold shown. rewrite Z.land_spec. rewrite <- andb_assoc. f_equal.
  assert (Z.testbit (Z.lxor 7 (Z.shiftl 1 (byte_of c - 49))) (Z.of_nat k) = bool_decide (digit_of k ≠ c)) as ->.
  { change (lit "123") with ["1"%char; "2"%char; "3"%char] in Hc. rewrite !elem_of_cons, elem_of_nil in Hc. destruct Hc as [->|[->|[->|[]]]], k as [|[|[|k]]]; done || lia. }
  apply eq_bool_prop_intro. rewrite andb_True, !bool_decide_spec, not_elem_of_cons. done.
Qed.

Lemma comm_options argv0 ds p q s : Forall (λ c, c ∈ lit "123") ds → head p ≠ Some "-"%char →
  argbegin (λ _, false) (λ _ _ o, mret o) (comm_flag argv0) (comm_usage argv0)
    (match ds with [] => [] | _ => [("-"%char :: ds)] end ++ [p; q]) 7 s = Ok ([p; q], show_of ds) s.
Proof.
  intros Hd Hp. unfold argbegin. destruct ds as [|d ds]; [by apply operands_left|]. cbn [app length]. rewrite options_next.
  2: { intros [-> _]. apply Forall_cons in Hd as [Hd _]. change (lit "123") with ["1"%char; "2"%char; "3"%char] in Hd.
       rewrite !elem_of_cons, elem_of_nil in Hd. naive_solver. }
  assert (∀ ds o s, Forall (λ c, c ∈ lit "123") ds → arg_letters (λ _, false) (λ _ _ o, mret o) (comm_flag argv0) (comm_usage argv0) ds [p; q] o s =
    Ok ([p; q], foldl (λ s c, Z.land s (Z.lxor 7 (Z.shiftl 1 (byte_of c - 49)))) o ds) s) as Hl.
  { intros ds0 o s0 H. revert o. induction H as [|c ds0 Hc H IH]; intros o; [done|]. cbn [arg_letters foldl].
    unfold mbind, comm_flag. rewrite decide_True by done. unfold mret. apply IH. }
  unfold mbind. rewrite Hl by done. by apply operands_left.
Qed.

(** C21: For two sorted files whose lines are shorter than 2^31 bytes and do not
    start with a NUL, comm ends with status 0 and prints their lines in order, each in one of three columns: a line that is in the first file m times
    and in the second n times is printed min(m, n) times in the third column, and
    as often as it is left over in the first or the second.  The digits of
    an option hide their columns. *)
Theorem comm_columns files argv0 ds p q f g s : Forall (λ c, c ∈ lit "123") ds →
  head p ≠ Some "-"%char → q ≠ lit "-" → files !! p = Some f → files !! q = Some g → f_err f = false → f_err g = false →
  Forall plain (lines_of f) → Forall plain (lines_of g) →
  StronglySorted str_le (lines_of f) → StronglySorted str_le (lines_of g) →
  ∃ out ins, comm_main files argv0 (match ds with [] => [] | _ => ["-"%char :: ds] end ++ [p; q]) s =
      Ok 0 (mkC ins (c_out s ++ concat (map (λ p, column (show_of ds) p.1 p.2) out))) ∧
    (∀ k, (k < 3)%nat → shown (show_of ds) k = bool_decide (digit_of k ∉ ds)) ∧
    StronglySorted str_le (map snd out) ∧
    ∀ x, let m := count x (lines_of f) in let n := count x (lines_of g) in
      count x (in_column 2 out) = (m `min` n)%nat ∧
      count x (in_column 0 out) = (m - n)%nat ∧ count x (in_column 1 out) = (n - m)%nat.
Proof.
  intros Hd Hp Hq Hf Hg Ef Eg Pf Pg Sf Sg. destruct s as [ins o].
  exists (merge (lines_of f) (lines_of g)).
  destruct (comm_loop_run (show_of ds) (length ins) (S (length ins)) (λ i, match i with O => comm_name p | _ => comm_name q end) ltac:(lia)
    (S (length (concat (map fst (ins ++ [(lines_of f, false); (lines_of g, false)])))))
    (lines_of f) (lines_of g) (lines_of f) (lines_of g) (ins ++ [(lines_of f, false); (lines_of g, false)]) o None None 0) as (ins' & Hr).
  - by rewrite lookup_app_r, Nat.sub_diag by lia.
  - rewrite lookup_app_r by lia. by replace (S (length ins) - length ins)%nat with 1%nat by lia.
  - by left.
  - done.
  - done.
  - rewrite map_app, concat_app, length_app. cbn [map concat fst]. rewrite app_nil_r, length_app. lia.
  - exists ins'. split_and!; [|intros; by apply shown_option|by apply merge_sorted|].
    + unfold comm_main. unfold mbind at 1. rewrite comm_options by done. unfold mbind at 1, fopen at 1.
      rewrite decide_False by (by intros ->). rewrite Hf. unfold mbind at 1, gets, modify, mret.
      unfold mbind at 1, fopen. rewrite decide_False by done. rewrite Hg. unfold mbind at 1 2 3 4, gets, modify, mret.
      do 2 (change (set c_ins ?f (mkC ?i ?x)) with (mkC (f i) x); cbv beta). cbn [c_ins c_out]. rewrite Ef, Eg, <- !app_assoc. cbn [app].
      rewrite length_app. cbn [length]. rewrite Nat.add_1_r. unfold mbind. rewrite Hr. done.
    + intros x m n. destruct (merge_counts _ _ Sf Sg x) as (H0 & H1 & H2). fold m n in H0, H1, H2. lia.
Qed.

Definition sample_files : gmap cstr FILE := {[ lit "a" := text ["1"; "2"; "2"; "4"]; lit "b" := text ["2"; "3"] ]}.
Lemma comm_columns_witness : ∃ out ins,
  comm_main sample_files "comm" (lits ["-3"; "a"; "b"]) (mkC [([], false)] []) =
  Ok 0 (mkC ins (concat (map (λ p, column (show_of "3") p.1 p.2) out))) ∧ count (lit "2" ++ [NL]) (in_column 2 out) = 1%nat.
Proof.
  destruct (comm_columns sample_files "comm" "3" "a" "b" (text ["1"; "2"; "2"; "4"]) (text ["2"; "3"]) (mkC [([], false)] []))
    as (out & ins & Hr & _ & _ & Hc); try done; try reflexivity.
  - repeat constructor.
  - vm_compute lines_of. repeat (constructor; [split; [done|by eexists _, _]|]). constructor.
  - vm_compute lines_of. repeat (constructor; [split; [done|by eexists _, _]|]). constructor.
  - vm_compute lines_of. repeat constructor; done.
  - vm_compute lines_of. repeat constructor; done.
  - exists out, ins. split; [exact Hr|]. destruct (Hc (lit "2" ++ [NL])) as (H & _). rewrite H. vm_compute. reflexivity.
Defined.
