(* ===== verification/Cut.v ===== *)
(** * cut: src/cmd/posix/cut.c

    The list of ranges, the three ways to select, and the program.  Positions are
    [size_t], and the arithmetic on them wraps; a maximum of 0 stands for the
    end of the line.  A line that is left with a wrapped length is read outside
    its bounds, which is [Ub]. *)

From stdpp Require Import gmap strings pretty.
From S2P Require Import Prelude CString StrList Args Utf Stdio Strtonum Text.

Local Open Scope Z_scope.

Definition size_t (z : Z) : Z := z mod 2 ^ 64.
Record Range := mkRange { min : Z; max : Z }.

(** ** insert *)

(** The ranges behind [p] that [r] reaches are passed. *)
Fixpoint absorb (r p : Range) (t : list Range) : Range * list Range :=
  match t with
  | [] => (p, [])
  | x :: t' => if decide (max r ≠ 0 ∧ size_t (max r + 1) < min x) then (p, t) else absorb r x t'
  end.
Fixpoint insert (r : Range) (l : list Range) : list Range :=
  match l with
  | [] => [r]
  | x :: l' =>
      if decide (max r ≠ 0 ∧ size_t (max r + 1) < min x) then r :: l
      else if decide (max x = 0 ∨ min r < size_t (max x + 2)) then
        let '(p, t) := absorb r x l' in
        mkRange (Z.min (min r) (min x)) (if decide (max p ≠ 0 ∧ max r ≠ 0) then Z.max (max p) (max r) else 0) :: t
      else x :: insert r l'
  end.

(** ** parselist *)

(** [strtoul(s, &s, 10)] *)
Definition strtoul (str : cstr) : Z * cstr :=
  let s := skip_blanks str in
  let '(neg, s) :=
    match s with
    | c :: r =>
        if decide (c = "-"%char) then (true, r)
        else if decide (c = "+"%char) then (false, r) else (false, s)
    | [] => (false, s)
    end in
  let '(v, k, ep) := digits 0 s in
  match k with
  | O => (0, str)
  | S _ => (if decide (2 ^ 64 ≤ v) then 2 ^ 64 - 1 else if neg : bool then size_t (- v) else v, ep)
  end.

Definition commas (str : cstr) : cstr := map (λ c, if decide (c = " "%char) then ","%char else c) str.
Definition starts_dash (s : cstr) : bool := bool_decide (head s = Some "-"%char).
(** One item, and what follows it. *)
Definition parse_range (s : cstr) : M tio (Range * cstr) :=
  let '(mn, s) := if starts_dash s then (1, s) else strtoul s in
  let '(mx, s) := if starts_dash s then strtoul (drop 1 s) else (mn, s) in
  if decide (mn = 0 ∨ (mx ≠ 0 ∧ mx < mn) ∨ (s ≠ [] ∧ head s ≠ Some ","%char)) then eprintf "bad list value"
  else mret (mkRange mn mx, s).
Fixpoint parse_items (n : nat) (s : cstr) (l : list Range) : M tio (list Range) :=
  match n with
  | O => mret l
  | S n =>
      p <- parse_range s ;;
      let '(r, s) := p in
      parse_items n (drop 1 s) (insert r l)
  end.
Definition parselist (str : cstr) (l : list Range) : M tio (list Range) :=
  if decide (str = []) then eprintf "empty list"
  else
    let s := commas str in
    parse_items (S (length (filter (λ c, c = ","%char) s))) s l.

(** ** seek *)

Record cutopts := mkCut { c_list : list Range; c_mode : option ascii; c_delim : cstr; c_nflag : bool; c_sflag : bool }.
#[export] Instance eta_cutopts : Eta cutopts := λ o, mkCut (c_list o) (c_mode o) (c_delim o) (c_nflag o) (c_sflag o).

Definition UTF8_POINT (c : ascii) : bool := negb (Z.land (byte_of c) 192 =? 128).

(** [while (n && !UTF8_POINT(s->data[n])) n--] *)
Fixpoint back_point (s : cstr) (n : nat) : M tio nat :=
  match n with
  | O => mret O
  | S n' => c <- deref (s !! n) ;; if UTF8_POINT c then mret n else back_point s n'
  end.
(** [for (n++, i = 0; i < s->len; i++) if (UTF8_POINT(s->data[i]) && !--n) break] *)
Fixpoint nth_point (s : cstr) (n : Z) (i : nat) : nat :=
  match s with
  | [] => i
  | c :: s => if UTF8_POINT c then if decide (size_t (n - 1) = 0) then i else nth_point s (size_t (n - 1)) (S i) else nth_point s n (S i)
  end.
(** [for (j = 1; j + i <= s->len && !fullrune(s->data + i, j); j++)] *)
Fixpoint rune_step (fuel : nat) (s : cstr) (j : nat) : M tio nat :=
  match fuel with
  | O => mret j
  | S fuel => f <- fullrune (bytes_of s) j ;; if (f : bool) then mret j else rune_step fuel s (S j)
  end.
(** The loop over fields from [i] on; [s] is what is left. *)
Fixpoint fields_loop (fuel : nat) (delim s : cstr) (n : Z) (counted : bool) (i : nat) : M tio nat :=
  if decide (n = 0 ∨ s = []) then mret i
  else
    match fuel with
    | O => mfuel
    | S fuel =>
        if decide (length delim ≤ length s ∧ memcmp s delim (length delim) = Eq)%nat then
          if decide (n = 1 ∧ counted = true) then mret i
          else fields_loop fuel delim (drop (length delim) s) (n - 1) counted (i + length delim)
        else
          j <- rune_step (length s) s 1 ;;
          fields_loop fuel delim (drop j s) n counted (i + j)
    end.

(** The offset, and [*prev]. *)
Definition seek (o : cutopts) (s : cstr) (pos prev : Z) (count : nat) : M tio (nat * Z) :=
  let n := size_t (pos - prev) in
  if decide (c_mode o = Some "b"%char) then
    if decide (Z.of_nat (length s) ≤ n) then mret (length s, prev)
    else
      k <- (if c_nflag o then back_point s (Z.to_nat n) else mret (Z.to_nat n)) ;;
      mret (k, prev + Z.of_nat k)
  else if decide (c_mode o = Some "c"%char) then mret (nth_point s (size_t (n + 1)) 0, pos)
  else
    let i := if decide (count < length (c_delim o) + 1)%nat then 0%nat else length (c_delim o) in
    k <- fields_loop (length s) (c_delim o) (drop i s) n (bool_decide (count ≠ 0%nat)) i ;;
    mret (k, pos).

(** ** cut *)

(** [s.data += n; s.len -= n]: beyond its end the length wraps. *)
Definition advance (s : cstr) (n : nat) : M tio cstr := if decide (n ≤ length s)%nat then mret (drop n s) else mub.

Fixpoint cut_ranges (o : cutopts) (s : cstr) (i : nat) (p : Z) (rs : list Range) : M tio unit :=
  let width := if decide (c_mode o = Some "f"%char) then length (c_delim o) else 1%nat in
  match rs with
  | [] => mret tt
  | r :: rs =>
      q <- seek o s (min r) p i ;;
      let '(n, p) := q in
      s <- advance s n ;;
      let i := (i + width)%nat in
      if decide (s = []) then mret tt
      else if decide (max r = 0) then tput s
      else
        q <- seek o s (size_t (max r + 1)) p i ;;
        let '(n, p) := q in
        let i := (i + width)%nat in
        if decide (n ≤ length s)%nat then
          tput (take n s) ;;
          s <- advance s n ;;
          cut_ranges o s i p rs
        else mub
  end.
Definition cut_line (o : cutopts) (l : cstr) : M tio unit :=
  let line := if decide (last l = Some NL) then take (length l - 1) l else l in
  if decide (c_mode o = Some "f"%char ∧ memmem line (c_delim o) = None) then
    if c_sflag o then mret tt else tput (line ++ [NL])
  else cut_ranges o line 0 1 (c_list o) ;; tput [NL].
Definition cut (o : cutopts) (fp : FILE) (fname : cstr) : M tio unit :=
  mforeach (cut_line o) (lines_of fp) ;;
  if f_err fp then eprintf (lit "getline " ++ fname ++ lit ":") else mret tt.

(** ** main *)

Definition cut_usage {A} (argv0 : cstr) : M tio A :=
  eprintf (lit "usage: " ++ argv0 ++ lit " -b list [-n] [file ...]" ++ [NL] ++ lit "       " ++ argv0 ++ lit " -c list [file ...]" ++ [NL] ++
           lit "       " ++ argv0 ++ lit " -f list [-d delim] [-s] [file ...]").
Definition cut_arg (c : ascii) (a : cstr) (o : cutopts) : M tio cutopts :=
  if decide (c = "d"%char) then
    if decide (a = []) then eprintf "empty delimiter"
    else d <- unescape a ;; mret (set c_delim (λ _, d) o)
  else l <- parselist a (c_list o) ;; mret (set c_list (λ _, l) (set c_mode (λ _, Some c) o)).
Definition cut_flag (argv0 : cstr) (c : ascii) (o : cutopts) : M tio cutopts :=
  if decide (c = "n"%char) then mret (set c_nflag (λ _, true) o)
  else if decide (c = "s"%char) then mret (set c_sflag (λ _, true) o)
  else cut_usage argv0.
Definition cut_takes_arg (c : ascii) : bool := bool_decide (c ∈ lit "bcfd").
Definition cut_main (argv0 : cstr) (args : StrList) : M tio Z :=
  p <- argbegin cut_takes_arg cut_arg (cut_flag argv0) (cut_usage argv0) args (mkCut [] None [TAB] false false) ;;
  let '(argv, o) := p in
  match c_mode o with
  | None => cut_usage argv0
  | Some _ => operands (cut o) argv
  end.

(** ** Examples *)

Definition run_cut (args : list string) (input : cstr) : option cstr :=
  match cut_main "cut" (lits args) (mkTio ∅ (mkFile (bytes_of input) false) [] []) with
  | Ok _ s => Some (t_out s)
  | _ => None
  end.
Example cut_b : run_cut ["-b"; "3-4,1,6-"] (lit "abcdefgh" ++ [NL]) = Some (lit "acdfgh" ++ [NL]).
Proof. vm_compute. reflexivity. Qed.
Example cut_f : run_cut ["-d:"; "-f"; "2,4-5"] (lit "a:b:c:d:e:f" ++ [NL]) = Some (lit "b:d:e" ++ [NL]).
Proof. vm_compute. reflexivity. Qed.
(** A line that ends inside a character: the search for a field that is not there
    steps behind its end. *)
Example cut_truncated : cut_main "cut" (lits ["-f"; "3"]) (mkTio ∅ (mkFile [97; 9; 226; 10] false) [] []) = Ub.
Proof. vm_compute. reflexivity. Qed.
(** A line with too few fields: when a range has reached its end, the search for the
    next one starts behind it. *)
Example cut_few_fields : cut_main "cut" (lits ["-f"; "2,4"]) (mkTio ∅ (mkFile [97; 9; 98; 10] false) [] []) = Ub.
Proof. vm_compute. reflexivity. Qed.

(** * What cut selects

    The ranges of a list, in any order and overlapping, become disjoint ranges in
    order that cover the same positions; and cut -b and -c print the bytes or
    characters at the positions that the list names, each once and in the order
    of the line ([cut_selects]). *)

(** ** The list of ranges *)

Definition valid (r : Range) : Prop := 1 ≤ min r ∧ (max r = 0 ∨ min r ≤ max r) ∧ min r < 2 ^ 64 - 2 ∧ max r < 2 ^ 64 - 2.
Definition inside (r : Range) (i : Z) : Prop := min r ≤ i ∧ (max r = 0 ∨ i ≤ max r).
Definition covers (l : list Range) (i : Z) : Prop := Exists (λ r, inside r i) l.
#[export] Instance inside_dec r i : Decision (inside r i).
Proof. unfold inside. apply _. Defined.
#[export] Instance covers_dec l i : Decision (covers l i).
Proof. unfold covers. apply _. Defined.

(** In order, above [lo], and not touching. *)
Fixpoint ordered (lo : Z) (l : list Range) : Prop :=
  match l with
  | [] => True
  | x :: l => lo < min x ∧ valid x ∧ (l ≠ [] → max x ≠ 0) ∧ ordered (max x + 1) l
  end.

Lemma ordered_weaken lo lo' l : lo' ≤ lo → ordered lo l → ordered lo' l.
Proof. destruct l; simpl; [done|]. intros ? (? & ?). split; [lia|done]. Qed.

Lemma size_t_id z : 0 ≤ z < 2 ^ 64 → size_t z = z.
Proof. apply Z.mod_small. Qed.
Lemma valid_sizes r : valid r → size_t (max r + 1) = max r + 1 ∧ size_t (max r + 2) = max r + 2 ∧ 0 ≤ max r.
Proof. intros (? & ? & ? & ?). rewrite !size_t_id by lia. lia. Qed.

(** Behind [p] the ranges up to [q] are reached by [r]; the ones behind are not. *)
Lemma absorb_ok r p t q u : valid r → valid p → (t ≠ [] → max p ≠ 0) → ordered (max p + 1) t → absorb r p t = (q, u) →
  ∃ mid, p :: t = mid ++ q :: u ∧ Forall (λ y, min p ≤ min y ∧ max y ≠ 0 ∧ max y < min q) mid ∧
    (q = p ∨ max r = 0 ∨ min q ≤ max r + 1) ∧ min p ≤ min q ∧ (q ≠ p → max p ≠ 0 ∧ max p < min q) ∧
    valid q ∧ (u ≠ [] → max q ≠ 0 ∧ max r ≠ 0) ∧ ordered (max q + 1) u ∧ (u ≠ [] → ordered (max r + 1) u).
Proof.
  intros Hr. revert p. induction t as [|x t IH]; intros p Hp Hne Ho Ha; cbn [absorb] in Ha.
  { injection Ha as <- <-. exists []. split_and!; try done. by left. }
  destruct Ho as (H1 & H2 & H3 & H4). destruct (valid_sizes r Hr) as (Hs & _). rewrite Hs in Ha. case_decide as Hd.
  - injection Ha as <- <-. exists []. split_and!; try done; try lia; [by left| |].
    + intros _. split; [by apply Hne|lia].
    + intros _. simpl. split_and!; try done. lia.
  - destruct (IH x H2 H3 H4 Ha) as (mid & E & Hm & Hq & Hmin & Hqp & Hv & Hu & Ho1 & Ho2).
    assert (max p ≠ 0) as Hp0 by (by apply Hne). destruct Hp as (Hp1 & Hp2 & _). destruct H2 as (Hx1 & Hx2 & Hx3).
    exists (p :: mid). split_and!; try done; try lia.
    + by rewrite E.
    + constructor; [lia|]. eapply Forall_impl; [exact Hm|]. simpl. intros y Hy. lia.
    + destruct Hq as [-> | Hq]; [|by right]. right. lia.
Qed.

Lemma insert_ok r l lo : valid r → lo < min r → ordered lo l →
  ordered lo (insert r l) ∧ ∀ i, 1 ≤ i → covers (insert r l) i ↔ inside r i ∨ covers l i.
Proof.
  intros Hr. destruct (valid_sizes r Hr) as (Hs & _ & Hr0). revert lo. induction l as [|x l IH]; intros lo Hlo Ho; cbn [insert].
  { split; [done|]. intros i _. unfold covers. rewrite Exists_cons. done. }
  destruct Ho as (H1 & H2 & H3 & H4). destruct (valid_sizes x H2) as (_ & Hs2 & Hx0). rewrite Hs, Hs2.
  case_decide as Hd1; [|case_decide as Hd2].
  - split; [|intros i _; unfold covers; by rewrite Exists_cons]. simpl. split_and!; try done; lia.
  - destruct (absorb r x l) as [q u] eqn:Ea.
    destruct (absorb_ok r x l q u Hr H2 H3 H4 Ea) as (mid & E & Hm & Hq & Hmin & Hqp & Hv & Hu & Ho1 & Ho2).
    assert (valid (mkRange (Z.min (min r) (min x)) (if decide (max q ≠ 0 ∧ max r ≠ 0) then Z.max (max q) (max r) else 0))) as Hnew.
    { unfold valid in *. cbn [min max]. case_decide; lia. }
    split.
    + cbn [ordered min max]. split_and!; [lia|done| |].
      * intros Hne. rewrite decide_True by (by apply Hu). destruct (Hu Hne). unfold valid in *. lia.
      * destruct u as [|y u]; [done|]. rewrite decide_True by (by apply Hu). specialize (Ho2 ltac:(done)).
        simpl in Ho1, Ho2 |- *. split_and!; try apply Ho1. lia.
    + intros i Hi. unfold covers. rewrite E, Exists_app, !Exists_cons.
      assert (inside (mkRange (Z.min (min r) (min x)) (if decide (max q ≠ 0 ∧ max r ≠ 0) then Z.max (max q) (max r) else 0)) i ↔
        inside r i ∨ Exists (λ y, inside y i) mid ∨ inside q i) as ->; [|clear; tauto].
      clear Hnew. rewrite Exists_exists. rewrite Forall_forall in Hm. unfold inside, valid in *. cbn [min max]. split.
      * intros [Hlo' Hhi]. destruct (decide (min r ≤ i ∧ (max r = 0 ∨ i ≤ max r))) as [|Hnr]; [by left|]. right.
        destruct mid as [|y mid]; [injection E as -> ->; right; repeat case_decide; lia|injection E as <- E].
        destruct (decide (i < min r)) as [Hlt|Hge].
        -- left. exists x. split; [set_solver|]. lia.
        -- right. destruct Hq as [->|Hq]; repeat case_decide; lia.
      * intros [Hin|[(y & Hy & Hin)|Hin]]; [repeat case_decide; lia| |repeat case_decide; lia].
        apply Hm in Hy. repeat case_decide; lia.
  - destruct (IH (max x + 1)) as [Ho' Hc]; [lia|done|]. split.
    + simpl. split_and!; try done. intros _. lia.
    + intros i Hi. unfold covers in *. rewrite !Exists_cons, Hc by done. clear; tauto.
Qed.

(** ** The parts of a line *)

(** The parts at the positions of a set, from position [p] on. *)
Fixpoint pick (rs : list Range) (p : Z) (cs : list cstr) : cstr :=
  match cs with
  | [] => []
  | c :: cs => (if decide (covers rs p) then c else []) ++ pick rs (p + 1) cs
  end.

Lemma pick_skip rs p n cs : (∀ i, p ≤ i < p + Z.of_nat n → ¬ covers rs i) → pick rs p cs = pick rs (p + Z.of_nat n) (drop n cs).
Proof.
  revert p cs. induction n as [|n IH]; intros p cs H; [by rewrite Z.add_0_r, drop_0|].
  destruct cs as [|c cs]; [done|]. cbn [pick drop]. rewrite decide_False by (apply H; lia). simpl app.
  rewrite IH by (intros i Hi; apply H; lia). f_equal. lia.
Qed.
Lemma pick_take rs p n cs : (∀ i, p ≤ i < p + Z.of_nat n → covers rs i) →
  pick rs p cs = concat (take n cs) ++ pick rs (p + Z.of_nat n) (drop n cs).
Proof.
  revert p cs. induction n as [|n IH]; intros p cs H; [by rewrite Z.add_0_r, drop_0|].
  destruct cs as [|c cs]; [done|]. cbn [pick drop take concat]. rewrite decide_True by (apply H; lia).
  rewrite (IH (p + 1)) by (intros i Hi; apply H; lia). rewrite <- app_assoc. do 3 f_equal. lia.
Qed.
Lemma pick_all rs p cs : (∀ i, p ≤ i → covers rs i) → pick rs p cs = concat cs.
Proof.
  revert p. induction cs as [|c cs IH]; intros p H; [done|]. cbn [pick concat]. rewrite decide_True by (apply H; lia).
  rewrite IH; [done|]. intros i Hi. apply H. lia.
Qed.
Lemma pick_ext rs rs' p cs : (∀ i, p ≤ i → covers rs i ↔ covers rs' i) → pick rs p cs = pick rs' p cs.
Proof.
  revert p. induction cs as [|c cs IH]; intros p H; [done|]. cbn [pick]. rewrite (decide_ext _ (covers rs' p)) by (apply H; lia).
  f_equal. apply IH. intros i Hi. apply H. lia.
Qed.

Lemma ordered_below lo l i : ordered lo l → i ≤ lo → ¬ covers l i.
Proof.
  revert lo. induction l as [|x l IH]; intros lo Ho Hi; unfold covers; rewrite ?Exists_nil, ?Exists_cons; [tauto|].
  destruct Ho as (H1 & H2 & H3 & H4). intros [[? ?]|Hc]; [lia|]. destruct l as [|y l]; [by apply Exists_nil in Hc|].
  destruct H2 as (? & [?|?] & _); [by apply H3|]. by apply (IH (max x + 1) H4); [lia|].
Qed.

Section select.
(** The parts that one mode counts. *)
Context (o : cutopts) (part : list cstr → Prop).
Hypothesis part_tail : ∀ n cs, part cs → part (drop n cs).
Hypothesis part_full : ∀ cs, part cs → Forall (λ c, c ≠ []) cs.
Hypothesis seek_part : ∀ cs pos prev cnt s, part cs → 0 ≤ prev ≤ pos → pos < 2 ^ 64 - 1 →
  ∃ prev', seek o (concat cs) pos prev cnt s = Ok (length (concat (take (Z.to_nat (pos - prev)) cs)), prev') s ∧
    (pos - prev < Z.of_nat (length cs) → prev' = pos).
Hypothesis seek_empty : ∀ pos prev cnt s, ∃ prev', seek o [] pos prev cnt s = Ok (0%nat, prev') s.

Lemma length_take_concat n (cs : list cstr) : (length (concat (take n cs)) ≤ length (concat cs))%nat.
Proof using Type. rewrite <- (take_drop n cs) at 2. rewrite concat_app, length_app. lia. Qed.
Lemma concat_split n (cs : list cstr) :
  take (length (concat (take n cs))) (concat cs) = concat (take n cs) ∧ drop (length (concat (take n cs))) (concat cs) = concat (drop n cs).
Proof using Type.
  rewrite <- (take_drop n cs) at 2 5. rewrite concat_app. split; [apply take_app_length|apply drop_app_length].
Qed.
Lemma part_nil cs : part cs → concat cs = [] → cs = [].
Proof using part_full. intros Hp%part_full Hc. destruct cs as [|[|x c] cs]; [done| |done]. by apply Forall_cons in Hp as [? _]. Qed.

Lemma pick_nil p cs : pick [] p cs = [].
Proof using Type. revert p. induction cs as [|c cs IH]; intros p; [done|]. cbn [pick]. rewrite decide_False by (by intros H%Exists_nil). apply IH. Qed.

Lemma advance_ok n cs s : advance (concat cs) (length (concat (take n cs))) s = Ok (concat (drop n cs)) s.
Proof using Type. unfold advance. rewrite decide_True by apply length_take_concat. by rewrite (proj2 (concat_split n cs)). Qed.

Lemma cut_ranges_nil rs i p s : cut_ranges o [] i p rs s = Ok tt s.
Proof using seek_empty.
  destruct rs as [|r rs]; [done|]. cbn [cut_ranges]. cbv zeta. unfold mbind. destruct (seek_empty (min r) p i s) as (p' & ->). done.
Qed.

Lemma cut_ranges_run rs : ∀ p cs i s, part cs → 1 ≤ p → ordered (p - 1) rs →
  cut_ranges o (concat cs) i p rs s = tput (pick rs p cs) s.
Proof using part_tail part_full seek_part seek_empty.
  induction rs as [|r rs IH]; intros p cs i s Hc Hp Ho; [by rewrite pick_nil, tput_nil|].
  pose proof Ho as Ho'. destruct Ho' as (H1 & H2 & H3 & H4). pose proof H2 as (V1 & V2 & V3 & V4).
  cbn [cut_ranges]. cbv zeta. unfold mbind at 1.
  destruct (seek_part cs (min r) p i s Hc) as (p1 & -> & Hp1); [lia..|].
  set (n1 := Z.to_nat (min r - p)) in *. unfold mbind at 1. rewrite advance_ok.
  rewrite (pick_skip (r :: rs) p n1 cs).
  2: { intros j Hj. apply (ordered_below (min r - 1)); [|lia]. simpl. split_and!; try done. lia. }
  replace (p + Z.of_nat n1) with (min r) by lia. set (cs1 := drop n1 cs) in *.
  assert (part cs1) as Hc1 by (by apply part_tail). case_decide as Hd1.
  { apply (part_nil _ Hc1) in Hd1. rewrite Hd1. by rewrite tput_nil. }
  assert (p1 = min r) as ->. { apply Hp1. destruct (decide (n1 < length cs)%nat); [lia|]. destruct Hd1. unfold cs1. by rewrite drop_ge by lia. }
  case_decide as Hd2.
  { destruct rs; [|by destruct H3]. rewrite pick_all; [done|]. intros j Hj. apply Exists_cons_hd. split; [done|by left]. }
  rewrite (proj1 (valid_sizes r H2)). unfold mbind at 1.
  destruct (seek_part cs1 (max r + 1) (min r) (i + (if decide (c_mode o = Some "f"%char) then length (c_delim o) else 1))%nat s Hc1) as (p2 & -> & Hp2); [lia..|].
  set (n2 := Z.to_nat (max r + 1 - min r)) in *. rewrite decide_True by apply length_take_concat.
  rewrite (proj1 (concat_split n2 cs1)).
  rewrite (pick_take (r :: rs) (min r) n2 cs1) by (intros j Hj; apply Exists_cons_hd; split; [lia|right; lia]).
  replace (min r + Z.of_nat n2) with (max r + 1) by lia. rewrite <- tput_app. unfold mbind. 
  destruct (tput (concat (take n2 cs1)) s) as [[] s'| | |] eqn:Et; try done. rewrite advance_ok. set (cs2 := drop n2 cs1) in *.
  assert (part cs2) as Hc2 by (by apply part_tail). destruct (decide (cs2 = [])) as [Hnil|Hnil].
  { rewrite Hnil. cbn [concat pick]. by rewrite cut_ranges_nil, tput_nil. }
  assert (p2 = max r + 1) as ->. { apply Hp2. destruct (decide (n2 < length cs1)%nat); [lia|]. destruct Hnil. unfold cs2. by rewrite drop_ge by lia. }
  rewrite IH; [|done|lia|by apply (ordered_weaken (max r + 1)); [lia|]]. f_equal. apply pick_ext. intros j Hj.
  unfold covers. rewrite Exists_cons. unfold inside. split; [by right|]. intros [?|?]; [lia|done].
Qed.
End select.

(** ** Bytes and characters *)

Definition one_byte (c : cstr) : Prop := length c = 1%nat.
(** A byte that starts a character, and those that continue it. *)
Definition one_char (c : cstr) : Prop := ∃ x r, c = x :: r ∧ UTF8_POINT x = true ∧ Forall (λ y, UTF8_POINT y = false) r.

Lemma bytes_length cs : Forall one_byte cs → length (concat cs) = length cs.
Proof. induction 1 as [|c cs Hc Hcs IH]; [done|]. cbn [concat length]. rewrite length_app, IH, Hc. done. Qed.

Lemma seek_bytes l d sf cs pos prev cnt s : Forall one_byte cs → 0 ≤ prev ≤ pos → pos < 2 ^ 64 - 1 →
  ∃ prev', seek (mkCut l (Some "b"%char) d false sf) (concat cs) pos prev cnt s = Ok (length (concat (take (Z.to_nat (pos - prev)) cs)), prev') s ∧
    (pos - prev < Z.of_nat (length cs) → prev' = pos).
Proof.
  intros Hc Hp Hpos. unfold seek. cbv zeta. cbn [c_mode c_nflag]. rewrite size_t_id by lia.
  rewrite (bytes_length (take _ _)) by (by apply Forall_take). rewrite (bytes_length cs Hc), length_take.
  rewrite decide_True by done.
  case_decide as Hd.
  - eexists. split; [do 2 f_equal|]; lia.
  - unfold mbind, mret. eexists. split; [do 2 f_equal; lia|]. lia.
Qed.

Lemma nth_point_skip r s n i : Forall (λ y, UTF8_POINT y = false) r → nth_point (r ++ s) n i = nth_point s n (i + length r).
Proof.
  intros Hr. revert i. induction Hr as [|y r Hy Hr IH]; intros i; cbn [app nth_point length]; [by rewrite Nat.add_0_r|].
  rewrite Hy, IH. f_equal. lia.
Qed.
Lemma nth_point_ok cs n i : Forall one_char cs → Z.of_nat n < 2 ^ 64 - 1 →
  nth_point (concat cs) (Z.of_nat n + 1) i = (i + length (concat (take n cs)))%nat.
Proof.
  intros Hc. revert n i. induction Hc as [|c cs (x & r & -> & Hx & Hr) Hcs IH]; intros n i Hn.
  { destruct n; simpl; lia. }
  cbn [concat app nth_point]. rewrite Hx. replace (Z.of_nat n + 1 - 1) with (Z.of_nat n) by lia. rewrite size_t_id by lia. case_decide as Hd.
  - assert (n = 0%nat) as -> by lia. simpl. lia.
  - destruct n as [|n]; [lia|]. rewrite nth_point_skip by done. replace (Z.of_nat (S n)) with (Z.of_nat n + 1) by lia.
    rewrite IH by lia. cbn [take concat]. rewrite length_app. simpl. lia.
Qed.
Lemma seek_chars l d nf sf cs pos prev cnt s : Forall one_char cs → 0 ≤ prev ≤ pos → pos < 2 ^ 64 - 1 →
  ∃ prev', seek (mkCut l (Some "c"%char) d nf sf) (concat cs) pos prev cnt s = Ok (length (concat (take (Z.to_nat (pos - prev)) cs)), prev') s ∧
    (pos - prev < Z.of_nat (length cs) → prev' = pos).
Proof.
  intros Hc Hp Hpos. exists pos. split; [|done]. unfold seek. cbv zeta. cbn [c_mode].
  rewrite decide_False, decide_True by done. rewrite !size_t_id by (rewrite ?size_t_id; lia).
  unfold mret. do 2 f_equal. pose proof (nth_point_ok cs (Z.to_nat (pos - prev)) 0 Hc ltac:(lia)) as H. rewrite Z2Nat.id in H by lia. done.
Qed.

(** The parts of a line that a mode counts. *)
Definition is_part (m : ascii) (c : cstr) : Prop := if decide (m = "b"%char) then one_byte c else one_char c.

Lemma cut_line_run m rs d sf l cs s : m = "b"%char ∨ m = "c"%char → Forall (is_part m) cs → NL ∉ concat cs →
  l = concat cs ++ [NL] ∨ l = concat cs → ordered 0 rs →
  cut_line (mkCut rs (Some m) d false sf) l s = tput (pick rs 1 cs ++ [NL]) s.
Proof.
  intros Hm Hcs Hnl Hl Ho. unfold cut_line. cbv zeta.
  assert ((if decide (last l = Some NL) then take (length l - 1) l else l) = concat cs) as ->.
  { destruct Hl as [-> | ->].
    - rewrite decide_True by apply last_snoc. rewrite length_app, Nat.add_sub. apply take_app_length.
    - rewrite decide_False; [done|]. intros H. by apply last_Some_elem_of in H. }
  cbn [c_mode c_list]. rewrite decide_False by (intros [[= ->] _]; destruct Hm; done).
  rewrite <- tput_app. unfold mbind.
  rewrite (cut_ranges_run _ (Forall (is_part m))); [done|..|done|lia|done].
  - intros n cs0. apply Forall_drop.
  - intros cs0 H0. eapply Forall_impl; [exact H0|]. unfold is_part, one_byte, one_char. intros c. case_decide; [intros Hc ->; done|by intros (x & r & -> & _)].
  - intros cs0 pos prev cnt s0 Hcs0. destruct Hm as [-> | ->]; [by apply seek_bytes|by apply seek_chars].
  - intros pos prev cnt s0. destruct Hm as [-> | ->]; [|by eexists].
    unfold seek. cbv zeta. cbn [c_mode]. rewrite decide_True by done. rewrite decide_True by (simpl; unfold size_t; apply Z.mod_pos_bound; lia). by eexists.
Qed.

(** ** The text of a list *)

Definition value (ds : cstr) : Z := foldl (λ acc c, acc * 10 + digit c) 0 ds.
Definition is_num (ds : cstr) : Prop := ds ≠ [] ∧ Forall (λ c, isdigit c = true) ds.
(** A position, a range, or a range that is open at one end. *)
Inductive item := At (a : cstr) | From (a : cstr) | Upto (b : cstr) | Between (a b : cstr).
Definition show_item (it : item) : cstr :=
  match it with
  | At a => a
  | From a => a ++ lit "-"
  | Upto b => lit "-" ++ b
  | Between a b => a ++ lit "-" ++ b
  end.
Definition range_of (it : item) : Range :=
  match it with
  | At a => mkRange (value a) (value a)
  | From a => mkRange (value a) 0
  | Upto b => mkRange 1 (value b)
  | Between a b => mkRange (value a) (value b)
  end.
Definition item_ok (it : item) : Prop :=
  valid (range_of it) ∧
  match it with
  | At a | From a => is_num a
  | Upto b => is_num b ∧ value b ≠ 0
  | Between a b => is_num a ∧ is_num b ∧ value b ≠ 0
  end.
Fixpoint show_items (its : list item) : cstr :=
  match its with
  | [] => []
  | [it] => show_item it
  | it :: its => show_item it ++ ","%char :: show_items its
  end.

Lemma digits_before acc ds r : Forall (λ c, isdigit c = true) ds → (∀ c, head r = Some c → isdigit c = false) →
  digits acc (ds ++ r) = (foldl (λ acc c, acc * 10 + digit c) acc ds, length ds, r).
Proof.
  intros H Hr. revert acc. induction H as [|c ds Hc Hds IH]; intros acc; cbn [app digits foldl].
  - destruct r as [|c r]; [done|]. simpl. by rewrite (Hr c).
  - by rewrite Hc, IH.
Qed.
Lemma strtoul_num ds r : is_num ds → value ds < 2 ^ 64 → (∀ c, head r = Some c → isdigit c = false) → strtoul (ds ++ r) = (value ds, r).
Proof.
  intros [Hne Hd] Hv Hr. unfold strtoul. destruct ds as [|c ds]; [done|]. pose proof Hd as Hd'. apply Forall_cons in Hd' as [Hc _].
  destruct (isdigit_plain c Hc) as (Hsp & Hm & Hp). cbn [app skip_blanks]. rewrite Hsp. rewrite !decide_False by done.
  change (c :: ds ++ r) with ((c :: ds) ++ r). rewrite digits_before by done. cbn [length]. fold (value (c :: ds)).
  by rewrite decide_False by lia.
Qed.
Lemma starts_dash_num ds r : is_num ds → starts_dash (ds ++ r) = false.
Proof.
  intros [Hne Hd]. destruct ds as [|c ds]; [done|]. apply Forall_cons in Hd as [Hc _]. destruct (isdigit_plain c Hc) as (_ & Hm & _).
  unfold starts_dash. apply bool_decide_false. simpl. congruence.
Qed.

Lemma parse_range_item it r s : item_ok it → head r = None ∨ head r = Some ","%char →
  parse_range (show_item it ++ r) s = Ok (range_of it, r) s.
Proof.
  intros [Hv Hi] Hr. assert (∀ c, head r = Some c → isdigit c = false) as Hnd by (intros c Hc; destruct Hr as [E|E]; rewrite E in Hc; [done|]; by injection Hc as <-).
  assert (starts_dash r = false) as Hsd. { unfold starts_dash. apply bool_decide_false. destruct Hr as [-> | ->]; done. }
  assert (¬ (r ≠ [] ∧ head r ≠ Some ","%char)) as Hend. { destruct Hr as [E|E]; [by destruct r; [intros []|]|]. rewrite E. by intros []. }
  destruct Hv as (V1 & V2 & V3 & V4). unfold parse_range. destruct it as [a|a|b|a b]; cbn [show_item range_of min max] in *.
  - rewrite starts_dash_num, strtoul_num, Hsd by (done || lia). rewrite decide_False; [done|]. intros [?|[?|?]]; [lia..|done].
  - rewrite <- app_assoc, starts_dash_num by done. rewrite strtoul_num by (done || lia || by intros c [= <-]).
    change (starts_dash (lit "-" ++ r)) with true. cbv iota. change (drop 1 (lit "-" ++ r)) with (drop 0 r). rewrite drop_0.
    assert (strtoul r = (0, r)) as ->. { destruct Hr as [E|E]; (destruct r as [|c r]; [done|]); [done|]. injection E as ->. done. }
    rewrite decide_False; [done|]. intros [?|[?|?]]; [lia..|done].
  - destruct Hi as [Hb Hb0].
    change (lit "-" ++ b) with ("-"%char :: b). cbn [app]. change (starts_dash ("-"%char :: b ++ r)) with true. cbv iota.
    change (drop 1 ("-"%char :: b ++ r)) with (drop 0 (b ++ r)). rewrite drop_0, strtoul_num by (done || lia).
    change (starts_dash ("-"%char :: b ++ r)) with true. cbv iota. rewrite decide_False; [done|]. intros [?|[?|?]]; [lia..|done].
  - destruct Hi as (Ha & Hb & Hb0). rewrite <- app_assoc, starts_dash_num by done. rewrite strtoul_num by (done || lia || by intros c [= <-]).
    change (lit "-" ++ b) with ("-"%char :: b). cbn [app]. change (starts_dash ("-"%char :: b ++ r)) with true. cbv iota.
    change (drop 1 ("-"%char :: b ++ r)) with (drop 0 (b ++ r)). rewrite drop_0, strtoul_num by (done || lia).
    rewrite decide_False; [done|]. intros [?|[?|?]]; [lia..|done].
Qed.

Definition plain_char (c : ascii) : Prop := c ≠ " "%char ∧ c ≠ ","%char.
Lemma digits_plain ds : Forall (λ c, isdigit c = true) ds → Forall plain_char ds.
Proof. intros H. eapply Forall_impl; [exact H|]. intros c Hc. split; intros ->; done. Qed.
Lemma show_item_plain it : item_ok it → Forall plain_char (show_item it) ∧ show_item it ≠ [].
Proof.
  assert (Forall plain_char (lit "-")) as Hd by (repeat constructor; done).
  intros [_ Hi]. destruct it as [a|a|b|a b]; cbn [show_item].
  - destruct Hi as [? ?]. split; [by apply digits_plain|done].
  - destruct Hi as [? ?]. split; [apply Forall_app; split; [by apply digits_plain|done]|by destruct a].
  - destruct Hi as [[? ?] ?]. split; [apply Forall_app; split; [done|by apply digits_plain]|done].
  - destruct Hi as ([? ?] & [? ?] & ?). split; [|by destruct a]. rewrite !Forall_app. split_and!; try done; by apply digits_plain.
Qed.
Lemma commas_plain l : Forall plain_char l → commas l = l ∧ filter (λ c, c = ","%char) l = [].
Proof.
  induction 1 as [|c l [H1 H2] Hl [IH1 IH2]]; [done|]. unfold commas in *. cbn [map]. rewrite decide_False by done.
  rewrite filter_cons_False by done. by rewrite IH1, IH2.
Qed.
Lemma show_items_text its : Forall item_ok its →
  commas (show_items its) = show_items its ∧ length (filter (λ c, c = ","%char) (show_items its)) = (length its - 1)%nat.
Proof.
  induction 1 as [|it its Hi Hits [IH1 IH2]]; [done|]. destruct (show_item_plain it Hi) as [Hp _].
  destruct (commas_plain _ Hp) as [E1 E2]. destruct its as [|it' its]; [cbn [show_items]; by rewrite E1, E2|].
  change (show_items (it :: it' :: its)) with (show_item it ++ ","%char :: show_items (it' :: its)).
  unfold commas in *. rewrite map_app. cbn [map]. rewrite decide_False by done. rewrite E1, IH1. split; [done|].
  rewrite filter_app, E2, filter_cons_True by done. cbn [app length] in *. rewrite IH2. simpl. lia.
Qed.

Lemma parse_items_run its l s : Forall item_ok its → its ≠ [] →
  parse_items (length its) (show_items its) l s = Ok (foldl (λ l it, insert (range_of it) l) l its) s.
Proof.
  intros Hi. revert l. induction Hi as [|it its Hit Hits IH]; intros l Hne; [done|]. cbn [length parse_items foldl]. unfold mbind.
  destruct its as [|it' its].
  - cbn [show_items]. rewrite <- (app_nil_r (show_item it)), parse_range_item by (done || by left). done.
  - change (show_items (it :: it' :: its)) with (show_item it ++ ","%char :: show_items (it' :: its)).
    rewrite parse_range_item by (done || by right). change (drop 1 (","%char :: ?x)) with (drop 0 x). rewrite drop_0. by apply IH.
Qed.

(** The list that is built covers what its items name. *)
Lemma insert_items its l : Forall item_ok its → ordered 0 l →
  ordered 0 (foldl (λ l it, insert (range_of it) l) l its) ∧
  ∀ i, 1 ≤ i → covers (foldl (λ l it, insert (range_of it) l) l its) i ↔ covers l i ∨ covers (map range_of its) i.
Proof.
  intros Hi. revert l. induction Hi as [|it its Hit Hits IH]; intros l Ho; cbn [foldl map].
  - split; [done|]. intros i _. unfold covers at 3. rewrite Exists_nil. clear; tauto.
  - destruct (insert_ok (range_of it) l 0 (proj1 Hit) ltac:(destruct Hit as [(? & _) _]; lia) Ho) as [Ho' Hc].
    destruct (IH _ Ho') as [H1 H2]. split; [done|]. intros i Hi. rewrite H2, Hc by done. unfold covers at 4. rewrite Exists_cons. clear; tauto.
Qed.

(** ** The program *)

Lemma cut_lines_run m rs d sf lines s : m = "b"%char ∨ m = "c"%char → Forall (λ cs, Forall (is_part m) cs ∧ NL ∉ concat cs) lines → ordered 0 rs →
  mforeach (cut_line (mkCut rs (Some m) d false sf)) (map (λ cs, concat cs ++ [NL]) lines) s =
  tput (concat (map (λ cs, pick rs 1 cs ++ [NL]) lines)) s.
Proof.
  intros Hm Hl Ho. revert s. induction Hl as [|cs lines [Hcs Hn] Hl IH]; intros s; cbn [map concat mforeach]; [by rewrite tput_nil|].
  rewrite <- tput_app. unfold mbind. rewrite (cut_line_run m rs d sf _ cs) by (done || by left).
  destruct (tput (pick rs 1 cs ++ [NL]) s) as [[] s'| | |]; [apply IH|done..].
Qed.

(** C20: cut -b and cut -c print, of every line of standard input, the bytes or the
    characters at the positions that the list names, in the order of the line and
    each once, however the ranges of the list are ordered and overlap.  A
    character is a byte that starts one and the bytes that continue it. *)
Theorem cut_selects m argv0 its lines s : m = "b"%char ∨ m = "c"%char → its ≠ [] → Forall item_ok its →
  Forall (λ cs, Forall (is_part m) cs ∧ NL ∉ concat cs) lines →
  t_stdin s = mkFile (bytes_of (concat (map (λ cs, concat cs ++ [NL]) lines))) false →
  cut_main argv0 [["-"%char; m]; show_items its] s =
  Ok 0 (mkTio (t_files s) (mkFile [] false) (t_out s ++ concat (map (λ cs, pick (map range_of its) 1 cs ++ [NL]) lines)) (t_err s)).
Proof.
  intros Hm Hne Hits Hl Hin. destruct (insert_items its [] Hits I) as [Ho Hc].
  set (rs := foldl (λ l it, insert (range_of it) l) [] its) in *.
  assert (show_items its ≠ []) as Hsne.
  { destruct its as [|it [|it' its]]; [done| |]; apply Forall_cons in Hits as [Hi _]; destruct (show_item_plain it Hi) as [_ Hs]; [done|].
    cbn [show_items]. by destruct (show_item it). }
  assert (parselist (show_items its) [] s = Ok rs s) as Hp.
  { unfold parselist. rewrite decide_False by done. cbv zeta. destruct (show_items_text its Hits) as [-> ->].
    replace (S (length its - 1)) with (length its) by (destruct its; simpl; [done|lia]). by apply parse_items_run. }
  assert (cut_main argv0 [["-"%char; m]; show_items its] s = operands (cut (mkCut rs (Some m) [TAB] false false)) [] s) as ->.
  { unfold cut_main, argbegin. unfold mbind at 1. rewrite options_next by (intros [-> _]; by destruct Hm).
    assert (arg_letters cut_takes_arg cut_arg (cut_flag argv0) (cut_usage argv0) [m] [show_items its] (mkCut [] None [TAB] false false) s =
      Ok ([], mkCut rs (Some m) [TAB] false false) s) as Ha.
    { cbn [arg_letters]. assert (cut_takes_arg m = true) as -> by (by destruct Hm as [-> | ->]).
      unfold mbind, cut_arg. rewrite decide_False by (by destruct Hm as [-> | ->]). unfold mbind. cbn [c_list]. rewrite Hp.
      unfold mret. by rewrite decide_False by done. }
    unfold mbind at 1. rewrite Ha. done. }
  unfold operands, take_stdin. unfold mbind at 1 2 3, gets, modify, mret at 1. rewrite Hin. unfold cut at 1.
  assert (lines_of (mkFile (bytes_of (concat (map (λ cs, concat cs ++ [NL]) lines))) false) = map (λ cs, concat cs ++ [NL]) lines) as Hlo.
  { rewrite <- (map_map (@concat ascii) (λ l, l ++ [NL])). apply lines_of_joined. apply Forall_map. eapply Forall_impl; [exact Hl|]. by intros cs [_ ?]. }
  rewrite Hlo. unfold mbind. rewrite cut_lines_run by done. destruct s as [fs si o e]. cbn [t_stdin f_err] in *.
  change (set t_stdin ?g (mkTio fs si o e)) with (mkTio fs (g si) o e). cbv beta. rewrite Hin. unfold tput, modify.
  change (set t_out ?g (mkTio fs ?i o e)) with (mkTio fs i (g o) e). cbv beta. unfold mret. cbn [t_files t_out t_err f_err]. do 4 f_equal.
  apply map_ext. intros cs. f_equal. apply pick_ext. intros i Hi. rewrite Hc by done. unfold covers at 1. rewrite Exists_nil. clear; tauto.
Qed.
Definition letters : list cstr := map (λ c, [c]) (lit "abcdefg").
Lemma cut_selects_witness :
  cut_main "cut" (lits ["-b"; "4,2-3,6-"]) (mkTio ∅ (mkFile (bytes_of (lit "abcdefg" ++ [NL])) false) [] []) =
  Ok 0 (mkTio ∅ (mkFile [] false) (lit "bcdfg" ++ [NL]) []).
Proof.
  pose proof (cut_selects "b" "cut" [At "4"; Between "2" "3"; From "6"] [letters] (mkTio ∅ (mkFile (bytes_of (lit "abcdefg" ++ [NL])) false) [] [])) as H.
  etransitivity; [apply H|vm_compute; reflexivity].
  - by left.
  - done.
  - repeat constructor; done.
  - repeat constructor. intros Hin. vm_compute in Hin. repeat (apply elem_of_cons in Hin as [Hin|Hin]; [discriminate|]). by apply elem_of_nil in Hin.
  - reflexivity.
Defined.
