(* ===== verification/Uniq.v ===== *)
(** * uniq: src/cmd/posix/uniq.c

    The line that was read last is kept in a buffer with the number of lines like
    it; a line with another key prints it.  The buffer has a capacity, and
    a copy that does not fit is [Ub].  Proved: what is printed is, for every
    maximal run of lines with equal keys, its first line, with its length where
    asked for, and no copy leaves the buffer. *)

From stdpp Require Import gmap strings pretty.
From S2P Require Import Prelude CString StrList Args Stdio Strtonum Text.

Local Open Scope Z_scope.

(** ** State *)

(** The kept line with the offset of its key, if there is one; the size of
    the buffer that holds it and the length last stored in it; the number of
    lines like it. *)
Record ust := mkUst { prev : option (cstr * nat); prev_cap : nat; prev_len : nat; prevlinecount : Z }.
Definition ust0 : ust := mkUst None 0 0 0.

Record uopts := mkUo { u_count : bool; u_d : bool; u_u : bool; u_f : nat; u_s : nat }.
#[export] Instance eta_uopts : Eta uopts := λ o, mkUo (u_count o) (u_d o) (u_u o) (u_f o) (u_s o).

(** ** uniqskip *)

Definition isblank (c : ascii) : bool := bool_decide (c = " "%char ∨ c = TAB).
Fixpoint skip_while (p : ascii → bool) (s : cstr) : cstr :=
  match s with c :: r => if p c then skip_while p r else s | [] => [] end.
(** What is left behind [f] fields; the terminator of the line ends the blanks. *)
Fixpoint skip_fields (f : nat) (s : cstr) : cstr :=
  match f, s with
  | S f, _ :: _ => skip_fields f (skip_while (λ c, negb (isblank c)) (skip_while isblank s))
  | _, _ => s
  end.
Fixpoint skip_chars (n : nat) (s : cstr) : cstr :=
  match n, s with
  | S n, c :: r => if decide (c = NL) then s else skip_chars n r
  | _, _ => s
  end.
Definition uniqskip (o : uopts) (l : cstr) : nat := length l - length (skip_chars (u_s o) (skip_fields (u_f o) l)).

(** ** uniqline *)

(** ["%7ld "] *)
Definition count_text (n : Z) : cstr :=
  let d := lit (pretty n) in replicate (7 - length d) " "%char ++ d ++ lit " ".

(** What is printed for the kept line. *)
Definition flush_prev (o : uopts) (st : ust) : cstr :=
  match prev st with
  | Some (l, _) =>
      if decide ((prevlinecount st = 1 ∧ u_d o = false) ∨ (prevlinecount st ≠ 1 ∧ u_u o = false)) then
        (if u_count o then count_text (prevlinecount st) else []) ++ l
      else []
  | None => []
  end.

Section uniq.
Context (o : uopts) {S : Type} (write : cstr → M S unit).

(** The line is copied into the buffer, which is grown when it is not shorter than
    the one before. *)
Definition keep (st : ust) (l : cstr) (off : nat) : M S ust :=
  let cap := if decide (prev_cap st = 0 ∨ prev_len st ≤ length l)%nat then length l else prev_cap st in
  if decide (length l ≤ cap)%nat then mret (mkUst (Some (l, off)) cap (length l) 1) else mub.

Definition uniqline (st : ust) (l : option cstr) : M S ust :=
  match l with
  | Some l =>
      let loff := uniqskip o l in
      let same := match prev st with
                  | Some (p, poff) => bool_decide ((length l - loff = length p - poff)%nat ∧ memcmp (drop loff l) (drop poff p) (length l - loff) = Eq)
                  | None => false
                  end in
      if same then mret (mkUst (prev st) (prev_cap st) (prev_len st) (prevlinecount st + 1))
      else write (flush_prev o st) ;; keep st l loff
  | None => write (flush_prev o st) ;; mret (mkUst None (prev_cap st) (prev_len st) 1)
  end.

(** uniq and uniqfinish *)
Definition uniq (lines : list cstr) : M S unit :=
  st <- mfold (λ st l, uniqline st (Some l)) ust0 lines ;;
  uniqline st None ;; mret tt.
End uniq.

(** ** main *)

Section main.
Context (can_write : cstr → bool).

Definition uniq_usage {A} (argv0 : cstr) : M tio A :=
  eprintf (lit "usage: " ++ argv0 ++ lit " [-c] [-d | -u] [-f fields] [-s chars] [input [output]]").
Definition uniq_flag (argv0 : cstr) (c : ascii) (o : uopts) : M tio uopts :=
  if decide (c = "c"%char) then mret (set u_count (λ _, true) o)
  else if decide (c = "d"%char) then mret (set u_d (λ _, true) o)
  else if decide (c = "u"%char) then mret (set u_u (λ _, true) o)
  else uniq_usage argv0.
Definition uniq_arg (c : ascii) (a : cstr) (o : uopts) : M tio uopts :=
  n <- estrtonum a 0 INT_MAX ;;
  mret (if decide (c = "f"%char) then set u_f (λ _, Z.to_nat n) o else set u_s (λ _, Z.to_nat n) o).

(** Standard output, or a file that was opened for writing. *)
Definition write_to (name : option cstr) (x : cstr) : M tio unit :=
  match name with
  | None => tput x
  | Some name => modify (set t_files (alter (λ f, mkFile (f_bytes f ++ bytes_of x) (f_err f)) name))
  end.
Definition named (path : option cstr) : option cstr :=
  match path with Some p => if decide (p = lit "-") then None else Some p | None => None end.
Definition uniq_main (argv0 : cstr) (args : StrList) : M tio Z :=
  p <- argbegin (λ c, bool_decide (c = "f"%char ∨ c = "s"%char)) uniq_arg (uniq_flag argv0) (uniq_usage argv0) args
         (mkUo false false false 0 0) ;;
  let '(argv, o) := p in
  if decide (2 < length argv)%nat then uniq_usage argv0
  else
    let input := named (argv !! 0%nat) in
    let output := named (argv !! 1%nat) in
    (match input with
     | Some p => files <- gets t_files ;; if decide (files !! p = None) then eprintf (lit "fopen " ++ p ++ lit ":") else mret tt
     | None => mret tt
     end) ;;
    (match output with
     | Some p =>
         if can_write p then modify (set t_files <[p := mkFile [] false]>)
         else eprintf (lit "fopen " ++ p ++ lit ":")
     | None => mret tt
     end) ;;
    fp <- (match input with
           | Some p => files <- gets t_files ;; deref (files !! p)
           | None => take_stdin
           end) ;;
    uniq o (write_to output) (lines_of fp) ;;
    mret 0.
End main.

Definition run_uniq (args : list string) (input : list string) : option cstr :=
  match uniq_main (λ _, true) "uniq" (lits args) (mkTio ∅ (mkFile (bytes_of (concat (map (λ x, lit x ++ [NL]) input))) false) [] []) with
  | Ok _ s => Some (t_out s)
  | _ => None
  end.
Example uniq_c : run_uniq ["-c"; "-f1"] ["a x"; "b x"; "c y"] = Some (lit "      2 a x" ++ [NL] ++ lit "      1 c y" ++ [NL]).
Proof. vm_compute. reflexivity. Qed.
(** A line that has fewer fields than are skipped has an empty key, like a line of
    exactly that many. *)
Example uniq_f : run_uniq ["-f1"] ["a"; "b"; "c x"] = Some (lit "a" ++ [NL] ++ lit "c x" ++ [NL]).
Proof. vm_compute. reflexivity. Qed.

(** ** Runs of lines *)

Section facts.
Context (o : uopts).

(** What lines are compared by. *)
Definition key (l : cstr) : cstr := skip_chars (u_s o) (skip_fields (u_f o) l).

Lemma skip_while_suffix p s : ∃ x, s = x ++ skip_while p s.
Proof using Type. induction s as [|c s [x IH]]; simpl; [by exists []|]. destruct (p c); [|by exists []]. exists (c :: x). simpl. by rewrite <- IH. Qed.
Lemma skip_fields_suffix f s : ∃ x, s = x ++ skip_fields f s.
Proof using Type.
  revert s. induction f as [|f IH]; intros [|c s]; try by exists [].
  cbn [skip_fields]. set (s1 := skip_while isblank (c :: s)). destruct (skip_while_suffix isblank (c :: s)) as [x Hx]. fold s1 in Hx.
  destruct (skip_while_suffix (λ c, negb (isblank c)) s1) as [y Hy].
  destruct (IH (skip_while (λ c, negb (isblank c)) s1)) as [z Hz]. exists (x ++ y ++ z). rewrite <- !app_assoc, <- Hz, <- Hy. done.
Qed.
Lemma skip_chars_suffix n s : ∃ x, s = x ++ skip_chars n s.
Proof using Type.
  revert s. induction n as [|n IH]; intros [|c s]; try by exists []. cbn [skip_chars]. case_decide; [by exists []|].
  destruct (IH s) as [x Hx]. exists (c :: x). simpl. by rewrite <- Hx.
Qed.
Lemma key_drop l : drop (uniqskip o l) l = key l ∧ (length l - uniqskip o l = length (key l))%nat.
Proof using Type.
  destruct (skip_fields_suffix (u_f o) l) as [x Hx]. destruct (skip_chars_suffix (u_s o) (skip_fields (u_f o) l)) as [y Hy].
  assert (l = (x ++ y) ++ key l) as E by (rewrite <- app_assoc; unfold key; by rewrite <- Hy).
  pose proof (f_equal length E) as Hl. rewrite length_app in Hl.
  assert (uniqskip o l = length (x ++ y)) as -> by (unfold uniqskip; fold (key l); lia).
  split; [|lia]. rewrite E at 1. apply drop_app_length.
Qed.
Lemma memcmp_equal a b : length a = length b → memcmp a b (length a) = Eq ↔ a = b.
Proof using Type.
  intros Hl. pose proof (memcmp_strcmp a b) as H. rewrite <- Hl, Nat.min_id in H. rewrite <- strcmp_eq.
  destruct (memcmp a b (length a)); [|by rewrite H..]. rewrite H, Hl, Z.compare_refl. done.
Qed.

(** Runs of equal keys, of which neighbours differ. *)
Fixpoint grouped (runs : list (list cstr)) : Prop :=
  match runs with
  | [] => True
  | run :: runs =>
      run ≠ [] ∧ (∀ x y, x ∈ run → y ∈ run → key x = key y) ∧
      match runs with next :: _ => ∀ x y, x ∈ run → y ∈ next → key x ≠ key y | [] => True end ∧ grouped runs
  end.
(** What is printed for a run. *)
Definition show_run (run : list cstr) : cstr :=
  let n := Z.of_nat (length run) in
  if decide ((n = 1 ∧ u_d o = false) ∨ (n ≠ 1 ∧ u_u o = false)) then
    (if u_count o then count_text n else []) ++ default [] (head run)
  else [].

(** The state in the middle of a run. *)
Definition in_run (st : ust) (run : list cstr) : Prop :=
  (∀ x y, x ∈ run → y ∈ run → key x = key y) ∧
  (∃ l rest, run = l :: rest ∧ prev st = Some (l, uniqskip o l) ∧ prev_len st = length l) ∧
  prevlinecount st = Z.of_nat (length run) ∧ (prev_len st ≤ prev_cap st)%nat.

Lemma flush_run st run : in_run st run → flush_prev o st = show_run run.
Proof using Type.
  intros (_ & (l & rest & -> & Hp & _) & Hn & _). unfold flush_prev, show_run. rewrite Hp, Hn. done.
Qed.
Lemma keep_run {S} st l : (prev_len st ≤ prev_cap st)%nat → ∃ st', (∀ s : S, keep st l (uniqskip o l) s = Ok st' s) ∧ in_run st' [l].
Proof using Type.
  intros Hc. unfold keep. cbv zeta. set (cap := if decide _ then length l else prev_cap st).
  assert (length l ≤ cap)%nat by (unfold cap; case_decide; lia). rewrite decide_True by done. eexists. split; [done|].
  split_and!; simpl; try done; [by intros x y ->%list_elem_of_singleton ->%list_elem_of_singleton|]. by exists l, [].
Qed.

Lemma tput_then x y (m : M tio unit) s : (∀ s, m s = tput y s) → (tput x ;; m) s = tput (x ++ y) s.
Proof using Type.
  intros H. unfold mbind, tput, modify in *. destruct s as [f i out e]. rewrite H.
  do 2 (change (set t_out ?g (mkTio f i ?z e)) with (mkTio f i (g z) e); cbv beta). by rewrite app_assoc.
Qed.

Lemma uniq_from lines : ∀ st run, in_run st run → ∃ runs, concat runs = run ++ lines ∧ grouped runs ∧ ∀ s,
  (st <- mfold (λ st l, uniqline o tput st (Some l)) st lines ;; uniqline o tput st None ;; mret tt) s = tput (concat (map show_run runs)) s.
Proof using Type.
  induction lines as [|l lines IH]; intros st run Hr.
  { exists [run]. rewrite app_nil_r. split; [by cbn; rewrite app_nil_r|]. pose proof Hr as (Hk & (l & rest & -> & _) & _).
    split; [by split_and!|]. intros s. cbn [map concat]. rewrite app_nil_r, <- (flush_run st (l :: rest) Hr). done. }
  pose proof Hr as (Hk & (p & rest & Hrun & Hp & Hpl) & Hn & Hc). 
  assert ((match prev st with
    | Some (p, poff) => bool_decide ((length l - uniqskip o l = length p - poff)%nat ∧ memcmp (drop (uniqskip o l) l) (drop poff p) (length l - uniqskip o l) = Eq)
    | None => false end) = bool_decide (key l = key p)) as Hsame.
  { rewrite Hp. apply bool_decide_ext. destruct (key_drop l) as [-> ->], (key_drop p) as [-> ->]. split.
    - intros [Hl He]. by apply memcmp_equal in He.
    - intros E. rewrite <- E. split; [done|]. by apply memcmp_equal. }
  destruct (decide (key l = key p)) as [E|E].
  - destruct (IH (mkUst (prev st) (prev_cap st) (prev_len st) (prevlinecount st + 1)) (run ++ [l])) as (runs & H1 & H2 & H3).
    { split_and!; simpl; try done.
      - assert (∀ z, z ∈ run ++ [l] → key z = key p) as Hz.
        { intros z [Hz| ->%list_elem_of_singleton]%elem_of_app; [|done]. apply Hk; [done|]. rewrite Hrun. set_solver. }
        intros x y Hx Hy. by rewrite (Hz x Hx), (Hz y Hy).
      - exists p, (rest ++ [l]). split_and!; try done. by rewrite Hrun.
      - rewrite length_app. simpl. lia. }
    exists runs. rewrite H1, <- app_assoc. split_and!; [done..|]. intros s. rewrite <- H3.
    cbn [mfold]. unfold mbind at 1 2. unfold uniqline at 1. cbv zeta. rewrite Hsame, bool_decide_true by done. done.
  - destruct (keep_run (S := tio) st l Hc) as (st' & Hkeep & Hr').
    destruct (IH st' [l] Hr') as (runs & H1 & H2 & H3). exists (run :: runs). split; [cbn [concat]; by rewrite H1|]. split.
    + split_and!; try done; [by rewrite Hrun|]. destruct runs as [|next runs]; [done|]. cbn [concat] in H1.
      destruct H2 as (Hne & Hkn & _). destruct next as [|x next]; [done|]. injection H1 as -> _.
      intros y z Hy Hz Hyz. apply E. rewrite (Hkn l z) by set_solver. rewrite <- Hyz. apply Hk; [done|]. rewrite Hrun. set_solver.
    + intros s. cbn [map concat]. rewrite <- (flush_run st run Hr). rewrite <- (tput_then _ _ _ s H3).
      cbn [mfold]. unfold mbind. unfold uniqline at 1. cbv zeta. rewrite Hsame, bool_decide_false by done. unfold mbind.
      destruct (tput (flush_prev o st) s) as [[] s'| | |]; try done. by rewrite Hkeep.
Qed.

(** uniq cuts its input into maximal runs of adjacent lines with the same key,
    which is what is left of a line behind the fields and characters to skip, and
    prints the first line of each run that is asked for: all, those of one
    line (-u), or those of several (-d), with the length of the run (-c).  No
    line is copied beyond the buffer it is kept in. *)
Theorem uniq_runs lines s : ∃ runs, concat runs = lines ∧ grouped runs ∧
  uniq o tput lines s = Ok tt (mkTio (t_files s) (t_stdin s) (t_out s ++ concat (map show_run runs)) (t_err s)).
Proof using Type.
  assert (∃ runs, concat runs = lines ∧ grouped runs ∧ uniq o tput lines s = tput (concat (map show_run runs)) s) as (runs & H1 & H2 & H3).
  { destruct lines as [|l lines]; [by exists []|]. destruct (keep_run (S := tio) ust0 l) as (st' & Hkeep & Hr'); [done|].
    destruct (uniq_from lines st' [l] Hr') as (runs & H1 & H2 & H3). exists runs. split_and!; [done..|]. rewrite <- H3.
    unfold uniq. cbn [mfold]. unfold mbind. unfold uniqline at 1. cbv zeta. cbn [prev ust0]. unfold mbind.
    assert (tput (flush_prev o ust0) s = Ok tt s) as ->; [|by rewrite Hkeep].
    unfold tput, modify, flush_prev. destruct s as [fs si ou er]. cbn [prev ust0]. change (set t_out ?g (mkTio ?a ?b ?c ?d)) with (mkTio a b (g c) d). cbv beta. by rewrite app_nil_r. }
  exists runs. split_and!; [done..|]. by rewrite H3.
Qed.
End facts.
