(* ===== verification/RuneType.v ===== *)
(** * Classes and cases of runes: src/shared/libutf (runetype.c, isalpharune.c,
    isdigitrune.c, lowerrune.c, upperrune.c and the other class files)

    The tables are those of the source: ranges, single runes, and ranges
    of which every other rune belongs to the class, with the rune it is mapped to
    where there is one.  They are searched with [bsearch], modelled as the usual
    halving of an interval.  Proved: a rune is in a class
    exactly when the tables list it, and upper and lower case are consistent. *)

From S2P Require Import Prelude.

Local Open Scope Z_scope.

(** ** bsearch and its comparisons *)

Definition rune1cmp (r : Z) (lo : Z) : Z := r - lo.
Definition rune2cmp (r : Z) (p : Z * Z) : Z := if decide (p.1 ≤ r ≤ p.2) then 0 else r - p.1.

Fixpoint bsearch_loop {A} (fuel : nat) (cmp : A → Z) (t : list A) (l u : nat) : option A :=
  match fuel with
  | O => None
  | S fuel =>
      if decide (l < u)%nat then
        let i := ((l + u) / 2)%nat in
        e ← t !! i;
        let c := cmp e in
        if decide (c < 0) then bsearch_loop fuel cmp t l i
        else if decide (0 < c) then bsearch_loop fuel cmp t (S i) u
        else Some e
      else None
  end.
Definition bsearch {A} (cmp : A → Z) (t : list A) : option A := bsearch_loop (S (length t)) cmp t 0 (length t).

(** ** The tables *)


Definition alpha3 : list (Z * Z) := [
  (0x00D6, 0x00D8); (0x00F6, 0x00F8); (0x02EC, 0x02EE); (0x0374, 0x0376); (0x037D, 0x037F); (0x0386, 0x0388);
  (0x038A, 0x038E); (0x03A1, 0x03A3); (0x03F5, 0x03F7); (0x052F, 0x0531); (0x066F, 0x0671); (0x06D3, 0x06D5);
  (0x0710, 0x0712); (0x0887, 0x0889); (0x09A8, 0x09AA); (0x09B0, 0x09B2); (0x09DD, 0x09DF); (0x0A28, 0x0A2A);
  (0x0A30, 0x0A32); (0x0A33, 0x0A35); (0x0A36, 0x0A38); (0x0A5C, 0x0A5E); (0x0A8D, 0x0A8F); (0x0A91, 0x0A93);
  (0x0AA8, 0x0AAA); (0x0AB0, 0x0AB2); (0x0AB3, 0x0AB5); (0x0B28, 0x0B2A); (0x0B30, 0x0B32); (0x0B33, 0x0B35);
  (0x0B5D, 0x0B5F); (0x0B83, 0x0B85); (0x0B90, 0x0B92); (0x0B9A, 0x0B9E); (0x0C0C, 0x0C0E); (0x0C10, 0x0C12);
  (0x0C28, 0x0C2A); (0x0C8C, 0x0C8E); (0x0C90, 0x0C92); (0x0CA8, 0x0CAA); (0x0CB3, 0x0CB5); (0x0CDE, 0x0CE0);
  (0x0D0C, 0x0D0E); (0x0D10, 0x0D12); (0x0DB1, 0x0DB3); (0x0DBB, 0x0DBD); (0x0E30, 0x0E32); (0x0E82, 0x0E86);
  (0x0E8A, 0x0E8C); (0x0EA3, 0x0EA7); (0x0EB0, 0x0EB2); (0x0EC4, 0x0EC6); (0x0F47, 0x0F49); (0x10C5, 0x10C7);
  (0x10FA, 0x10FC); (0x1248, 0x124A); (0x1256, 0x125A); (0x1288, 0x128A); (0x12B0, 0x12B2); (0x12BE, 0x12C2);
  (0x12D6, 0x12D8); (0x1310, 0x1312); (0x167F, 0x1681); (0x176C, 0x176E); (0x18A8, 0x18AA); (0x1CEC, 0x1CEE);
  (0x1CF3, 0x1CF5); (0x1F57, 0x1F5F); (0x1FB4, 0x1FB6); (0x1FBC, 0x1FBE); (0x1FC4, 0x1FC6); (0x1FF4, 0x1FF6);
  (0x2113, 0x2115); (0x2124, 0x212A); (0x212D, 0x212F); (0x2D25, 0x2D27); (0x2DA6, 0x2DA8); (0x2DAE, 0x2DB0);
  (0x2DB6, 0x2DB8); (0x2DBE, 0x2DC0); (0x2DC6, 0x2DC8); (0x2DCE, 0x2DD0); (0x2DD6, 0x2DD8); (0x309F, 0x30A1);
  (0x30FA, 0x30FC); (0x312F, 0x3131); (0xA7D1, 0xA7D5); (0xA801, 0xA803); (0xA805, 0xA807); (0xA80A, 0xA80C);
  (0xA8FB, 0xA8FD); (0xA9E4, 0xA9E6); (0xA9FE, 0xAA00); (0xAA42, 0xAA44); (0xAAAF, 0xAAB1); (0xAAC0, 0xAAC2);
  (0xAB26, 0xAB28); (0xAB2E, 0xAB30); (0xAB5A, 0xAB5C); (0xFB1D, 0xFB1F); (0xFB28, 0xFB2A); (0xFB36, 0xFB38);
  (0xFB3C, 0xFB40); (0xFB41, 0xFB43); (0xFB44, 0xFB46); (0xFE74, 0xFE76); (0x1000B, 0x1000D); (0x10026, 0x10028);
  (0x1003A, 0x1003C); (0x1003D, 0x1003F); (0x10340, 0x10342); (0x1057A, 0x1057C); (0x1058A, 0x1058C); (0x10592, 0x10594);
  (0x10595, 0x10597); (0x105A1, 0x105A3); (0x105B1, 0x105B3); (0x105B9, 0x105BB); (0x10785, 0x10787); (0x107B0, 0x107B2);
  (0x10808, 0x1080A); (0x10835, 0x10837); (0x108F2, 0x108F4); (0x10A13, 0x10A15); (0x10A17, 0x10A19); (0x10AC7, 0x10AC9);
  (0x111DA, 0x111DC); (0x11211, 0x11213); (0x11286, 0x1128A); (0x1128D, 0x1128F); (0x1129D, 0x1129F); (0x11328, 0x1132A);
  (0x11330, 0x11332); (0x11333, 0x11335); (0x114C5, 0x114C7); (0x11913, 0x11915); (0x11916, 0x11918); (0x1193F, 0x11941);
  (0x119E1, 0x119E3); (0x11C08, 0x11C0A); (0x11D06, 0x11D08); (0x11D09, 0x11D0B); (0x11D65, 0x11D67); (0x11D68, 0x11D6A);
  (0x11F02, 0x11F04); (0x11F10, 0x11F12); (0x16FE1, 0x16FE3); (0x1AFF3, 0x1AFF5); (0x1AFFB, 0x1AFFD); (0x1AFFE, 0x1B000);
  (0x1D454, 0x1D456); (0x1D49C, 0x1D49E); (0x1D4AC, 0x1D4AE); (0x1D4B9, 0x1D4BD); (0x1D4C3, 0x1D4C5); (0x1D505, 0x1D507);
  (0x1D514, 0x1D516); (0x1D51C, 0x1D51E); (0x1D539, 0x1D53B); (0x1D53E, 0x1D540); (0x1D544, 0x1D546); (0x1D550, 0x1D552);
  (0x1D6C0, 0x1D6C2); (0x1D6DA, 0x1D6DC); (0x1D6FA, 0x1D6FC); (0x1D714, 0x1D716); (0x1D734, 0x1D736); (0x1D74E, 0x1D750);
  (0x1D76E, 0x1D770); (0x1D788, 0x1D78A); (0x1D7A8, 0x1D7AA); (0x1D7C2, 0x1D7C4); (0x1E7E6, 0x1E7E8); (0x1E7EB, 0x1E7ED);
  (0x1E7EE, 0x1E7F0); (0x1E7FE, 0x1E800); (0x1EE03, 0x1EE05); (0x1EE1F, 0x1EE21); (0x1EE22, 0x1EE24); (0x1EE27, 0x1EE29);
  (0x1EE32, 0x1EE34); (0x1EE37, 0x1EE3B); (0x1EE47, 0x1EE4D); (0x1EE4F, 0x1EE51); (0x1EE52, 0x1EE54); (0x1EE57, 0x1EE61);
  (0x1EE62, 0x1EE64); (0x1EE6A, 0x1EE6C); (0x1EE72, 0x1EE74); (0x1EE77, 0x1EE79); (0x1EE7C, 0x1EE80); (0x1EE89, 0x1EE8B);
  (0x1EEA3, 0x1EEA5); (0x1EEA9, 0x1EEAB)
].

Definition alpha2 : list (Z * Z) := [
  (0x0041, 0x005A); (0x0061, 0x007A); (0x00C0, 0x00D6); (0x00D8, 0x00F6); (0x00F8, 0x02C1); (0x02C6, 0x02D1);
  (0x02E0, 0x02E4); (0x0370, 0x0374); (0x0376, 0x0377); (0x037A, 0x037D); (0x0388, 0x038A); (0x038E, 0x03A1);
  (0x03A3, 0x03F5); (0x03F7, 0x0481); (0x048A, 0x052F); (0x0531, 0x0556); (0x0560, 0x0588); (0x05D0, 0x05EA);
  (0x05EF, 0x05F2); (0x0620, 0x064A); (0x066E, 0x066F); (0x0671, 0x06D3); (0x06E5, 0x06E6); (0x06EE, 0x06EF);
  (0x06FA, 0x06FC); (0x0712, 0x072F); (0x074D, 0x07A5); (0x07CA, 0x07EA); (0x07F4, 0x07F5); (0x0800, 0x0815);
  (0x0840, 0x0858); (0x0860, 0x086A); (0x0870, 0x0887); (0x0889, 0x088E); (0x08A0, 0x08C9); (0x0904, 0x0939);
  (0x0958, 0x0961); (0x0971, 0x0980); (0x0985, 0x098C); (0x098F, 0x0990); (0x0993, 0x09A8); (0x09AA, 0x09B0);
  (0x09B6, 0x09B9); (0x09DC, 0x09DD); (0x09DF, 0x09E1); (0x09F0, 0x09F1); (0x0A05, 0x0A0A); (0x0A0F, 0x0A10);
  (0x0A13, 0x0A28); (0x0A2A, 0x0A30); (0x0A32, 0x0A33); (0x0A35, 0x0A36); (0x0A38, 0x0A39); (0x0A59, 0x0A5C);
  (0x0A72, 0x0A74); (0x0A85, 0x0A8D); (0x0A8F, 0x0A91); (0x0A93, 0x0AA8); (0x0AAA, 0x0AB0); (0x0AB2, 0x0AB3);
  (0x0AB5, 0x0AB9); (0x0AE0, 0x0AE1); (0x0B05, 0x0B0C); (0x0B0F, 0x0B10); (0x0B13, 0x0B28); (0x0B2A, 0x0B30);
  (0x0B32, 0x0B33); (0x0B35, 0x0B39); (0x0B5C, 0x0B5D); (0x0B5F, 0x0B61); (0x0B85, 0x0B8A); (0x0B8E, 0x0B90);
  (0x0B92, 0x0B95); (0x0B99, 0x0B9A); (0x0B9E, 0x0B9F); (0x0BA3, 0x0BA4); (0x0BA8, 0x0BAA); (0x0BAE, 0x0BB9);
  (0x0C05, 0x0C0C); (0x0C0E, 0x0C10); (0x0C12, 0x0C28); (0x0C2A, 0x0C39); (0x0C58, 0x0C5A); (0x0C60, 0x0C61);
  (0x0C85, 0x0C8C); (0x0C8E, 0x0C90); (0x0C92, 0x0CA8); (0x0CAA, 0x0CB3); (0x0CB5, 0x0CB9); (0x0CDD, 0x0CDE);
  (0x0CE0, 0x0CE1); (0x0CF1, 0x0CF2); (0x0D04, 0x0D0C); (0x0D0E, 0x0D10); (0x0D12, 0x0D3A); (0x0D54, 0x0D56);
  (0x0D5F, 0x0D61); (0x0D7A, 0x0D7F); (0x0D85, 0x0D96); (0x0D9A, 0x0DB1); (0x0DB3, 0x0DBB); (0x0DC0, 0x0DC6);
  (0x0E01, 0x0E30); (0x0E32, 0x0E33); (0x0E40, 0x0E46); (0x0E81, 0x0E82); (0x0E86, 0x0E8A); (0x0E8C, 0x0EA3);
  (0x0EA7, 0x0EB0); (0x0EB2, 0x0EB3); (0x0EC0, 0x0EC4); (0x0EDC, 0x0EDF); (0x0F40, 0x0F47); (0x0F49, 0x0F6C);
  (0x0F88, 0x0F8C); (0x1000, 0x102A); (0x1050, 0x1055); (0x105A, 0x105D); (0x1065, 0x1066); (0x106E, 0x1070);
  (0x1075, 0x1081); (0x10A0, 0x10C5); (0x10D0, 0x10FA); (0x10FC, 0x1248); (0x124A, 0x124D); (0x1250, 0x1256);
  (0x125A, 0x125D); (0x1260, 0x1288); (0x128A, 0x128D); (0x1290, 0x12B0); (0x12B2, 0x12B5); (0x12B8, 0x12BE);
  (0x12C2, 0x12C5); (0x12C8, 0x12D6); (0x12D8, 0x1310); (0x1312, 0x1315); (0x1318, 0x135A); (0x1380, 0x138F);
  (0x13A0, 0x13F5); (0x13F8, 0x13FD); (0x1401, 0x166C); (0x166F, 0x167F); (0x1681, 0x169A); (0x16A0, 0x16EA);
  (0x16F1, 0x16F8); (0x1700, 0x1711); (0x171F, 0x1731); (0x1740, 0x1751); (0x1760, 0x176C); (0x176E, 0x1770);
  (0x1780, 0x17B3); (0x1820, 0x1878); (0x1880, 0x1884); (0x1887, 0x18A8); (0x18B0, 0x18F5); (0x1900, 0x191E);
  (0x1950, 0x196D); (0x1970, 0x1974); (0x1980, 0x19AB); (0x19B0, 0x19C9); (0x1A00, 0x1A16); (0x1A20, 0x1A54);
  (0x1B05, 0x1B33); (0x1B45, 0x1B4C); (0x1B83, 0x1BA0); (0x1BAE, 0x1BAF); (0x1BBA, 0x1BE5); (0x1C00, 0x1C23);
  (0x1C4D, 0x1C4F); (0x1C5A, 0x1C7D); (0x1C80, 0x1C88); (0x1C90, 0x1CBA); (0x1CBD, 0x1CBF); (0x1CE9, 0x1CEC);
  (0x1CEE, 0x1CF3); (0x1CF5, 0x1CF6); (0x1D00, 0x1DBF); (0x1E00, 0x1F15); (0x1F18, 0x1F1D); (0x1F20, 0x1F45);
  (0x1F48, 0x1F4D); (0x1F50, 0x1F57); (0x1F5F, 0x1F7D); (0x1F80, 0x1FB4); (0x1FB6, 0x1FBC); (0x1FC2, 0x1FC4);
  (0x1FC6, 0x1FCC); (0x1FD0, 0x1FD3); (0x1FD6, 0x1FDB); (0x1FE0, 0x1FEC); (0x1FF2, 0x1FF4); (0x1FF6, 0x1FFC);
  (0x2090, 0x209C); (0x210A, 0x2113); (0x2119, 0x211D); (0x212A, 0x212D); (0x212F, 0x2139); (0x213C, 0x213F);
  (0x2145, 0x2149); (0x2183, 0x2184); (0x2C00, 0x2CE4); (0x2CEB, 0x2CEE); (0x2CF2, 0x2CF3); (0x2D00, 0x2D25);
  (0x2D30, 0x2D67); (0x2D80, 0x2D96); (0x2DA0, 0x2DA6); (0x2DA8, 0x2DAE); (0x2DB0, 0x2DB6); (0x2DB8, 0x2DBE);
  (0x2DC0, 0x2DC6); (0x2DC8, 0x2DCE); (0x2DD0, 0x2DD6); (0x2DD8, 0x2DDE); (0x3005, 0x3006); (0x3031, 0x3035);
  (0x303B, 0x303C); (0x3041, 0x3096); (0x309D, 0x309F); (0x30A1, 0x30FA); (0x30FC, 0x30FF); (0x3105, 0x312F);
  (0x3131, 0x318E); (0x31A0, 0x31BF); (0x31F0, 0x31FF); (0x9FFF, 0xA48C); (0xA4D0, 0xA4FD); (0xA500, 0xA60C);
  (0xA610, 0xA61F); (0xA62A, 0xA62B); (0xA640, 0xA66E); (0xA67F, 0xA69D); (0xA6A0, 0xA6E5); (0xA717, 0xA71F);
  (0xA722, 0xA788); (0xA78B, 0xA7CA); (0xA7D0, 0xA7D1); (0xA7D5, 0xA7D9); (0xA7F2, 0xA801); (0xA803, 0xA805);
  (0xA807, 0xA80A); (0xA80C, 0xA822); (0xA840, 0xA873); (0xA882, 0xA8B3); (0xA8F2, 0xA8F7); (0xA8FD, 0xA8FE);
  (0xA90A, 0xA925); (0xA930, 0xA946); (0xA960, 0xA97C); (0xA984, 0xA9B2); (0xA9E0, 0xA9E4); (0xA9E6, 0xA9EF);
  (0xA9FA, 0xA9FE); (0xAA00, 0xAA28); (0xAA40, 0xAA42); (0xAA44, 0xAA4B); (0xAA60, 0xAA76); (0xAA7E, 0xAAAF);
  (0xAAB5, 0xAAB6); (0xAAB9, 0xAABD); (0xAADB, 0xAADD); (0xAAE0, 0xAAEA); (0xAAF2, 0xAAF4); (0xAB01, 0xAB06);
  (0xAB09, 0xAB0E); (0xAB11, 0xAB16); (0xAB20, 0xAB26); (0xAB28, 0xAB2E); (0xAB30, 0xAB5A); (0xAB5C, 0xAB69);
  (0xAB70, 0xABE2); (0xD7B0, 0xD7C6); (0xD7CB, 0xD7FB); (0xF900, 0xFA6D); (0xFA70, 0xFAD9); (0xFB00, 0xFB06);
  (0xFB13, 0xFB17); (0xFB1F, 0xFB28); (0xFB2A, 0xFB36); (0xFB38, 0xFB3C); (0xFB40, 0xFB41); (0xFB43, 0xFB44);
  (0xFB46, 0xFBB1); (0xFBD3, 0xFD3D); (0xFD50, 0xFD8F); (0xFD92, 0xFDC7); (0xFDF0, 0xFDFB); (0xFE70, 0xFE74);
  (0xFE76, 0xFEFC); (0xFF21, 0xFF3A); (0xFF41, 0xFF5A); (0xFF66, 0xFFBE); (0xFFC2, 0xFFC7); (0xFFCA, 0xFFCF);
  (0xFFD2, 0xFFD7); (0xFFDA, 0xFFDC); (0x10000, 0x1000B); (0x1000D, 0x10026); (0x10028, 0x1003A); (0x1003C, 0x1003D);
  (0x1003F, 0x1004D); (0x10050, 0x1005D); (0x10080, 0x100FA); (0x10280, 0x1029C); (0x102A0, 0x102D0); (0x10300, 0x1031F);
  (0x1032D, 0x10340); (0x10342, 0x10349); (0x10350, 0x10375); (0x10380, 0x1039D); (0x103A0, 0x103C3); (0x103C8, 0x103CF);
  (0x10400, 0x1049D); (0x104B0, 0x104D3); (0x104D8, 0x104FB); (0x10500, 0x10527); (0x10530, 0x10563); (0x10570, 0x1057A);
  (0x1057C, 0x1058A); (0x1058C, 0x10592); (0x10594, 0x10595); (0x10597, 0x105A1); (0x105A3, 0x105B1); (0x105B3, 0x105B9);
  (0x105BB, 0x105BC); (0x10600, 0x10736); (0x10740, 0x10755); (0x10760, 0x10767); (0x10780, 0x10785); (0x10787, 0x107B0);
  (0x107B2, 0x107BA); (0x10800, 0x10805); (0x1080A, 0x10835); (0x10837, 0x10838); (0x1083F, 0x10855); (0x10860, 0x10876);
  (0x10880, 0x1089E); (0x108E0, 0x108F2); (0x108F4, 0x108F5); (0x10900, 0x10915); (0x10920, 0x10939); (0x10980, 0x109B7);
  (0x109BE, 0x109BF); (0x10A10, 0x10A13); (0x10A15, 0x10A17); (0x10A19, 0x10A35); (0x10A60, 0x10A7C); (0x10A80, 0x10A9C);
  (0x10AC0, 0x10AC7); (0x10AC9, 0x10AE4); (0x10B00, 0x10B35); (0x10B40, 0x10B55); (0x10B60, 0x10B72); (0x10B80, 0x10B91);
  (0x10C00, 0x10C48); (0x10C80, 0x10CB2); (0x10CC0, 0x10CF2); (0x10D00, 0x10D23); (0x10E80, 0x10EA9); (0x10EB0, 0x10EB1);
  (0x10F00, 0x10F1C); (0x10F30, 0x10F45); (0x10F70, 0x10F81); (0x10FB0, 0x10FC4); (0x10FE0, 0x10FF6); (0x11003, 0x11037);
  (0x11071, 0x11072); (0x11083, 0x110AF); (0x110D0, 0x110E8); (0x11103, 0x11126); (0x11150, 0x11172); (0x11183, 0x111B2);
  (0x111C1, 0x111C4); (0x11200, 0x11211); (0x11213, 0x1122B); (0x1123F, 0x11240); (0x11280, 0x11286); (0x1128A, 0x1128D);
  (0x1128F, 0x1129D); (0x1129F, 0x112A8); (0x112B0, 0x112DE); (0x11305, 0x1130C); (0x1130F, 0x11310); (0x11313, 0x11328);
  (0x1132A, 0x11330); (0x11332, 0x11333); (0x11335, 0x11339); (0x1135D, 0x11361); (0x11400, 0x11434); (0x11447, 0x1144A);
  (0x1145F, 0x11461); (0x11480, 0x114AF); (0x114C4, 0x114C5); (0x11580, 0x115AE); (0x115D8, 0x115DB); (0x11600, 0x1162F);
  (0x11680, 0x116AA); (0x11700, 0x1171A); (0x11740, 0x11746); (0x11800, 0x1182B); (0x118A0, 0x118DF); (0x118FF, 0x11906);
  (0x1190C, 0x11913); (0x11915, 0x11916); (0x11918, 0x1192F); (0x119A0, 0x119A7); (0x119AA, 0x119D0); (0x11A0B, 0x11A32);
  (0x11A5C, 0x11A89); (0x11AB0, 0x11AF8); (0x11C00, 0x11C08); (0x11C0A, 0x11C2E); (0x11C72, 0x11C8F); (0x11D00, 0x11D06);
  (0x11D08, 0x11D09); (0x11D0B, 0x11D30); (0x11D60, 0x11D65); (0x11D67, 0x11D68); (0x11D6A, 0x11D89); (0x11EE0, 0x11EF2);
  (0x11F04, 0x11F10); (0x11F12, 0x11F33); (0x12000, 0x12399); (0x12480, 0x12543); (0x12F90, 0x12FF0); (0x13000, 0x1342F);
  (0x13441, 0x13446); (0x14400, 0x14646); (0x16800, 0x16A38); (0x16A40, 0x16A5E); (0x16A70, 0x16ABE); (0x16AD0, 0x16AED);
  (0x16B00, 0x16B2F); (0x16B40, 0x16B43); (0x16B63, 0x16B77); (0x16B7D, 0x16B8F); (0x16E40, 0x16E7F); (0x16F00, 0x16F4A);
  (0x16F93, 0x16F9F); (0x16FE0, 0x16FE1); (0x18800, 0x18CD5); (0x1AFF0, 0x1AFF3); (0x1AFF5, 0x1AFFB); (0x1AFFD, 0x1AFFE);
  (0x1B000, 0x1B122); (0x1B150, 0x1B152); (0x1B164, 0x1B167); (0x1B170, 0x1B2FB); (0x1BC00, 0x1BC6A); (0x1BC70, 0x1BC7C);
  (0x1BC80, 0x1BC88); (0x1BC90, 0x1BC99); (0x1D400, 0x1D454); (0x1D456, 0x1D49C); (0x1D49E, 0x1D49F); (0x1D4A5, 0x1D4A6);
  (0x1D4A9, 0x1D4AC); (0x1D4AE, 0x1D4B9); (0x1D4BD, 0x1D4C3); (0x1D4C5, 0x1D505); (0x1D507, 0x1D50A); (0x1D50D, 0x1D514);
  (0x1D516, 0x1D51C); (0x1D51E, 0x1D539); (0x1D53B, 0x1D53E); (0x1D540, 0x1D544); (0x1D54A, 0x1D550); (0x1D552, 0x1D6A5);
  (0x1D6A8, 0x1D6C0); (0x1D6C2, 0x1D6DA); (0x1D6DC, 0x1D6FA); (0x1D6FC, 0x1D714); (0x1D716, 0x1D734); (0x1D736, 0x1D74E);
  (0x1D750, 0x1D76E); (0x1D770, 0x1D788); (0x1D78A, 0x1D7A8); (0x1D7AA, 0x1D7C2); (0x1D7C4, 0x1D7CB); (0x1DF00, 0x1DF1E);
  (0x1DF25, 0x1DF2A); (0x1E030, 0x1E06D); (0x1E100, 0x1E12C); (0x1E137, 0x1E13D); (0x1E290, 0x1E2AD); (0x1E2C0, 0x1E2EB);
  (0x1E4D0, 0x1E4EB); (0x1E7E0, 0x1E7E6); (0x1E7E8, 0x1E7EB); (0x1E7ED, 0x1E7EE); (0x1E7F0, 0x1E7FE); (0x1E800, 0x1E8C4);
  (0x1E900, 0x1E943); (0x1EE00, 0x1EE03); (0x1EE05, 0x1EE1F); (0x1EE21, 0x1EE22); (0x1EE29, 0x1EE32); (0x1EE34, 0x1EE37);
  (0x1EE4D, 0x1EE4F); (0x1EE51, 0x1EE52); (0x1EE61, 0x1EE62); (0x1EE67, 0x1EE6A); (0x1EE6C, 0x1EE72); (0x1EE74, 0x1EE77);
  (0x1EE79, 0x1EE7C); (0x1EE80, 0x1EE89); (0x1EE8B, 0x1EE9B); (0x1EEA1, 0x1EEA3); (0x1EEA5, 0x1EEA9); (0x1EEAB, 0x1EEBB);
  (0x2F800, 0x2FA1D)
].

Definition alpha1 : list Z := [
  0x00AA; 0x00B5; 0x00BA; 0x0559; 0x06FF; 0x07B1; 0x07FA; 0x081A; 0x0824; 0x0828;
  0x093D; 0x0950; 0x09BD; 0x09CE; 0x09FC; 0x0ABD; 0x0AD0; 0x0AF9; 0x0B3D; 0x0B71;
  0x0BD0; 0x0C3D; 0x0C5D; 0x0C80; 0x0CBD; 0x0D3D; 0x0D4E; 0x0EBD; 0x0F00; 0x103F;
  0x1061; 0x108E; 0x10CD; 0x17D7; 0x17DC; 0x1AA7; 0x1CFA; 0x2071; 0x207F; 0x2102;
  0x2107; 0x214E; 0x2D2D; 0x2D6F; 0x2E2F; 0x3400; 0x4DBF; 0x4E00; 0xA9CF; 0xAA7A;
  0xAC00; 0xD7A3; 0x1083C; 0x10A00; 0x10F27; 0x11075; 0x11144; 0x11147; 0x11176; 0x1133D;
  0x11350; 0x11644; 0x116B8; 0x11909; 0x11A00; 0x11A3A; 0x11A50; 0x11A9D; 0x11C40; 0x11D46;
  0x11D98; 0x11FB0; 0x16F50; 0x17000; 0x187F7; 0x18D00; 0x18D08; 0x1B132; 0x1B155; 0x1D4A2;
  0x1E14E; 0x1E94B; 0x1EE42; 0x20000; 0x2A6DF; 0x2A700; 0x2B739; 0x2B740; 0x2B81D; 0x2B820;
  0x2CEA1; 0x2CEB0; 0x2EBE0; 0x30000; 0x3134A; 0x31350; 0x323AF
].

Definition cntrl2 : list (Z * Z) := [
  (0x0000, 0x001F); (0x007F, 0x009F)
].

Definition digit2 : list (Z * Z) := [
  (0x0030, 0x0039); (0x0660, 0x0669); (0x06F0, 0x06F9); (0x07C0, 0x07C9); (0x0966, 0x096F); (0x09E6, 0x09EF);
  (0x0A66, 0x0A6F); (0x0AE6, 0x0AEF); (0x0B66, 0x0B6F); (0x0BE6, 0x0BEF); (0x0C66, 0x0C6F); (0x0CE6, 0x0CEF);
  (0x0D66, 0x0D6F); (0x0DE6, 0x0DEF); (0x0E50, 0x0E59); (0x0ED0, 0x0ED9); (0x0F20, 0x0F29); (0x1040, 0x1049);
  (0x1090, 0x1099); (0x17E0, 0x17E9); (0x1810, 0x1819); (0x1946, 0x194F); (0x19D0, 0x19D9); (0x1A80, 0x1A89);
  (0x1A90, 0x1A99); (0x1B50, 0x1B59); (0x1BB0, 0x1BB9); (0x1C40, 0x1C49); (0x1C50, 0x1C59); (0xA620, 0xA629);
  (0xA8D0, 0xA8D9); (0xA900, 0xA909); (0xA9D0, 0xA9D9); (0xA9F0, 0xA9F9); (0xAA50, 0xAA59); (0xABF0, 0xABF9);
  (0xFF10, 0xFF19); (0x104A0, 0x104A9); (0x10D30, 0x10D39); (0x11066, 0x1106F); (0x110F0, 0x110F9); (0x11136, 0x1113F);
  (0x111D0, 0x111D9); (0x112F0, 0x112F9); (0x11450, 0x11459); (0x114D0, 0x114D9); (0x11650, 0x11659); (0x116C0, 0x116C9);
  (0x11730, 0x11739); (0x118E0, 0x118E9); (0x11950, 0x11959); (0x11C50, 0x11C59); (0x11D50, 0x11D59); (0x11DA0, 0x11DA9);
  (0x11F50, 0x11F59); (0x16A60, 0x16A69); (0x16AC0, 0x16AC9); (0x16B50, 0x16B59); (0x1D7CE, 0x1D7FF); (0x1E140, 0x1E149);
  (0x1E2F0, 0x1E2F9); (0x1E4F0, 0x1E4F9); (0x1E950, 0x1E959); (0x1FBF0, 0x1FBF9)
].

Definition space2 : list (Z * Z) := [
  (0x0009, 0x000D); (0x001C, 0x0020); (0x2000, 0x200A); (0x2028, 0x2029)
].

Definition space1 : list Z := [
  0x0085; 0x00A0; 0x1680; 0x202F; 0x205F; 0x3000
].

Definition title2 : list (Z * Z) := [
  (0x1F88, 0x1F8F); (0x1F98, 0x1F9F); (0x1FA8, 0x1FAF)
].

Definition title1 : list Z := [
  0x01C5; 0x01C8; 0x01CB; 0x01F2; 0x1FBC; 0x1FCC; 0x1FFC
].

Definition lower4 : list (Z * Z) := [
  (0x0101, 0x012F); (0x0133, 0x0137); (0x013A, 0x0148); (0x014B, 0x0177); (0x017A, 0x017E); (0x0183, 0x0185);
  (0x01A1, 0x01A5); (0x01B4, 0x01B6); (0x01CE, 0x01DC); (0x01DF, 0x01EF); (0x01F9, 0x021F); (0x0223, 0x0233);
  (0x0247, 0x024F); (0x0371, 0x0373); (0x03D9, 0x03EF); (0x0461, 0x0481); (0x048B, 0x04BF); (0x04C2, 0x04CE);
  (0x04D1, 0x052F); (0x1E01, 0x1E95); (0x1EA1, 0x1EFF); (0x2C68, 0x2C6C); (0x2C81, 0x2CE3); (0x2CEC, 0x2CEE);
  (0xA641, 0xA66D); (0xA681, 0xA69B); (0xA723, 0xA72F); (0xA733, 0xA76F); (0xA77A, 0xA77C); (0xA77F, 0xA787);
  (0xA791, 0xA793); (0xA797, 0xA7A9); (0xA7B5, 0xA7C3); (0xA7C8, 0xA7CA); (0xA7D7, 0xA7D9)
].

Definition lower2 : list (Z * Z * Z) := [
  (0x0061, 0x007A, 0x0041); (0x00E0, 0x00F6, 0x00C0); (0x00F8, 0x00FE, 0x00D8); (0x01AA, 0x01AB, 0x01AA);
  (0x0234, 0x0239, 0x0234); (0x023F, 0x0240, 0x2C7E); (0x0256, 0x0257, 0x0189); (0x025D, 0x025F, 0x025D);
  (0x026D, 0x026E, 0x026D); (0x0273, 0x0274, 0x0273); (0x0276, 0x027C, 0x0276); (0x027E, 0x027F, 0x027E);
  (0x0284, 0x0286, 0x0284); (0x028A, 0x028B, 0x01B1); (0x028D, 0x0291, 0x028D); (0x0295, 0x029C, 0x0295);
  (0x029F, 0x02AF, 0x029F); (0x037B, 0x037D, 0x03FD); (0x03AD, 0x03AF, 0x0388); (0x03B1, 0x03C1, 0x0391);
  (0x03C3, 0x03CB, 0x03A3); (0x03CD, 0x03CE, 0x038E); (0x0430, 0x044F, 0x0410); (0x0450, 0x045F, 0x0400);
  (0x0561, 0x0586, 0x0531); (0x0587, 0x0588, 0x0587); (0x10D0, 0x10FA, 0x1C90); (0x10FD, 0x10FF, 0x1CBD);
  (0x13F8, 0x13FD, 0x13F0); (0x1C83, 0x1C84, 0x0421); (0x1D00, 0x1D2B, 0x1D00); (0x1D6B, 0x1D77, 0x1D6B);
  (0x1D7A, 0x1D7C, 0x1D7A); (0x1D7E, 0x1D8D, 0x1D7E); (0x1D8F, 0x1D9A, 0x1D8F); (0x1E96, 0x1E9A, 0x1E96);
  (0x1E9C, 0x1E9D, 0x1E9C); (0x1F00, 0x1F07, 0x1F08); (0x1F10, 0x1F15, 0x1F18); (0x1F20, 0x1F27, 0x1F28);
  (0x1F30, 0x1F37, 0x1F38); (0x1F40, 0x1F45, 0x1F48); (0x1F60, 0x1F67, 0x1F68); (0x1F70, 0x1F71, 0x1FBA);
  (0x1F72, 0x1F75, 0x1FC8); (0x1F76, 0x1F77, 0x1FDA); (0x1F78, 0x1F79, 0x1FF8); (0x1F7A, 0x1F7B, 0x1FEA);
  (0x1F7C, 0x1F7D, 0x1FFA); (0x1F80, 0x1F87, 0x1F88); (0x1F90, 0x1F97, 0x1F98); (0x1FA0, 0x1FA7, 0x1FA8);
  (0x1FB0, 0x1FB1, 0x1FB8); (0x1FB6, 0x1FB7, 0x1FB6); (0x1FC6, 0x1FC7, 0x1FC6); (0x1FD0, 0x1FD1, 0x1FD8);
  (0x1FD2, 0x1FD3, 0x1FD2); (0x1FD6, 0x1FD7, 0x1FD6); (0x1FE0, 0x1FE1, 0x1FE8); (0x1FE2, 0x1FE4, 0x1FE2);
  (0x1FE6, 0x1FE7, 0x1FE6); (0x1FF6, 0x1FF7, 0x1FF6); (0x210E, 0x210F, 0x210E); (0x213C, 0x213D, 0x213C);
  (0x2146, 0x2149, 0x2146); (0x2C30, 0x2C5F, 0x2C00); (0x2C77, 0x2C7B, 0x2C77); (0x2D00, 0x2D25, 0x10A0);
  (0xA730, 0xA731, 0xA730); (0xA771, 0xA778, 0xA771); (0xAB30, 0xAB52, 0xAB30); (0xAB54, 0xAB5A, 0xAB54);
  (0xAB60, 0xAB68, 0xAB60); (0xAB70, 0xABBF, 0x13A0); (0xFB00, 0xFB06, 0xFB00); (0xFB13, 0xFB17, 0xFB13);
  (0xFF41, 0xFF5A, 0xFF21); (0x10428, 0x1044F, 0x10400); (0x104D8, 0x104FB, 0x104B0); (0x10597, 0x105A1, 0x10570);
  (0x105A3, 0x105B1, 0x1057C); (0x105B3, 0x105B9, 0x1058C); (0x105BB, 0x105BC, 0x10594); (0x10CC0, 0x10CF2, 0x10C80);
  (0x118C0, 0x118DF, 0x118A0); (0x16E60, 0x16E7F, 0x16E40); (0x1D41A, 0x1D433, 0x1D41A); (0x1D44E, 0x1D454, 0x1D44E);
  (0x1D456, 0x1D467, 0x1D456); (0x1D482, 0x1D49B, 0x1D482); (0x1D4B6, 0x1D4B9, 0x1D4B6); (0x1D4BD, 0x1D4C3, 0x1D4BD);
  (0x1D4C5, 0x1D4CF, 0x1D4C5); (0x1D4EA, 0x1D503, 0x1D4EA); (0x1D51E, 0x1D537, 0x1D51E); (0x1D552, 0x1D56B, 0x1D552);
  (0x1D586, 0x1D59F, 0x1D586); (0x1D5BA, 0x1D5D3, 0x1D5BA); (0x1D5EE, 0x1D607, 0x1D5EE); (0x1D622, 0x1D63B, 0x1D622);
  (0x1D656, 0x1D66F, 0x1D656); (0x1D68A, 0x1D6A5, 0x1D68A); (0x1D6C2, 0x1D6DA, 0x1D6C2); (0x1D6DC, 0x1D6E1, 0x1D6DC);
  (0x1D6FC, 0x1D714, 0x1D6FC); (0x1D716, 0x1D71B, 0x1D716); (0x1D736, 0x1D74E, 0x1D736); (0x1D750, 0x1D755, 0x1D750);
  (0x1D770, 0x1D788, 0x1D770); (0x1D78A, 0x1D78F, 0x1D78A); (0x1D7AA, 0x1D7C2, 0x1D7AA); (0x1D7C4, 0x1D7C9, 0x1D7C4);
  (0x1DF00, 0x1DF09, 0x1DF00); (0x1DF0B, 0x1DF1E, 0x1DF0B); (0x1DF25, 0x1DF2A, 0x1DF25); (0x1E922, 0x1E943, 0x1E900)
].

Definition lower1 : list (Z * Z) := [
  (0x00B5, 0x039C); (0x00DF, 0x00DF); (0x00FF, 0x0178); (0x0131, 0x0049); (0x0138, 0x0138); (0x0149, 0x0149);
  (0x017F, 0x0053); (0x0180, 0x0243); (0x0188, 0x0187); (0x018C, 0x018B); (0x018D, 0x018D); (0x0192, 0x0191);
  (0x0195, 0x01F6); (0x0199, 0x0198); (0x019A, 0x023D); (0x019B, 0x019B); (0x019E, 0x0220); (0x01A8, 0x01A7);
  (0x01AD, 0x01AC); (0x01B0, 0x01AF); (0x01B9, 0x01B8); (0x01BA, 0x01BA); (0x01BD, 0x01BC); (0x01BE, 0x01BE);
  (0x01BF, 0x01F7); (0x01C6, 0x01C4); (0x01C9, 0x01C7); (0x01CC, 0x01CA); (0x01DD, 0x018E); (0x01F0, 0x01F0);
  (0x01F3, 0x01F1); (0x01F5, 0x01F4); (0x0221, 0x0221); (0x023C, 0x023B); (0x0242, 0x0241); (0x0250, 0x2C6F);
  (0x0251, 0x2C6D); (0x0252, 0x2C70); (0x0253, 0x0181); (0x0254, 0x0186); (0x0255, 0x0255); (0x0258, 0x0258);
  (0x0259, 0x018F); (0x025A, 0x025A); (0x025B, 0x0190); (0x025C, 0xA7AB); (0x0260, 0x0193); (0x0261, 0xA7AC);
  (0x0262, 0x0262); (0x0263, 0x0194); (0x0264, 0x0264); (0x0265, 0xA78D); (0x0266, 0xA7AA); (0x0267, 0x0267);
  (0x0268, 0x0197); (0x0269, 0x0196); (0x026A, 0xA7AE); (0x026B, 0x2C62); (0x026C, 0xA7AD); (0x026F, 0x019C);
  (0x0270, 0x0270); (0x0271, 0x2C6E); (0x0272, 0x019D); (0x0275, 0x019F); (0x027D, 0x2C64); (0x0280, 0x01A6);
  (0x0281, 0x0281); (0x0282, 0xA7C5); (0x0283, 0x01A9); (0x0287, 0xA7B1); (0x0288, 0x01AE); (0x0289, 0x0244);
  (0x028C, 0x0245); (0x0292, 0x01B7); (0x0293, 0x0293); (0x029D, 0xA7B2); (0x029E, 0xA7B0); (0x0377, 0x0376);
  (0x0390, 0x0390); (0x03AC, 0x0386); (0x03B0, 0x03B0); (0x03C2, 0x03A3); (0x03CC, 0x038C); (0x03D0, 0x0392);
  (0x03D1, 0x0398); (0x03D5, 0x03A6); (0x03D6, 0x03A0); (0x03D7, 0x03CF); (0x03F0, 0x039A); (0x03F1, 0x03A1);
  (0x03F2, 0x03F9); (0x03F3, 0x037F); (0x03F5, 0x0395); (0x03F8, 0x03F7); (0x03FB, 0x03FA); (0x03FC, 0x03FC);
  (0x04CF, 0x04C0); (0x0560, 0x0560); (0x1C80, 0x0412); (0x1C81, 0x0414); (0x1C82, 0x041E); (0x1C85, 0x0422);
  (0x1C86, 0x042A); (0x1C87, 0x0462); (0x1C88, 0xA64A); (0x1D79, 0xA77D); (0x1D7D, 0x2C63); (0x1D8E, 0xA7C6);
  (0x1E9B, 0x1E60); (0x1E9F, 0x1E9F); (0x1F50, 0x1F50); (0x1F51, 0x1F59); (0x1F52, 0x1F52); (0x1F53, 0x1F5B);
  (0x1F54, 0x1F54); (0x1F55, 0x1F5D); (0x1F56, 0x1F56); (0x1F57, 0x1F5F); (0x1FB2, 0x1FB2); (0x1FB3, 0x1FBC);
  (0x1FB4, 0x1FB4); (0x1FBE, 0x0399); (0x1FC2, 0x1FC2); (0x1FC3, 0x1FCC); (0x1FC4, 0x1FC4); (0x1FE5, 0x1FEC);
  (0x1FF2, 0x1FF2); (0x1FF3, 0x1FFC); (0x1FF4, 0x1FF4); (0x210A, 0x210A); (0x2113, 0x2113); (0x212F, 0x212F);
  (0x2134, 0x2134); (0x2139, 0x2139); (0x214E, 0x2132); (0x2184, 0x2183); (0x2C61, 0x2C60); (0x2C65, 0x023A);
  (0x2C66, 0x023E); (0x2C71, 0x2C71); (0x2C73, 0x2C72); (0x2C74, 0x2C74); (0x2C76, 0x2C75); (0x2CE4, 0x2CE4);
  (0x2CF3, 0x2CF2); (0x2D27, 0x10C7); (0x2D2D, 0x10CD); (0xA78C, 0xA78B); (0xA78E, 0xA78E); (0xA794, 0xA7C4);
  (0xA795, 0xA795); (0xA7AF, 0xA7AF); (0xA7D1, 0xA7D0); (0xA7D3, 0xA7D3); (0xA7D5, 0xA7D5); (0xA7F6, 0xA7F5);
  (0xA7FA, 0xA7FA); (0xAB53, 0xA7B3); (0x1D4BB, 0x1D4BB); (0x1D7CB, 0x1D7CB)
].

Definition upper3 : list (Z * Z) := [
  (0x0100, 0x012E); (0x0132, 0x0136); (0x0139, 0x0147); (0x014A, 0x0176); (0x0179, 0x017D); (0x0182, 0x0184);
  (0x01A0, 0x01A4); (0x01B3, 0x01B5); (0x01CD, 0x01DB); (0x01DE, 0x01EE); (0x01F8, 0x021E); (0x0222, 0x0232);
  (0x0246, 0x024E); (0x0370, 0x0372); (0x03D8, 0x03EE); (0x0460, 0x0480); (0x048A, 0x04BE); (0x04C1, 0x04CD);
  (0x04D0, 0x052E); (0x1E00, 0x1E94); (0x1EA0, 0x1EFE); (0x2C67, 0x2C6B); (0x2C80, 0x2CE2); (0x2CEB, 0x2CED);
  (0xA640, 0xA66C); (0xA680, 0xA69A); (0xA722, 0xA72E); (0xA732, 0xA76E); (0xA779, 0xA77B); (0xA77E, 0xA786);
  (0xA790, 0xA792); (0xA796, 0xA7A8); (0xA7B4, 0xA7C2); (0xA7C7, 0xA7C9); (0xA7D6, 0xA7D8)
].

Definition upper2 : list (Z * Z * Z) := [
  (0x0041, 0x005A, 0x0061); (0x00C0, 0x00D6, 0x00E0); (0x00D8, 0x00DE, 0x00F8); (0x0189, 0x018A, 0x0256);
  (0x01B1, 0x01B2, 0x028A); (0x0388, 0x038A, 0x03AD); (0x038E, 0x038F, 0x03CD); (0x0391, 0x03A1, 0x03B1);
  (0x03A3, 0x03AB, 0x03C3); (0x03D2, 0x03D4, 0x03D2); (0x03FD, 0x03FF, 0x037B); (0x0400, 0x040F, 0x0450);
  (0x0410, 0x042F, 0x0430); (0x0531, 0x0556, 0x0561); (0x10A0, 0x10C5, 0x2D00); (0x13A0, 0x13EF, 0xAB70);
  (0x13F0, 0x13F5, 0x13F8); (0x1C90, 0x1CBA, 0x10D0); (0x1CBD, 0x1CBF, 0x10FD); (0x1F08, 0x1F0F, 0x1F00);
  (0x1F18, 0x1F1D, 0x1F10); (0x1F28, 0x1F2F, 0x1F20); (0x1F38, 0x1F3F, 0x1F30); (0x1F48, 0x1F4D, 0x1F40);
  (0x1F68, 0x1F6F, 0x1F60); (0x1FB8, 0x1FB9, 0x1FB0); (0x1FBA, 0x1FBB, 0x1F70); (0x1FC8, 0x1FCB, 0x1F72);
  (0x1FD8, 0x1FD9, 0x1FD0); (0x1FDA, 0x1FDB, 0x1F76); (0x1FE8, 0x1FE9, 0x1FE0); (0x1FEA, 0x1FEB, 0x1F7A);
  (0x1FF8, 0x1FF9, 0x1F78); (0x1FFA, 0x1FFB, 0x1F7C); (0x210B, 0x210D, 0x210B); (0x2110, 0x2112, 0x2110);
  (0x2119, 0x211D, 0x2119); (0x212C, 0x212D, 0x212C); (0x2130, 0x2131, 0x2130); (0x213E, 0x213F, 0x213E);
  (0x2C00, 0x2C2F, 0x2C30); (0x2C7E, 0x2C7F, 0x023F); (0xFF21, 0xFF3A, 0xFF41); (0x10400, 0x10427, 0x10428);
  (0x104B0, 0x104D3, 0x104D8); (0x10570, 0x1057A, 0x10597); (0x1057C, 0x1058A, 0x105A3); (0x1058C, 0x10592, 0x105B3);
  (0x10594, 0x10595, 0x105BB); (0x10C80, 0x10CB2, 0x10CC0); (0x118A0, 0x118BF, 0x118C0); (0x16E40, 0x16E5F, 0x16E60);
  (0x1D400, 0x1D419, 0x1D400); (0x1D434, 0x1D44D, 0x1D434); (0x1D468, 0x1D481, 0x1D468); (0x1D49E, 0x1D49F, 0x1D49E);
  (0x1D4A5, 0x1D4A6, 0x1D4A5); (0x1D4A9, 0x1D4AC, 0x1D4A9); (0x1D4AE, 0x1D4B5, 0x1D4AE); (0x1D4D0, 0x1D4E9, 0x1D4D0);
  (0x1D504, 0x1D505, 0x1D504); (0x1D507, 0x1D50A, 0x1D507); (0x1D50D, 0x1D514, 0x1D50D); (0x1D516, 0x1D51C, 0x1D516);
  (0x1D538, 0x1D539, 0x1D538); (0x1D53B, 0x1D53E, 0x1D53B); (0x1D540, 0x1D544, 0x1D540); (0x1D54A, 0x1D550, 0x1D54A);
  (0x1D56C, 0x1D585, 0x1D56C); (0x1D5A0, 0x1D5B9, 0x1D5A0); (0x1D5D4, 0x1D5ED, 0x1D5D4); (0x1D608, 0x1D621, 0x1D608);
  (0x1D63C, 0x1D655, 0x1D63C); (0x1D670, 0x1D689, 0x1D670); (0x1D6A8, 0x1D6C0, 0x1D6A8); (0x1D6E2, 0x1D6FA, 0x1D6E2);
  (0x1D71C, 0x1D734, 0x1D71C); (0x1D756, 0x1D76E, 0x1D756); (0x1D790, 0x1D7A8, 0x1D790); (0x1E900, 0x1E921, 0x1E922)
].

Definition upper1 : list (Z * Z) := [
  (0x0130, 0x0069); (0x0178, 0x00FF); (0x0181, 0x0253); (0x0186, 0x0254); (0x0187, 0x0188); (0x018B, 0x018C);
  (0x018E, 0x01DD); (0x018F, 0x0259); (0x0190, 0x025B); (0x0191, 0x0192); (0x0193, 0x0260); (0x0194, 0x0263);
  (0x0196, 0x0269); (0x0197, 0x0268); (0x0198, 0x0199); (0x019C, 0x026F); (0x019D, 0x0272); (0x019F, 0x0275);
  (0x01A6, 0x0280); (0x01A7, 0x01A8); (0x01A9, 0x0283); (0x01AC, 0x01AD); (0x01AE, 0x0288); (0x01AF, 0x01B0);
  (0x01B7, 0x0292); (0x01B8, 0x01B9); (0x01BC, 0x01BD); (0x01C4, 0x01C6); (0x01C7, 0x01C9); (0x01CA, 0x01CC);
  (0x01F1, 0x01F3); (0x01F4, 0x01F5); (0x01F6, 0x0195); (0x01F7, 0x01BF); (0x0220, 0x019E); (0x023A, 0x2C65);
  (0x023B, 0x023C); (0x023D, 0x019A); (0x023E, 0x2C66); (0x0241, 0x0242); (0x0243, 0x0180); (0x0244, 0x0289);
  (0x0245, 0x028C); (0x0376, 0x0377); (0x037F, 0x03F3); (0x0386, 0x03AC); (0x038C, 0x03CC); (0x03CF, 0x03D7);
  (0x03F4, 0x03B8); (0x03F7, 0x03F8); (0x03F9, 0x03F2); (0x03FA, 0x03FB); (0x04C0, 0x04CF); (0x10C7, 0x2D27);
  (0x10CD, 0x2D2D); (0x1E9E, 0x00DF); (0x1F59, 0x1F51); (0x1F5B, 0x1F53); (0x1F5D, 0x1F55); (0x1F5F, 0x1F57);
  (0x1FEC, 0x1FE5); (0x2102, 0x2102); (0x2107, 0x2107); (0x2115, 0x2115); (0x2124, 0x2124); (0x2126, 0x03C9);
  (0x2128, 0x2128); (0x212A, 0x006B); (0x212B, 0x00E5); (0x2132, 0x214E); (0x2133, 0x2133); (0x2145, 0x2145);
  (0x2183, 0x2184); (0x2C60, 0x2C61); (0x2C62, 0x026B); (0x2C63, 0x1D7D); (0x2C64, 0x027D); (0x2C6D, 0x0251);
  (0x2C6E, 0x0271); (0x2C6F, 0x0250); (0x2C70, 0x0252); (0x2C72, 0x2C73); (0x2C75, 0x2C76); (0x2CF2, 0x2CF3);
  (0xA77D, 0x1D79); (0xA78B, 0xA78C); (0xA78D, 0x0265); (0xA7AA, 0x0266); (0xA7AB, 0x025C); (0xA7AC, 0x0261);
  (0xA7AD, 0x026C); (0xA7AE, 0x026A); (0xA7B0, 0x029E); (0xA7B1, 0x0287); (0xA7B2, 0x029D); (0xA7B3, 0xAB53);
  (0xA7C4, 0xA794); (0xA7C5, 0x0282); (0xA7C6, 0x1D8E); (0xA7D0, 0xA7D1); (0xA7F5, 0xA7F6); (0x1D49C, 0x1D49C);
  (0x1D4A2, 0x1D4A2); (0x1D546, 0x1D546); (0x1D7CA, 0x1D7CA)
].


(** ** The classes *)

Section classes.
(** How a table of ranges, of ranges with a mapping, of single runes and of single
    runes with a mapping is searched. *)
Context (search2 : Z → list (Z * Z) → option (Z * Z)) (search3 : Z → list (Z * Z * Z) → option (Z * Z * Z)).
Context (search1 : Z → list Z → option Z) (search1m : Z → list (Z * Z) → option (Z * Z)).

Definition found {A} (o : option A) : bool := match o with Some _ => true | None => false end.
(** [!((r - match[0]) % 2)] *)
Definition on_step (r lo : Z) : bool := bool_decide (Z.rem (r - lo) 2 = 0).

Definition isalpha_by (r : Z) : bool :=
  match search2 r alpha3 with
  | Some m => on_step r m.1
  | None => found (search2 r alpha2) || found (search1 r alpha1)
  end.
Definition iscntrl_by (r : Z) : bool := found (search2 r cntrl2).
Definition isdigit_by (r : Z) : bool := found (search2 r digit2).
Definition isspace_by (r : Z) : bool := found (search2 r space2) || found (search1 r space1).
Definition istitle_by (r : Z) : bool := found (search2 r title2) || found (search1 r title1).
Definition islower_by (r : Z) : bool :=
  match search2 r lower4 with
  | Some m => on_step r m.1
  | None => found (search3 r lower2) || found (search1m r lower1)
  end.
Definition toupper_by (r : Z) : Z :=
  match search2 r lower4 with
  | Some m => if on_step r m.1 then r - 1 else r
  | None =>
      match search3 r lower2 with
      | Some (lo, _, to) => to + (r - lo)
      | None => match search1m r lower1 with Some (_, to) => to | None => r end
      end
  end.
Definition isupper_by (r : Z) : bool :=
  match search2 r upper3 with
  | Some m => on_step r m.1
  | None => found (search3 r upper2) || found (search1m r upper1)
  end.
Definition tolower_by (r : Z) : Z :=
  match search2 r upper3 with
  | Some m => if on_step r m.1 then r + 1 else r
  | None =>
      match search3 r upper2 with
      | Some (lo, _, to) => to + (r - lo)
      | None => match search1m r upper1 with Some (_, to) => to | None => r end
      end
  end.
End classes.

Definition bs2 (r : Z) : list (Z * Z) → option (Z * Z) := bsearch (rune2cmp r).
Definition bs3 (r : Z) : list (Z * Z * Z) → option (Z * Z * Z) := bsearch (λ e, rune2cmp r e.1).
Definition bs1 (r : Z) : list Z → option Z := bsearch (rune1cmp r).
Definition bs1m (r : Z) : list (Z * Z) → option (Z * Z) := bsearch (λ e, rune1cmp r e.1).

Definition isalpharune : Z → bool := isalpha_by bs2 bs1.
Definition iscntrlrune : Z → bool := iscntrl_by bs2.
Definition isdigitrune : Z → bool := isdigit_by bs2.
Definition isspacerune : Z → bool := isspace_by bs2 bs1.
Definition istitlerune : Z → bool := istitle_by bs2 bs1.
Definition islowerrune : Z → bool := islower_by bs2 bs3 bs1m.
Definition toupperrune : Z → Z := toupper_by bs2 bs3 bs1m.
Definition isupperrune : Z → bool := isupper_by bs2 bs3 bs1m.
Definition tolowerrune : Z → Z := tolower_by bs2 bs3 bs1m.

Definition isblankrune (r : Z) : bool := bool_decide (r = 32 ∨ r = 9).
Definition isalnumrune (r : Z) : bool := isalpharune r || isdigitrune r.
Definition isprintrune (r : Z) : bool :=
  negb (iscntrlrune r) && bool_decide (r ≠ 0x2028) && bool_decide (r ≠ 0x2029) && (bool_decide (r < 0xFFF9) || bool_decide (r > 0xFFFB)).
Definition isgraphrune (r : Z) : bool := negb (isspacerune r) && isprintrune r.
Definition ispunctrune (r : Z) : bool := isgraphrune r && negb (isalnumrune r).
Definition isxdigitrune (r : Z) : bool :=
  (bool_decide (48 ≤ r) && bool_decide (r - 48 < 10)) || (bool_decide (97 ≤ r) && bool_decide (r - 97 < 6)).

(** The hexadecimal digits in upper case are not in the class. *)
Example xdigit_upper : map isxdigitrune [48; 97; 102; 65; 70] = [true; true; true; false; false].
Proof. vm_compute. reflexivity. Qed.

(** * The class tables are searched exactly, and cases are consistent

    Binary search over sorted, disjoint ranges is the same as looking at every
    entry, and the tables of one class do not contradict each other, so that the
    classes are what their tables list ([rune_classes_exact]);
    upper and lower case are disjoint parts of the letters, and the two
    conversions are projections onto them ([rune_cases]). *)

(** ** Binary search *)

Section search.
Context {A : Type} (lo hi : A → Z).

Definition holds (r : Z) (e : A) : bool := bool_decide (lo e ≤ r ≤ hi e).
(** Entries in order that do not overlap. *)
Fixpoint sorted (t : list A) : bool :=
  match t with
  | [] => true
  | e :: t' =>
      bool_decide (lo e ≤ hi e) && match t' with e' :: _ => bool_decide (hi e < lo e') | [] => true end && sorted t'
  end.

Lemma sorted_at t i j a b : sorted t = true → t !! i = Some a → t !! j = Some b → (i < j)%nat → hi a < lo b ∧ lo a ≤ hi a ∧ lo b ≤ hi b.
Proof using Type.
  revert i j a b. induction t as [|e t IH]; intros i j a b Hs Hi Hj Hlt; [done|]. cbn [sorted] in Hs.
  apply andb_true_iff in Hs as [[H1 H2]%andb_true_iff H3]. apply bool_decide_eq_true in H1.
  destruct i as [|i], j as [|j]; try lia; simpl in Hi, Hj; [|apply (IH i j a b); done || lia].
  injection Hi as <-. destruct t as [|e' t]; [done|]. apply bool_decide_eq_true in H2.
  destruct j as [|j]; [injection Hj as <-; cbn [sorted] in H3; apply andb_true_iff in H3 as [[H3 _]%andb_true_iff _]; apply bool_decide_eq_true in H3; lia|].
  destruct (IH 0%nat (S j) e' b H3 eq_refl Hj ltac:(lia)) as (? & ? & ?). lia.
Qed.

Context (cmp : A → Z) (r : Z).
Hypothesis cmp_spec : ∀ e, lo e ≤ hi e → cmp e = if holds r e then 0 else r - lo e.

Lemma bsearch_sound fuel t l u e : (∀ x, x ∈ t → lo x ≤ hi x) → bsearch_loop fuel cmp t l u = Some e → e ∈ t ∧ holds r e = true.
Proof using cmp_spec.
  intros Hle. revert l u. induction fuel as [|fuel IH]; intros l u H; [done|]. cbn [bsearch_loop] in H.
  case_decide; [|done]. cbv zeta in H. apply bind_Some in H as (x & Hx & H). pose proof (list_elem_of_lookup_2 _ _ _ Hx) as Hin.
  case_decide; [by eapply IH|]. case_decide; [by eapply IH|]. injection H as <-. split; [done|].
  rewrite cmp_spec in * by auto. destruct (holds r x) eqn:E; [done|]. unfold holds in E. apply bool_decide_eq_false in E. specialize (Hle x Hin). lia.
Qed.
Lemma bsearch_complete fuel t l u k e : sorted t = true → (∀ x, x ∈ t → lo x ≤ hi x) → t !! k = Some e → holds r e = true →
  (l ≤ k < u)%nat → (u ≤ length t)%nat → (u - l < fuel)%nat → bsearch_loop fuel cmp t l u = Some e.
Proof using cmp_spec.
  intros Hs Hle Hk He. revert l u. induction fuel as [|fuel IH]; intros l u Hlu Hu Hf; [lia|]. cbn [bsearch_loop].
  rewrite decide_True by lia. cbv zeta. set (i := ((l + u) / 2)%nat).
  assert (l ≤ i < u)%nat as Hi. { unfold i. pose proof (Nat.div_mod_eq (l + u) 2). pose proof (Nat.mod_upper_bound (l + u) 2). lia. }
  destruct (lookup_lt_is_Some_2 t i) as [x Hx]; [lia|]. rewrite Hx. cbn [base.mbind option_bind].
  pose proof He as He'. unfold holds in He'. apply bool_decide_eq_true in He'.
  rewrite cmp_spec by (apply Hle; by eapply list_elem_of_lookup_2). destruct (holds r x) eqn:Ex.
  - rewrite decide_False, decide_False by lia. f_equal. unfold holds in Ex. apply bool_decide_eq_true in Ex.
    destruct (Nat.lt_trichotomy i k) as [H|[H|H]]; [|congruence|].
    + destruct (sorted_at t i k x e Hs Hx Hk H). lia.
    + destruct (sorted_at t k i e x Hs Hk Hx H). lia.
  - unfold holds in Ex. apply bool_decide_eq_false in Ex. assert (lo x ≤ hi x) as Hx1 by (apply Hle; by eapply list_elem_of_lookup_2).
    assert (i ≠ k) as Hik by (intros ->; rewrite Hk in Hx; injection Hx as ->; lia).
    destruct (decide (i < k)%nat) as [Hlt|Hge].
    + destruct (sorted_at t i k x e Hs Hx Hk Hlt) as (? & ? & ?). rewrite decide_False, decide_True by lia. apply IH; lia.
    + destruct (sorted_at t k i e x Hs Hk Hx ltac:(lia)) as (? & ? & ?). rewrite decide_True by lia. apply IH; lia.
Qed.

Lemma sorted_le t : sorted t = true → ∀ x, x ∈ t → lo x ≤ hi x.
Proof using Type.
  induction t as [|e t IH]; intros Hs x; [by intros ?%elem_of_nil|]. cbn [sorted] in Hs.
  apply andb_true_iff in Hs as [[H1 H2]%andb_true_iff H3]. apply bool_decide_eq_true in H1. intros [-> | Hx]%elem_of_cons; [done|]. by apply IH.
Qed.

Lemma bsearch_find t : sorted t = true → bsearch cmp t = List.find (holds r) t.
Proof using cmp_spec.
  intros Hs. pose proof (sorted_le t Hs) as Hle. unfold bsearch. destruct (List.find (holds r) t) as [e|] eqn:E.
  - apply List.find_some in E as [Hin He]. apply list_elem_of_In, list_elem_of_lookup_1 in Hin as [k Hk].
    eapply bsearch_complete; try done; [|lia]. split; [lia|]. by eapply lookup_lt_Some.
  - destruct (bsearch_loop _ _ _ _ _) as [e|] eqn:E'; [|done]. apply bsearch_sound in E' as [Hin He]; [|done].
    apply list_elem_of_In in Hin. by rewrite (List.find_none _ _ E e Hin) in He.
Qed.
End search.

(** ** The classes by looking at every entry *)

Definition all2 (r : Z) : list (Z * Z) → option (Z * Z) := List.find (holds fst snd r).
Definition all3 (r : Z) : list (Z * Z * Z) → option (Z * Z * Z) := List.find (holds (λ e, e.1.1) (λ e, e.1.2) r).
Definition all1 (r : Z) : list Z → option Z := List.find (holds id id r).
Definition all1m (r : Z) : list (Z * Z) → option (Z * Z) := List.find (holds fst fst r).

Lemma bs2_all r t : sorted fst snd t = true → bs2 r t = all2 r t.
Proof.
  apply bsearch_find. intros [a b] H. unfold rune2cmp, holds. simpl in *. repeat case_decide; repeat case_bool_decide; done.
Qed.
Lemma bs3_all r t : sorted (λ e, e.1.1) (λ e, e.1.2) t = true → bs3 r t = all3 r t.
Proof.
  apply (bsearch_find (λ e : Z * Z * Z, e.1.1) (λ e, e.1.2)). intros [[a b] c] H. unfold rune2cmp, holds. simpl in *. repeat case_decide; repeat case_bool_decide; done.
Qed.
Lemma bs1_all r t : sorted id id t = true → bs1 r t = all1 r t.
Proof.
  apply bsearch_find. intros a H. unfold rune1cmp, holds, id. case_bool_decide; lia.
Qed.
Lemma bs1m_all r t : sorted fst fst t = true → bs1m r t = all1m r t.
Proof.
  apply (bsearch_find fst fst). intros [a b] H. unfold rune1cmp, holds. simpl. case_bool_decide; lia.
Qed.

(** Binary search finds what a search of the whole table finds. *)
Lemma classes_exact r :
  isalpharune r = isalpha_by all2 all1 r ∧ iscntrlrune r = iscntrl_by all2 r ∧ isdigitrune r = isdigit_by all2 r ∧
  isspacerune r = isspace_by all2 all1 r ∧ istitlerune r = istitle_by all2 all1 r ∧
  islowerrune r = islower_by all2 all3 all1m r ∧ toupperrune r = toupper_by all2 all3 all1m r ∧
  isupperrune r = isupper_by all2 all3 all1m r ∧ tolowerrune r = tolower_by all2 all3 all1m r.
Proof.
  unfold isalpharune, iscntrlrune, isdigitrune, isspacerune, istitlerune, islowerrune, toupperrune, isupperrune, tolowerrune.
  unfold isalpha_by, iscntrl_by, isdigit_by, isspace_by, istitle_by, islower_by, toupper_by, isupper_by, tolower_by.
  rewrite !bs2_all, !bs3_all, !bs1_all, !bs1m_all by (vm_compute; reflexivity). by split_and!.
Qed.

(** ** What the tables list *)

(** A rune of a range, and every other rune of a range from its first on. *)
Definition in_ranges (t : list (Z * Z)) (r : Z) : Prop := ∃ lo hi, (lo, hi) ∈ t ∧ lo ≤ r ≤ hi.
Definition every_other (t : list (Z * Z)) (r : Z) : Prop := ∃ lo hi k, (lo, hi) ∈ t ∧ 0 ≤ k ∧ r = lo + 2 * k ∧ r ≤ hi.
(** The other case of a rune: [d] away in the ranges of alternating cases, at the
    same place of another range, or listed by itself. *)
Inductive other_case (steps : list (Z * Z)) (d : Z) (ranges : list (Z * Z * Z)) (singles : list (Z * Z)) (r : Z) : Z → Prop :=
| case_step : every_other steps r → other_case steps d ranges singles r (r + d)
| case_range lo hi to : (lo, hi, to) ∈ ranges → lo ≤ r ≤ hi → other_case steps d ranges singles r (to + (r - lo))
| case_single to : (r, to) ∈ singles → other_case steps d ranges singles r to.
Definition upper_of : Z → Z → Prop := other_case lower4 (-1) lower2 lower1.
Definition lower_of : Z → Z → Prop := other_case upper3 1 upper2 upper1.

Lemma find_unique {A} (lo hi : A → Z) r t e : sorted lo hi t = true → e ∈ t → lo e ≤ r ≤ hi e → List.find (holds lo hi r) t = Some e.
Proof.
  intros Hs He Hr. assert (holds lo hi r e = true) as Hh by (by apply bool_decide_eq_true). destruct (List.find (holds lo hi r) t) as [x|] eqn:E.
  - apply List.find_some in E as [Hx Hhx]. apply bool_decide_eq_true in Hhx. apply list_elem_of_In, list_elem_of_lookup_1 in Hx as [i Hi].
    apply list_elem_of_lookup_1 in He as [j Hj]. destruct (Nat.lt_trichotomy i j) as [H|[H|H]]; [|congruence|].
    + destruct (sorted_at lo hi t i j x e Hs Hi Hj H). lia.
    + destruct (sorted_at lo hi t j i e x Hs Hj Hi H). lia.
  - apply list_elem_of_In in He. by rewrite (List.find_none _ _ E e He) in Hh.
Qed.
Lemma find_holds {A} (lo hi : A → Z) r t e : List.find (holds lo hi r) t = Some e → e ∈ t ∧ lo e ≤ r ≤ hi e.
Proof. intros [Hx Hh]%List.find_some. apply bool_decide_eq_true in Hh. by apply list_elem_of_In in Hx. Qed.

Lemma found_range r t : sorted fst snd t = true → found (all2 r t) = true ↔ in_ranges t r.
Proof.
  intros Hs. unfold all2. split.
  - destruct (List.find _ t) as [[lo hi]|] eqn:E; [|done]. intros _. apply find_holds in E. by exists lo, hi.
  - intros (lo & hi & Hin & Hr). by rewrite (find_unique fst snd r t (lo, hi)).
Qed.
Lemma found_single r t : sorted id id t = true → found (all1 r t) = true ↔ r ∈ t.
Proof.
  intros Hs. unfold all1. split.
  - destruct (List.find _ t) as [x|] eqn:E; [|done]. intros _. apply find_holds in E as [Hx Hr]. unfold id in Hr. by replace r with x by lia.
  - intros Hin. rewrite (find_unique id id r t r); unfold id; done || lia.
Qed.
Lemma step_other r t m : sorted fst snd t = true → all2 r t = Some m → on_step r m.1 = true ↔ every_other t r.
Proof.
  intros Hs Hf. unfold all2 in Hf. destruct m as [lo hi]. pose proof (find_holds _ _ _ _ _ Hf) as [Hin Hr]. cbn [fst snd] in *. unfold on_step. rewrite bool_decide_eq_true. split.
  - intros Hz. exists lo, hi, (Z.quot (r - lo) 2). pose proof (Z.quot_rem' (r - lo) 2) as Hq. rewrite Hz in Hq. split_and!; [done|lia|lia|lia].
  - intros (lo' & hi' & k & Hin' & Hk & -> & Hle). rewrite (find_unique fst snd _ t (lo', hi')) in Hf by (done || (simpl; lia)). injection Hf as <- <-.
    replace (lo' + 2 * k - lo') with (k * 2) by lia. by rewrite Z.rem_mul.
Qed.
Lemma step_none r t : sorted fst snd t = true → all2 r t = None → ¬ every_other t r.
Proof. intros Hs Hf (lo & hi & k & Hin & Hk & -> & Hle). unfold all2 in Hf. by rewrite (find_unique fst snd _ t (lo, hi)) in Hf by (done || (simpl; lia)). Qed.

(** The search of the code and the conversion it makes are those of the tables. *)
Definition exact_case (steps : list (Z * Z)) (d : Z) (ranges : list (Z * Z * Z)) (singles : list (Z * Z)) (r : Z) : Prop :=
  let c := match all2 r steps with Some m => on_step r m.1 | None => found (all3 r ranges) || found (all1m r singles) end in
  let v := match all2 r steps with
    | Some m => if on_step r m.1 then r + d else r
    | None => match all3 r ranges with Some (lo, _, to) => to + (r - lo) | None => match all1m r singles with Some (_, to) => to | None => r end end
    end in
  (c = true ↔ ∃ u, other_case steps d ranges singles r u) ∧ (∀ u, other_case steps d ranges singles r u → v = u) ∧ (c = false → v = r).

(** The tables of one case: no rune is in two of them. *)
Section cases.
Context (steps : list (Z * Z)) (d : Z) (ranges : list (Z * Z * Z)) (singles : list (Z * Z)).
Hypothesis (S2 : sorted fst snd steps = true) (S3 : sorted (λ e, e.1.1) (λ e, e.1.2) ranges = true) (S1 : sorted fst fst singles = true).
Hypothesis (D2 : ∀ r, found (all2 r steps) = true → all3 r ranges = None ∧ all1m r singles = None) (D3 : ∀ r, found (all3 r ranges) = true → all1m r singles = None).

Lemma range_found r lo hi to : (lo, hi, to) ∈ ranges → lo ≤ r ≤ hi → all3 r ranges = Some (lo, hi, to).
Proof using S3. intros Hin Hr. by apply (find_unique (λ e : Z * Z * Z, e.1.1) (λ e, e.1.2)). Qed.
Lemma single_found r to : (r, to) ∈ singles → all1m r singles = Some (r, to).
Proof using S1. intros Hin. apply (find_unique fst fst); [done..|simpl; lia]. Qed.
Lemma single_entry r x to : all1m r singles = Some (x, to) → (r, to) ∈ singles.
Proof using Type. intros [Hin Hr]%find_holds. cbn [fst] in Hr. by replace r with x by lia. Qed.

Lemma cases_exact r : exact_case steps d ranges singles r.
Proof using All.
  unfold exact_case. cbv zeta. destruct (all2 r steps) as [m|] eqn:E2.
  - destruct (D2 r) as [N3 N1]; [by rewrite E2|]. pose proof (step_other r steps m S2 E2) as Hst.
    assert (∀ u, other_case steps d ranges singles r u → on_step r m.1 = true ∧ u = r + d) as Hone.
    { intros u [Hu|lo hi to Hin Hr|to Hin]; [split; [by apply Hst|done]|by rewrite (range_found r lo hi to) in N3|by rewrite (single_found r to) in N1]. }
    split_and!; [split; [intros Ho; exists (r + d); apply case_step; by apply Hst|by intros (u & [? _]%Hone)]|by intros u [-> ->]%Hone|by intros ->].
  - pose proof (step_none r steps S2 E2) as Hn. destruct (all3 r ranges) as [[[lo hi] to]|] eqn:E3; cbn [found orb].
    + pose proof E3 as [Hin Hr]%find_holds. split_and!; [|intros u [Hu|lo' hi' to' Hin' Hr'|to' Hin']|done].
      * split; [|done]. intros _. eexists. by eapply case_range.
      * done.
      * rewrite (range_found r lo' hi' to') in E3 by done. by injection E3 as <- <- <-.
      * specialize (D3 r). rewrite E3 in D3. by rewrite (single_found r to') in D3 by done; discriminate D3.
    + destruct (all1m r singles) as [[x to]|] eqn:E1; cbn [found]; split_and!; try done.
      * split; [|done]. intros _. exists to. by eapply case_single, single_entry.
      * intros u [Hu|lo' hi' to' Hin' Hr'|to' Hin']; [done|by rewrite (range_found r lo' hi' to') in E3|]. rewrite (single_found r to') in E1 by done. by injection E1.
      * split; [done|]. intros (u & [Hu|lo' hi' to' Hin' Hr'|to' Hin']); [done|by rewrite (range_found r lo' hi' to') in E3|by rewrite (single_found r to') in E1].
      * intros u [Hu|lo' hi' to' Hin' Hr'|to' Hin']; [done|by rewrite (range_found r lo' hi' to') in E3|by rewrite (single_found r to') in E1].
Qed.
End cases.

(** ** Upper and lower case *)

(** The runes of the entries of a table. *)
Definition runes {A} (lo hi : A → Z) (t : list A) : list Z := concat (map (λ e, seqZ (lo e) (hi e - lo e + 1)) t).
Lemma find_runes {A} (lo hi : A → Z) r t e : List.find (holds lo hi r) t = Some e → r ∈ runes lo hi t.
Proof.
  intros [Hin He]%List.find_some. unfold holds in He. apply bool_decide_eq_true in He. unfold runes.
  apply list_elem_of_In, List.in_concat. exists (seqZ (lo e) (hi e - lo e + 1)). split.
  - apply List.in_map_iff. by exists e.
  - apply list_elem_of_In, elem_of_seqZ. lia.
Qed.

(** Every rune that a case table mentions. *)
Definition cased : list Z :=
  runes fst snd lower4 ++ runes (λ e, e.1.1) (λ e, e.1.2) lower2 ++ runes fst fst lower1 ++
  runes fst snd upper3 ++ runes (λ e, e.1.1) (λ e, e.1.2) upper2 ++ runes fst fst upper1.

Lemma not_cased r : r ∉ cased → islowerrune r = false ∧ isupperrune r = false ∧ toupperrune r = r ∧ tolowerrune r = r.
Proof.
  unfold cased. rewrite !not_elem_of_app. intros (H1 & H2 & H3 & H4 & H5 & H6).
  destruct (classes_exact r) as (_ & _ & _ & _ & _ & -> & -> & -> & ->).
  assert (∀ A (lo hi : A → Z) t, r ∉ runes lo hi t → List.find (holds lo hi r) t = None) as Hno.
  { intros A lo hi t Hr. destruct (List.find (holds lo hi r) t) eqn:E; [|done]. by apply find_runes in E. }
  unfold islower_by, isupper_by, toupper_by, tolower_by, all2, all3, all1m. by rewrite !Hno.
Qed.

(** A search that stops at the first entry behind the rune. *)
Fixpoint early {A} (lo hi : A → Z) (r : Z) (t : list A) : option A :=
  match t with
  | [] => None
  | e :: t => if r <? lo e then None else if r <=? hi e then Some e else early lo hi r t
  end.
Lemma early_find {A} (lo hi : A → Z) r t : sorted lo hi t = true → List.find (holds lo hi r) t = early lo hi r t.
Proof.
  intros Hs. assert (∀ x, x ∈ t → lo x ≤ hi x) as Hle by (by apply sorted_le).
  assert (∀ j b, t !! j = Some b → ∀ i a, t !! i = Some a → (i < j)%nat → hi a < lo b) as Hlt.
  { intros j b Hb i a Ha Hij. by destruct (sorted_at lo hi t i j a b Hs Ha Hb Hij). }
  clear Hs. induction t as [|e t IH]; [done|]. cbn [List.find early]. pose proof (Hle e ltac:(set_solver)) as He.
  assert (List.find (holds lo hi r) t = early lo hi r t) as IH'.
  { apply IH; [intros x Hx; apply Hle; set_solver|]. intros j b Hb i a Ha Hij. apply (Hlt (S j) b Hb (S i) a Ha). lia. }
  unfold holds at 1. destruct (Z.ltb_spec r (lo e)) as [H|H].
  - rewrite bool_decide_false by lia. destruct (List.find (holds lo hi r) t) as [b|] eqn:E; [|done].
    apply List.find_some in E as [Hin Hb]. unfold holds in Hb. apply bool_decide_eq_true in Hb.
    apply list_elem_of_In, list_elem_of_lookup_1 in Hin as [j Hj]. specialize (Hlt (S j) b Hj 0%nat e eq_refl ltac:(lia)). lia.
  - destruct (Z.leb_spec r (hi e)); [by rewrite bool_decide_true by lia|by rewrite bool_decide_false by lia].
Qed.
Definition e2 := early (@fst Z Z) snd.
Definition e3 := early (λ e : Z * Z * Z, e.1.1) (λ e, e.1.2).
Definition e1 := early (@id Z) id.
Definition e1m := early (@fst Z Z) fst.
Lemma classes_early r :
  isalpharune r = isalpha_by e2 e1 r ∧ islowerrune r = islower_by e2 e3 e1m r ∧ toupperrune r = toupper_by e2 e3 e1m r ∧
  isupperrune r = isupper_by e2 e3 e1m r ∧ tolowerrune r = tolower_by e2 e3 e1m r.
Proof.
  destruct (classes_exact r) as (-> & _ & _ & _ & _ & -> & -> & -> & ->).
  unfold isalpha_by, islower_by, toupper_by, isupper_by, tolower_by, all2, all3, all1, all1m.
  rewrite !early_find by (vm_compute; reflexivity). by split_and!.
Qed.

(** What is checked for every rune of a table holds of all runes that are found in it. *)
Lemma found_check {A} (lo hi : A → Z) (t : list A) (P : Z → bool) r : forallb P (runes lo hi t) = true → found (List.find (holds lo hi r) t) = true → P r = true.
Proof.
  intros H Hf. destruct (List.find (holds lo hi r) t) as [e|] eqn:E; [|done]. rewrite forallb_forall in H. apply H, list_elem_of_In. by eapply find_runes.
Qed.
Definition absent {A} (o : option A) : bool := negb (found o).
Lemma absent_none {A} (o : option A) : absent o = true → o = None.
Proof. by destruct o. Qed.

Lemma lower_apart r : (found (all2 r lower4) = true → all3 r lower2 = None ∧ all1m r lower1 = None) ∧ (found (all3 r lower2) = true → all1m r lower1 = None).
Proof.
  unfold all2, all3, all1m. split; intros Hf.
  - apply (found_check _ _ _ (λ r, absent (e3 r lower2) && absent (e1m r lower1))) in Hf; [|vm_compute; reflexivity].
    rewrite !early_find by (vm_compute; reflexivity). apply andb_true_iff in Hf as [H1%absent_none H2%absent_none]. done.
  - apply (found_check _ _ _ (λ r, absent (e1m r lower1))) in Hf; [|vm_compute; reflexivity]. rewrite early_find by (vm_compute; reflexivity). by apply absent_none in Hf.
Qed.
Lemma upper_apart r : (found (all2 r upper3) = true → all3 r upper2 = None ∧ all1m r upper1 = None) ∧ (found (all3 r upper2) = true → all1m r upper1 = None).
Proof.
  unfold all2, all3, all1m. split; intros Hf.
  - apply (found_check _ _ _ (λ r, absent (e3 r upper2) && absent (e1m r upper1))) in Hf; [|vm_compute; reflexivity].
    rewrite !early_find by (vm_compute; reflexivity). apply andb_true_iff in Hf as [H1%absent_none H2%absent_none]. done.
  - apply (found_check _ _ _ (λ r, absent (e1m r upper1))) in Hf; [|vm_compute; reflexivity]. rewrite early_find by (vm_compute; reflexivity). by apply absent_none in Hf.
Qed.
(** The runes that are passed over in [alpha3] are in no other table of letters. *)
Lemma alpha_apart r m : all2 r alpha3 = Some m → on_step r m.1 = false → found (all2 r alpha2) || found (all1 r alpha1) = false.
Proof.
  intros Hf Ho. assert (found (List.find (holds fst snd r) alpha3) = true) as Hfd by (unfold all2 in Hf; by rewrite Hf).
  apply (found_check _ _ _ (λ r, match e2 r alpha3 with Some m => on_step r m.1 || negb (found (e2 r alpha2) || found (e1 r alpha1)) | None => true end)) in Hfd; [|vm_compute; reflexivity].
  unfold all2, all1 in *. rewrite early_find in Hf by (vm_compute; reflexivity). rewrite !early_find by (vm_compute; reflexivity).
  change (early fst snd r alpha3) with (e2 r alpha3) in Hf. rewrite Hf, Ho in Hfd. cbn [orb] in Hfd. by apply negb_true_iff in Hfd.
Qed.
Lemma alpha_exact r : isalpharune r = true ↔ every_other alpha3 r ∨ in_ranges alpha2 r ∨ r ∈ alpha1.
Proof.
  destruct (classes_exact r) as (-> & _). unfold isalpha_by. rewrite <- (found_range r alpha2), <- (found_single r alpha1), <- orb_true_iff by (vm_compute; reflexivity).
  assert (sorted fst snd alpha3 = true) as Hs by (vm_compute; reflexivity). destruct (all2 r alpha3) as [m|] eqn:E.
  - rewrite <- (step_other r alpha3 m Hs E). pose proof (alpha_apart r m E) as Ha. destruct (on_step r m.1); [tauto|]. rewrite Ha by done. naive_solver.
  - pose proof (step_none r alpha3 Hs E). tauto.
Qed.

Lemma lower_exact r : exact_case lower4 (-1) lower2 lower1 r.
Proof. apply cases_exact; [vm_compute; reflexivity..|intros; by apply lower_apart|intros; by apply lower_apart]. Qed.
Lemma upper_exact r : exact_case upper3 1 upper2 upper1 r.
Proof. apply cases_exact; [vm_compute; reflexivity..|intros; by apply upper_apart|intros; by apply upper_apart]. Qed.

(** C38: The classes of runes are what their tables list, for every rune: the
    letters are every other rune of the ranges of [alpha3], the runes of the ranges
    of [alpha2] and those of [alpha1], and so on for control characters, digits,
    blanks and title case.  A rune is in lower case exactly when the tables give it
    an upper case; toupperrune is that rune, and leaves all others as they are;
    and the same for upper case. *)
Theorem rune_classes_exact r :
  (isalpharune r = true ↔ every_other alpha3 r ∨ in_ranges alpha2 r ∨ r ∈ alpha1) ∧
  (iscntrlrune r = true ↔ in_ranges cntrl2 r) ∧ (isdigitrune r = true ↔ in_ranges digit2 r) ∧
  (isspacerune r = true ↔ in_ranges space2 r ∨ r ∈ space1) ∧ (istitlerune r = true ↔ in_ranges title2 r ∨ r ∈ title1) ∧
  ((islowerrune r = true ↔ ∃ u, upper_of r u) ∧ (∀ u, upper_of r u → toupperrune r = u) ∧ (islowerrune r = false → toupperrune r = r)) ∧
  ((isupperrune r = true ↔ ∃ l, lower_of r l) ∧ (∀ l, lower_of r l → tolowerrune r = l) ∧ (isupperrune r = false → tolowerrune r = r)).
Proof.
  split; [apply alpha_exact|]. destruct (classes_exact r) as (_ & -> & -> & -> & -> & -> & -> & -> & ->).
  unfold iscntrl_by, isdigit_by, isspace_by, istitle_by. rewrite !orb_true_iff, !found_range, !found_single by (vm_compute; reflexivity).
  do 4 (split; [done|]). unfold islower_by, toupper_by, isupper_by, tolower_by, upper_of, lower_of. replace (r - 1) with (r + -1) by lia.
  split; [apply lower_exact|apply upper_exact].
Qed.

Lemma toupperrune_nonneg r : 0 ≤ r → 0 ≤ toupperrune r.
Proof.
  intros Hr. destruct (decide (r ∈ cased)) as [Hin|Hno]; [|by destruct (not_cased r Hno) as (_ & _ & -> & _)].
  destruct (classes_early r) as (_ & _ & -> & _ & _).
  assert (forallb (λ r, 0 <=? toupper_by e2 e3 e1m r) cased = true) as H by (vm_compute; reflexivity).
  rewrite forallb_forall in H. apply Z.leb_le, H, list_elem_of_In, Hin.
Qed.

(** What holds of a rune and its two cases. *)
Definition case_ok (alpha lower upper : Z → bool) (toup tolow : Z → Z) (r : Z) : bool :=
  let l := tolow r in let u := toup r in let isl := lower r in let isu := upper r in
  implb isu (negb isl) && implb (isu || isl) (alpha r) && (tolow l =? l) && (toup u =? u) &&
  ((l =? r) || (isu && lower l)) && ((u =? r) || isl).
Lemma cased_ok : forallb (case_ok (isalpha_by e2 e1) (islower_by e2 e3 e1m) (isupper_by e2 e3 e1m) (toupper_by e2 e3 e1m) (tolower_by e2 e3 e1m)) cased = true.
Proof. vm_compute. reflexivity. Qed.
Lemma case_all r : case_ok isalpharune islowerrune isupperrune toupperrune tolowerrune r = true.
Proof.
  destruct (decide (r ∈ cased)) as [Hin|Hno].
  - pose proof cased_ok as H. rewrite forallb_forall in H. specialize (H r (proj1 (list_elem_of_In _ _) Hin)). rewrite <- H.
    unfold case_ok. cbv zeta. destruct (classes_early r) as (-> & -> & -> & -> & ->).
    destruct (classes_early (tolower_by e2 e3 e1m r)) as (_ & -> & _ & _ & ->).
    by destruct (classes_early (toupper_by e2 e3 e1m r)) as (_ & _ & -> & _ & _).
  - destruct (not_cased r Hno) as (H1 & H2 & H3 & H4). unfold case_ok. cbv zeta. rewrite H1, H2, H3, H4, H3, H4. by rewrite Z.eqb_refl.
Qed.

(** The cases of runes fit together: no rune is both in upper and in lower
    case, and one that is in either is a letter; tolowerrune changes only
    runes in upper case, and gives one in lower case that it does not change
    again; toupperrune changes only runes in lower case and does not change its
    own results. *)
Theorem rune_cases r :
  ¬ (isupperrune r = true ∧ islowerrune r = true) ∧
  (isupperrune r = true ∨ islowerrune r = true → isalpharune r = true) ∧
  (tolowerrune r = r ∨ (isupperrune r = true ∧ islowerrune (tolowerrune r) = true)) ∧
  (toupperrune r = r ∨ islowerrune r = true) ∧
  tolowerrune (tolowerrune r) = tolowerrune r ∧ toupperrune (toupperrune r) = toupperrune r.
Proof.
  pose proof (case_all r) as H. unfold case_ok in H. cbv zeta in H.
  rewrite !andb_true_iff, !orb_true_iff, andb_true_iff, !Z.eqb_eq in H. destruct H as (((((H1 & H2) & H3) & H4) & H5) & H6).
  split_and!; try done.
  - intros [Hu Hl]. by rewrite Hu, Hl in H1.
  - intros [Hu|Hl]; [rewrite Hu in H2|rewrite Hl, orb_true_r in H2]; exact H2.
Qed.
