(* ===== verification/Tr.v ===== *)
(** * tr: src/cmd/posix/tr.c

    The two operands are unescaped, decoded to runes and parsed to sets: a list of
    ranges, each with the number of times its runes count, and a mask of
    character classes.  Standard input is then read rune by rune, translated,
    deleted or squeezed.  Offsets into a set are of type [size_t], [factor] is an
    [int] whose overflow is undefined, and an element of the array of ranges that
    was never written must not be read.  The proofs are in TrFacts. *)

From stdpp Require Import strings.
From S2P Require Import Prelude CString StrList Args Utf Stdio Text RuneType.

Local Open Scope Z_scope.

(** ** Streams *)

Record trst := mkTr { t_stdin : Utf.FILE; t_stdout : Utf.FILE }.
Definition on_stdin {A} (m : M Utf.FILE A) : M trst A := λ s,
  match m (t_stdin s) with
  | Ok a f => Ok a (mkTr f (t_stdout s)) | Die msg f => Die msg (mkTr f (t_stdout s)) | Ub => Ub | Fuel => Fuel
  end.
Definition on_stdout {A} (m : M Utf.FILE A) : M trst A := λ s,
  match m (t_stdout s) with
  | Ok a f => Ok a (mkTr (t_stdin s) f) | Die msg f => Die msg (mkTr (t_stdin s) f) | Ub => Ub | Fuel => Fuel
  end.

(** ** Sets *)

Definition size_t (z : Z) : Z := z mod 2 ^ 64.
Record range := mkRange { start : Z; end_ : Z; quant : Z }.

Definition classes : list (cstr * (Z → bool)) := [
  (lit "alnum", isalnumrune); (lit "alpha", isalpharune); (lit "blank", isblankrune); (lit "cntrl", iscntrlrune);
  (lit "digit", isdigitrune); (lit "graph", isgraphrune); (lit "lower", islowerrune); (lit "print", isprintrune);
  (lit "punct", ispunctrune); (lit "space", isspacerune); (lit "upper", isupperrune); (lit "xdigit", isxdigitrune)
].
Definition ISLOWERBIT : Z := Z.shiftl 1 6.
Definition ISUPPERBIT : Z := Z.shiftl 1 10.

Fixpoint check_loop (cs : list (cstr * (Z → bool))) (rune checks : Z) : bool :=
  match cs with
  | [] => false
  | c :: cs =>
      if decide (checks = 0) then false
      else if Z.testbit checks 0 && c.2 rune then true else check_loop cs rune (Z.shiftr checks 1)
  end.
Definition check (rune checks : Z) : bool := check_loop classes rune checks.

Definition rangelen (r : range) : Z := size_t ((end_ r - start r + 1) * quant r).
Definition setlen (set : list range) : Z := foldl (λ len r, size_t (len + rangelen r)) 0 set.

Section makeset.
Context {S : Type}.

Fixpoint rstrmatch (n : nat) (r s : list Z) : M S bool :=
  match n with
  | O => mret true
  | Datatypes.S n =>
      match r, s with
      | x :: r, y :: s => if decide (x ≠ y) then mret false else rstrmatch n r s
      | _, _ => mub
      end
  end.

Definition mand (a b : M S bool) : M S bool := x <- a ;; if (x : bool) then b else mret false.
Definition mtest (P : Prop) `{!Decision P} : M S bool := mret (bool_decide P).
Definition int_ (z : Z) : M S Z := if decide (- 2 ^ 31 ≤ z < 2 ^ 31) then mret z else mub.

(** The runes of the operand; [set1] is the first set, when the second is made. *)
Context (rs : list Z) (set1 : option (list range)).
Definition len : nat := length rs.
(** [rstr[k]]; behind the runes there is the terminator. *)
Definition rstr (k : nat) : M S Z := deref ((rs ++ [0]) !! k).
Definition is_at (k : nat) (r : Z) : M S bool := x <- rstr k ;; mtest (x = r).
(** A new element of the array, which has [len] of them. *)
Definition push (set : list range) (r : range) : M S (list range) :=
  if decide (length set < len)%nat then mret (set ++ [r]) else mub.

(** [for (m = j; m < len; m++) if (rstr[m] == ']')]: where it stops. *)
Fixpoint close_in (l : list Z) (m : nat) : nat :=
  match l with
  | [] => m
  | r :: l => if decide (r = 93) then m else close_in l (Datatypes.S m)
  end.

(** The number of the first class that matches. *)
Fixpoint find_class (cs : list (cstr * (Z → bool))) (i n : nat) (k : nat) : M S (option nat) :=
  match cs with
  | [] => mret None
  | c :: cs =>
      b <- rstrmatch n (drop (i + 2) (rs ++ [0])) (map byte_of c.1 ++ [0]) ;;
      if (b : bool) then mret (Some k) else find_class cs i n (Datatypes.S k)
  end.

(** The digits from [n] downwards, [k] of them; [None] if one is not a digit. *)
Fixpoint rep_value (k n : nat) (q factor base : Z) : M S (option Z) :=
  match k with
  | O => mret (Some q)
  | Datatypes.S k =>
      d <- rstr n ;;
      if decide (d < 48 ∨ 57 < d) then mret None
      else
        v <- int_ ((d - 48) * factor) ;;
        factor <- int_ (factor * base) ;;
        rep_value k (n - 1) (size_t (q + v)) factor base
  end.

(** [setlen(set1, MAX(set1ranges, 1))].  While the first set is made,
    [set1ranges] is still 0, and the element read is the first of [set]. *)
Definition fill (set : list range) : M S Z :=
  match set1 with
  | Some (r :: l) => mret (setlen (r :: l))
  | Some [] => mub
  | None => r <- deref (set !! 0%nat) ;; mret (rangelen r)
  end.

(** What is made of an opening bracket at [i]: nothing, so it is a literal, or the
    index of the last rune taken and the new set. *)
Inductive brack := Literal | Took (j : nat) (set : list range) (checks : Z).

(** From the label [nextbrack] on. *)
Fixpoint nextbrack (fuel : nat) (set : list range) (checks : Z) (i j : nat) : M S brack :=
  match fuel with
  | O => mfuel
  | Datatypes.S fuel =>
      if decide (len ≤ j)%nat then mret Literal
      else
        let m := close_in (drop j rs) j in
        let j := if decide (m < len)%nat then m else j in
        if decide (j = i) then mret Literal
        else
          equiv <- mand (mtest (3 < j - i)%nat) (mand (is_at (i + 1) 61) (is_at (m - 1) 61)) ;;
          if (equiv : bool) then
            if decide (j - i ≠ 4)%nat then mret Literal
            else
              r <- rstr (i + 2) ;;
              set <- push set (mkRange r r 1) ;;
              mret (Took j set checks)
          else
            class <- mand (mtest (3 < j - i)%nat) (mand (is_at (i + 1) 58) (is_at (m - 1) 58)) ;;
            if (class : bool) then
              n <- find_class classes i (j - i - 3) 0 ;;
              match n with
              | Some n => mret (Took j set (Z.lor checks (Z.shiftl 1 (Z.of_nat n))))
              | None => eprintf "Invalid character class."
              end
            else
              rep <- mand (mtest (2 < j - i)%nat) (is_at (i + 2) 42) ;;
              if (rep : bool) then
                zero <- is_at (i + 3) 48 ;;
                q <- rep_value (j - 1 - (i + 2)) (j - 1) 0 1 (if zero : bool then 8 else 10) ;;
                match q with
                | None => nextbrack fuel set checks i (m + 1)
                | Some q =>
                    r <- rstr (i + 1) ;;
                    quant <- (if decide (q ≠ 0) then mret q else fill set) ;;
                    set <- push set (mkRange r r quant) ;;
                    mret (Took j set checks)
                end
              else nextbrack fuel set checks i (m + 1)
  end.

(** From the label [literal] on: the index of the last rune taken. *)
Definition literal (set : list range) (i : nat) : M S (nat * list range) :=
  a <- rstr i ;;
  dash <- mand (mtest (Z.of_nat i < size_t (Z.of_nat len - 2)))
            (mand (is_at (i + 1) 45) (b <- rstr (i + 2) ;; mtest (a ≤ b))) ;;
  let i := if (dash : bool) then (i + 2)%nat else i in
  b <- rstr i ;;
  set <- push set (mkRange a b 1) ;;
  mret (i, set).

Fixpoint makeset_loop (fuel : nat) (set : list range) (checks : Z) (i : nat) : M S (list range * Z) :=
  if decide (len ≤ i)%nat then mret (set, checks)
  else
    match fuel with
    | O => mfuel
    | Datatypes.S fuel =>
        open <- is_at i 91 ;;
        b <- (if (open : bool) then nextbrack (len + 1) set checks i i else mret Literal) ;;
        match b with
        | Took j set checks => makeset_loop fuel set checks (j + 1)
        | Literal => p <- literal set i ;; makeset_loop fuel p.2 checks (p.1 + 1)
        end
    end.
End makeset.

Definition makeset {S} (str : cstr) (set1 : option (list range)) : M S (list range * Z) :=
  w <- unescape str ;;
  let w := map byte_of w ++ [0] in
  n <- Utf.utflen w ;;
  rs <- Utf.utftorunestr w ;;
  if decide (n < length rs)%nat then mub
  else makeset_loop rs set1 (length rs) [] 0 0.

(** ** main *)

Record tropts := mkTro { cflag : bool; dflag : bool; sflag : bool }.
#[export] Instance eta_tropts : Eta tropts := λ o, mkTro (cflag o) (dflag o) (sflag o).

Definition tr_usage {A} (argv0 : cstr) : M trst A := eprintf (lit "usage: " ++ argv0 ++ lit " [-cCds] set1 [set2]").
Definition tr_flag (argv0 : cstr) (c : ascii) (o : tropts) : M trst tropts :=
  if decide (c = "c"%char ∨ c = "C"%char) then mret (set cflag (λ _, true) o)
  else if decide (c = "d"%char) then mret (set dflag (λ _, true) o)
  else if decide (c = "s"%char) then mret (set sflag (λ _, true) o)
  else tr_usage argv0.

Section loop.
Context (o : tropts) (argc : nat) (set1 : list range) (set1checks : Z) (set2 : list range) (set2checks : Z).

Definition covers (r : Z) (x : range) : bool := bool_decide (start x ≤ r ≤ end_ x).

(** The element of [set2] that holds the offset [off1], and the offset of its start. *)
Fixpoint locate (off1 : Z) (l : list range) (off2 : Z) (prev : option range) : option range * Z :=
  match l with
  | [] => (prev, off2)
  | x :: l =>
      if decide (off1 < size_t (off2 + rangelen x)) then (Some x, off2)
      else locate off1 l (size_t (off2 + rangelen x)) (Some x)
  end.
Definition last_rune : M trst Z := x <- deref (last set2) ;; mret (end_ x).
(** What is written three times in [main]: the case conversion, or the last rune. *)
Definition to_set2 (r : Z) : M trst Z :=
  if decide (set2checks ≠ 0) then
    mret (if decide (set2checks = ISLOWERBIT) then tolowerrune r else toupperrune r)
  else last_rune.
Definition map_rune (r : Z) (x : range) (off1 : Z) : M trst Z :=
  if decide (set2checks ≠ 0) then to_set2 r
  else
    let off1 := size_t (off1 + (r - start x)) in
    if decide (size_t (setlen set2 - 1) < off1) then last_rune
    else
      let '(y, off2) := locate off1 set2 0 None in
      y <- deref y ;;
      if decide (quant y = 0) then mub
      else mret (diff_int (start y + size_t (off1 - off2) / quant y)).

(** The loop over the ranges of [set1], and what follows it; [None] is [goto read]. *)
Fixpoint convert (l : list range) (off1 : Z) (r : Z) : M trst (option Z) :=
  match l with
  | x :: l =>
      if covers r x then
        if dflag o then mret (if cflag o then Some r else None)
        else if cflag o then mret (Some r)
        else r <- map_rune r x off1 ;; mret (Some r)
      else convert l (size_t (off1 + rangelen x)) r
  | [] =>
      if check r set1checks then
        if cflag o then mret (Some r)
        else if dflag o then mret None
        else r <- to_set2 r ;; mret (Some r)
      else if negb (dflag o) && cflag o then r <- to_set2 r ;; mret (Some r)
      else if dflag o && cflag o then mret None
      else mret (Some r)
  end.

Definition squeezed (r lastrune : Z) : bool :=
  (bool_decide (argc = 1%nat) && sflag o && (r =? lastrune) && (check r set1checks || existsb (covers r) set1)) ||
  (bool_decide (argc = 2%nat) && sflag o && (r =? lastrune) &&
   ((bool_decide (set2checks ≠ 0) && check r set2checks) || existsb (covers r) set2)).

(** The variable [r] keeps its value where [efgetrune] stores none. *)
Fixpoint tr_loop (fuel : nat) (r : option Z) (lastrune : Z) : M trst unit :=
  match fuel with
  | O => mfuel
  | S fuel =>
      g <- on_stdin Utf.efgetrune ;;
      if decide (g.2 = 0) then mret tt
      else
        r <- deref (match g.1 with Some x => Some x | None => r end) ;;
        w <- (if bool_decide (argc = 1%nat) && sflag o then mret (Some r) else convert set1 0 r) ;;
        match w with
        | None => tr_loop fuel (Some r) lastrune
        | Some r =>
            if squeezed r lastrune then tr_loop fuel (Some r) lastrune
            else on_stdout (Utf.efputrune r) ;; tr_loop fuel (Some r) r
        end
  end.
End loop.

Definition fshut (f : Utf.FILE) : Z := if Utf.f_error f then 1 else 0.

Definition tr_main (argv0 : cstr) (args : StrList) : M trst Z :=
  p <- argbegin (λ _, false) (λ _ _ o, mret o) (tr_flag argv0) (tr_usage argv0) args (mkTro false false false) ;;
  let '(argv, o) := p in
  let argc := length argv in
  if decide (argc = 0%nat ∨ (2 < argc)%nat ∨ (dflag o = sflag o ∧ argc ≠ 2%nat) ∨ (dflag o = true ∧ argc ≠ 1%nat))
  then tr_usage argv0
  else
    str1 <- deref (argv !! 0%nat) ;;
    s1 <- makeset str1 None ;;
    s2 <- (match argv !! 1%nat with
           | None => mret ([], 0)
           | Some str2 =>
               s2 <- makeset str2 (Some s1.1) ;;
               if decide (s2.1 = [] ∧ s2.2 = 0) then eprintf "cannot map to an empty set."
               else if decide (s2.2 ≠ 0 ∧ s2.2 ≠ ISLOWERBIT ∧ s2.2 ≠ ISUPPERBIT)
               then eprintf "can only map to 'lower' and 'upper' class."
               else mret s2
           end) ;;
    fp <- gets t_stdin ;;
    tr_loop o argc s1.1 s1.2 s2.1 s2.2 (S (length (Utf.f_rest fp))) None 0 ;;
    i <- gets (λ s, fshut (t_stdin s)) ;;
    e <- gets (λ s, fshut (t_stdout s)) ;;
    mret (Z.lor i e).

(** ** Examples *)

Definition run_tr (args : list string) (input : cstr) : option (list Z) :=
  match tr_main "tr" (lits args) (mkTr (Utf.mkFILE (map byte_of input) false false [] false) (Utf.mkFILE [] false false [] false)) with
  | Ok 0 s => Some (Utf.f_out (t_stdout s))
  | _ => None
  end.
Example tr_range : run_tr ["a-c"; "x[y*2]"] (lit "abcd") = Some (map byte_of (lit "xyyd")).
Proof. vm_compute. reflexivity. Qed.
Example tr_words : run_tr ["-cs"; "[:alpha:]"; "\n"] (lit "two, words") = Some (map byte_of (lit "two" ++ [NL] ++ lit "words")).
Proof. vm_compute. reflexivity. Qed.
(** A prefix of the name of a class is accepted for it. *)
Example tr_class_prefix : run_tr ["-d"; "[:d:]"] (lit "a1b2") = Some (map byte_of (lit "ab")).
Proof. vm_compute. reflexivity. Qed.
(** With one operand -c has no effect on -s: what is in the set is squeezed. *)
Example tr_cs_one : run_tr ["-cs"; "a"] (lit "aabb") = Some (map byte_of (lit "abb")).
Proof. vm_compute. reflexivity. Qed.
(** The last rune written is NUL at first: a NUL at the start is dropped. *)
Example tr_leading_nul : run_tr ["-s"; "[:cntrl:]"] [NUL; "a"%char] = Some (map byte_of (lit "a")).
Proof. vm_compute. reflexivity. Qed.
(** A set filled up to the size of a first set without ranges reads an element of
    the array that was never written. *)
Example tr_fill_class : tr_main "tr" (lits ["[:upper:]"; "[x*]"])
  (mkTr (Utf.mkFILE [] false false [] false) (Utf.mkFILE [] false false [] false)) = Ub.
Proof. vm_compute. reflexivity. Qed.
(** A truncated sequence at the end of the input repeats the rune before it. *)
Example tr_truncated : tr_main "tr" (lits ["a"; "b"])
  (mkTr (Utf.mkFILE [97; 226] false false [] false) (Utf.mkFILE [] false false [] false)) =
  Ok 0 (mkTr (Utf.mkFILE [] false false [] false) (Utf.mkFILE [] false false [98; 98] false)).
Proof. vm_compute. reflexivity. Qed.
