(* ===== verification/TrFacts.v ===== *)
(** * tr: sets, and what is written

    The notation of an operand is parsed to the ranges and classes it lists, and
    for UTF-8 input the output is what the sets and options say: runes are
    translated by their position in the first set, deleted, and squeezed. *)

From stdpp Require Import strings.
From S2P Require Import Prelude CString StrList Args Utf UtfFacts Stdio Text RuneType Tr.

Local Open Scope Z_scope.

(** ** The notation of sets *)

Inductive titem := Chr (c : Z) | Rng (a b : Z) | Equiv (c : Z) | Rep (c : Z) (ds : list Z) | Fill (c : Z) | Cls (k : nat).

Definition class_name (k : nat) : list Z := match classes !! k with Some c => map byte_of c.1 | None => [] end.
Definition show_titem (it : titem) : list Z :=
  match it with
  | Chr c => [c]
  | Rng a b => [a; 45; b]
  | Equiv c => 91 :: [61; c; 61] ++ [93]
  | Rep c ds => 91 :: (c :: 42 :: map (λ d, 48 + d) ds) ++ [93]
  | Fill c => 91 :: [c; 42] ++ [93]
  | Cls k => 91 :: (58 :: class_name k ++ [58]) ++ [93]
  end.
Definition show_set (its : list titem) : list Z := concat (map show_titem its).

Definition decimal (ds : list Z) : Z := foldl (λ v d, v * 10 + d) 0 ds.
Definition rune_ok (c : Z) : Prop := BADRUNE c = false ∧ c ≠ 0 ∧ c ≠ 92.
(** [fills]: whether the set may be filled up, as only the second one can. *)
Definition titem_ok (fills : bool) (it : titem) : Prop :=
  match it with
  | Chr c => rune_ok c ∧ c ≠ 45 ∧ c ≠ 91
  | Rng a b => rune_ok a ∧ rune_ok b ∧ a ≠ 45 ∧ a ≠ 91 ∧ a ≤ b
  | Equiv c => rune_ok c ∧ c ≠ 93
  | Rep c ds => rune_ok c ∧ c ≠ 93 ∧ Forall (λ d, 0 ≤ d ≤ 9) ds ∧ (∃ d ds', ds = d :: ds' ∧ d ≠ 0) ∧ (length ds ≤ 9)%nat
  | Fill c => fills = true ∧ rune_ok c ∧ c ≠ 93
  | Cls k => (k < 12)%nat
  end.

(** The range an item stands for, if it is not a class; [n] is the size of the
    first set. *)
Definition ranges_of (n : Z) (it : titem) : list range :=
  match it with
  | Chr c | Equiv c => [mkRange c c 1]
  | Rng a b => [mkRange a b 1]
  | Rep c ds => [mkRange c c (decimal ds)]
  | Fill c => [mkRange c c n]
  | Cls _ => []
  end.
Definition class_bit (checks : Z) (it : titem) : Z :=
  match it with Cls k => Z.lor checks (Z.shiftl 1 (Z.of_nat k)) | _ => checks end.

(** ** Decimal numbers *)

Lemma decimal_snoc ds d : decimal (ds ++ [d]) = decimal ds * 10 + d.
Proof. unfold decimal. by rewrite foldl_app. Qed.
Lemma decimal_bound ds : Forall (λ d, 0 ≤ d ≤ 9) ds → 0 ≤ decimal ds < 10 ^ Z.of_nat (length ds).
Proof.
  induction ds as [|d ds IH] using rev_ind; intros H; [done|]. apply Forall_app in H as [H [Hd _]%Forall_cons].
  rewrite decimal_snoc, length_app. cbn [length]. rewrite Nat2Z.inj_add, Z.pow_add_r by lia. change (10 ^ Z.of_nat 1) with 10. specialize (IH H). cbv beta in Hd. lia.
Qed.
Lemma decimal_pos d ds : Forall (λ d, 0 ≤ d ≤ 9) (d :: ds) → d ≠ 0 → 0 < decimal (d :: ds).
Proof.
  intros H Hd. apply Forall_cons in H as [Hr H]. unfold decimal. cbn [foldl].
  assert (∀ v, 0 < v → 0 < foldl (λ v d, v * 10 + d) v ds) as Hf; [|apply Hf; lia].
  induction H as [|x ds Hx H IH]; intros v Hv; [done|]. apply IH. lia.
Qed.

(** ** Parsing *)

Section parse.
Context {S : Type} (set1 : option (list range)).

Lemma rstr_at pre l k x (s : S) : (l ++ [0]) !! k = Some x → rstr (pre ++ l) (length pre + k) s = Ok x s.
Proof using Type.
  intros H. unfold rstr. rewrite <- app_assoc, lookup_app_r by lia.
  replace (length pre + k - length pre)%nat with k by lia. by rewrite H.
Qed.
Lemma is_at_run pre l k x y (s : S) : (l ++ [0]) !! k = Some x → is_at (pre ++ l) (length pre + k) y s = Ok (bool_decide (x = y)) s.
Proof using Type. intros H. unfold is_at, mbind. by rewrite (rstr_at _ _ _ _ _ H). Qed.
Lemma push_run rs set r (s : S) : (length set < length rs)%nat → push rs set r s = Ok (set ++ [r]) s.
Proof using Type. intros H. unfold push. by rewrite decide_True. Qed.

Lemma close_in_run l r m : 93 ∉ l → close_in (l ++ 93 :: r) m = (m + length l)%nat.
Proof using Type.
  revert m. induction l as [|x l IH]; intros m Hl; cbn [app close_in length]; [by rewrite decide_True by done; lia|].
  apply not_elem_of_cons in Hl as [Hx Hl]. rewrite decide_False by congruence. rewrite IH by done. lia.
Qed.

Lemma mand_run (a b : M S bool) s x y : a s = Ok x s → b s = Ok y s → mand a b s = Ok (x && y) s.
Proof using Type. intros Ha Hb. unfold mand, mbind. rewrite Ha. by destruct x. Qed.

Lemma rep_value_run rs n ds q f (s : S) : Forall (λ d, 0 ≤ d ≤ 9) ds →
  (∀ k d, ds !! k = Some d → rstr rs (n + Datatypes.S k) s = Ok (48 + d) s) →
  0 < f → f * 10 ^ Z.of_nat (length ds) < 2 ^ 31 → 0 ≤ q → q + f * decimal ds < 2 ^ 64 →
  rep_value rs (length ds) (n + length ds) q f 10 s = Ok (Some (q + f * decimal ds)) s.
Proof using Type.
  revert q f. induction ds as [|d ds IH] using rev_ind; intros q f Hd Hat Hf Hm Hq Hb.
  { simpl. unfold decimal. simpl. by rewrite Z.mul_0_r, Z.add_0_r. }
  apply Forall_app in Hd as [Hd [Hx _]%Forall_cons]. rewrite decimal_snoc in *. rewrite length_app in *. cbn [length] in *. cbv beta in Hx.
  rewrite Nat2Z.inj_add, Z.pow_add_r in Hm by lia. change (10 ^ Z.of_nat 1) with 10 in Hm. rewrite Nat.add_1_r. cbn [rep_value]. unfold mbind.
  rewrite (Hat (length ds) d) by apply list_lookup_middle, eq_refl. rewrite decide_False by lia.
  pose proof (Z.pow_pos_nonneg 10 (Z.of_nat (length ds)) ltac:(lia) ltac:(lia)).
  assert (f * 10 < 2 ^ 31) by nia. unfold int_. rewrite !decide_True by nia. unfold mret.
  replace (n + Datatypes.S (length ds) - 1)%nat with (n + length ds)%nat by lia.
  pose proof (decimal_bound ds Hd). unfold size_t. rewrite Z.mod_small by nia.
  rewrite IH; [do 2 f_equal; lia|done| |lia|nia|nia|nia].
  intros k x Hk. apply Hat. by apply lookup_app_l_Some.
Qed.

(** What is made of brackets around a text. *)
Section brackets.
Context (pre body post : list Z) (set : list range) (checks : Z) (s : S).
Local Abbreviation rs := (pre ++ (91 :: body ++ [93]) ++ post).
Local Abbreviation i := (length pre).
Local Abbreviation j := (length pre + Datatypes.S (length body))%nat.

Lemma body_lookup k x : body !! k = Some x → (((91 :: body ++ [93]) ++ post) ++ [0]) !! (Datatypes.S k) = Some x.
Proof using Type. intros H. cbn [app]. rewrite <- !app_assoc. by apply lookup_app_l_Some. Qed.
Lemma body_at k x : body !! k = Some x → ∀ y, is_at rs (i + Datatypes.S k) y s = Ok (bool_decide (x = y)) s.
Proof using Type. intros H y. by apply is_at_run, body_lookup. Qed.
Lemma body_rstr k x : body !! k = Some x → rstr rs (i + Datatypes.S k) s = Ok x s.
Proof using Type. intros H. by apply rstr_at, body_lookup. Qed.
Lemma body_last x : last body = Some x → ∀ y, is_at rs (j - 1) y s = Ok (bool_decide (x = y)) s.
Proof using Type.
  intros H y. rewrite last_lookup in H. destruct (length body) as [|n] eqn:E; [by destruct body|].
  replace (i + Datatypes.S (Datatypes.S n) - 1)%nat with (i + Datatypes.S n)%nat by lia. by apply body_at.
Qed.
Lemma body_close : 93 ∉ body → close_in (drop i rs) i = j ∧ (j < len rs)%nat ∧ (i < len rs)%nat.
Proof using Type.
  intros H. unfold len. rewrite !length_app. cbn [length]. rewrite length_app. cbn [length]. split; [|lia].
  rewrite drop_app_length. cbn [app]. rewrite <- app_assoc. change (91 :: body ++ [93] ++ post) with ((91 :: body) ++ 93 :: post).
  rewrite close_in_run by (apply not_elem_of_cons; done). done.
Qed.
Lemma test_run P `{!Decision P} : mtest (S := S) P s = Ok (bool_decide P) s.
Proof using Type. done. Qed.
End brackets.

Ltac open_brack H :=
  cbn [nextbrack]; cbv zeta; unfold mbind;
  let Hc := fresh in let Hj := fresh in let Hi := fresh in
  destruct H as (Hc & Hj & Hi); rewrite (decide_False (P := (len _ ≤ _)%nat)) by lia;
  rewrite Hc, (decide_True (P := (_ < len _)%nat)), (decide_False (P := (_ = _))) by lia.

Section items.
Context (pre post : list Z) (set : list range) (checks : Z) (fuel : nat) (s : S).
Local Abbreviation i := (length pre).

(** The test for the brackets of an equivalence or a class. *)
Lemma marked_run body x y k : body !! 0%nat = Some x → last body = Some y →
  let rs := pre ++ (91 :: body ++ [93]) ++ post in let j := (i + Datatypes.S (length body))%nat in
  mand (mtest (3 < j - i)%nat) (mand (is_at rs (i + 1) k) (is_at rs (j - 1) k)) s =
  Ok (bool_decide (2 < length body)%nat && (bool_decide (x = k) && bool_decide (y = k))) s.
Proof using Type.
  intros Hx Hy rs j. apply mand_run; [rewrite test_run; f_equal; apply bool_decide_ext; lia|].
  apply mand_run; [by apply (body_at pre body post s 0)|by apply body_last].
Qed.
Lemma class_run k : (k < 12)%nat → nextbrack (pre ++ show_titem (Cls k) ++ post) set1 (Datatypes.S fuel) set checks i i s =
  Ok (Took (i + (length (show_titem (Cls k)) - 1)) set (Z.lor checks (Z.shiftl 1 (Z.of_nat k)))) s.
Proof using Type.
  intros Hk. cbn [show_titem]. set (body := 58 :: class_name k ++ [58]).
  assert (93 ∉ body ∧ (4 < length body)%nat) as [H93 Hl].
  { clear -Hk. subst body. do 12 (destruct k as [|k]; [split; [by_decide|simpl; lia]|]). lia. }
  assert (last body = Some 58) as Hlast by exact (last_snoc 58 (58 :: class_name k)).
  open_brack (body_close pre body post H93). rewrite (marked_run body 58 58) by (done || exact Hlast).
  rewrite (bool_decide_eq_false_2 (58 = 61)) by done. rewrite andb_false_r.
  rewrite (marked_run body 58 58) by (done || exact Hlast). rewrite !bool_decide_eq_true_2 by (done || lia). cbn [andb].
  replace (i + Datatypes.S (length body) - i - 3)%nat with (length (class_name k)) by (unfold body; cbn [length]; rewrite length_app; simpl; lia).
  assert (drop (i + 2) ((pre ++ (91 :: body ++ [93]) ++ post) ++ [0]) = class_name k ++ 58 :: 93 :: post ++ [0]) as Hd.
  { rewrite <- app_assoc, drop_app_add. unfold body. cbn [app drop]. by rewrite <- !app_assoc. }
  assert (find_class (pre ++ (91 :: body ++ [93]) ++ post) classes i (length (class_name k)) 0 s = Ok (Some k) s) as ->.
  { unfold classes. cbn [find_class]. rewrite Hd. clear -Hk. do 12 (destruct k as [|k]; [reflexivity|]). lia. }
  cbn [length]. rewrite !length_app. cbn [length]. do 2 f_equal. lia.
Qed.
Hypothesis (Hset : (length set ≤ length pre)%nat).
Lemma push_item n r : push (pre ++ n ++ post) set r s = if decide (n ++ post = []) then push (pre ++ n ++ post) set r s else Ok (set ++ [r]) s.
Proof using Hset.
  case_decide as H; [done|]. apply push_run. rewrite length_app. destruct (n ++ post); [done|]. simpl. lia.
Qed.

Lemma equiv_run c : c ≠ 93 → nextbrack (pre ++ show_titem (Equiv c) ++ post) set1 (Datatypes.S fuel) set checks i i s =
  Ok (Took (i + 4) (set ++ [mkRange c c 1]) checks) s.
Proof using Hset.
  intros Hc. cbn [show_titem].
  assert (93 ∉ [61; c; 61]) as H93 by (rewrite !not_elem_of_cons; split_and!; (done || by apply not_elem_of_nil)).
  open_brack (body_close pre [61; c; 61] post H93). rewrite (marked_run [61; c; 61] 61 61) by done. cbn [length].
  rewrite !bool_decide_eq_true_2 by (done || lia). cbn [andb]. rewrite decide_False by lia.
  rewrite (body_rstr pre [61; c; 61] post s 1 c) by done. rewrite push_item, decide_False by done. done.
Qed.


Lemma rep_run c ds : titem_ok false (Rep c ds) →
  nextbrack (pre ++ show_titem (Rep c ds) ++ post) set1 (Datatypes.S fuel) set checks i i s =
  Ok (Took (i + (length (show_titem (Rep c ds)) - 1)) (set ++ [mkRange c c (decimal ds)]) checks) s.
Proof using Hset.
  intros (_ & Hc & Hd & (d0 & ds' & E & H0) & Hl). cbn [show_titem]. set (body := c :: 42 :: map (λ d, 48 + d) ds).
  assert (93 ∉ body) as H93.
  { subst body. rewrite !not_elem_of_cons. split_and!; [done..|]. rewrite list_elem_of_fmap. intros (d & Hy & Hin).
    rewrite Forall_forall in Hd. specialize (Hd d Hin). lia. }
  assert (∃ y, last body = Some y ∧ 48 ≤ y ≤ 57) as (y & Hlast & Hy).
  { destruct (last ds) as [d|] eqn:El; [|by rewrite last_None, E in El]. exists (48 + d). split.
    - subst body. rewrite !last_cons, fmap_last, El. done.
    - rewrite Forall_forall in Hd. specialize (Hd d (last_Some_elem_of _ _ El)). lia. }
  open_brack (body_close pre body post H93). rewrite (marked_run body c y) by done.
  rewrite (bool_decide_eq_false_2 (y = 61)) by lia. rewrite !andb_false_r.
  rewrite (marked_run body c y) by done. rewrite (bool_decide_eq_false_2 (y = 58)) by lia. rewrite !andb_false_r.
  assert (length body = (2 + length ds)%nat) as Hb by (subst body; cbn [length]; rewrite length_map; lia).
  rewrite (mand_run _ _ s true true);
    [|rewrite test_run; f_equal; apply bool_decide_eq_true; lia|by rewrite (body_at pre body post s 1 42)]. cbn [andb].
  rewrite (body_at pre body post s 2 (48 + d0)) by (subst body; by rewrite E). rewrite bool_decide_eq_false_2 by lia.
  replace (i + Datatypes.S (length body) - 1 - (i + 2))%nat with (length ds) by lia.
  replace (i + Datatypes.S (length body) - 1)%nat with (i + 2 + length ds)%nat by lia.
  pose proof (decimal_bound ds Hd) as Hv. pose proof (Z.pow_le_mono_r 10 (Z.of_nat (length ds)) 9 ltac:(lia) ltac:(lia)).
  rewrite rep_value_run; [|done| |lia|lia|lia|lia].
  2:{ intros k d Hk. replace (i + 2 + Datatypes.S k)%nat with (i + Datatypes.S (2 + k))%nat by lia.
      apply body_rstr. subst body. change (((λ d, 48 + d) <$> ds) !! k = Some (48 + d)). by rewrite list_lookup_fmap, Hk. }
  rewrite (body_rstr pre body post s 0 c) by done. replace (0 + 1 * decimal ds) with (decimal ds) by lia.
  rewrite decide_True by (subst ds; pose proof (decimal_pos d0 ds' Hd H0); lia). unfold mret.
  rewrite push_item, decide_False by done. cbn [length]. rewrite !length_app. cbn [length]. do 2 f_equal. lia.
Qed.

Lemma fill_run c r l : c ≠ 93 → set1 = Some (r :: l) →
  nextbrack (pre ++ show_titem (Fill c) ++ post) set1 (Datatypes.S fuel) set checks i i s =
  Ok (Took (i + 3) (set ++ [mkRange c c (setlen (r :: l))]) checks) s.
Proof using Hset.
  intros Hc Hs1. cbn [show_titem].
  assert (93 ∉ [c; 42]) as H93 by (rewrite !not_elem_of_cons; split_and!; (done || by apply not_elem_of_nil)).
  open_brack (body_close pre [c; 42] post H93). do 2 (rewrite (marked_run [c; 42] c 42) by done;
    rewrite (bool_decide_eq_false_2 (2 < length [c; 42%Z])%nat) by (simpl; lia); cbn [andb]).
  cbn [length].
  rewrite (mand_run _ _ s true true);
    [|rewrite test_run; f_equal; apply bool_decide_eq_true; lia|by rewrite (body_at pre [c; 42] post s 1 42)]. cbn [andb].
  rewrite (is_at_run _ _ 3 93) by done. rewrite bool_decide_eq_false_2 by done.
  replace (i + 3 - 1 - (i + 2))%nat with 0%nat by lia. cbn [rep_value]. unfold mret at 1.
  rewrite (body_rstr pre [c; 42] post s 0 c) by done. rewrite decide_False by (intros Hq; by apply Hq). unfold fill. rewrite Hs1. unfold mret.
  rewrite push_item, decide_False by done. done.
Qed.
End items.

Definition size1 : Z := match set1 with Some l => setlen l | None => 0 end.
Definition can_fill (fills : bool) : Prop := fills = true → ∃ r l, set1 = Some (r :: l).
Definition starts_plain (l : list Z) : Prop := head l ≠ Some 45.

Section item.
Context (fills : bool) (pre post : list Z) (set : list range) (checks : Z) (s : S).
Hypothesis (Hpost : starts_plain post) (Hset : (length set ≤ length pre)%nat).
Hypothesis (Hfills : can_fill fills).

Lemma literal_run a l b : l = [] ∧ b = a ∨ l = [45; b] ∧ a ≤ b → Z.of_nat (length (pre ++ (a :: l) ++ post)) < 2 ^ 64 →
  literal (pre ++ (a :: l) ++ post) set (length pre) s = Ok ((length pre + length l)%nat, set ++ [mkRange a b 1]) s.
Proof using Hpost Hset.
  intros Hl Hlen. set (rs := pre ++ (a :: l) ++ post) in *. unfold literal, mbind.
  assert (∀ k x, (((a :: l) ++ post) ++ [0]) !! k = Some x → rstr rs (length pre + k) s = Ok x s) as Hat by (intros; by apply rstr_at).
  assert (rstr rs (length pre) s = Ok a s) as Ha by (rewrite <- (Nat.add_0_r (length pre)); by apply Hat).
  rewrite Ha. destruct Hl as [[-> ->]|[-> Hab]].
  - assert (∃ x, ((([a] ++ post) ++ [0]) !! 1%nat = Some x) ∧ x ≠ 45) as (x & Hx & Hn).
    { cbn [app]. destruct post as [|y p]; [by exists 0|]. exists y. split; [done|]. intros ->. by apply Hpost. }
    assert (mand (mtest (Z.of_nat (length pre) < size_t (Z.of_nat (len rs) - 2)))
      (mand (is_at rs (length pre + 1) 45) (λ s0, match rstr rs (length pre + 2) s0 with Ok a0 s' => mtest (a ≤ a0) s' | Die msg s' => Die msg s' | Ub => Ub | Fuel => Fuel end)) s = Ok false s) as ->.
    { unfold mand, mbind. rewrite test_run. destruct (bool_decide _); [|done]. unfold is_at, mbind. rewrite (Hat 1%nat x) by done.
      rewrite test_run, bool_decide_eq_false_2 by done. done. }
    rewrite Ha, push_run by (unfold rs; rewrite !length_app; simpl; lia). by rewrite Nat.add_0_r.
  - rewrite (mand_run _ _ s true true).
    + cbn [andb]. rewrite (Hat 2%nat b) by done. rewrite push_run by (unfold rs; rewrite !length_app; simpl; lia). done.
    + rewrite test_run. f_equal. apply bool_decide_eq_true. unfold size_t, len. unfold rs in *. rewrite !length_app in *. cbn [length] in *.
      rewrite Z.mod_small by lia. lia.
    + apply (mand_run _ _ s true true); [unfold is_at, mbind; by rewrite (Hat 1%nat 45)|].
      rewrite (Hat 2%nat b) by done. rewrite test_run. f_equal. by apply bool_decide_eq_true.
Qed.

Lemma item_run it fuel : titem_ok fills it → Z.of_nat (length (pre ++ show_titem it ++ post)) < 2 ^ 64 →
  makeset_loop (pre ++ show_titem it ++ post) set1 (Datatypes.S fuel) set checks (length pre) s =
  makeset_loop (pre ++ show_titem it ++ post) set1 fuel (set ++ ranges_of size1 it) (class_bit checks it) (length pre + length (show_titem it)) s.
Proof using Hpost Hset Hfills.
  intros Hok Hlen. cbn [makeset_loop].
  assert (∃ x l, show_titem it = x :: l) as (x & l & E) by (destruct it; cbn [show_titem]; eauto).
  rewrite decide_False by (unfold len; rewrite E, !length_app; simpl; lia). unfold mbind.
  assert (is_at (pre ++ show_titem it ++ post) (length pre) 91 s = Ok (bool_decide (x = 91)) s) as ->.
  { rewrite <- (Nat.add_0_r (length pre)). apply is_at_run. by rewrite E. }
  rewrite Nat.add_1_r. unfold mret.
  destruct it as [c|a b|c|c ds|c|k]; cbn [show_titem] in E; injection E as E1 E2; rewrite <- E1; cbn [titem_ok] in Hok; cbn [ranges_of class_bit].
  - rewrite bool_decide_eq_false_2 by (by destruct Hok as (_ & _ & ?)). cbn [show_titem] in *.
    rewrite (literal_run c [] c) by (done || by left). cbn [fst snd length]. f_equal. lia.
  - destruct Hok as (_ & _ & _ & Ha & Hab). rewrite bool_decide_eq_false_2 by done. cbn [show_titem] in *.
    rewrite (literal_run a [45; b] b) by (done || by right). cbn [fst snd length]. f_equal. lia.
  - rewrite bool_decide_eq_true_2 by done. rewrite equiv_run by (done || by destruct Hok). cbn [show_titem length app]. f_equal. lia.
  - rewrite bool_decide_eq_true_2 by done. rewrite rep_run by done. f_equal. cbn [show_titem length]. lia.
  - destruct Hok as (Hf & _ & Hc). destruct (Hfills Hf) as (r & rl & E1'). rewrite bool_decide_eq_true_2 by done.
    rewrite (fill_run _ _ _ _ _ _ Hset c r rl) by done. unfold size1. rewrite E1'. cbn [show_titem length app]. f_equal. lia.
  - rewrite bool_decide_eq_true_2 by done. rewrite class_run by done. rewrite app_nil_r. f_equal. cbn [show_titem length]. lia.
Qed.
End item.

Lemma show_starts fills it post : titem_ok fills it → starts_plain (show_titem it ++ post).
Proof using Type. destruct it; cbn [titem_ok show_titem app]; unfold starts_plain; cbn [head]; intros H [=]; naive_solver. Qed.
Lemma show_set_starts fills its : Forall (titem_ok fills) its → starts_plain (show_set its).
Proof using Type. intros [|it its' Hit Hits]; [done|]. by apply (show_starts fills). Qed.
Lemma ranges_short n it : (length (ranges_of n it) ≤ length (show_titem it))%nat.
Proof using Type. destruct it; cbn [ranges_of show_titem length]; lia. Qed.

Lemma makeset_items fills its pre set checks fuel (s : S) : can_fill fills → Forall (titem_ok fills) its →
  Z.of_nat (length (pre ++ show_set its)) < 2 ^ 64 → (length set ≤ length pre)%nat → (length its ≤ fuel)%nat →
  makeset_loop (pre ++ show_set its) set1 fuel set checks (length pre) s =
  Ok (set ++ concat (map (ranges_of size1) its), foldl class_bit checks its) s.
Proof using Type.
  intros Hf Hits. revert pre set checks fuel. induction Hits as [|it its Hit Hits IH]; intros pre set checks fuel Hlen Hset Hfuel.
  - cbn [show_set concat map foldl]. rewrite !app_nil_r. destruct fuel; cbn [makeset_loop]; by rewrite decide_True.
  - cbn [show_set concat map foldl length] in *. fold (show_set its) in *. destruct fuel as [|fuel]; [lia|].
    rewrite (item_run fills) by (done || by apply (show_set_starts fills)).
    rewrite (app_assoc pre), <- length_app. rewrite IH; [by rewrite app_assoc|by rewrite <- app_assoc| |lia].
    rewrite !length_app. pose proof (ranges_short size1 it). lia.
Qed.
End parse.

(** ** Operands *)

Definition operand_of (its : list titem) : cstr := map char_of (encode (show_set its)).

Lemma unescape_plain {S} l (s : S) : Forall (λ c, c ≠ BSL) l → unescape l s = Ok l s.
Proof.
  unfold unescape. intros H. generalize (le_n (length l)). generalize (length l) at 2 3 as fuel.
  intros fuel. revert fuel. induction H as [|c l Hc H IH]; intros [|fuel] Hf; cbn [unescape_from length] in *; try done; [lia|].
  rewrite decide_True by done. unfold mbind. by rewrite IH by lia.
Qed.

Lemma rune_bytes r : rune_ok r → Forall (λ b, is_byte b ∧ b ≠ 92) (runetochar r).
Proof.
  intros (Hb & H0 & H92). destruct (encode_fields r Hb) as (c & cs & E & Hc & Hn & Hcs & Hj). rewrite E. constructor.
  - split; [done|]. intros ->. change (seq_range 92) with 1%nat in Hn, Hj. destruct cs; [|done]. unfold joined, lead in Hj. simpl in Hj. congruence.
  - eapply Forall_impl; [exact Hcs|]. unfold follow, is_byte. intros; lia.
Qed.
Lemma encode_operand rs : Forall rune_ok rs → map byte_of (map char_of (encode rs)) = encode rs ∧ Forall (λ c, c ≠ BSL) (map char_of (encode rs)).
Proof.
  intros H. assert (Forall (λ b, is_byte b ∧ b ≠ 92) (encode rs)) as Hb.
  { induction H as [|r rs Hr H IH]; [constructor|]. cbn [encode flat_map]. apply Forall_app. split; [by apply rune_bytes|done]. }
  induction Hb as [|b l [Hb H92] Hl [IH1 IH2]]; [done|]. cbn [map]. rewrite byte_of_char, IH1 by done. split; [done|].
  constructor; [|done]. intros E. apply H92. rewrite <- (byte_of_char b) by done. by rewrite E.
Qed.

Lemma ascii_rune z : 33 ≤ z < 92 ∨ 92 < z < 127 → rune_ok z.
Proof.
  assert (∀ b, 0 ≤ b < Z.of_nat 127 → BADRUNE b = false) as H by (apply range_forall; repeat constructor).
  intros Hz. split_and!; [apply H; lia|lia..].
Qed.
Lemma class_name_runes k : Forall rune_ok (class_name k).
Proof.
  unfold class_name. destruct (classes !! k) as [c|] eqn:E; [|constructor]. apply list_elem_of_lookup_2 in E.
  unfold classes in E. rewrite !elem_of_cons in E.
  destruct_or! E; try by apply elem_of_nil in E.
  all: subst c; cbn [fst]; apply (Forall_impl (λ z, 97 ≤ z < 127)); [by_decide|intros z Hz; apply ascii_rune; lia].
Qed.
Lemma show_titem_runes fills it : titem_ok fills it → Forall rune_ok (show_titem it).
Proof.
  destruct it as [c|a b|c|c ds|c|k]; cbn [titem_ok show_titem app]; intros H;
    rewrite ?Forall_cons; split_and?; try (naive_solver || (apply ascii_rune; lia)).
  - apply Forall_app. split; [|constructor; [apply ascii_rune; lia|constructor]]. apply Forall_map.
    eapply Forall_impl; [apply H|]. intros d Hd. apply ascii_rune. simpl in Hd. lia.
  - apply Forall_app. split; [apply Forall_app; split; [apply class_name_runes|]|]; (constructor; [apply ascii_rune; lia|constructor]).
Qed.

Lemma makeset_run {S} set1 fills its (s : S) : can_fill set1 fills → Forall (titem_ok fills) its → Z.of_nat (length (show_set its)) < 2 ^ 64 →
  makeset (operand_of its) set1 s = Ok (concat (map (ranges_of (size1 set1)) its), foldl class_bit 0 its) s.
Proof.
  intros Hf Hits Hlen. unfold makeset, operand_of, mbind.
  assert (Forall rune_ok (show_set its)) as Hr by (apply Forall_concat, Forall_map; eapply Forall_impl; [exact Hits|]; apply show_titem_runes).
  destruct (encode_operand _ Hr) as [E Hb]. rewrite unescape_plain by done. cbv zeta. rewrite E.
  assert (Forall is_char (show_set its)) as Hc by (eapply Forall_impl; [exact Hr|]; intros r (? & ? & _); done).
  rewrite utflen_encode, utftorunestr_encode by done. rewrite decide_False by lia.
  apply (makeset_items _ fills its [] [] 0); auto.
  clear. induction its as [|it its IH]; [simpl; lia|]. cbn [show_set concat map length]. rewrite length_app. fold (show_set its).
  assert (1 ≤ length (show_titem it))%nat by (destruct it; cbn [show_titem length]; lia). lia.
Qed.

(** ** What sets list *)

(** The runes of an item, [n] being the number of runes in the first set. *)
Definition runes_of (n : nat) (it : titem) : list Z :=
  match it with
  | Chr c | Equiv c => [c]
  | Rng a b => seqZ a (b - a + 1)
  | Rep c ds => replicate (Z.to_nat (decimal ds)) c
  | Fill c => replicate n c
  | Cls _ => []
  end.
Definition listed (n : nat) (its : list titem) : list Z := concat (map (runes_of n) its).
Definition class_has (r : Z) (it : titem) : bool :=
  match it with Cls k => match classes !! k with Some c => c.2 r | None => false end | _ => false end.

(** A range stands for a list of runes. *)
Definition spells (x : range) (l : list Z) : Prop :=
  0 ≤ start x ≤ end_ x ∧ end_ x ≤ 1114111 ∧ 1 ≤ quant x ∧ (quant x = 1 ∨ start x = end_ x) ∧
  Z.of_nat (length l) = (end_ x - start x + 1) * quant x ∧
  ∀ p, (p < length l)%nat → l !! p = Some (start x + Z.of_nat p / quant x).

Lemma good_rune r : BADRUNE r = false → 0 ≤ r ≤ 1114111.
Proof. unfold BADRUNE, Runemax. rewrite !orb_false_iff. lia. Qed.
Lemma spells_repeat c n : 0 ≤ c ≤ 1114111 → 1 ≤ n → spells (mkRange c c n) (replicate (Z.to_nat n) c).
Proof.
  intros Hc Hn. unfold spells. cbn [start end_ quant]. rewrite length_replicate. split_and!; try lia.
  intros p Hp. rewrite lookup_replicate_2 by done. rewrite Z.div_small by lia. f_equal. lia.
Qed.
Lemma spells_seq a b : 0 ≤ a ≤ b → b ≤ 1114111 → spells (mkRange a b 1) (seqZ a (b - a + 1)).
Proof.
  intros Ha Hb. unfold spells. cbn [start end_ quant]. rewrite length_seqZ. split_and!; try lia.
  intros p Hp. rewrite lookup_seqZ_lt by lia. rewrite Z.div_1_r. done.
Qed.

(** The lists of the ranges of a set. *)
Inductive spelled : list range → list Z → Prop :=
| spelled_nil : spelled [] []
| spelled_cons x l xs ls : spells x l → spelled xs ls → spelled (x :: xs) (l ++ ls).

Lemma spelled_app xs ls ys ms : spelled xs ls → spelled ys ms → spelled (xs ++ ys) (ls ++ ms).
Proof. induction 1; intros H'; [done|]. rewrite <- app_assoc. cbn [app]. constructor; auto. Qed.

Lemma item_spelled fills n it : titem_ok fills it → (fills = true → (0 < n)%nat) → spelled (ranges_of (Z.of_nat n) it) (runes_of n it).
Proof.
  assert (∀ x l, spells x l → spelled [x] l) as H1 by (intros x l H; rewrite <- (app_nil_r l); constructor; [done|constructor]).
  destruct it as [c|a b|c|c ds|c|k]; cbn [titem_ok ranges_of runes_of]; intros H Hn; try apply H1; [| | | | |constructor].
  - apply (spells_repeat c 1); [apply good_rune, H|done].
  - destruct H as ((Ha & _) & (Hb & _) & _ & _ & Hab). apply good_rune in Ha, Hb. apply spells_seq; lia.
  - apply (spells_repeat c 1); [apply good_rune, H|done].
  - destruct H as ((Hc & _) & _ & Hd & (d & ds' & -> & H0) & _). pose proof (decimal_pos d ds' Hd H0). apply spells_repeat; [by apply good_rune|lia].
  - destruct H as (Hf & (Hc & _) & _). specialize (Hn Hf). replace n with (Z.to_nat (Z.of_nat n)) at 2 by lia. apply spells_repeat; [by apply good_rune|lia].
Qed.
Lemma set_spelled fills n its : Forall (titem_ok fills) its → (fills = true → (0 < n)%nat) →
  spelled (concat (map (ranges_of (Z.of_nat n)) its)) (listed n its).
Proof.
  intros H Hn. induction H as [|it its Hit H IH]; [constructor|]. cbn [map concat listed]. apply spelled_app; [by apply (item_spelled fills)|done].
Qed.

Lemma spells_covers x l r : spells x l → covers r x = bool_decide (r ∈ l).
Proof.
  intros (Hs & _ & Hq & Hor & Hl & Hat). unfold covers. apply bool_decide_ext. rewrite list_elem_of_lookup. split.
  - intros Hr. exists (Z.to_nat ((r - start x) * quant x)). rewrite Hat by nia. f_equal. rewrite Z2Nat.id by nia. rewrite Z.div_mul by lia. lia.
  - intros (p & Hp). pose proof (lookup_lt_Some _ _ _ Hp) as Hlt. rewrite Hat in Hp by done. injection Hp as <-.
    assert (0 ≤ Z.of_nat p / quant x ≤ end_ x - start x); [|lia]. split; [apply Z.div_pos; lia|].
    apply Z.lt_succ_r. apply Z.div_lt_upper_bound; nia.
Qed.
Lemma spells_first x l r : spells x l → r ∈ l → l !! Z.to_nat (r - start x) = Some r ∧ ∀ j y, l !! j = Some y → (j < Z.to_nat (r - start x))%nat → r ≠ y.
Proof.
  intros H Hr. pose proof (spells_covers x l r H) as Hc. rewrite bool_decide_eq_true_2 in Hc by done. unfold covers in Hc. apply bool_decide_eq_true in Hc.
  destruct H as (Hs & _ & Hq & Hor & Hl & Hat). split.
  - rewrite Hat by nia. f_equal. rewrite Z2Nat.id by lia. destruct Hor as [-> | E]; [rewrite Z.div_1_r; lia|]. replace (r - start x) with 0 by lia. rewrite Z.div_0_l by lia. lia.
  - intros j y Hj Hlt. rewrite Hat in Hj by (by eapply lookup_lt_Some). injection Hj as <-.
    destruct Hor as [-> | E]; [rewrite Z.div_1_r; lia|]. lia.
Qed.
Lemma spells_last x l : spells x l → last l = Some (end_ x).
Proof.
  intros (Hs & _ & Hq & Hor & Hl & Hat). rewrite last_lookup, Hat by nia. f_equal.
  replace (Z.of_nat (Nat.pred (length l))) with ((end_ x - start x) * quant x + (quant x - 1)) by nia.
  rewrite Z.div_add_l, Z.div_small by lia. lia.
Qed.
Lemma spells_len x l : spells x l → Z.of_nat (length l) < 2 ^ 64 → rangelen x = Z.of_nat (length l) ∧ (0 < length l)%nat.
Proof. intros (Hs & _ & Hq & Hor & Hl & _) H. unfold rangelen, size_t. rewrite <- Hl. split; [apply Z.mod_small; lia|nia]. Qed.

Lemma setlen_spelled xs ls : spelled xs ls → Z.of_nat (length ls) < 2 ^ 64 → setlen xs = Z.of_nat (length ls).
Proof.
  intros H. unfold setlen. assert (∀ a, 0 ≤ a → a + Z.of_nat (length ls) < 2 ^ 64 →
    foldl (λ len r, size_t (len + rangelen r)) a xs = a + Z.of_nat (length ls)) as Hf; [|intros Hl; apply (Hf 0); lia].
  induction H as [|x l xs ls Hx H IH]; intros a Ha Hb; cbn [foldl]; [simpl; lia|]. rewrite length_app in *.
  destruct (spells_len x l Hx ltac:(lia)) as [-> _]. unfold size_t at 2. rewrite Z.mod_small by lia. rewrite IH; lia.
Qed.
Lemma spelled_last xs ls : spelled xs ls → end_ <$> last xs = last ls.
Proof.
  induction 1 as [|x l xs ls Hx H IH]; [done|]. rewrite last_cons, last_app, <- IH, (spells_last x l Hx). by destruct (last xs).
Qed.
Lemma spelled_covers xs ls r : spelled xs ls → existsb (covers r) xs = bool_decide (r ∈ ls).
Proof.
  induction 1 as [|x l xs ls Hx H IH]; cbn [existsb]; [done|]. rewrite IH, (spells_covers x l) by done.
  rewrite (bool_decide_ext (r ∈ l ++ ls) (r ∈ l ∨ r ∈ ls)) by apply elem_of_app. by rewrite bool_decide_or.
Qed.

(** The rune at an offset. *)
Lemma locate_run off1 xs ls off2 prev : spelled xs ls → 0 ≤ off2 ≤ off1 → off1 < off2 + Z.of_nat (length ls) → off2 + Z.of_nat (length ls) < 2 ^ 64 →
  ∃ y o, locate off1 xs off2 prev = (Some y, o) ∧ 0 ≤ o ≤ off1 ∧ 1 ≤ quant y ∧
    0 ≤ start y + (off1 - o) / quant y ≤ 1114111 ∧ ls !! Z.to_nat (off1 - off2) = Some (start y + (off1 - o) / quant y).
Proof.
  intros H. revert off2 prev. induction H as [|x l xs ls Hx H IH]; intros off2 prev H2 H1 Hb; cbn [length] in *; [lia|].
  rewrite length_app in *. cbn [locate]. destruct (spells_len x l Hx ltac:(lia)) as [-> _].
  unfold size_t. rewrite Z.mod_small by lia. case_decide as Hlt.
  - exists x, off2. destruct Hx as (Hs & He & Hq & Hor & Hl & Hat). split_and!; [done|lia..| | |].
    + pose proof (Z.div_pos (off1 - off2) (quant x) ltac:(lia) ltac:(lia)). lia.
    + assert ((off1 - off2) / quant x ≤ end_ x - start x); [|lia]. apply Z.lt_succ_r, Z.div_lt_upper_bound; nia.
    + rewrite lookup_app_l by lia. rewrite Hat by lia. by rewrite Z2Nat.id by lia.
  - destruct (IH (off2 + Z.of_nat (length l)) (Some x)) as (y & o & E & Ho & Hq & Hr & Hat); [lia..|].
    exists y, o. split_and!; [done|lia..|]. rewrite lookup_app_r by lia. rewrite <- Hat. f_equal. lia.
Qed.

Definition nth_or_last (l : list Z) (k : nat) : Z := match l !! k with Some y => y | None => default 0 (last l) end.

Lemma last_rune_run set2 E2 s : spelled set2 E2 → E2 ≠ [] → last_rune set2 s = Ok (default 0 (last E2)) s.
Proof.
  intros H Hne. unfold last_rune, mbind. pose proof (spelled_last _ _ H) as Hl.
  destruct (last set2) as [x|] eqn:E; cbn [fmap option_fmap option_map] in Hl; [by rewrite <- Hl|].
  symmetry in Hl. by apply last_None in Hl.
Qed.

Lemma map_rune_run set2 E2 r x off s : spelled set2 E2 → E2 ≠ [] → Z.of_nat (length E2) < 2 ^ 64 → start x ≤ r → 0 ≤ off →
  off + (r - start x) < 2 ^ 64 → map_rune set2 0 r x off s = Ok (nth_or_last E2 (Z.to_nat (off + (r - start x)))) s.
Proof.
  intros H Hne Hl Hr Ho Hb. unfold map_rune. rewrite decide_False by (intros Hd; by apply Hd). cbv zeta.
  rewrite (setlen_spelled _ _ H Hl). assert (0 < length E2)%nat by (destruct E2; [done|simpl; lia]).
  set (k := off + (r - start x)) in *. 
  assert (∀ z, 0 ≤ z < 2 ^ 64 → size_t z = z) as Hz by (intros z ?; by apply Z.mod_small).
  rewrite (Hz k), (Hz (_ - 1)) by lia. unfold nth_or_last. case_decide as Hlt.
  - rewrite (last_rune_run _ E2) by done. rewrite lookup_ge_None_2 by lia. done.
  - destruct (locate_run k set2 E2 0 None H) as (y & o & E & Ho' & Hq & Hv & Hat); [lia..|].
    rewrite E. unfold mbind. cbn [deref]. unfold mret at 1. rewrite decide_False by lia.
    rewrite (Hz (k - o)) by lia. rewrite Z.sub_0_r in Hat. rewrite Hat. unfold mret. f_equal. unfold diff_int. rewrite Z.mod_small by lia. lia.
Qed.

(** ** What is written for a rune *)

(** What the second set maps to. *)
Inductive target := Lower | Upper | Runes (l : list Z).
Definition position (r : Z) (l : list Z) : option nat := fst <$> list_find (λ y, r = y) l.

Section convert.
Context (o : tropts) (E1 : list Z) (K1 : Z → bool) (t : target).

Definition inside (r : Z) : bool := bool_decide (r ∈ E1) || K1 r.
Definition selected (r : Z) : bool := xorb (inside r) (cflag o).
Definition into (r : Z) : Z :=
  match t with
  | Lower => tolowerrune r
  | Upper => toupperrune r
  | Runes E2 => match position r E1 with Some k => nth_or_last E2 k | None => default 0 (last E2) end
  end.
Definition tr_rune (r : Z) : option Z :=
  if dflag o then if selected r then None else Some r
  else Some (if selected r then into r else r).

Definition targets (set2 : list range) (c2 : Z) : Prop :=
  match t with
  | Lower => c2 = ISLOWERBIT
  | Upper => c2 = ISUPPERBIT
  | Runes E2 => c2 = 0 ∧ spelled set2 E2 ∧ E2 ≠ [] ∧ Z.of_nat (length E2) < 2 ^ 64
  end.

Context (set2 : list range) (c1 c2 : Z) (s : trst).
Hypothesis (Hc1 : ∀ r, check r c1 = K1 r) (Hlen : Z.of_nat (length E1) < 2 ^ 64).
Hypothesis (Ht : dflag o = false → targets set2 c2).

Lemma position_None r : r ∉ E1 → position r E1 = None.
Proof using Type.
  intros H. unfold position. assert (list_find (λ y, r = y) E1 = None) as ->; [|done].
  apply list_find_None, Forall_forall. intros x Hx ->. done.
Qed.
Lemma to_set2_run r : dflag o = false → r ∉ E1 ∨ c2 ≠ 0 → to_set2 set2 c2 r s = Ok (into r) s.
Proof using Ht.
  intros Hd Hr. specialize (Ht Hd). unfold targets, to_set2, into in *. destruct t as [| |E2].
  - subst c2. by rewrite !decide_True by done.
  - subst c2. by rewrite decide_True, decide_False by done.
  - destruct Ht as (-> & Hs & Hne & _). destruct Hr as [Hr|]; [|done]. rewrite decide_False by (intros H; by apply H).
    rewrite (position_None r Hr). by apply last_rune_run.
Qed.

Lemma map_rune_into pre x l post r : dflag o = false → E1 = pre ++ l ++ post → spells x l → r ∉ pre → r ∈ l →
  map_rune set2 c2 r x (Z.of_nat (length pre)) s = Ok (into r) s.
Proof using Ht Hlen.
  intros Hd E Hx Hp Hr. pose proof (to_set2_run r Hd) as H2. specialize (Ht Hd). unfold targets, into in *.
  destruct (spells_first x l r Hx Hr) as [Hat Hmin].
  pose proof (spells_covers x l r Hx) as Hc. rewrite bool_decide_eq_true_2 in Hc by done. unfold covers in Hc. apply bool_decide_eq_true in Hc.
  destruct t as [| |E2].
  1,2: unfold map_rune; rewrite decide_True by (by rewrite Ht); apply H2; right; by rewrite Ht.
  destruct Ht as (-> & Hs & Hne & Hl2). pose proof (lookup_lt_Some _ _ _ Hat) as Hlt. rewrite E, !length_app in Hlen.
  rewrite (map_rune_run set2 E2) by (done || lia).
  assert (position r E1 = Some (length pre + Z.to_nat (r - start x))%nat) as ->; [|do 2 f_equal; lia].
  unfold position. assert (list_find (λ y, r = y) E1 = Some ((length pre + Z.to_nat (r - start x))%nat, r)) as ->; [|done].
  apply list_find_Some. rewrite E. split_and!; [|done|].
  - rewrite lookup_app_r by lia. rewrite lookup_app_l by lia. by rewrite Nat.add_comm, Nat.add_sub.
  - intros j y Hj Hjlt ->. apply lookup_app_Some in Hj as [Hj|[Hge Hj]]; [by apply list_elem_of_lookup_2 in Hj|].
    rewrite lookup_app_l in Hj by lia. by apply (Hmin _ _ Hj); [lia|].
Qed.

Lemma convert_run xs ls pre r : E1 = pre ++ ls → spelled xs ls → r ∉ pre →
  convert o c1 set2 c2 xs (Z.of_nat (length pre)) r s = Ok (tr_rune r) s.
Proof using Ht Hlen Hc1.
  intros E H. revert pre E. induction H as [|x l xs ls Hx H IH]; intros pre E Hp; cbn [convert].
  - rewrite app_nil_r in E. subst pre. rewrite Hc1. unfold tr_rune, selected, inside. rewrite bool_decide_eq_false_2 by done. cbn [orb].
    pose proof (to_set2_run r) as H2. unfold mbind. destruct (K1 r), (dflag o), (cflag o); cbn [xorb negb andb]; try done; by rewrite H2 by auto.
  - rewrite (spells_covers x l) by done. case_bool_decide as Hr.
    + unfold tr_rune, selected, inside. rewrite (bool_decide_eq_true_2 (r ∈ E1)) by (rewrite E, !elem_of_app; auto). cbn [orb].
      pose proof (λ Hd, map_rune_into pre x l ls r Hd E Hx Hp Hr) as H2.
      unfold mbind. destruct (dflag o), (cflag o); cbn [xorb negb andb]; try done. by rewrite H2.
    + assert (length (pre ++ l) ≤ length E1)%nat as Hle by (rewrite E, app_assoc, (length_app (pre ++ l)); lia). rewrite length_app in Hle.
      destruct (spells_len x l Hx ltac:(lia)) as [-> _]. unfold size_t. rewrite Z.mod_small by lia. rewrite <- Nat2Z.inj_add, <- length_app.
      apply IH; [by rewrite <- app_assoc|]. by rewrite not_elem_of_app.
Qed.
End convert.

(** ** Classes *)

#[export] Instance titem_eq_dec : EqDecision titem.
Proof. solve_decision. Defined.

Lemma check_loop_spec cs r c : 0 ≤ c → check_loop cs r c = true ↔ ∃ k x, cs !! k = Some x ∧ Z.testbit c (Z.of_nat k) = true ∧ x.2 r = true.
Proof.
  revert c. induction cs as [|x cs IH]; intros c Hc; cbn [check_loop]; [split; [done|]; by intros (k & x & ? & _)|].
  assert (∀ k, Z.testbit (Z.shiftr c 1) (Z.of_nat k) = Z.testbit c (Z.of_nat (S k))) as Hb.
  { intros k. rewrite Z.shiftr_spec by lia. f_equal. lia. }
  specialize (IH (Z.shiftr c 1) ltac:(by apply Z.shiftr_nonneg)).
  case_decide as H0.
  { split; [done|]. intros (k & y & _ & Hk & _). subst c. by rewrite Z.bits_0 in Hk. }
  destruct (Z.testbit c 0 && x.2 r) eqn:E.
  - apply andb_true_iff in E as [E1 E2]. split; [|done]. intros _. by exists 0%nat, x.
  - rewrite IH. split.
    + intros (k & y & Hk & Hb' & Hy). exists (S k), y. by rewrite <- Hb.
    + intros ([|k] & y & Hk & Hb' & Hy); [|exists k, y; by rewrite Hb]. injection Hk as ->. change (Z.of_nat 0) with 0 in Hb'. by rewrite Hb', Hy in E.
Qed.

Lemma class_bits its c : 0 ≤ c → 0 ≤ foldl class_bit c its ∧
  ∀ k, Z.testbit (foldl class_bit c its) (Z.of_nat k) = Z.testbit c (Z.of_nat k) || bool_decide (Cls k ∈ its).
Proof.
  revert c. induction its as [|it its IH]; intros c Hc; cbn [foldl].
  { split; [done|]. intros k. rewrite bool_decide_eq_false_2 by apply not_elem_of_nil. by rewrite orb_false_r. }
  assert (0 ≤ class_bit c it) as Hb.
  { destruct it as [| | | | |k]; cbn [class_bit]; try done. apply Z.lor_nonneg. split; [done|]. rewrite Z.shiftl_1_l. apply Z.pow_nonneg. lia. }
  destruct (IH _ Hb) as [H1 H2]. split; [done|]. intros k. rewrite H2.
  rewrite (bool_decide_ext (Cls k ∈ it :: its) (Cls k = it ∨ Cls k ∈ its)) by apply elem_of_cons. rewrite bool_decide_or, orb_assoc. f_equal.
  destruct it as [| | | | |k']; cbn [class_bit]; try (rewrite bool_decide_eq_false_2 by done; by rewrite orb_false_r).
  rewrite Z.lor_spec, Z.shiftl_1_l, Z.pow2_bits_eqb by lia. f_equal. rewrite (bool_decide_ext (Cls k = Cls k') (Z.of_nat k' = Z.of_nat k)) by (split; [by intros [= ->]|intros; f_equal; lia]).
  case_bool_decide; lia.
Qed.

Lemma check_items its r : check r (foldl class_bit 0 its) = existsb (class_has r) its.
Proof.
  destruct (class_bits its 0 ltac:(lia)) as [H0 Hb]. apply eq_true_iff_eq. unfold check. rewrite check_loop_spec by done. rewrite existsb_exists. split.
  - intros (k & x & Hk & Ht & Hx). rewrite Hb, Z.bits_0 in Ht. cbn [orb] in Ht. apply bool_decide_eq_true in Ht.
    exists (Cls k). rewrite <- list_elem_of_In. split; [done|]. cbn [class_has]. by rewrite Hk.
  - intros (it & Hin & Hit). rewrite <- list_elem_of_In in Hin. destruct it as [| | | | |k]; try done. cbn [class_has] in Hit.
    destruct (classes !! k) as [x|] eqn:Hk; [|done]. exists k, x. rewrite Hb. split_and!; [done| |done]. by rewrite bool_decide_eq_true_2, orb_true_r.
Qed.

(** What a second set maps to, and when it is accepted. *)
Definition target_of (n : nat) (its : list titem) : target :=
  if decide (Cls 6 ∈ its) then Lower else if decide (Cls 10 ∈ its) then Upper else Runes (listed n its).
Definition target_ok (its : list titem) : Prop :=
  its ≠ [] ∧ ((∀ k, Cls k ∉ its) ∨ (∀ k, Cls k ∈ its ↔ k = 6%nat) ∨ (∀ k, Cls k ∈ its ↔ k = 10%nat)).

Lemma checks_none its : (∀ k, Cls k ∉ its) → foldl class_bit 0 its = 0.
Proof.
  intros H. destruct (class_bits its 0 ltac:(lia)) as [H0 Hb]. apply Z.bits_inj'. intros n Hn. rewrite <- (Z2Nat.id n) by done.
  rewrite Hb, bool_decide_eq_false_2 by done. apply orb_false_r.
Qed.
Lemma checks_only its m : (∀ k, Cls k ∈ its ↔ k = m) → foldl class_bit 0 its = Z.shiftl 1 (Z.of_nat m).
Proof.
  intros H. destruct (class_bits its 0 ltac:(lia)) as [H0 Hb]. apply Z.bits_inj'. intros n Hn. rewrite <- (Z2Nat.id n) by done.
  rewrite Hb, Z.bits_0, Z.shiftl_1_l, Z.pow2_bits_eqb by lia. cbn [orb]. rewrite (bool_decide_ext _ _ (H _)). case_bool_decide; symmetry; [apply Z.eqb_eq|apply Z.eqb_neq]; lia.
Qed.

Lemma targets_ok fills n its : target_ok its → Forall (titem_ok fills) its → (fills = true → (0 < n)%nat) → Z.of_nat (length (listed n its)) < 2 ^ 64 →
  let set2 := concat (map (ranges_of (Z.of_nat n)) its) in let c2 := foldl class_bit 0 its in
  targets (target_of n its) set2 c2 ∧ (set2 = [] → c2 ≠ 0) ∧ (c2 = 0 ∨ c2 = ISLOWERBIT ∨ c2 = ISUPPERBIT).
Proof.
  intros [Hne Hc] Hok Hn Hl set2 c2. pose proof (set_spelled fills n its Hok Hn) as Hs. fold set2 in Hs. unfold target_of, targets, c2.
  destruct Hc as [Hc|[Hc|Hc]].
  - rewrite !decide_False by done. rewrite checks_none by done. assert (set2 ≠ []) as Hne2.
    { unfold set2. destruct its as [|it its]; [done|]. specialize (Hc). destruct it as [| | | | |k]; try done. by destruct (Hc k); left. }
    split_and!; auto. intros E. rewrite E in Hs. destruct set2 as [|x xs]; [done|]. inversion Hs as [|? l ? ls Hx _ E1 E2]. subst.
    apply app_nil in E2 as [-> _]. by apply spells_last in Hx.
  - rewrite decide_True by (by apply Hc). rewrite (checks_only its 6) by done. split_and!; auto.
  - rewrite decide_False by (by rewrite Hc). rewrite decide_True by (by apply Hc). rewrite (checks_only its 10) by done. split_and!; auto.
Qed.

(** ** The loop *)

(** Repetitions of runes of a set are dropped; [l] is the rune written last.  The
    program starts with NUL for it, the reference with none. *)
Fixpoint squeeze_from (P : Z → bool) (l : Z) (rs : list Z) : list Z :=
  match rs with
  | [] => []
  | r :: rs => if (r =? l) && P r then squeeze_from P l rs else r :: squeeze_from P r rs
  end.
Fixpoint squeeze (P : Z → bool) (last : option Z) (rs : list Z) : list Z :=
  match rs with
  | [] => []
  | r :: rs => if bool_decide (last = Some r) && P r then squeeze P last rs else r :: squeeze P (Some r) rs
  end.
Lemma squeeze_some P l rs : squeeze P (Some l) rs = squeeze_from P l rs.
Proof.
  revert l. induction rs as [|r rs IH]; intros l; cbn [squeeze squeeze_from]; [done|].
  assert (bool_decide (Some l = Some r) = (r =? l)) as -> by (case_bool_decide; symmetry; [apply Z.eqb_eq|apply Z.eqb_neq]; congruence).
  by rewrite !IH.
Qed.
Lemma squeeze_start P rs : head rs ≠ Some 0 → squeeze P None rs = squeeze_from P 0 rs.
Proof.
  destruct rs as [|r rs]; [done|]. cbn [head squeeze squeeze_from]. intros Hr. rewrite (proj2 (Z.eqb_neq r 0)) by congruence. by rewrite squeeze_some.
Qed.

Definition text_in (rs : list Z) : Utf.FILE := mkFILE (encode rs) false false [] false.
Definition text_out (out : list Z) : Utf.FILE := mkFILE [] false false out false.

Lemma put_run r out : ∃ n, efputrune r (text_out out) = Ok n (text_out (out ++ runetochar r)).
Proof. apply efputrune_any. Qed.

Lemma tr_loop_run o argc set1 c1 set2 c2 f P rs :
  (∀ r s, (if bool_decide (argc = 1%nat) && sflag o then mret (Some r) else convert o c1 set2 c2 set1 0 r) s = Ok (f r) s) →
  (∀ r l, squeezed o argc set1 c1 set2 c2 r l = (r =? l) && P r) → Forall (λ r, BADRUNE r = false) rs →
  ∀ fuel r0 l out, (length rs < fuel)%nat →
  tr_loop o argc set1 c1 set2 c2 fuel r0 l (mkTr (text_in rs) (text_out out)) =
  Ok tt (mkTr (text_in []) (text_out (out ++ encode (squeeze_from P l (omap f rs))))).
Proof.
  intros Hf Hs Hrs. induction Hrs as [|r rs Hr Hrs IH]; intros [|fuel] r0 l out Hfuel; cbn [length] in Hfuel; try lia; cbn [tr_loop]; unfold mbind, on_stdin.
  { cbn [t_stdin t_stdout]. unfold text_in. cbn [encode flat_map]. rewrite efgetrune_end. cbn [snd]. rewrite decide_True by done.
    simpl. by rewrite app_nil_r. }
  cbn [t_stdin t_stdout]. unfold text_in at 1. cbn [encode flat_map]. rewrite efgetrune_next by done. cbn [fst snd].
  pose proof (runelen_pos r Hr). rewrite decide_False by lia. cbn [deref]. unfold mret at 1. fold (encode rs). fold (text_in rs). rewrite Hf.
  change (omap f (r :: rs)) with (match f r with Some y => y :: omap f rs | None => omap f rs end). destruct (f r) as [r'|]; [|apply IH; lia]. rewrite Hs. cbn [squeeze_from].
  destruct ((r' =? l) && P r'); [apply IH; lia|]. unfold on_stdout. cbn [t_stdin t_stdout].
  destruct (put_run r' out) as (n & ->). rewrite IH by lia. cbn [encode flat_map]. by rewrite app_assoc.
Qed.

(** ** The program *)

Definition flags_of (fl : cstr) : tropts :=
  mkTro (bool_decide ("c"%char ∈ fl ∨ "C"%char ∈ fl)) (bool_decide ("d"%char ∈ fl)) (bool_decide ("s"%char ∈ fl)).

(** What the runes become before repetitions are dropped, of which runes they are
    dropped, and what is written. *)
Definition tr_runes (o : tropts) (its1 : list titem) (its2 : option (list titem)) (rs : list Z) : list Z :=
  let E1 := listed 0 its1 in let sel r := selected o E1 (λ r, existsb (class_has r) its1) r in
  match its2 with
  | None => if dflag o then List.filter (λ r, negb (sel r)) rs else rs
  | Some its2 => map (λ r, if sel r then into E1 (target_of (length E1) its2) r else r) rs
  end.
Definition squeezes (o : tropts) (its1 : list titem) (its2 : option (list titem)) (r : Z) : bool :=
  match its2 with
  | None => selected o (listed 0 its1) (λ r, existsb (class_has r) its1) r
  | Some its2 => inside (listed (length (listed 0 its1)) its2) (λ r, existsb (class_has r) its2) r
  end.
Definition tr_text (o : tropts) (its1 : list titem) (its2 : option (list titem)) (rs : list Z) : list Z :=
  if sflag o then squeeze (squeezes o its1 its2) None (tr_runes o its1 its2 rs) else tr_runes o its1 its2 rs.

Lemma tr_flag_run argv0 c o s : c ∈ lit "cCds" → tr_flag argv0 c o s =
  Ok (mkTro (cflag o || bool_decide ("c"%char = c ∨ "C"%char = c)) (dflag o || bool_decide ("d"%char = c)) (sflag o || bool_decide ("s"%char = c))) s.
Proof.
  intros Hc. assert (c = "c"%char ∨ c = "C"%char ∨ c = "d"%char ∨ c = "s"%char) as Hcs.
  { revert Hc. unfold lit. cbn. rewrite !elem_of_cons, elem_of_nil. tauto. }
  destruct o as [fc fd fs]. unfold tr_flag. by destruct Hcs as [->|[->|[->| ->]]]; destruct fc, fd, fs.
Qed.
Lemma tr_letters argv0 letters rest o s : Forall (λ c, c ∈ lit "cCds") letters →
  arg_letters (λ _, false) (λ _ _ o, mret o) (tr_flag argv0) (tr_usage argv0) letters rest o s =
  Ok (rest, mkTro (cflag o || cflag (flags_of letters)) (dflag o || dflag (flags_of letters)) (sflag o || sflag (flags_of letters))) s.
Proof.
  intros H. revert o. induction H as [|c l Hc H IH]; intros o; cbn [arg_letters].
  { unfold flags_of. cbn [cflag dflag sflag]. rewrite !bool_decide_eq_false_2 by (rewrite ?elem_of_nil; tauto). rewrite !orb_false_r. by destruct o. }
  unfold mbind. rewrite tr_flag_run by done. rewrite IH. unfold flags_of. cbn [cflag dflag sflag]. do 2 f_equal. rewrite <- !orb_assoc, <- !bool_decide_or.
  f_equal; f_equal; apply bool_decide_ext; rewrite ?elem_of_cons; tauto.
Qed.

Lemma squeeze_none l rs : squeeze_from (λ _, false) l rs = rs.
Proof. revert l. induction rs as [|r rs IH]; intros l; cbn [squeeze_from]; [done|]. by rewrite andb_false_r, IH. Qed.
Lemma squeeze_ext P Q l rs : (∀ r, P r = Q r) → squeeze_from P l rs = squeeze_from Q l rs.
Proof. intros H. revert l. induction rs as [|r rs IH]; intros l; cbn [squeeze_from]; [done|]. by rewrite H, !IH. Qed.
Lemma omap_filter (p : Z → bool) rs : omap (λ r, if p r then None else Some r) rs = List.filter (λ r, negb (p r)) rs.
Proof. induction rs as [|r rs IH]; [done|]. cbn. destruct (p r); cbn; by rewrite IH. Qed.
Lemma omap_total (g : Z → Z) rs : omap (λ r, Some (g r)) rs = map g rs.
Proof. induction rs as [|r rs IH]; [done|]. cbn. by rewrite IH. Qed.

Definition fits (n : nat) (its : list titem) : Prop :=
  Z.of_nat (length (show_set its)) < 2 ^ 64 ∧ Z.of_nat (length (listed n its)) < 2 ^ 64.
(** The operand is not taken for an option. *)
Lemma operand_no_dash its : Forall (titem_ok false) its → head (operand_of its) ≠ Some "-"%char.
Proof.
  intros H. pose proof (show_set_starts false its H) as Hs. unfold operand_of, starts_plain in *.
  assert (Forall rune_ok (show_set its)) as Hr by (apply Forall_concat, Forall_map; eapply Forall_impl; [exact H|]; apply show_titem_runes).
  destruct (show_set its) as [|r rs]; [done|]. apply Forall_cons in Hr as [Hr _]. pose proof (rune_bytes r Hr) as Hby.
  destruct Hr as (Hb & _). destruct (encode_fields r Hb) as (c & cs & E & Hc & Hn & _ & Hj). cbn [encode flat_map]. rewrite E. cbn [app map head].
  intros [= Hch]. assert (c = 45) as -> by (rewrite <- (byte_of_char c) by done; by rewrite Hch).
  change (seq_range 45) with 1%nat in Hn, Hj. destruct cs; [|done]. unfold joined, lead in Hj. simpl in Hj. subst r. by apply Hs.
Qed.

Section run.
Context (o : tropts) (its1 : list titem) (rs : list Z) (out : list Z).
Hypothesis (H1 : Forall (titem_ok false) its1) (Hf1 : fits 0 its1) (Hrs : Forall (λ r, BADRUNE r = false) rs).
Local Abbreviation set1 := (concat (map (ranges_of 0) its1)).
Local Abbreviation c1 := (foldl class_bit 0 its1).
Local Abbreviation E1 := (listed 0 its1).
Local Abbreviation K1 := (λ r, existsb (class_has r) its1).

Lemma set1_spelled : spelled set1 E1.
Proof using H1. by apply (set_spelled false 0). Qed.

Lemma run_one : dflag o ≠ sflag o → (sflag o = true → cflag o = false ∧ head rs ≠ Some 0) →
  tr_loop o 1 set1 c1 [] 0 (S (length (encode rs))) None 0 (mkTr (text_in rs) (text_out out)) =
  Ok tt (mkTr (text_in []) (text_out (out ++ encode (tr_text o its1 None rs)))).
Proof using H1 Hf1 Hrs.
  intros Hds Hsq. set (f r := if sflag o then Some r else if selected o E1 K1 r then None else Some r).
  set (P r := sflag o && inside E1 K1 r).
  rewrite (tr_loop_run o 1 set1 c1 [] 0 f P); [| | |done|].
  - do 5 f_equal. unfold f, P, tr_text, tr_runes, squeezes. cbv zeta. destruct (sflag o); [|destruct (dflag o); [by rewrite squeeze_none, omap_filter|done]].
    destruct (dflag o); [done|]. destruct (Hsq eq_refl) as [Hc Hh]. rewrite squeeze_start by done. cbn [andb].
    assert (omap (λ r, Some r) rs = rs) as -> by (rewrite (omap_total id); apply map_id). apply squeeze_ext. intros r. unfold selected. by rewrite Hc, xorb_false_r.
  - intros r s. unfold f. cbn [andb]. rewrite bool_decide_eq_true_2 by done. cbn [andb]. destruct (sflag o) eqn:Es; [done|].
    destruct (dflag o) eqn:Ed; [|done].
    rewrite (convert_run o E1 K1 Lower [] c1 0 s (check_items its1) (proj2 Hf1)) with (ls := E1) (pre := []);
      [|by intros; congruence|done|apply set1_spelled|apply not_elem_of_nil]. unfold tr_rune. by rewrite Ed.
  - intros r l. unfold squeezed, P. rewrite bool_decide_eq_true_2, (bool_decide_eq_false_2 (1 = 2)%nat) by done. cbn [andb]. rewrite orb_false_r.
    rewrite check_items, (spelled_covers _ _ _ set1_spelled). unfold inside. rewrite (orb_comm (bool_decide _)). destruct (sflag o), (r =? l); done.
  - pose proof (encode_longer rs Hrs). lia.
Qed.

Local Abbreviation n := (length (listed 0 its1)).
Lemma fills_pos : bool_decide (E1 ≠ []) = true → (0 < n)%nat.
Proof using Type. intros H%bool_decide_eq_true. destruct E1; [done|]. simpl. lia. Qed.

Context (its2 : list titem).
Hypothesis (H2 : Forall (titem_ok (bool_decide (listed 0 its1 ≠ []))) its2) (Hf2 : fits (length (listed 0 its1)) its2) (Ht : target_ok its2).
Local Abbreviation set2 := (concat (map (ranges_of (Z.of_nat n)) its2)).
Local Abbreviation c2 := (foldl class_bit 0 its2).

Lemma run_two : dflag o = false → (sflag o = true → head (tr_runes o its1 (Some its2) rs) ≠ Some 0) →
  tr_loop o 2 set1 c1 set2 c2 (S (length (encode rs))) None 0 (mkTr (text_in rs) (text_out out)) =
  Ok tt (mkTr (text_in []) (text_out (out ++ encode (tr_text o its1 (Some its2) rs)))).
Proof using H1 Hf1 Hrs H2 Hf2 Ht.
  intros Hd Hsq. destruct (targets_ok _ n its2 Ht H2 fills_pos (proj2 Hf2)) as [Htg _]. pose proof (set_spelled _ n its2 H2 fills_pos) as Hs2.
  set (g r := if selected o E1 K1 r then into E1 (target_of n its2) r else r).
  set (P r := sflag o && inside (listed n its2) (λ r, existsb (class_has r) its2) r).
  rewrite (tr_loop_run o 2 set1 c1 set2 c2 (λ r, Some (g r)) P); [| | |done|].
  - do 5 f_equal. rewrite omap_total. unfold P, tr_text. destruct (sflag o); [by rewrite squeeze_start by auto|apply squeeze_none].
  - intros r s. rewrite bool_decide_eq_false_2 by done. cbn [andb].
    rewrite (convert_run o E1 K1 (target_of n its2) set2 c1 c2 s (check_items its1) (proj2 Hf1)) with (ls := E1) (pre := []);
      [|done|done|apply set1_spelled|apply not_elem_of_nil]. unfold tr_rune. by rewrite Hd.
  - intros r l. unfold squeezed, P. rewrite (bool_decide_eq_false_2 (2 = 1)%nat), (bool_decide_eq_true_2 (2 = 2)%nat) by done. cbn [andb orb].
    rewrite (spelled_covers _ _ _ Hs2). unfold inside. rewrite <- (check_items its2).
    assert (bool_decide (c2 ≠ 0) && check r c2 = check r c2) as ->.
    { destruct (decide (c2 = 0)) as [H0|H0]; [by rewrite H0|by rewrite bool_decide_eq_true_2]. }
    rewrite (orb_comm (bool_decide _)). destruct (sflag o), (r =? l); done.
  - pose proof (encode_longer rs Hrs). lia.
Qed.
End run.

Lemma tr_options argv0 fl l s : Forall (λ c, c ∈ lit "cCds") fl → (∀ p, head l = Some p → head p ≠ Some "-"%char) → l ≠ [] →
  argbegin (λ _, false) (λ _ _ o, mret o) (tr_flag argv0) (tr_usage argv0)
    (match fl with [] => [] | _ => ["-"%char :: fl] end ++ l) (mkTro false false false) s = Ok (l, flags_of fl) s.
Proof.
  intros Hfl Hl Hne. destruct l as [|p l]; [done|]. specialize (Hl p eq_refl). unfold argbegin. destruct fl as [|c fl].
  { cbn [app length]. by rewrite operands_left by done. }
  cbn [app length]. assert (c ∈ lit "cCds") as Hc by (by apply Forall_cons in Hfl as [? _]).
  rewrite options_next by (intros [-> _]; revert Hc; unfold lit; cbn; rewrite !elem_of_cons, elem_of_nil; intuition discriminate).
  unfold mbind. rewrite tr_letters by done. cbn [fst snd cflag dflag sflag orb]. rewrite operands_left by done. by destruct (flags_of (c :: fl)).
Qed.

(** C7: For operands that are made of characters (no backslash, and no dash or bracket
    for itself), ranges, equivalence classes, decimal repetitions and
    character classes, and for every UTF-8 text, tr writes what the sets say.
    With two sets a rune of the first one (with -c a rune outside of it) becomes
    the rune at the same position of the second, or its last one when there is
    none or the rune belongs to a class; where the second set is [:lower:] or
    [:upper:], its case is changed.  With -d the runes of the set, with -c those
    outside of it, are left out.  With -s repetitions of a rune of the last
    operand are written once; excluded are -c with one operand and -s, which the
    program ignores, and a first rune that is NUL, which it drops. *)
Theorem tr_correct argv0 fl its1 its2 rs out :
  Forall (λ c, c ∈ lit "cCds") fl → Forall (λ r, BADRUNE r = false) rs → Forall (titem_ok false) its1 → fits 0 its1 →
  match its2 with
  | None => dflag (flags_of fl) ≠ sflag (flags_of fl) ∧ (sflag (flags_of fl) = true → cflag (flags_of fl) = false)
  | Some its2 => dflag (flags_of fl) = false ∧ target_ok its2 ∧
      Forall (titem_ok (bool_decide (listed 0 its1 ≠ []))) its2 ∧ fits (length (listed 0 its1)) its2
  end →
  (sflag (flags_of fl) = true → head (tr_runes (flags_of fl) its1 its2 rs) ≠ Some 0) →
  tr_main argv0 (match fl with [] => [] | _ => ["-"%char :: fl] end ++
      operand_of its1 :: match its2 with None => [] | Some its2 => [operand_of its2] end) (mkTr (text_in rs) (text_out out)) =
  Ok 0 (mkTr (text_in []) (text_out (out ++ encode (tr_text (flags_of fl) its1 its2 rs)))).
Proof.
  intros Hfl Hrs H1 Hf1 H2 Hsq. set (o := flags_of fl) in *. unfold tr_main, mbind.
  rewrite tr_options by (done || (intros p [= <-]; by apply operand_no_dash)). fold o.
  destruct its2 as [its2|]; cbn [length lookup list_lookup deref]; rewrite decide_False by (destruct (dflag o), (sflag o); naive_solver lia); unfold mret.
  - destruct H2 as (Hd & Ht & H2 & Hf2). rewrite (makeset_run None false) by (done || apply Hf1). cbn [fst snd]. change (size1 None) with 0.
    pose proof (set1_spelled its1 H1) as Hs1. assert (size1 (Some (concat (map (ranges_of 0) its1))) = Z.of_nat (length (listed 0 its1))) as Hsz by (apply setlen_spelled; [done|apply Hf1]).
    rewrite (makeset_run _ (bool_decide (listed 0 its1 ≠ [])) its2); [|intros Hb%bool_decide_eq_true|done|apply Hf2].
    2:{ destruct (concat (map (ranges_of 0) its1)) as [|r l] eqn:E; [|by eauto]. inversion Hs1 as [E1' E2|]. by rewrite <- E2 in Hb. }
    rewrite Hsz. destruct (targets_ok _ _ its2 Ht H2 (fills_pos its1) (proj2 Hf2)) as (_ & Hn0 & Hc2). cbn [fst snd].
    rewrite decide_False by naive_solver. rewrite decide_False by naive_solver. unfold gets. cbn [t_stdin text_in f_rest fst snd].
    rewrite run_two by done. done.
  - rewrite (makeset_run None false) by (done || apply Hf1). cbn [fst snd]. unfold gets. cbn [t_stdin text_in f_rest].
    destruct H2 as [Hds Hc]. rewrite run_one; [done..|]. intros Es. split; [by apply Hc|]. specialize (Hsq Es). unfold tr_runes in Hsq. cbv zeta in Hsq.
    rewrite Es in Hds. destruct (dflag o); [done|exact Hsq].
Qed.

Lemma tr_correct_witness :
  tr_main "tr" (lits ["-s"; "a-c[:digit:]"; "x[y*]"]) (mkTr (text_in [97; 98; 99; 100; 100; 53]) (text_out [])) =
  Ok 0 (mkTr (text_in []) (text_out (encode [120; 121; 100; 100; 121]))).
Proof.
  apply (tr_correct "tr" (lit "s") [Rng 97 99; Cls 4] (Some [Chr 120; Fill 121]) [97; 98; 99; 100; 100; 53] []).
  - repeat constructor.
  - repeat constructor.
  - repeat constructor; simpl; lia.
  - split; vm_compute; reflexivity.
  - split; [reflexivity|]. split; [split; [done|left]|split].
    + intros k. by rewrite !elem_of_cons, elem_of_nil; intros [?|[?|[]]].
    + repeat constructor; simpl; try done; lia.
    + split; vm_compute; reflexivity.
  - intros _. vm_compute. discriminate.
Defined.
