(* ===== verification/Sort.v ===== *)
(** * sort: src/cmd/posix/sort.c

    Key definitions cut a column out of a line, and two lines are compared by the
    columns of each key in turn, the last key being the whole line.  The lines are
    handed to [qsort], or with -c only compared with their neighbours.  The
    program is taken with its optional features (-s and -z).  [strtod], the
    comparison of doubles and [qsort] belong to the C library and are parameters.
    The status of [enprintf] is not part of an outcome, errors of writing and
    closing are left out.  The proofs are in SortFacts. *)

From stdpp Require Import gmap strings.
From S2P Require Import Prelude CString StrList Args Utf Stdio Strtonum Text RuneType Uniq.

Local Open Scope Z_scope.

Record keydef := mkKey { start_column : Z; end_column : Z; start_char : Z; end_char : Z; kflags : Z }.

Definition MOD_N : Z := Z.shiftl 1 0.
Definition MOD_STARTB : Z := Z.shiftl 1 1.
Definition MOD_ENDB : Z := Z.shiftl 1 2.
Definition MOD_R : Z := Z.shiftl 1 3.
Definition MOD_D : Z := Z.shiftl 1 4.
Definition MOD_F : Z := Z.shiftl 1 5.
Definition MOD_I : Z := Z.shiftl 1 6.
Definition has (flags m : Z) : bool := negb (Z.land flags m =? 0).

(** ** Columns *)

(** A pointer into the line [l] and the length that is left. *)
Record pos := mkPos { off : nat; len : nat }.

Section columns.
Context {S : Type} (fieldsep : option cstr) (l : cstr).

Fixpoint skip (p : ascii → bool) (data : cstr) (a : pos) : pos :=
  match len a, data with
  | Datatypes.S n, c :: data => if p c then skip p data (mkPos (off a + 1) n) else a
  | _, _ => a
  end.
Definition skipblank (a : pos) : pos := skip isblank (drop (off a) l) a.
Definition skipnonblank (a : pos) : pos := skip (λ c, negb (isblank c) && bool_decide (c ≠ NL)) (drop (off a) l) a.
Definition skipcolumn (a : pos) (skip_to_next_col : bool) : M S pos :=
  match fieldsep with
  | Some sep =>
      match memmem (take (len a) (drop (off a) l)) sep with
      | Some s =>
          let s := if skip_to_next_col then (s + length sep)%nat else s in
          mret (mkPos (off a + s) (len a - s))
      | None => if decide (off a + len a = 0)%nat then mub else mret (mkPos (off a + len a - 1) 1)
      end
  | None => mret (skipnonblank (skipblank a))
  end.
Fixpoint skipcolumns (n : nat) (a : pos) : M S pos :=
  match n with
  | O => mret a
  | Datatypes.S n => a <- skipcolumn a true ;; skipcolumns n a
  end.
(** The runes of a line that is terminated by a NUL. *)
Definition next_rune (data : cstr) (o : nat) : M S (Z * nat) :=
  rn <- Utf.chartorune (drop o (map byte_of data ++ [0])) ;;
  r <- deref rn.1 ;; mret (r, rn.2).
Fixpoint skipchars (n : nat) (a : pos) : M S pos :=
  match n with
  | O => mret a
  | Datatypes.S n =>
      if decide (1 < len a)%nat then
        rn <- next_rune l (off a) ;;
        if decide (len a < rn.2)%nat then mub else skipchars n (mkPos (off a + rn.2) (len a - rn.2))
      else mret a
  end.

(** What is copied to [col]. *)
Definition columns (kd : keydef) : M S cstr :=
  start <- skipcolumns (Z.to_nat (start_column kd - 1)) (mkPos 0 (length l)) ;;
  let start := if has (kflags kd) MOD_STARTB then skipblank start else start in
  start <- skipchars (Z.to_nat (start_char kd - 1)) start ;;
  end_ <- (if decide (end_column kd ≠ 0) then
             e <- skipcolumns (Z.to_nat (end_column kd - 1)) (mkPos 0 (length l)) ;;
             let e := if has (kflags kd) MOD_ENDB then skipblank e else e in
             if decide (end_char kd ≠ 0) then skipchars (Z.to_nat (end_char kd)) e
             else skipcolumn e false
           else if decide (length l = 0)%nat then mub else mret (mkPos (length l - 1) 1)) ;;
  mret (take (off end_ - off start) (drop (off start) l)).
End columns.

(** ** Comparison *)

Section compare.
Context {S : Type}.

(** The inner loops of [skipmodcmp]: runes that are left out are passed. *)
Definition left_out (flags r : Z) : bool :=
  if has flags MOD_D && has flags MOD_I then (negb (isblankrune r) && negb (isalnumrune r)) || negb (isprintrune r)
  else if has flags MOD_D then negb (isblankrune r) && negb (isalnumrune r)
  else if has flags MOD_I then negb (isprintrune r)
  else false.
Fixpoint pass (fuel : nat) (flags : Z) (a : cstr) (o : nat) (r : Z) : M S (Z * nat) :=
  if bool_decide (o < length a)%nat && left_out flags r then
    match fuel with
    | O => mfuel
    | Datatypes.S fuel => rn <- next_rune a o ;; pass fuel flags a (o + rn.2) rn.1
    end
  else mret (r, o).
Definition mod_rune (flags : Z) (a : cstr) (o : nat) : M S (Z * nat) :=
  rn <- next_rune a o ;;
  ro <- pass (length a) flags a (o + rn.2) rn.1 ;;
  mret (if has flags MOD_F then toupperrune ro.1 else ro.1, ro.2).
Fixpoint skipmodcmp_loop (fuel : nat) (a b : cstr) (flags : Z) (offa offb : nat) : M S Z :=
  match fuel with
  | O => mfuel
  | Datatypes.S fuel =>
      ra <- mod_rune flags a offa ;;
      rb <- mod_rune flags b offb ;;
      if decide (ra.1 ≠ 0 ∧ ra.1 = rb.1) then skipmodcmp_loop fuel a b flags ra.2 rb.2
      else mret (ra.1 - rb.1)
  end.
Definition skipmodcmp (a b : cstr) (flags : Z) : M S Z := skipmodcmp_loop (Datatypes.S (length a)) a b flags 0 0.

Context {double : Type} (strtod : cstr → double) (dlt : double → double → bool).

Definition numcmp (a b : cstr) : Z :=
  let x := strtod a in let y := strtod b in
  if dlt x y then -1 else if dlt y x then 1 else 0.

Context (fieldsep : option cstr) (uflag : bool).

(** The loop over the keys; [first]: whether no key came before. *)
Fixpoint slinecmp_keys (first : bool) (kds : list keydef) (a b : cstr) : M S Z :=
  match kds with
  | [] => mret 0
  | kd :: kds =>
      col1 <- columns fieldsep a kd ;;
      col2 <- columns fieldsep b kd ;;
      res <- (if uflag && bool_decide (kds = []) && negb first then mret 0
              else if has (kflags kd) MOD_N then mret (numcmp col1 col2)
              else if has (kflags kd) (Z.lor MOD_D (Z.lor MOD_F MOD_I)) then skipmodcmp col1 col2 (kflags kd)
              else mret (linecmp col1 col2)) ;;
      let res := if has (kflags kd) MOD_R then - res else res in
      if decide (res ≠ 0) then mret res else slinecmp_keys false kds a b
  end.
Definition slinecmp (kds : list keydef) (a b : cstr) : M S Z := slinecmp_keys true kds a b.
End compare.

(** ** Key definitions *)

(** [strtol(s, &s, 10)], stored in an [int]. *)
Definition strtol (str : cstr) : Z * cstr :=
  let s := skip_blanks str in
  let '(neg, s) :=
    match s with
    | c :: r =>
        if decide (c = "-"%char) then (true, r)
        else if decide (c = "+"%char) then (false, r) else (false, s)
    | [] => (false, s)
    end in
  let '(v, k, ep) := digits 0 s in
  match k with
  | O => (0, str)
  | S _ => (diff_int (Z.max (- 2 ^ 63) (Z.min (2 ^ 63 - 1) (if neg : bool then - v else v))), ep)
  end.

Definition isalpha (c : ascii) : bool := bool_decide (65 ≤ byte_of c ≤ 90 ∨ 97 ≤ byte_of c ≤ 122).
Fixpoint parse_flags (s : cstr) (flags bflag : Z) : option (cstr * Z) :=
  match s with
  | c :: s' =>
      if isalpha c then
        if decide (c = "b"%char) then parse_flags s' (Z.lor flags bflag) bflag
        else if decide (c = "d"%char) then parse_flags s' (Z.lor flags MOD_D) bflag
        else if decide (c = "f"%char) then parse_flags s' (Z.lor flags MOD_F) bflag
        else if decide (c = "i"%char) then parse_flags s' (Z.lor flags MOD_I) bflag
        else if decide (c = "n"%char) then parse_flags s' (Z.lor flags MOD_N) bflag
        else if decide (c = "r"%char) then parse_flags s' (Z.lor flags MOD_R) bflag
        else None
      else Some (s, flags)
  | [] => Some ([], flags)
  end.

Definition starts (c : ascii) (s : cstr) : bool := bool_decide (head s = Some c).
(** The new key, which is appended to the list. *)
Definition addkeydef (kdstr : cstr) (flags : Z) : M tio keydef :=
  let '(sc, s) := strtol kdstr in
  if decide (sc < 1) then eprintf "invalid start column in key definition"
  else
    let '(sch, s) := if starts "."%char s then strtol (drop 1 s) else (1, s) in
    if decide (sch < 1) then eprintf "invalid start character in key definition"
    else
      match parse_flags s flags MOD_STARTB with
      | None => eprintf "invalid start flags in key definition"
      | Some (s, flags) =>
          if starts ","%char s then
            let '(ec, s) := strtol (drop 1 s) in
            if decide (ec < 0) then eprintf "invalid end column in key definition"
            else
              let '(ech, s) := if starts "."%char s then strtol (drop 1 s) else (0, s) in
              if decide (ech < 0) then eprintf "invalid end character in key definition"
              else
                match parse_flags s flags MOD_ENDB with
                | None => eprintf "invalid end flags in key definition"
                | Some (s, flags) =>
                    if decide (s ≠ []) then eprintf "invalid key definition" else mret (mkKey sc ec sch ech flags)
                end
          else if decide (s ≠ []) then eprintf "invalid key definition" else mret (mkKey sc 0 sch 0 flags)
      end.

(** ** Options *)

Record sopts := mkSo {
  Cflag : bool; cflag : bool; uflag : bool; zflag : bool; sflag : bool;
  fieldsep : option cstr; outfile : option cstr; global_flags : Z; kdhead : list keydef
}.
#[export] Instance eta_sopts : Eta sopts := λ o,
  mkSo (Cflag o) (cflag o) (uflag o) (zflag o) (sflag o) (fieldsep o) (outfile o) (global_flags o) (kdhead o).
Definition so0 : sopts := mkSo false false false false false None None 0 [].

Definition sort_usage {A} (argv0 : cstr) : M tio A :=
  eprintf (lit "usage: " ++ argv0 ++ lit " [-Cbcdfimnrusz] [-o outfile] [-t delim] [-k def]... [file ...]").
Definition sort_takes_arg (c : ascii) : bool := bool_decide (c ∈ lit "kot").
Definition sort_arg (c : ascii) (a : cstr) (o : sopts) : M tio sopts :=
  if decide (c = "k"%char) then kd <- addkeydef a (global_flags o) ;; mret (set kdhead (λ l, l ++ [kd]) o)
  else if decide (c = "o"%char) then mret (set outfile (λ _, Some a) o)
  else if decide (a = []) then eprintf "empty delimiter"
  else sep <- unescape a ;; mret (set fieldsep (λ _, Some sep) o).
Definition sort_flag (argv0 : cstr) (c : ascii) (o : sopts) : M tio sopts :=
  let flag m := mret (set global_flags (λ g, Z.lor g m) o) in
  if decide (c = "C"%char) then mret (set Cflag (λ _, true) o)
  else if decide (c = "b"%char) then flag (Z.lor MOD_STARTB MOD_ENDB)
  else if decide (c = "c"%char) then mret (set cflag (λ _, true) o)
  else if decide (c = "d"%char) then flag MOD_D
  else if decide (c = "f"%char) then flag MOD_F
  else if decide (c = "i"%char) then flag MOD_I
  else if decide (c = "m"%char) then mret o
  else if decide (c = "n"%char) then flag MOD_N
  else if decide (c = "r"%char) then flag MOD_R
  else if decide (c = "s"%char) then mret (set sflag (λ _, true) o)
  else if decide (c = "u"%char) then mret (set uflag (λ _, true) o)
  else if decide (c = "z"%char) then mret (set zflag (λ _, true) o)
  else sort_usage argv0.
Definition sort_options (argv0 : cstr) (args : StrList) : M tio (StrList * sopts) :=
  argbegin sort_takes_arg sort_arg (sort_flag argv0) (sort_usage argv0) args so0.

Definition checking (o : sopts) : bool := Cflag o || cflag o.
(** The keys after the options: the global flags make one if there is none, and
    the whole line is the last one, unless the order is only checked. *)
Definition all_keys (o : sopts) : M tio (list keydef) :=
  kds <- (if decide (kdhead o = [] ∧ global_flags o ≠ 0)
          then kd <- addkeydef "1" (Z.ldiff (global_flags o) (Z.lor MOD_STARTB MOD_ENDB)) ;; mret [kd]
          else mret (kdhead o)) ;;
  if bool_decide (kds = []) || negb (checking o)
  then kd <- addkeydef "1" (Z.land (global_flags o) MOD_R) ;; mret (kds ++ [kd])
  else mret kds.

(** ** Reading *)

(** [getdelim] until it fails. *)
Fixpoint delimited (delim : ascii) (acc s : cstr) : list cstr :=
  match s with
  | [] => match acc with [] => [] | _ => [acc] end
  | c :: s => if decide (c = delim) then (acc ++ [c]) :: delimited delim [] s else delimited delim (acc ++ [c]) s
  end.
Definition delim_of (o : sopts) : ascii := if zflag o then NUL else NL.
Definition getlines_z (fp : FILE) : list cstr := end_line NUL (delimited NUL [] (chars_of fp)).
Definition get_lines (o : sopts) (fp : FILE) : list cstr := if zflag o then getlines_z fp else getlines fp.

Section sort.
Context {double : Type} (strtod : cstr → double) (dlt : double → double → bool).
Context (qsort : ∀ A : Type, (A → A → Z) → list A → list A) (can_write : cstr → bool).

(** The lines and the status so far, the static variable [prev] of [check], and
    whether reading standard input has failed. *)
Record rst := mkR { r_lines : list cstr; r_ret : Z; r_prev : option cstr; r_ferror : bool }.

Section files.
Context (o : sopts) (kds : list keydef).
Definition cmp (a b : cstr) : M tio Z := slinecmp strtod dlt (fieldsep o) (uflag o) kds a b.

Fixpoint check_lines (fname prev : cstr) (lines : list cstr) : M tio (Z * cstr) :=
  match lines with
  | [] => mret (0, prev)
  | cur :: lines =>
      d <- cmp cur prev ;;
      if decide (d < (if uflag o then 1 else 0)) then
        mwhen (negb (Cflag o)) (twarn (lit "disorder " ++ fname ++ lit ": " ++ cur)) ;;
        mret (1, prev)
      else check_lines fname cur lines
  end.
(** A [getdelim] that finds no line leaves [prev] unset. *)
Definition check (fp : FILE) (fname : cstr) (prev : option cstr) : M tio (Z * option cstr) :=
  let lines := delimited (delim_of o) [] (chars_of fp) in
  match prev, lines with
  | None, [] => if f_err fp then eprintf "getdelim:" else mret (0, None)
  | None, l :: lines => r <- check_lines fname l lines ;; mret (r.1, Some r.2)
  | Some l, lines => r <- check_lines fname l lines ;; mret (r.1, Some r.2)
  end.

Definition feed (st : rst) (fp : FILE) (fname : cstr) : M tio rst :=
  if checking o then
    r <- check fp fname (r_prev st) ;;
    mret (mkR (r_lines st) (if decide (r.1 ≠ 0 ∧ r_ret st = 0) then 1 else r_ret st) r.2 (r_ferror st))
  else mret (mkR (r_lines st ++ get_lines o fp) (r_ret st) (r_prev st) (r_ferror st)).
Definition feed_stdin (st : rst) : M tio rst :=
  fp <- take_stdin ;;
  st <- feed st fp "<stdin>" ;;
  mret (mkR (r_lines st) (r_ret st) (r_prev st) (r_ferror st || f_err fp)).
Definition feed_operand (st : rst) (path : cstr) : M tio rst :=
  if decide (path = lit "-") then feed_stdin st
  else
    files <- gets t_files ;;
    match files !! path with
    | None => eprintf (lit "fopen " ++ path ++ lit ":")
    | Some fp =>
        st <- feed st fp path ;;
        mret (mkR (r_lines st) (if f_err fp then 2 else r_ret st) (r_prev st) (r_ferror st))
    end.

(** A comparison of [qsort].  It may compare any two of the lines, so that all
    comparisons have to be defined. *)
Definition outcome {A} (m : M tio A) (s : tio) : option A := match m s with Ok a _ => Some a | _ => None end.
Definition defined (lines : list cstr) (s : tio) : bool :=
  forallb (λ a, forallb (λ b, match outcome (cmp a b) s with Some _ => true | None => false end) lines) lines.
Definition cmp_value (s : tio) (a b : cstr) : Z := default 0 (outcome (cmp a b) s).
Definition slinecmp_stable (s : tio) (a b : cstr * nat) : Z :=
  let res := cmp_value s a.1 b.1 in
  if decide (res = 0) then if decide (a.2 < b.2)%nat then -1 else 1 else res.
Definition sort_lines (lines : list cstr) : M tio (list cstr) :=
  s <- gets id ;;
  if defined lines s then
    mret (if sflag o then map fst (qsort (cstr * nat) (slinecmp_stable s) (combine lines (seq 0 (length lines))))
          else qsort cstr (cmp_value s) lines)
  else mub.

(** The loop that writes the lines. *)
Fixpoint write_lines (prev : option cstr) (lines : list cstr) : M tio unit :=
  match lines with
  | [] => mret tt
  | l :: lines =>
      show <- (if negb (uflag o) then mret true
               else match prev with
                    | None => mret true
                    | Some p => d <- cmp l p ;; mret (bool_decide (d ≠ 0))
                    end) ;;
      mwhen show (write_to (outfile o) l) ;;
      write_lines (Some l) lines
  end.
End files.

Definition sort_main (argv0 : cstr) (args : StrList) : M tio Z :=
  p <- sort_options argv0 args ;;
  let '(argv, o) := p in
  kds <- all_keys o ;;
  let st0 := mkR [] 0 None false in
  st <- (match argv with
         | [] => feed_stdin o kds st0
         | _ => mfold (feed_operand o kds) st0 argv
         end) ;;
  mwhen (negb (checking o))
    ((match outfile o with
      | None => mret tt
      | Some p =>
          if can_write p then modify (set t_files <[p := mkFile [] false]>) else eprintf (lit "fopen " ++ p ++ lit ":")
      end) ;;
     lines <- sort_lines o kds (r_lines st) ;;
     write_lines o kds None lines) ;;
  mret (if r_ferror st then 2 else r_ret st).
End sort.

(** ** Examples *)

(** A concrete [qsort], insertion sort. *)
Fixpoint insert_by {A} (cmp : A → A → Z) (x : A) (l : list A) : list A :=
  match l with
  | [] => [x]
  | y :: l' => if decide (cmp x y ≤ 0) then x :: l else y :: insert_by cmp x l'
  end.
Definition isort (A : Type) (cmp : A → A → Z) (l : list A) : list A := foldr (insert_by cmp) [] l.
(** Numbers of digits only. *)
Definition to_num (s : cstr) : Z := (digits 0 (skip_blanks s)).1.1.
Definition run_sort (args : list string) (input : list string) : option (list cstr * Z) :=
  match sort_main to_num Z.ltb isort (λ _, true) "sort" (lits args)
          (mkTio ∅ (mkFile (bytes_of (concat (map (λ x, lit x ++ [NL]) input))) false) [] []) with
  | Ok ret s => Some (split_lines_from [] (t_out s), ret)
  | _ => None
  end.
Definition shown_lines (l : list string) : list cstr := map (λ x, lit x ++ [NL]) l.
Example sort_plain : run_sort [] ["pear"; "apple"; "fig"] = Some (shown_lines ["apple"; "fig"; "pear"], 0).
Proof. vm_compute. reflexivity. Qed.
Example sort_keys : run_sort ["-t:"; "-k2,2nr"; "-k1"] ["b:2"; "a:2"; "c:10"] = Some (shown_lines ["c:10"; "a:2"; "b:2"], 0).
Proof. vm_compute. reflexivity. Qed.
Example sort_unique : run_sort ["-fu"] ["B"; "a"; "b"; "A"] = Some (shown_lines ["a"; "B"], 0).
Proof. vm_compute. reflexivity. Qed.
(** -s changes nothing: lines with equal keys are still ordered as a whole. *)
Example sort_not_stable : run_sort ["-s"; "-k1,1"] ["a 2"; "a 1"] = Some (shown_lines ["a 1"; "a 2"], 0).
Proof. vm_compute. reflexivity. Qed.
(** An option behind -k does not apply to the key. *)
Example sort_late_flag : run_sort ["-k2"; "-n"] ["x 10"; "x 9"] = Some (shown_lines ["x 10"; "x 9"], 0) ∧
  run_sort ["-n"; "-k2"] ["x 10"; "x 9"] = Some (shown_lines ["x 9"; "x 10"], 0).
Proof. vm_compute. done. Qed.
(** A character to be left out counts when it is the last one of the column. *)
Example sort_last_char : run_sort ["-du"] ["a!b"; "ab"; "a!"; "a"] = Some (shown_lines ["a"; "a!"; "a!b"], 0).
Proof. vm_compute. reflexivity. Qed.
(** With -c and -u the last of several keys is left out: lines that differ in it are
    reported as equal. *)
Example sort_check_unique : run_sort ["-cu"; "-k1,1"; "-k2,2"] ["a 1"; "a 2"] = Some ([], 1).
Proof. vm_compute. reflexivity. Qed.
