(* ===== verification/SortFacts.v ===== *)
(** * sort: the order of lines

    Whatever the keys, the comparison of two lines is defined and a total
    preorder, as long as no line holds a NaN under a numeric key; without -u only equal lines compare as equal, so that the result is
    determined by the lines; with -u one line of each class of equal ones is
    written. *)

From stdpp Require Import gmap strings sorting.
From S2P Require Import Prelude CString StrList Args Utf UtfFacts Stdio Strtonum Text RuneType Uniq Sort.

Local Open Scope Z_scope.

(** ** Comparison functions *)

(** A three-way comparison of the elements of [P], as [qsort] needs it. *)
Record comparator {A} (P : A → Prop) (f : A → A → Z) : Prop := {
  cmp_anti : ∀ a b, P a → P b → f a b < 0 ↔ 0 < f b a;
  cmp_trans : ∀ a b c, P a → P b → P c → f a b ≤ 0 → f b c ≤ 0 → f a c ≤ 0
}.

Lemma comparator_const {A} (P : A → Prop) : comparator P (λ _ _, 0).
Proof. split; intros; lia. Qed.
Lemma comparator_opp {A} (P : A → Prop) f : comparator P f → comparator P (λ a b, - f a b).
Proof.
  intros [H1 H2]. split; cbv beta.
  - intros a b Ha Hb. pose proof (H1 b a Hb Ha). lia.
  - intros a b c Ha Hb Hc Hab Hbc. pose proof (H1 c a Hc Ha). pose proof (H1 b c Hb Hc). pose proof (H1 c b Hc Hb). pose proof (H1 a b Ha Hb).
    pose proof (H1 b a Hb Ha). pose proof (H1 a c Ha Hc). pose proof (H2 c b a Hc Hb Ha). lia.
Qed.
Lemma comparator_on {A B} (P : A → Prop) (Q : B → Prop) (h : A → B) f : comparator Q f → (∀ a, P a → Q (h a)) → comparator P (λ a b, f (h a) (h b)).
Proof. intros [H1 H2] Hh. split; intros; [apply H1|eapply (H2 _ (h b))]; auto. Qed.
Lemma comparator_then {A} (P : A → Prop) f g : comparator P f → comparator P g → comparator P (λ a b, if decide (f a b ≠ 0) then f a b else g a b).
Proof.
  intros [F1 F2] [G1 G2]. split; cbv beta.
  - intros a b Ha Hb. pose proof (F1 a b Ha Hb). pose proof (F1 b a Hb Ha). pose proof (G1 a b Ha Hb). repeat case_decide; lia.
  - intros a b c Ha Hb Hc. pose proof (F2 a b c Ha Hb Hc). pose proof (F2 b a c Hb Ha Hc). pose proof (F2 c b a Hc Hb Ha). pose proof (F2 a c b Ha Hc Hb). pose proof (F2 c a b Hc Ha Hb). pose proof (F2 b c a Hb Hc Ha).
    pose proof (F1 a b Ha Hb). pose proof (F1 b a Hb Ha). pose proof (F1 b c Hb Hc). pose proof (F1 c b Hc Hb). pose proof (F1 a c Ha Hc). pose proof (F1 c a Hc Ha).
    pose proof (G2 a b c Ha Hb Hc). repeat case_decide; lia.
Qed.
Lemma comparator_ext {A} (P : A → Prop) f g : (∀ a b, P a → P b → f a b = g a b) → comparator P f → comparator P g.
Proof. intros E [H1 H2]. split; [intros a b Ha Hb; rewrite <- !E by done; by apply H1|intros a b c Ha Hb Hc; rewrite <- !E by done; by apply H2]. Qed.

Lemma comparator_linecmp : comparator short linecmp.
Proof.
  split.
  - intros a b Ha Hb. rewrite <- (Z.compare_lt_iff (linecmp a b)), <- (Z.compare_gt_iff (linecmp b a)), !linecmp_sign by done.
    rewrite (strcmp_flip a b). destruct (strcmp a b); naive_solver.
  - intros a b c Ha Hb Hc. rewrite <- !Z.compare_le_iff, !linecmp_sign by done. apply (transitivity (R := str_le)).
Qed.

(** Sequences of positive numbers; the end counts as 0. *)
Fixpoint lexdiff (a b : list Z) : Z :=
  match a, b with
  | [], [] => 0
  | [], y :: _ => - y
  | x :: _, [] => x
  | x :: a, y :: b => if decide (x = y) then lexdiff a b else x - y
  end.
Lemma comparator_lexdiff : comparator (Forall (λ r, 0 < r)) lexdiff.
Proof.
  split.
  - intros a b Ha. revert b. induction Ha as [|x a Hx Ha IH]; intros b Hb; destruct Hb as [|y b Hy Hb]; cbn [lexdiff]; try lia.
    repeat case_decide; try lia. by apply IH.
  - intros a b c Ha. revert b c. induction Ha as [|x a Hx Ha IH]; intros b c Hb Hc; destruct Hb as [|y b Hy Hb], Hc as [|z c Hz Hc]; cbn [lexdiff];
      repeat case_decide; subst; try lia; try congruence; eauto.
Qed.

(** ** Columns *)

(** A computation that always gives the same value and leaves the state alone. *)
Definition yields {A} (m : ∀ S : Type, M S A) (a : A) : Prop := ∀ (S : Type) (s : S), m S s = Ok a s.

Lemma next_rune_ok data o : (o ≤ length data)%nat → ∃ r n, yields (λ S, next_rune data o) (r, n) ∧
  0 ≤ r ∧ (0 < n)%nat ∧ (o < length data → o + n ≤ length data)%nat ∧ (o = length data → r = 0).
Proof.
  intros Ho. destruct (chartorune_terminated (drop o (map byte_of data))) as (r & n & Hr & H0 & Hn & Hz).
  { apply Forall_drop, Forall_map, Forall_forall. intros c _. apply byte_of_range. }
  rewrite length_drop, length_map in Hn. exists r, n. split_and!; [|done|lia|lia|].
  - intros S s. unfold next_rune, mbind. rewrite drop_app_le by (by rewrite length_map). by rewrite Hr.
  - intros ->. apply Hz. rewrite drop_ge; [done|]. by rewrite length_map.
Qed.

Lemma memchr_bound l c k : memchr l c = Some k → (k < length l)%nat.
Proof.
  revert k. induction l as [|x l IH]; intros k; cbn [memchr]; [done|]. case_decide; [intros [= <-]; simpl; lia|].
  destruct (memchr l c) as [j|]; [|done]. intros [= <-]. specialize (IH j eq_refl). simpl. lia.
Qed.
Lemma memmem_loop_bound n cur s k : memmem_loop n cur s = Some k → (k ≤ n)%nat.
Proof.
  revert cur k. induction n as [|n IH]; intros cur k; cbn [memmem_loop]; (destruct (_ && _); [intros [= <-]; lia|]); [by destruct cur|].
  destruct cur as [|c cur]; [done|]. destruct (memmem_loop n cur s) as [j|] eqn:E; [|done]. intros [= <-]. specialize (IH _ _ E). lia.
Qed.
Lemma memmem_bound l s k : memmem l s = Some k → (k + length s ≤ length l)%nat.
Proof.
  unfold memmem. destruct s as [|c [|d s]]; [intros [= <-]; simpl; lia| |].
  - case_decide; [done|]. intros Hk%memchr_bound. simpl. lia.
  - case_decide as Hl; [done|]. intros Hk%memmem_loop_bound. simpl in *. lia.
Qed.

Section columns_ok.
Context (fs : option cstr) (l : cstr).
Hypothesis (Hl : l ≠ []).

(** The pointer and the length that is left stay within the line. *)
Definition within (a : pos) : Prop := (off a + len a = length l)%nat.

Lemma skip_within p data a : within a → within (skip p data a).
Proof using Type.
  unfold within. revert a. induction data as [|c data IH]; intros a Ha; unfold skip; fold skip; destruct (len a) eqn:E; try lia.
  destruct (p c); [|lia]. apply IH. cbn [off len]. lia.
Qed.
Lemma blank_within (b : bool) a : within a → within (if b then skipblank l a else a).
Proof using Type. intros Ha. destruct b; [by apply skip_within|done]. Qed.
Lemma skipcolumn_ok a b : within a → ∃ a', yields (λ S, skipcolumn fs l a b) a' ∧ within a'.
Proof using Hl.
  intros Ha. unfold within in *. unfold skipcolumn. assert (0 < length l)%nat by (destruct l; [done|simpl; lia]). destruct fs as [sep|].
  - destruct (memmem (take (len a) (drop (off a) l)) sep) as [k|] eqn:E.
    + apply memmem_bound in E. rewrite length_take, length_drop in E. eexists. split; [intros S s; reflexivity|]. cbn [off len]. destruct b; lia.
    + exists (mkPos (off a + len a - 1) 1). split; [intros S s; by rewrite decide_False by lia|]. cbn [off len]. lia.
  - eexists. split; [intros S s; reflexivity|]. by apply skip_within, skip_within.
Qed.
Lemma skipcolumns_ok n a : within a → ∃ a', yields (λ S, skipcolumns fs l n a) a' ∧ within a'.
Proof using Hl.
  revert a. induction n as [|n IH]; intros a Ha; [by exists a|]. destruct (skipcolumn_ok a true Ha) as (a1 & H1 & Ha1).
  destruct (IH a1 Ha1) as (a2 & H2 & Ha2). exists a2. split; [|done]. intros S s. cbn [skipcolumns]. unfold mbind. rewrite (H1 S). apply H2.
Qed.
Lemma skipchars_ok n a : within a → ∃ a', yields (λ S, skipchars l n a) a' ∧ within a'.
Proof using Type.
  revert a. induction n as [|n IH]; intros a Ha; [by exists a|]. unfold within in *. destruct (decide (1 < len a)%nat) as [Hlen|Hlen].
  - destruct (next_rune_ok l (off a) ltac:(lia)) as (r & k & Hr & _ & Hk & Hb & _). destruct (IH (mkPos (off a + k) (len a - k)) ltac:(cbn [off len]; lia)) as (a2 & H2 & Ha2).
    exists a2. split; [|done]. intros S s. cbn [skipchars]. rewrite decide_True by done. unfold mbind. rewrite (Hr S). cbn [snd]. rewrite decide_False by lia. apply H2.
  - exists a. split; [|done]. intros S s. cbn [skipchars]. by rewrite decide_False.
Qed.

Lemma columns_ok kd : ∃ c, yields (λ S, columns fs l kd) c ∧ (length c ≤ length l)%nat.
Proof using Hl.
  assert (0 < length l)%nat by (destruct l; [done|simpl; lia]).
  assert (within (mkPos 0 (length l))) as H0 by (unfold within; cbn [off len]; lia).
  destruct (skipcolumns_ok (Z.to_nat (start_column kd - 1)) _ H0) as (a1 & E1 & W1).
  set (a2 := if has (kflags kd) MOD_STARTB then skipblank l a1 else a1).
  assert (within a2) as W2 by (by apply blank_within).
  destruct (skipchars_ok (Z.to_nat (start_char kd - 1)) a2 W2) as (a3 & E3 & W3).
  destruct (skipcolumns_ok (Z.to_nat (end_column kd - 1)) _ H0) as (e1 & F1 & V1).
  set (e2 := if has (kflags kd) MOD_ENDB then skipblank l e1 else e1).
  assert (within e2) as V2 by (by apply blank_within).
  destruct (skipchars_ok (Z.to_nat (end_char kd)) e2 V2) as (e3 & F3 & V3). destruct (skipcolumn_ok e2 false V2) as (e4 & F4 & V4).
  set (e := if decide (end_column kd ≠ 0) then if decide (end_char kd ≠ 0) then e3 else e4 else mkPos (length l - 1) 1).
  exists (take (off e - off a3) (drop (off a3) l)). split; [|rewrite length_take, length_drop; lia].
  intros S s. unfold columns, mbind. rewrite (E1 S). fold a2. rewrite (E3 S). unfold e. case_decide.
  - rewrite (F1 S). fold e2. case_decide; [by rewrite (F3 S)|by rewrite (F4 S)].
  - by rewrite decide_False by lia.
Qed.
End columns_ok.

Definition column_of (fs : option cstr) (kd : keydef) (l : cstr) : cstr :=
  match columns fs l kd tt with Ok c _ => c | _ => [] end.
Lemma column_of_ok fs kd l : l ≠ [] → yields (λ S, columns fs l kd) (column_of fs kd l) ∧ (length (column_of fs kd l) ≤ length l)%nat.
Proof. intros Hl. destruct (columns_ok fs l Hl kd) as (c & H & Hlen). unfold column_of. rewrite (H unit tt). done. Qed.

(** ** Runes compared by -d, -f and -i *)

Section mod_runes.
Context (flags : Z) (a : cstr).

Lemma pass_ok fuel o r : 0 ≤ r → (length a ≤ o + fuel)%nat → ∃ r' o', yields (λ S, pass fuel flags a o r) (r', o') ∧
  0 ≤ r' ∧ (o ≤ o')%nat ∧ (o ≤ length a → o' ≤ length a)%nat ∧ ((length a ≤ o)%nat → r' = r).
Proof using Type.
  revert o r. induction fuel as [|fuel IH]; intros o r Hr Hf.
  { exists r, o. split_and!; try done. intros S s. cbn [pass]. by rewrite bool_decide_eq_false_2 by lia. }
  destruct (bool_decide (o < length a)%nat && left_out flags r) eqn:E.
  - apply andb_true_iff in E as E'. destruct E' as [Ho%bool_decide_eq_true _].
    destruct (next_rune_ok a o ltac:(lia)) as (r1 & n & H1 & H0 & Hn & Hb & _).
    destruct (IH (o + n)%nat r1 H0 ltac:(lia)) as (r2 & o2 & H2 & H02 & Ho2 & Hb2 & _). exists r2, o2. split_and!; [|lia..].
    intros S s. cbn [pass]. rewrite E. unfold mbind. rewrite (H1 S). apply H2.
  - exists r, o. split_and!; try done. intros S s. cbn [pass]. by rewrite E.
Qed.

Lemma mod_rune_ok o : (o ≤ length a)%nat → ∃ r o', yields (λ S, mod_rune flags a o) (r, o') ∧ 0 ≤ r ∧ (o < o')%nat ∧
  (o < length a → o' ≤ length a)%nat ∧ (o = length a → r = 0).
Proof using Type.
  intros Ho. destruct (next_rune_ok a o Ho) as (r1 & n & H1 & H0 & Hn & Hb & Hz).
  destruct (pass_ok (length a) (o + n) r1 H0 ltac:(lia)) as (r2 & o2 & H2 & H02 & Ho2 & Hb2 & Hz2).
  exists (if has flags MOD_F then toupperrune r2 else r2), o2. split_and!; [| |lia..|].
  - intros S s. unfold mod_rune, mbind. rewrite (H1 S). cbn [fst snd]. by rewrite (H2 S).
  - destruct (has flags MOD_F); [by apply toupperrune_nonneg|done].
  - intros ->. rewrite Hz2, Hz by lia. by destruct (has flags MOD_F).
Qed.

(** The runes compared, up to the first NUL. *)
Fixpoint mod_seq (fuel : nat) (o : nat) : list Z :=
  match fuel, mod_rune flags a o tt with
  | S fuel, Ok (r, o') _ => if decide (r = 0) then [] else r :: mod_seq fuel o'
  | _, _ => []
  end.
Definition mod_text : list Z := mod_seq (S (length a)) 0.

Lemma mod_seq_pos fuel o : (o ≤ length a)%nat → Forall (λ r, 0 < r) (mod_seq fuel o).
Proof using Type.
  revert o. induction fuel as [|fuel IH]; intros o Ho; [constructor|]. cbn [mod_seq]. destruct (mod_rune_ok o Ho) as (r & o' & -> & Hr & Hlt & Hb & Hz).
  case_decide; [constructor|]. constructor; [lia|]. apply IH. destruct (decide (o = length a)) as [->|]; [by destruct (Hz eq_refl)|lia].
Qed.
End mod_runes.

Lemma skipmodcmp_loop_ok flags a b fuel oa ob : (oa ≤ length a)%nat → (ob ≤ length b)%nat → (length a < oa + fuel)%nat → (fuel ≤ S (length a))%nat →
  ∀ fb, (length b < ob + fb)%nat →
  yields (λ S, skipmodcmp_loop fuel a b flags oa ob) (lexdiff (mod_seq flags a fuel oa) (mod_seq flags b fb ob)).
Proof.
  revert oa ob. induction fuel as [|fuel IH]; intros oa ob Ha Hb Hf Hf' fb Hfb S s; [lia|]. destruct fb as [|fb]; [lia|]. cbn [skipmodcmp_loop mod_seq].
  destruct (mod_rune_ok flags a oa Ha) as (ra & oa' & Ea & Hra & Hlta & Hba & Hza). destruct (mod_rune_ok flags b ob Hb) as (rb & ob' & Eb & Hrb & Hltb & Hbb & Hzb).
  rewrite (Ea unit tt), (Eb unit tt). unfold mbind. rewrite (Ea S), (Eb S). cbn [fst snd].
  destruct (decide (ra = 0)) as [->|Hna].
  { rewrite decide_False by (intros [H _]; by apply H). unfold mret. f_equal. case_decide; subst; cbn [lexdiff]; lia. }
  destruct (decide (rb = 0)) as [->|Hnb]; [rewrite decide_False by (intros [_ H]; congruence); unfold mret; f_equal; cbn [lexdiff]; lia|].
  cbn [lexdiff]. destruct (decide (ra = rb)) as [->|Hne]; [|by rewrite decide_False by (intros [_ H]; congruence)].
  rewrite decide_True by done. apply (IH oa' ob'); lia.
Qed.
Lemma skipmodcmp_ok flags a b : yields (λ S, skipmodcmp a b flags) (lexdiff (mod_text flags a) (mod_text flags b)).
Proof. intros S s. unfold skipmodcmp, mod_text. apply skipmodcmp_loop_ok; lia. Qed.
Lemma mod_text_pos flags a : Forall (λ r, 0 < r) (mod_text flags a).
Proof. apply mod_seq_pos. lia. Qed.

(** ** Keys *)

Section keys.
Context {double : Type} (strtod : cstr → double) (dlt : double → double → bool) (fs : option cstr) (uflag : bool).

(** What two lines give by one key; [only]: whether it is not the last of several. *)
Definition key_value (skip : bool) (kd : keydef) (a b : cstr) : Z :=
  let c1 := column_of fs kd a in let c2 := column_of fs kd b in
  let res := if skip then 0
    else if has (kflags kd) MOD_N then numcmp strtod dlt c1 c2
    else if has (kflags kd) (Z.lor MOD_D (Z.lor MOD_F MOD_I)) then lexdiff (mod_text (kflags kd) c1) (mod_text (kflags kd) c2)
    else linecmp c1 c2 in
  if has (kflags kd) MOD_R then - res else res.
Fixpoint keys_value (first : bool) (kds : list keydef) (a b : cstr) : Z :=
  match kds with
  | [] => 0
  | kd :: kds =>
      let res := key_value (uflag && bool_decide (kds = []) && negb first) kd a b in
      if decide (res ≠ 0) then res else keys_value false kds a b
  end.

Lemma slinecmp_keys_ok first kds a b : a ≠ [] → b ≠ [] → yields (λ S, slinecmp_keys strtod dlt fs uflag first kds a b) (keys_value first kds a b).
Proof using Type.
  intros Ha Hb. revert first. induction kds as [|kd kds IH]; intros first S s; [done|]. cbn [slinecmp_keys keys_value]. unfold mbind.
  destruct (column_of_ok fs kd a Ha) as [Ea _]. destruct (column_of_ok fs kd b Hb) as [Eb _]. rewrite (Ea S), (Eb S). unfold key_value. cbv zeta.
  destruct (uflag && bool_decide (kds = []) && negb first).
  { unfold mret. case_decide; [done|]. apply IH. }
  destruct (has (kflags kd) MOD_N); [unfold mret; case_decide; [done|apply IH]|].
  destruct (has (kflags kd) (Z.lor MOD_D (Z.lor MOD_F MOD_I))); [rewrite (skipmodcmp_ok _ _ _ S)|unfold mret]; (case_decide; [done|apply IH]).
Qed.

(** Doubles that are no NaN are in order; a line that is compared with -n has a number
    in the columns of those keys. *)
Context (isnan : double → bool).
Definition dcmp (x y : double) : Z := if dlt x y then -1 else if dlt y x then 1 else 0.
Definition doubles_ordered : Prop := comparator (λ x, isnan x = false) dcmp.
Definition numeric (kds : list keydef) (l : cstr) : Prop :=
  ∀ kd, kd ∈ kds → has (kflags kd) MOD_N = true → isnan (strtod (column_of fs kd l)) = false.
Definition line_ok (kds : list keydef) (l : cstr) : Prop := l ≠ [] ∧ short l ∧ numeric kds l.
Hypothesis (Hnum : doubles_ordered).
Context (all : list keydef).
Local Abbreviation line_ok' := (line_ok all).

Lemma key_value_ok skip kd : kd ∈ all → comparator line_ok' (key_value skip kd).
Proof using Hnum.
  intros Hin. assert (∀ f, comparator line_ok' f → comparator line_ok' (λ a b, if has (kflags kd) MOD_R then - f a b else f a b)) as Hr.
  { intros f Hf. destruct (has (kflags kd) MOD_R); [by apply comparator_opp|done]. }
  unfold key_value. cbv zeta. apply (Hr (λ a b, if skip then 0 else _)). destruct skip; [apply comparator_const|].
  destruct (has (kflags kd) MOD_N) eqn:En; [apply (comparator_on _ _ (λ l, strtod (column_of fs kd l)) _ Hnum); intros a (_ & _ & Hn); by apply Hn|].
  destruct (has (kflags kd) (Z.lor MOD_D (Z.lor MOD_F MOD_I))).
  - apply (comparator_on _ _ (λ l, mod_text (kflags kd) (column_of fs kd l)) _ comparator_lexdiff). intros a _. apply mod_text_pos.
  - apply (comparator_on _ _ (column_of fs kd) _ comparator_linecmp). intros a (Ha & Hs & _). destruct (column_of_ok fs kd a Ha) as [_ Hlen]. unfold short in *. lia.
Qed.
Lemma keys_value_ok first kds : kds ⊆ all → comparator line_ok' (keys_value first kds).
Proof using Hnum.
  revert first. induction kds as [|kd kds IH]; intros first Hsub; [apply comparator_const|]. cbn [keys_value].
  apply (comparator_then line_ok' (key_value _ kd)); [apply key_value_ok, Hsub; by left|apply IH; intros x Hx; apply Hsub; by right].
Qed.
End keys.

(** ** The last key *)

Definition whole (g : Z) : keydef := mkKey 1 0 1 0 (Z.land g MOD_R).
Lemma whole_flags g m : Z.land MOD_R m = 0 → has (kflags (whole g)) m = false.
Proof. intros H. unfold has, whole. cbn [kflags]. by rewrite <- Z.land_assoc, H, Z.land_0_r. Qed.
Lemma whole_column fs g l : l ≠ [] → column_of fs (whole g) l = take (length l - 1) l.
Proof.
  intros Hl. assert (length l ≠ 0%nat) by (by destruct l). unfold column_of, columns, mbind.
  rewrite !whole_flags by done. cbn [whole start_column end_column start_char end_char]. change (Z.to_nat (1 - 1)) with 0%nat. cbn [skipcolumns skipchars].
  unfold mret. rewrite decide_False by (intros Hq; by apply Hq). rewrite decide_False by done. cbn [off]. by rewrite Nat.sub_0_r, drop_0.
Qed.

Section last_key.
Context {double : Type} (strtod : cstr → double) (dlt : double → double → bool) (fs : option cstr).

Lemma whole_equal g d a b : last a = Some d → last b = Some d → short a → short b →
  key_value strtod dlt fs false (whole g) a b = 0 → a = b.
Proof using Type.
  intros Ha Hb Sa Sb. assert (∀ l, last l = Some d → l ≠ [] ∧ l = take (length l - 1) l ++ [d]) as Hl.
  { intros l (l' & ->)%last_Some. split; [by destruct l'|]. rewrite length_app. simpl. by rewrite Nat.add_sub, take_app_length. }
  destruct (Hl a Ha) as [Na Ea]. destruct (Hl b Hb) as [Nb Eb]. unfold key_value. cbv zeta. rewrite !whole_column by done.
  rewrite (whole_flags g MOD_N), (whole_flags g (Z.lor _ _)) by done. intros H. assert (linecmp (take (length a - 1) a) (take (length b - 1) b) = 0) as H0 by (destruct (has _ MOD_R); lia).
  etransitivity; [exact Ea|]. etransitivity; [|symmetry; exact Eb]. f_equal. apply strcmp_eq. rewrite <- linecmp_sign, H0; [done|..]; unfold short in *; rewrite length_take; lia.
Qed.
Lemma keys_whole_equal first ks g d a b : last a = Some d → last b = Some d → short a → short b →
  keys_value strtod dlt fs false first (ks ++ [whole g]) a b = 0 → a = b.
Proof using Type.
  intros Ha Hb Sa Sb. revert first. induction ks as [|k ks IH]; intros first; cbn [app keys_value]; case_decide; try done; [|apply IH].
  intros _. apply (whole_equal g d); auto.
Qed.
End last_key.

Lemma addkeydef_one flags s : addkeydef "1" flags s = Ok (mkKey 1 0 1 0 flags) s.
Proof. reflexivity. Qed.
Lemma all_keys_ok o s : checking o = false → ∃ ks, all_keys o s = Ok (ks ++ [whole (global_flags o)]) s.
Proof.
  intros Hc. unfold all_keys, mbind. case_decide.
  - rewrite addkeydef_one. unfold mret. rewrite Hc. cbn [bool_decide orb negb]. rewrite orb_true_r, addkeydef_one. eexists. reflexivity.
  - unfold mret. rewrite Hc, orb_true_r, addkeydef_one. eexists. reflexivity.
Qed.

(** ** qsort *)

(** What [qsort] asks of the comparison, for objects that differ, and what it
    promises. *)
Definition consistent {A} (cmp : A → A → Z) (l : list A) : Prop :=
  (∀ a b, a ∈ l → b ∈ l → a ≠ b → cmp a b < 0 ↔ 0 < cmp b a) ∧
  (∀ a b c, a ∈ l → b ∈ l → c ∈ l → a ≠ b → b ≠ c → a ≠ c → cmp a b ≤ 0 → cmp b c ≤ 0 → cmp a c ≤ 0).
Definition not_after {A} (cmp : A → A → Z) (a b : A) : Prop := a = b ∨ cmp a b ≤ 0.
Definition qsort_ok (qsort : ∀ A : Type, (A → A → Z) → list A → list A) : Prop :=
  ∀ A `{!EqDecision A} (cmp : A → A → Z) l, consistent cmp l → qsort A cmp l ≡ₚ l ∧ StronglySorted (not_after cmp) (qsort A cmp l).

Lemma insert_by_perm {A} (cmp : A → A → Z) x l : insert_by cmp x l ≡ₚ x :: l.
Proof. induction l as [|y l IH]; cbn [insert_by]; [done|]. case_decide; [done|]. rewrite IH. apply Permutation_swap. Qed.
Lemma consistent_sub {A} (cmp : A → A → Z) l l' : l' ⊆ l → consistent cmp l → consistent cmp l'.
Proof. intros H [H1 H2]. split; [intros a b Ha Hb; apply H1; by apply H|intros a b c Ha Hb Hc; apply H2; by apply H]. Qed.
Lemma insert_by_sorted `{!EqDecision A} (cmp : A → A → Z) x l : consistent cmp (x :: l) → StronglySorted (not_after cmp) l → StronglySorted (not_after cmp) (insert_by cmp x l).
Proof.
  intros Hc Hs. revert Hc. induction Hs as [|y l Hs IH Hy]; intros Hc; cbn [insert_by]; [by repeat constructor|].
  destruct Hc as [H1 H2] eqn:EH; clear EH. case_decide as Hxy.
  - constructor; [by constructor|]. constructor; [by right|]. rewrite Forall_forall in *. intros z Hz. unfold not_after.
    destruct (decide_rel eq x z) as [->|Hxz]; [by left|]. right. destruct (Hy z Hz) as [->|Hyz]; [done|].
    destruct (decide_rel eq x y) as [->|Hne]; [done|]. destruct (decide_rel eq y z) as [->|Hyz']; [done|]. apply (H2 x y z); set_solver.
  - assert (consistent cmp (x :: l)) as Hc' by (apply (consistent_sub _ (x :: y :: l)); [set_solver|done]).
    constructor; [by apply IH|]. rewrite (insert_by_perm cmp x l). constructor; [|done]. unfold not_after.
    destruct (decide_rel eq y x) as [->|Hne]; [by left|]. right. specialize (H1 y x ltac:(set_solver) ltac:(set_solver) Hne). lia.
Qed.
Lemma isort_ok : qsort_ok isort.
Proof.
  intros A ? cmp l. unfold isort. induction l as [|x l IH]; intros Hc; cbn [foldr]; [split; [done|constructor]|].
  destruct IH as [Hp Hs]; [apply (consistent_sub _ (x :: l)); [set_solver|done]|]. split; [by rewrite insert_by_perm, Hp|].
  apply insert_by_sorted; [|done]. apply (consistent_sub _ (x :: l)); [|done]. intros y. rewrite !elem_of_cons, Hp. done.
Qed.

(** ** What is written *)

(** With -u a line is left out if it compares as equal to the one before. *)
Definition repeats (c : cstr → cstr → Z) (prev : option cstr) (x : cstr) : bool :=
  match prev with Some p => bool_decide (c x p = 0) | None => false end.
Fixpoint dedup (c : cstr → cstr → Z) (prev : option cstr) (l : list cstr) : list cstr :=
  match l with
  | [] => []
  | x :: l =>
      if repeats c prev x then dedup c (Some x) l
      else x :: dedup c (Some x) l
  end.

Lemma dedup_sub c prev l : dedup c prev l ⊆ l.
Proof.
  revert prev. induction l as [|x l IH]; intros prev; cbn [dedup]; [done|]. specialize (IH (Some x)).
  destruct (repeats c prev x); set_solver.
Qed.

Section dedup.
Context (P : cstr → Prop) (c : cstr → cstr → Z) (Hc : comparator P c).

Lemma cmp_refl a : P a → c a a = 0.
Proof using Hc. intros Ha. pose proof (cmp_anti _ _ Hc a a Ha Ha). lia. Qed.
Lemma cmp_eq a b : P a → P b → c a b = 0 ↔ c b a = 0.
Proof using Hc. intros Ha Hb. pose proof (cmp_anti _ _ Hc a b Ha Hb). pose proof (cmp_anti _ _ Hc b a Hb Ha). lia. Qed.

(** Every line is represented by the line before or by one that is kept. *)
Lemma dedup_all prev l x : (∀ p, prev = Some p → P p) → Forall P l → x ∈ l → ∃ y, (prev = Some y ∨ y ∈ dedup c prev l) ∧ c x y = 0.
Proof using Hc.
  revert prev. induction l as [|z l IH]; intros prev Hp Hl Hx; [by apply elem_of_nil in Hx|]. apply Forall_cons in Hl as [Hz Hl].
  assert (x = z → ∃ y, (prev = Some y ∨ y ∈ dedup c prev (z :: l)) ∧ c x y = 0) as Hhere.
  { intros ->. cbn [dedup]. destruct (repeats c prev z) eqn:E; unfold repeats in E.
    - destruct prev as [p|]; [|done]. apply bool_decide_eq_true in E. exists p. auto.
    - exists z. split; [right; left|by apply cmp_refl]. }
  apply elem_of_cons in Hx as [Hx|Hx]; [by apply Hhere|].
  destruct (IH (Some z)) as (y & Hy & Hxy); [by intros ? [= <-]|done|done|].
  cbn [dedup]. destruct (repeats c prev z) eqn:E; unfold repeats in E.
  - destruct Hy as [[= <-]|Hy]; [|by exists y; auto]. destruct prev as [p|]; [|done]. apply bool_decide_eq_true in E. exists p. split; [auto|].
    assert (P x) as HPx by (rewrite Forall_forall in Hl; auto). specialize (Hp p eq_refl).
    pose proof (cmp_trans _ _ Hc x z p HPx Hz Hp). pose proof (cmp_trans _ _ Hc p z x Hp Hz HPx).
    pose proof (proj1 (cmp_eq x z HPx Hz) Hxy). pose proof (proj1 (cmp_eq z p Hz Hp) E). pose proof (cmp_anti _ _ Hc x p HPx Hp). pose proof (cmp_anti _ _ Hc p x Hp HPx). lia.
  - exists y. split; [|done]. right. destruct Hy as [[= <-]|Hy]; [by left|by right].
Qed.
Lemma dedup_sorted prev l : (∀ p, prev = Some p → P p ∧ Forall (λ y, c p y ≤ 0) l) → Forall P l → StronglySorted (λ a b, c a b ≤ 0) l →
  StronglySorted (λ a b, c a b < 0) (dedup c prev l) ∧ ∀ p, prev = Some p → Forall (λ y, c p y < 0) (dedup c prev l).
Proof using Hc.
  intros Hp Hl Hs. revert prev Hp. induction Hs as [|x l Hs IH Hx]; intros prev Hp; cbn [dedup]; [split; [constructor|]; constructor|].
  apply Forall_cons in Hl as [HPx Hl]. destruct (IH Hl (Some x)) as [IH1 IH2]; [by intros ? [= <-]|]. specialize (IH2 x eq_refl).
  assert (Forall P (dedup c (Some x) l)) as HPd by (rewrite Forall_forall in *; intros y Hy; apply Hl, (dedup_sub _ _ _ _ Hy)).
  assert (∀ p, prev = Some p → c p x ≤ 0 → Forall (λ y, c p y < 0) (dedup c (Some x) l)) as Hfar.
  { intros p Ep Hpx. destruct (Hp p Ep) as [HPp _]. rewrite Forall_forall in *. intros y Hy. specialize (IH2 y Hy). specialize (HPd y Hy).
    pose proof (cmp_trans _ _ Hc y p x HPd HPp HPx). pose proof (cmp_anti _ _ Hc p y HPp HPd). pose proof (cmp_anti _ _ Hc y p HPd HPp).
    pose proof (cmp_anti _ _ Hc x y HPx HPd). lia. }
  destruct (repeats c prev x) eqn:E; unfold repeats in E.
  - split; [done|]. intros p Ep. apply Hfar; [done|]. destruct (Hp p Ep) as [_ H]. by apply Forall_cons in H as [? _].
  - split; [by constructor|]. intros p ->. destruct (Hp p eq_refl) as [HPp H]. apply Forall_cons in H as [Hpx _].
    apply bool_decide_eq_false in E. constructor; [|by apply Hfar]. pose proof (cmp_eq x p HPx HPp). lia.
Qed.
End dedup.

Lemma sorted_weaken {A} (R R' : A → A → Prop) l : (∀ a b, a ∈ l → b ∈ l → R a b → R' a b) → StronglySorted R l → StronglySorted R' l.
Proof.
  intros H Hs. induction Hs as [|x l Hs IH Hx]; [constructor|]. constructor; [apply IH; intros a b Ha Hb; apply H; by right|].
  rewrite Forall_forall in *. intros y Hy. apply H; [by left|by right|auto].
Qed.

(** The lines with their numbers are distinct, and ties are broken by the number. *)
Definition numbered (lines : list cstr) : list (cstr * nat) := combine lines (seq 0 (length lines)).
Lemma numbered_at lines a : a ∈ numbered lines → lines !! a.2 = Some a.1.
Proof.
  unfold numbered. assert (∀ k, a ∈ combine lines (seq k (length lines)) → (k ≤ a.2)%nat ∧ lines !! (a.2 - k)%nat = Some a.1) as H.
  { induction lines as [|l lines IH]; intros k Ha; cbn [length seq combine] in Ha; [by apply elem_of_nil in Ha|].
    apply elem_of_cons in Ha as [->|Ha]; cbn [fst snd]; [by rewrite Nat.sub_diag|]. destruct (IH _ Ha) as [Hk E]. split; [lia|].
    replace (a.2 - k)%nat with (S (a.2 - S k))%nat by lia. done. }
  intros Ha. destruct (H 0%nat Ha) as [_ E]. by rewrite Nat.sub_0_r in E.
Qed.
Lemma numbered_fst lines : map fst (numbered lines) = lines.
Proof. unfold numbered. generalize 0%nat. induction lines as [|l lines IH]; intros k; [done|]. cbn. by rewrite IH. Qed.
Lemma numbered_distinct lines a b : a ∈ numbered lines → b ∈ numbered lines → a ≠ b → a.2 ≠ b.2.
Proof. intros Ha%numbered_at Hb%numbered_at Hne E. apply Hne. rewrite E, Hb in Ha. destruct a, b. simpl in *. congruence. Qed.

Section program.
Context {double : Type} (strtod : cstr → double) (dlt : double → double → bool).
Context (qsort : ∀ A : Type, (A → A → Z) → list A → list A) (can_write : cstr → bool).
Context (o : sopts) (kds : list keydef).
Local Abbreviation c := (keys_value strtod dlt (fieldsep o) (uflag o) true kds).

Lemma cmp_run a b s : a ≠ [] → b ≠ [] → cmp strtod dlt o kds a b s = Ok (c a b) s.
Proof using Type. intros Ha Hb. apply (slinecmp_keys_ok _ _ _ _ _ _ _ _ Ha Hb tio). Qed.
Lemma cmp_value_run a b s : a ≠ [] → b ≠ [] → cmp_value strtod dlt o kds s a b = c a b.
Proof using Type. intros Ha Hb. unfold cmp_value, outcome. by rewrite cmp_run. Qed.
Lemma defined_run lines s : Forall (λ l, l ≠ []) lines → defined strtod dlt o kds lines s = true.
Proof using Type.
  intros H. rewrite Forall_forall in H. unfold defined. apply forallb_forall. intros a Ha%list_elem_of_In. apply forallb_forall. intros b Hb%list_elem_of_In.
  unfold outcome. by rewrite cmp_run by auto.
Qed.

Lemma write_lines_run lines prev s : outfile o = None → Forall (λ l, l ≠ []) lines → (∀ p, prev = Some p → p ≠ []) →
  write_lines strtod dlt o kds prev lines s = tput (concat (if uflag o then dedup c prev lines else lines)) s.
Proof using Type.
  intros Ho Hl. pose proof cmp_run as Hrun. revert Hrun. generalize c as f. intros f Hrun. revert prev s. induction Hl as [|l lines Hne Hl IH]; intros prev s Hp; cbn [write_lines].
  { destruct (uflag o); by rewrite tput_nil. }
  assert (∀ p, Some l = Some p → p ≠ []) as Hp' by (by intros ? [= <-]). unfold mbind. rewrite Ho. unfold write_to, mwhen.
  destruct (uflag o); cbn [negb].
  - cbn [dedup]. assert (∀ b : bool, (match (if b then tput l else mret tt) s with Ok _ s' => write_lines strtod dlt o kds (Some l) lines s' | Die m s' => Die m s' | Ub => Ub | Fuel => Fuel end) =
      tput (concat (if negb b then dedup f (Some l) lines else l :: dedup f (Some l) lines)) s) as Hb.
    { intros [|]; cbn [negb concat]; [rewrite <- tput_app; unfold mbind; destruct (tput l s) as [[] s'| | |]; [by rewrite IH|done..]|]. unfold mret. by rewrite IH. }
    destruct prev as [p|]; cbn [repeats].
    + rewrite Hrun by auto. unfold mret at 1. rewrite Hb. case_bool_decide as E; case_bool_decide; done.
    + unfold mret at 1. apply (Hb true).
  - unfold mret. cbn [concat]. rewrite <- tput_app. unfold mbind. destruct (tput l s) as [[] s'| | |]; [by rewrite IH|done..].
Qed.

Context (isnan : double → bool).
Hypothesis (Hq : qsort_ok qsort) (Hnum : doubles_ordered dlt isnan).
Local Abbreviation line_ok := (line_ok strtod (fieldsep o) isnan kds).

Lemma sort_lines_run lines s : Forall line_ok lines → ∃ l', sort_lines strtod dlt qsort o kds lines s = Ok l' s ∧ l' ≡ₚ lines ∧
  StronglySorted (λ a b, c a b ≤ 0) l'.
Proof using Hq Hnum.
  intros Hl. pose proof (keys_value_ok strtod dlt (fieldsep o) (uflag o) isnan Hnum kds true kds ltac:(done)) as Hc. rewrite Forall_forall in Hl.
  unfold sort_lines, mbind, gets. cbn [id]. rewrite defined_run by (rewrite Forall_forall; intros l H; by destruct (Hl l H)).
  assert (∀ l', l' ≡ₚ lines → StronglySorted (λ a b, a = b ∨ c a b ≤ 0) l' → StronglySorted (λ a b, c a b ≤ 0) l') as Hweak.
  { intros l' Hp Hs. apply (sorted_weaken _ _ _) with (2 := Hs). intros a b Ha Hb [->|H]; [|done]. rewrite (cmp_refl _ _ Hc b); [done|]. apply Hl. by rewrite <- Hp. }
  assert (∀ a b, a ∈ lines → b ∈ lines → cmp_value strtod dlt o kds s a b = c a b) as Hv.
  { intros a b Ha Hb. destruct (Hl a Ha), (Hl b Hb). by apply cmp_value_run. }
  eexists. split; [reflexivity|]. destruct (sflag o).
  - set (f a b := slinecmp_stable strtod dlt o kds s a b). fold (numbered lines).
    pose proof (comparator_then (λ a : cstr * nat, line_ok a.1) (λ a b, c a.1 b.1) (λ a b, Z.of_nat a.2 - Z.of_nat b.2)) as Hthen.
    destruct Hthen as [T1 T2]; [by apply (comparator_on _ line_ok fst)|split; intros; lia|]. cbv beta in T1, T2.
    assert (∀ a, a ∈ numbered lines → a.1 ∈ lines) as Hin by (intros a Ha%numbered_at; by eapply list_elem_of_lookup_2).
    assert (∀ a b, a ∈ numbered lines → b ∈ numbered lines → a ≠ b → let g := if decide (c a.1 b.1 ≠ 0) then c a.1 b.1 else Z.of_nat a.2 - Z.of_nat b.2 in
      (f a b < 0 ↔ g < 0) ∧ (f a b ≤ 0 ↔ g ≤ 0) ∧ (0 < f a b ↔ 0 < g)) as Hg.
    { intros a b Ha Hb Hne g. pose proof (numbered_distinct lines a b Ha Hb Hne). unfold f, slinecmp_stable, g. cbv zeta. rewrite Hv by auto. repeat case_decide; lia. }
    destruct (Hq _ _ f (numbered lines)) as [Hp Hs].
    { split.
      - intros a b Ha Hb Hne. destruct (Hg a b Ha Hb Hne) as (-> & _). destruct (Hg b a Hb Ha ltac:(done)) as (_ & _ & ->). apply T1; apply Hl; auto.
      - intros a b x Ha Hb Hx N1 N2 N3. destruct (Hg a b Ha Hb N1) as (_ & -> & _). destruct (Hg b x Hb Hx N2) as (_ & -> & _). destruct (Hg a x Ha Hx N3) as (_ & -> & _). apply T2; apply Hl; auto. }
    split; [by rewrite Hp, numbered_fst|]. apply Hweak; [by rewrite Hp, numbered_fst|]. apply (StronglySorted_fmap fst (λ a b, a.1 = b.1 ∨ c a.1 b.1 ≤ 0)); [done|].
    apply (sorted_weaken _ _ _) with (2 := Hs). intros a b Ha Hb [->|H]; [by left|]. rewrite Hp in Ha, Hb.
    destruct (decide (a = b)) as [->|Hne]; [by left|]. right. apply (Hg a b Ha Hb Hne) in H. case_decide; lia.
  - destruct (Hq _ _ (cmp_value strtod dlt o kds s) lines) as [Hp Hs].
    { split.
      - intros a b Ha Hb _. rewrite !Hv by done. apply (cmp_anti _ _ Hc); auto.
      - intros a b x Ha Hb Hx _ _ _. rewrite !Hv by done. apply (cmp_trans _ _ Hc); auto. }
    split; [done|]. apply Hweak; [done|]. apply (sorted_weaken _ _ _) with (2 := Hs). intros a b Ha Hb [->|H]; [by left|right]. rewrite Hv in H; [done|..]; by rewrite <- Hp.
Qed.
End program.

(** ** The program *)

Lemma end_line_last d acc s : Forall (λ l, last l = Some d) (end_line d (delimited d acc s)).
Proof.
  revert acc. induction s as [|x s IH]; intros acc; cbn [delimited].
  { destruct acc as [|a acc]; [constructor|]. cbn [end_line]. constructor; [|constructor]. case_decide; [done|]. by rewrite last_snoc. }
  case_decide as Hx; [|apply IH]. subst x. specialize (IH []). cbn [end_line]. destruct (delimited d [] s) as [|l ls].
  - constructor; [|constructor]. rewrite decide_True by apply last_snoc. apply last_snoc.
  - constructor; [by rewrite last_snoc|done].
Qed.
Lemma get_lines_last o fp : Forall (λ l, last l = Some (delim_of o)) (get_lines o fp).
Proof.
  unfold get_lines, delim_of, getlines_z, getlines, lines_of. destruct (zflag o); [apply end_line_last|].
  assert (∀ acc s, split_lines_from acc s = delimited NL acc s) as ->; [|apply end_line_last].
  intros acc s. revert acc. induction s as [|x s IH]; intros acc; [done|]. cbn [split_lines_from delimited]. by rewrite !IH.
Qed.

(** C8: sort of standard input ends with status 0 for every combination of keys and
    options, and every comparison it makes is defined.  It is the composition of
    the keys: the first key decides for which the columns of two lines differ,
    as numbers, as filtered runes or as bytes, and the other way round with r.
    The lines written are those read, in that order; different lines never
    compare as equal, so that what is written does not depend on qsort.  With -u
    it writes lines of which each is before the next one, and one for every line
    read that compares as equal to it.  qsort sorts if the comparison is
    consistent, doubles that are no NaN are in a total order, and under a
    numeric key no line holds a NaN. *)
Theorem sort_correct {double} (strtod : cstr → double) dlt isnan qsort can_write argv0 args o kds s :
  qsort_ok qsort → doubles_ordered dlt isnan →
  sort_options argv0 args s = Ok ([], o) s → checking o = false → outfile o = None → all_keys o s = Ok kds s →
  f_err (t_stdin s) = false → Forall short (get_lines o (t_stdin s)) →
  Forall (numeric strtod (fieldsep o) isnan kds) (get_lines o (t_stdin s)) →
  ∃ out, sort_main strtod dlt qsort can_write argv0 args s =
      Ok 0 (mkTio (t_files s) (mkFile [] false) (t_out s ++ concat out) (t_err s)) ∧
    let lines := get_lines o (t_stdin s) in
    let c := keys_value strtod dlt (fieldsep o) (uflag o) true kds in
    (∀ a b, a ∈ lines → b ∈ lines → cmp strtod dlt o kds a b s = Ok (c a b) s) ∧
    if uflag o then out ⊆ lines ∧ StronglySorted (λ a b, c a b < 0) out ∧ ∀ x, x ∈ lines → ∃ y, y ∈ out ∧ c x y = 0
    else out ≡ₚ lines ∧ StronglySorted (λ a b, c a b ≤ 0) out ∧ ∀ a b, a ∈ lines → b ∈ lines → c a b = 0 → a = b.
Proof.
  intros Hq Hnum Hopt Hck Hout Hk He Hshort Hnan. destruct (all_keys_ok o s Hck) as (ks & Hk'). rewrite Hk in Hk'. injection Hk' as ->. set (kds := ks ++ [whole (global_flags o)]) in *.
  set (lines := get_lines o (t_stdin s)) in *. pose proof (get_lines_last o (t_stdin s)) as Hlast. fold lines in Hlast. rewrite Forall_forall in Hlast, Hshort, Hnan.
  assert (∀ l, l ∈ lines → line_ok strtod (fieldsep o) isnan kds l) as Hok by (intros l Hl; split; [intros ->; by specialize (Hlast [] Hl)|auto]).
  pose proof (keys_value_ok strtod dlt (fieldsep o) (uflag o) isnan Hnum kds true kds ltac:(done)) as Hc. set (c := keys_value strtod dlt (fieldsep o) (uflag o) true kds) in *.
  set (s1 := mkTio (t_files s) (mkFile [] false) (t_out s) (t_err s)).
  destruct (sort_lines_run strtod dlt qsort o kds isnan Hq Hnum lines s1 ltac:(by rewrite Forall_forall)) as (l' & Hs & Hp & Hsort). fold c in Hsort.
  set (out := if uflag o then dedup c None l' else l').
  assert (out ⊆ lines) as Hsub by (intros x; rewrite <- Hp; unfold out; destruct (uflag o); [apply dedup_sub|done]).
  exists out. split; [|split].
  - unfold sort_main, mbind. rewrite Hopt, Hk. cbv zeta. unfold feed_stdin, take_stdin, feed, mbind, gets, modify. cbn [t_stdin].
    rewrite Hck. unfold mret, mwhen. cbn [negb r_lines r_ret r_prev r_ferror app orb]. rewrite Hout.
    change (set t_stdin ?g s) with (mkTio (t_files s) (g (t_stdin s)) (t_out s) (t_err s)). cbv beta. rewrite He. fold lines s1. unfold mbind, mret. rewrite Hs.
    rewrite write_lines_run; [|done|rewrite Hp, Forall_forall; by intros l Hl%Hok; destruct Hl|done]. fold c. fold out. reflexivity.
  - intros x y Hx Hy. apply cmp_run; by apply Hok.
  - unfold out in *. destruct (uflag o) eqn:Eu.
    + split_and!; [done| |].
      * apply (dedup_sorted (line_ok strtod (fieldsep o) isnan kds)); [done|done|rewrite Hp, Forall_forall; auto|done].
      * intros x Hx. destruct (dedup_all (line_ok strtod (fieldsep o) isnan kds) c Hc None l' x) as (y & [Hy|Hy] & E); [done|rewrite Hp, Forall_forall; auto|by rewrite Hp|done|].
        exists y. split; [done|]. auto.
    + split_and!; [done|done|]. intros x y Hx Hy. unfold c, kds. apply (keys_whole_equal _ _ _ true ks _ (delim_of o)); auto.
Qed.

Definition sample_opts : sopts := mkSo false false false false false (Some [":"%char]) None 0 [mkKey 2 2 1 0 MOD_N].
Definition sample_keys : list keydef := [mkKey 2 2 1 0 MOD_N; mkKey 1 0 1 0 0].
Definition sample_lines : list cstr := shown_lines ["b:10"; "a:9"].
Definition sample_state : tio := mkTio ∅ (mkFile (bytes_of (concat sample_lines)) false) [] [].
(** Numbers, of which one stands for a NaN that compares with nothing. *)
Definition nan : Z := -1.
Definition num_lt (x y : Z) : bool := negb (x =? nan) && negb (y =? nan) && (x <? y).
Lemma nums_ordered : doubles_ordered num_lt (Z.eqb nan).
Proof.
  unfold doubles_ordered, dcmp, num_lt, nan. split; intros *; rewrite ?Z.eqb_neq; intros;
    repeat match goal with |- context [?x =? ?y] => destruct (Z.eqb_spec x y); try lia | H : context [?x =? ?y] |- _ => destruct (Z.eqb_spec x y); try lia end; cbn [negb andb] in *;
    repeat match goal with |- context [?x <? ?y] => destruct (Z.ltb_spec x y) | H : context [?x <? ?y] |- _ => destruct (Z.ltb_spec x y) end; lia.
Qed.
Lemma sort_correct_witness : ∃ out,
  sort_main to_num num_lt isort (λ _, true) "sort" (lits ["-t:"; "-k2,2n"]) sample_state =
    Ok 0 (mkTio ∅ (mkFile [] false) ([] ++ concat out) []) ∧
  let c := keys_value to_num num_lt (Some [":"%char]) false true sample_keys in
  (∀ a b, a ∈ sample_lines → b ∈ sample_lines → cmp to_num num_lt sample_opts sample_keys a b sample_state = Ok (c a b) sample_state) ∧
  out ≡ₚ sample_lines ∧ StronglySorted (λ a b, c a b ≤ 0) out ∧ ∀ a b, a ∈ sample_lines → b ∈ sample_lines → c a b = 0 → a = b.
Proof.
  assert (get_lines sample_opts (t_stdin sample_state) = sample_lines) as E by (vm_compute; reflexivity).
  rewrite <- E.
  apply (sort_correct to_num num_lt (Z.eqb nan) isort (λ _, true) "sort" (lits ["-t:"; "-k2,2n"]) sample_opts sample_keys sample_state);
    [apply isort_ok|apply nums_ordered|vm_compute; reflexivity|reflexivity|reflexivity|vm_compute; reflexivity|reflexivity|rewrite E..].
  - repeat constructor; unfold short; vm_compute; reflexivity.
  - repeat (constructor; [intros kd; unfold sample_keys; rewrite !elem_of_cons, elem_of_nil; intros [->|[->|[]]]; vm_compute; done|]). constructor.
Defined.
