(* ===== verification/Tabs.v ===== *)
(** * expand and unexpand: src/cmd/posix/expand.c and unexpand.c

    Both programs read runes and keep the column; expand writes blanks for a tab,
    unexpand tabs and blanks for a span of blanks that has ended.  Columns are of
    type [size_t]; with several tab stops the array of unexpand has an element
    behind the last stop that is never written, that of expand holds 1 there.
    Proved: what unexpand writes is expanded to the same text as what it has
    read. *)

From stdpp Require Import gmap strings pretty.
From S2P Require Import Prelude CString StrList Args Utf UtfFacts Stdio Strtonum.

Local Open Scope Z_scope.

(** ** Streams *)

Record tabst := mkTab { b_files : gmap cstr Utf.FILE; b_stdin : Utf.FILE; b_stdout : Utf.FILE; b_err : list cstr }.
#[export] Instance eta_tabst : Eta tabst := λ s, mkTab (b_files s) (b_stdin s) (b_stdout s) (b_err s).

(** A function on a stream that is not part of the state. *)
Definition on_file {A} (m : M Utf.FILE A) (fp : Utf.FILE) : M tabst (A * Utf.FILE) := λ s,
  match m fp with Ok a fp => Ok (a, fp) s | Die msg _ => Die msg s | Ub => Ub | Fuel => Fuel end.
Definition on_out {A} (m : M Utf.FILE A) : M tabst A := λ s,
  match m (b_stdout s) with
  | Ok a f => Ok a (mkTab (b_files s) (b_stdin s) f (b_err s))
  | Die msg f => Die msg (mkTab (b_files s) (b_stdin s) f (b_err s))
  | Ub => Ub | Fuel => Fuel
  end.
Definition putchar (c : Z) : M tabst unit := on_out (Utf.fwrite [c]) ;; mret tt.
Definition putrune (r : Z) : M tabst unit := on_out (Utf.efputrune r) ;; mret tt.

Definition size_t (z : Z) : Z := z mod 2 ^ 64.

(** ** Lists of tab stops *)

(** [strsep(&str, " ,")]: the field, and what is left of the string. *)
Fixpoint strsep_from (acc s : cstr) : cstr * option cstr :=
  match s with
  | [] => (acc, None)
  | c :: s => if decide (c = " "%char ∨ c = ","%char) then (acc, Some s) else strsep_from (acc ++ [c]) s
  end.
Definition strsep (str : cstr) : cstr * option cstr := strsep_from [] str.
Fixpoint parse_stops (fuel : nat) (tmp : option cstr) (tablist : list Z) : M tabst (list Z) :=
  match tmp with
  | None => mret tablist
  | Some s =>
      match fuel with
      | O => mfuel
      | S fuel =>
          let '(p, tmp) := strsep s in
          if decide (p = []) then eprintf "empty field in tablist"
          else
            n <- estrtonum p 1 (2 ^ 63 - 1) ;;
            match last tablist with
            | Some m => if decide (n ≤ m) then eprintf "tablist must be ascending" else parse_stops fuel tmp (tablist ++ [n])
            | None => parse_stops fuel tmp (tablist ++ [n])
            end
      end
  end.
Definition parselist (s : cstr) : M tabst (list Z) := parse_stops (S (length s)) (Some s) [].

(** [for (i = 0; i < tablistlen; i++) if (col < tablist[i]) break;] *)
Fixpoint stop_after (col : Z) (l : list Z) : nat :=
  match l with
  | [] => O
  | t :: l => if decide (col < t) then O else S (stop_after col l)
  end.

Section tabs.
Context (tablist : list Z).
Definition tablistlen : nat := length tablist.

(** ** expand *)

Section expand.
Context (iflag : bool).

(** [do { col++; putchar(' '); } while (col % t);] *)
Fixpoint pad_to (fuel : nat) (col t : Z) : M tabst Z :=
  let col := size_t (col + 1) in
  putchar 32 ;;
  if decide (t = 0) then mub
  else if decide (col mod t = 0) then mret col
  else match fuel with O => mfuel | S fuel => pad_to fuel col t end.

Definition expand_rune (r : Z) (bol : bool) (col : Z) : M tabst (bool * Z) :=
  if decide (r = 9) then
    let i := if decide (tablistlen = 1%nat) then O else stop_after col tablist in
    t <- deref ((tablist ++ [1]) !! i) ;;
    if bol || negb iflag then col <- pad_to (Z.to_nat t) col t ;; mret (bol, col)
    else putchar 9 ;; mret (bol, t)
  else if decide (r = 8) then putchar 8 ;; mret (false, if decide (col ≠ 0) then col - 1 else col)
  else if decide (r = 10) then putchar 10 ;; mret (true, 0)
  else putrune r ;; mret (if decide (r ≠ 32) then false else bol, size_t (col + 1)).

(** A rune that is not stored leaves [r] as it was. *)
Fixpoint expand_loop (fuel : nat) (fp : Utf.FILE) (r : option Z) (bol : bool) (col : Z) : M tabst Utf.FILE :=
  match fuel with
  | O => mfuel
  | S fuel =>
      g <- on_file Utf.efgetrune fp ;;
      let '(x, n, fp) := g in
      if decide (n = 0) then mret fp
      else
        r <- deref (match x with Some x => Some x | None => r end) ;;
        st <- expand_rune r bol col ;;
        expand_loop fuel fp (Some r) st.1 st.2
  end.
Definition expand (fp : Utf.FILE) : M tabst Utf.FILE := expand_loop (S (length (Utf.f_rest fp))) fp None true 0.
End expand.

(** ** unexpand *)

Section unexpand.
Context (aflag : bool).

(** [for (; last + t <= col; last += t) efputrune('\t')] *)
Fixpoint put_tabs (fuel : nat) (last col t : Z) : M tabst Z :=
  if decide (size_t (last + t) ≤ col) then
    match fuel with
    | O => mfuel
    | S fuel => putrune 9 ;; put_tabs fuel (size_t (last + t)) col t
    end
  else mret last.
Fixpoint put_blanks (fuel : nat) (last col : Z) : M tabst unit :=
  if decide (last < col) then
    match fuel with
    | O => mfuel
    | S fuel => putrune 32 ;; put_blanks fuel (size_t (last + 1)) col
    end
  else mret tt.
(** [for (; j < i; j++)]; [stops] are the elements from [j] on. *)
Fixpoint put_stops (k : nat) (stops : list Z) (last : Z) : M tabst Z :=
  match k, stops with
  | O, _ => mret last
  | S k, t :: stops => putrune 9 ;; put_stops k stops t
  | S _, [] => mub
  end.
Definition unexpandspan (last col : Z) : M tabst unit :=
  if decide (tablistlen = 1%nat) then
    t <- deref (tablist !! 0%nat) ;;
    if decide (t = 0) then mub
    else
      let off := last mod t in
      let last := if decide (t ≤ size_t (size_t (col - last) + off) ∧ last < col) then size_t (last - off) else last in
      last <- put_tabs (Z.to_nat col) last col t ;;
      put_blanks (Z.to_nat (col - last)) last col
  else
    let i := stop_after col tablist in
    let j := stop_after last tablist in
    last <- put_stops (i - j) (drop j tablist) last ;;
    put_blanks (Z.to_nat (col - last)) last col.

(** One turn of the loop: the new values of [last], [col] and [bol]. *)
Definition unexpand_rune (r : Z) (last col : Z) (bol : bool) : M tabst (Z * Z * bool) :=
  let plain := negb bol && negb aflag in
  st <- (if decide (r = 32) then mret (if plain then size_t (last + 1) else last, size_t (col + 1), bol)
         else if decide (r = 9) then
           if decide (tablistlen = 1%nat) then
             t <- deref (tablist !! 0%nat) ;;
             if decide (t = 0) then mub
             else mret (if plain then size_t (last + size_t (t - col mod t)) else last, size_t (col + size_t (t - col mod t)), bol)
           else
             t <- deref (tablist !! stop_after col tablist) ;;
             mret (if plain then t else last, t, bol)
         else
           mwhen (bol || aflag) (unexpandspan last col) ;;
           if decide (r = 8) then
             let col := if decide (0 < col) then col - 1 else col in mret (col, col, false)
           else if decide (r = 10) then mret (0, 0, true)
           else let col := size_t (col + 1) in mret (col, col, false)) ;;
  let '(last, col, bol) := st in
  mwhen (bool_decide (r ≠ 32 ∧ r ≠ 9) || (negb aflag && negb bol)) (putrune r) ;;
  mret (last, col, bol).

Fixpoint unexpand_loop (fuel : nat) (fp : Utf.FILE) (r : option Z) (last col : Z) (bol : bool) : M tabst Utf.FILE :=
  match fuel with
  | O => mfuel
  | S fuel =>
      g <- on_file Utf.efgetrune fp ;;
      let '(x, n, fp) := g in
      if decide (n = 0) then
        mwhen (bool_decide (last < col) && (bol || aflag)) (unexpandspan last col) ;; mret fp
      else
        r <- deref (match x with Some x => Some x | None => r end) ;;
        st <- unexpand_rune r last col bol ;;
        let '(last, col, bol) := st in
        unexpand_loop fuel fp (Some r) last col bol
  end.
Definition unexpand (fp : Utf.FILE) : M tabst Utf.FILE := unexpand_loop (S (length (Utf.f_rest fp))) fp None 0 0 true.
End unexpand.
End tabs.

(** ** main *)

Definition fshut (f : Utf.FILE) (fname : cstr) : M tabst Z :=
  if Utf.f_error f then modify (set b_err (λ l, l ++ [lit "ferror " ++ fname ++ lit ":"])) ;; mret 1 else mret 0.

Section main.
Context (body : Utf.FILE → M tabst Utf.FILE).
Definition stdin_body : M tabst unit :=
  fp <- gets b_stdin ;; fp <- body fp ;; modify (set b_stdin (λ _, fp)).
Definition tab_operand (ret : Z) (path : cstr) : M tabst Z :=
  if decide (path = lit "-") then stdin_body ;; mret ret
  else
    files <- gets b_files ;;
    match files !! path with
    | None => modify (set b_err (λ l, l ++ [lit "fopen " ++ path ++ lit ":"])) ;; mret 1
    | Some fp => fp <- body fp ;; f <- fshut fp path ;; mret (if decide (f ≠ 0) then 1 else ret)
    end.
Definition tab_operands (argv : StrList) : M tabst Z :=
  ret <- (match argv with [] => stdin_body ;; mret 0 | _ => mfold tab_operand 0 argv end) ;;
  i <- gets b_stdin ;; i <- fshut i (lit "<stdin>") ;;
  o <- gets b_stdout ;; o <- fshut o (lit "<stdout>") ;;
  mret (Z.lor ret (Z.lor i o)).
End main.

Definition tab_takes_arg (c : ascii) : bool := bool_decide (c = "t"%char).
(** The option -t, which for unexpand is also -a. *)
Definition tab_arg (c : ascii) (a : cstr) (o : bool * cstr) : M tabst (bool * cstr) :=
  if decide (a = []) then eprintf "tablist cannot be empty" else mret (o.1, a).
Definition expand_usage {A} (argv0 : cstr) : M tabst A := eprintf (lit "usage: " ++ argv0 ++ lit " [-i] [-t tablist] [file ...]").
Definition expand_flag (argv0 : cstr) (c : ascii) (o : bool * cstr) : M tabst (bool * cstr) :=
  if decide (c = "i"%char) then mret (true, o.2) else expand_usage argv0.
Definition expand_main (argv0 : cstr) (args : StrList) : M tabst Z :=
  p <- argbegin tab_takes_arg tab_arg (expand_flag argv0) (expand_usage argv0) args (false, lit "8") ;;
  let '(argv, (iflag, tl)) := p in
  tablist <- parselist tl ;;
  tab_operands (expand tablist iflag) argv.

Definition unexpand_usage {A} (argv0 : cstr) : M tabst A := eprintf (lit "usage: " ++ argv0 ++ lit " [-a] [-t tablist] [file ...]").
Definition unexpand_arg (c : ascii) (a : cstr) (o : bool * cstr) : M tabst (bool * cstr) :=
  o <- tab_arg c a o ;; mret (true, o.2).
Definition unexpand_flag (argv0 : cstr) (c : ascii) (o : bool * cstr) : M tabst (bool * cstr) :=
  if decide (c = "a"%char) then mret (true, o.2) else unexpand_usage argv0.
Definition unexpand_main (argv0 : cstr) (args : StrList) : M tabst Z :=
  p <- argbegin tab_takes_arg unexpand_arg (unexpand_flag argv0) (unexpand_usage argv0) args (false, lit "8") ;;
  let '(argv, (aflag, tl)) := p in
  tablist <- parselist tl ;;
  tab_operands (unexpand tablist aflag) argv.

(** ** Examples *)

Definition tab_state (input : list Z) : tabst := mkTab ∅ (mkFILE input false false [] false) (mkFILE [] false false [] false) [].
Definition tab_out (o : out tabst Z) : option cstr := match o with Ok 0 s => Some (map char_of (f_out (b_stdout s))) | _ => None end.
Example expand_tab : tab_out (expand_main "expand" (lits ["-t4"]) (tab_state (map byte_of (TAB :: lit "a" ++ [TAB] ++ lit "b")))) = Some (lit "    a   b").
Proof. vm_compute. reflexivity. Qed.
Example unexpand_all : tab_out (unexpand_main "unexpand" (lits ["-t4"]) (tab_state (map byte_of (lit "     a   b")))) = Some (TAB :: lit " a" ++ [TAB] ++ lit " b").
Proof. vm_compute. reflexivity. Qed.
(** A tab behind the last of several stops: the element after it is read. *)
Example unexpand_past_stops : unexpand_main "unexpand" (lits ["-t2,4"]) (tab_state [97; 97; 97; 97; 97; 9]) = Ub.
Proof. vm_compute. reflexivity. Qed.

(** ** What is written *)

(** The text with blanks for its tabs, from column [col] on. *)
Fixpoint blanks_for (t : Z) (col : Z) (rs : list Z) : list Z :=
  match rs with
  | [] => []
  | r :: rs =>
      if decide (r = 9) then replicate (Z.to_nat (t - col mod t)) 32 ++ blanks_for t (col + (t - col mod t)) rs
      else if decide (r = 8) then 8 :: blanks_for t (Z.max 0 (col - 1)) rs
      else if decide (r = 10) then 10 :: blanks_for t 0 rs
      else r :: blanks_for t (col + 1) rs
  end.
(** Tabs and blanks from column [l] to [col]. *)
Definition span (t l col : Z) : list Z :=
  let k := col / t - l / t in
  if decide (0 < k) then replicate (Z.to_nat k) 9 ++ replicate (Z.to_nat (col mod t)) 32 else replicate (Z.to_nat (col - l)) 32.
Fixpoint tabs_for (t : Z) (aflag : bool) (l col : Z) (bol : bool) (rs : list Z) : list Z :=
  let plain := negb bol && negb aflag in
  match rs with
  | [] => if bol || aflag then span t l col else []
  | r :: rs =>
      if decide (r = 32) then (if plain then [32] else []) ++ tabs_for t aflag (if plain then l + 1 else l) (col + 1) bol rs
      else if decide (r = 9) then
        (if plain then [9] else []) ++ tabs_for t aflag (if plain then l + (t - col mod t) else l) (col + (t - col mod t)) bol rs
      else
        (if bol || aflag then span t l col else []) ++ r ::
        (if decide (r = 8) then tabs_for t aflag (Z.max 0 (col - 1)) (Z.max 0 (col - 1)) false rs
         else if decide (r = 10) then tabs_for t aflag 0 0 true rs
         else tabs_for t aflag (col + 1) (col + 1) false rs)
  end.

Lemma blanks_for_blanks t col n rs : blanks_for t col (replicate n 32 ++ rs) = replicate n 32 ++ blanks_for t (col + Z.of_nat n) rs.
Proof.
  revert col. induction n as [|n IH]; intros col; [simpl; by rewrite Z.add_0_r|]. cbn [replicate app blanks_for].
  rewrite !decide_False by done. rewrite IH. do 3 f_equal. lia.
Qed.
(** From a multiple of [t] on a tab is [t] blanks. *)
Lemma blanks_for_tabs t q n rs : 0 < t → 0 ≤ q → blanks_for t (q * t) (replicate n 9 ++ rs) = replicate (n * Z.to_nat t) 32 ++ blanks_for t ((q + Z.of_nat n) * t) rs.
Proof.
  intros Ht. revert q. induction n as [|n IH]; intros q Hq; [simpl; by rewrite Z.add_0_r|]. cbn [replicate app blanks_for].
  rewrite decide_True by done. rewrite Z.mod_mul, Z.sub_0_r by lia. replace (q * t + t) with ((q + 1) * t) by lia. rewrite IH by lia.
  rewrite app_assoc, <- replicate_add. f_equal. f_equal. lia.
Qed.
Lemma blanks_for_span t l col rs : 0 < t → 0 ≤ l ≤ col → blanks_for t l (span t l col ++ rs) = replicate (Z.to_nat (col - l)) 32 ++ blanks_for t col rs.
Proof.
  intros Ht Hl. unfold span. cbv zeta. case_decide as Hk.
  - pose proof (Z.div_mod l t ltac:(lia)) as Dl. pose proof (Z.mod_pos_bound l t Ht) as Ml. pose proof (Z.div_mod col t ltac:(lia)) as Dc. pose proof (Z.mod_pos_bound col t Ht) as Mc.
    pose proof (Z.div_pos l t ltac:(lia) Ht).
    destruct (Z.to_nat (col / t - l / t)) as [|k] eqn:Ek; [lia|]. cbn [replicate app blanks_for]. rewrite decide_True by done.
    replace (l + (t - l mod t)) with ((l / t + 1) * t) by lia. rewrite <- app_assoc, blanks_for_tabs by lia. rewrite blanks_for_blanks.
    rewrite !app_assoc, <- !replicate_add. replace ((l / t + 1 + Z.of_nat k) * t + Z.of_nat (Z.to_nat (col mod t))) with col by nia.
    f_equal. f_equal. apply Nat2Z.inj. rewrite !Nat2Z.inj_add, Nat2Z.inj_mul, !Z2Nat.id by lia. replace (Z.of_nat k) with (col / t - l / t - 1) by lia. lia.
  - rewrite blanks_for_blanks. f_equal. f_equal. lia.
Qed.

Ltac span_step Hspan IH :=
  rewrite Hspan; f_equal; cbn [blanks_for]; repeat first [rewrite decide_True by done|rewrite decide_False by done];
  f_equal; rewrite IH by (done || lia); by rewrite Z.sub_diag.

(** Between [l] and [col] there are blanks that are still to be written; there are
    none where blanks are written as they come. *)
Lemma blanks_tabs t aflag l col bol rs : 0 < t → 0 ≤ l ≤ col → (bol || aflag = false → l = col) →
  blanks_for t l (tabs_for t aflag l col bol rs) = replicate (Z.to_nat (col - l)) 32 ++ blanks_for t col rs.
Proof.
  intros Ht. revert l col bol. induction rs as [|r rs IH]; intros l col bol Hl Hp; cbn [tabs_for blanks_for].
  { destruct (bol || aflag) eqn:E; [|rewrite Hp by done; rewrite Z.sub_diag; done].
    rewrite <- (app_nil_r (span t l col)), blanks_for_span by done. done. }
  assert (negb bol && negb aflag = negb (bol || aflag)) as -> by (by destruct bol, aflag).
  pose proof (Z.mod_pos_bound col t Ht).
  assert (∀ x, blanks_for t l ((if bol || aflag then span t l col else []) ++ x) = replicate (Z.to_nat (col - l)) 32 ++ blanks_for t col x) as Hspan
    by (intros x; destruct (bol || aflag); [by apply blanks_for_span|rewrite Hp by done; by rewrite Z.sub_diag]).
  repeat case_decide; subst; try congruence.
  - destruct (bol || aflag) eqn:E; cbn [negb app].
    + rewrite IH by (lia || rewrite E; done). replace (Z.to_nat (col + 1 - l)) with (Z.to_nat (col - l) + 1)%nat by lia. rewrite replicate_add, <- app_assoc. done.
    + rewrite Hp in * by done. cbn [blanks_for]. rewrite !decide_False by done. rewrite IH by (lia || rewrite E; done). by rewrite !Z.sub_diag.
  - destruct (bol || aflag) eqn:E; cbn [negb app].
    + rewrite IH by (lia || rewrite E; done). rewrite app_assoc, <- replicate_add. do 2 f_equal. lia.
    + rewrite Hp in * by done. cbn [blanks_for]. rewrite decide_True by done. rewrite IH by (lia || rewrite E; done). by rewrite !Z.sub_diag.
  - span_step Hspan IH.
  - span_step Hspan IH.
  - span_step Hspan IH.
Qed.

(** ** The programs write it *)

Section run.
Context (fs : gmap cstr Utf.FILE) (i : Utf.FILE) (e : list cstr) (t : Z).
Definition st (out : list Z) : tabst := mkTab fs i (mkFILE [] false false out false) e.
Definition text (rs : list Z) : Utf.FILE := mkFILE (encode rs) false false [] false.

Lemma putrune_run r out : putrune r (st out) = Ok tt (st (out ++ encode [r])).
Proof using Type.
  unfold putrune, mbind, on_out. cbn [b_stdout st]. destruct (efputrune_any r [] false out) as (n & ->).
  cbn [encode flat_map]. by rewrite app_nil_r.
Qed.
Lemma putchar_run c out : 0 ≤ c < 128 → putchar c (st out) = Ok tt (st (out ++ encode [c])).
Proof using Type. intros Hc. by rewrite encode_ascii by (constructor; [done|constructor]). Qed.
Lemma encode_cat a b : encode (a ++ b) = encode a ++ encode b.
Proof using Type. unfold encode. apply flat_map_app. Qed.
Lemma size_small z : 0 ≤ z < 2 ^ 64 → size_t z = z.
Proof using Type. apply Z.mod_small. Qed.

Lemma read_rune r rs : BADRUNE r = false → ∀ s, on_file efgetrune (text (r :: rs)) s = Ok (Some r, Z.of_nat (runelen r), text rs) s.
Proof using Type. intros Hr s. unfold on_file, text. cbn [encode flat_map]. by rewrite efgetrune_next. Qed.
Lemma read_end s : on_file efgetrune (text []) s = Ok (None, 0, text []) s.
Proof using Type. reflexivity. Qed.

Lemma put_blanks_run fuel l col out : 0 ≤ l → col < 2 ^ 64 → (Z.to_nat (col - l) ≤ fuel)%nat →
  put_blanks fuel l col (st out) = Ok tt (st (out ++ encode (replicate (Z.to_nat (col - l)) 32))).
Proof using Type.
  revert l out. induction fuel as [|fuel IH]; intros l out Hl Hc Hf; cbn [put_blanks].
  - rewrite decide_False by lia. replace (Z.to_nat (col - l)) with 0%nat by lia. simpl. by rewrite app_nil_r.
  - case_decide as Hlt; [|replace (Z.to_nat (col - l)) with 0%nat by lia; simpl; by rewrite app_nil_r].
    unfold mbind. rewrite putrune_run. rewrite size_small by lia. rewrite IH by lia.
    replace (Z.to_nat (col - l)) with (S (Z.to_nat (col - (l + 1)))) by lia. by rewrite <- app_assoc, <- encode_cat.
Qed.

Hypothesis (Ht : 0 < t).

Lemma put_tabs_run fuel l col out : 0 ≤ l → col + t < 2 ^ 64 → l ≤ col → (Z.to_nat ((col - l) / t) ≤ fuel)%nat →
  put_tabs fuel l col t (st out) = Ok (l + (col - l) / t * t) (st (out ++ encode (replicate (Z.to_nat ((col - l) / t)) 9))).
Proof using Ht.
  revert l out. induction fuel as [|fuel IH]; intros l out Hl Hc Hle Hf; cbn [put_tabs].
  - pose proof (Z.div_pos (col - l) t ltac:(lia) Ht). assert ((col - l) / t = 0) as E by lia.
    pose proof (Z.div_mod (col - l) t ltac:(lia)) as D. pose proof (Z.mod_pos_bound (col - l) t Ht).
    rewrite size_small by lia. rewrite decide_False by lia. rewrite E. unfold mret. simpl. rewrite app_nil_r. do 2 f_equal. lia.
  - rewrite size_small by lia. pose proof (Z.div_mod (col - l) t ltac:(lia)) as D. pose proof (Z.mod_pos_bound (col - l) t Ht). case_decide as Hlt.
    + assert ((col - (l + t)) / t = (col - l) / t - 1) as E.
      { replace (col - (l + t)) with (col - l + (-1) * t) by lia. rewrite Z.div_add by lia. lia. }
      assert (0 < (col - l) / t) by nia. unfold mbind. rewrite putrune_run. rewrite IH by (rewrite ?E; lia). rewrite E.
      replace (Z.to_nat ((col - l) / t)) with (S (Z.to_nat ((col - l) / t - 1))) by lia. rewrite <- app_assoc, <- encode_cat. f_equal. lia.
    + assert ((col - l) / t = 0) as -> by (apply Z.div_small; lia). unfold mret. simpl. rewrite app_nil_r. do 2 f_equal. lia.
Qed.

Lemma unexpandspan_run l col out : 0 ≤ l ≤ col → col + t < 2 ^ 64 → unexpandspan [t] l col (st out) = Ok tt (st (out ++ encode (span t l col))).
Proof using Ht.
  intros Hl Hc. unfold unexpandspan. rewrite decide_True by done. unfold mbind. cbn [deref lookup list_lookup]. unfold mret at 1. rewrite decide_False by lia. cbv zeta.
  pose proof (Z.div_mod l t ltac:(lia)) as Dl. pose proof (Z.mod_pos_bound l t Ht) as Ml. pose proof (Z.div_mod col t ltac:(lia)) as Dc. pose proof (Z.mod_pos_bound col t Ht) as Mc.
  pose proof (Z.div_pos l t ltac:(lia) Ht). pose proof (Z.div_le_mono l col t ltac:(lia) ltac:(lia)). pose proof (Z.mod_le l t ltac:(lia) Ht).
  rewrite (size_small (col - l)), (size_small (col - l + _)), (size_small (l - l mod t)) by lia. unfold span. cbv zeta. case_decide as Hfar.
  - assert ((col - (l - l mod t)) / t = col / t - l / t) as E.
    { replace (col - (l - l mod t)) with (col + (- (l / t)) * t) by lia. rewrite Z.div_add by lia. lia. }
    assert (0 < col / t - l / t) by nia. rewrite decide_True by done.
    assert (col / t ≤ col) by (apply Z.div_le_upper_bound; nia).
    rewrite put_tabs_run by (rewrite ?E; lia). rewrite E. rewrite put_blanks_run by lia. rewrite <- app_assoc, <- encode_cat. do 5 f_equal. f_equal. lia.
  - assert (col / t = l / t) as E by nia. rewrite decide_False by lia.
    assert ((col - l) / t = 0) as E0 by (apply Z.div_small; nia). rewrite put_tabs_run by (rewrite ?E0; lia). rewrite E0.
    simpl. rewrite app_nil_r. rewrite put_blanks_run by lia. do 5 f_equal. lia.
Qed.

Lemma span_none l : 0 ≤ l → span t l l = [].
Proof using Type. intros Hl. unfold span. cbv zeta. rewrite decide_False by lia. by rewrite Z.sub_diag. Qed.

Lemma unexpand_loop_run aflag rs : Forall (λ r, BADRUNE r = false) rs → ∀ fuel r0 l col bol out,
  0 ≤ l ≤ col → col + t * (Z.of_nat (length rs) + 1) < 2 ^ 64 → (bol || aflag = false → l = col) → (length rs < fuel)%nat →
  unexpand_loop [t] aflag fuel (text rs) r0 l col bol (st out) = Ok (text []) (st (out ++ encode (tabs_for t aflag l col bol rs))).
Proof using Ht.
  intros Hrs. induction Hrs as [|r rs Hr Hrs IH]; intros [|fuel] r0 l col bol out Hl Hc Hp Hf; cbn [length] in *; try lia; cbn [unexpand_loop tabs_for]; unfold mbind.
  - rewrite read_end. rewrite decide_True by done. unfold mwhen. destruct (bol || aflag) eqn:E; [|rewrite andb_false_r; unfold mret; simpl; by rewrite app_nil_r].
    rewrite andb_true_r. case_bool_decide; [by rewrite unexpandspan_run by lia|]. assert (col = l) as -> by lia. rewrite span_none by lia. unfold mret. simpl. by rewrite app_nil_r.
  - rewrite (read_rune r rs Hr). pose proof (runelen_pos r Hr). rewrite decide_False by lia. cbn [deref]. unfold mret at 1.
    unfold unexpand_rune, mbind. cbv zeta. unfold mwhen. rewrite (decide_True (P := (tablistlen [t] = 1%nat))) by done.
    pose proof (Z.mod_pos_bound col t Ht) as Hm. pose proof (Z.mod_le col t ltac:(lia) Ht).
    assert (negb bol && negb aflag = negb (bol || aflag)) as Hpl by (by destruct bol, aflag).
    assert (negb aflag && negb bol = negb (bol || aflag)) as Hpl' by (by destruct bol, aflag). rewrite Hpl.
    destruct (decide (r = 32)) as [->|H32]; [|destruct (decide (r = 9)) as [->|H9]].
    + unfold mret at 1. rewrite (bool_decide_eq_false_2 (_ ∧ _)) by tauto. cbn [orb]. rewrite Hpl'.
      destruct (bol || aflag) eqn:E; cbn [negb app]; unfold mret; rewrite ?putrune_run, !size_small by lia; rewrite IH by (lia || rewrite ?E; auto; try lia; intros; congruence || lia); [done|].
      rewrite <- app_assoc, <- encode_cat. done.
    + cbn [deref lookup list_lookup]. unfold mret at 1. rewrite decide_False by lia. unfold mret at 1. rewrite (bool_decide_eq_false_2 (_ ∧ _)) by tauto. cbn [orb]. rewrite Hpl'.
      rewrite (size_small (t - _)) by lia.
      destruct (bol || aflag) eqn:E; cbn [negb app]; unfold mret; rewrite ?putrune_run, !size_small by lia; rewrite IH by (lia || rewrite ?E; auto; try lia; intros; congruence || lia); [done|].
      rewrite <- app_assoc, <- encode_cat. done.
    + assert ((if bol || aflag then unexpandspan [t] l col else mret tt) (st out) = Ok tt (st (out ++ encode (if bol || aflag then span t l col else [])))) as ->.
      { destruct (bol || aflag); [by apply unexpandspan_run; lia|]. simpl. by rewrite app_nil_r. }
      rewrite (size_small (col + 1)) by lia.
      assert (∀ l' bol', 0 ≤ l' ≤ col + 1 →
        match (match mret (l', l', bol') (st (out ++ encode (if bol || aflag then span t l col else []))) with
          | Ok a s' => (let '(last, col, bol) := a in λ s0, match (if bool_decide (r ≠ 32 ∧ r ≠ 9) || (negb aflag && negb bol) then putrune r else mret tt) s0 with
              | Ok _ s'0 => mret (last, col, bol) s'0 | Die msg s'0 => Die msg s'0 | Ub => Ub | Fuel => Fuel end) s'
          | Die msg s' => Die msg s' | Ub => Ub | Fuel => Fuel end) with
        | Ok a s' => (let '(last, col, bol) := a in unexpand_loop [t] aflag fuel (text rs) (Some r) last col bol) s'
        | Die msg s' => Die msg s' | Ub => Ub | Fuel => Fuel end =
        Ok (text []) (st (out ++ encode ((if bol || aflag then span t l col else []) ++ r :: tabs_for t aflag l' l' bol' rs)))) as Hgo.
      { intros l' bol' Hl'. unfold mret. rewrite bool_decide_eq_true_2 by done. cbn [orb]. rewrite putrune_run. rewrite IH; [|lia|nia|done|lia].
        by rewrite <- !app_assoc, <- !encode_cat. }
      destruct (decide (r = 8)) as [->|H8]; [|destruct (decide (r = 10)) as [->|H10]].
      * replace (if decide (0 < col) then col - 1 else col) with (Z.max 0 (col - 1)) by (destruct (decide (0 < col)); lia). apply Hgo. lia.
      * apply Hgo. lia.
      * apply Hgo. lia.
Qed.

Lemma unexpand_run aflag rs out : Forall (λ r, BADRUNE r = false) rs → t * (Z.of_nat (length rs) + 1) < 2 ^ 64 →
  unexpand [t] aflag (text rs) (st out) = Ok (text []) (st (out ++ encode (tabs_for t aflag 0 0 true rs))).
Proof using Ht. intros Hrs Hb. unfold unexpand. apply unexpand_loop_run; try done. pose proof (encode_longer rs Hrs). cbn [text f_rest]. lia. Qed.

(** expand *)
Lemma pad_to_run fuel col out : 0 ≤ col → col + (t - col mod t) < 2 ^ 64 → (Z.to_nat (t - col mod t) ≤ S fuel)%nat →
  pad_to fuel col t (st out) = Ok (col + (t - col mod t)) (st (out ++ encode (replicate (Z.to_nat (t - col mod t)) 32))).
Proof using Ht.
  revert col out. induction fuel as [|fuel IH]; intros col out H0 Hc Hf; cbn [pad_to]; cbv zeta; unfold mbind; rewrite putchar_run by lia;
    rewrite (decide_False (P := t = 0)) by lia; pose proof (Z.mod_pos_bound col t Ht) as Hm; rewrite size_small by lia;
    (destruct (decide (col mod t + 1 = t)) as [E|E];
     [assert ((col + 1) mod t = 0) as E1 by (rewrite <- Zplus_mod_idemp_l, E; by apply Z.mod_same; lia);
      rewrite decide_True by done; replace (t - col mod t) with 1 by lia; done|]); [lia|].
  assert ((col + 1) mod t = col mod t + 1) as E1 by (rewrite <- Zplus_mod_idemp_l; apply Z.mod_small; lia).
  rewrite decide_False by lia.
  rewrite IH by lia. rewrite E1. replace (Z.to_nat (t - col mod t)) with (S (Z.to_nat (t - (col mod t + 1)))) by lia.
  rewrite <- app_assoc, <- encode_cat. f_equal. lia.
Qed.

Lemma expand_loop_run rs : Forall (λ r, BADRUNE r = false) rs → ∀ fuel r0 bol col out,
  0 ≤ col → col + t * (Z.of_nat (length rs) + 1) < 2 ^ 64 → (length rs < fuel)%nat →
  expand_loop [t] false fuel (text rs) r0 bol col (st out) = Ok (text []) (st (out ++ encode (blanks_for t col rs))).
Proof using Ht.
  intros Hrs. induction Hrs as [|r rs Hr Hrs IH]; intros [|fuel] r0 bol col out Hc Hb Hf; cbn [length] in *; try lia; cbn [expand_loop blanks_for]; unfold mbind.
  - rewrite read_end. rewrite decide_True by done. unfold mret. simpl. by rewrite app_nil_r.
  - rewrite (read_rune r rs Hr). pose proof (runelen_pos r Hr). rewrite decide_False by lia. cbn [deref]. unfold mret at 1. unfold expand_rune, mbind.
    pose proof (Z.mod_pos_bound col t Ht). pose proof (Z.mod_le col t ltac:(lia) Ht).
    destruct (decide (r = 9)) as [->|H9]; [|destruct (decide (r = 8)) as [->|H8]; [|destruct (decide (r = 10)) as [->|H10]]].
    + rewrite (decide_True (P := tablistlen [t] = 1%nat)) by done. cbv zeta. cbn [deref app lookup list_lookup]. unfold mret at 1. cbn [negb]. rewrite orb_true_r.
      rewrite pad_to_run by lia. unfold mret. cbn [fst snd]. rewrite IH; [|lia..]. by rewrite <- app_assoc, <- encode_cat.
    + rewrite putchar_run by lia. unfold mret. cbn [fst snd]. replace (if decide (col ≠ 0) then col - 1 else col) with (Z.max 0 (col - 1)) by (destruct (decide (col ≠ 0)); lia).
      rewrite IH; [|lia..]. by rewrite <- app_assoc, <- encode_cat.
    + rewrite putchar_run by lia. unfold mret. cbn [fst snd]. rewrite IH; [|lia..]. by rewrite <- app_assoc, <- encode_cat.
    + rewrite putrune_run. unfold mret. cbn [fst snd]. rewrite size_small by lia. rewrite IH; [|lia..]. by rewrite <- app_assoc, <- encode_cat.
Qed.
Lemma expand_run rs out : Forall (λ r, BADRUNE r = false) rs → t * (Z.of_nat (length rs) + 1) < 2 ^ 64 →
  expand [t] false (text rs) (st out) = Ok (text []) (st (out ++ encode (blanks_for t 0 rs))).
Proof using Ht. intros Hrs Hb. unfold expand. apply expand_loop_run; try done. pose proof (encode_longer rs Hrs). cbn [text f_rest]. lia. Qed.
End run.

(** ** What unexpand writes is text again, and not longer *)

Lemma span_blanks t l col : Forall (λ r, r = 9 ∨ r = 32) (span t l col).
Proof.
  unfold span. cbv zeta. case_decide; rewrite ?Forall_app; [split|]; apply Forall_forall; intros r [-> _]%elem_of_replicate; auto.
Qed.
Lemma tabs_for_valid t aflag rs : Forall (λ r, BADRUNE r = false) rs → ∀ l col bol, Forall (λ r, BADRUNE r = false) (tabs_for t aflag l col bol rs).
Proof.
  assert (∀ (b : bool) l col, Forall (λ r, BADRUNE r = false) (if b then span t l col else [])) as Hs.
  { intros [] l col; [|constructor]. eapply Forall_impl; [apply span_blanks|]. by intros r [-> | ->]. }
  assert (∀ (b : bool) r, BADRUNE r = false → Forall (λ r, BADRUNE r = false) (if b then [r] else [])) as H1
    by (intros [] r Hr; repeat constructor; done).
  induction 1 as [|r rs Hr Hrs IH]; intros l col bol; cbn [tabs_for]; [apply Hs|].
  repeat case_decide; rewrite Forall_app; split; auto; constructor; auto.
Qed.
(** A rune that is read makes the span at most one rune longer. *)
Lemma span_length t l col : 0 < t → 0 ≤ l ≤ col → Z.of_nat (length (span t l col)) =
  if decide (0 < col / t - l / t) then col / t - l / t + col mod t else col - l.
Proof.
  intros Ht Hl. pose proof (Z.mod_pos_bound col t Ht). unfold span. cbv zeta. case_decide; rewrite ?length_app, !length_replicate; lia.
Qed.
Lemma span_next t l col d : 0 < t → 0 ≤ l ≤ col → d = 1 ∨ d = t - col mod t → (length (span t l (col + d)) ≤ S (length (span t l col)))%nat.
Proof.
  intros Ht Hl Hd. apply Nat2Z.inj_le. rewrite Nat2Z.inj_succ. pose proof (Z.mod_pos_bound col t Ht) as Mc. pose proof (Z.div_mod col t ltac:(lia)) as Dc.
  rewrite !span_length by lia. pose proof (Z.div_le_mono l col t Ht ltac:(lia)).
  destruct (decide (d = t - col mod t)) as [->|Hn].
  - assert ((col + (t - col mod t)) / t = col / t + 1) as -> by (symmetry; apply Z.div_unique with 0; lia).
    assert ((col + (t - col mod t)) mod t = 0) as -> by (symmetry; apply Z.mod_unique with (col / t + 1); lia).
    rewrite decide_True by lia. case_decide; lia.
  - assert (d = 1) as -> by lia.
    assert ((col + 1) / t = col / t) as -> by (symmetry; apply Z.div_unique with (col mod t + 1); lia).
    assert ((col + 1) mod t = col mod t + 1) as -> by (symmetry; apply Z.mod_unique with (col / t); lia).
    case_decide; lia.
Qed.
Lemma tabs_for_length t aflag rs : 0 < t → ∀ l col bol, 0 ≤ l ≤ col → (bol || aflag = false → l = col) →
  (length (tabs_for t aflag l col bol rs) ≤ length (if bol || aflag then span t l col else []) + length rs)%nat.
Proof.
  intros Ht. induction rs as [|r rs IH]; intros l col bol Hl Hp; cbn [tabs_for]; [simpl; lia|].
  assert (negb bol && negb aflag = negb (bol || aflag)) as -> by (by destruct bol, aflag). pose proof (Z.mod_pos_bound col t Ht).
  assert (∀ l bol, 0 ≤ l → (length (tabs_for t aflag l l bol rs) ≤ length rs)%nat) as Hgo.
  { intros l' b Hl'. etransitivity; [apply IH; [lia|done]|]. rewrite span_none by done. by destruct (b || aflag). }
  assert (∀ d x, d = 1 ∨ d = t - col mod t → (length ((if negb (bol || aflag) then [x] else []) ++ tabs_for t aflag (if negb (bol || aflag) then l + d else l) (col + d) bol rs)
    ≤ length (if bol || aflag then span t l col else []) + S (length rs))%nat) as Hstep.
  { intros d x Hd. pose proof (span_next t l col d Ht Hl Hd). destruct (bol || aflag) eqn:E; cbn [negb app length].
    - etransitivity; [apply IH; [lia|by rewrite E]|]. rewrite E. lia.
    - rewrite Hp by done. specialize (Hgo (col + d) bol ltac:(lia)). lia. }
  destruct (decide (r = 32)); [apply Hstep; by left|]. destruct (decide (r = 9)); [apply Hstep; by right|].
  rewrite length_app. cbn [length]. apply Nat.add_le_mono_l, le_n_S. repeat case_decide; apply Hgo; lia.
Qed.
Lemma blanks_no_tab t col rs : 9 ∉ blanks_for t col rs.
Proof.
  revert col. induction rs as [|r rs IH]; intros col; cbn [blanks_for]; [apply not_elem_of_nil|].
  repeat case_decide; rewrite ?not_elem_of_app, ?not_elem_of_cons; split; auto. intros [? _]%elem_of_replicate. done.
Qed.

(** ** The programs *)

Lemma strsep_field (w : cstr) : Forall (λ c, c ≠ " "%char ∧ c ≠ ","%char) w → ∀ acc, strsep_from acc w = (acc ++ w, None).
Proof.
  induction 1 as [|c w [H1 H2] Hw IH]; intros acc; cbn [strsep_from]; [by rewrite app_nil_r|].
  rewrite decide_False by tauto. rewrite IH. by rewrite <- app_assoc.
Qed.
Definition stop_arg (w : cstr) (t : Z) : Prop := numeral w t ∧ 1 ≤ t ≤ LLONG_MAX ∧ Forall (λ c, c ≠ " "%char ∧ c ≠ ","%char) w.
Lemma stop_arg_nonempty w t : stop_arg w t → w ≠ [].
Proof. intros [(sp & sgn & ds & -> & _ & Hds & _) _]. destruct sp, sgn, ds; done. Qed.
Lemma parselist_one w t s : stop_arg w t → parselist w s = Ok [t] s.
Proof.
  intros Hw. pose proof (stop_arg_nonempty w t Hw). destruct Hw as (Hn & Hr & Hs). unfold parselist. cbn [parse_stops]. unfold strsep. rewrite strsep_field by done. cbn [app].
  rewrite decide_False by done. unfold mbind, estrtonum.
  assert (strtonum w 1 (2 ^ 63 - 1) = inl t) as -> by (apply strtonum_correct; unfold LLONG_MIN, LLONG_MAX; lia || done).
  by destruct w.
Qed.
Lemma tab_stdin body fs rs e out : body (text rs) (st fs (text rs) e []) = Ok (text []) (st fs (text rs) e out) →
  tab_operands body [] (st fs (text rs) e []) = Ok 0 (st fs (text []) e out).
Proof. intros Hb. unfold tab_operands, stdin_body, mbind, gets. cbn [b_stdin st]. by rewrite Hb. Qed.

(** The command lines of unexpand and expand with one stop: without -t, 8. *)
Definition unexpand_args (w : cstr) (aflag : bool) (args : StrList) : Prop :=
  args = [lit "-t"; w] ∧ aflag = true ∨ w = lit "8" ∧ (args = [] ∧ aflag = false ∨ args = [lit "-a"] ∧ aflag = true).
Definition expand_args (w : cstr) (args : StrList) : Prop := args = [lit "-t"; w] ∨ w = lit "8" ∧ args = [].

Lemma unexpand_main_run argv0 w t aflag args fs rs e : stop_arg w t → unexpand_args w aflag args →
  Forall (λ r, BADRUNE r = false) rs → t * (Z.of_nat (length rs) + 1) < 2 ^ 64 →
  unexpand_main argv0 args (st fs (text rs) e []) = Ok 0 (st fs (text []) e (encode (tabs_for t aflag 0 0 true rs))).
Proof.
  intros Hw Ha Hrs Hb. pose proof (stop_arg_nonempty w t Hw) as Hne. unfold unexpand_main, mbind.
  assert (argbegin tab_takes_arg unexpand_arg (unexpand_flag argv0) (unexpand_usage argv0) args (false, lit "8") (st fs (text rs) e []) = Ok ([], (aflag, w)) (st fs (text rs) e [])) as ->.
  { destruct Ha as [[-> ->]|[-> [[-> ->]|[-> ->]]]]; try reflexivity. destruct w as [|c w]; [done|]. reflexivity. }
  rewrite (parselist_one w t) by done. apply tab_stdin. apply (unexpand_run fs (text rs) e t); [destruct Hw; lia|done..].
Qed.
Lemma expand_main_run argv0 w t args fs rs e : stop_arg w t → expand_args w args →
  Forall (λ r, BADRUNE r = false) rs → t * (Z.of_nat (length rs) + 1) < 2 ^ 64 →
  expand_main argv0 args (st fs (text rs) e []) = Ok 0 (st fs (text []) e (encode (blanks_for t 0 rs))).
Proof.
  intros Hw Ha Hrs Hb. pose proof (stop_arg_nonempty w t Hw) as Hne. unfold expand_main, mbind.
  assert (argbegin tab_takes_arg tab_arg (expand_flag argv0) (expand_usage argv0) args (false, lit "8") (st fs (text rs) e []) = Ok ([], (false, w)) (st fs (text rs) e [])) as ->.
  { destruct Ha as [->|[-> ->]]; try reflexivity. destruct w as [|c w]; [done|]. reflexivity. }
  rewrite (parselist_one w t) by done. apply tab_stdin. apply (expand_run fs (text rs) e t); [destruct Hw; lia|done..].
Qed.

(** C39: with one tab stop, given by -t or the default of 8, unexpand writes a
    text that is not longer than the one it has read and that expand turns into
    the same text, without a tab, as the text that was read; both programs end
    with status 0.  The columns have to fit in [size_t]. *)
Theorem tabs_roundtrip argv0 w t aflag uargs eargs fs rs e :
  stop_arg w t → unexpand_args w aflag uargs → expand_args w eargs →
  Forall (λ r, BADRUNE r = false) rs → t * (Z.of_nat (length rs) + 1) < 2 ^ 64 →
  ∃ us es, (length us ≤ length rs)%nat ∧ 9 ∉ es ∧
    unexpand_main argv0 uargs (st fs (text rs) e []) = Ok 0 (st fs (text []) e (encode us)) ∧
    expand_main argv0 eargs (st fs (text us) e []) = Ok 0 (st fs (text []) e (encode es)) ∧
    expand_main argv0 eargs (st fs (text rs) e []) = Ok 0 (st fs (text []) e (encode es)).
Proof.
  intros Hw Hu He Hrs Hb. assert (0 < t) as Ht by (destruct Hw; lia).
  assert (length (tabs_for t aflag 0 0 true rs) ≤ length rs)%nat as Hlen.
  { etransitivity; [by apply tabs_for_length|]. by rewrite span_none. }
  exists (tabs_for t aflag 0 0 true rs), (blanks_for t 0 rs). split_and!; [done|apply blanks_no_tab|by apply (unexpand_main_run _ w)| |by apply (expand_main_run _ w)].
  rewrite (expand_main_run _ w t) by (done || by apply tabs_for_valid || nia). by rewrite blanks_tabs.
Qed.

(** A tab, three blanks, a letter of two bytes, blanks across a stop and a backspace. *)
Lemma tabs_roundtrip_witness : let rs := [9; 32; 32; 32; 233; 32; 32; 8; 32; 9; 120; 10] in
  tab_out (unexpand_main (lit "unexpand") [lit "-t"; lit "4"] (st ∅ (text rs) [] [])) ≠ None ∧
  ∃ us es, (length us ≤ length rs)%nat ∧ 9 ∉ es ∧
    unexpand_main (lit "tabs") [lit "-t"; lit "4"] (st ∅ (text rs) [] []) = Ok 0 (st ∅ (text []) [] (encode us)) ∧
    expand_main (lit "tabs") [lit "-t"; lit "4"] (st ∅ (text us) [] []) = Ok 0 (st ∅ (text []) [] (encode es)) ∧
    expand_main (lit "tabs") [lit "-t"; lit "4"] (st ∅ (text rs) [] []) = Ok 0 (st ∅ (text []) [] (encode es)).
Proof.
  split; [vm_compute; discriminate|].
  apply (tabs_roundtrip (lit "tabs") (lit "4") 4 true); [|left; done|left; done|repeat constructor|vm_compute; done].
  split; [|split; [vm_compute; split; discriminate|repeat constructor; discriminate]].
  exists [], [], (lit "4"). split_and!; try done; [repeat constructor|]. left. auto.
Defined.
