(* ===== verification/Join.v ===== *)
(** * join: src/cmd/posix/join.c

    Both files are read one line at a time; lines with equal join fields are
    collected in two spans, and every line of the one is joined with every line
    of the other.  A field points into its line, so a comparison of [max] bytes
    may read what follows the shorter field; behind the end of the line
    nothing is known.  Streams are those of Comm.v.  Proved: for files that are sorted
    by their join fields the output is that of two nested loops over the lines. *)

From stdpp Require Import gmap strings sorting.
From S2P Require Import Prelude CString StrList Args Stdio Strtonum Text Uniq Comm.

Local Open Scope Z_scope.

(** ** Data *)

(** The bytes from the pointer to the end of the string, its NUL included. *)
Record field := mkField { s : cstr; len : nat }.
Record jline := mkJline { data : cstr; fields : list field }.
Definition nf (l : jline) : Z := Z.of_nat (length (fields l)).
Record spec := mkSpec { fileno : Z; fldno : Z }.
(** The elements of the array that have been stored, and the number that counts. *)
Record span := mkSpan { nl : nat; lines : list jline }.
Definition initspan : span := mkSpan 0 [].

Record jopts := mkJ { o_jf0 : Z; o_jf1 : Z; o_sep : option cstr; o_replace : option cstr; o_unpairsa : bool; o_unpairsb : bool; o_oflag : bool; o_pairs : bool; o_output : list spec }.
#[export] Instance eta_jopts : Eta jopts := λ o, mkJ (o_jf0 o) (o_jf1 o) (o_sep o) (o_replace o) (o_unpairsa o) (o_unpairsb o) (o_oflag o) (o_pairs o) (o_output o).
Definition j0 : jopts := mkJ 1 1 None None false false false true [].

Definition FIELD_ERROR : Z := -2.

(** [memcmp], as far as the bytes are known. *)
Fixpoint known_cmp (n : nat) (a b : cstr) : option comparison :=
  match n with
  | O => Some Eq
  | S n =>
      match a, b with
      | x :: a, y :: b => match byte_of x ?= byte_of y with Eq => known_cmp n a b | r => Some r end
      | _, _ => None
      end
  end.

(** ** Printing and splitting *)

Section join.
Context (o : jopts).
Let sep := o_sep o.

Definition jput (x : cstr) : M cst unit := modify (set c_out (λ out, out ++ x)).

Definition prfield (f : field) : cstr := take (len f) (s f).
Definition prsep : cstr := match sep with Some x => x | None => [" "%char] end.
Definition prspec (la lb : jline) (joinfield : field) (sp : spec) : cstr :=
  let from l := match fields l !! Z.to_nat (fldno sp) with
                | Some f => prfield f
                | None => match o_replace o with Some r => r | None => [] end
                end in
  if decide (fileno sp = 1) then from la
  else if decide (fileno sp = 2) then from lb
  else if decide (fileno sp = 0) then prfield joinfield else [].
(** [for (i = 0; i < output.ns; i++)], with a separator after all but the last. *)
Fixpoint prspecs (la lb : jline) (joinfield : field) (l : list spec) : cstr :=
  match l with
  | [] => []
  | [sp] => prspec la lb joinfield sp
  | sp :: l => prspec la lb joinfield sp ++ prsep ++ prspecs la lb joinfield l
  end.
Definition others_a (jfa : Z) (fs : list field) : cstr :=
  concat (imap (λ i f, if decide (Z.of_nat i ≠ jfa) then prfield f ++ prsep else []) fs).
Definition others_b (jfb : Z) (fs : list field) : cstr :=
  concat (imap (λ i f, if decide (Z.of_nat i ≠ jfb) then
    prfield f ++ (if decide (Z.of_nat i < Z.of_nat (length fs) - 1) then prsep else []) else []) fs).
Definition prjoin (la lb : jline) (jfa jfb : Z) : cstr :=
  match fields la !! Z.to_nat jfa, fields lb !! Z.to_nat jfb with
  | Some joinfield, Some _ =>
      (if o_oflag o then prspecs la lb joinfield (o_output o)
       else prfield joinfield ++ prsep ++ others_a jfa (fields la) ++ others_b jfb (fields lb)) ++ [NL]
  | _, _ => []
  end.
Definition prline (l : jline) : M cst unit := jput (data l ++ [NL]).

Definition jlinecmp (la lb : jline) (jfa jfb : Z) : M cst Z :=
  match fields la !! Z.to_nat jfa, fields lb !! Z.to_nat jfb with
  | None, None => mret FIELD_ERROR
  | None, Some _ => mret (-1)
  | Some _, None => mret 1
  | Some a, Some b => c <- deref (known_cmp (len a `max` len b) (s a) (s b)) ;; mret (sign c)
  end.

Definition prspanjoin (spa spb : span) (jfa jfb : Z) : M cst unit :=
  mforeach (λ i, mforeach (λ j,
    la <- deref (lines spa !! i) ;; lb <- deref (lines spb !! j) ;; jput (prjoin la lb jfa jfb))
    (seq 0 (nl spb - 1))) (seq 0 (nl spa - 1)).

(** The characters up to a blank, [None] when the line ends first. *)
Fixpoint blank_at (x : cstr) : option nat :=
  match x with
  | [] => None
  | c :: x => if isblank c then Some O else S <$> blank_at x
  end.
(** The fields of the text from [i] on; the last one is added behind the loop. *)
Fixpoint addfields (fuel : nat) (x : cstr) : M cst (list field) :=
  let eol := mret [mkField (x ++ [NUL]) (length x)] in
  match x with
  | [] => eol
  | _ =>
      match fuel with
      | O => mfuel
      | S fuel =>
          match sep with
          | Some sp =>
              if decide (length x < length sp)%nat then eol
              else
                match memmem x sp with
                | None => eol
                | Some k => fs <- addfields fuel (drop (k + length sp) x) ;; mret (mkField (x ++ [NUL]) k :: fs)
                end
          | None =>
              match blank_at x with
              | None => eol
              | Some k => fs <- addfields fuel (skip_while isblank (drop k x)) ;; mret (mkField (x ++ [NUL]) k :: fs)
              end
          end
      end
  end.
Definition makeline (l : cstr) : M cst jline :=
  c <- deref (last l) ;;
  let text := if decide (c = NL) then removelast l else l in
  fs <- addfields (length text) (skip_while isblank text) ;;
  mret (mkJline text fs).

(** ** Spans *)

Definition addtospan (sp : span) (fp : nat) (reset : bool) : M cst (bool * span) :=
  l <- getline fp ;;
  match l with
  | None => e <- ferror fp ;; if (e : bool) then eprintf "getline:" else mret (false, sp)
  | Some l =>
      let n := if reset then 0%nat else nl sp in
      j <- makeline l ;; mret (true, mkSpan (S n) (take n (lines sp) ++ [j]))
  end.
(** [do prline(sp.lines[0]); while (addtospan(&sp, fp, RESET));] *)
Fixpoint print_rest (fuel : nat) (sp : span) (fp : nat) : M cst span :=
  l <- deref (lines sp !! 0%nat) ;; prline l ;;
  r <- addtospan sp fp true ;;
  if (r.1 : bool) then match fuel with O => mfuel | S fuel => print_rest fuel r.2 fp end else mret r.2.
(** All consecutive lines that match, and the next one: whether the file has ended,
    where the last element is one that is not there. *)
Fixpoint collect (fuel : nat) (sp : span) (fp : nat) (cmp : jline → M cst Z) : M cst (bool * span) :=
  r <- addtospan sp fp false ;;
  if (r.1 : bool) then
    l <- deref (lines r.2 !! (nl r.2 - 1)%nat) ;; c <- cmp l ;;
    if decide (c = 0) then match fuel with O => mfuel | S fuel => collect fuel r.2 fp cmp end else mret (false, r.2)
  else mret (true, mkSpan (S (nl r.2)) (lines r.2)).
(** The end of a turn: nothing is left, or the last line becomes the first. *)
Definition keep_last (eof : bool) (sp : span) : M cst span :=
  if eof then mret (mkSpan 0 (lines sp))
  else l <- deref (lines sp !! (nl sp - 1)%nat) ;; mret (mkSpan 1 [l]).

(** ** The loop *)

Context (fa fb : nat) (jfa jfb : Z).

Fixpoint join_loop (fuel : nat) (spa spb : span) : M cst unit :=
  if bool_decide (nl spa = 0%nat) || bool_decide (nl spb = 0%nat) then mret tt
  else
    match fuel with
    | O => mfuel
    | S fuel =>
        la <- deref (lines spa !! 0%nat) ;; lb <- deref (lines spb !! 0%nat) ;;
        cmp <- jlinecmp la lb jfa jfb ;;
        ins <- gets c_ins ;;
        let left := length (concat (map fst ins)) in
        if decide (cmp < 0) then
          mwhen (o_unpairsa o) (prline la) ;;
          ra <- addtospan spa fa true ;;
          if (ra.1 : bool) then join_loop fuel ra.2 spb
          else
            spb <- (if o_unpairsb o then print_rest left spb fb else mret spb) ;;
            spa <- keep_last true ra.2 ;; spb <- keep_last true spb ;; join_loop fuel spa spb
        else if decide (cmp > 0) then
          mwhen (o_unpairsb o) (prline lb) ;;
          rb <- addtospan spb fb true ;;
          if (rb.1 : bool) then join_loop fuel spa rb.2
          else
            spa <- (if o_unpairsa o then print_rest left spa fa else mret spa) ;;
            spa <- keep_last true spa ;; spb <- keep_last true rb.2 ;; join_loop fuel spa spb
        else if decide (cmp = 0) then
          ra <- collect left spa fa (λ l, lb <- deref (lines spb !! 0%nat) ;; jlinecmp l lb jfa jfb) ;;
          rb <- collect left spb fb (λ l, la <- deref (lines ra.2 !! 0%nat) ;; jlinecmp la l jfa jfb) ;;
          mwhen (o_pairs o) (prspanjoin ra.2 rb.2 jfa jfb) ;;
          spa <- keep_last ra.1 ra.2 ;; spb <- keep_last rb.1 rb.2 ;; join_loop fuel spa spb
        else
          mwhen (o_unpairsa o) (prline la) ;; mwhen (o_unpairsb o) (prline lb) ;;
          ra <- addtospan spa fa true ;; rb <- addtospan spb fb true ;;
          if (ra.1 && rb.1 : bool) then join_loop fuel ra.2 rb.2
          else spa <- keep_last (negb ra.1) ra.2 ;; spb <- keep_last (negb rb.1) rb.2 ;; join_loop fuel spa spb
    end.
Definition join : M cst unit :=
  ins <- gets c_ins ;;
  a <- addtospan initspan fa true ;; b <- addtospan initspan fb true ;;
  join_loop (length (concat (map fst ins))) a.2 b.2.
End join.

(** ** main *)

Definition join_usage {A} (argv0 : cstr) : M cst A :=
  eprintf (lit "usage: " ++ argv0 ++ lit " [-1 field] [-2 field] [-o list] [-e string] [-a | -v fileno] [-t delim] file1 file2").
Definition makespec (x : cstr) : M cst spec :=
  if decide (x = lit "0") then mret (mkSpec 0 0)
  else
    match x with
    | c :: d :: x' =>
        if decide ((c = "1"%char ∨ c = "2"%char) ∧ d = "."%char) then
          n <- estrtonum x' 1 (2 ^ 63 - 1) ;; mret (mkSpec (byte_of c - 48) (n - 1))
        else eprintf (x ++ lit ": invalid format")
    | _ => eprintf (x ++ lit ": invalid format")
    end.
(** The items between commas, blanks and tabs. *)
Fixpoint items (acc x : cstr) : list cstr :=
  match x with
  | [] => [acc]
  | c :: x => if decide (c = ","%char ∨ c = " "%char ∨ c = TAB) then acc :: items [] x else items (acc ++ [c]) x
  end.
Definition makeolist (x : cstr) : M cst (list spec) := mfold (λ l i, sp <- makespec i ;; mret (l ++ [sp])) [] (items [] x).

Definition join_takes_arg (c : ascii) : bool := bool_decide (c ∈ lit "12aeotv").
Definition unpair (argv0 fno : cstr) (o : jopts) : M cst jopts :=
  if decide (fno = lit "1") then mret (set o_unpairsa (λ _, true) o)
  else if decide (fno = lit "2") then mret (set o_unpairsb (λ _, true) o) else join_usage argv0.
Definition join_arg (argv0 : cstr) (c : ascii) (a : cstr) (o : jopts) : M cst jopts :=
  if decide (c = "1"%char) then n <- estrtonum a 1 (2 ^ 63 - 1) ;; mret (set o_jf0 (λ _, n) o)
  else if decide (c = "2"%char) then n <- estrtonum a 1 (2 ^ 63 - 1) ;; mret (set o_jf1 (λ _, n) o)
  else if decide (c = "a"%char) then unpair argv0 a o
  else if decide (c = "e"%char) then mret (set o_replace (λ _, Some a) o)
  else if decide (c = "o"%char) then l <- makeolist a ;; mret (set o_output (λ _, l) (set o_oflag (λ _, true) o))
  else if decide (c = "t"%char) then mret (set o_sep (λ _, Some a) o)
  else unpair argv0 a (set o_pairs (λ _, false) o).
Definition join_options (argv0 : cstr) (args : StrList) : M cst (StrList * jopts) :=
  p <- argbegin join_takes_arg (join_arg argv0) (λ _ _, join_usage argv0) (join_usage argv0) args j0 ;;
  match o_sep p.2 with
  | None => mret p
  | Some sep => sep <- unescape sep ;; mret (p.1, set o_sep (λ _, Some sep) p.2)
  end.

Definition join_main (files : gmap cstr FILE) (argv0 : cstr) (args : StrList) : M cst Z :=
  p <- join_options argv0 args ;;
  match p.1 with
  | [a; b] =>
      fp0 <- fopen files a ;; fp1 <- fopen files b ;;
      join p.2 fp0 fp1 (o_jf0 p.2 - 1) (o_jf1 p.2 - 1) ;; mret 0
  | _ => join_usage argv0
  end.

(** ** Examples *)

Definition join_out (args : list string) (a b : list string) : option cstr :=
  match join_main {[ lit "a" := text a; lit "b" := text b ]} "join" (lits args) (mkC [([], false)] []) with
  | Ok 0 s => Some (c_out s)
  | _ => None
  end.
Definition lns (l : list string) : option cstr := Some (concat (map (λ x, lit x ++ [NL]) l)).
Example join_pairs : join_out ["a"; "b"] ["1 x"; "2 y"; "2 z"; "4 w"] ["2 p q"; "2 r s"; "3 t t"] = lns ["2 y p q"; "2 y r s"; "2 z p q"; "2 z r s"].
Proof. vm_compute. reflexivity. Qed.
Example join_list : join_out ["-t,"; "-1"; "2"; "-o"; "0,1.1 2.3"; "-e-"; "a"; "b"] ["x,1"; "y,2"] ["1,p"; "2,q,r"] = lns ["1,x,-"; "2,y,r"].
Proof. vm_compute. reflexivity. Qed.
(** The separator in front of the fields of the second file is printed also when it has none. *)
Example join_trailing_sep : join_out ["a"; "b"] ["1 x"] ["1"] = lns ["1 x "].
Proof. vm_compute. reflexivity. Qed.
(** The rest of the second file is lost when the first ends with a line that matches,
    and all of it when the first is empty. *)
Example join_lost_rest : join_out ["-a2"; "a"; "b"] ["1 x"] ["1 y"; "2 z"; "3 w"] = lns ["1 x y"] ∧ join_out ["-a2"; "a"; "b"] [] ["1 y"] = lns [].
Proof. vm_compute. split; reflexivity. Qed.
(** With -t the blanks in front of the first field are dropped nevertheless. *)
Example join_leading_blank : join_out ["-t,"; "a"; "b"] [" 1,x"] ["1,y"] = lns ["1,x,y"].
Proof. vm_compute. reflexivity. Qed.
(** The comparison reads on behind the shorter field: with the separator x, the
    field 1 is greater than the field 1- of the other file, and a pair is missed. *)
Example join_behind_field : join_out ["-tx"; "a"; "b"] ["1xa"; "1-xb"] ["1-xc"] = lns [].
Proof. vm_compute. reflexivity. Qed.
(** Of two lines without a join field, only the one of the first file is passed
    over at once: the value for that case is negative, and the branch for it is
    never taken. *)
Example join_no_field : join_out ["-2"; "2"; "-1"; "2"; "a"; "b"] ["x"; "y 1"] ["z"; "w 1"] = lns ["1 y w "].
Proof. vm_compute. reflexivity. Qed.

(** ** The fields of a line *)

(** What is found starts with the first character searched for. *)
Lemma memmem_head x c sp k : memmem x (c :: sp) = Some k → drop k x !! 0%nat = Some c.
Proof.
  assert (∀ y k, memchr y c = Some k → drop k y !! 0%nat = Some c) as Hchr.
  { intros y. induction y as [|z y IH]; intros j; cbn [memchr]; [done|]. case_decide; [intros [= <-]; by subst|].
    destruct (memchr y c) as [i|]; [|done]. intros [= <-]. by apply IH. }
  assert (∀ n y s k, head s = Some c → memmem_loop n y s = Some k → drop k y !! 0%nat = Some c) as Hloop.
  { intros n. induction n as [|n IH]; intros y z j Hz; cbn [memmem_loop]; (destruct (bool_decide (head y = head z) && _) eqn:E;
      [apply andb_prop in E as [E%bool_decide_eq_true _]; intros [= <-]; rewrite Hz in E; destruct y; [done|]; by injection E as <-|]).
    - by destruct y.
    - destruct y as [|d y]; [done|]. destruct (memmem_loop n y z) as [i|] eqn:Ei; [|done]. intros [= <-]. by apply (IH y z). }
  unfold memmem. destruct sp as [|d sp]; case_decide; try done; [apply Hchr|]. by apply Hloop.
Qed.
Lemma blank_at_head x k : blank_at x = Some k → ∃ c, drop k x !! 0%nat = Some c ∧ isblank c = true.
Proof.
  revert k. induction x as [|c x IH]; intros k; cbn [blank_at]; [done|]. destruct (isblank c) eqn:E; [intros [= <-]; eauto|].
  destruct (blank_at x); [|done]. intros [= <-]. by apply IH.
Qed.

(** The largest byte that follows a field. *)
Definition limit (o : jopts) : Z := match o_sep o with Some (c :: _) => byte_of c | _ => 32 end.
Definition field_ok (lim : Z) (f : field) : Prop :=
  (len f ≤ length (s f))%nat ∧ ∃ c, drop (len f) (s f) !! 0%nat = Some c ∧ byte_of c ≤ lim.
Definition sep_ok (o : jopts) : Prop := o_sep o ≠ Some [].

Lemma field_at lim (x : cstr) k c : drop k x !! 0%nat = Some c → byte_of c ≤ lim → field_ok lim (mkField (x ++ [NUL]) k).
Proof.
  intros Hd Hc. rewrite lookup_drop, Nat.add_0_r in Hd. pose proof (lookup_lt_Some _ _ _ Hd). split; cbn [s len].
  - rewrite length_app. lia.
  - exists c. split; [|done]. rewrite lookup_drop, Nat.add_0_r. by apply lookup_app_l_Some.
Qed.
Lemma field_last o (x : cstr) : field_ok (limit o) (mkField (x ++ [NUL]) (length x)).
Proof.
  split; cbn [s len]; [rewrite length_app; lia|]. exists NUL. rewrite drop_app_length. split; [done|]. change (0 ≤ limit o). unfold limit.
  destruct (o_sep o) as [[|c ?]|]; try lia. apply byte_of_range.
Qed.
Lemma skip_while_length p x : (length (skip_while p x) ≤ length x)%nat.
Proof. destruct (skip_while_suffix p x) as [y Hy]. rewrite Hy at 2. rewrite length_app. lia. Qed.

Lemma addfields_run o fuel x : sep_ok o → (length x ≤ fuel)%nat → ∃ fs, Forall (field_ok (limit o)) fs ∧ ∀ st, addfields o fuel x st = Ok fs st.
Proof.
  intros Ho. assert (∀ y, ∃ fs, Forall (field_ok (limit o)) fs ∧ ∀ st : cst, mret [mkField (y ++ [NUL]) (length y)] st = Ok fs st) as Heol.
  { intros y. eexists. split; [|by intros]. constructor; [apply field_last|constructor]. }
  revert x. induction fuel as [|fuel IH]; intros x Hf; (destruct x as [|c x]; [apply (Heol [])|]); [simpl in Hf; lia|]. cbn [addfields].
  assert (∀ k r d, drop k (c :: x) !! 0%nat = Some d → byte_of d ≤ limit o → (length r ≤ length x)%nat →
    ∃ fs, Forall (field_ok (limit o)) fs ∧ ∀ st, (fs <- addfields o fuel r ;; mret (mkField ((c :: x) ++ [NUL]) k :: fs)) st = Ok fs st) as Hnext.
  { intros k r d Hd Hl Hr. destruct (IH r ltac:(simpl in Hf; lia)) as (fs & Hfs & Hrun). eexists. split; [|intros st; unfold mbind; by rewrite Hrun].
    constructor; [by eapply field_at|done]. }
  unfold limit in *. destruct (o_sep o) as [[|e sp]|] eqn:Eo; [done| |].
  - case_decide; [apply Heol|]. destruct (memmem (c :: x) (e :: sp)) as [k|] eqn:E; [|apply Heol]. eapply Hnext; [by eapply memmem_head|done|].
    rewrite length_drop. simpl. lia.
  - destruct (blank_at (c :: x)) as [k|] eqn:E; [|apply Heol]. destruct (blank_at_head _ _ E) as (d & Hd & Hb). eapply Hnext; [done| |].
    + unfold isblank in Hb. apply bool_decide_eq_true in Hb as [-> | ->]; vm_compute; done.
    + destruct k as [|k].
      * rewrite drop_0. cbn [blank_at] in E. cbn [skip_while]. destruct (isblank c); [apply skip_while_length|]. by destruct (blank_at x).
      * etransitivity; [apply skip_while_length|]. rewrite length_drop. simpl. lia.
Qed.

(** The line that is made of a line of the file. *)
Definition parsed (o : jopts) (l : cstr) : jline :=
  match makeline o l (mkC [] []) with Ok j _ => j | _ => mkJline [] [] end.
Lemma makeline_run o l : sep_ok o → l ≠ [] → Forall (field_ok (limit o)) (fields (parsed o l)) ∧ ∀ st, makeline o l st = Ok (parsed o l) st.
Proof.
  intros Ho Hl. assert (∃ j, Forall (field_ok (limit o)) (fields j) ∧ ∀ st, makeline o l st = Ok j st) as (j & Hj & Hrun).
  { destruct (last_is_Some l) as [_ [c Hc]]; [done|]. unfold makeline. rewrite Hc. unfold mbind, deref. cbv zeta. set (t := if decide (c = NL) then removelast l else l).
    destruct (addfields_run o (length t) (skip_while isblank t) Ho (skip_while_length _ _)) as (fs & Hfs & Hr).
    exists (mkJline t fs). split; [done|]. intros st. unfold mret at 1. by rewrite Hr. }
  unfold parsed. rewrite Hrun. done.
Qed.

(** ** Comparison of join fields *)

Definition key (jf : Z) (l : jline) : cstr := match fields l !! Z.to_nat jf with Some f => prfield f | None => [] end.
(** The line has its join field, whose characters are above those that follow fields. *)
Definition keyed (lim : Z) (jf : Z) (l : jline) : Prop :=
  (Z.to_nat jf < length (fields l))%nat ∧ Forall (λ c, lim < byte_of c) (key jf l).

Lemma known_cmp_keys lim (a b : cstr) c d r r' : Forall (λ c, lim < byte_of c) a → Forall (λ c, lim < byte_of c) b → byte_of c ≤ lim → byte_of d ≤ lim →
  known_cmp (length a `max` length b) (a ++ c :: r) (b ++ d :: r') = Some (strcmp a b).
Proof.
  intros Ha Hb Hc Hd. revert b Hb. induction Ha as [|x a Hx Ha IH]; intros b Hb; destruct Hb as [|y b Hy Hb]; cbn [length Nat.max app known_cmp strcmp]; [done| | |].
  - rewrite (proj2 (Z.compare_lt_iff _ _)) by lia. done.
  - rewrite (proj2 (Z.compare_gt_iff _ _)) by lia. done.
  - destruct (byte_of x ?= byte_of y); [|done..]. by apply IH.
Qed.
Lemma keyed_field lim jf l : Forall (field_ok lim) (fields l) → keyed lim jf l →
  ∃ f c r, fields l !! Z.to_nat jf = Some f ∧ s f = key jf l ++ c :: r ∧ len f = length (key jf l) ∧ byte_of c ≤ lim.
Proof.
  intros Hok [Hlt _]. destruct (lookup_lt_is_Some_2 _ _ Hlt) as [f Hf]. rewrite Forall_forall in Hok.
  destruct (Hok f) as (Hlen & c & Hc & Hle); [by eapply list_elem_of_lookup_2|]. unfold key. rewrite Hf. unfold prfield.
  destruct (drop (len f) (s f)) as [|c' r] eqn:E; [done|]. injection Hc as ->. exists f, c, r. split_and!; [done| |by rewrite length_take; lia|done].
  by rewrite <- E, take_drop.
Qed.
Lemma jlinecmp_run lim jfa jfb la lb st : Forall (field_ok lim) (fields la) → Forall (field_ok lim) (fields lb) → keyed lim jfa la → keyed lim jfb lb →
  jlinecmp la lb jfa jfb st = Ok (sign (strcmp (key jfa la) (key jfb lb))) st.
Proof.
  intros Ha Hb Ka Kb. destruct (keyed_field _ _ _ Ha Ka) as (f & c & r & Ef & Es & El & Hc), (keyed_field _ _ _ Hb Kb) as (f' & d & r' & Ef' & Es' & El' & Hd).
  unfold jlinecmp. rewrite Ef, Ef'. unfold mbind. rewrite Es, Es', El, El'. rewrite (known_cmp_keys lim) by (apply Ka || apply Kb || done). done.
Qed.

(** ** Nested loops *)

Section nested.
Context (o : jopts) (jfa jfb : Z).

(** What one line of the first file is joined to, and all lines. *)
Definition row (x : jline) (B : list jline) : cstr := concat (map (λ y, if decide (key jfa x = key jfb y) then prjoin o x y jfa jfb else []) B).
Definition nested (A B : list jline) : cstr := concat (map (λ x, row x B) A).

Lemma row_app x B1 B2 : row x (B1 ++ B2) = row x B1 ++ row x B2.
Proof using Type. unfold row. by rewrite map_app, concat_app. Qed.
Lemma nested_app A1 A2 B : nested (A1 ++ A2) B = nested A1 B ++ nested A2 B.
Proof using Type. unfold nested. by rewrite map_app, concat_app. Qed.
Lemma row_none x B : Forall (λ y, key jfa x ≠ key jfb y) B → row x B = [].
Proof using Type. unfold row. induction 1 as [|y B Hy HB IH]; [done|]. simpl. by rewrite decide_False. Qed.
Lemma nested_none A B : Forall (λ x, Forall (λ y, key jfa x ≠ key jfb y) B) A → nested A B = [].
Proof using Type. unfold nested. induction 1 as [|x A Hx HA IH]; [done|]. simpl. by rewrite row_none, IH. Qed.
Lemma nested_app_r A B1 B2 : Forall (λ x, Forall (λ y, key jfa x ≠ key jfb y) B2) A → nested A (B1 ++ B2) = nested A B1.
Proof using Type. unfold nested. induction 1 as [|x A Hx HA IH]; [done|]. simpl. by rewrite row_app, (row_none x B2), app_nil_r, IH. Qed.
Lemma nested_drop_r A B1 B2 : Forall (λ x, Forall (λ y, key jfa x ≠ key jfb y) B1) A → nested A (B1 ++ B2) = nested A B2.
Proof using Type. unfold nested. induction 1 as [|x A Hx HA IH]; [done|]. simpl. by rewrite row_app, (row_none x B1), IH. Qed.

(** All lines of both lists have the same field. *)
Lemma nested_equal k A B : Forall (λ x, key jfa x = k) A → Forall (λ y, key jfb y = k) B →
  nested A B = concat (map (λ x, concat (map (λ y, prjoin o x y jfa jfb) B)) A).
Proof using Type.
  intros HA HB. unfold nested. f_equal. apply map_ext_in. intros x Hx%list_elem_of_In. unfold row. f_equal. apply map_ext_in. intros y Hy%list_elem_of_In.
  rewrite Forall_forall in HA, HB. rewrite decide_True; [done|]. by rewrite HA, HB.
Qed.
End nested.

(** ** The loops of the program *)

Lemma jput_run x ins out : jput x (mkC ins out) = Ok tt (mkC ins (out ++ x)).
Proof. done. Qed.
Lemma mforeach_jput {A} (f : A → M cst unit) (g : A → cstr) l : (∀ x, x ∈ l → ∀ ins out, f x (mkC ins out) = Ok tt (mkC ins (out ++ g x))) →
  ∀ ins out, mforeach f l (mkC ins out) = Ok tt (mkC ins (out ++ concat (map g l))).
Proof.
  induction l as [|x l IH]; intros H ins out; simpl; [by rewrite app_nil_r|]. unfold mbind. rewrite H by left. rewrite IH by (intros; apply H; by right).
  by rewrite app_assoc.
Qed.
Lemma concat_indices {A} (g : A → cstr) (l : list A) (f : nat → cstr) : (∀ i x, l !! i = Some x → f i = g x) → concat (map f (seq 0 (length l))) = concat (map g l).
Proof.
  intros H. f_equal. apply list_eq. intros i. rewrite !list_lookup_fmap. destruct (decide (i < length l)%nat) as [Hi|Hi].
  - rewrite lookup_seq_lt by done. destruct (lookup_lt_is_Some_2 _ _ Hi) as [x Hx]. rewrite Hx. simpl. f_equal. by apply H.
  - rewrite lookup_seq_ge, (lookup_ge_None_2 l) by lia. done.
Qed.
Lemma prspanjoin_run o jfa jfb A B ra rb ins out :
  prspanjoin o (mkSpan (S (length A)) (A ++ ra)) (mkSpan (S (length B)) (B ++ rb)) jfa jfb (mkC ins out) =
  Ok tt (mkC ins (out ++ concat (map (λ x, concat (map (λ y, prjoin o x y jfa jfb) B)) A))).
Proof.
  unfold prspanjoin. cbn [nl lines]. rewrite !Nat.sub_succ, !Nat.sub_0_r.
  pose (at_ := λ (l : list jline) i, default (mkJline [] []) (l !! i)).
  rewrite (mforeach_jput _ (λ i, concat (map (λ j, prjoin o (at_ A i) (at_ B j) jfa jfb) (seq 0 (length B))))).
  - do 3 f_equal. apply concat_indices. intros i x Hi. unfold at_ at 1. rewrite Hi. cbn [default]. apply concat_indices. intros j y Hj. unfold at_. by rewrite Hj.
  - intros i [_ Hi]%elem_of_seq. apply mforeach_jput. intros j [_ Hj]%elem_of_seq ins' out'. unfold mbind, at_.
    destruct (lookup_lt_is_Some_2 A i Hi) as [x Hx], (lookup_lt_is_Some_2 B j Hj) as [y Hy]. rewrite (lookup_app_l_Some A ra i x Hx), (lookup_app_l_Some B rb j y Hy).
    rewrite Hx, Hy. done.
Qed.

Section run.
Context (o : jopts) (Ho : sep_ok o).

(** A stream from which the lines [ls] are still to be read. *)
Definition reads (ins : list (list cstr * bool)) (fp : nat) (ls : list cstr) : Prop := ins !! fp = Some (ls, false).
Definition whole (l : cstr) : Prop := l ≠ [].

Lemma addtospan_end sp fp reset ins out : reads ins fp [] → addtospan o sp fp reset (mkC ins out) = Ok (false, sp) (mkC ins out).
Proof using Type.
  intros Hr. unfold addtospan, mbind. rewrite (getline_run _ _ _ _ _ Hr). cbn [head tail]. rewrite (list_insert_id ins fp) by done.
  unfold ferror, mbind, gets. cbn [c_ins]. by rewrite Hr.
Qed.
Lemma addtospan_run sp fp (reset : bool) ins out l ls : reads ins fp (l :: ls) → whole l →
  addtospan o sp fp reset (mkC ins out) =
  Ok (true, let n := if reset then 0%nat else nl sp in mkSpan (S n) (take n (lines sp) ++ [parsed o l])) (mkC (<[fp := (ls, false)]> ins) out).
Proof using Ho.
  intros Hr Hl. unfold addtospan, mbind. rewrite (getline_run _ _ _ _ _ Hr). cbn [head tail]. cbv zeta.
  destruct (makeline_run o l Ho Hl) as [_ Hm]. by rewrite Hm.
Qed.
Lemma reads_insert ins fp ls ls' : reads ins fp ls → reads (<[fp := (ls', false)]> ins) fp ls'.
Proof using Type. intros H. apply list_lookup_insert_eq. by eapply lookup_lt_Some. Qed.

Lemma reads_other ins fp fp' ls ls' : fp ≠ fp' → reads ins fp ls → reads (<[fp' := ls']> ins) fp ls.
Proof using Type. intros. unfold reads. by rewrite list_lookup_insert_ne. Qed.

(** The lines of a group are collected, and the first that does not belong to it. *)
Lemma collect_run cmp (p : jline → Prop) fp m rest : Forall (λ l, p (parsed o l)) m → Forall whole (m ++ rest) →
  (∀ z, head rest = Some z → ¬ p (parsed o z)) →
  (∀ l, l ∈ m ++ rest → ∃ c, (∀ st, cmp (parsed o l) st = Ok c st) ∧ (c = 0 ↔ p (parsed o l))) →
  ∀ fuel pre ins out, reads ins fp (m ++ rest) → (length m + length rest ≤ fuel)%nat →
  collect o fuel (mkSpan (length pre) pre) fp cmp (mkC ins out) =
  Ok (bool_decide (rest = []), mkSpan (S (length (pre ++ map (parsed o) m))) ((pre ++ map (parsed o) m) ++ map (parsed o) (option_list (head rest))))
    (mkC (<[fp := (tail rest, false)]> ins) out).
Proof using Ho.
  intros Hm. induction Hm as [|l m Hl Hm IH]; intros Hw Hz Hc fuel pre ins out Hr Hf; cbn [app] in *.
  - rewrite app_nil_r. destruct rest as [|z rest]; cbn [head tail option_list map].
    + destruct fuel; cbn [collect]; unfold mbind; rewrite addtospan_end by done; cbn [fst snd nl lines]; rewrite bool_decide_true, app_nil_r by done;
        by rewrite list_insert_id.
    + apply Forall_cons in Hw as [Hwz _]. destruct (Hc z) as (c & Hrun & Hiff); [by left|]. specialize (Hz z eq_refl). rewrite bool_decide_false by done.
      destruct fuel; cbn [collect]; unfold mbind; rewrite (addtospan_run _ _ _ _ _ _ _ Hr Hwz); cbn [fst snd nl lines];
        rewrite take_ge by lia; rewrite Nat.sub_succ, Nat.sub_0_r, lookup_app_r, Nat.sub_diag by lia; cbn [lookup list_lookup deref]; unfold mret at 1; rewrite Hrun;
        rewrite decide_False by tauto; done.
  - destruct fuel as [|fuel]; [simpl in Hf; lia|]. apply Forall_cons in Hw as [Hwl Hw]. destruct (Hc l) as (c & Hrun & Hiff); [by left|].
    cbn [collect]. unfold mbind. rewrite (addtospan_run _ _ _ _ _ _ _ Hr Hwl). cbn [fst snd nl lines].
    rewrite take_ge by lia. rewrite Nat.sub_succ, Nat.sub_0_r, lookup_app_r, Nat.sub_diag by lia. cbn [lookup list_lookup deref]. unfold mret at 1. rewrite Hrun.
    rewrite decide_True by tauto.
    replace (S (length pre)) with (length (pre ++ [parsed o l])) by (rewrite length_app; simpl; lia).
    rewrite IH; [|done|done|intros; apply Hc; by right|by eapply reads_insert|simpl in Hf; lia].
    rewrite <- !(app_assoc pre). cbn [app map]. by rewrite list_insert_insert_eq.
Qed.
End run.

(** Of a sorted list, the lines with the first key and those behind them. *)
Lemma group_split (f : cstr → cstr) k ls : StronglySorted (λ x y, str_le (f x) (f y)) ls → Forall (λ x, str_le k (f x)) ls →
  ∃ m rest, ls = m ++ rest ∧ Forall (λ x, f x = k) m ∧ Forall (λ x, str_lt k (f x)) rest.
Proof.
  induction 1 as [|x ls Hs IH Hx]; intros Hk; [by exists [], []|]. apply Forall_cons in Hk as [Hkx Hk].
  apply str_le_spec in Hkx as [E|Hlt].
  - destruct (IH Hk) as (m & rest & -> & Hm & Hr). exists (x :: m), rest. split_and!; auto.
  - exists [], (x :: ls). split_and!; [done|constructor|]. constructor; [done|]. eapply Forall_impl; [exact Hx|].
    intros y [<- | Hy]%str_le_spec; [done|]. by trans (f x).
Qed.
Lemma str_lt_ne a b : str_lt a b → a ≠ b.
Proof. intros H ->. by apply str_lt_irrefl in H. Qed.

Section loop.
Context (o : jopts) (Ho : sep_ok o) (fa fb : nat) (jfa jfb : Z).

Definition sorted_by (jf : Z) : list cstr → Prop := StronglySorted (λ x y, str_le (key jf (parsed o x)) (key jf (parsed o y))).
Definition good (jf : Z) (l : cstr) : Prop := whole l ∧ keyed (limit o) jf (parsed o l).
Let ka x := key jfa (parsed o x).
Let kb x := key jfb (parsed o x).

Lemma cmp_good x y st : good jfa x → good jfb y → jlinecmp (parsed o x) (parsed o y) jfa jfb st = Ok (sign (strcmp (ka x) (kb y))) st.
Proof using Ho.
  intros [Wx Kx] [Wy Ky]. apply (jlinecmp_run (limit o)); try done; by apply makeline_run.
Qed.
Lemma sign_zero c : sign c = 0 ↔ c = Eq.
Proof using Type. by destruct c. Qed.

Lemma keep_last_run rest (G : list jline) st :
  keep_last (bool_decide (rest = [])) (mkSpan (S (length G)) (G ++ map (parsed o) (option_list (head rest)))) st =
  Ok (match rest with [] => mkSpan 0 (G ++ []) | z :: _ => mkSpan 1 [parsed o z] end) st.
Proof using Type.
  destruct rest as [|z rest]; [done|]. rewrite bool_decide_false by done. unfold keep_last, mbind. cbn [nl lines head option_list map].
  by rewrite Nat.sub_succ, Nat.sub_0_r, lookup_app_r, Nat.sub_diag by lia.
Qed.
Lemma join_loop_end fuel spa spb st : nl spa = 0%nat ∨ nl spb = 0%nat → join_loop o fa fb jfa jfb fuel spa spb st = Ok tt st.
Proof using Type.
  intros H. destruct fuel; cbn [join_loop]; (rewrite (proj2 (orb_true_iff _ _)); [done|]); destruct H; [left|right|left|right]; by apply bool_decide_eq_true.
Qed.

(** The two groups of lines with one key, and the next lines. *)
Lemma nested_groups k x y m rest m' rest' : ka x = k → kb y = k → Forall (λ l, ka l = k) m → Forall (λ l, kb l = k) m' →
  Forall (λ l, str_lt k (ka l)) rest → Forall (λ l, str_lt k (kb l)) rest' →
  nested o jfa jfb (map (parsed o) (x :: m ++ rest)) (map (parsed o) (y :: m' ++ rest')) =
  concat (map (λ x, concat (map (λ y, prjoin o x y jfa jfb) (map (parsed o) (y :: m')))) (map (parsed o) (x :: m))) ++
  nested o jfa jfb (map (parsed o) rest) (map (parsed o) rest').
Proof using Type.
  intros Hx Hy Hm Hm' Hr Hr'. change (x :: m ++ rest) with ((x :: m) ++ rest). change (y :: m' ++ rest') with ((y :: m') ++ rest'). rewrite !map_app, nested_app.
  assert (Forall (λ z, key jfa z = k) (map (parsed o) (x :: m))) as HG by (apply Forall_fmap; by constructor).
  assert (Forall (λ z, key jfb z = k) (map (parsed o) (y :: m'))) as HG' by (apply Forall_fmap; by constructor).
  assert (Forall (λ z, str_lt k (key jfa z)) (map (parsed o) rest)) as HR by (by apply Forall_fmap).
  assert (Forall (λ z, str_lt k (key jfb z)) (map (parsed o) rest')) as HR' by (by apply Forall_fmap).
  rewrite nested_app_r, nested_drop_r, (nested_equal o jfa jfb k) by
    (done || (rewrite Forall_forall in *; intros z Hz; rewrite Forall_forall; intros w Hw;
      first [rewrite (HG z Hz); by apply str_lt_ne, HR'|rewrite (HG' w Hw); by apply not_eq_sym, str_lt_ne, HR])). done.
Qed.

(** The lines with the key [k] are collected. *)
Lemma collect_key jf cmp k fp m rest pre ins out : Forall (good jf) (m ++ rest) → Forall (λ l, key jf (parsed o l) = k) m → Forall (λ l, str_lt k (key jf (parsed o l))) rest →
  (∀ l, good jf l → ∃ c, (∀ st, cmp (parsed o l) st = Ok (sign c) st) ∧ (c = Eq ↔ key jf (parsed o l) = k)) → reads ins fp (m ++ rest) →
  ∀ n, (length (m ++ rest) ≤ n)%nat →
  collect o n (mkSpan (length pre) pre) fp cmp (mkC ins out) =
  Ok (bool_decide (rest = []), mkSpan (S (length (pre ++ map (parsed o) m))) ((pre ++ map (parsed o) m) ++ map (parsed o) (option_list (head rest))))
    (mkC (<[fp := (tail rest, false)]> ins) out).
Proof using Ho.
  intros Hg Hm Hr Hc Hin n Hn. apply (collect_run o Ho cmp (λ l, key jf l = k)); try done.
  - eapply Forall_impl; [exact Hg|]. by intros ? [].
  - intros z Hz. destruct rest as [|z' rest]; [done|]. injection Hz as ->. apply Forall_cons in Hr as [Hz _]. apply not_eq_sym. by apply str_lt_ne.
  - intros l Hl. rewrite Forall_forall in Hg. destruct (Hc l (Hg l Hl)) as (c & Hrun & Hiff). exists (sign c). by rewrite sign_zero.
  - by rewrite <- length_app.
Qed.

(** A line whose key is below all of the other file is joined to nothing. *)
Lemma nested_lt x y la lb : str_lt (ka x) (kb y) → Forall (λ l, str_le (kb y) (kb l)) lb →
  nested o jfa jfb (map (parsed o) (x :: la)) (map (parsed o) (y :: lb)) = nested o jfa jfb (map (parsed o) la) (map (parsed o) (y :: lb)).
Proof using Type.
  intros E Hl. change (map (parsed o) (x :: la)) with ([parsed o x] ++ map (parsed o) la). rewrite nested_app, (nested_none o jfa jfb [_]); [done|].
  constructor; [|done]. apply Forall_fmap. constructor; [by apply str_lt_ne|]. eapply Forall_impl; [exact Hl|].
  intros z Hz. change (ka x ≠ kb z). apply str_le_spec in Hz as [<- | Hz]; apply str_lt_ne; [done|by trans (kb y)].
Qed.
Lemma nested_gt x y la lb : str_lt (kb y) (ka x) → Forall (λ l, str_le (ka x) (ka l)) la →
  nested o jfa jfb (map (parsed o) (x :: la)) (map (parsed o) (y :: lb)) = nested o jfa jfb (map (parsed o) (x :: la)) (map (parsed o) lb).
Proof using Type.
  intros E Hl. change (map (parsed o) (y :: lb)) with ([parsed o y] ++ map (parsed o) lb). apply nested_drop_r. apply Forall_fmap.
  constructor; [constructor; [by apply not_eq_sym, str_lt_ne|done]|]. eapply Forall_impl; [exact Hl|]. intros z Hz. constructor; [|done].
  change (ka z ≠ kb y). apply str_le_spec in Hz as [<- | Hz]; apply not_eq_sym, str_lt_ne; [done|by trans (ka x)].
Qed.
Lemma nested_nil A : nested o jfa jfb A [] = [].
Proof using Type. apply nested_none. apply Forall_forall. by constructor. Qed.

Context (distinct : fa ≠ fb) (Ua : o_unpairsa o = false) (Ub : o_unpairsb o = false) (Pp : o_pairs o = true).

Lemma join_loop_run fuel : ∀ x y la lb ins out, reads ins fa la → reads ins fb lb → Forall (good jfa) (x :: la) → Forall (good jfb) (y :: lb) →
  sorted_by jfa (x :: la) → sorted_by jfb (y :: lb) → (length la + length lb < fuel)%nat →
  ∃ ins', join_loop o fa fb jfa jfb fuel (mkSpan 1 [parsed o x]) (mkSpan 1 [parsed o y]) (mkC ins out) =
    Ok tt (mkC ins' (out ++ nested o jfa jfb (map (parsed o) (x :: la)) (map (parsed o) (y :: lb)))).
Proof using Ho distinct Ua Ub Pp.
  induction fuel as [|fuel IH]; intros x y la lb ins out Ra Rb Ga Gb Sa Sb Hf; [lia|]. cbn [join_loop nl lines lookup list_lookup deref].
  rewrite !bool_decide_false by done. cbn [orb]. unfold mbind at 1 2, mret at 1 2.
  pose proof Ga as [Gx Gla]%Forall_cons. pose proof Gb as [Gy Glb]%Forall_cons. inversion Sa as [|? ? Sla Hxl]; subst. inversion Sb as [|? ? Slb Hyl]; subst.
  unfold mbind at 1. rewrite cmp_good by done. unfold mbind at 1, gets at 1. cbv zeta. cbn [c_ins]. destruct (strcmp (ka x) (kb y)) eqn:E; cbn [sign].
  - apply strcmp_eq in E. rewrite !decide_False by lia. rewrite decide_True by done.
    destruct (group_split ka (ka x) la Sla Hxl) as (m & rest & -> & Hm & Hr). destruct (group_split kb (kb y) lb Slb Hyl) as (m' & rest' & -> & Hm' & Hr').
    rewrite <- E in Hm', Hr'.
    unfold mbind at 1. rewrite (collect_key jfa _ (ka x) fa m rest [parsed o x]); [|done..| |done|by eapply stream_length].
    2: { intros l Hl. eexists. split; [intros st; unfold mbind; by apply cmp_good|]. by rewrite strcmp_eq, <- E. }
    change ([parsed o x] ++ map (parsed o) m) with (map (parsed o) (x :: m)). unfold mbind at 1. cbn [snd lines].
    rewrite (collect_key jfb _ (ka x) fb m' rest' [parsed o y]); [|done..| |by apply reads_other|by eapply stream_length].
    2: { intros l Hl. eexists. split; [intros st; unfold mbind; by apply cmp_good|]. rewrite strcmp_eq. split; intros Heq; by symmetry. }
    change ([parsed o y] ++ map (parsed o) m') with (map (parsed o) (y :: m')).
    cbn [fst snd]. rewrite Pp. unfold mwhen, mbind at 1. rewrite prspanjoin_run. unfold mbind at 1. rewrite keep_last_run. unfold mbind at 1. rewrite keep_last_run.
    rewrite (nested_groups (ka x)) by done. rewrite (app_assoc out).
    apply Forall_app in Gla as [_ Gr]. apply Forall_app in Glb as [_ Gr'].
    destruct rest as [|z rest]; [|destruct rest' as [|w rest']].
    + eexists. rewrite join_loop_end by (by left). cbn [map nested concat]. by rewrite app_nil_r.
    + eexists. rewrite join_loop_end by (by right). cbn [map]. by rewrite nested_nil, app_nil_r.
    + apply IH; try done.
      * apply reads_other; [done|]. by eapply reads_insert.
      * eapply reads_insert. by apply reads_other.
      * by apply StronglySorted_app in Sla as (_ & _ & ?).
      * by apply StronglySorted_app in Slb as (_ & _ & ?).
      * rewrite !length_app in Hf. simpl in Hf. lia.
  - rewrite decide_True by lia. rewrite Ua, Ub. unfold mwhen, mbind at 1, mret at 1.
    rewrite nested_lt by done.
    destruct la as [|x' la]; unfold mbind at 1.
    + rewrite addtospan_end by done. cbn [fst snd]. unfold mbind, mret. eexists. cbn [keep_last]. unfold mret. rewrite join_loop_end by (by left). cbn [map nested concat]. by rewrite app_nil_r.
    + rewrite (addtospan_run o Ho _ _ _ _ _ _ _ Ra) by (by apply Forall_cons in Gla as [[? _] _]). cbn [fst snd take app]. apply IH; try done.
      * by eapply reads_insert.
      * by apply reads_other.
      * simpl in Hf. lia.
  - rewrite decide_False, decide_True by lia. rewrite Ua, Ub. unfold mwhen, mbind at 1, mret at 1.
    assert (str_lt (kb y) (ka x)) as E'. { unfold str_lt. by rewrite (strcmp_flip (ka x) (kb y)), E. }
    rewrite nested_gt by done.
    destruct lb as [|y' lb]; unfold mbind at 1.
    + rewrite addtospan_end by done. cbn [fst snd]. unfold mbind, mret. eexists. cbn [keep_last]. unfold mret. rewrite join_loop_end by (by left).
      cbn [map]. by rewrite nested_nil, app_nil_r.
    + rewrite (addtospan_run o Ho _ _ _ _ _ _ _ Rb) by (by apply Forall_cons in Glb as [[? _] _]). cbn [fst snd take app]. apply IH; try done.
      * by apply reads_other.
      * by eapply reads_insert.
      * simpl in Hf. lia.
Qed.
End loop.

Lemma lines_whole f : Forall whole (lines_of f).
Proof.
  unfold lines_of. generalize (chars_of f) as x. intros x. generalize (@nil ascii). induction x as [|c x IH]; intros acc; cbn [split_lines_from].
  - destruct acc; constructor; [done|constructor].
  - case_decide; [|apply IH]. constructor; [by destruct acc|apply IH].
Qed.

(** Both files are read from their start. *)
Lemma join_run o fa fb jfa jfb A B ins out : sep_ok o → fa ≠ fb → o_unpairsa o = false → o_unpairsb o = false → o_pairs o = true →
  reads ins fa A → reads ins fb B → Forall (good o jfa) A → Forall (good o jfb) B → sorted_by o jfa A → sorted_by o jfb B →
  ∃ ins', join o fa fb jfa jfb (mkC ins out) = Ok tt (mkC ins' (out ++ nested o jfa jfb (map (parsed o) A) (map (parsed o) B))).
Proof.
  intros Ho Hne Ua Ub Pp Ra Rb Ga Gb Sa Sb. unfold join, mbind at 1, gets. cbn [c_ins].
  pose proof (stream_length ins fa A false Ra) as La.
  assert (length A + length B ≤ length (concat (map fst ins)))%nat as Hlen.
  { clear - Hne Ra Rb. revert fa fb Hne Ra Rb. unfold reads. induction ins as [|[x e] ins IH]; intros [|fa] [|fb] Hne Ra Rb; simpl in *; try done; rewrite length_app.
    - injection Ra as -> _. pose proof (stream_length _ _ _ _ Rb). lia.
    - injection Rb as -> _. pose proof (stream_length _ _ _ _ Ra). lia.
    - specialize (IH fa fb ltac:(congruence) Ra Rb). lia. }
  destruct A as [|x A]; [|destruct B as [|y B]].
  - exists (match B with [] => ins | _ => <[fb := (tail B, false)]> ins end). unfold mbind at 1. rewrite addtospan_end by done. unfold mbind at 1. cbn [map nested concat]. rewrite app_nil_r. destruct B as [|y B].
    + rewrite addtospan_end by done. apply join_loop_end. by left.
    + apply Forall_cons in Gb as [[Wy _] _]. rewrite (addtospan_run o Ho _ _ _ _ _ _ _ Rb Wy). apply join_loop_end. by left.
  - exists (<[fa := (A, false)]> ins). apply Forall_cons in Ga as [[Wx _] _]. unfold mbind at 1. rewrite (addtospan_run o Ho _ _ _ _ _ _ _ Ra Wx). unfold mbind at 1.
    rewrite addtospan_end by (by apply reads_other). cbn [map]. rewrite nested_nil, app_nil_r. apply join_loop_end. by right.
  - pose proof Ga as [[Wx _] _]%Forall_cons. pose proof Gb as [[Wy _] _]%Forall_cons. unfold mbind at 1. rewrite (addtospan_run o Ho _ _ _ _ _ _ _ Ra Wx). unfold mbind at 1.
    rewrite (addtospan_run o Ho _ _ _ _ _ y B) by (done || by apply reads_other). cbn [fst snd take app]. apply join_loop_run; try done.
    + apply reads_other; [done|]. by eapply reads_insert.
    + eapply reads_insert. by apply reads_other.
    + simpl in Hlen. lia.
Qed.

(** ** Tables *)

(** A file as a table: a row is the list of its fields. *)
Fixpoint sepjoin (sep : cstr) (ws : list cstr) : cstr :=
  match ws with
  | [] => []
  | [w] => w
  | w :: ws => w ++ sep ++ sepjoin sep ws
  end.
Definition row_line (o : jopts) (r : list cstr) : cstr := sepjoin (prsep o) r ++ [NL].
Definition table (o : jopts) (t : list (list cstr)) : FILE := mkFile (bytes_of (concat (map (row_line o) t))) false.
(** Fields are not empty, and their characters are above blanks and the separator. *)
Definition word (o : jopts) (w : cstr) : Prop := w ≠ [] ∧ Forall (λ c, 32 `max` limit o < byte_of c) w.
Definition one_sep (o : jopts) : Prop := match o_sep o with None => True | Some x => length x = 1%nat ∧ NL ∉ x end.

(** The row printed for two rows with one join field: without -o the field,
    the others of the first and the others of the second; behind them there is a
    separator if the join field of the second row was its last. *)
Definition spec_value (o : jopts) (ja : nat) (x y : list cstr) (sp : spec) : cstr :=
  let missing := default [] (o_replace o) in
  if decide (fileno sp = 1) then default missing (x !! Z.to_nat (fldno sp))
  else if decide (fileno sp = 2) then default missing (y !! Z.to_nat (fldno sp))
  else if decide (fileno sp = 0) then default [] (x !! ja) else [].
Definition without (j : nat) (r : list cstr) : list cstr := take j r ++ drop (S j) r.
Definition joined (o : jopts) (ja jb : nat) (x y : list cstr) : cstr :=
  if o_oflag o then sepjoin (prsep o) (map (spec_value o ja x y) (o_output o))
  else sepjoin (prsep o) (default [] (x !! ja) :: without ja x ++ without jb y) ++ (if decide (S jb = length y) then prsep o else []).

Lemma sepjoin_app sep a b : b ≠ [] → sepjoin sep (a ++ b) = concat (map (λ w, w ++ sep) a) ++ sepjoin sep b.
Proof.
  intros Hb. induction a as [|w a IH]; [done|]. cbn [app map concat]. destruct (a ++ b) as [|v l] eqn:E; [by destruct a|].
  cbn [sepjoin] in *. rewrite IH. by rewrite <- !app_assoc.
Qed.
Lemma sepjoin_last sep a : a ≠ [] → sepjoin sep a ++ sep = concat (map (λ w, w ++ sep) a).
Proof.
  induction a as [|w [|v a] IH]; intros Ha; [done|simpl; by rewrite app_nil_r|]. change (sepjoin sep (w :: v :: a)) with (w ++ sep ++ sepjoin sep (v :: a)).
  rewrite <- !app_assoc, IH by done. cbn [map concat]. by rewrite <- !app_assoc.
Qed.

Lemma blank_at_word w rest : Forall (λ c, isblank c = false) w → blank_at (w ++ rest) = Nat.add (length w) <$> blank_at rest.
Proof. induction 1 as [|c w Hc Hw IH]; [simpl; by destruct (blank_at rest)|]. cbn [app blank_at length]. rewrite Hc, IH. by destruct (blank_at rest). Qed.
Lemma memchr_word c w rest : Forall (λ d, d ≠ c) w → memchr (w ++ rest) c = Nat.add (length w) <$> memchr rest c.
Proof. induction 1 as [|d w Hd Hw IH]; [simpl; by destruct (memchr rest c)|]. cbn [app memchr length]. rewrite decide_False by done. rewrite IH. by destruct (memchr rest c). Qed.
Lemma word_plain o w : word o w → Forall (λ c, isblank c = false) w ∧ NL ∉ w ∧ Forall (λ c, limit o < byte_of c) w.
Proof.
  intros [_ Hw]. split_and!.
  - eapply Forall_impl; [exact Hw|]. intros c Hc. apply bool_decide_eq_false. intros [-> | ->]; revert Hc; [change (byte_of " "%char) with 32|change (byte_of TAB) with 9]; lia.
  - rewrite Forall_forall in Hw. intros Hn%Hw. change (byte_of NL) with 10 in Hn. lia.
  - eapply Forall_impl; [exact Hw|]. intros c Hc. simpl in Hc. lia.
Qed.
Lemma sepjoin_start o v r : word o v → ∃ c x, sepjoin (prsep o) (v :: r) = c :: x ∧ isblank c = false.
Proof.
  intros Hv. destruct (word_plain o v Hv) as (Hb & _ & _). destruct Hv as [Hv _]. destruct v as [|c v]; [done|]. apply Forall_cons in Hb as [Hc _].
  destruct r; eexists c, _; (split; [reflexivity|done]).
Qed.

(** The fields of a row are read back. *)
Lemma addfields_words o r : one_sep o → r ≠ [] → Forall (word o) r → ∀ fuel, (length (sepjoin (prsep o) r) ≤ fuel)%nat →
  ∃ fs, map prfield fs = r ∧ ∀ st, addfields o fuel (sepjoin (prsep o) r) st = Ok fs st.
Proof.
  intros Hs Hne Hr. induction Hr as [|w r Hw Hr IH]; [done|]. intros fuel Hf. destruct (sepjoin_start o w r Hw) as (c & x & E & Hc).
  rewrite E in *. destruct fuel as [|fuel]; [simpl in Hf; lia|]. cbn [addfields]. rewrite <- E in *. clear E.
  destruct (word_plain o w Hw) as (Hb & _ & Hl). destruct r as [|v r].
  - exists [mkField (w ++ [NUL]) (length w)]. split; [unfold prfield; cbn [map len s]; by rewrite take_app_length|]. intros st. cbn [sepjoin].
    unfold one_sep, limit in *. destruct (o_sep o) as [[|d [|]]|]; try (by destruct Hs).
    + case_decide; [done|]. cbn [memmem]. case_decide; [done|]. pose proof (memchr_word d w []) as Hm. rewrite app_nil_r in Hm. rewrite Hm; [done|].
      eapply Forall_impl; [exact Hl|]. intros e He ->. simpl in He. lia.
    + pose proof (blank_at_word w [] Hb) as Hm. rewrite app_nil_r in Hm. by rewrite Hm.
  - change (sepjoin (prsep o) (w :: v :: r)) with (w ++ prsep o ++ sepjoin (prsep o) (v :: r)) in *.
    destruct (sepjoin_start o v r) as (e & y & Ey & He); [by apply Forall_cons in Hr as [? _]|].
    destruct (IH ltac:(done) fuel) as (fs & Hfs & Hrun).
    { rewrite !length_app in Hf. destruct Hw as [Hw _]. destruct w; [done|]. cbn [length] in Hf. lia. }
    exists (mkField ((w ++ prsep o ++ sepjoin (prsep o) (v :: r)) ++ [NUL]) (length w) :: fs).
    split; [cbn [map]; rewrite Hfs; unfold prfield; cbn [len s]; by rewrite <- app_assoc, take_app_length|]. intros st.
    unfold one_sep, limit in *. unfold prsep in *. destruct (o_sep o) as [[|d [|]]|]; try (by destruct Hs).
    + case_decide as Hlen; [rewrite !length_app in Hlen; simpl in Hlen; lia|]. cbn [memmem]. rewrite decide_False by (by rewrite !length_app; simpl; lia).
      rewrite memchr_word by (eapply Forall_impl; [exact Hl|]; intros z Hz ->; simpl in Hz; lia). cbn [app memchr]. rewrite decide_True by done. cbn [fmap option_fmap option_map].
      rewrite Nat.add_0_r, <- drop_drop, drop_app_length. unfold mbind. cbn [length drop]. by rewrite Hrun.
    + rewrite blank_at_word by done. cbn [app blank_at]. change (isblank " "%char) with true. cbn [fmap option_fmap option_map]. rewrite Nat.add_0_r, drop_app_length.
      cbn [skip_while]. change (isblank " "%char) with true. cbv iota.
      rewrite Ey in *. cbn [skip_while]. rewrite He. unfold mbind. by rewrite Hrun.
Qed.

Definition row_ok (o : jopts) (j : nat) (r : list cstr) : Prop := Forall (word o) r ∧ (j < length r)%nat.

Lemma one_sep_ok o : one_sep o → sep_ok o.
Proof. unfold one_sep, sep_ok. intros H E. rewrite E in H. by destruct H. Qed.
Lemma parsed_row o j r : one_sep o → row_ok o j r → map prfield (fields (parsed o (row_line o r))) = r.
Proof.
  intros Hs [Hr Hj]. assert (r ≠ []) as Hne by (by intros ->; simpl in Hj; lia). unfold parsed, makeline, row_line, mbind. rewrite last_snoc. cbn [deref]. unfold mret at 1. cbv zeta.
  rewrite decide_True by done. rewrite removelast_last. destruct (addfields_words o r Hs Hne Hr _ (Nat.le_refl _)) as (fs & Hfs & Hrun).
  replace (skip_while isblank (sepjoin (prsep o) r)) with (sepjoin (prsep o) r); [by rewrite Hrun|].
  destruct Hr as [|v r Hv Hr]; [done|]. destruct (sepjoin_start o v r Hv) as (c & x & -> & Hc). cbn [skip_while]. by rewrite Hc.
Qed.
Lemma key_row j l r : map prfield (fields l) = r → key (Z.of_nat j) l = default [] (r !! j).
Proof. intros <-. unfold key. rewrite Nat2Z.id, list_lookup_fmap. by destruct (fields l !! j). Qed.

(** The fields of both rows but the join fields, as the two loops print them. *)
Lemma imap_others (g : nat → field → cstr) l1 f l2 :
  concat (imap (λ i f, if decide (Z.of_nat i ≠ Z.of_nat (length l1)) then g i f else []) (l1 ++ f :: l2)) =
  concat (imap g l1) ++ concat (imap (λ i, g (S (length l1 + i))) l2).
Proof.
  rewrite imap_app, imap_cons, concat_app. cbn [concat]. rewrite decide_False by lia. cbn [app]. f_equal; f_equal; apply imap_ext; intros i x Hi; cbn.
  - apply lookup_lt_Some in Hi. by rewrite decide_True by lia.
  - rewrite decide_True by lia. by rewrite Nat.add_succ_r.
Qed.
Lemma imap_sepjoin sep (fs : list field) n k : n = (k + length fs)%nat →
  concat (imap (λ i f, prfield f ++ (if decide (Z.of_nat (k + i) < Z.of_nat n - 1) then sep else [])) fs) = sepjoin sep (map prfield fs).
Proof.
  revert k. induction fs as [|f fs IH]; intros k Hn; [done|]. rewrite imap_cons. cbn [concat length] in *. destruct fs as [|g fs].
  - rewrite decide_False by (simpl in Hn; lia). simpl. by rewrite !app_nil_r.
  - rewrite decide_True by (simpl in Hn; lia). change (sepjoin sep (map prfield (f :: g :: fs))) with (prfield f ++ sep ++ sepjoin sep (map prfield (g :: fs))).
    rewrite <- (IH (S k)) by lia. rewrite <- app_assoc. do 3 f_equal. apply imap_ext. intros i x _. cbn. by rewrite Nat.add_succ_r.
Qed.
Lemma imap_sep sep (fs : list field) (P : nat → Prop) `{∀ i, Decision (P i)} : (∀ i, (i < length fs)%nat → P i) →
  concat (imap (λ i f, prfield f ++ (if decide (P i) then sep else [])) fs) = concat (map (λ w, w ++ sep) (map prfield fs)).
Proof.
  intros H0. rewrite map_map. f_equal. rewrite <- (imap_const (λ f, prfield f ++ sep)). apply imap_ext. intros i f Hi. by rewrite decide_True by (eapply H0, lookup_lt_Some; done).
Qed.
Lemma row_split {A} (l : list A) j : (j < length l)%nat → ∃ l1 x l2, l = l1 ++ x :: l2 ∧ length l1 = j.
Proof.
  intros Hj. destruct (lookup_lt_is_Some_2 l j Hj) as [x Hx]. exists (take j l), x, (drop (S j) l). split; [by rewrite take_drop_middle|]. rewrite length_take. lia.
Qed.
Lemma without_split l1 (x : cstr) l2 : without (length l1) (l1 ++ x :: l2) = l1 ++ l2.
Proof. unfold without. rewrite take_app_length. f_equal. change (x :: l2) with ([x] ++ l2). rewrite app_assoc. apply drop_app_length'. rewrite length_app. simpl. lia. Qed.

Lemma prspecs_row o la lb x y ja f l : map prfield (fields la) = x → map prfield (fields lb) = y → prfield f = default [] (x !! ja) →
  prspecs o la lb f l = sepjoin (prsep o) (map (spec_value o ja x y) l).
Proof.
  intros Hx Hy Hf. assert (∀ sp, prspec o la lb f sp = spec_value o ja x y sp) as H1.
  { intros sp. unfold prspec, spec_value. rewrite Hf, <- Hx, <- Hy, !list_lookup_fmap. cbv zeta. unfold default.
    repeat case_decide; [destruct (fields la !! _)|destruct (fields lb !! _)|..]; try done; by destruct (o_replace o). }
  induction l as [|sp [|sp' l] IH]; [done|apply H1|]. change (prspecs o la lb f (sp :: sp' :: l)) with (prspec o la lb f sp ++ prsep o ++ prspecs o la lb f (sp' :: l)).
  rewrite IH, H1. done.
Qed.
Lemma prjoin_row o la lb x y ja jb : map prfield (fields la) = x → map prfield (fields lb) = y → (ja < length x)%nat → (jb < length y)%nat →
  prjoin o la lb (Z.of_nat ja) (Z.of_nat jb) = joined o ja jb x y ++ [NL].
Proof.
  intros Hx Hy Ha Hb. pose proof (f_equal length Hx) as Lx. pose proof (f_equal length Hy) as Ly. rewrite length_map in Lx, Ly.
  destruct (row_split (fields la) ja ltac:(lia)) as (a1 & f & a2 & Ea & Ja). destruct (row_split (fields lb) jb ltac:(lia)) as (b1 & g & b2 & Eb & Jb).
  unfold prjoin. rewrite !Nat2Z.id, Ea, Eb, !list_lookup_middle by done. unfold joined. f_equal.
  assert (x !! ja = Some (prfield f)) as Ex by (rewrite <- Hx, Ea, map_app; cbn [map]; apply list_lookup_middle; by rewrite length_map).
  destruct (o_oflag o); [apply prspecs_row; [done..|by rewrite Ex]|]. rewrite Ex. cbn [default].
  unfold others_a, others_b. subst ja jb. rewrite (imap_others (λ i f, prfield f ++ prsep o)), (imap_others (λ i f, prfield f ++ _)).
  rewrite (imap_sep _ b1), (imap_sepjoin _ b2 _ (S (length b1))) by (rewrite length_app; simpl; lia).
  rewrite !(imap_const (λ f, prfield f ++ prsep o)), <- concat_app, <- fmap_app, <- (map_map prfield (λ w, w ++ prsep o)), map_app.
  assert (without (length a1) x = map prfield a1 ++ map prfield a2) as -> by (rewrite <- Hx, Ea, map_app, <- (length_map prfield a1); apply without_split).
  assert (without (length b1) y = map prfield b1 ++ map prfield b2) as -> by (rewrite <- Hy, Eb, map_app, <- (length_map prfield b1); apply without_split).
  set (xs := map prfield a1 ++ map prfield a2). rewrite Eb, length_app in Ly. cbn [length] in Ly. unfold id. destruct b2 as [|h b2].
  - rewrite decide_True by (simpl in Ly; lia). change (map prfield []) with (@nil cstr). change (sepjoin (prsep o) []) with (@nil ascii). rewrite !app_nil_r. rewrite sepjoin_last by done. cbn [map concat]. by rewrite map_app, concat_app, <- app_assoc.
  - rewrite decide_False by (simpl in Ly; lia). rewrite app_nil_r. rewrite (app_assoc xs), app_comm_cons, sepjoin_app by done. cbn [map concat].
    by rewrite map_app, concat_app, <- !app_assoc.
Qed.

(** The join of two tables, as two nested loops. *)
Definition equijoin (o : jopts) (ja jb : nat) (TA TB : list (list cstr)) : cstr :=
  concat (map (λ x, concat (map (λ y, if decide (x !! ja = y !! jb) then joined o ja jb x y ++ [NL] else []) TB)) TA).
Definition sorted_on (j : nat) : list (list cstr) → Prop := StronglySorted (λ x y, str_le (default [] (x !! j)) (default [] (y !! j))).

Lemma sepjoin_no_nl o r : one_sep o → Forall (word o) r → NL ∉ sepjoin (prsep o) r.
Proof.
  intros Hs. assert (NL ∉ prsep o) as Hn.
  { unfold one_sep, prsep in *. destruct (o_sep o); [by destruct Hs|]. rewrite not_elem_of_cons. split; [done|apply not_elem_of_nil]. }
  induction 1 as [|w [|v r] Hw Hr IH]; [apply not_elem_of_nil|by apply (word_plain o w Hw)|].
  change (sepjoin (prsep o) (w :: v :: r)) with (w ++ prsep o ++ sepjoin (prsep o) (v :: r)). rewrite !not_elem_of_app. split_and!; [|done..]. by apply (word_plain o w Hw).
Qed.
Lemma lines_of_table o j T : one_sep o → Forall (row_ok o j) T → lines_of (table o T) = map (row_line o) T.
Proof.
  intros Hs HT. unfold table, row_line. rewrite <- (map_map (sepjoin (prsep o)) (λ l, l ++ [NL])). apply lines_of_joined. apply Forall_fmap.
  eapply Forall_impl; [exact HT|]. intros r [Hr _]. by apply sepjoin_no_nl.
Qed.
Lemma row_good o j r : one_sep o → row_ok o j r → good o (Z.of_nat j) (row_line o r).
Proof.
  intros Hs Hr. pose proof (parsed_row o j r Hs Hr) as Hp. destruct Hr as [Hw Hj]. split; [unfold whole, row_line; by destruct (sepjoin _ _)|]. split.
  - apply (f_equal length) in Hp. rewrite length_map in Hp. rewrite Hp. lia.
  - rewrite (key_row j _ r Hp). destruct (r !! j) as [w|] eqn:E; [|constructor]. rewrite Forall_forall in Hw. apply list_elem_of_lookup_2, Hw in E. by apply word_plain.
Qed.
Lemma table_sorted o j T : one_sep o → Forall (row_ok o j) T → sorted_on j T → sorted_by o (Z.of_nat j) (map (row_line o) T).
Proof.
  intros Hs HT. induction 1 as [|x T HS IH Hx]; [constructor|]. apply Forall_cons in HT as [Hr HT]. constructor; [by apply IH|]. apply Forall_fmap.
  rewrite Forall_forall in *. intros y Hy. unfold compose. cbv beta. rewrite (key_row j _ x (parsed_row o j x Hs Hr)), (key_row j _ y (parsed_row o j y Hs (HT y Hy))). by apply Hx.
Qed.
Lemma nested_tables o ja jb TA TB : one_sep o → Forall (row_ok o ja) TA → Forall (row_ok o jb) TB →
  nested o (Z.of_nat ja) (Z.of_nat jb) (map (parsed o) (map (row_line o) TA)) (map (parsed o) (map (row_line o) TB)) = equijoin o ja jb TA TB.
Proof.
  intros Hs HA HB. rewrite Forall_forall in HA, HB. unfold nested, equijoin, row. rewrite !map_map. f_equal. apply map_ext_in. intros x Hx%list_elem_of_In%HA. f_equal.
  rewrite !map_map. apply map_ext_in. intros y Hy%list_elem_of_In%HB. pose proof (parsed_row o ja x Hs Hx) as Px. pose proof (parsed_row o jb y Hs Hy) as Py.
  rewrite (key_row ja _ x Px), (key_row jb _ y Py). destruct Hx as [_ Lx], Hy as [_ Ly]. rewrite (prjoin_row o _ _ x y) by done.
  destruct (lookup_lt_is_Some_2 x ja Lx) as [u ->], (lookup_lt_is_Some_2 y jb Ly) as [v ->]. cbn. repeat case_decide; congruence.
Qed.

(** C40: join is the relational join of two tables: for files whose rows are sorted by
    their join fields, given with -1 and -2, the merge of groups ends with status
    0 and prints what two nested loops over the rows print, for each pair with
    equal join fields one row, in that order; with -o the row has the fields of
    the list.  The characters of fields are above the separator, which is one
    character, and above blanks. *)
Theorem join_relational files argv0 args p q o ja jb TA TB s :
  join_options argv0 args s = Ok ([p; q], o) s → o_jf0 o = Z.of_nat (S ja) → o_jf1 o = Z.of_nat (S jb) → one_sep o →
  o_unpairsa o = false → o_unpairsb o = false → o_pairs o = true → p ≠ lit "-" → q ≠ lit "-" →
  files !! p = Some (table o TA) → files !! q = Some (table o TB) →
  Forall (row_ok o ja) TA → Forall (row_ok o jb) TB → sorted_on ja TA → sorted_on jb TB →
  ∃ ins, join_main files argv0 args s = Ok 0 (mkC ins (c_out s ++ equijoin o ja jb TA TB)).
Proof.
  intros Hopt Ja Jb Hs Ua Ub Pp Hp Hq Fp Fq RA RB SA SB. destruct s as [ins out].
  destruct (join_run o (length ins) (S (length ins)) (Z.of_nat ja) (Z.of_nat jb) (map (row_line o) TA) (map (row_line o) TB) (ins ++ [(lines_of (table o TA), false); (lines_of (table o TB), false)]) out)
    as (ins' & Hr); auto using one_sep_ok, table_sorted.
  - unfold reads. rewrite lookup_app_r, Nat.sub_diag by lia. by rewrite (lines_of_table o ja).
  - unfold reads. rewrite lookup_app_r by lia. replace (S (length ins) - length ins)%nat with 1%nat by lia. by rewrite (lines_of_table o jb TB).
  - apply Forall_fmap. eapply Forall_impl; [exact RA|]. intros r. by apply row_good.
  - apply Forall_fmap. eapply Forall_impl; [exact RB|]. intros r. by apply row_good.
  - exists ins'. rewrite nested_tables in Hr by done. unfold join_main. unfold mbind at 1. rewrite Hopt. cbn [fst snd]. unfold mbind at 1, fopen at 1.
    rewrite decide_False by done. rewrite Fp. unfold mbind at 1, gets, modify, mret. unfold mbind at 1, fopen. rewrite decide_False by done. rewrite Fq.
    unfold mbind at 1 2 3, gets, modify, mret. do 2 (change (set c_ins ?f (mkC ?i ?x)) with (mkC (f i) x); cbv beta). cbn [c_ins c_out f_err table]. rewrite <- !app_assoc. cbn [app].
    rewrite length_app. cbn [length]. rewrite Nat.add_1_r, Ja, Jb. replace (Z.of_nat (S ja) - 1) with (Z.of_nat ja) by lia. replace (Z.of_nat (S jb) - 1) with (Z.of_nat jb) by lia.
    unfold mbind. by rewrite Hr.
Qed.

Definition sample_opts : jopts := mkJ 2 1 (Some [","%char]) None false false false true [].
Definition sample_a : list (list cstr) := [lits ["x"; "1"]; lits ["y"; "2"]; lits ["z"; "2"]].
Definition sample_b : list (list cstr) := [lits ["2"; "p"; "q"]; lits ["3"; "r"; "s"]].
Lemma join_relational_witness : ∃ ins,
  join_main {[ lit "a" := table sample_opts sample_a; lit "b" := table sample_opts sample_b ]} (lit "join") (lits ["-t,"; "-1"; "2"; "a"; "b"]) (mkC [([], false)] []) =
  Ok 0 (mkC ins (concat (map (λ x, lit x ++ [NL]) ["2,y,p,q"; "2,z,p,q"]))).
Proof.
  change (concat (map _ ["2,y,p,q"; "2,z,p,q"])) with ([] ++ concat (map (λ x, lit x ++ [NL]) ["2,y,p,q"; "2,z,p,q"])).
  replace (concat (map (λ x, lit x ++ [NL]) ["2,y,p,q"; "2,z,p,q"])) with (equijoin sample_opts 1 0 sample_a sample_b) by (vm_compute; reflexivity).
  apply (join_relational _ (lit "join") _ (lit "a") (lit "b") sample_opts 1 0 sample_a sample_b (mkC [([], false)] [])); try reflexivity; try discriminate.
  - split; [done|]. rewrite not_elem_of_cons. split; [discriminate|apply not_elem_of_nil].
  - repeat (constructor; [split; [repeat (constructor; [split; [discriminate|repeat (constructor; [vm_compute; reflexivity|]); constructor]|]); constructor|vm_compute; lia]|]). constructor.
  - repeat (constructor; [split; [repeat (constructor; [split; [discriminate|repeat (constructor; [vm_compute; reflexivity|]); constructor]|]); constructor|vm_compute; lia]|]). constructor.
  - repeat (constructor; [|repeat (constructor; [vm_compute; discriminate|]); constructor]). constructor.
  - repeat (constructor; [|repeat (constructor; [vm_compute; discriminate|]); constructor]). constructor.
Defined.
